(* ===== verification/_CoqProject ===== *)
-Q . S2P
Prelude.v
Types.v
Common.v
Acceptor.v
Election.v
Learner.v
Executor.v
Proposer.v
Components.v
Environment.v
Replica.v
ReplicaSteps.v
ReplicaImpl.v
DistributedSystem.v
Agreement.v
ReplicatedLog.v
Validity.v
Service.v
ReplicaInvariants.v
ImplSystem.v
Scenario.v
Properties.v
ServiceProperties.v
Marshalling.v
MarshallingLaws.v
WireFormat.v
WireProperties.v
GenericHost.v
FieldWire.v
GenericSystem.v
RaftTypes.v
RaftMembership.v
RaftProtocol.v
RaftImpl.v
RaftHost.v
RaftCluster.v
RaftInvariants.v
RaftSafety.v
RaftSystem.v
RaftProperties.v
TwoPhase.v
TwoPhaseHost.v
TwoPhaseSystem.v
TwoPhaseProperties.v
Paxos.v
PaxosHost.v
PaxosSystem.v
PaxosInvariants.v
PaxosSteps.v
PaxosSafety.v
PaxosProperties.v
Lock.v
LockImpl.v
LockSystem.v
LockProperties.v
Ordering.v
SmallIntSet.v
RuntimeValue.v
ValueKeys.v
DedupKeys.v
Explorer.v
ExplorerInvariants.v
StateGraph.v
Tarjan.v
Liveness.v
LivenessLaws.v
ModelCheckProperties.v
SpecAst.v
EvalOps.v
Evaluator.v
Bytecode.v
BytecodeVm.v
VmLaws.v
CompilerLaws.v
CompilerBodies.v
CompilerCorrect.v
BytecodeTotal.v
BytecodeTypes.v
BytecodeProperties.v
