(* ===== verification/Prelude.v ===== *)
(** * Verification of tla-rs: replicated protocols, their hosts, and the model checker

    The repository holds distributed protocols in two forms: a specification
    (src/src/protocol), whose [L] predicates relate a state, its successor and
    the packets sent, and executable Rust (src/src/generated, written by the
    transpiler, and src/src/implementation), whose [C] functions the running
    services call.  This development models protocols in both forms, down to the
    bytes their hosts exchange, and proves what they promise: the replicated
    state library RSL (Multi-Paxos with batching, view changes, log truncation
    and state transfer), Raft, single-decree Paxos, two-phase commit, and the
    lock service.  The repository also has an explicit-state model checker for the
    specifications (src/transpiler/src/modelcheck, with the values of
    src/transpiler/runtime); the development models its values, its search and its
    liveness check, and proves that what it reports is so.

    ** The program's parts and the files that model them

    Shared
    - Prelude.v: Verus sequences ([Seq] indexed by [int]), 64-bit arithmetic with
      its wrap-around, lemmas on lists, maps and quorums, the collections
      helpers of common/collections, chains of parents in a search, and finite
      behaviours with their simulation (services/lock/main_s.rs).
    - Environment.v: common/framework/environment_s.rs, hosts' I/O operations
      and the network, which may lose, repeat and reorder packets.
    - GenericHost.v: common/framework/{protocol_trait,generic_net,generic_host,
      generic_main}.rs, the loop that every protocol but RSL and the lock service
      runs in, over classes for the Rust traits, with the list of peers
      that the protocols' host.rs reads alike; FieldWire.v: the fields of messages,
      which their message.rs treat alike; GenericSystem.v: hosts of that loop that
      exchange datagrams, with the cases of a step and induction over runs, for any
      protocol whose messages are read back (the class [WireLaws]), and how to
      compute such runs.

    RSL, one file per component, each with its specification
    (protocol/RSL/<component>.rs), its executable code
    (generated/RSL/<component>_gen.rs, implementation/RSL) and the refinement
    between them
    - Types.v, Common.v: messages, ballots, configurations and constants; the
      application (a capped counter), batches and broadcasting.
    - Acceptor.v, Election.v, Learner.v, Executor.v, Proposer.v.
    - Replica.v (protocol/RSL/replica.rs): every message handler, the timed
      actions and the scheduler of ten actions; ReplicaImpl.v: the executable
      replica, its event loop Replica_Next_main and the delivery of packets.
    - Components.v: the interface (a class) through which a replica uses its
      components, and the refinement of runs, proved once against it.
    - DistributedSystem.v (protocol/RSL/distributed_system.rs): the transition
      relation RslNext of all replicas and the network; ImplSystem.v: the system
      of hosts that run the executable code, with and without a record of the
      packets they failed to send.
    - ReplicaSteps.v, ReplicaInvariants.v, Agreement.v, ReplicatedLog.v,
      Validity.v: the invariants of RslNext, up to agreement and the one log.
    - Service.v: the centralized service RSL promises to be
      (protocol/RSL/refinement_proof) and the abstraction of protocol states.
    - Marshalling.v (implementation/common/marshalling.rs), MarshallingLaws.v,
      WireFormat.v: the Marshalable trait with its instances and derive macros, and
      RSL's messages as bytes; hosts that exchange bytes are in WireProperties.v.

    Raft
    - RaftTypes.v, RaftMembership.v, RaftProtocol.v: protocol/Raft/{types,
      membership,raft,raft_refinement}.rs, with the executable types and the
      executable quorum tests (generated/Raft/types_gen.rs,
      implementation/Raft/membership_helpers.rs) beside what they decide.
    - RaftImpl.v (generated/Raft/raft_gen.rs): the executable server, each
      function proved to keep the state valid and to refine its action.
    - RaftHost.v (implementation/Raft/{message,host}.rs): the host of
      the generic loop, its timers, heartbeats and commit search, and its bytes.
    - RaftCluster.v, RaftInvariants.v, RaftSafety.v: the servers of one cluster
      and their messages, and the invariants up to agreement.
    - RaftSystem.v: hosts that exchange datagrams, and their simulation by the
      cluster.

    Two-phase commit
    - TwoPhase.v (protocol/TwoPhase, generated/TwoPhase): the protocol, whose
      state is that of all participants, and its executable functions;
      TwoPhaseHost.v (implementation/TwoPhase): messages and host;
      TwoPhaseSystem.v: the global state that the hosts' states stand for.

    Single-decree Paxos
    - Paxos.v (protocol/Paxos, generated/Paxos): the acceptor's and the leader's
      actions and the executable functions; PaxosHost.v (implementation/Paxos):
      messages and host; PaxosSystem.v: hosts that exchange datagrams;
      PaxosInvariants.v, PaxosSteps.v, PaxosSafety.v: the invariants up to
      agreement, and the abstract register that consensus is.

    Lock service
    - Lock.v (protocol/lock): nodes, the system and its environment, and the
      service it promises; LockImpl.v (generated/lock, implementation/lock): the
      executable node, its messages and its loop; LockSystem.v: the hosts.

    Model checker
    - Ordering.v: comparison functions with laws, sorted lists as the sets and maps
      of BTreeSet and BTreeMap.
    - SmallIntSet.v, RuntimeValue.v (runtime/src/{small_int_set,value}.rs): bitmaps
      of integers; values, with sets in two representations, their order, equality,
      hash input, canonical keys and bounded collections.  A value stands for a
      tree, in which a set is a sorted list whatever its representation.
      ValueKeys.v: the interner of names (symbol.rs), and when keys determine values.
    - DedupKeys.v, Explorer.v (modelcheck/explorer.rs): the keys by which states are
      merged, symmetry reduction, differences of states; the search breadth or
      depth first with its limits, traces and errors, and the entry points without
      traces.  ExplorerInvariants.v: its invariants and termination.
    - StateGraph.v (graph.rs), Tarjan.v: the graph of the explored states, its
      components and their correctness; Liveness.v (liveness.rs), LivenessLaws.v:
      fairness and the leads-to check.
    - SpecAst.v (ast/mod.rs), EvalOps.v, Evaluator.v (modelcheck/evaluator.rs):
      expressions of specifications, the operations on values, and the evaluator,
      with errors by their kind and panics.
    - Bytecode.v, BytecodeVm.v (modelcheck/bytecode.rs): instructions, the compiler,
      the machine, the cache, and the solver's choice between native code, bytecode
      and evaluator (eval_with_environment of solver.rs).  VmLaws.v, CompilerLaws.v,
      CompilerBodies.v: what the machine does on pieces of code; CompilerCorrect.v:
      what the compiler emits does what the evaluator does; BytecodeTotal.v: the
      compiler does not panic and the machine stops; BytecodeTypes.v: the compiler
      looks at no types.
    Successors, invariants and predicates are functions given to the search, as in
    the code; hashing and the clock are functions too, of which nothing is assumed.
    So are, to the evaluator, the hooks for calls, methods and domains; a compiled
    native function is an argument of eval_with_environment, and the address of an
    expression, the key of the cache, a number.

    State is passed explicitly: a Rust method on [&mut self] is a function that
    gives the new state, its result and the packets to send.  A Rust type whose
    fields are those of a specification type at machine width is the same Rocq
    type with an instance of [Valid] that bounds the fields; where the two types
    differ, an instance of [View] abstracts.

    ** What the theorems show

    Properties.v, ServiceProperties.v, WireProperties.v, RaftProperties.v,
    TwoPhaseProperties.v, PaxosProperties.v, LockProperties.v,
    ModelCheckProperties.v and BytecodeProperties.v hold the theorems, each with a
    concrete witness (Scenario.v, the start of RaftProperties.v and the last five
    files run the executable code).
    - RSL is safe: one batch is chosen per operation, replicas share one log,
      hosts agree on the application state; promises are complete, ballots have
      one proposal per operation, decisions are chosen.
    - RSL refines: behaviours of the hosts are behaviours of RslNext, whose packets
      are those sent and those that failed to be sent; one iteration of the event
      loop is one step of the scheduler, RslNext implements the centralized service, and
      so do the hosts that exchange bytes; each component refines its relations.
    - RSL's hosts stay well formed, run each of their actions, keep bounded logs
      and never step back.
    - Parsing: what was marshalled is read back, corrupted datagrams are rejected,
      what is parsed has its type, parsing ends.
    - Raft is safe: hosts agree on what they commit, at all times; a term has one
      leader; logs match; quorums of a phase and its successor meet.
    - Raft refines: the running hosts take steps of LNext, LNext refines the
      atomic relation; the executable quorum tests and the commit search decide
      what the protocol says; messages survive the wire.
    - Two-phase commit is atomic: when one resource manager has committed, all
      have prepared and none has aborted; the hosts refine LNext on the global
      state; of the protocol's three safety predicates two hold and one fails.
    - Single-decree Paxos agrees: two quorums that accepted chose one value, and
      the hosts implement a register that is written once; as they come, no host
      can learn the decision.
    - The lock service grants the lock to one node at a time, implements its
      abstract service, and hands the lock on; its hosts refine the protocol.
    - The model checker's values have one total order, its sets are sets in both
      representations, canonical keys identify equal values and nothing else.
    - Its search ends; a counterexample is a run of the program whatever keys are
      used; with exact keys an exhausted search misses nothing within its bounds
      (breadth first), and a breadth-first counterexample is shortest.
    - Its components are the strongly connected ones; a leads-to violation it
      reports is a run of the program that stays clear of the goal, and a fair one
      unless the bound on the depth cut transitions off; it reports none exactly
      when every fair walk through all of a component that needs the goal meets it,
      so it misses those that avoid a part of their component.
    - Where the evaluator gives a value, the solver's evaluation by bytecode ends
      with the same one, for the expressions that are compiled faithfully (the
      predicate [portable]); compiling never panics and every chunk comes to an end;
      compiled code has no types, so that casts and the types of bound variables
      make no difference to it; [bytecode_differs] lists other ways in which the two
      differ outside of [portable].

    ** Bounds and fuel

    Machine integers are integers of Z with the range in [Valid]; [u64_add],
    [u64_sub] wrap, and refinement lemmas show that no addition the code performs
    does.  [usize] has 64 bits.  A vector's length fits [isize] (so a log of
    RaftSystem.v has at most ISIZE_MAX entries, and a cluster at most that many
    hosts).  Loops over an index are structural in what remains of the list or of
    the count; the loops of marshalling run on as much fuel as the datagram has
    bytes, and every iteration that succeeds reads at least one, so the fuel is
    never exhausted (demarshalling_terminates).  The number of items for which a
    vector or hash map can be allocated is a parameter of the wire format, as is the
    order in which a hash map is iterated.  The model checker's search runs on as
    much fuel as there are initial states and [max_states], plus one: each iteration
    takes one item off the frontier, and an item is put there once for each state counted.  Tarjan's
    recursion nests at most as deep as there are nodes.  The bytecode machine runs on
    one unit more than the chunk has instructions, which is enough since jumps go
    forward and a body is a part of the code behind its instruction; the refinement
    asks that names and instructions together have indices of 16 bits ([has_room]).

    ** Not modelled

    - The native network, the clock and process start: an iteration takes what
      they answer as arguments.  Printing is left out.
    - The Verus proofs of the source: this development proves its own lemmas
      about the same definitions.
    - In Raft, reconfiguration: LAppendConfigurationEntry is modelled but no host
      executes it, and the bytes of a message cannot carry a configuration, so the
      theorems about hosts are about one fixed configuration.  Restarts (LReboot)
      are a relation of the model that no host step performs.  A Raft host does
      not check who a protocol message comes from, nor does one of two-phase
      commit; the theorems assume that only the system's hosts send any.
    - PBFT, primary-backup and the smaller protocols: they use the same framework
      and could be modelled over GenericHost.v in the same way.
    - Of the model checker, the intermediate form of specifications and what the
      solver makes of it (initial states, successors, domains), the generation of
      native code, the partial order reductions, the parallel search, debug output
      and JSON.  Error messages and profiling are left out.  Strings are lists of
      bytes; the theorem on canonical keys is about ASCII strings.
    - The transpiler, the specification-only protocols and benchmarks, the network
      runtimes and the C# programs: they are tools and data, or I/O. *)

From stdpp Require Import prelude gmap sets list numbers fin_sets.
From Stdlib Require Import ZArith Lia.

#[local] Open Scope Z_scope.

(** ** Sequences indexed by mathematical integers

    Verus's [Seq<T>] is indexed by [int]; an index out of range yields an
    arbitrary value of the type, here the [inhabitant] of the type. *)

Definition seq_len {A} (s : list A) : Z := Z.of_nat (length s).

Definition seq_get {A} (s : list A) (i : Z) : option A :=
  if decide (0 <= i) then s !! Z.to_nat i else None.

Definition seq_index `{Inhabited A} (s : list A) (i : Z) : A :=
  default inhabitant (seq_get s i).

(** [s.update(i, v)], under the code's guard [0 <= i < s.len()]. *)
Definition seq_update {A} (s : list A) (i : Z) (v : A) : list A :=
  if decide (0 <= i) then <[Z.to_nat i := v]> s else s.

(** [s.subrange(i, j)]. *)
Definition seq_subrange {A} (s : list A) (i j : Z) : list A :=
  take (Z.to_nat (j - i)) (drop (Z.to_nat i) s).

(** [Seq::new(n, f)]. *)
Definition seq_new {A} (n : Z) (f : Z -> A) : list A :=
  (fun i => f (Z.of_nat i)) <$> seq 0 (Z.to_nat n).

Section seq_lemmas.
Context {A : Type}.
Implicit Types (s : list A) (i j : Z).

Lemma seq_len_nonneg s : 0 <= seq_len s.
Proof. unfold seq_len. lia. Qed.

Lemma seq_get_Some_range s i x : seq_get s i = Some x -> 0 <= i < seq_len s.
Proof.
  unfold seq_get, seq_len. case_decide; [|done].
  intros Hs%lookup_lt_Some. lia.
Qed.

Lemma seq_get_range_Some s i : 0 <= i < seq_len s -> exists x, seq_get s i = Some x.
Proof.
  unfold seq_get, seq_len. intros [H1 H2]. rewrite decide_True by done.
  apply lookup_lt_is_Some_2. lia.
Qed.

Lemma seq_get_is_Some s i : is_Some (seq_get s i) <-> 0 <= i < seq_len s.
Proof.
  split; [intros [x H]; by eapply seq_get_Some_range|].
  intros Hi. by apply seq_get_range_Some.
Qed.

Lemma seq_get_elem_of s i x : seq_get s i = Some x -> x ∈ s.
Proof. unfold seq_get. case_decide; [apply list_elem_of_lookup_2|done]. Qed.

Lemma elem_of_seq_get s x : x ∈ s -> exists i, seq_get s i = Some x.
Proof.
  intros [i H]%list_elem_of_lookup. exists (Z.of_nat i).
  unfold seq_get. rewrite decide_True by lia. by rewrite Nat2Z.id.
Qed.

Lemma seq_get_of_nat s (n : nat) : seq_get s (Z.of_nat n) = s !! n.
Proof. unfold seq_get. rewrite decide_True by lia. by rewrite Nat2Z.id. Qed.

Lemma seq_ext s1 s2 : (forall i, seq_get s1 i = seq_get s2 i) -> s1 = s2.
Proof.
  intros H. apply list_eq. intros n.
  specialize (H (Z.of_nat n)). by rewrite !seq_get_of_nat in H.
Qed.

Lemma seq_index_get `{Inhabited A} s i x : seq_get s i = Some x -> seq_index s i = x.
Proof. unfold seq_index. by intros ->. Qed.

Lemma seq_get_index `{Inhabited A} s i :
  0 <= i < seq_len s -> seq_get s i = Some (seq_index s i).
Proof.
  intros [x Hx]%seq_get_range_Some. unfold seq_index. by rewrite Hx.
Qed.

Lemma seq_index_elem_of `{Inhabited A} s i : 0 <= i < seq_len s -> seq_index s i ∈ s.
Proof. intros Hi. eapply seq_get_elem_of. by apply seq_get_index. Qed.

Lemma seq_update_len s i v : seq_len (seq_update s i v) = seq_len s.
Proof. unfold seq_update, seq_len. case_decide; [|done]. by rewrite length_insert. Qed.

Lemma seq_get_update_eq s i v :
  0 <= i < seq_len s -> seq_get (seq_update s i v) i = Some v.
Proof.
  unfold seq_update, seq_get, seq_len. intros H.
  rewrite !decide_True by lia. apply list_lookup_insert_eq. lia.
Qed.

Lemma seq_get_update_ne s i j v :
  i <> j -> seq_get (seq_update s i v) j = seq_get s j.
Proof.
  unfold seq_update, seq_get. intros H.
  repeat case_decide; try done. apply list_lookup_insert_ne. lia.
Qed.

Lemma seq_len_app s1 s2 : seq_len (s1 ++ s2) = seq_len s1 + seq_len s2.
Proof. unfold seq_len. rewrite length_app. lia. Qed.

Lemma seq_index_app `{Inhabited A} s s' i :
  0 <= i < seq_len s -> seq_index (s ++ s') i = seq_index s i.
Proof.
  intros Hi. unfold seq_index, seq_get, seq_len in *.
  rewrite !decide_True by lia. by rewrite lookup_app_l by lia.
Qed.

Lemma seq_index_snoc `{Inhabited A} s x : seq_index (s ++ [x]) (seq_len s) = x.
Proof.
  unfold seq_index, seq_get, seq_len. rewrite decide_True by lia.
  by rewrite Nat2Z.id, lookup_app_r, Nat.sub_diag by lia.
Qed.

Lemma seq_new_lookup n (f : Z -> A) (k : nat) :
  seq_new n f !! k = if decide (Z.of_nat k < n) then Some (f (Z.of_nat k)) else None.
Proof.
  unfold seq_new. rewrite list_lookup_fmap. case_decide.
  - by rewrite lookup_seq_lt by lia.
  - by rewrite lookup_seq_ge by lia.
Qed.

Lemma seq_new_ext n (f g : Z -> A) :
  (forall i, 0 <= i < n -> f i = g i) -> seq_new n f = seq_new n g.
Proof.
  intros H. apply list_eq. intros i. rewrite !seq_new_lookup. case_decide; [|done].
  f_equal. apply H. lia.
Qed.

Lemma seq_new_succ n (f : Z -> A) : 0 <= n -> seq_new (n + 1) f = seq_new n f ++ [f n].
Proof.
  intros Hn. unfold seq_new. replace (Z.to_nat (n + 1)) with (Z.to_nat n + 1)%nat by lia.
  rewrite seq_app, fmap_app. simpl. by rewrite Z2Nat.id by lia.
Qed.

Lemma seq_new_eq `{Inhabited A} n (f : Z -> A) s :
  seq_len s = n -> (forall i, 0 <= i < n -> f i = seq_index s i) -> seq_new n f = s.
Proof.
  intros <- Hf. apply list_eq. intros i. rewrite seq_new_lookup. unfold seq_len in *. case_decide.
  - rewrite Hf by lia. unfold seq_index, seq_get. rewrite decide_True, Nat2Z.id by lia.
    destruct (lookup_lt_is_Some_2 s i) as [x Hx]; [lia|]. by rewrite Hx.
  - symmetry. apply lookup_ge_None. lia.
Qed.

Lemma seq_get_NoDup_inj s i j x :
  NoDup s -> seq_get s i = Some x -> seq_get s j = Some x -> i = j.
Proof.
  unfold seq_get. intros Hnd. repeat case_decide; try done. intros H1 H2.
  pose proof (NoDup_lookup _ _ _ _ Hnd H1 H2). lia.
Qed.
End seq_lemmas.

Lemma seq_get_fmap {A B} (f : A -> B) (s : list A) i :
  seq_get (f <$> s) i = f <$> seq_get s i.
Proof. unfold seq_get. case_decide; [apply list_lookup_fmap|done]. Qed.

Lemma seq_update_fmap {A B} (f : A -> B) (s : list A) i v :
  seq_update (f <$> s) i (f v) = f <$> seq_update s i v.
Proof. unfold seq_update. case_decide; [|done]. by rewrite list_fmap_insert. Qed.

Lemma seq_len_fmap {A B} (f : A -> B) (s : list A) : seq_len (f <$> s) = seq_len s.
Proof. unfold seq_len. by rewrite length_fmap. Qed.

(** A part of a sequence has only its elements. *)
Lemma seq_subrange_elem {A} (s : list A) i j x : x ∈ seq_subrange s i j -> x ∈ s.
Proof.
  unfold seq_subrange. intros (k & Hk & _)%elem_of_take. rewrite lookup_drop in Hk.
  by apply list_elem_of_lookup_2 in Hk.
Qed.

(** ** Collections (src/src/common/collections) *)

(** [FindIndexInSeq]: the index of the first occurrence, [-1] when absent. *)
Fixpoint FindIndexInSeq `{EqDecision A} (s : list A) (v : A) : Z :=
  match s with
  | [] => -1
  | x :: s' =>
      if decide (x = v) then 0
      else let r := FindIndexInSeq s' v in
           if decide (r = -1) then -1 else r + 1
  end.

(** [CountMatchesInSeq]: how many elements satisfy a predicate. *)
Fixpoint CountMatchesInSeq {A} (s : list A) (f : A -> bool) : Z :=
  match s with
  | [] => 0
  | x :: s' => CountMatchesInSeq s' f + (if f x then 1 else 0)
  end.

(** [IsNthHighestValueInSequence]. *)
Definition IsNthHighestValueInSequence (v : Z) (s : list Z) (n : Z) : Prop :=
  0 < n <= seq_len s /\ v ∈ s
  /\ CountMatchesInSeq s (fun x => bool_decide (x > v)) < n
  /\ CountMatchesInSeq s (fun x => bool_decide (x >= v)) >= n.

#[export] Instance IsNthHighestValueInSequence_dec v s n :
  Decision (IsNthHighestValueInSequence v s n).
Proof. unfold IsNthHighestValueInSequence. apply _. Defined.

Lemma FindIndexInSeq_ge `{EqDecision A} (s : list A) v : -1 <= FindIndexInSeq s v.
Proof. induction s; simpl; repeat case_decide; lia. Qed.

Lemma FindIndexInSeq_elem_of `{EqDecision A} (s : list A) v :
  v ∈ s -> seq_get s (FindIndexInSeq s v) = Some v.
Proof.
  induction s as [|x s IH]; [by rewrite elem_of_nil|].
  intros Hin. simpl. case_decide as Hx; [by subst|].
  apply elem_of_cons in Hin as [?|Hs]; [by subst|]. specialize (IH Hs).
  pose proof (FindIndexInSeq_ge s v).
  pose proof (seq_get_Some_range _ _ _ IH).
  rewrite decide_False by lia.
  unfold seq_get in *. rewrite decide_True in IH by lia. rewrite decide_True by lia.
  replace (Z.to_nat (FindIndexInSeq s v + 1)) with (S (Z.to_nat (FindIndexInSeq s v))) by lia.
  done.
Qed.

Lemma FindIndexInSeq_not_elem_of `{EqDecision A} (s : list A) v :
  v ∉ s -> FindIndexInSeq s v = -1.
Proof.
  induction s as [|x s IH]; [done|]. intros Hin. simpl.
  rewrite decide_False by set_solver. rewrite IH by set_solver. done.
Qed.

Lemma CountMatchesInSeq_range {A} (s : list A) f :
  0 <= CountMatchesInSeq s f <= seq_len s.
Proof.
  induction s as [|x s IH]; simpl; [done|].
  unfold seq_len in *. simpl. case_match; lia.
Qed.

Lemma CountMatchesInSeq_filter {A} (s : list A) (f : A -> bool) :
  CountMatchesInSeq s f = seq_len (filter (fun x => f x = true) s).
Proof.
  unfold seq_len. induction s as [|x s IH]; [done|]. cbn [CountMatchesInSeq].
  rewrite IH, filter_cons. destruct (f x) eqn:Hf.
  - rewrite decide_True by done. cbn [length]. lia.
  - rewrite decide_False by done. lia.
Qed.

Lemma CountMatchesInSeq_ext {A} (s : list A) (f g : A -> bool) :
  (forall x, x ∈ s -> f x = g x) -> CountMatchesInSeq s f = CountMatchesInSeq s g.
Proof.
  induction s as [|x s IH]; intros H; [done|]. cbn [CountMatchesInSeq].
  rewrite IH, (H x) by set_solver. done.
Qed.

Lemma CountMatchesInSeq_negb {A} (s : list A) (f : A -> bool) :
  CountMatchesInSeq s f + CountMatchesInSeq s (fun x => negb (f x)) = seq_len s.
Proof.
  unfold seq_len. induction s as [|x s IH]; [done|]. cbn [CountMatchesInSeq length].
  destruct (f x); simpl; lia.
Qed.

Lemma CountMatchesInSeq_pos {A} (s : list A) (f : A -> bool) :
  0 < CountMatchesInSeq s f -> exists x, x ∈ s /\ f x = true.
Proof.
  induction s as [|x s IH]; cbn [CountMatchesInSeq]; [lia|].
  destruct (f x) eqn:Hf; [exists x; set_solver|].
  rewrite Z.add_0_r. intros (y & ? & ?)%IH. exists y. set_solver.
Qed.

Lemma list_max_exists (s : list Z) x :
  x ∈ s -> exists m, m ∈ s /\ forall y, y ∈ s -> y <= m.
Proof.
  revert x. induction s as [|a s IH]; intros x Hx; [by apply not_elem_of_nil in Hx|].
  destruct s as [|b s].
  { exists a. split; [set_solver|]. intros y Hy%list_elem_of_singleton. lia. }
  destruct (IH b ltac:(set_solver)) as (m & Hm & Hmax).
  exists (a `max` m). split.
  - destruct (Z.max_spec a m) as [[_ ->]|[_ ->]]; set_solver.
  - intros y [->|Hy]%elem_of_cons; [lia|]. specialize (Hmax y Hy). lia.
Qed.

(** A sequence has an [n]th highest value for every [n] up to its length: start
    from the maximum and step down while fewer than [n] elements are reached. *)
Lemma IsNthHighestValueInSequence_exists (s : list Z) n :
  0 < n <= seq_len s -> exists v, v ∈ s /\ IsNthHighestValueInSequence v s n.
Proof.
  intros Hn.
  assert (forall k v, v ∈ s -> CountMatchesInSeq s (fun x => bool_decide (x > v)) < n ->
    (length (filter (fun x => (x < v)%Z) s) <= k)%nat ->
    exists v', v' ∈ s /\ IsNthHighestValueInSequence v' s n) as Hdown.
  { induction k as [|k IH]; intros v Hv Hgt Hk;
      (destruct (decide (CountMatchesInSeq s (fun x => bool_decide (x >= v)) >= n));
        [exists v; split; [done|]; unfold IsNthHighestValueInSequence; split_and!; (done || lia)|]).
    all: destruct (CountMatchesInSeq_pos s (fun x => negb (bool_decide (x >= v)))) as (y & Hy & Hlt);
      [pose proof (CountMatchesInSeq_negb s (fun x => bool_decide (x >= v))) as Hc; cbv beta in Hc; lia|].
    all: apply negb_true_iff, bool_decide_eq_false in Hlt.
    all: assert (y ∈ filter (fun x => (x < v)%Z) s) as Hyf by (apply list_elem_of_filter; split; [lia|done]).
    - destruct (filter (fun x => (x < v)%Z) s); [by apply not_elem_of_nil in Hyf|simpl in Hk; lia].
    - destruct (list_max_exists _ _ Hyf) as (w & [Hw1 Hw2]%list_elem_of_filter & Hwmax).
      apply (IH w Hw2).
      + rewrite (CountMatchesInSeq_ext _ _ (fun x => bool_decide (x >= v))); [lia|].
        intros x Hx. apply bool_decide_ext. split; [|lia]. intros Hxw.
        destruct (decide (x < v)); [|lia]. assert (x <= w); [|lia].
        apply Hwmax, list_elem_of_filter. by split.
      + assert (filter (fun x => (x < w)%Z) s = filter (fun x => (x < w)%Z) (filter (fun x => (x < v)%Z) s)) as ->.
        { symmetry. apply list_filter_filter_l. intros x ?. lia. }
        assert (length (filter (fun x => (x < w)%Z) (filter (fun x => (x < v)%Z) s))
                < length (filter (fun x => (x < v)%Z) s))%nat; [|lia].
        apply length_filter_lt with w; [apply list_elem_of_filter; by split|lia]. }
  assert (exists x, x ∈ s) as [x Hx].
  { destruct s as [|x s]; [unfold seq_len in Hn; simpl in Hn; lia|]. exists x. set_solver. }
  destruct (list_max_exists s x Hx) as (m & Hm & Hmax).
  apply (Hdown (length (filter (fun x => (x < m)%Z) s)) m Hm); [|done].
  rewrite (CountMatchesInSeq_ext _ _ (fun _ => false)).
  - rewrite CountMatchesInSeq_filter.
    assert (filter (fun _ : Z => false = true) s = []) as ->; [|unfold seq_len; simpl; lia].
    clear. induction s as [|y s IH]; [done|]. by rewrite filter_cons, decide_False.
  - intros y Hy. apply bool_decide_false. specialize (Hmax y Hy). lia.
Qed.

(** ** Hash-map loops

    The source walks a [HashMap] by copying its keys into a vector, in an
    unspecified order, and copying the entries from a threshold on. *)

(** [hashmap_keys_to_vec]. *)
Definition hashmap_keys_to_vec `{Countable K} {V} (m : gmap K V) : list K := (map_to_list m).*1.

(** The loop shared by the vote log's and the learner state's truncation:
    [if keys[i] >= threshold { result.insert(keys[i], m[keys[i]]) }]. *)
Definition copy_keys_from `{Inhabited V} (m : gmap Z V) (threshold : Z) (keys : list Z)
  : gmap Z V :=
  foldl (fun result k => if k >=? threshold then <[k := m !!! k]> result else result) ∅ keys.

Lemma copy_keys_from_lookup `{Inhabited V} (m : gmap Z V) threshold keys opn :
  (forall k, k ∈ keys -> is_Some (m !! k)) ->
  copy_keys_from m threshold keys !! opn
  = if decide (opn ∈ keys /\ opn >= threshold) then m !! opn else None.
Proof.
  unfold copy_keys_from. induction keys as [|k keys IH] using rev_ind; intros Hk.
  { cbn [foldl]. rewrite decide_False, lookup_empty; [done|]. by intros [?%not_elem_of_nil _]. }
  rewrite foldl_app. cbn [foldl].
  assert (forall k', k' ∈ keys -> is_Some (m !! k')) as Hk' by (intros; apply Hk; set_solver).
  specialize (IH Hk'). destruct (Hk k ltac:(set_solver)) as [v Hv].
  destruct (k >=? threshold) eqn:Hge.
  - destruct (decide (opn = k)) as [->|Hne].
    + rewrite lookup_insert_eq, decide_True by (split; [set_solver|lia]).
      by rewrite Hv, lookup_total_alt, Hv.
    + rewrite lookup_insert_ne, IH by done. apply decide_ext. set_solver.
  - rewrite IH. apply decide_ext. split; [set_solver|].
    intros [[?|?%list_elem_of_singleton]%elem_of_app ?]; [done|lia].
Qed.

Lemma hashmap_keys_to_vec_elem `{Countable K} {V} (m : gmap K V) k :
  k ∈ hashmap_keys_to_vec m <-> is_Some (m !! k).
Proof.
  unfold hashmap_keys_to_vec. rewrite list_elem_of_fmap. split.
  - intros ([k' v] & -> & Hkv%elem_of_map_to_list). by exists v.
  - intros [v Hv]. exists (k, v). split; [done|by apply elem_of_map_to_list].
Qed.

Lemma copy_all_keys_from_lookup `{Inhabited V} (m : gmap Z V) threshold k :
  copy_keys_from m threshold (hashmap_keys_to_vec m) !! k
  = if decide (k >= threshold) then m !! k else None.
Proof.
  rewrite copy_keys_from_lookup.
  2: { intros k'. by rewrite hashmap_keys_to_vec_elem. }
  destruct (decide (k >= threshold)) as [Hge|Hge]; [|by rewrite decide_False by tauto].
  destruct (m !! k) as [v|] eqn:Hv; [|by case_decide].
  rewrite decide_True; [done|]. split; [|done]. rewrite hashmap_keys_to_vec_elem. by exists v.
Qed.

(** ** Machine integers

    [u64] values are integers in [0, 2^64); the executable code's additions
    wrap (Rust release semantics), the refinement theorems show that they
    do not. *)

Definition U64_MODULUS : Z := 2 ^ 64.
Definition is_u64 (z : Z) : Prop := 0 <= z < U64_MODULUS.
Definition u64_add (x y : Z) : Z := (x + y) mod U64_MODULUS.
Definition u64_sub (x y : Z) : Z := (x - y) mod U64_MODULUS.

#[export] Instance is_u64_dec z : Decision (is_u64 z).
Proof. unfold is_u64. apply _. Defined.

Lemma u64_add_exact x y : 0 <= x + y < U64_MODULUS -> u64_add x y = x + y.
Proof. apply Z.mod_small. Qed.

Lemma u64_sub_exact x y : 0 <= x - y < U64_MODULUS -> u64_sub x y = x - y.
Proof. apply Z.mod_small. Qed.

Lemma u64_add_is_u64 x y : is_u64 (u64_add x y).
Proof. apply Z.mod_pos_bound. done. Qed.

(** ** Quorums

    Two sub-collections of a duplicate-free list of hosts whose sizes add up
    to more than the list share a host. *)

Lemma size_list_to_set_le `{Countable K} (l : list K) :
  (size (list_to_set l : gset K) <= length l)%nat.
Proof.
  induction l as [|x l IH]; [done|]. rewrite list_to_set_cons, size_union_alt.
  rewrite size_singleton. cbn [length].
  assert (size ((list_to_set l : gset K) ∖ {[x]}) <= size (list_to_set l : gset K))%nat.
  { apply subseteq_size. set_solver. }
  lia.
Qed.

Lemma quorum_intersection `{Countable K} (ids : list K) (Q1 Q2 : gset K) :
  (forall x, x ∈ Q1 -> x ∈ ids) -> (forall x, x ∈ Q2 -> x ∈ ids) ->
  Z.of_nat (size Q1) + Z.of_nat (size Q2) > seq_len ids ->
  exists x, x ∈ Q1 /\ x ∈ Q2.
Proof.
  intros H1 H2 Hsz.
  destruct (decide (Q1 ∩ Q2 = ∅)) as [He|Hne].
  - assert (size (Q1 ∪ Q2) = size Q1 + size Q2)%nat as Hu.
    { apply size_union. set_solver. }
    assert (Q1 ∪ Q2 ⊆ list_to_set ids) as Hsub.
    { intros x Hx. apply elem_of_list_to_set.
      apply elem_of_union in Hx as [?|?]; auto. }
    apply subseteq_size in Hsub.
    assert (size (list_to_set ids : gset K) <= length ids)%nat.
    { apply size_list_to_set_le. }
    unfold seq_len in Hsz. lia.
  - apply set_choose_L in Hne as [x Hx]. exists x. by apply elem_of_intersection.
Qed.

(** The image of a set under a function injective on it. *)
Lemma size_set_map_inj_on `{Countable A, Countable B} (f : A -> B) (Q : gset A) :
  (forall x y, x ∈ Q -> y ∈ Q -> f x = f y -> x = y) ->
  size (set_map f Q : gset B) = size Q.
Proof.
  induction Q as [|x Q Hx IH] using set_ind_L; [done|]. intros Hinj.
  assert (f x ∉ (set_map f Q : gset B)) as Hfx.
  { intros (y & He & Hy)%elem_of_map. apply Hx. rewrite (Hinj x y); set_solver. }
  rewrite set_map_union_L, set_map_singleton_L.
  rewrite (size_union {[x]}) by set_solver. rewrite (size_union {[f x]}) by set_solver.
  rewrite !size_singleton, IH; [done|]. intros y z Hy Hz. apply Hinj; set_solver.
Qed.

(** ** Automation *)

Create HintDb rsl discriminated.
#[export] Hint Constants Opaque : rsl.
#[export] Hint Resolve seq_len_nonneg seq_update_len u64_add_is_u64 : rsl.

(** [break_ands] opens the conjunctions and existentials of the context. *)
Ltac break_ands :=
  repeat match goal with
         | H : _ /\ _ |- _ => destruct H
         | H : exists _, _ |- _ => destruct H
         end.

(** [split_all] splits a goal's conjunctions, the head definition unfolded,
    without touching iffs. *)
Ltac split_all := hnf; repeat match goal with |- _ /\ _ => split end.

(** [ands] closes a conjunction of hypotheses and linear facts. *)
Ltac ands := break_ands; split_and?; first [done | lia | auto].

(** * Chains of parents

    A search records for each node it finds the node it came from.  Following the
    parents ends, after at most as many steps as there are entries, when they were
    recorded for new nodes only. *)

Section chains.
#[local] Open Scope nat_scope.
Context {K A : Type} `{Countable K} (par : A -> K).

(** From [k] the parents lead in [d] steps to a node without one. *)
Inductive chain (P : gmap K A) : K -> nat -> Prop :=
  | chain_root k : P !! k = None -> chain P k 0
  | chain_step k a d : P !! k = Some a -> chain P (par a) d -> chain P k (S d).

Lemma chain_functional P k d d' : chain P k d -> chain P k d' -> d = d'.
Proof.
  intros Hc. revert d'. induction Hc as [k Hk|k a d Hk Hc IH]; intros d'; inversion 1; subst; try congruence.
  f_equal. apply IH. congruence.
Qed.

Lemma chain_keys P k d :
  chain P k d -> exists ks, NoDup ks /\ length ks = d /\ forall x, x ∈ ks -> x ∈ dom P /\ exists d', chain P x d' /\ d' <= d.
Proof.
  induction 1 as [k Hk|k a d Hk Hc (ks & Hnd & Hlen & Hks)].
  - exists []. split; [constructor|]. split; [done|]. by intros x ?%not_elem_of_nil.
  - exists (k :: ks). assert (chain P k (S d)) as Hk' by by eapply chain_step. split; [|split].
    + constructor; [|done]. intros Hin. destruct (Hks k Hin) as (_ & d' & Hd' & ?).
      pose proof (chain_functional _ _ _ _ Hk' Hd'). lia.
    + cbn. lia.
    + intros x [->|Hx]%elem_of_cons; [split; [by apply elem_of_dom|by exists (S d)]|].
      destruct (Hks x Hx) as (? & d' & ? & ?). split; [done|]. exists d'. split; [done|lia].
Qed.

Lemma chain_depth P k d : chain P k d -> d <= size P.
Proof.
  intros (ks & Hnd & <- & Hks)%chain_keys. rewrite <- size_dom.
  rewrite <- (size_list_to_set (C := gset K) ks) by done. apply subseteq_size.
  intros x Hx%elem_of_list_to_set. by apply Hks.
Qed.

(** Entries for other nodes leave a chain as it is. *)
Lemma chain_mono P P' (S : gset K) k d :
  (forall x, x ∈ S -> P' !! x = P !! x) -> (forall x a, x ∈ S -> P !! x = Some a -> par a ∈ S) ->
  k ∈ S -> chain P k d -> chain P' k d.
Proof.
  intros HP HS Hk Hc. induction Hc as [k Hn|k a d Hs Hc IH].
  - apply chain_root. by rewrite HP.
  - apply (chain_step _ _ a); [by rewrite HP|]. apply IH. by eapply HS.
Qed.
End chains.

(** ** Behaviours *)

(** A finite behaviour of a system, state by state. *)
Record behavior {A} (init : A -> Prop) (next : A -> A -> Prop) (b : list A) : Prop := MkBehavior
  { behavior_init : exists a, b !! 0%nat = Some a /\ init a;
    behavior_next : forall i a a', b !! i = Some a -> b !! S i = Some a' -> next a a' }.

Section behaviors.
Context {A : Type} (init : A -> Prop) (next : A -> A -> Prop).
Implicit Types (b : list A) (a : A).

Lemma behavior_snoc b a a' :
  behavior init next b -> last b = Some a -> next a a' -> behavior init next (b ++ [a']).
Proof.
  intros [(a0 & H0 & Hi) Hn] Hl Ha. rewrite last_lookup in Hl. split.
  - exists a0. split; [|done]. by apply lookup_app_l_Some.
  - intros i x y Hx Hy. apply lookup_app_Some in Hy as [Hy|[Hlen Hy]].
    + apply (Hn i); [|done]. apply lookup_lt_Some in Hy. rewrite lookup_app_l in Hx by lia. done.
    + apply list_lookup_singleton_Some in Hy as [Hy <-]. rewrite lookup_app_l in Hx by lia.
      replace (Nat.pred (length b)) with i in Hl by lia. by simplify_eq.
Qed.

Lemma behavior_prefix b a' :
  b <> [] -> behavior init next (b ++ [a']) ->
  exists a, last b = Some a /\ next a a' /\ behavior init next b.
Proof.
  intros Hne [(a0 & H0 & Hi) Hn].
  destruct (last b) as [a|] eqn:Hl; [|by apply last_None in Hl]. exists a.
  assert (0 < length b)%nat as Hlen by (destruct b; cbn; [done|lia]).
  rewrite last_lookup in Hl. split_and!; [done| |split].
  - apply (Hn (Nat.pred (length b))); [by apply lookup_app_l_Some|].
    replace (S (Nat.pred (length b))) with (length b) by lia. by apply list_lookup_middle.
  - exists a0. by rewrite lookup_app_l in H0 by done.
  - intros i x y Hx Hy. apply (Hn i); by apply lookup_app_l_Some.
Qed.

(** What holds at the start and is kept by every step holds at every state. *)
Lemma behavior_invariant (I : A -> Prop) b :
  (forall a, init a -> I a) -> (forall a a', I a -> next a a' -> I a') ->
  behavior init next b -> forall i a, b !! i = Some a -> I a.
Proof.
  intros Hinit Hstep [(a0 & H0 & Hi) Hn] i. induction i as [|i IH]; intros a Ha.
  - rewrite H0 in Ha. injection Ha as <-. by apply Hinit.
  - destruct (lookup_lt_is_Some_2 b i) as [a1 H1]; [apply lookup_lt_Some in Ha; lia|].
    apply (Hstep a1); [by apply IH|by apply (Hn i)].
Qed.

End behaviors.

(** A simulation turns behaviours into behaviours. *)
Lemma behavior_simulation {A B} (init : A -> Prop) (next : A -> A -> Prop) (init' : B -> Prop) (next' : B -> B -> Prop) (R : A -> B -> Prop) b :
  (forall a, init a -> exists c, init' c /\ R a c) ->
  (forall a a' c, R a c -> next a a' -> exists c', next' c c' /\ R a' c') ->
  behavior init next b -> exists b', behavior init' next' b' /\ Forall2 R b b'.
Proof.
  intros Hinit Hstep. induction b as [|a' b IH] using rev_ind; intros Hb.
  { destruct Hb as [(a & Ha & _) _]. done. }
  destruct (decide (b = [])) as [->|Hne].
  - destruct Hb as [(a & [= <-] & Hi) _]. destruct (Hinit _ Hi) as (c & Hc & HR).
    exists [c]. split; [|by constructor]. split; [by exists c|]. by intros [|i].
  - destruct (behavior_prefix _ _ b a' Hne Hb) as (a & Hl & Hn & Hb'). destruct (IH Hb') as (bs & Hbs & HR).
    rewrite last_lookup in Hl. destruct (Forall2_lookup_l _ _ _ _ _ HR Hl) as (c & Hc & Hac).
    destruct (Hstep a a' c Hac Hn) as (c' & Hn' & Hac').
    exists (bs ++ [c']). split; [|apply Forall2_app; [done|by constructor]].
    apply (behavior_snoc _ _ bs c c'); [done| |done]. rewrite last_lookup.
    by rewrite <- (Forall2_length _ _ _ HR).
Qed.
