(* ===== verification/Types.v ===== *)
(** * Data of the replicated state library

    The protocol data (src/src/protocol/RSL/{types,message,configuration,
    constants,parameters}.rs, protocol/common/upper_bound.rs), the packets and
    I/O events of common/framework/environment_s.rs, and the concrete
    counterparts of implementation/RSL/{types_i,cmessage,cconfiguration,
    cparameters,cconstants}.rs.

    Verus's [int] and Rust's [u64] are both [Z]: a C-type whose fields are the
    protocol type's fields at machine width ([CBallot], [CRequest], [CMessage],
    [CPacket], ...) is the same Rocq type, and its [valid()] method, an
    instance of [Valid], carries the width.  The C-types whose fields differ
    ([CParameters], [CConfiguration], [CConstants], [CReplicaConstants]) are
    records of their own with a [view]. *)

From stdpp Require Import prelude gmap sets list numbers fin_sets.
From Stdlib Require Import ZArith Lia.
From S2P Require Import Prelude.

#[local] Open Scope Z_scope.

(** ** The [View] trait and the [valid()] methods *)

Class View (C A : Type) := view : C -> A.
#[export] Hint Mode View ! - : typeclass_instances.

Class Valid (C : Type) := valid : C -> Prop.
#[export] Hint Mode Valid ! : typeclass_instances.

(** ** Hosts, ballots, requests (types.rs) *)

Record AbstractEndPoint := MkEndPoint { ep_id : list Z }.

#[export] Instance AbstractEndPoint_eq_dec : EqDecision AbstractEndPoint.
Proof. solve_decision. Defined.
#[export] Instance AbstractEndPoint_countable : Countable AbstractEndPoint.
Proof. by refine (inj_countable' ep_id MkEndPoint _); intros []. Defined.
#[export] Instance AbstractEndPoint_inhabited : Inhabited AbstractEndPoint :=
  populate (MkEndPoint []).

(** services/RSL/app_state_machine.rs: a capped counter. *)
Abbreviation AppState := Z (only parsing).

Inductive AppMessage :=
  | AppIncrementRequest
  | AppIncrementReply (response : Z)
  | AppInvalidReply.

#[export] Instance AppMessage_eq_dec : EqDecision AppMessage.
Proof. solve_decision. Defined.
#[export] Instance AppMessage_countable : Countable AppMessage.
Proof.
  by refine (inj_countable'
    (fun m => match m with
              | AppIncrementRequest => inl (inl tt)
              | AppIncrementReply r => inl (inr r)
              | AppInvalidReply => inr tt
              end)
    (fun x => match x with
              | inl (inl _) => AppIncrementRequest
              | inl (inr r) => AppIncrementReply r
              | inr _ => AppInvalidReply
              end) _); intros [].
Defined.
#[export] Instance AppMessage_inhabited : Inhabited AppMessage := populate AppInvalidReply.

Abbreviation OperationNumber := Z (only parsing).

Record Ballot := MkBallot { bal_seqno : Z; bal_proposer_id : Z }.

#[export] Instance Ballot_eq_dec : EqDecision Ballot.
Proof. solve_decision. Defined.
#[export] Instance Ballot_countable : Countable Ballot.
Proof.
  by refine (inj_countable' (fun b => (bal_seqno b, bal_proposer_id b))
                            (fun p => MkBallot p.1 p.2) _); intros [].
Defined.
#[export] Instance Ballot_inhabited : Inhabited Ballot := populate (MkBallot 0 0).

Record Request := MkRequest
  { req_client : AbstractEndPoint; req_seqno : Z; req_request : AppMessage }.

#[export] Instance Request_eq_dec : EqDecision Request.
Proof. solve_decision. Defined.
#[export] Instance Request_countable : Countable Request.
Proof.
  by refine (inj_countable' (fun r => (req_client r, req_seqno r, req_request r))
                            (fun p => MkRequest p.1.1 p.1.2 p.2) _); intros [].
Defined.
#[export] Instance Request_inhabited : Inhabited Request :=
  populate (MkRequest inhabitant 0 inhabitant).

Record Reply := MkReply
  { rep_client : AbstractEndPoint; rep_seqno : Z; rep_reply : AppMessage }.

#[export] Instance Reply_eq_dec : EqDecision Reply.
Proof. solve_decision. Defined.
#[export] Instance Reply_countable : Countable Reply.
Proof.
  by refine (inj_countable' (fun r => (rep_client r, rep_seqno r, rep_reply r))
                            (fun p => MkReply p.1.1 p.1.2 p.2) _); intros [].
Defined.
#[export] Instance Reply_inhabited : Inhabited Reply :=
  populate (MkReply inhabitant 0 inhabitant).

Abbreviation RequestBatch := (list Request) (only parsing).
Abbreviation ReplyCache := (gmap AbstractEndPoint Reply) (only parsing).

Record Vote := MkVote { max_value_bal : Ballot; max_val : RequestBatch }.

#[export] Instance Vote_eq_dec : EqDecision Vote.
Proof. solve_decision. Defined.
#[export] Instance Vote_countable : Countable Vote.
Proof.
  by refine (inj_countable' (fun v => (max_value_bal v, max_val v))
                            (fun p => MkVote p.1 p.2) _); intros [].
Defined.
#[export] Instance Vote_inhabited : Inhabited Vote := populate (MkVote inhabitant []).

Abbreviation Votes := (gmap Z Vote) (only parsing).

Record LearnerTuple := MkLearnerTuple
  { received_2b_message_senders : gset AbstractEndPoint;
    candidate_learned_value : RequestBatch }.

#[export] Instance LearnerTuple_inhabited : Inhabited LearnerTuple :=
  populate (MkLearnerTuple ∅ []).

Abbreviation LearnerState := (gmap Z LearnerTuple) (only parsing).

Record ClockReading := MkClockReading { clock_t : Z }.

(** ** Ballot order *)

Definition BalLt (ba bb : Ballot) : Prop :=
  bal_seqno ba < bal_seqno bb
  \/ (bal_seqno ba = bal_seqno bb /\ bal_proposer_id ba < bal_proposer_id bb).

Definition BalLeq (ba bb : Ballot) : Prop :=
  bal_seqno ba < bal_seqno bb
  \/ (bal_seqno ba = bal_seqno bb /\ bal_proposer_id ba <= bal_proposer_id bb).

(** Their executable counterparts [CBalLt], [CBalLeq], [CBalEq]. *)
Definition CBalLt (ba bb : Ballot) : bool :=
  (bal_seqno ba <? bal_seqno bb)
  || ((bal_seqno ba =? bal_seqno bb) && (bal_proposer_id ba <? bal_proposer_id bb)).

Definition CBalLeq (ba bb : Ballot) : bool :=
  (bal_seqno ba <? bal_seqno bb)
  || ((bal_seqno ba =? bal_seqno bb) && (bal_proposer_id ba <=? bal_proposer_id bb)).

Definition CBalEq (ba bb : Ballot) : bool :=
  (bal_seqno ba =? bal_seqno bb) && (bal_proposer_id ba =? bal_proposer_id bb).

Section ballots.
Implicit Types a b c : Ballot.

#[export] Instance BalLt_dec a b : Decision (BalLt a b).
Proof. unfold BalLt. apply _. Defined.
#[export] Instance BalLeq_dec a b : Decision (BalLeq a b).
Proof. unfold BalLeq. apply _. Defined.

Lemma CBalLt_spec a b : CBalLt a b = bool_decide (BalLt a b).
Proof. unfold CBalLt, BalLt. apply eq_true_iff_eq. rewrite bool_decide_eq_true. lia. Qed.
Lemma CBalLeq_spec a b : CBalLeq a b = bool_decide (BalLeq a b).
Proof. unfold CBalLeq, BalLeq. apply eq_true_iff_eq. rewrite bool_decide_eq_true. lia. Qed.
Lemma CBalEq_spec a b : CBalEq a b = bool_decide (a = b).
Proof.
  unfold CBalEq. apply eq_true_iff_eq. rewrite bool_decide_eq_true.
  destruct a, b; simpl. split; [intros; f_equal; lia|intros [= -> ->]; lia].
Qed.

Lemma Ballot_ext a b :
  bal_seqno a = bal_seqno b -> bal_proposer_id a = bal_proposer_id b -> a = b.
Proof. destruct a, b; simpl. by intros -> ->. Qed.

Lemma BalLt_irrefl a : ~ BalLt a a.
Proof. unfold BalLt. lia. Qed.
Lemma BalLt_trans a b c : BalLt a b -> BalLt b c -> BalLt a c.
Proof. unfold BalLt. lia. Qed.
Lemma BalLeq_refl a : BalLeq a a.
Proof. unfold BalLeq. lia. Qed.
Lemma BalLeq_trans a b c : BalLeq a b -> BalLeq b c -> BalLeq a c.
Proof. unfold BalLeq. lia. Qed.
Lemma BalLt_BalLeq a b : BalLt a b -> BalLeq a b.
Proof. unfold BalLt, BalLeq. lia. Qed.
Lemma BalLt_Leq_trans a b c : BalLt a b -> BalLeq b c -> BalLt a c.
Proof. unfold BalLt, BalLeq. lia. Qed.
Lemma BalLeq_Lt_trans a b c : BalLeq a b -> BalLt b c -> BalLt a c.
Proof. unfold BalLt, BalLeq. lia. Qed.
Lemma BalLeq_antisym a b : BalLeq a b -> BalLeq b a -> a = b.
Proof. unfold BalLeq. intros. apply Ballot_ext; lia. Qed.
Lemma BalLeq_iff a b : BalLeq a b <-> BalLt a b \/ a = b.
Proof.
  split; [|intros [?| ->]; [by apply BalLt_BalLeq|apply BalLeq_refl]].
  unfold BalLeq, BalLt. intros H.
  destruct (decide (a = b)) as [|Hne]; [by right|left].
  destruct (decide (bal_seqno a = bal_seqno b)) as [Hs|]; [|lia].
  destruct (decide (bal_proposer_id a = bal_proposer_id b)); [|lia].
  by destruct Hne; apply Ballot_ext.
Qed.
Lemma not_BalLt a b : ~ BalLt a b <-> BalLeq b a.
Proof. unfold BalLt, BalLeq. lia. Qed.
Lemma not_BalLeq a b : ~ BalLeq a b <-> BalLt b a.
Proof. unfold BalLt, BalLeq. lia. Qed.
Lemma BalLt_total a b : BalLt a b \/ a = b \/ BalLt b a.
Proof.
  destruct (decide (BalLt a b)) as [|H%not_BalLt]; [by left|right].
  apply BalLeq_iff in H as [?| ->]; auto.
Qed.
End ballots.

#[export] Hint Resolve BalLeq_refl BalLt_BalLeq : rsl.
#[export] Hint Immediate BalLeq_trans BalLt_trans BalLt_Leq_trans BalLeq_Lt_trans : rsl.

(** ** Upper bounds (protocol/common/upper_bound.rs) *)

Inductive UpperBound := UpperBoundFinite (n : Z) | UpperBoundInfinite.

Definition LeqUpperBound (x : Z) (u : UpperBound) : Prop :=
  match u with UpperBoundFinite n => x <= n | UpperBoundInfinite => True end.

Definition LtUpperBound (x : Z) (u : UpperBound) : Prop :=
  match u with UpperBoundFinite n => x < n | UpperBoundInfinite => True end.

#[export] Instance LeqUpperBound_dec x u : Decision (LeqUpperBound x u).
Proof. destruct u; simpl; apply _. Defined.
#[export] Instance LtUpperBound_dec x u : Decision (LtUpperBound x u).
Proof. destruct u; simpl; apply _. Defined.

(** [u->n], arbitrary on the infinite bound. *)
Definition UpperBound_n (u : UpperBound) : Z :=
  match u with UpperBoundFinite n => n | UpperBoundInfinite => inhabitant end.

Definition UpperBoundedAddition (x y : Z) (u : UpperBound) : Z :=
  if decide (LtUpperBound (x + y) u) then x + y else UpperBound_n u.

(** implementation/common/upper_bound.rs *)
Definition CUpperBoundedAddition (x y u : Z) : Z :=
  if y >=? u then u
  else if x >=? u64_sub u y then u
  else u64_add x y.

Lemma CUpperBoundedAddition_refines x y u :
  is_u64 x -> is_u64 y -> is_u64 u ->
  CUpperBoundedAddition x y u = UpperBoundedAddition x y (UpperBoundFinite u)
  /\ is_u64 (CUpperBoundedAddition x y u).
Proof.
  unfold CUpperBoundedAddition, UpperBoundedAddition, is_u64; simpl. intros Hx Hy Hu.
  destruct (y >=? u) eqn:H1.
  { rewrite decide_False by lia. lia. }
  rewrite u64_sub_exact by lia.
  destruct (x >=? u - y) eqn:H2.
  { rewrite decide_False by lia. lia. }
  rewrite u64_add_exact by lia. rewrite decide_True by lia. lia.
Qed.

(** ** Messages and packets (message.rs, cmessage.rs, environment_s.rs) *)

Inductive RslMessage :=
  | RslMessageInvalid
  | RslMessageRequest (seqno_req : Z) (val : AppMessage)
  | RslMessage1a (bal_1a : Ballot)
  | RslMessage1b (bal_1b : Ballot) (log_truncation_point : OperationNumber) (votes : Votes)
  | RslMessage2a (bal_2a : Ballot) (opn_2a : OperationNumber) (val_2a : RequestBatch)
  | RslMessage2b (bal_2b : Ballot) (opn_2b : OperationNumber) (val_2b : RequestBatch)
  | RslMessageHeartbeat (bal_heartbeat : Ballot) (suspicious : bool) (opn_ckpt : OperationNumber)
  | RslMessageReply (seqno_reply : Z) (reply : AppMessage)
  | RslMessageAppStateRequest (bal_state_req : Ballot) (opn_state_req : OperationNumber)
  | RslMessageAppStateSupply (bal_state_supply : Ballot) (opn_state_supply : OperationNumber)
      (app_state : AppState) (reply_cache : ReplyCache)
  | RslMessageStartingPhase2 (bal_2 : Ballot) (logTruncationPoint_2 : OperationNumber).

#[export] Instance RslMessage_eq_dec : EqDecision RslMessage.
Proof. solve_decision. Defined.

#[export] Instance RslMessage_countable : Countable RslMessage.
Proof.
  refine (inj_countable'
    (fun m => match m with
     | RslMessageInvalid => inl (inl (inl tt))
     | RslMessageRequest a b => inl (inl (inr (a, b)))
     | RslMessage1a a => inl (inr (inl a))
     | RslMessage1b a b c => inl (inr (inr (inl (a, b, c))))
     | RslMessage2a a b c => inl (inr (inr (inr (inl (a, b, c)))))
     | RslMessage2b a b c => inl (inr (inr (inr (inr (a, b, c)))))
     | RslMessageHeartbeat a b c => inr (inl (inl (a, b, c)))
     | RslMessageReply a b => inr (inl (inr (inl (a, b))))
     | RslMessageAppStateRequest a b => inr (inl (inr (inr (a, b))))
     | RslMessageAppStateSupply a b c d => inr (inr (inl (a, b, c, d)))
     | RslMessageStartingPhase2 a b => inr (inr (inr (a, b)))
     end)
    (fun x => match x with
     | inl (inl (inl _)) => RslMessageInvalid
     | inl (inl (inr (a, b))) => RslMessageRequest a b
     | inl (inr (inl a)) => RslMessage1a a
     | inl (inr (inr (inl (a, b, c)))) => RslMessage1b a b c
     | inl (inr (inr (inr (inl (a, b, c))))) => RslMessage2a a b c
     | inl (inr (inr (inr (inr (a, b, c))))) => RslMessage2b a b c
     | inr (inl (inl (a, b, c))) => RslMessageHeartbeat a b c
     | inr (inl (inr (inl (a, b)))) => RslMessageReply a b
     | inr (inl (inr (inr (a, b)))) => RslMessageAppStateRequest a b
     | inr (inr (inl (a, b, c, d))) => RslMessageAppStateSupply a b c d
     | inr (inr (inr (a, b))) => RslMessageStartingPhase2 a b
     end) _); by intros [].
Defined.

(** [LPacket<IdType, MessageType>]. *)
Record LPacket (IdType MessageType : Type) :=
  MkLPacket { dst : IdType; src : IdType; msg : MessageType }.
Arguments MkLPacket {_ _} _ _ _.
Arguments dst {_ _} _.
Arguments src {_ _} _.
Arguments msg {_ _} _.

#[export] Instance LPacket_eq_dec `{EqDecision Id, EqDecision M} : EqDecision (LPacket Id M).
Proof. solve_decision. Defined.
#[export] Instance LPacket_countable `{Countable Id, Countable M} : Countable (LPacket Id M).
Proof.
  by refine (inj_countable' (fun p => (dst p, src p, msg p))
                            (fun t => MkLPacket t.1.1 t.1.2 t.2) _); intros [].
Defined.

Abbreviation RslPacket := (LPacket AbstractEndPoint RslMessage) (only parsing).

(** Verus's [m->field] accessors, arbitrary on the other variants. *)
Definition msg_seqno_req (m : RslMessage) : Z :=
  match m with RslMessageRequest x _ => x | _ => inhabitant end.
Definition msg_val (m : RslMessage) : AppMessage :=
  match m with RslMessageRequest _ x => x | _ => inhabitant end.
Definition msg_bal_1a (m : RslMessage) : Ballot :=
  match m with RslMessage1a x => x | _ => inhabitant end.
Definition msg_bal_1b (m : RslMessage) : Ballot :=
  match m with RslMessage1b x _ _ => x | _ => inhabitant end.
Definition msg_log_truncation_point (m : RslMessage) : OperationNumber :=
  match m with RslMessage1b _ x _ => x | _ => inhabitant end.
Definition msg_votes (m : RslMessage) : Votes :=
  match m with RslMessage1b _ _ x => x | _ => inhabitant end.
Definition msg_bal_2a (m : RslMessage) : Ballot :=
  match m with RslMessage2a x _ _ => x | _ => inhabitant end.
Definition msg_opn_2a (m : RslMessage) : OperationNumber :=
  match m with RslMessage2a _ x _ => x | _ => inhabitant end.
Definition msg_val_2a (m : RslMessage) : RequestBatch :=
  match m with RslMessage2a _ _ x => x | _ => inhabitant end.
Definition msg_bal_2b (m : RslMessage) : Ballot :=
  match m with RslMessage2b x _ _ => x | _ => inhabitant end.
Definition msg_opn_2b (m : RslMessage) : OperationNumber :=
  match m with RslMessage2b _ x _ => x | _ => inhabitant end.
Definition msg_val_2b (m : RslMessage) : RequestBatch :=
  match m with RslMessage2b _ _ x => x | _ => inhabitant end.
Definition msg_bal_heartbeat (m : RslMessage) : Ballot :=
  match m with RslMessageHeartbeat x _ _ => x | _ => inhabitant end.
Definition msg_suspicious (m : RslMessage) : bool :=
  match m with RslMessageHeartbeat _ x _ => x | _ => inhabitant end.
Definition msg_opn_ckpt (m : RslMessage) : OperationNumber :=
  match m with RslMessageHeartbeat _ _ x => x | _ => inhabitant end.
Definition msg_bal_state_req (m : RslMessage) : Ballot :=
  match m with RslMessageAppStateRequest x _ => x | _ => inhabitant end.
Definition msg_opn_state_req (m : RslMessage) : OperationNumber :=
  match m with RslMessageAppStateRequest _ x => x | _ => inhabitant end.
Definition msg_bal_state_supply (m : RslMessage) : Ballot :=
  match m with RslMessageAppStateSupply x _ _ _ => x | _ => inhabitant end.
Definition msg_opn_state_supply (m : RslMessage) : OperationNumber :=
  match m with RslMessageAppStateSupply _ x _ _ => x | _ => inhabitant end.
Definition msg_app_state (m : RslMessage) : AppState :=
  match m with RslMessageAppStateSupply _ _ x _ => x | _ => inhabitant end.
Definition msg_reply_cache (m : RslMessage) : ReplyCache :=
  match m with RslMessageAppStateSupply _ _ _ x => x | _ => inhabitant end.
Definition msg_bal_2 (m : RslMessage) : Ballot :=
  match m with RslMessageStartingPhase2 x _ => x | _ => inhabitant end.
Definition msg_logTruncationPoint_2 (m : RslMessage) : OperationNumber :=
  match m with RslMessageStartingPhase2 _ x => x | _ => inhabitant end.

(** [msg is RslMessage1b], [msg is RslMessageReply]. *)
Definition is_1b (m : RslMessage) : bool :=
  match m with RslMessage1b _ _ _ => true | _ => false end.
Definition is_reply (m : RslMessage) : bool :=
  match m with RslMessageReply _ _ => true | _ => false end.

(** ** Configuration, constants, parameters *)

Record LConfiguration := MkLConfiguration
  { clientIds : gset AbstractEndPoint; replica_ids : list AbstractEndPoint }.

Definition LMinQuorumSize (c : LConfiguration) : Z := seq_len (replica_ids c) / 2 + 1.

Definition ReplicasDistinct (ids : list AbstractEndPoint) (i j : Z) : Prop :=
  forall x, seq_get ids i = Some x -> seq_get ids j = Some x -> i = j.

Definition ReplicasIsUnique (ids : list AbstractEndPoint) : Prop :=
  forall i j x, seq_get ids i = Some x -> seq_get ids j = Some x -> i = j.

Definition WellFormedLConfiguration (c : LConfiguration) : Prop :=
  0 < seq_len (replica_ids c)
  /\ (forall i j, ReplicasDistinct (replica_ids c) i j)
  /\ ReplicasIsUnique (replica_ids c).

Definition IsReplicaIndex (idx : Z) (id : AbstractEndPoint) (c : LConfiguration) : Prop :=
  0 <= idx < seq_len (replica_ids c) /\ seq_get (replica_ids c) idx = Some id.

Definition GetReplicaIndex (id : AbstractEndPoint) (c : LConfiguration) : Z :=
  FindIndexInSeq (replica_ids c) id.

Record LParameters := MkLParameters
  { max_log_length : Z; baseline_view_timeout_period : Z; heartbeat_period : Z;
    max_integer_val : UpperBound; max_batch_size : Z; max_batch_delay : Z }.

Definition WFLParameters (p : LParameters) : Prop :=
  max_log_length p > 0 /\ baseline_view_timeout_period p > 0 /\ heartbeat_period p > 0
  /\ max_batch_size p > 0 /\ max_batch_delay p >= 0.

Record LConstants := MkLConstants { config : LConfiguration; params : LParameters }.

Record LReplicaConstants := MkLReplicaConstants { my_index : Z; all : LConstants }.

Definition LReplicaConstantsValid (c : LReplicaConstants) : Prop :=
  0 <= my_index c < seq_len (replica_ids (config (all c))).

#[export] Instance LReplicaConstantsValid_dec c : Decision (LReplicaConstantsValid c).
Proof. unfold LReplicaConstantsValid. apply _. Defined.

(** Shorthand for the paths [c.all.config.replica_ids] and [c.all.params]. *)
Abbreviation ids_of c := (replica_ids (config (all c))).
Abbreviation params_of c := (params (all c)).

Lemma ReplicasIsUnique_NoDup ids : ReplicasIsUnique ids <-> NoDup ids.
Proof.
  split.
  - intros H. apply NoDup_alt. intros i j x Hi Hj.
    rewrite <- seq_get_of_nat in Hi, Hj. specialize (H _ _ _ Hi Hj). lia.
  - intros H i j x. by apply seq_get_NoDup_inj.
Qed.

Lemma LMinQuorumSize_majority c : 2 * LMinQuorumSize c > seq_len (replica_ids c).
Proof. unfold LMinQuorumSize. Z.to_euclidean_division_equations. lia. Qed.

Lemma LMinQuorumSize_le_len c :
  0 < seq_len (replica_ids c) -> 0 < LMinQuorumSize c <= seq_len (replica_ids c).
Proof. unfold LMinQuorumSize. Z.to_euclidean_division_equations. lia. Qed.

Lemma GetReplicaIndex_range id c :
  id ∈ replica_ids c -> 0 <= GetReplicaIndex id c < seq_len (replica_ids c).
Proof. intros H%FindIndexInSeq_elem_of. by eapply seq_get_Some_range. Qed.

Lemma GetReplicaIndex_IsReplicaIndex id c :
  id ∈ replica_ids c -> IsReplicaIndex (GetReplicaIndex id c) id c.
Proof.
  intros H. split; [by apply GetReplicaIndex_range|by apply FindIndexInSeq_elem_of].
Qed.

(** ** The concrete types' validity (types_i.rs, cmessage.rs, io_s.rs) *)

(** [valid_physical_address], and the bytes of the [Vec<u8>]. *)
#[export] Instance EndPoint_valid : Valid AbstractEndPoint := fun e =>
  seq_len (ep_id e) < 0x100000 /\ Forall (fun b => 0 <= b < 256) (ep_id e).

(** [CBallot::valid]. *)
#[export] Instance CBallot_valid : Valid Ballot := fun b =>
  is_u64 (bal_seqno b) /\ 0 <= bal_proposer_id b < 0xFFFF_FFFF_FFFF_FFFF.

#[export] Instance CAppMessage_valid : Valid AppMessage := fun m =>
  match m with AppIncrementReply r => is_u64 r | _ => True end.

#[export] Instance CRequest_valid : Valid Request := fun r =>
  valid (req_client r) /\ is_u64 (req_seqno r) /\ valid (req_request r).

#[export] Instance CReply_valid : Valid Reply := fun r =>
  valid (rep_client r) /\ is_u64 (rep_seqno r) /\ valid (rep_reply r).

(** [crequestbatch_is_valid]; a [Vec]'s length is a [usize]. *)
#[export] Instance CRequestBatch_valid : Valid (list Request) := fun b =>
  Forall valid b.

#[export] Instance CVote_valid : Valid Vote := fun v =>
  valid (max_value_bal v) /\ valid (max_val v).

(** [creplycache_is_valid], [cvotes_is_valid], [clearnerstate_is_valid]. *)
#[export] Instance CReplyCache_valid : Valid (gmap AbstractEndPoint Reply) := fun m =>
  forall k r, m !! k = Some r -> valid k /\ valid r.

#[export] Instance CVotes_valid : Valid (gmap Z Vote) := fun m =>
  forall k v, m !! k = Some v -> is_u64 k /\ valid v.

#[export] Instance CLearnerTuple_valid : Valid LearnerTuple := fun t =>
  (forall p, p ∈ received_2b_message_senders t -> valid p)
  /\ valid (candidate_learned_value t).

#[export] Instance CLearnerState_valid : Valid (gmap Z LearnerTuple) := fun m =>
  forall k t, m !! k = Some t -> is_u64 k /\ valid t.

#[export] Instance CMessage_valid : Valid RslMessage := fun m =>
  match m with
  | RslMessageInvalid => True
  | RslMessageRequest seqno_req val => is_u64 seqno_req /\ valid val
  | RslMessage1a bal_1a => valid bal_1a
  | RslMessage1b bal_1b ltp votes => valid bal_1b /\ is_u64 ltp /\ valid votes
  | RslMessage2a bal_2a opn_2a val_2a => valid bal_2a /\ is_u64 opn_2a /\ valid val_2a
  | RslMessage2b bal_2b opn_2b val_2b => valid bal_2b /\ is_u64 opn_2b /\ valid val_2b
  | RslMessageHeartbeat bal _ opn_ckpt => valid bal /\ is_u64 opn_ckpt
  | RslMessageReply seqno_reply reply => is_u64 seqno_reply /\ valid reply
  | RslMessageAppStateRequest bal opn => valid bal /\ is_u64 opn
  | RslMessageAppStateSupply bal opn app cache =>
      valid bal /\ is_u64 opn /\ is_u64 app /\ valid cache
  | RslMessageStartingPhase2 bal ltp => valid bal /\ is_u64 ltp
  end.

#[export] Instance CPacket_valid : Valid (LPacket AbstractEndPoint RslMessage) := fun p =>
  valid (dst p) /\ valid (src p) /\ valid (msg p).

#[export] Instance CPackets_valid : Valid (list (LPacket AbstractEndPoint RslMessage)) :=
  fun ps => Forall valid ps.

(** ** Concrete configuration, parameters and constants *)

Record CParameters := MkCParameters
  { c_max_log_length : Z; c_baseline_view_timeout_period : Z; c_heartbeat_period : Z;
    c_max_integer_val : Z; c_max_batch_size : Z; c_max_batch_delay : Z }.

#[export] Instance CParameters_view : View CParameters LParameters := fun p =>
  {| max_log_length := c_max_log_length p;
     baseline_view_timeout_period := c_baseline_view_timeout_period p;
     heartbeat_period := c_heartbeat_period p;
     max_integer_val := UpperBoundFinite (c_max_integer_val p);
     max_batch_size := c_max_batch_size p;
     max_batch_delay := c_max_batch_delay p |}.

#[export] Instance CParameters_valid : Valid CParameters := fun p =>
  (c_max_integer_val p > c_max_log_length p /\ c_max_log_length p > 0)
  /\ c_max_integer_val p > c_max_batch_delay p
  /\ c_max_integer_val p < 0x8000_0000_0000_0000
  /\ c_baseline_view_timeout_period p > 0
  /\ (c_max_integer_val p > c_heartbeat_period p /\ c_heartbeat_period p > 0)
  /\ c_max_batch_size p > 0
  (* the width of the two fields that are not bounded by the others *)
  /\ is_u64 (c_baseline_view_timeout_period p) /\ is_u64 (c_max_batch_size p)
  /\ 0 <= c_max_batch_delay p.

(** [StaticParams]. *)
Definition StaticParams : CParameters :=
  {| c_max_log_length := 1000; c_baseline_view_timeout_period := 1000;
     c_heartbeat_period := 100; c_max_integer_val := 0x8000_0000_0000_0000 - 1;
     c_max_batch_size := 1; c_max_batch_delay := 10 |}.

Record CConfiguration := MkCConfiguration { c_replica_ids : list AbstractEndPoint }.

#[export] Instance CConfiguration_view : View CConfiguration LConfiguration := fun c =>
  {| clientIds := ∅; replica_ids := c_replica_ids c |}.

#[export] Instance CConfiguration_valid : Valid CConfiguration := fun c =>
  NoDup (c_replica_ids c) /\ Forall valid (c_replica_ids c)
  /\ 0 < seq_len (c_replica_ids c) < 0xffff_ffff_ffff_ffff.

(** [RequestBatchSizeLimit], [max_votes_len]. *)
Definition RequestBatchSizeLimit : Z := 1000.
Definition max_votes_len : Z := 1001.

Record CConstants := MkCConstants { c_config : CConfiguration; c_params : CParameters }.

#[export] Instance CConstants_view : View CConstants LConstants := fun c =>
  {| config := view (c_config c); params := view (c_params c) |}.

#[export] Instance CConstants_valid : Valid CConstants := fun c =>
  valid (c_config c) /\ valid (c_params c)
  /\ 0 <= c_heartbeat_period (c_params c) < c_max_integer_val (c_params c)
  /\ 0 < c_max_batch_size (c_params c) <= RequestBatchSizeLimit
  /\ c_max_log_length (c_params c) < max_votes_len.

Record CReplicaConstants := MkCReplicaConstants { c_my_index : Z; c_all : CConstants }.

#[export] Instance CReplicaConstants_view : View CReplicaConstants LReplicaConstants := fun c =>
  {| my_index := c_my_index c; all := view (c_all c) |}.

Definition ReplicaIndexValid (index : Z) (c : CConfiguration) : Prop :=
  0 <= index < seq_len (c_replica_ids c).

#[export] Instance CReplicaConstants_valid : Valid CReplicaConstants := fun c =>
  ReplicaIndexValid (c_my_index c) (c_config (c_all c)) /\ valid (c_all c).

(** [CReplicaConstants::CReplicaConstantsValid]. *)
Definition CReplicaConstantsValid (c : CReplicaConstants) : bool :=
  c_my_index c <? seq_len (c_replica_ids (c_config (c_all c))).

Abbreviation c_ids_of c := (c_replica_ids (c_config (c_all c))).
Abbreviation c_params_of c := (c_params (c_all c)).

(** [CMinQuorumSize]. *)
Definition CMinQuorumSize (c : CConfiguration) : Z := seq_len (c_replica_ids c) / 2 + 1.

(** [CGetReplicaIndex]: the scan's loop from position [i], returning whether
    the host was found and where. *)
Fixpoint CGetReplicaIndex_loop (ids : list AbstractEndPoint) (id : AbstractEndPoint) (i : Z)
  : bool * Z :=
  match ids with
  | [] => (false, 0)
  | x :: rest =>
      if decide (id = x) then (true, i) else CGetReplicaIndex_loop rest id (i + 1)
  end.

Definition CGetReplicaIndex (c : CConfiguration) (id : AbstractEndPoint) : bool * Z :=
  CGetReplicaIndex_loop (c_replica_ids c) id 0.

Section constants_lemmas.
Implicit Types c : CReplicaConstants.

Lemma CGetReplicaIndex_loop_spec ids id i :
  CGetReplicaIndex_loop ids id i
  = if decide (id ∈ ids) then (true, i + FindIndexInSeq ids id) else (false, 0).
Proof.
  revert i. induction ids as [|x ids IH]; intros i;
    cbn [CGetReplicaIndex_loop FindIndexInSeq].
  - rewrite decide_False; [done|apply not_elem_of_nil].
  - destruct (decide (id = x)) as [->|Hne].
    + rewrite decide_True by (apply elem_of_cons; auto).
      rewrite decide_True by done. f_equal. lia.
    + rewrite IH. destruct (decide (id ∈ ids)) as [Hin|Hin].
      * rewrite decide_True by (apply elem_of_cons; auto).
        rewrite decide_False by done.
        pose proof (seq_get_Some_range _ _ _ (FindIndexInSeq_elem_of _ _ Hin)).
        rewrite decide_False by lia. f_equal. lia.
      * rewrite decide_False; [done|].
        intros [?|?]%elem_of_cons; congruence.
Qed.

Lemma CGetReplicaIndex_spec (c : CConfiguration) id :
  CGetReplicaIndex c id
  = if decide (id ∈ c_replica_ids c) then (true, GetReplicaIndex id (view c)) else (false, 0).
Proof. apply CGetReplicaIndex_loop_spec. Qed.

Lemma CMinQuorumSize_view (c : CConfiguration) : CMinQuorumSize c = LMinQuorumSize (view c).
Proof. done. Qed.

Lemma StaticParams_valid : valid StaticParams.
Proof. unfold valid, CParameters_valid, is_u64, U64_MODULUS; simpl. lia. Qed.

Lemma valid_constants_view c : valid c -> LReplicaConstantsValid (view c).
Proof. by intros [? _]. Qed.

Lemma CReplicaConstantsValid_spec c :
  valid c -> CReplicaConstantsValid c = bool_decide (LReplicaConstantsValid (view c)).
Proof.
  intros Hv%valid_constants_view. rewrite bool_decide_true by done.
  unfold LReplicaConstantsValid in Hv. simpl in Hv.
  unfold CReplicaConstantsValid. lia.
Qed.

Lemma valid_my_id c : valid c -> valid (seq_index (c_ids_of c) (c_my_index c)).
Proof.
  intros [Hi [(_ & Hall & _) _]]. rewrite Forall_forall in Hall.
  apply Hall. by apply seq_index_elem_of.
Qed.
End constants_lemmas.

#[export] Hint Resolve valid_constants_view valid_my_id : rsl.
