(* ===== verification/Common.v ===== *)
(** * The application state machine and broadcasting

    services/RSL/app_state_machine.rs and protocol/RSL/state_machine.rs with
    implementation/RSL/{appinterface,CStateMachine}.rs, and
    protocol/RSL/broadcast.rs with generated/RSL/broadcast_gen.rs. *)

From stdpp Require Import prelude gmap sets list numbers fin_sets.
From Stdlib Require Import ZArith Lia.
From S2P Require Import Prelude.
From S2P Require Import Types.

#[local] Open Scope Z_scope.

(** ** The application: a capped 64-bit counter *)

Definition AppInitialize : AppState := 0.

Definition CappedIncr (v : Z) : Z :=
  if decide (v = 0xffff_ffff_ffff_ffff) then v else u64_add v 1.

Definition AppHandleRequest (m : AppState) (request : AppMessage) : AppState * AppMessage :=
  match request with
  | AppIncrementRequest => (CappedIncr m, AppIncrementReply (CappedIncr m))
  | _ => (m, AppInvalidReply)
  end.

(** appinterface.rs *)
Definition CAppStateInit : Z := 0.

Definition CappendIncrImpl (v : Z) : Z :=
  if v =? 0xffff_ffff_ffff_ffff then v else u64_add v 1.

Definition HandleAppRequest (appState : Z) (request : AppMessage) : Z * AppMessage :=
  match request with
  | AppIncrementRequest => (CappendIncrImpl appState, AppIncrementReply (CappendIncrImpl appState))
  | _ => (appState, AppInvalidReply)
  end.

(** ** Executing a batch (state_machine.rs)

    The state sequence holds the state before each request and the final
    one; the recursion is on the batch's last element, [drop_last]. *)

Definition HandleRequest (state : AppState) (request : Request) : AppState * Reply :=
  let (new_state, reply) := AppHandleRequest state (req_request request) in
  (new_state, MkReply (req_client request) (req_seqno request) reply).

(** One level of the recursion, on the results for [batch.drop_last()]. *)
Definition HandleRequestBatch_snoc (rest : list AppState * list Reply) (r : Request)
  : list AppState * list Reply :=
  let '(restStates, restReplies) := rest in
  let (new_state, reply) := AppHandleRequest (default inhabitant (last restStates)) (req_request r) in
  (restStates ++ [new_state], restReplies ++ [MkReply (req_client r) (req_seqno r) reply]).

(** The recursion follows the reversed batch: its head is [batch.last()], its
    tail is [batch.drop_last()] reversed. *)
Fixpoint HandleRequestBatchHidden_rev (state : AppState) (rbatch : list Request)
  : list AppState * list Reply :=
  match rbatch with
  | [] => ([state], [])
  | r :: rest => HandleRequestBatch_snoc (HandleRequestBatchHidden_rev state rest) r
  end.

Definition HandleRequestBatchHidden (state : AppState) (batch : RequestBatch)
  : list AppState * list Reply := HandleRequestBatchHidden_rev state (rev batch).

Definition HandleRequestBatch (state : AppState) (batch : RequestBatch)
  : list AppState * list Reply :=
  let '(states, replies) := HandleRequestBatchHidden state batch in (states, replies).

(** CStateMachine.rs: the same recursion with the concrete application. *)
Definition CHandleRequest (state : Z) (request : Request) : Z * Reply :=
  let (new_state, reply) := HandleAppRequest state (req_request request) in
  (new_state, MkReply (req_client request) (req_seqno request) reply).

Fixpoint CHandleRequestBatchHidden_rev (state : Z) (rbatch : list Request)
  : list Z * list Reply :=
  match rbatch with
  | [] => ([state], [])
  | r :: rest =>
      let '(rest_states, rest_replies) := CHandleRequestBatchHidden_rev state rest in
      let (new_state, reply) :=
        HandleAppRequest (seq_index rest_states (seq_len rest_states - 1)) (req_request r) in
      (rest_states ++ [new_state],
       rest_replies ++ [MkReply (req_client r) (req_seqno r) reply])
  end.

Definition CHandleRequestBatchHidden (state : Z) (batch : list Request)
  : list Z * list Reply := CHandleRequestBatchHidden_rev state (rev batch).

Definition CHandleRequestBatch (state : Z) (batch : list Request) : list Z * list Reply :=
  let '(states, replies) := CHandleRequestBatchHidden state batch in (states, replies).

(** A batch folded from the left: the reference meaning of execution. *)
Definition run_batch (state : AppState) (batch : RequestBatch) : AppState :=
  foldl (fun s r => (AppHandleRequest s (req_request r)).1) state batch.

(** ** Broadcasting (broadcast.rs, broadcast_gen.rs) *)

Definition LBroadcastToEveryone (c : LConfiguration) (myidx : Z) (m : RslMessage)
    (sent_packets : list RslPacket) : Prop :=
  seq_len sent_packets = seq_len (replica_ids c)
  /\ 0 <= myidx < seq_len (replica_ids c)
  /\ (forall idx, 0 <= idx < seq_len sent_packets ->
        seq_get sent_packets idx
        = Some (MkLPacket (seq_index (replica_ids c) idx) (seq_index (replica_ids c) myidx) m)).

Fixpoint BuildLBroadcast (src : AbstractEndPoint) (dsts : list AbstractEndPoint)
    (m : RslMessage) : list RslPacket :=
  match dsts with
  | [] => []
  | d :: dsts' => [MkLPacket d src m] ++ BuildLBroadcast src dsts' m
  end.

(** The loop pushes one packet per replica. *)
Definition CBroadcastToEveryone (c : CConfiguration) (myidx : Z) (m : RslMessage)
  : list RslPacket :=
  foldl (fun result d => result ++ [MkLPacket d (seq_index (c_replica_ids c) myidx) m])
        [] (c_replica_ids c).

(** ** Lemmas *)

Section state_machine_lemmas.
Implicit Types (s : AppState) (b : RequestBatch).

Lemma HandleAppRequest_spec s m : HandleAppRequest s m = AppHandleRequest s m.
Proof.
  unfold HandleAppRequest, AppHandleRequest, CappendIncrImpl, CappedIncr.
  destruct m; try done. case_decide as Hs; case_match eqn:He; (done || lia).
Qed.

Lemma HandleRequestBatchHidden_app s b r :
  HandleRequestBatchHidden s (b ++ [r])
  = HandleRequestBatch_snoc (HandleRequestBatchHidden s b) r.
Proof. unfold HandleRequestBatchHidden. by rewrite rev_app_distr. Qed.

Lemma HandleRequestBatch_Hidden s b : HandleRequestBatch s b = HandleRequestBatchHidden s b.
Proof. unfold HandleRequestBatch. by destruct (HandleRequestBatchHidden s b). Qed.

Lemma CHandleRequestBatch_spec s b : CHandleRequestBatch s b = HandleRequestBatch s b.
Proof.
  rewrite HandleRequestBatch_Hidden. unfold CHandleRequestBatch.
  assert (forall rb, CHandleRequestBatchHidden_rev s rb = HandleRequestBatchHidden_rev s rb) as Heq.
  { induction rb as [|r rb IH]; [done|]. cbn [CHandleRequestBatchHidden_rev HandleRequestBatchHidden_rev].
    rewrite IH. unfold HandleRequestBatch_snoc.
    destruct (HandleRequestBatchHidden_rev s rb) as [ss rs].
    rewrite HandleAppRequest_spec. f_equal. f_equal.
    unfold seq_index, seq_get, seq_len. rewrite last_lookup.
    case_decide as Hd; [by replace (Z.to_nat (Z.of_nat (length ss) - 1)) with (pred (length ss)) by lia|].
    by destruct ss; [|simpl in Hd; lia]. }
  unfold CHandleRequestBatchHidden, HandleRequestBatchHidden. rewrite Heq.
  by destruct (HandleRequestBatchHidden_rev s (rev b)).
Qed.

(** Everything the protocol needs of a batch's execution, in one induction
    on the batch from the right. *)
Lemma HandleRequestBatch_props s b :
  let '(ss, rs) := HandleRequestBatch s b in
  length ss = S (length b) /\ length rs = length b
  /\ last ss = Some (run_batch s b)
  /\ (forall i r rep, b !! i = Some r -> rs !! i = Some rep ->
        exists s0 s1, ss !! i = Some s0 /\ ss !! S i = Some s1
        /\ AppHandleRequest s0 (req_request r) = (s1, rep_reply rep)
        /\ rep_client rep = req_client r /\ rep_seqno rep = req_seqno r).
Proof.
  rewrite HandleRequestBatch_Hidden.
  induction b as [|r b IH] using rev_ind; [by repeat split|].
  rewrite HandleRequestBatchHidden_app. unfold HandleRequestBatch_snoc.
  destruct (HandleRequestBatchHidden s b) as [ss rs].
  destruct IH as (Hl1 & Hl2 & Hlast & IH). rewrite Hlast. simpl.
  destruct (AppHandleRequest (run_batch s b) (req_request r)) as [s' rep] eqn:Happ.
  rewrite !length_app, last_snoc. cbn [length]. split_all; [lia|lia| |].
  { unfold run_batch in *. rewrite foldl_app. simpl. by rewrite Happ. }
  intros i q qrep Hb Hr. destruct (decide (i < length b)%nat) as [Hi|Hi].
  - rewrite lookup_app_l in Hb by lia. rewrite lookup_app_l in Hr by lia.
    destruct (IH _ _ _ Hb Hr) as (s0 & s1 & ? & ? & ?).
    exists s0, s1. rewrite !lookup_app_l by lia. done.
  - assert (i = length b) as ->.
    { apply lookup_lt_Some in Hb. rewrite length_app in Hb. simpl in Hb. lia. }
    rewrite lookup_app_r, Nat.sub_diag in Hb by lia.
    rewrite lookup_app_r, Hl2, Nat.sub_diag in Hr by lia. simpl in Hb, Hr. simplify_eq.
    exists (run_batch s b), s'. rewrite lookup_app_l by lia.
    rewrite last_lookup, Hl1 in Hlast. simpl in Hlast.
    rewrite lookup_app_r, Hl1, Nat.sub_diag by lia. done.
Qed.

(** The recorded states are those of the batch's prefixes. *)
Lemma HandleRequestBatch_states s b i :
  (i <= length b)%nat -> (HandleRequestBatch s b).1 !! i = Some (run_batch s (take i b)).
Proof.
  rewrite HandleRequestBatch_Hidden. revert i. induction b as [|r b IH] using rev_ind; intros i Hi.
  { simpl in Hi. by replace i with 0%nat by lia. }
  pose proof (HandleRequestBatch_props s b) as Hp. rewrite HandleRequestBatch_Hidden in Hp.
  rewrite HandleRequestBatchHidden_app. unfold HandleRequestBatch_snoc.
  destruct (HandleRequestBatchHidden s b) as [ss rs] eqn:E.
  destruct Hp as (Hl1 & _ & Hlast & _). rewrite Hlast. simpl.
  destruct (AppHandleRequest (run_batch s b) (req_request r)) as [s' rep] eqn:Happ. simpl.
  rewrite length_app in Hi. cbn [length] in Hi.
  destruct (decide (i <= length b)%nat) as [Hle|Hgt].
  - rewrite lookup_app_l by lia. simpl in IH. by rewrite IH, take_app_le by lia.
  - replace i with (S (length b)) by lia. rewrite lookup_app_r, Hl1, Nat.sub_diag by lia.
    rewrite take_ge by (rewrite length_app; simpl; lia). simpl. f_equal.
    unfold run_batch in *. rewrite foldl_app. simpl. by rewrite Happ.
Qed.

Lemma CappedIncr_is_u64 s : is_u64 s -> is_u64 (CappedIncr s).
Proof. unfold CappedIncr. case_decide; [done|]. intros. apply u64_add_is_u64. Qed.

Lemma AppHandleRequest_valid s m :
  is_u64 s -> is_u64 (AppHandleRequest s m).1 /\ valid (AppHandleRequest s m).2.
Proof.
  intros Hs. destruct m; simpl; split; try done; by apply CappedIncr_is_u64.
Qed.

Lemma run_batch_is_u64 s b : is_u64 s -> is_u64 (run_batch s b).
Proof.
  unfold run_batch. revert s. induction b as [|r b IH]; intros s Hs; [done|].
  simpl. apply IH. by apply AppHandleRequest_valid.
Qed.

Lemma HandleRequestBatch_valid s b :
  is_u64 s -> valid b ->
  Forall is_u64 (HandleRequestBatch s b).1 /\ Forall valid (HandleRequestBatch s b).2.
Proof.
  rewrite HandleRequestBatch_Hidden. intros Hs Hb.
  induction b as [|r b IH] using rev_ind.
  { split; [by apply Forall_singleton|by apply Forall_nil]. }
  apply Forall_app in Hb as [Hb Hr]. apply Forall_singleton in Hr as (Hc & Hn & _).
  specialize (IH Hb). pose proof (HandleRequestBatch_props s b) as Hp.
  rewrite HandleRequestBatch_Hidden in Hp.
  rewrite HandleRequestBatchHidden_app. unfold HandleRequestBatch_snoc.
  destruct (HandleRequestBatchHidden s b) as [ss rs]. destruct Hp as (_ & _ & Hlast & _).
  rewrite Hlast. simpl. pose proof (AppHandleRequest_valid (run_batch s b) (req_request r)
    (run_batch_is_u64 _ _ Hs)) as [H1 H2].
  destruct (AppHandleRequest _ _) as [s' rep]; simpl in *. destruct IH.
  split; apply Forall_app; split; try done; apply Forall_singleton; done.
Qed.
End state_machine_lemmas.

Lemma valid_no_packets : valid ([] : list RslPacket).
Proof. by apply Forall_nil. Qed.

Section broadcast_lemmas.
Lemma BuildLBroadcast_fmap s dsts m :
  BuildLBroadcast s dsts m = (fun d => MkLPacket d s m) <$> dsts.
Proof. induction dsts as [|d dsts IH]; simpl; [done|]. by rewrite IH. Qed.

Lemma foldl_push {A B} (f : A -> B) (acc : list B) (l : list A) :
  foldl (fun r x => r ++ [f x]) acc l = acc ++ (f <$> l).
Proof.
  revert acc. induction l as [|x l IH]; intros acc; simpl; [by rewrite app_nil_r|].
  by rewrite IH, <-app_assoc.
Qed.

Lemma CBroadcastToEveryone_fmap c i m :
  CBroadcastToEveryone c i m
  = (fun d => MkLPacket d (seq_index (c_replica_ids c) i) m) <$> c_replica_ids c.
Proof.
  unfold CBroadcastToEveryone.
  apply (foldl_push (fun d => MkLPacket d (seq_index (c_replica_ids c) i) m) []).
Qed.

(** The only packets of a broadcast: one per replica, from [myidx]. *)
Lemma LBroadcastToEveryone_elem c i m ps p :
  LBroadcastToEveryone c i m ps -> p ∈ ps ->
  src p = seq_index (replica_ids c) i /\ src p ∈ replica_ids c
  /\ dst p ∈ replica_ids c /\ msg p = m.
Proof.
  intros (Hlen & Hi & Hps) [k Hk]%elem_of_seq_get.
  pose proof (seq_get_Some_range _ _ _ Hk) as Hr. rewrite Hps in Hk by done.
  simplify_eq. simpl. split_all; try done; apply seq_index_elem_of; lia.
Qed.

Lemma LBroadcastToEveryone_unique c i m ps ps' :
  LBroadcastToEveryone c i m ps -> LBroadcastToEveryone c i m ps' -> ps = ps'.
Proof.
  intros (H1 & _ & H2) (H3 & _ & H4). apply seq_ext. intros k.
  destruct (decide (0 <= k < seq_len ps)) as [Hk|Hk].
  - rewrite H2, H4 by lia. done.
  - destruct (seq_get ps k) eqn:E1; [by apply seq_get_Some_range in E1|].
    destruct (seq_get ps' k) eqn:E2; [apply seq_get_Some_range in E2; lia|done].
Qed.

Lemma CBroadcastToEveryone_refines (c : CConfiguration) i m :
  0 <= i < seq_len (c_replica_ids c) ->
  LBroadcastToEveryone (view c) i m (CBroadcastToEveryone c i m).
Proof.
  intros Hi. rewrite CBroadcastToEveryone_fmap. split_all; simpl.
  - by rewrite seq_len_fmap.
  - simpl; lia.
  - simpl; lia.
  - intros idx. rewrite seq_len_fmap. intros Hidx.
    by rewrite seq_get_fmap, seq_get_index.
Qed.

Lemma CBroadcastToEveryone_valid (c : CConfiguration) i m :
  valid c -> valid m -> 0 <= i < seq_len (c_replica_ids c) ->
  valid (CBroadcastToEveryone c i m).
Proof.
  intros (_ & Hall & _) Hm Hi. rewrite CBroadcastToEveryone_fmap.
  unfold valid, CPackets_valid. rewrite Forall_fmap.
  pose proof (proj1 (Forall_forall _ _) Hall) as Hall'.
  apply Forall_forall. intros d Hd. split_all; simpl; auto using seq_index_elem_of.
Qed.
End broadcast_lemmas.

#[export] Hint Resolve CBroadcastToEveryone_refines CBroadcastToEveryone_valid : rsl.
