(* ===== verification/Acceptor.v ===== *)
(** * The acceptor

    protocol/RSL/acceptor.rs (the [L] relations between a state, its
    successor [s_] and the packets sent) and generated/RSL/acceptor_gen.rs
    with implementation/RSL/{acceptorimpl,acceptor_helpers}.rs (the executable
    [C] functions, [&mut self] threaded as a returned state).  Each [C]
    function is proved to preserve validity and to refine its [L] relation. *)

From stdpp Require Import prelude gmap sets list numbers fin_sets.
From Stdlib Require Import ZArith Lia.
From S2P Require Import Prelude.
From S2P Require Import Types.
From S2P Require Import Common.

#[local] Open Scope Z_scope.

(** ** Protocol level *)

Record LAcceptor := MkLAcceptor
  { acc_constants : LReplicaConstants;
    acc_max_bal : Ballot;
    acc_votes : Votes;
    acc_last_checkpointed_operation : list OperationNumber;
    acc_log_truncation_point : OperationNumber }.

Definition IsLogTruncationPointValid (log_truncation_point : OperationNumber)
    (last_checkpointed_operation : list OperationNumber) (c : LConfiguration) : Prop :=
  IsNthHighestValueInSequence log_truncation_point last_checkpointed_operation (LMinQuorumSize c).

Definition RemoveVotesBeforeLogTruncationPoint (votes votes_ : Votes)
    (log_truncation_point : OperationNumber) : Prop :=
  (forall opn v, votes_ !! opn = Some v -> votes !! opn = Some v)
  /\ (forall opn, opn < log_truncation_point -> votes_ !! opn = None)
  /\ (forall opn, opn >= log_truncation_point -> is_Some (votes !! opn) -> is_Some (votes_ !! opn)).

Definition LAddVoteAndRemoveOldOnes (votes votes_ : Votes) (new_opn : OperationNumber)
    (new_vote : Vote) (log_truncation_point : OperationNumber) : Prop :=
  (forall opn, is_Some (votes_ !! opn)
     <-> opn >= log_truncation_point /\ (is_Some (votes !! opn) \/ opn = new_opn))
  /\ (forall opn v, votes_ !! opn = Some v ->
        v = if decide (opn = new_opn) then new_vote else votes !!! opn).

Definition LAcceptorInit (a : LAcceptor) (c : LReplicaConstants) : Prop :=
  acc_constants a = c
  /\ acc_max_bal a = MkBallot 0 0
  /\ acc_votes a = ∅
  /\ seq_len (acc_last_checkpointed_operation a) = seq_len (ids_of c)
  /\ (forall idx, 0 <= idx < seq_len (acc_last_checkpointed_operation a) ->
        seq_get (acc_last_checkpointed_operation a) idx = Some 0)
  /\ acc_log_truncation_point a = 0.

Definition LAcceptorProcess1a (s s_ : LAcceptor) (inp : RslPacket)
    (sent_packets : list RslPacket) : Prop :=
  let bal := msg_bal_1a (msg inp) in
  if decide (src inp ∈ ids_of (acc_constants s)
             /\ BalLt (acc_max_bal s) bal /\ LReplicaConstantsValid (acc_constants s))
  then
    sent_packets =
      [MkLPacket (src inp)
         (seq_index (ids_of (acc_constants s)) (my_index (acc_constants s)))
         (RslMessage1b bal (acc_log_truncation_point s) (acc_votes s))]
    /\ s_ = {| acc_constants := acc_constants s;
               acc_max_bal := bal;
               acc_votes := acc_votes s;
               acc_last_checkpointed_operation := acc_last_checkpointed_operation s;
               acc_log_truncation_point := acc_log_truncation_point s |}
  else s_ = s /\ sent_packets = [].

(** The truncation point after a 2a for [opn_2a]: the log keeps at most
    [max_log_length] operations. *)
Definition newLogTruncationPoint (s : LAcceptor) (opn_2a : OperationNumber) : OperationNumber :=
  if decide (opn_2a - max_log_length (params_of (acc_constants s)) + 1
             > acc_log_truncation_point s)
  then opn_2a - max_log_length (params_of (acc_constants s)) + 1
  else acc_log_truncation_point s.

Definition LAcceptorProcess2a (s s_ : LAcceptor) (inp : RslPacket)
    (sent_packets : list RslPacket) : Prop :=
  let m := msg inp in
  LBroadcastToEveryone (config (all (acc_constants s))) (my_index (acc_constants s))
    (RslMessage2b (msg_bal_2a m) (msg_opn_2a m) (msg_val_2a m)) sent_packets
  /\ acc_max_bal s_ = msg_bal_2a m
  /\ acc_log_truncation_point s_ = newLogTruncationPoint s (msg_opn_2a m)
  /\ (if decide (acc_log_truncation_point s <= msg_opn_2a m)
      then LAddVoteAndRemoveOldOnes (acc_votes s) (acc_votes s_) (msg_opn_2a m)
             (MkVote (msg_bal_2a m) (msg_val_2a m)) (newLogTruncationPoint s (msg_opn_2a m))
      else acc_votes s_ = acc_votes s)
  /\ acc_constants s_ = acc_constants s
  /\ acc_last_checkpointed_operation s_ = acc_last_checkpointed_operation s.

Definition LAcceptorProcessHeartbeat (s s_ : LAcceptor) (inp : RslPacket) : Prop :=
  if decide (src inp ∈ ids_of (acc_constants s)) then
    let sender_index := GetReplicaIndex (src inp) (config (all (acc_constants s))) in
    if decide (0 <= sender_index < seq_len (acc_last_checkpointed_operation s)
               /\ msg_opn_ckpt (msg inp)
                  > seq_index (acc_last_checkpointed_operation s) sender_index)
    then
      acc_last_checkpointed_operation s_
        = seq_update (acc_last_checkpointed_operation s) sender_index (msg_opn_ckpt (msg inp))
      /\ acc_constants s_ = acc_constants s
      /\ acc_max_bal s_ = acc_max_bal s
      /\ acc_votes s_ = acc_votes s
      /\ acc_log_truncation_point s_ = acc_log_truncation_point s
    else s_ = s
  else s_ = s.

Definition LAcceptorTruncateLog (s s_ : LAcceptor) (opn : OperationNumber) : Prop :=
  if decide (opn <= acc_log_truncation_point s) then s_ = s
  else
    s_ = {| acc_constants := acc_constants s;
            acc_max_bal := acc_max_bal s;
            acc_votes := acc_votes s_;
            acc_last_checkpointed_operation := acc_last_checkpointed_operation s;
            acc_log_truncation_point := opn |}
    /\ RemoveVotesBeforeLogTruncationPoint (acc_votes s) (acc_votes s_) opn.

(** ** Executable level *)

Record CAcceptor := MkCAcceptor
  { ca_constants : CReplicaConstants;
    ca_max_bal : Ballot;
    ca_votes : gmap Z Vote;
    ca_last_checkpointed_operation : list Z;
    ca_log_truncation_point : Z;
    ca_min_vote_opn : Z }.

#[export] Instance CAcceptor_view : View CAcceptor LAcceptor := fun s =>
  {| acc_constants := view (ca_constants s);
     acc_max_bal := ca_max_bal s;
     acc_votes := ca_votes s;
     acc_last_checkpointed_operation := ca_last_checkpointed_operation s;
     acc_log_truncation_point := ca_log_truncation_point s |}.

#[export] Instance CAcceptor_valid : Valid CAcceptor := fun s =>
  valid (ca_constants s) /\ valid (ca_max_bal s) /\ valid (ca_votes s)
  /\ Forall is_u64 (ca_last_checkpointed_operation s)
  /\ is_u64 (ca_log_truncation_point s)
  /\ seq_len (ca_last_checkpointed_operation s) = seq_len (c_ids_of (ca_constants s)).

(** The copy loop of [CRemoveVotesBeforeLogTruncationPoint], over the keys in
    whatever order the hash map yields them. *)
Definition CRemoveVotes_loop (votes : gmap Z Vote) (ltp : Z) (keys : list Z) : gmap Z Vote :=
  copy_keys_from votes ltp keys.

Definition CRemoveVotesBeforeLogTruncationPoint (votes : gmap Z Vote) (ltp : Z) : gmap Z Vote :=
  CRemoveVotes_loop votes ltp (hashmap_keys_to_vec votes).

Definition CAddVoteAndRemoveOldOnes (votes : gmap Z Vote) (new_opn : Z) (new_vote : Vote)
    (ltp : Z) : gmap Z Vote :=
  let result := CRemoveVotes_loop votes ltp (hashmap_keys_to_vec votes) in
  if new_opn >=? ltp then <[new_opn := new_vote]> result else result.

Fixpoint CCountLargerInSeq (s : list Z) (target : Z) : Z :=
  match s with
  | [] => 0
  | x :: rest =>
      let temp := CCountLargerInSeq rest target in
      if x >? target then u64_add temp 1 else temp
  end.

Fixpoint CCountLargerOrEqualInSeq (s : list Z) (target : Z) : Z :=
  match s with
  | [] => 0
  | x :: rest =>
      let temp := CCountLargerOrEqualInSeq rest target in
      if x >=? target then u64_add temp 1 else temp
  end.

Definition CIsNthHighestValueInSequence (v : Z) (s : list Z) (n : Z) : bool :=
  let b1 := (0 <? n) && (n <=? seq_len s) in
  let b2 := bool_decide (v ∈ s) in
  let b3 := CCountLargerInSeq s v <? n in
  let b4 := CCountLargerOrEqualInSeq s v >=? n in
  b1 && b2 && b3 && b4.

Definition CIsLogTruncationPointValid (ltp : Z) (last_ckpt : list Z) (c : CConfiguration) : bool :=
  CIsNthHighestValueInSequence ltp last_ckpt (CMinQuorumSize c).

(** The initialisation loop pushes a zero per replica. *)
Definition CAcceptorInit (c : CReplicaConstants) : CAcceptor :=
  {| ca_constants := c;
     ca_max_bal := MkBallot 0 0;
     ca_votes := ∅;
     ca_last_checkpointed_operation := foldl (fun v _ => v ++ [0]) [] (c_ids_of c);
     ca_log_truncation_point := 0;
     ca_min_vote_opn := 0 |}.

Definition CAcceptorProcess1a (s : CAcceptor) (inp : RslPacket) : CAcceptor * list RslPacket :=
  match msg inp with
  | RslMessage1a bal =>
      if bool_decide (src inp ∈ c_ids_of (ca_constants s)) && CBalLt (ca_max_bal s) bal then
        let response := RslMessage1b bal (ca_log_truncation_point s) (ca_votes s) in
        let packet :=
          {| src := seq_index (c_ids_of (ca_constants s)) (c_my_index (ca_constants s));
             dst := src inp; msg := response |} in
        ({| ca_constants := ca_constants s;
            ca_max_bal := bal;
            ca_votes := ca_votes s;
            ca_last_checkpointed_operation := ca_last_checkpointed_operation s;
            ca_log_truncation_point := ca_log_truncation_point s;
            ca_min_vote_opn := ca_min_vote_opn s |}, [packet])
      else (s, [])
  | _ => (s, []) (* unreachable_value() *)
  end.

Definition CAcceptorProcess2a (s : CAcceptor) (inp : RslPacket) : CAcceptor * list RslPacket :=
  match msg inp with
  | RslMessage2a bal_2a opn_2a val_2a =>
      let max_log_len := c_max_log_length (c_params_of (ca_constants s)) in
      let trunc_candidate :=
        if opn_2a >=? max_log_len then u64_add (u64_sub opn_2a max_log_len) 1 else 0 in
      let new_log_truncation_point :=
        if trunc_candidate >? ca_log_truncation_point s then trunc_candidate
        else ca_log_truncation_point s in
      let response := RslMessage2b bal_2a opn_2a val_2a in
      let sent_packets :=
        CBroadcastToEveryone (c_config (c_all (ca_constants s)))
          (c_my_index (ca_constants s)) response in
      let votes :=
        if ca_log_truncation_point s <=? opn_2a
        then CAddVoteAndRemoveOldOnes (ca_votes s) opn_2a (MkVote bal_2a val_2a)
               new_log_truncation_point
        else ca_votes s in
      ({| ca_constants := ca_constants s;
          ca_max_bal := bal_2a;
          ca_votes := votes;
          ca_last_checkpointed_operation := ca_last_checkpointed_operation s;
          ca_log_truncation_point := new_log_truncation_point;
          ca_min_vote_opn := ca_min_vote_opn s |}, sent_packets)
  | _ => (s, []) (* unreachable_value() *)
  end.

Definition CAcceptorProcessHeartbeat (s : CAcceptor) (inp : RslPacket) : CAcceptor :=
  match msg inp with
  | RslMessageHeartbeat _ _ opn_ckpt =>
      if bool_decide (src inp ∈ c_ids_of (ca_constants s)) then
        let '(_, sender_index) :=
          CGetReplicaIndex (c_config (c_all (ca_constants s))) (src inp) in
        if (sender_index <? seq_len (ca_last_checkpointed_operation s))
           && (opn_ckpt >? seq_index (ca_last_checkpointed_operation s) sender_index)
        then
          {| ca_constants := ca_constants s;
             ca_max_bal := ca_max_bal s;
             ca_votes := ca_votes s;
             ca_last_checkpointed_operation :=
               seq_update (ca_last_checkpointed_operation s) sender_index opn_ckpt;
             ca_log_truncation_point := ca_log_truncation_point s;
             ca_min_vote_opn := ca_min_vote_opn s |}
        else s
      else s
  | _ => s (* unreachable_value() *)
  end.

Definition CAcceptorTruncateLog (s : CAcceptor) (opn : Z) : CAcceptor :=
  if opn <=? ca_log_truncation_point s then s
  else
    {| ca_constants := ca_constants s;
       ca_max_bal := ca_max_bal s;
       ca_votes := CRemoveVotesBeforeLogTruncationPoint (ca_votes s) opn;
       ca_last_checkpointed_operation := ca_last_checkpointed_operation s;
       ca_log_truncation_point := opn;
       ca_min_vote_opn := ca_min_vote_opn s |}.

(** ** The hash-map loops

    The keys come out of the hash map in an unspecified order: the loop's
    result is the same map for every list of keys that covers the domain. *)

Lemma CRemoveVotes_loop_lookup votes ltp keys opn :
  (forall k, k ∈ keys -> is_Some (votes !! k)) ->
  CRemoveVotes_loop votes ltp keys !! opn
  = if decide (opn ∈ keys /\ opn >= ltp) then votes !! opn else None.
Proof. apply copy_keys_from_lookup. Qed.

Lemma CRemoveVotes_lookup votes ltp opn :
  CRemoveVotesBeforeLogTruncationPoint votes ltp !! opn
  = if decide (opn >= ltp) then votes !! opn else None.
Proof. apply copy_all_keys_from_lookup. Qed.

Lemma CAddVote_lookup votes n v ltp opn :
  CAddVoteAndRemoveOldOnes votes n v ltp !! opn
  = if decide (opn >= ltp) then if decide (opn = n) then Some v else votes !! opn else None.
Proof.
  unfold CAddVoteAndRemoveOldOnes. fold (CRemoveVotesBeforeLogTruncationPoint votes ltp).
  destruct (n >=? ltp) eqn:Hn; [destruct (decide (opn = n)) as [->|Hne]|].
  - by rewrite lookup_insert_eq, decide_True by lia.
  - by rewrite lookup_insert_ne, CRemoveVotes_lookup by done.
  - rewrite CRemoveVotes_lookup. repeat case_decide; (done || lia).
Qed.

Lemma CRemoveVotes_refines votes ltp :
  RemoveVotesBeforeLogTruncationPoint votes (CRemoveVotesBeforeLogTruncationPoint votes ltp) ltp.
Proof.
  split_all; intros opn; rewrite CRemoveVotes_lookup; case_decide; (done || lia).
Qed.

Lemma CRemoveVotes_valid votes ltp :
  valid votes -> valid (CRemoveVotesBeforeLogTruncationPoint votes ltp).
Proof.
  intros Hv k v. rewrite CRemoveVotes_lookup. case_decide; [apply Hv|done].
Qed.

Lemma CAddVote_refines votes n v ltp :
  LAddVoteAndRemoveOldOnes votes (CAddVoteAndRemoveOldOnes votes n v ltp) n v ltp.
Proof.
  split_all; intros opn; rewrite CAddVote_lookup.
  - repeat case_decide; split; try naive_solver; rewrite ?is_Some_alt; naive_solver.
  - intros w. repeat case_decide; try naive_solver. intros Hw.
    by rewrite lookup_total_alt, Hw.
Qed.

Lemma CAddVote_valid votes n v ltp :
  is_u64 n -> valid v -> valid votes -> valid (CAddVoteAndRemoveOldOnes votes n v ltp).
Proof.
  intros Hn Hv Hvs k w. rewrite CAddVote_lookup.
  repeat case_decide; intros; simplify_eq; [by split|by apply Hvs].
Qed.

(** The vote relations determine the new log. *)
Lemma LAddVote_lookup votes votes_ n v ltp opn :
  LAddVoteAndRemoveOldOnes votes votes_ n v ltp ->
  votes_ !! opn = CAddVoteAndRemoveOldOnes votes n v ltp !! opn.
Proof.
  intros [H1 H2]. rewrite CAddVote_lookup. specialize (H1 opn). specialize (H2 opn).
  destruct (votes_ !! opn) as [w|] eqn:Hw.
  - destruct (proj1 H1 ltac:(eauto)) as [Hge Hor]. rewrite decide_True by done.
    rewrite (H2 w eq_refl). case_decide; [done|].
    destruct Hor as [[w' Hw']|]; [|done]. by rewrite lookup_total_alt, Hw'.
  - repeat case_decide; subst; try done.
    + exfalso. destruct (proj2 H1); [auto|congruence].
    + destruct (votes !! opn) eqn:Hv; [|done].
      exfalso. destruct (proj2 H1); [eauto|congruence].
Qed.

Lemma RemoveVotes_lookup votes votes_ ltp opn :
  RemoveVotesBeforeLogTruncationPoint votes votes_ ltp ->
  votes_ !! opn = if decide (opn >= ltp) then votes !! opn else None.
Proof.
  intros (H1 & H2 & H3). case_decide; [|apply H2; lia].
  destruct (votes_ !! opn) as [w|] eqn:Hw; [by rewrite (H1 _ _ Hw)|].
  destruct (votes !! opn) eqn:Hv; [|done].
  destruct (H3 opn); [done|eauto|congruence].
Qed.

(** ** Counting (the recursion's [u64] counter never wraps) *)

Section counting.
Implicit Types (s : list Z) (t : Z).

Lemma CCountLargerInSeq_spec s t :
  seq_len s < U64_MODULUS ->
  CCountLargerInSeq s t = CountMatchesInSeq s (fun x => bool_decide (x > t)).
Proof.
  induction s as [|x s IH]; [done|]. intros Hlen. cbn [CCountLargerInSeq CountMatchesInSeq].
  unfold seq_len in *. cbn [length] in Hlen. rewrite IH by lia.
  pose proof (CountMatchesInSeq_range s (fun x => bool_decide (x > t))). unfold seq_len in *.
  destruct (x >? t) eqn:Hx.
  - rewrite bool_decide_true by lia. apply u64_add_exact. lia.
  - rewrite bool_decide_false by lia. lia.
Qed.

Lemma CCountLargerOrEqualInSeq_spec s t :
  seq_len s < U64_MODULUS ->
  CCountLargerOrEqualInSeq s t = CountMatchesInSeq s (fun x => bool_decide (x >= t)).
Proof.
  induction s as [|x s IH]; [done|]. intros Hlen. cbn [CCountLargerOrEqualInSeq CountMatchesInSeq].
  unfold seq_len in *. cbn [length] in Hlen. rewrite IH by lia.
  pose proof (CountMatchesInSeq_range s (fun x => bool_decide (x >= t))). unfold seq_len in *.
  destruct (x >=? t) eqn:Hx.
  - rewrite bool_decide_true by lia. apply u64_add_exact. lia.
  - rewrite bool_decide_false by lia. lia.
Qed.

Lemma CIsNthHighest_spec v s n :
  seq_len s < U64_MODULUS ->
  CIsNthHighestValueInSequence v s n = bool_decide (IsNthHighestValueInSequence v s n).
Proof.
  intros Hlen. unfold CIsNthHighestValueInSequence, IsNthHighestValueInSequence.
  rewrite CCountLargerInSeq_spec, CCountLargerOrEqualInSeq_spec by done.
  apply eq_true_iff_eq. rewrite !andb_true_iff, !bool_decide_eq_true, Z.ltb_lt, Z.leb_le, Z.ltb_lt, Z.geb_le.
  split; intros; break_ands; split_and?; (done || lia).
Qed.
End counting.

Lemma CIsLogTruncationPointValid_spec ltp cks (c : CConfiguration) :
  seq_len cks < U64_MODULUS ->
  CIsLogTruncationPointValid ltp cks c
  = bool_decide (IsLogTruncationPointValid ltp cks (view c)).
Proof. apply CIsNthHighest_spec. Qed.

(** A valid truncation point is backed by a quorum of checkpoints. *)
Lemma IsLogTruncationPointValid_quorum ltp cks c :
  IsLogTruncationPointValid ltp cks c ->
  ltp ∈ cks
  /\ CountMatchesInSeq cks (fun x => bool_decide (x >= ltp)) >= LMinQuorumSize c.
Proof. intros (_ & ? & _ & ?). done. Qed.

(** ** Refinement: every operation preserves validity and implements its relation *)

Section acceptor_refinement.
Implicit Types (s : CAcceptor) (inp : RslPacket).

Lemma CAcceptor_valid_constants s : valid s -> valid (ca_constants s).
Proof. by intros (? & _). Qed.

Lemma CAcceptorInit_refines (c : CReplicaConstants) :
  valid c -> valid (CAcceptorInit c) /\ LAcceptorInit (view (CAcceptorInit c)) (view c).
Proof.
  intros Hc. unfold CAcceptorInit. rewrite (foldl_push (fun _ => 0)).
  split; split_all; simpl; try done.
  - apply Forall_fmap. by apply Forall_true.
  - by rewrite seq_len_fmap.
  - by rewrite seq_len_fmap.
  - intros idx. rewrite seq_len_fmap, seq_get_fmap. by intros [x ->]%seq_get_range_Some.
Qed.

Lemma CAcceptorProcess1a_refines s inp bal :
  valid s -> valid inp -> msg inp = RslMessage1a bal ->
  let '(s', ps) := CAcceptorProcess1a s inp in
  valid s' /\ valid ps /\ LAcceptorProcess1a (view s) (view s') inp ps.
Proof.
  intros (Hc & Hb & Hv & Hck & Hl & Hlen) (Hd & Hsrc & Hm) Hmsg.
  unfold CAcceptorProcess1a, LAcceptorProcess1a. rewrite Hmsg in *. simpl in *.
  rewrite CBalLt_spec.
  destruct (decide (src inp ∈ c_ids_of (ca_constants s) /\ BalLt (ca_max_bal s) bal)) as [[H1 H2]|Hn].
  - rewrite !bool_decide_true by done. simpl. split_all; simpl; try done.
    + apply Forall_singleton. split_all; simpl; [done|by apply valid_my_id|by split_all].
    + rewrite decide_True; [done|]. auto with rsl.
  - assert (bool_decide (src inp ∈ c_ids_of (ca_constants s))
            && bool_decide (BalLt (ca_max_bal s) bal) = false) as ->.
    { rewrite andb_false_iff, !bool_decide_eq_false. destruct (decide (BalLt (ca_max_bal s) bal)); tauto. }
    split_all; simpl; try done; [by apply Forall_nil|].
    rewrite decide_False by tauto. done.
Qed.

(** The executable's two-step truncation test is the protocol's, without
    ever leaving [u64]. *)
Lemma newLogTruncationPoint_spec s opn :
  valid s -> is_u64 opn ->
  let mll := c_max_log_length (c_params_of (ca_constants s)) in
  let ltp := ca_log_truncation_point s in
  let cand := if opn >=? mll then u64_add (u64_sub opn mll) 1 else 0 in
  (if cand >? ltp then cand else ltp) = newLogTruncationPoint (view s) opn
  /\ is_u64 (newLogTruncationPoint (view s) opn).
Proof.
  intros (Hc & _ & _ & _ & Hl & _) Ho.
  destruct Hc as [_ (_ & Hp & _)]. destruct Hp as ([? ?] & _ & ? & _).
  unfold newLogTruncationPoint, is_u64 in *. simpl.
  set (mll := c_max_log_length _) in *. set (ltp := ca_log_truncation_point s) in *.
  destruct (opn >=? mll) eqn:Hg.
  - rewrite u64_sub_exact by (unfold U64_MODULUS in *; lia).
    rewrite u64_add_exact by (unfold U64_MODULUS in *; lia).
    destruct (_ >? ltp) eqn:Hg2; case_decide; unfold U64_MODULUS in *; lia.
  - destruct (0 >? ltp) eqn:Hg2; case_decide; lia.
Qed.

Lemma CAcceptorProcess2a_refines s inp bal opn val :
  valid s -> valid inp -> msg inp = RslMessage2a bal opn val ->
  let '(s', ps) := CAcceptorProcess2a s inp in
  valid s' /\ valid ps /\ LAcceptorProcess2a (view s) (view s') inp ps.
Proof.
  intros (Hc & Hb & Hv & Hck & Hl & Hlen) (Hd & Hsrc & Hm) Hmsg.
  unfold CAcceptorProcess2a, LAcceptorProcess2a. rewrite Hmsg in *. simpl in *.
  destruct Hm as (Hbal & Hopn & Hval).
  pose proof Hc as [Hi (Hcfg & _)].
  destruct (newLogTruncationPoint_spec s opn) as [He Hu]; [by split_all|done|].
  simpl in He. rewrite He. clear He.
  set (ltp := newLogTruncationPoint (view s) opn) in *.
  assert (CVote_valid (MkVote bal val)) as Hvote by (split; done).
  split_and!; [split_all|..]; simpl; try done.
  - destruct (_ <=? _); [|done]. by apply CAddVote_valid.
  - apply CBroadcastToEveryone_valid; [done|by split_all|done].
  - by apply CBroadcastToEveryone_refines.
  - destruct (_ <=? opn) eqn:Hle.
    + rewrite decide_True by lia. apply CAddVote_refines.
    + rewrite decide_False by lia. done.
Qed.

Lemma CAcceptorProcessHeartbeat_refines s inp bal susp ckpt :
  valid s -> valid inp -> msg inp = RslMessageHeartbeat bal susp ckpt ->
  valid (CAcceptorProcessHeartbeat s inp)
  /\ LAcceptorProcessHeartbeat (view s) (view (CAcceptorProcessHeartbeat s inp)) inp.
Proof.
  intros Hs (_ & _ & Hm) Hmsg. pose proof Hs as (Hc & Hb & Hv & Hck & Hl & Hlen).
  unfold CAcceptorProcessHeartbeat, LAcceptorProcessHeartbeat. rewrite Hmsg in *. simpl in *.
  destruct Hm as [_ Hckpt]. rewrite CGetReplicaIndex_spec.
  destruct (decide (src inp ∈ c_ids_of (ca_constants s))) as [Hin|Hin].
  2: { by rewrite bool_decide_false by done. }
  rewrite bool_decide_true by done.
  assert (0 <= GetReplicaIndex (src inp) (view (c_config (c_all (ca_constants s))))
            < seq_len (ca_last_checkpointed_operation s)) as Hr.
  { rewrite Hlen.
    exact (GetReplicaIndex_range (src inp) (view (c_config (c_all (ca_constants s)))) Hin). }
  set (idx := GetReplicaIndex _ _) in *. simpl.
  destruct (ckpt >? seq_index (ca_last_checkpointed_operation s) idx) eqn:Hgt.
  - replace (idx <? _) with true by lia. simpl. rewrite decide_True by lia.
    split; [|by split_all]. split_all; simpl; try done.
    + unfold seq_update. rewrite decide_True by lia. by apply Forall_insert.
    + by rewrite seq_update_len.
  - rewrite andb_false_r. rewrite decide_False by lia. by split.
Qed.

Lemma CAcceptorTruncateLog_refines s opn :
  valid s -> is_u64 opn ->
  valid (CAcceptorTruncateLog s opn)
  /\ LAcceptorTruncateLog (view s) (view (CAcceptorTruncateLog s opn)) opn.
Proof.
  intros Hs Hopn. pose proof Hs as (Hc & Hb & Hv & Hck & Hl & Hlen).
  unfold CAcceptorTruncateLog, LAcceptorTruncateLog. simpl.
  destruct (opn <=? ca_log_truncation_point s) eqn:Hle.
  - rewrite decide_True by lia. done.
  - rewrite decide_False by lia. split; split_all; simpl; try done.
    + by apply CRemoveVotes_valid.
    + apply CRemoveVotes_refines.
Qed.
End acceptor_refinement.

(** ** Frame: no operation changes the constants *)

Section acceptor_constants.
Implicit Types (s : LAcceptor) (p : RslPacket).

Lemma LAcceptorProcess1a_constants s s' p sent :
  LAcceptorProcess1a s s' p sent -> acc_constants s' = acc_constants s.
Proof. unfold LAcceptorProcess1a. case_decide; by intros [? ?]; subst. Qed.

Lemma LAcceptorProcess2a_constants s s' p sent :
  LAcceptorProcess2a s s' p sent -> acc_constants s' = acc_constants s.
Proof. by intros (_ & _ & _ & _ & ? & _). Qed.

Lemma LAcceptorProcessHeartbeat_constants s s' p :
  LAcceptorProcessHeartbeat s s' p -> acc_constants s' = acc_constants s.
Proof.
  unfold LAcceptorProcessHeartbeat. repeat case_decide; [by intros (_ & ? & _)| |]; by intros ->.
Qed.

Lemma LAcceptorTruncateLog_constants s s' opn :
  LAcceptorTruncateLog s s' opn -> acc_constants s' = acc_constants s.
Proof. unfold LAcceptorTruncateLog. case_decide; [by intros ->|by intros [-> _]]. Qed.
End acceptor_constants.
