(* ===== verification/Election.v ===== *)
(** * View changes: the election state

    protocol/RSL/election.rs, and generated/RSL/election_gen.rs with
    implementation/RSL/ElectionImpl.rs.  The executable state caches the
    headers of its two request queues in hash sets; the functions that use the
    caches are trusted by the source ([external_body]).  [election_sync] states
    what the caches hold, and every operation is proved to maintain it. *)

From stdpp Require Import prelude gmap sets list numbers fin_sets.
From Stdlib Require Import ZArith Lia.
From S2P Require Import Prelude.
From S2P Require Import Types.
From S2P Require Import Common.

#[local] Open Scope Z_scope.

(** ** Protocol level *)

Record ElectionState := MkElectionState
  { es_constants : LReplicaConstants;
    current_view : Ballot;
    current_view_suspectors : gset Z;
    epoch_end_time : Z;
    epoch_length : Z;
    requests_received_this_epoch : list Request;
    requests_received_prev_epochs : list Request }.

Definition ComputeSuccessorView (b : Ballot) (c : LConstants) : Ballot :=
  if decide (bal_proposer_id b + 1 < seq_len (replica_ids (config c)))
  then MkBallot (bal_seqno b) (bal_proposer_id b + 1)
  else MkBallot (bal_seqno b + 1) 0.

Definition BoundRequestSequence (s : list Request) (lengthBound : UpperBound) : list Request :=
  match lengthBound with
  | UpperBoundFinite n => if decide (0 <= n < seq_len s) then seq_subrange s 0 n else s
  | UpperBoundInfinite => s
  end.

Definition RequestsMatch (r1 r2 : Request) : Prop :=
  req_client r1 = req_client r2 /\ req_seqno r1 = req_seqno r2.

Definition RequestSatisfiedBy (r1 r2 : Request) : Prop :=
  req_client r1 = req_client r2 /\ req_seqno r1 <= req_seqno r2.

#[export] Instance RequestsMatch_dec r1 r2 : Decision (RequestsMatch r1 r2).
Proof. unfold RequestsMatch. apply _. Defined.
#[export] Instance RequestSatisfiedBy_dec r1 r2 : Decision (RequestSatisfiedBy r1 r2).
Proof. unfold RequestSatisfiedBy. apply _. Defined.

Fixpoint RemoveAllSatisfiedRequestsInSequence (s : list Request) (r : Request) : list Request :=
  match s with
  | [] => []
  | x :: s' =>
      if decide (RequestSatisfiedBy x r) then RemoveAllSatisfiedRequestsInSequence s' r
      else [x] ++ RemoveAllSatisfiedRequestsInSequence s' r
  end.

Definition ElectionStateInit (es : ElectionState) (c : LReplicaConstants) : Prop :=
  es_constants es = c
  /\ current_view es = MkBallot 1 0
  /\ current_view_suspectors es = ∅
  /\ epoch_end_time es = 0
  /\ epoch_length es = baseline_view_timeout_period (params_of c)
  /\ requests_received_this_epoch es = []
  /\ requests_received_prev_epochs es = [].

Definition ElectionStateProcessHeartbeat (es es_ : ElectionState) (p : RslPacket) (clock : Z)
  : Prop :=
  let mx := max_integer_val (params_of (es_constants es)) in
  let bal := msg_bal_heartbeat (msg p) in
  if decide (src p ∉ ids_of (es_constants es)) then es_ = es
  else
    let sender_index := GetReplicaIndex (src p) (config (all (es_constants es))) in
    if decide (bal = current_view es /\ msg_suspicious (msg p) = true) then
      es_ = {| es_constants := es_constants es;
               current_view := current_view es;
               current_view_suspectors := current_view_suspectors es ∪ {[sender_index]};
               epoch_end_time := epoch_end_time es;
               epoch_length := epoch_length es;
               requests_received_this_epoch := requests_received_this_epoch es;
               requests_received_prev_epochs := requests_received_prev_epochs es |}
    else if decide (BalLt (current_view es) bal) then
      let new_epoch_length := UpperBoundedAddition (epoch_length es) (epoch_length es) mx in
      es_ = {| es_constants := es_constants es;
               current_view := bal;
               current_view_suspectors :=
                 if msg_suspicious (msg p) then {[sender_index]} else ∅;
               epoch_end_time := UpperBoundedAddition clock new_epoch_length mx;
               epoch_length := new_epoch_length;
               requests_received_this_epoch := [];
               requests_received_prev_epochs :=
                 BoundRequestSequence
                   (requests_received_prev_epochs es ++ requests_received_this_epoch es) mx |}
    else es_ = es.

Definition ElectionStateCheckForViewTimeout (es es_ : ElectionState) (clock : Z) : Prop :=
  let mx := max_integer_val (params_of (es_constants es)) in
  if decide (clock < epoch_end_time es) then es_ = es
  else if decide (seq_len (requests_received_prev_epochs es) = 0) then
    let new_epoch_length := baseline_view_timeout_period (params_of (es_constants es)) in
    es_ = {| es_constants := es_constants es;
             current_view := current_view es;
             current_view_suspectors := current_view_suspectors es;
             epoch_end_time := UpperBoundedAddition clock new_epoch_length mx;
             epoch_length := new_epoch_length;
             requests_received_this_epoch := [];
             requests_received_prev_epochs := requests_received_this_epoch es |}
  else
    es_ = {| es_constants := es_constants es;
             current_view := current_view es;
             current_view_suspectors :=
               current_view_suspectors es ∪ {[my_index (es_constants es)]};
             epoch_end_time := UpperBoundedAddition clock (epoch_length es) mx;
             epoch_length := epoch_length es;
             requests_received_this_epoch := [];
             requests_received_prev_epochs :=
               BoundRequestSequence
                 (requests_received_prev_epochs es ++ requests_received_this_epoch es) mx |}.

Definition ElectionStateCheckForQuorumOfViewSuspicions (es es_ : ElectionState) (clock : Z)
  : Prop :=
  let mx := max_integer_val (params_of (es_constants es)) in
  if decide (Z.of_nat (size (current_view_suspectors es))
               < LMinQuorumSize (config (all (es_constants es)))
             \/ ~ LtUpperBound (bal_seqno (current_view es)) mx)
  then es_ = es
  else
    let new_epoch_length := UpperBoundedAddition (epoch_length es) (epoch_length es) mx in
    es_ = {| es_constants := es_constants es;
             current_view := ComputeSuccessorView (current_view es) (all (es_constants es));
             current_view_suspectors := ∅;
             epoch_end_time := UpperBoundedAddition clock new_epoch_length mx;
             epoch_length := new_epoch_length;
             requests_received_this_epoch := [];
             requests_received_prev_epochs :=
               BoundRequestSequence
                 (requests_received_prev_epochs es ++ requests_received_this_epoch es) mx |}.

(** The guard of [ElectionStateReflectReceivedRequest]. *)
Definition EarlierRequestMatches (es : ElectionState) (req : Request) : Prop :=
  exists earlier_req,
    (earlier_req ∈ requests_received_prev_epochs es
     \/ earlier_req ∈ requests_received_this_epoch es)
    /\ RequestsMatch earlier_req req.

#[export] Instance EarlierRequestMatches_dec es req : Decision (EarlierRequestMatches es req).
Proof.
  refine (cast_if (decide (Exists (fun e => RequestsMatch e req)
    (requests_received_prev_epochs es ++ requests_received_this_epoch es))));
    rewrite Exists_exists in *; unfold EarlierRequestMatches; set_solver.
Defined.

Definition ElectionStateReflectReceivedRequest (es es_ : ElectionState) (req : Request) : Prop :=
  if decide (EarlierRequestMatches es req) then es_ = es
  else
    es_ = {| es_constants := es_constants es;
             current_view := current_view es;
             current_view_suspectors := current_view_suspectors es;
             epoch_end_time := epoch_end_time es;
             epoch_length := epoch_length es;
             requests_received_this_epoch :=
               BoundRequestSequence (requests_received_this_epoch es ++ [req])
                 (max_integer_val (params_of (es_constants es)));
             requests_received_prev_epochs := requests_received_prev_epochs es |}.

Fixpoint RemoveExecutedRequestBatch (reqs : list Request) (batch : RequestBatch)
  : list Request :=
  match batch with
  | [] => reqs
  | r :: batch' => RemoveExecutedRequestBatch (RemoveAllSatisfiedRequestsInSequence reqs r) batch'
  end.

Definition ElectionStateReflectExecutedRequestBatch (es es_ : ElectionState)
    (batch : RequestBatch) : Prop :=
  es_ = {| es_constants := es_constants es;
           current_view := current_view es;
           current_view_suspectors := current_view_suspectors es;
           epoch_end_time := epoch_end_time es;
           epoch_length := epoch_length es;
           requests_received_this_epoch :=
             RemoveExecutedRequestBatch (requests_received_this_epoch es) batch;
           requests_received_prev_epochs :=
             RemoveExecutedRequestBatch (requests_received_prev_epochs es) batch |}.

(** ** Executable level *)

(** [CRequestHeader]: client and sequence number. *)
Record CRequestHeader := MkCRequestHeader
  { hdr_client : AbstractEndPoint; hdr_seqno : Z }.

#[export] Instance CRequestHeader_eq_dec : EqDecision CRequestHeader.
Proof. solve_decision. Defined.
#[export] Instance CRequestHeader_countable : Countable CRequestHeader.
Proof.
  by refine (inj_countable' (fun h => (hdr_client h, hdr_seqno h))
                            (fun p => MkCRequestHeader p.1 p.2) _); intros [].
Defined.

Record CElectionState := MkCElectionState
  { ces_constants : CReplicaConstants;
    c_current_view : Ballot;
    c_current_view_suspectors : gset Z;
    c_epoch_end_time : Z;
    c_epoch_length : Z;
    c_requests_received_this_epoch : list Request;
    c_requests_received_prev_epochs : list Request;
    cur_req_set : gset CRequestHeader;
    prev_req_set : gset CRequestHeader }.

#[export] Instance CElectionState_view : View CElectionState ElectionState := fun s =>
  {| es_constants := view (ces_constants s);
     current_view := c_current_view s;
     current_view_suspectors := c_current_view_suspectors s;
     epoch_end_time := c_epoch_end_time s;
     epoch_length := c_epoch_length s;
     requests_received_this_epoch := c_requests_received_this_epoch s;
     requests_received_prev_epochs := c_requests_received_prev_epochs s |}.

#[export] Instance CElectionState_valid : Valid CElectionState := fun s =>
  valid (ces_constants s) /\ valid (c_current_view s)
  /\ valid (c_requests_received_this_epoch s)
  /\ valid (c_requests_received_prev_epochs s)
  (* the width of the [u64] fields *)
  /\ is_u64 (c_epoch_end_time s) /\ is_u64 (c_epoch_length s)
  /\ set_Forall is_u64 (c_current_view_suspectors s).

Definition CComputeSuccessorView (b : Ballot) (c : CConstants) : Ballot :=
  if u64_add (bal_proposer_id b) 1 <? seq_len (c_replica_ids (c_config c))
  then MkBallot (bal_seqno b) (u64_add (bal_proposer_id b) 1)
  else MkBallot (u64_add (bal_seqno b) 1) 0.

Definition CRequestsMatch (r1 r2 : Request) : bool :=
  bool_decide (req_client r1 = req_client r2) && (req_seqno r1 =? req_seqno r2).

Definition CRequestSatisfiedBy (r1 r2 : Request) : bool :=
  bool_decide (req_client r1 = req_client r2) && (req_seqno r1 <=? req_seqno r2).

(** The loop pushes the requests that are not satisfied. *)
Definition CRemoveAllSatisfiedRequestsInSequence (s : list Request) (r : Request) : list Request :=
  foldl (fun result x =>
           let satisfied := CRequestSatisfiedBy x r in
           if negb satisfied then result ++ [x] else result) [] s.

Definition header_of (r : Request) : CRequestHeader :=
  MkCRequestHeader (req_client r) (req_seqno r).

(** [build_req_set]: the headers of a queue. *)
Definition build_req_set (v : list Request) : gset CRequestHeader :=
  foldl (fun s r => s ∪ {[header_of r]}) ∅ v.

(** [truncate_vec(v, 0, n)], [Vec::truncate(n)]. *)
Definition vec_truncate (v : list Request) (n : Z) : list Request := take (Z.to_nat n) v.

Definition CBoundRequestSequence (s : list Request) (lengthBound : Z) : list Request :=
  let s_len := seq_len s in
  if lengthBound <? s_len then vec_truncate s lengthBound else s.

Definition CElectionStateInit (c : CReplicaConstants) : CElectionState :=
  {| ces_constants := c;
     c_current_view := MkBallot 1 0;
     c_current_view_suspectors := ∅;
     c_epoch_end_time := 0;
     c_epoch_length := c_baseline_view_timeout_period (c_params_of c);
     c_requests_received_this_epoch := [];
     c_requests_received_prev_epochs := [];
     cur_req_set := ∅;
     prev_req_set := ∅ |}.

Definition CElectionStateProcessHeartbeat (s : CElectionState) (p : RslPacket) (clock : Z)
  : CElectionState :=
  let mx := c_max_integer_val (c_params_of (ces_constants s)) in
  if negb (bool_decide (src p ∈ c_ids_of (ces_constants s))) then s
  else
    let '(_, sender_index) := CGetReplicaIndex (c_config (c_all (ces_constants s))) (src p) in
    match msg p with
    | RslMessageHeartbeat bal_heartbeat suspicious _ =>
        if CBalEq bal_heartbeat (c_current_view s) && suspicious then
          {| ces_constants := ces_constants s;
             c_current_view := c_current_view s;
             c_current_view_suspectors := c_current_view_suspectors s ∪ {[sender_index]};
             c_epoch_end_time := c_epoch_end_time s;
             c_epoch_length := c_epoch_length s;
             c_requests_received_this_epoch := c_requests_received_this_epoch s;
             c_requests_received_prev_epochs := c_requests_received_prev_epochs s;
             cur_req_set := cur_req_set s;
             prev_req_set := prev_req_set s |}
        else if CBalLt (c_current_view s) bal_heartbeat then
          let new_epoch_length := CUpperBoundedAddition (c_epoch_length s) (c_epoch_length s) mx in
          let concat_result :=
            c_requests_received_prev_epochs s ++ c_requests_received_this_epoch s in
          let new_prev := CBoundRequestSequence concat_result mx in
          {| ces_constants := ces_constants s;
             c_current_view := bal_heartbeat;
             c_current_view_suspectors := if suspicious then {[sender_index]} else ∅;
             c_epoch_end_time := CUpperBoundedAddition clock new_epoch_length mx;
             c_epoch_length := new_epoch_length;
             c_requests_received_this_epoch := [];
             c_requests_received_prev_epochs := new_prev;
             cur_req_set := ∅;
             prev_req_set := build_req_set new_prev |}
        else s
    | _ => s (* unreachable_value() *)
    end.

Definition CElectionStateReflectReceivedRequest (s : CElectionState) (req : Request)
  : CElectionState :=
  let mx := c_max_integer_val (c_params_of (ces_constants s)) in
  let header := header_of req in
  if bool_decide (header ∈ cur_req_set s) || bool_decide (header ∈ prev_req_set s) then s
  else
    let pushed := c_requests_received_this_epoch s ++ [req] in
    {| ces_constants := ces_constants s;
       c_current_view := c_current_view s;
       c_current_view_suspectors := c_current_view_suspectors s;
       c_epoch_end_time := c_epoch_end_time s;
       c_epoch_length := c_epoch_length s;
       c_requests_received_this_epoch :=
         if seq_len pushed >? mx then vec_truncate pushed mx else pushed;
       c_requests_received_prev_epochs := c_requests_received_prev_epochs s;
       cur_req_set := cur_req_set s ∪ {[header]};
       prev_req_set := prev_req_set s |}.

Definition CElectionStateCheckForViewTimeout (s : CElectionState) (clock : Z) : CElectionState :=
  let mx := c_max_integer_val (c_params_of (ces_constants s)) in
  if clock <? c_epoch_end_time s then s
  else if seq_len (c_requests_received_prev_epochs s) =? 0 then
    let new_epoch_length := c_baseline_view_timeout_period (c_params_of (ces_constants s)) in
    let new_prev := c_requests_received_this_epoch s in
    {| ces_constants := ces_constants s;
       c_current_view := c_current_view s;
       c_current_view_suspectors := c_current_view_suspectors s;
       c_epoch_end_time := CUpperBoundedAddition clock new_epoch_length mx;
       c_epoch_length := new_epoch_length;
       c_requests_received_this_epoch := [];
       c_requests_received_prev_epochs := new_prev;
       cur_req_set := ∅;
       prev_req_set := build_req_set new_prev |}
  else
    let concat_result := c_requests_received_prev_epochs s ++ c_requests_received_this_epoch s in
    let new_prev := CBoundRequestSequence concat_result mx in
    {| ces_constants := ces_constants s;
       c_current_view := c_current_view s;
       c_current_view_suspectors :=
         c_current_view_suspectors s ∪ {[c_my_index (ces_constants s)]};
       c_epoch_end_time := CUpperBoundedAddition clock (c_epoch_length s) mx;
       c_epoch_length := c_epoch_length s;
       c_requests_received_this_epoch := [];
       c_requests_received_prev_epochs := new_prev;
       cur_req_set := ∅;
       prev_req_set := build_req_set new_prev |}.

Definition CElectionStateCheckForQuorumOfViewSuspicions (s : CElectionState) (clock : Z)
  : CElectionState :=
  let mx := c_max_integer_val (c_params_of (ces_constants s)) in
  let cond1 := Z.of_nat (size (c_current_view_suspectors s))
               <? CMinQuorumSize (c_config (c_all (ces_constants s))) in
  let cond2 := negb (bal_seqno (c_current_view s) <? mx) in
  if cond1 || cond2 then s
  else
    let new_epoch_length := CUpperBoundedAddition (c_epoch_length s) (c_epoch_length s) mx in
    let concat_result := c_requests_received_prev_epochs s ++ c_requests_received_this_epoch s in
    let new_view := CComputeSuccessorView (c_current_view s) (c_all (ces_constants s)) in
    let new_prev := CBoundRequestSequence concat_result mx in
    {| ces_constants := ces_constants s;
       c_current_view := new_view;
       c_current_view_suspectors := ∅;
       c_epoch_end_time := CUpperBoundedAddition clock new_epoch_length mx;
       c_epoch_length := new_epoch_length;
       c_requests_received_this_epoch := [];
       c_requests_received_prev_epochs := new_prev;
       cur_req_set := ∅;
       prev_req_set := build_req_set new_prev |}.

Definition CRemoveExecutedRequestBatch (reqs : list Request) (batch : list Request)
  : list Request :=
  foldl CRemoveAllSatisfiedRequestsInSequence reqs batch.

Definition CElectionStateReflectExecutedRequestBatch (s : CElectionState) (batch : list Request)
  : CElectionState :=
  let new_this_epoch := CRemoveExecutedRequestBatch (c_requests_received_this_epoch s) batch in
  let new_prev_epochs := CRemoveExecutedRequestBatch (c_requests_received_prev_epochs s) batch in
  {| ces_constants := ces_constants s;
     c_current_view := c_current_view s;
     c_current_view_suspectors := c_current_view_suspectors s;
     c_epoch_end_time := c_epoch_end_time s;
     c_epoch_length := c_epoch_length s;
     c_requests_received_this_epoch := new_this_epoch;
     c_requests_received_prev_epochs := new_prev_epochs;
     cur_req_set := build_req_set new_this_epoch;
     prev_req_set := build_req_set new_prev_epochs |}.

(** ** The header caches *)

Definition header_in (h : CRequestHeader) (v : list Request) : Prop :=
  exists r, r ∈ v /\ header_of r = h.

(** The queues are bounded by [max_integer_val]; the previous epochs' cache
    holds exactly the queue's headers; the current epoch's cache holds them
    and nothing else unless the queue is full, when the request that did not
    fit has left its header behind. *)
Definition election_sync (s : CElectionState) : Prop :=
  let mx := c_max_integer_val (c_params_of (ces_constants s)) in
  seq_len (c_requests_received_prev_epochs s) <= mx
  /\ seq_len (c_requests_received_this_epoch s) <= mx
  /\ (forall h, h ∈ prev_req_set s <-> header_in h (c_requests_received_prev_epochs s))
  /\ (forall h, header_in h (c_requests_received_this_epoch s) -> h ∈ cur_req_set s)
  /\ (seq_len (c_requests_received_this_epoch s) = mx
      \/ forall h, h ∈ cur_req_set s -> header_in h (c_requests_received_this_epoch s)).

Section election_lemmas.
Implicit Types (v reqs batch : list Request) (s : CElectionState).

Lemma header_in_nil h : ~ header_in h [].
Proof. intros (r & ?%not_elem_of_nil & _). done. Qed.

Lemma header_in_app h v1 v2 : header_in h (v1 ++ v2) <-> header_in h v1 \/ header_in h v2.
Proof. unfold header_in. set_solver. Qed.

Lemma build_req_set_elem v h : h ∈ build_req_set v <-> header_in h v.
Proof.
  unfold build_req_set. induction v as [|r v IH] using rev_ind.
  { cbn [foldl]. split; [set_solver|]. by intros ?%header_in_nil. }
  rewrite foldl_app. cbn [foldl]. rewrite elem_of_union, IH, header_in_app.
  unfold header_in at 3. set_solver.
Qed.

Lemma header_of_eq r1 r2 : header_of r1 = header_of r2 <-> RequestsMatch r1 r2.
Proof. unfold header_of, RequestsMatch. split; [by intros [= -> ->]|by intros [-> ->]]. Qed.

Lemma CRequestsMatch_spec r1 r2 : CRequestsMatch r1 r2 = bool_decide (RequestsMatch r1 r2).
Proof.
  apply eq_true_iff_eq. unfold CRequestsMatch, RequestsMatch.
  by rewrite andb_true_iff, !bool_decide_eq_true, Z.eqb_eq.
Qed.

Lemma CRequestSatisfiedBy_spec r1 r2 :
  CRequestSatisfiedBy r1 r2 = bool_decide (RequestSatisfiedBy r1 r2).
Proof.
  apply eq_true_iff_eq. unfold CRequestSatisfiedBy, RequestSatisfiedBy.
  by rewrite andb_true_iff, !bool_decide_eq_true, Z.leb_le.
Qed.

(** The protocol's recursive removals are filters. *)
Lemma RemoveAllSatisfied_filter v r :
  RemoveAllSatisfiedRequestsInSequence v r = filter (fun x => ~ RequestSatisfiedBy x r) v.
Proof.
  induction v as [|x v IH]; [done|]. simpl. rewrite filter_cons, IH.
  repeat case_decide; tauto || done.
Qed.

Lemma CRemoveAllSatisfied_spec v r :
  CRemoveAllSatisfiedRequestsInSequence v r = RemoveAllSatisfiedRequestsInSequence v r.
Proof.
  rewrite RemoveAllSatisfied_filter. unfold CRemoveAllSatisfiedRequestsInSequence.
  induction v as [|x v IH] using rev_ind; [done|].
  rewrite foldl_app, filter_app, IH. cbn [foldl].
  rewrite CRequestSatisfiedBy_spec, filter_cons, filter_nil.
  case_bool_decide; case_decide; try done. by rewrite app_nil_r.
Qed.

Lemma CRemoveExecuted_spec reqs batch :
  CRemoveExecutedRequestBatch reqs batch = RemoveExecutedRequestBatch reqs batch.
Proof.
  unfold CRemoveExecutedRequestBatch. revert reqs. induction batch as [|r b IH]; intros reqs;
    [done|]. simpl. by rewrite CRemoveAllSatisfied_spec.
Qed.

(** What survives an executed batch: the requests no batch element satisfies,
    in their order. *)
Lemma RemoveExecuted_filter reqs batch :
  RemoveExecutedRequestBatch reqs batch
  = filter (fun x => Forall (fun r => ~ RequestSatisfiedBy x r) batch) reqs.
Proof.
  revert reqs. induction batch as [|r b IH]; intros reqs; simpl.
  - induction reqs as [|x v IHv]; [done|].
    rewrite filter_cons, decide_True by apply Forall_nil_2. by f_equal.
  - rewrite IH, RemoveAllSatisfied_filter, list_filter_filter.
    apply list_filter_iff. intros x. rewrite Forall_cons. tauto.
Qed.

Lemma RemoveExecuted_subseteq reqs batch r :
  r ∈ RemoveExecutedRequestBatch reqs batch -> r ∈ reqs.
Proof. rewrite RemoveExecuted_filter. by intros [_ ?]%list_elem_of_filter. Qed.

Lemma RemoveExecuted_len reqs batch :
  seq_len (RemoveExecutedRequestBatch reqs batch) <= seq_len reqs.
Proof.
  rewrite RemoveExecuted_filter. unfold seq_len.
  pose proof (length_filter (fun x => Forall (fun r => ~ RequestSatisfiedBy x r) batch) reqs). lia.
Qed.

Lemma CBoundRequestSequence_spec v n :
  0 <= n -> CBoundRequestSequence v n = BoundRequestSequence v (UpperBoundFinite n).
Proof.
  intros Hn. unfold CBoundRequestSequence, BoundRequestSequence, vec_truncate, seq_subrange.
  destruct (n <? seq_len v) eqn:Hlt.
  - rewrite decide_True by lia. by rewrite Z.sub_0_r, drop_0.
  - by rewrite decide_False by lia.
Qed.

Lemma CBound_len v n : 0 <= n -> seq_len (CBoundRequestSequence v n) <= n.
Proof.
  intros Hn. unfold CBoundRequestSequence, vec_truncate, seq_len.
  destruct (_ <? _) eqn:Hlt; [rewrite length_take|]; lia.
Qed.

Lemma CBound_subseteq v n r : r ∈ CBoundRequestSequence v n -> r ∈ v.
Proof.
  unfold CBoundRequestSequence, vec_truncate. destruct (_ <? _); [|done].
  intros Hr. rewrite <-(take_drop (Z.to_nat n) v). set_solver.
Qed.

Lemma requests_valid_sub v1 v2 :
  (forall r, r ∈ v1 -> r ∈ v2) -> valid v2 -> valid v1.
Proof.
  unfold valid, CRequestBatch_valid. rewrite !Forall_forall. auto.
Qed.

Lemma ComputeSuccessorView_BalLt b c : BalLt b (ComputeSuccessorView b c).
Proof. unfold ComputeSuccessorView, BalLt. case_decide; simpl; lia. Qed.

Lemma CComputeSuccessorView_refines b (c : CConstants) :
  valid b -> valid c -> bal_seqno b < c_max_integer_val (c_params c) ->
  CComputeSuccessorView b c = ComputeSuccessorView b (view c)
  /\ valid (CComputeSuccessorView b c).
Proof.
  intros [Hs Hp] (Hcfg & (_ & _ & Hmx & _) & _) Hlt. unfold is_u64 in Hs.
  destruct Hcfg as (_ & _ & Hlen).
  unfold CComputeSuccessorView, ComputeSuccessorView. simpl.
  rewrite !u64_add_exact by (unfold U64_MODULUS; lia).
  destruct (_ <? _) eqn:Hc; [rewrite decide_True by lia|rewrite decide_False by lia];
    (split; [done|]); split; simpl; unfold is_u64, U64_MODULUS in *; lia.
Qed.

(** The concatenation the view changes store as the previous epochs. *)
Lemma merged_queue_ok s :
  valid s ->
  let mx := c_max_integer_val (c_params_of (ces_constants s)) in
  let v := c_requests_received_prev_epochs s ++ c_requests_received_this_epoch s in
  CBoundRequestSequence v mx = BoundRequestSequence v (UpperBoundFinite mx)
  /\ valid (CBoundRequestSequence v mx)
  /\ seq_len (CBoundRequestSequence v mx) <= mx.
Proof.
  intros ((_ & (_ & Hp & _)) & _ & Hthis & Hprev & _).
  destruct Hp as ([Hmx Hml] & _). simpl. split_and!.
  - apply CBoundRequestSequence_spec. lia.
  - eapply requests_valid_sub; [intros r; apply CBound_subseteq|]. by apply Forall_app.
  - apply CBound_len. lia.
Qed.

(** A state whose caches were just rebuilt is in sync. *)
Lemma election_sync_rebuilt s :
  0 <= c_max_integer_val (c_params_of (ces_constants s)) ->
  seq_len (c_requests_received_prev_epochs s) <= c_max_integer_val (c_params_of (ces_constants s)) ->
  seq_len (c_requests_received_this_epoch s) <= c_max_integer_val (c_params_of (ces_constants s)) ->
  prev_req_set s = build_req_set (c_requests_received_prev_epochs s) ->
  cur_req_set s = build_req_set (c_requests_received_this_epoch s) ->
  election_sync s.
Proof.
  intros ? ? ? Hp Hc. split_all; try done.
  - intros h. rewrite Hp. apply build_req_set_elem.
  - intros h. rewrite Hc. apply build_req_set_elem.
  - right. intros h. rewrite Hc. apply build_req_set_elem.
Qed.

(** When the caches answer differently from the queues, the queue is full
    and a push changes nothing. *)
Lemma election_sync_cache_hit s req :
  election_sync s ->
  header_of req ∈ cur_req_set s \/ header_of req ∈ prev_req_set s ->
  EarlierRequestMatches (view s) req
  \/ seq_len (c_requests_received_this_epoch s)
     = c_max_integer_val (c_params_of (ces_constants s)).
Proof.
  intros (_ & _ & Hprev & _ & Hfull) [Hin|Hin].
  - destruct Hfull as [Hf|Hf]; [by right|left].
    destruct (Hf _ Hin) as (r & Hr & Heq). exists r. rewrite <-header_of_eq. auto.
  - left. apply Hprev in Hin as (r & Hr & Heq). exists r. rewrite <-header_of_eq. auto.
Qed.

Lemma election_sync_cache_miss s req :
  election_sync s ->
  ~ (header_of req ∈ cur_req_set s \/ header_of req ∈ prev_req_set s) ->
  ~ EarlierRequestMatches (view s) req.
Proof.
  intros (_ & _ & Hprev & Hcur & _) Hn (r & Hr & Heq%header_of_eq). apply Hn.
  destruct Hr as [Hr|Hr]; [right; apply Hprev|left; apply Hcur]; by exists r.
Qed.
End election_lemmas.

(** ** Refinement *)

Definition election_ok (s : CElectionState) : Prop := valid s /\ election_sync s.

Section election_refinement.
Implicit Types (s : CElectionState) (p : RslPacket) (req : Request).

(** The width facts of the parameters that the timers use. *)
Lemma election_params s :
  valid s ->
  let p := c_params_of (ces_constants s) in
  is_u64 (c_max_integer_val p) /\ is_u64 (c_baseline_view_timeout_period p)
  /\ 0 < c_max_integer_val p /\ valid (c_config (c_all (ces_constants s))).
Proof.
  intros ((_ & (Hcfg & Hp & _)) & _).
  destruct Hp as ([] & ? & ? & ? & ? & ? & Hb & ?). simpl. unfold is_u64, U64_MODULUS in *.
  split_and!; try done; lia.
Qed.

Lemma sender_index_is_u64 s p :
  valid s -> src p ∈ c_ids_of (ces_constants s) ->
  is_u64 (GetReplicaIndex (src p) (view (c_config (c_all (ces_constants s))))).
Proof.
  intros Hv Hin. destruct (election_params s Hv) as (_ & _ & _ & (_ & _ & Hlen)).
  pose proof (GetReplicaIndex_range (src p) (view (c_config (c_all (ces_constants s)))) Hin) as Hr.
  simpl in Hr. unfold is_u64, U64_MODULUS. lia.
Qed.

Lemma suspectors_union s (i : Z) :
  set_Forall is_u64 (c_current_view_suspectors s) -> is_u64 i ->
  set_Forall is_u64 (c_current_view_suspectors s ∪ {[i]}).
Proof. intros Hs Hi x [?|Hr%elem_of_singleton]%elem_of_union; subst; auto. Qed.

Lemma CElectionStateInit_refines (c : CReplicaConstants) :
  valid c ->
  election_ok (CElectionStateInit c) /\ ElectionStateInit (view (CElectionStateInit c)) (view c).
Proof.
  intros Hc. pose proof Hc as (_ & (_ & Hp & _)).
  destruct Hp as ([] & ? & ? & ? & ? & ? & Hb & ?).
  assert (election_sync (CElectionStateInit c)).
  { apply election_sync_rebuilt; simpl; (done || unfold seq_len; simpl; lia). }
  split; [split; [|done]|done]. split_all; simpl; try done; by apply Forall_nil.
Qed.

Lemma CElectionStateProcessHeartbeat_refines s p clock bal susp ckpt :
  election_ok s -> valid p -> is_u64 clock -> msg p = RslMessageHeartbeat bal susp ckpt ->
  election_ok (CElectionStateProcessHeartbeat s p clock)
  /\ ElectionStateProcessHeartbeat (view s) (view (CElectionStateProcessHeartbeat s p clock))
       p clock.
Proof.
  intros [Hv Hsync] (_ & _ & Hm) Hclock Hmsg.
  destruct (election_params s Hv) as (Hmx & _ & Hmx0 & _).
  destruct (merged_queue_ok s Hv) as (Hq1 & Hq2 & Hq3).
  pose proof Hv as (Hc & Hb & Hthis & Hprev & He1 & He2 & Hsus).
  unfold CElectionStateProcessHeartbeat, ElectionStateProcessHeartbeat.
  rewrite Hmsg in *. destruct Hm as [Hbal _]. cbn [msg_bal_heartbeat msg_suspicious].
  rewrite CGetReplicaIndex_spec, CBalEq_spec, CBalLt_spec.
  destruct (decide (src p ∈ c_ids_of (ces_constants s))) as [Hin|Hin].
  2: { rewrite bool_decide_false by done. cbn [negb]. by rewrite decide_True. }
  rewrite bool_decide_true by done. cbn [negb].
  rewrite (decide_False (P := src p ∉ _)) by (intros Hn; by apply Hn).
  pose proof (sender_index_is_u64 s p Hv Hin) as Hsi.
  set (idx := GetReplicaIndex (src p) (view (c_config (c_all (ces_constants s))))) in *.
  destruct (CUpperBoundedAddition_refines (c_epoch_length s) (c_epoch_length s)
              (c_max_integer_val (c_params_of (ces_constants s)))) as [Hl1 Hl2]; [done..|].
  rewrite Hl1 in *.
  destruct (CUpperBoundedAddition_refines clock
              (UpperBoundedAddition (c_epoch_length s) (c_epoch_length s)
                 (UpperBoundFinite (c_max_integer_val (c_params_of (ces_constants s)))))
              (c_max_integer_val (c_params_of (ces_constants s)))) as [Ht1 Ht2]; [done..|].
  rewrite Ht1 in *.
  destruct (decide (bal = c_current_view s /\ susp = true)) as [[-> ->]|Hne].
  - rewrite bool_decide_true by done. cbn [andb].
    rewrite decide_True by done. split; [split|]; [|apply Hsync|done].
    split_all; simpl; try done. by apply suspectors_union.
  - assert (bool_decide (bal = c_current_view s) && susp = false) as ->.
    { destruct susp; [|apply andb_false_r]. rewrite bool_decide_false; [done|naive_solver]. }
    rewrite decide_False by done. cbn [current_view view].
    destruct (decide (BalLt (c_current_view s) bal)) as [Hlt|Hlt].
    + rewrite bool_decide_true, decide_True by done. split; [split|].
      * split_all; simpl; try done; [by apply Forall_nil|].
        destruct susp; [by apply set_Forall_singleton|apply set_Forall_empty].
      * apply election_sync_rebuilt; simpl; (done || unfold seq_len; simpl; lia).
      * by rewrite Hq1.
    + rewrite bool_decide_false, decide_False by done. done.
Qed.

Lemma CElectionStateCheckForViewTimeout_refines s clock :
  election_ok s -> is_u64 clock ->
  election_ok (CElectionStateCheckForViewTimeout s clock)
  /\ ElectionStateCheckForViewTimeout (view s) (view (CElectionStateCheckForViewTimeout s clock))
       clock.
Proof.
  intros [Hv Hsync] Hclock.
  destruct (election_params s Hv) as (Hmx & Hbase & Hmx0 & Hcfg).
  destruct (merged_queue_ok s Hv) as (Hq1 & Hq2 & Hq3).
  pose proof Hsync as (_ & Hthislen & _).
  pose proof Hv as (Hc & Hb & Hthis & Hprev & He1 & He2 & Hsus).
  unfold CElectionStateCheckForViewTimeout, ElectionStateCheckForViewTimeout.
  destruct (clock <? c_epoch_end_time s) eqn:Ht.
  { rewrite decide_True by (simpl; lia). done. }
  rewrite decide_False by (simpl; lia).
  destruct (seq_len (c_requests_received_prev_epochs s) =? 0) eqn:H0.
  - rewrite decide_True by (simpl; lia).
    destruct (CUpperBoundedAddition_refines clock
                (c_baseline_view_timeout_period (c_params_of (ces_constants s)))
                (c_max_integer_val (c_params_of (ces_constants s)))) as [Ht1 Ht2]; [done..|].
    rewrite Ht1 in *. split; [split|done].
    + split_all; simpl; try done. by apply Forall_nil.
    + apply election_sync_rebuilt; simpl; (done || unfold seq_len in *; simpl; lia).
  - rewrite decide_False by (simpl; lia).
    destruct (CUpperBoundedAddition_refines clock (c_epoch_length s)
                (c_max_integer_val (c_params_of (ces_constants s)))) as [Ht1 Ht2]; [done..|].
    rewrite Ht1 in *. split; [split|].
    + split_all; simpl; try done; [by apply Forall_nil|].
      apply suspectors_union; [done|]. destruct Hc as [[? ?] _], Hcfg as (_ & _ & ?).
      unfold is_u64, U64_MODULUS. lia.
    + apply election_sync_rebuilt; simpl; (done || unfold seq_len; simpl; lia).
    + by rewrite Hq1.
Qed.

Lemma CElectionStateCheckForQuorumOfViewSuspicions_refines s clock :
  election_ok s -> is_u64 clock ->
  election_ok (CElectionStateCheckForQuorumOfViewSuspicions s clock)
  /\ ElectionStateCheckForQuorumOfViewSuspicions (view s)
       (view (CElectionStateCheckForQuorumOfViewSuspicions s clock)) clock.
Proof.
  intros [Hv Hsync] Hclock.
  destruct (election_params s Hv) as (Hmx & Hbase & Hmx0 & Hcfg).
  destruct (merged_queue_ok s Hv) as (Hq1 & Hq2 & Hq3).
  pose proof Hv as (Hc & Hb & Hthis & Hprev & He1 & He2 & Hsus).
  unfold CElectionStateCheckForQuorumOfViewSuspicions, ElectionStateCheckForQuorumOfViewSuspicions.
  set (cond1 := _ <? CMinQuorumSize _). set (cond2 := negb _).
  destruct (cond1 || cond2) eqn:Hcond; subst cond1 cond2.
  - rewrite decide_True; [done|]. simpl.
    apply orb_true_iff in Hcond as [H1|H1]; [left|right].
    + by apply Z.ltb_lt in H1.
    + lia.
  - apply orb_false_iff in Hcond as [H1 H2]. rewrite decide_False.
    2: { apply Z.ltb_ge in H1. rewrite CMinQuorumSize_view in H1. simpl in *. lia. }
    destruct (CUpperBoundedAddition_refines (c_epoch_length s) (c_epoch_length s)
                (c_max_integer_val (c_params_of (ces_constants s)))) as [Hl1 Hl2]; [done..|].
    rewrite Hl1 in *.
    destruct (CUpperBoundedAddition_refines clock
                (UpperBoundedAddition (c_epoch_length s) (c_epoch_length s)
                   (UpperBoundFinite (c_max_integer_val (c_params_of (ces_constants s)))))
                (c_max_integer_val (c_params_of (ces_constants s)))) as [Ht1 Ht2]; [done..|].
    rewrite Ht1 in *.
    destruct (CComputeSuccessorView_refines (c_current_view s) (c_all (ces_constants s)))
      as [Hs1 Hs2]; [done|by destruct Hc|lia|].
    split; [split|].
    + split_all; simpl; try done; apply Hs2 || by apply Forall_nil.
    + apply election_sync_rebuilt; simpl; (done || unfold seq_len; simpl; lia).
    + by rewrite Hq1, Hs1.
Qed.

(** The trusted fast path, proved from the caches' invariant. *)
Lemma CElectionStateReflectReceivedRequest_refines s req :
  election_ok s -> valid req ->
  election_ok (CElectionStateReflectReceivedRequest s req)
  /\ ElectionStateReflectReceivedRequest (view s)
       (view (CElectionStateReflectReceivedRequest s req)) req.
Proof.
  intros [Hv Hsync] Hreq.
  destruct (election_params s Hv) as (Hmx & _ & Hmx0 & _).
  pose proof Hsync as (Hs1 & Hs2 & Hs3 & Hs4 & Hs5).
  pose proof Hv as (Hc & Hb & Hthis & Hprev & He1 & He2 & Hsus).
  unfold CElectionStateReflectReceivedRequest, ElectionStateReflectReceivedRequest.
  set (mx := c_max_integer_val (c_params_of (ces_constants s))) in *.
  set (pushed := c_requests_received_this_epoch s ++ [req]).
  assert (seq_len pushed = seq_len (c_requests_received_this_epoch s) + 1) as Hlen.
  { unfold pushed. by rewrite seq_len_app. }
  assert ((if seq_len pushed >? mx then vec_truncate pushed mx else pushed)
          = CBoundRequestSequence pushed mx) as Htr.
  { unfold CBoundRequestSequence. by rewrite Z.gtb_ltb. }
  destruct (bool_decide (header_of req ∈ cur_req_set s)
            || bool_decide (header_of req ∈ prev_req_set s)) eqn:Hhit.
  - assert (header_of req ∈ cur_req_set s \/ header_of req ∈ prev_req_set s) as Hhit'.
    { apply orb_true_iff in Hhit. by rewrite !bool_decide_eq_true in Hhit. }
    split; [done|].
    destruct (decide (EarlierRequestMatches (view s) req)) as [He|He]; [done|].
    destruct (election_sync_cache_hit s req Hsync Hhit') as [|Hfull]; [done|].
    unfold view, CElectionState_view. f_equal; cbn.
    etrans; [|exact (CBoundRequestSequence_spec pushed mx ltac:(lia))].
    unfold CBoundRequestSequence. replace (mx <? seq_len pushed) with true by lia.
    unfold vec_truncate, pushed. rewrite take_app_length'; [done|].
    unfold seq_len in Hfull. fold mx in Hfull. lia.
  - assert (~ (header_of req ∈ cur_req_set s \/ header_of req ∈ prev_req_set s)) as Hmiss.
    { apply orb_false_iff in Hhit. rewrite !bool_decide_eq_false in Hhit. tauto. }
    rewrite Htr. rewrite decide_False by (by apply election_sync_cache_miss).
    split; [split|].
    + split_all; simpl; try done.
      eapply requests_valid_sub; [intros r; apply CBound_subseteq|].
      apply Forall_app; split; [done|by apply Forall_singleton].
    + split_all; simpl; fold mx; try done.
      * apply CBound_len; lia.
      * intros h (r & [Hr|Hr%list_elem_of_singleton]%CBound_subseteq%elem_of_app & <-);
          [apply elem_of_union_l, Hs4; by exists r|subst; set_solver].
      * destruct (decide (mx <= seq_len (c_requests_received_this_epoch s))) as [Hfl|Hfl].
        { left. unfold CBoundRequestSequence. replace (mx <? seq_len pushed) with true by lia.
          unfold vec_truncate, seq_len in *. rewrite length_take. lia. }
        right. intros h Hh. unfold CBoundRequestSequence.
        replace (mx <? seq_len pushed) with false by lia.
        apply header_in_app. apply elem_of_union in Hh as [Hh|Hh%elem_of_singleton].
        { destruct Hs5 as [|Hs5]; [lia|]. left. by apply Hs5. }
        right. exists req. subst. set_solver.
    + unfold view, CElectionState_view. f_equal; cbn.
      exact (CBoundRequestSequence_spec pushed mx ltac:(lia)).
Qed.

Lemma CElectionStateReflectExecutedRequestBatch_refines s batch :
  election_ok s ->
  election_ok (CElectionStateReflectExecutedRequestBatch s batch)
  /\ ElectionStateReflectExecutedRequestBatch (view s)
       (view (CElectionStateReflectExecutedRequestBatch s batch)) batch.
Proof.
  intros [Hv Hsync]. pose proof Hsync as (Hs1 & Hs2 & _).
  destruct (election_params s Hv) as (_ & _ & Hmx0 & _).
  pose proof Hv as (Hc & Hb & Hthis & Hprev & He1 & He2 & Hsus).
  unfold CElectionStateReflectExecutedRequestBatch, ElectionStateReflectExecutedRequestBatch.
  rewrite !CRemoveExecuted_spec. split; [split|done].
  - split_all; simpl; try done;
      (eapply requests_valid_sub; [intros r; apply RemoveExecuted_subseteq|done]).
  - apply election_sync_rebuilt; simpl; try done; [lia|..];
      (etrans; [apply RemoveExecuted_len|done]).
Qed.
End election_refinement.
