(* ===== verification/Learner.v ===== *)
(** * The learner

    protocol/RSL/learner.rs, and generated/RSL/learner_gen.rs with
    implementation/RSL/learnerimpl.rs: counting 2b messages per operation. *)

From stdpp Require Import prelude gmap sets list numbers fin_sets.
From Stdlib Require Import ZArith Lia.
From S2P Require Import Prelude.
From S2P Require Import Types.
From S2P Require Import Common.

#[local] Open Scope Z_scope.

(** ** Protocol level *)

Record LLearner := MkLLearner
  { ll_constants : LReplicaConstants;
    max_ballot_seen : Ballot;
    unexecuted_learner_state : LearnerState }.

Definition LLearnerInit (l : LLearner) (c : LReplicaConstants) : Prop :=
  ll_constants l = c
  /\ max_ballot_seen l = MkBallot 0 0
  /\ unexecuted_learner_state l = ∅.

Definition LLearnerProcess2b (s s_ : LLearner) (packet : RslPacket) : Prop :=
  let m := msg packet in
  let opn := msg_opn_2b m in
  if decide (src packet ∉ ids_of (ll_constants s) \/ BalLt (msg_bal_2b m) (max_ballot_seen s))
  then s_ = s
  else if decide (BalLt (max_ballot_seen s) (msg_bal_2b m)) then
    let tup_ := MkLearnerTuple {[src packet]} (msg_val_2b m) in
    s_ = {| ll_constants := ll_constants s;
            max_ballot_seen := msg_bal_2b m;
            unexecuted_learner_state := {[opn := tup_]} |}
  else
    match unexecuted_learner_state s !! opn with
    | None =>
        let tup_ := MkLearnerTuple {[src packet]} (msg_val_2b m) in
        s_ = {| ll_constants := ll_constants s;
                max_ballot_seen := msg_bal_2b m;
                unexecuted_learner_state := <[opn := tup_]> (unexecuted_learner_state s) |}
    | Some tup =>
        if decide (src packet ∈ received_2b_message_senders tup) then s_ = s
        else
          let tup_ := MkLearnerTuple (received_2b_message_senders tup ∪ {[src packet]})
                        (candidate_learned_value tup) in
          s_ = {| ll_constants := ll_constants s;
                  max_ballot_seen := max_ballot_seen s;
                  unexecuted_learner_state := <[opn := tup_]> (unexecuted_learner_state s) |}
    end.

Definition LLearnerForgetDecision (s s_ : LLearner) (opn : OperationNumber) : Prop :=
  if decide (is_Some (unexecuted_learner_state s !! opn)) then
    s_ = {| ll_constants := ll_constants s;
            max_ballot_seen := max_ballot_seen s;
            unexecuted_learner_state := delete opn (unexecuted_learner_state s) |}
  else s_ = s.

Definition LLearnerForgetOperationsBefore (s s_ : LLearner) (ops_complete : OperationNumber)
  : Prop :=
  (forall k, is_Some (unexecuted_learner_state s_ !! k)
     <-> k >= ops_complete /\ is_Some (unexecuted_learner_state s !! k))
  /\ (forall k, is_Some (unexecuted_learner_state s_ !! k) ->
        unexecuted_learner_state s_ !! k = unexecuted_learner_state s !! k)
  /\ s_ = {| ll_constants := ll_constants s;
             max_ballot_seen := max_ballot_seen s;
             unexecuted_learner_state := unexecuted_learner_state s_ |}.

(** ** Executable level *)

Record CLearner := MkCLearner
  { cl_constants : CReplicaConstants;
    c_max_ballot_seen : Ballot;
    c_unexecuted_learner_state : gmap Z LearnerTuple }.

#[export] Instance CLearner_view : View CLearner LLearner := fun s =>
  {| ll_constants := view (cl_constants s);
     max_ballot_seen := c_max_ballot_seen s;
     unexecuted_learner_state := c_unexecuted_learner_state s |}.

#[export] Instance CLearner_valid : Valid CLearner := fun s =>
  valid (cl_constants s) /\ valid (c_max_ballot_seen s) /\ valid (c_unexecuted_learner_state s).

Definition filter_clearnerstate (m : gmap Z LearnerTuple) (threshold : Z) : gmap Z LearnerTuple :=
  copy_keys_from m threshold (hashmap_keys_to_vec m).

Definition CLearnerInit (c : CReplicaConstants) : CLearner :=
  {| cl_constants := c; c_max_ballot_seen := MkBallot 0 0; c_unexecuted_learner_state := ∅ |}.

Definition CLearnerForgetDecision (s : CLearner) (opn : Z) : CLearner :=
  if bool_decide (is_Some (c_unexecuted_learner_state s !! opn)) then
    {| cl_constants := cl_constants s;
       c_max_ballot_seen := c_max_ballot_seen s;
       c_unexecuted_learner_state := delete opn (c_unexecuted_learner_state s) |}
  else s.

(** [learnerstate_clear_and_insert]. *)
Definition learnerstate_clear_and_insert (state : gmap Z LearnerTuple) (opn : Z)
    (tup : LearnerTuple) : gmap Z LearnerTuple := <[opn := tup]> ∅.

Definition CLearnerProcess2b (s : CLearner) (packet : RslPacket) : CLearner :=
  match msg packet with
  | RslMessage2b bal_2b opn_2b val_2b =>
      let '(src_in_config, _) :=
        CGetReplicaIndex (c_config (c_all (cl_constants s))) (src packet) in
      if negb src_in_config || CBalLt bal_2b (c_max_ballot_seen s) then s
      else if CBalLt (c_max_ballot_seen s) bal_2b then
        let tup := MkLearnerTuple {[src packet]} val_2b in
        {| cl_constants := cl_constants s;
           c_max_ballot_seen := bal_2b;
           c_unexecuted_learner_state :=
             learnerstate_clear_and_insert (c_unexecuted_learner_state s) opn_2b tup |}
      else
        match c_unexecuted_learner_state s !! opn_2b with
        | None =>
            let tup := MkLearnerTuple {[src packet]} val_2b in
            {| cl_constants := cl_constants s;
               c_max_ballot_seen := bal_2b;
               c_unexecuted_learner_state := <[opn_2b := tup]> (c_unexecuted_learner_state s) |}
        | Some existing =>
            if bool_decide (src packet ∈ received_2b_message_senders existing) then s
            else
              let tup :=
                MkLearnerTuple (received_2b_message_senders existing ∪ {[src packet]})
                  (candidate_learned_value existing) in
              {| cl_constants := cl_constants s;
                 c_max_ballot_seen := c_max_ballot_seen s;
                 c_unexecuted_learner_state :=
                   <[opn_2b := tup]> (c_unexecuted_learner_state s) |}
        end
  | _ => s
  end.

Definition CLearnerForgetOperationsBefore (s : CLearner) (ops_complete : Z) : CLearner :=
  let filtered := filter_clearnerstate (c_unexecuted_learner_state s) ops_complete in
  {| cl_constants := cl_constants s;
     c_max_ballot_seen := c_max_ballot_seen s;
     c_unexecuted_learner_state := filtered |}.

(** ** Refinement *)

Section learner_refinement.
Implicit Types (s : CLearner) (p : RslPacket).

Lemma filter_clearnerstate_lookup m threshold k :
  filter_clearnerstate m threshold !! k = if decide (k >= threshold) then m !! k else None.
Proof. apply copy_all_keys_from_lookup. Qed.

Lemma learner_state_valid_insert (m : gmap Z LearnerTuple) k t :
  valid m -> is_u64 k -> valid t -> valid (<[k := t]> m).
Proof.
  intros Hm Hk Ht k' t'. rewrite lookup_insert_Some.
  intros [[<- <-]|[_ ?]]; [by split|by apply Hm].
Qed.

Lemma learner_state_valid_empty : valid (∅ : gmap Z LearnerTuple).
Proof. intros k t. by rewrite lookup_empty. Qed.

Lemma CLearnerInit_refines (c : CReplicaConstants) :
  valid c -> valid (CLearnerInit c) /\ LLearnerInit (view (CLearnerInit c)) (view c).
Proof.
  intros Hc. split; [|done]. split_all; simpl; try done.
Qed.

Lemma CLearnerProcess2b_refines s p bal opn val :
  valid s -> valid p -> msg p = RslMessage2b bal opn val ->
  valid (CLearnerProcess2b s p)
  /\ LLearnerProcess2b (view s) (view (CLearnerProcess2b s p)) p.
Proof.
  intros Hs (_ & Hsrc & Hm) Hmsg. pose proof Hs as (Hc & Hb & Hst).
  unfold CLearnerProcess2b, LLearnerProcess2b. rewrite Hmsg in *.
  destruct Hm as (Hbal & Hopn & Hval). cbn [msg_opn_2b msg_bal_2b msg_val_2b].
  rewrite CGetReplicaIndex_spec, !CBalLt_spec.
  assert (CLearnerTuple_valid (MkLearnerTuple {[src p]} val)) as Htup.
  { split; [|done]. simpl. intros q Hq%elem_of_singleton. by subst. }
  destruct (decide (src p ∈ c_ids_of (cl_constants s))) as [Hin|Hin].
  2: { rewrite decide_True by (by left). done. }
  cbn [negb orb]. destruct (decide (BalLt bal (c_max_ballot_seen s))) as [Hlt|Hlt].
  { rewrite bool_decide_true, decide_True by (done || by right). done. }
  rewrite bool_decide_false, decide_False by (done || by intros [?|?]).
  cbn [view max_ballot_seen CLearner_view unexecuted_learner_state].
  destruct (decide (BalLt (c_max_ballot_seen s) bal)) as [Hgt|Hgt].
  { rewrite bool_decide_true by done. split; [|done]. split_all; simpl; try done.
    apply learner_state_valid_insert; [apply learner_state_valid_empty|done|done]. }
  rewrite bool_decide_false by done.
  destruct (c_unexecuted_learner_state s !! opn) as [tup|] eqn:Hlk.
  - destruct (decide (src p ∈ received_2b_message_senders tup)) as [Hi|Hi].
    + rewrite bool_decide_true by done. done.
    + rewrite bool_decide_false by done. split; [|done].
      destruct (Hst _ _ Hlk) as [_ [Hsnd Hcand]].
      split_all; simpl; try done. apply learner_state_valid_insert; [done|done|].
      split; [|done]. simpl. intros q [Hq|Hq%elem_of_singleton]%elem_of_union; [|by subst].
      by apply Hsnd.
  - split; [|done]. split_all; simpl; try done. by apply learner_state_valid_insert.
Qed.

Lemma CLearnerForgetDecision_refines s opn :
  valid s ->
  valid (CLearnerForgetDecision s opn)
  /\ LLearnerForgetDecision (view s) (view (CLearnerForgetDecision s opn)) opn.
Proof.
  intros Hs. pose proof Hs as (Hc & Hb & Hst).
  unfold CLearnerForgetDecision, LLearnerForgetDecision.
  cbn [view max_ballot_seen CLearner_view unexecuted_learner_state].
  case_bool_decide as Hd; [rewrite decide_True by done|by rewrite decide_False by done].
  split; [|done]. split_all; simpl; try done.
  intros k t [_ Hk]%lookup_delete_Some. by apply Hst.
Qed.

Lemma CLearnerForgetOperationsBefore_refines s ops :
  valid s ->
  valid (CLearnerForgetOperationsBefore s ops)
  /\ LLearnerForgetOperationsBefore (view s) (view (CLearnerForgetOperationsBefore s ops)) ops.
Proof.
  intros (Hc & Hb & Hst). unfold CLearnerForgetOperationsBefore. split; split_all; simpl; try done.
  - intros k t. rewrite filter_clearnerstate_lookup. case_decide; [apply Hst|done].
  - intros k. rewrite filter_clearnerstate_lookup. case_decide as Hk; [tauto|].
    split; [by intros [? ?]|by intros [? _]].
  - intros k. rewrite filter_clearnerstate_lookup. case_decide; [done|by intros [? ?]].
Qed.
End learner_refinement.

(** ** Frame: no operation changes the constants *)

Section learner_constants.
Implicit Types (s : LLearner) (p : RslPacket).

Lemma LLearnerProcess2b_constants s s' p :
  LLearnerProcess2b s s' p -> ll_constants s' = ll_constants s.
Proof.
  unfold LLearnerProcess2b. repeat case_decide; try (by intros ->).
  case_match; [case_decide|]; by intros ->.
Qed.

Lemma LLearnerForgetDecision_constants s s' opn :
  LLearnerForgetDecision s s' opn -> ll_constants s' = ll_constants s.
Proof. unfold LLearnerForgetDecision. case_decide; by intros ->. Qed.

Lemma LLearnerForgetOperationsBefore_constants s s' ops :
  LLearnerForgetOperationsBefore s s' ops -> ll_constants s' = ll_constants s.
Proof. by intros (_ & _ & ->). Qed.
End learner_constants.
