(* ===== verification/Executor.v ===== *)
(** * The executor

    protocol/RSL/executor.rs, and generated/RSL/executor_gen.rs with
    implementation/RSL/{ExecutorImpl,gen_helpers}.rs: applying decided batches
    to the application, the reply cache and state transfer. *)

From stdpp Require Import prelude gmap sets list numbers fin_sets.
From Stdlib Require Import ZArith Lia.
From S2P Require Import Prelude.
From S2P Require Import Types.
From S2P Require Import Common.

#[local] Open Scope Z_scope.

(** ** Protocol level *)

Inductive OutstandingOperation :=
  | OutstandingOpKnown (v : RequestBatch) (bal : Ballot)
  | OutstandingOpUnknown.

#[export] Instance OutstandingOperation_eq_dec : EqDecision OutstandingOperation.
Proof. solve_decision. Defined.

(** [op->v], [op->bal], [op is OutstandingOpKnown]. *)
Definition op_v (op : OutstandingOperation) : RequestBatch :=
  match op with OutstandingOpKnown v _ => v | _ => inhabitant end.
Definition op_bal (op : OutstandingOperation) : Ballot :=
  match op with OutstandingOpKnown _ b => b | _ => inhabitant end.
Definition op_known (op : OutstandingOperation) : bool :=
  match op with OutstandingOpKnown _ _ => true | _ => false end.

Record LExecutor := MkLExecutor
  { ex_constants : LReplicaConstants;
    app : AppState;
    ops_complete : Z;
    max_bal_reflected : Ballot;
    next_op_to_execute : OutstandingOperation;
    reply_cache : ReplyCache }.

Definition LExecutorInit (s : LExecutor) (c : LReplicaConstants) : Prop :=
  ex_constants s = c
  /\ app s = AppInitialize
  /\ ops_complete s = 0
  /\ max_bal_reflected s = MkBallot 0 0
  /\ next_op_to_execute s = OutstandingOpUnknown
  /\ reply_cache s = ∅.

Definition LExecutorGetDecision (s s_ : LExecutor) (bal : Ballot) (opn : OperationNumber)
    (v : RequestBatch) : Prop :=
  s_ = {| ex_constants := ex_constants s;
          app := app s;
          ops_complete := ops_complete s;
          max_bal_reflected := max_bal_reflected s;
          next_op_to_execute := OutstandingOpKnown v bal;
          reply_cache := reply_cache s |}.

Fixpoint GetPacketsFromReplies (me : AbstractEndPoint) (requests : list Request)
    (replies : list Reply) : list RslPacket :=
  match requests with
  | [] => []
  | q :: requests' =>
      [MkLPacket (req_client q) me
         (RslMessageReply (req_seqno q) (rep_reply (seq_index replies 0)))]
      ++ GetPacketsFromReplies me requests' (tail replies)
  end.

Fixpoint LClientsInReplies (replies : list Reply) : ReplyCache :=
  match replies with
  | [] => ∅
  | r :: replies' => <[rep_client r := r]> (LClientsInReplies replies')
  end.

Definition RepliesAreReplyType (replies : list RslPacket) : Prop :=
  forall p, p ∈ replies -> is_reply (msg p) = true.

Definition UpdateNewCache (c c_ : ReplyCache) (replies : list Reply) : Prop :=
  (forall client r, c_ !! client = Some r ->
     c !! client = Some r
     \/ exists req_idx q, 0 <= req_idx < seq_len replies /\ seq_get replies req_idx = Some q
          /\ rep_client q = client /\ r = q)
  /\ (forall client, is_Some (c_ !! client)
        <-> is_Some (LClientsInReplies replies !! client) \/ is_Some (c !! client))
  /\ (forall client, is_Some (c_ !! client) ->
        c_ !! client = if decide (is_Some (c !! client)) then c !! client
                       else LClientsInReplies replies !! client)
  /\ (forall client,
        is_Some (LClientsInReplies replies !! client) \/ is_Some (c !! client) ->
        is_Some (c_ !! client)
        /\ c_ !! client = if decide (is_Some (c !! client)) then c !! client
                          else LClientsInReplies replies !! client).

Definition LExecutorExecute (s s_ : LExecutor) (sent_packets : list RslPacket) : Prop :=
  let batch := op_v (next_op_to_execute s) in
  let temp := HandleRequestBatch (app s) batch in
  let new_state := seq_index temp.1 (seq_len temp.1 - 1) in
  let replies := temp.2 in
  ex_constants s_ = ex_constants s
  /\ app s_ = new_state
  /\ ops_complete s_ = ops_complete s + 1
  /\ max_bal_reflected s_
     = (if decide (BalLeq (max_bal_reflected s) (op_bal (next_op_to_execute s)))
        then op_bal (next_op_to_execute s) else max_bal_reflected s)
  /\ next_op_to_execute s_ = OutstandingOpUnknown
  /\ UpdateNewCache (reply_cache s) (reply_cache s_) replies
  /\ sent_packets
     = GetPacketsFromReplies
         (seq_index (ids_of (ex_constants s)) (my_index (ex_constants s))) batch replies
  /\ RepliesAreReplyType sent_packets.

Definition LExecutorProcessAppStateSupply (s s_ : LExecutor) (inp : RslPacket) : Prop :=
  let m := msg inp in
  s_ = {| ex_constants := ex_constants s;
          app := msg_app_state m;
          ops_complete := msg_opn_state_supply m;
          max_bal_reflected := msg_bal_state_supply m;
          next_op_to_execute := OutstandingOpUnknown;
          reply_cache := msg_reply_cache m |}.

Definition LExecutorProcessAppStateRequest (s s_ : LExecutor) (inp : RslPacket)
    (sent_packets : list RslPacket) : Prop :=
  let m := msg inp in
  if decide (src inp ∈ ids_of (ex_constants s)
             /\ BalLeq (max_bal_reflected s) (msg_bal_state_req m)
             /\ ops_complete s >= msg_opn_state_req m
             /\ LReplicaConstantsValid (ex_constants s))
  then
    s_ = s
    /\ sent_packets =
         [MkLPacket (src inp)
            (seq_index (ids_of (ex_constants s)) (my_index (ex_constants s)))
            (RslMessageAppStateSupply (max_bal_reflected s) (ops_complete s) (app s)
               (reply_cache s))]
  else s_ = s /\ sent_packets = [].

Definition LExecutorProcessStartingPhase2 (s s_ : LExecutor) (inp : RslPacket)
    (sent_packets : list RslPacket) : Prop :=
  let m := msg inp in
  if decide (src inp ∈ ids_of (ex_constants s) /\ msg_logTruncationPoint_2 m > ops_complete s)
  then
    s_ = s
    /\ LBroadcastToEveryone (config (all (ex_constants s))) (my_index (ex_constants s))
         (RslMessageAppStateRequest (msg_bal_2 m) (msg_logTruncationPoint_2 m)) sent_packets
  else s_ = s /\ sent_packets = [].

Definition LExecutorProcessRequest (s : LExecutor) (inp : RslPacket)
    (sent_packets : list RslPacket) : Prop :=
  let r := reply_cache s !!! src inp in
  if decide (msg_seqno_req (msg inp) = rep_seqno r /\ LReplicaConstantsValid (ex_constants s))
  then
    sent_packets =
      [MkLPacket (rep_client r)
         (seq_index (ids_of (ex_constants s)) (my_index (ex_constants s)))
         (RslMessageReply (rep_seqno r) (rep_reply r))]
  else sent_packets = [].

(** ** Executable level *)

#[export] Instance COutstandingOperation_valid : Valid OutstandingOperation := fun op =>
  match op with
  | OutstandingOpKnown v bal => valid v /\ valid bal
  | OutstandingOpUnknown => True
  end.

Record CExecutor := MkCExecutor
  { cex_constants : CReplicaConstants;
    c_app : Z;
    c_ops_complete : Z;
    c_max_bal_reflected : Ballot;
    c_next_op_to_execute : OutstandingOperation;
    c_reply_cache : gmap AbstractEndPoint Reply }.

#[export] Instance CExecutor_view : View CExecutor LExecutor := fun s =>
  {| ex_constants := view (cex_constants s);
     app := c_app s;
     ops_complete := c_ops_complete s;
     max_bal_reflected := c_max_bal_reflected s;
     next_op_to_execute := c_next_op_to_execute s;
     reply_cache := c_reply_cache s |}.

#[export] Instance CExecutor_valid : Valid CExecutor := fun s =>
  valid (cex_constants s) /\ is_u64 (c_app s) /\ valid (c_max_bal_reflected s)
  /\ valid (c_next_op_to_execute s) /\ valid (c_reply_cache s)
  (* the width of the [u64] field *)
  /\ is_u64 (c_ops_complete s).

Definition CExecutorInit (c : CReplicaConstants) : CExecutor :=
  {| cex_constants := c; c_app := CAppStateInit; c_ops_complete := 0;
     c_max_bal_reflected := MkBallot 0 0; c_next_op_to_execute := OutstandingOpUnknown;
     c_reply_cache := ∅ |}.

(** The loop inserts from the last reply to the first. *)
Definition CClientsInReplies (replies : list Reply) : gmap AbstractEndPoint Reply :=
  foldl (fun result r => <[rep_client r := r]> result) ∅ (rev replies).

(** The loop of [CUpdateNewCache] over the old cache's keys, in any order. *)
Definition CUpdateNewCache_loop (c nc : gmap AbstractEndPoint Reply)
    (c_keys : list AbstractEndPoint) : gmap AbstractEndPoint Reply :=
  foldl (fun result k => <[k := c !!! k]> result) nc c_keys.

Definition CUpdateNewCache (c : gmap AbstractEndPoint Reply) (replies : list Reply)
  : gmap AbstractEndPoint Reply :=
  let nc := CClientsInReplies replies in
  CUpdateNewCache_loop c nc (hashmap_keys_to_vec c).

Fixpoint CGetPacketsFromReplies (me : AbstractEndPoint) (requests : list Request)
    (replies : list Reply) : list RslPacket :=
  match requests with
  | [] => []
  | q :: new_req =>
      let rest := CGetPacketsFromReplies me new_req (tail replies) in
      let pkt := MkLPacket (req_client q) me
                   (RslMessageReply (req_seqno q) (rep_reply (seq_index replies 0))) in
      [pkt] ++ rest
  end.

Definition CExecutorExecute (s : CExecutor) : CExecutor * list RslPacket :=
  match c_next_op_to_execute s with
  | OutstandingOpKnown batch op_bal =>
      let temp := CHandleRequestBatch (c_app s) batch in
      let new_state := seq_index temp.1 (seq_len temp.1 - 1) in
      let replies := temp.2 in
      let s_reply_cache := CUpdateNewCache (c_reply_cache s) replies in
      let sent_packets :=
        CGetPacketsFromReplies
          (seq_index (c_ids_of (cex_constants s)) (c_my_index (cex_constants s))) batch replies in
      let new_max_bal :=
        if CBalLeq (c_max_bal_reflected s) op_bal then op_bal else c_max_bal_reflected s in
      ({| cex_constants := cex_constants s;
          c_app := new_state;
          c_ops_complete := u64_add (c_ops_complete s) 1;
          c_max_bal_reflected := new_max_bal;
          c_next_op_to_execute := OutstandingOpUnknown;
          c_reply_cache := s_reply_cache |}, sent_packets)
  | OutstandingOpUnknown => (s, []) (* unreachable_value() *)
  end.

Definition CExecutorGetDecision (s : CExecutor) (bal : Ballot) (opn : Z) (v : list Request)
  : CExecutor :=
  {| cex_constants := cex_constants s;
     c_app := c_app s;
     c_ops_complete := c_ops_complete s;
     c_max_bal_reflected := c_max_bal_reflected s;
     c_next_op_to_execute := OutstandingOpKnown v bal;
     c_reply_cache := c_reply_cache s |}.

Definition CExecutorProcessAppStateSupply (s : CExecutor) (inp : RslPacket) : CExecutor :=
  match msg inp with
  | RslMessageAppStateSupply bal_state_supply opn_state_supply app_state reply_cache =>
      {| cex_constants := cex_constants s;
         c_app := app_state;
         c_ops_complete := opn_state_supply;
         c_max_bal_reflected := bal_state_supply;
         c_next_op_to_execute := OutstandingOpUnknown;
         c_reply_cache := reply_cache |}
  | _ => s
  end.

Definition CExecutorProcessAppStateRequest (s : CExecutor) (inp : RslPacket) : list RslPacket :=
  match msg inp with
  | RslMessageAppStateRequest bal_state_req opn_state_req =>
      let src_in_config := bool_decide (src inp ∈ c_ids_of (cex_constants s)) in
      let bal_leq := CBalLeq (c_max_bal_reflected s) bal_state_req in
      let opn_ok := c_ops_complete s >=? opn_state_req in
      let constants_valid := CReplicaConstantsValid (cex_constants s) in
      if src_in_config && bal_leq && opn_ok && constants_valid then
        [{| dst := src inp;
            src := seq_index (c_ids_of (cex_constants s)) (c_my_index (cex_constants s));
            msg := RslMessageAppStateSupply (c_max_bal_reflected s) (c_ops_complete s)
                     (c_app s) (c_reply_cache s) |}]
      else []
  | _ => [] (* unreachable_value() *)
  end.

Definition CExecutorProcessStartingPhase2 (s : CExecutor) (inp : RslPacket) : list RslPacket :=
  match msg inp with
  | RslMessageStartingPhase2 bal_2 logTruncationPoint_2 =>
      if bool_decide (src inp ∈ c_ids_of (cex_constants s))
         && (logTruncationPoint_2 >? c_ops_complete s)
      then CBroadcastToEveryone (c_config (c_all (cex_constants s)))
             (c_my_index (cex_constants s))
             (RslMessageAppStateRequest bal_2 logTruncationPoint_2)
      else []
  | _ => [] (* unreachable_value() *)
  end.

Definition CExecutorProcessRequest (s : CExecutor) (inp : RslPacket) : list RslPacket :=
  match msg inp with
  | RslMessageRequest seqno_req _ =>
      let constants_valid := CReplicaConstantsValid (cex_constants s) in
      match c_reply_cache s !! src inp with
      | Some r =>
          if (seqno_req =? rep_seqno r) && constants_valid then
            [{| dst := rep_client r;
                src := seq_index (c_ids_of (cex_constants s)) (c_my_index (cex_constants s));
                msg := RslMessageReply (rep_seqno r) (rep_reply r) |}]
          else []
      | None => []
      end
  | _ => [] (* unreachable_value() *)
  end.

(** ** The reply cache *)

Section reply_cache_lemmas.
Implicit Types (c nc : ReplyCache) (replies : list Reply).

Lemma CClientsInReplies_spec replies : CClientsInReplies replies = LClientsInReplies replies.
Proof.
  unfold CClientsInReplies. induction replies as [|r replies IH]; [done|].
  cbn [rev LClientsInReplies]. by rewrite foldl_app, IH.
Qed.

Lemma LClientsInReplies_lookup replies client r :
  LClientsInReplies replies !! client = Some r -> r ∈ replies /\ rep_client r = client.
Proof.
  induction replies as [|q replies IH]; cbn [LClientsInReplies]; [by rewrite lookup_empty|].
  rewrite lookup_insert_Some. set_solver.
Qed.

(** The override loop is the left-biased union, whatever the keys' order. *)
Lemma CUpdateNewCache_loop_lookup c nc keys client :
  (forall k, k ∈ keys -> is_Some (c !! k)) ->
  CUpdateNewCache_loop c nc keys !! client
  = if decide (client ∈ keys) then c !! client else nc !! client.
Proof.
  unfold CUpdateNewCache_loop. induction keys as [|k keys IH] using rev_ind; intros Hk.
  { cbn [foldl]. rewrite decide_False; [done|apply not_elem_of_nil]. }
  rewrite foldl_app. cbn [foldl].
  destruct (Hk k ltac:(set_solver)) as [v Hv].
  destruct (decide (client = k)) as [->|Hne].
  - rewrite lookup_insert_eq, decide_True by set_solver.
    by rewrite lookup_total_alt, Hv.
  - rewrite lookup_insert_ne, IH by (done || set_solver). apply decide_ext. set_solver.
Qed.

Lemma CUpdateNewCache_union c replies :
  CUpdateNewCache c replies = c ∪ LClientsInReplies replies.
Proof.
  apply map_eq. intros client. unfold CUpdateNewCache.
  rewrite CUpdateNewCache_loop_lookup, CClientsInReplies_spec.
  2: { intros k. by rewrite hashmap_keys_to_vec_elem. }
  rewrite lookup_union. case_decide as Hd; rewrite hashmap_keys_to_vec_elem in Hd.
  - destruct Hd as [r Hr]. rewrite Hr. by rewrite union_Some_l.
  - rewrite <-eq_None_not_Some in Hd. rewrite Hd. by destruct (LClientsInReplies replies !! client).
Qed.

(** The relation has one solution, the left-biased union. *)
Lemma UpdateNewCache_unique c c_ replies :
  UpdateNewCache c c_ replies <-> c_ = c ∪ LClientsInReplies replies.
Proof.
  assert (forall client,
    (c ∪ LClientsInReplies replies) !! client
    = if decide (is_Some (c !! client)) then c !! client
      else LClientsInReplies replies !! client) as Hu.
  { intros client. rewrite lookup_union. case_decide as Hd.
    - destruct Hd as [r ->]. by rewrite union_Some_l.
    - rewrite <-eq_None_not_Some in Hd. rewrite Hd. by destruct (LClientsInReplies replies !! client). }
  split.
  - intros (_ & Hdom & Hval & _). apply map_eq. intros client. rewrite Hu.
    specialize (Hdom client). specialize (Hval client).
    destruct (c_ !! client) as [r|] eqn:Hr; [by apply Hval|].
    destruct (decide (is_Some (c !! client))) as [Hc|Hc].
    + by destruct (proj2 Hdom (or_intror Hc)).
    + symmetry. apply eq_None_not_Some. intros Hl. by destruct (proj2 Hdom (or_introl Hl)).
  - intros ->.
    assert (forall client, is_Some ((c ∪ LClientsInReplies replies) !! client)
              <-> is_Some (LClientsInReplies replies !! client) \/ is_Some (c !! client)) as Hd.
    { intros client. rewrite Hu. case_decide; tauto. }
    split_all; intros client.
    + intros r. rewrite Hu. case_decide as Hc; [by left|].
      intros [Hin Hcl]%LClientsInReplies_lookup. right.
      apply elem_of_seq_get in Hin as [i Hi]. exists i, r.
      split_and!; try done; eapply seq_get_Some_range in Hi; lia.
    + apply Hd.
    + intros _. apply Hu.
    + intros Hor. split; [by apply Hd|apply Hu].
Qed.

Lemma reply_cache_valid_union c replies :
  valid c -> Forall valid replies -> valid (c ∪ LClientsInReplies replies).
Proof.
  intros Hc Hr k r. rewrite lookup_union_Some_raw. intros [?|[_ Hl]]; [by apply Hc|].
  apply LClientsInReplies_lookup in Hl as [Hin <-].
  rewrite Forall_forall in Hr. specialize (Hr _ Hin). split; [by destruct Hr|done].
Qed.

Lemma CGetPacketsFromReplies_spec me reqs reps :
  CGetPacketsFromReplies me reqs reps = GetPacketsFromReplies me reqs reps.
Proof. revert reps. induction reqs as [|q reqs IH]; intros reps; simpl; [done|]. by rewrite IH. Qed.

(** One reply packet per request, in order, each answering its request. *)
Lemma GetPacketsFromReplies_lookup me reqs reps i :
  length reps = length reqs ->
  GetPacketsFromReplies me reqs reps !! i
  = q ← reqs !! i; r ← reps !! i;
    Some (MkLPacket (req_client q) me (RslMessageReply (req_seqno q) (rep_reply r))).
Proof.
  revert reps i. induction reqs as [|q reqs IH]; intros [|r reps] [|i] Hl; try done.
  simpl in *. apply IH. lia.
Qed.

Lemma GetPacketsFromReplies_elem me reqs reps p :
  length reps = length reqs -> p ∈ GetPacketsFromReplies me reqs reps ->
  exists q r, q ∈ reqs /\ r ∈ reps
    /\ p = MkLPacket (req_client q) me (RslMessageReply (req_seqno q) (rep_reply r)).
Proof.
  intros Hl [i Hi]%list_elem_of_lookup. rewrite GetPacketsFromReplies_lookup in Hi by done.
  apply bind_Some in Hi as (q & Hq & Hi). apply bind_Some in Hi as (r & Hr & [= <-]).
  exists q, r. eauto using list_elem_of_lookup_2.
Qed.
End reply_cache_lemmas.

(** ** Refinement *)

Section executor_refinement.
Implicit Types (s : CExecutor) (inp : RslPacket).

Lemma CExecutorInit_refines (c : CReplicaConstants) :
  valid c -> valid (CExecutorInit c) /\ LExecutorInit (view (CExecutorInit c)) (view c).
Proof. intros Hc. split; [|done]. split_all; simpl; try done. Qed.

Lemma CExecutorGetDecision_refines s bal opn v :
  valid s -> valid bal -> valid v ->
  valid (CExecutorGetDecision s bal opn v)
  /\ LExecutorGetDecision (view s) (view (CExecutorGetDecision s bal opn v)) bal opn v.
Proof. intros (? & ? & ? & ? & ? & ?) ? ?. split; [|done]. by split_all. Qed.

(** The protocol's final state is the left fold of the batch. *)
Lemma execute_new_state (st : AppState) (b : RequestBatch) :
  let temp := HandleRequestBatch st b in
  seq_index temp.1 (seq_len temp.1 - 1) = run_batch st b.
Proof.
  pose proof (HandleRequestBatch_props st b) as Hp. simpl.
  destruct (HandleRequestBatch st b) as [ss rs]. destruct Hp as (Hl & _ & Hlast & _).
  apply seq_index_get. simpl. unfold seq_len. rewrite Hl.
  replace (Z.of_nat (S (length b)) - 1) with (Z.of_nat (length b)) by lia.
  rewrite seq_get_of_nat, <-Hlast, last_lookup, Hl. done.
Qed.

Lemma CExecutorExecute_refines s :
  valid s -> op_known (c_next_op_to_execute s) = true ->
  c_ops_complete s < c_max_integer_val (c_params_of (cex_constants s)) ->
  let '(s', ps) := CExecutorExecute s in
  valid s' /\ valid ps /\ LExecutorExecute (view s) (view s') ps.
Proof.
  intros (Hc & Happ & Hb & Hop & Hcache & Hops) Hknown Hlt.
  unfold CExecutorExecute, LExecutorExecute.
  destruct (c_next_op_to_execute s) as [batch bal|] eqn:Hnext; [|done].
  destruct Hop as [Hbatch Hbal]. cbn [view CExecutor_view next_op_to_execute app]. rewrite Hnext.
  cbn [op_v op_bal]. rewrite CHandleRequestBatch_spec, CUpdateNewCache_union, CGetPacketsFromReplies_spec.
  destruct (HandleRequestBatch_valid (c_app s) batch Happ Hbatch) as [_ Hreps].
  pose proof (HandleRequestBatch_props (c_app s) batch) as Hprops.
  pose proof (execute_new_state (c_app s) batch) as Hnew. cbn in Hnew.
  destruct (HandleRequestBatch (c_app s) batch) as [ss rs]. cbn [fst snd] in *.
  destruct Hprops as (_ & Hlen & _).
  assert (forall p, p ∈ GetPacketsFromReplies
    (seq_index (c_ids_of (cex_constants s)) (c_my_index (cex_constants s))) batch rs ->
    is_reply (msg p) = true /\ valid p) as Hps.
  { intros p (q & r & Hq & Hr & ->)%GetPacketsFromReplies_elem; [|done].
    rewrite Forall_forall in Hreps. destruct (Hreps _ Hr) as (? & ? & ?).
    unfold valid, CRequestBatch_valid in Hbatch. rewrite Forall_forall in Hbatch.
    destruct (Hbatch _ Hq) as (? & ? & ?).
    split; [done|]. split_all; simpl; [done|by apply valid_my_id|by split]. }
  split_and!.
  - split_all; simpl; try done.
    + rewrite Hnew. by apply run_batch_is_u64.
    + by destruct (CBalLeq _ _).
    + by apply reply_cache_valid_union.
    + apply u64_add_is_u64.
  - apply Forall_forall. intros p Hp. by apply Hps.
  - done.
  - done.
  - simpl. apply u64_add_exact. unfold is_u64, U64_MODULUS in *.
    destruct Hc as [_ (_ & (_ & _ & ? & _) & _)]. lia.
  - simpl. rewrite CBalLeq_spec. by rewrite bool_decide_decide; case_decide.
  - done.
  - by apply UpdateNewCache_unique.
  - done.
  - intros p Hp. by apply Hps.
Qed.

Lemma CExecutorProcessAppStateSupply_refines s inp bal opn st cache :
  valid s -> valid inp -> msg inp = RslMessageAppStateSupply bal opn st cache ->
  valid (CExecutorProcessAppStateSupply s inp)
  /\ LExecutorProcessAppStateSupply (view s) (view (CExecutorProcessAppStateSupply s inp)) inp.
Proof.
  intros (Hc & _) (_ & _ & Hm) Hmsg. unfold CExecutorProcessAppStateSupply, LExecutorProcessAppStateSupply.
  rewrite Hmsg in *. destruct Hm as (? & ? & ? & ?). split; [|done]. by split_all.
Qed.

Lemma CExecutorProcessAppStateRequest_refines s inp bal opn :
  valid s -> valid inp -> msg inp = RslMessageAppStateRequest bal opn ->
  valid (CExecutorProcessAppStateRequest s inp)
  /\ LExecutorProcessAppStateRequest (view s) (view s) inp
       (CExecutorProcessAppStateRequest s inp).
Proof.
  intros (Hc & Happ & Hb & Hop & Hcache & Hops) (_ & Hsrc & Hm) Hmsg.
  unfold CExecutorProcessAppStateRequest, LExecutorProcessAppStateRequest.
  rewrite Hmsg in *. cbn [msg_bal_state_req msg_opn_state_req].
  rewrite CBalLeq_spec, CReplicaConstantsValid_spec by done.
  destruct (_ && _) eqn:Hg.
  - rewrite !andb_true_iff, !bool_decide_eq_true in Hg. rewrite decide_True by (simpl; ands).
    split; [|done]. apply Forall_singleton.
    split_all; simpl; [done|by apply valid_my_id|by split_all].
  - rewrite decide_False; [by split; [apply Forall_nil|]|].
    intros (? & ? & ? & ?). apply not_true_iff_false in Hg. apply Hg.
    rewrite !andb_true_iff, !bool_decide_eq_true. simpl in *. ands.
Qed.

Lemma CExecutorProcessStartingPhase2_refines s inp bal ltp :
  valid s -> valid inp -> msg inp = RslMessageStartingPhase2 bal ltp ->
  valid (CExecutorProcessStartingPhase2 s inp)
  /\ LExecutorProcessStartingPhase2 (view s) (view s) inp (CExecutorProcessStartingPhase2 s inp).
Proof.
  intros (Hc & _) (_ & Hsrc & Hm) Hmsg.
  unfold CExecutorProcessStartingPhase2, LExecutorProcessStartingPhase2.
  rewrite Hmsg in *. cbn [msg_bal_2 msg_logTruncationPoint_2].
  destruct Hc as [Hi (Hcfg & _)].
  destruct (_ && _) eqn:Hg.
  - rewrite andb_true_iff, bool_decide_eq_true in Hg. rewrite decide_True by (simpl; ands).
    split; [by apply CBroadcastToEveryone_valid|split; [done|]].
    by apply CBroadcastToEveryone_refines.
  - rewrite decide_False; [by split; [apply Forall_nil|]|].
    intros (? & ?). apply not_true_iff_false in Hg. apply Hg.
    rewrite andb_true_iff, bool_decide_eq_true. simpl in *. ands.
Qed.

Lemma CExecutorProcessRequest_refines s inp seqno v :
  valid s -> msg inp = RslMessageRequest seqno v -> is_Some (c_reply_cache s !! src inp) ->
  valid (CExecutorProcessRequest s inp)
  /\ LExecutorProcessRequest (view s) inp (CExecutorProcessRequest s inp).
Proof.
  intros (Hc & _ & _ & _ & Hcache & _) Hmsg [r Hr].
  unfold CExecutorProcessRequest, LExecutorProcessRequest. rewrite Hmsg.
  cbn [msg_seqno_req view CExecutor_view reply_cache ex_constants].
  rewrite Hr, lookup_total_alt, Hr, CReplicaConstantsValid_spec by done. cbn [default from_option id].
  destruct (Hcache _ _ Hr) as [_ (Hcl & Hsq & Hrep)].
  destruct (_ && _) eqn:Hg.
  - rewrite andb_true_iff, bool_decide_eq_true in Hg. rewrite decide_True by ands.
    split; [|done]. apply Forall_singleton.
    split_all; simpl; [done|by apply valid_my_id|by split].
  - rewrite decide_False; [by split; [apply Forall_nil|]|].
    intros (? & ?). apply not_true_iff_false in Hg. apply Hg.
    rewrite andb_true_iff, bool_decide_eq_true. split; [lia|done].
Qed.
End executor_refinement.

(** ** Frame: no operation changes the constants *)

Section executor_constants.
Implicit Types (s : LExecutor) (p : RslPacket).

Lemma LExecutorExecute_constants s s' sent :
  LExecutorExecute s s' sent -> ex_constants s' = ex_constants s.
Proof. by intros (? & _). Qed.

Lemma LExecutorGetDecision_constants s s' bal opn v :
  LExecutorGetDecision s s' bal opn v -> ex_constants s' = ex_constants s.
Proof. by intros ->. Qed.

Lemma LExecutorProcessAppStateSupply_constants s s' p :
  LExecutorProcessAppStateSupply s s' p -> ex_constants s' = ex_constants s.
Proof. by intros ->. Qed.

Lemma LExecutorProcessAppStateRequest_same s s' p sent :
  LExecutorProcessAppStateRequest s s' p sent -> s' = s.
Proof. unfold LExecutorProcessAppStateRequest. case_decide; by intros [? _]. Qed.

Lemma LExecutorProcessStartingPhase2_same s s' p sent :
  LExecutorProcessStartingPhase2 s s' p sent -> s' = s.
Proof. unfold LExecutorProcessStartingPhase2. case_decide; by intros [? _]. Qed.
End executor_constants.
