(* ===== verification/Proposer.v ===== *)
(** * The proposer

    protocol/RSL/proposer.rs, and generated/RSL/proposer_gen.rs with
    implementation/RSL/ProposerImpl.rs: phase 1, phase 2, batching and the
    choice of the value to propose. *)

From stdpp Require Import prelude gmap sets list numbers fin_sets fin_maps.
From Stdlib Require Import ZArith Lia.
From S2P Require Import Prelude.
From S2P Require Import Types.
From S2P Require Import Common.
From S2P Require Import Election.

#[local] Open Scope Z_scope.

(** ** Protocol level *)

Inductive IncompleteBatchTimer :=
  | IncompleteBatchTimerOn (when : Z)
  | IncompleteBatchTimerOff.

#[export] Instance IncompleteBatchTimer_eq_dec : EqDecision IncompleteBatchTimer.
Proof. solve_decision. Defined.

(** [timer is On && clock >= timer->when], [timer is Off]. *)
Definition timer_expired (t : IncompleteBatchTimer) (clock : Z) : bool :=
  match t with IncompleteBatchTimerOn w => clock >=? w | IncompleteBatchTimerOff => false end.
Definition timer_off (t : IncompleteBatchTimer) : bool :=
  match t with IncompleteBatchTimerOff => true | _ => false end.

(** [current_state]: 0 not leader, 1 leader in phase 1, 2 leader in phase 2. *)
Record LProposer := MkLProposer
  { pr_constants : LReplicaConstants;
    current_state : Z;
    request_queue : list Request;
    max_ballot_i_sent_1a : Ballot;
    next_operation_number_to_propose : Z;
    received_1b_packets : gset RslPacket;
    highest_seqno_requested_by_client_this_view : gmap AbstractEndPoint Z;
    incomplete_batch_timer : IncompleteBatchTimer;
    election_state : ElectionState }.

Definition LIsAfterLogTruncationPoint (opn : OperationNumber) (S : gset RslPacket) : Prop :=
  set_Forall (fun p => is_1b (msg p) = true -> msg_log_truncation_point (msg p) <= opn) S.

Definition LSetOfMessage1b (S : gset RslPacket) : Prop :=
  set_Forall (fun p => is_1b (msg p) = true) S.

Definition LSetOfMessage1bAboutBallot (S : gset RslPacket) (b : Ballot) : Prop :=
  LSetOfMessage1b S /\ set_Forall (fun p => msg_bal_1b (msg p) = b) S.

Definition LExistVotesHasProposalLargeThanOpn (p : RslPacket) (op : OperationNumber) : Prop :=
  map_Exists (fun opn (_ : Vote) => opn > op) (msg_votes (msg p)).

Definition LExistsAcceptorHasProposalLargeThanOpn (S : gset RslPacket) (op : OperationNumber)
  : Prop := set_Exists (fun p => LExistVotesHasProposalLargeThanOpn p op) S.

Definition LAllAcceptorsHadNoProposal (S : gset RslPacket) (opn : OperationNumber) : Prop :=
  set_Forall (fun p => msg_votes (msg p) !! opn = None) S.

Definition Lmax_balInS (c : Ballot) (S : gset RslPacket) (opn : OperationNumber) : Prop :=
  forall p v, p ∈ S -> msg_votes (msg p) !! opn = Some v -> BalLeq (max_value_bal v) c.

Definition LExistsBallotInS (v : RequestBatch) (c : Ballot) (S : gset RslPacket)
    (opn : OperationNumber) : Prop :=
  exists p, p ∈ S /\ msg_votes (msg p) !! opn = Some (MkVote c v).

Definition LValIsHighestNumberedProposalAtBallot (v : RequestBatch) (c : Ballot)
    (S : gset RslPacket) (opn : OperationNumber) : Prop :=
  Lmax_balInS c S opn /\ LExistsBallotInS v c S opn.

Definition LValIsHighestNumberedProposal (v : RequestBatch) (S : gset RslPacket)
    (opn : OperationNumber) : Prop :=
  exists c, LValIsHighestNumberedProposalAtBallot v c S opn.

#[export] Instance LIsAfterLogTruncationPoint_dec opn S :
  Decision (LIsAfterLogTruncationPoint opn S).
Proof. unfold LIsAfterLogTruncationPoint. apply _. Defined.
#[export] Instance LSetOfMessage1b_dec S : Decision (LSetOfMessage1b S).
Proof. unfold LSetOfMessage1b. apply _. Defined.
#[export] Instance LSetOfMessage1bAboutBallot_dec S b :
  Decision (LSetOfMessage1bAboutBallot S b).
Proof. unfold LSetOfMessage1bAboutBallot. apply _. Defined.
#[export] Instance LExistVotesHasProposalLargeThanOpn_dec p op :
  Decision (LExistVotesHasProposalLargeThanOpn p op).
Proof. unfold LExistVotesHasProposalLargeThanOpn. apply _. Defined.
#[export] Instance LExistsAcceptorHasProposalLargeThanOpn_dec S op :
  Decision (LExistsAcceptorHasProposalLargeThanOpn S op).
Proof. unfold LExistsAcceptorHasProposalLargeThanOpn. apply _. Defined.
#[export] Instance LAllAcceptorsHadNoProposal_dec S opn :
  Decision (LAllAcceptorsHadNoProposal S opn).
Proof. unfold LAllAcceptorsHadNoProposal. apply _. Defined.

Definition LProposerCanNominateUsingOperationNumber (s : LProposer)
    (log_truncation_point opn : OperationNumber) : Prop :=
  let p := params_of (pr_constants s) in
  current_view (election_state s) = max_ballot_i_sent_1a s
  /\ current_state s = 2
  /\ Z.of_nat (size (received_1b_packets s)) >= LMinQuorumSize (config (all (pr_constants s)))
  /\ LSetOfMessage1bAboutBallot (received_1b_packets s) (max_ballot_i_sent_1a s)
  /\ LIsAfterLogTruncationPoint opn (received_1b_packets s)
  /\ opn < UpperBoundedAddition log_truncation_point (max_log_length p) (max_integer_val p)
  /\ opn >= 0
  /\ LtUpperBound opn (max_integer_val p).

#[export] Instance LProposerCanNominate_dec s ltp opn :
  Decision (LProposerCanNominateUsingOperationNumber s ltp opn).
Proof. unfold LProposerCanNominateUsingOperationNumber. apply _. Defined.

Definition LProposerInit (s : LProposer) (c : LReplicaConstants) : Prop :=
  pr_constants s = c
  /\ current_state s = 0
  /\ request_queue s = []
  /\ max_ballot_i_sent_1a s = MkBallot 0 (my_index c)
  /\ next_operation_number_to_propose s = 0
  /\ received_1b_packets s = ∅
  /\ highest_seqno_requested_by_client_this_view s = ∅
  /\ ElectionStateInit (election_state s) c
  /\ incomplete_batch_timer s = IncompleteBatchTimerOff.

(** The guard under which a request joins the queue. *)
Definition request_is_new (s : LProposer) (val : Request) : Prop :=
  current_state s <> 0
  /\ match highest_seqno_requested_by_client_this_view s !! req_client val with
     | None => True
     | Some n => req_seqno val > n
     end.

#[export] Instance request_is_new_dec s val : Decision (request_is_new s val).
Proof.
  unfold request_is_new.
  destruct (highest_seqno_requested_by_client_this_view s !! req_client val); apply _.
Defined.

Definition LProposerProcessRequest (s s_ : LProposer) (packet : RslPacket) : Prop :=
  let val := MkRequest (src packet) (msg_seqno_req (msg packet)) (msg_val (msg packet)) in
  ElectionStateReflectReceivedRequest (election_state s) (election_state s_) val
  /\ (if decide (request_is_new s val) then
        s_ = {| pr_constants := pr_constants s;
                current_state := current_state s;
                request_queue := request_queue s ++ [val];
                max_ballot_i_sent_1a := max_ballot_i_sent_1a s;
                next_operation_number_to_propose := next_operation_number_to_propose s;
                received_1b_packets := received_1b_packets s;
                highest_seqno_requested_by_client_this_view :=
                  <[req_client val := req_seqno val]>
                    (highest_seqno_requested_by_client_this_view s);
                incomplete_batch_timer := incomplete_batch_timer s;
                election_state := election_state s_ |}
      else
        s_ = {| pr_constants := pr_constants s;
                current_state := current_state s;
                request_queue := request_queue s;
                max_ballot_i_sent_1a := max_ballot_i_sent_1a s;
                next_operation_number_to_propose := next_operation_number_to_propose s;
                received_1b_packets := received_1b_packets s;
                highest_seqno_requested_by_client_this_view :=
                  highest_seqno_requested_by_client_this_view s;
                incomplete_batch_timer := incomplete_batch_timer s;
                election_state := election_state s_ |}).

Definition LProposerMaybeEnterNewViewAndSend1a (s s_ : LProposer)
    (sent_packets : list RslPacket) : Prop :=
  if decide (bal_proposer_id (current_view (election_state s)) = my_index (pr_constants s)
             /\ BalLt (max_ballot_i_sent_1a s) (current_view (election_state s)))
  then
    s_ = {| pr_constants := pr_constants s;
            current_state := 1;
            request_queue := requests_received_prev_epochs (election_state s)
                             ++ requests_received_this_epoch (election_state s);
            max_ballot_i_sent_1a := current_view (election_state s);
            next_operation_number_to_propose := next_operation_number_to_propose s;
            received_1b_packets := ∅;
            highest_seqno_requested_by_client_this_view := ∅;
            incomplete_batch_timer := incomplete_batch_timer s;
            election_state := election_state s |}
    /\ LBroadcastToEveryone (config (all (pr_constants s))) (my_index (pr_constants s))
         (RslMessage1a (current_view (election_state s))) sent_packets
  else s_ = s /\ sent_packets = [].

Definition LProposerProcess1b (s s_ : LProposer) (p : RslPacket) : Prop :=
  s_ = {| pr_constants := pr_constants s;
          current_state := current_state s;
          request_queue := request_queue s;
          max_ballot_i_sent_1a := max_ballot_i_sent_1a s;
          next_operation_number_to_propose := next_operation_number_to_propose s;
          received_1b_packets := received_1b_packets s ∪ {[p]};
          highest_seqno_requested_by_client_this_view :=
            highest_seqno_requested_by_client_this_view s;
          incomplete_batch_timer := incomplete_batch_timer s;
          election_state := election_state s |}.

Definition LProposerMaybeEnterPhase2 (s s_ : LProposer) (log_truncation_point : OperationNumber)
    (sent_packets : list RslPacket) : Prop :=
  if decide (Z.of_nat (size (received_1b_packets s))
               >= LMinQuorumSize (config (all (pr_constants s)))
             /\ LSetOfMessage1bAboutBallot (received_1b_packets s) (max_ballot_i_sent_1a s)
             /\ current_state s = 1)
  then
    s_ = {| pr_constants := pr_constants s;
            current_state := 2;
            request_queue := request_queue s;
            max_ballot_i_sent_1a := max_ballot_i_sent_1a s;
            next_operation_number_to_propose := log_truncation_point;
            received_1b_packets := received_1b_packets s;
            highest_seqno_requested_by_client_this_view :=
              highest_seqno_requested_by_client_this_view s;
            incomplete_batch_timer := incomplete_batch_timer s;
            election_state := election_state s |}
    /\ LBroadcastToEveryone (config (all (pr_constants s))) (my_index (pr_constants s))
         (RslMessageStartingPhase2 (max_ballot_i_sent_1a s) log_truncation_point) sent_packets
  else s_ = s /\ sent_packets = [].

Definition LProposerNominateNewValueAndSend2a (s s_ : LProposer) (clock : Z)
    (log_truncation_point : OperationNumber) (sent_packets : list RslPacket) : Prop :=
  let p := params_of (pr_constants s) in
  let batchSize :=
    if decide (seq_len (request_queue s) <= max_batch_size p \/ max_batch_size p < 0)
    then seq_len (request_queue s) else max_batch_size p in
  let v := seq_subrange (request_queue s) 0 batchSize in
  let opn := next_operation_number_to_propose s in
  s_ = {| pr_constants := pr_constants s;
          current_state := current_state s;
          request_queue := seq_subrange (request_queue s) batchSize (seq_len (request_queue s));
          max_ballot_i_sent_1a := max_ballot_i_sent_1a s;
          next_operation_number_to_propose := next_operation_number_to_propose s + 1;
          received_1b_packets := received_1b_packets s;
          highest_seqno_requested_by_client_this_view :=
            highest_seqno_requested_by_client_this_view s;
          incomplete_batch_timer :=
            if decide (seq_len (request_queue s) > batchSize)
            then IncompleteBatchTimerOn
                   (UpperBoundedAddition clock (max_batch_delay p) (max_integer_val p))
            else IncompleteBatchTimerOff;
          election_state := election_state s |}
  /\ LBroadcastToEveryone (config (all (pr_constants s))) (my_index (pr_constants s))
       (RslMessage2a (max_ballot_i_sent_1a s) opn v) sent_packets.

(** [votes[opn]] of a 1b message without a vote for [opn] is the map's default
    value; the callers' guards exclude it. *)
Definition LProposerNominateOldValueAndSend2a (s s_ : LProposer)
    (log_truncation_point : OperationNumber) (sent_packets : list RslPacket) : Prop :=
  let opn := next_operation_number_to_propose s in
  exists p, p ∈ received_1b_packets s
    /\ LValIsHighestNumberedProposal (max_val (msg_votes (msg p) !!! opn))
         (received_1b_packets s) opn
    /\ s_ = {| pr_constants := pr_constants s;
               current_state := current_state s;
               request_queue := request_queue s;
               max_ballot_i_sent_1a := max_ballot_i_sent_1a s;
               next_operation_number_to_propose := next_operation_number_to_propose s + 1;
               received_1b_packets := received_1b_packets s;
               highest_seqno_requested_by_client_this_view :=
                 highest_seqno_requested_by_client_this_view s;
               incomplete_batch_timer := incomplete_batch_timer s;
               election_state := election_state s |}
    /\ LBroadcastToEveryone (config (all (pr_constants s))) (my_index (pr_constants s))
         (RslMessage2a (max_ballot_i_sent_1a s) opn (max_val (msg_votes (msg p) !!! opn)))
         sent_packets.

Definition LProposerMaybeNominateValueAndSend2a (s s_ : LProposer) (clock : Z)
    (log_truncation_point : Z) (sent_packets : list RslPacket) : Prop :=
  let p := params_of (pr_constants s) in
  let opn := next_operation_number_to_propose s in
  if decide (~ LProposerCanNominateUsingOperationNumber s log_truncation_point opn) then
    s_ = s /\ sent_packets = []
  else if decide (~ LAllAcceptorsHadNoProposal (received_1b_packets s) opn) then
    LProposerNominateOldValueAndSend2a s s_ log_truncation_point sent_packets
  else if decide (LExistsAcceptorHasProposalLargeThanOpn (received_1b_packets s) opn
                  \/ seq_len (request_queue s) >= max_batch_size p
                  \/ (seq_len (request_queue s) > 0
                      /\ timer_expired (incomplete_batch_timer s) clock = true)) then
    LProposerNominateNewValueAndSend2a s s_ clock log_truncation_point sent_packets
  else if decide (seq_len (request_queue s) > 0
                  /\ timer_off (incomplete_batch_timer s) = true) then
    s_ = {| pr_constants := pr_constants s;
            current_state := current_state s;
            request_queue := request_queue s;
            max_ballot_i_sent_1a := max_ballot_i_sent_1a s;
            next_operation_number_to_propose := next_operation_number_to_propose s;
            received_1b_packets := received_1b_packets s;
            highest_seqno_requested_by_client_this_view :=
              highest_seqno_requested_by_client_this_view s;
            incomplete_batch_timer :=
              IncompleteBatchTimerOn
                (UpperBoundedAddition clock (max_batch_delay p) (max_integer_val p));
            election_state := election_state s |}
    /\ sent_packets = []
  else s_ = s /\ sent_packets = [].

(** [s_] is [s] with its role, queue and election state taken from [s_]. *)
Definition same_but_role (s s_ : LProposer) : Prop :=
  s_ = {| pr_constants := pr_constants s;
          current_state := current_state s_;
          request_queue := request_queue s_;
          max_ballot_i_sent_1a := max_ballot_i_sent_1a s;
          next_operation_number_to_propose := next_operation_number_to_propose s;
          received_1b_packets := received_1b_packets s;
          highest_seqno_requested_by_client_this_view :=
            highest_seqno_requested_by_client_this_view s;
          incomplete_batch_timer := incomplete_batch_timer s;
          election_state := election_state s_ |}.

(** A view change demotes the proposer and drops its queue. *)
Definition demoted_by_new_view (s s_ : LProposer) : Prop :=
  if decide (BalLt (current_view (election_state s)) (current_view (election_state s_)))
  then current_state s_ = 0 /\ request_queue s_ = []
  else current_state s_ = current_state s /\ request_queue s_ = request_queue s.

Definition LProposerProcessHeartbeat (s s_ : LProposer) (p : RslPacket) (clock : Z) : Prop :=
  ElectionStateProcessHeartbeat (election_state s) (election_state s_) p clock
  /\ demoted_by_new_view s s_
  /\ same_but_role s s_.

Definition with_election_state (s : LProposer) (es : ElectionState) : LProposer :=
  {| pr_constants := pr_constants s;
     current_state := current_state s;
     request_queue := request_queue s;
     max_ballot_i_sent_1a := max_ballot_i_sent_1a s;
     next_operation_number_to_propose := next_operation_number_to_propose s;
     received_1b_packets := received_1b_packets s;
     highest_seqno_requested_by_client_this_view :=
       highest_seqno_requested_by_client_this_view s;
     incomplete_batch_timer := incomplete_batch_timer s;
     election_state := es |}.

Definition LProposerCheckForViewTimeout (s s_ : LProposer) (clock : Z) : Prop :=
  ElectionStateCheckForViewTimeout (election_state s) (election_state s_) clock
  /\ s_ = with_election_state s (election_state s_).

Definition LProposerCheckForQuorumOfViewSuspicions (s s_ : LProposer) (clock : Z) : Prop :=
  ElectionStateCheckForQuorumOfViewSuspicions (election_state s) (election_state s_) clock
  /\ demoted_by_new_view s s_
  /\ same_but_role s s_.

Definition LProposerResetViewTimerDueToExecution (s s_ : LProposer) (val : RequestBatch) : Prop :=
  ElectionStateReflectExecutedRequestBatch (election_state s) (election_state s_) val
  /\ s_ = with_election_state s (election_state s_).

(** ** Executable level *)

#[export] Instance CIncompleteBatchTimer_valid : Valid IncompleteBatchTimer := fun t =>
  match t with IncompleteBatchTimerOn w => is_u64 w | IncompleteBatchTimerOff => True end.

Record CProposer := MkCProposer
  { cp_constants : CReplicaConstants;
    c_current_state : Z;
    c_request_queue : list Request;
    c_max_ballot_i_sent_1a : Ballot;
    c_next_operation_number_to_propose : Z;
    c_received_1b_packets : gset RslPacket;
    c_highest_seqno_requested_by_client_this_view : gmap AbstractEndPoint Z;
    c_incomplete_batch_timer : IncompleteBatchTimer;
    c_election_state : CElectionState;
    max_log_truncation_point : Z;
    max_opn_with_proposal : Z }.

#[export] Instance CProposer_view : View CProposer LProposer := fun s =>
  {| pr_constants := view (cp_constants s);
     current_state := c_current_state s;
     request_queue := c_request_queue s;
     max_ballot_i_sent_1a := c_max_ballot_i_sent_1a s;
     next_operation_number_to_propose := c_next_operation_number_to_propose s;
     received_1b_packets := c_received_1b_packets s;
     highest_seqno_requested_by_client_this_view :=
       c_highest_seqno_requested_by_client_this_view s;
     incomplete_batch_timer := c_incomplete_batch_timer s;
     election_state := view (c_election_state s) |}.

#[export] Instance CProposer_valid : Valid CProposer := fun s =>
  valid (cp_constants s) /\ valid (c_request_queue s) /\ valid (c_max_ballot_i_sent_1a s)
  /\ (forall p, p ∈ c_received_1b_packets s -> valid p)
  /\ (forall k n, c_highest_seqno_requested_by_client_this_view s !! k = Some n ->
        valid k /\ is_u64 n)
  /\ valid (c_incomplete_batch_timer s) /\ valid (c_election_state s)
  (* the width of the [u64] field *)
  /\ is_u64 (c_next_operation_number_to_propose s).

(** [hashset_to_vec]. *)
Definition hashset_to_vec (S : gset RslPacket) : list RslPacket := elements S.

(** The scans return [false] at the first packet that fails the test. *)
Definition CIsAfterLogTruncationPoint (opn : Z) (S : gset RslPacket) : bool :=
  forallb (fun p => match msg p with
                    | RslMessage1b _ log_truncation_point _ => negb (log_truncation_point >? opn)
                    | _ => true
                    end) (hashset_to_vec S).

Definition CSetOfMessage1b (S : gset RslPacket) : bool :=
  forallb (fun p => match msg p with RslMessage1b _ _ _ => true | _ => false end)
    (hashset_to_vec S).

Definition CSetOfMessage1bAboutBallot (S : gset RslPacket) (b : Ballot) : bool :=
  if negb (CSetOfMessage1b S) then false
  else
    forallb (fun p => match msg p with
                      | RslMessage1b bal_1b _ _ =>
                          negb (negb (bal_seqno bal_1b =? bal_seqno b)
                                || negb (bal_proposer_id bal_1b =? bal_proposer_id b))
                      | _ => true
                      end) (hashset_to_vec S).

Definition CAllAcceptorsHadNoProposal (S : gset RslPacket) (opn : Z) : bool :=
  forallb (fun p => match msg p with
                    | RslMessage1b _ _ votes => negb (bool_decide (is_Some (votes !! opn)))
                    | _ => true
                    end) (hashset_to_vec S).

Definition CExistVotesHasProposalLargeThanOpn_inner (votes : gmap Z Vote) (op : Z) : bool :=
  existsb (fun k => k >? op) (hashmap_keys_to_vec votes).

Definition CExistVotesHasProposalLargeThanOpn (p : RslPacket) (op : Z) : bool :=
  match msg p with
  | RslMessage1b _ _ votes => CExistVotesHasProposalLargeThanOpn_inner votes op
  | _ => false
  end.

Definition CExistsAcceptorHasProposalLargeThanOpn (S : gset RslPacket) (op : Z) : bool :=
  existsb (fun p => match msg p with
                    | RslMessage1b _ _ _ => CExistVotesHasProposalLargeThanOpn p op
                    | _ => false
                    end) (hashset_to_vec S).

Definition CProposerCanNominateUsingOperationNumber (s : CProposer)
    (log_truncation_point opn : Z) : bool :=
  let p := c_params_of (cp_constants s) in
  CBalEq (c_current_view (c_election_state s)) (c_max_ballot_i_sent_1a s)
  && (c_current_state s =? 2)
  && (Z.of_nat (size (c_received_1b_packets s))
        >=? CMinQuorumSize (c_config (c_all (cp_constants s))))
  && CSetOfMessage1bAboutBallot (c_received_1b_packets s) (c_max_ballot_i_sent_1a s)
  && CIsAfterLogTruncationPoint opn (c_received_1b_packets s)
  && (opn <? CUpperBoundedAddition log_truncation_point (c_max_log_length p)
               (c_max_integer_val p))
  && (opn <? c_max_integer_val p).

Definition CProposerInit (c : CReplicaConstants) : CProposer :=
  {| cp_constants := c;
     c_current_state := 0;
     c_request_queue := [];
     c_max_ballot_i_sent_1a := MkBallot 0 (c_my_index c);
     c_next_operation_number_to_propose := 0;
     c_received_1b_packets := ∅;
     c_highest_seqno_requested_by_client_this_view := ∅;
     c_incomplete_batch_timer := IncompleteBatchTimerOff;
     c_election_state := CElectionStateInit c;
     max_log_truncation_point := 0;
     max_opn_with_proposal := 0 |}.

(** [self.election_state = es]. *)
Definition c_with_election_state (s : CProposer) (es : CElectionState) : CProposer :=
  {| cp_constants := cp_constants s;
     c_current_state := c_current_state s;
     c_request_queue := c_request_queue s;
     c_max_ballot_i_sent_1a := c_max_ballot_i_sent_1a s;
     c_next_operation_number_to_propose := c_next_operation_number_to_propose s;
     c_received_1b_packets := c_received_1b_packets s;
     c_highest_seqno_requested_by_client_this_view :=
       c_highest_seqno_requested_by_client_this_view s;
     c_incomplete_batch_timer := c_incomplete_batch_timer s;
     c_election_state := es;
     max_log_truncation_point := max_log_truncation_point s;
     max_opn_with_proposal := max_opn_with_proposal s |}.

Definition CProposerProcessRequest (s : CProposer) (packet : RslPacket) : CProposer :=
  match msg packet with
  | RslMessageRequest seqno_req v =>
      let val := MkRequest (src packet) seqno_req v in
      let es := CElectionStateReflectReceivedRequest (c_election_state s) val in
      let should_enqueue :=
        if negb (c_current_state s =? 0) then
          match c_highest_seqno_requested_by_client_this_view s !! req_client val with
          | None => true
          | Some cached_seqno => req_seqno val >? cached_seqno
          end
        else false in
      if should_enqueue then
        {| cp_constants := cp_constants s;
           c_current_state := c_current_state s;
           c_request_queue := c_request_queue s ++ [val];
           c_max_ballot_i_sent_1a := c_max_ballot_i_sent_1a s;
           c_next_operation_number_to_propose := c_next_operation_number_to_propose s;
           c_received_1b_packets := c_received_1b_packets s;
           c_highest_seqno_requested_by_client_this_view :=
             <[req_client val := req_seqno val]>
               (c_highest_seqno_requested_by_client_this_view s);
           c_incomplete_batch_timer := c_incomplete_batch_timer s;
           c_election_state := es;
           max_log_truncation_point := max_log_truncation_point s;
           max_opn_with_proposal := max_opn_with_proposal s |}
      else c_with_election_state s es
  | _ => s (* unreachable_value() *)
  end.

Definition CProposerNominateNewValueAndSend2a (s : CProposer) (clock log_truncation_point : Z)
  : CProposer * list RslPacket :=
  let p := c_params_of (cp_constants s) in
  let queue_len := seq_len (c_request_queue s) in
  let max_batch := c_max_batch_size p in
  let batch_size := if queue_len <=? max_batch then queue_len else max_batch in
  let v := seq_subrange (c_request_queue s) 0 batch_size in
  let new_queue := seq_subrange (c_request_queue s) batch_size queue_len in
  let opn := c_next_operation_number_to_propose s in
  let timer :=
    if queue_len >? batch_size
    then IncompleteBatchTimerOn
           (CUpperBoundedAddition clock (c_max_batch_delay p) (c_max_integer_val p))
    else IncompleteBatchTimerOff in
  let m := RslMessage2a (c_max_ballot_i_sent_1a s) opn v in
  let sent_packets :=
    CBroadcastToEveryone (c_config (c_all (cp_constants s))) (c_my_index (cp_constants s)) m in
  ({| cp_constants := cp_constants s;
      c_current_state := c_current_state s;
      c_request_queue := new_queue;
      c_max_ballot_i_sent_1a := c_max_ballot_i_sent_1a s;
      c_next_operation_number_to_propose := u64_add opn 1;
      c_received_1b_packets := c_received_1b_packets s;
      c_highest_seqno_requested_by_client_this_view :=
        c_highest_seqno_requested_by_client_this_view s;
      c_incomplete_batch_timer := timer;
      c_election_state := c_election_state s;
      max_log_truncation_point := 0;
      max_opn_with_proposal := 0 |}, sent_packets).

(** The scan for the vote with the highest ballot: [(best_val, best_bal)],
    replaced only by a strictly higher ballot. *)
Definition best_vote_step (opn : Z) (best : option (list Request * Ballot)) (p : RslPacket)
  : option (list Request * Ballot) :=
  match msg p with
  | RslMessage1b _ _ votes =>
      match votes !! opn with
      | Some vote =>
          let is_better :=
            match best with
            | None => true
            | Some (_, bb) => CBalLt bb (max_value_bal vote)
            end in
          if is_better then Some (max_val vote, max_value_bal vote) else best
      | None => best
      end
  | _ => best
  end.

Definition best_vote (opn : Z) (packets : list RslPacket) : option (list Request * Ballot) :=
  foldl (best_vote_step opn) None packets.

Definition CProposerNominateOldValueAndSend2a (s : CProposer) (log_truncation_point : Z)
  : CProposer * list RslPacket :=
  let opn := c_next_operation_number_to_propose s in
  let packets := hashset_to_vec (c_received_1b_packets s) in
  match best_vote opn packets with
  | None => (s, []) (* [best_val.unwrap()] panics: excluded by the caller's guard *)
  | Some (val, _) =>
      let m := RslMessage2a (c_max_ballot_i_sent_1a s) opn val in
      let sent_packets :=
        CBroadcastToEveryone (c_config (c_all (cp_constants s))) (c_my_index (cp_constants s)) m in
      ({| cp_constants := cp_constants s;
          c_current_state := c_current_state s;
          c_request_queue := c_request_queue s;
          c_max_ballot_i_sent_1a := c_max_ballot_i_sent_1a s;
          c_next_operation_number_to_propose := u64_add opn 1;
          c_received_1b_packets := c_received_1b_packets s;
          c_highest_seqno_requested_by_client_this_view :=
            c_highest_seqno_requested_by_client_this_view s;
          c_incomplete_batch_timer := c_incomplete_batch_timer s;
          c_election_state := c_election_state s;
          max_log_truncation_point := 0;
          max_opn_with_proposal := 0 |}, sent_packets)
  end.

Definition CProposerMaybeNominateValueAndSend2a (s : CProposer) (clock log_truncation_point : Z)
  : CProposer * list RslPacket :=
  let p := c_params_of (cp_constants s) in
  let opn := c_next_operation_number_to_propose s in
  if negb (CProposerCanNominateUsingOperationNumber s log_truncation_point opn) then (s, [])
  else if negb (CAllAcceptorsHadNoProposal (c_received_1b_packets s) opn) then
    CProposerNominateOldValueAndSend2a s log_truncation_point
  else
    let has_proposal_larger :=
      CExistsAcceptorHasProposalLargeThanOpn (c_received_1b_packets s) opn in
    let queue_len := seq_len (c_request_queue s) in
    let max_batch := c_max_batch_size p in
    let timer_on_and_expired := timer_expired (c_incomplete_batch_timer s) clock in
    if has_proposal_larger || (queue_len >=? max_batch)
       || ((queue_len >? 0) && timer_on_and_expired) then
      CProposerNominateNewValueAndSend2a s clock log_truncation_point
    else if (queue_len >? 0) && timer_off (c_incomplete_batch_timer s) then
      ({| cp_constants := cp_constants s;
          c_current_state := c_current_state s;
          c_request_queue := c_request_queue s;
          c_max_ballot_i_sent_1a := c_max_ballot_i_sent_1a s;
          c_next_operation_number_to_propose := c_next_operation_number_to_propose s;
          c_received_1b_packets := c_received_1b_packets s;
          c_highest_seqno_requested_by_client_this_view :=
            c_highest_seqno_requested_by_client_this_view s;
          c_incomplete_batch_timer :=
            IncompleteBatchTimerOn
              (CUpperBoundedAddition clock (c_max_batch_delay p) (c_max_integer_val p));
          c_election_state := c_election_state s;
          max_log_truncation_point := max_log_truncation_point s;
          max_opn_with_proposal := max_opn_with_proposal s |}, [])
    else (s, []).

Definition CProposerMaybeEnterNewViewAndSend1a (s : CProposer) : CProposer * list RslPacket :=
  let es := c_election_state s in
  let cond1 := bal_proposer_id (c_current_view es) =? c_my_index (cp_constants s) in
  let cond2 := CBalLt (c_max_ballot_i_sent_1a s) (c_current_view es) in
  if cond1 && cond2 then
    let sent_packets :=
      CBroadcastToEveryone (c_config (c_all (cp_constants s))) (c_my_index (cp_constants s))
        (RslMessage1a (c_current_view es)) in
    ({| cp_constants := cp_constants s;
        c_current_state := 1;
        c_request_queue :=
          c_requests_received_prev_epochs es ++ c_requests_received_this_epoch es;
        c_max_ballot_i_sent_1a := c_current_view es;
        c_next_operation_number_to_propose := c_next_operation_number_to_propose s;
        c_received_1b_packets := ∅;
        c_highest_seqno_requested_by_client_this_view := ∅;
        c_incomplete_batch_timer := c_incomplete_batch_timer s;
        c_election_state := es;
        max_log_truncation_point := 0;
        max_opn_with_proposal := 0 |}, sent_packets)
  else (s, []).

Definition CProposerProcess1b (s : CProposer) (p : RslPacket) : CProposer :=
  {| cp_constants := cp_constants s;
     c_current_state := c_current_state s;
     c_request_queue := c_request_queue s;
     c_max_ballot_i_sent_1a := c_max_ballot_i_sent_1a s;
     c_next_operation_number_to_propose := c_next_operation_number_to_propose s;
     c_received_1b_packets := c_received_1b_packets s ∪ {[p]};
     c_highest_seqno_requested_by_client_this_view :=
       c_highest_seqno_requested_by_client_this_view s;
     c_incomplete_batch_timer := c_incomplete_batch_timer s;
     c_election_state := c_election_state s;
     max_log_truncation_point := max_log_truncation_point s;
     max_opn_with_proposal := max_opn_with_proposal s |}.

Definition CProposerMaybeEnterPhase2 (s : CProposer) (log_truncation_point : Z)
  : CProposer * list RslPacket :=
  let cond1 := Z.of_nat (size (c_received_1b_packets s))
               >=? CMinQuorumSize (c_config (c_all (cp_constants s))) in
  let cond2 := CSetOfMessage1bAboutBallot (c_received_1b_packets s) (c_max_ballot_i_sent_1a s) in
  let cond3 := c_current_state s =? 1 in
  if cond1 && cond2 && cond3 then
    let sent_packets :=
      CBroadcastToEveryone (c_config (c_all (cp_constants s))) (c_my_index (cp_constants s))
        (RslMessageStartingPhase2 (c_max_ballot_i_sent_1a s) log_truncation_point) in
    ({| cp_constants := cp_constants s;
        c_current_state := 2;
        c_request_queue := c_request_queue s;
        c_max_ballot_i_sent_1a := c_max_ballot_i_sent_1a s;
        c_next_operation_number_to_propose := log_truncation_point;
        c_received_1b_packets := c_received_1b_packets s;
        c_highest_seqno_requested_by_client_this_view :=
          c_highest_seqno_requested_by_client_this_view s;
        c_incomplete_batch_timer := c_incomplete_batch_timer s;
        c_election_state := c_election_state s;
        max_log_truncation_point := 0;
        max_opn_with_proposal := 0 |}, sent_packets)
  else (s, []).

(** [self.election_state = es; if CBalLt(&old_view, &self.election_state.current_view)
    { self.current_state = 0; self.request_queue.clear() }]. *)
Definition c_demote_on_new_view (s : CProposer) (es : CElectionState) : CProposer :=
  let old_view := c_current_view (c_election_state s) in
  if CBalLt old_view (c_current_view es) then
    {| cp_constants := cp_constants s;
       c_current_state := 0;
       c_request_queue := [];
       c_max_ballot_i_sent_1a := c_max_ballot_i_sent_1a s;
       c_next_operation_number_to_propose := c_next_operation_number_to_propose s;
       c_received_1b_packets := c_received_1b_packets s;
       c_highest_seqno_requested_by_client_this_view :=
         c_highest_seqno_requested_by_client_this_view s;
       c_incomplete_batch_timer := c_incomplete_batch_timer s;
       c_election_state := es;
       max_log_truncation_point := max_log_truncation_point s;
       max_opn_with_proposal := max_opn_with_proposal s |}
  else c_with_election_state s es.

Definition CProposerProcessHeartbeat (s : CProposer) (p : RslPacket) (clock : Z) : CProposer :=
  c_demote_on_new_view s (CElectionStateProcessHeartbeat (c_election_state s) p clock).

Definition CProposerCheckForViewTimeout (s : CProposer) (clock : Z) : CProposer :=
  c_with_election_state s (CElectionStateCheckForViewTimeout (c_election_state s) clock).

Definition CProposerCheckForQuorumOfViewSuspicions (s : CProposer) (clock : Z) : CProposer :=
  c_demote_on_new_view s
    (CElectionStateCheckForQuorumOfViewSuspicions (c_election_state s) clock).

Definition CProposerResetViewTimerDueToExecution (s : CProposer) (val : list Request) : CProposer :=
  c_with_election_state s
    (CElectionStateReflectExecutedRequestBatch (c_election_state s) val).

(** ** The scans decide the protocol's predicates *)

Section proposer_scans.
Implicit Types (S : gset RslPacket) (p : RslPacket) (opn : Z).

Lemma hashset_to_vec_elem S p : p ∈ hashset_to_vec S <-> p ∈ S.
Proof. apply elem_of_elements. Qed.

Lemma forallb_hashset f S : forallb f (hashset_to_vec S) = true <-> set_Forall (fun p => f p = true) S.
Proof.
  rewrite forallb_forall. split; intros H p Hp; apply H;
    [by apply list_elem_of_In, hashset_to_vec_elem|by apply hashset_to_vec_elem, list_elem_of_In].
Qed.

Lemma existsb_hashset f S : existsb f (hashset_to_vec S) = true <-> set_Exists (fun p => f p = true) S.
Proof.
  rewrite existsb_exists. split; intros (p & Hp & H); exists p; (split; [|done]);
    [by apply hashset_to_vec_elem, list_elem_of_In|by apply list_elem_of_In, hashset_to_vec_elem].
Qed.

Lemma msg_votes_not_1b p opn v : msg_votes (msg p) !! opn = Some v -> is_1b (msg p) = true.
Proof. destruct (msg p); simpl; try done; by rewrite lookup_empty. Qed.

Lemma CIsAfterLogTruncationPoint_spec opn S :
  CIsAfterLogTruncationPoint opn S = bool_decide (LIsAfterLogTruncationPoint opn S).
Proof.
  apply eq_true_iff_eq. unfold CIsAfterLogTruncationPoint, LIsAfterLogTruncationPoint.
  rewrite bool_decide_eq_true, forallb_hashset.
  split; intros H p Hp; specialize (H p Hp); simpl in *; destruct (msg p); simpl in *;
    try done; [intros _; lia|specialize (H eq_refl); lia].
Qed.

Lemma CSetOfMessage1b_spec S : CSetOfMessage1b S = bool_decide (LSetOfMessage1b S).
Proof.
  apply eq_true_iff_eq. unfold CSetOfMessage1b. by rewrite bool_decide_eq_true, forallb_hashset.
Qed.

Lemma CSetOfMessage1bAboutBallot_spec S b :
  CSetOfMessage1bAboutBallot S b = bool_decide (LSetOfMessage1bAboutBallot S b).
Proof.
  apply eq_true_iff_eq. unfold CSetOfMessage1bAboutBallot, LSetOfMessage1bAboutBallot.
  rewrite CSetOfMessage1b_spec, bool_decide_eq_true.
  case_bool_decide as H1; simpl; [|split; [done|tauto]]. rewrite forallb_hashset.
  assert (forall bal : Ballot, negb (negb (bal_seqno bal =? bal_seqno b)
            || negb (bal_proposer_id bal =? bal_proposer_id b)) = true <-> bal = b) as Hb.
  { intros bal. rewrite <-negb_andb, negb_involutive.
    change (CBalEq bal b = true <-> bal = b). by rewrite CBalEq_spec, bool_decide_eq_true. }
  split; [intros H; split; [done|]|intros [_ H]]; intros p Hp; specialize (H p Hp);
    specialize (H1 p Hp); simpl in *; destruct (msg p); simpl in *; try done; by apply Hb.
Qed.

Lemma CAllAcceptorsHadNoProposal_spec S opn :
  CAllAcceptorsHadNoProposal S opn = bool_decide (LAllAcceptorsHadNoProposal S opn).
Proof.
  apply eq_true_iff_eq. unfold CAllAcceptorsHadNoProposal, LAllAcceptorsHadNoProposal.
  rewrite bool_decide_eq_true, forallb_hashset.
  split; intros H p Hp; specialize (H p Hp); simpl in *; destruct (msg p); simpl in *;
    try done; try (by rewrite lookup_empty).
  - apply negb_true_iff, bool_decide_eq_false in H. by apply eq_None_not_Some.
  - apply negb_true_iff, bool_decide_eq_false. by apply eq_None_not_Some.
Qed.

Lemma CExistVotes_inner_spec (votes : Votes) op :
  CExistVotesHasProposalLargeThanOpn_inner votes op = true
  <-> map_Exists (fun opn (_ : Vote) => opn > op) votes.
Proof.
  unfold CExistVotesHasProposalLargeThanOpn_inner. rewrite existsb_exists. split.
  - intros (k & Hk%list_elem_of_In%hashmap_keys_to_vec_elem & Hgt).
    destruct Hk as [v Hv]. exists k, v. split; [done|lia].
  - intros (k & v & Hv & Hgt). exists k. split; [|lia].
    apply list_elem_of_In, hashmap_keys_to_vec_elem. by exists v.
Qed.

Lemma CExistsAcceptorHasProposalLargeThanOpn_spec S op :
  CExistsAcceptorHasProposalLargeThanOpn S op
  = bool_decide (LExistsAcceptorHasProposalLargeThanOpn S op).
Proof.
  apply eq_true_iff_eq.
  unfold CExistsAcceptorHasProposalLargeThanOpn, LExistsAcceptorHasProposalLargeThanOpn.
  rewrite bool_decide_eq_true, existsb_hashset.
  split; intros (p & Hp & H); exists p; (split; [done|]);
    unfold LExistVotesHasProposalLargeThanOpn, CExistVotesHasProposalLargeThanOpn in *;
    destruct (msg p); simpl in *; try done; try (by apply CExistVotes_inner_spec);
    by destruct H as (? & ? & ? & _).
Qed.

Lemma CProposerCanNominate_spec (s : CProposer) ltp opn :
  valid s -> is_u64 ltp -> is_u64 opn ->
  CProposerCanNominateUsingOperationNumber s ltp opn
  = bool_decide (LProposerCanNominateUsingOperationNumber (view s) ltp opn).
Proof.
  intros (Hc & _) Hltp Hopn. apply eq_true_iff_eq.
  pose proof Hc as [_ (_ & Hp & _)]. destruct Hp as ([? ?] & _ & ? & _).
  unfold CProposerCanNominateUsingOperationNumber, LProposerCanNominateUsingOperationNumber.
  rewrite CBalEq_spec, CSetOfMessage1bAboutBallot_spec, CIsAfterLogTruncationPoint_spec.
  rewrite (proj1 (CUpperBoundedAddition_refines ltp (c_max_log_length (c_params_of (cp_constants s)))
    (c_max_integer_val (c_params_of (cp_constants s))) Hltp
    ltac:(unfold is_u64, U64_MODULUS; lia) ltac:(unfold is_u64, U64_MODULUS; lia))).
  rewrite !andb_true_iff, !bool_decide_eq_true. rewrite CMinQuorumSize_view.
  unfold is_u64 in Hopn. cbn -[LMinQuorumSize UpperBoundedAddition].
  split; intros; ands.
Qed.

(** The scan of [CProposerNominateOldValueAndSend2a], for every order of the
    packets: no vote was found, or the value found is a highest-numbered
    proposal. *)
Lemma best_vote_spec opn (ps : list RslPacket) :
  match best_vote opn ps with
  | None => forall p, p ∈ ps -> msg_votes (msg p) !! opn = None
  | Some (v, b) =>
      (exists p, p ∈ ps /\ msg_votes (msg p) !! opn = Some (MkVote b v))
      /\ (forall p w, p ∈ ps -> msg_votes (msg p) !! opn = Some w -> BalLeq (max_value_bal w) b)
  end.
Proof.
  unfold best_vote. induction ps as [|q ps IH] using rev_ind; [by intros p ?%not_elem_of_nil|].
  rewrite foldl_app. cbn [foldl].
  assert (best_vote_step opn (foldl (best_vote_step opn) None ps) q
    = match msg_votes (msg q) !! opn with
      | Some vote =>
          if match foldl (best_vote_step opn) None ps with
             | None => true | Some (_, bb) => CBalLt bb (max_value_bal vote) end
          then Some (max_val vote, max_value_bal vote) else foldl (best_vote_step opn) None ps
      | None => foldl (best_vote_step opn) None ps
      end) as ->.
  { unfold best_vote_step at 1. destruct (msg q); simpl; by rewrite ?lookup_empty. }
  destruct (msg_votes (msg q) !! opn) as [[wb wv]|] eqn:Hq;
    destruct (foldl (best_vote_step opn) None ps) as [[v b]|]; cbn [max_val max_value_bal].
  - destruct IH as ((p & Hp & Hv) & Hmax). rewrite CBalLt_spec.
    case_bool_decide as Hlt; (split; [|intros p' w [Hin|Hin]%elem_of_app Hw]).
    + exists q. set_solver.
    + eapply BalLeq_trans; [by eapply Hmax|by apply BalLt_BalLeq].
    + apply list_elem_of_singleton in Hin as ->. simplify_eq. apply BalLeq_refl.
    + exists p. set_solver.
    + by eapply Hmax.
    + apply list_elem_of_singleton in Hin as ->. simplify_eq. by apply not_BalLt.
  - split; [exists q; set_solver|]. intros p' w [Hin|Hin]%elem_of_app Hw.
    + by rewrite IH in Hw.
    + apply list_elem_of_singleton in Hin as ->. simplify_eq. apply BalLeq_refl.
  - destruct IH as ((p & Hp & Hv) & Hmax). split; [exists p; set_solver|].
    intros p' w [Hin|Hin]%elem_of_app Hw; [by eapply Hmax|].
    apply list_elem_of_singleton in Hin as ->. congruence.
  - intros p [Hin|Hin]%elem_of_app; [by apply IH|].
    by apply list_elem_of_singleton in Hin as ->.
Qed.
End proposer_scans.

(** ** Refinement *)

Definition proposer_ok (s : CProposer) : Prop := valid s /\ election_sync (c_election_state s).

Section proposer_refinement.
Implicit Types (s : CProposer) (p : RslPacket).

Lemma proposer_ok_election s : proposer_ok s -> election_ok (c_election_state s).
Proof. intros [(_ & _ & _ & _ & _ & _ & He & _) Hs]. by split. Qed.

Lemma proposer_params s :
  valid s ->
  let p := c_params_of (cp_constants s) in
  is_u64 (c_max_batch_delay p) /\ is_u64 (c_max_integer_val p)
  /\ 0 < c_max_integer_val p < 0x8000_0000_0000_0000 /\ 0 < c_max_batch_size p
  /\ valid (c_config (c_all (cp_constants s)))
  /\ 0 <= c_my_index (cp_constants s) < seq_len (c_ids_of (cp_constants s))
  /\ seq_len (c_ids_of (cp_constants s)) < 0xFFFF_FFFF_FFFF_FFFF.
Proof.
  intros ([Hi (Hcfg & Hp & _)] & _). pose proof Hcfg as (_ & _ & Hlen).
  destruct Hp as ([] & ? & ? & ? & ? & ? & ? & ? & ?).
  unfold is_u64, U64_MODULUS, ReplicaIndexValid in *. simpl. split_and!; try done; lia.
Qed.

(** Installing a new election state keeps the proposer valid. *)
Lemma c_with_election_state_ok s es :
  proposer_ok s -> election_ok es -> proposer_ok (c_with_election_state s es).
Proof. intros [(? & ? & ? & ? & ? & ? & ? & ?) _] [? ?]. split; [by split_all|done]. Qed.

Lemma c_demote_ok s es :
  proposer_ok s -> election_ok es -> proposer_ok (c_demote_on_new_view s es).
Proof.
  intros Hs Hes. unfold c_demote_on_new_view. destruct (CBalLt _ _).
  - destruct Hs as [(? & ? & ? & ? & ? & ? & ? & ?) _], Hes as [? ?].
    split; [|done]. split_all; simpl; try done. by apply Forall_nil.
  - by apply c_with_election_state_ok.
Qed.

Lemma c_demote_view s es :
  demoted_by_new_view (view s) (view (c_demote_on_new_view s es))
  /\ same_but_role (view s) (view (c_demote_on_new_view s es))
  /\ election_state (view (c_demote_on_new_view s es)) = view es.
Proof.
  unfold demoted_by_new_view, same_but_role, c_demote_on_new_view.
  rewrite CBalLt_spec. case_bool_decide as Hlt; simpl;
    [rewrite decide_True by done|rewrite decide_False by done]; done.
Qed.

Lemma requests_valid_subrange (v : list Request) i j : valid v -> valid (seq_subrange v i j).
Proof. intros Hv. by apply Forall_take, Forall_drop. Qed.

Lemma CProposerInit_refines (c : CReplicaConstants) :
  valid c -> proposer_ok (CProposerInit c) /\ LProposerInit (view (CProposerInit c)) (view c).
Proof.
  intros Hc. destruct (CElectionStateInit_refines c Hc) as [[He1 He2] Hinit].
  pose proof Hc as [Hi (Hcfg & _)]. pose proof Hcfg as (_ & _ & Hlen).
  unfold ReplicaIndexValid in Hi. split; [split; [|done]|].
  - split_all; simpl; try done; [by apply Forall_nil|]. split; simpl; [done|lia].
  - split_all; simpl; try done; apply Hinit.
Qed.

Lemma CProposerProcessRequest_refines s p seqno v :
  proposer_ok s -> valid p -> msg p = RslMessageRequest seqno v ->
  proposer_ok (CProposerProcessRequest s p)
  /\ LProposerProcessRequest (view s) (view (CProposerProcessRequest s p)) p.
Proof.
  intros Hs (_ & Hsrc & Hm) Hmsg. rewrite Hmsg in Hm. destruct Hm as [Hseq Hv].
  set (val := MkRequest (src p) seqno v).
  assert (CRequest_valid val) as Hval by by split_all.
  destruct (CElectionStateReflectReceivedRequest_refines (c_election_state s) val)
    as [Hes Hrel]; [by apply proposer_ok_election|done|].
  unfold CProposerProcessRequest, LProposerProcessRequest. rewrite Hmsg.
  cbn [msg_seqno_req msg_val]. fold val.
  set (es := CElectionStateReflectReceivedRequest (c_election_state s) val) in *.
  set (enq := if negb (c_current_state s =? 0) then _ else false).
  assert (enq = bool_decide (request_is_new (view s) val)) as ->.
  { apply eq_true_iff_eq. rewrite bool_decide_eq_true. unfold enq, request_is_new. simpl.
    destruct (c_current_state s =? 0) eqn:H0; simpl; [split; [done|lia]|].
    destruct (c_highest_seqno_requested_by_client_this_view s !! src p); [lia|].
    split; [intros _; split; [lia|done]|done]. }
  destruct (decide (request_is_new (view s) val)) as [Hnew|Hnew].
  - rewrite bool_decide_true by done.
    destruct Hs as [(? & Hq & ? & ? & Hmap & ? & ? & ?) _], Hes as [? ?].
    split; [split; [|done]|].
    + split_all; simpl; try done.
      * apply Forall_app; split; [done|by apply Forall_singleton].
      * intros k n. rewrite lookup_insert_Some. intros [[<- <-]|[_ ?]]; [done|by apply Hmap].
    + by split.
  - rewrite bool_decide_false by done. split; [by apply c_with_election_state_ok|].
    by split.
Qed.

Lemma CProposerMaybeEnterNewViewAndSend1a_refines s :
  proposer_ok s ->
  let '(s', ps) := CProposerMaybeEnterNewViewAndSend1a s in
  proposer_ok s' /\ valid ps /\ LProposerMaybeEnterNewViewAndSend1a (view s) (view s') ps.
Proof.
  intros Hs. pose proof Hs as [Hv Hsync].
  pose proof Hv as (? & Hq & ? & ? & Hmap & ? & Hes & ?).
  destruct (proposer_params s Hv) as (_ & _ & _ & _ & Hcfg & Hi & _).
  pose proof Hes as (_ & Hview & Hthis & Hprev & _).
  unfold CProposerMaybeEnterNewViewAndSend1a, LProposerMaybeEnterNewViewAndSend1a.
  rewrite CBalLt_spec. destruct (_ && _) eqn:Hg.
  - rewrite andb_true_iff, bool_decide_eq_true in Hg.
    rewrite decide_True by (simpl; ands). split; [split; [|done]|split].
    + split_all; simpl; try done. by apply Forall_app.
    + by apply CBroadcastToEveryone_valid.
    + split; [done|]. by apply CBroadcastToEveryone_refines.
  - rewrite decide_False; [split_and!; first [done|apply valid_no_packets]|].
    intros [? ?]. apply not_true_iff_false in Hg. apply Hg.
    rewrite andb_true_iff, bool_decide_eq_true. simpl in *. ands.
Qed.

Lemma CProposerProcess1b_refines s p :
  proposer_ok s -> valid p ->
  proposer_ok (CProposerProcess1b s p)
  /\ LProposerProcess1b (view s) (view (CProposerProcess1b s p)) p.
Proof.
  intros [(? & ? & ? & Hrec & ? & ? & ? & ?) ?] Hp. split; [split; [|done]|done].
  split_all; simpl; try done.
  intros q [Hq|Hq%elem_of_singleton]%elem_of_union; [by apply Hrec|by subst].
Qed.

Lemma CProposerMaybeEnterPhase2_refines s ltp :
  proposer_ok s -> is_u64 ltp ->
  let '(s', ps) := CProposerMaybeEnterPhase2 s ltp in
  proposer_ok s' /\ valid ps /\ LProposerMaybeEnterPhase2 (view s) (view s') ltp ps.
Proof.
  intros Hs Hltp. pose proof Hs as [Hv Hsync].
  pose proof Hv as (? & Hq & ? & ? & Hmap & ? & Hes & ?).
  destruct (proposer_params s Hv) as (_ & _ & _ & _ & Hcfg & Hi & _).
  unfold CProposerMaybeEnterPhase2, LProposerMaybeEnterPhase2.
  rewrite CSetOfMessage1bAboutBallot_spec, CMinQuorumSize_view. destruct (_ && _) eqn:Hg.
  - rewrite !andb_true_iff, bool_decide_eq_true in Hg.
    rewrite decide_True by (simpl; ands). split; [split; [|done]|split].
    + by split_all.
    + apply CBroadcastToEveryone_valid; [done|by split_all|done].
    + split; [done|]. by apply CBroadcastToEveryone_refines.
  - rewrite decide_False; [split_and!; first [done|apply valid_no_packets]|].
    intros (? & ? & ?). apply not_true_iff_false in Hg. apply Hg.
    rewrite !andb_true_iff, bool_decide_eq_true. simpl in *. ands.
Qed.

Lemma CProposerNominateNewValueAndSend2a_refines s clock ltp :
  proposer_ok s -> is_u64 clock ->
  c_next_operation_number_to_propose s < c_max_integer_val (c_params_of (cp_constants s)) ->
  let '(s', ps) := CProposerNominateNewValueAndSend2a s clock ltp in
  proposer_ok s' /\ valid ps /\ LProposerNominateNewValueAndSend2a (view s) (view s') clock ltp ps.
Proof.
  intros Hs Hclock Hlt. pose proof Hs as [Hv Hsync].
  pose proof Hv as (? & Hq & ? & ? & Hmap & ? & Hes & Hnext).
  destruct (proposer_params s Hv) as (Hd & Hm & Hm0 & Hb & Hcfg & Hi & _).
  unfold CProposerNominateNewValueAndSend2a, LProposerNominateNewValueAndSend2a.
  destruct (CUpperBoundedAddition_refines clock (c_max_batch_delay (c_params_of (cp_constants s)))
              (c_max_integer_val (c_params_of (cp_constants s)))) as [-> Hw]; [done..|].
  set (queue_len := seq_len (c_request_queue s)).
  set (bs := if queue_len <=? _ then queue_len else _).
  assert ((if decide (seq_len (request_queue (view s)) <= max_batch_size (params_of (pr_constants (view s)))
                      \/ max_batch_size (params_of (pr_constants (view s))) < 0)
           then seq_len (request_queue (view s))
           else max_batch_size (params_of (pr_constants (view s)))) = bs) as Hbs.
  { subst bs queue_len. simpl. destruct (_ <=? _) eqn:Hle;
      [rewrite decide_True by lia|rewrite decide_False by lia]; done. }
  rewrite Hbs. unfold is_u64 in Hnext.
  split; [split; [|done]|split].
  - split_all; simpl; try done; try (by apply requests_valid_subrange); [|apply u64_add_is_u64].
    by destruct (_ >? _).
  - apply CBroadcastToEveryone_valid; [done| |done].
    split_all; [done|done|by apply requests_valid_subrange].
  - split; [|by apply CBroadcastToEveryone_refines].
    unfold view at 1, CProposer_view. f_equal; simpl.
    + apply u64_add_exact. unfold U64_MODULUS. lia.
    + fold queue_len. destruct (_ >? _) eqn:Hgt;
        [rewrite decide_True by lia|rewrite decide_False by lia]; done.
Qed.

Lemma CProposerNominateOldValueAndSend2a_refines s ltp :
  proposer_ok s ->
  ~ LAllAcceptorsHadNoProposal (c_received_1b_packets s) (c_next_operation_number_to_propose s) ->
  c_next_operation_number_to_propose s < c_max_integer_val (c_params_of (cp_constants s)) ->
  let '(s', ps) := CProposerNominateOldValueAndSend2a s ltp in
  proposer_ok s' /\ valid ps /\ LProposerNominateOldValueAndSend2a (view s) (view s') ltp ps.
Proof.
  intros Hs Hprop Hlt. pose proof Hs as [Hv Hsync].
  pose proof Hv as (? & Hq & ? & Hrec & Hmap & ? & Hes & Hnext). unfold is_u64 in Hnext.
  destruct (proposer_params s Hv) as (Hd & Hm & Hm0 & Hb & Hcfg & Hi & _).
  unfold CProposerNominateOldValueAndSend2a, LProposerNominateOldValueAndSend2a.
  set (opn := c_next_operation_number_to_propose s) in *.
  pose proof (best_vote_spec opn (hashset_to_vec (c_received_1b_packets s))) as Hbest.
  destruct (best_vote opn _) as [[v b]|].
  2: { destruct Hprop. intros p Hp. apply Hbest. by apply hashset_to_vec_elem. }
  destruct Hbest as ((p & Hp & Hvote) & Hmax). rewrite hashset_to_vec_elem in Hp.
  assert (valid v) as Hvalid.
  { destruct (Hrec _ Hp) as (_ & _ & Hmv). destruct (msg p); simpl in *;
      try (by rewrite lookup_empty in Hvote).
    destruct Hmv as (_ & _ & Hvs). by destruct (Hvs _ _ Hvote) as (_ & _ & ?). }
  split; [split; [|done]|split].
  - split_all; simpl; try done. apply u64_add_is_u64.
  - apply CBroadcastToEveryone_valid; [done| |done]. by split_all.
  - exists p. cbn [view CProposer_view next_operation_number_to_propose received_1b_packets].
    fold opn. rewrite lookup_total_alt, Hvote. cbn [default from_option id max_val].
    split_and!; try done.
    + exists b. split; [|by exists p]. intros q w Hqin Hw. apply (Hmax q w); [|done].
      by apply hashset_to_vec_elem.
    + by rewrite u64_add_exact by (unfold U64_MODULUS; lia).
    + by apply CBroadcastToEveryone_refines.
Qed.

(** The guard of a new value's nomination. *)
Lemma nominate_guard_spec s clock opn :
  CExistsAcceptorHasProposalLargeThanOpn (c_received_1b_packets s) opn
    || (seq_len (c_request_queue s) >=? c_max_batch_size (c_params_of (cp_constants s)))
    || ((seq_len (c_request_queue s) >? 0) && timer_expired (c_incomplete_batch_timer s) clock)
  = bool_decide (
      LExistsAcceptorHasProposalLargeThanOpn (received_1b_packets (view s)) opn
      \/ seq_len (request_queue (view s)) >= max_batch_size (params_of (pr_constants (view s)))
      \/ (seq_len (request_queue (view s)) > 0
          /\ timer_expired (incomplete_batch_timer (view s)) clock = true)).
Proof.
  apply eq_true_iff_eq. rewrite CExistsAcceptorHasProposalLargeThanOpn_spec.
  rewrite !orb_true_iff, andb_true_iff, !bool_decide_eq_true, Z.geb_leb, Z.leb_le, Z.gtb_lt.
  simpl. rewrite Z.ge_le_iff, Z.gt_lt_iff. tauto.
Qed.

Lemma CProposerMaybeNominateValueAndSend2a_refines s clock ltp :
  proposer_ok s -> is_u64 clock -> is_u64 ltp ->
  let '(s', ps) := CProposerMaybeNominateValueAndSend2a s clock ltp in
  proposer_ok s' /\ valid ps
  /\ LProposerMaybeNominateValueAndSend2a (view s) (view s') clock ltp ps.
Proof.
  intros Hs Hclock Hltp. pose proof Hs as [Hv Hsync].
  pose proof Hv as (? & Hq & ? & Hrec & Hmap & ? & Hes & Hnext).
  destruct (proposer_params s Hv) as (Hd & Hm & _).
  unfold CProposerMaybeNominateValueAndSend2a, LProposerMaybeNominateValueAndSend2a.
  rewrite CProposerCanNominate_spec, CAllAcceptorsHadNoProposal_spec, nominate_guard_spec by done.
  change (next_operation_number_to_propose (view s)) with (c_next_operation_number_to_propose s).
  set (opn := c_next_operation_number_to_propose s) in *.
  case_bool_decide as Hcan; cbn [negb].
  2: { rewrite decide_True by done. split_and!; first [done|apply valid_no_packets]. }
  assert (opn < c_max_integer_val (c_params_of (cp_constants s))) as Hlt.
  { by destruct Hcan as (_ & _ & _ & _ & _ & _ & _ & Hc8). }
  case_bool_decide as Hno; cbn [negb].
  2: { pose proof (CProposerNominateOldValueAndSend2a_refines s ltp Hs Hno Hlt) as Hold.
       destruct (CProposerNominateOldValueAndSend2a s ltp) as [s' ps].
       rewrite decide_False by tauto. by rewrite decide_True. }
  case_bool_decide as Hnew.
  { pose proof (CProposerNominateNewValueAndSend2a_refines s clock ltp Hs Hclock Hlt) as Hn.
    destruct (CProposerNominateNewValueAndSend2a s clock ltp) as [s' ps].
    rewrite !(decide_False (P := ~ _)) by (intros Hn'; by apply Hn'). by rewrite decide_True. }
  destruct ((seq_len (c_request_queue s) >? 0) && timer_off (c_incomplete_batch_timer s)) eqn:Hoff;
    rewrite !(decide_False (P := ~ _)) by (intros Hn'; by apply Hn');
    rewrite (decide_False (P := _ \/ _)) by exact Hnew.
  - rewrite andb_true_iff in Hoff.
    rewrite decide_True by (destruct Hoff; split; [simpl; lia|done]).
    destruct (CUpperBoundedAddition_refines clock (c_max_batch_delay (c_params_of (cp_constants s)))
              (c_max_integer_val (c_params_of (cp_constants s)))) as [-> Hw]; [done..|].
    split_and!; [split; [|done]|apply valid_no_packets|done|done]. by split_all.
  - rewrite decide_False; [split_and!; first [done|apply valid_no_packets]|].
    intros [? ?]. apply not_true_iff_false in Hoff. apply Hoff. rewrite andb_true_iff.
    simpl in *. ands.
Qed.

Lemma CProposerProcessHeartbeat_refines s p clock bal susp ckpt :
  proposer_ok s -> valid p -> is_u64 clock -> msg p = RslMessageHeartbeat bal susp ckpt ->
  proposer_ok (CProposerProcessHeartbeat s p clock)
  /\ LProposerProcessHeartbeat (view s) (view (CProposerProcessHeartbeat s p clock)) p clock.
Proof.
  intros Hs Hp Hclock Hmsg.
  destruct (CElectionStateProcessHeartbeat_refines (c_election_state s) p clock bal susp ckpt)
    as [Hes Hrel]; [by apply proposer_ok_election|done..|].
  unfold CProposerProcessHeartbeat, LProposerProcessHeartbeat.
  destruct (c_demote_view s (CElectionStateProcessHeartbeat (c_election_state s) p clock))
    as (H1 & H2 & H3).
  split; [by apply c_demote_ok|]. split_and!; [by rewrite H3|done|done].
Qed.

Lemma CProposerCheckForViewTimeout_refines s clock :
  proposer_ok s -> is_u64 clock ->
  proposer_ok (CProposerCheckForViewTimeout s clock)
  /\ LProposerCheckForViewTimeout (view s) (view (CProposerCheckForViewTimeout s clock)) clock.
Proof.
  intros Hs Hclock.
  destruct (CElectionStateCheckForViewTimeout_refines (c_election_state s) clock) as [Hes Hrel];
    [by apply proposer_ok_election|done|].
  split; [by apply c_with_election_state_ok|]. by split.
Qed.

Lemma CProposerCheckForQuorumOfViewSuspicions_refines s clock :
  proposer_ok s -> is_u64 clock ->
  proposer_ok (CProposerCheckForQuorumOfViewSuspicions s clock)
  /\ LProposerCheckForQuorumOfViewSuspicions (view s)
       (view (CProposerCheckForQuorumOfViewSuspicions s clock)) clock.
Proof.
  intros Hs Hclock.
  destruct (CElectionStateCheckForQuorumOfViewSuspicions_refines (c_election_state s) clock)
    as [Hes Hrel]; [by apply proposer_ok_election|done..|].
  unfold CProposerCheckForQuorumOfViewSuspicions, LProposerCheckForQuorumOfViewSuspicions.
  destruct (c_demote_view s (CElectionStateCheckForQuorumOfViewSuspicions (c_election_state s) clock))
    as (H1 & H2 & H3).
  split; [by apply c_demote_ok|]. split_and!; [by rewrite H3|done|done].
Qed.

Lemma CProposerResetViewTimerDueToExecution_refines s val :
  proposer_ok s ->
  proposer_ok (CProposerResetViewTimerDueToExecution s val)
  /\ LProposerResetViewTimerDueToExecution (view s)
       (view (CProposerResetViewTimerDueToExecution s val)) val.
Proof.
  intros Hs.
  destruct (CElectionStateReflectExecutedRequestBatch_refines (c_election_state s) val)
    as [Hes Hrel]; [by apply proposer_ok_election|].
  split; [by apply c_with_election_state_ok|]. by split.
Qed.
End proposer_refinement.

(** ** Frame: no operation changes the constants *)

Section proposer_constants.
Implicit Types (s : LProposer) (p : RslPacket).

Lemma LProposerProcessRequest_constants s s' p :
  LProposerProcessRequest s s' p -> pr_constants s' = pr_constants s.
Proof. intros [_ H]. case_decide; by rewrite H. Qed.

Lemma LProposerMaybeEnterNewViewAndSend1a_constants s s' sent :
  LProposerMaybeEnterNewViewAndSend1a s s' sent -> pr_constants s' = pr_constants s.
Proof. unfold LProposerMaybeEnterNewViewAndSend1a. case_decide; by intros [-> _]. Qed.

Lemma LProposerProcess1b_constants s s' p :
  LProposerProcess1b s s' p -> pr_constants s' = pr_constants s.
Proof. by intros ->. Qed.

Lemma LProposerMaybeEnterPhase2_constants s s' ltp sent :
  LProposerMaybeEnterPhase2 s s' ltp sent -> pr_constants s' = pr_constants s.
Proof. unfold LProposerMaybeEnterPhase2. case_decide; by intros [-> _]. Qed.

(** The cases of a nomination: nothing but the timer changes, an old value,
    or a new value. *)
Lemma LProposerMaybeNominate_inv s s' clock ltp sent :
  LProposerMaybeNominateValueAndSend2a s s' clock ltp sent ->
  let opn := next_operation_number_to_propose s in
  (sent = []
   /\ exists t, s' = {| pr_constants := pr_constants s;
                        current_state := current_state s;
                        request_queue := request_queue s;
                        max_ballot_i_sent_1a := max_ballot_i_sent_1a s;
                        next_operation_number_to_propose := opn;
                        received_1b_packets := received_1b_packets s;
                        highest_seqno_requested_by_client_this_view :=
                          highest_seqno_requested_by_client_this_view s;
                        incomplete_batch_timer := t;
                        election_state := election_state s |})
  \/ (LProposerCanNominateUsingOperationNumber s ltp opn
      /\ ~ LAllAcceptorsHadNoProposal (received_1b_packets s) opn
      /\ LProposerNominateOldValueAndSend2a s s' ltp sent)
  \/ (LProposerCanNominateUsingOperationNumber s ltp opn
      /\ LAllAcceptorsHadNoProposal (received_1b_packets s) opn
      /\ LProposerNominateNewValueAndSend2a s s' clock ltp sent).
Proof.
  unfold LProposerMaybeNominateValueAndSend2a. intros H.
  assert (s = {| pr_constants := pr_constants s;
                 current_state := current_state s;
                 request_queue := request_queue s;
                 max_ballot_i_sent_1a := max_ballot_i_sent_1a s;
                 next_operation_number_to_propose := next_operation_number_to_propose s;
                 received_1b_packets := received_1b_packets s;
                 highest_seqno_requested_by_client_this_view :=
                   highest_seqno_requested_by_client_this_view s;
                 incomplete_batch_timer := incomplete_batch_timer s;
                 election_state := election_state s |}) as Hs by by destruct s.
  case_decide as Hcan; [destruct H as [-> ->]; left; eauto|].

  case_decide as Hno; [by right; left|].
  case_decide as Hnew; [by right; right|].
  case_decide as Ht; destruct H as [-> ->]; left; eauto.
Qed.

Lemma LProposerMaybeNominate_constants s s' clock ltp sent :
  LProposerMaybeNominateValueAndSend2a s s' clock ltp sent -> pr_constants s' = pr_constants s.
Proof.
  intros [(_ & t & ->)|[(_ & _ & Hold)|(_ & _ & Hnew)]]%LProposerMaybeNominate_inv; [done| |].
  - by destruct Hold as (p & _ & _ & -> & _).
  - by destruct Hnew as [-> _].
Qed.

Lemma LProposerProcessHeartbeat_constants s s' p clock :
  LProposerProcessHeartbeat s s' p clock -> pr_constants s' = pr_constants s.
Proof. by intros (_ & _ & ->). Qed.

Lemma LProposerCheckForViewTimeout_constants s s' clock :
  LProposerCheckForViewTimeout s s' clock -> pr_constants s' = pr_constants s.
Proof. by intros (_ & ->). Qed.

Lemma LProposerCheckForQuorumOfViewSuspicions_constants s s' clock :
  LProposerCheckForQuorumOfViewSuspicions s s' clock -> pr_constants s' = pr_constants s.
Proof. by intros (_ & _ & ->). Qed.

Lemma LProposerResetViewTimer_constants s s' v :
  LProposerResetViewTimerDueToExecution s s' v -> pr_constants s' = pr_constants s.
Proof. by intros (_ & ->). Qed.
End proposer_constants.
