(* ===== verification/Components.v ===== *)
(** * The components behind one interface

    What the replica needs of each of its components (acceptorimpl.rs,
    ElectionImpl.rs, learnerimpl.rs, ExecutorImpl.rs, ProposerImpl.rs): an
    initial state, operations that send packets, and that both refine the
    protocol's relations.  Runs are refined once, against the interface. *)

From stdpp Require Import prelude gmap sets list numbers fin_sets.
From Stdlib Require Import ZArith Lia.
From S2P Require Import Prelude.
From S2P Require Import Types.
From S2P Require Import Common.
From S2P Require Import Acceptor.
From S2P Require Import Election.
From S2P Require Import Learner.
From S2P Require Import Executor.
From S2P Require Import Proposer.

#[local] Open Scope Z_scope.

(** A component with executable state [C], protocol state [L] and operations
    [Op]: what it computes, when it may be called, what it should do. *)
Class Component (C L Op : Type) `{View C L} := MkComponent
  { comp_wf : C -> Prop;
    comp_init : CReplicaConstants -> C;
    comp_step : Op -> C -> C * list RslPacket;
    comp_pre : Op -> C -> Prop;
    spec_init : L -> LReplicaConstants -> Prop;
    spec_step : Op -> L -> L -> list RslPacket -> Prop }.

(** The promise: well-formed states, and steps the protocol allows. *)
Class ComponentLaws (C L Op : Type) `{Component C L Op} : Prop := MkComponentLaws
  { comp_init_law c :
      valid c -> comp_wf (comp_init c) /\ spec_init (view (comp_init c)) (view c);
    comp_step_law o s :
      comp_wf s -> comp_pre o s ->
      let '(s', ps) := comp_step o s in
      comp_wf s' /\ valid ps /\ spec_step o (view s) (view s') ps }.

Section runs.
Context {C L Op : Type} `{ComponentLaws C L Op}.

(** The states and packets of a run of the implementation. *)
Fixpoint comp_run (ops : list Op) (s : C) : C * list RslPacket :=
  match ops with
  | [] => (s, [])
  | o :: ops' =>
      let '(s1, ps1) := comp_step o s in
      let '(s2, ps2) := comp_run ops' s1 in (s2, ps1 ++ ps2)
  end.

(** Every operation is called within its precondition. *)
Fixpoint run_pre (ops : list Op) (s : C) : Prop :=
  match ops with
  | [] => True
  | o :: ops' => comp_pre o s /\ run_pre ops' (comp_step o s).1
  end.

Inductive spec_run : list Op -> L -> L -> list RslPacket -> Prop :=
  | spec_run_nil l : spec_run [] l l []
  | spec_run_cons o ops l l1 l2 ps1 ps2 :
      spec_step o l l1 ps1 -> spec_run ops l1 l2 ps2 -> spec_run (o :: ops) l l2 (ps1 ++ ps2).

Lemma comp_run_refines ops s :
  comp_wf s -> run_pre ops s ->
  let '(s', ps) := comp_run ops s in
  comp_wf s' /\ valid ps /\ spec_run ops (view s) (view s') ps.
Proof.
  revert s. induction ops as [|o ops IH]; intros s Hs Hpre; simpl.
  { split_and!; [done|apply valid_no_packets|constructor]. }
  destruct Hpre as [Ho Hpre]. pose proof (comp_step_law o s Hs Ho) as Hstep.
  destruct (comp_step o s) as [s1 ps1]. destruct Hstep as (Hs1 & Hv1 & Hrel1).
  specialize (IH s1 Hs1 Hpre). destruct (comp_run ops s1) as [s2 ps2].
  destruct IH as (Hs2 & Hv2 & Hrel2). split_and!; [done|by apply Forall_app|].
  by eapply spec_run_cons.
Qed.

(** From initialization on. *)
Lemma comp_run_from_init c ops :
  valid c -> run_pre ops (comp_init c) ->
  let '(s', ps) := comp_run ops (comp_init c) in
  comp_wf s' /\ valid ps
  /\ exists l, spec_init l (view c) /\ spec_run ops l (view s') ps.
Proof.
  intros Hc Hpre. destruct (comp_init_law c Hc) as [Hwf Hinit].
  pose proof (comp_run_refines ops _ Hwf Hpre) as Hrun.
  destruct (comp_run ops (comp_init c)) as [s' ps]. destruct Hrun as (? & ? & ?).
  split_and!; [done|done|]. by exists (view (comp_init c)).
Qed.
End runs.

(** ** The five components *)

Inductive AcceptorOp :=
  | Acc1a (p : RslPacket) (bal : Ballot)
  | Acc2a (p : RslPacket) (bal : Ballot) (opn : Z) (v : RequestBatch)
  | AccHeartbeat (p : RslPacket) (bal : Ballot) (susp : bool) (ckpt : Z)
  | AccTruncate (opn : Z).

#[export] Instance acceptor_component : Component CAcceptor LAcceptor AcceptorOp :=
  {| comp_wf := valid;
     comp_init := CAcceptorInit;
     comp_step o s :=
       match o with
       | Acc1a p _ => CAcceptorProcess1a s p
       | Acc2a p _ _ _ => CAcceptorProcess2a s p
       | AccHeartbeat p _ _ _ => (CAcceptorProcessHeartbeat s p, [])
       | AccTruncate opn => (CAcceptorTruncateLog s opn, [])
       end;
     comp_pre o s :=
       match o with
       | Acc1a p bal => valid p /\ msg p = RslMessage1a bal
       | Acc2a p bal opn v => valid p /\ msg p = RslMessage2a bal opn v
       | AccHeartbeat p bal susp ckpt => valid p /\ msg p = RslMessageHeartbeat bal susp ckpt
       | AccTruncate opn => is_u64 opn
       end;
     spec_init := LAcceptorInit;
     spec_step o s s_ ps :=
       match o with
       | Acc1a p _ => LAcceptorProcess1a s s_ p ps
       | Acc2a p _ _ _ => LAcceptorProcess2a s s_ p ps
       | AccHeartbeat p _ _ _ => LAcceptorProcessHeartbeat s s_ p /\ ps = []
       | AccTruncate opn => LAcceptorTruncateLog s s_ opn /\ ps = []
       end |}.

(** An operation that sends nothing. *)
Lemma silent_step {C L : Type} `{View C L} (wf : C -> Prop) (s' : C) (R : Prop) :
  wf s' /\ R -> wf s' /\ valid ([] : list RslPacket) /\ R /\ ([] : list RslPacket) = [].
Proof. intros [? ?]. split_and!; try done. apply valid_no_packets. Qed.

#[export] Instance acceptor_laws : ComponentLaws CAcceptor LAcceptor AcceptorOp.
Proof.
  split; [intros c; apply CAcceptorInit_refines|].
  intros [p bal|p bal opn v|p bal susp ckpt|opn] s Hs Hpre; simpl in Hpre |- *.
  - destruct Hpre. by eapply CAcceptorProcess1a_refines.
  - destruct Hpre. by eapply CAcceptorProcess2a_refines.
  - destruct Hpre. apply silent_step. by eapply CAcceptorProcessHeartbeat_refines.
  - apply silent_step. by apply CAcceptorTruncateLog_refines.
Qed.

Inductive ElectionOp :=
  | ElHeartbeat (p : RslPacket) (clock : Z) (bal : Ballot) (susp : bool) (ckpt : Z)
  | ElTimeout (clock : Z)
  | ElQuorum (clock : Z)
  | ElReceived (req : Request)
  | ElExecuted (batch : RequestBatch).

#[export] Instance election_component : Component CElectionState ElectionState ElectionOp :=
  {| comp_wf := election_ok;
     comp_init := CElectionStateInit;
     comp_step o s :=
       (match o with
        | ElHeartbeat p clock _ _ _ => CElectionStateProcessHeartbeat s p clock
        | ElTimeout clock => CElectionStateCheckForViewTimeout s clock
        | ElQuorum clock => CElectionStateCheckForQuorumOfViewSuspicions s clock
        | ElReceived req => CElectionStateReflectReceivedRequest s req
        | ElExecuted batch => CElectionStateReflectExecutedRequestBatch s batch
        end, []);
     comp_pre o s :=
       match o with
       | ElHeartbeat p clock bal susp ckpt =>
           valid p /\ is_u64 clock /\ msg p = RslMessageHeartbeat bal susp ckpt
       | ElTimeout clock | ElQuorum clock => is_u64 clock
       | ElReceived req => valid req
       | ElExecuted _ => True
       end;
     spec_init := ElectionStateInit;
     spec_step o s s_ ps :=
       (match o with
        | ElHeartbeat p clock _ _ _ => ElectionStateProcessHeartbeat s s_ p clock
        | ElTimeout clock => ElectionStateCheckForViewTimeout s s_ clock
        | ElQuorum clock => ElectionStateCheckForQuorumOfViewSuspicions s s_ clock
        | ElReceived req => ElectionStateReflectReceivedRequest s s_ req
        | ElExecuted batch => ElectionStateReflectExecutedRequestBatch s s_ batch
        end) /\ ps = [] |}.

#[export] Instance election_laws : ComponentLaws CElectionState ElectionState ElectionOp.
Proof.
  split; [intros c; apply CElectionStateInit_refines|].
  intros [p clock bal susp ckpt|clock|clock|req|batch] s Hs Hpre; simpl in Hpre |- *;
    apply silent_step.
  - destruct Hpre as (? & ? & ?). by eapply CElectionStateProcessHeartbeat_refines.
  - by apply CElectionStateCheckForViewTimeout_refines.
  - by apply CElectionStateCheckForQuorumOfViewSuspicions_refines.
  - by apply CElectionStateReflectReceivedRequest_refines.
  - by apply CElectionStateReflectExecutedRequestBatch_refines.
Qed.

Inductive LearnerOp :=
  | Ln2b (p : RslPacket) (bal : Ballot) (opn : Z) (v : RequestBatch)
  | LnForgetDecision (opn : Z)
  | LnForgetBefore (opn : Z).

#[export] Instance learner_component : Component CLearner LLearner LearnerOp :=
  {| comp_wf := valid;
     comp_init := CLearnerInit;
     comp_step o s :=
       (match o with
        | Ln2b p _ _ _ => CLearnerProcess2b s p
        | LnForgetDecision opn => CLearnerForgetDecision s opn
        | LnForgetBefore opn => CLearnerForgetOperationsBefore s opn
        end, []);
     comp_pre o s :=
       match o with
       | Ln2b p bal opn v => valid p /\ msg p = RslMessage2b bal opn v
       | _ => True
       end;
     spec_init := LLearnerInit;
     spec_step o s s_ ps :=
       (match o with
        | Ln2b p _ _ _ => LLearnerProcess2b s s_ p
        | LnForgetDecision opn => LLearnerForgetDecision s s_ opn
        | LnForgetBefore opn => LLearnerForgetOperationsBefore s s_ opn
        end) /\ ps = [] |}.

#[export] Instance learner_laws : ComponentLaws CLearner LLearner LearnerOp.
Proof.
  split; [intros c; apply CLearnerInit_refines|].
  intros [p bal opn v|opn|opn] s Hs Hpre; simpl in Hpre |- *; apply silent_step.
  - destruct Hpre. by eapply CLearnerProcess2b_refines.
  - by apply CLearnerForgetDecision_refines.
  - by apply CLearnerForgetOperationsBefore_refines.
Qed.

Inductive ExecutorOp :=
  | ExDecision (bal : Ballot) (opn : Z) (v : RequestBatch)
  | ExExecute
  | ExSupply (p : RslPacket) (bal : Ballot) (opn : Z) (st : Z) (cache : ReplyCache)
  | ExStateRequest (p : RslPacket) (bal : Ballot) (opn : Z)
  | ExStartingPhase2 (p : RslPacket) (bal : Ballot) (ltp : Z)
  | ExRequest (p : RslPacket) (seqno : Z) (v : AppMessage).

#[export] Instance executor_component : Component CExecutor LExecutor ExecutorOp :=
  {| comp_wf := valid;
     comp_init := CExecutorInit;
     comp_step o s :=
       match o with
       | ExDecision bal opn v => (CExecutorGetDecision s bal opn v, [])
       | ExExecute => CExecutorExecute s
       | ExSupply p _ _ _ _ => (CExecutorProcessAppStateSupply s p, [])
       | ExStateRequest p _ _ => (s, CExecutorProcessAppStateRequest s p)
       | ExStartingPhase2 p _ _ => (s, CExecutorProcessStartingPhase2 s p)
       | ExRequest p _ _ => (s, CExecutorProcessRequest s p)
       end;
     comp_pre o s :=
       match o with
       | ExDecision bal opn v => valid bal /\ valid v
       | ExExecute =>
           op_known (c_next_op_to_execute s) = true
           /\ c_ops_complete s < c_max_integer_val (c_params_of (cex_constants s))
       | ExSupply p bal opn st cache =>
           valid p /\ msg p = RslMessageAppStateSupply bal opn st cache
       | ExStateRequest p bal opn => valid p /\ msg p = RslMessageAppStateRequest bal opn
       | ExStartingPhase2 p bal ltp => valid p /\ msg p = RslMessageStartingPhase2 bal ltp
       | ExRequest p seqno v =>
           msg p = RslMessageRequest seqno v /\ is_Some (c_reply_cache s !! src p)
       end;
     spec_init := LExecutorInit;
     spec_step o s s_ ps :=
       match o with
       | ExDecision bal opn v => LExecutorGetDecision s s_ bal opn v /\ ps = []
       | ExExecute => LExecutorExecute s s_ ps
       | ExSupply p _ _ _ _ => LExecutorProcessAppStateSupply s s_ p /\ ps = []
       | ExStateRequest p _ _ => LExecutorProcessAppStateRequest s s_ p ps
       | ExStartingPhase2 p _ _ => LExecutorProcessStartingPhase2 s s_ p ps
       | ExRequest p _ _ => s_ = s /\ LExecutorProcessRequest s p ps
       end |}.

#[export] Instance executor_laws : ComponentLaws CExecutor LExecutor ExecutorOp.
Proof.
  split; [intros c; apply CExecutorInit_refines|].
  intros [bal opn v| |p bal opn st cache|p bal opn|p bal ltp|p seqno v] s Hs Hpre;
    simpl in Hpre |- *; try destruct Hpre as [Hp Hm].
  - apply silent_step. by apply CExecutorGetDecision_refines.
  - by apply CExecutorExecute_refines.
  - apply silent_step. by eapply CExecutorProcessAppStateSupply_refines.
  - split; [done|]. by eapply CExecutorProcessAppStateRequest_refines.
  - split; [done|]. by eapply CExecutorProcessStartingPhase2_refines.
  - destruct (CExecutorProcessRequest_refines s p seqno v Hs Hp Hm). by split_and!.
Qed.

Inductive ProposerOp :=
  | PrRequest (p : RslPacket) (seqno : Z) (v : AppMessage)
  | PrNewView
  | Pr1b (p : RslPacket)
  | PrPhase2 (ltp : Z)
  | PrNominate (clock ltp : Z)
  | PrHeartbeat (p : RslPacket) (clock : Z) (bal : Ballot) (susp : bool) (ckpt : Z)
  | PrTimeout (clock : Z)
  | PrQuorum (clock : Z)
  | PrExecuted (batch : RequestBatch).

#[export] Instance proposer_component : Component CProposer LProposer ProposerOp :=
  {| comp_wf := proposer_ok;
     comp_init := CProposerInit;
     comp_step o s :=
       match o with
       | PrRequest p _ _ => (CProposerProcessRequest s p, [])
       | PrNewView => CProposerMaybeEnterNewViewAndSend1a s
       | Pr1b p => (CProposerProcess1b s p, [])
       | PrPhase2 ltp => CProposerMaybeEnterPhase2 s ltp
       | PrNominate clock ltp => CProposerMaybeNominateValueAndSend2a s clock ltp
       | PrHeartbeat p clock _ _ _ => (CProposerProcessHeartbeat s p clock, [])
       | PrTimeout clock => (CProposerCheckForViewTimeout s clock, [])
       | PrQuorum clock => (CProposerCheckForQuorumOfViewSuspicions s clock, [])
       | PrExecuted batch => (CProposerResetViewTimerDueToExecution s batch, [])
       end;
     comp_pre o s :=
       match o with
       | PrRequest p seqno v => valid p /\ msg p = RslMessageRequest seqno v
       | PrNewView | PrExecuted _ => True
       | Pr1b p => valid p
       | PrPhase2 ltp => is_u64 ltp
       | PrNominate clock ltp => is_u64 clock /\ is_u64 ltp
       | PrHeartbeat p clock bal susp ckpt =>
           valid p /\ is_u64 clock /\ msg p = RslMessageHeartbeat bal susp ckpt
       | PrTimeout clock | PrQuorum clock => is_u64 clock
       end;
     spec_init := LProposerInit;
     spec_step o s s_ ps :=
       match o with
       | PrRequest p _ _ => LProposerProcessRequest s s_ p /\ ps = []
       | PrNewView => LProposerMaybeEnterNewViewAndSend1a s s_ ps
       | Pr1b p => LProposerProcess1b s s_ p /\ ps = []
       | PrPhase2 ltp => LProposerMaybeEnterPhase2 s s_ ltp ps
       | PrNominate clock ltp => LProposerMaybeNominateValueAndSend2a s s_ clock ltp ps
       | PrHeartbeat p clock _ _ _ => LProposerProcessHeartbeat s s_ p clock /\ ps = []
       | PrTimeout clock => LProposerCheckForViewTimeout s s_ clock /\ ps = []
       | PrQuorum clock => LProposerCheckForQuorumOfViewSuspicions s s_ clock /\ ps = []
       | PrExecuted batch => LProposerResetViewTimerDueToExecution s s_ batch /\ ps = []
       end |}.

#[export] Instance proposer_laws : ComponentLaws CProposer LProposer ProposerOp.
Proof.
  split; [intros c; apply CProposerInit_refines|].
  intros [p seqno v| |p|ltp|clock ltp|p clock bal susp ckpt|clock|clock|batch] s Hs Hpre;
    simpl in Hpre |- *.
  - destruct Hpre. apply silent_step. by eapply CProposerProcessRequest_refines.
  - by apply CProposerMaybeEnterNewViewAndSend1a_refines.
  - apply silent_step. by apply CProposerProcess1b_refines.
  - by apply CProposerMaybeEnterPhase2_refines.
  - destruct Hpre. by apply CProposerMaybeNominateValueAndSend2a_refines.
  - destruct Hpre as (? & ? & ?). apply silent_step. by eapply CProposerProcessHeartbeat_refines.
  - apply silent_step. by apply CProposerCheckForViewTimeout_refines.
  - apply silent_step. by apply CProposerCheckForQuorumOfViewSuspicions_refines.
  - apply silent_step. by apply CProposerResetViewTimerDueToExecution_refines.
Qed.
