(* ===== verification/Environment.v ===== *)
(** * The environment: I/O operations and the network

    common/framework/environment_s.rs (generic in the host identifiers and the
    messages) and protocol/RSL/environment.rs.  The network never forgets a
    packet: a packet once sent can be received any number of times, in any
    order, or never. *)

From stdpp Require Import prelude gmap sets list numbers fin_sets.
From Stdlib Require Import ZArith Lia.
From S2P Require Import Prelude.
From S2P Require Import Types.

#[local] Open Scope Z_scope.

(** ** The native network (common/native/io_s.rs) *)

(** A datagram. *)
Abbreviation NetPacket := (LPacket AbstractEndPoint (list Z)).

(** What the native network hands over to a receive. *)
Inductive NetcReceiveResult :=
  | NetcReceived (sender : AbstractEndPoint) (message : list Z)
  | NetcTimedOut
  | NetcError.

(** ** I/O operations and the environment *)

Inductive LIoOp (IdType MessageType : Type) :=
  | Send (s : LPacket IdType MessageType)
  | Receive (r : LPacket IdType MessageType)
  | TimeoutReceive
  | ReadClock (t : Z).
Arguments Send {_ _} _.
Arguments Receive {_ _} _.
Arguments TimeoutReceive {_ _}.
Arguments ReadClock {_ _} _.

Inductive LEnvStep (IdType MessageType : Type) :=
  | LEnvStepHostIos (actor : IdType) (ios : list (LIoOp IdType MessageType))
  | LEnvStepDeliverPacket (p : LPacket IdType MessageType)
  | LEnvStepAdvanceTime
  | LEnvStepStutter.
Arguments LEnvStepHostIos {_ _} _ _.
Arguments LEnvStepDeliverPacket {_ _} _.
Arguments LEnvStepAdvanceTime {_ _}.
Arguments LEnvStepStutter {_ _}.

Record LHostInfo (IdType MessageType : Type) :=
  MkLHostInfo { queue : list (LPacket IdType MessageType) }.

Record LEnvironment (IdType MessageType : Type)
    `{Countable IdType} `{Countable MessageType} := MkLEnvironment
  { time : Z;
    sentPackets : gset (LPacket IdType MessageType);
    hostInfo : gmap IdType (LHostInfo IdType MessageType);
    nextStep : LEnvStep IdType MessageType }.
Arguments MkLEnvironment {_ _ _ _ _ _} _ _ _ _.
Arguments time {_ _ _ _ _ _} _.
Arguments sentPackets {_ _ _ _ _ _} _.
Arguments hostInfo {_ _ _ _ _ _} _.
Arguments nextStep {_ _ _ _ _ _} _.

Section environment.
Context {IdType MessageType : Type} `{Countable IdType} `{Countable MessageType}.
Local Abbreviation Packet := (LPacket IdType MessageType).
Local Abbreviation Io := (LIoOp IdType MessageType).
Local Abbreviation Env := (LEnvironment IdType MessageType).

(** [io is Send], [io is Receive], [io is ReadClock]. *)
Definition is_send (io : Io) : bool := match io with Send _ => true | _ => false end.
Definition is_receive (io : Io) : bool := match io with Receive _ => true | _ => false end.
Definition is_read_clock (io : Io) : bool := match io with ReadClock _ => true | _ => false end.
(** [io->s] of a [Send]. *)
Definition io_sent (io : Io) : option Packet := match io with Send s => Some s | _ => None end.
(** [step is LEnvStepHostIos]. *)
Definition is_host_ios (st : LEnvStep IdType MessageType) : bool :=
  match st with LEnvStepHostIos _ _ => true | _ => false end.

Definition IsValidLIoOp (io : Io) (actor : IdType) (e : Env) : Prop :=
  match io with
  | Send s => src s = actor
  | Receive r => dst r = actor
  | TimeoutReceive => True
  | ReadClock _ => True
  end.

Definition LIoOpOrderingOKForAction (io1 io2 : Io) : Prop :=
  is_receive io1 = true \/ is_send io2 = true.

Definition LIoOpSeqCompatibleWithReduction (ios : list Io) : Prop :=
  forall i io1 io2, ios !! i = Some io1 -> ios !! S i = Some io2 ->
    LIoOpOrderingOKForAction io1 io2.

Definition IsValidLEnvStep (e : Env) (step : LEnvStep IdType MessageType) : Prop :=
  match step with
  | LEnvStepHostIos actor ios =>
      (forall io, io ∈ ios -> IsValidLIoOp io actor e) /\ LIoOpSeqCompatibleWithReduction ios
  | LEnvStepDeliverPacket p => p ∈ sentPackets e
  | LEnvStepAdvanceTime => True
  | LEnvStepStutter => True
  end.

Definition LEnvironment_Init (e : Env) : Prop :=
  size (sentPackets e) = 0%nat /\ time e >= 0.

Definition match_ios_recv (io : Io) (sent : gset Packet) : Prop :=
  match io with Receive r => r ∈ sent | _ => True end.

Definition LEnvironment_PerformIos (e e_ : Env) (actor : IdType) (ios : list Io) : Prop :=
  sentPackets e_ = sentPackets e ∪ list_to_set (omap io_sent ios)
  /\ (forall io, io ∈ ios -> match_ios_recv io (sentPackets e))
  /\ time e_ = time e.

Definition LEnvironment_AdvanceTime (e e_ : Env) : Prop :=
  time e_ > time e /\ sentPackets e_ = sentPackets e.

Definition LEnvironment_Stutter (e e_ : Env) : Prop :=
  time e_ = time e /\ sentPackets e_ = sentPackets e.

Definition LEnvironment_Next (e e_ : Env) : Prop :=
  IsValidLEnvStep e (nextStep e)
  /\ match nextStep e with
     | LEnvStepHostIos actor ios => LEnvironment_PerformIos e e_ actor ios
     | LEnvStepDeliverPacket _ => LEnvironment_Stutter e e_
     | LEnvStepAdvanceTime => LEnvironment_AdvanceTime e e_
     | LEnvStepStutter => LEnvironment_Stutter e e_
     end.

(** Packets are never lost, and a new one was sent by the acting host. *)
Lemma LEnvironment_Next_sent_subseteq e e_ :
  LEnvironment_Next e e_ -> sentPackets e ⊆ sentPackets e_.
Proof.
  intros [_ Hs]. destruct (nextStep e) as [actor ios|p| |].
  - destruct Hs as [-> _]. set_solver.
  - by destruct Hs as [_ ->].
  - by destruct Hs as [_ ->].
  - by destruct Hs as [_ ->].
Qed.

Lemma io_sent_elem (ios : list Io) p : p ∈ omap io_sent ios <-> Send p ∈ ios.
Proof.
  rewrite list_elem_of_omap. split.
  - intros ([] & Hin & He); simpl in He; by simplify_eq.
  - intros Hin. by exists (Send p).
Qed.

Lemma LEnvironment_PerformIos_sent e e_ actor ios p :
  LEnvironment_PerformIos e e_ actor ios ->
  p ∈ sentPackets e_ <-> p ∈ sentPackets e \/ Send p ∈ ios.
Proof.
  intros [-> _]. by rewrite elem_of_union, elem_of_list_to_set, io_sent_elem.
Qed.
End environment.

(** protocol/RSL/environment.rs *)
Abbreviation RslIo := (LIoOp AbstractEndPoint RslMessage) (only parsing).
Abbreviation RslEnvironment := (LEnvironment AbstractEndPoint RslMessage) (only parsing).
