(* ===== verification/Replica.v ===== *)
(** * The replica and its scheduler

    protocol/RSL/replica.rs: the handler of every message, the spontaneous
    actions, and the ten-slot scheduler that interleaves them. *)

From stdpp Require Import prelude gmap sets list numbers fin_sets.
From Stdlib Require Import ZArith Lia.
From S2P Require Import Prelude.
From S2P Require Import Types.
From S2P Require Import Common.
From S2P Require Import Acceptor.
From S2P Require Import Election.
From S2P Require Import Learner.
From S2P Require Import Executor.
From S2P Require Import Proposer.
From S2P Require Import Environment.

#[local] Open Scope Z_scope.

Record LReplica := MkLReplica
  { constants : LReplicaConstants;
    nextHeartbeatTime : Z;
    proposer : LProposer;
    acceptor : LAcceptor;
    learner : LLearner;
    executor : LExecutor }.

(** The source writes [LReplica { ... }] with one field changed and the others
    copied from [s]. *)
Definition with_proposer (s : LReplica) (p : LProposer) : LReplica :=
  MkLReplica (constants s) (nextHeartbeatTime s) p (acceptor s) (learner s) (executor s).
Definition with_acceptor (s : LReplica) (a : LAcceptor) : LReplica :=
  MkLReplica (constants s) (nextHeartbeatTime s) (proposer s) a (learner s) (executor s).
Definition with_learner (s : LReplica) (l : LLearner) : LReplica :=
  MkLReplica (constants s) (nextHeartbeatTime s) (proposer s) (acceptor s) l (executor s).
Definition with_executor (s : LReplica) (e : LExecutor) : LReplica :=
  MkLReplica (constants s) (nextHeartbeatTime s) (proposer s) (acceptor s) (learner s) e.
Definition with_nextHeartbeatTime (s : LReplica) (t : Z) : LReplica :=
  MkLReplica (constants s) t (proposer s) (acceptor s) (learner s) (executor s).

Definition LReplicaInit (r : LReplica) (c : LReplicaConstants) : Prop :=
  constants r = c
  /\ nextHeartbeatTime r = 0
  /\ LProposerInit (proposer r) c
  /\ LAcceptorInit (acceptor r) c
  /\ LLearnerInit (learner r) c
  /\ LExecutorInit (executor r) c.

(** ** Message handlers *)

Section handlers.
Implicit Types (s : LReplica) (p : RslPacket) (sent : list RslPacket).

Definition LReplicaNextProcessInvalid (s s_ : LReplica) p sent : Prop := s_ = s /\ sent = [].

(** The reply cache answers the request. *)
Definition request_cached s p : Prop :=
  exists r, reply_cache (executor s) !! src p = Some r /\ msg_seqno_req (msg p) <= rep_seqno r.

#[export] Instance request_cached_dec s p : Decision (request_cached s p).
Proof.
  unfold request_cached. destruct (reply_cache (executor s) !! src p) as [r|].
  - destruct (decide (msg_seqno_req (msg p) <= rep_seqno r)); [left; eauto|right; naive_solver].
  - right. naive_solver.
Defined.

Definition LReplicaNextProcessRequest (s s_ : LReplica) p sent : Prop :=
  if decide (request_cached s p) then
    LExecutorProcessRequest (executor s) p sent /\ s_ = s
  else
    LProposerProcessRequest (proposer s) (proposer s_) p
    /\ s_ = with_proposer s (proposer s_) /\ sent = [].

Definition LReplicaNextProcess1a (s s_ : LReplica) p sent : Prop :=
  LAcceptorProcess1a (acceptor s) (acceptor s_) p sent
  /\ s_ = with_acceptor s (acceptor s_).

(** The 1b is for the proposer's current phase 1 and from a new sender. *)
Definition accepts_1b s p : Prop :=
  src p ∈ ids_of (pr_constants (proposer s))
  /\ msg_bal_1b (msg p) = max_ballot_i_sent_1a (proposer s)
  /\ current_state (proposer s) = 1
  /\ set_Forall (fun other_packet => src other_packet <> src p)
       (received_1b_packets (proposer s)).

#[export] Instance accepts_1b_dec s p : Decision (accepts_1b s p).
Proof. unfold accepts_1b. apply _. Defined.

Definition LReplicaNextProcess1b (s s_ : LReplica) p sent : Prop :=
  if decide (accepts_1b s p) then
    LProposerProcess1b (proposer s) (proposer s_) p
    /\ LAcceptorTruncateLog (acceptor s) (acceptor s_) (msg_log_truncation_point (msg p))
    /\ sent = []
    /\ s_ = MkLReplica (constants s) (nextHeartbeatTime s) (proposer s_) (acceptor s_)
              (learner s) (executor s)
  else s_ = s /\ sent = [].

Definition LReplicaNextProcessStartingPhase2 (s s_ : LReplica) p sent : Prop :=
  LExecutorProcessStartingPhase2 (executor s) (executor s_) p sent
  /\ s_ = with_executor s (executor s_).

Definition LReplicaNextProcess2a (s s_ : LReplica) p sent : Prop :=
  if decide (src p ∈ ids_of (acc_constants (acceptor s))
             /\ BalLeq (acc_max_bal (acceptor s)) (msg_bal_2a (msg p))
             /\ LeqUpperBound (msg_opn_2a (msg p))
                  (max_integer_val (params_of (acc_constants (acceptor s)))))
  then
    LAcceptorProcess2a (acceptor s) (acceptor s_) p sent
    /\ s_ = with_acceptor s (acceptor s_)
  else s_ = s /\ sent = [].

Definition LReplicaNextProcess2b (s s_ : LReplica) p sent : Prop :=
  let opn := msg_opn_2b (msg p) in
  if decide (ops_complete (executor s) < opn
             \/ (ops_complete (executor s) = opn
                 /\ op_known (next_op_to_execute (executor s)) = false))
  then
    LLearnerProcess2b (learner s) (learner s_) p
    /\ s_ = with_learner s (learner s_) /\ sent = []
  else s_ = s /\ sent = [].

Definition LReplicaNextProcessReply (s s_ : LReplica) p sent : Prop := s_ = s /\ sent = [].

Definition LReplicaNextProcessAppStateSupply (s s_ : LReplica) p sent : Prop :=
  if decide (src p ∈ ids_of (ex_constants (executor s))
             /\ msg_opn_state_supply (msg p) > ops_complete (executor s))
  then
    LLearnerForgetOperationsBefore (learner s) (learner s_) (msg_opn_state_supply (msg p))
    /\ LExecutorProcessAppStateSupply (executor s) (executor s_) p
    /\ s_ = MkLReplica (constants s) (nextHeartbeatTime s) (proposer s) (acceptor s)
              (learner s_) (executor s_)
    /\ sent = []
  else s_ = s /\ sent = [].

Definition LReplicaNextProcessAppStateRequest (s s_ : LReplica) p sent : Prop :=
  LExecutorProcessAppStateRequest (executor s) (executor s_) p sent
  /\ s_ = with_executor s (executor s_).

Definition LReplicaNextProcessHeartbeat (s s_ : LReplica) p (clock : Z) sent : Prop :=
  LProposerProcessHeartbeat (proposer s) (proposer s_) p clock
  /\ LAcceptorProcessHeartbeat (acceptor s) (acceptor s_) p
  /\ s_ = MkLReplica (constants s) (nextHeartbeatTime s) (proposer s_) (acceptor s_)
            (learner s) (executor s)
  /\ sent = [].
End handlers.

(** ** Spontaneous actions *)

Section actions.
Implicit Types (s : LReplica) (clock : ClockReading) (sent : list RslPacket).

Definition LReplicaNextSpontaneousMaybeEnterNewViewAndSend1a (s s_ : LReplica) sent : Prop :=
  LProposerMaybeEnterNewViewAndSend1a (proposer s) (proposer s_) sent
  /\ s_ = with_proposer s (proposer s_).

Definition LReplicaNextSpontaneousMaybeEnterPhase2 (s s_ : LReplica) sent : Prop :=
  LProposerMaybeEnterPhase2 (proposer s) (proposer s_)
    (acc_log_truncation_point (acceptor s)) sent
  /\ s_ = with_proposer s (proposer s_).

Definition LReplicaNextReadClockMaybeNominateValueAndSend2a (s s_ : LReplica) clock sent : Prop :=
  LProposerMaybeNominateValueAndSend2a (proposer s) (proposer s_) (clock_t clock)
    (acc_log_truncation_point (acceptor s)) sent
  /\ s_ = with_proposer s (proposer s_).

Definition LReplicaNextSpontaneousTruncateLogBasedOnCheckpoints (s s_ : LReplica) sent : Prop :=
  exists opn, opn ∈ acc_last_checkpointed_operation (acceptor s)
    /\ IsLogTruncationPointValid opn (acc_last_checkpointed_operation (acceptor s))
         (config (all (constants s)))
    /\ (if decide (opn > acc_log_truncation_point (acceptor s)) then
          LAcceptorTruncateLog (acceptor s) (acceptor s_) opn
          /\ s_ = with_acceptor s (acceptor s_) /\ sent = []
        else s_ = s /\ sent = []).

(** A quorum of 2bs was counted for the next operation to execute. *)
Definition decision_ready s : Prop :=
  let opn := ops_complete (executor s) in
  op_known (next_op_to_execute (executor s)) = false
  /\ match unexecuted_learner_state (learner s) !! opn with
     | Some t => Z.of_nat (size (received_2b_message_senders t))
                 >= LMinQuorumSize (config (all (ll_constants (learner s))))
     | None => False
     end.

#[export] Instance decision_ready_dec s : Decision (decision_ready s).
Proof.
  unfold decision_ready.
  destruct (unexecuted_learner_state (learner s) !! ops_complete (executor s)); apply _.
Defined.

Definition LReplicaNextSpontaneousMaybeMakeDecision (s s_ : LReplica) sent : Prop :=
  let opn := ops_complete (executor s) in
  if decide (decision_ready s) then
    LExecutorGetDecision (executor s) (executor s_) (max_ballot_seen (learner s)) opn
      (candidate_learned_value (unexecuted_learner_state (learner s) !!! opn))
    /\ s_ = with_executor s (executor s_) /\ sent = []
  else s_ = s /\ sent = [].

Definition LReplicaNextSpontaneousMaybeExecute (s s_ : LReplica) sent : Prop :=
  if decide (op_known (next_op_to_execute (executor s)) = true
             /\ LtUpperBound (ops_complete (executor s))
                  (max_integer_val (params_of (ex_constants (executor s))))
             /\ LReplicaConstantsValid (ex_constants (executor s)))
  then
    let v := op_v (next_op_to_execute (executor s)) in
    LProposerResetViewTimerDueToExecution (proposer s) (proposer s_) v
    /\ LLearnerForgetDecision (learner s) (learner s_) (ops_complete (executor s))
    /\ LExecutorExecute (executor s) (executor s_) sent
    /\ s_ = MkLReplica (constants s) (nextHeartbeatTime s) (proposer s_) (acceptor s)
              (learner s_) (executor s_)
  else s_ = s /\ sent = [].

Definition LReplicaNextReadClockMaybeSendHeartbeat (s s_ : LReplica) clock sent : Prop :=
  if decide (clock_t clock < nextHeartbeatTime s) then s_ = s /\ sent = []
  else
    nextHeartbeatTime s_
      = UpperBoundedAddition (clock_t clock) (heartbeat_period (params_of (constants s)))
          (max_integer_val (params_of (constants s)))
    /\ LBroadcastToEveryone (config (all (constants s))) (my_index (constants s))
         (RslMessageHeartbeat
            (current_view (election_state (proposer s)))
            (bool_decide (my_index (constants s)
                          ∈ current_view_suspectors (election_state (proposer s))))
            (ops_complete (executor s))) sent
    /\ s_ = with_nextHeartbeatTime s (nextHeartbeatTime s_).

Definition LReplicaNextReadClockCheckForViewTimeout (s s_ : LReplica) clock sent : Prop :=
  LProposerCheckForViewTimeout (proposer s) (proposer s_) (clock_t clock)
  /\ s_ = with_proposer s (proposer s_) /\ sent = [].

Definition LReplicaNextReadClockCheckForQuorumOfViewSuspicions (s s_ : LReplica) clock sent : Prop :=
  LProposerCheckForQuorumOfViewSuspicions (proposer s) (proposer s_) (clock_t clock)
  /\ s_ = with_proposer s (proposer s_) /\ sent = [].
End actions.

(** ** One scheduled step and its I/O *)

Fixpoint ExtractSentPacketsFromIos (ios : list RslIo) : list RslPacket :=
  match ios with
  | [] => []
  | Send p :: ios' => [p] ++ ExtractSentPacketsFromIos ios'
  | _ :: ios' => ExtractSentPacketsFromIos ios'
  end.

(** [io->r], [io->t] of the first events, arbitrary on other constructors. *)
Definition io_received (io : RslIo) : RslPacket :=
  match io with Receive r => r | _ => MkLPacket inhabitant inhabitant RslMessageInvalid end.
Definition io_clock (io : RslIo) : Z := match io with ReadClock t => t | _ => inhabitant end.

Section scheduler_step.
Implicit Types (s : LReplica) (ios : list RslIo).

Definition LReplicaNextReadClockAndProcessPacket (s s_ : LReplica) ios : Prop :=
  match ios with
  | io0 :: io1 :: rest =>
      is_read_clock io1 = true
      /\ (forall io, io ∈ rest -> is_send io = true)
      /\ LReplicaNextProcessHeartbeat s s_ (io_received io0) (io_clock io1)
           (ExtractSentPacketsFromIos ios)
  | _ => False
  end.

Definition LReplicaNextProcessPacketWithoutReadingClock (s s_ : LReplica) ios : Prop :=
  match ios with
  | io0 :: rest =>
      let sent := ExtractSentPacketsFromIos ios in
      let p := io_received io0 in
      (forall io, io ∈ rest -> is_send io = true)
      /\ match msg p with
         | RslMessageInvalid => LReplicaNextProcessInvalid s s_ p sent
         | RslMessageRequest _ _ => LReplicaNextProcessRequest s s_ p sent
         | RslMessage1a _ => LReplicaNextProcess1a s s_ p sent
         | RslMessage1b _ _ _ => LReplicaNextProcess1b s s_ p sent
         | RslMessageStartingPhase2 _ _ => LReplicaNextProcessStartingPhase2 s s_ p sent
         | RslMessage2a _ _ _ => LReplicaNextProcess2a s s_ p sent
         | RslMessage2b _ _ _ => LReplicaNextProcess2b s s_ p sent
         | RslMessageReply _ _ => LReplicaNextProcessReply s s_ p sent
         | RslMessageAppStateRequest _ _ => LReplicaNextProcessAppStateRequest s s_ p sent
         | RslMessageAppStateSupply _ _ _ _ => LReplicaNextProcessAppStateSupply s s_ p sent
         | RslMessageHeartbeat _ _ _ => False
         end
  | [] => False
  end.

Definition is_heartbeat (m : RslMessage) : bool :=
  match m with RslMessageHeartbeat _ _ _ => true | _ => false end.

Definition LReplicaNextProcessPacket (s s_ : LReplica) ios : Prop :=
  match ios with
  | [] => False
  | TimeoutReceive :: rest => s_ = s /\ rest = []
  | Receive r :: _ =>
      if is_heartbeat (msg r) then LReplicaNextReadClockAndProcessPacket s s_ ios
      else LReplicaNextProcessPacketWithoutReadingClock s s_ ios
  | _ :: _ => False
  end.

Definition LReplicaNumActions : Z := 10.

Definition SpontaneousIos ios (clocks : Z) : Prop :=
  clocks <= seq_len ios
  /\ (forall i io, 0 <= i < clocks -> seq_get ios i = Some io -> is_read_clock io = true)
  /\ (forall i io, clocks <= i < seq_len ios -> seq_get ios i = Some io -> is_send io = true).

(** [SpontaneousIos(ios, 1)] as a test, to branch on it. *)
Definition SpontaneousIos1 ios : bool :=
  match ios with
  | io0 :: rest => is_read_clock io0 && forallb is_send rest
  | [] => false
  end.

Definition SpontaneousClock ios : ClockReading :=
  if SpontaneousIos1 ios
  then MkClockReading (match ios with io0 :: _ => io_clock io0 | [] => inhabitant end)
  else MkClockReading 0.

Definition LReplicaNoReceiveNext s (nextActionIndex : Z) (s_ : LReplica) ios : Prop :=
  let sent := ExtractSentPacketsFromIos ios in
  if decide (nextActionIndex = 1) then
    SpontaneousIos ios 0 /\ LReplicaNextSpontaneousMaybeEnterNewViewAndSend1a s s_ sent
  else if decide (nextActionIndex = 2) then
    SpontaneousIos ios 0 /\ LReplicaNextSpontaneousMaybeEnterPhase2 s s_ sent
  else if decide (nextActionIndex = 3) then
    SpontaneousIos ios 1
    /\ LReplicaNextReadClockMaybeNominateValueAndSend2a s s_ (SpontaneousClock ios) sent
  else if decide (nextActionIndex = 4) then
    SpontaneousIos ios 0 /\ LReplicaNextSpontaneousTruncateLogBasedOnCheckpoints s s_ sent
  else if decide (nextActionIndex = 5) then
    SpontaneousIos ios 0 /\ LReplicaNextSpontaneousMaybeMakeDecision s s_ sent
  else if decide (nextActionIndex = 6) then
    SpontaneousIos ios 0 /\ LReplicaNextSpontaneousMaybeExecute s s_ sent
  else if decide (nextActionIndex = 7) then
    SpontaneousIos ios 1
    /\ LReplicaNextReadClockCheckForViewTimeout s s_ (SpontaneousClock ios) sent
  else if decide (nextActionIndex = 8) then
    SpontaneousIos ios 1
    /\ LReplicaNextReadClockCheckForQuorumOfViewSuspicions s s_ (SpontaneousClock ios) sent
  else
    nextActionIndex = 9
    /\ SpontaneousIos ios 1
    /\ LReplicaNextReadClockMaybeSendHeartbeat s s_ (SpontaneousClock ios) sent.
End scheduler_step.

Record LScheduler := MkLScheduler { replica : LReplica; nextActionIndex : Z }.

Definition LSchedulerInit (s : LScheduler) (c : LReplicaConstants) : Prop :=
  LReplicaInit (replica s) c /\ nextActionIndex s = 0.

Definition LSchedulerNext (s s_ : LScheduler) (ios : list RslIo) : Prop :=
  nextActionIndex s_ = (nextActionIndex s + 1) mod LReplicaNumActions
  /\ (if decide (nextActionIndex s = 0)
      then LReplicaNextProcessPacket (replica s) (replica s_) ios
      else LReplicaNoReceiveNext (replica s) (nextActionIndex s) (replica s_) ios).

(** ** Lemmas on the I/O of a step *)

Section ios_lemmas.
Implicit Types (ios : list RslIo) (ps : list RslPacket).

Lemma ExtractSent_elem ios p : p ∈ ExtractSentPacketsFromIos ios <-> Send p ∈ ios.
Proof.
  induction ios as [|io ios IH]; [split; by intros ?%not_elem_of_nil|].
  rewrite elem_of_cons. destruct io as [q|q| |t]; simpl; rewrite ?elem_of_cons, IH;
    split; intros H; destruct_or?; simplify_eq; auto.
Qed.

Lemma ExtractSent_sends ps : ExtractSentPacketsFromIos (Send <$> ps) = ps.
Proof. induction ps as [|p ps IH]; [done|]. cbn. f_equal. exact IH. Qed.

Lemma is_send_sends ps io : io ∈ (Send <$> ps : list RslIo) -> is_send io = true.
Proof. by intros (p & -> & _)%list_elem_of_fmap. Qed.

Lemma SpontaneousIos_sends ps : SpontaneousIos (Send <$> ps) 0.
Proof.
  split_all; [apply seq_len_nonneg|lia|]. intros i io _ Hio.
  eapply is_send_sends, seq_get_elem_of, Hio.
Qed.

Lemma SpontaneousIos1_spec ios : SpontaneousIos1 ios = true <-> SpontaneousIos ios 1.
Proof.
  unfold SpontaneousIos. destruct ios as [|io ios]; simpl.
  { split; [done|]. intros (H & _). unfold seq_len in H. simpl in H. lia. }
  rewrite andb_true_iff, forallb_forall. split.
  - intros [H1 H2]. split_and!.
    + unfold seq_len; simpl; lia.
    + intros i io' Hi Hio. replace i with 0 in Hio by lia. unfold seq_get in Hio.
      simpl in Hio. by simplify_eq.
    + intros i io' Hi Hio. apply H2, list_elem_of_In.
      unfold seq_get in Hio. rewrite decide_True in Hio by lia.
      destruct (Z.to_nat i) as [|n] eqn:Hn; [lia|]. simpl in Hio.
      by eapply list_elem_of_lookup_2.
  - intros (H0 & H1 & H2). split.
    + apply (H1 0); [lia|done].
    + intros io' [n Hn]%list_elem_of_In%list_elem_of_lookup.
      apply (H2 (Z.of_nat (S n))); [|by rewrite seq_get_of_nat].
      apply lookup_lt_Some in Hn. unfold seq_len. simpl. lia.
Qed.

Lemma SpontaneousIos_clock_sends t ps : SpontaneousIos (ReadClock t :: (Send <$> ps)) 1.
Proof.
  apply SpontaneousIos1_spec. simpl. apply forallb_forall.
  intros io Hio%list_elem_of_In. by eapply is_send_sends.
Qed.

Lemma SpontaneousClock_sends t ps :
  SpontaneousClock (ReadClock t :: (Send <$> ps)) = MkClockReading t.
Proof.
  unfold SpontaneousClock. by rewrite (proj2 (SpontaneousIos1_spec _) (SpontaneousIos_clock_sends t ps)).
Qed.
End ios_lemmas.
