(* ===== verification/ReplicaSteps.v ===== *)
(** * What one scheduled step can do

    [LSchedulerNext] (protocol/RSL/replica.rs) taken apart: [LReplicaStep] has
    one constructor per handler and action, and the projections say what a step
    does to each component and which packets it sends.  The distributed
    invariants are proved on these projections. *)

From stdpp Require Import prelude gmap sets list numbers fin_sets.
From Stdlib Require Import ZArith Lia.
From S2P Require Import Prelude.
From S2P Require Import Types.
From S2P Require Import Common.
From S2P Require Import Acceptor.
From S2P Require Import Election.
From S2P Require Import Learner.
From S2P Require Import Executor.
From S2P Require Import Proposer.
From S2P Require Import Environment.
From S2P Require Import Replica.

#[local] Open Scope Z_scope.

(** A step of replica [s] to [s_]: the packet it received, if any, and the
    packets it sends. *)
Inductive LReplicaStep (s s_ : LReplica) : option RslPacket -> list RslPacket -> Prop :=
  | step_idle recv : s_ = s -> LReplicaStep s s_ recv []
  | step_request p seqno v sent :
      msg p = RslMessageRequest seqno v ->
      LReplicaNextProcessRequest s s_ p sent -> LReplicaStep s s_ (Some p) sent
  | step_1a p bal sent :
      msg p = RslMessage1a bal ->
      LReplicaNextProcess1a s s_ p sent -> LReplicaStep s s_ (Some p) sent
  | step_1b p bal ltp votes sent :
      msg p = RslMessage1b bal ltp votes ->
      LReplicaNextProcess1b s s_ p sent -> LReplicaStep s s_ (Some p) sent
  | step_phase2 p bal ltp sent :
      msg p = RslMessageStartingPhase2 bal ltp ->
      LReplicaNextProcessStartingPhase2 s s_ p sent -> LReplicaStep s s_ (Some p) sent
  | step_2a p bal opn v sent :
      msg p = RslMessage2a bal opn v ->
      LReplicaNextProcess2a s s_ p sent -> LReplicaStep s s_ (Some p) sent
  | step_2b p bal opn v sent :
      msg p = RslMessage2b bal opn v ->
      LReplicaNextProcess2b s s_ p sent -> LReplicaStep s s_ (Some p) sent
  | step_supply p bal opn st cache sent :
      msg p = RslMessageAppStateSupply bal opn st cache ->
      LReplicaNextProcessAppStateSupply s s_ p sent -> LReplicaStep s s_ (Some p) sent
  | step_state_request p bal opn sent :
      msg p = RslMessageAppStateRequest bal opn ->
      LReplicaNextProcessAppStateRequest s s_ p sent -> LReplicaStep s s_ (Some p) sent
  | step_heartbeat p bal susp ckpt clock sent :
      msg p = RslMessageHeartbeat bal susp ckpt ->
      LReplicaNextProcessHeartbeat s s_ p clock sent -> LReplicaStep s s_ (Some p) sent
  | step_new_view sent :
      LReplicaNextSpontaneousMaybeEnterNewViewAndSend1a s s_ sent -> LReplicaStep s s_ None sent
  | step_enter_phase2 sent :
      LReplicaNextSpontaneousMaybeEnterPhase2 s s_ sent -> LReplicaStep s s_ None sent
  | step_nominate clock sent :
      LReplicaNextReadClockMaybeNominateValueAndSend2a s s_ clock sent -> LReplicaStep s s_ None sent
  | step_truncate sent :
      LReplicaNextSpontaneousTruncateLogBasedOnCheckpoints s s_ sent -> LReplicaStep s s_ None sent
  | step_decide sent :
      LReplicaNextSpontaneousMaybeMakeDecision s s_ sent -> LReplicaStep s s_ None sent
  | step_execute sent :
      LReplicaNextSpontaneousMaybeExecute s s_ sent -> LReplicaStep s s_ None sent
  | step_send_heartbeat clock sent :
      LReplicaNextReadClockMaybeSendHeartbeat s s_ clock sent -> LReplicaStep s s_ None sent
  | step_view_timeout clock sent :
      LReplicaNextReadClockCheckForViewTimeout s s_ clock sent -> LReplicaStep s s_ None sent
  | step_quorum clock sent :
      LReplicaNextReadClockCheckForQuorumOfViewSuspicions s s_ clock sent ->
      LReplicaStep s s_ None sent.

Lemma LReplicaNextProcessPacket_step s s_ ios :
  LReplicaNextProcessPacket s s_ ios ->
  exists recv, LReplicaStep s s_ recv (ExtractSentPacketsFromIos ios)
    /\ (forall p, recv = Some p -> Receive p ∈ ios).
Proof.
  destruct ios as [|[p|p| |t] rest]; try done; simpl.
  2: { intros [-> ->]. exists None. split; [by apply step_idle|done]. }
  intros H. exists (Some p). split; [|intros ? [= <-]; set_solver].
  destruct (is_heartbeat (msg p)) eqn:Hh.
  - destruct (msg p) eqn:Hmsg; try done. destruct rest as [|io rest]; [done|].
    destruct H as (_ & _ & H). by eapply step_heartbeat.
  - destruct H as [_ H]. simpl in H.
    destruct (msg p) eqn:Hmsg; try done.
    + destruct H as [-> ->]. by apply step_idle.
    + by eapply step_request.
    + by eapply step_1a.
    + by eapply step_1b.
    + by eapply step_2a.
    + by eapply step_2b.
    + destruct H as [-> ->]. by apply step_idle.
    + by eapply step_state_request.
    + by eapply step_supply.
    + by eapply step_phase2.
Qed.

Lemma LReplicaNoReceiveNext_step s i s_ ios :
  LReplicaNoReceiveNext s i s_ ios -> LReplicaStep s s_ None (ExtractSentPacketsFromIos ios).
Proof.
  unfold LReplicaNoReceiveNext. repeat case_decide; intros Hrel; break_ands.
  - by apply step_new_view.
  - by apply step_enter_phase2.
  - by eapply step_nominate.
  - by apply step_truncate.
  - by apply step_decide.
  - by apply step_execute.
  - by eapply step_view_timeout.
  - by eapply step_quorum.
  - by eapply step_send_heartbeat.
Qed.

Lemma LSchedulerNext_step s s_ ios :
  LSchedulerNext s s_ ios ->
  exists recv, LReplicaStep (replica s) (replica s_) recv (ExtractSentPacketsFromIos ios)
    /\ (forall p, recv = Some p -> Receive p ∈ ios).
Proof.
  intros [_ H]. case_decide.
  - by apply LReplicaNextProcessPacket_step.
  - exists None. split; [by eapply LReplicaNoReceiveNext_step|done].
Qed.

(** ** Constants *)

(** Every component holds the replica's own constants. *)
Definition same_constants (s : LReplica) (c : LReplicaConstants) : Prop :=
  constants s = c /\ pr_constants (proposer s) = c /\ acc_constants (acceptor s) = c
  /\ ll_constants (learner s) = c /\ ex_constants (executor s) = c.

Lemma LReplicaInit_same_constants s c : LReplicaInit s c -> same_constants s c.
Proof.
  intros (H1 & _ & (H2 & _) & (H3 & _) & (H4 & _) & (H5 & _)). by split_all.
Qed.

(** The cases of a step, each handler's relation named [H]. *)
Ltac step_cases Hstep :=
  destruct Hstep as [recv ->|p seqno v sent Hm H|p bal sent Hm H|p bal ltp votes sent Hm H
    |p bal ltp sent Hm H|p bal opn v sent Hm H|p bal opn v sent Hm H|p bal opn st cache sent Hm H
    |p bal opn sent Hm H|p bal susp ckpt clock sent Hm H|sent H|sent H|clock sent H|sent H|sent H
    |sent H|clock sent H|clock sent H|clock sent H].

(** Opens a handler's relation: its guard decided, its conjuncts named. *)
Ltac open_step H :=
  hnf in H;
  repeat match goal with
         | K : exists _, _ |- _ => destruct K
         | K : let _ := _ in _ |- _ => cbv zeta in K
         | K : _ /\ _ |- _ => destruct K
         | K : context [decide ?P] |- _ => destruct (decide P)
         end.

(** The component steps in the context change no constants. *)
Ltac frame_constants :=
  repeat match goal with
  | H : LAcceptorProcess1a _ _ _ _ |- _ => apply LAcceptorProcess1a_constants in H
  | H : LAcceptorProcess2a _ _ _ _ |- _ => apply LAcceptorProcess2a_constants in H
  | H : LAcceptorProcessHeartbeat _ _ _ |- _ => apply LAcceptorProcessHeartbeat_constants in H
  | H : LAcceptorTruncateLog _ _ _ |- _ => apply LAcceptorTruncateLog_constants in H
  | H : LProposerProcessRequest _ _ _ |- _ => apply LProposerProcessRequest_constants in H
  | H : LProposerMaybeEnterNewViewAndSend1a _ _ _ |- _ =>
      apply LProposerMaybeEnterNewViewAndSend1a_constants in H
  | H : LProposerProcess1b _ _ _ |- _ => apply LProposerProcess1b_constants in H
  | H : LProposerMaybeEnterPhase2 _ _ _ _ |- _ => apply LProposerMaybeEnterPhase2_constants in H
  | H : LProposerMaybeNominateValueAndSend2a _ _ _ _ _ |- _ =>
      apply LProposerMaybeNominate_constants in H
  | H : LProposerProcessHeartbeat _ _ _ _ |- _ => apply LProposerProcessHeartbeat_constants in H
  | H : LProposerCheckForViewTimeout _ _ _ |- _ => apply LProposerCheckForViewTimeout_constants in H
  | H : LProposerCheckForQuorumOfViewSuspicions _ _ _ |- _ =>
      apply LProposerCheckForQuorumOfViewSuspicions_constants in H
  | H : LProposerResetViewTimerDueToExecution _ _ _ |- _ =>
      apply LProposerResetViewTimer_constants in H
  | H : LLearnerProcess2b _ _ _ |- _ => apply LLearnerProcess2b_constants in H
  | H : LLearnerForgetDecision _ _ _ |- _ => apply LLearnerForgetDecision_constants in H
  | H : LLearnerForgetOperationsBefore _ _ _ |- _ =>
      apply LLearnerForgetOperationsBefore_constants in H
  | H : LExecutorGetDecision _ _ _ _ _ |- _ => apply LExecutorGetDecision_constants in H
  | H : LExecutorProcessAppStateSupply _ _ _ |- _ =>
      apply LExecutorProcessAppStateSupply_constants in H
  | H : LExecutorProcessAppStateRequest _ _ _ _ |- _ =>
      apply LExecutorProcessAppStateRequest_same in H
  | H : LExecutorProcessStartingPhase2 _ _ _ _ |- _ =>
      apply LExecutorProcessStartingPhase2_same in H
  | H : LExecutorExecute _ _ _ |- _ => apply LExecutorExecute_constants in H
  end.

Lemma LReplicaStep_constants s s_ recv sent c :
  LReplicaStep s s_ recv sent -> same_constants s c -> same_constants s_ c.
Proof.
  intros Hstep (Hc & Hp & Ha & Hl & He). unfold same_constants.
  step_cases Hstep; [done|..].
  all: open_step H; frame_constants.
  all: match goal with E : @eq LReplica _ _ |- _ => rewrite E; clear E end;
    simpl; split_and!; congruence.
Qed.

(** ** Who sends what *)

Inductive MsgClass :=
  | KInvalid | KRequest | K1a | K1b | K2a | K2b | KHeartbeat | KReply
  | KStateRequest | KStateSupply | KPhase2.

#[export] Instance MsgClass_eq_dec : EqDecision MsgClass.
Proof. solve_decision. Defined.

Definition msg_class (m : RslMessage) : MsgClass :=
  match m with
  | RslMessageInvalid => KInvalid
  | RslMessageRequest _ _ => KRequest
  | RslMessage1a _ => K1a
  | RslMessage1b _ _ _ => K1b
  | RslMessage2a _ _ _ => K2a
  | RslMessage2b _ _ _ => K2b
  | RslMessageHeartbeat _ _ _ => KHeartbeat
  | RslMessageReply _ _ => KReply
  | RslMessageAppStateRequest _ _ => KStateRequest
  | RslMessageAppStateSupply _ _ _ _ => KStateSupply
  | RslMessageStartingPhase2 _ _ => KPhase2
  end.

(** The host's own address. *)
Definition self_of (c : LReplicaConstants) : AbstractEndPoint := seq_index (ids_of c) (my_index c).

(** Every packet is sent from [me] and of class [k]. *)
Definition sent_as (me : AbstractEndPoint) (k : MsgClass) (sent : list RslPacket) : Prop :=
  forall p, p ∈ sent -> src p = me /\ msg_class (msg p) = k.

Section sent_lemmas.
Implicit Types (sent : list RslPacket).

Lemma sent_as_nil me k : sent_as me k [].
Proof. intros p Hp. by apply not_elem_of_nil in Hp. Qed.

Lemma sent_as_one me k p : src p = me -> msg_class (msg p) = k -> sent_as me k [p].
Proof. intros ? ? q Hq%list_elem_of_singleton. by subst. Qed.

Lemma sent_as_broadcast c m sent :
  LBroadcastToEveryone (config (all c)) (my_index c) m sent ->
  sent_as (self_of c) (msg_class m) sent.
Proof. intros H p Hp. destruct (LBroadcastToEveryone_elem _ _ _ _ _ H Hp) as (? & _ & _ & ->). done. Qed.

Lemma sent_as_neq me k sent p k' : sent_as me k sent -> k <> k' -> p ∈ sent -> msg_class (msg p) <> k'.
Proof. intros H Hk Hp. by destruct (H p Hp) as [_ ->]. Qed.

Lemma LAcceptorProcess1a_sent s s_ p sent :
  LAcceptorProcess1a s s_ p sent -> sent_as (self_of (acc_constants s)) K1b sent.
Proof.
  unfold LAcceptorProcess1a. case_decide; intros H'; destruct_and?; subst;
    [by apply sent_as_one|apply sent_as_nil].
Qed.

Lemma LAcceptorProcess2a_sent s s_ p sent :
  LAcceptorProcess2a s s_ p sent -> sent_as (self_of (acc_constants s)) K2b sent.
Proof. intros [H _]. by apply sent_as_broadcast in H. Qed.

Lemma LProposerMaybeEnterNewView_sent s s_ sent :
  LProposerMaybeEnterNewViewAndSend1a s s_ sent -> sent_as (self_of (pr_constants s)) K1a sent.
Proof.
  unfold LProposerMaybeEnterNewViewAndSend1a. case_decide; intros [_ H'];
    [by apply sent_as_broadcast in H'|subst; apply sent_as_nil].
Qed.

Lemma LProposerMaybeEnterPhase2_sent s s_ ltp sent :
  LProposerMaybeEnterPhase2 s s_ ltp sent -> sent_as (self_of (pr_constants s)) KPhase2 sent.
Proof.
  unfold LProposerMaybeEnterPhase2. case_decide; intros [_ H'];
    [by apply sent_as_broadcast in H'|subst; apply sent_as_nil].
Qed.

Lemma LProposerMaybeNominate_sent s s_ clock ltp sent :
  LProposerMaybeNominateValueAndSend2a s s_ clock ltp sent ->
  sent_as (self_of (pr_constants s)) K2a sent.
Proof.
  intros [(-> & _)|[(_ & _ & H)|(_ & _ & H)]]%LProposerMaybeNominate_inv; [apply sent_as_nil| |].
  - destruct H as (p & _ & _ & _ & H). by apply sent_as_broadcast in H.
  - destruct H as [_ H]. by apply sent_as_broadcast in H.
Qed.

Lemma GetPacketsFromReplies_sent me reqs reps : sent_as me KReply (GetPacketsFromReplies me reqs reps).
Proof.
  revert reps. induction reqs as [|r reqs IH]; intros reps; [apply sent_as_nil|].
  intros p [->|Hp]%elem_of_cons; [done|]. by eapply IH.
Qed.

Lemma LExecutorExecute_sent s s_ sent :
  LExecutorExecute s s_ sent -> sent_as (self_of (ex_constants s)) KReply sent.
Proof. intros (_ & _ & _ & _ & _ & _ & -> & _). apply GetPacketsFromReplies_sent. Qed.

Lemma LExecutorProcessRequest_sent s p sent :
  LExecutorProcessRequest s p sent -> sent_as (self_of (ex_constants s)) KReply sent.
Proof.
  unfold LExecutorProcessRequest. case_decide; intros ->; [by apply sent_as_one|apply sent_as_nil].
Qed.

Lemma LExecutorProcessAppStateRequest_sent s s_ p sent :
  LExecutorProcessAppStateRequest s s_ p sent -> sent_as (self_of (ex_constants s)) KStateSupply sent.
Proof.
  unfold LExecutorProcessAppStateRequest. case_decide; intros [_ ->];
    [by apply sent_as_one|apply sent_as_nil].
Qed.

Lemma LExecutorProcessStartingPhase2_sent s s_ p sent :
  LExecutorProcessStartingPhase2 s s_ p sent -> sent_as (self_of (ex_constants s)) KStateRequest sent.
Proof.
  unfold LExecutorProcessStartingPhase2. case_decide; intros [_ H'];
    [by apply sent_as_broadcast in H'|subst; apply sent_as_nil].
Qed.
End sent_lemmas.

(** Replaces the component steps in the context by what they send. *)
Ltac frame_sent :=
  repeat match goal with
  | H : LAcceptorProcess1a _ _ _ _ |- _ => apply LAcceptorProcess1a_sent in H
  | H : LAcceptorProcess2a _ _ _ _ |- _ => apply LAcceptorProcess2a_sent in H
  | H : LProposerMaybeEnterNewViewAndSend1a _ _ _ |- _ => apply LProposerMaybeEnterNewView_sent in H
  | H : LProposerMaybeEnterPhase2 _ _ _ _ |- _ => apply LProposerMaybeEnterPhase2_sent in H
  | H : LProposerMaybeNominateValueAndSend2a _ _ _ _ _ |- _ => apply LProposerMaybeNominate_sent in H
  | H : LExecutorExecute _ _ _ |- _ => apply LExecutorExecute_sent in H
  | H : LExecutorProcessRequest _ _ _ |- _ => apply LExecutorProcessRequest_sent in H
  | H : LExecutorProcessAppStateRequest _ _ _ _ |- _ =>
      apply LExecutorProcessAppStateRequest_sent in H
  | H : LExecutorProcessStartingPhase2 _ _ _ _ |- _ => apply LExecutorProcessStartingPhase2_sent in H
  | H : LBroadcastToEveryone _ _ _ _ |- _ => apply sent_as_broadcast in H
  end.

(** A replica sends only from its own address. *)
Lemma LReplicaStep_sent s s_ recv sent c :
  LReplicaStep s s_ recv sent -> same_constants s c ->
  forall p, p ∈ sent -> src p = self_of c.
Proof.
  intros Hstep (Hc & Hp & Ha & Hl & He).
  assert (exists k, sent_as (self_of c) k sent) as [k Hk]; [|intros p Hin; by apply (Hk p Hin)].
  step_cases Hstep; [exists K1a; apply sent_as_nil|..].
  all: open_step H; frame_sent; rewrite ?Ha, ?Hp, ?He, ?Hc in *;
    first [eexists; eassumption | subst; exists K1a; apply sent_as_nil].
Qed.

(** ** Projections

    What a step does to one component, with the packets that matter to it. *)

(** The acceptor's promise and the votes beyond its truncation point stay. *)
Definition acceptor_quiet (a a_ : LAcceptor) : Prop :=
  acc_max_bal a_ = acc_max_bal a
  /\ acc_log_truncation_point a <= acc_log_truncation_point a_
  /\ (forall opn v, acc_votes a_ !! opn = Some v -> acc_votes a !! opn = Some v)
  /\ (forall opn, opn >= acc_log_truncation_point a_ -> acc_votes a_ !! opn = acc_votes a !! opn).

Inductive acceptor_step (a a_ : LAcceptor) (recv : option RslPacket) (sent : list RslPacket) : Prop :=
  | acceptor_step_quiet :
      acceptor_quiet a a_ ->
      (forall p, p ∈ sent -> msg_class (msg p) <> K1b /\ msg_class (msg p) <> K2b) ->
      acceptor_step a a_ recv sent
  | acceptor_step_1a p bal :
      recv = Some p -> msg p = RslMessage1a bal -> LAcceptorProcess1a a a_ p sent ->
      acceptor_step a a_ recv sent
  | acceptor_step_2a p bal opn v :
      recv = Some p -> msg p = RslMessage2a bal opn v -> src p ∈ ids_of (acc_constants a) ->
      BalLeq (acc_max_bal a) bal -> LAcceptorProcess2a a a_ p sent ->
      acceptor_step a a_ recv sent.

Lemma acceptor_quiet_refl a : acceptor_quiet a a.
Proof. by split_all. Qed.

Lemma LAcceptorTruncateLog_quiet a a_ opn : LAcceptorTruncateLog a a_ opn -> acceptor_quiet a a_.
Proof.
  unfold LAcceptorTruncateLog. case_decide as Hle; [intros ->; apply acceptor_quiet_refl|].
  intros [-> Hv]. cbn [acc_votes] in Hv.
  split_all; simpl; [done|lia|intros o v|intros o Ho]; rewrite (RemoveVotes_lookup _ _ _ _ Hv);
    by case_decide.
Qed.

Lemma LAcceptorProcessHeartbeat_quiet a a_ p :
  LAcceptorProcessHeartbeat a a_ p -> acceptor_quiet a a_.
Proof.
  unfold LAcceptorProcessHeartbeat. repeat case_decide; intros Hrel; break_ands; subst;
    try apply acceptor_quiet_refl.
  split_all; [done|lia|intros o v|intros o _]; congruence.
Qed.

Lemma acceptor_quiet_eq a a_ : a_ = a -> acceptor_quiet a a_.
Proof. intros ->. apply acceptor_quiet_refl. Qed.

(** The acceptor part of a step that is quiet and sends one other class. *)
Lemma acceptor_step_other a a_ recv sent me k :
  acceptor_quiet a a_ -> sent_as me k sent -> k <> K1b -> k <> K2b -> acceptor_step a a_ recv sent.
Proof. intros ? Hs ? ?. apply acceptor_step_quiet; [done|]. split; by eapply sent_as_neq. Qed.

Lemma acceptor_step_silent a a_ recv : acceptor_quiet a a_ -> acceptor_step a a_ recv [].
Proof. intros. eapply (acceptor_step_other _ _ _ _ inhabitant K1a); auto. apply sent_as_nil. Qed.

Lemma LReplicaStep_acceptor s s_ recv sent :
  LReplicaStep s s_ recv sent -> acceptor_step (acceptor s) (acceptor s_) recv sent.
Proof.
  intros Hstep. step_cases Hstep; [apply acceptor_step_silent; apply acceptor_quiet_refl|..].
  all: open_step H.
  all: try (by eapply acceptor_step_1a); try (by eapply acceptor_step_2a; rewrite ?Hm in *).
  all: frame_sent.
  all: assert (acceptor_quiet (acceptor s) (acceptor s_)) as Hquiet;
    [first
      [ by eapply LAcceptorTruncateLog_quiet
      | by eapply LAcceptorProcessHeartbeat_quiet
      | match goal with E : @eq LReplica _ _ |- _ => rewrite E end; apply acceptor_quiet_refl ]|].
  all: first
    [ by eapply acceptor_step_other
    | match goal with E : ?l = [] |- acceptor_step _ _ _ ?l => rewrite E end; by apply acceptor_step_silent ].
Qed.

(** The proposer keeps its ballot, its 1bs and its place in the log; it may be
    demoted. *)
Definition proposer_quiet (q q_ : LProposer) : Prop :=
  max_ballot_i_sent_1a q_ = max_ballot_i_sent_1a q
  /\ next_operation_number_to_propose q_ = next_operation_number_to_propose q
  /\ received_1b_packets q_ = received_1b_packets q
  /\ (current_state q_ = current_state q \/ current_state q_ = 0).

(** What justifies proposing [v] for operation [opn]. *)
Definition justified (S : gset RslPacket) (opn : OperationNumber) (v : RequestBatch) : Prop :=
  LAllAcceptorsHadNoProposal S opn \/ LValIsHighestNumberedProposal v S opn.

Inductive proposer_step (q q_ : LProposer) (recv : option RslPacket) (sent : list RslPacket) : Prop :=
  | proposer_step_quiet :
      proposer_quiet q q_ -> (forall p, p ∈ sent -> msg_class (msg p) <> K2a) ->
      proposer_step q q_ recv sent
  | proposer_step_new_view :
      BalLt (max_ballot_i_sent_1a q) (max_ballot_i_sent_1a q_) ->
      bal_proposer_id (max_ballot_i_sent_1a q_) = my_index (pr_constants q) ->
      current_state q_ = 1 -> received_1b_packets q_ = ∅ ->
      (forall p, p ∈ sent -> msg_class (msg p) <> K2a) -> proposer_step q q_ recv sent
  | proposer_step_1b p :
      recv = Some p -> msg_class (msg p) = K1b -> src p ∈ ids_of (pr_constants q) ->
      msg_bal_1b (msg p) = max_ballot_i_sent_1a q -> current_state q = 1 ->
      set_Forall (fun other => src other <> src p) (received_1b_packets q) ->
      LProposerProcess1b q q_ p -> sent = [] -> proposer_step q q_ recv sent
  | proposer_step_phase2 :
      current_state q = 1 -> current_state q_ = 2 ->
      max_ballot_i_sent_1a q_ = max_ballot_i_sent_1a q ->
      received_1b_packets q_ = received_1b_packets q ->
      (forall p, p ∈ sent -> msg_class (msg p) <> K2a) -> proposer_step q q_ recv sent
  | proposer_step_nominate v :
      let opn := next_operation_number_to_propose q in
      current_state q = 2 ->
      Z.of_nat (size (received_1b_packets q)) >= LMinQuorumSize (config (all (pr_constants q))) ->
      LSetOfMessage1bAboutBallot (received_1b_packets q) (max_ballot_i_sent_1a q) ->
      LIsAfterLogTruncationPoint opn (received_1b_packets q) -> 0 <= opn ->
      justified (received_1b_packets q) opn v ->
      current_state q_ = 2 -> max_ballot_i_sent_1a q_ = max_ballot_i_sent_1a q ->
      received_1b_packets q_ = received_1b_packets q ->
      next_operation_number_to_propose q_ = opn + 1 ->
      LBroadcastToEveryone (config (all (pr_constants q))) (my_index (pr_constants q))
        (RslMessage2a (max_ballot_i_sent_1a q) opn v) sent ->
      proposer_step q q_ recv sent.

Section proposer_projection.
Implicit Types (q : LProposer) (sent : list RslPacket).

Lemma proposer_quiet_refl q : proposer_quiet q q.
Proof. split_all; auto. Qed.

Lemma proposer_quiet_election q es : proposer_quiet q (with_election_state q es).
Proof. split_all; simpl; auto. Qed.

Lemma LProposerProcessRequest_quiet q q_ p : LProposerProcessRequest q q_ p -> proposer_quiet q q_.
Proof. intros [_ Hrel]. case_decide; rewrite Hrel; split_all; simpl; auto. Qed.

Lemma demoted_quiet q q_ : demoted_by_new_view q q_ -> same_but_role q q_ -> proposer_quiet q q_.
Proof.
  unfold demoted_by_new_view, same_but_role. intros Hd Hs.
  split_all; [rewrite Hs; done..|]. case_decide; naive_solver.
Qed.

Lemma LProposerProcessHeartbeat_quiet q q_ p clock :
  LProposerProcessHeartbeat q q_ p clock -> proposer_quiet q q_.
Proof. intros (_ & ? & ?). by apply demoted_quiet. Qed.

Lemma LProposerCheckForQuorum_quiet q q_ clock :
  LProposerCheckForQuorumOfViewSuspicions q q_ clock -> proposer_quiet q q_.
Proof. intros (_ & ? & ?). by apply demoted_quiet. Qed.

Lemma LProposerCheckForViewTimeout_quiet q q_ clock :
  LProposerCheckForViewTimeout q q_ clock -> proposer_quiet q q_.
Proof. intros (_ & ->). apply proposer_quiet_election. Qed.

Lemma LProposerResetViewTimer_quiet q q_ v :
  LProposerResetViewTimerDueToExecution q q_ v -> proposer_quiet q q_.
Proof. intros (_ & ->). apply proposer_quiet_election. Qed.

Lemma proposer_step_other q q_ recv sent me k :
  proposer_quiet q q_ -> sent_as me k sent -> k <> K2a -> proposer_step q q_ recv sent.
Proof. intros ? Hs ?. apply proposer_step_quiet; [done|]. intros p. by eapply sent_as_neq. Qed.

Lemma proposer_step_silent q q_ recv : proposer_quiet q q_ -> proposer_step q q_ recv [].
Proof. intros. eapply (proposer_step_other _ _ _ _ inhabitant K1a); auto. apply sent_as_nil. Qed.

Lemma LProposerMaybeEnterNewView_step q q_ recv sent :
  LProposerMaybeEnterNewViewAndSend1a q q_ sent -> proposer_step q q_ recv sent.
Proof.
  intros Hrel. pose proof (LProposerMaybeEnterNewView_sent _ _ _ Hrel) as Hsent. revert Hrel.
  unfold LProposerMaybeEnterNewViewAndSend1a. case_decide as Hg.
  - intros [-> _]. destruct Hg. apply proposer_step_new_view; try done.
    intros p. by eapply sent_as_neq.
  - intros [-> ->]. apply proposer_step_silent, proposer_quiet_refl.
Qed.

Lemma LProposerMaybeEnterPhase2_step q q_ ltp recv sent :
  LProposerMaybeEnterPhase2 q q_ ltp sent -> proposer_step q q_ recv sent.
Proof.
  intros Hrel. pose proof (LProposerMaybeEnterPhase2_sent _ _ _ _ Hrel) as Hsent. revert Hrel.
  unfold LProposerMaybeEnterPhase2. case_decide as Hg.
  - intros [-> _]. apply proposer_step_phase2; try done; [apply Hg|].
    intros p. by eapply sent_as_neq.
  - intros [-> ->]. apply proposer_step_silent, proposer_quiet_refl.
Qed.

Lemma LProposerMaybeNominate_step q q_ clock ltp recv sent :
  LProposerMaybeNominateValueAndSend2a q q_ clock ltp sent -> proposer_step q q_ recv sent.
Proof.
  intros [(-> & t & ->)|[(Hcan & _ & Hold)|(Hcan & Hno & Hnew)]]%LProposerMaybeNominate_inv.
  - apply proposer_step_silent. by split_all; simpl; auto.
  - destruct Hcan as (_ & ? & ? & ? & ? & _ & ? & _). destruct Hold as (p & _ & Hv & -> & Hb).
    eapply proposer_step_nominate; try done; [lia|by right].
  - destruct Hcan as (_ & ? & ? & ? & ? & _ & ? & _). destruct Hnew as [-> Hb].
    eapply proposer_step_nominate; try done; [lia|by left].
Qed.
End proposer_projection.

Lemma LReplicaStep_proposer s s_ recv sent :
  LReplicaStep s s_ recv sent -> proposer_step (proposer s) (proposer s_) recv sent.
Proof.
  intros Hstep. step_cases Hstep; [apply proposer_step_silent, proposer_quiet_refl|..].
  all: open_step H.
  all: try (by eapply LProposerMaybeEnterNewView_step);
    try (by eapply LProposerMaybeEnterPhase2_step); try (by eapply LProposerMaybeNominate_step);
    try (by match goal with A : accepts_1b _ _ |- _ => destruct A as (? & ? & ? & ?) end;
            eapply proposer_step_1b; first [done|by rewrite Hm]).
  all: frame_sent.
  all: assert (proposer_quiet (proposer s) (proposer s_)) as Hquiet;
    [first
      [ by eapply LProposerProcessRequest_quiet
      | by eapply LProposerProcessHeartbeat_quiet
      | by eapply LProposerCheckForQuorum_quiet
      | by eapply LProposerCheckForViewTimeout_quiet
      | by eapply LProposerResetViewTimer_quiet
      | match goal with E : @eq LReplica _ _ |- _ => rewrite E end; apply proposer_quiet_refl ]|].
  all: first
    [ by eapply proposer_step_other
    | match goal with E : ?l = [] |- proposer_step _ _ _ ?l => rewrite E end;
      by apply proposer_step_silent ].
Qed.

(** The learner only forgets. *)
Definition learner_quiet (l l_ : LLearner) : Prop :=
  max_ballot_seen l_ = max_ballot_seen l
  /\ forall opn t, unexecuted_learner_state l_ !! opn = Some t ->
       unexecuted_learner_state l !! opn = Some t.

Inductive learner_step (l l_ : LLearner) (recv : option RslPacket) : Prop :=
  | learner_step_quiet : learner_quiet l l_ -> learner_step l l_ recv
  | learner_step_2b p bal opn v :
      recv = Some p -> msg p = RslMessage2b bal opn v -> LLearnerProcess2b l l_ p ->
      learner_step l l_ recv.

Section learner_projection.
Implicit Types (l : LLearner).

Lemma learner_quiet_refl l : learner_quiet l l.
Proof. by split. Qed.

Lemma LLearnerForgetDecision_quiet l l_ opn : LLearnerForgetDecision l l_ opn -> learner_quiet l l_.
Proof.
  unfold LLearnerForgetDecision. case_decide; intros ->; [|apply learner_quiet_refl].
  split; [done|]. simpl. by intros o t [_ ?]%lookup_delete_Some.
Qed.

Lemma LLearnerForgetOperationsBefore_quiet l l_ opn :
  LLearnerForgetOperationsBefore l l_ opn -> learner_quiet l l_.
Proof.
  intros (_ & Hsame & E). split; [by rewrite E|]. intros o t Ht.
  rewrite <- (Hsame o) by eauto. done.
Qed.
End learner_projection.

Lemma LReplicaStep_learner s s_ recv sent :
  LReplicaStep s s_ recv sent -> learner_step (learner s) (learner s_) recv.
Proof.
  intros Hstep. step_cases Hstep; [apply learner_step_quiet, learner_quiet_refl|..].
  all: open_step H.
  all: try (by eapply learner_step_2b).
  all: apply learner_step_quiet; first
    [ by eapply LLearnerForgetDecision_quiet
    | by eapply LLearnerForgetOperationsBefore_quiet
    | match goal with E : @eq LReplica _ _ |- _ => rewrite E end; apply learner_quiet_refl ].
Qed.

Inductive executor_step (s : LReplica) (e_ : LExecutor) (recv : option RslPacket)
    (sent : list RslPacket) : Prop :=
  | executor_step_quiet :
      e_ = executor s ->
      (forall p, p ∈ sent -> msg_class (msg p) <> KReply /\ msg_class (msg p) <> KStateSupply) ->
      executor_step s e_ recv sent
  | executor_step_cached p :
      e_ = executor s -> recv = Some p -> request_cached s p ->
      LExecutorProcessRequest (executor s) p sent -> executor_step s e_ recv sent
  | executor_step_supplies p :
      e_ = executor s -> LExecutorProcessAppStateRequest (executor s) e_ p sent ->
      executor_step s e_ recv sent
  | executor_step_decide :
      decision_ready s ->
      LExecutorGetDecision (executor s) e_ (max_ballot_seen (learner s)) (ops_complete (executor s))
        (candidate_learned_value
           (unexecuted_learner_state (learner s) !!! ops_complete (executor s))) ->
      sent = [] -> executor_step s e_ recv sent
  | executor_step_execute :
      op_known (next_op_to_execute (executor s)) = true -> LExecutorExecute (executor s) e_ sent ->
      executor_step s e_ recv sent
  | executor_step_supplied p bal opn st cache :
      recv = Some p -> msg p = RslMessageAppStateSupply bal opn st cache ->
      src p ∈ ids_of (ex_constants (executor s)) -> opn > ops_complete (executor s) ->
      LExecutorProcessAppStateSupply (executor s) e_ p -> sent = [] ->
      executor_step s e_ recv sent.

Lemma executor_step_other s e_ recv sent me k :
  e_ = executor s -> sent_as me k sent -> k <> KReply -> k <> KStateSupply ->
  executor_step s e_ recv sent.
Proof. intros ? Hs ? ?. apply executor_step_quiet; [done|]. split; by eapply sent_as_neq. Qed.

Lemma executor_step_silent s e_ recv : e_ = executor s -> executor_step s e_ recv [].
Proof. intros. eapply (executor_step_other _ _ _ _ inhabitant K1a); auto. apply sent_as_nil. Qed.

Lemma LReplicaStep_executor s s_ recv sent :
  LReplicaStep s s_ recv sent -> executor_step s (executor s_) recv sent.
Proof.
  intros Hstep. step_cases Hstep; [by apply executor_step_silent|..].
  all: open_step H.
  all: try (by eapply executor_step_execute); try (by eapply executor_step_decide);
    try (by match goal with E : @eq LReplica _ _ |- _ => rewrite E end; eapply executor_step_cached);
    try (by eapply executor_step_supplies; [by eapply LExecutorProcessAppStateRequest_same|]);
    try (by eapply executor_step_supplied; rewrite ?Hm in *).
  all: try match goal with A : LExecutorProcessStartingPhase2 _ _ _ _ |- _ =>
         pose proof (LExecutorProcessStartingPhase2_same _ _ _ _ A) end.
  all: frame_sent.
  all: assert (executor s_ = executor s) as Hquiet;
    [first [ done | match goal with E : @eq LReplica _ _ |- _ => rewrite E end; done ]|].
  all: first
    [ by eapply executor_step_other
    | match goal with E : ?l = [] |- executor_step _ _ _ ?l => rewrite E end;
      by apply executor_step_silent ].
Qed.
