(* ===== verification/ReplicaImpl.v ===== *)
(** * The executable replica and its event loop

    generated/RSL/replica_gen.rs, implementation/RSL/ReplicaImpl.rs (whose
    [...Outbound] wrappers, trusted by the source, only repackage the packets)
    and implementation/RSL/replicaimpl_*.rs: the main loop that receives a
    packet, reads the clock, runs a handler and sends its packets.  The source
    does not connect the main loop to [LSchedulerNext]; here
    [Replica_Next_main] is proved to implement it. *)

From stdpp Require Import prelude gmap sets list numbers fin_sets.
From Stdlib Require Import ZArith Lia.
From S2P Require Import Prelude.
From S2P Require Import Types.
From S2P Require Import Common.
From S2P Require Import Acceptor.
From S2P Require Import Election.
From S2P Require Import Learner.
From S2P Require Import Executor.
From S2P Require Import Proposer.
From S2P Require Import Environment.
From S2P Require Import Replica.
From S2P Require Import ReplicaSteps.

#[local] Open Scope Z_scope.

Record CReplica := MkCReplica
  { c_constants : CReplicaConstants;
    c_nextHeartbeatTime : Z;
    c_proposer : CProposer;
    c_acceptor : CAcceptor;
    c_learner : CLearner;
    c_executor : CExecutor }.

#[export] Instance CReplica_view : View CReplica LReplica := fun s =>
  {| constants := view (c_constants s);
     nextHeartbeatTime := c_nextHeartbeatTime s;
     proposer := view (c_proposer s);
     acceptor := view (c_acceptor s);
     learner := view (c_learner s);
     executor := view (c_executor s) |}.

#[export] Instance CReplica_valid : Valid CReplica := fun s =>
  valid (c_constants s) /\ valid (c_proposer s) /\ valid (c_acceptor s)
  /\ valid (c_learner s) /\ valid (c_executor s)
  /\ view (c_constants s) = acc_constants (view (c_acceptor s))
  /\ view (c_constants s) = pr_constants (view (c_proposer s))
  /\ view (c_constants s) = ll_constants (view (c_learner s))
  /\ view (c_constants s) = ex_constants (view (c_executor s))
  (* the width of the [u64] field *)
  /\ is_u64 (c_nextHeartbeatTime s).

(** [self.field = v]. *)
Definition set_proposer (s : CReplica) (p : CProposer) : CReplica :=
  MkCReplica (c_constants s) (c_nextHeartbeatTime s) p (c_acceptor s) (c_learner s) (c_executor s).
Definition set_acceptor (s : CReplica) (a : CAcceptor) : CReplica :=
  MkCReplica (c_constants s) (c_nextHeartbeatTime s) (c_proposer s) a (c_learner s) (c_executor s).
Definition set_learner (s : CReplica) (l : CLearner) : CReplica :=
  MkCReplica (c_constants s) (c_nextHeartbeatTime s) (c_proposer s) (c_acceptor s) l (c_executor s).
Definition set_executor (s : CReplica) (e : CExecutor) : CReplica :=
  MkCReplica (c_constants s) (c_nextHeartbeatTime s) (c_proposer s) (c_acceptor s) (c_learner s) e.
Definition set_nextHeartbeatTime (s : CReplica) (t : Z) : CReplica :=
  MkCReplica (c_constants s) t (c_proposer s) (c_acceptor s) (c_learner s) (c_executor s).

Definition CReplicaInit (c : CReplicaConstants) : CReplica :=
  {| c_constants := c;
     c_nextHeartbeatTime := 0;
     c_proposer := CProposerInit c;
     c_acceptor := CAcceptorInit c;
     c_learner := CLearnerInit c;
     c_executor := CExecutorInit c |}.

(** ** Handlers *)

Section c_handlers.
Implicit Types (s : CReplica) (p : RslPacket).

Definition CReplicaNextProcessInvalid s p : CReplica * list RslPacket := (s, []).

Definition CReplicaNextProcessRequest s p : CReplica * list RslPacket :=
  match msg p with
  | RslMessageRequest seqno_req _ =>
      let fresh := (set_proposer s (CProposerProcessRequest (c_proposer s) p), []) in
      match c_reply_cache (c_executor s) !! src p with
      | Some r =>
          let cached_seqno := rep_seqno r in
          if seqno_req <=? cached_seqno
          then (s, CExecutorProcessRequest (c_executor s) p)
          else fresh
      | None => fresh
      end
  | _ => (s, []) (* unreachable_value() *)
  end.

Definition CReplicaNextProcess1a s p : CReplica * list RslPacket :=
  let '(a, sent_packets) := CAcceptorProcess1a (c_acceptor s) p in
  (set_acceptor s a, sent_packets).

(** The scan never stops early: [res] is cleared at each packet from the
    same source. *)
Definition Packet1bHasUniqueSrc (received_1b_packets : gset RslPacket) p : bool :=
  foldl (fun res op => if decide (src op = src p) then false else res) true
    (hashset_to_vec received_1b_packets).

Definition CReplicaNextProcess1b s p : CReplica * list RslPacket :=
  match msg p with
  | RslMessage1b bal_1b log_truncation_point _ =>
      let samesrc := Packet1bHasUniqueSrc (c_received_1b_packets (c_proposer s)) p in
      let src_in_config := bool_decide (src p ∈ c_ids_of (cp_constants (c_proposer s))) in
      let bal_eq := CBalEq bal_1b (c_max_ballot_i_sent_1a (c_proposer s)) in
      let state_is_1 := c_current_state (c_proposer s) =? 1 in
      if src_in_config && bal_eq && state_is_1 && samesrc then
        (MkCReplica (c_constants s) (c_nextHeartbeatTime s)
           (CProposerProcess1b (c_proposer s) p)
           (CAcceptorTruncateLog (c_acceptor s) log_truncation_point)
           (c_learner s) (c_executor s), [])
      else (s, [])
  | _ => (s, []) (* unreachable_value() *)
  end.

Definition CReplicaNextProcessStartingPhase2 s p : CReplica * list RslPacket :=
  (s, CExecutorProcessStartingPhase2 (c_executor s) p).

Definition CReplicaNextProcess2a s p : CReplica * list RslPacket :=
  match msg p with
  | RslMessage2a bal_2a opn_2a _ =>
      let src_in_config := bool_decide (src p ∈ c_ids_of (ca_constants (c_acceptor s))) in
      let bal_leq := CBalLeq (ca_max_bal (c_acceptor s)) bal_2a in
      let opn_in_bound :=
        opn_2a <=? c_max_integer_val (c_params_of (ca_constants (c_acceptor s))) in
      if src_in_config && bal_leq && opn_in_bound then
        let '(a, sent_packets) := CAcceptorProcess2a (c_acceptor s) p in
        (set_acceptor s a, sent_packets)
      else (s, [])
  | _ => (s, []) (* unreachable_value() *)
  end.

Definition CReplicaNextProcess2b s p : CReplica * list RslPacket :=
  match msg p with
  | RslMessage2b _ opn _ =>
      let op_learnable :=
        (c_ops_complete (c_executor s) <? opn)
        || ((c_ops_complete (c_executor s) =? opn)
            && negb (op_known (c_next_op_to_execute (c_executor s)))) in
      if op_learnable then (set_learner s (CLearnerProcess2b (c_learner s) p), [])
      else (s, [])
  | _ => (s, []) (* unreachable_value() *)
  end.

Definition CReplicaNextProcessReply s p : CReplica * list RslPacket := (s, []).

Definition CReplicaNextProcessAppStateSupply s p : CReplica * list RslPacket :=
  match msg p with
  | RslMessageAppStateSupply _ opn_state_supply _ _ =>
      if bool_decide (src p ∈ c_ids_of (cex_constants (c_executor s)))
         && (opn_state_supply >? c_ops_complete (c_executor s))
      then
        (MkCReplica (c_constants s) (c_nextHeartbeatTime s) (c_proposer s) (c_acceptor s)
           (CLearnerForgetOperationsBefore (c_learner s) opn_state_supply)
           (CExecutorProcessAppStateSupply (c_executor s) p), [])
      else (s, [])
  | _ => (s, []) (* unreachable_value() *)
  end.

Definition CReplicaNextProcessAppStateRequest s p : CReplica * list RslPacket :=
  (s, CExecutorProcessAppStateRequest (c_executor s) p).

Definition CReplicaNextProcessHeartbeat s p (clock : Z) : CReplica * list RslPacket :=
  (MkCReplica (c_constants s) (c_nextHeartbeatTime s)
     (CProposerProcessHeartbeat (c_proposer s) p clock)
     (CAcceptorProcessHeartbeat (c_acceptor s) p)
     (c_learner s) (c_executor s), []).
End c_handlers.

(** ** Spontaneous actions *)

Section c_actions.
Implicit Types (s : CReplica) (clock : Z).

Definition CReplicaNextSpontaneousMaybeEnterNewViewAndSend1a s : CReplica * list RslPacket :=
  let '(p, sent_packets) := CProposerMaybeEnterNewViewAndSend1a (c_proposer s) in
  (set_proposer s p, sent_packets).

Definition CReplicaNextSpontaneousMaybeEnterPhase2 s : CReplica * list RslPacket :=
  let '(p, sent_packets) :=
    CProposerMaybeEnterPhase2 (c_proposer s) (ca_log_truncation_point (c_acceptor s)) in
  (set_proposer s p, sent_packets).

Definition CReplicaNextReadClockMaybeNominateValueAndSend2a s clock
  : CReplica * list RslPacket :=
  let '(p, sent_packets) :=
    CProposerMaybeNominateValueAndSend2a (c_proposer s) clock
      (ca_log_truncation_point (c_acceptor s)) in
  (set_proposer s p, sent_packets).

(** The loop keeps the first checkpoint that is a valid truncation point:
    [(found, target)]. *)
Definition find_truncation_point s : bool * Z :=
  foldl (fun '(found, target) opn =>
           if negb found
              && CIsLogTruncationPointValid opn
                   (ca_last_checkpointed_operation (c_acceptor s))
                   (c_config (c_all (c_constants s)))
           then (true, opn) else (found, target))
    (false, 0) (ca_last_checkpointed_operation (c_acceptor s)).

Definition CReplicaNextSpontaneousTruncateLogBasedOnCheckpoints s
  : CReplica * list RslPacket :=
  let '(found, target) := find_truncation_point s in
  if found && (target >? ca_log_truncation_point (c_acceptor s))
  then (set_acceptor s (CAcceptorTruncateLog (c_acceptor s) target), [])
  else (s, []).

Definition CReplicaNextSpontaneousMaybeMakeDecision s : CReplica * list RslPacket :=
  let opn := c_ops_complete (c_executor s) in
  let is_unknown := negb (op_known (c_next_op_to_execute (c_executor s))) in
  match c_unexecuted_learner_state (c_learner s) !! opn with
  | Some lt =>
      let senders_len := Z.of_nat (size (received_2b_message_senders lt)) in
      let quorum_size := CMinQuorumSize (c_config (c_all (cl_constants (c_learner s)))) in
      if is_unknown && (senders_len >=? quorum_size) then
        (set_executor s
           (CExecutorGetDecision (c_executor s) (c_max_ballot_seen (c_learner s)) opn
              (candidate_learned_value lt)), [])
      else (s, [])
  | None => (s, [])
  end.

Definition CReplicaNextSpontaneousMaybeExecute s : CReplica * list RslPacket :=
  let e := c_executor s in
  let cond2 := c_ops_complete e <? c_max_integer_val (c_params_of (cex_constants e)) in
  let cond3 := CReplicaConstantsValid (cex_constants e) in
  match c_next_op_to_execute e with
  | OutstandingOpKnown batch _ =>
      if cond2 && cond3 then
        let old_ops_complete := c_ops_complete e in
        let '(e', sent_packets) := CExecutorExecute e in
        (MkCReplica (c_constants s) (c_nextHeartbeatTime s)
           (CProposerResetViewTimerDueToExecution (c_proposer s) batch)
           (c_acceptor s)
           (CLearnerForgetDecision (c_learner s) old_ops_complete) e', sent_packets)
      else (s, [])
  | OutstandingOpUnknown => (s, [])
  end.

Definition CReplicaNextReadClockMaybeSendHeartbeat s clock : CReplica * list RslPacket :=
  if clock <? c_nextHeartbeatTime s then (s, [])
  else
    let es := c_election_state (c_proposer s) in
    let suspicious_val :=
      bool_decide (c_my_index (c_constants s) ∈ c_current_view_suspectors es) in
    let m := RslMessageHeartbeat (c_current_view es) suspicious_val
               (c_ops_complete (c_executor s)) in
    let sent_packets :=
      CBroadcastToEveryone (c_config (c_all (c_constants s))) (c_my_index (c_constants s)) m in
    (set_nextHeartbeatTime s
       (CUpperBoundedAddition clock (c_heartbeat_period (c_params_of (c_constants s)))
          (c_max_integer_val (c_params_of (c_constants s)))), sent_packets).

Definition CReplicaNextReadClockCheckForViewTimeout s clock : CReplica * list RslPacket :=
  (set_proposer s (CProposerCheckForViewTimeout (c_proposer s) clock), []).

Definition CReplicaNextReadClockCheckForQuorumOfViewSuspicions s clock
  : CReplica * list RslPacket :=
  (set_proposer s (CProposerCheckForQuorumOfViewSuspicions (c_proposer s) clock), []).
End c_actions.

(** ** The event loop (replicaimpl_class.rs, replicaimpl_main.rs, ...) *)

Record ReplicaImpl := MkReplicaImpl
  { ri_replica : CReplica; ri_nextActionIndex : Z; localAddr : AbstractEndPoint }.

#[export] Instance ReplicaImpl_valid : Valid ReplicaImpl := fun r =>
  valid (ri_replica r) /\ 0 <= ri_nextActionIndex r < 10
  /\ localAddr r
     = seq_index (c_ids_of (c_constants (ri_replica r))) (c_my_index (c_constants (ri_replica r))).

#[export] Instance ReplicaImpl_view : View ReplicaImpl LScheduler := fun r =>
  MkLScheduler (view (ri_replica r)) (ri_nextActionIndex r).

Definition Replica_Init (constants : CReplicaConstants) : ReplicaImpl :=
  {| ri_replica := CReplicaInit constants;
     ri_nextActionIndex := 0;
     localAddr := seq_index (c_ids_of constants) (c_my_index constants) |}.

(** What the network client answers during one step: the receive call, the
    clock, and whether the [i]th call to [send] succeeds. *)
Inductive ReceiveResult :=
  | Fail_
  | Timeout_
  | Packet (sender : AbstractEndPoint) (message : RslMessage).

Record NetClient := MkNetClient
  { net_receive : ReceiveResult; net_time : Z; net_send : nat -> bool }.

(** The I/O performed is the list of the packets that went out. *)
Definition send_packet (netc : NetClient) (i : nat) (p : RslPacket) : bool * list RslIo :=
  if net_send netc i then (true, [Send p]) else (false, []).

(** The loop of [send_packet_seq] stops at the first send that fails. *)
Fixpoint send_packet_seq (netc : NetClient) (i : nat) (cpackets : list RslPacket)
  : bool * list RslIo :=
  match cpackets with
  | [] => (true, [])
  | p :: rest =>
      let '(ok, io) := send_packet netc i p in
      if ok then let '(ok_, ios) := send_packet_seq netc (S i) rest in (ok_, io ++ ios)
      else (false, io)
  end.

Inductive CBroadcast :=
  | CBroadcast_ (bsrc : AbstractEndPoint) (dsts : list AbstractEndPoint) (bmsg : RslMessage)
  | CBroadcastNop.

Fixpoint send_broadcast_loop (netc : NetClient) (i : nat) (bsrc : AbstractEndPoint)
    (dsts : list AbstractEndPoint) (bmsg : RslMessage) : bool * list RslIo :=
  match dsts with
  | [] => (true, [])
  | d :: rest =>
      let '(ok, io) := send_packet netc i (MkLPacket d bsrc bmsg) in
      if ok then
        let '(ok_, ios) := send_broadcast_loop netc (S i) bsrc rest bmsg in (ok_, io ++ ios)
      else (false, io)
  end.

Definition send_broadcast (netc : NetClient) (broadcast : CBroadcast) : bool * list RslIo :=
  match broadcast with
  | CBroadcastNop => (true, [])
  | CBroadcast_ bsrc dsts bmsg => send_broadcast_loop netc 0 bsrc dsts bmsg
  end.

Inductive OutboundPackets :=
  | Broadcast (broadcast : CBroadcast)
  | OutboundPacket (p : option RslPacket)
  | PacketSequence (s : list RslPacket).

Definition deliver_packet (netc : NetClient) (packet : option RslPacket) : bool * list RslIo :=
  match packet with Some p => send_packet netc 0 p | None => (true, []) end.

(** The two loops' results are dropped: [ok] stays [true]. *)
Definition deliver_packet_sequence (netc : NetClient) (packets : list RslPacket)
  : bool * list RslIo :=
  let '(is_ok, ios) := send_packet_seq netc 0 packets in (true, ios).

Definition deliver_broadcast (netc : NetClient) (broadcast : CBroadcast) : bool * list RslIo :=
  let '(is_ok, ios) := send_broadcast netc broadcast in (true, ios).

Definition deliver_outbound_packets (netc : NetClient) (outpackets : OutboundPackets)
  : bool * list RslIo :=
  match outpackets with
  | OutboundPacket p => deliver_packet netc p
  | PacketSequence s => deliver_packet_sequence netc s
  | Broadcast broadcast => deliver_broadcast netc broadcast
  end.

(** The end of every step: the handler's [..Outbound] wrapper, a sequence of
    packets, is delivered after the I/O [before] that the step has performed. *)
Definition deliver_step (netc : NetClient) (before : list RslIo)
    (out : CReplica * list RslPacket) : CReplica * bool * list RslIo :=
  let '(ok, ios) := deliver_outbound_packets netc (PacketSequence out.2) in
  (out.1, ok, before ++ ios).

Definition replica_next_process_packet_without_reading_clock (r : CReplica) (netc : NetClient)
    (pkt : RslPacket) : CReplica * bool * list RslIo :=
  let before := [Receive pkt] in
  match msg pkt with
  | RslMessageInvalid => (r, true, before)
  | RslMessageRequest _ _ => deliver_step netc before (CReplicaNextProcessRequest r pkt)
  | RslMessage1a _ => deliver_step netc before (CReplicaNextProcess1a r pkt)
  | RslMessage1b _ _ _ => deliver_step netc before (CReplicaNextProcess1b r pkt)
  | RslMessageStartingPhase2 _ _ =>
      deliver_step netc before (CReplicaNextProcessStartingPhase2 r pkt)
  | RslMessage2a _ _ _ => deliver_step netc before (CReplicaNextProcess2a r pkt)
  | RslMessage2b _ _ _ => deliver_step netc before (CReplicaNextProcess2b r pkt)
  | RslMessageReply _ _ => deliver_step netc before (CReplicaNextProcessReply r pkt)
  | RslMessageAppStateRequest _ _ =>
      deliver_step netc before (CReplicaNextProcessAppStateRequest r pkt)
  | RslMessageAppStateSupply _ _ _ _ =>
      deliver_step netc before (CReplicaNextProcessAppStateSupply r pkt)
  | RslMessageHeartbeat _ _ _ => (r, true, before)
  end.

Definition replica_next_read_clock_and_process_packet (r : CReplica) (netc : NetClient)
    (pkt : RslPacket) : CReplica * bool * list RslIo :=
  let clock := net_time netc in
  deliver_step netc [Receive pkt; ReadClock clock]
    (CReplicaNextProcessHeartbeat r pkt clock).

Definition replica_next_process_packet_x (r : ReplicaImpl) (netc : NetClient)
  : CReplica * bool * list RslIo :=
  match net_receive netc with
  | Fail_ => (ri_replica r, false, [])
  | Timeout_ => (ri_replica r, true, [TimeoutReceive])
  | Packet sender message =>
      let cpacket := MkLPacket (localAddr r) sender message in
      if is_heartbeat message
      then replica_next_read_clock_and_process_packet (ri_replica r) netc cpacket
      else replica_next_process_packet_without_reading_clock (ri_replica r) netc cpacket
  end.

Definition replica_no_receive_no_read_clock (r : ReplicaImpl) (netc : NetClient)
  : CReplica * bool * list RslIo :=
  let run := deliver_step netc [] in
  let s := ri_replica r in
  let a := ri_nextActionIndex r in
  if a =? 1 then run (CReplicaNextSpontaneousMaybeEnterNewViewAndSend1a s)
  else if a =? 2 then run (CReplicaNextSpontaneousMaybeEnterPhase2 s)
  else if a =? 4 then run (CReplicaNextSpontaneousTruncateLogBasedOnCheckpoints s)
  else if a =? 5 then run (CReplicaNextSpontaneousMaybeMakeDecision s)
  else if a =? 6 then run (CReplicaNextSpontaneousMaybeExecute s)
  else (s, true, []).

Definition replica_no_receive_read_clock_next (r : ReplicaImpl) (netc : NetClient)
  : CReplica * bool * list RslIo :=
  let clock := net_time netc in
  let run := deliver_step netc [ReadClock clock] in
  let s := ri_replica r in
  let a := ri_nextActionIndex r in
  if a =? 3 then run (CReplicaNextReadClockMaybeNominateValueAndSend2a s clock)
  else if a =? 7 then run (CReplicaNextReadClockCheckForViewTimeout s clock)
  else if a =? 8 then run (CReplicaNextReadClockCheckForQuorumOfViewSuspicions s clock)
  else if a =? 9 then run (CReplicaNextReadClockMaybeSendHeartbeat s clock)
  else (s, true, []).

Definition roll_action_index (a : Z) : Z := if a >=? 9 then 0 else u64_add a 1.

(** [r.nextActionIndex] moves only when the step succeeded. *)
Definition advance (r : ReplicaImpl) (next : Z) (res : CReplica * bool * list RslIo)
  : ReplicaImpl * bool * list RslIo :=
  let '(s, ok, ios) := res in
  (MkReplicaImpl s (if ok then next else ri_nextActionIndex r) (localAddr r), ok, ios).

Definition ReplicaNextMainProcessPacketX (r : ReplicaImpl) (netc : NetClient)
  : ReplicaImpl * bool * list RslIo :=
  advance r 1 (replica_next_process_packet_x r netc).

Definition ReplicaNextMainNoClock (r : ReplicaImpl) (netc : NetClient)
  : ReplicaImpl * bool * list RslIo :=
  advance r (u64_add (ri_nextActionIndex r) 1) (replica_no_receive_no_read_clock r netc).

Definition ReplicaNextMainReadClock (r : ReplicaImpl) (netc : NetClient)
  : ReplicaImpl * bool * list RslIo :=
  advance r (roll_action_index (ri_nextActionIndex r)) (replica_no_receive_read_clock_next r netc).

Definition Replica_Next_main (r : ReplicaImpl) (netc : NetClient)
  : ReplicaImpl * bool * list RslIo :=
  let a := ri_nextActionIndex r in
  if a =? 0 then ReplicaNextMainProcessPacketX r netc
  else if (a =? 1) || (a =? 2) || (a =? 4) || (a =? 5) || (a =? 6) then
    ReplicaNextMainNoClock r netc
  else if (a =? 3) || ((7 <=? a) && (a <=? 9)) then ReplicaNextMainReadClock r netc
  else (r, false, []).

(** ** Refinement of the handlers *)

Definition replica_ok (s : CReplica) : Prop :=
  valid s /\ election_sync (c_election_state (c_proposer s)).

(** What every handler is proved to do: keep the replica well formed, keep its
    constants, send valid packets and implement its relation. *)
Definition implements (s : CReplica) (out : CReplica * list RslPacket)
    (L : LReplica -> LReplica -> list RslPacket -> Prop) : Prop :=
  replica_ok out.1 /\ c_constants out.1 = c_constants s /\ valid out.2
  /\ L (view s) (view out.1) out.2.

Section replica_refinement.
Implicit Types (s : CReplica) (p : RslPacket).

Lemma replica_ok_proposer s : replica_ok s -> proposer_ok (c_proposer s).
Proof. by intros [(_ & ? & _) ?]. Qed.

Lemma set_proposer_ok s q :
  replica_ok s -> proposer_ok q ->
  pr_constants (view q) = pr_constants (view (c_proposer s)) -> replica_ok (set_proposer s q).
Proof.
  intros [(? & ? & ? & ? & ? & ? & Hc & ? & ? & ?) _] [? ?] He.
  split; [|done]. split_all; simpl; try done. exact (eq_trans Hc (eq_sym He)).
Qed.

Lemma set_acceptor_ok s a :
  replica_ok s -> valid a ->
  acc_constants (view a) = acc_constants (view (c_acceptor s)) -> replica_ok (set_acceptor s a).
Proof.
  intros [(? & ? & ? & ? & ? & Hc & ? & ? & ? & ?) ?] ? He.
  split; [|done]. split_all; simpl; try done. exact (eq_trans Hc (eq_sym He)).
Qed.

Lemma set_learner_ok s l :
  replica_ok s -> valid l ->
  ll_constants (view l) = ll_constants (view (c_learner s)) -> replica_ok (set_learner s l).
Proof.
  intros [(? & ? & ? & ? & ? & ? & ? & Hc & ? & ?) ?] ? He.
  split; [|done]. split_all; simpl; try done. exact (eq_trans Hc (eq_sym He)).
Qed.

Lemma set_executor_ok s e :
  replica_ok s -> valid e ->
  ex_constants (view e) = ex_constants (view (c_executor s)) -> replica_ok (set_executor s e).
Proof.
  intros [(? & ? & ? & ? & ? & ? & ? & ? & Hc & ?) ?] ? He.
  split; [|done]. split_all; simpl; try done. exact (eq_trans Hc (eq_sym He)).
Qed.

Lemma CReplicaInit_refines (c : CReplicaConstants) :
  valid c -> replica_ok (CReplicaInit c) /\ LReplicaInit (view (CReplicaInit c)) (view c).
Proof.
  intros Hc. destruct (CProposerInit_refines c Hc) as [[? ?] ?].
  destruct (CAcceptorInit_refines c Hc), (CLearnerInit_refines c Hc), (CExecutorInit_refines c Hc).
  split; [split; [|done]|by split_all]. by split_all.
Qed.

(** A handler that does nothing. *)
Lemma handler_idle s :
  replica_ok s ->
  replica_ok (s, [] : list RslPacket).1
  /\ c_constants (s, [] : list RslPacket).1 = c_constants s
  /\ valid (s, [] : list RslPacket).2
  /\ view (s, [] : list RslPacket).1 = view s /\ (s, [] : list RslPacket).2 = [].
Proof. intros ?. split_and!; try done. apply valid_no_packets. Qed.

Lemma CReplicaNextProcessRequest_refines s p seqno v :
  replica_ok s -> valid p -> msg p = RslMessageRequest seqno v ->
  implements s (CReplicaNextProcessRequest s p)
    (fun l l1 ps => LReplicaNextProcessRequest l l1 p ps).
Proof.
  intros Hs Hp Hmsg. unfold implements, CReplicaNextProcessRequest, LReplicaNextProcessRequest.
  rewrite Hmsg. pose proof Hs as [(? & ? & ? & ? & Hex & _) _].
  destruct (CProposerProcessRequest_refines (c_proposer s) p seqno v) as [Hok Hrel];
    [by apply replica_ok_proposer|done..|].
  assert (request_cached (view s) p <->
          exists r, c_reply_cache (c_executor s) !! src p = Some r /\ seqno <= rep_seqno r) as Hcached.
  { unfold request_cached. by rewrite Hmsg. }
  assert (~ request_cached (view s) p ->
    replica_ok (set_proposer s (CProposerProcessRequest (c_proposer s) p))
    /\ c_constants (set_proposer s (CProposerProcessRequest (c_proposer s) p)) = c_constants s
    /\ valid ([] : list RslPacket)
    /\ (if decide (request_cached (view s) p)
        then LExecutorProcessRequest (executor (view s)) p []
             /\ view (set_proposer s (CProposerProcessRequest (c_proposer s) p)) = view s
        else LProposerProcessRequest (proposer (view s))
               (proposer (view (set_proposer s (CProposerProcessRequest (c_proposer s) p)))) p
             /\ view (set_proposer s (CProposerProcessRequest (c_proposer s) p))
                = with_proposer (view s)
                    (proposer (view (set_proposer s (CProposerProcessRequest (c_proposer s) p))))
             /\ ([] : list RslPacket) = [])) as Hfresh.
  { intros Hn. rewrite decide_False by done. split_and!; try done; [|apply valid_no_packets].
    apply set_proposer_ok; [done|done|]. by apply LProposerProcessRequest_constants in Hrel. }
  destruct (c_reply_cache (c_executor s) !! src p) as [r|] eqn:Hr.
  - destruct (seqno <=? rep_seqno r) eqn:Hle.
    + destruct (CExecutorProcessRequest_refines (c_executor s) p seqno v) as [Hv Hx]; [done..|by eexists|].
      split_and!; try done. rewrite decide_True; [done|]. apply Hcached. exists r. split; [done|lia].
    + apply Hfresh. rewrite Hcached. intros (r' & [= <-] & ?). lia.
  - apply Hfresh. rewrite Hcached. by intros (r' & ? & ?).
Qed.

Lemma CReplicaNextProcess1a_refines s p bal :
  replica_ok s -> valid p -> msg p = RslMessage1a bal ->
  implements s (CReplicaNextProcess1a s p) (fun l l1 ps => LReplicaNextProcess1a l l1 p ps).
Proof.
  intros Hs Hp Hmsg. pose proof Hs as [(? & ? & Hacc & _) _].
  unfold implements, CReplicaNextProcess1a, LReplicaNextProcess1a.
  pose proof (CAcceptorProcess1a_refines (c_acceptor s) p bal Hacc Hp Hmsg) as H1.
  destruct (CAcceptorProcess1a (c_acceptor s) p) as [a ps]. destruct H1 as (Ha & Hps & Hrel).
  split_and!; try done. apply set_acceptor_ok; [done|done|].
  by apply LAcceptorProcess1a_constants in Hrel.
Qed.

(** The scan's answer does not depend on the set's order. *)
Lemma Packet1bHasUniqueSrc_spec S p :
  Packet1bHasUniqueSrc S p = bool_decide (set_Forall (fun op : RslPacket => src op <> src p) S).
Proof.
  unfold Packet1bHasUniqueSrc.
  assert (forall l b, foldl (fun res (op : RslPacket) => if decide (src op = src p) then false else res) b l
                      = b && bool_decide (Forall (fun op : RslPacket => src op <> src p) l)) as Hl.
  { induction l as [|op l IH]; intros b; cbn [foldl].
    - by rewrite bool_decide_true, andb_true_r by apply Forall_nil_2.
    - rewrite IH. case_decide as Hd.
      + rewrite (bool_decide_false (Forall _ (op :: l))); [by rewrite andb_false_r|].
        by intros [? _]%Forall_cons.
      + f_equal. apply bool_decide_ext. rewrite Forall_cons. tauto. }
  rewrite Hl. simpl. apply bool_decide_ext. unfold hashset_to_vec.
  rewrite Forall_forall. split; intros H op Hop; apply H; by apply elem_of_elements.
Qed.

Lemma CReplicaNextProcess1b_refines s p bal ltp votes :
  replica_ok s -> valid p -> msg p = RslMessage1b bal ltp votes ->
  implements s (CReplicaNextProcess1b s p) (fun l l1 ps => LReplicaNextProcess1b l l1 p ps).
Proof.
  intros Hs Hp Hmsg. pose proof Hs as [(? & ? & Hacc & _) _].
  unfold implements, CReplicaNextProcess1b, LReplicaNextProcess1b. rewrite Hmsg.
  rewrite CBalEq_spec, Packet1bHasUniqueSrc_spec. cbn [msg_log_truncation_point].
  destruct (_ && _) eqn:Hg.
  - rewrite !andb_true_iff, !bool_decide_eq_true in Hg. destruct Hg as [[[H1 H2] H3] H4].
    rewrite decide_True.
    2: { unfold accepts_1b. rewrite Hmsg. split_and!; try done. simpl. lia. }
    assert (is_u64 ltp) as Hltp.
    { destruct Hp as (_ & _ & Hm). rewrite Hmsg in Hm. by destruct Hm as (_ & ? & _). }
    destruct (CAcceptorTruncateLog_refines (c_acceptor s) ltp Hacc Hltp) as [Ha Hrel].
    destruct (CProposerProcess1b_refines (c_proposer s) p (replica_ok_proposer _ Hs) Hp) as [Hq Hrel'].
    pose proof (LAcceptorTruncateLog_constants _ _ _ Hrel) as Hcon.
    destruct (set_acceptor_ok _ _ (set_proposer_ok s _ Hs Hq eq_refl) Ha Hcon).
    split_and!; try done. apply valid_no_packets.
  - rewrite decide_False; [by apply handler_idle|].
    intros (H1 & H2 & H3 & H4). rewrite Hmsg in H2. apply not_true_iff_false in Hg. apply Hg.
    rewrite !andb_true_iff, !bool_decide_eq_true. simpl in *. ands.
Qed.

Lemma CReplicaNextProcessStartingPhase2_refines s p bal ltp :
  replica_ok s -> valid p -> msg p = RslMessageStartingPhase2 bal ltp ->
  implements s (CReplicaNextProcessStartingPhase2 s p)
    (fun l l1 ps => LReplicaNextProcessStartingPhase2 l l1 p ps).
Proof.
  intros Hs Hp Hmsg. pose proof Hs as [(? & ? & ? & ? & Hex & _) _].
  destruct (CExecutorProcessStartingPhase2_refines (c_executor s) p bal ltp) as [? ?]; [done..|].
  by split_and!.
Qed.

Lemma CReplicaNextProcess2a_refines s p bal opn v :
  replica_ok s -> valid p -> msg p = RslMessage2a bal opn v ->
  implements s (CReplicaNextProcess2a s p) (fun l l1 ps => LReplicaNextProcess2a l l1 p ps).
Proof.
  intros Hs Hp Hmsg. pose proof Hs as [(? & ? & Hacc & _) _].
  unfold implements, CReplicaNextProcess2a, LReplicaNextProcess2a. rewrite Hmsg, CBalLeq_spec.
  cbn [msg_bal_2a msg_opn_2a].
  destruct (_ && _) eqn:Hg.
  - rewrite !andb_true_iff, !bool_decide_eq_true in Hg. rewrite decide_True by (simpl; ands).
    pose proof (CAcceptorProcess2a_refines (c_acceptor s) p bal opn v Hacc Hp Hmsg) as H1.
    destruct (CAcceptorProcess2a (c_acceptor s) p) as [a ps]. destruct H1 as (Ha & Hps & Hrel).
    split_and!; try done. apply set_acceptor_ok; [done|done|].
    by apply LAcceptorProcess2a_constants in Hrel.
  - rewrite decide_False; [by apply handler_idle|].
    intros (? & ? & ?). apply not_true_iff_false in Hg. apply Hg.
    rewrite !andb_true_iff, !bool_decide_eq_true. simpl in *. ands.
Qed.

Lemma CReplicaNextProcess2b_refines s p bal opn v :
  replica_ok s -> valid p -> msg p = RslMessage2b bal opn v ->
  implements s (CReplicaNextProcess2b s p) (fun l l1 ps => LReplicaNextProcess2b l l1 p ps).
Proof.
  intros Hs Hp Hmsg. pose proof Hs as [(? & ? & ? & Hl & _) _].
  unfold implements, CReplicaNextProcess2b, LReplicaNextProcess2b. rewrite Hmsg. cbn [msg_opn_2b].
  destruct (_ || _) eqn:Hg.
  - rewrite decide_True.
    2: { rewrite orb_true_iff, andb_true_iff, negb_true_iff in Hg. simpl.
         destruct Hg as [?|[? ?]]; [left|right]; ands. }
    destruct (CLearnerProcess2b_refines (c_learner s) p bal opn v) as [Hv Hrel]; [done..|].
    split_and!; try done; [|apply valid_no_packets]. apply set_learner_ok; [done|done|].
    by apply LLearnerProcess2b_constants in Hrel.
  - rewrite decide_False; [by apply handler_idle|].
    intros Hor. apply not_true_iff_false in Hg. apply Hg.
    rewrite orb_true_iff, andb_true_iff, negb_true_iff. simpl in Hor.
    destruct Hor as [?|[? ?]]; [left|right]; ands.
Qed.

Lemma CReplicaNextProcessAppStateSupply_refines s p bal opn st cache :
  replica_ok s -> valid p -> msg p = RslMessageAppStateSupply bal opn st cache ->
  implements s (CReplicaNextProcessAppStateSupply s p)
    (fun l l1 ps => LReplicaNextProcessAppStateSupply l l1 p ps).
Proof.
  intros Hs Hp Hmsg. pose proof Hs as [(? & ? & ? & Hl & Hex & _) _].
  unfold implements, CReplicaNextProcessAppStateSupply, LReplicaNextProcessAppStateSupply.
  rewrite Hmsg. cbn [msg_opn_state_supply].
  destruct (_ && _) eqn:Hg.
  - rewrite andb_true_iff, bool_decide_eq_true in Hg. rewrite decide_True by (simpl; ands).
    destruct (CLearnerForgetOperationsBefore_refines (c_learner s) opn Hl) as [Hv Hrel].
    destruct (CExecutorProcessAppStateSupply_refines (c_executor s) p bal opn st cache)
      as [Hv' Hrel']; [done..|].
    pose proof (LLearnerForgetOperationsBefore_constants _ _ _ Hrel) as Hc1.
    assert (ex_constants (view (CExecutorProcessAppStateSupply (c_executor s) p))
            = ex_constants (view (c_executor s))) as Hc2 by by rewrite Hrel'.
    destruct (set_executor_ok _ _ (set_learner_ok s _ Hs Hv Hc1) Hv' Hc2).
    split_and!; try done. apply valid_no_packets.
  - rewrite decide_False; [by apply handler_idle|].
    intros (? & ?). apply not_true_iff_false in Hg. apply Hg.
    rewrite andb_true_iff, bool_decide_eq_true. simpl in *. ands.
Qed.

Lemma CReplicaNextProcessAppStateRequest_refines s p bal opn :
  replica_ok s -> valid p -> msg p = RslMessageAppStateRequest bal opn ->
  implements s (CReplicaNextProcessAppStateRequest s p)
    (fun l l1 ps => LReplicaNextProcessAppStateRequest l l1 p ps).
Proof.
  intros Hs Hp Hmsg. pose proof Hs as [(? & ? & ? & ? & Hex & _) _].
  destruct (CExecutorProcessAppStateRequest_refines (c_executor s) p bal opn) as [? ?]; [done..|].
  by split_and!.
Qed.

Lemma CReplicaNextProcessHeartbeat_refines s p clock bal susp ckpt :
  replica_ok s -> valid p -> is_u64 clock -> msg p = RslMessageHeartbeat bal susp ckpt ->
  implements s (CReplicaNextProcessHeartbeat s p clock)
    (fun l l1 ps => LReplicaNextProcessHeartbeat l l1 p clock ps).
Proof.
  intros Hs Hp Hclock Hmsg. pose proof Hs as [(? & ? & Hacc & _) _].
  destruct (CProposerProcessHeartbeat_refines (c_proposer s) p clock bal susp ckpt)
    as [Hq Hrel]; [by apply replica_ok_proposer|done..|].
  destruct (CAcceptorProcessHeartbeat_refines (c_acceptor s) p bal susp ckpt) as [Ha Hrel'];
    [done..|].
  pose proof (LProposerProcessHeartbeat_constants _ _ _ _ Hrel) as Hc1.
  pose proof (LAcceptorProcessHeartbeat_constants _ _ _ Hrel') as Hc2.
  destruct (set_acceptor_ok _ _ (set_proposer_ok s _ Hs Hq Hc1) Ha Hc2).
  unfold implements. split_and!; try done. apply valid_no_packets.
Qed.
End replica_refinement.

Section action_refinement.
Implicit Types (s : CReplica).

(** An action of the proposer alone. *)
Lemma proposer_action s q ps (L : LReplica -> LReplica -> list RslPacket -> Prop) :
  replica_ok s -> proposer_ok q -> valid ps ->
  pr_constants (view q) = pr_constants (view (c_proposer s)) ->
  L (view s) (view (set_proposer s q)) ps ->
  implements s (set_proposer s q, ps) L.
Proof. intros. split_and!; try done. by apply set_proposer_ok. Qed.

Lemma CReplicaNextSpontaneousMaybeEnterNewViewAndSend1a_refines s :
  replica_ok s ->
  implements s (CReplicaNextSpontaneousMaybeEnterNewViewAndSend1a s)
    LReplicaNextSpontaneousMaybeEnterNewViewAndSend1a.
Proof.
  intros Hs. unfold CReplicaNextSpontaneousMaybeEnterNewViewAndSend1a.
  pose proof (CProposerMaybeEnterNewViewAndSend1a_refines _ (replica_ok_proposer _ Hs)) as H.
  destruct (CProposerMaybeEnterNewViewAndSend1a (c_proposer s)) as [q ps].
  destruct H as (Hq & Hps & Hrel). apply proposer_action; try done.
  by apply LProposerMaybeEnterNewViewAndSend1a_constants in Hrel.
Qed.

Lemma replica_ok_truncation_point s : replica_ok s -> is_u64 (ca_log_truncation_point (c_acceptor s)).
Proof. by intros [(_ & _ & (_ & _ & _ & _ & ? & _) & _) _]. Qed.

Lemma CReplicaNextSpontaneousMaybeEnterPhase2_refines s :
  replica_ok s ->
  implements s (CReplicaNextSpontaneousMaybeEnterPhase2 s)
    LReplicaNextSpontaneousMaybeEnterPhase2.
Proof.
  intros Hs. unfold CReplicaNextSpontaneousMaybeEnterPhase2.
  pose proof (CProposerMaybeEnterPhase2_refines _ _ (replica_ok_proposer _ Hs)
                (replica_ok_truncation_point _ Hs)) as H.
  destruct (CProposerMaybeEnterPhase2 (c_proposer s) _) as [q ps].
  destruct H as (Hq & Hps & Hrel). apply proposer_action; try done.
  by apply LProposerMaybeEnterPhase2_constants in Hrel.
Qed.

Lemma CReplicaNextReadClockMaybeNominateValueAndSend2a_refines s clock :
  replica_ok s -> is_u64 clock ->
  implements s (CReplicaNextReadClockMaybeNominateValueAndSend2a s clock)
    (fun l l1 ps =>
       LReplicaNextReadClockMaybeNominateValueAndSend2a l l1 (MkClockReading clock) ps).
Proof.
  intros Hs Hclock. unfold CReplicaNextReadClockMaybeNominateValueAndSend2a.
  pose proof (CProposerMaybeNominateValueAndSend2a_refines _ _ _ (replica_ok_proposer _ Hs)
                Hclock (replica_ok_truncation_point _ Hs)) as H.
  destruct (CProposerMaybeNominateValueAndSend2a (c_proposer s) _ _) as [q ps].
  destruct H as (Hq & Hps & Hrel). apply proposer_action; try done.
  by apply LProposerMaybeNominate_constants in Hrel.
Qed.

(** The scan finds a checkpoint that is a valid truncation point: a sequence
    always has one of each rank. *)
Lemma find_truncation_point_spec s :
  replica_ok s ->
  let '(found, target) := find_truncation_point s in
  found = true /\ target ∈ ca_last_checkpointed_operation (c_acceptor s)
  /\ IsLogTruncationPointValid target (ca_last_checkpointed_operation (c_acceptor s))
       (view (c_config (c_all (c_constants s)))).
Proof.
  intros [(Hc & _ & Hacc & _ & _ & Hsame & _) _]. unfold find_truncation_point.
  destruct Hacc as (_ & _ & _ & _ & _ & Hlen).
  set (cks := ca_last_checkpointed_operation (c_acceptor s)) in *.
  set (cfg := c_config (c_all (c_constants s))).
  assert (seq_len cks = seq_len (c_replica_ids cfg)) as Hlen'.
  { rewrite Hlen. pose proof (f_equal (fun x => seq_len (ids_of x)) Hsame) as He. by simpl in He. }
  destruct Hc as [_ ((_ & _ & Hn) & _)]. fold cfg in Hn.
  pose proof (CIsLogTruncationPointValid_spec) as Hspec.
  assert (forall l f t, (forall x, x ∈ l -> x ∈ cks) ->
    (f = true -> t ∈ cks /\ IsLogTruncationPointValid t cks (view cfg)) ->
    let '(f', t') := foldl (fun '(found, target) opn =>
       if negb found && CIsLogTruncationPointValid opn cks cfg then (true, opn) else (found, target))
       (f, t) l in
    (f' = true -> t' ∈ cks /\ IsLogTruncationPointValid t' cks (view cfg))
    /\ (f' = false -> f = false /\ forall x, x ∈ l -> ~ IsLogTruncationPointValid x cks (view cfg)))
    as Hfold.
  { induction l as [|x l IH]; intros f t Hl Hf; simpl.
    { split; [done|]. intros ?. split; [done|]. by intros x ?%elem_of_nil. }
    rewrite Hspec by (unfold U64_MODULUS; lia).
    destruct (negb f && _) eqn:Hb.
    - rewrite andb_true_iff, bool_decide_eq_true in Hb.
      specialize (IH true x). destruct (foldl _ _ _) as [f' t'].
      destruct IH as [IH1 IH2]; [set_solver|intros _; split; [set_solver|tauto]|].
      split; [done|]. intros ?. by destruct IH2.
    - specialize (IH f t). destruct (foldl _ _ _) as [f' t'].
      destruct IH as [IH1 IH2]; [set_solver|done|]. split; [done|]. intros Hf'.
      destruct (IH2 Hf') as [-> Hl']. split; [done|].
      intros y [->|Hy]%elem_of_cons; [|by apply Hl'].
      by rewrite andb_false_iff, bool_decide_eq_false in Hb; destruct Hb. }
  specialize (Hfold cks false 0). destruct (foldl _ _ _) as [f t].
  destruct Hfold as [H1 H2]; [done..|]. destruct f; [by split; [|apply H1]|]. exfalso.
  destruct H2 as [_ H2]; [done|].
  destruct (IsNthHighestValueInSequence_exists cks (LMinQuorumSize (view cfg))) as (v & Hv & Hn').
  { rewrite Hlen'. apply LMinQuorumSize_le_len. simpl. lia. }
  by apply (H2 v).
Qed.
Lemma CReplicaNextSpontaneousTruncateLogBasedOnCheckpoints_refines s :
  replica_ok s ->
  implements s (CReplicaNextSpontaneousTruncateLogBasedOnCheckpoints s)
    LReplicaNextSpontaneousTruncateLogBasedOnCheckpoints.
Proof.
  intros Hs. pose proof (find_truncation_point_spec s Hs) as Hfind.
  pose proof Hs as [(_ & _ & Hacc & _) _].
  unfold CReplicaNextSpontaneousTruncateLogBasedOnCheckpoints.
  destruct (find_truncation_point s) as [found target].
  destruct Hfind as (-> & Hin & Hvalid). cbn [andb].
  assert (is_u64 target) as Ht.
  { destruct Hacc as (_ & _ & _ & Hall & _). by eapply Forall_forall in Hall. }
  destruct (CAcceptorTruncateLog_refines (c_acceptor s) target Hacc Ht) as [Ha Hrel].
  destruct (target >? ca_log_truncation_point (c_acceptor s)) eqn:Hgt.
  - split_and!; [|done|apply valid_no_packets|].
    + apply set_acceptor_ok; [done|done|]. by apply LAcceptorTruncateLog_constants in Hrel.
    + exists target. split_and!; [done..|]. rewrite decide_True by (simpl; lia). done.
  - split_and!; [done|done|apply valid_no_packets|].
    exists target. split_and!; [done..|]. rewrite decide_False by (simpl; lia). done.
Qed.

Lemma CReplicaNextSpontaneousMaybeMakeDecision_refines s :
  replica_ok s ->
  implements s (CReplicaNextSpontaneousMaybeMakeDecision s)
    LReplicaNextSpontaneousMaybeMakeDecision.
Proof.
  intros Hs. pose proof Hs as [(_ & _ & _ & (_ & Hbal & Hst) & Hex & _) _].
  unfold implements, CReplicaNextSpontaneousMaybeMakeDecision,
    LReplicaNextSpontaneousMaybeMakeDecision.
  assert (forall P : Prop, decision_ready (view s) <-> P ->
    ~ P -> ~ decision_ready (view s)) as Hneg by tauto.
  unfold decision_ready in Hneg. rewrite CMinQuorumSize_view.
  cbn [view CReplica_view executor learner CLearner_view CExecutor_view
       unexecuted_learner_state ops_complete next_op_to_execute ll_constants] in *.
  rewrite lookup_total_alt.
  destruct (c_unexecuted_learner_state (c_learner s) !! c_ops_complete (c_executor s)) as [t|] eqn:Ht.
  - destruct (_ && _) eqn:Hg.
    + rewrite andb_true_iff, negb_true_iff in Hg. rewrite decide_True.
      2: { split; [apply Hg|]. simpl. rewrite Ht. destruct Hg. lia. }
      destruct (CExecutorGetDecision_refines (c_executor s) (c_max_ballot_seen (c_learner s))
                  (c_ops_complete (c_executor s)) (candidate_learned_value t)) as [Hv Hrel];
        [done|done|by apply (Hst _ _ Ht)|].
      split_and!; try done; [by apply set_executor_ok|apply valid_no_packets].
    + rewrite decide_False; [by apply handler_idle|].
      intros [H1 H2]. simpl in H1, H2. rewrite Ht in H2.
      apply not_true_iff_false in Hg. apply Hg. rewrite H1. cbn [negb andb]. lia.
  - rewrite decide_False; [by apply handler_idle|].
    intros [_ H]. simpl in H. by rewrite Ht in H.
Qed.

Lemma CReplicaNextSpontaneousMaybeExecute_refines s :
  replica_ok s ->
  implements s (CReplicaNextSpontaneousMaybeExecute s) LReplicaNextSpontaneousMaybeExecute.
Proof.
  intros Hs. pose proof Hs as [(_ & _ & _ & Hl & Hex & _) _].
  pose proof Hex as (Hcex & _).
  unfold implements, CReplicaNextSpontaneousMaybeExecute, LReplicaNextSpontaneousMaybeExecute.
  rewrite CReplicaConstantsValid_spec by done.
  pose proof (CExecutorExecute_refines (c_executor s) Hex) as Hexec.
  destruct (c_next_op_to_execute (c_executor s)) as [batch bal|] eqn:Hnext.
  2: { rewrite decide_False; [by apply handler_idle|]. simpl. rewrite Hnext. by intros [? _]. }
  destruct (_ && _) eqn:Hg.
  - rewrite andb_true_iff, bool_decide_eq_true in Hg. destruct Hg as [Hlt Hidx].
    rewrite decide_True.
    2: { simpl. rewrite Hnext. split_and!; [done|simpl; lia|done]. }
    specialize (Hexec eq_refl). destruct (CExecutorExecute (c_executor s)) as [e' ps].
    destruct Hexec as (He & Hps & Hrel); [lia|].
    destruct (CProposerResetViewTimerDueToExecution_refines _ batch (replica_ok_proposer _ Hs))
      as [Hq Hrelq].
    destruct (CLearnerForgetDecision_refines (c_learner s) (c_ops_complete (c_executor s)) Hl)
      as [Hl' Hrell].
    pose proof (LProposerResetViewTimer_constants _ _ _ Hrelq) as H1.
    pose proof (LLearnerForgetDecision_constants _ _ _ Hrell) as H2.
    pose proof (LExecutorExecute_constants _ _ _ Hrel) as H3.
    destruct (set_executor_ok _ _ (set_learner_ok _ _ (set_proposer_ok _ _ Hs Hq H1) Hl' H2) He H3).
    split_and!; try done. simpl. by rewrite Hnext.
  - rewrite decide_False; [by apply handler_idle|].
    simpl. rewrite Hnext. intros (_ & H1 & H2). apply not_true_iff_false in Hg. apply Hg.
    rewrite andb_true_iff, bool_decide_eq_true. simpl in H1. split; [lia|done].
Qed.

Lemma CReplicaNextReadClockMaybeSendHeartbeat_refines s clock :
  replica_ok s -> is_u64 clock ->
  implements s (CReplicaNextReadClockMaybeSendHeartbeat s clock)
    (fun l l1 ps => LReplicaNextReadClockMaybeSendHeartbeat l l1 (MkClockReading clock) ps).
Proof.
  intros Hs Hclock. pose proof Hs as [(Hc & Hp & Ha & Hl & Hex & E1 & E2 & E3 & E4 & Hhb) Hsync].
  unfold implements, CReplicaNextReadClockMaybeSendHeartbeat, LReplicaNextReadClockMaybeSendHeartbeat.
  destruct (clock <? c_nextHeartbeatTime s) eqn:Hlt.
  { rewrite decide_True by (simpl; lia). by apply handler_idle. }
  rewrite decide_False by (simpl; lia). cbn [fst snd].
  pose proof Hc as [Hidx (Hcfg & (? & ? & ? & ? & ? & ? & ? & ?) & _)].
  destruct (CUpperBoundedAddition_refines clock (c_heartbeat_period (c_params_of (c_constants s)))
              (c_max_integer_val (c_params_of (c_constants s)))) as [Hub1 Hub2];
    [done|unfold is_u64, U64_MODULUS; lia..|].
  split_and!; [|done| |done|by apply CBroadcastToEveryone_refines|done].
  - split; [|done]. by split_all.
  - apply CBroadcastToEveryone_valid; [done| |done].
    destruct Hp as (_ & _ & _ & _ & _ & _ & Hes & _). destruct Hex as (_ & _ & _ & _ & _ & ?).
    split_all; try done. by destruct Hes as (_ & ? & _).
Qed.

Lemma CReplicaNextReadClockCheckForViewTimeout_refines s clock :
  replica_ok s -> is_u64 clock ->
  implements s (CReplicaNextReadClockCheckForViewTimeout s clock)
    (fun l l1 ps => LReplicaNextReadClockCheckForViewTimeout l l1 (MkClockReading clock) ps).
Proof.
  intros Hs Hclock.
  destruct (CProposerCheckForViewTimeout_refines _ clock (replica_ok_proposer _ Hs) Hclock)
    as [Hq Hrel].
  apply proposer_action; try done. apply valid_no_packets.
Qed.

Lemma CReplicaNextReadClockCheckForQuorumOfViewSuspicions_refines s clock :
  replica_ok s -> is_u64 clock ->
  implements s (CReplicaNextReadClockCheckForQuorumOfViewSuspicions s clock)
    (fun l l1 ps =>
       LReplicaNextReadClockCheckForQuorumOfViewSuspicions l l1 (MkClockReading clock) ps).
Proof.
  intros Hs Hclock.
  destruct (CProposerCheckForQuorumOfViewSuspicions_refines _ clock
              (replica_ok_proposer _ Hs) Hclock) as [Hq Hrel].
  apply proposer_action; try done; [apply valid_no_packets|].
  by apply LProposerCheckForQuorumOfViewSuspicions_constants in Hrel.
Qed.
End action_refinement.

(** ** The event loop implements the scheduler *)

(** The loop's invariant, and what the network client must answer: a clock in
    range and packets that parse to valid messages. *)
Definition impl_ok (r : ReplicaImpl) : Prop :=
  valid r /\ election_sync (c_election_state (c_proposer (ri_replica r))).

Definition net_ok (netc : NetClient) : Prop :=
  is_u64 (net_time netc)
  /\ match net_receive netc with
     | Packet sender message => valid sender /\ valid message
     | _ => True
     end.

(** The packet the network delivers to [r], if the client answers one. *)
Definition delivered (r : ReplicaImpl) (netc : NetClient) : option RslPacket :=
  match net_receive netc with
  | Packet sender m => Some (MkLPacket (localAddr r) sender m)
  | _ => None
  end.

(** What precedes the sends of a step that may receive [recv]. *)
Inductive step_prefix (recv : option RslPacket) : list RslIo -> Prop :=
  | prefix_none : step_prefix recv []
  | prefix_timeout : step_prefix recv [TimeoutReceive]
  | prefix_clock t : step_prefix recv [ReadClock t]
  | prefix_receive p : recv = Some p -> step_prefix recv [Receive p]
  | prefix_receive_clock p t : recv = Some p -> step_prefix recv [Receive p; ReadClock t].

(** No send of the step fails. *)
Definition sends_all (netc : NetClient) : Prop := forall i, net_send netc i = true.

(** How many packets of a sequence go out. *)
Fixpoint sent_count (netc : NetClient) (i : nat) (ps : list RslPacket) : nat :=
  match ps with
  | [] => O
  | _ :: rest => if net_send netc i then S (sent_count netc (S i) rest) else O
  end.

Lemma send_packet_seq_sends netc i ps :
  (send_packet_seq netc i ps).2 = Send <$> take (sent_count netc i ps) ps.
Proof.
  revert i. induction ps as [|p ps IH]; intros i; [done|]. simpl. unfold send_packet.
  destruct (net_send netc i); [|done]. specialize (IH (S i)).
  destruct (send_packet_seq netc (S i) ps). simpl in *. by rewrite IH.
Qed.

Lemma sent_count_all netc i ps : sends_all netc -> sent_count netc i ps = length ps.
Proof. intros H. revert i. induction ps as [|p ps IH]; intros i; simpl; [done|]. by rewrite H, IH. Qed.

Lemma deliver_step_eq netc before out :
  deliver_step netc before out
  = (out.1, true, before ++ (Send <$> take (sent_count netc 0 out.2) out.2)).
Proof.
  unfold deliver_step, deliver_outbound_packets, deliver_packet_sequence.
  pose proof (send_packet_seq_sends netc 0 out.2) as H.
  destruct (send_packet_seq netc 0 out.2). simpl in *. by rewrite H.
Qed.

(** A step either fails to receive, and then does nothing, or it succeeds: the
    replica stays well formed, and its I/O is a prefix followed by the sends
    that went out of a list of valid packets with which the step implements
    [L]. *)
Inductive step_result (r : ReplicaImpl) (netc : NetClient)
    (L : LReplica -> LReplica -> list RslIo -> Prop) : CReplica * bool * list RslIo -> Prop :=
  | step_done s_ before ps k :
      replica_ok s_ -> c_constants s_ = c_constants (ri_replica r) ->
      step_prefix (delivered r netc) before -> valid ps ->
      L (view (ri_replica r)) (view s_) (before ++ (Send <$> ps)) ->
      (sends_all netc -> take k ps = ps) ->
      step_result r netc L (s_, true, before ++ (Send <$> take k ps))
  | step_failed :
      net_receive netc = Fail_ -> step_result r netc L (ri_replica r, false, []).

(** The specification's dispatch at a message whose shape is known. *)
Ltac dispatch Hmsg :=
  intros l_ ps Hrel; simpl; rewrite Hmsg, ExtractSent_sends;
  split; [apply is_send_sends|exact Hrel].

Section event_loop.
Implicit Types (s : CReplica) (r : ReplicaImpl) (netc : NetClient).

Lemma deliver_result r out L0 L netc before :
  implements (ri_replica r) out L0 -> step_prefix (delivered r netc) before ->
  (forall l_ ps, L0 (view (ri_replica r)) l_ ps ->
     L (view (ri_replica r)) l_ (before ++ (Send <$> ps))) ->
  step_result r netc L (deliver_step netc before out).
Proof.
  intros (? & ? & ? & HL) Hb Himp. rewrite deliver_step_eq. constructor; try done.
  - by apply Himp.
  - intros Hall. by rewrite sent_count_all, take_ge.
Qed.

(** A step without packets to send. *)
Lemma idle_result r L netc before :
  replica_ok (ri_replica r) -> step_prefix (delivered r netc) before ->
  L (view (ri_replica r)) (view (ri_replica r)) before ->
  step_result r netc L (ri_replica r, true, before).
Proof.
  intros ? ? HL. rewrite <- (app_nil_r before) in HL |- *.
  apply (step_done r netc L (ri_replica r) before [] 0%nat); try done. apply valid_no_packets.
Qed.

Lemma impl_ok_replica r : impl_ok r -> replica_ok (ri_replica r).
Proof. intros [[? _] ?]. by split. Qed.

(** The dispatch of a packet other than a heartbeat. *)
Lemma without_reading_clock_result r netc p :
  impl_ok r -> valid p -> delivered r netc = Some p -> is_heartbeat (msg p) = false ->
  step_result r netc LReplicaNextProcessPacket
    (replica_next_process_packet_without_reading_clock (ri_replica r) netc p).
Proof.
  intros Hok%impl_ok_replica Hp Hdst Hh.
  assert (forall out L0, implements (ri_replica r) out L0 ->
    (forall l_ ps, L0 (view (ri_replica r)) l_ ps ->
       LReplicaNextProcessPacketWithoutReadingClock (view (ri_replica r)) l_
         (Receive p :: (Send <$> ps))) ->
    step_result r netc LReplicaNextProcessPacket (deliver_step netc [Receive p] out)) as Hgo.
  { intros out L0 Himp HL. eapply deliver_result; [done|by apply prefix_receive|].
    intros l_ ps H. simpl. rewrite Hh. by apply HL. }
  unfold replica_next_process_packet_without_reading_clock.
  destruct (msg p) eqn:Hmsg; try done.
  - apply idle_result; [done|by constructor|].
    simpl. rewrite Hmsg. simpl. split; [|done]. by intros io ?%not_elem_of_nil.
  - eapply Hgo; [by eapply CReplicaNextProcessRequest_refines|]. by dispatch Hmsg.
  - eapply Hgo; [by eapply CReplicaNextProcess1a_refines|]. by dispatch Hmsg.
  - eapply Hgo; [by eapply CReplicaNextProcess1b_refines|]. by dispatch Hmsg.
  - eapply Hgo; [by eapply CReplicaNextProcess2a_refines|]. by dispatch Hmsg.
  - eapply Hgo; [by eapply CReplicaNextProcess2b_refines|]. by dispatch Hmsg.
  - apply (Hgo _ (fun l l1 ps => LReplicaNextProcessReply l l1 p ps)); [by apply handler_idle|].
    by dispatch Hmsg.
  - eapply Hgo; [by eapply CReplicaNextProcessAppStateRequest_refines|]. by dispatch Hmsg.
  - eapply Hgo; [by eapply CReplicaNextProcessAppStateSupply_refines|]. by dispatch Hmsg.
  - eapply Hgo; [by eapply CReplicaNextProcessStartingPhase2_refines|]. by dispatch Hmsg.
Qed.

Lemma process_packet_result r netc :
  impl_ok r -> net_ok netc ->
  step_result r netc LReplicaNextProcessPacket (replica_next_process_packet_x r netc).
Proof.
  intros Hr [Hclock Hpkt]. pose proof Hr as [[[Hc _] [_ Hloc]] _].
  unfold replica_next_process_packet_x. destruct (net_receive netc) as [| |sender m] eqn:Hnet.
  - by constructor.
  - apply idle_result; [by apply impl_ok_replica|constructor|done].
  - destruct Hpkt as [Hs Hm].
    assert (valid (MkLPacket (localAddr r) sender m)) as Hp.
    { split; [|by split]. simpl. rewrite Hloc. by apply valid_my_id. }
    destruct (is_heartbeat m) eqn:Hh; 
      [|by apply without_reading_clock_result; unfold delivered; rewrite ?Hnet].
    destruct m as [| | | | | |bal susp ckpt| | | |] eqn:Hmsg; try done.
    eapply deliver_result;
      [by eapply CReplicaNextProcessHeartbeat_refines; first [done|by apply impl_ok_replica]
      |by constructor; unfold delivered; rewrite Hnet|].
    intros l_ ps Hrel. simpl. split_and!; [done|apply is_send_sends|].
    by rewrite ExtractSent_sends.
Qed.

Lemma no_clock_result r netc :
  impl_ok r -> let a := ri_nextActionIndex r in
  (a =? 1) || (a =? 2) || (a =? 4) || (a =? 5) || (a =? 6) = true ->
  step_result r netc (fun l l_ ios => LReplicaNoReceiveNext l a l_ ios)
    (replica_no_receive_no_read_clock r netc).
Proof.
  intros Hr a Ha. unfold replica_no_receive_no_read_clock. fold a.
  pose proof (impl_ok_replica r Hr) as Hok.
  assert (forall out L0, implements (ri_replica r) out L0 ->
    (forall l_ ps ios, L0 (view (ri_replica r)) l_ ps -> SpontaneousIos ios 0 ->
       ExtractSentPacketsFromIos ios = ps -> LReplicaNoReceiveNext (view (ri_replica r)) a l_ ios) ->
    step_result r netc (fun l l_ ios => LReplicaNoReceiveNext l a l_ ios)
      (deliver_step netc [] out)) as Hgo.
  { intros out L0 Himp HL. eapply deliver_result; [done|constructor|].
    intros l_ ps H. eapply HL; [done|apply SpontaneousIos_sends|apply ExtractSent_sends]. }
  destruct (a =? 1) eqn:E1; [|destruct (a =? 2) eqn:E2; [|destruct (a =? 4) eqn:E4;
    [|destruct (a =? 5) eqn:E5; [|destruct (a =? 6) eqn:E6; [|done]]]]].
  1: eapply Hgo; [by apply CReplicaNextSpontaneousMaybeEnterNewViewAndSend1a_refines|].
  2: eapply Hgo; [by apply CReplicaNextSpontaneousMaybeEnterPhase2_refines|].
  3: eapply Hgo; [by apply CReplicaNextSpontaneousTruncateLogBasedOnCheckpoints_refines|].
  4: eapply Hgo; [by apply CReplicaNextSpontaneousMaybeMakeDecision_refines|].
  5: eapply Hgo; [by apply CReplicaNextSpontaneousMaybeExecute_refines|].
  all: intros l_ ps ios Hrel Hios He; unfold LReplicaNoReceiveNext; rewrite He;
    repeat case_decide; first [done|lia].
Qed.

Lemma read_clock_result r netc :
  impl_ok r -> is_u64 (net_time netc) -> let a := ri_nextActionIndex r in
  (a =? 3) || ((7 <=? a) && (a <=? 9)) = true ->
  step_result r netc (fun l l_ ios => LReplicaNoReceiveNext l a l_ ios)
    (replica_no_receive_read_clock_next r netc).
Proof.
  intros Hr Hclock a Ha. unfold replica_no_receive_read_clock_next. fold a.
  pose proof (impl_ok_replica r Hr) as Hok. set (t := net_time netc) in *.
  assert (forall out L0, implements (ri_replica r) out L0 ->
    (forall l_ ps ios, L0 (view (ri_replica r)) l_ ps -> SpontaneousIos ios 1 ->
       SpontaneousClock ios = MkClockReading t ->
       ExtractSentPacketsFromIos ios = ps -> LReplicaNoReceiveNext (view (ri_replica r)) a l_ ios) ->
    step_result r netc (fun l l_ ios => LReplicaNoReceiveNext l a l_ ios)
      (deliver_step netc [ReadClock t] out)) as Hgo.
  { intros out L0 Himp HL. eapply deliver_result; [done|constructor|].
    intros l_ ps H. eapply HL;
      [done|apply SpontaneousIos_clock_sends|apply SpontaneousClock_sends|].
    simpl. apply ExtractSent_sends. }
  destruct (a =? 3) eqn:E3; [|destruct (a =? 7) eqn:E7; [|destruct (a =? 8) eqn:E8;
    [|destruct (a =? 9) eqn:E9; [|lia]]]].
  1: eapply Hgo; [by apply CReplicaNextReadClockMaybeNominateValueAndSend2a_refines|].
  2: eapply Hgo; [by apply CReplicaNextReadClockCheckForViewTimeout_refines|].
  3: eapply Hgo; [by apply CReplicaNextReadClockCheckForQuorumOfViewSuspicions_refines|].
  4: eapply Hgo; [by apply CReplicaNextReadClockMaybeSendHeartbeat_refines|].
  all: intros l_ ps ios Hrel Hios Ht He; unfold LReplicaNoReceiveNext; rewrite He, ?Ht;
    repeat case_decide; split_and?; first [done|lia].
Qed.

(** Receives come first and sends last: the step can be reduced. *)
Lemma step_prefix_compatible recv before ps :
  step_prefix recv before -> LIoOpSeqCompatibleWithReduction (before ++ (Send <$> ps)).
Proof.
  intros Hb i io1 io2 H1 H2. unfold LIoOpOrderingOKForAction.
  assert (forall j io, (Send <$> ps : list RslIo) !! j = Some io -> is_send io = true) as Hs.
  { intros j io Hj%list_elem_of_lookup_2. by eapply is_send_sends. }
  destruct Hb; simpl in *; [right; by eapply Hs|right; by eapply Hs|right; by eapply Hs| |].
  - destruct i; simplify_eq/=; [by left|right; by eapply Hs].
  - destruct i as [|i]; simplify_eq/=; [by left|]. destruct i; simplify_eq/=; right; by eapply Hs.
Qed.

Lemma step_prefix_received recv before ps p :
  step_prefix recv before -> Receive p ∈ before ++ (Send <$> ps : list RslIo) -> recv = Some p.
Proof.
  intros Hb [Hin|(q & ? & _)%list_elem_of_fmap]%elem_of_app; [|done].
  destruct Hb; repeat (apply elem_of_cons in Hin as [?|Hin]; [by simplify_eq|]);
    by apply not_elem_of_nil in Hin.
Qed.

Lemma step_prefix_sends recv before (ps : list RslPacket) p :
  step_prefix recv before -> Send p ∈ before ++ (Send <$> ps) -> p ∈ ps.
Proof.
  intros Hb [Hin|(q & Hq & ?)%list_elem_of_fmap]%elem_of_app; [|by simplify_eq].
  destruct Hb; repeat (apply elem_of_cons in Hin as [?|Hin]; [by simplify_eq|]);
    by apply not_elem_of_nil in Hin.
Qed.

Lemma valid_same_constants s : valid s -> same_constants (view s) (view (c_constants s)).
Proof. intros (_ & _ & _ & _ & _ & ? & ? & ? & ? & _). by split_all. Qed.

(** The host's I/O is its own, it receives the packet delivered, and its
    packets are valid. *)
Definition host_ios r netc (ios : list RslIo) : Prop :=
  (forall io (e : RslEnvironment), io ∈ ios -> IsValidLIoOp io (localAddr r) e)
  /\ (forall p, Receive p ∈ ios -> delivered r netc = Some p)
  /\ LIoOpSeqCompatibleWithReduction ios
  /\ (forall p, Send p ∈ ios -> valid p).

(** One iteration: it fails to receive and does nothing, or it succeeds,
    keeps the invariant and implements a scheduled step, whose I/O [ios_] it
    performs, up to the packets that it failed to send. *)
Inductive loop_step r netc : ReplicaImpl * bool * list RslIo -> Prop :=
  | step_taken r' ios ios_ :
      impl_ok r' -> localAddr r' = localAddr r ->
      c_constants (ri_replica r') = c_constants (ri_replica r) ->
      LSchedulerNext (view r) (view r') ios_ -> host_ios r netc ios_ ->
      ios `prefix_of` ios_ -> (sends_all netc -> ios = ios_) ->
      loop_step r netc (r', true, ios)
  | step_not_taken :
      net_receive netc = Fail_ -> loop_step r netc (r, false, []).

Lemma step_result_loop r netc L next res :
  impl_ok r -> step_result r netc L res -> 0 <= next < 10 ->
  (forall l_ ios, L (view (ri_replica r)) l_ ios ->
     LSchedulerNext (view r) (MkLScheduler l_ next) ios) ->
  loop_step r netc (advance r next res).
Proof.
  intros [[Hv [Hidx Hloc]] Hsync] Hres Hnext HL.
  destruct Hres as [s' before ps k [Hv' Hsync'] Hc Hb Hps HL' Hall|Hfail];
    [|destruct r; by constructor].
  specialize (HL _ _ HL').
  apply (step_taken _ _ _ _ (before ++ (Send <$> ps)));
    [|done|done|exact HL| |apply prefix_app; rewrite fmap_take; apply prefix_take|].
  { split; [|done]. split_and!; simpl; [done|lia|lia|]. by rewrite Hc. }
  2: { intros Hs. by rewrite (Hall Hs). }
  destruct (LSchedulerNext_step _ _ _ HL) as (recv & Hstep & _).
  pose proof (LReplicaStep_sent _ _ _ _ _ Hstep (valid_same_constants _ Hv)) as Hsrc.
  split_and!.
  - intros [p|p| |t] e Hin; simpl; try done.
    + rewrite (Hsrc p); [by rewrite Hloc|by apply ExtractSent_elem].
    + eapply step_prefix_received in Hin; [|done]. unfold delivered in Hin.
      destruct (net_receive netc); by simplify_eq.
  - intros p Hin. by eapply step_prefix_received.
  - by eapply step_prefix_compatible.
  - intros p Hin. eapply step_prefix_sends in Hin; [|done]. by eapply Forall_forall in Hps.
Qed.

Lemma Replica_Next_main_step r netc :
  impl_ok r -> net_ok netc ->
  loop_step r netc (Replica_Next_main r netc).
Proof.
  intros Hr Hnet. pose proof Hr as [[_ [Hidx _]] _]. unfold Replica_Next_main.
  assert (forall next l_ ios, ri_nextActionIndex r <> 0 ->
    next = (ri_nextActionIndex r + 1) mod LReplicaNumActions ->
    LReplicaNoReceiveNext (view (ri_replica r)) (ri_nextActionIndex r) l_ ios ->
    LSchedulerNext (view r) (MkLScheduler l_ next) ios) as Hspont.
  { intros next l_ ios Hne Hn HL. split; [exact Hn|]. by rewrite decide_False. }
  unfold LReplicaNumActions in Hspont.
  set (a := ri_nextActionIndex r) in *.
  assert (a + 1 < 10 -> u64_add a 1 = (a + 1) mod 10) as Hmod.
  { intros ?. rewrite u64_add_exact by (unfold U64_MODULUS; lia). by rewrite Z.mod_small by lia. }
  destruct (a =? 0) eqn:E0.
  { apply (step_result_loop r netc LReplicaNextProcessPacket);
      [done|by apply process_packet_result|lia|].
    intros l_ ios HL. split; cbn; fold a; replace a with 0 by lia; [done|].
    by rewrite decide_True. }
  destruct ((a =? 1) || (a =? 2) || (a =? 4) || (a =? 5) || (a =? 6)) eqn:E1.
  { apply (step_result_loop r netc (fun l l_ ios => LReplicaNoReceiveNext l a l_ ios));
      [done|by apply no_clock_result|fold a; rewrite Hmod by lia; rewrite Z.mod_small; lia|].
    intros l_ ios. apply Hspont; [lia|apply Hmod; lia]. }
  destruct ((a =? 3) || _) eqn:E2; [|lia].
  apply (step_result_loop r netc (fun l l_ ios => LReplicaNoReceiveNext l a l_ ios));
    [done|by apply read_clock_result; [|apply Hnet|]| |]; fold a; unfold roll_action_index.
  - destruct (a >=? 9) eqn:E9; [lia|]. rewrite Hmod by lia. rewrite Z.mod_small; lia.
  - intros l_ ios. apply Hspont; [lia|]. destruct (a >=? 9) eqn:E9; [|apply Hmod; lia].
    by replace a with 9 by lia.
Qed.
End event_loop.

(** ** Failed sends *)

(** The same answers, with no send that fails. *)
Definition reliable (netc : NetClient) : NetClient :=
  MkNetClient (net_receive netc) (net_time netc) (fun _ => true).

(** Two steps that differ in nothing but the sends that come last. *)
Definition sends_more {S} (res res' : S * bool * list RslIo) : Prop :=
  res'.1 = res.1 /\ res.2 `prefix_of` res'.2.

Lemma sends_more_refl {S} (res : S * bool * list RslIo) : sends_more res res.
Proof. done. Qed.

Lemma deliver_step_reliable netc before out :
  sends_more (deliver_step netc before out) (deliver_step (reliable netc) before out).
Proof.
  rewrite !deliver_step_eq. split; [done|]. apply prefix_app. rewrite (sent_count_all (reliable netc)) by done.
  rewrite firstn_all, fmap_take. apply prefix_take.
Qed.

#[local] Hint Resolve sends_more_refl deliver_step_reliable : core.

Lemma advance_reliable r next res res' :
  sends_more res res' -> sends_more (advance r next res) (advance r next res').
Proof. destruct res as [[s ok] ios], res' as [[s' ok'] ios']. by intros [[= -> ->] ?]. Qed.

(** A failed send changes nothing but what is sent. *)
Lemma Replica_Next_main_reliable r netc :
  sends_more (Replica_Next_main r netc) (Replica_Next_main r (reliable netc)).
Proof.
  unfold Replica_Next_main. repeat case_match; auto; apply advance_reliable.
  - unfold replica_next_process_packet_x. cbn [net_receive reliable]. destruct (net_receive netc) as [| |sender m]; auto.
    case_match; [apply deliver_step_reliable|]. unfold replica_next_process_packet_without_reading_clock.
    case_match; auto.
  - unfold replica_no_receive_no_read_clock. repeat case_match; auto.
  - unfold replica_no_receive_read_clock_next. cbn [net_time reliable]. repeat case_match; auto.
Qed.

Lemma Replica_Init_ok (c : CReplicaConstants) :
  valid c ->
  impl_ok (Replica_Init c) /\ LSchedulerInit (view (Replica_Init c)) (view c)
  /\ localAddr (Replica_Init c) = self_of (view c).
Proof.
  intros Hc. destruct (CReplicaInit_refines c Hc) as [[Hv Hs] Hinit].
  split_and!; [|by split|done]. split; [|done]. by split_and!.
Qed.

(** ** Progress of the loop *)

(** The receive calls succeed; sends may fail. *)
Definition net_up (netc : NetClient) : Prop := net_ok netc /\ net_receive netc <> Fail_.

(** The states the loop of [paxos_main] goes through: it ends at the first
    step that fails. *)
Fixpoint loop (r : ReplicaImpl) (netcs : list NetClient) : list ReplicaImpl :=
  r :: match netcs with
       | [] => []
       | netc :: rest =>
           match Replica_Next_main r netc with
           | (r', true, _) => loop r' rest
           | _ => []
           end
       end.

Section progress.
Implicit Types (r : ReplicaImpl) (netc : NetClient).

Lemma loop_index r netcs k :
  impl_ok r -> Forall net_up netcs -> (k <= length netcs)%nat ->
  exists r', loop r netcs !! k = Some r'
    /\ ri_nextActionIndex r' = (ri_nextActionIndex r + Z.of_nat k) mod 10.
Proof.
  revert r netcs. induction k as [|k IH]; intros r netcs Hr Hnet Hk.
  { exists r. pose proof Hr as [[_ [Hidx _]] _]. split; [by destruct netcs|].
    rewrite Z.add_0_r, Z.mod_small; lia. }
  destruct netcs as [|netc rest]; [simpl in Hk; lia|].
  apply Forall_cons in Hnet as [Hup Hnet]. simpl.
  destruct Hup as [Hok Hrecv].
  destruct (Replica_Next_main_step r netc Hr Hok) as [r1 ios ios_ Hr1 _ _ [Hn _] _ _ _|]; [|done].
  destruct (IH r1 rest Hr1 Hnet) as (r' & Hr' & Hi); [simpl in Hk; lia|].
  exists r'. split; [done|]. rewrite Hi.
  change (ri_nextActionIndex r1) with (nextActionIndex (view r1)). rewrite Hn.
  change (nextActionIndex (view r)) with (ri_nextActionIndex r).
  unfold LReplicaNumActions. rewrite Zplus_mod_idemp_l. f_equal. lia.
Qed.

(** The loop's states follow each other by successful iterations. *)
Lemma loop_next r netcs k :
  impl_ok r -> Forall net_up netcs -> (k < length netcs)%nat ->
  exists rk rk' netc ios, loop r netcs !! k = Some rk /\ loop r netcs !! S k = Some rk'
    /\ netcs !! k = Some netc /\ Replica_Next_main rk netc = (rk', true, ios).
Proof.
  revert r netcs. induction k as [|k IH]; intros r [|netc rest] Hr Hnet Hk; try (cbn in Hk; lia).
  all: apply Forall_cons in Hnet as [[Hok Hrecv] Hnet]; simpl.
  all: pose proof (Replica_Next_main_step r netc Hr Hok) as Hs.
  all: destruct (Replica_Next_main r netc) as [[r1 ok] ios] eqn:Hn; inversion Hs as [? ? ? Hr1|]; subst; [|done].
  - exists r, r1, netc, ios. split_and!; [done| |done|done]. by destruct rest.
  - apply IH; [done|done|]. cbn in Hk. lia.
Qed.

(** The outcomes of the scheduler's ten actions at a state of the loop, in the order
    of their indices. *)
Definition actions r netc : list (CReplica * bool * list RslIo) :=
  let s := ri_replica r in
  let t := net_time netc in
  [ replica_next_process_packet_x r netc;
    deliver_step netc [] (CReplicaNextSpontaneousMaybeEnterNewViewAndSend1a s);
    deliver_step netc [] (CReplicaNextSpontaneousMaybeEnterPhase2 s);
    deliver_step netc [ReadClock t] (CReplicaNextReadClockMaybeNominateValueAndSend2a s t);
    deliver_step netc [] (CReplicaNextSpontaneousTruncateLogBasedOnCheckpoints s);
    deliver_step netc [] (CReplicaNextSpontaneousMaybeMakeDecision s);
    deliver_step netc [] (CReplicaNextSpontaneousMaybeExecute s);
    deliver_step netc [ReadClock t] (CReplicaNextReadClockCheckForViewTimeout s t);
    deliver_step netc [ReadClock t] (CReplicaNextReadClockCheckForQuorumOfViewSuspicions s t);
    deliver_step netc [ReadClock t] (CReplicaNextReadClockMaybeSendHeartbeat s t) ].

(** An iteration runs the action that its index names. *)
Lemma Replica_Next_main_runs r netc r' ok ios :
  0 <= ri_nextActionIndex r < 10 -> Replica_Next_main r netc = (r', ok, ios) ->
  actions r netc !! Z.to_nat (ri_nextActionIndex r) = Some (ri_replica r', ok, ios).
Proof.
  intros Ha Hn.
  assert (forall next res, advance r next res = (r', ok, ios) -> res = (ri_replica r', ok, ios)) as Hadv
    by (intros next [[s b] l]; cbn; by intros [= <- -> ->]).
  unfold Replica_Next_main, ReplicaNextMainProcessPacketX, ReplicaNextMainNoClock, ReplicaNextMainReadClock,
    replica_no_receive_no_read_clock, replica_no_receive_read_clock_next in Hn.
  assert (Z.of_nat (Z.to_nat (ri_nextActionIndex r)) = ri_nextActionIndex r) as Hz by lia.
  assert (Z.to_nat (ri_nextActionIndex r) < 10)%nat as Hlt by lia.
  destruct (Z.to_nat (ri_nextActionIndex r)) as [|[|[|[|[|[|[|[|[|[|k]]]]]]]]]]; [..|lia];
    rewrite <- Hz in Hn; apply Hadv in Hn; cbn in Hn |- *; by f_equal.
Qed.

(** Any ten consecutive steps run every action. *)
Lemma loop_runs r netcs a :
  impl_ok r -> Forall net_up netcs -> (10 <= length netcs)%nat -> 0 <= a < 10 ->
  exists k rk rk' netc ios, (k < 10)%nat /\ loop r netcs !! k = Some rk /\ loop r netcs !! S k = Some rk'
    /\ netcs !! k = Some netc /\ Replica_Next_main rk netc = (rk', true, ios)
    /\ actions rk netc !! Z.to_nat a = Some (ri_replica rk', true, ios).
Proof.
  intros Hr Hnet Hlen Ha. pose proof Hr as [[_ [Hidx _]] _].
  set (k := Z.to_nat ((a - ri_nextActionIndex r) mod 10)).
  pose proof (Z.mod_pos_bound (a - ri_nextActionIndex r) 10).
  destruct (loop_next r netcs k Hr Hnet) as (rk & rk' & netc & ios & H1 & H2 & H3 & H4); [lia|].
  destruct (loop_index r netcs k Hr Hnet) as (rk0 & Hk0 & Hi); [lia|]. simplify_eq.
  assert (ri_nextActionIndex rk = a) as Hka.
  { rewrite Hi. unfold k. rewrite Z2Nat.id by lia.
    rewrite Zplus_mod_idemp_r. replace (ri_nextActionIndex r + (a - ri_nextActionIndex r)) with a by lia.
    by apply Z.mod_small. }
  exists k, rk, rk', netc, ios. split_and!; [lia|done..|]. rewrite <- Hka in Ha |- *.
  by apply Replica_Next_main_runs.
Qed.
End progress.
