(* ===== verification/DistributedSystem.v ===== *)
(** * The distributed system

    protocol/RSL/distributed_system.rs: every replica's scheduler and the
    network, one host acting at a time.  [reachable] are the states the
    transition relation leads to, [RslEvent] is a transition seen from the
    replicas, and [replica_invariant] the induction all later invariants use. *)

From stdpp Require Import prelude gmap sets list numbers fin_sets.
From Stdlib Require Import ZArith Lia.
From S2P Require Import Prelude.
From S2P Require Import Types.
From S2P Require Import Environment.
From S2P Require Import Replica.
From S2P Require Import ReplicaSteps.

#[local] Open Scope Z_scope.

Record RslState := MkRslState
  { rsl_constants : LConstants;
    environment : RslEnvironment;
    replicas : list LScheduler;
    clients : list AbstractEndPoint }.

(** [ps.constants.config.replica_ids]. *)
Abbreviation rsl_ids con := (replica_ids (config con)).

Definition RslMapsComplete (ps : RslState) : Prop :=
  seq_len (replicas ps) = seq_len (rsl_ids (rsl_constants ps)).

Definition RslConstantsUnchanged (ps ps_ : RslState) : Prop :=
  seq_len (replicas ps_) = seq_len (replicas ps)
  /\ clients ps_ = clients ps
  /\ rsl_constants ps_ = rsl_constants ps.

Definition RslInit (con : LConstants) (ps : RslState) : Prop :=
  WellFormedLConfiguration (config con)
  /\ WFLParameters (params con)
  /\ rsl_constants ps = con
  /\ LEnvironment_Init (environment ps)
  /\ RslMapsComplete ps
  /\ (forall i, 0 <= i < seq_len (rsl_ids con) ->
        exists s, seq_get (replicas ps) i = Some s /\ LSchedulerInit s (MkLReplicaConstants i con)).

Definition RslNextCommon (ps ps_ : RslState) : Prop :=
  RslMapsComplete ps
  /\ RslConstantsUnchanged ps ps_
  /\ LEnvironment_Next (environment ps) (environment ps_).

Definition RslNextOneReplica (ps ps_ : RslState) (idx : Z) (ios : list RslIo) : Prop :=
  RslNextCommon ps ps_
  /\ 0 <= idx < seq_len (rsl_ids (rsl_constants ps))
  /\ exists s s_, seq_get (replicas ps) idx = Some s /\ seq_get (replicas ps_) idx = Some s_
       /\ LSchedulerNext s s_ ios
       /\ nextStep (environment ps)
          = LEnvStepHostIos (seq_index (rsl_ids (rsl_constants ps)) idx) ios
       /\ replicas ps_ = seq_update (replicas ps) idx s_.

Definition RslNextEnvironment (ps ps_ : RslState) : Prop :=
  RslNextCommon ps ps_
  /\ is_host_ios (nextStep (environment ps)) = false
  /\ replicas ps_ = replicas ps.

Definition RslNextOneExternal (ps ps_ : RslState) (eid : AbstractEndPoint) (ios : list RslIo)
  : Prop :=
  RslNextCommon ps ps_
  /\ eid ∉ rsl_ids (rsl_constants ps)
  /\ nextStep (environment ps) = LEnvStepHostIos eid ios
  /\ replicas ps_ = replicas ps.

Definition RslNext (ps ps_ : RslState) : Prop :=
  (exists idx ios, RslNextOneReplica ps ps_ idx ios)
  \/ (exists eid ios, RslNextOneExternal ps ps_ eid ios)
  \/ RslNextEnvironment ps ps_.

(** The states of the behaviours that start in [RslInit]. *)
Inductive reachable (con : LConstants) : RslState -> Prop :=
  | reachable_init ps : RslInit con ps -> reachable con ps
  | reachable_next ps ps_ : reachable con ps -> RslNext ps ps_ -> reachable con ps_.

Abbreviation sent_of ps := (sentPackets (environment ps)).

(** ** A transition seen from the replicas *)

Inductive RslEvent (con : LConstants) (ps ps_ : RslState) : Prop :=
  | event_replica idx s s_ recv sent :
      0 <= idx < seq_len (rsl_ids con) ->
      seq_get (replicas ps) idx = Some s ->
      replicas ps_ = seq_update (replicas ps) idx s_ ->
      LReplicaStep (replica s) (replica s_) recv sent ->
      (forall p, recv = Some p -> p ∈ sent_of ps /\ dst p = seq_index (rsl_ids con) idx) ->
      (forall p, p ∈ sent_of ps_ <-> p ∈ sent_of ps \/ p ∈ sent) ->
      (forall p, p ∈ sent -> src p = seq_index (rsl_ids con) idx) ->
      RslEvent con ps ps_
  | event_other :
      replicas ps_ = replicas ps -> sent_of ps ⊆ sent_of ps_ ->
      (forall p, p ∈ sent_of ps_ -> src p ∈ rsl_ids con -> p ∈ sent_of ps) ->
      RslEvent con ps ps_.

Section reachability.
Context (con : LConstants).
Implicit Types (ps : RslState).

Lemma reachable_constants ps :
  reachable con ps ->
  rsl_constants ps = con /\ WellFormedLConfiguration (config con)
  /\ seq_len (replicas ps) = seq_len (rsl_ids con).
Proof.
  induction 1 as [ps (Hwf & _ & Hc & _ & Hm & _)|ps ps_ _ (IHc & Hwf & IHl) Hnext].
  - split_and!; [done|done|]. unfold RslMapsComplete in Hm. by rewrite Hc in Hm.
  - assert (RslNextCommon ps ps_) as (_ & (Hl & _ & Hc) & _).
    { destruct Hnext as [(? & ? & H & _)|[(? & ? & H & _)|[H _]]]; exact H. }
    split_and!; [congruence|done|congruence].
Qed.

Lemma RslNext_event ps ps_ : reachable con ps -> RslNext ps ps_ -> RslEvent con ps ps_.
Proof.
  intros Hr Hnext. destruct (reachable_constants ps Hr) as (Hcon & _ & _).
  destruct Hnext as [(idx & ios & (_ & _ & Henv) & Hidx & s & s_ & Hs & _ & Hstep & Hns & Hupd)
    |[(eid & ios & (_ & _ & Henv) & Hout & Hns & Hsame)|((_ & _ & Henv) & Hns & Hsame)]].
  - rewrite Hcon in *. destruct Henv as [Hv Hio]. rewrite Hns in Hv, Hio.
    destruct Hv as [Hv _].
    destruct (LSchedulerNext_step _ _ _ Hstep) as (recv & Hstep' & Hrecv).
    eapply event_replica; [exact Hidx|exact Hs|exact Hupd|exact Hstep'| | |].
    + intros p Hp%Hrecv. destruct Hio as (_ & Hm & _).
      split; [by apply (Hm (Receive p))|by apply (Hv (Receive p))].
    + intros p. by rewrite (LEnvironment_PerformIos_sent _ _ _ _ _ Hio), ExtractSent_elem.
    + intros p Hp%ExtractSent_elem. by apply (Hv (Send p)).
  - pose proof (LEnvironment_Next_sent_subseteq _ _ Henv) as Hsub.
    rewrite Hcon in *. destruct Henv as [Hv Hio]. rewrite Hns in Hv, Hio.
    destruct Hv as [Hv _]. apply event_other; [done|done|].
    intros p Hp Hsrc. apply (LEnvironment_PerformIos_sent _ _ _ _ _ Hio) in Hp as [?|Hp]; [done|].
    pose proof (Hv (Send p) Hp) as Hx. simpl in Hx. by subst.
  - pose proof (LEnvironment_Next_sent_subseteq _ _ Henv) as Hsub.
    apply event_other; [done|done|]. intros p Hp _. destruct Henv as [_ Hio].
    destruct (nextStep (environment ps)); [done|..]; destruct Hio as [_ E]; by rewrite E in Hp.
Qed.

(** Induction on a behaviour, by events. *)
Lemma reachable_event_ind (P : RslState -> Prop) :
  (forall ps, RslInit con ps -> P ps) ->
  (forall ps ps_, reachable con ps -> reachable con ps_ -> P ps -> RslEvent con ps ps_ -> P ps_) ->
  forall ps, reachable con ps -> P ps.
Proof.
  intros Hi Hs ps Hr. induction Hr as [ps H|ps ps_ Hr IH H]; [by apply Hi|].
  eapply Hs; [exact Hr|by eapply reachable_next|done|by apply RslNext_event].
Qed.

Lemma RslInit_sent ps : RslInit con ps -> sent_of ps = ∅.
Proof.
  intros (_ & _ & _ & [H _] & _). apply leibniz_equiv. by apply size_empty_iff.
Qed.

Lemma RslInit_replica ps idx s :
  RslInit con ps -> seq_get (replicas ps) idx = Some s ->
  LReplicaInit (replica s) (MkLReplicaConstants idx con).
Proof.
  intros (_ & _ & Hc & _ & Hm & Hall) Hs. pose proof (seq_get_Some_range _ _ _ Hs) as Hr.
  unfold RslMapsComplete in Hm. rewrite Hc in Hm.
  destruct (Hall idx) as (s' & Hs' & [Hi _]); [lia|]. congruence.
Qed.

Lemma event_sent_subseteq ps ps_ : RslEvent con ps ps_ -> sent_of ps ⊆ sent_of ps_.
Proof. intros [? ? ? ? ? ? ? ? ? ? H ?|? H ?]; [|done]. intros p Hp. apply H. by left. Qed.

(** A replica never changes its constants. *)
Lemma reachable_same_constants ps idx s :
  reachable con ps -> seq_get (replicas ps) idx = Some s ->
  same_constants (replica s) (MkLReplicaConstants idx con).
Proof.
  intros Hr. revert ps Hr idx s. apply (reachable_event_ind (fun ps => forall idx s,
    seq_get (replicas ps) idx = Some s ->
    same_constants (replica s) (MkLReplicaConstants idx con))).
  - intros ps Hi idx s Hs. by apply LReplicaInit_same_constants, (RslInit_replica ps).
  - intros ps ps_ _ _ IH [idx s s_ recv sent Hidx Hs Hupd Hstep _ _ _|Hsame _ _] idx' s' Hs'.
    + rewrite Hupd in Hs'. destruct (decide (idx = idx')) as [<-|Hne].
      * rewrite seq_get_update_eq in Hs' by (by eapply seq_get_Some_range). simplify_eq.
        eapply LReplicaStep_constants; [done|by apply IH].
      * rewrite seq_get_update_ne in Hs' by done. by apply IH.
    + rewrite Hsame in Hs'. by apply IH.
Qed.

Lemma rsl_ids_inj idx idx' :
  WellFormedLConfiguration (config con) ->
  0 <= idx < seq_len (rsl_ids con) -> 0 <= idx' < seq_len (rsl_ids con) ->
  seq_index (rsl_ids con) idx = seq_index (rsl_ids con) idx' -> idx = idx'.
Proof.
  intros (_ & _ & Hu) H1 H2 He. eapply Hu; [by apply seq_get_index|].
  by rewrite He, seq_get_index.
Qed.

(** Invariants of each replica and the packets sent: they hold initially, a
    replica's step keeps its own when every replica's holds before it, and
    other hosts' packets keep it. *)
Lemma replica_invariant (R : Z -> LReplica -> gset RslPacket -> Prop) :
  (forall idx r, 0 <= idx < seq_len (rsl_ids con) ->
     LReplicaInit r (MkLReplicaConstants idx con) -> R idx r ∅) ->
  (forall ps ps_ idx s s_ recv sent,
     reachable con ps -> reachable con ps_ -> 0 <= idx < seq_len (rsl_ids con) ->
     seq_get (replicas ps) idx = Some s ->
     same_constants (replica s) (MkLReplicaConstants idx con) ->
     LReplicaStep (replica s) (replica s_) recv sent ->
     (forall p, recv = Some p -> p ∈ sent_of ps /\ dst p = seq_index (rsl_ids con) idx) ->
     (forall p, p ∈ sent_of ps_ <-> p ∈ sent_of ps \/ p ∈ sent) ->
     (forall p, p ∈ sent -> src p = seq_index (rsl_ids con) idx) ->
     (forall i si, seq_get (replicas ps) i = Some si -> R i (replica si) (sent_of ps)) ->
     R idx (replica s_) (sent_of ps_)) ->
  (forall idx r S S', S ⊆ S' ->
     (forall p, p ∈ S' -> src p = seq_index (rsl_ids con) idx -> p ∈ S) ->
     R idx r S -> R idx r S') ->
  forall ps idx s, reachable con ps -> seq_get (replicas ps) idx = Some s ->
    R idx (replica s) (sent_of ps).
Proof.
  intros Hinit Hstep Hgrow ps idx s Hr. revert ps Hr idx s.
  apply (reachable_event_ind (fun ps => forall idx s,
    seq_get (replicas ps) idx = Some s -> R idx (replica s) (sent_of ps))).
  - intros ps Hi idx s Hs. rewrite RslInit_sent by done.
    apply Hinit; [|by apply (RslInit_replica ps)].
    destruct (reachable_constants ps) as (_ & _ & <-); [by constructor|].
    by eapply seq_get_Some_range.
  - intros ps ps_ Hr Hr' IH Hev idx' s' Hs'.
    destruct (reachable_constants ps Hr) as (_ & Hwf & Hlen).
    pose proof (event_sent_subseteq _ _ Hev) as Hsub.
    destruct Hev as [idx s s_ recv sent Hidx Hs Hupd Hst Hrecv Hsent Hsrc|Hsame _ Hnew].
    + rewrite Hupd in Hs'. destruct (decide (idx = idx')) as [<-|Hne].
      * rewrite seq_get_update_eq in Hs' by (by eapply seq_get_Some_range). simplify_eq.
        eapply (Hstep ps ps_ idx s); try done. by apply (reachable_same_constants ps).
      * rewrite seq_get_update_ne in Hs' by done. pose proof (seq_get_Some_range _ _ _ Hs').
        apply (Hgrow _ _ (sent_of ps)); [done| |by apply IH].
        intros p [?|Hp]%Hsent Hme; [done|]. rewrite (Hsrc p Hp) in Hme.
        apply rsl_ids_inj in Hme; [done|done|done|lia].
    + rewrite Hsame in Hs'. pose proof (seq_get_Some_range _ _ _ Hs').
      apply (Hgrow _ _ (sent_of ps)); [done| |by apply IH].
      intros p Hp Hme. apply Hnew; [done|]. rewrite Hme. apply seq_index_elem_of. lia.
Qed.
End reachability.
