(* ===== verification/Agreement.v ===== *)
(** * Agreement

    No two values are chosen for one operation.  The invariants are those of
    the replicas' own handlers: an acceptor's votes and promises
    (acceptor.rs), a proposer's ballots and the 1bs that justify its 2as
    (proposer.rs), over the states [reachable] by RslNext. *)

From stdpp Require Import prelude gmap sets list numbers fin_sets.
From Stdlib Require Import ZArith Lia.
From S2P Require Import Prelude.
From S2P Require Import Types.
From S2P Require Import Common.
From S2P Require Import Acceptor.
From S2P Require Import Proposer.
From S2P Require Import Environment.
From S2P Require Import Replica.
From S2P Require Import ReplicaSteps.
From S2P Require Import DistributedSystem.

#[local] Open Scope Z_scope.

(** ** What the packets sent say *)

Section ghost.
Context (ids : list AbstractEndPoint).
Implicit Types (S : gset RslPacket) (h : AbstractEndPoint).

(** A replica proposed [v] at ballot [bal] for [opn]. *)
Definition proposed S (bal : Ballot) (opn : OperationNumber) (v : RequestBatch) : Prop :=
  exists p, p ∈ S /\ src p ∈ ids /\ msg p = RslMessage2a bal opn v.

(** Host [h] accepted it. *)
Definition accepted S h (bal : Ballot) (opn : OperationNumber) (v : RequestBatch) : Prop :=
  exists p, p ∈ S /\ src p = h /\ msg p = RslMessage2b bal opn v.

(** Host [h] promised ballot [bal], reporting its log. *)
Definition promised S h (bal : Ballot) (ltp : OperationNumber) (votes : Votes) : Prop :=
  exists p, p ∈ S /\ src p = h /\ msg p = RslMessage1b bal ltp votes.

(** A quorum of replicas accepted [v] at ballot [bal] for [opn]. *)
Definition chosen S (bal : Ballot) (opn : OperationNumber) (v : RequestBatch) : Prop :=
  exists Q : gset AbstractEndPoint,
    Z.of_nat (size Q) >= seq_len ids / 2 + 1
    /\ forall h, h ∈ Q -> h ∈ ids /\ accepted S h bal opn v.

Lemma proposed_mono S S' bal opn v : S ⊆ S' -> proposed S bal opn v -> proposed S' bal opn v.
Proof. intros Hs (p & ? & ? & ?). exists p. set_solver. Qed.

Lemma accepted_mono S S' h bal opn v : S ⊆ S' -> accepted S h bal opn v -> accepted S' h bal opn v.
Proof. intros Hs (p & ? & ? & ?). exists p. set_solver. Qed.

Lemma chosen_mono S S' bal opn v : S ⊆ S' -> chosen S bal opn v -> chosen S' bal opn v.
Proof.
  intros Hs (Q & Hsz & HQ). exists Q. split; [done|].
  intros h Hh. destruct (HQ h Hh). split; [done|by eapply accepted_mono].
Qed.

Lemma promised_mono S S' h bal ltp vs : S ⊆ S' -> promised S h bal ltp vs -> promised S' h bal ltp vs.
Proof. intros Hs (p & ? & ? & ?). exists p. set_solver. Qed.

(** Any two quorums share a replica. *)
Lemma quorums_share (Q1 Q2 : gset AbstractEndPoint) :
  Z.of_nat (size Q1) >= seq_len ids / 2 + 1 -> Z.of_nat (size Q2) >= seq_len ids / 2 + 1 ->
  (forall h, h ∈ Q1 -> h ∈ ids) -> (forall h, h ∈ Q2 -> h ∈ ids) ->
  exists h, h ∈ Q1 /\ h ∈ Q2.
Proof.
  intros H1 H2 ? ?. apply (quorum_intersection ids); [done|done|].
  Z.to_euclidean_division_equations. lia.
Qed.
End ghost.

(** ** Acceptors *)

Record acceptor_inv (ids : list AbstractEndPoint) (me : AbstractEndPoint) (a : LAcceptor)
    (S : gset RslPacket) : Prop := MkAcceptorInv
  { (* the promise covers every 1b and 2b sent *)
    ai_accepted_bal bal opn v : accepted S me bal opn v -> BalLeq bal (acc_max_bal a);
    ai_promised_bal bal ltp votes : promised S me bal ltp votes -> BalLeq bal (acc_max_bal a);
    (* an accepted operation is truncated or remembered with a ballot as high *)
    ai_accepted_vote bal opn v :
      accepted S me bal opn v ->
      opn < acc_log_truncation_point a
      \/ exists w, acc_votes a !! opn = Some w /\ BalLeq bal (max_value_bal w);
    (* votes are for proposed values *)
    ai_vote opn w :
      acc_votes a !! opn = Some w ->
      BalLeq (max_value_bal w) (acc_max_bal a) /\ proposed ids S (max_value_bal w) opn (max_val w);
    ai_accepted_proposed bal opn v : accepted S me bal opn v -> proposed ids S bal opn v;
    (* a promise reports every earlier acceptance that is not truncated *)
    ai_promise_votes bal ltp votes opn w :
      promised S me bal ltp votes -> votes !! opn = Some w ->
      BalLt (max_value_bal w) bal /\ proposed ids S (max_value_bal w) opn (max_val w);
    ai_promise_reports bal ltp votes bal' opn v :
      promised S me bal ltp votes -> accepted S me bal' opn v -> BalLt bal' bal ->
      opn < ltp \/ exists w, votes !! opn = Some w /\ BalLeq bal' (max_value_bal w) }.

Lemma newLogTruncationPoint_ge a opn : acc_log_truncation_point a <= newLogTruncationPoint a opn.
Proof. unfold newLogTruncationPoint. case_decide; lia. Qed.

(** The log after a 2a. *)
Lemma LAcceptorProcess2a_log a a_ p bal opn v sent :
  LAcceptorProcess2a a a_ p sent -> msg p = RslMessage2a bal opn v ->
  acc_max_bal a_ = bal /\ acc_log_truncation_point a <= acc_log_truncation_point a_
  /\ (forall o w, acc_votes a_ !! o = Some w ->
        acc_votes a !! o = Some w \/ (o = opn /\ w = MkVote bal v))
  /\ (forall o, o >= acc_log_truncation_point a_ ->
        acc_votes a_ !! o = if decide (o = opn) then Some (MkVote bal v) else acc_votes a !! o).
Proof.
  intros (_ & Hb & Hltp & Hv & _) Hmsg. rewrite Hmsg in *. cbn in Hb, Hltp, Hv.
  assert (acc_log_truncation_point a <= acc_log_truncation_point a_) as Hle.
  { rewrite Hltp. apply newLogTruncationPoint_ge. }
  split_and!; [done|done| |].
  - intros o w Ho. case_decide; [|left; congruence].
    rewrite (LAddVote_lookup _ _ _ _ _ _ Hv), CAddVote_lookup in Ho.
    repeat case_decide; naive_solver.
  - intros o Hge. case_decide as Hc.
    + rewrite (LAddVote_lookup _ _ _ _ _ _ Hv), CAddVote_lookup, <- Hltp.
      repeat case_decide; naive_solver.
    + rewrite Hv. case_decide; [lia|done].
Qed.

Section acceptor_invariant.
Context (ids : list AbstractEndPoint) (me : AbstractEndPoint).
Implicit Types (a : LAcceptor) (S : gset RslPacket) (sent : list RslPacket).

Lemma accepted_step S S' sent bal opn v :
  (forall p, p ∈ S' -> p ∈ S \/ p ∈ sent) -> accepted S' me bal opn v ->
  accepted S me bal opn v \/ exists p, p ∈ sent /\ msg p = RslMessage2b bal opn v.
Proof. intros Hs (p & [Hp|Hp]%Hs & Hsrc & Hm); [left; by exists p|right; by exists p]. Qed.

Lemma promised_step S S' sent bal ltp votes :
  (forall p, p ∈ S' -> p ∈ S \/ p ∈ sent) -> promised S' me bal ltp votes ->
  promised S me bal ltp votes \/ exists p, p ∈ sent /\ msg p = RslMessage1b bal ltp votes.
Proof. intros Hs (p & [Hp|Hp]%Hs & Hsrc & Hm); [left; by exists p|right; by exists p]. Qed.

Lemma acceptor_inv_init a c : LAcceptorInit a c -> acceptor_inv ids me a ∅.
Proof.
  intros (_ & _ & Hv & _).
  assert (forall bal opn v, ~ accepted ∅ me bal opn v) as H1 by (intros ??? (? & ? & _); set_solver).
  assert (forall bal ltp vs, ~ promised ∅ me bal ltp vs) as H2 by (intros ??? (? & ? & _); set_solver).
  split; rewrite ?Hv; naive_solver.
Qed.

Lemma acceptor_inv_quiet a a_ S S' :
  acceptor_inv ids me a S -> acceptor_quiet a a_ -> S ⊆ S' ->
  (forall p, p ∈ S' -> src p = me ->
     msg_class (msg p) = K1b \/ msg_class (msg p) = K2b -> p ∈ S) ->
  acceptor_inv ids me a_ S'.
Proof.
  intros [I1 I2 I3 I4 I5 I6 I7] (Hb & Hltp & Hsub & Hkeep) Hs Hnew.
  assert (forall bal opn v, accepted S' me bal opn v -> accepted S me bal opn v) as HA.
  { intros bal opn v (p & Hp & Hsrc & Hm). exists p. split; [|done].
    apply Hnew; [done|done|]. rewrite Hm. by right. }
  assert (forall bal ltp vs, promised S' me bal ltp vs -> promised S me bal ltp vs) as HP.
  { intros bal ltp vs (p & Hp & Hsrc & Hm). exists p. split; [|done].
    apply Hnew; [done|done|]. rewrite Hm. by left. }
  split.
  - intros bal opn v H%HA. rewrite Hb. by eapply I1.
  - intros bal ltp vs H%HP. rewrite Hb. by eapply I2.
  - intros bal opn v H%HA. destruct (I3 _ _ _ H) as [?|(w & Hw & ?)]; [left; lia|].
    destruct (decide (opn >= acc_log_truncation_point a_)); [|left; lia].
    right. exists w. by rewrite Hkeep.
  - intros opn w H%Hsub. destruct (I4 _ _ H). rewrite Hb.
    split; [done|]. by eapply proposed_mono.
  - intros bal opn v H%HA. eapply proposed_mono; [done|by eapply I5].
  - intros bal ltp vs opn w H%HP Hw. destruct (I6 _ _ _ _ _ H Hw).
    split; [done|by eapply proposed_mono].
  - intros bal ltp vs bal' opn v H%HP H'%HA. by eapply I7.
Qed.

(** Promising a ballot reports the log as it is. *)
Lemma acceptor_inv_1a a a_ S S' p bal sent :
  acceptor_inv ids me a S -> msg p = RslMessage1a bal -> LAcceptorProcess1a a a_ p sent ->
  (forall q, q ∈ S' <-> q ∈ S \/ q ∈ sent) ->
  acceptor_inv ids me a_ S'.
Proof.
  intros I Hmsg Hstep Hs. unfold LAcceptorProcess1a in Hstep. rewrite Hmsg in Hstep. simpl in Hstep.
  case_decide as Hg; destruct Hstep as [E1 E2]; subst a_ sent.
  2: { apply (acceptor_inv_quiet a _ S); [done|apply acceptor_quiet_refl|set_solver|set_solver]. }
  destruct Hg as (_ & Hlt & _). destruct I as [I1 I2 I3 I4 I5 I6 I7].
  assert (S ⊆ S') as Hsub by (intros q Hq; apply Hs; by left).
  assert (forall b opn v, accepted S' me b opn v -> accepted S me b opn v) as HA.
  { intros b opn v H. eapply accepted_step in H as [?|(q & Hq & Hm)]; [done| |intros q; apply Hs].
    apply list_elem_of_singleton in Hq. by subst. }
  assert (forall b ltp vs, promised S' me b ltp vs -> promised S me b ltp vs
            \/ (b = bal /\ ltp = acc_log_truncation_point a /\ vs = acc_votes a)) as HP.
  { intros b ltp vs H. eapply promised_step in H as [?|(q & Hq & Hm)];
      [by left| |intros q; apply Hs].
    apply list_elem_of_singleton in Hq. subst. simpl in Hm. simplify_eq. by right. }
  split; simpl.
  - intros b opn v H%HA%I1. eapply BalLeq_trans; [done|by apply BalLt_BalLeq].
  - intros b ltp vs [H%I2|(-> & _)]%HP; [|apply BalLeq_refl].
    eapply BalLeq_trans; [done|by apply BalLt_BalLeq].
  - intros b opn v H%HA. by eapply I3.
  - intros opn w H. destruct (I4 _ _ H). split; [|by eapply proposed_mono].
    eapply BalLeq_trans; [done|by apply BalLt_BalLeq].
  - intros b opn v H%HA. eapply proposed_mono; [done|by eapply I5].
  - intros b ltp vs opn w [H|(-> & -> & ->)]%HP Hw.
    + destruct (I6 _ _ _ _ _ H Hw). split; [done|by eapply proposed_mono].
    + destruct (I4 _ _ Hw). split; [by eapply BalLeq_Lt_trans|by eapply proposed_mono].
  - intros b ltp vs b' opn v [H|(-> & -> & ->)]%HP H'%HA Hb; [by eapply I7|by eapply I3].
Qed.

(** Accepting a proposal at a ballot no lower than the promise. *)
Lemma acceptor_inv_2a a a_ S S' p bal opn v sent :
  acceptor_inv ids me a S -> msg p = RslMessage2a bal opn v -> p ∈ S -> src p ∈ ids ->
  BalLeq (acc_max_bal a) bal -> LAcceptorProcess2a a a_ p sent ->
  (forall q, q ∈ S' <-> q ∈ S \/ q ∈ sent) ->
  acceptor_inv ids me a_ S'.
Proof.
  intros [I1 I2 I3 I4 I5 I6 I7] Hmsg Hp Hsrc Hleq Hstep Hs.
  destruct (LAcceptorProcess2a_log _ _ _ _ _ _ _ Hstep Hmsg) as (Hb & Hltp & Hnewv & Hkeep).
  destruct Hstep as [Hbc _]. rewrite Hmsg in Hbc. simpl in Hbc.
  assert (S ⊆ S') as Hsub by (intros q Hq; apply Hs; by left).
  assert (proposed ids S' bal opn v) as Hprop by (exists p; split; [by apply Hsub|done]).
  assert (forall b o w, accepted S' me b o w -> accepted S me b o w
            \/ (b = bal /\ o = opn /\ w = v)) as HA.
  { intros b o w H. eapply accepted_step in H as [?|(q & Hq & Hm)];
      [by left| |intros q; apply Hs].
    destruct (LBroadcastToEveryone_elem _ _ _ _ _ Hbc Hq) as (_ & _ & _ & E).
    rewrite E in Hm. simplify_eq. by right. }
  assert (forall b ltp vs, promised S' me b ltp vs -> promised S me b ltp vs) as HP.
  { intros b ltp vs H. eapply promised_step in H as [?|(q & Hq & Hm)]; [done| |intros q; apply Hs].
    destruct (LBroadcastToEveryone_elem _ _ _ _ _ Hbc Hq) as (_ & _ & _ & E). by rewrite E in Hm. }
  split.
  - intros b o w [H%I1|(-> & _)]%HA; rewrite Hb; [by eapply BalLeq_trans|apply BalLeq_refl].
  - intros b ltp vs H%HP%I2. rewrite Hb. by eapply BalLeq_trans.
  - intros b o w H%HA. destruct (decide (o >= acc_log_truncation_point a_)) as [Hge|]; [|left; lia].
    right. rewrite Hkeep by done. case_decide as Ho.
    + eexists. split; [done|]. simpl.
      destruct H as [H%I1|(-> & _)]; [by eapply BalLeq_trans|apply BalLeq_refl].
    + destruct H as [H|(_ & ? & _)]; [|done].
      destruct (I3 _ _ _ H) as [?|?]; [lia|done].
  - intros o w [Hw|[-> ->]]%Hnewv.
    + destruct (I4 _ _ Hw). rewrite Hb. split; [by eapply BalLeq_trans|by eapply proposed_mono].
    + rewrite Hb. split; [apply BalLeq_refl|done].
  - intros b o w [H|(-> & -> & ->)]%HA; [|done]. eapply proposed_mono; [done|by eapply I5].
  - intros b ltp vs o w H%HP Hw. destruct (I6 _ _ _ _ _ H Hw).
    split; [done|by eapply proposed_mono].
  - intros b ltp vs b' o w H%HP [H'|(-> & _)]%HA Hlt; [by eapply I7|].
    exfalso. apply I2 in H. apply (BalLt_irrefl bal).
    eapply BalLt_Leq_trans; [done|]. by eapply BalLeq_trans.
Qed.
End acceptor_invariant.

(** Every reachable acceptor satisfies its invariant. *)
Lemma reachable_acceptor_inv con ps idx s :
  reachable con ps -> seq_get (replicas ps) idx = Some s ->
  acceptor_inv (rsl_ids con) (seq_index (rsl_ids con) idx) (acceptor (replica s)) (sent_of ps).
Proof.
  apply (replica_invariant con (fun idx r S =>
    acceptor_inv (rsl_ids con) (seq_index (rsl_ids con) idx) (acceptor r) S)).
  - intros i r _ (_ & _ & _ & Ha & _). by eapply acceptor_inv_init.
  - intros ps1 ps2 i r r_ recv sent _ _ _ Hget (_ & _ & Hc & _) Hstep Hrecv Hsent Hsrc I.
    specialize (I i r Hget).
    destruct (LReplicaStep_acceptor _ _ _ _ Hstep)
      as [Hq Hno|p bal -> Hm H|p bal opn v -> Hm Hin Hleq H].
    + eapply acceptor_inv_quiet; [done|done|intros p Hp; apply Hsent; by left|].
      intros p [?|Hp]%Hsent _ Hk; [done|]. destruct (Hno p Hp). tauto.
    + by eapply acceptor_inv_1a.
    + rewrite Hc in Hin. eapply acceptor_inv_2a; try done. by apply Hrecv.
  - intros i r S S' Hsub Hnew I. eapply acceptor_inv_quiet; [done|apply acceptor_quiet_refl|done|].
    intros p Hp Hme _. by apply Hnew.
Qed.

(** ** Proposers *)

(** Host [h] proposed [v] at ballot [bal] for [opn]. *)
Definition proposed_by (S : gset RslPacket) (h : AbstractEndPoint) (bal : Ballot)
    (opn : OperationNumber) (v : RequestBatch) : Prop :=
  exists p, p ∈ S /\ src p = h /\ msg p = RslMessage2a bal opn v.

(** A quorum of 1bs for [bal], none truncated past [opn], allows [v]. *)
Definition safe_proposal (ids : list AbstractEndPoint) (S : gset RslPacket) (bal : Ballot)
    (opn : OperationNumber) (v : RequestBatch) : Prop :=
  exists Q : gset RslPacket,
    Q ⊆ S /\ Z.of_nat (size Q) >= seq_len ids / 2 + 1
    /\ (forall p, p ∈ Q -> src p ∈ ids)
    /\ (forall p p', p ∈ Q -> p' ∈ Q -> src p = src p' -> p = p')
    /\ LSetOfMessage1bAboutBallot Q bal /\ LIsAfterLogTruncationPoint opn Q
    /\ justified Q opn v.

Record proposer_inv (ids : list AbstractEndPoint) (me : AbstractEndPoint) (idx : Z)
    (q : LProposer) (S : gset RslPacket) : Prop := MkProposerInv
  { pi_ballot : bal_proposer_id (max_ballot_i_sent_1a q) = idx;
    (* the 2as sent are for this replica's ballots, and for operations it has
       already passed at the current one *)
    pi_proposed bal opn v :
      proposed_by S me bal opn v ->
      bal_proposer_id bal = idx
      /\ (BalLt bal (max_ballot_i_sent_1a q)
          \/ (bal = max_ballot_i_sent_1a q /\ current_state q <> 1
              /\ opn < next_operation_number_to_propose q));
    (* the 1bs collected were sent, by different replicas *)
    pi_received p : p ∈ received_1b_packets q -> p ∈ S /\ src p ∈ ids;
    pi_distinct p p' :
      p ∈ received_1b_packets q -> p' ∈ received_1b_packets q -> src p = src p' -> p = p';
    pi_unique bal opn v v' :
      proposed_by S me bal opn v -> proposed_by S me bal opn v' -> v = v';
    pi_safe bal opn v : proposed_by S me bal opn v -> safe_proposal ids S bal opn v }.

Section proposer_invariant.
Context (ids : list AbstractEndPoint) (me : AbstractEndPoint) (idx : Z).
Implicit Types (q : LProposer) (S : gset RslPacket) (sent : list RslPacket).

Lemma safe_proposal_mono S S' bal opn v :
  S ⊆ S' -> safe_proposal ids S bal opn v -> safe_proposal ids S' bal opn v.
Proof. intros Hs (Q & ? & ?). exists Q. split; [set_solver|done]. Qed.

Lemma proposer_inv_init q : LProposerInit q (MkLReplicaConstants idx (all (pr_constants q))) ->
  proposer_inv ids me idx q ∅.
Proof.
  intros (_ & _ & _ & Hb & _ & Hr & _).
  assert (forall bal opn v, ~ proposed_by ∅ me bal opn v) as H1.
  { intros ??? (? & ? & _). set_solver. }
  split; rewrite ?Hb, ?Hr; try done; try naive_solver; set_solver.
Qed.

(** No new 2a, and the proposer moves on or stands still. *)
Lemma proposer_inv_no_2a q q_ S S' :
  proposer_inv ids me idx q S -> S ⊆ S' ->
  (forall p, p ∈ S' -> src p = me -> msg_class (msg p) = K2a -> p ∈ S) ->
  bal_proposer_id (max_ballot_i_sent_1a q_) = idx ->
  (BalLt (max_ballot_i_sent_1a q) (max_ballot_i_sent_1a q_)
   \/ (max_ballot_i_sent_1a q_ = max_ballot_i_sent_1a q
       /\ (current_state q = 1
           \/ (current_state q_ <> 1
               /\ next_operation_number_to_propose q_ = next_operation_number_to_propose q)))) ->
  (forall p, p ∈ received_1b_packets q_ -> p ∈ S' /\ src p ∈ ids) ->
  (forall p p', p ∈ received_1b_packets q_ -> p' ∈ received_1b_packets q_ ->
     src p = src p' -> p = p') ->
  proposer_inv ids me idx q_ S'.
Proof.
  intros [I1 I2 I3 I4 I5 I6] Hs Hnew Hpid Hbal H3 H4.
  assert (forall bal opn v, proposed_by S' me bal opn v -> proposed_by S me bal opn v) as HP.
  { intros bal opn v (p & Hp & Hsrc & Hm). exists p. split; [|done].
    apply Hnew; [done|done|]. by rewrite Hm. }
  split; try done.
  - intros bal opn v [Hi Hor]%HP%I2. split; [done|].
    destruct Hbal as [Hlt|[-> Hst]].
    + left. destruct Hor as [?|(-> & _)]; [by eapply BalLt_trans|done].
    + destruct Hor as [?|(-> & Hne & Hop)]; [by left|]. destruct Hst as [?|[? ->]]; [done|].
      right. by split_and!.
  - intros bal opn v v' H%HP H'%HP. by eapply I5.
  - intros bal opn v H%HP. eapply safe_proposal_mono; [done|by apply I6].
Qed.

(** The same proposer, or one demoted, sees more packets. *)
Lemma proposer_inv_quiet q q_ S S' :
  proposer_inv ids me idx q S -> proposer_quiet q q_ -> S ⊆ S' ->
  (forall p, p ∈ S' -> src p = me -> msg_class (msg p) = K2a -> p ∈ S) ->
  proposer_inv ids me idx q_ S'.
Proof.
  intros I (Hb & Hn & Hr & Hst) Hs Hnew. pose proof I as [I1 I2 I3 I4 I5 I6].
  eapply proposer_inv_no_2a; [done|done|done|by rewrite Hb| | |]; rewrite ?Hr, ?Hn; [|set_solver..].
  right. split; [done|]. destruct (decide (current_state q = 1)) as [|Hne]; [by left|right].
  split; [|done]. destruct Hst as [->| ->]; [done|lia].
Qed.

(** A nomination: one new 2a, justified by the 1bs collected. *)
Lemma proposer_inv_nominate q q_ S S' v sent c :
  let opn := next_operation_number_to_propose q in
  proposer_inv ids me idx q S -> current_state q = 2 ->
  Z.of_nat (size (received_1b_packets q)) >= seq_len ids / 2 + 1 ->
  LSetOfMessage1bAboutBallot (received_1b_packets q) (max_ballot_i_sent_1a q) ->
  LIsAfterLogTruncationPoint opn (received_1b_packets q) ->
  justified (received_1b_packets q) opn v ->
  current_state q_ = 2 -> max_ballot_i_sent_1a q_ = max_ballot_i_sent_1a q ->
  received_1b_packets q_ = received_1b_packets q ->
  next_operation_number_to_propose q_ = opn + 1 ->
  LBroadcastToEveryone c idx (RslMessage2a (max_ballot_i_sent_1a q) opn v) sent ->
  (forall p, p ∈ S' <-> p ∈ S \/ p ∈ sent) ->
  proposer_inv ids me idx q_ S'.
Proof.
  intros opn [I1 I2 I3 I4 I5 I6] Hst Hsz Hset Hafter Hjust Hst' Hb Hr Hn Hbc Hs.
  assert (S ⊆ S') as Hsub by (intros p Hp; apply Hs; by left).
  assert (forall b o w, proposed_by S' me b o w ->
    proposed_by S me b o w \/ (b = max_ballot_i_sent_1a q /\ o = opn /\ w = v)) as HP.
  { intros b o w (p & [Hp|Hp]%Hs & Hsrc & Hm); [left; by exists p|right].
    destruct (LBroadcastToEveryone_elem _ _ _ _ _ Hbc Hp) as (_ & _ & _ & E).
    rewrite E in Hm. by simplify_eq. }
  assert (forall w, ~ proposed_by S me (max_ballot_i_sent_1a q) opn w) as Hfresh.
  { intros w [_ [Hlt|(_ & _ & ?)]]%I2; [by apply BalLt_irrefl in Hlt|unfold opn in *; lia]. }
  split; rewrite ?Hb, ?Hr, ?Hn, ?Hst'; try done.
  - intros b o w [H|(-> & -> & _)]%HP.
    + destruct (I2 _ _ _ H) as [? [?|(? & ? & ?)]]; (split; [done|]); [by left|right].
      unfold opn. split_and!; [done|done|lia].
    + split; [done|]. right. split_and!; [done|done|lia].
  - intros p Hp. destruct (I3 p Hp). split; [by apply Hsub|done].
  - intros b o w w' [H|(-> & -> & ->)]%HP [H'|(E1 & E2 & ->)]%HP; subst; try done.
    + by eapply I5.
    + by apply Hfresh in H.
    + by apply Hfresh in H'.
  - intros b o w [H|(-> & -> & ->)]%HP; [eapply safe_proposal_mono; [done|by apply I6]|].
    exists (received_1b_packets q). split_and!; try done.
    + intros p Hp. apply Hsub. by apply I3.
    + intros p Hp. by apply I3.
Qed.
End proposer_invariant.

Lemma reachable_proposer_inv con ps idx s :
  reachable con ps -> seq_get (replicas ps) idx = Some s ->
  proposer_inv (rsl_ids con) (seq_index (rsl_ids con) idx) idx (proposer (replica s)) (sent_of ps).
Proof.
  apply (replica_invariant con (fun idx r S =>
    proposer_inv (rsl_ids con) (seq_index (rsl_ids con) idx) idx (proposer r) S)).
  - intros i r _ (_ & _ & Hp & _). apply proposer_inv_init. pose proof Hp as [-> _]. done.
  - intros ps1 ps2 i r r_ recv sent _ _ _ Hget (_ & Hc & _) Hstep Hrecv Hsent Hsrc I.
    specialize (I i r Hget).
    assert (sent_of ps1 ⊆ sent_of ps2) as Hsub by (intros p Hp; apply Hsent; by left).
    assert ((forall p, p ∈ sent -> msg_class (msg p) <> K2a) -> forall p, p ∈ sent_of ps2 ->
      src p = seq_index (rsl_ids con) i -> msg_class (msg p) = K2a -> p ∈ sent_of ps1) as Hno2a.
    { intros Hno p [?|Hp]%Hsent _ Hk; [done|]. by apply Hno in Hp. }
    pose proof I as [I1 I2 I3 I4 I5 I6].
    destruct (LReplicaStep_proposer _ _ _ _ Hstep)
      as [Hq Hno|Hlt Hpid Hst Hr Hno|p Hrv Hk Hin Hbal Hst Hdist Hrel Hnil|Hst Hst' Hb Hr Hno
         |v opn Hst Hsz Hset Hafter Hpos Hjust Hst' Hb Hr Hn Hbc]; rewrite ?Hc in *.
    + eapply proposer_inv_quiet; try done. by apply Hno2a.
    + eapply proposer_inv_no_2a; try done; [by apply Hno2a|by left|set_solver..].
    + eapply proposer_inv_no_2a; [done|done|apply Hno2a|..]; rewrite ?Hrel; simpl; try done.
      * intros q Hq. subst sent. by apply not_elem_of_nil in Hq.
      * right. split; [done|by left].
      * intros q [Hq|Hq%elem_of_singleton]%elem_of_union.
        -- destruct (I3 q Hq). split; [by apply Hsub|done].
        -- subst q. split; [by apply Hsub, Hrecv|done].
      * intros q q' [Hq|Hq%elem_of_singleton]%elem_of_union
          [Hq'|Hq'%elem_of_singleton]%elem_of_union He; subst; try done.
        -- by apply I4.
        -- by apply Hdist in Hq.
        -- symmetry in He. by apply Hdist in Hq'.
    + eapply proposer_inv_no_2a; [done|done|by apply Hno2a|by rewrite Hb| | |]; rewrite ?Hr;
        [|set_solver..]. right. split; [done|by left].
    + by eapply proposer_inv_nominate.
  - intros i r S S' Hsub Hnew I. eapply proposer_inv_quiet; [done|apply proposer_quiet_refl|done|].
    intros p Hp Hme _. by apply Hnew.
Qed.

(** ** One value per operation *)

Section agreement.
Context (con : LConstants) (ps : RslState) (Hreach : reachable con ps).
Local Abbreviation ids := (rsl_ids con).
Local Abbreviation S := (sent_of ps).

Lemma replica_of_host h :
  h ∈ ids -> exists idx s, h = seq_index ids idx /\ 0 <= idx < seq_len ids
               /\ seq_get (replicas ps) idx = Some s.
Proof.
  intros [idx Hidx]%elem_of_seq_get. pose proof (seq_get_Some_range _ _ _ Hidx) as Hr.
  destruct (reachable_constants con ps Hreach) as (_ & _ & Hlen).
  destruct (seq_get_range_Some (replicas ps) idx) as [s Hs]; [lia|].
  exists idx, s. split_and!; [|lia|lia|done].
  rewrite seq_get_index in Hidx by done. by simplify_eq.
Qed.

Lemma host_acceptor_inv h :
  h ∈ ids -> exists a, acceptor_inv ids h a S.
Proof.
  intros (idx & s & -> & _ & Hs)%replica_of_host. eexists. by eapply reachable_acceptor_inv.
Qed.

(** The ballot of a proposal names its proposer. *)
Lemma proposed_inv bal opn v :
  proposed ids S bal opn v ->
  exists idx q, 0 <= idx < seq_len ids /\ bal_proposer_id bal = idx
    /\ proposer_inv ids (seq_index ids idx) idx q S
    /\ proposed_by S (seq_index ids idx) bal opn v.
Proof.
  intros (p & Hp & Hsrc & Hm).
  destruct (replica_of_host _ Hsrc) as (idx & s & He & Hidx & Hs).
  pose proof (reachable_proposer_inv con ps idx s Hreach Hs) as I.
  assert (proposed_by S (seq_index ids idx) bal opn v) as H by by exists p.
  exists idx, (proposer (replica s)). split_and!; [lia|lia| |done|done].
  by apply (pi_proposed _ _ _ _ _ I) in H as [? _].
Qed.

Lemma proposed_unique bal opn v v' :
  proposed ids S bal opn v -> proposed ids S bal opn v' -> v = v'.
Proof.
  intros (i & q & _ & Hi & I & H)%proposed_inv (i' & q' & _ & Hi' & _ & H')%proposed_inv.
  assert (i = i') as <- by congruence. by eapply (pi_unique _ _ _ _ _ I).
Qed.

Lemma proposed_safe bal opn v : proposed ids S bal opn v -> safe_proposal ids S bal opn v.
Proof. intros (i & q & _ & _ & I & H)%proposed_inv. by apply (pi_safe _ _ _ _ _ I) in H. Qed.

Lemma accepted_proposed h bal opn v :
  h ∈ ids -> accepted S h bal opn v -> proposed ids S bal opn v.
Proof. intros [a I]%host_acceptor_inv. apply (ai_accepted_proposed _ _ _ _ I). Qed.

Lemma chosen_proposed bal opn v : chosen ids S bal opn v -> proposed ids S bal opn v.
Proof.
  intros (Q & Hsz & HQ). destruct (decide (Q = ∅)) as [->|[h Hh]%set_choose_L].
  - exfalso. rewrite size_empty in Hsz. pose proof (seq_len_nonneg ids).
    Z.to_euclidean_division_equations. lia.
  - destruct (HQ h Hh). by eapply accepted_proposed.
Qed.

(** The 1b quorum of a later proposal contains a replica that accepted the
    chosen value, whose vote is reported. *)
Lemma chosen_reported bal opn v bal' Q :
  chosen ids S bal opn v -> BalLt bal bal' ->
  Q ⊆ S -> Z.of_nat (size Q) >= seq_len ids / 2 + 1 -> (forall p, p ∈ Q -> src p ∈ ids) ->
  (forall p p', p ∈ Q -> p' ∈ Q -> src p = src p' -> p = p') ->
  LSetOfMessage1bAboutBallot Q bal' -> LIsAfterLogTruncationPoint opn Q ->
  exists p w, p ∈ Q /\ msg_votes (msg p) !! opn = Some w /\ BalLeq bal (max_value_bal w).
Proof.
  intros (Qa & Hsa & HQa) Hlt Hsub Hsz Hsrc Hdist [H1b Hbal] Hafter.
  destruct (quorums_share ids Qa (set_map src Q)) as (h & Ha & (p & -> & Hp)%elem_of_map).
  - done.
  - rewrite size_set_map_inj_on; [done|]. intros p p' ? ?. by apply Hdist.
  - intros h Hh. by apply HQa.
  - intros h (p & -> & Hp)%elem_of_map. by apply Hsrc.
  - destruct (HQa _ Ha) as [Hin Hacc]. destruct (host_acceptor_inv _ Hin) as [a I].
    specialize (H1b p Hp). specialize (Hbal p Hp). specialize (Hafter p Hp H1b).
    cbv beta in H1b, Hbal, Hafter.
    destruct (msg p) as [| | |b ltp votes| | | | | | |] eqn:Hm; try done. simpl in *. subst b.
    assert (promised S (src p) bal' ltp votes) as Hprom by (exists p; split; [by apply Hsub|done]).
    destruct (ai_promise_reports _ _ _ _ I _ _ _ _ _ _ Hprom Hacc Hlt) as [?|(w & Hw & Hb)]; [lia|].
    exists p, w. by rewrite Hm.
Qed.

(** The rank of a ballot above [b0]. *)
Definition ballot_rank (b0 b : Ballot) : nat :=
  Z.to_nat ((bal_seqno b - bal_seqno b0) * seq_len ids + bal_proposer_id b).

Lemma ballot_rank_lt b0 b b' :
  0 <= bal_proposer_id b < seq_len ids -> 0 <= bal_proposer_id b' < seq_len ids ->
  BalLeq b0 b -> BalLt b b' -> (ballot_rank b0 b < ballot_rank b0 b')%nat.
Proof.
  unfold ballot_rank, BalLeq, BalLt. intros ? ? H0 H1. apply Z2Nat.inj_lt; nia.
Qed.

Lemma proposed_proposer_id bal opn v :
  proposed ids S bal opn v -> 0 <= bal_proposer_id bal < seq_len ids.
Proof. by intros (i & q & ? & -> & _)%proposed_inv. Qed.

(** Once a value is chosen, every proposal at that ballot or above is for it. *)
Lemma chosen_proposed_later bal opn v bal' v' :
  chosen ids S bal opn v -> proposed ids S bal' opn v' -> BalLeq bal bal' -> v' = v.
Proof.
  intros Hch. remember (ballot_rank bal bal') as n eqn:Hn. revert bal' v' Hn.
  induction n as [n IH] using lt_wf_ind. intros bal' v' -> Hprop Hle.
  pose proof (chosen_proposed _ _ _ Hch) as Hp0.
  apply BalLeq_iff in Hle as [Hlt|<-]; [|by eapply proposed_unique].
  destruct (proposed_safe _ _ _ Hprop) as (Q & Hsub & Hsz & Hsrc & Hdist & Hset & Hafter & Hjust).
  destruct (chosen_reported _ _ _ _ _ Hch Hlt Hsub Hsz Hsrc Hdist Hset Hafter)
    as (p & w & Hp & Hw & Hb).
  destruct Hjust as [Hnone|(c & Hmax & (p' & Hp' & Hw'))].
  { specialize (Hnone p Hp). simpl in Hnone. congruence. }
  destruct Hset as [H1b Hbal]. pose proof (H1b p' Hp') as H1. pose proof (Hbal p' Hp') as H2.
  cbv beta in H1, H2.
  destruct (host_acceptor_inv (src p')) as [a I]; [by apply Hsrc|].
  destruct (msg p') as [| | |b ltp votes| | | | | | |] eqn:Hm; try done. simpl in *. subst b.
  assert (promised S (src p') bal' ltp votes) as Hprom by (exists p'; split; [by apply Hsub|done]).
  destruct (ai_promise_votes _ _ _ _ I _ _ _ _ _ Hprom Hw') as [Hc Hcp]. simpl in *.
  assert (BalLeq bal c) as Hbc by (eapply BalLeq_trans; [done|by eapply Hmax]).
  eapply (IH (ballot_rank bal c)); [|done|done|done].
  apply ballot_rank_lt; [by eapply proposed_proposer_id..|done|done].
Qed.

Lemma chosen_same bal opn v bal' v' :
  chosen ids S bal opn v -> chosen ids S bal' opn v' -> v = v'.
Proof.
  intros H H'. destruct (decide (BalLeq bal bal')) as [Hle|Hlt%not_BalLeq].
  - symmetry. eapply chosen_proposed_later; [done|by apply chosen_proposed|done].
  - eapply chosen_proposed_later; [done|by apply chosen_proposed|by apply BalLt_BalLeq].
Qed.
End agreement.
