(* ===== verification/ReplicatedLog.v ===== *)
(** * The replicated log

    What the replicas execute (learner.rs, executor.rs, state_machine.rs):
    every replica's application state is a run of one log of chosen batches,
    and every reply sent to a client is the application's answer at that
    client's request in the log.  A state received by AppStateSupply and an
    answer from the reply cache are covered like an execution. *)

From stdpp Require Import prelude gmap sets list numbers fin_sets.
From Stdlib Require Import ZArith Lia.
From S2P Require Import Prelude.
From S2P Require Import Types.
From S2P Require Import Common.
From S2P Require Import Learner.
From S2P Require Import Executor.
From S2P Require Import Environment.
From S2P Require Import Replica.
From S2P Require Import ReplicaSteps.
From S2P Require Import DistributedSystem.
From S2P Require Import Agreement.

#[local] Open Scope Z_scope.

(** ** Running a log *)

Section log.
Implicit Types (bs : list RequestBatch) (r : Reply).

(** The reference meaning of a log: its requests applied one by one. *)
Definition run_log bs : AppState := run_batch AppInitialize (concat bs).

(** [r] is the answer to a request of the log, in the state its
    predecessors leave. *)
Definition answers bs r : Prop :=
  exists m q, concat bs !! m = Some q
    /\ rep_client r = req_client q /\ rep_seqno r = req_seqno q
    /\ rep_reply r
       = (AppHandleRequest (run_batch AppInitialize (take m (concat bs))) (req_request q)).2.

Lemma run_batch_app s b b' : run_batch s (b ++ b') = run_batch (run_batch s b) b'.
Proof. apply foldl_app. Qed.

Lemma run_log_snoc bs b : run_log (bs ++ [b]) = run_batch (run_log bs) b.
Proof. unfold run_log. rewrite concat_app, run_batch_app. simpl. by rewrite app_nil_r. Qed.

Lemma answers_app bs bs' r : answers bs r -> answers (bs ++ bs') r.
Proof.
  intros (m & q & Hm & H1 & H2 & H3). exists m, q. rewrite concat_app.
  pose proof (lookup_lt_Some _ _ _ Hm).
  rewrite lookup_app_l by done. by rewrite take_app_le by lia.
Qed.

(** A batch's replies answer its requests when it is executed next. *)
Lemma answers_execute bs b r :
  r ∈ (HandleRequestBatch (run_log bs) b).2 -> answers (bs ++ [b]) r.
Proof.
  intros [i Hi]%list_elem_of_lookup.
  pose proof (HandleRequestBatch_props (run_log bs) b) as Hp.
  pose proof (HandleRequestBatch_states (run_log bs) b i) as Hst.
  destruct (HandleRequestBatch (run_log bs) b) as [ss rs]. destruct Hp as (_ & Hl & _ & Hans).
  simpl in *. pose proof (lookup_lt_Some _ _ _ Hi) as Hlt. rewrite Hl in Hlt.
  destruct (lookup_lt_is_Some_2 b i Hlt) as [q Hq].
  destruct (Hans i q r Hq Hi) as (s0 & s1 & Hs0 & _ & Happ & Hc & Hn).
  exists (length (concat bs) + i)%nat, q. rewrite concat_app. simpl. rewrite app_nil_r.
  rewrite lookup_app_r by lia. replace (length (concat bs) + i - length (concat bs))%nat with i by lia.
  split_and!; [done|done|done|].
  rewrite Hst in Hs0 by lia. injection Hs0 as Hs0.
  rewrite take_app_ge by lia. replace (length (concat bs) + i - length (concat bs))%nat with i by lia.
  rewrite run_batch_app. fold (run_log bs). rewrite Hs0, Happ. done.
Qed.
End log.

(** ** Learned and executed values *)

Section snapshots.
Context (ids : list AbstractEndPoint).
Implicit Types (S : gset RslPacket) (bs : list RequestBatch).

(** Every batch of the log is chosen at its position. *)
Definition decided S bs : Prop :=
  forall k b, bs !! k = Some b -> exists bal, chosen ids S bal (Z.of_nat k) b.

Definition cache_answers bs (cache : ReplyCache) : Prop :=
  forall client r, cache !! client = Some r -> rep_client r = client /\ answers bs r.

(** The state and reply cache after [n] operations. *)
Definition snapshot S (n : Z) (st : AppState) (cache : ReplyCache) : Prop :=
  exists bs, Z.of_nat (length bs) = n /\ decided S bs /\ st = run_log bs /\ cache_answers bs cache.

Lemma decided_mono S S' bs : S ⊆ S' -> decided S bs -> decided S' bs.
Proof. intros Hs H k b Hk. destruct (H k b Hk) as [bal ?]. exists bal. by eapply chosen_mono. Qed.

Lemma snapshot_mono S S' n st cache : S ⊆ S' -> snapshot S n st cache -> snapshot S' n st cache.
Proof. intros Hs (bs & ? & ? & ?). exists bs. split; [done|]. split; [by eapply decided_mono|done]. Qed.

Lemma decided_snoc S bs bal b :
  decided S bs -> chosen ids S bal (Z.of_nat (length bs)) b -> decided S (bs ++ [b]).
Proof.
  intros H Hb k b' Hk. destruct (decide (k < length bs)%nat) as [Hlt|Hge].
  - rewrite lookup_app_l in Hk by done. by apply H.
  - rewrite lookup_app_r in Hk by lia. apply list_lookup_singleton_Some in Hk as [Hz <-].
    exists bal. by replace k with (length bs) by lia.
Qed.
End snapshots.

Record learner_inv (ids : list AbstractEndPoint) (l : LLearner) (S : gset RslPacket) : Prop :=
  MkLearnerInv
  { li_senders opn t h :
      unexecuted_learner_state l !! opn = Some t -> h ∈ received_2b_message_senders t ->
      h ∈ ids /\ accepted S h (max_ballot_seen l) opn (candidate_learned_value t);
    li_nonempty opn t :
      unexecuted_learner_state l !! opn = Some t -> exists h, h ∈ received_2b_message_senders t }.

Record executor_inv (ids : list AbstractEndPoint) (me : AbstractEndPoint) (e : LExecutor)
    (S : gset RslPacket) : Prop := MkExecutorInv
  { xi_snapshot : snapshot ids S (ops_complete e) (app e) (reply_cache e);
    xi_next v bal :
      next_op_to_execute e = OutstandingOpKnown v bal -> chosen ids S bal (ops_complete e) v;
    xi_supply p bal opn st cache :
      p ∈ S -> src p = me -> msg p = RslMessageAppStateSupply bal opn st cache ->
      snapshot ids S opn st cache;
    xi_reply p seqno reply :
      p ∈ S -> src p = me -> msg p = RslMessageReply seqno reply ->
      exists bs, decided ids S bs /\ answers bs (MkReply (dst p) seqno reply) }.

Section learner_invariant.
Context (ids : list AbstractEndPoint).
Implicit Types (l : LLearner) (S : gset RslPacket).

Lemma learner_inv_quiet l l_ S S' :
  learner_inv ids l S -> learner_quiet l l_ -> S ⊆ S' -> learner_inv ids l_ S'.
Proof.
  intros [I1 I2] [Hb Hsub] Hs. split; intros opn t; [intros h|]; intros Ht%Hsub.
  - intros Hh. rewrite Hb. destruct (I1 _ _ _ Ht Hh). split; [done|by eapply accepted_mono].
  - by eapply I2.
Qed.

(** A 2b is counted for the value of its ballot; the values of one ballot
    agree. *)
Lemma learner_inv_2b l l_ S p bal opn v :
  (forall h h' b o w w', h ∈ ids -> h' ∈ ids -> accepted S h b o w -> accepted S h' b o w' -> w = w') ->
  ids_of (ll_constants l) = ids ->
  learner_inv ids l S -> p ∈ S -> msg p = RslMessage2b bal opn v -> LLearnerProcess2b l l_ p ->
  learner_inv ids l_ S.
Proof.
  intros Huniq Hids [I1 I2] Hp Hmsg Hstep. unfold LLearnerProcess2b in Hstep.
  rewrite Hmsg, Hids in Hstep. cbn [msg_opn_2b msg_bal_2b msg_val_2b] in Hstep.
  destruct (decide _) as [_|Hg]; [by subst|].
  assert (src p ∈ ids) as Hin by (destruct (decide (src p ∈ ids)); tauto).
  assert (accepted S (src p) bal opn v) as Hacc by by exists p.
  destruct (decide (BalLt (max_ballot_seen l) bal)) as [_|Hnlt].
  { subst l_. split; simpl; intros o t; [intros h|]; intros [<- <-]%lookup_singleton_Some; simpl.
    - intros ->%elem_of_singleton. done.
    - exists (src p). set_solver. }
  assert (max_ballot_seen l = bal) as Hbal.
  { destruct (BalLt_total (max_ballot_seen l) bal) as [?|[?|?]]; tauto. }
  destruct (unexecuted_learner_state l !! opn) as [t0|] eqn:Ht0.
  - destruct (decide _) as [_|Hnew]; [by subst|]. subst l_.
    split; simpl; intros o t; [intros h|];
      intros [[<- <-]|[? Ht]]%lookup_insert_Some; simpl.
    + intros [Hh|Hh%elem_of_singleton]%elem_of_union; [by eapply I1|]. subst h. split; [done|].
      destruct (I2 _ _ Ht0) as [h0 Hh0]. destruct (I1 _ _ _ Ht0 Hh0) as [Hin0 Hacc0].
      rewrite Hbal in *. by rewrite (Huniq _ _ _ _ _ _ Hin0 Hin Hacc0 Hacc).
    + intros Hh. by eapply I1.
    + exists (src p). set_solver.
    + by eapply I2.
  - subst l_. split; simpl; intros o t; [intros h|];
      intros [[<- <-]|[? Ht]]%lookup_insert_Some; simpl.
    + intros ->%elem_of_singleton. done.
    + intros Hh. rewrite <- Hbal. by eapply I1.
    + exists (src p). set_solver.
    + by eapply I2.
Qed.
End learner_invariant.

Lemma reachable_learner_inv con ps idx s :
  reachable con ps -> seq_get (replicas ps) idx = Some s ->
  learner_inv (rsl_ids con) (learner (replica s)) (sent_of ps).
Proof.
  apply (replica_invariant con (fun idx r S => learner_inv (rsl_ids con) (learner r) S)).
  - intros i r _ (_ & _ & _ & _ & (_ & _ & Hl) & _). split; intros opn t *; by rewrite Hl, lookup_empty.
  - intros ps1 ps2 i r r_ recv sent Hr _ _ Hget (_ & _ & _ & Hc & _) Hstep Hrecv Hsent _ I.
    specialize (I i r Hget).
    assert (sent_of ps1 ⊆ sent_of ps2) as Hsub by (intros p Hp; apply Hsent; by left).
    destruct (LReplicaStep_learner _ _ _ _ Hstep) as [Hq|p bal opn v -> Hm H];
      [by eapply learner_inv_quiet|].
    assert (learner_inv (rsl_ids con) (learner (replica r_)) (sent_of ps1)) as I'.
    { eapply learner_inv_2b; [|by rewrite Hc|done|by apply Hrecv|done|done].
      intros h h' b o w w' Hh Hh' Ha Ha'. apply (proposed_unique con ps1 Hr b o).
      - by apply (accepted_proposed con ps1 Hr h).
      - by apply (accepted_proposed con ps1 Hr h'). }
    eapply learner_inv_quiet; [done|apply learner_quiet_refl|done].
  - intros i r S S' Hsub _ I. eapply learner_inv_quiet; [done|apply learner_quiet_refl|done].
Qed.

(** A counted quorum of 2bs is a chosen value. *)
Lemma decision_chosen con ps idx s :
  reachable con ps -> seq_get (replicas ps) idx = Some s -> decision_ready (replica s) ->
  let opn := ops_complete (executor (replica s)) in
  chosen (rsl_ids con) (sent_of ps) (max_ballot_seen (learner (replica s))) opn
    (candidate_learned_value (unexecuted_learner_state (learner (replica s)) !!! opn)).
Proof.
  intros Hr Hget [_ Hready]. simpl.
  destruct (reachable_same_constants con ps idx s Hr Hget) as (_ & _ & _ & Hc & _).
  pose proof (reachable_learner_inv con ps idx s Hr Hget) as [I1 _].
  destruct (unexecuted_learner_state _ !! _) as [t|] eqn:Ht; [|done].
  rewrite lookup_total_alt, Ht. simpl. exists (received_2b_message_senders t).
  rewrite Hc in Hready. split; [exact Hready|]. intros h Hh. by eapply I1.
Qed.

Section executor_invariant.
Context (ids : list AbstractEndPoint) (me : AbstractEndPoint).
Implicit Types (e : LExecutor) (S : gset RslPacket) (sent : list RslPacket).

Lemma executor_inv_init e c : LExecutorInit e c -> executor_inv ids me e ∅.
Proof.
  intros (_ & Ha & Ho & _ & Hn & Hr). split; [|congruence|set_solver|set_solver].
  exists []. rewrite Ha, Ho, Hr. split_and!; [done| |done|].
  - intros k b Hk. by rewrite lookup_nil in Hk.
  - intros client r Hk. by rewrite lookup_empty in Hk.
Qed.

(** The same executor: packets that claim a state or a reply are accounted
    for. *)
Lemma executor_inv_sent e S S' :
  executor_inv ids me e S -> S ⊆ S' ->
  (forall p, p ∈ S' -> src p = me -> msg_class (msg p) = KStateSupply \/ msg_class (msg p) = KReply ->
     p ∈ S
     \/ (exists bal, msg p = RslMessageAppStateSupply bal (ops_complete e) (app e) (reply_cache e))
     \/ (exists client r, reply_cache e !! client = Some r /\ dst p = client
           /\ msg p = RslMessageReply (rep_seqno r) (rep_reply r))) ->
  executor_inv ids me e S'.
Proof.
  intros [I1 I2 I3 I4] Hs Hnew. pose proof I1 as (bs & Hlen & Hdec & Hst & Hcache). split.
  - by eapply snapshot_mono.
  - intros v bal H. eapply chosen_mono; [done|by apply I2].
  - intros p bal opn st cache Hp Hsrc Hm.
    destruct (Hnew p Hp Hsrc) as [Hin|[(b & E)|(c & r & _ & _ & E)]]; [rewrite Hm; by left|..].
    + eapply snapshot_mono; [done|by eapply I3].
    + rewrite Hm in E. simplify_eq. by eapply snapshot_mono.
    + by rewrite Hm in E.
  - intros p seqno reply Hp Hsrc Hm.
    destruct (Hnew p Hp Hsrc) as [Hin|[(b & E)|(c & r & Hr & Hd & E)]]; [rewrite Hm; by right|..].
    + destruct (I4 p seqno reply) as (bs' & ? & ?); [done..|].
      exists bs'. split; [by eapply decided_mono|done].
    + by rewrite Hm in E.
    + rewrite Hm in E. simplify_eq. exists bs. split; [by eapply decided_mono|].
      destruct (Hcache _ _ Hr) as [<- Hans]. by destruct r.
Qed.

(** The executor takes a new state that is itself a snapshot. *)
Lemma executor_inv_state e e_ S :
  executor_inv ids me e S -> snapshot ids S (ops_complete e_) (app e_) (reply_cache e_) ->
  (forall v bal, next_op_to_execute e_ = OutstandingOpKnown v bal ->
     chosen ids S bal (ops_complete e_) v) ->
  executor_inv ids me e_ S.
Proof. intros [I1 I2 I3 I4] H1 H2. by split. Qed.

(** Executing the decided batch. *)
Lemma executor_inv_execute e e_ S S' sent :
  executor_inv ids me e S -> op_known (next_op_to_execute e) = true ->
  LExecutorExecute e e_ sent -> (forall p, p ∈ S' <-> p ∈ S \/ p ∈ sent) ->
  executor_inv ids me e_ S'.
Proof.
  intros [(bs & Hlen & Hdec & Hst & Hcache) I2 I3 I4] Hknown
    (_ & Happ & Hops & _ & Hnext & Hnc & Hsent & _) Hs.
  assert (S ⊆ S') as Hsub by (intros p Hp; apply Hs; by left).
  destruct (next_op_to_execute e) as [b bal|]; [|done]. clear Hknown.
  specialize (I2 b bal eq_refl). rewrite execute_new_state in Happ. simpl in Happ, Hsent, Hnc.
  rewrite Hst in *. apply UpdateNewCache_unique in Hnc.
  assert (decided ids S (bs ++ [b])) as Hdec'.
  { eapply decided_snoc; [done|]. by rewrite Hlen. }
  pose proof (HandleRequestBatch_props (run_log bs) b) as Hp.
  pose proof (answers_execute bs b) as Hans.
  destruct (HandleRequestBatch (run_log bs) b) as [ss rs] eqn:Hb. simpl in *.
  destruct Hp as (_ & Hl & _ & Hpt). split.
  - exists (bs ++ [b]). rewrite length_app, Hops, Happ, run_log_snoc. cbn [length].
    split_and!; [lia|by eapply decided_mono|done|].
    intros client r. rewrite Hnc, lookup_union_Some_raw.
    intros [Hc|[_ [Hr <-]%LClientsInReplies_lookup]].
    + destruct (Hcache _ _ Hc). split; [done|by apply answers_app].
    + split; [done|by apply Hans].
  - by rewrite Hnext.
  - intros p bal' opn st cache [Hp|Hp]%Hs Hsrc Hm; [eapply snapshot_mono; [done|by eapply I3]|].
    rewrite Hsent in Hp. apply GetPacketsFromReplies_sent in Hp as [_ E]. by rewrite Hm in E.
  - intros p seqno reply [Hp|Hp]%Hs Hsrc Hm.
    + destruct (I4 p seqno reply) as (bs' & ? & ?); [done..|].
      exists bs'. split; [by eapply decided_mono|done].
    + exists (bs ++ [b]). split; [by eapply decided_mono|]. rewrite Hsent in Hp.
      apply list_elem_of_lookup in Hp as [i Hi]. rewrite GetPacketsFromReplies_lookup in Hi by done.
      apply bind_Some in Hi as (q & Hq & Hi). apply bind_Some in Hi as (r & Hr & [= <-]).
      destruct (Hpt i q r Hq Hr) as (_ & _ & _ & _ & _ & Hc & Hn). simpl in *. simplify_eq.
      rewrite <- Hc, <- Hn. specialize (Hans r). destruct r.
      apply Hans. by eapply list_elem_of_lookup_2.
Qed.
End executor_invariant.

Lemma reachable_executor_inv con ps idx s :
  reachable con ps -> seq_get (replicas ps) idx = Some s ->
  executor_inv (rsl_ids con) (seq_index (rsl_ids con) idx) (executor (replica s)) (sent_of ps).
Proof.
  apply (replica_invariant con (fun idx r S =>
    executor_inv (rsl_ids con) (seq_index (rsl_ids con) idx) (executor r) S)).
  - intros i r _ (_ & _ & _ & _ & _ & He). by eapply executor_inv_init.
  - intros ps1 ps2 i r r_ recv sent Hr _ _ Hget (_ & _ & _ & _ & Hc) Hstep Hrecv Hsent _ IH.
    pose proof (IH i r Hget) as I.
    assert (sent_of ps1 ⊆ sent_of ps2) as Hsub by (intros p Hp; apply Hsent; by left).
    assert (sent = [] -> forall e, executor_inv (rsl_ids con) (seq_index (rsl_ids con) i) e (sent_of ps1) ->
      executor_inv (rsl_ids con) (seq_index (rsl_ids con) i) e (sent_of ps2)) as Hnil.
    { intros -> e Ie. eapply executor_inv_sent; [done|done|].
      intros p [?|Hp]%Hsent _ _; [by left|]. by apply not_elem_of_nil in Hp. }
    destruct (LReplicaStep_executor _ _ _ _ Hstep)
      as [-> Hno|p -> -> Hcached H|p -> H|Hready Hdec ->|Hknown H|p bal opn st cache -> Hm Hin Hgt H ->].
    + eapply executor_inv_sent; [done|done|]. intros p [?|Hp]%Hsent _ Hk; [by left|].
      destruct (Hno p Hp). tauto.
    + eapply executor_inv_sent; [done|done|]. intros q [?|Hq]%Hsent _ Hk; [by left|right; right].
      destruct Hcached as (rep & Hrep & _). unfold LExecutorProcessRequest in H.
      rewrite lookup_total_alt, Hrep in H. cbn [default from_option id] in H.
      case_decide; subst sent; [|by apply not_elem_of_nil in Hq].
      apply list_elem_of_singleton in Hq. subst q.
      destruct (xi_snapshot _ _ _ _ I) as (bs & _ & _ & _ & Hca).
      destruct (Hca _ _ Hrep) as [Hcl _]. exists (src p), rep. by rewrite Hcl.
    + eapply executor_inv_sent; [done|done|]. intros q [?|Hq]%Hsent _ Hk; [by left|right; left].
      unfold LExecutorProcessAppStateRequest in H.
      case_decide; destruct H as [_ ->]; [|by apply not_elem_of_nil in Hq].
      apply list_elem_of_singleton in Hq. subst q. by eexists.
    + apply Hnil; [done|]. rewrite Hdec. eapply executor_inv_state; [done|apply I|].
      simpl. intros v bal [= <- <-]. by apply (decision_chosen con ps1 i r).
    + by eapply executor_inv_execute.
    + apply Hnil; [done|]. rewrite H, Hm. eapply executor_inv_state; [done| |done]. simpl.
      rewrite Hc in Hin. destruct (replica_of_host con ps1 Hr _ Hin) as (i' & s' & He & _ & Hs').
      eapply (xi_supply _ _ _ _ (IH i' s' Hs')); [by apply Hrecv|done|done].
  - intros i r S S' Hsub Hnew I. eapply executor_inv_sent; [done|done|].
    intros p Hp Hme _. left. by apply Hnew.
Qed.

(** ** One log for all *)

Section agreed_log.
Context (con : LConstants) (ps : RslState) (Hreach : reachable con ps).
Local Abbreviation ids := (rsl_ids con).
Local Abbreviation S := (sent_of ps).

(** Two decided logs are comparable: agreement, operation by operation. *)
Lemma decided_prefix bs bs' :
  decided ids S bs -> decided ids S bs' -> (length bs <= length bs')%nat -> bs `prefix_of` bs'.
Proof.
  intros H H' Hlen. exists (drop (length bs) bs').
  rewrite <- (take_drop (length bs) bs') at 1. f_equal. symmetry. apply list_eq_same_length with (length bs).
  - rewrite length_take. lia.
  - done.
  - intros k b b' Hk Hb Hb'. rewrite lookup_take in Hb'. case_decide; [|done].
    destruct (H k _ Hb) as [bal Hc]. destruct (H' k _ Hb') as [bal' Hc'].
    eapply chosen_same; [exact Hreach|exact Hc|exact Hc'].
Qed.

Lemma decided_join bs bs' :
  decided ids S bs -> decided ids S bs' ->
  exists bs'', decided ids S bs'' /\ bs `prefix_of` bs'' /\ bs' `prefix_of` bs''.
Proof.
  intros H H'. destruct (decide (length bs <= length bs')%nat).
  - exists bs'. split_and!; [done|by apply decided_prefix|done].
  - exists bs. split_and!; [done|done|apply decided_prefix; [done|done|lia]].
Qed.

(** Facts that hold of decided logs and of their extensions hold of one. *)
Lemma agreed_log {A} (l : list A) (Q : A -> list RequestBatch -> Prop) :
  (forall x, x ∈ l -> exists bs, decided ids S bs /\ Q x bs) ->
  (forall x bs bs', bs `prefix_of` bs' -> Q x bs -> Q x bs') ->
  exists bs, decided ids S bs /\ forall x, x ∈ l -> Q x bs.
Proof.
  intros HQ Hmono. induction l as [|x l IH].
  - exists []. split; [|by intros x ?%not_elem_of_nil]. intros k b Hk. by rewrite lookup_nil in Hk.
  - destruct IH as (bs & Hd & HQl); [intros y Hy; apply HQ; set_solver|].
    destruct (HQ x) as (bs' & Hd' & Hx); [set_solver|].
    destruct (decided_join bs bs' Hd Hd') as (bs'' & Hd'' & Hp & Hp').
    exists bs''. split; [done|]. intros y [->|Hy]%elem_of_cons; eauto.
Qed.

(** Replica state [s] is the log's after its operations. *)
Definition executes_log (s : LScheduler) (bs : list RequestBatch) : Prop :=
  exists n, Z.of_nat n = ops_complete (executor (replica s)) /\ (n <= length bs)%nat
    /\ app (executor (replica s)) = run_log (take n bs).

Definition reply_from_log (p : RslPacket) (bs : list RequestBatch) : Prop :=
  src p ∈ ids -> forall seqno reply, msg p = RslMessageReply seqno reply ->
  answers bs (MkReply (dst p) seqno reply).

Lemma reachable_log :
  exists bs, decided ids S bs
    /\ (forall s, s ∈ replicas ps -> executes_log s bs)
    /\ (forall p, p ∈ S -> reply_from_log p bs).
Proof.
  assert (exists bs, decided ids S bs /\ forall s, s ∈ replicas ps -> executes_log s bs)
    as (bs & Hd & Hs).
  { apply agreed_log.
    - intros s [idx Hidx]%elem_of_seq_get.
      destruct (reachable_executor_inv con ps idx s Hreach Hidx) as [(bs & Hl & Hd & Happ & _) _ _ _].
      exists bs. split; [done|]. exists (length bs). by rewrite take_ge.
    - intros s bs bs' [l ->] (n & Hn & Hle & Happ). exists n.
      rewrite length_app, take_app_le by done. split_and!; [done|lia|done]. }
  assert (exists bs, decided ids S bs /\ forall p, p ∈ elements S -> reply_from_log p bs)
    as (bs' & Hd' & Hp).
  { apply agreed_log.
    - intros p Hp%elem_of_elements. destruct (decide (src p ∈ ids)) as [Hin|Hout].
      2: { exists []. split; [|by intros ?]. intros k b Hk. by rewrite lookup_nil in Hk. }
      destruct (replica_of_host con ps Hreach _ Hin) as (idx & s & He & _ & Hs').
      destruct (reachable_executor_inv con ps idx s Hreach Hs') as [_ _ _ I4].
      destruct (msg p) as [| | | | | | |seqno reply| | |] eqn:Hm;
        try (exists []; split; [intros k b Hk; by rewrite lookup_nil in Hk
                               |intros _ ? ? E; by rewrite Hm in E]).
      destruct (I4 p seqno reply) as (bs' & ? & ?); [done..|].
      exists bs'. split; [done|]. intros _ ? ? E. rewrite Hm in E. by simplify_eq.
    - intros p b b' [l ->] H Hin seqno reply Hm. apply answers_app. by eapply H. }
  destruct (decided_join bs bs' Hd Hd') as (bs'' & Hd'' & [l1 ->] & [l2 E]).
  exists (bs ++ l1). split_and!; [done| |].
  - intros s Hin. destruct (Hs s Hin) as (n & Hn & Hle & Happ). exists n.
    rewrite length_app, take_app_le by done. split_and!; [done|lia|done].
  - intros p Hin Hsrc seqno reply Hm. rewrite E. apply answers_app.
    eapply Hp; [by apply elem_of_elements|done|done].
Qed.
End agreed_log.
