(* ===== verification/Validity.v ===== *)
(** * Requests are not made up

    Every request that is queued (election.rs, proposer.rs), proposed, decided
    or answered is one that its client sent. *)

From stdpp Require Import prelude gmap sets list numbers fin_sets.
From Stdlib Require Import ZArith Lia.
From S2P Require Import Prelude.
From S2P Require Import Types.
From S2P Require Import Common.
From S2P Require Import Election.
From S2P Require Import Executor.
From S2P Require Import Proposer.
From S2P Require Import Environment.
From S2P Require Import Replica.
From S2P Require Import ReplicaSteps.
From S2P Require Import DistributedSystem.
From S2P Require Import Agreement.
From S2P Require Import ReplicatedLog.

#[local] Open Scope Z_scope.

(** The packet [p] asks for [r]. *)
Definition request_packet (p : RslPacket) (r : Request) : Prop :=
  src p = req_client r /\ msg p = RslMessageRequest (req_seqno r) (req_request r).

(** The client of [r] sent it to one of the replicas [ids]. *)
Definition issued (ids : list AbstractEndPoint) (S : gset RslPacket) (r : Request) : Prop :=
  exists p, p ∈ S /\ dst p ∈ ids /\ request_packet p r.

Lemma issued_mono ids S S' r : S ⊆ S' -> issued ids S r -> issued ids S' r.
Proof. intros Hs (p & ? & ?). exists p. set_solver. Qed.

(** ** The requests a replica remembers *)

Definition es_requests (es : ElectionState) : list Request :=
  requests_received_prev_epochs es ++ requests_received_this_epoch es.

Definition proposer_requests (q : LProposer) : list Request :=
  request_queue q ++ es_requests (election_state q).

Section queues.
Implicit Types (es : ElectionState) (q : LProposer) (r : Request).

Lemma BoundRequestSequence_elem s n r : r ∈ BoundRequestSequence s n -> r ∈ s.
Proof.
  unfold BoundRequestSequence. destruct n; [|done]. case_decide; [|done].
  apply seq_subrange_elem.
Qed.

Lemma ProcessHeartbeat_requests es es_ p clock r :
  ElectionStateProcessHeartbeat es es_ p clock -> r ∈ es_requests es_ -> r ∈ es_requests es.
Proof.
  unfold ElectionStateProcessHeartbeat, es_requests. repeat case_decide; intros ->; try done.
  cbn. rewrite app_nil_r. apply BoundRequestSequence_elem.
Qed.

Lemma CheckForViewTimeout_requests es es_ clock r :
  ElectionStateCheckForViewTimeout es es_ clock -> r ∈ es_requests es_ -> r ∈ es_requests es.
Proof.
  unfold ElectionStateCheckForViewTimeout, es_requests. repeat case_decide; intros ->; try done;
    cbn; rewrite app_nil_r; [set_solver|apply BoundRequestSequence_elem].
Qed.

Lemma CheckForQuorum_requests es es_ clock r :
  ElectionStateCheckForQuorumOfViewSuspicions es es_ clock ->
  r ∈ es_requests es_ -> r ∈ es_requests es.
Proof.
  unfold ElectionStateCheckForQuorumOfViewSuspicions, es_requests. case_decide; intros ->; [done|].
  cbn. rewrite app_nil_r. apply BoundRequestSequence_elem.
Qed.

Lemma ReflectReceived_requests es es_ req r :
  ElectionStateReflectReceivedRequest es es_ req ->
  r ∈ es_requests es_ -> r ∈ es_requests es \/ r = req.
Proof.
  unfold ElectionStateReflectReceivedRequest, es_requests. case_decide; intros ->; [by left|].
  cbn. intros [?|Hr%BoundRequestSequence_elem]%elem_of_app; set_solver.
Qed.

Lemma ReflectExecuted_requests es es_ batch r :
  ElectionStateReflectExecutedRequestBatch es es_ batch ->
  r ∈ es_requests es_ -> r ∈ es_requests es.
Proof.
  unfold ElectionStateReflectExecutedRequestBatch, es_requests. intros ->. cbn.
  rewrite !elem_of_app. intros [?%RemoveExecuted_subseteq|?%RemoveExecuted_subseteq]; auto.
Qed.
End queues.

(** The proposer's operations forget requests, or keep those they had. *)
Section proposers.
Implicit Types (q : LProposer) (r : Request).

Lemma MaybeEnterNewView_requests q q_ sent r :
  LProposerMaybeEnterNewViewAndSend1a q q_ sent ->
  r ∈ proposer_requests q_ -> r ∈ proposer_requests q.
Proof.
  unfold LProposerMaybeEnterNewViewAndSend1a, proposer_requests, es_requests.
  case_decide; intros [-> _]; [cbn; set_solver|done].
Qed.

Lemma MaybeEnterPhase2_requests q q_ ltp sent r :
  LProposerMaybeEnterPhase2 q q_ ltp sent ->
  r ∈ proposer_requests q_ -> r ∈ proposer_requests q.
Proof. unfold LProposerMaybeEnterPhase2. case_decide; by intros [-> _]. Qed.

Lemma MaybeNominate_requests q q_ clock ltp sent r :
  LProposerMaybeNominateValueAndSend2a q q_ clock ltp sent ->
  r ∈ proposer_requests q_ -> r ∈ proposer_requests q.
Proof.
  intros [(_ & t & ->)|[(_ & _ & (p & _ & _ & -> & _))|(_ & _ & [-> _])]]%LProposerMaybeNominate_inv;
    try done.
  unfold proposer_requests. cbn. rewrite !elem_of_app. intros [Hr|?]; [left|by right].
  by apply seq_subrange_elem in Hr.
Qed.

Lemma demoted_requests q q_ r :
  demoted_by_new_view q q_ -> same_but_role q q_ ->
  r ∈ proposer_requests q_ ->
  r ∈ request_queue q \/ r ∈ es_requests (election_state q_).
Proof.
  unfold demoted_by_new_view, proposer_requests. rewrite elem_of_app. intros Hd _ [Hr|?]; [|by right].
  case_decide; destruct Hd as [_ Hq]; rewrite Hq in Hr; [by apply not_elem_of_nil in Hr|by left].
Qed.

Lemma LProposerProcessHeartbeat_requests q q_ p clock r :
  LProposerProcessHeartbeat q q_ p clock ->
  r ∈ proposer_requests q_ -> r ∈ proposer_requests q.
Proof.
  intros (Hes & Hd & Hs) [?|?]%(demoted_requests q q_ r Hd Hs); apply elem_of_app; [by left|right].
  by eapply ProcessHeartbeat_requests.
Qed.

Lemma LProposerCheckForQuorum_requests q q_ clock r :
  LProposerCheckForQuorumOfViewSuspicions q q_ clock ->
  r ∈ proposer_requests q_ -> r ∈ proposer_requests q.
Proof.
  intros (Hes & Hd & Hs) [?|?]%(demoted_requests q q_ r Hd Hs); apply elem_of_app; [by left|right].
  by eapply CheckForQuorum_requests.
Qed.

Lemma LProposerCheckForViewTimeout_requests q q_ clock r :
  LProposerCheckForViewTimeout q q_ clock ->
  r ∈ proposer_requests q_ -> r ∈ proposer_requests q.
Proof.
  unfold proposer_requests. intros (Hes & ->). cbn. rewrite !elem_of_app. intros [?|?]; [by left|right].
  by eapply CheckForViewTimeout_requests.
Qed.

Lemma LProposerResetViewTimer_requests q q_ batch r :
  LProposerResetViewTimerDueToExecution q q_ batch ->
  r ∈ proposer_requests q_ -> r ∈ proposer_requests q.
Proof.
  unfold proposer_requests. intros (Hes & ->). cbn. rewrite !elem_of_app. intros [?|?]; [by left|right].
  by eapply ReflectExecuted_requests.
Qed.

(** A request received is remembered as its packet says. *)
Lemma LProposerProcessRequest_requests q q_ p seqno v r :
  msg p = RslMessageRequest seqno v -> LProposerProcessRequest q q_ p ->
  r ∈ proposer_requests q_ -> r ∈ proposer_requests q \/ request_packet p r.
Proof.
  intros Hm [Hes Hrel] Hr. rewrite Hm in Hes, Hrel. simpl in Hes, Hrel.
  assert (forall x, x = MkRequest (src p) seqno v -> request_packet p x) as Hp by by intros ? ->.
  assert (r ∈ es_requests (election_state q_) -> r ∈ es_requests (election_state q) \/ request_packet p r)
    as He.
  { intros [?| ?]%(ReflectReceived_requests _ _ _ _ Hes); auto. }
  assert (r ∈ request_queue q_ -> r ∈ request_queue q \/ request_packet p r) as Hq.
  { case_decide; rewrite Hrel; cbn; [|by left].
    intros [?|?%list_elem_of_singleton]%elem_of_app; auto. }
  unfold proposer_requests in *. rewrite !elem_of_app in *. tauto.
Qed.
End proposers.

(** A replica remembers no request but those it remembered and the one it
    receives. *)
Lemma LReplicaStep_requests s s_ recv sent r :
  LReplicaStep s s_ recv sent -> r ∈ proposer_requests (proposer s_) ->
  r ∈ proposer_requests (proposer s) \/ exists p, recv = Some p /\ request_packet p r.
Proof.
  intros Hstep Hr. step_cases Hstep; [by left|..].
  all: open_step H.
  all: first
    [ by match goal with A : LProposerProcessRequest _ _ _ |- _ =>
        destruct (LProposerProcessRequest_requests _ _ _ _ _ _ Hm A Hr); eauto end
    | left; match goal with A : LProposerProcess1b _ _ _ |- _ => rewrite A in Hr end; exact Hr
    | left; first
      [ by eapply MaybeEnterNewView_requests
      | by eapply MaybeEnterPhase2_requests
      | by eapply MaybeNominate_requests
      | by eapply LProposerProcessHeartbeat_requests
      | by eapply LProposerCheckForQuorum_requests
      | by eapply LProposerCheckForViewTimeout_requests
      | by eapply LProposerResetViewTimer_requests
      | match goal with E : @eq LReplica _ _ |- _ => rewrite E in Hr end; exact Hr ] ].
Qed.

(** ** Proposals *)

(** A replica proposes requests that it remembers, or a value that the 1bs it
    collected report. *)
Lemma LReplicaStep_proposed s s_ recv sent x b o u :
  LReplicaStep s s_ recv sent -> x ∈ sent -> msg x = RslMessage2a b o u ->
  let q := proposer s in
  (forall r, r ∈ u -> r ∈ proposer_requests q)
  \/ (LSetOfMessage1b (received_1b_packets q)
      /\ LValIsHighestNumberedProposal u (received_1b_packets q) o).
Proof.
  intros Hstep Hx Hx2. cbv zeta.
  assert (forall me k, sent_as me k sent -> k <> K2a -> False) as Hno.
  { intros me k Hs Hk. destruct (Hs x Hx) as [_ Hc]. rewrite Hx2 in Hc. by subst. }
  step_cases Hstep; [by apply not_elem_of_nil in Hx|..].
  all: open_step H.
  all: try match goal with A : LProposerMaybeNominateValueAndSend2a _ _ _ _ _ |- _ =>
    apply LProposerMaybeNominate_inv in A as
      [(-> & _)|[(Hcan & _ & (p1 & _ & Hhigh & _ & Hb))|(_ & _ & [_ Hb])]];
    [by apply not_elem_of_nil in Hx
    |destruct (LBroadcastToEveryone_elem _ _ _ _ _ Hb Hx) as (_ & _ & _ & E);
     rewrite E in Hx2; simplify_eq; right; split; [apply Hcan|exact Hhigh]
    |destruct (LBroadcastToEveryone_elem _ _ _ _ _ Hb Hx) as (_ & _ & _ & E);
     rewrite E in Hx2; simplify_eq; left; intros r Hr%seq_subrange_elem; apply elem_of_app; by left]
    end.
  all: exfalso; frame_sent; subst; first [by eapply Hno|by apply not_elem_of_nil in Hx].
Qed.

(** The clients sent the requests that a replica remembers and proposed. *)
Record validity_inv (ids : list AbstractEndPoint) (me : AbstractEndPoint) (q : LProposer)
    (S : gset RslPacket) : Prop := MkValidityInv
  { vi_remembered r : r ∈ proposer_requests q -> issued ids S r;
    vi_proposed bal opn v r : proposed_by S me bal opn v -> r ∈ v -> issued ids S r }.

(** What a 1b reports was proposed. *)
Lemma reported_proposed con ps idx s opn v :
  reachable con ps -> seq_get (replicas ps) idx = Some s ->
  LSetOfMessage1b (received_1b_packets (proposer (replica s))) ->
  LValIsHighestNumberedProposal v (received_1b_packets (proposer (replica s))) opn ->
  exists bal, proposed (rsl_ids con) (sent_of ps) bal opn v.
Proof.
  intros Hr Hs H1b (c & _ & p & Hp & Hw).
  destruct (pi_received _ _ _ _ _ (reachable_proposer_inv con ps idx s Hr Hs) p Hp) as [HS Hin].
  specialize (H1b p Hp). cbv beta in H1b.
  destruct (msg p) as [| | |b ltp votes| | | | | | |] eqn:Hm; try done.
  destruct (host_acceptor_inv con ps Hr _ Hin) as [a I]. exists c.
  apply (ai_promise_votes _ _ _ _ I b ltp votes opn (MkVote c v)); [by exists p|done].
Qed.

Lemma reachable_validity_inv con ps idx s :
  reachable con ps -> seq_get (replicas ps) idx = Some s ->
  validity_inv (rsl_ids con) (seq_index (rsl_ids con) idx) (proposer (replica s)) (sent_of ps).
Proof.
  apply (replica_invariant con (fun idx r S =>
    validity_inv (rsl_ids con) (seq_index (rsl_ids con) idx) (proposer r) S)).
  - intros i r _ (_ & _ & (_ & _ & Hq & _ & _ & _ & _ & He & _) & _). split.
    + destruct He as (_ & _ & _ & _ & _ & Ht & Hpv). unfold proposer_requests, es_requests.
      rewrite Hq, Ht, Hpv. by intros x ?%not_elem_of_nil.
    + intros ???? (p & Hp & _). by apply not_elem_of_empty in Hp.
  - intros ps1 ps2 i s1 s2 recv sent Hr _ Hidx Hget _ Hstep Hrecv Hsent Hsrc IH.
    destruct (IH i s1 Hget) as [I1 I2].
    assert (sent_of ps1 ⊆ sent_of ps2) as Hsub by (intros p Hp; apply Hsent; by left).
    split.
    + intros r [Hin|(p & Hp & Hreq)]%(LReplicaStep_requests _ _ _ _ _ Hstep).
      * eapply issued_mono; [exact Hsub|by apply I1].
      * destruct (Hrecv p Hp) as [HS Hd]. exists p. split_and!; [by apply Hsub| |done].
        rewrite Hd. by apply seq_index_elem_of.
    + intros bal opn v r (p & [Hp|Hp]%Hsent & Hme & Hm) Hrv; apply (issued_mono _ (sent_of ps1)); [done| |done|].
      { apply (I2 bal opn v); [by exists p|done]. }
      destruct (LReplicaStep_proposed _ _ _ _ _ _ _ _ Hstep Hp Hm) as [Hq|[H1b Hhigh]];
        [by apply I1, Hq|].
      destruct (reported_proposed con ps1 i s1 opn v Hr Hget H1b Hhigh) as (c & p' & Hp' & Hin & Hm').
      destruct (replica_of_host con ps1 Hr _ Hin) as (j & sj & He & _ & Hj).
      apply (vi_proposed _ _ _ _ (IH j sj Hj) c opn v); [by exists p'|done].
  - intros i r S S' Hsub Hnew [I1 I2]. split.
    + intros x Hx. by eapply issued_mono, I1.
    + intros bal opn v x (p & Hp & Hme & Hm) Hx. eapply issued_mono; [done|].
      apply (I2 bal opn v); [|done]. exists p. by split_and!; [apply Hnew| |].
Qed.

(** ** Decisions and replies *)

Section validity.
Context (con : LConstants) (ps : RslState) (Hreach : reachable con ps).
Local Abbreviation ids := (rsl_ids con).
Local Abbreviation S := (sent_of ps).

Lemma proposed_issued bal opn v r : proposed ids S bal opn v -> r ∈ v -> issued ids S r.
Proof.
  intros (p & Hp & Hin & Hm) Hr. destruct (replica_of_host con ps Hreach _ Hin) as (i & s & He & _ & Hs).
  apply (vi_proposed _ _ _ _ (reachable_validity_inv con ps i s Hreach Hs) bal opn v); [by exists p|done].
Qed.

Lemma decided_issued bs b r : decided ids S bs -> b ∈ bs -> r ∈ b -> issued ids S r.
Proof.
  intros Hd [k Hk]%list_elem_of_lookup Hr. destruct (Hd k b Hk) as [bal Hc].
  eapply proposed_issued; [by eapply chosen_proposed|exact Hr].
Qed.

(** A reply answers a request of its receiver. *)
Lemma answers_issued bs c seqno reply :
  decided ids S bs -> answers bs (MkReply c seqno reply) ->
  exists m q, issued ids S (MkRequest c seqno m) /\ concat bs !! q = Some (MkRequest c seqno m)
    /\ reply = (AppHandleRequest (run_batch AppInitialize (take q (concat bs))) m).2.
Proof.
  intros Hd (k & q & Hk & Hc & Hn & Ha). simpl in *. subst c seqno.
  exists (req_request q), k. destruct q as [c n m]. simpl in *. split_and!; [|done|done].
  apply list_elem_of_lookup_2 in Hk as Hin.
  apply list_elem_of_In, in_concat in Hin as (b & Hb & Hin).
  eapply decided_issued; [done|by apply list_elem_of_In|by apply list_elem_of_In].
Qed.
End validity.
