(* ===== verification/Service.v ===== *)
(** * The abstract service and its refinement

    refinement_proof/{state_machine,chosen,handle_request_batch,refinement}.rs:
    the centralized service that the replicas implement, and the abstraction of
    a protocol state to a service state through the longest sequence of
    decided batches.  The theorem of this file is that the protocol's
    behaviours refine the service's. *)

From stdpp Require Import prelude gmap sets list numbers fin_sets.
From Stdlib Require Import ZArith Lia.
From S2P Require Import Prelude.
From S2P Require Import Types.
From S2P Require Import Common.
From S2P Require Import Environment.
From S2P Require Import Replica.
From S2P Require Import ReplicaSteps.
From S2P Require Import DistributedSystem.
From S2P Require Import Agreement.
From S2P Require Import ReplicatedLog.
From S2P Require Import Validity.

#[local] Open Scope Z_scope.

(** ** The service (state_machine.rs) *)

Record RSLSystemState := MkRSLSystemState
  { server_addresses : gset AbstractEndPoint;
    sys_app : AppState;
    requests : gset Request;
    replies : gset Reply }.

Definition RslSystemInit (s : RSLSystemState) (addresses : gset AbstractEndPoint) : Prop :=
  server_addresses s = addresses /\ sys_app s = AppInitialize
  /\ requests s = ∅ /\ replies s = ∅.

Definition RslSystemNextServerExecutesRequest (s s_ : RSLSystemState) (req : Request) : Prop :=
  server_addresses s_ = server_addresses s
  /\ requests s_ = requests s ∪ {[req]}
  /\ sys_app s_ = (AppHandleRequest (sys_app s) (req_request req)).1
  /\ replies s_
     = replies s ∪ {[MkReply (req_client req) (req_seqno req)
                       (AppHandleRequest (sys_app s) (req_request req)).2]}.

Definition RslStateSequenceReflectsBatchExecution (s s_ : RSLSystemState)
    (intermediate_states : list RSLSystemState) (batch : list Request) : Prop :=
  seq_len intermediate_states = seq_len batch + 1
  /\ seq_get intermediate_states 0 = Some s
  /\ last intermediate_states = Some s_
  /\ (forall i s1 s2 r, seq_get intermediate_states i = Some s1 ->
        seq_get intermediate_states (i + 1) = Some s2 -> seq_get batch i = Some r ->
        RslSystemNextServerExecutesRequest s1 s2 r).

Definition RslSystemNext (s s_ : RSLSystemState) : Prop :=
  exists intermediate_states batch,
    RslStateSequenceReflectsBatchExecution s s_ intermediate_states batch.

(** Replies that servers sent are the service's, and the service's requests
    were sent to servers. *)
Definition RslSystemRefinement (ps : RslState) (rs : RSLSystemState) : Prop :=
  (forall p seqno reply, p ∈ sent_of ps -> src p ∈ server_addresses rs ->
     msg p = RslMessageReply seqno reply -> MkReply (dst p) seqno reply ∈ replies rs)
  /\ (forall req, req ∈ requests rs -> exists p seqno v,
        p ∈ sent_of ps /\ dst p ∈ server_addresses rs /\ msg p = RslMessageRequest seqno v
        /\ req = MkRequest (src p) seqno v).

Definition RslSystemBehaviorRefinementCorrect (addresses : gset AbstractEndPoint)
    (low_level_behavior : list RslState) (high_level_behavior : list RSLSystemState) : Prop :=
  length high_level_behavior = length low_level_behavior
  /\ (forall i ps rs, low_level_behavior !! i = Some ps -> high_level_behavior !! i = Some rs ->
        RslSystemRefinement ps rs)
  /\ (0 < length high_level_behavior)%nat
  /\ (forall rs, high_level_behavior !! 0%nat = Some rs -> RslSystemInit rs addresses)
  /\ (forall i rs rs_, high_level_behavior !! i = Some rs ->
        high_level_behavior !! S i = Some rs_ -> RslSystemNext rs rs_).

(** ** Decided sequences (common_proof/chosen.rs, refinement_proof/chosen.rs) *)

Record QuorumOf2bs := MkQuorumOf2bs
  { q_c : LConstants; indices : gset Z; packets : list RslPacket; q_bal : Ballot;
    q_opn : OperationNumber; q_v : RequestBatch }.

Definition IsValidQuorumOf2bs (ps : RslState) (q : QuorumOf2bs) : Prop :=
  let ids := rsl_ids (rsl_constants ps) in
  Z.of_nat (size (indices q)) >= LMinQuorumSize (config (rsl_constants ps))
  /\ seq_len (packets q) = seq_len ids
  /\ (forall idx, idx ∈ indices q ->
        0 <= idx < seq_len ids
        /\ exists p, seq_get (packets q) idx = Some p
             /\ Some (src p) = seq_get ids idx
             /\ msg p = RslMessage2b (q_bal q) (q_opn q) (q_v q)
             /\ p ∈ sent_of ps).

Definition IsValidQuorumOf2bsSequence (ps : RslState) (qs : list QuorumOf2bs) : Prop :=
  forall opn q, seq_get qs opn = Some q -> q_opn q = opn /\ IsValidQuorumOf2bs ps q.

Definition IsMaximalQuorumOf2bsSequence (ps : RslState) (qs : list QuorumOf2bs) : Prop :=
  IsValidQuorumOf2bsSequence ps qs
  /\ ~ (exists q, IsValidQuorumOf2bs ps q /\ q_opn q = seq_len qs).

(** The source's recursion on [drop_last] is the map. *)
Fixpoint GetSequenceOfRequestBatches_rev (rqs : list QuorumOf2bs) : list RequestBatch :=
  match rqs with
  | [] => []
  | q :: rest => GetSequenceOfRequestBatches_rev rest ++ [q_v q]
  end.

Definition GetSequenceOfRequestBatches (qs : list QuorumOf2bs) : list RequestBatch :=
  GetSequenceOfRequestBatches_rev (rev qs).

(** ** The abstraction (handle_request_batch.rs, refinement.rs) *)

Fixpoint GetAppStateFromRequestBatches_rev (rbatches : list RequestBatch) : AppState :=
  match rbatches with
  | [] => AppInitialize
  | b :: rest =>
      default inhabitant (last (HandleRequestBatch (GetAppStateFromRequestBatches_rev rest) b).1)
  end.

Definition GetAppStateFromRequestBatches (batches : list RequestBatch) : AppState :=
  GetAppStateFromRequestBatches_rev (rev batches).

Definition GetReplyFromRequestBatches (batches : list RequestBatch) (batch_num req_num : Z)
  : Reply :=
  let prev_state := GetAppStateFromRequestBatches (seq_subrange batches 0 batch_num) in
  let result := HandleRequestBatch prev_state (seq_index batches batch_num) in
  seq_index result.2 req_num.

Definition ReplySeqFromRequestBatches (batches : list RequestBatch) : list (list Reply) :=
  seq_new (seq_len batches) (fun batch_num =>
    seq_new (seq_len (seq_index batches batch_num)) (fun req_num =>
      GetReplyFromRequestBatches batches batch_num req_num)).

Definition ProduceAbstractState (addresses : gset AbstractEndPoint) (batches : list RequestBatch)
  : RSLSystemState :=
  {| server_addresses := addresses;
     sys_app := GetAppStateFromRequestBatches batches;
     requests := list_to_set (concat batches);
     replies := list_to_set (concat (ReplySeqFromRequestBatches batches)) |}.

Definition GetServerAddresses (ps : RslState) : gset AbstractEndPoint :=
  list_to_set (rsl_ids (rsl_constants ps)).

Definition SystemRefinementRelation (ps : RslState) (rs : RSLSystemState) : Prop :=
  exists qs, IsMaximalQuorumOf2bsSequence ps qs
    /\ rs = ProduceAbstractState (GetServerAddresses ps) (GetSequenceOfRequestBatches qs).

(** ** The replies of a log *)

(** The reply to [q] in state [s], and a log's replies in order. *)
Definition reply_to (s : AppState) (q : Request) : Reply :=
  MkReply (req_client q) (req_seqno q) (AppHandleRequest s (req_request q)).2.

Fixpoint run_replies (s : AppState) (l : list Request) : list Reply :=
  match l with
  | [] => []
  | q :: rest => reply_to s q :: run_replies (AppHandleRequest s (req_request q)).1 rest
  end.

Section log_replies.
Implicit Types (s : AppState) (l : list Request) (bs : list RequestBatch).

Lemma run_replies_lookup s l i :
  run_replies s l !! i = q ← l !! i; Some (reply_to (run_batch s (take i l)) q).
Proof. revert s i. induction l as [|q l IH]; intros s [|i]; simpl; [done|done|done|]. by rewrite IH. Qed.

Lemma run_replies_app s l l' :
  run_replies s (l ++ l') = run_replies s l ++ run_replies (run_batch s l) l'.
Proof. revert s. induction l as [|q l IH]; intros s; simpl; [done|]. by rewrite IH. Qed.

Lemma HandleRequestBatch_replies s l : (HandleRequestBatch s l).2 = run_replies s l.
Proof.
  apply list_eq. intros i. rewrite run_replies_lookup.
  pose proof (HandleRequestBatch_props s l) as Hp.
  pose proof (HandleRequestBatch_states s l i) as Hst.
  destruct (HandleRequestBatch s l) as [ss rs]. destruct Hp as (_ & Hl & _ & Hans). simpl in *.
  destruct (l !! i) as [q|] eqn:Hq; simpl.
  - pose proof (lookup_lt_Some _ _ _ Hq) as Hi.
    destruct (lookup_lt_is_Some_2 rs i) as [r Hr]; [lia|]. rewrite Hr. f_equal.
    destruct (Hans i q r Hq Hr) as (s0 & s1 & Hs0 & _ & Ha & Hc & Hn).
    rewrite Hst in Hs0 by lia. injection Hs0 as ->. destruct r. simpl in *. unfold reply_to.
    by rewrite Ha, Hc, Hn.
  - apply lookup_ge_None in Hq. apply lookup_ge_None. lia.
Qed.

Lemma run_replies_len s l : length (run_replies s l) = length l.
Proof. revert s. induction l as [|q l IH]; intros s; simpl; [done|]. by rewrite IH. Qed.

Lemma HandleRequestBatch_last s l :
  default inhabitant (last (HandleRequestBatch s l).1) = run_batch s l.
Proof.
  pose proof (HandleRequestBatch_props s l) as Hp. destruct (HandleRequestBatch s l) as [ss rs].
  destruct Hp as (_ & _ & Hl & _). simpl. by rewrite Hl.
Qed.

Lemma GetAppState_run bs : GetAppStateFromRequestBatches bs = run_log bs.
Proof.
  unfold GetAppStateFromRequestBatches. induction bs as [|b bs IH] using rev_ind; [done|].
  rewrite rev_unit. simpl. by rewrite HandleRequestBatch_last, IH, run_log_snoc.
Qed.

(** Replies extend with the log. *)
Lemma GetReply_prefix bs (bs2 : list RequestBatch) i j :
  0 <= i < seq_len bs ->
  GetReplyFromRequestBatches (bs ++ bs2) i j = GetReplyFromRequestBatches bs i j.
Proof.
  intros Hi. unfold GetReplyFromRequestBatches, seq_subrange, seq_len in *.
  rewrite !drop_0, take_app_le by lia. by rewrite seq_index_app by done.
Qed.

Lemma ReplySeq_snoc bs b :
  ReplySeqFromRequestBatches (bs ++ [b])
  = ReplySeqFromRequestBatches bs ++ [run_replies (run_log bs) b].
Proof.
  unfold ReplySeqFromRequestBatches. rewrite seq_len_app. change (seq_len [b]) with 1.
  rewrite seq_new_succ by apply seq_len_nonneg. f_equal.
  - apply seq_new_ext. intros i Hi. rewrite seq_index_app by done.
    apply seq_new_ext. intros j _. by apply GetReply_prefix.
  - f_equal. rewrite seq_index_snoc. apply seq_new_eq.
    + unfold seq_len. by rewrite run_replies_len.
    + intros j Hj. unfold GetReplyFromRequestBatches, seq_subrange.
      rewrite seq_index_snoc, drop_0, take_app_length' by (unfold seq_len; lia).
      by rewrite GetAppState_run, HandleRequestBatch_replies.
Qed.

Lemma ReplySeq_run bs :
  concat (ReplySeqFromRequestBatches bs) = run_replies AppInitialize (concat bs).
Proof.
  induction bs as [|b bs IH] using rev_ind; [done|].
  rewrite ReplySeq_snoc, !concat_app, run_replies_app, IH. simpl. by rewrite !app_nil_r.
Qed.

Lemma answers_reply bs r : answers bs r <-> r ∈ run_replies AppInitialize (concat bs).
Proof.
  rewrite list_elem_of_lookup. split.
  - intros (m & q & Hm & Hc & Hn & Ha). exists m. rewrite run_replies_lookup, Hm. simpl.
    destruct r. simpl in *. subst. done.
  - intros [m Hm]. rewrite run_replies_lookup in Hm. destruct (concat bs !! m) as [q|] eqn:Hq; [|done].
    simpl in Hm. simplify_eq. by exists m, q.
Qed.
End log_replies.

(** ** Executing requests one at a time *)

Definition service_after (addresses : gset AbstractEndPoint) (rs : list Request)
  : RSLSystemState :=
  {| server_addresses := addresses;
     sys_app := run_batch AppInitialize rs;
     requests := list_to_set rs;
     replies := list_to_set (run_replies AppInitialize rs) |}.

Section service_runs.
Context (addresses : gset AbstractEndPoint).

Lemma ProduceAbstractState_run bs :
  ProduceAbstractState addresses bs = service_after addresses (concat bs).
Proof. unfold ProduceAbstractState, service_after. by rewrite GetAppState_run, ReplySeq_run. Qed.

Lemma service_after_snoc rs r :
  RslSystemNextServerExecutesRequest (service_after addresses rs)
    (service_after addresses (rs ++ [r])) r.
Proof.
  unfold RslSystemNextServerExecutesRequest, service_after. simpl.
  rewrite run_batch_app, run_replies_app, !list_to_set_app_L. simpl.
  by rewrite !union_empty_r_L.
Qed.

Lemma service_after_app rs batch :
  RslSystemNext (service_after addresses rs) (service_after addresses (rs ++ batch)).
Proof.
  exists ((fun k => service_after addresses (rs ++ take k batch)) <$> seq 0 (S (length batch))), batch.
  unfold RslStateSequenceReflectsBatchExecution. split_and!.
  - unfold seq_len. rewrite length_fmap, length_seq. lia.
  - simpl. unfold seq_get. simpl. by rewrite app_nil_r.
  - rewrite seq_S, fmap_app. simpl. rewrite last_snoc. by rewrite take_ge by lia.
  - intros i s1 s2 r H1 H2 Hr. pose proof (seq_get_Some_range _ _ _ Hr) as Hi.
    destruct (Z_of_nat_complete i) as [k ->]; [lia|]. unfold seq_len in Hi.
    replace (Z.of_nat k + 1) with (Z.of_nat (S k)) in H2 by lia.
    rewrite seq_get_of_nat in Hr. rewrite seq_get_of_nat, list_lookup_fmap, lookup_seq_lt in H1 by lia.
    rewrite seq_get_of_nat, list_lookup_fmap, lookup_seq_lt in H2 by lia. simpl in H1, H2. simplify_eq.
    rewrite (take_S_r _ _ _ Hr), app_assoc. apply service_after_snoc.
Qed.
End service_runs.

(** ** Decided logs *)

(** The replicas that accepted [v], and the batch that a 2b is about. *)
Definition acceptors_of (ids : list AbstractEndPoint) (S : gset RslPacket) (bal : Ballot)
    (opn : OperationNumber) (v : RequestBatch) : gset AbstractEndPoint :=
  set_map src (filter (fun p => msg p = RslMessage2b bal opn v /\ src p ∈ ids) S).

Definition decides (ids : list AbstractEndPoint) (S : gset RslPacket) (opn : OperationNumber)
    (p : RslPacket) : Prop :=
  match msg p with
  | RslMessage2b bal o v =>
      o = opn /\ Z.of_nat (size (acceptors_of ids S bal o v)) >= seq_len ids / 2 + 1
  | _ => False
  end.

#[export] Instance decides_dec ids S opn p : Decision (decides ids S opn p).
Proof. unfold decides. destruct (msg p); apply _. Defined.

(** A log with no decision after it. *)
Definition longest_log (ids : list AbstractEndPoint) (S : gset RslPacket)
    (bs : list RequestBatch) : Prop :=
  decided ids S bs /\ ~ exists bal v, chosen ids S bal (seq_len bs) v.

Section decided_logs.
Context (ids : list AbstractEndPoint) (S : gset RslPacket).

Lemma acceptors_elem bal opn v h :
  h ∈ acceptors_of ids S bal opn v <-> h ∈ ids /\ accepted S h bal opn v.
Proof.
  unfold acceptors_of. rewrite elem_of_map. split.
  - intros (p & -> & [[Hm Hi] Hp]%elem_of_filter). split; [done|]. by exists p.
  - intros (Hi & p & Hp & <- & Hm). exists p. rewrite elem_of_filter. done.
Qed.

Lemma chosen_acceptors bal opn v :
  chosen ids S bal opn v
  <-> Z.of_nat (size (acceptors_of ids S bal opn v)) >= seq_len ids / 2 + 1.
Proof.
  split.
  - intros (Q & Hsz & HQ). enough (size Q <= size (acceptors_of ids S bal opn v))%nat by lia.
    apply subseteq_size. intros h Hh. apply acceptors_elem. by apply HQ.
  - intros Hsz. exists (acceptors_of ids S bal opn v). split; [done|]. intros h. apply acceptors_elem.
Qed.

Lemma chosen_2b bal opn v :
  chosen ids S bal opn v -> exists p, p ∈ S /\ msg p = RslMessage2b bal opn v.
Proof.
  intros (Q & Hsz & HQ). destruct (decide (Q = ∅)) as [->|(h & Hh)%set_choose_L].
  - rewrite size_empty in Hsz. pose proof (seq_len_nonneg ids). Z.to_euclidean_division_equations. lia.
  - destruct (HQ h Hh) as (_ & p & Hp & _ & Hm). by exists p.
Qed.

Lemma chosen_decides opn :
  (exists bal v, chosen ids S bal opn v) <-> set_Exists (decides ids S opn) S.
Proof.
  unfold decides. split.
  - intros (bal & v & Hc). destruct (chosen_2b _ _ _ Hc) as (p & Hp & Hm). exists p.
    rewrite Hm. split_and!; [done|done|by apply chosen_acceptors].
  - intros (p & Hp & Hd). destruct (msg p) as [| | | | |bal o v| | | | |]; try done.
    destruct Hd as [-> Hd]. exists bal, v. by apply chosen_acceptors.
Qed.

Definition opn_of (p : RslPacket) : nat :=
  match msg p with RslMessage2b _ opn _ => Z.to_nat opn | _ => 0%nat end.

Lemma decided_length bs :
  decided ids S bs -> (length bs <= 1 + max_list (opn_of <$> elements S))%nat.
Proof.
  intros Hd. destruct bs as [|b bs _] using rev_ind; [simpl; lia|].
  rewrite length_app. simpl. destruct (Hd (length bs) b) as [bal Hc].
  { by rewrite list_lookup_middle. }
  destruct (chosen_2b _ _ _ Hc) as (p & Hp & Hm).
  enough (length bs <= max_list (opn_of <$> elements S))%nat by lia.
  apply max_list_elem_of_le, list_elem_of_fmap. exists p.
  split; [unfold opn_of; by rewrite Hm, Nat2Z.id|by apply elem_of_elements].
Qed.

Lemma decided_nil : decided ids S [].
Proof. intros k b Hk. by rewrite lookup_nil in Hk. Qed.

Lemma longest_log_extends bs :
  decided ids S bs -> exists bs2, bs `prefix_of` bs2 /\ longest_log ids S bs2.
Proof.
  remember (1 + max_list (opn_of <$> elements S) - length bs)%nat as n eqn:Hn.
  revert bs Hn. induction n as [n IH] using lt_wf_ind. intros bs -> Hd.
  destruct (decide (set_Exists (decides ids S (seq_len bs)) S)) as [H|H].
  - apply chosen_decides in H as (bal & v & Hc).
    pose proof (decided_snoc ids S bs bal v Hd Hc) as Hd2.
    pose proof (decided_length _ Hd2) as Hl. rewrite length_app in Hl. simpl in Hl.
    destruct (IH (1 + max_list (opn_of <$> elements S) - length (bs ++ [v]))%nat)
      with (bs ++ [v]) as (bs2 & Hp & Hm); [rewrite length_app; simpl; lia|done|done|].
    exists bs2. split; [|done]. etrans; [|done]. by apply prefix_app_r.
  - exists bs. split; [done|]. split; [done|]. by rewrite chosen_decides.
Qed.
End decided_logs.

(** ** Quorums of 2bs and decided logs *)

Lemma GetSequence_fmap qs : GetSequenceOfRequestBatches qs = q_v <$> qs.
Proof.
  unfold GetSequenceOfRequestBatches. induction qs as [|q qs IH] using rev_ind; [done|].
  rewrite rev_unit. simpl. by rewrite IH, fmap_app.
Qed.

(** Finite choice. *)
Lemma list_choice {A B} (P : A -> B -> Prop) (l : list A) :
  (forall x, x ∈ l -> exists y, P x y) -> exists l2, Forall2 P l l2.
Proof.
  induction l as [|x l IH]; intros H; [by exists []|].
  destruct (H x) as [y Hy]; [set_solver|]. destruct IH as [l2 Hl]; [set_solver|].
  exists (y :: l2). by constructor.
Qed.

Section quorums.
Context (con : LConstants) (ps : RslState).
Hypothesis (Hcon : rsl_constants ps = con).
Hypothesis (Hwf : WellFormedLConfiguration (config con)).
Local Abbreviation ids := (rsl_ids con).
Local Abbreviation S := (sent_of ps).

Lemma valid_quorum_chosen q : IsValidQuorumOf2bs ps q -> chosen ids S (q_bal q) (q_opn q) (q_v q).
Proof.
  unfold IsValidQuorumOf2bs. rewrite Hcon. intros (Hsz & _ & Hq).
  exists (set_map (seq_index ids) (indices q)). split.
  - rewrite size_set_map_inj_on; [exact Hsz|]. intros i j Hi Hj.
    apply (rsl_ids_inj con); [done|by apply Hq..].
  - intros h (i & -> & Hi)%elem_of_map. destruct (Hq i Hi) as (Hr & p & _ & Hs & Hm & Hp).
    rewrite seq_get_index in Hs by done. injection Hs as Hs.
    split; [by apply seq_index_elem_of|]. by exists p.
Qed.

Lemma chosen_valid_quorum bal opn v :
  chosen ids S bal opn v ->
  exists q, IsValidQuorumOf2bs ps q /\ q_opn q = opn /\ q_v q = v.
Proof.
  intros (Q & Hsz & HQ).
  destruct (list_choice (fun h p => h ∈ Q -> src p = h /\ msg p = RslMessage2b bal opn v /\ p ∈ S) ids)
    as [pkts Hpk].
  { intros h _. destruct (decide (h ∈ Q)) as [Hh|Hh].
    - destruct (HQ h Hh) as (_ & p & Hp & Hs & Hm). by exists p.
    - by exists (MkLPacket h h RslMessageInvalid). }
  set (I := filter (fun i => seq_index ids i ∈ Q) (list_to_set (seqZ 0 (seq_len ids)) : gset Z)).
  assert (forall i, i ∈ I <-> seq_index ids i ∈ Q /\ 0 <= i < seq_len ids) as HI.
  { intros i. unfold I. rewrite elem_of_filter, elem_of_list_to_set, elem_of_seqZ. by rewrite Z.add_0_l. }
  exists (MkQuorumOf2bs con I pkts bal opn v). split_and!; [|done|done].
  unfold IsValidQuorumOf2bs. rewrite Hcon. simpl. split_and!.
  - enough (size Q <= size I)%nat by (unfold LMinQuorumSize; lia).
    rewrite <- (size_set_map_inj_on (seq_index ids) I).
    + apply subseteq_size. intros h Hh. destruct (HQ h Hh) as [Hin _].
      destruct (elem_of_seq_get _ _ Hin) as [i Hi]. apply elem_of_map. exists i.
      rewrite HI, (seq_index_get _ _ _ Hi). split_and!; try done; by eapply seq_get_Some_range.
    + intros i j [_ Hi]%HI [_ Hj]%HI. by apply rsl_ids_inj.
  - unfold seq_len. by rewrite (Forall2_length _ _ _ Hpk).
  - intros i [Hi Hr]%HI. split; [done|]. pose proof (seq_get_index ids i Hr) as Hg.
    unfold seq_get in Hg. rewrite decide_True in Hg by lia.
    destruct (Forall2_lookup_l _ _ _ _ _ Hpk Hg) as (p & Hp & Hq).
    destruct (Hq Hi) as (Hs & Hm & HS). exists p. unfold seq_get. rewrite !decide_True by lia.
    rewrite Hs. by split_and!.
Qed.

Lemma valid_sequence_decided qs :
  IsValidQuorumOf2bsSequence ps qs -> decided ids S (GetSequenceOfRequestBatches qs).
Proof.
  intros H k b Hk. rewrite GetSequence_fmap, list_lookup_fmap in Hk.
  destruct (qs !! k) as [q|] eqn:Hq; [|done]. simpl in Hk. injection Hk as <-.
  destruct (H (Z.of_nat k) q) as [He Hv]; [by rewrite seq_get_of_nat|].
  exists (q_bal q). rewrite <- He. by apply valid_quorum_chosen.
Qed.

Lemma decided_valid_sequence bs :
  decided ids S bs ->
  exists qs, IsValidQuorumOf2bsSequence ps qs /\ GetSequenceOfRequestBatches qs = bs.
Proof.
  induction bs as [|b bs IH] using rev_ind; intros Hd.
  - exists []. split; [|done]. intros opn q Hq%seq_get_elem_of. by apply not_elem_of_nil in Hq.
  - destruct IH as (qs & Hv & He).
    { intros k b' Hk. apply Hd. apply lookup_lt_Some in Hk as Hlt. by rewrite lookup_app_l. }
    destruct (Hd (length bs) b) as [bal Hc]; [by rewrite list_lookup_middle|].
    destruct (chosen_valid_quorum _ _ _ Hc) as (q & Hq & Ho & Hb).
    assert (length qs = length bs) as Hl by (by rewrite <- He, GetSequence_fmap, length_fmap).
    exists (qs ++ [q]). split.
    + intros opn q' Hq'. destruct (decide (opn = seq_len qs)) as [->|Hne].
      * unfold seq_len in Hq'. rewrite seq_get_of_nat, list_lookup_middle in Hq' by done.
        injection Hq' as <-. split; [|done]. rewrite Ho. unfold seq_len. lia.
      * apply Hv. pose proof (seq_get_Some_range _ _ _ Hq') as Hr.
        unfold seq_len in *. rewrite length_app in Hr. simpl in Hr.
        unfold seq_get in *. case_decide; [|done]. by rewrite lookup_app_l in Hq' by lia.
    + by rewrite GetSequence_fmap, fmap_app, <- GetSequence_fmap, He, <- Hb.
Qed.

(** The source's longest sequences of quorums are the longest decided logs. *)
Lemma maximal_sequence_longest qs :
  IsMaximalQuorumOf2bsSequence ps qs -> longest_log ids S (GetSequenceOfRequestBatches qs).
Proof.
  intros [Hv Hmax]. split; [by apply valid_sequence_decided|].
  intros (bal & v & Hc). apply Hmax. destruct (chosen_valid_quorum _ _ _ Hc) as (q & Hq & Ho & _).
  exists q. split; [done|]. rewrite Ho, GetSequence_fmap. unfold seq_len. by rewrite length_fmap.
Qed.

Lemma longest_maximal_sequence bs :
  longest_log ids S bs ->
  exists qs, IsMaximalQuorumOf2bsSequence ps qs /\ GetSequenceOfRequestBatches qs = bs.
Proof.
  intros [Hd Hmax]. destruct (decided_valid_sequence bs Hd) as (qs & Hv & He).
  exists qs. split; [|done]. split; [done|]. intros (q & Hq & Ho). apply Hmax.
  exists (q_bal q), (q_v q). replace (seq_len bs) with (q_opn q); [by apply valid_quorum_chosen|].
  rewrite Ho, <- He, GetSequence_fmap. unfold seq_len. by rewrite length_fmap.
Qed.

Lemma relation_longest rs :
  SystemRefinementRelation ps rs
  <-> exists bs, longest_log ids S bs /\ rs = service_after (list_to_set ids) (concat bs).
Proof.
  unfold SystemRefinementRelation, GetServerAddresses. rewrite Hcon. split.
  - intros (qs & Hm & ->). exists (GetSequenceOfRequestBatches qs).
    split; [by apply maximal_sequence_longest|apply ProduceAbstractState_run].
  - intros (bs & Hl & ->). destruct (longest_maximal_sequence bs Hl) as (qs & Hm & <-).
    exists qs. split; [done|]. by rewrite ProduceAbstractState_run.
Qed.
End quorums.

(** ** The simulation *)

Section simulation.
Context (con : LConstants).

(** Any decided log is a prefix of the longest. *)
Lemma decided_longest ps bs bs2 :
  reachable con ps -> decided (rsl_ids con) (sent_of ps) bs ->
  longest_log (rsl_ids con) (sent_of ps) bs2 -> bs `prefix_of` bs2.
Proof.
  intros Hr Hd [Hd2 Hmax]. destruct (decide (length bs <= length bs2)%nat) as [Hle|Hgt].
  - by eapply decided_prefix.
  - destruct (lookup_lt_is_Some_2 bs (length bs2)) as [b Hb]; [lia|].
    destruct (Hd _ _ Hb) as [bal Hc]. destruct Hmax. by exists bal, b.
Qed.

Lemma decided_sent_mono ps ps_ bs :
  reachable con ps -> RslNext ps ps_ -> decided (rsl_ids con) (sent_of ps) bs ->
  decided (rsl_ids con) (sent_of ps_) bs.
Proof.
  intros Hr Hn. apply decided_mono. by eapply event_sent_subseteq, RslNext_event.
Qed.

Lemma relation_init ps rs :
  RslInit con ps -> SystemRefinementRelation ps rs -> RslSystemInit rs (list_to_set (rsl_ids con)).
Proof.
  intros Hi. destruct (reachable_constants con ps (reachable_init con ps Hi)) as (Hcon & Hwf & _).
  rewrite (relation_longest con ps Hcon Hwf). intros (bs & [Hd _] & ->).
  rewrite (RslInit_sent con ps Hi) in Hd. destruct bs as [|b bs]; [done|].
  destruct (Hd 0%nat b eq_refl) as [bal Hc]. destruct (chosen_2b _ _ _ _ _ Hc) as (p & Hp & _).
  by apply not_elem_of_empty in Hp.
Qed.

Lemma relation_exists ps : reachable con ps -> exists rs, SystemRefinementRelation ps rs.
Proof.
  intros Hr. destruct (reachable_constants con ps Hr) as (Hcon & Hwf & _).
  destruct (longest_log_extends (rsl_ids con) (sent_of ps) [] (decided_nil _ _)) as (bs & _ & Hl).
  exists (service_after (list_to_set (rsl_ids con)) (concat bs)).
  apply (relation_longest con); [done..|]. by exists bs.
Qed.

(** A step of the protocol is a step of the service. *)
Lemma relation_step ps ps_ rs rs_ :
  reachable con ps -> RslNext ps ps_ -> SystemRefinementRelation ps rs ->
  SystemRefinementRelation ps_ rs_ -> RslSystemNext rs rs_.
Proof.
  intros Hr Hn. pose proof (reachable_next con ps ps_ Hr Hn) as Hr_.
  destruct (reachable_constants con ps Hr) as (Hcon & Hwf & _).
  destruct (reachable_constants con ps_ Hr_) as (Hcon_ & _ & _).
  rewrite (relation_longest con ps Hcon Hwf), (relation_longest con ps_ Hcon_ Hwf).
  intros (bs & [Hd _] & ->) (bs2 & Hl2 & ->).
  destruct (decided_longest ps_ bs bs2 Hr_) as [l ->]; [by apply (decided_sent_mono ps ps_ bs)|done|].
  rewrite concat_app. apply service_after_app.
Qed.

(** The service has made every reply that was sent, and only ran requests that
    were. *)
Lemma relation_correct ps rs :
  reachable con ps -> SystemRefinementRelation ps rs -> RslSystemRefinement ps rs.
Proof.
  intros Hr. destruct (reachable_constants con ps Hr) as (Hcon & Hwf & _).
  rewrite (relation_longest con ps Hcon Hwf). intros (bs & Hl & ->).
  destruct (reachable_log con ps Hr) as (bs0 & Hd0 & _ & Hans).
  destruct (decided_longest ps bs0 bs Hr Hd0 Hl) as [l Hbs]. split.
  - intros p seqno reply Hp Hin Hm. simpl in *. apply elem_of_list_to_set in Hin.
    apply elem_of_list_to_set, answers_reply. rewrite Hbs. apply answers_app.
    by apply (Hans p Hp Hin).
  - intros r Hin. simpl in Hin. apply elem_of_list_to_set in Hin.
    apply list_elem_of_In, in_concat in Hin as (b & Hb & Hrb).
    destruct (decided_issued con ps Hr bs b r) as (p & Hp & Hdst & Hsrc & Hm);
      [apply Hl|by apply list_elem_of_In|by apply list_elem_of_In|].
    exists p, (req_seqno r), (req_request r). split_and!; [done| |done|].
    + simpl. by apply elem_of_list_to_set.
    + rewrite Hsrc. by destruct r.
Qed.
End simulation.
