(* ===== verification/ReplicaInvariants.v ===== *)
(** * Local invariants of a replica

    What a replica's own steps never undo, and the bound on its log:
    the view (election.rs), the promise, the truncation point and the number
    of executed operations only grow, and the acceptor's votes stay within
    [max_log_length] operations of the truncation point (acceptor.rs). *)

From stdpp Require Import prelude gmap sets list numbers fin_sets.
From Stdlib Require Import ZArith Lia.
From S2P Require Import Prelude.
From S2P Require Import Types.
From S2P Require Import Common.
From S2P Require Import Acceptor.
From S2P Require Import Election.
From S2P Require Import Learner.
From S2P Require Import Executor.
From S2P Require Import Proposer.
From S2P Require Import Environment.
From S2P Require Import Replica.
From S2P Require Import ReplicaSteps.
From S2P Require Import DistributedSystem.
From S2P Require Import Agreement.

#[local] Open Scope Z_scope.

(** ** Monotonicity *)

Section views.
Implicit Types (es : ElectionState) (q : LProposer).

Lemma ProcessHeartbeat_view es es_ p clock :
  ElectionStateProcessHeartbeat es es_ p clock -> BalLeq (current_view es) (current_view es_).
Proof.
  unfold ElectionStateProcessHeartbeat. repeat case_decide; intros ->; auto with rsl.
Qed.

Lemma CheckForViewTimeout_view es es_ clock :
  ElectionStateCheckForViewTimeout es es_ clock -> BalLeq (current_view es) (current_view es_).
Proof. unfold ElectionStateCheckForViewTimeout. repeat case_decide; intros ->; auto with rsl. Qed.

Lemma CheckForQuorum_view es es_ clock :
  ElectionStateCheckForQuorumOfViewSuspicions es es_ clock ->
  BalLeq (current_view es) (current_view es_).
Proof.
  unfold ElectionStateCheckForQuorumOfViewSuspicions. case_decide; intros ->; auto with rsl.
  apply BalLt_BalLeq, ComputeSuccessorView_BalLt.
Qed.

Lemma ReflectReceived_view es es_ req :
  ElectionStateReflectReceivedRequest es es_ req -> current_view es_ = current_view es.
Proof. unfold ElectionStateReflectReceivedRequest. case_decide; by intros ->. Qed.

(** Opens a proposer step down to its election step. *)
Lemma LProposerMaybeNominate_view q q_ clock ltp sent :
  LProposerMaybeNominateValueAndSend2a q q_ clock ltp sent ->
  election_state q_ = election_state q.
Proof.
  intros [(_ & t & ->)|[(_ & _ & (p & _ & _ & -> & _))|(_ & _ & [-> _])]]%LProposerMaybeNominate_inv;
    done.
Qed.

Lemma LProposerProcessRequest_view q q_ p :
  LProposerProcessRequest q q_ p ->
  current_view (election_state q_) = current_view (election_state q).
Proof. by intros [?%ReflectReceived_view _]. Qed.

Lemma LProposerResetViewTimer_view q q_ v :
  LProposerResetViewTimerDueToExecution q q_ v ->
  current_view (election_state q_) = current_view (election_state q).
Proof. by intros [-> _]. Qed.

Lemma LProposerMaybeEnterNewView_view q q_ sent :
  LProposerMaybeEnterNewViewAndSend1a q q_ sent -> election_state q_ = election_state q.
Proof. unfold LProposerMaybeEnterNewViewAndSend1a. case_decide; by intros [-> _]. Qed.

Lemma LProposerMaybeEnterPhase2_view q q_ ltp sent :
  LProposerMaybeEnterPhase2 q q_ ltp sent -> election_state q_ = election_state q.
Proof. unfold LProposerMaybeEnterPhase2. case_decide; by intros [-> _]. Qed.
End views.

Lemma LReplicaStep_view s s_ recv sent :
  LReplicaStep s s_ recv sent ->
  BalLeq (current_view (election_state (proposer s))) (current_view (election_state (proposer s_))).
Proof.
  intros Hstep. step_cases Hstep; [apply BalLeq_refl|..].
  all: open_step H.
  all: repeat match goal with
    | A : LProposerProcessRequest _ _ _ |- _ => apply LProposerProcessRequest_view in A
    | A : LProposerResetViewTimerDueToExecution _ _ _ |- _ => apply LProposerResetViewTimer_view in A
    | A : LProposerMaybeEnterNewViewAndSend1a _ _ _ |- _ =>
        apply LProposerMaybeEnterNewView_view in A
    | A : LProposerMaybeEnterPhase2 _ _ _ _ |- _ => apply LProposerMaybeEnterPhase2_view in A
    | A : LProposerMaybeNominateValueAndSend2a _ _ _ _ _ |- _ =>
        apply LProposerMaybeNominate_view in A
    end.
  all: first
    [ match goal with A : LProposerProcessHeartbeat _ _ _ _ |- _ => destruct A as [A _] end;
      by eapply ProcessHeartbeat_view
    | match goal with A : LProposerCheckForViewTimeout _ _ _ |- _ => destruct A as [A _] end;
      by eapply CheckForViewTimeout_view
    | match goal with A : LProposerCheckForQuorumOfViewSuspicions _ _ _ |- _ => destruct A as [A _] end;
      by eapply CheckForQuorum_view
    | match goal with A : LProposerProcess1b _ _ _ |- _ => rewrite A end; apply BalLeq_refl
    | match goal with A : _ = current_view (election_state (proposer _)) |- _ => rewrite A end;
      apply BalLeq_refl
    | match goal with A : _ = election_state (proposer _) |- _ => rewrite A end; apply BalLeq_refl
    | match goal with E : @eq LReplica _ _ |- _ => rewrite E end; apply BalLeq_refl ].
Qed.

(** The promise and the truncation point grow. *)
Lemma LReplicaStep_promise s s_ recv sent :
  LReplicaStep s s_ recv sent ->
  BalLeq (acc_max_bal (acceptor s)) (acc_max_bal (acceptor s_))
  /\ acc_log_truncation_point (acceptor s) <= acc_log_truncation_point (acceptor s_).
Proof.
  intros Hstep. destruct (LReplicaStep_acceptor _ _ _ _ Hstep)
    as [(-> & ? & _) _|p bal _ _ H|p bal opn v _ Hm _ Hle H].
  - split; [apply BalLeq_refl|done].
  - unfold LAcceptorProcess1a in H. case_decide as Hg.
    + destruct H as [_ ->]. split; [apply BalLt_BalLeq, Hg|done].
    + destruct H as [-> _]. split; [apply BalLeq_refl|done].
  - destruct (LAcceptorProcess2a_log _ _ _ _ _ _ _ H Hm) as (-> & ? & _). done.
Qed.

Lemma LReplicaStep_ops_complete s s_ recv sent :
  LReplicaStep s s_ recv sent -> ops_complete (executor s) <= ops_complete (executor s_).
Proof.
  intros Hstep. destruct (LReplicaStep_executor _ _ _ _ Hstep)
    as [-> _|p -> _ _ _|p -> _|_ -> _|_ (_ & _ & -> & _)|p bal opn st cache _ Hm _ Hgt -> _];
    try done; [lia|]. simpl. rewrite Hm. simpl. lia.
Qed.

(** ** The log window *)

Definition log_window (mll : Z) (a : LAcceptor) : Prop :=
  forall opn, is_Some (acc_votes a !! opn) ->
    acc_log_truncation_point a <= opn < acc_log_truncation_point a + mll.

Section log_window.
Context (mll : Z) (Hmll : 0 < mll).
Implicit Types (a : LAcceptor).

Lemma log_window_truncate a a_ opn :
  LAcceptorTruncateLog a a_ opn -> log_window mll a -> log_window mll a_.
Proof.
  unfold LAcceptorTruncateLog. case_decide; [by intros ->|]. intros [-> Hv] Hw o. simpl in *.
  rewrite (RemoveVotes_lookup _ _ _ _ Hv). case_decide; [|by intros [? ?]].
  intros Ho%Hw. lia.
Qed.

Lemma log_window_heartbeat a a_ p :
  LAcceptorProcessHeartbeat a a_ p -> log_window mll a -> log_window mll a_.
Proof.
  unfold LAcceptorProcessHeartbeat. repeat case_decide; intros Hrel; break_ands; subst; try done.
  intros Hw o. by replace (acc_votes a_) with (acc_votes a);
    replace (acc_log_truncation_point a_) with (acc_log_truncation_point a); apply Hw.
Qed.

Lemma log_window_1a a a_ p sent :
  LAcceptorProcess1a a a_ p sent -> log_window mll a -> log_window mll a_.
Proof. unfold LAcceptorProcess1a. case_decide; [by intros [_ ->]|by intros [-> _]]. Qed.

Lemma log_window_2a a a_ p sent :
  max_log_length (params_of (acc_constants a)) = mll ->
  LAcceptorProcess2a a a_ p sent -> log_window mll a -> log_window mll a_.
Proof.
  intros Hc (_ & _ & Hltp & Hv & _) Hw o. set (opn := msg_opn_2a (msg p)) in *.
  assert (newLogTruncationPoint a opn >= acc_log_truncation_point a
          /\ newLogTruncationPoint a opn > opn - mll
          /\ (opn < acc_log_truncation_point a ->
              newLogTruncationPoint a opn = acc_log_truncation_point a)) as (H1 & H2 & H3).
  { clear -Hc Hmll. unfold newLogTruncationPoint. rewrite Hc. case_decide; lia. }
  rewrite Hltp. case_decide.
  - rewrite (LAddVote_lookup _ _ _ _ _ _ Hv), CAddVote_lookup.
    repeat case_decide; intros Hs; [lia|..]; try (by destruct Hs).
    specialize (Hw o Hs). lia.
  - rewrite Hv, H3 by lia. apply Hw.
Qed.
End log_window.

Lemma LReplicaStep_log_window s s_ recv sent mll :
  0 < mll -> max_log_length (params_of (acc_constants (acceptor s))) = mll ->
  LReplicaStep s s_ recv sent -> log_window mll (acceptor s) -> log_window mll (acceptor s_).
Proof.
  intros Hmll Hc Hstep Hw. step_cases Hstep; [done|..].
  all: open_step H.
  all: first
    [ by eapply log_window_truncate
    | by eapply log_window_heartbeat
    | by eapply log_window_1a
    | by eapply log_window_2a
    | match goal with E : @eq LReplica _ _ |- _ => rewrite E end; done ].
Qed.

Lemma reachable_params con ps : reachable con ps -> WFLParameters (params con).
Proof. induction 1 as [ps (_ & ? & _)|]; done. Qed.

Lemma reachable_log_window con ps idx s :
  reachable con ps -> seq_get (replicas ps) idx = Some s ->
  log_window (max_log_length (params con)) (acceptor (replica s)).
Proof.
  intros Hr. pose proof (reachable_params con ps Hr) as [Hmll _]. revert Hr.
  apply (replica_invariant con (fun _ r _ => log_window (max_log_length (params con)) (acceptor r))).
  - intros i r _ (_ & _ & _ & (_ & _ & Hv & _) & _) opn. rewrite Hv, lookup_empty. by intros [? ?].
  - intros ps1 ps2 i r r_ recv sent _ _ _ Hget (_ & _ & Hc & _) Hstep _ _ _ IH.
    eapply LReplicaStep_log_window; [lia|by rewrite Hc|done|by eapply IH].
  - done.
Qed.

(** A window of [mll] operations holds at most [mll] votes. *)
Lemma log_window_size mll a :
  0 <= mll -> log_window mll a -> Z.of_nat (size (acc_votes a)) <= mll.
Proof.
  intros Hmll Hw.
  assert (dom (acc_votes a) ⊆ (list_to_set (seqZ (acc_log_truncation_point a) mll) : gset Z)) as Hsub.
  { intros o Ho%elem_of_dom%Hw. apply elem_of_list_to_set, elem_of_seqZ. lia. }
  apply subseteq_size in Hsub. rewrite size_dom in Hsub.
  pose proof (size_list_to_set_le (seqZ (acc_log_truncation_point a) mll)) as H.
  rewrite length_seqZ in H. lia.
Qed.
