(* ===== verification/ImplSystem.v ===== *)
(** * The system of running replicas

    Hosts that run [Replica_Next_main] (replicaimpl_main.rs) over a network
    that may lose, duplicate and reorder packets, and whose sends may fail.
    Every behaviour of this system is one of RslNext (distributed_system.rs),
    where a packet that a host failed to send is one that is never delivered:
    [lossy_step] are the system's steps with a record of such packets, and
    [represents] relates its states to the protocol's.
    [run] executes a schedule, so concrete behaviours can be computed. *)

From stdpp Require Import prelude gmap sets list numbers fin_sets.
From Stdlib Require Import ZArith Lia.
From S2P Require Import Prelude.
From S2P Require Import Types.
From S2P Require Import Common.
From S2P Require Import Environment.
From S2P Require Import Election.
From S2P Require Import Proposer.
From S2P Require Import Replica.
From S2P Require Import ReplicaSteps.
From S2P Require Import ReplicaImpl.
From S2P Require Import DistributedSystem.

#[local] Open Scope Z_scope.

Record ImplState := MkImplState
  { is_hosts : list ReplicaImpl; is_sent : gset RslPacket }.

(** The constants of host [idx], the hosts' initial states. *)
Definition host_constants (c : CConstants) (idx : Z) : CReplicaConstants :=
  MkCReplicaConstants idx c.

Definition impl_init (c : CConstants) : ImplState :=
  {| is_hosts := (fun i => Replica_Init (host_constants c (Z.of_nat i)))
                 <$> seq 0 (length (c_replica_ids (c_config c)));
     is_sent := ∅ |}.

Definition sent_by (ios : list RslIo) : gset RslPacket := list_to_set (omap io_sent ios).

(** A host takes a successful step on a packet that was sent, or someone who is
    not a replica sends a well-formed packet.  A step that fails changes
    nothing and ends its host's loop. *)
Inductive impl_step (c : CConstants) (st : ImplState) : ImplState -> Prop :=
  | impl_step_host idx r netc r' ios :
      seq_get (is_hosts st) idx = Some r ->
      is_u64 (net_time netc) ->
      (forall p, delivered r netc = Some p -> p ∈ is_sent st) ->
      Replica_Next_main r netc = (r', true, ios) ->
      impl_step c st (MkImplState (seq_update (is_hosts st) idx r') (is_sent st ∪ sent_by ios))
  | impl_step_external p :
      valid p -> src p ∉ c_replica_ids (c_config c) ->
      impl_step c st (MkImplState (is_hosts st) (is_sent st ∪ {[p]})).

Inductive impl_reachable (c : CConstants) : ImplState -> Prop :=
  | impl_reachable_init : impl_reachable c (impl_init c)
  | impl_reachable_step st st' :
      impl_reachable c st -> impl_step c st st' -> impl_reachable c st'.

(** The same steps, with the packets that hosts failed to send so far: those that
    an iteration would also have sent, had no send failed. *)
Inductive lossy_step (c : CConstants) : ImplState * gset RslPacket -> ImplState * gset RslPacket -> Prop :=
  | lossy_step_host st lost idx r netc r' ios unsent :
      seq_get (is_hosts st) idx = Some r ->
      is_u64 (net_time netc) ->
      (forall p, delivered r netc = Some p -> p ∈ is_sent st) ->
      Replica_Next_main r netc = (r', true, ios) ->
      Replica_Next_main r (reliable netc) = (r', true, ios ++ unsent) ->
      lossy_step c (st, lost)
        (MkImplState (seq_update (is_hosts st) idx r') (is_sent st ∪ sent_by ios), lost ∪ sent_by unsent)
  | lossy_step_external st lost p :
      valid p -> src p ∉ c_replica_ids (c_config c) ->
      lossy_step c (st, lost) (MkImplState (is_hosts st) (is_sent st ∪ {[p]}), lost).

(** Every step is such a step. *)
Lemma impl_step_lossy c st st' lost :
  impl_step c st st' -> exists lost', lossy_step c (st, lost) (st', lost').
Proof.
  intros [idx r netc r' ios Hr Ht Hd Hn|p Hp Hsrc]; [|eexists; by apply lossy_step_external].
  pose proof (Replica_Next_main_reliable r netc) as H. rewrite Hn in H.
  destruct (Replica_Next_main r (reliable netc)) as [x ios_] eqn:Hn'. destruct H as [Hx [unsent Hu]]. cbn in Hx, Hu. subst.
  eexists. by eapply lossy_step_host.
Qed.

(** ** The implementation's invariant *)

Definition impl_inv (c : CConstants) (st : ImplState) : Prop :=
  seq_len (is_hosts st) = seq_len (c_replica_ids (c_config c))
  /\ (forall idx r, seq_get (is_hosts st) idx = Some r ->
        impl_ok r /\ c_constants (ri_replica r) = host_constants c idx
        /\ localAddr r = seq_index (c_replica_ids (c_config c)) idx)
  /\ (forall p, p ∈ is_sent st -> valid p).

Section impl_system.
Context (c : CConstants) (Hc : valid c).
Implicit Types (st : ImplState).

Lemma host_constants_valid idx :
  0 <= idx < seq_len (c_replica_ids (c_config c)) -> valid (host_constants c idx).
Proof. by split. Qed.

Lemma impl_init_host idx r :
  seq_get (is_hosts (impl_init c)) idx = Some r ->
  0 <= idx < seq_len (c_replica_ids (c_config c)) /\ r = Replica_Init (host_constants c idx).
Proof.
  simpl. intros H. pose proof (seq_get_Some_range _ _ _ H) as Hr.
  rewrite seq_len_fmap in Hr. unfold seq_len in *. rewrite length_seq in Hr.
  split; [lia|]. rewrite seq_get_fmap in H. unfold seq_get in H. rewrite decide_True in H by lia.
  rewrite lookup_seq_lt in H by lia. simpl in H. simplify_eq. do 2 f_equal. lia.
Qed.

Lemma impl_init_inv : impl_inv c (impl_init c).
Proof.
  split_and!; simpl.
  - rewrite seq_len_fmap. unfold seq_len. by rewrite length_seq.
  - intros idx r [Hr ->]%impl_init_host.
    by destruct (Replica_Init_ok _ (host_constants_valid idx Hr)) as (? & _ & _).
  - set_solver.
Qed.

Lemma delivered_net_ok st r netc :
  impl_inv c st -> is_u64 (net_time netc) ->
  (forall p, delivered r netc = Some p -> p ∈ is_sent st) -> net_ok netc.
Proof.
  intros (_ & _ & Hv) Ht Hd. split; [done|]. unfold delivered in Hd.
  destruct (net_receive netc) as [| |sender m]; try done.
  specialize (Hv _ (Hd _ eq_refl)). by destruct Hv as (_ & ? & ?).
Qed.

Lemma sent_by_elem ios p : p ∈ sent_by ios <-> Send p ∈ ios.
Proof. unfold sent_by. by rewrite elem_of_list_to_set, io_sent_elem. Qed.

Lemma sent_by_prefix (ios ios_ : list RslIo) p :
  ios `prefix_of` ios_ -> Send p ∈ ios -> Send p ∈ ios_.
Proof. intros [l ->] ?. apply elem_of_app. by left. Qed.

Lemma sent_by_mono ios ios_ : ios `prefix_of` ios_ -> sent_by ios ⊆ sent_by ios_.
Proof. intros H p. rewrite !sent_by_elem. by apply sent_by_prefix. Qed.

Lemma impl_step_inv st st' : impl_inv c st -> impl_step c st st' -> impl_inv c st'.
Proof.
  intros Hinv Hstep. pose proof Hinv as (Hlen & Hhosts & Hsent).
  destruct Hstep as [idx r netc r' ios Hr Ht Hd Hnext|p Hp Hsrc].
  - destruct (Hhosts _ _ Hr) as (Hok & Hcon & Hloc).
    pose proof (Replica_Next_main_step r netc Hok (delivered_net_ok st r netc Hinv Ht Hd)) as H.
    rewrite Hnext in H.
    inversion H as [r1 ios1 ios_ Hok' Hloc' Hcon' _ (_ & _ & _ & Hval) Hpre _ Heq|]; subst r1 ios1.
    split_and!; simpl.
    + by rewrite seq_update_len.
    + intros i ri Hri. destruct (decide (idx = i)) as [<-|Hne].
      * rewrite seq_get_update_eq in Hri by (by eapply seq_get_Some_range). simplify_eq.
        split_and!; [done|congruence|congruence].
      * rewrite seq_get_update_ne in Hri by done. by apply Hhosts.
    + intros p [?|Hp]%elem_of_union; [by apply Hsent|]. by eapply Hval, sent_by_prefix, sent_by_elem.
  - split_and!; simpl; [done|done|].
    intros q [?|Hq%elem_of_singleton]%elem_of_union; [by apply Hsent|by subst].
Qed.

Lemma impl_reachable_inv st : impl_reachable c st -> impl_inv c st.
Proof. induction 1; [apply impl_init_inv|by eapply impl_step_inv]. Qed.

(** ** Simulation by RslNext *)

(** [ps] has the hosts' abstractions for replicas and every packet of [st]; a
    packet of [ps] from outside the cluster is one of [st].  What else [ps] has
    are packets from hosts' addresses; [represents] says which. *)
Definition impl_sim st (ps : RslState) : Prop :=
  replicas ps = view <$> is_hosts st /\ is_sent st ⊆ sent_of ps /\ rsl_constants ps = view c
  /\ (forall p, p ∈ sent_of ps -> src p ∉ c_replica_ids (c_config c) -> p ∈ is_sent st).

Definition with_nextStep (ps : RslState) (a : LEnvStep AbstractEndPoint RslMessage) : RslState :=
  MkRslState (rsl_constants ps)
    (MkLEnvironment (time (environment ps)) (sentPackets (environment ps))
       (hostInfo (environment ps)) a)
    (replicas ps) (clients ps).

(** The next step is not constrained until it is taken. *)
Lemma RslNext_nextStep ps0 ps1 a : RslNext ps0 ps1 -> RslNext ps0 (with_nextStep ps1 a).
Proof.
  assert (forall e, RslNextCommon ps0 ps1 ->
            e = with_nextStep ps1 a -> RslNextCommon ps0 e) as Hcommon.
  { intros e (? & ? & Hv & Hio) ->. split; [done|split; [done|split; [done|]]].
    by destruct (nextStep (environment ps0)). }
  intros [(idx & ios & Hcm & H)|[(eid & ios & Hcm & H)|(Hcm & H)]].
  - left. exists idx, ios. split; [by eapply Hcommon|exact H].
  - right; left. exists eid, ios. split; [by eapply Hcommon|exact H].
  - right; right. split; [by eapply Hcommon|exact H].
Qed.

Lemma reachable_nextStep con ps a : reachable con ps -> reachable con (with_nextStep ps a).
Proof.
  intros [ps0 H|ps0 ps1 Hr Hnext]; [by constructor|].
  eapply reachable_next; [exact Hr|]. by apply RslNext_nextStep.
Qed.

(** Choosing the next steps of a behaviour. *)
Lemma behavior_nextSteps con b :
  behavior (RslInit con) (fun ps ps_ => exists a, RslNext (with_nextStep ps a) ps_) b ->
  forall a, exists pb, behavior (RslInit con) RslNext pb /\ Forall2 (fun ps ps_ => exists a, ps_ = with_nextStep ps a) b pb
    /\ last pb = (fun ps => with_nextStep ps a) <$> last b.
Proof.
  induction b as [|ps b IH] using rev_ind; intros Hb a.
  { destruct Hb as [(? & ? & _) _]. done. }
  rewrite last_snoc. destruct (decide (b = [])) as [->|Hne].
  - exists [with_nextStep ps a]. destruct Hb as [(ps0 & [= <-] & Hi) _].
    split; [|split; [constructor; [by exists a|done]|done]]. split; [by exists (with_nextStep ps a)|]. by intros [|i].
  - destruct (behavior_prefix _ _ b ps Hne Hb) as (ps0 & Hl & (a0 & Hn) & Hb').
    destruct (IH Hb' a0) as (pb & Hpb & HF & Hlast). rewrite Hl in Hlast. cbn in Hlast.
    exists (pb ++ [with_nextStep ps a]). split; [eapply behavior_snoc; [done|exact Hlast|by apply RslNext_nextStep]|].
    split; [apply Forall2_app; [done|constructor; [by exists a|done]]|by rewrite last_snoc].
Qed.

Lemma valid_WellFormed : WellFormedLConfiguration (view (c_config c)).
Proof.
  destruct Hc as ((Hnd & _ & Hlen) & _). apply ReplicasIsUnique_NoDup in Hnd.
  split_and!; simpl; [lia| |done]. intros i j x. by apply Hnd.
Qed.

Lemma valid_WFLParameters : WFLParameters (view (c_params c)).
Proof. destruct Hc as (_ & (? & ? & ? & ? & ? & ? & ? & ? & ?) & _). split_and!; simpl; lia. Qed.

(** The protocol state of the hosts' initial state. *)
Definition abs_init : RslState :=
  {| rsl_constants := view c;
     environment := MkLEnvironment 0 ∅ ∅ LEnvStepStutter;
     replicas := view <$> is_hosts (impl_init c);
     clients := [] |}.

Lemma abs_init_ok : RslInit (view c) abs_init.
Proof.
  split_and!; [apply valid_WellFormed|apply valid_WFLParameters|done|by split_all| |].
  - unfold RslMapsComplete. simpl. rewrite !seq_len_fmap. unfold seq_len. by rewrite length_seq.
  - intros i Hi. simpl in Hi.
    destruct (seq_get_range_Some (is_hosts (impl_init c)) i) as [r Hr].
    { simpl. rewrite seq_len_fmap. unfold seq_len in *. by rewrite length_seq. }
    exists (view r). unfold abs_init. cbn [replicas]. rewrite seq_get_fmap, Hr. split; [done|].
    apply impl_init_host in Hr as [_ ->].
    by destruct (Replica_Init_ok _ (host_constants_valid i Hi)) as (_ & ? & _).
Qed.

(** [ps] is the protocol state of hosts that have lost packets: its packets are
    those sent and those lost, and no others. *)
Definition represents (s : ImplState * gset RslPacket) (ps : RslState) : Prop :=
  rsl_constants ps = view c /\ replicas ps = view <$> is_hosts s.1 /\ sent_of ps = is_sent s.1 ∪ s.2.

Lemma represents_init : represents (impl_init c, ∅) abs_init.
Proof. split_and!; [done..|]. cbn. set_solver. Qed.

Lemma represents_nextStep s ps a : represents s ps -> represents s (with_nextStep ps a).
Proof. done. Qed.

(** A packet sent or lost by a host's step has the host's address. *)
Lemma host_ios_src r netc (ios : list RslIo) p :
  host_ios r netc ios -> p ∈ sent_by ios -> src p = localAddr r.
Proof. intros (Hios & _) Hp%sent_by_elem. exact (Hios _ (MkLEnvironment 0 ∅ ∅ LEnvStepStutter) Hp). Qed.

(** One step of the hosts, taken by the protocol from any state that represents
    theirs and whose next step is the host's I/O; what is lost is a host's. *)
Lemma lossy_step_simulates s s' ps :
  impl_inv c s.1 -> represents s ps -> lossy_step c s s' ->
  (exists a ps_, RslNext (with_nextStep ps a) ps_ /\ represents s' ps_)
  /\ forall p, p ∈ s'.2 -> p ∈ s.2 \/ src p ∈ c_replica_ids (c_config c).
Proof.
  intros Hinv (Hcon & Hrep & Hsent) Hstep. pose proof Hinv as (Hlen & Hhosts & Hval).
  destruct Hstep as [st lost idx r netc r' ios unsent Hr Ht Hd _ Hnext|st lost p Hp Hsrc]; cbn in *.
  - destruct (Hhosts _ _ Hr) as (Hok & _ & Hloc).
    assert (net_ok (reliable netc)) as Hnet by exact (delivered_net_ok st r netc Hinv Ht Hd).
    pose proof (Replica_Next_main_step r (reliable netc) Hok Hnet) as H.
    rewrite Hnext in H.
    inversion H as [r1 ios1 ios_ _ _ _ Hsched Hhost _ Hall Heq|]; subst r1 ios1.
    rewrite <- (Hall (fun _ => eq_refl)) in Hsched, Hhost. clear Hall H.
    pose proof Hhost as (Hios & Hrecv & Hcompat & _).
    pose proof (seq_get_Some_range _ _ _ Hr) as Hidx.
    assert (sent_by (ios ++ unsent) = sent_by ios ∪ sent_by unsent) as Happ.
    { unfold sent_by. by rewrite omap_app, list_to_set_app_L. }
    split.
    2: { intros p [Hp|Hp]%elem_of_union; [by left|]. right.
      rewrite (host_ios_src r _ _ p Hhost), Hloc by (rewrite Happ; apply elem_of_union; by right).
      apply seq_index_elem_of. lia. }
    exists (LEnvStepHostIos (localAddr r) (ios ++ unsent)),
      (MkRslState (view c)
         (MkLEnvironment (time (environment ps)) (sent_of ps ∪ sent_by (ios ++ unsent))
            (hostInfo (environment ps)) LEnvStepStutter)
         (seq_update (replicas ps) idx (view r')) (clients ps)).
    assert (seq_len (replicas ps) = seq_len (rsl_ids (view c))) as Hlen'.
    { rewrite Hrep, seq_len_fmap. done. }
    split.
    + left. exists idx, (ios ++ unsent). split_and!.
      * split; [by unfold RslMapsComplete; cbn; rewrite Hcon|].
        split; [by split_and!; cbn; [apply seq_update_len|..]|].
        split; [split; [intros io Hio; by apply Hios|done]|].
        split_and!; cbn; [done| |done].
        intros io Hio. destruct io as [|q| |]; try done. simpl. rewrite Hsent. apply elem_of_union. left. by apply Hd, Hrecv.
      * lia.
      * cbn. rewrite Hcon, <- Hlen', Hrep, seq_len_fmap. lia.
      * exists (view r), (view r'). cbn. rewrite Hrep, seq_get_fmap, Hr, Hcon.
        split_and!; [done| |done|by rewrite Hloc|done].
        apply seq_get_update_eq. by rewrite seq_len_fmap.
    + split_and!; cbn; [done|rewrite Hrep; apply seq_update_fmap|]. rewrite Hsent, Happ. set_solver.
  - split; [|by left].
    exists (LEnvStepHostIos (src p) [Send p]),
      (MkRslState (view c)
         (MkLEnvironment (time (environment ps)) (sent_of ps ∪ {[p]})
            (hostInfo (environment ps)) LEnvStepStutter) (replicas ps) (clients ps)).
    split; [|split_and!; cbn; [done|done|rewrite Hsent; set_solver]].
    right; left. exists (src p), [Send p]. split_and!; try done.
    + split; [by unfold RslMapsComplete; cbn; rewrite Hrep, Hcon, seq_len_fmap|].
      split; [by split_and!|].
      split; [split; [by intros io ->%list_elem_of_singleton|by intros [|i] ? ?]|].
      split_and!; cbn; [clear; set_solver| |done]. by intros io ->%list_elem_of_singleton.
    + cbn. by rewrite Hcon.
Qed.

Lemma impl_reachable_simulated st :
  impl_reachable c st -> exists ps, reachable (view c) ps /\ impl_sim st ps.
Proof.
  intros Hst. assert (exists lost ps, reachable (view c) ps /\ represents (st, lost) ps
    /\ forall p, p ∈ lost -> src p ∈ c_replica_ids (c_config c)) as (lost & ps & Hps & (Hcon & Hrep & Hsent) & Hlost).
  { induction Hst as [|st st' Hr (lost & ps & Hps & Hrep & Hlost) Hstep].
    - exists ∅, abs_init. split; [by apply reachable_init, abs_init_ok|]. split; [apply represents_init|].
      by intros p ?%not_elem_of_empty.
    - destruct (impl_step_lossy c st st' lost Hstep) as [lost' Hl].
      destruct (lossy_step_simulates (st, lost) _ ps (impl_reachable_inv _ Hr) Hrep Hl) as [(a & ps_ & Hnext & Hrep') Hsrc].
      exists lost', ps_. split; [eapply reachable_next; [|exact Hnext]; by apply reachable_nextStep|].
      split; [done|]. intros p [Hp|Hp]%Hsrc; [by apply Hlost|done]. }
  exists ps. split; [done|]. split_and!; [done| |done|]; cbn in *; rewrite Hsent; [set_solver|].
  intros p [?|Hp%Hlost]%elem_of_union ?; done.
Qed.

(** Every reachable state ends a behaviour. *)
Lemma impl_reachable_behavior st :
  impl_reachable c st -> exists b, behavior (fun st => st = impl_init c) (impl_step c) b /\ last b = Some st.
Proof.
  induction 1 as [|st st' _ (b & Hb & Hl) Hs].
  - exists [impl_init c]. split; [|done]. split; [by exists (impl_init c)|]. by intros [|i].
  - exists (b ++ [st']). split; [by eapply behavior_snoc|by rewrite last_snoc].
Qed.

(** A behaviour of the hosts, with what they lost, and the protocol's. *)
Lemma impl_behavior_simulated b :
  behavior (fun st => st = impl_init c) (impl_step c) b ->
  exists lb pb, lb.*1 = b /\ behavior (fun s => s = (impl_init c, ∅)) (lossy_step c) lb
    /\ behavior (RslInit (view c)) RslNext pb /\ Forall2 represents lb pb.
Proof.
  intros Hb. destruct (behavior_simulation (fun st => st = impl_init c) (impl_step c)
      (fun s => s = (impl_init c, ∅)) (lossy_step c) (fun st s => s.1 = st) b)
    as (lb & Hlb & HF); [|..|done|].
  { intros st ->. by eexists. }
  { intros st st' [? lost] <- Hs. destruct (impl_step_lossy c _ _ lost Hs) as [lost' Hl]. by exists (st', lost'). }
  assert (lb.*1 = b) as Hfst.
  { clear -HF. induction HF as [|st s b lb <- _ IH]; [done|]. cbn. by rewrite IH. }
  destruct (behavior_simulation (fun s => s = (impl_init c, ∅)) (lossy_step c) (RslInit (view c))
    (fun ps ps_ => exists a, RslNext (with_nextStep ps a) ps_)
    (fun s ps => impl_inv c s.1 /\ represents s ps) lb) as (pb & Hpb & HR); [|..|done|].
  { intros s ->. exists abs_init. split; [apply abs_init_ok|]. split; [apply impl_init_inv|apply represents_init]. }
  { intros s s' ps [Hinv Hrep] Hs. destruct (lossy_step_simulates s s' ps Hinv Hrep Hs) as [(a & ps_ & Hn & Hrep') _].
    exists ps_. split; [by exists a|]. split; [|done].
    destruct Hs as [st lost idx r netc r' ios unsent|st lost p]; (eapply impl_step_inv; [exact Hinv|]);
      [by eapply impl_step_host|by apply impl_step_external]. }
  destruct (behavior_nextSteps _ pb Hpb LEnvStepStutter) as (pb' & Hpb' & HN & _).
  exists lb, pb'. split_and!; [done..|]. eapply Forall2_trans; [|exact HR|exact HN].
  by intros s ps ps_ [_ Hrep] [a ->].
Qed.

(** A host of [st] and its protocol replica. *)
Lemma impl_sim_host st ps idx r :
  impl_sim st ps -> seq_get (is_hosts st) idx = Some r ->
  seq_get (replicas ps) idx = Some (view r).
Proof. intros (-> & _) Hr. by rewrite seq_get_fmap, Hr. Qed.
End impl_system.

(** ** Executing a schedule *)

(** The packets sent once [ios] was performed; most steps send nothing. *)
Definition add_sent (S : gset RslPacket) (ios : list RslIo) : gset RslPacket :=
  match omap io_sent ios with [] => S | sent => S ∪ list_to_set sent end.

Lemma add_sent_eq S ios : add_sent S ios = S ∪ sent_by ios.
Proof. unfold add_sent, sent_by. destruct (omap io_sent ios); [set_solver|done]. Qed.

(** One host step, if the packet it is to receive was sent and it succeeds. *)
Definition exec_host (st : ImplState) (idx : Z) (netc : NetClient) : option ImplState :=
  r ← seq_get (is_hosts st) idx;
  if (0 <=? net_time netc) && (net_time netc <? U64_MODULUS)
     && match delivered r netc with Some p => bool_decide (p ∈ is_sent st) | None => true end
  then
    match Replica_Next_main r netc with
    | (r', true, ios) =>
        Some (MkImplState (seq_update (is_hosts st) idx r') (add_sent (is_sent st) ios))
    | _ => None
    end
  else None.

Fixpoint run (st : ImplState) (schedule : list (Z * NetClient)) : option ImplState :=
  match schedule with
  | [] => Some st
  | (idx, netc) :: rest => st' ← exec_host st idx netc; run st' rest
  end.

Lemma run_reachable c st schedule st' :
  impl_reachable c st -> run st schedule = Some st' -> impl_reachable c st'.
Proof.
  revert st. induction schedule as [|[idx netc] rest IH]; intros st Hst; simpl.
  { by intros [= <-]. }
  intros (st1 & H1 & H2)%bind_Some. apply (IH st1); [|done].
  unfold exec_host in H1. apply bind_Some in H1 as (r & Hr & H1).
  destruct (_ && _) eqn:Hg; [|done].
  rewrite !andb_true_iff, Z.leb_le, Z.ltb_lt in Hg. destruct Hg as [Ht Hd].
  destruct (Replica_Next_main r netc) as [[r' ok] ios] eqn:Hn. destruct ok; [|done].
  rewrite add_sent_eq in H1. injection H1 as <-. eapply impl_reachable_step; [exact Hst|].
  eapply impl_step_host; [exact Hr|exact Ht| |exact Hn].
  intros p Hp. rewrite Hp in Hd. by apply bool_decide_eq_true in Hd.
Qed.

(** A packet from outside. *)
Definition send_external (st : ImplState) (p : RslPacket) : ImplState :=
  MkImplState (is_hosts st) (is_sent st ∪ {[p]}).

Lemma send_external_reachable c st p :
  impl_reachable c st -> valid p -> bool_decide (src p ∈ c_replica_ids (c_config c)) = false ->
  impl_reachable c (send_external st p).
Proof.
  intros Hst Hp Hsrc%bool_decide_eq_false. eapply impl_reachable_step; [exact Hst|].
  by apply impl_step_external.
Qed.
