(* ===== verification/Scenario.v ===== *)
(** * A concrete behaviour

    Three replicas with [StaticParams] serve one client request: phase 1 and
    phase 2 at ballot (1, 0), a decision, and its execution at two replicas.
    The behaviour is computed by [run]; the theorems' examples use it. *)

From stdpp Require Import prelude gmap sets list numbers fin_sets.
From Stdlib Require Import ZArith Lia.
From S2P Require Import Prelude.
From S2P Require Import Types.
From S2P Require Import Common.
From S2P Require Import Executor.
From S2P Require Import Acceptor.
From S2P Require Import Election.
From S2P Require Import Learner.
From S2P Require Import Proposer.
From S2P Require Import Components.
From S2P Require Import Environment.
From S2P Require Import ReplicaImpl.
From S2P Require Import DistributedSystem.
From S2P Require Import Agreement.
From S2P Require Import ReplicatedLog.
From S2P Require Import ImplSystem.

#[local] Open Scope Z_scope.

Definition host (i : Z) : AbstractEndPoint := MkEndPoint [i].
Definition client : AbstractEndPoint := host 9.
Definition cfg : CConstants :=
  MkCConstants (MkCConfiguration [host 1; host 2; host 3]) StaticParams.

Definition packet (i j : Z) (m : RslMessage) : RslPacket := MkLPacket (host j) (host i) m.
Definition request : RslPacket := packet 9 1 (RslMessageRequest 1 AppIncrementRequest).
Definition batch : RequestBatch := [MkRequest client 1 AppIncrementRequest].
Definition bal0 : Ballot := MkBallot 1 0.

(** No send fails. *)
Definition all_sent : nat -> bool := fun _ => true.

(** A replica's turn: ten actions, the first receives [p]. *)
Definition turn (idx : Z) (p : RslPacket) : list (Z * NetClient) :=
  (idx, MkNetClient (Packet (src p) (msg p)) 5 all_sent)
  :: replicate 9 (idx, MkNetClient Timeout_ 5 all_sent).

Definition schedule : list (Z * NetClient) :=
  turn 0 request ++ turn 0 (packet 1 1 (RslMessage1a bal0))
  ++ turn 1 (packet 1 2 (RslMessage1a bal0))
  ++ turn 0 (packet 1 1 (RslMessage1b bal0 0 ∅)) ++ turn 0 (packet 2 1 (RslMessage1b bal0 0 ∅))
  ++ turn 0 (packet 1 1 (RslMessage2a bal0 0 batch))
  ++ turn 1 (packet 1 2 (RslMessage2a bal0 0 batch))
  ++ turn 0 (packet 1 1 (RslMessage2b bal0 0 batch))
  ++ turn 0 (packet 2 1 (RslMessage2b bal0 0 batch))
  ++ turn 1 (packet 1 2 (RslMessage2b bal0 0 batch))
  ++ turn 1 (packet 2 2 (RslMessage2b bal0 0 batch))
  (* host 3 counts the second 2b and stops before it decides *)
  ++ turn 2 (packet 1 3 (RslMessage2b bal0 0 batch))
  ++ [(2, MkNetClient (Packet (host 2) (RslMessage2b bal0 0 batch)) 5 all_sent)].

(** The client's request is sent first. *)
Definition scenario_start : ImplState := send_external (impl_init cfg) request.

Definition scenario : ImplState := default (impl_init cfg) (run scenario_start schedule).

Lemma cfg_valid : valid cfg.
Proof.
  split_all.
  - split_all; simpl; [by apply (bool_decide_unpack _); vm_compute| |vm_compute; done|vm_compute; done].
    repeat constructor; vm_compute; done.
  - apply StaticParams_valid.
  - done.
  - done.
  - done.
  - vm_compute; done.
  - done.
Qed.

Lemma request_valid : valid request.
Proof. split_all; simpl; repeat constructor; vm_compute; done. Qed.

(** The packets of the behaviour that the examples use. *)
Definition scenario_packets : list RslPacket :=
  [packet 1 1 (RslMessage2b bal0 0 batch); packet 2 1 (RslMessage2b bal0 0 batch);
   packet 1 9 (RslMessageReply 1 (AppIncrementReply 1))].

(** [run] succeeds and sends [ps]. *)
Definition runs_with (st : ImplState) (sched : list (Z * NetClient)) (ps : list RslPacket) : bool :=
  match run st sched with
  | Some st' => forallb (fun p => bool_decide (p ∈ is_sent st')) ps
  | None => false
  end.

Lemma runs_with_spec st d sched ps :
  runs_with st sched ps = true ->
  run st sched = Some (default d (run st sched))
  /\ forall p, p ∈ ps -> p ∈ is_sent (default d (run st sched)).
Proof.
  unfold runs_with. destruct (run st sched) as [st'|]; [|done]. rewrite forallb_forall.
  intros H. split; [done|]. intros p Hp%list_elem_of_In%H. by apply bool_decide_eq_true in Hp.
Qed.

Lemma scenario_computed : runs_with scenario_start schedule scenario_packets = true.
Proof. vm_compute. reflexivity. Qed.

Lemma scenario_runs : run scenario_start schedule = Some scenario.
Proof.
  exact (proj1 (runs_with_spec scenario_start (impl_init cfg) schedule _ scenario_computed)).
Qed.

Lemma scenario_reachable : impl_reachable cfg scenario.
Proof.
  eapply run_reachable; [|apply scenario_runs].
  apply send_external_reachable; [apply impl_reachable_init|apply request_valid|reflexivity].
Qed.

(** The protocol's state for the scenario. *)
Lemma scenario_protocol : exists ps, reachable (view cfg) ps /\ impl_sim cfg scenario ps.
Proof. apply impl_reachable_simulated; [apply cfg_valid|apply scenario_reachable]. Qed.

Lemma scenario_sent p : bool_decide (p ∈ scenario_packets) = true -> p ∈ is_sent scenario.
Proof.
  intros H%bool_decide_eq_true.
  exact (proj2 (runs_with_spec scenario_start (impl_init cfg) schedule _ scenario_computed) p H).
Qed.

Lemma scenario_accepted i :
  i = 1 \/ i = 2 -> accepted (is_sent scenario) (host i) bal0 0 batch.
Proof.
  intros [->| ->]; [exists (packet 1 1 (RslMessage2b bal0 0 batch))
                   |exists (packet 2 1 (RslMessage2b bal0 0 batch))];
    (split; [apply scenario_sent; vm_compute; reflexivity|done]).
Qed.

Lemma scenario_chosen :
  chosen (rsl_ids (view cfg)) (is_sent scenario) bal0 0 batch.
Proof.
  exists {[host 1; host 2]}. split; [vm_compute; done|].
  intros h [Hh%elem_of_singleton|Hh%elem_of_singleton]%elem_of_union; subst h.
  - split; [simpl; set_solver|]. apply scenario_accepted; auto.
  - split; [simpl; set_solver|]. apply scenario_accepted; auto.
Qed.

(** The hosts' progress: operations completed and application state. *)
Definition progress (st : ImplState) : list (Z * Z) :=
  (fun r => (c_ops_complete (c_executor (ri_replica r)), c_app (c_executor (ri_replica r))))
  <$> is_hosts st.

Example scenario_progress : progress scenario = [(1, 1); (1, 1); (0, 0)].
Proof. vm_compute. reflexivity. Qed.

(** ** Facts the examples share *)

Definition c0 : CReplicaConstants := host_constants cfg 0.

Lemma c0_valid : valid c0.
Proof. apply host_constants_valid; [apply cfg_valid|vm_compute; done]. Qed.

Lemma host_valid i : 0 <= i < 256 -> valid (host i).
Proof. intros Hi. split; [done|]. simpl. by apply Forall_singleton. Qed.

Lemma packet_valid i j m : 0 <= i < 256 -> 0 <= j < 256 -> valid m -> valid (packet i j m).
Proof. intros. split_all; simpl; [by apply host_valid..|done]. Qed.

Lemma batch_valid : valid batch.
Proof.
  apply Forall_singleton. split_all; simpl; [by apply host_valid|vm_compute; done..].
Qed.

Lemma bal0_valid : valid bal0.
Proof. vm_compute. done. Qed.

Lemma scenario_hosts i :
  0 <= i < 3 -> exists r, seq_get (is_hosts scenario) i = Some r.
Proof.
  intros Hi. apply seq_get_range_Some.
  destruct (impl_reachable_inv cfg cfg_valid _ scenario_reachable) as [-> _]. exact Hi.
Qed.

(** ** A view change

    After [scenario] two requests of another client stay unexecuted; both
    hosts' epochs end, they suspect the view, their heartbeats make a quorum,
    and host 2 leads ballot (1, 1): its phase 1 reports the chosen batch, which
    it proposes again. *)

Definition request2 : RslPacket := packet 8 1 (RslMessageRequest 1 AppIncrementRequest).
Definition request3 : RslPacket := packet 8 2 (RslMessageRequest 1 AppIncrementRequest).
Definition bal1 : Ballot := MkBallot 1 1.
Definition votes1 : Votes := {[ 0 := MkVote bal0 batch ]}.

Definition turn_at (t idx : Z) (p : RslPacket) : list (Z * NetClient) :=
  (idx, MkNetClient (Packet (src p) (msg p)) t all_sent)
  :: replicate 9 (idx, MkNetClient Timeout_ t all_sent).
Definition idle_at (t idx : Z) : list (Z * NetClient) :=
  replicate 10 (idx, MkNetClient Timeout_ t all_sent).

Definition view_change_schedule : list (Z * NetClient) :=
  turn_at 5 0 request2 ++ turn_at 5 1 request3
  ++ idle_at 2000 0 ++ idle_at 2000 1 ++ idle_at 4000 0 ++ idle_at 4000 1
  ++ turn_at 4000 0 (packet 2 1 (RslMessageHeartbeat bal0 true 1))
  ++ turn_at 4000 1 (packet 1 2 (RslMessageHeartbeat bal0 true 1))
  ++ idle_at 4000 1
  ++ turn_at 4000 0 (packet 2 1 (RslMessage1a bal1))
  ++ turn_at 4000 1 (packet 2 2 (RslMessage1a bal1))
  ++ turn_at 4000 1 (packet 1 2 (RslMessage1b bal1 0 votes1))
  ++ turn_at 4000 1 (packet 2 2 (RslMessage1b bal1 0 votes1)).

Definition view_change_start : ImplState :=
  send_external (send_external scenario request2) request3.

Definition view_change : ImplState :=
  default scenario (run view_change_start view_change_schedule).

Definition view_change_packets : list RslPacket :=
  [packet 1 1 (RslMessage2b bal0 0 batch); packet 2 1 (RslMessage2b bal0 0 batch);
   packet 1 2 (RslMessage1b bal1 0 votes1); packet 2 1 (RslMessage2a bal1 0 batch)].

Lemma view_change_computed :
  runs_with view_change_start view_change_schedule view_change_packets = true.
Proof. vm_compute. reflexivity. Qed.

Lemma view_change_runs : run view_change_start view_change_schedule = Some view_change.
Proof.
  exact (proj1 (runs_with_spec view_change_start scenario view_change_schedule _ view_change_computed)).
Qed.

Lemma view_change_reachable : impl_reachable cfg view_change.
Proof.
  eapply run_reachable; [|apply view_change_runs].
  apply send_external_reachable; [|apply packet_valid; done|reflexivity].
  apply send_external_reachable; [apply scenario_reachable|apply packet_valid; done|reflexivity].
Qed.

Lemma view_change_protocol : exists ps, reachable (view cfg) ps /\ impl_sim cfg view_change ps.
Proof. apply impl_reachable_simulated; [apply cfg_valid|apply view_change_reachable]. Qed.

Lemma view_change_sent p : bool_decide (p ∈ view_change_packets) = true -> p ∈ is_sent view_change.
Proof.
  intros H%bool_decide_eq_true.
  exact (proj2 (runs_with_spec view_change_start scenario view_change_schedule _ view_change_computed) p H).
Qed.

Lemma view_change_chosen : chosen (rsl_ids (view cfg)) (is_sent view_change) bal0 0 batch.
Proof.
  exists {[host 1; host 2]}. split; [vm_compute; done|].
  intros h [Hh%elem_of_singleton|Hh%elem_of_singleton]%elem_of_union; subst h;
    (split; [simpl; set_solver|]);
    [exists (packet 1 1 (RslMessage2b bal0 0 batch))|exists (packet 2 1 (RslMessage2b bal0 0 batch))];
    (split; [apply view_change_sent; vm_compute; reflexivity|done]).
Qed.

Lemma view_change_promised : promised (is_sent view_change) (host 1) bal1 0 votes1.
Proof.
  exists (packet 1 2 (RslMessage1b bal1 0 votes1)).
  split; [apply view_change_sent; vm_compute; reflexivity|done].
Qed.

Lemma view_change_proposed : proposed (rsl_ids (view cfg)) (is_sent view_change) bal1 0 batch.
Proof.
  exists (packet 2 1 (RslMessage2a bal1 0 batch)).
  split; [apply view_change_sent; vm_compute; reflexivity|]. split; [simpl; set_solver|done].
Qed.

(** Operations for the components' examples. *)
Definition acceptor_ops : list AcceptorOp :=
  [Acc1a (packet 1 1 (RslMessage1a bal0)) bal0;
   Acc2a (packet 1 1 (RslMessage2a bal0 0 batch)) bal0 0 batch;
   AccHeartbeat (packet 2 1 (RslMessageHeartbeat bal0 false 1)) bal0 false 1; AccTruncate 1].

Definition election_ops : list ElectionOp :=
  [ElReceived (MkRequest client 1 AppIncrementRequest); ElTimeout 5; ElTimeout 4000;
   ElHeartbeat (packet 2 1 (RslMessageHeartbeat bal0 true 0)) 4000 bal0 true 0; ElQuorum 4000;
   ElExecuted batch].

Definition learner_ops : list LearnerOp :=
  [Ln2b (packet 1 1 (RslMessage2b bal0 0 batch)) bal0 0 batch;
   Ln2b (packet 2 1 (RslMessage2b bal0 0 batch)) bal0 0 batch; LnForgetDecision 0; LnForgetBefore 1].

Definition executor_ops : list ExecutorOp :=
  [ExDecision bal0 0 batch; ExExecute; ExRequest request 1 AppIncrementRequest;
   ExStateRequest (packet 2 1 (RslMessageAppStateRequest bal0 1)) bal0 1].

Definition proposer_ops : list ProposerOp :=
  [PrRequest request 1 AppIncrementRequest; PrNewView;
   Pr1b (packet 1 1 (RslMessage1b bal0 0 ∅)); Pr1b (packet 2 1 (RslMessage1b bal0 0 ∅));
   PrPhase2 0; PrNominate 5 0; PrExecuted batch].

Lemma m2a_valid : valid (RslMessage2a bal0 0 batch).
Proof. split; [apply bal0_valid|split; [done|apply batch_valid]]. Qed.
Lemma m2b_valid : valid (RslMessage2b bal0 0 batch).
Proof. split; [apply bal0_valid|split; [done|apply batch_valid]]. Qed.
Lemma m1b_valid : valid (RslMessage1b bal0 0 ∅).
Proof.
  split; [apply bal0_valid|split; [done|]]. intros k v. by rewrite lookup_empty.
Qed.

Lemma acceptor_ops_pre : run_pre acceptor_ops (comp_init (C := CAcceptor) c0).
Proof.
  cbn [acceptor_ops run_pre comp_pre acceptor_component].
  split_and!; try done; apply packet_valid; try done. apply m2a_valid.
Qed.

Lemma election_ops_pre : run_pre election_ops (comp_init (C := CElectionState) c0).
Proof.
  cbn [election_ops run_pre comp_pre election_component].
  split_and!; try done; [|by apply packet_valid]. split_all; try done. by apply host_valid.
Qed.

Lemma learner_ops_pre : run_pre learner_ops (comp_init (C := CLearner) c0).
Proof.
  cbn [learner_ops run_pre comp_pre learner_component].
  split_and!; try done; apply packet_valid; try done; apply m2b_valid.
Qed.

Lemma executor_ops_pre : run_pre executor_ops (comp_init (C := CExecutor) c0).
Proof.
  cbn [executor_ops run_pre comp_pre executor_component].
  split_and!; try done; [apply batch_valid|by apply packet_valid].
Qed.

Lemma proposer_ops_pre : run_pre proposer_ops (comp_init (C := CProposer) c0).
Proof.
  cbn [proposer_ops run_pre comp_pre proposer_component].
  split_and!; try done; [apply request_valid| |]; apply packet_valid; try done; apply m1b_valid.
Qed.
