(* ===== verification/Properties.v ===== *)
(** * The theorems

    The properties of the program, most important first, each with an example
    at a concrete input: safety of the replicated state machine, refinement of
    the protocol by the implementation, the components, bounds and errors. *)

From stdpp Require Import prelude gmap sets list numbers fin_sets.
From Stdlib Require Import ZArith Lia.
From S2P Require Import Prelude.
From S2P Require Import Types.
From S2P Require Import Common.
From S2P Require Import Acceptor.
From S2P Require Import Election.
From S2P Require Import Learner.
From S2P Require Import Executor.
From S2P Require Import Proposer.
From S2P Require Import Components.
From S2P Require Import Environment.
From S2P Require Import Replica.
From S2P Require Import ReplicaSteps.
From S2P Require Import ReplicaImpl.
From S2P Require Import DistributedSystem.
From S2P Require Import Agreement.
From S2P Require Import ReplicatedLog.
From S2P Require Import ReplicaInvariants.
From S2P Require Import ImplSystem.
From S2P Require Import Scenario.

#[local] Open Scope Z_scope.

(** ** Safety of the protocol *)

(** C1: agreement. In every reachable state of the distributed system, the
    batches that quorums of replicas accepted for one operation number, at
    whatever ballots, are one batch. *)
Theorem chosen_unique (con : LConstants) (ps : RslState) bal bal' opn v v' :
  reachable con ps ->
  chosen (rsl_ids con) (sent_of ps) bal opn v -> chosen (rsl_ids con) (sent_of ps) bal' opn v' ->
  v = v'.
Proof. intros Hr H H'. exact (chosen_same con ps Hr _ _ _ _ _ H H'). Qed.

Lemma chosen_unique_witness :
  exists ps, reachable (view cfg) ps /\ chosen (rsl_ids (view cfg)) (sent_of ps) bal0 0 batch
    /\ forall bal v, chosen (rsl_ids (view cfg)) (sent_of ps) bal 0 v -> v = batch.
Proof.
  destruct scenario_protocol as (ps & Hps & Hsim). exists ps.
  assert (chosen (rsl_ids (view cfg)) (sent_of ps) bal0 0 batch) as Hch.
  { destruct Hsim as (_ & Hsent & _). exact (chosen_mono _ _ _ _ _ _ Hsent scenario_chosen). }
  split; [exact Hps|split; [exact Hch|]]. intros bal v Hv.
  exact (chosen_unique (view cfg) ps bal bal0 0 v batch Hps Hv Hch).
Defined.

(** C2: one log. In every reachable state there is a log of chosen batches such
    that every replica's application state is the run of the log's first
    [ops_complete] batches, and every reply a replica sent is the
    application's answer to a request of the log, in the state its predecessors
    in the log leave. *)
Theorem replicas_share_one_log (con : LConstants) (ps : RslState) :
  reachable con ps ->
  exists bs, decided (rsl_ids con) (sent_of ps) bs
    /\ (forall s, s ∈ replicas ps -> executes_log s bs)
    /\ (forall p, p ∈ sent_of ps -> reply_from_log con p bs).
Proof. apply reachable_log. Qed.

Lemma replicas_share_one_log_witness :
  exists ps bs, reachable (view cfg) ps /\ (forall s, s ∈ replicas ps -> executes_log s bs)
    /\ answers bs (MkReply client 1 (AppIncrementReply 1)).
Proof.
  destruct scenario_protocol as (ps & Hps & Hsim).
  destruct (replicas_share_one_log (view cfg) ps Hps) as (bs & _ & Hs & Hp).
  exists ps, bs. split; [exact Hps|split; [exact Hs|]].
  refine (Hp (packet 1 9 (RslMessageReply 1 (AppIncrementReply 1))) _ _ 1 (AppIncrementReply 1) eq_refl).
  - destruct Hsim as (_ & Hsent & _). apply Hsent, scenario_sent. vm_compute. reflexivity.
  - simpl. set_solver.
Defined.

(** C3: end to end. In every reachable state of the system of running replicas,
    two hosts that completed the same number of operations have the same
    application state. *)
Theorem hosts_agree (c : CConstants) (st : ImplState) i j ri rj :
  valid c -> impl_reachable c st ->
  seq_get (is_hosts st) i = Some ri -> seq_get (is_hosts st) j = Some rj ->
  c_ops_complete (c_executor (ri_replica ri)) = c_ops_complete (c_executor (ri_replica rj)) ->
  c_app (c_executor (ri_replica ri)) = c_app (c_executor (ri_replica rj)).
Proof.
  intros Hc Hst Hi Hj Heq. destruct (impl_reachable_simulated c Hc st Hst) as (ps & Hps & Hsim).
  destruct (reachable_log (view c) ps Hps) as (bs & _ & Hlog & _).
  pose proof (impl_sim_host c st ps i ri Hsim Hi) as Hi'%seq_get_elem_of.
  pose proof (impl_sim_host c st ps j rj Hsim Hj) as Hj'%seq_get_elem_of.
  destruct (Hlog _ Hi') as (n & Hn & _ & Ha), (Hlog _ Hj') as (m & Hm & _ & Hb).
  simpl in *. rewrite Ha, Hb. do 2 f_equal. lia.
Qed.

Lemma hosts_agree_witness :
  exists r0 r1, seq_get (is_hosts scenario) 0 = Some r0 /\ seq_get (is_hosts scenario) 1 = Some r1
    /\ c_app (c_executor (ri_replica r0)) = c_app (c_executor (ri_replica r1)).
Proof.
  destruct (scenario_hosts 0) as [r0 H0]; [lia|]. destruct (scenario_hosts 1) as [r1 H1]; [lia|].
  exists r0, r1. split; [exact H0|split; [exact H1|]].
  refine (hosts_agree cfg scenario 0 1 r0 r1 cfg_valid scenario_reachable H0 H1 _).
  assert (fmap (M := option) (fun r => c_ops_complete (c_executor (ri_replica r)))
            (seq_get (is_hosts scenario) 0)
          = (fun r => c_ops_complete (c_executor (ri_replica r))) <$> seq_get (is_hosts scenario) 1)
    as He by (vm_compute; reflexivity).
  rewrite H0, H1 in He. simpl in He. congruence.
Defined.

(** C4: the system of running replicas refines the protocol, behaviour by
    behaviour. For every finite behaviour of hosts running [Replica_Next_main] over
    the network there are the packets lost up to each of its states, where an
    iteration loses what it would also have sent had no send failed, and a
    behaviour of RslNext of the same length, from a state of RslInit, such that at
    each state the protocol's replicas are the hosts' abstractions and its packets
    are exactly those sent and those lost. *)
Theorem implementation_refines_protocol (c : CConstants) (b : list ImplState) :
  valid c -> behavior (fun st => st = impl_init c) (impl_step c) b ->
  exists (lb : list (ImplState * gset RslPacket)) (pb : list RslState),
    lb.*1 = b /\ behavior (fun s => s = (impl_init c, ∅)) (lossy_step c) lb
    /\ behavior (RslInit (view c)) RslNext pb
    /\ Forall2 (fun s ps => rsl_constants ps = view c /\ replicas ps = view <$> is_hosts s.1
                           /\ sent_of ps = is_sent s.1 ∪ s.2) lb pb.
Proof. intros Hc. by apply impl_behavior_simulated. Qed.

Lemma implementation_refines_protocol_witness :
  exists lb pb, behavior (RslInit (view cfg)) RslNext pb /\ last lb.*1 = Some scenario
    /\ Forall2 (fun s ps => rsl_constants ps = view cfg /\ replicas ps = view <$> is_hosts s.1
                           /\ sent_of ps = is_sent s.1 ∪ s.2) lb pb.
Proof.
  destruct (impl_reachable_behavior cfg scenario scenario_reachable) as (b & Hb & Hl).
  destruct (implementation_refines_protocol cfg b cfg_valid Hb) as (lb & pb & Hlb & _ & Hpb & HF).
  exists lb, pb. split; [exact Hpb|split; [by rewrite Hlb|exact HF]].
Defined.

(** C5: one iteration of the event loop. From a well-formed replica and a
    network client that answers well-formed packets and a 64-bit clock,
    [Replica_Next_main] either fails to receive and changes nothing, or succeeds:
    it keeps the replica well-formed (no field overflows), its constants and
    address, and implements one scheduled step of the protocol. That step's I/O
    has only valid packets from the replica's own address, is ordered so that the
    step can be reduced, and is what the iteration performs up to the sends that
    failed. *)
Theorem Replica_Next_main_refines (r : ReplicaImpl) (netc : NetClient) :
  impl_ok r -> net_ok netc ->
  let '(r', ok, ios) := Replica_Next_main r netc in
  if ok then
    impl_ok r' /\ localAddr r' = localAddr r
    /\ c_constants (ri_replica r') = c_constants (ri_replica r)
    /\ exists ios_, LSchedulerNext (view r) (view r') ios_ /\ host_ios r netc ios_
         /\ ios `prefix_of` ios_ /\ (sends_all netc -> ios = ios_)
  else net_receive netc = Fail_ /\ r' = r /\ ios = [].
Proof.
  intros Hr Hn. destruct (Replica_Next_main_step r netc Hr Hn) as [r' ios ios_|]; [|done].
  split_and!; [done..|]. by exists ios_.
Qed.

Lemma Replica_Next_main_refines_witness :
  let r := Replica_Init c0 in
  let netc := MkNetClient (Packet client (msg request)) 5 (fun i => (i <? 1)%nat) in
  let '(r', ok, ios) := Replica_Next_main r netc in
  ok = true /\ impl_ok r' /\ exists ios_, LSchedulerNext (view r) (view r') ios_.
Proof.
  intros r netc.
  assert (impl_ok r) as Hr by (apply Replica_Init_ok, c0_valid).
  assert (net_ok netc) as Hn.
  { split; [vm_compute; done|]. split; [apply host_valid; lia|]. apply request_valid. }
  pose proof (Replica_Next_main_refines r netc Hr Hn) as H.
  assert ((Replica_Next_main r netc).1.2 = true) as Hok by (vm_compute; reflexivity).
  destruct (Replica_Next_main r netc) as [[r' ok] ios]. simpl in Hok. subst ok.
  destruct H as (H1 & _ & _ & ios_ & H2 & _).
  split; [reflexivity|split; [exact H1|exists ios_; exact H2]].
Defined.

(** C29: a chosen batch is the only one proposed from its ballot on. *)
Theorem chosen_is_reproposed (con : LConstants) (ps : RslState) bal bal' opn v v' :
  reachable con ps ->
  chosen (rsl_ids con) (sent_of ps) bal opn v -> proposed (rsl_ids con) (sent_of ps) bal' opn v' ->
  BalLeq bal bal' -> v' = v.
Proof. intros Hr H H' Hle. exact (chosen_proposed_later con ps Hr _ _ _ _ _ H H' Hle). Qed.

(** After a view change the new leader proposes the chosen batch again, and by
    the theorem nothing else. *)
Lemma chosen_is_reproposed_witness :
  exists ps, reachable (view cfg) ps /\ proposed (rsl_ids (view cfg)) (sent_of ps) bal1 0 batch
    /\ forall v, proposed (rsl_ids (view cfg)) (sent_of ps) bal1 0 v -> v = batch.
Proof.
  destruct view_change_protocol as (ps & Hps & Hsim). exists ps.
  assert (chosen (rsl_ids (view cfg)) (sent_of ps) bal0 0 batch) as Hch.
  { destruct Hsim as (_ & Hsent & _). exact (chosen_mono _ _ _ _ _ _ Hsent view_change_chosen). }
  split; [exact Hps|split].
  - destruct Hsim as (_ & Hsent & _). exact (proposed_mono _ _ _ _ _ _ Hsent view_change_proposed).
  - intros v Hv. refine (chosen_is_reproposed (view cfg) ps bal0 bal1 0 batch v Hps Hch Hv _).
    unfold BalLeq. simpl. lia.
Defined.

(** A promise is complete. Whatever a replica accepted at a ballot below
    one it promised is reported by that promise's 1b, with a ballot at least as
    high, or lies before the 1b's truncation point. *)
Theorem promise_reports_votes (con : LConstants) (ps : RslState) h bal ltp votes bal' opn v :
  reachable con ps -> h ∈ rsl_ids con ->
  promised (sent_of ps) h bal ltp votes -> accepted (sent_of ps) h bal' opn v -> BalLt bal' bal ->
  opn < ltp \/ exists w, votes !! opn = Some w /\ BalLeq bal' (max_value_bal w).
Proof.
  intros Hr Hh. destruct (host_acceptor_inv con ps Hr h Hh) as [a I].
  intros H H' Hlt. exact (ai_promise_reports _ _ _ _ I _ _ _ _ _ _ H H' Hlt).
Qed.

Lemma promise_reports_votes_witness :
  exists w, votes1 !! 0 = Some w /\ BalLeq bal0 (max_value_bal w).
Proof.
  destruct view_change_protocol as (ps & Hps & Hsim).
  destruct (promise_reports_votes (view cfg) ps (host 1) bal1 0 votes1 bal0 0 batch Hps)
    as [Hlt|Hw]; [| | | |lia|exact Hw].
  - simpl. set_solver.
  - destruct Hsim as (_ & Hsent & _). exact (promised_mono _ _ _ _ _ _ Hsent view_change_promised).
  - destruct Hsim as (_ & Hsent & _).
    exists (packet 1 1 (RslMessage2b bal0 0 batch)).
    split; [apply Hsent, view_change_sent; vm_compute; reflexivity|split; reflexivity].
  - unfold BalLt. simpl. lia.
Defined.

(** A ballot and an operation number have one proposal, across all
    replicas: leaders never reuse a ballot, and a leader never proposes twice
    for an operation. *)
Theorem one_proposal_per_ballot (con : LConstants) (ps : RslState) bal opn v v' :
  reachable con ps ->
  proposed (rsl_ids con) (sent_of ps) bal opn v -> proposed (rsl_ids con) (sent_of ps) bal opn v' ->
  v = v'.
Proof. intros Hr H H'. exact (proposed_unique con ps Hr _ _ _ _ H H'). Qed.

Lemma one_proposal_per_ballot_witness :
  exists ps, reachable (view cfg) ps
    /\ forall v, proposed (rsl_ids (view cfg)) (sent_of ps) bal1 0 v -> v = batch.
Proof.
  destruct view_change_protocol as (ps & Hps & Hsim). exists ps. split; [exact Hps|].
  intros v Hv. refine (one_proposal_per_ballot (view cfg) ps bal1 0 v batch Hps Hv _).
  destruct Hsim as (_ & Hsent & _). exact (proposed_mono _ _ _ _ _ _ Hsent view_change_proposed).
Defined.

(** A replica decides only chosen batches: when the 2bs its learner counted
    make a quorum, a quorum accepted that batch at one ballot. *)
Theorem decision_is_chosen (con : LConstants) (ps : RslState) idx s :
  reachable con ps -> seq_get (replicas ps) idx = Some s -> decision_ready (replica s) ->
  let opn := ops_complete (executor (replica s)) in
  chosen (rsl_ids con) (sent_of ps) (max_ballot_seen (learner (replica s))) opn
    (candidate_learned_value (unexecuted_learner_state (learner (replica s)) !!! opn)).
Proof. apply decision_chosen. Qed.

Lemma decision_is_chosen_witness :
  exists ps s, reachable (view cfg) ps /\ seq_get (replicas ps) 2 = Some s
    /\ decision_ready (replica s)
    /\ chosen (rsl_ids (view cfg)) (sent_of ps) (max_ballot_seen (learner (replica s)))
         (ops_complete (executor (replica s)))
         (candidate_learned_value (unexecuted_learner_state (learner (replica s))
                                     !!! ops_complete (executor (replica s)))).
Proof.
  destruct scenario_protocol as (ps & Hps & Hsim).
  destruct (scenario_hosts 2) as [r Hr]; [lia|].
  pose proof (impl_sim_host cfg scenario ps 2 r Hsim Hr) as Hs.
  assert (decision_ready (replica (view r))) as Hready.
  { apply (bool_decide_unpack _), Is_true_true.
    assert ((fun r => bool_decide (decision_ready (view (ri_replica r))))
              <$> seq_get (is_hosts scenario) 2 = Some true) as H by (vm_compute; reflexivity).
    rewrite Hr in H. by injection H. }
  exists ps, (view r). split; [exact Hps|split; [exact Hs|split; [exact Hready|]]].
  exact (decision_is_chosen (view cfg) ps 2 (view r) Hps Hs Hready).
Defined.

(** C30: the running system stays well formed: in every reachable state each
    host satisfies its invariant, including the election's request caches, has
    its own constants and address, and every packet in the network is valid. *)
Theorem hosts_well_formed (c : CConstants) (st : ImplState) :
  valid c -> impl_reachable c st -> impl_inv c st.
Proof. intros Hc. by apply impl_reachable_inv. Qed.

Lemma hosts_well_formed_witness : impl_inv cfg view_change.
Proof. exact (hosts_well_formed cfg view_change cfg_valid view_change_reachable). Defined.

(** C31: progress of the loop: while packets can be received, even if every
    send fails, from any well-formed state each of the scheduler's ten actions is
    run by one of the first ten iterations: that iteration succeeds, and its
    outcome, the replica's state after it and the I/O performed, is that of the
    action's handler. *)
Theorem every_action_runs (r : ReplicaImpl) (netcs : list NetClient) a :
  impl_ok r -> Forall net_up netcs -> (10 <= length netcs)%nat -> 0 <= a < 10 ->
  exists k rk rk' netc ios, (k < 10)%nat /\ loop r netcs !! k = Some rk /\ loop r netcs !! S k = Some rk'
    /\ netcs !! k = Some netc /\ Replica_Next_main rk netc = (rk', true, ios)
    /\ actions rk netc !! Z.to_nat a = Some (ri_replica rk', true, ios).
Proof. apply loop_runs. Qed.

Lemma every_action_runs_witness :
  let netc := MkNetClient Timeout_ 5 (fun _ => false) in
  exists rk rk' ios, Replica_Next_main rk netc = (rk', true, ios)
    /\ deliver_step netc [ReadClock 5] (CReplicaNextReadClockCheckForViewTimeout (ri_replica rk) 5) = (ri_replica rk', true, ios).
Proof.
  intros netc.
  destruct (every_action_runs (Replica_Init c0) (replicate 10 netc) 7) as (k & rk & rk' & netc' & ios & _ & _ & _ & Hn & Hs & Ha).
  - apply Replica_Init_ok, c0_valid.
  - apply Forall_replicate. split; [by split|done].
  - done.
  - lia.
  - apply lookup_replicate in Hn as [-> _]. exists rk, rk', ios. split; [exact Hs|]. apply (inj Some). exact Ha.
Defined.

(** ** The components *)

(** The acceptor. From initialization, under any sequence of 1as, 2as,
    heartbeats and truncations with valid arguments, the executable acceptor
    stays valid, sends valid packets, and its run is one of the protocol's
    acceptor relations, packets included. *)
Theorem acceptor_refines (c : CReplicaConstants) (ops : list AcceptorOp) :
  valid c -> run_pre ops (CAcceptorInit c) ->
  let '(s, ps) := comp_run ops (CAcceptorInit c) in
  valid s /\ valid ps /\ exists l, LAcceptorInit l (view c) /\ spec_run ops l (view s) ps.
Proof. exact (comp_run_from_init c ops). Qed.

Lemma acceptor_refines_witness :
  let '(s, ps) := comp_run acceptor_ops (CAcceptorInit c0) in valid s /\ valid ps.
Proof.
  pose proof (acceptor_refines c0 acceptor_ops c0_valid acceptor_ops_pre) as H.
  destruct (comp_run acceptor_ops (CAcceptorInit c0)) as [s ps].
  destruct H as (H1 & H2 & _). split; [exact H1|exact H2].
Defined.

(** The election. Likewise for heartbeats, timeouts, quorum checks,
    received requests (whose fast path through the header caches the source
    only trusts) and executed batches; the caches stay in step with the
    queues. *)
Theorem election_refines (c : CReplicaConstants) (ops : list ElectionOp) :
  valid c -> run_pre ops (CElectionStateInit c) ->
  let '(s, ps) := comp_run ops (CElectionStateInit c) in
  election_ok s /\ valid ps /\ exists l, ElectionStateInit l (view c) /\ spec_run ops l (view s) ps.
Proof. exact (comp_run_from_init c ops). Qed.

Lemma election_refines_witness :
  let '(s, ps) := comp_run election_ops (CElectionStateInit c0) in election_ok s.
Proof.
  pose proof (election_refines c0 election_ops c0_valid election_ops_pre) as H.
  destruct (comp_run election_ops (CElectionStateInit c0)) as [s ps].
  destruct H as (H1 & _). exact H1.
Defined.

(** The learner, for 2bs and both ways of forgetting decisions. *)
Theorem learner_refines (c : CReplicaConstants) (ops : list LearnerOp) :
  valid c -> run_pre ops (CLearnerInit c) ->
  let '(s, ps) := comp_run ops (CLearnerInit c) in
  valid s /\ valid ps /\ exists l, LLearnerInit l (view c) /\ spec_run ops l (view s) ps.
Proof. exact (comp_run_from_init c ops). Qed.

Lemma learner_refines_witness :
  let '(s, ps) := comp_run learner_ops (CLearnerInit c0) in valid s.
Proof.
  pose proof (learner_refines c0 learner_ops c0_valid learner_ops_pre) as H.
  destruct (comp_run learner_ops (CLearnerInit c0)) as [s ps]. destruct H as (H1 & _). exact H1.
Defined.

(** The executor, for decisions, execution, state transfer and cached
    replies, within the operations' preconditions. *)
Theorem executor_refines (c : CReplicaConstants) (ops : list ExecutorOp) :
  valid c -> run_pre ops (CExecutorInit c) ->
  let '(s, ps) := comp_run ops (CExecutorInit c) in
  valid s /\ valid ps /\ exists l, LExecutorInit l (view c) /\ spec_run ops l (view s) ps.
Proof. exact (comp_run_from_init c ops). Qed.

Lemma executor_refines_witness :
  let '(s, ps) := comp_run executor_ops (CExecutorInit c0) in valid s /\ valid ps.
Proof.
  pose proof (executor_refines c0 executor_ops c0_valid executor_ops_pre) as H.
  destruct (comp_run executor_ops (CExecutorInit c0)) as [s ps].
  destruct H as (H1 & H2 & _). split; [exact H1|exact H2].
Defined.

(** The proposer, for requests, phase 1, phase 2, nominations and the
    election's operations, its election state's caches included. *)
Theorem proposer_refines (c : CReplicaConstants) (ops : list ProposerOp) :
  valid c -> run_pre ops (CProposerInit c) ->
  let '(s, ps) := comp_run ops (CProposerInit c) in
  proposer_ok s /\ valid ps /\ exists l, LProposerInit l (view c) /\ spec_run ops l (view s) ps.
Proof. exact (comp_run_from_init c ops). Qed.

Lemma proposer_refines_witness :
  let '(s, ps) := comp_run proposer_ops (CProposerInit c0) in proposer_ok s /\ valid ps.
Proof.
  pose proof (proposer_refines c0 proposer_ops c0_valid proposer_ops_pre) as H.
  destruct (comp_run proposer_ops (CProposerInit c0)) as [s ps].
  destruct H as (H1 & H2 & _). split; [exact H1|exact H2].
Defined.

(** C40: the log is bounded. In every reachable state an acceptor remembers
    votes only for the [max_log_length] operations from its truncation point
    on, hence at most [max_log_length] of them. *)
Theorem acceptor_log_bounded (con : LConstants) (ps : RslState) idx s :
  reachable con ps -> seq_get (replicas ps) idx = Some s ->
  let a := acceptor (replica s) in
  let mll := max_log_length (params con) in
  (forall opn, is_Some (acc_votes a !! opn) ->
     acc_log_truncation_point a <= opn < acc_log_truncation_point a + mll)
  /\ Z.of_nat (size (acc_votes a)) <= mll.
Proof.
  intros Hr Hs. pose proof (reachable_log_window con ps idx s Hr Hs) as Hw.
  split; [exact Hw|]. apply log_window_size; [|exact Hw].
  destruct (reachable_params con ps Hr). lia.
Qed.

Lemma acceptor_log_bounded_witness :
  exists ps s, seq_get (replicas ps) 0 = Some s
    /\ Z.of_nat (size (acc_votes (acceptor (replica s)))) <= 1000.
Proof.
  destruct scenario_protocol as (ps & Hps & Hsim). destruct (scenario_hosts 0) as [r Hr]; [lia|].
  pose proof (impl_sim_host cfg scenario ps 0 r Hsim Hr) as Hs.
  exists ps, (view r). split; [exact Hs|].
  exact (proj2 (acceptor_log_bounded (view cfg) ps 0 (view r) Hps Hs)).
Defined.

(** Nothing goes back. A replica's step never lowers its view, its
    acceptor's promise, its log truncation point or its number of completed
    operations. *)
Theorem step_monotone (s s_ : LScheduler) ios :
  LSchedulerNext s s_ ios ->
  BalLeq (current_view (election_state (proposer (replica s))))
         (current_view (election_state (proposer (replica s_))))
  /\ BalLeq (acc_max_bal (acceptor (replica s))) (acc_max_bal (acceptor (replica s_)))
  /\ acc_log_truncation_point (acceptor (replica s))
     <= acc_log_truncation_point (acceptor (replica s_))
  /\ ops_complete (executor (replica s)) <= ops_complete (executor (replica s_)).
Proof.
  intros (recv & Hstep & _)%LSchedulerNext_step.
  destruct (LReplicaStep_promise _ _ _ _ Hstep).
  split_and!; [by eapply LReplicaStep_view|done|done|by eapply LReplicaStep_ops_complete].
Qed.

Lemma step_monotone_witness :
  let r := Replica_Init c0 in
  let '(r', ok, ios) := Replica_Next_main r (MkNetClient Timeout_ 5 all_sent) in
  BalLeq (c_current_view (c_election_state (c_proposer (ri_replica r))))
         (c_current_view (c_election_state (c_proposer (ri_replica r')))).
Proof.
  intros r. assert (impl_ok r) as Hr by (apply Replica_Init_ok, c0_valid).
  assert (net_ok (MkNetClient Timeout_ 5 all_sent)) as Hn by (split; done).
  destruct (Replica_Next_main_step r _ Hr Hn) as [r' ios ios_ _ _ _ Hnext|Hf];
    [|discriminate Hf].
  exact (proj1 (step_monotone _ _ _ Hnext)).
Defined.

(** ** Algorithms of the components *)

(** Log truncation from checkpoints. The scan over the last checkpoints
    always finds one that is a valid truncation point, and a quorum of the
    checkpoints are at least as high. *)
Theorem truncation_point_found (s : CReplica) :
  replica_ok s ->
  let cks := ca_last_checkpointed_operation (c_acceptor s) in
  let '(found, target) := find_truncation_point s in
  found = true /\ target ∈ cks
  /\ CountMatchesInSeq cks (fun x => bool_decide (x >= target))
     >= LMinQuorumSize (view (c_config (c_all (c_constants s)))).
Proof.
  intros Hs. pose proof (find_truncation_point_spec s Hs) as H.
  simpl. destruct (find_truncation_point s) as [found target]. destruct H as (-> & Hin & Hv).
  split_and!; [done|done|]. by apply IsLogTruncationPointValid_quorum in Hv as [_ ?].
Qed.

Lemma truncation_point_found_witness :
  let '(found, target) := find_truncation_point (CReplicaInit c0) in found = true.
Proof.
  assert (replica_ok (CReplicaInit c0)) as Hok by (apply CReplicaInit_refines, c0_valid).
  pose proof (truncation_point_found (CReplicaInit c0) Hok) as H. cbv zeta in H.
  destruct (find_truncation_point (CReplicaInit c0)) as [found target]. apply H.
Defined.

(** Pruning the votes does not depend on the hash map's iteration order:
    any enumeration of the keys gives the one log the protocol's relation
    allows. *)
Theorem pruning_order_independent (votes : Votes) ltp keys :
  (forall k, k ∈ keys <-> is_Some (votes !! k)) ->
  CRemoveVotes_loop votes ltp keys = CRemoveVotesBeforeLogTruncationPoint votes ltp
  /\ (forall votes_, RemoveVotesBeforeLogTruncationPoint votes votes_ ltp
                     <-> votes_ = CRemoveVotes_loop votes ltp keys).
Proof.
  intros Hk.
  assert (CRemoveVotes_loop votes ltp keys = CRemoveVotesBeforeLogTruncationPoint votes ltp) as He.
  { apply map_eq. intros opn. rewrite CRemoveVotes_lookup, CRemoveVotes_loop_lookup by (intros k; apply Hk).
    repeat case_decide; try tauto. destruct (votes !! opn) eqn:Hv; [|done].
    exfalso. naive_solver. }
  split; [exact He|]. intros votes_. rewrite He. split; [|intros ->; apply CRemoveVotes_refines].
  intros H. apply map_eq. intros opn. by rewrite (RemoveVotes_lookup _ _ _ _ H), CRemoveVotes_lookup.
Qed.

Lemma pruning_order_independent_witness :
  CRemoveVotes_loop {[ 3 := MkVote bal0 batch; 5 := MkVote bal1 [] ]} 4 [3; 5]
  = CRemoveVotesBeforeLogTruncationPoint {[ 3 := MkVote bal0 batch; 5 := MkVote bal1 [] ]} 4.
Proof.
  refine (proj1 (pruning_order_independent {[ 3 := MkVote bal0 batch; 5 := MkVote bal1 [] ]} 4 [3; 5] _)).
  intros k. split.
  - intros [->|[->|[]%not_elem_of_nil]%elem_of_cons]%elem_of_cons; by eexists.
  - intros [v [[<- _]|[_ [<- _]%lookup_singleton_Some]]%lookup_insert_Some]; set_solver.
Defined.

(** The reply cache after a batch is the old cache, extended with the
    batch's replies for clients that had none, whatever the key order of the
    override loop; the protocol's relation allows no other. *)
Theorem reply_cache_update (c c_ : ReplyCache) (replies : list Reply) keys :
  (forall k, k ∈ keys <-> is_Some (c !! k)) ->
  (UpdateNewCache c c_ replies
   <-> c_ = CUpdateNewCache_loop c (CClientsInReplies replies) keys)
  /\ CUpdateNewCache c replies = c ∪ LClientsInReplies replies.
Proof.
  intros Hk. split; [|apply CUpdateNewCache_union]. rewrite UpdateNewCache_unique.
  assert (CUpdateNewCache_loop c (CClientsInReplies replies) keys = c ∪ LClientsInReplies replies)
    as ->; [|done].
  apply map_eq. intros client. rewrite CUpdateNewCache_loop_lookup by (intros k; apply Hk).
  rewrite CClientsInReplies_spec. case_decide as Hd.
  - apply Hk in Hd as [r Hr]. by rewrite Hr, (lookup_union_Some_l _ _ _ _ Hr).
  - rewrite lookup_union_r; [done|]. apply eq_None_not_Some. by rewrite <- Hk.
Qed.

Lemma reply_cache_update_witness :
  UpdateNewCache ∅ (CUpdateNewCache_loop ∅ (CClientsInReplies [MkReply client 1 (AppIncrementReply 1)]) [])
    [MkReply client 1 (AppIncrementReply 1)].
Proof.
  apply (reply_cache_update ∅ _ [MkReply client 1 (AppIncrementReply 1)] []); [|reflexivity].
  intros k. rewrite elem_of_nil, lookup_empty. split; [done|]. by intros [? ?].
Defined.

(** A client's cached reply is never replaced by a later one: executing a
    batch keeps the entry of every client that has one, also when the batch
    holds a newer request of that client. *)
Theorem cached_reply_is_kept (s s_ : LExecutor) sent client0 r :
  LExecutorExecute s s_ sent -> reply_cache s !! client0 = Some r ->
  reply_cache s_ !! client0 = Some r.
Proof.
  intros (_ & _ & _ & _ & _ & Hc & _) Hr. apply UpdateNewCache_unique in Hc. rewrite Hc.
  by apply lookup_union_Some_l.
Qed.

(** The executor after request 1 of the client, about to execute request 2. *)
Definition stale_executor : CExecutor :=
  CExecutorGetDecision (CExecutorExecute (CExecutorGetDecision (CExecutorInit c0) bal0 0 batch)).1
    bal0 1 [MkRequest client 2 AppIncrementRequest].

Lemma cached_reply_is_kept_witness :
  let '(s', ps) := CExecutorExecute stale_executor in
  ps = [MkLPacket client (host 1) (RslMessageReply 2 (AppIncrementReply 2))]
  /\ c_reply_cache s' !! client = Some (MkReply client 1 (AppIncrementReply 1)).
Proof.
  assert (valid stale_executor) as Hv.
  { apply CExecutorGetDecision_refines; [|apply bal0_valid|].
    - pose proof (CExecutorExecute_refines (CExecutorGetDecision (CExecutorInit c0) bal0 0 batch)) as H.
      destruct (CExecutorExecute _) as [s1 ps1]. apply H; [|done|done].
      apply CExecutorGetDecision_refines; [|apply bal0_valid|apply batch_valid].
      apply CExecutorInit_refines, c0_valid.
    - apply Forall_singleton. split_all; [by apply host_valid|done..]. }
  assert ((CExecutorExecute stale_executor).2
          = [MkLPacket client (host 1) (RslMessageReply 2 (AppIncrementReply 2))]) as Hps
    by (vm_compute; reflexivity).
  assert (c_reply_cache stale_executor !! client = Some (MkReply client 1 (AppIncrementReply 1))) as Hold
    by (vm_compute; reflexivity).
  pose proof (CExecutorExecute_refines stale_executor Hv eq_refl eq_refl) as H.
  destruct (CExecutorExecute stale_executor) as [s' ps]. destruct H as (_ & _ & Hrel).
  split; [exact Hps|].
  exact (cached_reply_is_kept _ _ _ client (MkReply client 1 (AppIncrementReply 1)) Hrel Hold).
Defined.

(** Executing a decided batch. The new state is the left fold of the
    application over the batch, the operation count grows by one without
    overflow, and the packets are exactly one reply per request, in order, each
    the application's answer in the state the requests before it leave. *)
Theorem execute_batch (s : CExecutor) batch bal :
  valid s -> c_next_op_to_execute s = OutstandingOpKnown batch bal ->
  c_ops_complete s < c_max_integer_val (c_params_of (cex_constants s)) ->
  let '(s', ps) := CExecutorExecute s in
  c_app s' = run_batch (c_app s) batch /\ c_ops_complete s' = c_ops_complete s + 1
  /\ forall i, ps !! i
       = q ← batch !! i;
         Some (MkLPacket (req_client q) (self_of (view (cex_constants s)))
                 (RslMessageReply (req_seqno q)
                    (AppHandleRequest (run_batch (c_app s) (take i batch)) (req_request q)).2)).
Proof.
  intros Hv Hnext Hlt.
  pose proof (CExecutorExecute_refines s Hv) as H. rewrite Hnext in H. specialize (H eq_refl Hlt).
  destruct (CExecutorExecute s) as [s' ps].
  destruct H as (_ & _ & _ & Happ & Hops & _ & _ & _ & Hps & _). simpl in *. rewrite Hnext in *.
  rewrite execute_new_state in Happ. split_and!; [exact Happ|exact Hops|]. intros i. simpl in Hps.
  pose proof (HandleRequestBatch_props (c_app s) batch) as Hp.
  pose proof (HandleRequestBatch_states (c_app s) batch i) as Hst.
  destruct (HandleRequestBatch (c_app s) batch) as [ss rs]. destruct Hp as (_ & Hl & _ & Hans).
  rewrite Hps, GetPacketsFromReplies_lookup by exact Hl. simpl in *.
  destruct (batch !! i) as [q|] eqn:Hq; [|done]. simpl. apply lookup_lt_Some in Hq as Hi.
  destruct (lookup_lt_is_Some_2 rs i) as [r Hr]; [lia|]. rewrite Hr. simpl.
  destruct (Hans i q r Hq Hr) as (s0 & s1 & Hs0 & _ & Ha & _ & _).
  rewrite Hst in Hs0 by lia. injection Hs0 as ->. by rewrite Ha.
Qed.

Lemma execute_batch_witness :
  let s := CExecutorGetDecision (CExecutorInit c0) bal0 0 batch in
  c_app (CExecutorExecute s).1 = run_batch 0 batch.
Proof.
  intros s. assert (valid s) as Hv.
  { apply CExecutorGetDecision_refines; [|apply bal0_valid|apply batch_valid].
    apply CExecutorInit_refines, c0_valid. }
  pose proof (execute_batch s batch bal0 Hv eq_refl eq_refl) as H.
  destruct (CExecutorExecute s) as [s' ps]. exact (proj1 H).
Defined.

(** The batch a new nomination proposes is a prefix of the queue, no longer
    than [max_batch_size]; the rest stays queued, and the 2a's operation number
    is passed, without overflow. *)
Theorem nominated_batch_is_prefix (s : CProposer) clock ltp :
  valid s -> c_next_operation_number_to_propose s < c_max_integer_val (c_params_of (cp_constants s)) ->
  let '(s', ps) := CProposerNominateNewValueAndSend2a s clock ltp in
  let opn := c_next_operation_number_to_propose s in
  c_next_operation_number_to_propose s' = opn + 1
  /\ exists v, c_request_queue s = v ++ c_request_queue s'
       /\ seq_len v <= c_max_batch_size (c_params_of (cp_constants s))
       /\ forall p, p ∈ ps -> msg p = RslMessage2a (c_max_ballot_i_sent_1a s) opn v.
Proof.
  intros Hv Hlt. destruct (proposer_params s Hv) as (_ & _ & Hmx & Hb & _).
  pose proof Hv as (_ & _ & _ & _ & _ & _ & _ & Hn). unfold is_u64 in Hn.
  unfold CProposerNominateNewValueAndSend2a. simpl.
  split; [apply u64_add_exact; unfold U64_MODULUS; lia|].
  set (n := if _ <=? _ then _ else _).
  assert (0 <= n <= seq_len (c_request_queue s)
          /\ n <= c_max_batch_size (c_params_of (cp_constants s))) as [Hn1 Hn2].
  { unfold n. pose proof (seq_len_nonneg (c_request_queue s)). case_match eqn:E. 1: lia. lia. }
  exists (seq_subrange (c_request_queue s) 0 n). unfold seq_subrange. split_and!.
  - rewrite drop_0, Z.sub_0_r. rewrite (take_ge (drop _ _)); [by rewrite take_drop|].
    rewrite length_drop. unfold seq_len in *. lia.
  - unfold seq_len. rewrite drop_0, length_take. lia.
  - intros p. rewrite CBroadcastToEveryone_fmap. by intros (d & -> & _)%list_elem_of_fmap.
Qed.

Lemma nominated_batch_is_prefix_witness :
  let '(s', ps) := CProposerNominateNewValueAndSend2a (CProposerInit c0) 5 0 in
  c_next_operation_number_to_propose s' = 1.
Proof.
  assert (valid (CProposerInit c0)) as Hv by (apply CProposerInit_refines, c0_valid).
  pose proof (nominated_batch_is_prefix (CProposerInit c0) 5 0 Hv eq_refl) as H.
  destruct (CProposerNominateNewValueAndSend2a (CProposerInit c0) 5 0) as [s' ps].
  exact (proj1 H).
Defined.

(** The guard of a nomination. The executable check decides the protocol's
    condition on the 1bs, their order notwithstanding: quorum, ballot,
    truncation points and the log's upper bound. *)
Theorem can_nominate_decides (s : CProposer) ltp opn :
  valid s -> is_u64 ltp -> is_u64 opn ->
  CProposerCanNominateUsingOperationNumber s ltp opn = true
  <-> LProposerCanNominateUsingOperationNumber (view s) ltp opn.
Proof. intros. by rewrite CProposerCanNominate_spec, bool_decide_eq_true by done. Qed.

Lemma can_nominate_decides_witness :
  ~ LProposerCanNominateUsingOperationNumber (view (CProposerInit c0)) 0 0.
Proof.
  assert (valid (CProposerInit c0)) as Hv by (apply CProposerInit_refines, c0_valid).
  assert (is_u64 0) as H0 by (vm_compute; intuition discriminate).
  intros H. apply (can_nominate_decides (CProposerInit c0) 0 0 Hv H0 H0) in H.
  vm_compute in H. discriminate H.
Defined.

(** The value re-proposed in phase 2 is that of a vote with the highest
    ballot, whatever the order in which the 1bs are scanned; there is none
    exactly when no 1b has a vote for the operation. *)
Theorem best_vote_is_highest opn (ps : list RslPacket) :
  match best_vote opn ps with
  | None => LAllAcceptorsHadNoProposal (list_to_set ps) opn
  | Some (v, b) => LValIsHighestNumberedProposalAtBallot v b (list_to_set ps) opn
  end.
Proof.
  pose proof (best_vote_spec opn ps) as H. destruct (best_vote opn ps) as [[v b]|].
  - destruct H as [(p & Hp & Hv) Hmax]. split.
    + intros q w Hq%elem_of_list_to_set. by apply Hmax.
    + exists p. split; [by apply elem_of_list_to_set|done].
  - intros p Hp%elem_of_list_to_set. by apply H.
Qed.

(** The requests that survive an executed batch are those that no request
    of the batch satisfies, in order: the loop of in-place removals is a
    filter. *)
Theorem remove_executed_is_filter (reqs : list Request) (batch : RequestBatch) :
  CRemoveExecutedRequestBatch reqs batch
  = filter (fun x => Forall (fun r => ~ RequestSatisfiedBy x r) batch) reqs.
Proof. by rewrite CRemoveExecuted_spec, RemoveExecuted_filter. Qed.

(** Leaders rotate. *)
Lemma successor_views (c : LConstants) b k :
  let n := seq_len (replica_ids (config c)) in
  0 <= bal_proposer_id b < n -> Z.of_nat k <= n ->
  Nat.iter k (fun b => ComputeSuccessorView b c) b
  = if decide (bal_proposer_id b + Z.of_nat k < n)
    then MkBallot (bal_seqno b) (bal_proposer_id b + Z.of_nat k)
    else MkBallot (bal_seqno b + 1) (bal_proposer_id b + Z.of_nat k - n).
Proof.
  intros n Hb. induction k as [|k IH]; intros Hk.
  - rewrite decide_True by lia. destruct b. simpl. f_equal. lia.
  - simpl Nat.iter. rewrite IH by lia. unfold ComputeSuccessorView. fold n.
    repeat case_decide; simpl in *; try lia; f_equal; lia.
Qed.

(** Leadership rotates. Every successor view is higher; from any view of a
    replica, [n] view changes later the same replica leads again with the next
    sequence number, and each of the [n] replicas led once in between. *)
Theorem views_rotate (c : LConstants) b j :
  let n := seq_len (replica_ids (config c)) in
  0 <= bal_proposer_id b < n -> 0 <= j < n ->
  BalLt b (ComputeSuccessorView b c)
  /\ Nat.iter (Z.to_nat n) (fun b => ComputeSuccessorView b c) b
     = MkBallot (bal_seqno b + 1) (bal_proposer_id b)
  /\ exists k, (k < Z.to_nat n)%nat
       /\ bal_proposer_id (Nat.iter k (fun b => ComputeSuccessorView b c) b) = j.
Proof.
  intros n Hb Hj. pose proof (successor_views c b) as H. fold n in H. simpl in H.
  split_and!; [apply ComputeSuccessorView_BalLt| |].
  - rewrite H by lia. rewrite decide_False by lia. f_equal. lia.
  - destruct (decide (bal_proposer_id b <= j)).
    + exists (Z.to_nat (j - bal_proposer_id b)). split; [lia|].
      rewrite H by lia. rewrite decide_True by lia. simpl. lia.
    + exists (Z.to_nat (j - bal_proposer_id b + n)). split; [lia|].
      rewrite H by lia. rewrite decide_False by lia. simpl. lia.
Qed.

Lemma views_rotate_witness :
  Nat.iter 3 (fun b => ComputeSuccessorView b (view cfg)) bal1 = MkBallot 2 1.
Proof.
  refine (proj1 (proj2 (views_rotate (view cfg) bal1 0 _ _))); vm_compute; intuition discriminate.
Defined.

(** ** Bounds *)

(** The clamped addition never overflows: on 64-bit arguments it is the
    exact sum when that stays below the bound, and the bound otherwise. *)
Theorem bounded_addition_exact x y u :
  is_u64 x -> is_u64 y -> is_u64 u ->
  CUpperBoundedAddition x y u = Z.min (x + y) u /\ is_u64 (CUpperBoundedAddition x y u).
Proof.
  intros Hx Hy Hu. destruct (CUpperBoundedAddition_refines x y u Hx Hy Hu) as [-> H].
  split; [|exact H]. unfold UpperBoundedAddition. simpl. case_decide; lia.
Qed.

Lemma bounded_addition_exact_witness :
  CUpperBoundedAddition (U64_MODULUS - 1) 5 100 = Z.min (U64_MODULUS - 1 + 5) 100.
Proof. apply (bounded_addition_exact (U64_MODULUS - 1) 5 100); vm_compute; intuition discriminate. Defined.

(** The replicated counter saturates: on a 64-bit state the executable
    application is the specified one, an increment gives the smaller of the
    successor and [u64::MAX], and any other request changes nothing. *)
Theorem counter_saturates (s : Z) (m : AppMessage) :
  is_u64 s ->
  HandleAppRequest s m = AppHandleRequest s m
  /\ (HandleAppRequest s m).1
     = (if decide (m = AppIncrementRequest) then Z.min (s + 1) (U64_MODULUS - 1) else s).
Proof.
  intros Hs. rewrite HandleAppRequest_spec. split; [done|]. unfold is_u64 in Hs.
  destruct m; simpl; try done. unfold CappedIncr. case_decide; unfold U64_MODULUS in *; [lia|].
  rewrite u64_add_exact; unfold U64_MODULUS; lia.
Qed.

Lemma counter_saturates_witness :
  (HandleAppRequest (U64_MODULUS - 1) AppIncrementRequest).1 = U64_MODULUS - 1.
Proof.
  assert (is_u64 (U64_MODULUS - 1)) as H by (vm_compute; intuition discriminate).
  exact (proj2 (counter_saturates (U64_MODULUS - 1) AppIncrementRequest H)).
Defined.
