(* ===== verification/ServiceProperties.v ===== *)
(** * The replicas as one service

    The end-to-end theorems: behaviours of the protocol refine behaviours of the
    centralized service, and so do the hosts that run the implementation. *)

From stdpp Require Import prelude gmap sets list numbers fin_sets.
From Stdlib Require Import ZArith Lia.
From S2P Require Import Prelude.
From S2P Require Import Types.
From S2P Require Import Common.
From S2P Require Import Environment.
From S2P Require Import Replica.
From S2P Require Import DistributedSystem.
From S2P Require Import Agreement.
From S2P Require Import ReplicatedLog.
From S2P Require Import ReplicaImpl.
From S2P Require Import ImplSystem.
From S2P Require Import Validity.
From S2P Require Import Service.
From S2P Require Import Scenario.

#[local] Open Scope Z_scope.

(** ** Behaviours *)

(** A finite behaviour of the protocol (IsValidBehaviorPrefix). *)
Definition IsValidBehaviorPrefix (con : LConstants) (b : list RslState) : Prop :=
  (exists ps, b !! 0%nat = Some ps /\ RslInit con ps)
  /\ (forall i ps ps_, b !! i = Some ps -> b !! S i = Some ps_ -> RslNext ps ps_).

Section behaviors.
Context (con : LConstants).
Implicit Types (b : list RslState) (ps : RslState).

Lemma behavior_reachable b i ps :
  IsValidBehaviorPrefix con b -> b !! i = Some ps -> reachable con ps.
Proof.
  intros [(ps0 & H0 & Hinit) Hnext]. revert ps. induction i as [|i IH]; intros ps Hi.
  - rewrite H0 in Hi. injection Hi as <-. by constructor.
  - destruct (lookup_lt_is_Some_2 b i) as [ps1 H1]; [apply lookup_lt_Some in Hi; lia|].
    eapply reachable_next; [by apply IH|by eapply Hnext].
Qed.

(** Every reachable state ends a behaviour. *)
Lemma reachable_behavior ps :
  reachable con ps -> exists b, IsValidBehaviorPrefix con b /\ last b = Some ps.
Proof.
  induction 1 as [ps Hi|ps ps_ _ (b & [(ps0 & H0 & Hinit) Hnext] & Hl) Hn].
  - exists [ps]. split; [|done]. split; [by exists ps|]. by intros [|i] ? ? ? ?.
  - exists (b ++ [ps_]). split; [|by rewrite last_snoc]. split.
    + exists ps0. split; [|done]. by apply lookup_app_l_Some.
    + intros i ps1 ps2 H1 H2. apply lookup_lt_Some in H2 as Hlt.
      rewrite length_app in Hlt. simpl in Hlt. rewrite lookup_app_l in H1 by lia.
      destruct (decide (S i < length b)%nat).
      * rewrite lookup_app_l in H2 by done. by eapply Hnext.
      * rewrite lookup_app_r in H2 by lia. replace (S i - length b)%nat with 0%nat in H2 by lia.
        simpl in H2. injection H2 as <-. rewrite last_lookup in Hl.
        replace (Nat.pred (length b)) with i in Hl by lia. by simplify_eq.
Qed.

(** A behaviour of the service, state by state. *)
Lemma behavior_refined b :
  IsValidBehaviorPrefix con b ->
  exists hb, Forall2 SystemRefinementRelation b hb
    /\ RslSystemBehaviorRefinementCorrect (list_to_set (rsl_ids con)) b hb.
Proof.
  intros Hb. destruct (list_choice SystemRefinementRelation b) as [hb Hhb].
  { intros ps [i Hi]%list_elem_of_lookup. eapply relation_exists, behavior_reachable; eauto. }
  exists hb. split; [done|]. pose proof (Forall2_length _ _ _ Hhb) as Hlen.
  destruct Hb as [(ps0 & H0 & Hinit) Hnext] eqn:E. clear E.
  assert (IsValidBehaviorPrefix con b) as Hb' by (split; [by exists ps0|done]).
  split_and!.
  - done.
  - intros i ps rs Hps Hrs. eapply relation_correct; [by eapply behavior_reachable|].
    by eapply Forall2_lookup_lr.
  - apply lookup_lt_Some in H0. lia.
  - intros rs Hrs. eapply relation_init; [exact Hinit|]. by eapply Forall2_lookup_lr.
  - intros i rs rs_ Hrs Hrs_.
    destruct (Forall2_lookup_r _ _ _ _ _ Hhb Hrs) as (ps & Hps & Hrel).
    destruct (Forall2_lookup_r _ _ _ _ _ Hhb Hrs_) as (ps_ & Hps_ & Hrel_).
    eapply (relation_step con ps ps_); [by eapply behavior_reachable|by eapply Hnext|done|done].
Qed.
End behaviors.

(** ** The hosts *)

(** What the service's state says of the packets that the hosts exchanged: it
    made every reply a host sent, and it only ran requests of clients that sent
    them to a host (a client is not a host here: packets from a host's address
    come from the host). *)
Definition service_explains (c : CConstants) (st : ImplState) (rs : RSLSystemState) : Prop :=
  let ids := c_replica_ids (c_config c) in
  (forall p seqno reply, p ∈ is_sent st -> src p ∈ ids -> msg p = RslMessageReply seqno reply ->
     MkReply (dst p) seqno reply ∈ replies rs)
  /\ (forall r, r ∈ requests rs -> req_client r ∉ ids -> issued ids (is_sent st) r).

Lemma service_explains_relation c st ps rs :
  valid c -> reachable (view c) ps -> impl_sim c st ps -> SystemRefinementRelation ps rs ->
  service_explains c st rs.
Proof.
  intros Hc Hr (_ & Hsent & Hcon & Hext) Hrel.
  destruct (relation_correct _ _ _ Hr Hrel) as [Hrep Hreq].
  destruct (reachable_constants _ _ Hr) as (Hcon' & Hwf & _).
  assert (server_addresses rs = list_to_set (c_replica_ids (c_config c))) as Haddr.
  { apply (relation_longest (view c) ps Hcon' Hwf) in Hrel as (bs & _ & ->). done. }
  split.
  - intros p seqno reply Hp Hsrc Hm. apply (Hrep p seqno reply); [by apply Hsent| |done].
    rewrite Haddr. by apply elem_of_list_to_set.
  - intros r Hin Hout. destruct (Hreq r Hin) as (p & seqno & v & Hp & Hdst & Hm & ->).
    rewrite Haddr in Hdst. apply elem_of_list_to_set in Hdst.
    exists p. split; [by apply Hext|split; [done|by split]].
Qed.

(** The service's states as runs from its initial state. *)
Lemma relation_run con ps rs :
  reachable con ps -> SystemRefinementRelation ps rs ->
  exists rs0, RslSystemInit rs0 (list_to_set (rsl_ids con)) /\ RslSystemNext rs0 rs.
Proof.
  intros Hr. destruct (reachable_constants con ps Hr) as (Hcon & Hwf & _).
  rewrite (relation_longest con ps Hcon Hwf). intros (bs & _ & ->).
  exists (service_after (list_to_set (rsl_ids con)) []). split; [by split_and!|].
  exact (service_after_app _ [] (concat bs)).
Qed.

(** ** Theorems *)

(** C6: the protocol refines the service. For every finite behaviour of the
    protocol there is a behaviour of the centralized service of the same length,
    whose first state is the service's initial state, in which each step executes
    a batch of requests one after another (perhaps none), and such that at each
    state every reply that a replica has sent is one the service made and every
    request the service executed was sent to a replica by its client. *)
Theorem protocol_refines_service (con : LConstants) (b : list RslState) :
  IsValidBehaviorPrefix con b ->
  exists hb, Forall2 SystemRefinementRelation b hb
    /\ RslSystemBehaviorRefinementCorrect (list_to_set (rsl_ids con)) b hb.
Proof. apply behavior_refined. Qed.

Lemma protocol_refines_service_witness :
  exists b ps hb, last b = Some ps /\ is_sent scenario ⊆ sent_of ps
    /\ RslSystemBehaviorRefinementCorrect (list_to_set (rsl_ids (view cfg))) b hb.
Proof.
  destruct scenario_protocol as (ps & Hps & _ & Hsent & _).
  destruct (reachable_behavior (view cfg) ps Hps) as (b & Hb & Hl).
  destruct (protocol_refines_service (view cfg) b Hb) as (hb & _ & Hhb).
  exists b, ps, hb. split; [exact Hl|split; [exact Hsent|exact Hhb]].
Defined.

(** C7: the hosts implement the service. For every state of the hosts that run
    the implementation there is a run of the centralized service that made every
    reply a host has sent, and executed only requests that hosts have been sent
    by their clients. *)
Theorem hosts_implement_service (c : CConstants) (st : ImplState) :
  valid c -> impl_reachable c st ->
  exists rs0 rs, RslSystemInit rs0 (list_to_set (c_replica_ids (c_config c)))
    /\ RslSystemNext rs0 rs /\ service_explains c st rs.
Proof.
  intros Hc Hst. destruct (impl_reachable_simulated c Hc st Hst) as (ps & Hps & Hsim).
  destruct (relation_exists _ _ Hps) as [rs Hrs].
  destruct (relation_run _ _ _ Hps Hrs) as (rs0 & Hinit & Hnext).
  exists rs0, rs. split_and!; [done|done|]. by eapply service_explains_relation.
Qed.

Lemma hosts_implement_service_witness :
  exists rs, service_explains cfg scenario rs.
Proof.
  destruct (hosts_implement_service cfg scenario cfg_valid scenario_reachable)
    as (rs0 & rs & _ & _ & H). by exists rs.
Defined.
