(* ===== verification/Marshalling.v ===== *)
(** * Marshalling

    implementation/common/marshalling.rs: the [Marshalable] trait, its
    implementations for integers, booleans, byte strings, options, vectors, hash
    maps and pairs, and the macros that derive it for structs and enums.

    A deserializer reads [data] from an index and gives the value and the index
    after it ([Done]), or [None] ([Failed]).  [Vec::with_capacity] and
    [HashMap::with_capacity] panic on a length they cannot allocate
    ([Panicked]).  Its loops run on a fuel of the data's length, which is enough
    ([OutOfFuel] is never returned). *)

From stdpp Require Import prelude gmap sets list numbers fin_sets.
From Stdlib Require Import ZArith Lia.
From S2P Require Import Prelude.

#[local] Open Scope Z_scope.

Definition USIZE_MAX : Z := U64_MODULUS - 1.
Definition ISIZE_MAX : Z := 2 ^ 63 - 1.
Definition is_u8 (b : Z) : Prop := 0 <= b < 256.

#[export] Instance is_u8_dec b : Decision (is_u8 b).
Proof. unfold is_u8. apply _. Defined.

(** ** Outcomes *)

Inductive Outcome (A : Type) : Type :=
  | Done (a : A)
  | Failed
  | Panicked
  | OutOfFuel.
Arguments Done {_} _.
Arguments Failed {_}.
Arguments Panicked {_}.
Arguments OutOfFuel {_}.

Definition obind {A B} (o : Outcome A) (k : A -> Outcome B) : Outcome B :=
  match o with
  | Done a => k a
  | Failed => Failed
  | Panicked => Panicked
  | OutOfFuel => OutOfFuel
  end.

Notation "' p <-? e ; k" := (obind e (fun p => k))
  (at level 100, p pattern, e at next level, k at level 200, only parsing).

Section outcomes.
Context {A B : Type}.
Implicit Types (o : Outcome A) (f : A -> Outcome B).

Lemma obind_Done o f b : obind o f = Done b <-> exists a, o = Done a /\ f a = Done b.
Proof. destruct o; simpl; naive_solver. Qed.

Lemma obind_fuel o f :
  o <> OutOfFuel -> (forall a, o = Done a -> f a <> OutOfFuel) -> obind o f <> OutOfFuel.
Proof. destruct o; naive_solver. Qed.
End outcomes.

(** ** The trait *)

(** A type's marshaller.  [rep] is the set of values of the Rust type among
    those of its model (an integer's range, a vector that fits in memory).  The
    code's [serialize(&self, data: &mut Vec<u8>)] gives the new [data]. *)
Record Marshalable (A : Type) := MkMarshalable
  { rep : A -> Prop;
    is_marshalable : A -> Prop;
    _is_marshalable : A -> bool;
    ghost_serialize : A -> list Z;
    serialized_size : A -> Z;
    serialize : A -> list Z -> list Z;
    deserialize : list Z -> Z -> Outcome (A * Z) }.
Arguments MkMarshalable {_} _ _ _ _ _ _ _.
Arguments rep {_} _ _.
Arguments is_marshalable {_} _ _.
Arguments _is_marshalable {_} _ _.
Arguments ghost_serialize {_} _ _.
Arguments serialized_size {_} _ _.
Arguments serialize {_} _ _ _.
Arguments deserialize {_} _ _ _.

(** ** u64, usize, bool *)

(** vstd's [u64_to_le_bytes] and [u64_from_le_bytes]. *)
Fixpoint le_bytes (n : nat) (v : Z) : list Z :=
  match n with
  | O => []
  | S n => Z.land v 255 :: le_bytes n (Z.shiftr v 8)
  end.

Fixpoint of_le_bytes (bs : list Z) : Z :=
  match bs with
  | [] => 0
  | b :: bs => Z.lor b (Z.shiftl (of_le_bytes bs) 8)
  end.

Definition u64_to_le_bytes (v : Z) : list Z := le_bytes 8 v.
Definition u64_from_le_bytes (bs : list Z) : Z := of_le_bytes bs.

(** The loop [while i < 8 { data.push(s[i]); i = i + 1; }]. *)
Fixpoint push_all (bs data : list Z) : list Z :=
  match bs with
  | [] => data
  | b :: bs => push_all bs (data ++ [b])
  end.

Definition u64_deserialize (data : list Z) (start : Z) : Outcome (Z * Z) :=
  if decide (seq_len data < 8) then Failed
  else if decide (start > seq_len data - 8) then Failed
  else
    let end_ := start + 8 in
    Done (u64_from_le_bytes (seq_subrange data start end_), end_).

Definition u64_m : Marshalable Z :=
  {| rep := is_u64;
     is_marshalable := fun _ => True;
     _is_marshalable := fun _ => true;
     ghost_serialize := u64_to_le_bytes;
     serialized_size := fun _ => 8;
     serialize := fun v data => push_all (u64_to_le_bytes v) data;
     deserialize := u64_deserialize |}.

Definition bool_u8 (b : bool) : Z := if b then 1 else 0.

Definition bool_deserialize (data : list Z) (start : Z) : Outcome (bool * Z) :=
  if decide (start >= seq_len data) then Failed
  else
    let b := seq_index data start in
    if decide (b = 0) then Done (false, start + 1)
    else if decide (b = 1) then Done (true, start + 1)
    else Failed.

Definition bool_m : Marshalable bool :=
  {| rep := fun _ => True;
     is_marshalable := fun _ => True;
     _is_marshalable := fun _ => true;
     ghost_serialize := fun b => [bool_u8 b];
     serialized_size := fun _ => 1;
     serialize := fun b data => data ++ [bool_u8 b];
     deserialize := bool_deserialize |}.

(** [usize] is a 64-bit integer here, as on the targets of the runtime. *)
Definition usize_m : Marshalable Z :=
  {| rep := fun n => 0 <= n <= USIZE_MAX;
     is_marshalable := fun n => n <= USIZE_MAX;
     _is_marshalable := fun n => bool_decide (n <= USIZE_MAX);
     ghost_serialize := fun n => ghost_serialize u64_m n;
     serialized_size := fun n => serialized_size u64_m n;
     serialize := fun n data => serialize u64_m n data;
     deserialize := fun data start =>
       '(r, end_) <-? deserialize u64_m data start;
       if decide (r <= USIZE_MAX) then Done (r, end_) else Failed |}.

(** ** Byte strings *)

Definition vec_u8_deserialize (data : list Z) (start : Z) : Outcome (list Z * Z) :=
  '(len, mid) <-? deserialize usize_m data start;
  if decide (USIZE_MAX - mid >= len) then
    let end_ := mid + len in
    if decide (end_ > seq_len data) then Failed
    else Done (seq_subrange data mid end_, end_)
  else Failed.

Definition vec_u8_m : Marshalable (list Z) :=
  {| rep := fun v => Forall is_u8 v /\ seq_len v <= ISIZE_MAX;
     is_marshalable := fun v =>
       seq_len v <= USIZE_MAX
       /\ seq_len (ghost_serialize usize_m (seq_len v)) + seq_len v <= USIZE_MAX;
     _is_marshalable := fun v =>
       bool_decide (seq_len v <= USIZE_MAX)
       && bool_decide (serialized_size usize_m (seq_len v) <= USIZE_MAX - seq_len v);
     ghost_serialize := fun v => ghost_serialize usize_m (seq_len v) ++ v;
     serialized_size := fun v => u64_add (serialized_size usize_m (seq_len v)) (seq_len v);
     serialize := fun v data => push_all v (serialize usize_m (seq_len v) data);
     deserialize := vec_u8_deserialize |}.

(** ** Options *)

Definition option_deserialize {A} (c : Marshalable A) (data : list Z) (start : Z)
  : Outcome (option A * Z) :=
  if decide (seq_len data = 0 \/ start > seq_len data - 1) then Failed
  else
    let tag := seq_index data start in
    if decide (tag = 0) then Done (None, start + 1)
    else if decide (tag = 1) then
      '(x, mid) <-? deserialize c data (start + 1);
      Done (Some x, mid)
    else Failed.

Definition option_m {A} (c : Marshalable A) : Marshalable (option A) :=
  {| rep := fun o => match o with None => True | Some x => rep c x end;
     is_marshalable := fun o =>
       match o with
       | None => True
       | Some x => is_marshalable c x /\ 1 + seq_len (ghost_serialize c x) <= USIZE_MAX
       end;
     _is_marshalable := fun o =>
       match o with
       | None => true
       | Some x => _is_marshalable c x && bool_decide (serialized_size c x <= USIZE_MAX - 1)
       end;
     ghost_serialize := fun o =>
       match o with None => [0] | Some x => [1] ++ ghost_serialize c x end;
     serialized_size := fun o =>
       match o with None => 1 | Some x => u64_add 1 (serialized_size c x) end;
     serialize := fun o data =>
       match o with
       | None => data ++ [0]
       | Some x => serialize c x (data ++ [1])
       end;
     deserialize := option_deserialize c |}.

(** ** Pairs *)

Definition pair_deserialize {A B} (c : Marshalable A) (d : Marshalable B) (data : list Z)
    (start : Z) : Outcome ((A * B) * Z) :=
  '(t, mid) <-? deserialize c data start;
  '(u, end_) <-? deserialize d data mid;
  Done ((t, u), end_).

Definition pair_m {A B} (c : Marshalable A) (d : Marshalable B) : Marshalable (A * B) :=
  {| rep := fun p => rep c p.1 /\ rep d p.2;
     is_marshalable := fun p =>
       is_marshalable c p.1 /\ is_marshalable d p.2
       /\ seq_len (ghost_serialize c p.1) + seq_len (ghost_serialize d p.2) <= USIZE_MAX;
     _is_marshalable := fun p =>
       _is_marshalable c p.1 && _is_marshalable d p.2
       && bool_decide (serialized_size c p.1 <= USIZE_MAX - serialized_size d p.2);
     ghost_serialize := fun p => ghost_serialize c p.1 ++ ghost_serialize d p.2;
     serialized_size := fun p => u64_add (serialized_size c p.1) (serialized_size d p.2);
     serialize := fun p data => serialize d p.2 (serialize c p.1 data);
     deserialize := pair_deserialize c d |}.

(** ** Vectors *)

(** The lengths for which a container's [with_capacity] does not panic.  A
    capacity in bytes above [isize::MAX] panics, and items take at least a byte. *)
Record Capacity := MkCapacity
  { capacity_ok : Z -> bool;
    capacity_mono m n : m <= n -> capacity_ok n = true -> capacity_ok m = true;
    capacity_limit n : capacity_ok n = true -> n <= ISIZE_MAX }.

(** [Vec::with_capacity] for items of [size] bytes. *)
Program Definition capacity_of_size (size : Z) (H : 1 <= size) : Capacity :=
  {| capacity_ok := fun n => n * size <=? ISIZE_MAX |}.
Next Obligation. intros size H m n Hle. rewrite !Z.leb_le. nia. Qed.
Next Obligation. intros size H n. rewrite Z.leb_le. unfold ISIZE_MAX. nia. Qed.

(** [while i < len { let (x, end1) = item(data, end)?; res.add(x); end = end1; i = i + 1; }] *)
Fixpoint items_loop {A R} (item : list Z -> Z -> Outcome (A * Z)) (add : R -> A -> R)
    (fuel : nat) (data : list Z) (len i end_ : Z) (res : R) : Outcome (R * Z) :=
  if decide (i < len) then
    match fuel with
    | O => OutOfFuel
    | S fuel =>
        '(x, end1) <-? item data end_;
        items_loop item add fuel data len (i + 1) end1 (add res x)
    end
  else Done (res, end_).

Definition vec_deserialize {A} (cap : Capacity) (c : Marshalable A) (data : list Z) (start : Z)
  : Outcome (list A * Z) :=
  '(len, mid) <-? deserialize usize_m data start;
  if capacity_ok cap len then
    items_loop (deserialize c) (fun res x => res ++ [x]) (length data) data len 0 mid []
  else Panicked.

Fixpoint vec_check {A} (c : Marshalable A) (v : list A) (total_len : Z) : bool :=
  match v with
  | [] => true
  | x :: v =>
      if _is_marshalable c x && bool_decide (USIZE_MAX - total_len >= serialized_size c x)
      then vec_check c v (u64_add total_len (serialized_size c x))
      else false
  end.

Definition vec_m {A} (cap : Capacity) (c : Marshalable A) : Marshalable (list A) :=
  {| rep := fun v => Forall (rep c) v /\ capacity_ok cap (seq_len v) = true;
     is_marshalable := fun v =>
       seq_len v <= USIZE_MAX
       /\ Forall (is_marshalable c) v
       /\ seq_len (ghost_serialize usize_m (seq_len v))
          + foldl (fun acc x => acc + seq_len (ghost_serialize c x)) 0 v <= USIZE_MAX;
     _is_marshalable := fun v => vec_check c v (serialized_size usize_m (seq_len v));
     ghost_serialize := fun v =>
       ghost_serialize usize_m (seq_len v) ++ foldl (fun acc x => acc ++ ghost_serialize c x) [] v;
     serialized_size := fun v =>
       foldl (fun res x => u64_add res (serialized_size c x)) (serialized_size usize_m (seq_len v)) v;
     serialize := fun v data =>
       foldl (fun data x => serialize c x data) (serialize usize_m (seq_len v) data) v;
     deserialize := vec_deserialize cap c |}.

(** ** Hash maps *)

(** The order in which a hash map's iterators yield its entries: [keys()] and
    [values()] visit them in one arbitrary order. *)
Record HashOrder (K V : Type) `{Countable K} := MkHashOrder
  { hash_entries : gmap K V -> list (K * V);
    hash_entries_perm m : hash_entries m ≡ₚ map_to_list m }.
Arguments hash_entries {_ _ _ _} _ _.
Arguments hash_entries_perm {_ _ _ _} _ _.

Definition map_order {K V} `{Countable K} : HashOrder K V :=
  {| hash_entries := map_to_list; hash_entries_perm := fun m => reflexivity _ |}.

Section hashmap.
Context {K V : Type} `{Countable K}.
Context (cap : Capacity) (order : HashOrder K V) (ck : Marshalable K) (cv : Marshalable V).
Implicit Types (m : gmap K V).

(** [self.keys().cloned().collect()], [self.values().cloned().collect()]. *)
Definition hash_keys m : list K := (hash_entries order m).*1.
Definition hash_values m : list V := (hash_entries order m).*2.

(** [while i < keys.len() { keys[i].serialize(data); values[i].serialize(data); i = i + 1; }] *)
Fixpoint hashmap_serialize_loop (keys : list K) (values : list V) (data : list Z) : list Z :=
  match keys, values with
  | k :: keys, v :: values =>
      hashmap_serialize_loop keys values (serialize cv v (serialize ck k data))
  | _, _ => data
  end.

Definition hashmap_deserialize (data : list Z) (start : Z) : Outcome (gmap K V * Z) :=
  '(len, mid) <-? deserialize usize_m data start;
  if capacity_ok cap len then
    items_loop (pair_deserialize ck cv) (fun m kv => <[kv.1 := kv.2]> m) (length data) data len 0
      mid ∅
  else Panicked.

(** The trusted specification puts all the keys before all the values, and
    [serialized_size] and [_is_marshalable] are constant. *)
Definition hashmap_m : Marshalable (gmap K V) :=
  {| rep := fun m =>
       (forall k v, m !! k = Some v -> rep ck k /\ rep cv v)
       /\ capacity_ok cap (Z.of_nat (size m)) = true;
     is_marshalable := fun m =>
       Z.of_nat (size m) <= USIZE_MAX
       /\ Forall (is_marshalable ck) (hash_keys m)
       /\ Forall (is_marshalable cv) (hash_values m)
       /\ seq_len (ghost_serialize usize_m (Z.of_nat (size m)))
          + foldl (fun acc x => acc + seq_len (ghost_serialize ck x)) 0 (hash_keys m)
          + foldl (fun acc x => acc + seq_len (ghost_serialize cv x)) 0 (hash_values m) <= USIZE_MAX;
     _is_marshalable := fun _ => true;
     ghost_serialize := fun m =>
       ghost_serialize usize_m (Z.of_nat (size m))
       ++ foldl (fun acc x => acc ++ ghost_serialize ck x) [] (hash_keys m)
       ++ foldl (fun acc x => acc ++ ghost_serialize cv x) [] (hash_values m);
     serialized_size := fun _ => 0;
     serialize := fun m data =>
       hashmap_serialize_loop (hash_keys m) (hash_values m)
         (serialize usize_m (Z.of_nat (size m)) data);
     deserialize := hashmap_deserialize |}.
End hashmap.

(** ** derive_marshalable_for_struct *)

(** The fields of a struct, in order; their values as nested pairs. *)
Inductive Fields : Type -> Type :=
  | FNil : Fields unit
  | FCons {A F} (c : Marshalable A) (f : Fields F) : Fields (A * F).

Fixpoint fields_rep {F} (f : Fields F) : F -> Prop :=
  match f with
  | FNil => fun _ => True
  | FCons c f => fun p => rep c p.1 /\ fields_rep f p.2
  end.

Fixpoint fields_marshalable {F} (f : Fields F) : F -> Prop :=
  match f with
  | FNil => fun _ => True
  | FCons c f => fun p => is_marshalable c p.1 /\ fields_marshalable f p.2
  end.

Fixpoint _fields_marshalable {F} (f : Fields F) : F -> bool :=
  match f with
  | FNil => fun _ => true
  | FCons c f => fun p => _is_marshalable c p.1 && _fields_marshalable f p.2
  end.

Fixpoint fields_ghost {F} (f : Fields F) : F -> list Z :=
  match f with
  | FNil => fun _ => []
  | FCons c f => fun p => ghost_serialize c p.1 ++ fields_ghost f p.2
  end.

Fixpoint fields_sizes {F} (f : Fields F) : F -> list Z :=
  match f with
  | FNil => fun _ => []
  | FCons c f => fun p => serialized_size c p.1 :: fields_sizes f p.2
  end.

Fixpoint fields_serialize {F} (f : Fields F) : F -> list Z -> list Z :=
  match f with
  | FNil => fun _ data => data
  | FCons c f => fun p data => fields_serialize f p.2 (serialize c p.1 data)
  end.

Fixpoint fields_deserialize {F} (f : Fields F) (data : list Z) (mid : Z) : Outcome (F * Z) :=
  match f in Fields F return Outcome (F * Z) with
  | FNil => Done (tt, mid)
  | FCons c f =>
      '(x, mid) <-? deserialize c data mid;
      '(xs, end_) <-? fields_deserialize f data mid;
      Done ((x, xs), end_)
  end.

(** [no_usize_overflows!(total, sizes)]. *)
Fixpoint no_usize_overflows (total : Z) (sizes : list Z) : bool :=
  match sizes with
  | [] => true
  | a :: sizes => bool_decide (USIZE_MAX - total >= a) && no_usize_overflows (u64_add total a) sizes
  end.

Definition struct_deserialize {F S} (f : Fields F) (build : F -> S) (data : list Z) (start : Z)
  : Outcome (S * Z) :=
  '(xs, end_) <-? fields_deserialize f data start;
  Done (build xs, end_).

Definition derive_marshalable_for_struct {F S} (f : Fields F) (build : F -> S) (fields : S -> F)
  : Marshalable S :=
  {| rep := fun s => fields_rep f (fields s);
     is_marshalable := fun s =>
       fields_marshalable f (fields s) /\ 0 + seq_len (fields_ghost f (fields s)) <= USIZE_MAX;
     _is_marshalable := fun s =>
       _fields_marshalable f (fields s) && no_usize_overflows 0 (fields_sizes f (fields s));
     ghost_serialize := fun s => [] ++ fields_ghost f (fields s);
     serialized_size := fun s => foldl u64_add 0 (fields_sizes f (fields s));
     serialize := fun s data => fields_serialize f (fields s) data;
     deserialize := struct_deserialize f build |}.

(** ** derive_marshalable_for_enum *)

(** A variant: its tag, fields and constructor. *)
Record Arm (E : Type) := MkArm
  { arm_type : Type;
    arm_tag : Z;
    arm_fields : Fields arm_type;
    arm_build : arm_type -> E }.
Arguments MkArm {_} _ _ _ _.
Arguments arm_type {_} _.
Arguments arm_tag {_} _.
Arguments arm_fields {_} _.
Arguments arm_build {_} _ _.

(** A value as a variant with its fields' values. *)
Record Variant (E : Type) := MkVariant { v_arm : Arm E; v_fields : arm_type v_arm }.
Arguments MkVariant {_} _ _.
Arguments v_arm {_} _.
Arguments v_fields {_} _.

Fixpoint enum_dispatch {E} (arms : list (Arm E)) (tag : Z) (data : list Z) (start : Z)
  : Outcome (E * Z) :=
  match arms with
  | [] => Failed
  | a :: arms =>
      if decide (tag = arm_tag a)
      then struct_deserialize (arm_fields a) (arm_build a) data (start + 1)
      else enum_dispatch arms tag data start
  end.

Definition enum_deserialize {E} (arms : list (Arm E)) (data : list Z) (start : Z)
  : Outcome (E * Z) :=
  if decide (start >= seq_len data) then Failed
  else enum_dispatch arms (seq_index data start) data start.

Definition derive_marshalable_for_enum {E} (arms : list (Arm E)) (variant : E -> Variant E)
  : Marshalable E :=
  {| rep := fun x => fields_rep (arm_fields (v_arm (variant x))) (v_fields (variant x));
     is_marshalable := fun x => let v := variant x in
       fields_marshalable (arm_fields (v_arm v)) (v_fields v)
       /\ 1 + seq_len (fields_ghost (arm_fields (v_arm v)) (v_fields v)) <= USIZE_MAX;
     _is_marshalable := fun x => let v := variant x in
       _fields_marshalable (arm_fields (v_arm v)) (v_fields v)
       && no_usize_overflows 0 (1 :: fields_sizes (arm_fields (v_arm v)) (v_fields v));
     ghost_serialize := fun x => let v := variant x in
       [arm_tag (v_arm v)] ++ fields_ghost (arm_fields (v_arm v)) (v_fields v);
     serialized_size := fun x => let v := variant x in
       foldl u64_add 1 (fields_sizes (arm_fields (v_arm v)) (v_fields v));
     serialize := fun x data => let v := variant x in
       fields_serialize (arm_fields (v_arm v)) (v_fields v) (data ++ [arm_tag (v_arm v)]);
     deserialize := enum_deserialize arms |}.

(** ** marshalable_by_bijection *)

Definition marshalable_by_bijection {A B} (c : Marshalable B) (forward : A -> B)
    (backward : B -> A) : Marshalable A :=
  {| rep := fun x => rep c (forward x);
     is_marshalable := fun x => is_marshalable c (forward x);
     _is_marshalable := fun x => _is_marshalable c (forward x);
     ghost_serialize := fun x => ghost_serialize c (forward x);
     serialized_size := fun x => serialized_size c (forward x);
     serialize := fun x data => serialize c (forward x) data;
     deserialize := fun data start =>
       '(m, end_) <-? deserialize c data start;
       Done (backward m, end_) |}.
