(* ===== verification/MarshallingLaws.v ===== *)
(** * The laws of marshalling

    Every marshaller of Marshalling.v reads back what it wrote, fails on every
    proper prefix of it, only gives values of its type, consumes at least a
    byte, and never runs out of fuel.  Those without hash maps are exact too: they
    write what their specification says, in the size it says, and accept
    nothing else. *)

From stdpp Require Import prelude gmap sets list numbers fin_sets.
From Stdlib Require Import ZArith Lia.
From S2P Require Import Prelude.
From S2P Require Import Marshalling.

#[local] Open Scope Z_scope.

(** ** Slices *)

Section slices.
Context {A : Type} `{Inhabited A}.
Implicit Types (l pre w post : list A).

Lemma seq_subrange_middle pre w post :
  seq_subrange (pre ++ w ++ post) (seq_len pre) (seq_len pre + seq_len w) = w.
Proof.
  unfold seq_subrange, seq_len. replace (Z.to_nat _) with (length w) by lia.
  rewrite Nat2Z.id, drop_app_length. apply take_app_length.
Qed.

Lemma seq_subrange_middle' pre w post i j :
  i = seq_len pre -> j = seq_len pre + seq_len w -> seq_subrange (pre ++ w ++ post) i j = w.
Proof. intros -> ->. apply seq_subrange_middle. Qed.

Lemma seq_index_middle pre x post : seq_index (pre ++ x :: post) (seq_len pre) = x.
Proof.
  unfold seq_index. unfold seq_len. rewrite seq_get_of_nat.
  by rewrite list_lookup_middle.
Qed.

Lemma seq_subrange_length l i j :
  0 <= i <= j -> j <= seq_len l -> seq_len (seq_subrange l i j) = j - i.
Proof. unfold seq_subrange, seq_len. intros. rewrite length_take, length_drop. lia. Qed.

Lemma seq_subrange_join l i j k :
  0 <= i <= j -> j <= k -> k <= seq_len l ->
  seq_subrange l i k = seq_subrange l i j ++ seq_subrange l j k.
Proof.
  unfold seq_subrange, seq_len. intros Hi Hj Hk.
  replace (Z.to_nat (k - i)) with (Z.to_nat (j - i) + Z.to_nat (k - j))%nat by lia.
  rewrite <- take_take_drop, drop_drop. do 3 f_equal. lia.
Qed.

Lemma seq_subrange_one l i : 0 <= i < seq_len l -> seq_subrange l i (i + 1) = [seq_index l i].
Proof.
  intros Hi. pose proof (seq_get_index l i Hi) as Hg. unfold seq_get in Hg.
  rewrite decide_True in Hg by lia. unfold seq_subrange.
  replace (Z.to_nat (i + 1 - i)) with 1%nat by lia. by rewrite (drop_S _ _ _ Hg).
Qed.

Lemma seq_subrange_nil l i : seq_subrange l i i = [].
Proof. unfold seq_subrange. by rewrite Z.sub_diag. Qed.

Lemma Forall_subrange (P : A -> Prop) l i j : Forall P l -> Forall P (seq_subrange l i j).
Proof. intros Hl. apply Forall_take, Forall_drop, Hl. Qed.

Lemma Forall_index (P : A -> Prop) l i : Forall P l -> 0 <= i < seq_len l -> P (seq_index l i).
Proof. rewrite Forall_forall. intros Hl Hi. by apply Hl, seq_index_elem_of. Qed.
End slices.

(** ** Integers as bytes *)

Lemma le_bytes_length n v : length (le_bytes n v) = n.
Proof. revert v. induction n as [|n IH]; intros v; simpl; [done|by rewrite IH]. Qed.

Lemma land_255 v : Z.land v 255 = v mod 256.
Proof. exact (Z.land_ones v 8 ltac:(lia)). Qed.

Lemma le_bytes_u8 n v : Forall is_u8 (le_bytes n v).
Proof.
  revert v. induction n as [|n IH]; intros v; simpl; constructor; [|done].
  rewrite land_255. unfold is_u8. apply Z.mod_pos_bound. lia.
Qed.

(** A byte and the rest above it: [lor] adds. *)
Lemma lor_shiftl_8 b r : is_u8 b -> Z.lor b (Z.shiftl r 8) = b + r * 256.
Proof.
  intros Hb. assert (Z.land b (Z.shiftl r 8) = 0) as H0.
  { apply Z.bits_inj'. intros n Hn. rewrite Z.land_spec, Z.bits_0.
    destruct (decide (n < 8)).
    - by rewrite Z.shiftl_spec_low, andb_false_r by lia.
    - unfold is_u8 in Hb. rewrite <- (Z.mod_small b (2 ^ 8)) by lia.
      by rewrite Z.mod_pow2_bits_high by lia. }
  pose proof (Z.add_lor_land b (Z.shiftl r 8)) as H. rewrite H0, Z.shiftl_mul_pow2 in * by lia.
  change (2 ^ 8) with 256 in *. lia.
Qed.

Lemma of_le_bytes_le n v : 0 <= v < 2 ^ (8 * Z.of_nat n) -> of_le_bytes (le_bytes n v) = v.
Proof.
  revert v. induction n as [|n IH]; intros v Hv; simpl.
  - change (2 ^ (8 * Z.of_nat 0)) with 1 in Hv. lia.
  - rewrite lor_shiftl_8 by (rewrite land_255; apply Z.mod_pos_bound; lia).
    rewrite Z.shiftr_div_pow2, land_255 by lia. change (2 ^ 8) with 256.
    replace (8 * Z.of_nat (S n)) with (8 * Z.of_nat n + 8) in Hv by lia.
    rewrite Z.pow_add_r in Hv by lia. change (2 ^ 8) with 256 in Hv.
    rewrite IH; [rewrite (Z.div_mod v 256) at 3; lia|].
    split; [apply Z.div_pos; lia|apply Z.div_lt_upper_bound; lia].
Qed.

Lemma of_le_bytes_range bs : Forall is_u8 bs -> 0 <= of_le_bytes bs < 2 ^ (8 * seq_len bs).
Proof.
  induction 1 as [|b bs Hb _ IH]; simpl; [done|].
  rewrite lor_shiftl_8 by done. replace (8 * seq_len (b :: bs)) with (8 * seq_len bs + 8).
  2: { unfold seq_len. simpl length. lia. }
  rewrite Z.pow_add_r by (pose proof (seq_len_nonneg bs); lia). change (2 ^ 8) with 256.
  unfold is_u8 in Hb. lia.
Qed.

Lemma le_bytes_of_le bs : Forall is_u8 bs -> le_bytes (length bs) (of_le_bytes bs) = bs.
Proof.
  induction 1 as [|b bs Hb Hbs IH]; simpl; [done|].
  rewrite lor_shiftl_8 by done. unfold is_u8 in Hb. f_equal.
  - rewrite land_255, Z.mod_add by lia. by apply Z.mod_small.
  - rewrite Z.shiftr_div_pow2 by lia. change (2 ^ 8) with 256.
    by rewrite Z.div_add, (Z.div_small b), Z.add_0_l by lia.
Qed.

Lemma push_all_app bs d : push_all bs d = d ++ bs.
Proof.
  revert d. induction bs as [|b bs IH]; intros d; simpl; [by rewrite app_nil_r|].
  by rewrite IH, <- app_assoc.
Qed.

(** ** The laws *)

(** What a value is on the wire. *)
Definition wire {A} (c : Marshalable A) (x : A) : list Z := serialize c x [].
Arguments wire : simpl never.
Arguments u64_to_le_bytes : simpl never.
Arguments u64_from_le_bytes : simpl never.

(** Bytes that a [Vec<u8>] can hold. *)
Definition is_data (d : list Z) : Prop := Forall is_u8 d /\ seq_len d <= ISIZE_MAX.

Class MarshalOk {A} (c : Marshalable A) : Prop := {
  serialize_app x d : serialize c x d = d ++ wire c x;
  wire_bytes x : rep c x -> Forall is_u8 (wire c x);
  roundtrip x pre post : rep c x -> seq_len (pre ++ wire c x ++ post) <= ISIZE_MAX ->
    deserialize c (pre ++ wire c x ++ post) (seq_len pre) = Done (x, seq_len pre + seq_len (wire c x));
  truncated x pre k : rep c x -> (k < length (wire c x))%nat ->
    seq_len (pre ++ take k (wire c x)) <= ISIZE_MAX ->
    deserialize c (pre ++ take k (wire c x)) (seq_len pre) = Failed;
  parsed d s x e : is_data d -> 0 <= s -> deserialize c d s = Done (x, e) ->
    rep c x /\ s < e <= seq_len d;
  fuel_enough d s : is_data d -> 0 <= s -> deserialize c d s <> OutOfFuel
}.

(** A marshaller that agrees with its specification. *)
Class MarshalExact {A} (c : Marshalable A) : Prop := {
  exact_wire x : wire c x = ghost_serialize c x;
  exact_size x : rep c x -> is_marshalable c x -> serialized_size c x = seq_len (ghost_serialize c x);
  exact_check x : rep c x -> _is_marshalable c x = true <-> is_marshalable c x;
  canonical d s x e : is_data d -> 0 <= s -> deserialize c d s = Done (x, e) ->
    seq_subrange d s e = ghost_serialize c x
}.

Section consequences.
Context {A} (c : Marshalable A) `{!MarshalOk c}.

Lemma wire_nonempty x : rep c x -> (0 < length (wire c x))%nat.
Proof.
  intros Hx. destruct (wire c x) as [|b w] eqn:Hw; [|simpl; lia]. exfalso.
  pose proof (roundtrip x [] [] Hx) as Hr. rewrite Hw in Hr.
  specialize (Hr ltac:(done)).
  destruct (parsed (c := c) [] 0 x 0 ltac:(by split) ltac:(lia) Hr) as [_ He]. unfold seq_len in He.
  simpl in He. lia.
Qed.

(** The laws with the data and the indices given by equations. *)
Lemma roundtrip_at d s e x pre post :
  rep c x -> seq_len d <= ISIZE_MAX -> d = pre ++ wire c x ++ post -> s = seq_len pre ->
  e = seq_len pre + seq_len (wire c x) -> deserialize c d s = Done (x, e).
Proof. intros Hx Hl -> -> ->. by apply roundtrip. Qed.

Lemma truncated_at d s x pre k :
  rep c x -> (k < length (wire c x))%nat -> seq_len d <= ISIZE_MAX ->
  d = pre ++ take k (wire c x) -> s = seq_len pre -> deserialize c d s = Failed.
Proof. intros Hx Hk Hl -> ->. by apply truncated. Qed.
End consequences.

(** ** Integers and booleans *)

Lemma u64_wire v : wire u64_m v = u64_to_le_bytes v.
Proof. apply push_all_app. Qed.

Lemma u64_wire_len v : seq_len (wire u64_m v) = 8.
Proof. rewrite u64_wire. unfold seq_len, u64_to_le_bytes. by rewrite le_bytes_length. Qed.

Lemma u64_deserialize_spec d s :
  0 <= s ->
  deserialize u64_m d s
  = if decide (s + 8 <= seq_len d) then Done (u64_from_le_bytes (seq_subrange d s (s + 8)), s + 8)
    else Failed.
Proof.
  intros Hs. simpl. unfold u64_deserialize. pose proof (seq_len_nonneg d).
  repeat case_decide; try done; lia.
Qed.

#[export] Instance u64_ok : MarshalOk u64_m.
Proof.
  split.
  - intros x d. by rewrite u64_wire, <- push_all_app.
  - intros x _. rewrite u64_wire. apply le_bytes_u8.
  - intros x pre post Hx _. rewrite u64_deserialize_spec by apply seq_len_nonneg.
    pose proof (u64_wire_len x) as Hl. rewrite decide_True.
    2: { rewrite !seq_len_app. pose proof (seq_len_nonneg post). lia. }
    rewrite seq_subrange_middle' by lia. rewrite Hl. do 2 f_equal. rewrite u64_wire.
    by apply of_le_bytes_le.
  - intros x pre k Hx Hk _. rewrite u64_deserialize_spec by apply seq_len_nonneg.
    pose proof (u64_wire_len x) as Hl. unfold seq_len in *. rewrite decide_False; [done|].
    rewrite length_app, length_take. lia.
  - intros d s x e Hd Hs. rewrite u64_deserialize_spec by done. case_decide; [|done].
    intros [= <- <-]. split; [|lia].
    pose proof (of_le_bytes_range (seq_subrange d s (s + 8)) (Forall_subrange _ _ _ _ (proj1 Hd))) as Hr.
    rewrite seq_subrange_length in Hr by lia. unfold is_u64, U64_MODULUS.
    replace (8 * (s + 8 - s)) with 64 in Hr by lia. exact Hr.
  - intros d s _ Hs. rewrite u64_deserialize_spec by done. by case_decide.
Qed.

#[export] Instance u64_exact : MarshalExact u64_m.
Proof.
  split; [apply u64_wire| |done|].
  - intros x _ _. by rewrite <- u64_wire, u64_wire_len.
  - intros d s x e Hd Hs. rewrite u64_deserialize_spec by done. case_decide; [|done].
    intros [= <- <-]. pose proof (seq_subrange_length d s (s + 8)) as Hl.
    assert (length (seq_subrange d s (s + 8)) = 8%nat) as Hn by (unfold seq_len in *; lia).
    change (ghost_serialize u64_m _)
      with (le_bytes 8 (of_le_bytes (seq_subrange d s (s + 8)))).
    rewrite <- Hn. symmetry. apply le_bytes_of_le, Forall_subrange, Hd.
Qed.

Lemma usize_deserialize_eq d s :
  deserialize usize_m d s
  = ('(r, end_) <-? deserialize u64_m d s; if decide (r <= USIZE_MAX) then Done (r, end_) else Failed).
Proof. done. Qed.

Lemma usize_wire n : wire usize_m n = wire u64_m n.
Proof. done. Qed.

Lemma usize_deserialize_spec d s :
  is_data d -> 0 <= s -> deserialize usize_m d s = deserialize u64_m d s.
Proof.
  intros Hd Hs. rewrite usize_deserialize_eq.
  destruct (deserialize u64_m d s) as [[r e]| | |] eqn:Hr; try done. simpl.
  destruct (parsed (c := u64_m) d s r e Hd Hs Hr) as [Hx _]. rewrite decide_True; [done|].
  unfold USIZE_MAX. simpl in Hx. unfold is_u64 in Hx. lia.
Qed.

Lemma usize_rep n : rep usize_m n <-> is_u64 n.
Proof. simpl. unfold is_u64, USIZE_MAX. lia. Qed.

#[export] Instance usize_ok : MarshalOk usize_m.
Proof.
  split.
  - apply (serialize_app (c := u64_m)).
  - intros x Hx%usize_rep. by apply (wire_bytes (c := u64_m)).
  - intros x pre post Hx Hl. pose proof Hx as Hx'. apply usize_rep in Hx'.
    rewrite usize_deserialize_eq, usize_wire, (roundtrip (c := u64_m)) by done. simpl.
    by rewrite decide_True by apply Hx.
  - intros x pre k Hx%usize_rep Hk Hl.
    by rewrite usize_deserialize_eq, usize_wire, (truncated (c := u64_m)) by done.
  - intros d s x e Hd Hs. rewrite usize_deserialize_spec by done. intros H.
    destruct (parsed (c := u64_m) d s x e Hd Hs H). by rewrite usize_rep.
  - intros d s Hd Hs. rewrite usize_deserialize_eq. apply obind_fuel; [by apply (fuel_enough (c := u64_m))|].
    intros [r e] _. by case_decide.
Qed.

#[export] Instance usize_exact : MarshalExact usize_m.
Proof.
  split.
  - apply (exact_wire (c := u64_m)).
  - intros x Hx%usize_rep _. by apply (exact_size (c := u64_m)).
  - intros x _. apply bool_decide_eq_true.
  - intros d s x e Hd Hs. rewrite usize_deserialize_spec by done.
    by apply (canonical (c := u64_m)).
Qed.

#[export] Instance bool_ok : MarshalOk bool_m.
Proof.
  assert (forall (pre : list Z) b post, 
    ~ seq_len pre >= seq_len (pre ++ b :: post)) as Hlt.
  { intros pre b post. unfold seq_len. rewrite length_app. simpl. lia. }
  split.
  - done.
  - intros [] _; by repeat constructor.
  - intros x pre post _ _. simpl. unfold bool_deserialize. rewrite decide_False by apply Hlt.
    rewrite seq_index_middle. by destruct x.
  - intros x pre k _ Hk _. simpl. unfold bool_deserialize. replace k with 0%nat.
    2: { destruct x; simpl in Hk; lia. }
    rewrite app_nil_r. rewrite decide_True; [done|lia].
  - intros d s x e _ Hs. simpl. unfold bool_deserialize. repeat case_decide; try done;
      intros [= <- <-]; split; [done|lia|done|lia].
  - intros d s _ _. simpl. unfold bool_deserialize. by repeat case_decide.
Qed.

#[export] Instance bool_exact : MarshalExact bool_m.
Proof.
  split; [done|done|done|]. intros d s x e _ Hs. simpl. unfold bool_deserialize.
  case_decide; [done|]. repeat case_decide; try done; intros [= <- <-];
    rewrite seq_subrange_one by lia; simpl; congruence.
Qed.

(** Arithmetic of positions in data built with [++]. *)
Ltac positions :=
  try rewrite !seq_len_app in *; unfold seq_len in *; rewrite ?length_app, ?length_take in *;
  cbn [length] in *; lia.

Ltac same_data := rewrite <- ?app_assoc; done.

(** ** Byte strings *)

Lemma usize_wire_len n : seq_len (wire usize_m n) = 8.
Proof. apply u64_wire_len. Qed.

Lemma isize_usize n : 0 <= n <= ISIZE_MAX -> rep usize_m n.
Proof. simpl. unfold ISIZE_MAX, USIZE_MAX, U64_MODULUS. lia. Qed.

(** A length before [w]: read whole, or cut at [k]. *)
Lemma length_read d s e n pre w :
  0 <= n <= ISIZE_MAX -> seq_len d <= ISIZE_MAX -> d = pre ++ wire usize_m n ++ w ->
  s = seq_len pre -> e = seq_len pre + 8 -> deserialize usize_m d s = Done (n, e).
Proof.
  intros Hn Hl -> -> ->. apply (roundtrip_at usize_m _ _ _ _ pre w);
    [by apply isize_usize|done|done|done|by rewrite usize_wire_len].
Qed.

Lemma length_cut n pre w k :
  0 <= n <= ISIZE_MAX -> seq_len (pre ++ take k (wire usize_m n ++ w)) <= ISIZE_MAX ->
  ((k < 8)%nat /\ deserialize usize_m (pre ++ take k (wire usize_m n ++ w)) (seq_len pre) = Failed)
  \/ exists k', k = (8 + k')%nat
     /\ pre ++ take k (wire usize_m n ++ w) = (pre ++ wire usize_m n) ++ take k' w
     /\ deserialize usize_m (pre ++ take k (wire usize_m n ++ w)) (seq_len pre)
        = Done (n, seq_len (pre ++ wire usize_m n)).
Proof.
  intros Hn Hl. pose proof (usize_wire_len n) as H8. destruct (decide (k < 8)%nat); [left|right].
  - split; [done|]. rewrite take_app_le in * by positions.
    apply (truncated_at usize_m _ _ n pre k); [by apply isize_usize|positions|done|done|done].
  - exists (k - 8)%nat. rewrite take_app_ge in * by positions.
    replace (length (wire usize_m n)) with 8%nat in * by positions.
    split_and!; [lia|same_data|].
    apply (length_read _ _ _ n pre (take (k - 8) w)); try done. positions.
Qed.

Lemma vec_u8_wire v : wire vec_u8_m v = wire usize_m (seq_len v) ++ v.
Proof. apply push_all_app. Qed.

Lemma vec_u8_deserialize_eq d s :
  deserialize vec_u8_m d s
  = ('(len, mid) <-? deserialize usize_m d s;
     if decide (USIZE_MAX - mid >= len) then
       if decide (mid + len > seq_len d) then Failed
       else Done (seq_subrange d mid (mid + len), mid + len)
     else Failed).
Proof. done. Qed.

Lemma isize_lt_usize : ISIZE_MAX < USIZE_MAX.
Proof. done. Qed.

#[export] Instance vec_u8_ok : MarshalOk vec_u8_m.
Proof.
  pose proof isize_lt_usize as Hiu.
  split.
  - intros x d. change (serialize vec_u8_m x d) with (push_all x (serialize usize_m (seq_len x) d)).
    rewrite push_all_app, (serialize_app (c := usize_m)), vec_u8_wire. same_data.
  - intros x [Hx Hl]. rewrite vec_u8_wire. apply Forall_app. split; [|done].
    apply (wire_bytes (c := usize_m)), isize_usize. by split; [apply seq_len_nonneg|].
  - intros x pre post [Hx Hl] Hmax. rewrite vec_u8_deserialize_eq. rewrite vec_u8_wire in *.
    pose proof (usize_wire_len (seq_len x)). pose proof (seq_len_nonneg x).
    rewrite (length_read _ _ (seq_len pre + 8) (seq_len x) pre (x ++ post)); [|done|done|same_data|done|done].
    cbn [obind]. rewrite decide_True by positions. rewrite decide_False by positions.
    rewrite <- app_assoc, app_assoc, seq_subrange_middle' by positions. do 2 f_equal. positions.
  - intros x pre k [Hx Hl] Hk Hmax. rewrite vec_u8_deserialize_eq. rewrite vec_u8_wire in *.
    pose proof (usize_wire_len (seq_len x)). pose proof (seq_len_nonneg x).
    destruct (length_cut (seq_len x) pre x k) as [[_ ->]|(k' & -> & -> & ->)]; [done|done|done|]. cbn [obind].
    case_decide; [|done]. rewrite decide_True; [done|]. positions.
  - intros d s x e [Hd Hl] Hs. rewrite vec_u8_deserialize_eq. intros ([len mid] & H1 & H2)%obind_Done.
    destruct (parsed (c := usize_m) d s len mid) as [Hlen Hmid]; [done|done|done|].
    repeat case_decide; try done.
    injection H2 as <- <-. simpl in Hlen. split; [|lia]. split; [by apply Forall_subrange|].
    rewrite seq_subrange_length by lia. lia.
  - intros d s Hd Hs. rewrite vec_u8_deserialize_eq. apply obind_fuel; [by apply fuel_enough|].
    intros [len mid] _. by repeat case_decide.
Qed.

#[export] Instance vec_u8_exact : MarshalExact vec_u8_m.
Proof.
  split.
  - intros x. by rewrite vec_u8_wire, (exact_wire (c := usize_m)).
  - intros x _ [_ Hm].
    change (u64_add 8 (seq_len x) = seq_len (ghost_serialize usize_m (seq_len x) ++ x)).
    rewrite <- (exact_wire (c := usize_m)) in *. pose proof (usize_wire_len (seq_len x)) as H8.
    pose proof (seq_len_nonneg x). rewrite u64_add_exact; [positions|].
    unfold USIZE_MAX in Hm. lia.
  - intros x _. simpl _is_marshalable. rewrite andb_true_iff, !bool_decide_eq_true.
    change (is_marshalable vec_u8_m x) with (seq_len x <= USIZE_MAX
       /\ seq_len (ghost_serialize usize_m (seq_len x)) + seq_len x <= USIZE_MAX).
    rewrite <- (exact_wire (c := usize_m)), usize_wire_len. lia.
  - intros d s x e Hd Hs. rewrite vec_u8_deserialize_eq. intros ([len mid] & H1 & H2)%obind_Done.
    destruct (parsed (c := usize_m) d s len mid Hd Hs H1) as [Hlen Hmid].
    pose proof (canonical (c := usize_m) d s len mid Hd Hs H1) as Hc.
    repeat case_decide; try done. injection H2 as <- <-. simpl in Hlen.
    rewrite (seq_subrange_join d s mid) by lia. rewrite Hc.
    change (ghost_serialize vec_u8_m ?v) with (ghost_serialize usize_m (seq_len v) ++ v).
    rewrite seq_subrange_length by lia. do 2 f_equal. lia.
Qed.

(** ** Options *)

Section option.
Context {A} (c : Marshalable A) `{Hc : !MarshalOk c}.

Lemma option_deserialize_eq d s :
  deserialize (option_m c) d s
  = if decide (seq_len d = 0 \/ s > seq_len d - 1) then Failed
    else if decide (seq_index d s = 0) then Done (None, s + 1)
    else if decide (seq_index d s = 1) then
      '(x, mid) <-? deserialize c d (s + 1); Done (Some x, mid)
    else Failed.
Proof. done. Qed.

Lemma option_wire o :
  wire (option_m c) o = match o with None => [0] | Some x => 1 :: wire c x end.
Proof. destruct o as [x|]; [|done]. exact (serialize_app x [1]). Qed.

#[export] Instance option_ok : MarshalOk (option_m c).
Proof.
  split.
  - intros [x|] d; [|done]. rewrite option_wire.
    change (serialize (option_m c) (Some x) d) with (serialize c x (d ++ [1])).
    rewrite serialize_app. same_data.
  - intros [x|] Hx; rewrite option_wire; constructor; try done. by apply wire_bytes.
  - intros o pre post Hx Hmax. rewrite option_deserialize_eq. rewrite option_wire in *.
    pose proof (seq_len_nonneg pre). pose proof (seq_len_nonneg post).
    destruct o as [x|]; simpl app in *; rewrite decide_False by (positions);
      rewrite seq_index_middle; [|done].
    rewrite (decide_False (P := 1 = 0)), (decide_True (P := 1 = 1)) by done.
    rewrite (roundtrip_at c _ _ (seq_len pre + seq_len (1 :: wire c x)) x (pre ++ [1]) post); try done.
    + same_data.
    + positions.
    + positions.
  - intros o pre k Hx Hk Hmax. rewrite option_deserialize_eq. rewrite option_wire in *.
    pose proof (seq_len_nonneg pre). destruct k as [|k].
    { rewrite decide_True; [done|]. destruct o; positions. }
    destruct o as [x|]; [|simpl in Hk; lia]. simpl in *.
    rewrite decide_False by positions. rewrite seq_index_middle.
    rewrite (decide_False (P := 1 = 0)), (decide_True (P := 1 = 1)) by done.
    rewrite (truncated_at c _ _ x (pre ++ [1]) k); try done; [lia|same_data|positions].
  - intros d s o e Hd Hs. rewrite option_deserialize_eq. repeat case_decide; try done.
    + intros [= <- <-]. split; [done|lia].
    + intros ([x mid] & Hr & [= <- <-])%obind_Done.
      destruct (parsed (c := c) d (s + 1) x mid Hd); [lia|done|]. split; [done|lia].
  - intros d s Hd Hs. rewrite option_deserialize_eq. repeat case_decide; try done.
    apply obind_fuel; [apply fuel_enough; [done|lia]|]. by intros [x mid] _.
Qed.

#[export] Instance option_exact : MarshalExact c -> MarshalExact (option_m c).
Proof.
  intros He. split.
  - intros [x|]; rewrite option_wire; [|done]. by rewrite exact_wire.
  - intros [x|] Hx Hm; [|done]. destruct Hm as [Hm1 Hm2].
    change (u64_add 1 (serialized_size c x) = seq_len (1 :: ghost_serialize c x)).
    rewrite exact_size by done. pose proof (seq_len_nonneg (ghost_serialize c x)).
    rewrite u64_add_exact; [positions|]. unfold USIZE_MAX in Hm2. lia.
  - intros [x|] Hx; [|done]. simpl. rewrite andb_true_iff, bool_decide_eq_true.
    rewrite exact_check by done. split; intros [H1 H2]; (split; [done|]);
      rewrite exact_size in * by done; lia.
  - intros d s o e Hd Hs. rewrite option_deserialize_eq. repeat case_decide; try done.
    + intros [= <- <-]. rewrite seq_subrange_one by lia. simpl. congruence.
    + intros ([x mid] & Hr & [= <- <-])%obind_Done.
      destruct (parsed (c := c) d (s + 1) x mid Hd) as [_ ?]; [lia|done|].
      rewrite (seq_subrange_join d s (s + 1)), seq_subrange_one by lia.
      rewrite (canonical (c := c) d (s + 1) x mid Hd) by (lia || done). simpl. congruence.
Qed.
End option.

(** ** Pairs *)

Section pair.
Context {A B} (c : Marshalable A) (d : Marshalable B) `{Hc : !MarshalOk c, Hd : !MarshalOk d}.

Lemma pair_wire p : wire (pair_m c d) p = wire c p.1 ++ wire d p.2.
Proof. exact (serialize_app (c := d) p.2 (wire c p.1)). Qed.

#[export] Instance pair_ok : MarshalOk (pair_m c d).
Proof.
  split.
  - intros p dt. rewrite pair_wire.
    change (serialize (pair_m c d) p dt) with (serialize d p.2 (serialize c p.1 dt)).
    rewrite (serialize_app (c := d)), (serialize_app (c := c)). same_data.
  - intros p [H1 H2]. rewrite pair_wire. apply Forall_app. split; by apply wire_bytes.
  - intros [x y] pre post [Hx Hy] Hmax. rewrite pair_wire in *. simpl fst in *. simpl snd in *.
    change (deserialize (pair_m c d)) with (pair_deserialize c d). unfold pair_deserialize.
    rewrite (roundtrip_at c _ _ (seq_len (pre ++ wire c x)) x pre (wire d y ++ post)); try done;
      [|same_data|positions]. cbn [obind].
    rewrite (roundtrip_at d _ _ (seq_len pre + seq_len (wire c x ++ wire d y)) y (pre ++ wire c x) post);
      try done; [same_data|positions].
  - intros [x y] pre k [Hx Hy] Hk Hmax. rewrite pair_wire in *. simpl fst in *. simpl snd in *.
    change (deserialize (pair_m c d)) with (pair_deserialize c d). unfold pair_deserialize.
    destruct (decide (k < length (wire c x))%nat).
    { rewrite take_app_le in * by lia. by rewrite truncated. }
    rewrite take_app_ge in * by lia.
    rewrite (roundtrip_at c _ _ (seq_len (pre ++ wire c x)) x pre (take (k - length (wire c x)) (wire d y)));
      try done; [|positions]. cbn [obind].
    rewrite (truncated_at d _ _ y (pre ++ wire c x) (k - length (wire c x))); try done;
      [positions|same_data].
  - intros dt s [x y] e Hdt Hs. change (deserialize (pair_m c d)) with (pair_deserialize c d).
    intros ([x' mid] & H1 & ([y' e'] & H2 & [= <- <- <-])%obind_Done)%obind_Done.
    destruct (parsed (c := c) _ _ _ _ Hdt Hs H1). destruct (parsed (c := d) dt mid y' e'); try done; [lia|].
    split; [done|lia].
  - intros dt s Hdt Hs. change (deserialize (pair_m c d)) with (pair_deserialize c d).
    apply obind_fuel; [by apply fuel_enough|]. intros [x mid] H1.
    destruct (parsed (c := c) _ _ _ _ Hdt Hs H1).
    apply obind_fuel; [apply fuel_enough; [done|lia]|]. by intros [y e] _.
Qed.

#[export] Instance pair_exact : MarshalExact c -> MarshalExact d -> MarshalExact (pair_m c d).
Proof.
  intros Ec Ed. split.
  - intros p. rewrite pair_wire. by rewrite !exact_wire.
  - intros [x y] [Hx Hy] (Hm1 & Hm2 & Hm3). simpl in *. rewrite !exact_size by done.
    pose proof (seq_len_nonneg (ghost_serialize c x)). pose proof (seq_len_nonneg (ghost_serialize d y)).
    rewrite u64_add_exact; [positions|]. unfold USIZE_MAX in Hm3. lia.
  - intros [x y] [Hx Hy]. simpl in *. rewrite !andb_true_iff, bool_decide_eq_true, !exact_check by done.
    split.
    + intros [[H1 H2] H3]. rewrite !exact_size in H3 by done. split_and!; [done|done|lia].
    + intros (H1 & H2 & H3). split; [done|]. rewrite !exact_size by done. lia.
  - intros dt s [x y] e Hdt Hs. change (deserialize (pair_m c d)) with (pair_deserialize c d).
    intros ([x' mid] & H1 & ([y' e'] & H2 & [= <- <- <-])%obind_Done)%obind_Done.
    destruct (parsed (c := c) _ _ _ _ Hdt Hs H1) as [_ Hm].
    destruct (parsed (c := d) dt mid y' e') as [_ He]; try done; [lia|].
    rewrite (seq_subrange_join dt s mid) by lia.
    rewrite (canonical (c := c) dt s x' mid), (canonical (c := d) dt mid y' e') by (done || lia). done.
Qed.
End pair.

(** ** The loops of vectors and hash maps *)

Section items.
Context {A R} (c : Marshalable A) (add : R -> A -> R) `{Hc : !MarshalOk c}.
Implicit Types (l : list A).

Definition wires l : list Z := concat (wire c <$> l).

Lemma wires_cons x l : wires (x :: l) = wire c x ++ wires l.
Proof. done. Qed.

Lemma wires_app l1 l2 : wires (l1 ++ l2) = wires l1 ++ wires l2.
Proof. unfold wires. by rewrite fmap_app, concat_app. Qed.

Lemma wires_bytes l : Forall (rep c) l -> Forall is_u8 (wires l).
Proof. induction 1; [done|]. rewrite wires_cons. apply Forall_app. split; [by apply wire_bytes|done]. Qed.

Lemma wires_length l : Forall (rep c) l -> (length l <= length (wires l))%nat.
Proof.
  induction 1 as [|x l Hx _ IH]; [done|]. rewrite wires_cons, length_app.
  pose proof (wire_nonempty c x Hx). simpl. lia.
Qed.

Local Abbreviation loop := (items_loop (deserialize c) add).

Lemma items_roundtrip l pre post i len fuel res :
  Forall (rep c) l -> seq_len (pre ++ wires l ++ post) <= ISIZE_MAX ->
  len = i + seq_len l -> (length l <= fuel)%nat ->
  loop fuel (pre ++ wires l ++ post) len i (seq_len pre) res
  = Done (foldl add res l, seq_len pre + seq_len (wires l)).
Proof.
  intros Hl. revert pre i fuel res. induction Hl as [|x l Hx Hl IH]; intros pre i fuel res Hmax -> Hf.
  - destruct fuel; simpl; rewrite decide_False by (unfold seq_len; simpl; lia); do 2 f_equal;
      unfold wires, seq_len; simpl; lia.
  - destruct fuel as [|fuel]; [simpl in Hf; lia|]. cbn [items_loop foldl].
    rewrite decide_True by positions. rewrite wires_cons in *.
    rewrite (roundtrip_at c _ _ (seq_len (pre ++ wire c x)) x pre (wires l ++ post)); try done;
      [|same_data|positions]. cbn [obind].
    replace (pre ++ (wire c x ++ wires l) ++ post) with ((pre ++ wire c x) ++ wires l ++ post) in *
      by same_data.
    rewrite IH; [|done|positions|simpl in Hf; lia]. do 2 f_equal. positions.
Qed.

Lemma items_truncated l pre k i len fuel res :
  Forall (rep c) l -> (k < length (wires l))%nat -> seq_len (pre ++ take k (wires l)) <= ISIZE_MAX ->
  len = i + seq_len l -> (k < fuel)%nat ->
  loop fuel (pre ++ take k (wires l)) len i (seq_len pre) res = Failed.
Proof.
  intros Hl. revert pre k i fuel res.
  induction Hl as [|x l Hx Hl IH]; intros pre k i fuel res Hk Hmax -> Hf; [simpl in Hk; lia|].
  destruct fuel as [|fuel]; [lia|]. cbn [items_loop].
  rewrite decide_True by positions. rewrite wires_cons in *. pose proof (wire_nonempty c x Hx).
  destruct (decide (k < length (wire c x))%nat).
  - rewrite take_app_le in * by lia. by rewrite truncated.
  - rewrite take_app_ge in * by lia. set (k' := (k - length (wire c x))%nat) in *.
    rewrite (roundtrip_at c _ _ (seq_len (pre ++ wire c x)) x pre (take k' (wires l))); try done;
      [|positions]. cbn [obind]. rewrite app_assoc in *.
    rewrite IH; [done| | |positions|]; unfold k'; rewrite ?length_app in *; try lia. done.
Qed.

(** Every successful run reads [len - i] items. *)
Lemma items_parsed fuel d len i e res res' e' :
  is_data d -> 0 <= e -> e <= seq_len d -> i <= len -> loop fuel d len i e res = Done (res', e') ->
  exists l, res' = foldl add res l /\ seq_len l = len - i /\ Forall (rep c) l
    /\ e <= e' <= seq_len d
    /\ (MarshalExact c -> seq_subrange d e e' = wires l).
Proof.
  intros Hd. revert i e res. induction fuel as [|fuel IH]; intros i e res He Hed Hi Hloop; simpl in Hloop.
  - case_decide; [done|]. injection Hloop as <- <-. exists [].
    split_and!; [done|unfold seq_len; simpl; lia|done|lia|done|]. intros _. by rewrite seq_subrange_nil.
  - case_decide.
    + apply obind_Done in Hloop as ([x e1] & H1 & Hloop).
      destruct (parsed (c := c) d e x e1 Hd He H1) as [Hx He1].
      apply IH in Hloop as (l & -> & Hl & Hlr & He' & Hex); [|lia..].
      exists (x :: l). split_and!; [done|positions|by constructor|lia|lia|].
      intros Hexact. rewrite (seq_subrange_join d e e1 e') by lia.
      rewrite (canonical (c := c) d e x e1 Hd He H1), Hex by done.
      by rewrite wires_cons, exact_wire.
    + injection Hloop as <- <-. exists [].
      split_and!; [done|unfold seq_len; simpl; lia|done|lia|done|]. intros _. by rewrite seq_subrange_nil.
Qed.

(** One unit of fuel more than the bytes that are left is enough. *)
Lemma items_fuel fuel d len i e res :
  is_data d -> 0 <= e <= seq_len d -> seq_len d - e < Z.of_nat fuel ->
  loop fuel d len i e res <> OutOfFuel.
Proof.
  intros Hd. revert i e res. induction fuel as [|fuel IH]; intros i e res He Hf; [lia|].
  cbn [items_loop]. case_decide; [|done]. apply obind_fuel; [apply fuel_enough; [done|lia]|].
  intros [x e1] H1. destruct (parsed (c := c) d e x e1 Hd) as [_ ?]; [lia|done|]. apply IH; lia.
Qed.
End items.

(** A count and the items after it, with the capacity check between. *)
Section counted.
Context {A R} (cap : Capacity) (c : Marshalable A) (add : R -> A -> R) (init : R).
Context `{Hc : !MarshalOk c}.
Implicit Types (l : list A).

Definition counted_deserialize (d : list Z) (s : Z) : Outcome (R * Z) :=
  '(len, mid) <-? deserialize usize_m d s;
  if capacity_ok cap len
  then items_loop (deserialize c) add (length d) d len 0 mid init else Panicked.

Definition counted_wire l : list Z := wire usize_m (seq_len l) ++ wires c l.

Lemma counted_bytes l :
  Forall (rep c) l -> capacity_ok cap (seq_len l) = true -> Forall is_u8 (counted_wire l).
Proof.
  intros Hl Hcap%capacity_limit. apply Forall_app. split; [|by apply wires_bytes].
  apply (wire_bytes (c := usize_m)), isize_usize. by split; [apply seq_len_nonneg|].
Qed.

Lemma counted_roundtrip l pre post :
  Forall (rep c) l -> capacity_ok cap (seq_len l) = true ->
  seq_len (pre ++ counted_wire l ++ post) <= ISIZE_MAX ->
  counted_deserialize (pre ++ counted_wire l ++ post) (seq_len pre)
  = Done (foldl add init l, seq_len pre + seq_len (counted_wire l)).
Proof.
  intros Hl Hcap Hmax. unfold counted_deserialize, counted_wire in *.
  pose proof (capacity_limit _ _ Hcap). pose proof (seq_len_nonneg l).
  pose proof (usize_wire_len (seq_len l)) as H8. pose proof (wires_length c l Hl).
  rewrite (length_read _ _ (seq_len (pre ++ wire usize_m (seq_len l))) (seq_len l) pre (wires c l ++ post));
    [|done|done|same_data|done|positions]. cbn [obind]. rewrite Hcap.
  replace (pre ++ (wire usize_m (seq_len l) ++ wires c l) ++ post)
    with ((pre ++ wire usize_m (seq_len l)) ++ wires c l ++ post) in * by same_data.
  rewrite (items_roundtrip c add l); [do 2 f_equal; positions|done|done|lia|positions].
Qed.

Lemma counted_truncated l pre k :
  Forall (rep c) l -> capacity_ok cap (seq_len l) = true -> (k < length (counted_wire l))%nat ->
  seq_len (pre ++ take k (counted_wire l)) <= ISIZE_MAX ->
  counted_deserialize (pre ++ take k (counted_wire l)) (seq_len pre) = Failed.
Proof.
  intros Hl Hcap Hk Hmax. unfold counted_deserialize, counted_wire in *.
  pose proof (capacity_limit _ _ Hcap). pose proof (seq_len_nonneg l).
  pose proof (usize_wire_len (seq_len l)) as H8.
  destruct (length_cut (seq_len l) pre (wires c l) k) as [[_ ->]|(k' & -> & Hd & ->)]; [done|done|done|].
  cbn [obind]. rewrite Hcap. rewrite Hd in *.
  apply items_truncated; [exact _|done|positions|done|lia|positions].
Qed.

Lemma counted_parsed d s r e :
  is_data d -> 0 <= s -> counted_deserialize d s = Done (r, e) ->
  exists l, r = foldl add init l /\ Forall (rep c) l /\ capacity_ok cap (seq_len l) = true
    /\ s < e <= seq_len d
    /\ (MarshalExact c -> seq_subrange d s e = counted_wire l).
Proof.
  intros Hd Hs. unfold counted_deserialize. intros ([len mid] & H1 & H2)%obind_Done.
  destruct (parsed (c := usize_m) d s len mid Hd Hs H1) as [Hlen Hmid].
  destruct (capacity_ok cap len) eqn:Hcap; [|done].
  apply items_parsed in H2 as (l & -> & Hl & Hlr & He & Hex); [|exact _|done|simpl in Hlen; lia..].
  exists l. rewrite Z.sub_0_r in Hl. rewrite Hl. split_and!; [done|done|done|lia|lia|].
  intros Hexact. rewrite (seq_subrange_join d s mid e), Hex by (done || lia). unfold counted_wire.
  f_equal. rewrite Hl, (exact_wire (c := usize_m)). by apply (canonical (c := usize_m)).
Qed.

Lemma counted_fuel d s : is_data d -> 0 <= s -> counted_deserialize d s <> OutOfFuel.
Proof.
  intros Hd Hs. unfold counted_deserialize. apply obind_fuel; [by apply fuel_enough|].
  intros [len mid] H1. destruct (parsed (c := usize_m) d s len mid Hd Hs H1) as [_ Hmid].
  destruct (capacity_ok cap len); [|done]. apply items_fuel; [exact _|done|lia|]. unfold seq_len in *. lia.
Qed.
End counted.

(** ** Vectors *)

Section vec.
Context {A} (cap : Capacity) (c : Marshalable A) `{Hc : !MarshalOk c}.
Implicit Types (v : list A).

Lemma vec_deserialize_counted d s :
  deserialize (vec_m cap c) d s = counted_deserialize cap c (fun res x => res ++ [x]) [] d s.
Proof. done. Qed.

Lemma foldl_snoc v r : foldl (fun res x => res ++ [x]) r v = r ++ v.
Proof. revert r. induction v as [|x v IH]; intros r; simpl; [by rewrite app_nil_r|]. by rewrite IH, <- app_assoc. Qed.

Lemma foldl_serialize v d : foldl (fun d x => serialize c x d) d v = d ++ wires c v.
Proof.
  revert d. induction v as [|x v IH]; intros d; simpl; [by rewrite app_nil_r|].
  rewrite IH, serialize_app, <- app_assoc. done.
Qed.

Lemma vec_wire v : wire (vec_m cap c) v = counted_wire c v.
Proof. apply foldl_serialize. Qed.

#[export] Instance vec_ok : MarshalOk (vec_m cap c).
Proof.
  split.
  - intros v d. rewrite vec_wire.
    change (serialize (vec_m cap c) v d)
      with (foldl (fun d x => serialize c x d) (serialize usize_m (seq_len v) d) v).
    rewrite foldl_serialize, (serialize_app (c := usize_m)), <- app_assoc. done.
  - intros v [Hv Hcap]. rewrite vec_wire. by eapply counted_bytes.
  - intros v pre post [Hv Hcap] Hmax. rewrite vec_wire in *.
    rewrite vec_deserialize_counted, counted_roundtrip by done. by rewrite foldl_snoc.
  - intros v pre k [Hv Hcap] Hk Hmax. rewrite vec_wire in *.
    by rewrite vec_deserialize_counted, counted_truncated.
  - intros d s v e Hd Hs. rewrite vec_deserialize_counted.
    intros (l & -> & Hl & Hcap & He & _)%counted_parsed; [|done..]. by rewrite foldl_snoc.
  - intros d s Hd Hs. rewrite vec_deserialize_counted. by apply counted_fuel.
Qed.

Section exact.
Context `{He : !MarshalExact c}.

Lemma foldl_ghost v d : foldl (fun acc x => acc ++ ghost_serialize c x) d v = d ++ wires c v.
Proof.
  revert d. induction v as [|x v IH]; intros d; simpl; [by rewrite app_nil_r|].
  by rewrite IH, <- exact_wire, <- app_assoc.
Qed.

Lemma foldl_ghost_len v t :
  foldl (fun acc x => acc + seq_len (ghost_serialize c x)) t v = t + seq_len (wires c v).
Proof.
  revert t. induction v as [|x v IH]; intros t; cbn [foldl]; [unfold seq_len; simpl; lia|].
  rewrite IH, <- exact_wire, wires_cons. positions.
Qed.

Lemma foldl_size v t :
  Forall (rep c) v -> Forall (is_marshalable c) v -> 0 <= t -> t + seq_len (wires c v) <= USIZE_MAX ->
  foldl (fun res x => u64_add res (serialized_size c x)) t v = t + seq_len (wires c v).
Proof.
  intros Hv. revert t. induction Hv as [|x v Hx Hv IH]; intros t Hm Ht Hmax; cbn [foldl].
  { unfold seq_len; simpl; lia. }
  apply Forall_cons in Hm as [Hmx Hm]. rewrite wires_cons, seq_len_app in *.
  rewrite exact_size, <- exact_wire by done. pose proof (seq_len_nonneg (wire c x)).
  pose proof (seq_len_nonneg (wires c v)). rewrite u64_add_exact by (unfold USIZE_MAX in *; lia).
  rewrite IH; [lia|done|lia|lia].
Qed.

Lemma vec_check_spec v t :
  Forall (rep c) v -> 0 <= t <= USIZE_MAX ->
  vec_check c v t = true <-> Forall (is_marshalable c) v /\ t + seq_len (wires c v) <= USIZE_MAX.
Proof.
  intros Hv. revert t. induction Hv as [|x v Hx Hv IH]; intros t Ht; cbn [vec_check].
  { unfold seq_len; simpl. split; [by split; [|lia]|done]. }
  rewrite Forall_cons, wires_cons, seq_len_app, <- (exact_check x Hx).
  pose proof (seq_len_nonneg (wire c x)). pose proof (seq_len_nonneg (wires c v)).
  destruct (_is_marshalable c x) eqn:Hcx; simpl; [|split; [done|by intros [[? _] _]]].
  rewrite exact_size, <- exact_wire by (done || by apply exact_check). case_bool_decide as Hle.
  - rewrite u64_add_exact by (unfold USIZE_MAX in *; lia). rewrite IH by lia. split.
    + intros [? ?]. split; [done|lia].
    + intros [[_ ?] ?]. split; [done|lia].
  - split; [done|]. intros [_ ?]. lia.
Qed.

#[export] Instance vec_exact : MarshalExact (vec_m cap c).
Proof.
  split.
  - intros v. rewrite vec_wire.
    change (ghost_serialize (vec_m cap c) v)
      with (ghost_serialize usize_m (seq_len v) ++ foldl (fun acc x => acc ++ ghost_serialize c x) [] v).
    by rewrite foldl_ghost, <- (exact_wire (c := usize_m)).
  - intros v [Hv _] (_ & Hm & Hmax).
    change (ghost_serialize (vec_m cap c) v)
      with (ghost_serialize usize_m (seq_len v) ++ foldl (fun acc x => acc ++ ghost_serialize c x) [] v).
    rewrite foldl_ghost, foldl_ghost_len, <- (exact_wire (c := usize_m)) in *. cbn [app] in *.
    rewrite seq_len_app, usize_wire_len in *. apply foldl_size; [done|done|done|]. change (serialized_size usize_m (seq_len v)) with 8. lia.
  - intros v [Hv Hcap]. pose proof (capacity_limit _ _ Hcap). pose proof isize_lt_usize.
    change (_is_marshalable (vec_m cap c) v) with (vec_check c v 8).
    rewrite vec_check_spec by (done || (unfold USIZE_MAX, U64_MODULUS; lia)).
    change (is_marshalable (vec_m cap c) v) with
      (seq_len v <= USIZE_MAX /\ Forall (is_marshalable c) v
       /\ seq_len (ghost_serialize usize_m (seq_len v))
          + foldl (fun acc x => acc + seq_len (ghost_serialize c x)) 0 v <= USIZE_MAX).
    rewrite foldl_ghost_len, <- (exact_wire (c := usize_m)), usize_wire_len, Z.add_0_l.
    split; [|tauto]. intros ?. split; [lia|done].
  - intros d s v e Hd Hs. rewrite vec_deserialize_counted.
    intros (l & -> & Hl & Hcap & He' & Hex)%counted_parsed; [|exact _|done..].
    rewrite foldl_snoc, Hex by done. cbn [app].
    change (ghost_serialize (vec_m cap c) l)
      with (ghost_serialize usize_m (seq_len l) ++ foldl (fun acc x => acc ++ ghost_serialize c x) [] l).
    by rewrite foldl_ghost, <- (exact_wire (c := usize_m)).
Qed.
End exact.
End vec.

(** ** Hash maps *)

Section hashmap.
Context {K V : Type} `{Countable K}.
Context (cap : Capacity) (order : HashOrder K V) (ck : Marshalable K) (cv : Marshalable V).
Context `{Hk : !MarshalOk ck, Hv : !MarshalOk cv}.
Implicit Types (m : gmap K V).
Local Abbreviation kv := (pair_m ck cv).
Local Abbreviation hm := (hashmap_m cap order ck cv).

Lemma hash_entries_NoDup m : NoDup (hash_entries order m).*1.
Proof. rewrite hash_entries_perm. apply NoDup_fst_map_to_list. Qed.

Lemma hash_entries_len m : seq_len (hash_entries order m) = Z.of_nat (size m).
Proof. unfold seq_len. by rewrite hash_entries_perm, length_map_to_list. Qed.

Lemma hash_entries_rep m :
  (forall k v, m !! k = Some v -> rep ck k /\ rep cv v) -> Forall (rep kv) (hash_entries order m).
Proof.
  intros Hm. apply Forall_forall. intros [k v] Hin. rewrite hash_entries_perm in Hin.
  apply elem_of_map_to_list in Hin. by apply Hm in Hin.
Qed.

Lemma hashmap_serialize_pairs l d :
  hashmap_serialize_loop ck cv l.*1 l.*2 d = d ++ wires kv l.
Proof.
  revert d. induction l as [|[k v] l IH]; intros d; cbn [fmap list_fmap hashmap_serialize_loop fst snd].
  - by rewrite app_nil_r.
  - rewrite IH, wires_cons, (serialize_app (c := cv)), (serialize_app (c := ck)), (pair_wire ck cv). same_data.
Qed.

Lemma hashmap_wire m : wire hm m = counted_wire kv (hash_entries order m).
Proof.
  unfold counted_wire. rewrite hash_entries_len.
  exact (hashmap_serialize_pairs (hash_entries order m) (wire usize_m (Z.of_nat (size m)))).
Qed.

(** Inserting the entries one by one, the last one of a key wins. *)
Definition insert_entries (l : list (K * V)) m : gmap K V := foldl (fun m e => <[e.1 := e.2]> m) m l.

Lemma insert_entries_notin l m k : k ∉ l.*1 -> insert_entries l m !! k = m !! k.
Proof.
  unfold insert_entries. revert m. induction l as [|[k' v'] l IH]; intros m Hk'; [done|].
  simpl in *. apply not_elem_of_cons in Hk' as [??]. rewrite IH by done. by apply lookup_insert_ne.
Qed.

Lemma insert_entries_in l m k v :
  NoDup l.*1 -> (k, v) ∈ l -> insert_entries l m !! k = Some v.
Proof.
  unfold insert_entries. revert m. induction l as [|[k' v'] l IH]; intros m Hnd Hin.
  { by apply not_elem_of_nil in Hin. }
  simpl in *. apply NoDup_cons in Hnd as [Hn Hnd]. apply elem_of_cons in Hin as [[= -> ->]|Hin].
  - fold (insert_entries l (<[k':=v']> m)). rewrite insert_entries_notin by done. apply lookup_insert_eq.
  - by apply IH.
Qed.

Lemma insert_entries_order m : insert_entries (hash_entries order m) ∅ = m.
Proof.
  apply map_eq. intros k. destruct (m !! k) as [v|] eqn:Hm.
  - apply insert_entries_in; [apply hash_entries_NoDup|]. rewrite hash_entries_perm.
    by apply elem_of_map_to_list.
  - rewrite insert_entries_notin; [apply lookup_empty|]. rewrite list_elem_of_fmap.
    intros ([k' v] & -> & Hin). rewrite hash_entries_perm in Hin. apply elem_of_map_to_list in Hin.
    simpl in Hm. congruence.
Qed.

Lemma insert_entries_lookup l m k v :
  insert_entries l m !! k = Some v -> (k, v) ∈ l \/ m !! k = Some v.
Proof.
  unfold insert_entries. revert m. induction l as [|[k' v'] l IH]; intros m; [by right|].
  simpl. intros [Hin|Hin]%IH; [left; by right|]. apply lookup_insert_Some in Hin as [[<- <-]|[_ ?]].
  - left. by left.
  - by right.
Qed.

Lemma insert_entries_size l m : (size (insert_entries l m) <= length l + size m)%nat.
Proof.
  unfold insert_entries. revert m. induction l as [|[k v] l IH]; intros m; [done|].
  simpl. etrans; [apply IH|]. rewrite map_size_insert. destruct (m !! k); simpl; lia.
Qed.

Lemma hashmap_deserialize_counted d s :
  deserialize hm d s
  = counted_deserialize cap kv (fun m (e : K * V) => <[e.1 := e.2]> m) (∅ : gmap K V) d s.
Proof. done. Qed.

#[export] Instance hashmap_ok : MarshalOk hm.
Proof.
  split.
  - intros m d. rewrite hashmap_wire. unfold counted_wire. rewrite hash_entries_len.
    transitivity (hashmap_serialize_loop ck cv (hash_entries order m).*1 (hash_entries order m).*2
                    (serialize usize_m (Z.of_nat (size m)) d)); [done|].
    rewrite hashmap_serialize_pairs, (serialize_app (c := usize_m)), <- app_assoc. done.
  - intros m [Hm Hcap]. rewrite hashmap_wire. eapply counted_bytes; [exact _|by apply hash_entries_rep|].
    rewrite hash_entries_len. exact Hcap.
  - intros m pre post [Hm Hcap] Hmax. rewrite hashmap_wire in *. rewrite hashmap_deserialize_counted.
    rewrite (counted_roundtrip cap kv); [|exact _|by apply hash_entries_rep|by rewrite hash_entries_len|done].
    do 2 f_equal. apply insert_entries_order.
  - intros m pre k [Hm Hcap] Hlt Hmax. rewrite hashmap_wire in *. rewrite hashmap_deserialize_counted.
    apply counted_truncated; [exact _|by apply hash_entries_rep|by rewrite hash_entries_len|done|done].
  - intros d s m e Hd Hs. rewrite hashmap_deserialize_counted.
    intros (l & -> & Hl & Hcap & He & _)%counted_parsed; [|exact _|done..]. split; [|done].
    fold (insert_entries l ∅). split.
    + intros k v [Hin|Hin]%insert_entries_lookup; [|by rewrite lookup_empty in Hin].
      rewrite Forall_forall in Hl. exact (Hl _ Hin).
    + eapply capacity_mono; [|exact Hcap]. pose proof (insert_entries_size l ∅) as Hsz.
      rewrite map_size_empty in Hsz. unfold seq_len. lia.
  - intros d s Hd Hs. rewrite hashmap_deserialize_counted. apply counted_fuel; [exact _|done|done].
Qed.
End hashmap.

(** ** Structs *)

Fixpoint fields_ok {F} (f : Fields F) : Prop :=
  match f with FNil => True | FCons c f => MarshalOk c /\ fields_ok f end.

Fixpoint fields_exact {F} (f : Fields F) : Prop :=
  match f with FNil => True | FCons c f => MarshalExact c /\ fields_exact f end.

Fixpoint fields_wire {F} (f : Fields F) : F -> list Z :=
  match f with FNil => fun _ => [] | FCons c f => fun p => wire c p.1 ++ fields_wire f p.2 end.

Lemma fields_serialize_app {F} (f : Fields F) p d : fields_ok f -> fields_serialize f p d = d ++ fields_wire f p.
Proof.
  revert d. induction f as [|A F' c f IH]; intros d Hf; simpl; [by rewrite app_nil_r|].
  destruct Hf as [Hc Hf]. rewrite IH, serialize_app by done. same_data.
Qed.

Lemma fields_bytes {F} (f : Fields F) p : fields_ok f -> fields_rep f p -> Forall is_u8 (fields_wire f p).
Proof.
  induction f as [|A F' c f IH]; simpl; [done|]. intros [Hc Hf] [Hx Hr].
  apply Forall_app. split; [by apply wire_bytes|by apply IH].
Qed.

Lemma fields_roundtrip {F} (f : Fields F) p d s e pre post :
  fields_ok f -> fields_rep f p -> seq_len d <= ISIZE_MAX -> d = pre ++ fields_wire f p ++ post ->
  s = seq_len pre -> e = seq_len pre + seq_len (fields_wire f p) ->
  fields_deserialize f d s = Done (p, e).
Proof.
  revert pre s. induction f as [|A F' c f IH]; intros pre s; cbn [fields_ok fields_rep fields_wire fields_deserialize].
  - intros _ _ _ _ -> ->. destruct p. do 2 f_equal. unfold seq_len. simpl. lia.
  - intros [Hc Hf] [Hx Hr] Hmax -> -> ->. destruct p as [x p]. cbn [fst snd] in *.
    rewrite (roundtrip_at c _ _ (seq_len (pre ++ wire c x)) x pre (fields_wire f p ++ post));
      [|done|done|same_data|done|positions]. cbn [obind].
    rewrite (IH p (pre ++ wire c x)); try done; [same_data|positions].
Qed.

Lemma fields_truncated {F} (f : Fields F) p d s pre k :
  fields_ok f -> fields_rep f p -> (k < length (fields_wire f p))%nat -> seq_len d <= ISIZE_MAX ->
  d = pre ++ take k (fields_wire f p) -> s = seq_len pre -> fields_deserialize f d s = Failed.
Proof.
  revert pre s k. induction f as [|A F' c f IH]; intros pre s k;
    cbn [fields_ok fields_rep fields_wire fields_deserialize]; [simpl; lia|].
  intros [Hc Hf] [Hx Hr] Hk Hmax -> ->. destruct p as [x p]. cbn [fst snd] in *.
  destruct (decide (k < length (wire c x))%nat).
  - rewrite take_app_le in * by lia. by rewrite truncated.
  - rewrite take_app_ge in * by lia. set (k' := (k - length (wire c x))%nat) in *.
    rewrite (roundtrip_at c _ _ (seq_len (pre ++ wire c x)) x pre (take k' (fields_wire f p)));
      [|done|done|same_data|done|positions]. cbn [obind].
    rewrite (IH p (pre ++ wire c x) _ k'); try done; [unfold k'; positions|same_data].
Qed.

Lemma fields_parsed {F} (f : Fields F) d s p e :
  fields_ok f -> is_data d -> 0 <= s <= seq_len d -> fields_deserialize f d s = Done (p, e) ->
  fields_rep f p /\ s <= e <= seq_len d.
Proof.
  revert s. induction f as [|A F' c f IH]; intros s;
    cbn [fields_ok fields_rep fields_wire fields_deserialize].
  - intros _ _ Hs [= <- <-]. split; [done|lia].
  - intros [Hc Hf] Hd Hs ([x mid] & H1 & ([xs e'] & H2 & [= <- <-])%obind_Done)%obind_Done.
    destruct (parsed (c := c) d s x mid Hd ltac:(lia) H1).
    destruct (IH xs mid Hf Hd ltac:(lia) H2). split; [done|lia].
Qed.

Lemma fields_fuel {F} (f : Fields F) d s :
  fields_ok f -> is_data d -> 0 <= s -> fields_deserialize f d s <> OutOfFuel.
Proof.
  revert s. induction f as [|A F' c f IH]; intros s; cbn [fields_ok fields_deserialize]; [done|].
  intros [Hc Hf] Hd Hs. apply obind_fuel; [by apply fuel_enough|]. intros [x mid] H1.
  destruct (parsed (c := c) d s x mid Hd Hs H1).
  apply obind_fuel; [apply IH; [done|done|lia]|]. by intros [xs e] _.
Qed.

Lemma fields_exact_wire {F} (f : Fields F) p : fields_exact f -> fields_wire f p = fields_ghost f p.
Proof.
  induction f as [|A F' c f IH]; [done|]. intros [Hc Hf]. simpl. by rewrite exact_wire, IH.
Qed.

Lemma fields_canonical {F} (f : Fields F) d s p e :
  fields_ok f -> fields_exact f -> is_data d -> 0 <= s <= seq_len d ->
  fields_deserialize f d s = Done (p, e) -> seq_subrange d s e = fields_ghost f p.
Proof.
  revert s. induction f as [|A F' c f IH]; intros s;
    cbn [fields_ok fields_exact fields_ghost fields_deserialize].
  - intros _ _ _ Hs [= <- <-]. apply seq_subrange_nil.
  - intros [Hc Hf] [Ec Ef] Hd Hs ([x mid] & H1 & ([xs e'] & H2 & [= <- <-])%obind_Done)%obind_Done.
    destruct (parsed (c := c) d s x mid Hd ltac:(lia) H1).
    destruct (fields_parsed f d mid xs e' Hf Hd ltac:(lia) H2).
    rewrite (seq_subrange_join d s mid) by lia. rewrite (IH xs mid) by (done || lia).
    by rewrite (canonical (c := c) d s x mid) by (done || lia).
Qed.

Lemma fields_size {F} (f : Fields F) p t :
  fields_ok f -> fields_exact f -> fields_rep f p -> fields_marshalable f p -> 0 <= t ->
  t + seq_len (fields_ghost f p) <= USIZE_MAX ->
  foldl u64_add t (fields_sizes f p) = t + seq_len (fields_ghost f p).
Proof.
  revert t. induction f as [|A F' c f IH]; intros t;
    cbn [fields_ok fields_exact fields_rep fields_marshalable fields_ghost fields_sizes foldl].
  - intros. unfold seq_len. simpl. lia.
  - intros [Hc Hf] [Ec Ef] [Hx Hr] [Mx Mf] Ht Hmax. rewrite seq_len_app in *.
    pose proof (seq_len_nonneg (ghost_serialize c p.1)). pose proof (seq_len_nonneg (fields_ghost f p.2)).
    rewrite exact_size, u64_add_exact by (done || (unfold USIZE_MAX in *; lia)).
    rewrite IH; [lia|done|done|done|done|lia|lia].
Qed.

Lemma fields_check {F} (f : Fields F) p t :
  fields_ok f -> fields_exact f -> fields_rep f p -> 0 <= t <= USIZE_MAX ->
  _fields_marshalable f p && no_usize_overflows t (fields_sizes f p) = true
  <-> fields_marshalable f p /\ t + seq_len (fields_ghost f p) <= USIZE_MAX.
Proof.
  revert t. induction f as [|A F' c f IH]; intros t;
    cbn [fields_ok fields_exact fields_rep fields_marshalable _fields_marshalable fields_ghost
         fields_sizes no_usize_overflows].
  - intros. unfold seq_len. simpl. split; [by split; [|lia]|done].
  - intros [Hc Hf] [Ec Ef] [Hx Hr] Ht. rewrite seq_len_app, <- (exact_check (c := c) p.1 Hx).
    pose proof (seq_len_nonneg (ghost_serialize c p.1)). pose proof (seq_len_nonneg (fields_ghost f p.2)).
    destruct (_is_marshalable c p.1) eqn:Hm; simpl; [|split; [done|by intros [[? _] _]]].
    rewrite exact_size by (done || by apply exact_check). case_bool_decide as Hle; simpl.
    + rewrite u64_add_exact by (unfold USIZE_MAX in *; lia). rewrite IH by (done || lia).
      split; [intros [? ?]; split; [done|lia]|intros [[_ ?] ?]; split; [done|lia]].
    + rewrite andb_false_r. split; [done|intros [_ ?]; lia].
Qed.

Definition has_field {F} (f : Fields F) : Prop :=
  match f with FNil => False | FCons _ _ => True end.

(** Reading a field moves on. *)
Lemma fields_progress {F} (f : Fields F) d s p e :
  fields_ok f -> has_field f -> is_data d -> 0 <= s <= seq_len d ->
  fields_deserialize f d s = Done (p, e) -> s < e.
Proof.
  destruct f as [|A F' c f]; cbn [fields_ok has_field fields_deserialize]; [done|].
  intros [Hc Hf] _ Hd Hs ([x mid] & H1 & ([xs e'] & H2 & [= <- <-])%obind_Done)%obind_Done.
  destruct (parsed (c := c) d s x mid Hd ltac:(lia) H1).
  destruct (fields_parsed f d mid xs e' Hf Hd ltac:(lia) H2). lia.
Qed.

(** The deserializer of fields fails on a start past the end of the data, if
    there are any. *)
Lemma fields_past {F} (f : Fields F) d s p e :
  fields_ok f -> has_field f -> is_data d -> 0 <= s -> fields_deserialize f d s = Done (p, e) ->
  s <= seq_len d.
Proof.
  destruct f as [|A F' c f]; cbn [fields_ok has_field fields_deserialize]; [done|].
  intros [Hc Hf] _ Hd Hs ([x mid] & H1 & _)%obind_Done.
  destruct (parsed (c := c) d s x mid Hd Hs H1). lia.
Qed.

Section struct.
Context {F S : Type} (f : Fields F) (build : F -> S) (fields : S -> F).
Hypothesis Hf : fields_ok f.
Hypothesis Hne : has_field f.
Hypothesis Hbuild : forall s, build (fields s) = s.
Hypothesis Hfields : forall p, fields (build p) = p.
Local Abbreviation sm := (derive_marshalable_for_struct f build fields).

Lemma struct_wire s : wire sm s = fields_wire f (fields s).
Proof. exact (fields_serialize_app f (fields s) [] Hf). Qed.

Lemma derive_struct_ok : MarshalOk sm.
Proof using Hf Hne Hbuild Hfields.
  split.
  - intros x d. rewrite struct_wire. by apply fields_serialize_app.
  - intros x Hx. rewrite struct_wire. by apply fields_bytes.
  - intros x pre post Hx Hmax. rewrite struct_wire in *.
    change (deserialize sm) with (struct_deserialize f build). unfold struct_deserialize.
    rewrite (fields_roundtrip f (fields x) _ _ (seq_len pre + seq_len (fields_wire f (fields x))) pre post);
      try done. cbn [obind]. by rewrite Hbuild.
  - intros x pre k Hx Hk Hmax. rewrite struct_wire in *.
    change (deserialize sm) with (struct_deserialize f build). unfold struct_deserialize.
    by rewrite (fields_truncated f (fields x) _ _ pre k).
  - intros d s x e Hd Hs. change (deserialize sm) with (struct_deserialize f build).
    intros ([p e'] & Hp & [= <- <-])%obind_Done.
    pose proof (fields_past f d s p e' Hf Hne Hd Hs Hp).
    destruct (fields_parsed f d s p e' Hf Hd ltac:(lia) Hp).
    pose proof (fields_progress f d s p e' Hf Hne Hd ltac:(lia) Hp).
    simpl. rewrite Hfields. split; [done|lia].
  - intros d s Hd Hs. change (deserialize sm) with (struct_deserialize f build).
    apply obind_fuel; [by apply fields_fuel|]. by intros [p e] _.
Qed.

Lemma derive_struct_exact : fields_exact f -> MarshalExact sm.
Proof using Hf Hne Hbuild Hfields.
  intros He. split.
  - intros x. rewrite struct_wire. by apply fields_exact_wire.
  - intros x Hx [Hm Hmax].
    change (foldl u64_add 0 (fields_sizes f (fields x)) = seq_len (fields_ghost f (fields x))).
    rewrite (fields_size f (fields x) 0); done.
  - intros x Hx.
    change (_fields_marshalable f (fields x) && no_usize_overflows 0 (fields_sizes f (fields x)) = true
            <-> fields_marshalable f (fields x) /\ 0 + seq_len (fields_ghost f (fields x)) <= USIZE_MAX).
    by apply fields_check.
  - intros d s x e Hd Hs. change (deserialize sm) with (struct_deserialize f build).
    intros ([p e'] & Hp & [= <- <-])%obind_Done.
    pose proof (fields_past f d s p e' Hf Hne Hd Hs Hp).
    rewrite (fields_canonical f d s p e') by (done || lia). simpl. by rewrite Hfields.
Qed.
End struct.

(** ** Enums *)

(** The arms and the reading of values as variants fit together. *)
Record EnumOk {E} (arms : list (Arm E)) (variant : E -> Variant E) : Prop := MkEnumOk
  { enum_fields_ok a : In a arms -> fields_ok (arm_fields a);
    enum_tags : NoDup (arm_tag <$> arms);
    enum_tag_u8 a : In a arms -> is_u8 (arm_tag a);
    enum_variant_in x : In (v_arm (variant x)) arms;
    enum_variant_build x : arm_build (v_arm (variant x)) (v_fields (variant x)) = x;
    enum_build_variant a p : In a arms -> variant (arm_build a p) = MkVariant a p }.

Section enum.
Context {E : Type} (arms : list (Arm E)) (variant : E -> Variant E).
Hypothesis Hok : EnumOk arms variant.
Local Abbreviation em := (derive_marshalable_for_enum arms variant).
Local Abbreviation arm x := (v_arm (variant x)).

(** The dispatch picks the arm with the tag. *)
Lemma enum_dispatch_in (l : list (Arm E)) a d s :
  NoDup (arm_tag <$> l) -> In a l ->
  enum_dispatch l (arm_tag a) d s = struct_deserialize (arm_fields a) (arm_build a) d (s + 1).
Proof.
  induction l as [|b l IH]; [done|]. cbn [fmap list_fmap enum_dispatch]. intros [Hn Hnd]%NoDup_cons [->|Hin].
  - by rewrite decide_True.
  - rewrite decide_False; [by apply IH|]. intros Heq. apply Hn. rewrite <- Heq.
    apply list_elem_of_fmap. exists a. split; [done|by apply list_elem_of_In].
Qed.

Lemma enum_dispatch_out (l : list (Arm E)) tag d s :
  (forall a, In a l -> arm_tag a <> tag) -> enum_dispatch l tag d s = Failed.
Proof.
  induction l as [|b l IH]; [done|]. intros Hl. simpl. rewrite decide_False.
  - apply IH. intros a Ha. apply Hl. by right.
  - intros ->. by apply (Hl b); [left|].
Qed.

Lemma enum_dispatch_done (l : list (Arm E)) tag d s x e :
  enum_dispatch l tag d s = Done (x, e) ->
  exists a, In a l /\ arm_tag a = tag
    /\ struct_deserialize (arm_fields a) (arm_build a) d (s + 1) = Done (x, e).
Proof.
  induction l as [|b l IH]; [done|]. simpl. case_decide as Ht.
  - intros Hd. exists b. by split; [left|].
  - intros (a & Ha & He)%IH. exists a. by split; [right|].
Qed.

Lemma enum_dispatch_fuel (l : list (Arm E)) tag d s :
  (forall a, In a l -> fields_ok (arm_fields a)) -> is_data d -> 0 <= s ->
  enum_dispatch l tag d s <> OutOfFuel.
Proof.
  intros Hl Hd Hs. induction l as [|b l IH]; [done|]. cbn [enum_dispatch]. case_decide.
  - apply obind_fuel; [apply fields_fuel; [apply Hl; by left|done|lia]|]. by intros [p e] _.
  - apply IH. intros a Ha. apply Hl. by right.
Qed.

Lemma enum_wire x : wire em x = arm_tag (arm x) :: fields_wire (arm_fields (arm x)) (v_fields (variant x)).
Proof.
  exact (fields_serialize_app (arm_fields (arm x)) (v_fields (variant x)) [arm_tag (arm x)]
           (enum_fields_ok _ _ Hok _ (enum_variant_in _ _ Hok x))).
Qed.

Lemma enum_done d s x e :
  is_data d -> 0 <= s -> deserialize em d s = Done (x, e) ->
  exists a p, In a arms /\ x = arm_build a p /\ s < seq_len d /\ seq_index d s = arm_tag a
    /\ fields_deserialize (arm_fields a) d (s + 1) = Done (p, e)
    /\ fields_rep (arm_fields a) p /\ s + 1 <= e <= seq_len d.
Proof.
  intros Hd Hs. change (deserialize em) with (enum_deserialize arms). unfold enum_deserialize.
  case_decide; [done|]. intros (a & Ha & Ht & ([p e'] & Hp & [= <- <-])%obind_Done)%enum_dispatch_done.
  destruct (fields_parsed (arm_fields a) d (s + 1) p e') as [Hr He]; [by apply (enum_fields_ok _ _ Hok)|done|lia|done|].
  exists a, p. split_and!; try done; lia.
Qed.

Lemma derive_enum_ok : MarshalOk em.
Proof using Hok.
  assert (forall x, fields_ok (arm_fields (arm x))) as Hf.
  { intros x. apply (enum_fields_ok _ _ Hok), (enum_variant_in _ _ Hok). }
  split.
  - intros x d. rewrite enum_wire.
    change (fields_serialize (arm_fields (arm x)) (v_fields (variant x)) (d ++ [arm_tag (arm x)])
            = d ++ arm_tag (arm x) :: fields_wire (arm_fields (arm x)) (v_fields (variant x))).
    rewrite fields_serialize_app by done. by rewrite <- app_assoc.
  - intros x Hx. rewrite enum_wire. constructor; [|by apply fields_bytes].
    apply (enum_tag_u8 _ _ Hok), (enum_variant_in _ _ Hok).
  - intros x pre post Hx Hmax. rewrite enum_wire in *. simpl app in *.
    change (deserialize em) with (enum_deserialize arms). unfold enum_deserialize.
    pose proof (seq_len_nonneg post). rewrite decide_False by positions.
    rewrite seq_index_middle, enum_dispatch_in by (apply Hok || by apply (enum_variant_in _ _ Hok)).
    unfold struct_deserialize.
    rewrite (fields_roundtrip (arm_fields (arm x)) (v_fields (variant x)) _ _
      (seq_len pre + seq_len (arm_tag (arm x) :: fields_wire (arm_fields (arm x)) (v_fields (variant x))))
      (pre ++ [arm_tag (arm x)]) post); try done; [|same_data|positions|positions].
    cbn [obind]. by rewrite (enum_variant_build _ _ Hok).
  - intros x pre k Hx Hk Hmax. rewrite enum_wire in *.
    change (deserialize em) with (enum_deserialize arms). unfold enum_deserialize.
    destruct k as [|k]; [rewrite decide_True; [done|positions]|]. simpl take in *.
    rewrite decide_False by positions.
    rewrite seq_index_middle, enum_dispatch_in by (apply Hok || by apply (enum_variant_in _ _ Hok)).
    unfold struct_deserialize.
    rewrite (fields_truncated (arm_fields (arm x)) (v_fields (variant x)) _ _ (pre ++ [arm_tag (arm x)]) k);
      try done; [simpl in Hk; lia|same_data|positions].
  - intros d s x e Hd Hs (a & p & Ha & -> & Hlt & _ & _ & Hr & He)%enum_done; [|done..].
    split; [|lia]. simpl. by rewrite (enum_build_variant _ _ Hok).
  - intros d s Hd Hs. change (deserialize em) with (enum_deserialize arms). unfold enum_deserialize.
    case_decide; [done|]. apply enum_dispatch_fuel; [apply (enum_fields_ok _ _ Hok)|done|lia].
Qed.

(** An arm whose fields are exact is, and so is an enum with only such arms. *)
Lemma enum_arm_exact x :
  fields_exact (arm_fields (arm x)) ->
  wire em x = ghost_serialize em x
  /\ (rep em x -> is_marshalable em x -> serialized_size em x = seq_len (ghost_serialize em x))
  /\ (rep em x -> _is_marshalable em x = true <-> is_marshalable em x).
Proof using Hok.
  intros He. pose proof (enum_fields_ok _ _ Hok _ (enum_variant_in _ _ Hok x)) as Hf. split_and!.
  - rewrite enum_wire, fields_exact_wire by done. done.
  - intros Hx [Hm Hmax].
    change (foldl u64_add 1 (fields_sizes (arm_fields (arm x)) (v_fields (variant x)))
            = seq_len (arm_tag (arm x) :: fields_ghost (arm_fields (arm x)) (v_fields (variant x)))).
    rewrite fields_size by done. positions.
  - intros Hx.
    change (is_marshalable em x)
      with (fields_marshalable (arm_fields (arm x)) (v_fields (variant x))
            /\ 1 + seq_len (fields_ghost (arm_fields (arm x)) (v_fields (variant x))) <= USIZE_MAX).
    rewrite <- (fields_check _ _ 1) by done. done.
Qed.

Lemma enum_arm_canonical d s x e :
  fields_exact (arm_fields (arm x)) -> is_data d -> 0 <= s -> deserialize em d s = Done (x, e) ->
  seq_subrange d s e = ghost_serialize em x.
Proof using Hok.
  intros Hx Hd Hs (a & p & Ha & -> & Hlt & Ht & Hp & Hr & He)%enum_done; [|done..].
  rewrite (enum_build_variant _ _ Hok) in Hx by done. simpl in Hx.
  rewrite (seq_subrange_join d s (s + 1)), seq_subrange_one by lia.
  rewrite (fields_canonical (arm_fields a) d (s + 1) p e)
    by (done || lia || by apply (enum_fields_ok _ _ Hok)).
  simpl. by rewrite (enum_build_variant _ _ Hok), Ht.
Qed.

Lemma derive_enum_exact : (forall a, In a arms -> fields_exact (arm_fields a)) -> MarshalExact em.
Proof using Hok.
  intros He. assert (forall x, fields_exact (arm_fields (arm x))) as Hx.
  { intros x. apply He, (enum_variant_in _ _ Hok). }
  split; intros; first [by apply enum_arm_exact|by apply enum_arm_canonical].
Qed.

(** A tag of no arm fails. *)
Lemma enum_unknown_tag d s :
  0 <= s < seq_len d -> (forall a, In a arms -> arm_tag a <> seq_index d s) -> deserialize em d s = Failed.
Proof.
  intros Hs Ht. change (deserialize em) with (enum_deserialize arms). unfold enum_deserialize.
  rewrite decide_False by lia. by apply enum_dispatch_out.
Qed.
End enum.

(** ** Types that marshal as another *)

Lemma bijection_ok {A B} (c : Marshalable B) (forward : A -> B) (backward : B -> A) :
  MarshalOk c -> (forall x, backward (forward x) = x) -> (forall y, forward (backward y) = y) ->
  MarshalOk (marshalable_by_bijection c forward backward).
Proof.
  intros Hc Hb Hf.
  set (bm := marshalable_by_bijection c forward backward).
  assert (forall d s, deserialize bm d s
    = ('(m, end_) <-? deserialize c d s; Done (backward m, end_))) as Hde by done.
  assert (forall x, wire bm x = wire c (forward x)) as Hw by done.
  split.
  - intros x d. rewrite Hw. apply (serialize_app (c := c)).
  - intros x Hx. rewrite Hw. by apply wire_bytes.
  - intros x pre post Hx Hmax. rewrite Hw in *. rewrite Hde, roundtrip by done. cbn [obind].
    by rewrite Hb.
  - intros x pre k Hx Hk Hmax. rewrite Hw in *. by rewrite Hde, truncated.
  - intros d s x e Hd Hs. rewrite Hde. intros ([y e'] & Hy & [= <- <-])%obind_Done.
    destruct (parsed (c := c) d s y e' Hd Hs Hy). simpl. by rewrite Hf.
  - intros d s Hd Hs. rewrite Hde. apply obind_fuel; [by apply fuel_enough|]. by intros [y e] _.
Qed.

(** ** Automation for derived marshallers *)

(** The fields' laws by resolution; the conversions by cases. *)
Ltac fields_law :=
  repeat match goal with
         | |- MarshalOk _ => exact _
         | |- MarshalExact _ => exact _
         | |- _ => hnf; first [exact I|split]
         end.
Ltac fields_cases :=
  intros;
  repeat match goal with
         | x : arm_type _ |- _ => hnf in x
         | x : (_ * _)%type |- _ => destruct x
         | x : unit |- _ => destruct x
         end; reflexivity.
Ltac struct_law lemma :=
  apply lemma; [fields_law|exact I|intros []; reflexivity|fields_cases|try fields_law ..].

(** The arms of an enum, one by one. *)
Ltac enum_law :=
  split;
  [ intros a; simpl In; repeat (intros [<-|H]; [fields_law|revert H]); intros []
  | vm_compute; repeat constructor; set_solver
  | intros a; simpl In; repeat (intros [<-|H]; [done|revert H]); intros []
  | intros []; simpl; tauto
  | intros []; reflexivity
  | intros a p; simpl In; intros Ha; revert p;
    repeat (destruct Ha as [<-|Ha]; [fields_cases|]); destruct Ha ].
