(* ===== verification/WireFormat.v ===== *)
(** * The wire format of IronRSL

    The marshallers that the derive macros give to the message types (io_s.rs,
    appinterface.rs, types_i.rs, cmessage.rs) and the parsing of received
    datagrams (netrsl_i.rs). *)

From stdpp Require Import prelude gmap sets list numbers fin_sets.
From Stdlib Require Import ZArith Lia.
From S2P Require Import Prelude.
From S2P Require Import Types.
From S2P Require Import Environment.
From S2P Require Import ReplicaImpl.
From S2P Require Import Marshalling.
From S2P Require Import MarshallingLaws.

#[local] Open Scope Z_scope.

(** ** Structs *)

Definition EndPoint_m : Marshalable AbstractEndPoint :=
  derive_marshalable_for_struct (FCons vec_u8_m FNil)
    (fun '(id, tt) => MkEndPoint id) (fun e => (ep_id e, tt)).

Definition CBallot_m : Marshalable Ballot :=
  derive_marshalable_for_struct (FCons u64_m (FCons u64_m FNil))
    (fun '(seqno, (proposer_id, tt)) => MkBallot seqno proposer_id)
    (fun b => (bal_seqno b, (bal_proposer_id b, tt))).

(** ** Application messages *)

Definition CAppIncrement_arm : Arm AppMessage := MkArm unit 0 FNil (fun _ => AppIncrementRequest).
Definition CAppReply_arm : Arm AppMessage :=
  MkArm (Z * unit) 1 (FCons u64_m FNil) (fun '(response, tt) => AppIncrementReply response).
Definition CAppInvalid_arm : Arm AppMessage := MkArm unit 2 FNil (fun _ => AppInvalidReply).

Definition CAppMessage_variant (m : AppMessage) : Variant AppMessage :=
  match m with
  | AppIncrementRequest => MkVariant CAppIncrement_arm tt
  | AppIncrementReply response => MkVariant CAppReply_arm (response, tt)
  | AppInvalidReply => MkVariant CAppInvalid_arm tt
  end.

Definition CAppMessage_m : Marshalable AppMessage :=
  derive_marshalable_for_enum [CAppIncrement_arm; CAppReply_arm; CAppInvalid_arm]
    CAppMessage_variant.

Definition CRequest_m : Marshalable Request :=
  derive_marshalable_for_struct (FCons EndPoint_m (FCons u64_m (FCons CAppMessage_m FNil)))
    (fun '(client, (seqno, (request, tt))) => MkRequest client seqno request)
    (fun r => (req_client r, (req_seqno r, (req_request r, tt)))).

Definition CReply_m : Marshalable Reply :=
  derive_marshalable_for_struct (FCons EndPoint_m (FCons u64_m (FCons CAppMessage_m FNil)))
    (fun '(client, (seqno, (reply, tt))) => MkReply client seqno reply)
    (fun r => (rep_client r, (rep_seqno r, (rep_reply r, tt)))).

(** ** Containers and messages *)

(** What the host's memory allows and in which order its hash maps iterate. *)
Class HostRuntime := {
  batch_capacity : Capacity;
  votes_capacity : Capacity;
  cache_capacity : Capacity;
  votes_order : HashOrder Z Vote;
  cache_order : HashOrder AbstractEndPoint Reply
}.

Section wire_format.
Context {RT : HostRuntime}.

Definition CRequestBatch_m : Marshalable (list Request) := vec_m batch_capacity CRequest_m.

Definition CVote_m : Marshalable Vote :=
  derive_marshalable_for_struct (FCons CBallot_m (FCons CRequestBatch_m FNil))
    (fun '(bal, (v, tt)) => MkVote bal v) (fun v => (max_value_bal v, (max_val v, tt))).

Definition CVotes_m : Marshalable (gmap Z Vote) :=
  hashmap_m votes_capacity votes_order u64_m CVote_m.
Definition CReplyCache_m : Marshalable (gmap AbstractEndPoint Reply) :=
  hashmap_m cache_capacity cache_order EndPoint_m CReply_m.

Definition CMessageInvalid_arm : Arm RslMessage := MkArm unit 0 FNil (fun _ => RslMessageInvalid).
Definition CMessageRequest_arm : Arm RslMessage :=
  MkArm (Z * (AppMessage * unit)) 1 (FCons u64_m (FCons CAppMessage_m FNil))
    (fun '(seqno_req, (val, tt)) => RslMessageRequest seqno_req val).
Definition CMessage1a_arm : Arm RslMessage :=
  MkArm (Ballot * unit) 2 (FCons CBallot_m FNil) (fun '(bal_1a, tt) => RslMessage1a bal_1a).
Definition CMessage1b_arm : Arm RslMessage :=
  MkArm (Ballot * (Z * (gmap Z Vote * unit))) 3 (FCons CBallot_m (FCons u64_m (FCons CVotes_m FNil)))
    (fun '(bal_1b, (log_truncation_point, (votes, tt))) =>
       RslMessage1b bal_1b log_truncation_point votes).
Definition CMessage2a_arm : Arm RslMessage :=
  MkArm (Ballot * (Z * (list Request * unit))) 4
    (FCons CBallot_m (FCons u64_m (FCons CRequestBatch_m FNil)))
    (fun '(bal_2a, (opn_2a, (val_2a, tt))) => RslMessage2a bal_2a opn_2a val_2a).
Definition CMessage2b_arm : Arm RslMessage :=
  MkArm (Ballot * (Z * (list Request * unit))) 5
    (FCons CBallot_m (FCons u64_m (FCons CRequestBatch_m FNil)))
    (fun '(bal_2b, (opn_2b, (val_2b, tt))) => RslMessage2b bal_2b opn_2b val_2b).
Definition CMessageHeartbeat_arm : Arm RslMessage :=
  MkArm (Ballot * (bool * (Z * unit))) 6 (FCons CBallot_m (FCons bool_m (FCons u64_m FNil)))
    (fun '(bal_heartbeat, (suspicious, (opn_ckpt, tt))) =>
       RslMessageHeartbeat bal_heartbeat suspicious opn_ckpt).
Definition CMessageReply_arm : Arm RslMessage :=
  MkArm (Z * (AppMessage * unit)) 7 (FCons u64_m (FCons CAppMessage_m FNil))
    (fun '(seqno_reply, (reply, tt)) => RslMessageReply seqno_reply reply).
Definition CMessageAppStateRequest_arm : Arm RslMessage :=
  MkArm (Ballot * (Z * unit)) 8 (FCons CBallot_m (FCons u64_m FNil))
    (fun '(bal_state_req, (opn_state_req, tt)) => RslMessageAppStateRequest bal_state_req opn_state_req).
Definition CMessageAppStateSupply_arm : Arm RslMessage :=
  MkArm (Ballot * (Z * (Z * (gmap AbstractEndPoint Reply * unit)))) 9
    (FCons CBallot_m (FCons u64_m (FCons u64_m (FCons CReplyCache_m FNil))))
    (fun '(bal_state_supply, (opn_state_supply, (app_state, (reply_cache, tt)))) =>
       RslMessageAppStateSupply bal_state_supply opn_state_supply app_state reply_cache).
Definition CMessageStartingPhase2_arm : Arm RslMessage :=
  MkArm (Ballot * (Z * unit)) 10 (FCons CBallot_m (FCons u64_m FNil))
    (fun '(bal_2, (logTruncationPoint_2, tt)) => RslMessageStartingPhase2 bal_2 logTruncationPoint_2).

Definition CMessage_arms : list (Arm RslMessage) :=
  [CMessageInvalid_arm; CMessageRequest_arm; CMessage1a_arm; CMessage1b_arm; CMessage2a_arm;
   CMessage2b_arm; CMessageHeartbeat_arm; CMessageReply_arm; CMessageAppStateRequest_arm;
   CMessageAppStateSupply_arm; CMessageStartingPhase2_arm].

Definition CMessage_variant (m : RslMessage) : Variant RslMessage :=
  match m with
  | RslMessageInvalid => MkVariant CMessageInvalid_arm tt
  | RslMessageRequest seqno_req val => MkVariant CMessageRequest_arm (seqno_req, (val, tt))
  | RslMessage1a bal_1a => MkVariant CMessage1a_arm (bal_1a, tt)
  | RslMessage1b bal_1b ltp votes => MkVariant CMessage1b_arm (bal_1b, (ltp, (votes, tt)))
  | RslMessage2a bal_2a opn_2a val_2a => MkVariant CMessage2a_arm (bal_2a, (opn_2a, (val_2a, tt)))
  | RslMessage2b bal_2b opn_2b val_2b => MkVariant CMessage2b_arm (bal_2b, (opn_2b, (val_2b, tt)))
  | RslMessageHeartbeat bal susp opn_ckpt => MkVariant CMessageHeartbeat_arm (bal, (susp, (opn_ckpt, tt)))
  | RslMessageReply seqno_reply reply => MkVariant CMessageReply_arm (seqno_reply, (reply, tt))
  | RslMessageAppStateRequest bal opn => MkVariant CMessageAppStateRequest_arm (bal, (opn, tt))
  | RslMessageAppStateSupply bal opn app_state reply_cache =>
      MkVariant CMessageAppStateSupply_arm (bal, (opn, (app_state, (reply_cache, tt))))
  | RslMessageStartingPhase2 bal ltp => MkVariant CMessageStartingPhase2_arm (bal, (ltp, tt))
  end.

Definition CMessage_m : Marshalable RslMessage :=
  derive_marshalable_for_enum CMessage_arms CMessage_variant.

(** ** Datagrams (netrsl_i.rs) *)

Definition rsl_demarshall_data_method (buffer : list Z) : Outcome RslMessage :=
  match deserialize CMessage_m buffer 0 with
  | Failed => Done RslMessageInvalid
  | Done (cmessage, count) =>
      if decide (count <> seq_len buffer) then Done RslMessageInvalid else Done cmessage
  | Panicked => Panicked
  | OutOfFuel => OutOfFuel
  end.

Definition receive_packet (netr : NetcReceiveResult) : Outcome ReceiveResult :=
  match netr with
  | NetcError => Done Fail_
  | NetcTimedOut => Done Timeout_
  | NetcReceived sender message =>
      '(rslmessage) <-? rsl_demarshall_data_method message;
      Done (Packet sender rslmessage)
  end.

(** [send_packet] serializes into an emptied buffer. *)
Definition marshal_packet (p : LPacket AbstractEndPoint RslMessage)
  : LPacket AbstractEndPoint (list Z) :=
  MkLPacket (dst p) (src p) (serialize CMessage_m (msg p) []).


End wire_format.

(** ** The laws *)

#[export] Instance EndPoint_ok : MarshalOk EndPoint_m.
Proof. struct_law @derive_struct_ok. Qed.
#[export] Instance EndPoint_exact : MarshalExact EndPoint_m.
Proof. struct_law @derive_struct_exact. Qed.
#[export] Instance CBallot_ok : MarshalOk CBallot_m.
Proof. struct_law @derive_struct_ok. Qed.
#[export] Instance CBallot_exact : MarshalExact CBallot_m.
Proof. struct_law @derive_struct_exact. Qed.

Lemma CAppMessage_enum :
  EnumOk [CAppIncrement_arm; CAppReply_arm; CAppInvalid_arm] CAppMessage_variant.
Proof. enum_law. Qed.

#[export] Instance CAppMessage_ok : MarshalOk CAppMessage_m.
Proof. apply derive_enum_ok, CAppMessage_enum. Qed.
#[export] Instance CAppMessage_exact : MarshalExact CAppMessage_m.
Proof.
  apply derive_enum_exact; [apply CAppMessage_enum|]. intros a.
  simpl In. repeat (intros [<-|H]; [fields_law|revert H]). intros [].
Qed.

#[export] Instance CRequest_ok : MarshalOk CRequest_m.
Proof. struct_law @derive_struct_ok. Qed.
#[export] Instance CRequest_exact : MarshalExact CRequest_m.
Proof. struct_law @derive_struct_exact. Qed.
#[export] Instance CReply_ok : MarshalOk CReply_m.
Proof. struct_law @derive_struct_ok. Qed.
#[export] Instance CReply_exact : MarshalExact CReply_m.
Proof. struct_law @derive_struct_exact. Qed.

Section laws.
Context {RT : HostRuntime}.

#[export] Instance CRequestBatch_ok : MarshalOk CRequestBatch_m.
Proof. apply vec_ok. exact _. Qed.
#[export] Instance CRequestBatch_exact : MarshalExact CRequestBatch_m.
Proof. apply vec_exact; exact _. Qed.
#[export] Instance CVote_ok : MarshalOk CVote_m.
Proof. struct_law @derive_struct_ok. Qed.
#[export] Instance CVote_exact : MarshalExact CVote_m.
Proof. struct_law @derive_struct_exact. Qed.
#[export] Instance CVotes_ok : MarshalOk CVotes_m.
Proof. apply hashmap_ok; exact _. Qed.
#[export] Instance CReplyCache_ok : MarshalOk CReplyCache_m.
Proof. apply hashmap_ok; exact _. Qed.

Lemma CMessage_enum : EnumOk CMessage_arms CMessage_variant.
Proof. enum_law. Qed.

#[export] Instance CMessage_ok : MarshalOk CMessage_m.
Proof. apply derive_enum_ok, CMessage_enum. Qed.

(** ** Which messages are representable *)

(** The vectors and hash maps of a message fit in the host's memory. *)
Definition fits_vote (v : Vote) : Prop := capacity_ok batch_capacity (seq_len (max_val v)) = true.

Definition fits (m : RslMessage) : Prop :=
  match m with
  | RslMessage1b _ _ votes =>
      capacity_ok votes_capacity (Z.of_nat (size votes)) = true
      /\ forall opn v, votes !! opn = Some v -> fits_vote v
  | RslMessage2a _ _ b | RslMessage2b _ _ b => capacity_ok batch_capacity (seq_len b) = true
  | RslMessageAppStateSupply _ _ _ cache =>
      capacity_ok cache_capacity (Z.of_nat (size cache)) = true
  | _ => True
  end.

Lemma EndPoint_rep e : valid e -> rep EndPoint_m e.
Proof. intros [Hl Hb]. split; [|done]. split; [exact Hb|]. unfold ISIZE_MAX. simpl. lia. Qed.

Lemma CBallot_rep b : valid b -> rep CBallot_m b.
Proof.
  intros [Hs Hp]. refine (conj Hs (conj _ I)). simpl. unfold is_u64, U64_MODULUS. lia.
Qed.

Lemma CAppMessage_rep m : valid m -> rep CAppMessage_m m.
Proof. destruct m; [done| |done]. intros Hr. by split. Qed.

Lemma CRequest_rep r : valid r -> rep CRequest_m r.
Proof.
  intros (Hc & Hs & Hm).
  exact (conj (EndPoint_rep _ Hc) (conj Hs (conj (CAppMessage_rep _ Hm) I))).
Qed.

Lemma CReply_rep r : valid r -> rep CReply_m r.
Proof.
  intros (Hc & Hs & Hm).
  exact (conj (EndPoint_rep _ Hc) (conj Hs (conj (CAppMessage_rep _ Hm) I))).
Qed.

Lemma CRequestBatch_rep b :
  valid b -> capacity_ok batch_capacity (seq_len b) = true -> rep CRequestBatch_m b.
Proof. intros Hb Hc. split; [|done]. eapply Forall_impl; [exact Hb|]. apply CRequest_rep. Qed.

(** A valid message that fits is a value of its Rust type. *)
Lemma CMessage_rep m : valid m -> fits m -> rep CMessage_m m.
Proof.
  intros Hv Hf. destruct m as [|n v|b|b n vs|b n v|b n v|b sus n|n v|b n|b n app cache|b n].
  - exact I.
  - destruct Hv as [Hn Hm]. exact (conj Hn (conj (CAppMessage_rep _ Hm) I)).
  - exact (conj (CBallot_rep _ Hv) I).
  - destruct Hv as (Hb & Hn & Hvs), Hf as [Hc Hfs].
    refine (conj (CBallot_rep _ Hb) (conj Hn (conj (conj _ Hc) I))).
    intros k v Hk. destruct (Hvs k v Hk) as [Hk64 [Hvb Hvv]]. split; [exact Hk64|].
    exact (conj (CBallot_rep _ Hvb) (conj (CRequestBatch_rep _ Hvv (Hfs k v Hk)) I)).
  - destruct Hv as (Hb & Hn & Hvv).
    exact (conj (CBallot_rep _ Hb) (conj Hn (conj (CRequestBatch_rep _ Hvv Hf) I))).
  - destruct Hv as (Hb & Hn & Hvv).
    exact (conj (CBallot_rep _ Hb) (conj Hn (conj (CRequestBatch_rep _ Hvv Hf) I))).
  - destruct Hv as [Hb Hn]. exact (conj (CBallot_rep _ Hb) (conj I (conj Hn I))).
  - destruct Hv as [Hn Hm]. exact (conj Hn (conj (CAppMessage_rep _ Hm) I)).
  - destruct Hv as [Hb Hn]. exact (conj (CBallot_rep _ Hb) (conj Hn I)).
  - destruct Hv as (Hb & Hn & Ha & Hca).
    refine (conj (CBallot_rep _ Hb) (conj Hn (conj Ha (conj (conj _ Hf) I)))).
    intros k r Hk. destruct (Hca k r Hk) as [Hke Hkr].
    exact (conj (EndPoint_rep _ Hke) (CReply_rep _ Hkr)).
  - destruct Hv as [Hb Hn]. exact (conj (CBallot_rep _ Hb) (conj Hn I)).
Qed.

(** ** Datagrams *)

Definition has_map (m : RslMessage) : bool :=
  match m with RslMessage1b _ _ _ | RslMessageAppStateSupply _ _ _ _ => true | _ => false end.

Lemma CMessage_arm_exact m :
  has_map m = false -> fields_exact (arm_fields (v_arm (CMessage_variant m))).
Proof. destruct m; try done; intros _; fields_law. Qed.

Lemma CMessage_canonical d m e :
  is_data d -> has_map m = false -> deserialize CMessage_m d 0 = Done (m, e) ->
  seq_subrange d 0 e = serialize CMessage_m m [].
Proof.
  intros Hd Hm He. pose proof (CMessage_arm_exact m Hm) as Hx.
  rewrite (enum_arm_canonical _ _ CMessage_enum d 0 m e Hx Hd ltac:(lia) He).
  symmetry. exact (proj1 (enum_arm_exact _ _ CMessage_enum m Hx)).
Qed.

Lemma demarshall_marshalled m :
  rep CMessage_m m -> seq_len (serialize CMessage_m m []) <= ISIZE_MAX ->
  rsl_demarshall_data_method (serialize CMessage_m m []) = Done m.
Proof.
  intros Hm Hl. unfold rsl_demarshall_data_method.
  pose proof (roundtrip (c := CMessage_m) m [] [] Hm) as Hr. rewrite app_nil_r in Hr.
  change (seq_len (@nil Z)) with 0 in Hr. cbn [app] in Hr. unfold wire in Hr. rewrite Hr by done.
  by rewrite decide_False by lia.
Qed.

Lemma demarshall_prefix m k :
  rep CMessage_m m -> seq_len (serialize CMessage_m m []) <= ISIZE_MAX ->
  (k < length (serialize CMessage_m m []))%nat ->
  rsl_demarshall_data_method (take k (serialize CMessage_m m [])) = Done RslMessageInvalid.
Proof.
  intros Hm Hl Hk. unfold rsl_demarshall_data_method.
  pose proof (truncated (c := CMessage_m) m [] k Hm Hk) as Hr.
  change (seq_len (@nil Z)) with 0 in Hr. cbn [app] in Hr. unfold wire in Hr. rewrite Hr; [done|].
  unfold seq_len in *. rewrite length_take. lia.
Qed.

Lemma demarshall_trailing m b extra :
  rep CMessage_m m -> seq_len (serialize CMessage_m m [] ++ b :: extra) <= ISIZE_MAX ->
  rsl_demarshall_data_method (serialize CMessage_m m [] ++ b :: extra) = Done RslMessageInvalid.
Proof.
  intros Hm Hl. unfold rsl_demarshall_data_method.
  pose proof (roundtrip (c := CMessage_m) m [] (b :: extra) Hm) as Hr.
  change (seq_len (@nil Z)) with 0 in Hr. cbn [app] in Hr. unfold wire in Hr. rewrite Hr by done.
  rewrite decide_True; [done|]. unfold seq_len. rewrite length_app. simpl length. lia.
Qed.

Lemma demarshall_unknown_tag tag rest :
  tag > 10 -> rsl_demarshall_data_method (tag :: rest) = Done RslMessageInvalid.
Proof.
  intros Ht. unfold rsl_demarshall_data_method.
  change CMessage_m with (derive_marshalable_for_enum CMessage_arms CMessage_variant).
  rewrite enum_unknown_tag; [done|unfold seq_len; simpl; lia|].
  intros a. change (seq_index (tag :: rest) 0) with tag. simpl In.
  repeat (intros [<-|H]; [simpl; lia|revert H]). intros [].
Qed.

Lemma demarshall_parsed d m :
  is_data d -> rsl_demarshall_data_method d = Done m ->
  m = RslMessageInvalid
  \/ rep CMessage_m m /\ deserialize CMessage_m d 0 = Done (m, seq_len d).
Proof.
  intros Hd. unfold rsl_demarshall_data_method.
  destruct (deserialize CMessage_m d 0) as [[m' count]| | |] eqn:He; try done.
  - case_decide as Hc; intros [= <-]; [by left|right].
    destruct (parsed (c := CMessage_m) d 0 m' count Hd ltac:(lia) He) as [Hr _].
    split; [done|]. by replace (seq_len d) with count by lia.
  - intros [= <-]. by left.
Qed.

Lemma demarshall_fuel d : is_data d -> rsl_demarshall_data_method d <> OutOfFuel.
Proof.
  intros Hd. unfold rsl_demarshall_data_method.
  pose proof (fuel_enough (c := CMessage_m) d 0 Hd ltac:(lia)) as Hf.
  destruct (deserialize CMessage_m d 0) as [[m' count]| | |]; try done. by case_decide.
Qed.
End laws.
