(* ===== verification/WireProperties.v ===== *)
(** * Theorems about the wire format

    The hosts that exchange bytes come first; then round trip, rejection of
    corrupted datagrams, typing and termination of parsing, the service
    implemented by those hosts, and what parsing does not check. *)

From stdpp Require Import prelude gmap sets list numbers fin_sets.
From Stdlib Require Import ZArith Lia.
From S2P Require Import Prelude.
From S2P Require Import Types.
From S2P Require Import Common.
From S2P Require Import Environment.
From S2P Require Import Replica.
From S2P Require Import ReplicaImpl.
From S2P Require Import DistributedSystem.
From S2P Require Import Validity.
From S2P Require Import Service.
From S2P Require Import ImplSystem.
From S2P Require Import Scenario.
From S2P Require Import ServiceProperties.
From S2P Require Import Marshalling.
From S2P Require Import MarshallingLaws.
From S2P Require Import WireFormat.

#[local] Open Scope Z_scope.

(** * Hosts that exchange bytes

    The system of ImplSystem.v over byte strings: a host parses the datagram it
    receives, runs one iteration of its event loop, and serializes the packets
    it sends; anyone else may send any bytes that do not parse as an invalid
    message.  It refines the system of hosts that exchange messages. *)

Record WireState := MkWireState { ws_hosts : list ReplicaImpl; ws_sent : gset NetPacket }.

Section wire_system.
Context {RT : HostRuntime}.
Context (c : CConstants) (Hc : valid c).
Implicit Types (st : WireState) (ist : ImplState) (w : NetPacket).

Definition wire_init : WireState := {| ws_hosts := is_hosts (impl_init c); ws_sent := ∅ |}.

(** The datagrams of a host's sends. *)
Definition marshal_sent (ios : list RslIo) : gset NetPacket := set_map marshal_packet (sent_by ios).

(** A message that the host can hold and serialize in its memory. *)
Definition sendable (m : RslMessage) : Prop :=
  rep CMessage_m m /\ seq_len (serialize CMessage_m m []) <= ISIZE_MAX.

(** What a datagram says, if it parses. *)
Definition parses w (p : RslPacket) : Prop :=
  dst w = dst p /\ src w = src p /\ rsl_demarshall_data_method (msg w) = Done (msg p).

Inductive wire_step st : WireState -> Prop :=
  | wire_step_host idx r netr rr time sends r' ios :
      seq_get (ws_hosts st) idx = Some r ->
      is_u64 time ->
      (forall sender message, netr = NetcReceived sender message ->
         MkLPacket (localAddr r) sender message ∈ ws_sent st) ->
      receive_packet netr = Done rr ->
      Replica_Next_main r (MkNetClient rr time sends) = (r', true, ios) ->
      (forall p, Send p ∈ ios -> sendable (msg p)) ->
      wire_step st (MkWireState (seq_update (ws_hosts st) idx r') (ws_sent st ∪ marshal_sent ios))
  | wire_step_external w :
      src w ∉ c_replica_ids (c_config c) ->
      (forall p, parses w p -> valid p) ->
      wire_step st (MkWireState (ws_hosts st) (ws_sent st ∪ {[w]})).

Inductive wire_reachable : WireState -> Prop :=
  | wire_reachable_init : wire_reachable wire_init
  | wire_reachable_step st st' : wire_reachable st -> wire_step st st' -> wire_reachable st'.

(** The packets of the message system are what the datagrams say. *)
Definition wire_sim st ist : Prop :=
  is_hosts ist = ws_hosts st
  /\ forall p, p ∈ is_sent ist <-> exists w, w ∈ ws_sent st /\ parses w p.

Lemma marshal_packet_parses p : sendable (msg p) -> parses (marshal_packet p) p.
Proof. intros [Hr Hl]. split; [done|split; [done|by apply demarshall_marshalled]]. Qed.

Lemma parses_unique w p q : parses w p -> parses w q -> p = q.
Proof.
  intros (Hd & Hs & Hm) (Hd' & Hs' & Hm'). destruct p, q. simpl in *. congruence.
Qed.

Lemma receive_packet_delivered netr rr r time sends p :
  receive_packet netr = Done rr -> delivered r (MkNetClient rr time sends) = Some p ->
  exists sender message, netr = NetcReceived sender message
    /\ parses (MkLPacket (localAddr r) sender message) p.
Proof.
  destruct netr as [sender message| |]; simpl; [|by intros [= <-]..].
  intros (m & Hm & [= <-])%obind_Done [= <-]. exists sender, message. by split_and!.
Qed.

(** The datagrams parse as the packets they were made of. *)
Lemma marshal_sent_parses ios p :
  (forall q, Send q ∈ ios -> sendable (msg q)) ->
  p ∈ sent_by ios <-> exists w, w ∈ marshal_sent ios /\ parses w p.
Proof.
  intros Hs. unfold marshal_sent. split.
  - intros Hp. exists (marshal_packet p). split; [by apply elem_of_map_2|].
    by apply marshal_packet_parses, Hs, sent_by_elem.
  - intros (w & (q & -> & Hq)%elem_of_map & Hp).
    rewrite (parses_unique _ p q Hp); [done|]. by apply marshal_packet_parses, Hs, sent_by_elem.
Qed.

Lemma wire_step_simulates st st' ist :
  wire_sim st ist -> wire_step st st' ->
  exists ist', wire_sim st' ist' /\ (ist' = ist \/ impl_step c ist ist').
Proof.
  intros [Hh Hs] [idx r netr rr time sends r' ios Hr Ht Hrecv Hparse Hnext Hsend|w Hsrc Hvalid].
  - exists (MkImplState (seq_update (is_hosts ist) idx r') (is_sent ist ∪ sent_by ios)). split.
    + split; [simpl; by rewrite Hh|]. intros p. simpl. rewrite elem_of_union, Hs.
      rewrite marshal_sent_parses by done. split.
      * intros [(w & Hw & Hp)|(w & Hw & Hp)]; exists w; (split; [apply elem_of_union; auto|done]).
      * intros (w & [Hw|Hw]%elem_of_union & Hp); [left|right]; by exists w.
    + right. apply (impl_step_host c ist idx r (MkNetClient rr time sends)); [by rewrite Hh|exact Ht| |exact Hnext].
      intros p Hp. destruct (receive_packet_delivered _ _ _ _ _ _ Hparse Hp) as (s & m & -> & Hw).
      apply Hs. exists (MkLPacket (localAddr r) s m). by split; [apply Hrecv|].
  - assert (forall ist' : ImplState, is_hosts ist' = is_hosts ist ->
      (forall p, p ∈ is_sent ist' <-> p ∈ is_sent ist \/ parses w p) ->
      wire_sim (MkWireState (ws_hosts st) (ws_sent st ∪ {[w]})) ist') as Hsim.
    { intros ist' Hhosts Hsent. split; [simpl; congruence|]. intros p. simpl. rewrite Hsent, Hs. split.
      - intros [(w' & Hw & Hp)|Hp]; [exists w'|exists w]; (split; [set_solver|done]).
      - intros (w' & [Hw| ->%elem_of_singleton]%elem_of_union & Hp); [left; by exists w'|by right]. }
    destruct (rsl_demarshall_data_method (msg w)) as [m| | |] eqn:Hm.
    + set (p := MkLPacket (dst w) (src w) m). assert (parses w p) as Hp by done.
      exists (MkImplState (is_hosts ist) (is_sent ist ∪ {[p]})). split.
      * apply Hsim; [done|]. intros q. simpl. rewrite elem_of_union, elem_of_singleton.
        split; (intros [?|Hq]; [by left|right]); [by subst|by eapply parses_unique].
      * right. apply impl_step_external; [by apply Hvalid|done].
    + exists ist. split; [|by left]. apply Hsim; [done|]. intros p. split; [by left|].
      intros [?|(_ & _ & He)]; [done|congruence].
    + exists ist. split; [|by left]. apply Hsim; [done|]. intros p. split; [by left|].
      intros [?|(_ & _ & He)]; [done|congruence].
    + exists ist. split; [|by left]. apply Hsim; [done|]. intros p. split; [by left|].
      intros [?|(_ & _ & He)]; [done|congruence].
Qed.

Lemma wire_reachable_simulated st :
  wire_reachable st -> exists ist, impl_reachable c ist /\ wire_sim st ist.
Proof.
  induction 1 as [|st st' _ (ist & Hist & Hsim) Hstep].
  - exists (impl_init c). split; [constructor|]. split; [done|]. intros p. simpl. split.
    + by intros ?%not_elem_of_empty.
    + by intros (w & ?%not_elem_of_empty & _).
  - destruct (wire_step_simulates st st' ist Hsim Hstep) as (ist' & Hsim' & [->|Hi]).
    + by exists ist.
    + exists ist'. split; [by eapply impl_reachable_step|done].
Qed.
End wire_system.

(** * The theorems *)

(** ** A concrete runtime *)

Lemma one_le_64 : 1 <= 64.
Proof. lia. Qed.

Definition example_runtime : HostRuntime :=
  {| batch_capacity := capacity_of_size 64 one_le_64;
     votes_capacity := capacity_of_size 64 one_le_64;
     cache_capacity := capacity_of_size 64 one_le_64;
     votes_order := map_order;
     cache_order := map_order |}.

(** A promise with votes, and its bytes. *)
Definition promise : RslMessage := RslMessage1b bal1 0 votes1.
Definition promise_bytes : list Z := serialize (@CMessage_m example_runtime) promise [].

Lemma promise_rep : rep (@CMessage_m example_runtime) promise.
Proof.
  apply CMessage_rep.
  - split; [|split]; [vm_compute; intuition discriminate..|].
    intros k v Hk. unfold votes1 in Hk. apply lookup_singleton_Some in Hk as [<- <-].
    split; [vm_compute; intuition discriminate|]. split; [apply bal0_valid|apply batch_valid].
  - split; [vm_compute; reflexivity|]. intros k v Hk. unfold votes1 in Hk.
    apply lookup_singleton_Some in Hk as [<- <-]. vm_compute. reflexivity.
Qed.

Lemma promise_length : seq_len promise_bytes = 83.
Proof. vm_compute. reflexivity. Qed.

(** ** Theorems *)

(** C32: round trip. A message of its Rust type, serialized in memory into a
    datagram, is parsed back as the same message by the receiver, however the
    sender's hash maps order their entries. *)
Theorem marshalled_message_parses `{RT : HostRuntime} (m : RslMessage) :
  valid m -> fits m -> seq_len (serialize CMessage_m m []) <= ISIZE_MAX ->
  rsl_demarshall_data_method (serialize CMessage_m m []) = Done m.
Proof. intros Hv Hf. by apply demarshall_marshalled, CMessage_rep. Qed.

Lemma promise_fits : @fits example_runtime promise.
Proof.
  split; [vm_compute; reflexivity|]. intros k v Hk. unfold votes1 in Hk.
  apply lookup_singleton_Some in Hk as [<- <-]. vm_compute. reflexivity.
Qed.

Lemma promise_valid : valid promise.
Proof.
  split; [|split]; [vm_compute; intuition discriminate..|].
  intros k v Hk. unfold votes1 in Hk. apply lookup_singleton_Some in Hk as [<- <-].
  split; [vm_compute; intuition discriminate|]. split; [apply bal0_valid|apply batch_valid].
Qed.

Lemma promise_small : seq_len promise_bytes <= ISIZE_MAX.
Proof. rewrite promise_length. vm_compute. discriminate. Qed.

Lemma marshalled_message_parses_witness :
  @rsl_demarshall_data_method example_runtime promise_bytes = Done promise.
Proof.
  exact (@marshalled_message_parses example_runtime promise promise_valid promise_fits promise_small).
Defined.

(** C33: corrupted datagrams. A datagram that is a proper prefix of a message's
    bytes, or has bytes after them, or starts with a tag of no message, or is
    empty, is parsed as the invalid message, which replicas ignore; the parser
    neither panics nor takes it for another message. *)
Theorem corrupted_datagram_invalid `{RT : HostRuntime} (m : RslMessage) (d : list Z) :
  rep CMessage_m m -> seq_len (serialize CMessage_m m []) <= ISIZE_MAX -> seq_len d <= ISIZE_MAX ->
  (d `prefix_of` serialize CMessage_m m [] /\ d <> serialize CMessage_m m [])
  \/ (serialize CMessage_m m [] `prefix_of` d /\ d <> serialize CMessage_m m [])
  \/ (exists tag rest, d = tag :: rest /\ tag > 10)
  \/ d = [] ->
  rsl_demarshall_data_method d = Done RslMessageInvalid.
Proof.
  intros Hm Hl Hd [[[rest Hp] Hne]|[[[rest ->] Hne]|[(tag & rest & -> & Ht)| ->]]].
  - rewrite Hp in Hne. rewrite <- (take_app_length d rest), <- Hp.
    apply demarshall_prefix; [done|done|]. rewrite Hp, length_app.
    destruct rest; [by rewrite app_nil_r in Hne|simpl; lia].
  - destruct rest as [|b rest]; [by rewrite app_nil_r in Hne|]. by apply demarshall_trailing.
  - by apply demarshall_unknown_tag.
  - done.
Qed.

Lemma corrupted_datagram_invalid_witness :
  @rsl_demarshall_data_method example_runtime (take 40 promise_bytes) = Done RslMessageInvalid
  /\ @rsl_demarshall_data_method example_runtime (promise_bytes ++ [0]) = Done RslMessageInvalid.
Proof.
  pose proof promise_small as Hs. split.
  - apply (@corrupted_datagram_invalid example_runtime promise (take 40 promise_bytes) promise_rep Hs).
    + vm_compute. discriminate.
    + left. split; [exists (drop 40 promise_bytes); symmetry; apply take_drop|]. vm_compute. discriminate.
  - apply (@corrupted_datagram_invalid example_runtime promise (promise_bytes ++ [0]) promise_rep Hs).
    + vm_compute. discriminate.
    + right; left. split; [by exists [0]|]. vm_compute. discriminate.
Defined.

(** C34: typing. Whatever bytes arrive, a message that is parsed from them is
    the invalid message or a value of its Rust type (every integer in its
    range, every byte string and container within memory), read to the
    datagram's last byte; and unless it holds a hash map, the datagram is the
    one encoding of the message. *)
Theorem parsed_message_typed `{RT : HostRuntime} (d : list Z) (m : RslMessage) :
  is_data d -> rsl_demarshall_data_method d = Done m ->
  m = RslMessageInvalid
  \/ rep CMessage_m m /\ (has_map m = false -> d = serialize CMessage_m m []).
Proof.
  intros Hd Hm. destruct (demarshall_parsed d m Hd Hm) as [?|[Hr He]]; [by left|right].
  split; [done|]. intros Hmap. rewrite <- (CMessage_canonical d m _ Hd Hmap He).
  unfold seq_subrange, seq_len. rewrite drop_0, take_ge; [done|lia].
Qed.

Definition accept : RslMessage := RslMessage2a bal0 0 batch.
Definition accept_bytes : list Z := serialize (@CMessage_m example_runtime) accept [].

Lemma parsed_message_typed_witness :
  rep (@CMessage_m example_runtime) accept /\ seq_len accept_bytes = 51.
Proof.
  assert (is_data accept_bytes) as Hd.
  { split; [|vm_compute; discriminate]. apply (bool_decide_eq_true_1 (Forall is_u8 accept_bytes)). vm_compute. reflexivity. }
  assert (@rsl_demarshall_data_method example_runtime accept_bytes = Done accept) as Hm.
  { vm_compute. reflexivity. }
  split; [|vm_compute; reflexivity].
  destruct (@parsed_message_typed example_runtime accept_bytes accept Hd Hm) as [H|[H _]];
    [discriminate H|exact H].
Defined.

(** C35: termination. Parsing any datagram ends: a container's loop reads at
    least one byte of the datagram in each iteration, so that as many
    iterations as the datagram has bytes are enough for it to succeed or fail,
    whatever count it starts with; the parser then gives a message, or panics on
    a count that cannot be allocated. *)
Theorem demarshalling_terminates `{RT : HostRuntime} (d : list Z) :
  is_data d ->
  (exists m, rsl_demarshall_data_method d = Done m) \/ rsl_demarshall_data_method d = Panicked.
Proof.
  intros Hd. pose proof (demarshall_fuel d Hd) as Hf.
  assert (rsl_demarshall_data_method d <> Failed) as Hn.
  { unfold rsl_demarshall_data_method.
    destruct (deserialize CMessage_m d 0) as [[m count]| | |]; try done. by case_decide. }
  destruct (rsl_demarshall_data_method d) as [m| | |]; [left; by exists m|done|by right|done].
Qed.

Lemma demarshalling_terminates_witness :
  exists m, @rsl_demarshall_data_method example_runtime accept_bytes = Done m.
Proof.
  assert (is_data accept_bytes) as Hd.
  { split; [|vm_compute; discriminate]. apply (bool_decide_eq_true_1 (Forall is_u8 accept_bytes)). vm_compute. reflexivity. }
  destruct (@demarshalling_terminates example_runtime accept_bytes Hd) as [H|H]; [exact H|].
  vm_compute in H. discriminate H.
Defined.

(** The service explains the datagrams. *)
Definition service_explains_wire `{RT : HostRuntime} (c : CConstants) (st : WireState)
    (rs : RSLSystemState) : Prop :=
  let ids := c_replica_ids (c_config c) in
  (forall w p seqno reply, w ∈ ws_sent st -> parses w p -> src p ∈ ids ->
     msg p = RslMessageReply seqno reply -> MkReply (dst p) seqno reply ∈ replies rs)
  /\ (forall r, r ∈ requests rs -> req_client r ∉ ids ->
        exists w p, w ∈ ws_sent st /\ parses w p /\ dst p ∈ ids /\ request_packet p r).

(** C8: end to end. For every state of a network of hosts that run the
    implementation and exchange byte strings with each other and with clients,
    there is a run of the centralized service that made every reply a host has
    sent, as the client parses it, and executed only requests that datagrams from
    their clients carry. *)
Theorem wire_hosts_implement_service `{RT : HostRuntime} (c : CConstants) (st : WireState) :
  valid c -> wire_reachable c st ->
  exists rs0 rs, RslSystemInit rs0 (list_to_set (c_replica_ids (c_config c)))
    /\ RslSystemNext rs0 rs /\ service_explains_wire c st rs.
Proof.
  intros Hc Hst. destruct (wire_reachable_simulated c Hc st Hst) as (ist & Hist & _ & Hsent).
  destruct (impl_reachable_simulated c Hc ist Hist) as (ps & Hps & Hsim).
  destruct (relation_exists _ _ Hps) as [rs Hrs].
  destruct (relation_run _ _ _ Hps Hrs) as (rs0 & Hinit & Hnext).
  destruct (service_explains_relation c ist ps rs Hc Hps Hsim Hrs) as [Hrep Hreq].
  exists rs0, rs. split_and!; [done|done|]. split.
  - intros w p seqno reply Hw Hp. apply Hrep, Hsent. by exists w.
  - intros r Hr Hout. destruct (Hreq r Hr Hout) as (p & (w & Hw & Hp)%Hsent & Hdst & Hrp).
    by exists w, p.
Qed.

(** A client's request arrives at the first host. *)
Definition request_client : NetClient := MkNetClient (Packet client (msg request)) 0 all_sent.
Definition first_host : ReplicaImpl := Replica_Init (host_constants cfg 0).

Lemma first_host_receives :
  (Replica_Next_main first_host request_client).1.2 = true
  /\ omap io_sent (Replica_Next_main first_host request_client).2 = [].
Proof. vm_compute. by split. Qed.

Definition request_datagram : LPacket AbstractEndPoint (list Z) :=
  @marshal_packet example_runtime request.

Lemma request_parses : @parses example_runtime request_datagram request.
Proof. split; [reflexivity|split; [reflexivity|]]. vm_compute. reflexivity. Qed.

Lemma request_arrives :
  exists st, @wire_reachable example_runtime cfg st /\ request_datagram ∈ ws_sent st
    /\ seq_get (ws_hosts st) 0 = Some (Replica_Next_main first_host request_client).1.1.
Proof.
  set (st1 := MkWireState (is_hosts (impl_init cfg)) (∅ ∪ {[request_datagram]})).
  assert (@wire_reachable example_runtime cfg st1) as H1.
  { eapply wire_reachable_step; [constructor|]. apply (@wire_step_external example_runtime cfg (wire_init cfg)); [vm_compute; set_solver|].
    intros p Hp. rewrite (@parses_unique example_runtime _ p request Hp request_parses). apply request_valid. }
  destruct first_host_receives as [Hok Hio].
  destruct (Replica_Next_main first_host request_client) as [[r' ok] ios] eqn:Hn. simpl in Hok, Hio. subst ok.
  exists (MkWireState (seq_update (ws_hosts st1) 0 r') (ws_sent st1 ∪ @marshal_sent example_runtime ios)). split_and!.
  - eapply wire_reachable_step; [exact H1|].
    apply (@wire_step_host example_runtime cfg st1 0 first_host (NetcReceived client (msg request_datagram))
             (Packet client (msg request)) 0 all_sent r' ios); try done.
    + intros sender message [= <- <-]. simpl. set_solver.
    + intros p Hp%io_sent_elem. rewrite Hio in Hp. by apply not_elem_of_nil in Hp.
  - simpl. set_solver.
  - simpl ws_hosts. apply seq_get_update_eq. vm_compute. by split.
Qed.

Lemma wire_hosts_implement_service_witness :
  exists st rs, request_datagram ∈ ws_sent st /\ @service_explains_wire example_runtime cfg st rs.
Proof.
  destruct request_arrives as (st & Hst & Hw & _).
  destruct (@wire_hosts_implement_service example_runtime cfg st cfg_valid Hst) as (rs0 & rs & _ & _ & H).
  exists st, rs. split; [exact Hw|exact H].
Defined.

(** ** What parsing does not check *)

(** A 2a whose batch starts with the count 2^64 - 1. *)
Definition oversized_2a : list Z :=
  4 :: u64_to_le_bytes 1 ++ u64_to_le_bytes 0 ++ u64_to_le_bytes 0 ++ u64_to_le_bytes (U64_MODULUS - 1).

(** [Vec::with_capacity] is called with a count from the datagram: 33 bytes
    from anyone make any replica panic. *)
Theorem oversized_count_panics (RT : HostRuntime) :
  @rsl_demarshall_data_method RT oversized_2a = Panicked.
Proof.
  destruct RT as [cap vc cc vo co].
  assert (capacity_ok cap 18446744073709551615 = false) as Hcap.
  { destruct (capacity_ok cap 18446744073709551615) eqn:Hc; [|done].
    apply capacity_limit in Hc. vm_compute in Hc. by destruct Hc. }
  unfold rsl_demarshall_data_method.
  enough (@deserialize RslMessage (@CMessage_m (Build_HostRuntime cap vc cc vo co)) oversized_2a 0
          = Panicked) as -> by done.
  change (obind (obind (Done (MkBallot 1 0, 17)) (fun '(x, mid) =>
     obind (fields_deserialize (FCons u64_m (FCons (vec_m cap CRequest_m) FNil)) oversized_2a mid)
       (fun '(xs, end_) => Done ((x, xs), end_))))
     (fun '(xs, end_) => Done (arm_build (@CMessage2a_arm (Build_HostRuntime cap vc cc vo co)) xs, end_))
     = Panicked).
  cbn [obind fields_deserialize].
  change (deserialize u64_m oversized_2a 17) with (@Done (Z * Z) (0, 25)). cbn [obind].
  rewrite vec_deserialize_counted. unfold counted_deserialize.
  change (deserialize usize_m oversized_2a 25) with (@Done (Z * Z) (18446744073709551615, 33)).
  cbn [obind]. by rewrite Hcap.
Qed.

(** A 1b whose votes hold operation 0 twice. *)
Definition vote_bytes : list Z :=
  u64_to_le_bytes 0 ++ serialize (@CVote_m example_runtime) (MkVote bal0 []) [].
Definition duplicate_1b : list Z :=
  3 :: serialize CBallot_m bal1 [] ++ u64_to_le_bytes 0 ++ u64_to_le_bytes 2 ++ vote_bytes ++ vote_bytes.

(** The trait promises that the bytes a value is read from are its
    serialization; a hash map with a repeated key is read as a smaller map. *)
Theorem duplicate_keys_accepted :
  let m := RslMessage1b bal1 0 {[ 0 := MkVote bal0 [] ]} in
  @rsl_demarshall_data_method example_runtime duplicate_1b = Done m
  /\ seq_len duplicate_1b = 97 /\ seq_len (serialize (@CMessage_m example_runtime) m []) = 65.
Proof. split_and!; vm_compute; reflexivity. Qed.

(** A hash map's specification puts its keys before its values, and its size is
    given as 0; the code interleaves keys and values. *)
Theorem hashmap_specification_differs :
  let votes : gmap Z Vote := {[ 0 := MkVote bal0 []; 1 := MkVote bal1 [] ]} in
  serialize (@CVotes_m example_runtime) votes [] <> ghost_serialize (@CVotes_m example_runtime) votes
  /\ serialized_size (@CVotes_m example_runtime) votes = 0
  /\ seq_len (serialize (@CVotes_m example_runtime) votes []) = 72.
Proof. split_and!; [vm_compute; discriminate|vm_compute; reflexivity..]. Qed.

(** The handlers require valid packets; nothing checks the ballots of a datagram. *)
Theorem invalid_ballot_accepted :
  let m := RslMessage1a (MkBallot 0 (U64_MODULUS - 1)) in
  @rsl_demarshall_data_method example_runtime (serialize (@CMessage_m example_runtime) m []) = Done m
  /\ ~ valid m.
Proof. split; [vm_compute; reflexivity|]. intros [_ [_ H]]. vm_compute in H. discriminate H. Qed.
