(* ===== verification/GenericHost.v ===== *)
(** * The generic host

    common/framework/{protocol_trait,generic_net,generic_host,generic_main}.rs:
    the traits that a protocol's message, configuration and host implement, and
    the loop that receives a datagram, runs the protocol's [next] and sends the
    packets it returns.  Every protocol but the replicated state library and the
    lock service runs in this loop.

    What the world answers to one iteration is given: the result of the receive
    call, whether the [k]th send succeeds, and an [Ambient] value with what the
    protocol's [next] reads by itself (clocks, random numbers). *)

From stdpp Require Import prelude gmap sets list numbers fin_sets.
From Stdlib Require Import ZArith Lia.
From S2P Require Import Prelude.
From S2P Require Import Types.
From S2P Require Import Environment.

#[local] Open Scope Z_scope.

(** [EndPoint], [Args]: byte strings. *)
Abbreviation EndPoint := AbstractEndPoint (only parsing).
Abbreviation Args := (list (list Z)) (only parsing).

(** ** protocol_trait.rs *)

Record GenericPacket (M : Type) := MkGenericPacket
  { gp_dst : EndPoint; gp_src : EndPoint; gp_msg : M }.
Arguments MkGenericPacket {_} _ _ _.
Arguments gp_dst {_} _.
Arguments gp_src {_} _.
Arguments gp_msg {_} _.

Inductive GenericReceiveResult (M : Type) :=
  | GenericReceived (packet : GenericPacket M)
  | GenericTimeout
  | GenericFail.
Arguments GenericReceived {_} _.
Arguments GenericTimeout {_}.
Arguments GenericFail {_}.

Inductive GenericOutbound (M : Type) :=
  | OutSend (dst : EndPoint) (msg : M)
  | OutBroadcast (dsts : list EndPoint) (msg : M)
  | OutSequence (packets : list (GenericPacket M))
  | OutNone.
Arguments OutSend {_} _ _.
Arguments OutBroadcast {_} _ _.
Arguments OutSequence {_} _.
Arguments OutNone {_}.

Record StepResult (M : Type) := MkStepResult { sr_ok : bool; sr_outbound : GenericOutbound M }.
Arguments MkStepResult {_} _ _.
Arguments sr_ok {_} _.
Arguments sr_outbound {_} _.

(** [serialize_to_bytes(&self, buf)] gives the new [buf]. *)
Class ProtocolMessage (M : Type) :=
  { serialize_to_bytes : M -> list Z -> list Z;
    deserialize_from_bytes : list Z -> option M }.

(** The trait [ProtocolConfig] and the functions of the trait [ProtocolHost];
    [next(&mut self, ...)] gives the new host. *)
Class ProtocolHost (Ambient M Cfg Host : Type) :=
  { parse_config : EndPoint -> Args -> option Cfg;
    get_peers : Cfg -> list EndPoint;
    protocol_init : Ambient -> Cfg -> option Host;
    protocol_next : Ambient -> Host -> Cfg -> option (GenericPacket M) -> Host * StepResult M }.

(** ** generic_net.rs *)

Record NetAnswers := MkNetAnswers { na_receive : NetcReceiveResult; na_sent : nat -> bool }.

Section generic_net.
Context `{ProtocolMessage M}.

Definition receive_packet (netr : NetcReceiveResult) (local_addr : EndPoint)
  : GenericReceiveResult M :=
  match netr with
  | NetcError => GenericFail
  | NetcTimedOut => GenericTimeout
  | NetcReceived sender message =>
      match deserialize_from_bytes message with
      | None => GenericFail
      | Some msg => GenericReceived (MkGenericPacket local_addr sender msg)
      end
  end.

(** The datagram that [send_packet] hands to the network: a buffer from
    [take_buffer] is empty. *)
Definition datagram (src dst : EndPoint) (m : M) : NetPacket :=
  MkLPacket dst src (serialize_to_bytes m []).

(** The loops of [deliver_outbound]: stop at the first failing send.  Gives the
    result and the datagrams sent; [k] sends came before. *)
Fixpoint send_packets (src : EndPoint) (sent : nat -> bool) (k : nat)
    (ps : list (EndPoint * M)) : bool * list NetPacket :=
  match ps with
  | [] => (true, [])
  | (dst, m) :: ps =>
      if sent k then
        let '(ok, out) := send_packets src sent (S k) ps in (ok, datagram src dst m :: out)
      else (false, [])
  end.

Definition outbound_packets (outbound : GenericOutbound M) : list (EndPoint * M) :=
  match outbound with
  | OutNone => []
  | OutSend dst msg => [(dst, msg)]
  | OutBroadcast dsts msg => (fun dst => (dst, msg)) <$> dsts
  | OutSequence packets => (fun packet => (gp_dst packet, gp_msg packet)) <$> packets
  end.

Definition deliver_outbound (src : EndPoint) (sent : nat -> bool) (outbound : GenericOutbound M)
  : bool * list NetPacket :=
  send_packets src sent 0 (outbound_packets outbound).

(** What is sent is a prefix of what the protocol asked for, all of it when the
    result is [true]. *)
Lemma send_packets_prefix src sent k ps ok out :
  send_packets src sent k ps = (ok, out) ->
  out `prefix_of` ((fun p => datagram src p.1 p.2) <$> ps)
  /\ (ok = true -> out = (fun p => datagram src p.1 p.2) <$> ps).
Proof.
  revert k ok out. induction ps as [|[dst m] ps IH]; intros k ok out; cbn.
  { intros [= <- <-]. done. }
  destruct (sent k); [|intros [= <- <-]; split; [apply prefix_nil|done]].
  destruct (send_packets _ _ _ _) as [ok' out'] eqn:Hs. intros [= <- <-].
  apply IH in Hs as [Hp Hok]. split; [by apply prefix_cons|]. by intros ->%Hok.
Qed.

Lemma deliver_outbound_elem src sent outbound ok out w :
  deliver_outbound src sent outbound = (ok, out) -> w ∈ out ->
  exists dst m, (dst, m) ∈ outbound_packets outbound /\ w = datagram src dst m.
Proof.
  intros [[rest Hp] _]%send_packets_prefix Hw.
  assert (w ∈ (fun p => datagram src p.1 p.2) <$> outbound_packets outbound) as Hin
    by (rewrite Hp; set_solver).
  apply list_elem_of_fmap in Hin as ([dst m] & -> & ?). by exists dst, m.
Qed.
End generic_net.

(** ** generic_host.rs *)

Record GenericHostState (Cfg Host : Type) := MkGenericHostState
  { ghs_protocol : Host; ghs_config : Cfg; ghs_local_addr : EndPoint }.
Arguments MkGenericHostState {_ _} _ _ _.
Arguments ghs_protocol {_ _} _.
Arguments ghs_config {_ _} _.
Arguments ghs_local_addr {_ _} _.

Section generic_host.
Context `{PM : ProtocolMessage M} `{PH : ProtocolHost Ambient M Cfg Host}.

Definition generic_init (amb : Ambient) (me : EndPoint) (args : Args)
  : option (GenericHostState Cfg Host) :=
  config ← parse_config me args;
  protocol ← protocol_init amb config;
  Some (MkGenericHostState protocol config me).

(** [GenericHostState::next]: the new state, whether the loop goes on, and the
    datagrams sent. *)
Definition generic_next (amb : Ambient) (net : NetAnswers) (s : GenericHostState Cfg Host)
  : GenericHostState Cfg Host * bool * list NetPacket :=
  let step packet :=
    let '(protocol, step_result) := protocol_next amb (ghs_protocol s) (ghs_config s) packet in
    let s' := MkGenericHostState protocol (ghs_config s) (ghs_local_addr s) in
    if sr_ok step_result then
      let '(ok, out) := deliver_outbound (ghs_local_addr s) (na_sent net) (sr_outbound step_result) in
      (s', ok, out)
    else (s', false, []) in
  match receive_packet (na_receive net) (ghs_local_addr s) with
  | GenericReceived packet => step (Some packet)
  | GenericTimeout => step None
  | GenericFail => (s, true, [])
  end.

(** [protocol_main]'s loop over the answers of the world, until it stops. *)
Fixpoint generic_loop (worlds : list (Ambient * NetAnswers)) (s : GenericHostState Cfg Host)
  : GenericHostState Cfg Host * bool * list NetPacket :=
  match worlds with
  | [] => (s, true, [])
  | (amb, net) :: worlds =>
      let '(s', ok, out) := generic_next amb net s in
      if ok then let '(s'', ok', out') := generic_loop worlds s' in (s'', ok', out ++ out')
      else (s', false, out)
  end.

(** [protocol_main]; [None] is the initialization error. *)
Definition protocol_main (amb : Ambient) (me : EndPoint) (args : Args)
    (worlds : list (Ambient * NetAnswers))
  : option (GenericHostState Cfg Host * bool * list NetPacket) :=
  generic_loop worlds <$> generic_init amb me args.
End generic_host.

(** * The peers of a configuration

    Each protocol's [parse_config] (implementation/<protocol>/host.rs) makes one
    endpoint of each argument, and takes the index of the last one that is the
    host's own address. *)

(** The loop of [parse_config] over the arguments from the [i]th on. *)
Fixpoint parse_peers (me : EndPoint) (i : Z) (args : Args) (acc : list EndPoint * option Z)
  : list EndPoint * option Z :=
  match args with
  | [] => acc
  | arg :: args =>
      let ep := MkEndPoint arg in
      let my_index := if decide (ep_id ep = ep_id me) then Some i else acc.2 in
      parse_peers me (i + 1) args (acc.1 ++ [ep], my_index)
  end.

Lemma seq_index_cons `{Inhabited A} (x : A) l i : 0 < i -> seq_index (x :: l) i = seq_index l (i - 1).
Proof.
  intros Hi. unfold seq_index, seq_get. rewrite !decide_True by lia.
  by replace (Z.to_nat i) with (S (Z.to_nat (i - 1))) by lia.
Qed.

(** The index is the last one of the host's own address. *)
Lemma parse_peers_last me i args acc k :
  (parse_peers me i args acc).2 = Some k ->
  (acc.2 = Some k \/ i <= k) /\ forall j, 0 <= j < seq_len args -> k < i + j -> seq_index args j <> ep_id me.
Proof.
  revert i acc. induction args as [|a args IH]; intros i acc; cbn [parse_peers].
  { intros ->. split; [by left|]. change (seq_len (@nil (list Z))) with 0. lia. }
  intros [Hk Hj]%IH. cbn [snd ep_id] in Hk. split.
  { case_decide; [right|destruct Hk as [?|?]; [by left|right; lia]].
    destruct Hk as [[= <-]|?]; lia. }
  intros j Hr Hlt. change (seq_len (a :: args)) with (Z.of_nat (S (length args))) in Hr.
  destruct (decide (j = 0)) as [->|Hne].
  - change (seq_index (a :: args) 0) with a. intros ->. rewrite decide_True in Hk by done.
    destruct Hk as [[= <-]|?]; lia.
  - rewrite seq_index_cons by lia. apply Hj; [unfold seq_len|]; lia.
Qed.

(** The endpoints of a list of arguments. *)
Definition endpoints (args : Args) : list EndPoint := MkEndPoint <$> args.
Definition num_servers (args : Args) : Z := seq_len args.
Definition ep (args : Args) (i : Z) : EndPoint := MkEndPoint (seq_index args i).

(** Inserting the indices one by one makes the set of them. *)
Lemma insert_all_spec (l : list Z) (X : gset Z) :
  foldl (fun X i => {[i]} ∪ X) X l = list_to_set l ∪ X.
Proof. revert X. induction l as [|i l IH]; intros X; cbn; [set_solver|]. rewrite IH. set_solver. Qed.

Section peers.
Context (args : Args).

Lemma seq_len_endpoints : seq_len (endpoints args) = num_servers args.
Proof. unfold endpoints. by rewrite seq_len_fmap. Qed.

Lemma parse_peers_spec me pre rest acc :
  args = pre ++ rest -> acc.1 = MkEndPoint <$> pre ->
  (forall k, acc.2 = Some k -> 0 <= k < seq_len pre /\ ep args k = me) ->
  (me ∈ MkEndPoint <$> pre -> acc.2 <> None) ->
  (parse_peers me (seq_len pre) rest acc).1 = endpoints args
  /\ (forall k, (parse_peers me (seq_len pre) rest acc).2 = Some k -> 0 <= k < num_servers args /\ ep args k = me)
  /\ (me ∈ endpoints args -> (parse_peers me (seq_len pre) rest acc).2 <> None).
Proof.
  revert pre acc. induction rest as [|a rest IH]; intros pre acc Hargs Hacc Hk Hin; cbn [parse_peers].
  { rewrite app_nil_r in Hargs. subst pre. done. }
  replace (seq_len pre + 1) with (seq_len (pre ++ [a])) by (rewrite seq_len_app; done).
  assert (ep args (seq_len pre) = MkEndPoint a) as Ha.
  { unfold ep. f_equal. apply seq_index_get. unfold seq_len. rewrite seq_get_of_nat, Hargs.
    by rewrite list_lookup_middle. }
  pose proof (seq_len_nonneg pre).
  apply IH; cbn [fst snd ep_id].
  - by rewrite <- app_assoc.
  - by rewrite fmap_app, Hacc.
  - intros k Hk'. rewrite seq_len_app. change (seq_len [a]) with 1. case_decide as He.
    + injection Hk' as <-. rewrite Ha. split; [lia|]. destruct me. cbn in He. by subst.
    + destruct (Hk k Hk') as [? ?]. split; [lia|done].
  - rewrite fmap_app. intros [Hp|Hp]%elem_of_app; case_decide as He; try done; [by apply Hin|].
    cbn in Hp. apply list_elem_of_singleton in Hp as ->. done.
Qed.

(** What [parse_config]'s loop gives: every endpoint, and an index of the host's
    own address if it is one of them. *)
Lemma parse_peers_all me :
  (parse_peers me 0 args ([], None)).1 = endpoints args
  /\ (forall k, (parse_peers me 0 args ([], None)).2 = Some k -> 0 <= k < num_servers args /\ ep args k = me)
  /\ (me ∈ endpoints args -> (parse_peers me 0 args ([], None)).2 <> None).
Proof. apply (parse_peers_spec me [] args ([], None)); [done..|]. by intros ?%not_elem_of_nil. Qed.

Lemma ep_in_endpoints i : 0 <= i < num_servers args -> ep args i ∈ endpoints args.
Proof.
  intros Hi. unfold ep, endpoints. apply list_elem_of_fmap. eexists. split; [done|].
  by apply seq_index_elem_of.
Qed.

Lemma seq_index_endpoints i : 0 <= i < num_servers args -> seq_index (endpoints args) i = ep args i.
Proof.
  intros Hi. unfold endpoints, ep. apply seq_index_get. rewrite seq_get_fmap, (seq_get_index args i) by done.
  done.
Qed.
End peers.
