(* ===== verification/FieldWire.v ===== *)
(** * Messages made of 64-bit fields

    The protocols of the generic host write a message as a tag and its fields,
    each a u64 in eight little-endian bytes, and read a field at its offset
    (implementation/<protocol>/message.rs). *)

From stdpp Require Import prelude list numbers.
From Stdlib Require Import ZArith Lia.
From S2P Require Import Prelude.
From S2P Require Import Types.
From S2P Require Import Marshalling.
From S2P Require Import MarshallingLaws.

#[local] Open Scope Z_scope.

(** [u64::from_le_bytes([data[offset + 0], ..., data[offset + 7]])]. *)
Definition read_u64 (data : list Z) (offset : Z) : Z :=
  u64_from_le_bytes ((fun i => seq_index data (offset + i)) <$> seqZ 0 8).

(** The [let x_val: u64 = if x { 1 } else { 0 }] of the boolean fields. *)
Definition bool_to_u64 (b : bool) : Z := if b then 1 else 0.

(** [x != 0]. *)
Definition u64_to_bool (x : Z) : bool := bool_decide (x <> 0).

(** [buf.extend_from_slice(&field.to_le_bytes())] for each field. *)
Definition write_fields (fields : list Z) (buf : list Z) : list Z :=
  foldl (fun buf field => buf ++ u64_to_le_bytes field) buf fields.

(** The bytes of the fields. *)
Definition field_bytes (fs : list Z) : list Z := flat_map u64_to_le_bytes fs.

Lemma field_bytes_app fs gs : field_bytes (fs ++ gs) = field_bytes fs ++ field_bytes gs.
Proof. apply flat_map_app. Qed.

Lemma field_bytes_len fs : seq_len (field_bytes fs) = 8 * seq_len fs.
Proof.
  unfold seq_len. induction fs as [|f fs IH]; [done|].
  cbn [field_bytes flat_map] in *. rewrite length_app. unfold u64_to_le_bytes at 1.
  rewrite le_bytes_length. cbn [length]. unfold field_bytes in IH. lia.
Qed.

Lemma field_bytes_u8 fs : Forall is_u8 (field_bytes fs).
Proof.
  induction fs as [|f fs IH]; [by constructor|].
  cbn [field_bytes flat_map]. apply Forall_app_2; [apply le_bytes_u8|done].
Qed.

Lemma write_fields_eq fs buf : write_fields fs buf = buf ++ field_bytes fs.
Proof.
  unfold write_fields. revert buf. induction fs as [|f fs IH]; intros buf; cbn [foldl];
    [symmetry; apply app_nil_r|].
  rewrite IH, <- app_assoc. done.
Qed.

Lemma seq_index_app_r pre (w : list Z) i :
  0 <= i -> seq_index (pre ++ w) (seq_len pre + i) = seq_index w i.
Proof.
  intros Hi. unfold seq_index, seq_get, seq_len. rewrite !decide_True by lia.
  rewrite lookup_app_r by lia. by replace (Z.to_nat _ - length pre)%nat with (Z.to_nat i) by lia.
Qed.

Lemma read_u64_middle pre f post :
  is_u64 f -> read_u64 (pre ++ u64_to_le_bytes f ++ post) (seq_len pre) = f.
Proof.
  intros Hf. unfold read_u64.
  transitivity (u64_from_le_bytes (u64_to_le_bytes f)).
  2: { apply (of_le_bytes_le 8). apply Hf. }
  f_equal. transitivity ((fun i => seq_index (u64_to_le_bytes f ++ post) i) <$> seqZ 0 8).
  - apply list_fmap_ext. intros k i [-> ?]%lookup_seqZ. rewrite seq_index_app_r by lia. done.
  - done.
Qed.

Lemma read_field fs rest (k : nat) f :
  Forall is_u64 fs -> fs !! k = Some f ->
  read_u64 (field_bytes fs ++ rest) (8 * Z.of_nat k) = f.
Proof.
  intros Hfs Hk. rewrite <- (take_drop_middle fs k f Hk) at 1.
  rewrite field_bytes_app, <- app_assoc. cbn [field_bytes flat_map]. rewrite <- app_assoc.
  assert (8 * Z.of_nat k = seq_len (field_bytes (take k fs))) as ->.
  { rewrite field_bytes_len. unfold seq_len. rewrite length_take.
    apply lookup_lt_Some in Hk. lia. }
  apply read_u64_middle. by eapply Forall_lookup_1.
Qed.

Lemma u64_to_bool_to_u64 b : u64_to_bool (bool_to_u64 b) = b.
Proof. by destruct b. Qed.

Lemma bool_to_u64_is_u64 b : is_u64 (bool_to_u64 b).
Proof. by destruct b. Qed.

#[export] Hint Resolve bool_to_u64_is_u64 : core.

(** A field that is read is a machine integer. *)
Lemma read_u64_is_u64 d off :
  Forall is_u8 d -> 0 <= off -> off + 8 <= seq_len d -> is_u64 (read_u64 d off).
Proof.
  intros Hd Ho Hl. unfold read_u64, u64_from_le_bytes.
  pose proof (of_le_bytes_range ((fun i => seq_index d (off + i)) <$> seqZ 0 8)) as Hr.
  apply Hr. apply Forall_fmap, Forall_seqZ. intros i Hi.
  change (is_u8 (seq_index d (off + i))). apply (Forall_index is_u8); [done|lia].
Qed.

(** ** Reading back

    What the receiver of the fields [fs], with [rest] after them, reads. *)
Definition field_reads (fs rest d : list Z) : Prop :=
  seq_len d = 8 * seq_len fs + seq_len rest
  /\ forall k f, fs !! k = Some f -> read_u64 d (8 * Z.of_nat k) = f.

Lemma field_bytes_reads fs rest : Forall is_u64 fs -> field_reads fs rest (field_bytes fs ++ rest).
Proof.
  intros Hfs. split; [by rewrite seq_len_app, field_bytes_len|]. intros k f. by apply read_field.
Qed.

(** A cut message keeps its tag, if it keeps anything that can be read. *)
Lemma field_bytes_take t fs (k : nat) :
  is_u64 t -> (k < length (field_bytes (t :: fs)))%nat ->
  seq_len (take k (field_bytes (t :: fs))) = Z.of_nat k /\ Z.of_nat k < 8 * (seq_len fs + 1)
  /\ ((8 <= k)%nat -> read_u64 (take k (field_bytes (t :: fs))) 0 = t).
Proof.
  intros Ht Hk. pose proof (field_bytes_len (t :: fs)) as Hl. unfold seq_len in *.
  rewrite length_take. cbn [length] in Hl. split; [lia|]. split; [lia|]. intros H8.
  cbn [field_bytes flat_map].
  rewrite take_app_ge by (unfold u64_to_le_bytes; rewrite le_bytes_length; lia).
  by apply (read_u64_middle []).
Qed.

(** Rewrites the reads at literal offsets, where [Hr] is the second part of
    [field_reads fs rest d] with [fs] a list of terms. *)
Ltac rewrite_reads Hr :=
  repeat match goal with |- context [read_u64 ?d ?o] =>
    let k := eval vm_compute in (Z.to_nat (o / 8)) in
    rewrite (Hr k _ eq_refl : read_u64 d o = _)
  end.

(** Proves [deserialize d = Some _], unfolded, where the message's fields were
    written: the length suffices, the tag selects the branch, the fields are
    read. *)
Ltac read_back H :=
  let Hlen := fresh "Hlen" in let Hr := fresh "Hr" in
  destruct H as [Hlen Hr];
  match type of Hlen with _ = 8 * seq_len _ + seq_len ?rest => pose proof (seq_len_nonneg rest) end;
  unfold seq_len at 2 in Hlen; cbn [length] in Hlen;
  rewrite decide_False by lia;
  match goal with |- context [read_u64 ?d 0] =>
    rewrite (Hr 0%nat _ eq_refl : read_u64 d 0 = _) end;
  repeat (rewrite decide_False by done); rewrite decide_True by done;
  rewrite ?decide_False by lia; rewrite_reads Hr; rewrite ?u64_to_bool_to_u64; try reflexivity.

(** Proves [deserialize (take k (field_bytes fs)) = None], unfolded: the tag, if
    it is there, selects a branch that finds the data too short. *)
Ltac read_truncated Ht Hk :=
  let Hd := fresh "Hd" in let Hlen := fresh "Hlen" in let Htag := fresh "Htag" in
  destruct (field_bytes_take _ _ _ Ht Hk) as (Hd & Hlen & Htag);
  unfold seq_len in Hlen; cbn [length] in Hlen;
  rewrite Hd; case_decide; [reflexivity|]; rewrite Htag by lia;
  repeat (rewrite decide_False by done); rewrite decide_True by done;
  first [apply decide_True; lia | rewrite decide_True by lia; reflexivity].
