(* ===== verification/GenericSystem.v ===== *)
(** * Hosts of the generic loop that exchange datagrams

    The hosts started with one list of arguments, each running the loop of
    GenericHost.v, and a network that never forgets a datagram: a datagram that
    was sent may be received any number of times, in any order, or never, and
    any send may fail.  Anyone else may send datagrams that a parameter of the
    system allows.

    A protocol's theorems are about messages: [in_flight] are the messages that
    the datagrams sent parse to, and [generic_step_cases] says what a step does
    to the hosts' protocol states and to the messages in flight. *)

From stdpp Require Import prelude gmap sets list numbers fin_sets.
From Stdlib Require Import ZArith Lia.
From S2P Require Import Prelude.
From S2P Require Import Types.
From S2P Require Import Environment.
From S2P Require Import Marshalling.
From S2P Require Import GenericHost.

#[local] Open Scope Z_scope.

(** ** What a protocol's messages promise to the network

    [wire_ok] are the messages that are read back as they were written; what is
    read from bytes is one of them. *)
Class WireLaws (M : Type) `{PM : ProtocolMessage M} :=
  { wire_ok : M -> Prop;
    serialize_u8 : forall m, Forall is_u8 (serialize_to_bytes m []);
    deserialize_serialize : forall m, wire_ok m ->
      deserialize_from_bytes (serialize_to_bytes m []) = Some m;
    deserialize_ok : forall d m, Forall is_u8 d -> deserialize_from_bytes d = Some m -> wire_ok m }.

Section system.
Context `{WL : WireLaws M} `{PH : ProtocolHost Ambient M Cfg Host}.
Context (external_ok : M -> Prop) (state_ok : Host -> Prop).
Local Abbreviation Process := (GenericHostState Cfg Host).

Record GenericSystem := MkGenericSystem
  { gs_hosts : gmap EndPoint Process; gs_sent : gset NetPacket }.

Implicit Types (st : GenericSystem) (e : EndPoint) (h : Process) (w : NetPacket) (m : M)
  (packet : option (GenericPacket M)).

Definition generic_system_init (args : Args) st : Prop :=
  gs_sent st = ∅
  /\ forall e, match gs_hosts st !! e with
         | Some h => e ∈ endpoints args /\ exists amb, generic_init (M := M) (Ambient := Ambient) amb e args = Some h
         | None => e ∉ endpoints args
         end.

(** One iteration of a host, with the answers of its network and its ambient
    values, that leaves a state in memory's bounds; or a datagram from someone
    who is no host. *)
Inductive generic_step st : GenericSystem -> Prop :=
  | generic_host_step e h amb net h' ok out :
      gs_hosts st !! e = Some h ->
      (forall sender message, na_receive net = NetcReceived sender message ->
         MkLPacket e sender message ∈ gs_sent st) ->
      generic_next (M := M) (Ambient := Ambient) amb net h = (h', ok, out) ->
      state_ok (ghs_protocol h') ->
      generic_step st (MkGenericSystem (<[e := h']> (gs_hosts st)) (gs_sent st ∪ list_to_set out))
  | generic_external_step w :
      gs_hosts st !! src w = None ->
      Forall is_u8 (msg w) ->
      (forall m, deserialize_from_bytes (msg w) = Some m -> external_ok m) ->
      generic_step st (MkGenericSystem (gs_hosts st) (gs_sent st ∪ {[w]})).

Definition generic_run (args : Args) st : Prop :=
  exists st0, generic_system_init args st0 /\ rtc generic_step st0 st.

(** ** Messages in flight *)

Definition in_flight st (s d : EndPoint) m : Prop :=
  exists bytes, MkLPacket d s bytes ∈ gs_sent st /\ Forall is_u8 bytes
    /\ deserialize_from_bytes bytes = Some m.

Lemma in_flight_ok st s d m : in_flight st s d m -> wire_ok m.
Proof. intros (bytes & _ & Hb & Hd). by apply (deserialize_ok bytes). Qed.

Lemma in_flight_mono st st' s d m : gs_sent st ⊆ gs_sent st' -> in_flight st s d m -> in_flight st' s d m.
Proof. intros Hsub (bytes & Hin & H). exists bytes. split; [by apply Hsub|done]. Qed.

(** All datagrams sent are made of bytes. *)
Definition sent_bytes st : Prop := forall w, w ∈ gs_sent st -> Forall is_u8 (msg w).

(** What an iteration does: nothing, or one call of the protocol's [next] whose
    packets are sent in part. *)
Lemma generic_next_cases amb net h h' ok out :
  generic_next (M := M) (Ambient := Ambient) amb net h = (h', ok, out) ->
  (h' = h /\ out = [])
  \/ exists packet,
      (forall pkt, packet = Some pkt -> exists sender message,
         na_receive net = NetcReceived sender message
         /\ deserialize_from_bytes message = Some (gp_msg pkt) /\ gp_src pkt = sender)
      /\ h' = MkGenericHostState (protocol_next amb (ghs_protocol h) (ghs_config h) packet).1
                (ghs_config h) (ghs_local_addr h)
      /\ forall w, w ∈ out ->
           exists p, p ∈ outbound_packets (sr_outbound (protocol_next amb (ghs_protocol h) (ghs_config h) packet).2)
             /\ w = datagram (ghs_local_addr h) p.1 p.2.
Proof.
  unfold generic_next.
  assert (forall packet,
    (let '(protocol, step_result) := protocol_next amb (ghs_protocol h) (ghs_config h) packet in
     if sr_ok step_result
     then let '(ok, out) := deliver_outbound (ghs_local_addr h) (na_sent net) (sr_outbound step_result) in
          (MkGenericHostState protocol (ghs_config h) (ghs_local_addr h), ok, out)
     else (MkGenericHostState protocol (ghs_config h) (ghs_local_addr h), false, [])) = (h', ok, out) ->
    h' = MkGenericHostState (protocol_next amb (ghs_protocol h) (ghs_config h) packet).1
           (ghs_config h) (ghs_local_addr h)
    /\ forall w, w ∈ out ->
         exists p, p ∈ outbound_packets (sr_outbound (protocol_next amb (ghs_protocol h) (ghs_config h) packet).2)
           /\ w = datagram (ghs_local_addr h) p.1 p.2) as Hstep.
  { intros packet. destruct (protocol_next _ _ _ _) as [p r]. cbn [fst snd].
    destruct (sr_ok r); [|intros [= <- <- <-]; split; [done|]; by intros w ?%not_elem_of_nil].
    destruct (deliver_outbound _ _ _) as [ok' out'] eqn:Hd. intros [= <- <- <-].
    split; [done|]. intros w Hw.
    destruct (deliver_outbound_elem _ _ _ _ _ _ Hd Hw) as (d & m & Hin & ->). by exists (d, m). }
  unfold receive_packet. destruct (na_receive net) as [sender message| |] eqn:Hr.
  - destruct (deserialize_from_bytes message) as [m|] eqn:Hm.
    + intros Hn. right. eexists (Some _). split; [|by apply Hstep].
      intros pkt [= <-]. by exists sender, message.
    + intros [= <- <- <-]. by left.
  - intros Hn. right. exists None. split; [done|by apply Hstep].
  - intros [= <- <- <-]. by left.
Qed.

(** A step changes nothing but messages from outside, or calls one host's
    [next] on a message in flight to it, if any, and puts some of the messages
    that it sends in flight. *)
Inductive step_case st st' : Prop :=
  | case_outside :
      gs_hosts st' = gs_hosts st ->
      (forall s d m, in_flight st s d m -> in_flight st' s d m) ->
      (forall s d m, in_flight st' s d m ->
         in_flight st s d m \/ gs_hosts st !! s = None /\ external_ok m) ->
      step_case st st'
  | case_next e h amb packet :
      gs_hosts st !! e = Some h ->
      (forall pkt, packet = Some pkt -> in_flight st (gp_src pkt) e (gp_msg pkt)) ->
      let r := protocol_next amb (ghs_protocol h) (ghs_config h) packet in
      state_ok r.1 ->
      gs_hosts st' = <[e := MkGenericHostState r.1 (ghs_config h) (ghs_local_addr h)]> (gs_hosts st) ->
      (forall s d m, in_flight st s d m -> in_flight st' s d m) ->
      (forall s d m, in_flight st' s d m ->
         in_flight st s d m
         \/ s = ghs_local_addr h
            /\ exists m0, (d, m0) ∈ outbound_packets (sr_outbound r.2) /\ (wire_ok m0 -> m = m0)) ->
      step_case st st'.

Lemma generic_step_cases st st' : sent_bytes st -> generic_step st st' -> step_case st st'.
Proof.
  intros Hbytes [e h amb net h' ok out Hh Hrecv Hnext Hok|w Hsrc Hu8 Hext].
  2: { apply case_outside; [done|intros ???; apply in_flight_mono; cbn; set_solver|]. intros s d m (bytes & Hin & Hb & Hd). cbn in Hin.
       apply elem_of_union in Hin as [Hin| <-%elem_of_singleton]; [left; by exists bytes|right].
       split; [done|by apply Hext]. }
  destruct (generic_next_cases amb net h h' ok out Hnext) as [[-> ->]|(packet & Hpkt & -> & Hout)].
  - apply case_outside; cbn; [by apply insert_id|intros ???; apply in_flight_mono; cbn; set_solver|].
    intros s d m (bytes & Hin & Hb & Hd). left. exists bytes. split; [|done].
    cbn in Hin. by rewrite union_empty_r_L in Hin.
  - apply (case_next st _ e h amb packet); cbn; [done| |done|done| |].
    + intros pkt Hp. destruct (Hpkt pkt Hp) as (sender & message & Hr & Hd & ->).
      specialize (Hrecv _ _ Hr). exists message. split_and!; [done| |done]. by apply (Hbytes _ Hrecv).
    + intros ???. apply in_flight_mono. cbn. set_solver.
    + intros s d m (bytes & Hin & Hb & Hd). cbn in Hin.
      apply elem_of_union in Hin as [Hin|Hin%elem_of_list_to_set]; [left; by exists bytes|right].
      destruct (Hout _ Hin) as ([d' m'] & Hp & Hw). cbn in Hw. unfold datagram in Hw.
      injection Hw as -> -> ->. split; [done|]. exists m'. split; [done|]. intros Hwire.
      rewrite deserialize_serialize in Hd by done. by injection Hd.
Qed.

Lemma sent_bytes_step st st' : sent_bytes st -> generic_step st st' -> sent_bytes st'.
Proof.
  intros Hbytes [e h amb net h' ok out Hh Hrecv Hnext _|w Hsrc Hu8 Hext] w' Hw'; cbn in Hw'.
  - apply elem_of_union in Hw' as [?|Hw'%elem_of_list_to_set]; [by apply Hbytes|].
    destruct (generic_next_cases amb net h h' ok out Hnext) as [[_ ->]|(packet & _ & _ & Hout)];
      [by apply not_elem_of_nil in Hw'|].
    destruct (Hout w' Hw') as (p & _ & ->). apply serialize_u8.
  - apply elem_of_union in Hw' as [?| ->%elem_of_singleton]; [by apply Hbytes|done].
Qed.

Lemma init_bytes args st : generic_system_init args st -> sent_bytes st.
Proof. intros [Hs _] w. rewrite Hs. by intros ?%elem_of_empty. Qed.

(** Induction over steps, and over runs: an invariant that holds at the start and
    that every case of a step keeps holds always. *)
Lemma generic_steps_ind (I : GenericSystem -> Prop) st0 :
  sent_bytes st0 -> I st0 -> (forall st st', I st -> step_case st st' -> I st') ->
  forall st, rtc generic_step st0 st -> I st.
Proof.
  intros Hb Hinit Hstep st Hs. revert Hb Hinit.
  induction Hs as [st|st st1 st2 Hst _ IH]; [done|]. intros Hb HI. apply IH.
  - by apply (sent_bytes_step st).
  - by apply (Hstep st), generic_step_cases.
Qed.

Lemma generic_run_ind args (I : GenericSystem -> Prop) :
  (forall st, generic_system_init args st -> I st) ->
  (forall st st', I st -> step_case st st' -> I st') ->
  forall st, generic_run args st -> I st.
Proof.
  intros Hinit Hstep st (st0 & Hi & Hs).
  exact (generic_steps_ind I st0 (init_bytes args st0 Hi) (Hinit st0 Hi) Hstep st Hs).
Qed.

Lemma generic_run_bytes args st : generic_run args st -> sent_bytes st.
Proof.
  intros (st0 & Hi & Hs).
  pose proof (init_bytes args st0 Hi) as Hb.
  clear Hi. induction Hs as [|? ? ? Hst _ IH]; [done|]. by apply IH, (sent_bytes_step _ _ Hb).
Qed.
End system.
Arguments GenericSystem : clear implicits.
Arguments MkGenericSystem {_ _} _ _.
Arguments gs_hosts {_ _} _.
Arguments gs_sent {_ _} _.

(** * Computing runs of generic hosts

    [play] runs scripted events through the hosts' loop and checks what
    [generic_step] asks of each, so that concrete runs can be computed. *)

(** A host's iteration, with the datagram it finds if any, or a datagram from
    someone who is no host. *)
Inductive Event (Ambient : Type) :=
  | HostEvent (e : EndPoint) (amb : Ambient) (received : option NetPacket)
  | ExternalEvent (w : NetPacket).
Arguments HostEvent {_} _ _ _.
Arguments ExternalEvent {_} _.

Definition net_answers (received : option NetPacket) : NetAnswers :=
  MkNetAnswers
    match received with Some w => NetcReceived (src w) (msg w) | None => NetcTimedOut end
    (fun _ => true).

Section play.
Context `{WL : WireLaws M} `{PH : ProtocolHost Ambient M Cfg Host}.
Context (external_ok : M -> Prop) (state_ok : Host -> Prop).
Context `{!forall m, Decision (external_ok m)} `{!forall h, Decision (state_ok h)}.
Local Abbreviation System := (GenericSystem Cfg Host).
Implicit Types (st : System) (e : EndPoint) (ev : Event Ambient).

Definition play_event st ev : option System :=
  match ev with
  | HostEvent e amb received =>
      h ← gs_hosts st !! e;
      let '(h', _, out) := generic_next (M := M) amb (net_answers received) h in
      if match received with
         | Some w => bool_decide (dst w = e) && bool_decide (w ∈ gs_sent st)
         | None => true
         end
         && bool_decide (state_ok (ghs_protocol h'))
      then Some (MkGenericSystem (<[e := h']> (gs_hosts st)) (gs_sent st ∪ list_to_set out))
      else None
  | ExternalEvent w =>
      if bool_decide (gs_hosts st !! src w = None) && bool_decide (Forall (fun b => 0 <= b < 256) (msg w))
         && match deserialize_from_bytes (M := M) (msg w) with
            | Some m => bool_decide (external_ok m)
            | None => true
            end
      then Some (MkGenericSystem (gs_hosts st) (gs_sent st ∪ {[w]}))
      else None
  end.

Fixpoint play st (evs : list (Event Ambient)) : option System :=
  match evs with
  | [] => Some st
  | ev :: evs => st' ← play_event st ev; play st' evs
  end.

Lemma play_event_step st ev st' :
  play_event st ev = Some st' -> generic_step (M := M) (Ambient := Ambient) external_ok state_ok st st'.
Proof.
  destruct ev as [e amb received|w]; cbn [play_event].
  - destruct (gs_hosts st !! e) as [h|] eqn:Hh; [|done]. cbn.
    destruct (generic_next amb (net_answers received) h) as [[h' ok] out] eqn:Hn.
    destruct (_ && _) eqn:Hc; [|done]. intros [= <-].
    apply andb_true_iff in Hc as [Hr Hl%bool_decide_eq_true].
    apply (generic_host_step _ _ st e h amb (net_answers received) h' ok out Hh); [|done..].
    intros sender message. destruct received as [w|]; cbn; [|done]. intros [= <- <-].
    apply andb_true_iff in Hr as [<-%bool_decide_eq_true Hr%bool_decide_eq_true]. by destruct w.
  - destruct (_ && _) eqn:Hc; [|done]. intros [= <-].
    apply andb_true_iff in Hc as [[Hs%bool_decide_eq_true Hb%bool_decide_eq_true]%andb_true_iff Hm].
    apply generic_external_step; [done|done|].
    intros m Hd. rewrite Hd in Hm. by apply bool_decide_eq_true in Hm.
Qed.

Lemma play_steps evs st st' :
  play st evs = Some st' -> rtc (generic_step (M := M) (Ambient := Ambient) external_ok state_ok) st st'.
Proof.
  revert st. induction evs as [|ev evs IH]; intros st; cbn [play]; [by intros [= <-]|].
  destruct (play_event st ev) as [st1|] eqn:He; [|done]. intros Hp.
  eapply rtc_l; [by eapply play_event_step|by apply IH].
Qed.

(** ** The hosts as they start *)

Context (args : Args).

Definition start_host (amb : Ambient) (e : EndPoint) : option (GenericHostState Cfg Host) :=
  generic_init (M := M) amb e args.
Definition start_hosts (amb : Ambient) (l : list EndPoint) : gmap EndPoint (GenericHostState Cfg Host) :=
  foldr (fun e hosts => match start_host amb e with Some h => <[e := h]> hosts | None => hosts end) ∅ l.
Definition start (amb : Ambient) : System := MkGenericSystem (start_hosts amb (endpoints args)) ∅.

Lemma start_hosts_lookup amb l e :
  (forall x, x ∈ l -> is_Some (start_host amb x)) ->
  start_hosts amb l !! e = if decide (e ∈ l) then start_host amb e else None.
Proof.
  induction l as [|x l IH]; intros Hl; [done|].
  destruct (Hl x) as [p Hp]; [by left|].
  unfold start_hosts. cbn [foldr]. fold (start_hosts amb l). rewrite Hp.
  specialize (IH ltac:(intros; apply Hl; by right)). destruct (decide (e = x)) as [->|Hne].
  - rewrite lookup_insert_eq, decide_True by (by left). done.
  - rewrite lookup_insert_ne, IH by done. apply decide_ext. rewrite elem_of_cons. tauto.
Qed.

Lemma start_init amb :
  Forall (fun e => is_Some (start_host amb e)) (endpoints args) ->
  generic_system_init (M := M) (Ambient := Ambient) args (start amb).
Proof.
  intros Hn. rewrite Forall_forall in Hn. split; [done|]. intros e. unfold start. cbn [gs_hosts].
  rewrite start_hosts_lookup by done. case_decide as He; [|done].
  destruct (Hn e He) as [h Hi]. rewrite Hi. split; [done|]. by exists amb.
Qed.
End play.

(** A play's result, for plays that succeed. *)
Definition played `{WL : WireLaws M} `{PH : ProtocolHost Ambient M Cfg Host}
    (external_ok : M -> Prop) (state_ok : Host -> Prop)
    `{!forall m, Decision (external_ok m)} `{!forall h, Decision (state_ok h)}
    (st : GenericSystem Cfg Host) (evs : list (Event Ambient)) : GenericSystem Cfg Host :=
  default st (play external_ok state_ok st evs).

Lemma played_steps `{WL : WireLaws M} `{PH : ProtocolHost Ambient M Cfg Host}
    (external_ok : M -> Prop) (state_ok : Host -> Prop)
    `{!forall m, Decision (external_ok m)} `{!forall h, Decision (state_ok h)}
    (st : GenericSystem Cfg Host) (evs : list (Event Ambient)) :
  play external_ok state_ok st evs <> None ->
  rtc (generic_step (M := M) (Ambient := Ambient) external_ok state_ok) st (played external_ok state_ok st evs).
Proof.
  intros Hp. unfold played. destruct (play external_ok state_ok st evs) as [st'|] eqn:He; [|done].
  by apply (play_steps external_ok state_ok evs).
Qed.
