(* ===== verification/RaftTypes.v ===== *)
(** * Data of Raft

    protocol/Raft/types.rs and its executable counterpart
    generated/Raft/types_gen.rs.

    As in Types.v, a generated type whose fields are the protocol type's fields
    at machine width ([CLogEntry], [CRaftMessage], [CMembershipPhase], ...) is
    the protocol's Rocq type, and an instance of [Valid] carries the width.  The
    two state types differ in one field, the recorded election configuration (a
    set in the protocol, a vector in the code), which is the parameter of
    [RaftState].  [Arc] is transparent. *)

From stdpp Require Import prelude gmap sets list numbers fin_sets.
From Stdlib Require Import ZArith Lia.
From S2P Require Import Prelude.
From S2P Require Import Types.

#[local] Open Scope Z_scope.

(** ** The protocol's types (types.rs) *)

Inductive LServerRole := Follower | Candidate | Leader.

Record LMembershipConfig := MkLMembershipConfig { mc_servers : list Z }.

Inductive LMembershipPhase :=
  | LStable (config : LMembershipConfig)
  | LJoint (old_config new_config : LMembershipConfig).

(** The phase as sets of servers. *)
Inductive MembershipPhase :=
  | Stable (config : gset Z)
  | Joint (old_config new_config : gset Z).

Definition membership_config_view (config : LMembershipConfig) : gset Z :=
  list_to_set (mc_servers config).

Definition stable_phase_from_config (config : LMembershipConfig) : MembershipPhase :=
  Stable (membership_config_view config).

Definition membership_phase_view (phase : LMembershipPhase) : MembershipPhase :=
  match phase with
  | LStable config => Stable (membership_config_view config)
  | LJoint old_config new_config =>
      Joint (membership_config_view old_config) (membership_config_view new_config)
  end.

Inductive LLogValue :=
  | Data (value : Z)
  | Configuration (phase : LMembershipPhase).

Record LLogEntry := MkLLogEntry { term : Z; value : Z; payload : LLogValue }.

Inductive LRaftMessage :=
  | RequestVote (term candidate last_log_index last_log_term : Z)
  | VoteResponse (term : Z) (granted : bool) (voter voter_last_log_index voter_last_log_term : Z)
  | AppendEntries (term leader prev_index prev_term value : Z) (payload : LLogValue)
      (has_entry : bool) (leader_commit : Z)
  | AppendResponse (term : Z) (success : bool) (match_index follower : Z).

Record RaftState (Phase : Type) := MkRaftState
  { current_term : Z;
    role : LServerRole;
    has_voted : bool;
    voted_for : Z;
    log : list LLogEntry;
    commit_index : Z;
    votes_granted : gset Z;
    election_membership_phase : option Phase;
    match_index : gmap Z Z;
    next_index : gmap Z Z }.
Arguments MkRaftState {_} _ _ _ _ _ _ _ _ _ _.
Arguments current_term {_} _.
Arguments role {_} _.
Arguments has_voted {_} _.
Arguments voted_for {_} _.
Arguments log {_} _.
Arguments commit_index {_} _.
Arguments votes_granted {_} _.
Arguments election_membership_phase {_} _.
Arguments match_index {_} _.
Arguments next_index {_} _.

Definition LState : Type := RaftState MembershipPhase.

Record LRaftPacket := MkLRaftPacket { rp_src : Z; rp_dst : Z; rp_msg : LRaftMessage }.

Record LConstants := MkLConstants { servers : gset Z; quorum_size : Z; my_id : Z }.

#[export] Instance LServerRole_eq_dec : EqDecision LServerRole.
Proof. solve_decision. Defined.
#[export] Instance LMembershipConfig_eq_dec : EqDecision LMembershipConfig.
Proof. solve_decision. Defined.
#[export] Instance LMembershipPhase_eq_dec : EqDecision LMembershipPhase.
Proof. solve_decision. Defined.
#[export] Instance MembershipPhase_eq_dec : EqDecision MembershipPhase.
Proof. solve_decision. Defined.
#[export] Instance LLogValue_eq_dec : EqDecision LLogValue.
Proof. solve_decision. Defined.
#[export] Instance LLogEntry_eq_dec : EqDecision LLogEntry.
Proof. solve_decision. Defined.
#[export] Instance LRaftMessage_eq_dec : EqDecision LRaftMessage.
Proof. solve_decision. Defined.
#[export] Instance RaftState_eq_dec `{EqDecision Phase} : EqDecision (RaftState Phase).
Proof. solve_decision. Defined.
#[export] Instance LLogEntry_inhabited : Inhabited LLogEntry :=
  populate (MkLLogEntry 0 0 (Data 0)).

(** [payload is Configuration]. *)
Definition is_Configuration (p : LLogValue) : bool :=
  match p with Configuration _ => true | Data _ => false end.

(** ** The executable types (types_gen.rs) *)

Abbreviation CServerRole := LServerRole (only parsing).
Abbreviation CMembershipConfig := LMembershipConfig (only parsing).
Abbreviation CMembershipPhase := LMembershipPhase (only parsing).
Abbreviation CLogValue := LLogValue (only parsing).
Abbreviation CLogEntry := LLogEntry (only parsing).
Abbreviation CRaftMessage := LRaftMessage (only parsing).
Abbreviation CConstants := LConstants (only parsing).

Definition CState : Type := RaftState LMembershipPhase.

#[export] Instance CMembershipConfig_valid : Valid CMembershipConfig :=
  fun config => Forall is_u64 (mc_servers config).

#[export] Instance CMembershipPhase_valid : Valid CMembershipPhase := fun phase =>
  match phase with
  | LStable config => valid config
  | LJoint old_config new_config => valid old_config /\ valid new_config
  end.

#[export] Instance CLogValue_valid : Valid CLogValue := fun p =>
  match p with
  | Data value => is_u64 value
  | Configuration phase => valid phase
  end.

#[export] Instance CLogEntry_valid : Valid CLogEntry := fun e =>
  is_u64 (term e) /\ is_u64 (value e) /\ valid (payload e).

#[export] Instance CRaftMessage_valid : Valid CRaftMessage := fun m =>
  match m with
  | RequestVote term candidate last_log_index last_log_term =>
      is_u64 term /\ is_u64 candidate /\ is_u64 last_log_index /\ is_u64 last_log_term
  | VoteResponse term granted voter voter_last_log_index voter_last_log_term =>
      is_u64 term /\ is_u64 voter /\ is_u64 voter_last_log_index /\ is_u64 voter_last_log_term
  | AppendEntries term leader prev_index prev_term value payload has_entry leader_commit =>
      is_u64 term /\ is_u64 leader /\ is_u64 prev_index /\ is_u64 prev_term /\ is_u64 value
      /\ valid payload /\ is_u64 leader_commit
  | AppendResponse term success match_index follower =>
      is_u64 term /\ is_u64 match_index /\ is_u64 follower
  end.

#[export] Instance CConstants_valid : Valid CConstants := fun c =>
  (forall v, v ∈ servers c -> is_u64 v) /\ is_u64 (quorum_size c) /\ is_u64 (my_id c).

#[export] Instance CState_valid : Valid CState := fun s =>
  is_u64 (current_term s) /\ is_u64 (voted_for s) /\ Forall valid (log s)
  /\ is_u64 (commit_index s) /\ (forall v, v ∈ votes_granted s -> is_u64 v)
  /\ (forall phase, election_membership_phase s = Some phase -> valid phase)
  /\ (forall k v, match_index s !! k = Some v -> is_u64 k /\ is_u64 v)
  /\ (forall k v, next_index s !! k = Some v -> is_u64 k /\ is_u64 v).

(** [CState::view]: [as int] and [@] are the identity on the other fields. *)
#[export] Instance CState_view : View CState LState := fun s =>
  {| current_term := current_term s;
     role := role s;
     has_voted := has_voted s;
     voted_for := voted_for s;
     log := log s;
     commit_index := commit_index s;
     votes_granted := votes_granted s;
     election_membership_phase := membership_phase_view <$> election_membership_phase s;
     match_index := match_index s;
     next_index := next_index s |}.

(** ** Clones *)

(** [clone_membership_servers]'s loop, [index] elements done; the rest of the
    vector is the measure. *)
Fixpoint clone_membership_servers_loop (rest result : list Z) : list Z :=
  match rest with
  | [] => result
  | server :: rest => clone_membership_servers_loop rest (result ++ [server])
  end.

Definition clone_membership_servers (servers : list Z) : list Z :=
  clone_membership_servers_loop servers [].

Definition clone_membership_config (input : CMembershipConfig) : CMembershipConfig :=
  MkLMembershipConfig (clone_membership_servers (mc_servers input)).

Definition clone_membership_phase (input : CMembershipPhase) : CMembershipPhase :=
  match input with
  | LStable config => LStable (clone_membership_config config)
  | LJoint old_config new_config =>
      LJoint (clone_membership_config old_config) (clone_membership_config new_config)
  end.

Definition clone_optional_membership_phase (input : option CMembershipPhase)
  : option CMembershipPhase :=
  match input with
  | Some phase => Some (clone_membership_phase phase)
  | None => None
  end.

Definition clone_payload (r : CLogValue) : CLogValue :=
  match r with
  | Data value => Data value
  | Configuration phase => Configuration (clone_membership_phase phase)
  end.

Definition clone_log_entry (e : CLogEntry) : CLogEntry :=
  MkLLogEntry (term e) (value e) (clone_payload (payload e)).

Definition clone_state (s : CState) : CState :=
  {| current_term := current_term s;
     role := role s;
     has_voted := has_voted s;
     voted_for := voted_for s;
     log := log s;
     commit_index := commit_index s;
     votes_granted := votes_granted s;
     election_membership_phase :=
       clone_optional_membership_phase (election_membership_phase s);
     match_index := match_index s;
     next_index := next_index s |}.

Lemma clone_membership_servers_loop_app rest result :
  clone_membership_servers_loop rest result = result ++ rest.
Proof.
  revert result. induction rest as [|x rest IH]; intros result; simpl; [by rewrite app_nil_r|].
  by rewrite IH, <- app_assoc.
Qed.

Lemma clone_membership_config_id input : clone_membership_config input = input.
Proof.
  destruct input. unfold clone_membership_config, clone_membership_servers.
  by rewrite clone_membership_servers_loop_app.
Qed.

Lemma clone_membership_phase_id input : clone_membership_phase input = input.
Proof. destruct input; simpl; by rewrite !clone_membership_config_id. Qed.

Lemma clone_optional_membership_phase_id input : clone_optional_membership_phase input = input.
Proof. destruct input; simpl; by rewrite ?clone_membership_phase_id. Qed.

Lemma clone_payload_id r : clone_payload r = r.
Proof. destruct r; simpl; by rewrite ?clone_membership_phase_id. Qed.

Lemma clone_log_entry_id e : clone_log_entry e = e.
Proof. destruct e. unfold clone_log_entry. simpl. by rewrite clone_payload_id. Qed.

Lemma clone_state_id s : clone_state s = s.
Proof. destruct s. unfold clone_state. simpl. by rewrite clone_optional_membership_phase_id. Qed.

Create HintDb raft_clone.
#[export] Hint Rewrite clone_membership_config_id clone_membership_phase_id
  clone_optional_membership_phase_id clone_payload_id clone_log_entry_id clone_state_id
  : raft_clone.
