(* ===== verification/RaftMembership.v ===== *)
(** * Raft's configurations and quorums

    protocol/Raft/membership.rs, which says what a quorum is in a stable and in
    a joint configuration and which configuration governs a server, and
    implementation/Raft/membership_helpers.rs, which decides it.  The wire
    conversions at the end of the latter are in RaftHost.v. *)

From stdpp Require Import prelude gmap sets list numbers fin_sets.
From Stdlib Require Import ZArith Lia.
From S2P Require Import Prelude.
From S2P Require Import Types.
From S2P Require Import RaftTypes.

#[local] Open Scope Z_scope.

(** ** The protocol's definitions (membership.rs) *)

Definition set_len (X : gset Z) : Z := Z.of_nat (size X).

Definition is_majority_of (quorum config : gset Z) : Prop :=
  set_len config > 0 /\ quorum ⊆ config /\ set_len quorum >= set_len config / 2 + 1.

Definition is_joint_quorum (quorum old_config new_config : gset Z) : Prop :=
  quorum ⊆ old_config ∪ new_config
  /\ is_majority_of (quorum ∩ old_config) old_config
  /\ is_majority_of (quorum ∩ new_config) new_config.

(** The recursion of [active_membership_phase_from_raft_log] below its first
    bounds check. *)
Fixpoint phase_of_prefix (log : list LLogEntry) (n : nat) (initial_phase : MembershipPhase)
  : MembershipPhase :=
  match n with
  | O => initial_phase
  | S n =>
      match payload (seq_index log (Z.of_nat n)) with
      | Data _ => phase_of_prefix log n initial_phase
      | Configuration phase => membership_phase_view phase
      end
  end.

Definition active_membership_phase_from_raft_log (log : list LLogEntry) (committed_len : Z)
    (initial_phase : MembershipPhase) : MembershipPhase :=
  if decide (committed_len <= 0 \/ committed_len > seq_len log) then initial_phase
  else phase_of_prefix log (Z.to_nat committed_len) initial_phase.

Definition is_quorum_for_phase (quorum : gset Z) (phase : MembershipPhase) : Prop :=
  match phase with
  | Stable config => is_majority_of quorum config
  | Joint old_config new_config => is_joint_quorum quorum old_config new_config
  end.

Definition active_membership_phase_for_state (s : LState) (c : LConstants) : MembershipPhase :=
  active_membership_phase_from_raft_log (log s) (commit_index s) (Stable (servers c)).

Definition election_membership_phase_for_state (s : LState) (c : LConstants) : MembershipPhase :=
  active_membership_phase_from_raft_log (log s) (seq_len (log s)) (Stable (servers c)).

Definition has_active_election_quorum (s : LState) (c : LConstants) : Prop :=
  is_quorum_for_phase (votes_granted s) (election_membership_phase_for_state s c).

Definition has_active_election_quorum_after_vote (s : LState) (c : LConstants) (voter : Z) : Prop :=
  is_quorum_for_phase (votes_granted s ∪ {[voter]}) (election_membership_phase_for_state s c).

(** [x as u64] of an [int]. *)
Definition as_u64 (x : Z) : Z := x mod U64_MODULUS.

Definition is_replicator (s : LState) (c : LConstants) (idx server : Z) : Prop :=
  server = my_id c
  \/ exists m, match_index s !! as_u64 server = Some m /\ m >= idx.

#[export] Instance is_replicator_dec s c idx server : Decision (is_replicator s c idx server).
Proof.
  unfold is_replicator. destruct (match_index s !! as_u64 server) as [m|].
  - destruct (decide (server = my_id c \/ m >= idx)) as [H|H]; [left|right]; naive_solver.
  - destruct (decide (server = my_id c)); [left|right]; naive_solver.
Defined.

Definition replicator_set (s : LState) (c : LConstants) (idx : Z) : gset Z :=
  filter (is_replicator s c idx) (servers c).

Definition has_active_commit_quorum (s : LState) (c : LConstants) (idx : Z) : Prop :=
  is_quorum_for_phase (replicator_set s c idx) (active_membership_phase_for_state s c).

Definition is_legal_phase_progression (phase phase_ : MembershipPhase) : Prop :=
  match phase, phase_ with
  | Stable config, Stable config_ => config_ = config
  | Stable config, Joint old_config _ => old_config = config
  | Joint old_config new_config, Joint old_config_ new_config_ =>
      old_config_ = old_config /\ new_config_ = new_config
  | Joint _ new_config, Stable config => config = new_config
  end.

Definition uncommitted_suffix_has_no_configuration (log : list LLogEntry) (committed_len : Z)
  : Prop :=
  0 <= committed_len <= seq_len log
  /\ forall index, committed_len <= index < seq_len log ->
       is_Configuration (payload (seq_index log index)) = false.

Definition commit_interval_stops_at_first_configuration (log : list LLogEntry)
    (old_committed_len new_committed_len : Z) : Prop :=
  0 <= old_committed_len /\ old_committed_len < new_committed_len
  /\ new_committed_len <= seq_len log
  /\ forall index, old_committed_len <= index < new_committed_len - 1 ->
       is_Configuration (payload (seq_index log index)) = false.

#[export] Instance is_majority_of_dec quorum config : Decision (is_majority_of quorum config).
Proof. unfold is_majority_of. apply _. Defined.
#[export] Instance is_joint_quorum_dec quorum old_config new_config :
  Decision (is_joint_quorum quorum old_config new_config).
Proof. unfold is_joint_quorum. apply _. Defined.
#[export] Instance is_quorum_for_phase_dec quorum phase :
  Decision (is_quorum_for_phase quorum phase).
Proof. destruct phase; simpl; apply _. Defined.
#[export] Instance is_legal_phase_progression_dec phase phase_ :
  Decision (is_legal_phase_progression phase phase_).
Proof. destruct phase, phase_; simpl; apply _. Defined.

(** ** Quorums meet *)

Lemma is_majority_of_meet config Q1 Q2 :
  is_majority_of Q1 config -> is_majority_of Q2 config -> exists v, v ∈ Q1 /\ v ∈ Q2.
Proof.
  intros (_ & H1 & Hs1) (_ & H2 & Hs2). apply (quorum_intersection (elements config)).
  - intros x Hx%H1. by apply elem_of_elements.
  - intros x Hx%H2. by apply elem_of_elements.
  - unfold set_len, seq_len in *. change (length (elements config)) with (size config).
    pose proof (Z.mul_succ_div_gt (Z.of_nat (size config)) 2). lia.
Qed.

(** The configuration that the quorums of a phase and of its successors share. *)
Definition shared_config (phase : MembershipPhase) : gset Z :=
  match phase with Stable config => config | Joint _ new_config => new_config end.

Lemma quorum_shared_config phase Q :
  is_quorum_for_phase Q phase -> is_majority_of (Q ∩ shared_config phase) (shared_config phase).
Proof.
  destruct phase as [config|old new]; cbn; [|by intros (_ & _ & ?)].
  intros Hm. replace (Q ∩ config) with Q; [done|]. destruct Hm as (_ & Hs & _). set_solver.
Qed.

Lemma quorum_successor_config phase phase_ Q :
  is_legal_phase_progression phase phase_ -> is_quorum_for_phase Q phase_ ->
  is_majority_of (Q ∩ shared_config phase) (shared_config phase).
Proof.
  destruct phase as [config|old new], phase_ as [config'|old' new']; cbn.
  - intros ->. apply (quorum_shared_config (Stable config)).
  - intros ->. by intros (_ & ? & _).
  - intros ->. apply (quorum_shared_config (Stable new)).
  - intros [-> ->]. by intros (_ & _ & ?).
Qed.

(** ** The executable helpers (membership_helpers.rs) *)

(** [hashset_to_vec] (common/collections/hashsets.rs). *)
Definition hashset_to_vec (s : gset Z) : list Z := elements s.

Definition membership_servers_set_loop (servers : list Z) (result : gset Z) : gset Z :=
  foldl (fun result server => {[server]} ∪ result) result servers.

Definition membership_servers_set (servers : list Z) : gset Z :=
  membership_servers_set_loop servers ∅.

(** The loop of [hashset_is_subset], which returns at the first element missing. *)
Fixpoint all_contained (elements : list Z) (superset : gset Z) : bool :=
  match elements with
  | [] => true
  | x :: elements => if decide (x ∉ superset) then false else all_contained elements superset
  end.

Definition hashset_is_subset (subset superset : gset Z) : bool :=
  all_contained (hashset_to_vec subset) superset.

Definition is_majority_of_servers (quorum : gset Z) (servers : list Z) : bool :=
  let config := membership_servers_set servers in
  let is_subset := hashset_is_subset quorum config in
  if decide (set_len config = 0) then false
  else if negb is_subset then false
  else bool_decide (set_len quorum >= set_len config / 2 + 1).

Definition is_majority_of_membership_view (quorum : gset Z) (servers : list Z) : bool :=
  is_majority_of_servers quorum servers.

Definition membership_union_set (old_servers new_servers : list Z) : gset Z :=
  membership_servers_set_loop new_servers (membership_servers_set old_servers).

Definition quorum_intersection_with_servers (quorum : gset Z) (servers : list Z) : gset Z :=
  foldl (fun result server => if bool_decide (server ∈ quorum) then {[server]} ∪ result else result)
    ∅ servers.

Definition is_joint_quorum_servers (quorum : gset Z) (old_servers new_servers : list Z) : bool :=
  let union := membership_union_set old_servers new_servers in
  let within_union := hashset_is_subset quorum union in
  let old_votes := quorum_intersection_with_servers quorum old_servers in
  let new_votes := quorum_intersection_with_servers quorum new_servers in
  let old_majority := is_majority_of_servers old_votes old_servers in
  let new_majority := is_majority_of_servers new_votes new_servers in
  within_union && old_majority && new_majority.

Definition is_joint_quorum_membership_view (quorum : gset Z) (old_servers new_servers : list Z)
  : bool := is_joint_quorum_servers quorum old_servers new_servers.

Definition is_majority_of_hashset_membership_view (quorum config : gset Z) : bool :=
  let is_subset := hashset_is_subset quorum config in
  if decide (set_len config = 0) then false
  else if negb is_subset then false
  else bool_decide (set_len quorum >= set_len config / 2 + 1).

Definition is_quorum_for_membership_phase (quorum : gset Z) (phase : CMembershipPhase) : bool :=
  match phase with
  | LStable config => is_majority_of_membership_view quorum (mc_servers config)
  | LJoint old_config new_config =>
      is_joint_quorum_membership_view quorum (mc_servers old_config) (mc_servers new_config)
  end.

(** The loops that walk the log backwards, [remaining] entries to go, to its
    last configuration. *)
Fixpoint latest_configuration (log : list CLogEntry) (remaining : nat) : option CMembershipPhase :=
  match remaining with
  | O => None
  | S remaining =>
      match payload (seq_index log (Z.of_nat remaining)) with
      | Configuration phase => Some phase
      | Data _ => latest_configuration log remaining
      end
  end.

Definition active_membership_phase_exec (s : CState) (c : CConstants) : CMembershipPhase :=
  if decide (commit_index s = 0 \/ commit_index s > seq_len (log s)) then
    LStable (MkLMembershipConfig (hashset_to_vec (servers c)))
  else
    match latest_configuration (log s) (Z.to_nat (commit_index s)) with
    | Some phase => clone_membership_phase phase
    | None => LStable (MkLMembershipConfig (hashset_to_vec (servers c)))
    end.

Definition election_membership_phase_exec (s : CState) (c : CConstants) : CMembershipPhase :=
  let s' := clone_state s in
  active_membership_phase_exec
    {| current_term := current_term s';
       role := role s';
       has_voted := has_voted s';
       voted_for := voted_for s';
       log := log s';
       commit_index := seq_len (log s);
       votes_granted := votes_granted s';
       election_membership_phase := election_membership_phase s';
       match_index := match_index s';
       next_index := next_index s' |} c.

Definition has_active_election_quorum_exec (s : CState) (c : CConstants) : bool :=
  if decide (seq_len (log s) = 0) then
    is_majority_of_hashset_membership_view (votes_granted s) (servers c)
  else
    match latest_configuration (log s) (length (log s)) with
    | Some phase => is_quorum_for_membership_phase (votes_granted s) phase
    | None => is_majority_of_hashset_membership_view (votes_granted s) (servers c)
    end.

Definition has_active_election_quorum_after_vote_exec (s : CState) (c : CConstants) (voter : Z)
  : bool :=
  let votes := {[voter]} ∪ votes_granted s in
  let s' := clone_state s in
  has_active_election_quorum_exec
    {| current_term := current_term s';
       role := role s';
       has_voted := has_voted s';
       voted_for := voted_for s';
       log := log s';
       commit_index := commit_index s';
       votes_granted := votes;
       election_membership_phase := election_membership_phase s';
       match_index := match_index s';
       next_index := next_index s' |} c.

Definition Chas_active_election_quorum_after_vote (s : CState) (c : CConstants) (voter : Z) : bool :=
  has_active_election_quorum_after_vote_exec s c voter.

Definition server_replicated (s : CState) (c : CConstants) (idx server : Z) : bool :=
  if decide (server = my_id c) then true
  else match match_index s !! server with
       | Some matched => bool_decide (matched >= idx)
       | None => false
       end.

Definition replicator_set_exec (s : CState) (c : CConstants) (idx : Z) : gset Z :=
  foldl (fun result server => if server_replicated s c idx server then {[server]} ∪ result else result)
    ∅ (hashset_to_vec (servers c)).

(** The loop over [cursor], [steps] short of [new_commit_index]. *)
Fixpoint interval_has_no_configuration (log : list CLogEntry) (cursor : Z) (steps : nat) : bool :=
  match steps with
  | O => true
  | S steps =>
      match payload (seq_index log (cursor - 1)) with
      | Configuration _ => false
      | Data _ => interval_has_no_configuration log (cursor + 1) steps
      end
  end.

Definition commit_interval_stops_at_first_configuration_exec (s : CState) (new_commit_index : Z)
  : bool :=
  let cursor := u64_add (commit_index s) 1 in
  interval_has_no_configuration (log s) cursor (Z.to_nat (new_commit_index - cursor)).

Definition Ccommit_interval_stops_at_first_configuration (s : CState) (new_commit_index : Z) : bool :=
  commit_interval_stops_at_first_configuration_exec s new_commit_index.

Definition has_active_commit_quorum_exec (s : CState) (c : CConstants) (idx : Z) : bool :=
  let replicators := replicator_set_exec s c idx in
  let phase := active_membership_phase_exec s c in
  is_quorum_for_membership_phase replicators phase.

Definition Chas_active_commit_quorum (s : CState) (c : CConstants) (idx : Z) : bool :=
  has_active_commit_quorum_exec s c idx.

(** ** The helpers decide the protocol's definitions *)

Section helpers.
Implicit Types (quorum config X : gset Z) (s : CState) (c : CConstants).

Lemma membership_servers_set_loop_spec srv X :
  membership_servers_set_loop srv X = X ∪ list_to_set srv.
Proof.
  unfold membership_servers_set_loop. revert X.
  induction srv as [|x srv IH]; intros X; cbn; [set_solver|]. rewrite IH. set_solver.
Qed.

Lemma membership_servers_set_spec srv : membership_servers_set srv = list_to_set srv.
Proof. unfold membership_servers_set. rewrite membership_servers_set_loop_spec. set_solver. Qed.

Lemma all_contained_spec l X : all_contained l X = true <-> forall x, x ∈ l -> x ∈ X.
Proof.
  induction l as [|y l IH]; cbn; [set_solver|].
  case_decide; [split; [done|set_solver]|]. rewrite IH. set_solver.
Qed.

Lemma hashset_is_subset_spec X Y : hashset_is_subset X Y = bool_decide (X ⊆ Y).
Proof.
  apply eq_true_iff_eq. unfold hashset_is_subset, hashset_to_vec.
  rewrite all_contained_spec, bool_decide_eq_true. set_solver.
Qed.

Lemma is_majority_of_hashset_spec quorum config :
  is_majority_of_hashset_membership_view quorum config = bool_decide (is_majority_of quorum config).
Proof.
  unfold is_majority_of_hashset_membership_view, is_majority_of.
  rewrite hashset_is_subset_spec. unfold set_len.
  case_decide; [symmetry; apply bool_decide_eq_false; lia|].
  destruct (decide (quorum ⊆ config)) as [Hs|Hs].
  - rewrite (bool_decide_eq_true_2 _ Hs). cbn. apply bool_decide_ext.
    split; [intros; split_and!; (done || lia)|tauto].
  - rewrite (bool_decide_eq_false_2 _ Hs). symmetry. apply bool_decide_eq_false. tauto.
Qed.

Lemma is_majority_of_servers_spec quorum srv :
  is_majority_of_servers quorum srv = bool_decide (is_majority_of quorum (list_to_set srv)).
Proof. rewrite <- is_majority_of_hashset_spec, <- membership_servers_set_spec. done. Qed.

Lemma membership_union_set_spec old new :
  membership_union_set old new = list_to_set old ∪ list_to_set new.
Proof.
  unfold membership_union_set. by rewrite membership_servers_set_loop_spec, membership_servers_set_spec.
Qed.

(** The two loops that copy the servers of a vector that pass a test. *)
Lemma copy_servers_spec (P : Z -> bool) l X x :
  x ∈ foldl (fun r y => if P y then {[y]} ∪ r else r) X l <-> x ∈ X \/ x ∈ l /\ P x = true.
Proof.
  revert X. induction l as [|y l IH]; intros X; cbn; [set_solver|].
  rewrite IH, elem_of_cons. destruct (P y) eqn:Hy; [rewrite elem_of_union, elem_of_singleton|].
  - split; [intros [[->|?]|[??]]; auto|]. intros [?|[[->|?] ?]]; auto.
  - split; [intros [?|[??]]; auto|]. intros [?|[[->|?] ?]]; [auto|congruence|auto].
Qed.

Lemma quorum_intersection_with_servers_spec quorum srv :
  quorum_intersection_with_servers quorum srv = quorum ∩ list_to_set srv.
Proof.
  apply set_eq. intros x. unfold quorum_intersection_with_servers.
  pose proof (copy_servers_spec (fun server => bool_decide (server ∈ quorum)) srv ∅ x) as H.
  rewrite bool_decide_eq_true in H. rewrite elem_of_intersection, elem_of_list_to_set.
  transitivity (x ∈ (∅ : gset Z) \/ x ∈ srv /\ x ∈ quorum); [|set_solver].
  by rewrite <- H.
Qed.

Lemma is_joint_quorum_servers_spec quorum old new :
  is_joint_quorum_servers quorum old new
  = bool_decide (is_joint_quorum quorum (list_to_set old) (list_to_set new)).
Proof.
  apply eq_true_iff_eq. unfold is_joint_quorum_servers, is_joint_quorum.
  rewrite hashset_is_subset_spec, !is_majority_of_servers_spec, membership_union_set_spec,
    !quorum_intersection_with_servers_spec.
  rewrite !andb_true_iff, !bool_decide_eq_true. tauto.
Qed.

Lemma is_quorum_for_membership_phase_spec quorum phase :
  is_quorum_for_membership_phase quorum phase
  = bool_decide (is_quorum_for_phase quorum (membership_phase_view phase)).
Proof.
  destruct phase; cbn.
  - unfold is_majority_of_membership_view. rewrite is_majority_of_servers_spec.
    by apply bool_decide_ext.
  - unfold is_joint_quorum_membership_view. rewrite is_joint_quorum_servers_spec.
    by apply bool_decide_ext.
Qed.

Lemma latest_configuration_spec l n init :
  phase_of_prefix l n init = from_option membership_phase_view init (latest_configuration l n).
Proof. induction n as [|n IH]; cbn; [done|]. by case_match. Qed.

Lemma stable_elements config :
  membership_phase_view (LStable (MkLMembershipConfig (hashset_to_vec config))) = Stable config.
Proof. cbn. unfold membership_config_view. f_equal. apply list_to_set_elements_L. Qed.

Lemma active_membership_phase_exec_spec s c :
  0 <= commit_index s ->
  membership_phase_view (active_membership_phase_exec s c)
  = active_membership_phase_for_state (view s) c.
Proof.
  intros Hc. unfold active_membership_phase_exec, active_membership_phase_for_state.
  unfold active_membership_phase_from_raft_log. cbn [log commit_index view CState_view].
  destruct (decide (commit_index s = 0 \/ commit_index s > seq_len (log s))) as [H|H].
  { rewrite decide_True by lia. apply stable_elements. }
  rewrite decide_False, latest_configuration_spec by lia.
  destruct (latest_configuration _ _) as [p|] eqn:Hp; cbn -[hashset_to_vec];
    [by rewrite clone_membership_phase_id|apply stable_elements].
Qed.

Lemma election_membership_phase_exec_spec s c :
  membership_phase_view (election_membership_phase_exec s c)
  = election_membership_phase_for_state (view s) c.
Proof.
  unfold election_membership_phase_exec. rewrite active_membership_phase_exec_spec.
  2: { apply seq_len_nonneg. }
  rewrite clone_state_id. done.
Qed.

Lemma has_active_election_quorum_exec_spec s c :
  has_active_election_quorum_exec s c = bool_decide (has_active_election_quorum (view s) c).
Proof.
  unfold has_active_election_quorum_exec, has_active_election_quorum.
  unfold election_membership_phase_for_state, active_membership_phase_from_raft_log.
  cbn [log votes_granted view CState_view].
  case_decide as Hl.
  { rewrite decide_True by lia. apply is_majority_of_hashset_spec. }
  pose proof (seq_len_nonneg (log s)). rewrite decide_False by lia.
  rewrite latest_configuration_spec. unfold seq_len. rewrite Nat2Z.id.
  destruct (latest_configuration _ _); cbn;
    [apply is_quorum_for_membership_phase_spec|apply is_majority_of_hashset_spec].
Qed.

Lemma Chas_active_election_quorum_after_vote_spec s c voter :
  Chas_active_election_quorum_after_vote s c voter
  = bool_decide (has_active_election_quorum_after_vote (view s) c voter).
Proof.
  unfold Chas_active_election_quorum_after_vote, has_active_election_quorum_after_vote_exec.
  rewrite has_active_election_quorum_exec_spec, clone_state_id. apply bool_decide_ext.
  unfold has_active_election_quorum, has_active_election_quorum_after_vote.
  cbn [votes_granted view CState_view].
  rewrite (union_comm_L {[voter]}). done.
Qed.

Lemma as_u64_id x : is_u64 x -> as_u64 x = x.
Proof. apply Z.mod_small. Qed.

Lemma replicator_set_exec_spec s c idx :
  valid c -> replicator_set_exec s c idx = replicator_set (view s) c idx.
Proof.
  intros (Hsrv & _ & _). apply set_eq. intros x. unfold replicator_set_exec, replicator_set.
  rewrite (copy_servers_spec (server_replicated s c idx)), elem_of_filter.
  unfold hashset_to_vec. rewrite elem_of_elements.
  unfold server_replicated, is_replicator. cbn [match_index view CState_view].
  assert (x ∈ servers c -> as_u64 x = x) as Hid by (intros; apply as_u64_id; auto).
  destruct (decide (x = my_id c)) as [He|Hne].
  { split; [intros [Hf|[Hx _]]; [done|]; by split; [left|]|intros [_ Hx]; by right]. }
  split; [intros [Hf|[Hx Hr]]; [by apply not_elem_of_empty in Hf|]|intros [Hr Hx]; right].
  - split; [|done]. right. rewrite Hid by done. destruct (match_index s !! x) as [m|]; [|done].
    exists m. split; [done|]. by apply bool_decide_eq_true in Hr.
  - split; [done|]. rewrite Hid in Hr by done. destruct Hr as [?|(m & -> & ?)]; [done|]. by apply bool_decide_eq_true.
Qed.

Lemma Chas_active_commit_quorum_spec s c idx :
  valid c -> 0 <= commit_index s ->
  Chas_active_commit_quorum s c idx = bool_decide (has_active_commit_quorum (view s) c idx).
Proof.
  intros Hc Hci. unfold Chas_active_commit_quorum, has_active_commit_quorum_exec.
  rewrite is_quorum_for_membership_phase_spec, replicator_set_exec_spec,
    active_membership_phase_exec_spec by done.
  done.
Qed.

Lemma interval_has_no_configuration_spec l cursor n :
  interval_has_no_configuration l cursor n = true
  <-> forall index, cursor - 1 <= index < cursor - 1 + Z.of_nat n ->
        is_Configuration (payload (seq_index l index)) = false.
Proof.
  revert cursor. induction n as [|n IH]; intros cursor; cbn [interval_has_no_configuration]; [split; [lia|done]|].
  destruct (payload (seq_index l (cursor - 1))) eqn:Hp.
  - rewrite IH. split; intros H index Hi.
    + destruct (decide (index = cursor - 1)) as [->|]; [by rewrite Hp|]. apply H. lia.
    + apply H. lia.
  - split; [done|]. intros H. specialize (H (cursor - 1) ltac:(lia)). by rewrite Hp in H.
Qed.

Lemma Ccommit_interval_spec s n :
  is_u64 (commit_index s) -> commit_index s < n <= seq_len (log s) -> is_u64 n ->
  Ccommit_interval_stops_at_first_configuration s n = true
  <-> commit_interval_stops_at_first_configuration (log s) (commit_index s) n.
Proof.
  intros Hci Hn Hu. unfold Ccommit_interval_stops_at_first_configuration.
  unfold commit_interval_stops_at_first_configuration_exec, is_u64 in *.
  rewrite u64_add_exact, interval_has_no_configuration_spec by lia.
  unfold commit_interval_stops_at_first_configuration.
  split; [intros H; split_and!; try lia|intros (_ & _ & _ & H)]; intros index Hi; apply H; lia.
Qed.
End helpers.
