(* ===== verification/RaftProtocol.v ===== *)
(** * The Raft protocol of one server

    protocol/Raft/raft.rs: the server's atomic actions, the composite message
    handlers built from them, and the next-state relation; and
    protocol/Raft/raft_refinement.rs: the older relation of atomic actions,
    which the composite one refines.

    An action relates the state before, the state after and the messages sent.
    A conjunction that fixes every field of the state after is written as one
    equation. *)

From stdpp Require Import prelude gmap sets list numbers fin_sets.
From Stdlib Require Import ZArith Lia.
From S2P Require Import Prelude.
From S2P Require Import Types.
From S2P Require Import RaftTypes.
From S2P Require Import RaftMembership.

#[local] Open Scope Z_scope.

(** [(x + 1) as u64], [(x - 1) as u64]. *)
Definition u64_inc (x : Z) : Z := as_u64 (x + 1).
Definition u64_dec (x : Z) : Z := as_u64 (x - 1).

(** [if s.log.len() == 0 { 0int } else { s.log[s.log.len() - 1].term }]. *)
Definition last_log_term_of (log : list LLogEntry) : Z :=
  if decide (seq_len log = 0) then 0 else term (seq_index log (seq_len log - 1)).

Section actions.
Implicit Types (s : LState) (c : LConstants) (sent_packets : list LRaftMessage).

Definition LInit s c : Prop :=
  s = {| current_term := 0;
         role := Follower;
         has_voted := false;
         voted_for := 0;
         log := [];
         commit_index := 0;
         votes_granted := ∅;
         election_membership_phase := None;
         match_index := ∅;
         next_index := ∅ |}.

Definition LTimeout s (s_ : LState) c sent_packets : Prop :=
  (role s = Follower \/ role s = Candidate)
  /\ s_ = {| current_term := current_term s + 1;
             role := Candidate;
             has_voted := true;
             voted_for := my_id c;
             log := log s;
             commit_index := commit_index s;
             votes_granted := {[my_id c]};
             election_membership_phase := election_membership_phase s;
             match_index := match_index s;
             next_index := next_index s |}
  /\ sent_packets = [RequestVote (current_term s + 1) (my_id c) (seq_len (log s))
                       (last_log_term_of (log s))].

Definition LGrantVote s (s_ : LState) c (candidate_term candidate_last_log_term candidate_last_log_index
    candidate_id : Z) sent_packets : Prop :=
  candidate_term >= current_term s
  /\ (has_voted s = false \/ voted_for s = candidate_id)
  /\ s_ = {| current_term := candidate_term;
             role := Follower;
             has_voted := true;
             voted_for := candidate_id;
             log := log s;
             commit_index := commit_index s;
             votes_granted := votes_granted s;
             election_membership_phase := election_membership_phase s;
             match_index := match_index s;
             next_index := next_index s |}
  /\ sent_packets = [VoteResponse candidate_term true (my_id c) (seq_len (log s))
                       (last_log_term_of (log s))].

Definition LReceiveVoteGranted s (s_ : LState) c (vote_term : Z) (vote_granted : bool) (voter : Z)
    sent_packets : Prop :=
  role s = Candidate /\ vote_granted = true /\ voter ∈ servers c
  /\ s_ = {| current_term := current_term s;
             role := role s;
             has_voted := has_voted s;
             voted_for := voted_for s;
             log := log s;
             commit_index := commit_index s;
             votes_granted := votes_granted s ∪ {[voter]};
             election_membership_phase := election_membership_phase s;
             match_index := match_index s;
             next_index := next_index s |}
  /\ sent_packets = [].

(** The state of a server that becomes leader with the votes [votes]. *)
Definition leader_state s c (votes : gset Z) : LState :=
  {| current_term := current_term s;
     role := Leader;
     has_voted := has_voted s;
     voted_for := voted_for s;
     log := log s;
     commit_index := commit_index s;
     votes_granted := votes;
     election_membership_phase := Some (election_membership_phase_for_state s c);
     match_index := ∅;
     next_index := ∅ |}.

Definition LBecomeLeader s (s_ : LState) c sent_packets : Prop :=
  role s = Candidate
  /\ set_len (votes_granted s) >= quorum_size c
  /\ s_ = leader_state s c (votes_granted s)
  /\ sent_packets = [].

Definition LBecomeLeaderWithMembership s (s_ : LState) c sent_packets : Prop :=
  role s = Candidate
  /\ has_active_election_quorum s c
  /\ s_ = leader_state s c (votes_granted s)
  /\ sent_packets = [].

(** The state with another log. *)
Definition with_log s (l : list LLogEntry) : LState :=
  {| current_term := current_term s;
     role := role s;
     has_voted := has_voted s;
     voted_for := voted_for s;
     log := l;
     commit_index := commit_index s;
     votes_granted := votes_granted s;
     election_membership_phase := election_membership_phase s;
     match_index := match_index s;
     next_index := next_index s |}.

Definition LAppendConfigurationEntry s (s_ : LState) c (phase : LMembershipPhase) sent_packets : Prop :=
  let initial_phase := Stable (servers c) in
  let current_phase :=
    active_membership_phase_from_raft_log (log s) (commit_index s) initial_phase in
  let requested_phase := membership_phase_view phase in
  role s = Leader
  /\ 0 <= commit_index s /\ commit_index s <= seq_len (log s)
  /\ uncommitted_suffix_has_no_configuration (log s) (commit_index s)
  /\ is_legal_phase_progression current_phase requested_phase
  /\ s_ = with_log s (log s ++ [MkLLogEntry (current_term s) 0 (Configuration phase)])
  /\ sent_packets = [].

Definition LClientRequest s (s_ : LState) c (value : Z) sent_packets : Prop :=
  role s = Leader
  /\ s_ = with_log s (log s ++ [MkLLogEntry (current_term s) value (Data value)])
  /\ sent_packets = [].

Definition ae_entry_count (has_entry : bool) : Z := if has_entry then 1 else 0.

Definition LSendAppendEntries s (s_ : LState) c (follower entry_value : Z) (entry_payload : LLogValue)
    (prev_log_index prev_log_term : Z) (has_entry : bool) sent_packets : Prop :=
  role s = Leader
  /\ follower ∈ servers c
  /\ prev_log_index >= 0
  /\ seq_len (log s) >= prev_log_index + ae_entry_count has_entry
  /\ (prev_log_index > 0 -> term (seq_index (log s) (prev_log_index - 1)) = prev_log_term)
  /\ (has_entry = true -> value (seq_index (log s) prev_log_index) = entry_value)
  /\ (has_entry = true -> payload (seq_index (log s) prev_log_index) = entry_payload)
  /\ (has_entry = true -> term (seq_index (log s) prev_log_index) = current_term s)
  /\ s_ = s
  /\ sent_packets = [AppendEntries (current_term s) (my_id c) prev_log_index prev_log_term
                       entry_value entry_payload has_entry (commit_index s)].

Definition step_down_if_needed s (new_term : Z) : LState :=
  if decide (new_term > current_term s) then
    {| current_term := new_term;
       role := Follower;
       has_voted := false;
       voted_for := 0;
       log := log s;
       commit_index := commit_index s;
       votes_granted := ∅;
       election_membership_phase := election_membership_phase s;
       match_index := match_index s;
       next_index := next_index s |}
  else s.

Definition LFollowerAppendEntries s (s_ : LState) c (ae_term ae_leader ae_prev_index ae_prev_term ae_value : Z)
    (ae_payload : LLogValue) (ae_has_entry : bool) (ae_leader_commit : Z) sent_packets : Prop :=
  ae_term >= current_term s
  /\ s_ = {| current_term := ae_term;
             role := Follower;
             has_voted := has_voted (step_down_if_needed s ae_term);
             voted_for := voted_for (step_down_if_needed s ae_term);
             log := if ae_has_entry then log s ++ [MkLLogEntry ae_term ae_value ae_payload]
                    else log s;
             commit_index :=
               if decide (ae_leader_commit > commit_index s) then
                 if ae_has_entry then
                   if decide (ae_leader_commit <= seq_len (log s) + 1) then ae_leader_commit
                   else seq_len (log s) + 1
                 else
                   if decide (ae_leader_commit <= ae_prev_index) then ae_leader_commit
                   else if decide (ae_prev_index > commit_index s) then ae_prev_index
                   else commit_index s
               else commit_index s;
             votes_granted := votes_granted (step_down_if_needed s ae_term);
             election_membership_phase := election_membership_phase s;
             match_index := match_index s;
             next_index := next_index s |}
  /\ sent_packets = [AppendResponse ae_term true
                       (if ae_has_entry then seq_len (log s) + 1 else ae_prev_index) (my_id c)].

(** The state with other follower indices. *)
Definition with_indices s (matched next : gmap Z Z) : LState :=
  {| current_term := current_term s;
     role := role s;
     has_voted := has_voted s;
     voted_for := voted_for s;
     log := log s;
     commit_index := commit_index s;
     votes_granted := votes_granted s;
     election_membership_phase := election_membership_phase s;
     match_index := matched;
     next_index := next |}.

Definition LHandleAppendResponse s (s_ : LState) c (resp_term : Z) (resp_success : bool)
    (resp_match_index resp_follower follower new_match_index : Z) sent_packets : Prop :=
  role s = Leader
  /\ resp_success = true
  /\ follower ∈ servers c
  /\ new_match_index >= 0
  /\ new_match_index <= seq_len (log s)
  /\ s_ = with_indices s (<[follower := new_match_index]> (match_index s))
            (<[follower := u64_inc new_match_index]> (next_index s))
  /\ sent_packets = [].

Definition LHandleAppendReject s (s_ : LState) c (resp_term : Z) (resp_success : bool)
    (resp_match_index resp_follower follower : Z) sent_packets : Prop :=
  role s = Leader
  /\ resp_success = false
  /\ follower ∈ servers c
  /\ s_ = with_indices s (match_index s)
            (match next_index s !! follower with
             | Some n => if decide (n > 0) then <[follower := u64_dec n]> (next_index s)
                         else next_index s
             | None => next_index s
             end)
  /\ sent_packets = [].

Definition with_commit_index s (new_commit_index : Z) : LState :=
  {| current_term := current_term s;
     role := role s;
     has_voted := has_voted s;
     voted_for := voted_for s;
     log := log s;
     commit_index := new_commit_index;
     votes_granted := votes_granted s;
     election_membership_phase := election_membership_phase s;
     match_index := match_index s;
     next_index := next_index s |}.

Definition LAdvanceCommitIndex s (s_ : LState) c (new_commit_index : Z) sent_packets : Prop :=
  role s = Leader
  /\ new_commit_index > commit_index s
  /\ new_commit_index <= seq_len (log s)
  /\ term (seq_index (log s) (new_commit_index - 1)) = current_term s
  /\ has_active_commit_quorum s c new_commit_index
  /\ commit_interval_stops_at_first_configuration (log s) (commit_index s) new_commit_index
  /\ s_ = with_commit_index s new_commit_index
  /\ sent_packets = [].

Definition LStepDown s (s_ : LState) c (new_term : Z) sent_packets : Prop :=
  new_term > current_term s
  /\ s_ = {| current_term := new_term;
             role := Follower;
             has_voted := false;
             voted_for := 0;
             log := log s;
             commit_index := commit_index s;
             votes_granted := ∅;
             election_membership_phase := election_membership_phase s;
             match_index := match_index s;
             next_index := next_index s |}
  /\ sent_packets = [].

(** ** Composite message handlers *)

Definition log_up_to_date s (candidate_last_log_term candidate_last_log_index : Z) : Prop :=
  candidate_last_log_term > last_log_term_of (log s)
  \/ candidate_last_log_term = last_log_term_of (log s)
     /\ candidate_last_log_index >= seq_len (log s).

Definition LHandleRequestVoteMsg s (s_ : LState) c (term candidate_id last_log_index last_log_term : Z)
    sent_packets : Prop :=
  let s_mid := step_down_if_needed s term in
  if decide (term < current_term s_mid) then s_ = s_mid /\ sent_packets = []
  else if decide (has_voted s_mid = true /\ voted_for s_mid <> candidate_id) then
    s_ = s_mid /\ sent_packets = []
  else (~ log_up_to_date s_mid last_log_term last_log_index /\ s_ = s_mid /\ sent_packets = [])
       \/ (log_up_to_date s_mid last_log_term last_log_index
           /\ LGrantVote s_mid s_ c term last_log_term last_log_index candidate_id sent_packets).

Definition LHandleAppendEntriesMsg s (s_ : LState) c (ae_term ae_leader ae_prev_index ae_prev_term ae_value : Z)
    (ae_payload : LLogValue) (ae_has_entry : bool) (ae_leader_commit : Z) sent_packets : Prop :=
  let s_mid := step_down_if_needed s ae_term in
  let rejection := [AppendResponse (current_term s_mid) false 0 (my_id c)] in
  if decide (ae_term < current_term s_mid) then s_ = s_mid /\ sent_packets = rejection
  else if decide (ae_prev_index > 0
                  /\ (ae_prev_index > seq_len (log s_mid)
                      \/ term (seq_index (log s_mid) (ae_prev_index - 1)) <> ae_prev_term)) then
    s_ = s_mid /\ sent_packets = rejection
  else if decide (ae_has_entry = true /\ ae_prev_index <> seq_len (log s_mid)) then
    s_ = s_mid /\ sent_packets = rejection
  else LFollowerAppendEntries s_mid s_ c ae_term ae_leader ae_prev_index ae_prev_term ae_value
         ae_payload ae_has_entry ae_leader_commit sent_packets.

Definition LReceiveVoteAndBecomeLeader s (s_ : LState) c (vote_term : Z) (vote_granted : bool) (voter : Z)
    sent_packets : Prop :=
  role s = Candidate /\ vote_granted = true /\ voter ∈ servers c
  /\ s_ = leader_state s c (votes_granted s ∪ {[voter]})
  /\ sent_packets = [].

Definition LHandleVoteResponseMsg s (s_ : LState) c (term : Z) (granted : bool) (voter : Z) sent_packets : Prop :=
  let s_mid := step_down_if_needed s term in
  if decide (role s_mid <> Candidate) then s_ = s_mid /\ sent_packets = []
  else if decide (term < current_term s_mid) then s_ = s_mid /\ sent_packets = []
  else if decide (granted = false) then s_ = s_mid /\ sent_packets = []
  else if decide (voter ∉ servers c) then s_ = s_mid /\ sent_packets = []
  else (has_active_election_quorum_after_vote s_mid c voter
        /\ LReceiveVoteAndBecomeLeader s_mid s_ c term granted voter sent_packets)
       \/ (~ has_active_election_quorum_after_vote s_mid c voter
           /\ LReceiveVoteGranted s_mid s_ c term granted voter sent_packets).

Definition LHandleAppendResponseMsg s (s_ : LState) c (term : Z) (success : bool)
    (match_index follower_id : Z) sent_packets : Prop :=
  let s_mid := step_down_if_needed s term in
  if decide (role s_mid <> Leader) then s_ = s_mid /\ sent_packets = []
  else if decide (follower_id ∉ servers c) then s_ = s_mid /\ sent_packets = []
  else if decide (follower_id < 0 \/ follower_id > U64_MODULUS - 1) then
    s_ = s_mid /\ sent_packets = []
  else if success then
    if decide (match_index < 0 \/ match_index > U64_MODULUS - 1) then
      s_ = s_mid /\ sent_packets = []
    else
      let follower := as_u64 follower_id in
      let new_match_index := as_u64 match_index in
      if decide (new_match_index > seq_len (log s_mid)) then s_ = s_mid /\ sent_packets = []
      else LHandleAppendResponse s_mid s_ c term success match_index follower_id follower
             new_match_index sent_packets
  else
    let follower := as_u64 follower_id in
    LHandleAppendReject s_mid s_ c term success match_index follower_id follower sent_packets.

Definition LTryAdvanceCommitIndex s (s_ : LState) c (new_commit_index : Z) sent_packets : Prop :=
  ((role s <> Leader \/ new_commit_index <= commit_index s
    \/ ~ has_active_commit_quorum s c new_commit_index
    \/ ~ commit_interval_stops_at_first_configuration (log s) (commit_index s) new_commit_index)
   /\ s_ = s /\ sent_packets = [])
  \/ ((role s = Leader /\ new_commit_index > commit_index s
       /\ has_active_commit_quorum s c new_commit_index
       /\ commit_interval_stops_at_first_configuration (log s) (commit_index s) new_commit_index)
      /\ LAdvanceCommitIndex s s_ c new_commit_index sent_packets).

Definition LHandleMessage s (s_ : LState) c (msg : LRaftMessage) sent_packets : Prop :=
  match msg with
  | RequestVote term candidate last_log_index last_log_term =>
      LHandleRequestVoteMsg s s_ c term candidate last_log_index last_log_term sent_packets
  | VoteResponse term granted voter _ _ =>
      LHandleVoteResponseMsg s s_ c term granted voter sent_packets
  | AppendEntries term leader prev_index prev_term value payload has_entry leader_commit =>
      LHandleAppendEntriesMsg s s_ c term leader prev_index prev_term value payload has_entry
        leader_commit sent_packets
  | AppendResponse term success match_index follower =>
      LHandleAppendResponseMsg s s_ c term success match_index follower sent_packets
  end.

Definition LReboot s (s_ : LState) : Prop :=
  s_ = {| current_term := current_term s;
          role := Follower;
          has_voted := has_voted s;
          voted_for := voted_for s;
          log := log s;
          commit_index := 0;
          votes_granted := ∅;
          election_membership_phase := None;
          match_index := ∅;
          next_index := ∅ |}.

Definition LNext s (s_ : LState) c : Prop :=
  (exists sent_packets, LTimeout s s_ c sent_packets)
  \/ (exists value sent_packets, LClientRequest s s_ c value sent_packets)
  \/ (exists phase sent_packets, LAppendConfigurationEntry s s_ c phase sent_packets)
  \/ (exists follower entry_value entry_payload prev_log_index prev_log_term has_entry sent_packets,
        LSendAppendEntries s s_ c follower entry_value entry_payload prev_log_index prev_log_term
          has_entry sent_packets)
  \/ (exists msg sent_packets, LHandleMessage s s_ c msg sent_packets)
  \/ (exists new_commit_index sent_packets, LTryAdvanceCommitIndex s s_ c new_commit_index sent_packets).

Definition LNextWithReboot s (s_ : LState) c : Prop := LNext s s_ c \/ LReboot s s_.

(** ** The atomic relation (raft_refinement.rs) *)

Definition LNextAtomic s (s_ : LState) c : Prop :=
  (exists sent_packets, LTimeout s s_ c sent_packets)
  \/ (exists new_term sent_packets, LStepDown s s_ c new_term sent_packets)
  \/ (exists ct cllt clli cid sent_packets, LGrantVote s s_ c ct cllt clli cid sent_packets)
  \/ (exists vt vg v sent_packets, LReceiveVoteGranted s s_ c vt vg v sent_packets)
  \/ (exists sent_packets, LBecomeLeader s s_ c sent_packets)
  \/ (exists sent_packets, LBecomeLeaderWithMembership s s_ c sent_packets)
  \/ (exists value sent_packets, LClientRequest s s_ c value sent_packets)
  \/ (exists phase sent_packets, LAppendConfigurationEntry s s_ c phase sent_packets)
  \/ (exists f ev ep pli plt he sent_packets, LSendAppendEntries s s_ c f ev ep pli plt he sent_packets)
  \/ (exists at_ al api apt av ap ahe alc sent_packets,
        LFollowerAppendEntries s s_ c at_ al api apt av ap ahe alc sent_packets)
  \/ (exists rt rs rmi rf f nmi sent_packets, LHandleAppendResponse s s_ c rt rs rmi rf f nmi sent_packets)
  \/ (exists rt rs rmi rf f sent_packets, LHandleAppendReject s s_ c rt rs rmi rf f sent_packets)
  \/ (exists nci sent_packets, LAdvanceCommitIndex s s_ c nci sent_packets).

Definition refines_atomic s (s_ : LState) c : Prop :=
  s_ = s \/ LNextAtomic s s_ c \/ (exists s_mid, LNextAtomic s s_mid c /\ LNextAtomic s_mid s_ c).
End actions.

(** ** Decidability of the guards *)

#[export] Instance log_up_to_date_dec s t i : Decision (log_up_to_date s t i).
Proof. unfold log_up_to_date. apply _. Defined.
#[export] Instance has_active_election_quorum_after_vote_dec s c v :
  Decision (has_active_election_quorum_after_vote s c v).
Proof. unfold has_active_election_quorum_after_vote. apply _. Defined.
#[export] Instance has_active_commit_quorum_dec s c i : Decision (has_active_commit_quorum s c i).
Proof. unfold has_active_commit_quorum. apply _. Defined.

(** ** The composite handlers refine the atomic actions *)

Section refines.
Implicit Types (s : LState) (c : LConstants).

Lemma step_down_atomic s c t :
  step_down_if_needed s t = s \/ LNextAtomic s (step_down_if_needed s t) c.
Proof.
  unfold step_down_if_needed. case_decide as Ht; [|by left].
  right. right. left. by exists t, [].
Qed.

Lemma step_down_stutter s c t : refines_atomic s (step_down_if_needed s t) c.
Proof. destruct (step_down_atomic s c t) as [->|H]; [by left|by right; left]. Qed.

(** A handler that steps down and then takes one atomic step. *)
Lemma step_down_then s s' c t :
  LNextAtomic (step_down_if_needed s t) s' c -> refines_atomic s s' c.
Proof.
  destruct (step_down_atomic s c t) as [->|Hm]; intros H; [by right; left|].
  right. right. by exists (step_down_if_needed s t).
Qed.

Lemma step_down_role s t : role (step_down_if_needed s t) <> Follower -> step_down_if_needed s t = s.
Proof. unfold step_down_if_needed. by case_decide. Qed.

Lemma LHandleRequestVoteMsg_atomic s s' c t cid lli llt sent :
  LHandleRequestVoteMsg s s' c t cid lli llt sent -> refines_atomic s s' c.
Proof.
  unfold LHandleRequestVoteMsg.
  repeat case_decide; try by (intros [-> _]; apply step_down_stutter).
  intros [(_ & -> & _)|[_ Hg]]; [apply step_down_stutter|].
  apply (step_down_then s s' c t). right. right. left. by eauto 10.
Qed.

Lemma LHandleAppendEntriesMsg_atomic s s' c t l pi pt v p he lc sent :
  LHandleAppendEntriesMsg s s' c t l pi pt v p he lc sent -> refines_atomic s s' c.
Proof.
  unfold LHandleAppendEntriesMsg.
  repeat case_decide; try by (intros [-> _]; apply step_down_stutter).
  intros Hf. apply (step_down_then s s' c t). do 9 right. left. by do 9 eexists.
Qed.

Lemma LHandleVoteResponseMsg_atomic s s' c t g v sent :
  LHandleVoteResponseMsg s s' c t g v sent -> refines_atomic s s' c.
Proof.
  unfold LHandleVoteResponseMsg.
  repeat case_decide; try by (intros [-> _]; apply step_down_stutter).
  rewrite step_down_role in * by (destruct (role _); naive_solver).
  intros [[Hq (Hr & Hg & Hv & -> & _)]|[_ Hg]].
  2: { right. left. do 3 right. left. by do 4 eexists. }
  right. right. eexists. split.
  { do 3 right. left. exists t, g, v, []. by repeat split. }
  do 5 right. left. exists []. by repeat split.
Qed.

Lemma LHandleAppendResponseMsg_atomic s s' c t ok mi f sent :
  LHandleAppendResponseMsg s s' c t ok mi f sent -> refines_atomic s s' c.
Proof.
  unfold LHandleAppendResponseMsg.
  do 3 (case_decide; [by (intros [-> _]; apply step_down_stutter)|]).
  rewrite step_down_role in * by (destruct (role _); naive_solver).
  destruct ok.
  - do 2 (case_decide; [by (intros [-> _]; left)|]).
    intros Ha. right. left. do 10 right. left. by do 7 eexists.
  - intros Ha. right. left. do 11 right. left. by do 6 eexists.
Qed.

(** Every composite step is a stutter, one atomic step or two. *)
Lemma LNext_refines_atomic s s' c : LNext s s' c -> refines_atomic s s' c.
Proof.
  intros [H|[H|[H|[H|[(m & sent & H)|(n & sent & H)]]]]].
  - right. left. by left.
  - right. left. do 6 right. by left.
  - right. left. do 7 right. by left.
  - right. left. do 8 right. by left.
  - destruct m; cbn in H; eauto using LHandleRequestVoteMsg_atomic, LHandleVoteResponseMsg_atomic,
      LHandleAppendEntriesMsg_atomic, LHandleAppendResponseMsg_atomic.
  - destruct H as [(_ & -> & _)|[_ H]]; [by left|].
    right. left. do 12 right. by do 2 eexists.
Qed.
End refines.
