(* ===== verification/RaftImpl.v ===== *)
(** * The executable Raft server

    generated/Raft/raft_gen.rs: the functions that the host calls, each giving
    the new state and the messages to send, and their refinement of the
    protocol's actions.  [Arc::clone], [clone_log], [clone_hashset_u64] and the
    clones of maps are the identity; the clones that rebuild a value are those
    of RaftTypes.v. *)

From stdpp Require Import prelude gmap sets list numbers fin_sets.
From Stdlib Require Import ZArith Lia.
From S2P Require Import Prelude.
From S2P Require Import Types.
From S2P Require Import RaftTypes.
From S2P Require Import RaftMembership.
From S2P Require Import RaftProtocol.

#[local] Open Scope Z_scope.

(** helpers.rs *)
Definition Cu64_inc (x : Z) : Z := u64_add x 1.
Definition Cu64_dec (x : Z) : Z := u64_sub x 1.

(** [index_log]. *)
Definition index_log (l : list CLogEntry) (idx : Z) : CLogEntry := clone_log_entry (seq_index l idx).

(** [if ((s.log.len() as u64) == 0) { 0u64 } else { index_log(&s.log, s.log.len() - 1).term }]. *)
Definition Clast_log_term (l : list CLogEntry) : Z :=
  if decide (seq_len l = 0) then 0 else term (index_log l (seq_len l - 1)).

Section functions.
Implicit Types (s : CState) (c : CConstants).

Definition CInit c : CState :=
  {| current_term := 0;
     role := Follower;
     has_voted := false;
     voted_for := 0;
     log := [];
     commit_index := 0;
     votes_granted := ∅;
     election_membership_phase := None;
     match_index := ∅;
     next_index := ∅ |}.

Definition CTimeout s c : CState * list CRaftMessage :=
  ({| current_term := u64_add (current_term s) 1;
      role := Candidate;
      has_voted := true;
      voted_for := my_id c;
      log := log s;
      commit_index := commit_index s;
      votes_granted := {[my_id c]} ∪ ∅;
      election_membership_phase := clone_optional_membership_phase (election_membership_phase s);
      match_index := match_index s;
      next_index := next_index s |},
   [RequestVote (u64_add (current_term s) 1) (my_id c) (seq_len (log s)) (Clast_log_term (log s))]).

Definition CGrantVote s c (candidate_term candidate_last_log_term candidate_last_log_index
    candidate_id : Z) : CState * list CRaftMessage :=
  ({| current_term := candidate_term;
      role := Follower;
      has_voted := true;
      voted_for := candidate_id;
      log := log s;
      commit_index := commit_index s;
      votes_granted := votes_granted s;
      election_membership_phase := clone_optional_membership_phase (election_membership_phase s);
      match_index := match_index s;
      next_index := next_index s |},
   [VoteResponse candidate_term true (my_id c) (seq_len (log s)) (Clast_log_term (log s))]).

Definition CReceiveVoteGranted s c (vote_term : Z) (vote_granted : bool) (voter : Z)
  : CState * list CRaftMessage :=
  let votes := {[voter]} ∪ votes_granted s in
  ({| current_term := current_term s;
      role := role s;
      has_voted := has_voted s;
      voted_for := voted_for s;
      log := log s;
      commit_index := commit_index s;
      votes_granted := votes;
      election_membership_phase := clone_optional_membership_phase (election_membership_phase s);
      match_index := match_index s;
      next_index := next_index s |}, []).

Definition CBecomeLeader s c : CState * list CRaftMessage :=
  ({| current_term := current_term s;
      role := Leader;
      has_voted := has_voted s;
      voted_for := voted_for s;
      log := log s;
      commit_index := commit_index s;
      votes_granted := votes_granted s;
      election_membership_phase := Some (election_membership_phase_exec s c);
      match_index := ∅;
      next_index := ∅ |}, []).

Definition CClientRequest s c (value : Z) : CState * list CRaftMessage :=
  ({| current_term := current_term s;
      role := role s;
      has_voted := has_voted s;
      voted_for := voted_for s;
      log := log s ++ [MkLLogEntry (current_term s) value (Data value)];
      commit_index := commit_index s;
      votes_granted := votes_granted s;
      election_membership_phase := clone_optional_membership_phase (election_membership_phase s);
      match_index := match_index s;
      next_index := next_index s |}, []).

Definition CSendAppendEntries s c (follower entry_value : Z) (entry_payload : CLogValue)
    (prev_log_index prev_log_term : Z) (has_entry : bool) : CState * list CRaftMessage :=
  ({| current_term := current_term s;
      role := role s;
      has_voted := has_voted s;
      voted_for := voted_for s;
      log := log s;
      commit_index := commit_index s;
      votes_granted := votes_granted s;
      election_membership_phase := clone_optional_membership_phase (election_membership_phase s);
      match_index := match_index s;
      next_index := next_index s |},
   [AppendEntries (current_term s) (my_id c) prev_log_index prev_log_term entry_value
      (clone_payload entry_payload) has_entry (commit_index s)]).

Definition Cstep_down_if_needed s (new_term : Z) : CState :=
  if decide (new_term > current_term s) then
    let s' := clone_state s in
    {| current_term := new_term;
       role := Follower;
       has_voted := false;
       voted_for := 0;
       log := log s';
       commit_index := commit_index s';
       votes_granted := ∅;
       election_membership_phase := election_membership_phase s';
       match_index := match_index s';
       next_index := next_index s' |}
  else clone_state s.

Definition CFollowerAppendEntries s c (ae_term ae_leader ae_prev_index ae_prev_term ae_value : Z)
    (ae_payload : CLogValue) (ae_has_entry : bool) (ae_leader_commit : Z)
  : CState * list CRaftMessage :=
  let payload_copy := clone_payload ae_payload in
  ({| current_term := ae_term;
      role := Follower;
      has_voted := has_voted (Cstep_down_if_needed s ae_term);
      voted_for := voted_for (Cstep_down_if_needed s ae_term);
      log := if ae_has_entry then log s ++ [MkLLogEntry ae_term ae_value payload_copy] else log s;
      commit_index :=
        if decide (ae_leader_commit > commit_index s) then
          if ae_has_entry then
            if decide (ae_leader_commit <= u64_add (seq_len (log s)) 1) then ae_leader_commit
            else u64_add (seq_len (log s)) 1
          else
            if decide (ae_leader_commit <= ae_prev_index) then ae_leader_commit
            else if decide (ae_prev_index > commit_index s) then ae_prev_index
            else commit_index s
        else commit_index s;
      votes_granted := votes_granted (Cstep_down_if_needed s ae_term);
      election_membership_phase := clone_optional_membership_phase (election_membership_phase s);
      match_index := match_index s;
      next_index := next_index s |},
   [AppendResponse ae_term true
      (if ae_has_entry then u64_add (seq_len (log s)) 1 else ae_prev_index) (my_id c)]).

Definition CHandleAppendResponse s c (resp_term : Z) (resp_success : bool)
    (resp_match_index resp_follower follower new_match_index : Z) : CState * list CRaftMessage :=
  ({| current_term := current_term s;
      role := role s;
      has_voted := has_voted s;
      voted_for := voted_for s;
      log := log s;
      commit_index := commit_index s;
      votes_granted := votes_granted s;
      election_membership_phase := clone_optional_membership_phase (election_membership_phase s);
      match_index := <[follower := new_match_index]> (match_index s);
      next_index := <[follower := Cu64_inc new_match_index]> (next_index s) |}, []).

Definition CHandleAppendReject s c (resp_term : Z) (resp_success : bool)
    (resp_match_index resp_follower follower : Z) : CState * list CRaftMessage :=
  ({| current_term := current_term s;
      role := role s;
      has_voted := has_voted s;
      voted_for := voted_for s;
      log := log s;
      commit_index := commit_index s;
      votes_granted := votes_granted s;
      election_membership_phase := clone_optional_membership_phase (election_membership_phase s);
      match_index := match_index s;
      next_index :=
        match next_index s !! follower with
        | Some n => if decide (n > 0) then <[follower := Cu64_dec n]> (next_index s) else next_index s
        | None => next_index s
        end |}, []).

Definition CAdvanceCommitIndex s c (new_commit_index : Z) : CState * list CRaftMessage :=
  ({| current_term := current_term s;
      role := role s;
      has_voted := has_voted s;
      voted_for := voted_for s;
      log := log s;
      commit_index := new_commit_index;
      votes_granted := votes_granted s;
      election_membership_phase := clone_optional_membership_phase (election_membership_phase s);
      match_index := match_index s;
      next_index := next_index s |}, []).

Definition CStepDown s c (new_term : Z) : CState * list CRaftMessage :=
  ({| current_term := new_term;
      role := Follower;
      has_voted := false;
      voted_for := 0;
      log := log s;
      commit_index := commit_index s;
      votes_granted := ∅;
      election_membership_phase := clone_optional_membership_phase (election_membership_phase s);
      match_index := match_index s;
      next_index := next_index s |}, []).

Definition Clog_up_to_date s (candidate_last_log_term candidate_last_log_index : Z) : bool :=
  let my_last_log_term := Clast_log_term (log s) in
  bool_decide (candidate_last_log_term > my_last_log_term)
  || (bool_decide (candidate_last_log_term = my_last_log_term)
      && bool_decide (candidate_last_log_index >= seq_len (log s))).

Definition CHandleRequestVoteMsg s c (term candidate_id last_log_index last_log_term : Z)
  : CState * list CRaftMessage :=
  let s_mid := Cstep_down_if_needed s term in
  if decide (term < current_term s_mid) then (s_mid, [])
  else if has_voted s_mid && bool_decide (voted_for s_mid <> candidate_id) then (s_mid, [])
  else if negb (Clog_up_to_date s_mid last_log_term last_log_index) then (s_mid, [])
  else CGrantVote s_mid c term last_log_term last_log_index candidate_id.

Definition CHandleAppendEntriesMsg s c (ae_term ae_leader ae_prev_index ae_prev_term ae_value : Z)
    (ae_payload : CLogValue) (ae_has_entry : bool) (ae_leader_commit : Z)
  : CState * list CRaftMessage :=
  let s_mid := Cstep_down_if_needed s ae_term in
  let rejection := [AppendResponse (current_term s_mid) false 0 (my_id c)] in
  if decide (ae_term < current_term s_mid) then (s_mid, rejection)
  else if decide (ae_prev_index > 0
                  /\ (ae_prev_index > seq_len (log s_mid)
                      \/ term (index_log (log s_mid) (ae_prev_index - 1)) <> ae_prev_term)) then
    (s_mid, rejection)
  else if ae_has_entry && bool_decide (ae_prev_index <> seq_len (log s_mid)) then (s_mid, rejection)
  else CFollowerAppendEntries s_mid c ae_term ae_leader ae_prev_index ae_prev_term ae_value
         ae_payload ae_has_entry ae_leader_commit.

Definition CReceiveVoteAndBecomeLeader s c (vote_term : Z) (vote_granted : bool) (voter : Z)
  : CState * list CRaftMessage :=
  let votes := {[voter]} ∪ votes_granted s in
  ({| current_term := current_term s;
      role := Leader;
      has_voted := has_voted s;
      voted_for := voted_for s;
      log := log s;
      commit_index := commit_index s;
      votes_granted := votes;
      election_membership_phase := Some (election_membership_phase_exec s c);
      match_index := ∅;
      next_index := ∅ |}, []).

Definition CHandleVoteResponseMsg s c (term : Z) (granted : bool) (voter : Z)
  : CState * list CRaftMessage :=
  let s_mid := Cstep_down_if_needed s term in
  if decide (role s_mid <> Candidate) then (s_mid, [])
  else if decide (term < current_term s_mid) then (s_mid, [])
  else if negb granted then (s_mid, [])
  else if decide (voter ∉ servers c) then (s_mid, [])
  else if Chas_active_election_quorum_after_vote s_mid c voter then
    CReceiveVoteAndBecomeLeader s_mid c term granted voter
  else CReceiveVoteGranted s_mid c term granted voter.

Definition CHandleAppendResponseMsg s c (term : Z) (success : bool) (match_index follower_id : Z)
  : CState * list CRaftMessage :=
  let s_mid := Cstep_down_if_needed s term in
  if decide (role s_mid <> Leader) then (s_mid, [])
  else if decide (follower_id ∉ servers c) then (s_mid, [])
  else if success then
    let follower := follower_id in
    let new_match_index := match_index in
    if decide (new_match_index > seq_len (log s_mid)) then (s_mid, [])
    else CHandleAppendResponse s_mid c term success match_index follower_id follower new_match_index
  else
    let follower := follower_id in
    CHandleAppendReject s_mid c term success match_index follower_id follower.

Definition CTryAdvanceCommitIndex s c (new_commit_index : Z) : CState * list CRaftMessage :=
  if decide (role s <> Leader \/ new_commit_index <= commit_index s) then (clone_state s, [])
  else
    let respects_boundary := Ccommit_interval_stops_at_first_configuration s new_commit_index in
    if negb respects_boundary then (clone_state s, [])
    else
      let has_quorum := Chas_active_commit_quorum s c new_commit_index in
      if negb has_quorum then (clone_state s, [])
      else CAdvanceCommitIndex s c new_commit_index.

Definition CHandleMessage s c (msg : CRaftMessage) : CState * list CRaftMessage :=
  match msg with
  | RequestVote term candidate last_log_index last_log_term =>
      CHandleRequestVoteMsg s c term candidate last_log_index last_log_term
  | VoteResponse term granted voter _ _ => CHandleVoteResponseMsg s c term granted voter
  | AppendEntries term leader prev_index prev_term value payload has_entry leader_commit =>
      CHandleAppendEntriesMsg s c term leader prev_index prev_term value payload has_entry leader_commit
  | AppendResponse term success match_index follower =>
      CHandleAppendResponseMsg s c term success match_index follower
  end.
End functions.

(** ** Refinement *)

Lemma Clast_log_term_spec l : Clast_log_term l = last_log_term_of l.
Proof. unfold Clast_log_term, last_log_term_of, index_log. by rewrite clone_log_entry_id. Qed.

#[export] Hint Rewrite Clast_log_term_spec : raft_clone.

(** What a function returns has valid messages and a valid state. *)
Definition valid_result (r : CState * list CRaftMessage) : Prop := valid r.1 /\ Forall valid r.2.

(** A log that fits in memory leaves room for one more index. *)
Definition log_fits (s : CState) : Prop := seq_len (log s) < U64_MODULUS - 1.

Ltac raft_view :=
  cbn [view CState_view current_term role has_voted voted_for log commit_index votes_granted
       election_membership_phase match_index next_index fst snd] in *;
  autorewrite with raft_clone.

Ltac raft_valid_state :=
  repeat match goal with
  | H : valid (_ : CState) |- _ => destruct H as (? & ? & ? & ? & ? & ? & ? & ?)
  end;
  unfold valid, CState_valid; raft_view; split_and!.

Ltac raft_valid_msg :=
  apply Forall_singleton; unfold valid, CRaftMessage_valid; raft_view; split_and!.

Section refinement.
Implicit Types (s : CState) (c : CConstants).

Lemma last_log_term_is_u64 l : Forall valid l -> is_u64 (last_log_term_of l).
Proof.
  intros Hl. unfold last_log_term_of. case_decide; [done|].
  pose proof (seq_len_nonneg l).
  destruct (seq_get_range_Some l (seq_len l - 1)) as [e He]; [lia|].
  rewrite (seq_index_get _ _ _ He). apply seq_get_elem_of in He.
  rewrite Forall_forall in Hl. by destruct (Hl e He).
Qed.

Lemma seq_len_is_u64 s : log_fits s -> is_u64 (seq_len (log s)) /\ is_u64 (seq_len (log s) + 1).
Proof. unfold log_fits, is_u64. pose proof (seq_len_nonneg (log s)). lia. Qed.

Lemma CInit_refines c : valid (CInit c) /\ LInit (view (CInit c)) c.
Proof. split; [|done]. unfold valid, CState_valid. cbn. split_and!; try done; set_solver. Qed.

Lemma CTimeout_refines s c :
  valid s -> valid c -> log_fits s -> role s <> Leader -> current_term s < U64_MODULUS - 1 ->
  LTimeout (view s) (view (CTimeout s c).1) c (CTimeout s c).2 /\ valid_result (CTimeout s c).
Proof.
  intros Hs Hc [? ?]%seq_len_is_u64 Hr Ht. assert (is_u64 (current_term s + 1)) as Hu.
  { destruct Hs as [[? ?] _]. unfold is_u64. lia. }
  unfold CTimeout. rewrite u64_add_exact by apply Hu. split.
  - unfold LTimeout. raft_view. split_and!; [destruct (role s); tauto| |done].
    by rewrite union_empty_r_L.
  - destruct Hc as (_ & _ & Hid). pose proof (last_log_term_is_u64 (log s)) as Hl.
    split; [|destruct Hs as (? & ? & ? & _); raft_valid_msg; try done; by apply Hl].
    raft_valid_state; try done. set_solver.
Qed.

Lemma CGrantVote_refines s c ct cllt clli cid :
  valid s -> valid c -> log_fits s -> is_u64 ct -> is_u64 cid ->
  ct >= current_term s -> has_voted s = false \/ voted_for s = cid ->
  LGrantVote (view s) (view (CGrantVote s c ct cllt clli cid).1) c ct cllt clli cid
    (CGrantVote s c ct cllt clli cid).2
  /\ valid_result (CGrantVote s c ct cllt clli cid).
Proof.
  intros Hs Hc [? ?]%seq_len_is_u64 ? ? Ht Hv. split.
  - unfold LGrantVote, CGrantVote. by raft_view.
  - destruct Hc as (_ & _ & Hid). pose proof (last_log_term_is_u64 (log s)) as Hl.
    split; [|destruct Hs as (? & ? & ? & _); raft_valid_msg; try done; by apply Hl].
    unfold CGrantVote. by raft_valid_state.
Qed.

Lemma CReceiveVoteGranted_refines s c vt voter :
  valid s -> role s = Candidate -> voter ∈ servers c -> is_u64 voter ->
  LReceiveVoteGranted (view s) (view (CReceiveVoteGranted s c vt true voter).1) c vt true voter
    (CReceiveVoteGranted s c vt true voter).2
  /\ valid_result (CReceiveVoteGranted s c vt true voter).
Proof.
  intros Hs Hr Hv Hu. unfold CReceiveVoteGranted. split.
  - unfold LReceiveVoteGranted. raft_view. by rewrite (union_comm_L {[voter]}).
  - split; [|done]. raft_valid_state; try done. set_solver.
Qed.

Lemma phase_valid_elements c : valid c -> valid (LStable (MkLMembershipConfig (hashset_to_vec (servers c)))).
Proof.
  intros (Hc & _). apply Forall_forall. cbn [mc_servers]. unfold hashset_to_vec.
  intros v Hv%elem_of_elements. by apply Hc.
Qed.

Lemma latest_configuration_valid l n p :
  Forall valid l -> (n <= length l)%nat -> latest_configuration l n = Some p -> valid p.
Proof.
  intros Hl. induction n as [|n IH]; cbn; [done|]. intros Hn.
  destruct (seq_get_range_Some l (Z.of_nat n)) as [e He]; [unfold seq_len; lia|].
  rewrite (seq_index_get _ _ _ He). apply seq_get_elem_of in He.
  rewrite Forall_forall in Hl. destruct (Hl e He) as (_ & _ & Hp).
  destruct (payload e); [intros; apply IH; [lia|done]|]. by intros [= <-].
Qed.

Lemma election_membership_phase_exec_valid s c :
  valid s -> valid c -> valid (election_membership_phase_exec s c).
Proof.
  intros Hs Hc. unfold election_membership_phase_exec, active_membership_phase_exec.
  rewrite clone_state_id. raft_view. case_decide; [by apply phase_valid_elements|].
  case_match eqn:Hl; [|by apply phase_valid_elements]. autorewrite with raft_clone.
  apply (latest_configuration_valid (log s)) in Hl; [done|apply Hs|unfold seq_len; lia].
Qed.

Lemma CBecomeLeader_refines s c :
  valid s -> valid c -> role s = Candidate -> set_len (votes_granted s) >= quorum_size c ->
  LBecomeLeader (view s) (view (CBecomeLeader s c).1) c (CBecomeLeader s c).2
  /\ valid_result (CBecomeLeader s c).
Proof.
  intros Hs Hc Hr Hq. unfold CBecomeLeader. split.
  - unfold LBecomeLeader, leader_state.
    rewrite <- (election_membership_phase_exec_spec s c). by raft_view.
  - pose proof (election_membership_phase_exec_valid s c Hs Hc).
    split; [|done]. raft_valid_state; try done. by intros p [= <-].
Qed.

Lemma CReceiveVoteAndBecomeLeader_refines s c vt voter :
  valid s -> valid c -> role s = Candidate -> voter ∈ servers c ->
  LReceiveVoteAndBecomeLeader (view s) (view (CReceiveVoteAndBecomeLeader s c vt true voter).1) c vt
    true voter (CReceiveVoteAndBecomeLeader s c vt true voter).2
  /\ valid_result (CReceiveVoteAndBecomeLeader s c vt true voter).
Proof.
  intros Hs Hc Hr Hv. unfold CReceiveVoteAndBecomeLeader. split.
  - unfold LReceiveVoteAndBecomeLeader, leader_state.
    rewrite <- (election_membership_phase_exec_spec s c), (union_comm_L {[voter]}). by raft_view.
  - pose proof (election_membership_phase_exec_valid s c Hs Hc).
    assert (is_u64 voter) by by apply Hc.
    split; [|done]. raft_valid_state; try done; [set_solver|]. by intros p [= <-].
Qed.

Lemma CClientRequest_refines s c v :
  valid s -> role s = Leader -> is_u64 v ->
  LClientRequest (view s) (view (CClientRequest s c v).1) c v (CClientRequest s c v).2
  /\ valid_result (CClientRequest s c v).
Proof.
  intros Hs Hr Hv. unfold CClientRequest. split.
  - unfold LClientRequest, with_log. by raft_view.
  - split; [|done]. raft_valid_state; try done. by apply Forall_app_2, Forall_singleton.
Qed.

Lemma CSendAppendEntries_refines s c f v p pi pt he :
  valid s -> valid c -> valid p -> role s = Leader -> f ∈ servers c -> is_u64 v -> is_u64 pi -> is_u64 pt ->
  seq_len (log s) >= pi + ae_entry_count he ->
  (pi > 0 -> term (seq_index (log s) (pi - 1)) = pt) ->
  (he = true -> seq_index (log s) pi = MkLLogEntry (current_term s) v p) ->
  LSendAppendEntries (view s) (view (CSendAppendEntries s c f v p pi pt he).1) c f v p pi pt he
    (CSendAppendEntries s c f v p pi pt he).2
  /\ valid_result (CSendAppendEntries s c f v p pi pt he).
Proof.
  intros Hs Hc Hp Hr Hf Hv Hpi Hpt Hl Hprev He. unfold CSendAppendEntries. split.
  - unfold LSendAppendEntries, is_u64 in *. raft_view.
    split_and!; try done; try lia; intros ->; by rewrite He.
  - destruct Hc as (_ & _ & Hid).
    split; [by raft_valid_state|]. destruct Hs as (? & ? & ? & ? & _). by raft_valid_msg.
Qed.

Lemma Cstep_down_spec s t :
  view (Cstep_down_if_needed s t) = step_down_if_needed (view s) t
  /\ (valid s -> is_u64 t -> valid (Cstep_down_if_needed s t))
  /\ log (Cstep_down_if_needed s t) = log s.
Proof.
  unfold Cstep_down_if_needed, step_down_if_needed. rewrite clone_state_id. raft_view.
  case_decide; split_and!; try done. intros Hs Ht. by raft_valid_state.
Qed.

Lemma CStepDown_refines s c t :
  valid s -> is_u64 t -> t > current_term s ->
  LStepDown (view s) (view (CStepDown s c t).1) c t (CStepDown s c t).2
  /\ valid_result (CStepDown s c t).
Proof.
  intros Hs Ht Hgt. unfold CStepDown. split; [unfold LStepDown; by raft_view|].
  split; [|done]. by raft_valid_state.
Qed.

Lemma CFollowerAppendEntries_refines s c t l pi pt v p he lc :
  valid s -> valid c -> log_fits s -> valid (AppendEntries t l pi pt v p he lc) ->
  t >= current_term s ->
  LFollowerAppendEntries (view s) (view (CFollowerAppendEntries s c t l pi pt v p he lc).1) c
    t l pi pt v p he lc (CFollowerAppendEntries s c t l pi pt v p he lc).2
  /\ valid_result (CFollowerAppendEntries s c t l pi pt v p he lc).
Proof.
  intros Hs Hc [Hl Hl1]%seq_len_is_u64 (Ht & _ & Hpi & _ & Hv & Hp & Hlc) Hge.
  pose proof (Cstep_down_spec s t) as (Hsd & Hvd & _). specialize (Hvd Hs Ht).
  unfold CFollowerAppendEntries. rewrite u64_add_exact by apply Hl1. split.
  - unfold LFollowerAppendEntries. rewrite <- Hsd. by raft_view.
  - destruct Hc as (_ & _ & Hid), Hvd as (? & ? & _ & _ & ? & _).
    split; [|raft_valid_msg; try done; by destruct he].
    raft_valid_state; try done.
    + destruct he; [|done]. by apply Forall_app_2, Forall_singleton.
    + repeat case_decide; destruct he; repeat case_decide; done.
Qed.

Lemma CHandleAppendResponse_refines s c t mi f :
  valid s -> valid c -> role s = Leader -> f ∈ servers c -> is_u64 mi -> mi <= seq_len (log s) -> log_fits s ->
  LHandleAppendResponse (view s) (view (CHandleAppendResponse s c t true mi f f mi).1) c t true mi f f mi
    (CHandleAppendResponse s c t true mi f f mi).2
  /\ valid_result (CHandleAppendResponse s c t true mi f f mi).
Proof.
  intros Hs Hc Hr Hf Hmi Hle Hfit. unfold log_fits in Hfit.
  assert (is_u64 (mi + 1)) by (unfold is_u64 in *; lia).
  assert (is_u64 f) by by apply Hc.
  unfold CHandleAppendResponse, Cu64_inc. rewrite u64_add_exact by done. split.
  - unfold LHandleAppendResponse, with_indices, u64_inc. rewrite as_u64_id by done.
    raft_view. unfold is_u64 in *. split_and!; try done; lia.
  - split; [|done]. raft_valid_state; try done;
      intros k v [[<- <-]|[_ ?]]%lookup_insert_Some; eauto.
Qed.

Lemma CHandleAppendReject_refines s c t mi f :
  valid s -> valid c -> role s = Leader -> f ∈ servers c ->
  LHandleAppendReject (view s) (view (CHandleAppendReject s c t false mi f f).1) c t false mi f f
    (CHandleAppendReject s c t false mi f f).2
  /\ valid_result (CHandleAppendReject s c t false mi f f).
Proof.
  intros Hs Hc Hr Hf. assert (is_u64 f) by by apply Hc.
  assert (forall n, next_index s !! f = Some n -> n > 0 -> Cu64_dec n = u64_dec n /\ is_u64 (u64_dec n)) as Hd.
  { intros n Hn%Hs Hpos. destruct Hn as [_ [? ?]]. unfold Cu64_dec, u64_dec.
    rewrite as_u64_id, u64_sub_exact; unfold is_u64; lia. }
  unfold CHandleAppendReject. split.
  - unfold LHandleAppendReject, with_indices. by raft_view.
  - split; [|done]. raft_valid_state; try done.
    destruct (next_index s !! f) as [n|]; [|done]. case_decide; [|done].
    destruct (Hd n eq_refl ltac:(done)) as [-> ?].
    intros k v [[<- <-]|[_ ?]]%lookup_insert_Some; eauto.
Qed.

Lemma CAdvanceCommitIndex_refines s c n :
  valid s -> is_u64 n -> role s = Leader -> commit_index s < n <= seq_len (log s) ->
  term (seq_index (log s) (n - 1)) = current_term s ->
  has_active_commit_quorum (view s) c n ->
  commit_interval_stops_at_first_configuration (log s) (commit_index s) n ->
  LAdvanceCommitIndex (view s) (view (CAdvanceCommitIndex s c n).1) c n (CAdvanceCommitIndex s c n).2
  /\ valid_result (CAdvanceCommitIndex s c n).
Proof.
  intros Hs Hu Hr Hn Ht Hq Hi. unfold CAdvanceCommitIndex. split.
  - unfold LAdvanceCommitIndex, with_commit_index. raft_view. split_and!; try done; lia.
  - split; [|done]. by raft_valid_state.
Qed.
End refinement.

(** ** The composite handlers *)

Section handlers.
Implicit Types (s : CState) (c : CConstants).

Lemma Clog_up_to_date_spec s t i : Clog_up_to_date s t i = bool_decide (log_up_to_date (view s) t i).
Proof.
  apply eq_true_iff_eq. unfold Clog_up_to_date, log_up_to_date.
  rewrite orb_true_iff, andb_true_iff, !bool_decide_eq_true. by raft_view.
Qed.

(** Names the state after the step-down, and what is known of it. *)
Ltac step_down s t :=
  let Hsd := fresh "Hsd" in let Hvm := fresh "Hvm" in let Hlm := fresh "Hlm" in
  pose proof (Cstep_down_spec s t) as (Hsd & Hvm & Hlm);
  specialize (Hvm ltac:(assumption) ltac:(assumption)); rewrite <- Hsd;
  assert (log_fits (Cstep_down_if_needed s t)) by (unfold log_fits; by rewrite Hlm);
  generalize dependent (Cstep_down_if_needed s t); intros s_mid.

(** A handler that gives the stepped-down state and no message. *)
Lemma no_reply_valid s : valid s -> valid_result (s, []).
Proof. by split. Qed.

Lemma CHandleRequestVoteMsg_refines s c t cid lli llt :
  valid s -> valid c -> log_fits s -> valid (RequestVote t cid lli llt) ->
  LHandleRequestVoteMsg (view s) (view (CHandleRequestVoteMsg s c t cid lli llt).1) c t cid lli llt
    (CHandleRequestVoteMsg s c t cid lli llt).2
  /\ valid_result (CHandleRequestVoteMsg s c t cid lli llt).
Proof.
  intros Hs Hc Hf (Ht & Hcid & _). unfold CHandleRequestVoteMsg, LHandleRequestVoteMsg.
  step_down s t. intros Hsd Hvm Hlm Hfm. rewrite Clog_up_to_date_spec. raft_view.
  case_decide as Hterm; [by split; [|apply no_reply_valid]|].
  destruct (has_voted s_mid) eqn:Hv; cbn [andb].
  - case_bool_decide as Hcand.
    { rewrite decide_True by done. by split; [|apply no_reply_valid]. }
    rewrite decide_False by tauto. case_bool_decide as Hup; cbn [negb].
    2: { split; [by left|by apply no_reply_valid]. }
    destruct (CGrantVote_refines s_mid c t llt lli cid) as [Hg Hgv]; try done; [right|].
    { by destruct (decide (voted_for s_mid = cid)). }
    split; [by right|done].
  - rewrite decide_False by naive_solver. case_bool_decide as Hup; cbn [negb].
    2: { split; [by left|by apply no_reply_valid]. }
    destruct (CGrantVote_refines s_mid c t llt lli cid) as [Hg Hgv]; try done; [by left|].
    split; [by right|done].
Qed.

Lemma CHandleAppendEntriesMsg_refines s c t l pi pt v p he lc :
  valid s -> valid c -> log_fits s -> valid (AppendEntries t l pi pt v p he lc) ->
  LHandleAppendEntriesMsg (view s) (view (CHandleAppendEntriesMsg s c t l pi pt v p he lc).1) c
    t l pi pt v p he lc (CHandleAppendEntriesMsg s c t l pi pt v p he lc).2
  /\ valid_result (CHandleAppendEntriesMsg s c t l pi pt v p he lc).
Proof.
  intros Hs Hc Hf Hm. assert (is_u64 t) as Ht by apply Hm.
  unfold CHandleAppendEntriesMsg, LHandleAppendEntriesMsg, index_log.
  step_down s t. intros Hsd Hvm Hlm Hfm. raft_view.
  assert (valid_result (s_mid, [AppendResponse (current_term s_mid) false 0 (my_id c)])) as Hrej.
  { destruct Hvm as [? Hvm], Hc as (_ & _ & ?). split; [by split|]. raft_valid_msg; done. }
  case_decide as Hterm; [done|]. case_decide as Hprev; [done|].
  destruct he; cbn [andb].
  - case_bool_decide as Hlen.
    { by rewrite decide_True by done. }
    rewrite decide_False by tauto. apply CFollowerAppendEntries_refines; done.
  - rewrite decide_False by naive_solver. apply CFollowerAppendEntries_refines; done.
Qed.

Lemma CHandleVoteResponseMsg_refines s c t g v vi vt :
  valid s -> valid c -> log_fits s -> valid (VoteResponse t g v vi vt) ->
  LHandleVoteResponseMsg (view s) (view (CHandleVoteResponseMsg s c t g v).1) c t g v
    (CHandleVoteResponseMsg s c t g v).2
  /\ valid_result (CHandleVoteResponseMsg s c t g v).
Proof.
  intros Hs Hc Hf (Ht & Hv & _). unfold CHandleVoteResponseMsg, LHandleVoteResponseMsg.
  step_down s t. intros Hsd Hvm Hlm Hfm. rewrite Chas_active_election_quorum_after_vote_spec. raft_view.
  case_decide as Hr; [by split; [|apply no_reply_valid]|].
  case_decide; [by split; [|apply no_reply_valid]|].
  destruct g; cbn [negb]; [rewrite decide_False by done|by split; [|apply no_reply_valid]].
  case_decide as Hin; [by split; [|apply no_reply_valid]|].
  assert (role s_mid = Candidate) by (destruct (role s_mid); naive_solver).
  assert (v ∈ servers c) by (destruct (decide (v ∈ servers c)); tauto).
  case_bool_decide as Hq.
  - destruct (CReceiveVoteAndBecomeLeader_refines s_mid c t v) as [Hb ?]; try done. split; [by left|done].
  - destruct (CReceiveVoteGranted_refines s_mid c t v) as [Hb ?]; try done. split; [by right|done].
Qed.

Lemma CHandleAppendResponseMsg_refines s c t ok mi f :
  valid s -> valid c -> log_fits s -> valid (AppendResponse t ok mi f) ->
  LHandleAppendResponseMsg (view s) (view (CHandleAppendResponseMsg s c t ok mi f).1) c t ok mi f
    (CHandleAppendResponseMsg s c t ok mi f).2
  /\ valid_result (CHandleAppendResponseMsg s c t ok mi f).
Proof.
  intros Hs Hc Hfit (Ht & Hmi & Hf). unfold CHandleAppendResponseMsg, LHandleAppendResponseMsg.
  step_down s t. intros Hsd Hvm Hlm Hfm. raft_view.
  rewrite !as_u64_id by done. unfold is_u64 in Hmi, Hf.
  case_decide as Hr; [by split; [|apply no_reply_valid]|].
  case_decide as Hin; [by split; [|apply no_reply_valid]|].
  rewrite decide_False by lia.
  assert (role s_mid = Leader) by (destruct (role s_mid); naive_solver).
  assert (f ∈ servers c) by (destruct (decide (f ∈ servers c)); tauto).
  destruct ok.
  - rewrite decide_False by lia. case_decide; [by split; [|apply no_reply_valid]|].
    apply CHandleAppendResponse_refines; done.
  - by apply CHandleAppendReject_refines.
Qed.

(** The message handler refines the protocol's, keeps the state well-formed and
    answers with well-formed messages. *)
Lemma CHandleMessage_refines s c m :
  valid s -> valid c -> log_fits s -> valid m ->
  LHandleMessage (view s) (view (CHandleMessage s c m).1) c m (CHandleMessage s c m).2
  /\ valid_result (CHandleMessage s c m).
Proof.
  intros Hs Hc Hf Hm. destruct m; cbn [CHandleMessage LHandleMessage].
  - by apply CHandleRequestVoteMsg_refines.
  - by eapply CHandleVoteResponseMsg_refines.
  - by apply CHandleAppendEntriesMsg_refines.
  - by apply CHandleAppendResponseMsg_refines.
Qed.

Lemma CTryAdvanceCommitIndex_refines s c n :
  valid s -> valid c -> is_u64 n ->
  (role s = Leader -> commit_index s < n ->
     n <= seq_len (log s) /\ term (seq_index (log s) (n - 1)) = current_term s) ->
  LTryAdvanceCommitIndex (view s) (view (CTryAdvanceCommitIndex s c n).1) c n
    (CTryAdvanceCommitIndex s c n).2
  /\ valid_result (CTryAdvanceCommitIndex s c n).
Proof.
  intros Hs Hc Hn Hreq. unfold CTryAdvanceCommitIndex, LTryAdvanceCommitIndex. rewrite clone_state_id.
  assert (is_u64 (commit_index s)) as Hci by (by destruct Hs as (_ & _ & _ & ? & _)).
  case_decide as Hr.
  { split; [left|by apply no_reply_valid]. raft_view. tauto. }
  apply Decidable.not_or in Hr as [Hrole%dec_stable Hlt].
  destruct (Hreq Hrole) as [Hlen Ht]; [lia|].
  destruct (Ccommit_interval_stops_at_first_configuration s n) eqn:Hi; cbn [negb].
  2: { split; [left|by apply no_reply_valid]. raft_view. split_and!; try done. do 3 right.
       intros Hi'. apply Ccommit_interval_spec in Hi'; [congruence|done|lia|done]. }
  rewrite Chas_active_commit_quorum_spec by (done || apply Hci).
  case_bool_decide as Hq; cbn [negb].
  2: { split; [left|by apply no_reply_valid]. raft_view. tauto. }
  apply Ccommit_interval_spec in Hi; [|done|lia|done].
  destruct (CAdvanceCommitIndex_refines s c n) as [Ha ?]; try done; [lia|].
  split; [right|done]. raft_view. split_and!; try done. lia.
Qed.
End handlers.
