(* ===== verification/RaftHost.v ===== *)
(** * The Raft host

    implementation/Raft/message.rs (the messages on the wire) and host.rs (the
    host of the generic loop: timers, heartbeats, the search for a commit index,
    client requests), with the wire conversions at the end of
    implementation/Raft/membership_helpers.rs. *)

From stdpp Require Import prelude gmap sets list numbers fin_sets.
From Stdlib Require Import ZArith Lia.
From S2P Require Import Prelude.
From S2P Require Import Types.
From S2P Require Import Environment.
From S2P Require Import Marshalling.
From S2P Require Import MarshallingLaws.
From S2P Require Import GenericHost.
From S2P Require Import FieldWire.
From S2P Require Import GenericSystem.
From S2P Require Import RaftTypes.
From S2P Require Import RaftMembership.
From S2P Require Import RaftImpl.

#[local] Open Scope Z_scope.

(** ** message.rs *)

Inductive RaftMessage :=
  | RmRequestVote (term candidate_id last_log_index last_log_term : Z)
  | RmVoteResponse (term : Z) (granted : bool) (voter voter_last_log_index voter_last_log_term : Z)
  | RmAppendEntries (term leader_id prev_log_index prev_log_term value : Z) (payload : CLogValue)
      (has_entry : bool) (leader_commit : Z)
  | RmAppendResponse (term : Z) (success : bool) (match_index follower : Z)
  | RmClientRequest (client_id seq_no value : Z)
  | RmClientResponse (client_id seq_no : Z) (success : bool).

#[export] Instance RaftMessage_eq_dec : EqDecision RaftMessage.
Proof. solve_decision. Defined.

Definition TAG_REQUEST_VOTE : Z := 1.
Definition TAG_VOTE_RESPONSE : Z := 2.
Definition TAG_APPEND_ENTRIES : Z := 3.
Definition TAG_APPEND_RESPONSE : Z := 4.
Definition TAG_CLIENT_REQUEST : Z := 5.
Definition TAG_CLIENT_RESPONSE : Z := 6.

(** [u64::from(&CLogValue)], [CLogValue::from(u64)]. *)
Definition payload_to_wire (payload : CLogValue) : Z :=
  match payload with
  | Data value => value
  | Configuration _ => 0
  end.

Definition payload_from_wire (wire : Z) : CLogValue := Data wire.

(** The fields that a message appends to the buffer, tag first. *)
Definition wire_fields (m : RaftMessage) : list Z :=
  match m with
  | RmRequestVote term candidate_id last_log_index last_log_term =>
      [TAG_REQUEST_VOTE; term; candidate_id; last_log_index; last_log_term]
  | RmVoteResponse term granted voter voter_last_log_index voter_last_log_term =>
      [TAG_VOTE_RESPONSE; term; bool_to_u64 granted; voter; voter_last_log_index; voter_last_log_term]
  | RmAppendEntries term leader_id prev_log_index prev_log_term value payload has_entry leader_commit =>
      [TAG_APPEND_ENTRIES; term; leader_id; prev_log_index; prev_log_term; value;
       payload_to_wire payload; bool_to_u64 has_entry; leader_commit]
  | RmAppendResponse term success match_index follower =>
      [TAG_APPEND_RESPONSE; term; bool_to_u64 success; match_index; follower]
  | RmClientRequest client_id seq_no value => [TAG_CLIENT_REQUEST; client_id; seq_no; value]
  | RmClientResponse client_id seq_no success =>
      [TAG_CLIENT_RESPONSE; client_id; seq_no; bool_to_u64 success]
  end.

Definition raft_serialize_to_bytes (m : RaftMessage) (buf : list Z) : list Z :=
  write_fields (wire_fields m) buf.

Definition raft_deserialize_from_bytes (data : list Z) : option RaftMessage :=
  if decide (seq_len data < 8) then None
  else
    let tag := read_u64 data 0 in
    if decide (tag = TAG_REQUEST_VOTE) then
      if decide (seq_len data < 40) then None
      else Some (RmRequestVote (read_u64 data 8) (read_u64 data 16) (read_u64 data 24) (read_u64 data 32))
    else if decide (tag = TAG_VOTE_RESPONSE) then
      if decide (seq_len data < 48) then None
      else Some (RmVoteResponse (read_u64 data 8) (u64_to_bool (read_u64 data 16)) (read_u64 data 24)
                   (read_u64 data 32) (read_u64 data 40))
    else if decide (tag = TAG_APPEND_ENTRIES) then
      if decide (seq_len data < 72) then None
      else Some (RmAppendEntries (read_u64 data 8) (read_u64 data 16) (read_u64 data 24)
                   (read_u64 data 32) (read_u64 data 40) (payload_from_wire (read_u64 data 48))
                   (u64_to_bool (read_u64 data 56)) (read_u64 data 64))
    else if decide (tag = TAG_APPEND_RESPONSE) then
      if decide (seq_len data < 40) then None
      else Some (RmAppendResponse (read_u64 data 8) (u64_to_bool (read_u64 data 16))
                   (read_u64 data 24) (read_u64 data 32))
    else if decide (tag = TAG_CLIENT_REQUEST) then
      if decide (seq_len data < 32) then None
      else Some (RmClientRequest (read_u64 data 8) (read_u64 data 16) (read_u64 data 24))
    else if decide (tag = TAG_CLIENT_RESPONSE) then
      if decide (seq_len data < 32) then None
      else Some (RmClientResponse (read_u64 data 8) (read_u64 data 16) (u64_to_bool (read_u64 data 24)))
    else None.

#[export] Instance raft_protocol_message : ProtocolMessage RaftMessage :=
  {| serialize_to_bytes := raft_serialize_to_bytes;
     deserialize_from_bytes := raft_deserialize_from_bytes |}.

(** ** host.rs: conversions and configuration *)

Definition to_wire (cm : CRaftMessage) : RaftMessage :=
  match cm with
  | RequestVote term candidate last_log_index last_log_term =>
      RmRequestVote term candidate last_log_index last_log_term
  | VoteResponse term granted voter voter_last_log_index voter_last_log_term =>
      RmVoteResponse term granted voter voter_last_log_index voter_last_log_term
  | AppendEntries term leader prev_index prev_term value payload has_entry leader_commit =>
      RmAppendEntries term leader prev_index prev_term value (clone_payload payload) has_entry
        leader_commit
  | AppendResponse term success match_index follower =>
      RmAppendResponse term success match_index follower
  end.

Definition from_wire (msg : RaftMessage) : option CRaftMessage :=
  match msg with
  | RmRequestVote term candidate_id last_log_index last_log_term =>
      Some (RequestVote term candidate_id last_log_index last_log_term)
  | RmVoteResponse term granted voter voter_last_log_index voter_last_log_term =>
      Some (VoteResponse term granted voter voter_last_log_index voter_last_log_term)
  | RmAppendEntries term leader_id prev_log_index prev_log_term value payload has_entry leader_commit =>
      Some (AppendEntries term leader_id prev_log_index prev_log_term value (clone_payload payload)
              has_entry leader_commit)
  | RmAppendResponse term success match_index follower =>
      Some (AppendResponse term success match_index follower)
  | RmClientRequest _ _ _ | RmClientResponse _ _ _ => None
  end.

Definition ELECTION_TIMEOUT_MIN_MS : Z := 1000.
Definition ELECTION_TIMEOUT_MAX_MS : Z := 2000.
Definition HEARTBEAT_INTERVAL_MS : Z := 100.

(** What a host reads by itself: the clock, in nanoseconds, at the places where
    [next] reads it, and the nanoseconds of the system time. *)
Record RaftAmbient := MkRaftAmbient
  { heartbeat_check : Z;
    heartbeat_now : Z;
    message_now : Z;
    timeout_check : Z;
    timeout_now : Z;
    subsec_nanos : Z }.

(** [instant.elapsed().as_millis()]. *)
Definition elapsed_ms (now instant : Z) : Z := Z.max 0 (now - instant) / 1000000.

Definition random_election_timeout (ns : Z) : Z :=
  ELECTION_TIMEOUT_MIN_MS + ns mod (ELECTION_TIMEOUT_MAX_MS - ELECTION_TIMEOUT_MIN_MS + 1).

Record RaftConfig := MkRaftConfig
  { peers : list EndPoint; my_index : Z; constants : CConstants }.

Definition raft_parse_config (me : EndPoint) (args : Args) : option RaftConfig :=
  if decide (seq_len args < 2) then None
  else
    let '(peers, my_index) := parse_peers me 0 args ([], None) in
    my_index ← my_index;
    let n := seq_len peers in
    let servers := foldl (fun servers i => {[i]} ∪ servers) ∅ (seqZ 0 n) in
    Some (MkRaftConfig peers my_index (MkLConstants servers (n / 2 + 1) my_index)).

(** ** host.rs: the host *)

Record RaftHost := MkRaftHost
  { state : CState;
    client_request_counter : Z;
    last_heartbeat : Z;
    last_heartbeat_sent : Z;
    election_timeout_ms : Z }.

Definition set_state (h : RaftHost) (s : CState) : RaftHost :=
  {| state := s;
     client_request_counter := client_request_counter h;
     last_heartbeat := last_heartbeat h;
     last_heartbeat_sent := last_heartbeat_sent h;
     election_timeout_ms := election_timeout_ms h |}.

(** One turn of [leader_heartbeat]'s loop: the new state and the packet for the
    [i]th peer. *)
Definition heartbeat_to (config : RaftConfig) (i : Z) (s : CState)
  : CState * list (GenericPacket RaftMessage) :=
  let me := my_index config in
  let fid := i in
  if decide (fid = me \/ fid ∉ servers (constants config)) then (s, [])
  else
    let ni := default 0 (next_index s !! fid) in
    let ll := seq_len (log s) in
    let has := bool_decide (ni < ll) in
    let val := if has then value (seq_index (log s) ni) else 0 in
    let payload := if has then clone_payload (payload (seq_index (log s) ni)) else Data 0 in
    let pi := if decide (ni > 0) then ni else 0 in
    let pt := if decide (ni > 0 /\ ni - 1 < ll) then term (seq_index (log s) (ni - 1)) else 0 in
    let '(ns, sent) := CSendAppendEntries s (constants config) fid val payload pi pt has in
    (ns, match sent with
         | [] => []
         | m :: _ =>
             [MkGenericPacket (seq_index (peers config) i) (seq_index (peers config) me) (to_wire m)]
         end).

Fixpoint leader_heartbeat_loop (config : RaftConfig) (idxs : list Z) (s : CState)
    (pkts : list (GenericPacket RaftMessage)) : CState * list (GenericPacket RaftMessage) :=
  match idxs with
  | [] => (s, pkts)
  | i :: idxs =>
      let '(ns, sent) := heartbeat_to config i s in
      leader_heartbeat_loop config idxs ns (pkts ++ sent)
  end.

Definition leader_heartbeat (config : RaftConfig) (s : CState)
  : CState * list (GenericPacket RaftMessage) :=
  leader_heartbeat_loop config (seqZ 0 (seq_len (peers config))) s [].

(** The first loop of [find_commit_index], [steps] short of the log's end. *)
Fixpoint commit_limit_loop (l : list CLogEntry) (index : Z) (steps : nat) : Z :=
  match steps with
  | O => seq_len l
  | S steps =>
      if is_Configuration (payload (seq_index l index)) then index + 1
      else commit_limit_loop l (index + 1) steps
  end.

(** The second loop, at [n = commit_index + steps]. *)
Fixpoint commit_scan (s : CState) (c : CConstants) (steps : nat) : option Z :=
  match steps with
  | O => None
  | S steps' =>
      let n := commit_index s + Z.of_nat steps in
      if decide (term (seq_index (log s) (n - 1)) = current_term s) then
        if Chas_active_commit_quorum s c n then Some n else commit_scan s c steps'
      else commit_scan s c steps'
  end.

Definition find_commit_index (config : RaftConfig) (s : CState) : option Z :=
  let commit_limit :=
    commit_limit_loop (log s) (commit_index s) (Z.to_nat (seq_len (log s) - commit_index s)) in
  commit_scan s (constants config) (Z.to_nat (commit_limit - commit_index s)).

(** [EndPoint { id: Vec::new() }]. *)
Definition no_endpoint : EndPoint := MkEndPoint [].

Definition merge (r : StepResult RaftMessage) (p : list (GenericPacket RaftMessage))
  : StepResult RaftMessage :=
  match p with
  | [] => r
  | _ =>
      let all := p ++ match sr_outbound r with
                      | OutNone => []
                      | OutSend dst msg => [MkGenericPacket dst no_endpoint msg]
                      | OutBroadcast dsts msg => (fun d => MkGenericPacket d no_endpoint msg) <$> dsts
                      | OutSequence packets => packets
                      end in
      MkStepResult true (OutSequence all)
  end.

Definition raft_init (amb : RaftAmbient) (config : RaftConfig) : option RaftHost :=
  Some {| state := CInit (constants config);
          client_request_counter := 0;
          last_heartbeat := message_now amb;
          last_heartbeat_sent := heartbeat_now amb;
          election_timeout_ms := random_election_timeout (subsec_nanos amb) |}.

(** The periodic heartbeats at the start of [next]. *)
Definition periodic_heartbeat (amb : RaftAmbient) (h : RaftHost) (config : RaftConfig)
  : RaftHost * list (GenericPacket RaftMessage) :=
  if decide (role (state h) = Leader
             /\ elapsed_ms (heartbeat_check amb) (last_heartbeat_sent h) >= HEARTBEAT_INTERVAL_MS) then
    let '(s, hb) := leader_heartbeat config (state h) in
    ({| state := s;
        client_request_counter := client_request_counter h;
        last_heartbeat := last_heartbeat h;
        last_heartbeat_sent := heartbeat_now amb;
        election_timeout_ms := election_timeout_ms h |}, hb)
  else (h, []).

(** What [next] does with a packet. *)
Definition on_packet (amb : RaftAmbient) (h : RaftHost) (config : RaftConfig)
    (pkt : GenericPacket RaftMessage) : RaftHost * StepResult RaftMessage :=
  match gp_msg pkt with
  | RmClientRequest client_id seq_no value =>
      let ok := bool_decide (role (state h) = Leader) in
      let h := if ok then set_state h (CClientRequest (state h) (constants config) value).1 else h in
      (h, MkStepResult true (OutSend (gp_src pkt) (RmClientResponse client_id seq_no ok)))
  | _ =>
      match from_wire (gp_msg pkt) with
      | Some cmsg =>
          let old_term := current_term (state h) in
          let old_voted := has_voted (state h) in
          let '(ns, sent) := CHandleMessage (state h) (constants config) cmsg in
          let by_state :=
            bool_decide (current_term ns > old_term) || (negb old_voted && has_voted ns) in
          let reset :=
            match gp_msg pkt with
            | RmAppendEntries term _ _ _ _ _ _ _ => bool_decide (term >= old_term) || by_state
            | _ => by_state
            end in
          ({| state := ns;
              client_request_counter := client_request_counter h;
              last_heartbeat := if reset then message_now amb else last_heartbeat h;
              last_heartbeat_sent := last_heartbeat_sent h;
              election_timeout_ms := election_timeout_ms h |},
           MkStepResult true
             match sent with
             | [] => OutNone
             | m :: _ => OutSend (gp_src pkt) (to_wire m)
             end)
      | None => (h, MkStepResult true OutNone)
      end
  end.

(** The peers that an election is announced to. *)
Definition other_peers (config : RaftConfig) : list EndPoint :=
  (fun i => seq_index (peers config) i)
    <$> filter (fun i => i <> my_index config) (seqZ 0 (seq_len (peers config))).

(** What [next] does when no packet is there; a leader's result still lacks the
    heartbeats. *)
Definition on_timer (amb : RaftAmbient) (h : RaftHost) (config : RaftConfig)
  : RaftHost * StepResult RaftMessage :=
  match role (state h) with
  | Follower | Candidate =>
      if decide (elapsed_ms (timeout_check amb) (last_heartbeat h) >= election_timeout_ms h
                 /\ current_term (state h) < U64_MODULUS - 1) then
        let '(ns, sent) := CTimeout (state h) (constants config) in
        ({| state := ns;
            client_request_counter := client_request_counter h;
            last_heartbeat := timeout_now amb;
            last_heartbeat_sent := last_heartbeat_sent h;
            election_timeout_ms := random_election_timeout (subsec_nanos amb) |},
         MkStepResult true
           match sent with
           | [] => OutNone
           | m :: _ => OutBroadcast (other_peers config) (to_wire m)
           end)
      else (h, MkStepResult true OutNone)
  | Leader =>
      let h :=
        match find_commit_index config (state h) with
        | Some ci => set_state h (CTryAdvanceCommitIndex (state h) (constants config) ci).1
        | None => h
        end in
      (h, MkStepResult true OutNone)
  end.

Definition raft_next (amb : RaftAmbient) (h : RaftHost) (config : RaftConfig)
    (packet : option (GenericPacket RaftMessage)) : RaftHost * StepResult RaftMessage :=
  let '(h, hb) := periodic_heartbeat amb h config in
  match packet with
  | Some pkt => let '(h, r) := on_packet amb h config pkt in (h, merge r hb)
  | None =>
      let '(h', r) := on_timer amb h config in
      (h', match role (state h) with Leader => merge r hb | _ => r end)
  end.

#[export] Instance raft_protocol_host : ProtocolHost RaftAmbient RaftMessage RaftConfig RaftHost :=
  {| parse_config := raft_parse_config;
     get_peers := peers;
     protocol_init := raft_init;
     protocol_next := raft_next |}.

(** * Raft's messages on the wire

    What a host reads from the bytes another host serialized: the message, with
    a configuration payload replaced by the data value 0. *)

(** The fields of a message are machine integers. *)
Definition wire_valid (m : RaftMessage) : Prop := Forall is_u64 (wire_fields m).

(** The message that the receiver reads. *)
Definition received (m : RaftMessage) : RaftMessage :=
  match m with
  | RmAppendEntries term leader_id prev_log_index prev_log_term value payload has_entry leader_commit =>
      RmAppendEntries term leader_id prev_log_index prev_log_term value
        (payload_from_wire (payload_to_wire payload)) has_entry leader_commit
  | _ => m
  end.

Lemma raft_serialize_eq m : raft_serialize_to_bytes m [] = field_bytes (wire_fields m).
Proof. apply write_fields_eq. Qed.

(** A receiver reads what was sent, whatever follows it in the datagram. *)
Lemma raft_roundtrip m rest :
  wire_valid m -> raft_deserialize_from_bytes (raft_serialize_to_bytes m [] ++ rest) = Some (received m).
Proof.
  intros Hm. rewrite raft_serialize_eq. unfold raft_deserialize_from_bytes.
  pose proof (field_bytes_reads (wire_fields m) rest Hm) as H.
  destruct m; cbn [wire_fields received] in *; read_back H.
Qed.

(** A truncated message is not one. *)
Lemma raft_truncated m k :
  wire_valid m -> (k < length (raft_serialize_to_bytes m []))%nat ->
  raft_deserialize_from_bytes (take k (raft_serialize_to_bytes m [])) = None.
Proof.
  intros Hm Hk. rewrite raft_serialize_eq in *. unfold raft_deserialize_from_bytes.
  destruct m; cbn [wire_fields] in *; apply Forall_cons in Hm as [Ht _]; read_truncated Ht Hk.
Qed.

(** ** Conversions *)

Lemma to_wire_from_wire m : from_wire (to_wire m) = Some m.
Proof. destruct m; cbn; by autorewrite with raft_clone. Qed.

Lemma from_wire_to_wire w m : from_wire w = Some m -> w = to_wire m.
Proof. destruct w; cbn; intros [= <-]; cbn; by autorewrite with raft_clone. Qed.

(** The messages that fit the wire: their configurations are lost, so there are
    none. *)
Definition carries_data (m : CRaftMessage) : Prop :=
  match m with
  | AppendEntries _ _ _ _ _ payload _ _ => is_Configuration payload = false
  | _ => True
  end.

Lemma received_to_wire m : carries_data m -> received (to_wire m) = to_wire m.
Proof. destruct m; cbn; try done. by destruct payload. Qed.

Lemma to_wire_valid m : valid m -> wire_valid (to_wire m).
Proof.
  unfold wire_valid. destruct m; cbn [to_wire wire_fields]; intros Hm;
    cbn [valid CRaftMessage_valid] in Hm; destruct_and?; rewrite ?clone_payload_id;
    repeat (apply Forall_cons; split); try apply Forall_nil_2; auto; try done.
  by destruct payload.
Qed.

(** What is read from a datagram is well-formed. *)
Lemma raft_deserialize_valid d m :
  Forall is_u8 d -> raft_deserialize_from_bytes d = Some m -> wire_valid m /\ received m = m.
Proof.
  intros Hd. unfold raft_deserialize_from_bytes.
  repeat (case_decide; try done); intros [= <-]; (split; [|done]).
  all: repeat (apply Forall_cons; split); try apply Forall_nil_2; auto; try done.
  all: apply read_u64_is_u64; (done || lia).
Qed.

Lemma from_wire_valid w m :
  wire_valid w -> received w = w -> from_wire w = Some m -> valid m /\ carries_data m.
Proof.
  unfold wire_valid. destruct w; cbn [wire_fields from_wire]; intros Hw Hr [= <-];
    rewrite ?Forall_cons in Hw; destruct_and?; unfold valid, CRaftMessage_valid;
    rewrite ?clone_payload_id; split_and!; try done.
  all: destruct payload; [done|by injection Hr].
Qed.

(** The messages that are read back as they were written. *)
#[export] Program Instance raft_wire_laws : WireLaws RaftMessage :=
  {| wire_ok := fun m => wire_valid m /\ received m = m |}.
Next Obligation. intros m. cbn. rewrite raft_serialize_eq. apply field_bytes_u8. Qed.
Next Obligation.
  intros m [Hv Hr]. cbn. rewrite <- (app_nil_r (raft_serialize_to_bytes m [])), raft_roundtrip by done.
  by rewrite Hr.
Qed.
Next Obligation. intros d m Hd Hm. by apply (raft_deserialize_valid d). Qed.
