(* ===== verification/RaftCluster.v ===== *)
(** * A cluster of Raft servers

    The hosts started with one list of arguments, and the protocol messages
    between them.  [cluster_step] is one call of a generated function by
    host.rs: a heartbeat to one peer, a client's request, a message, an election
    timeout, an advance of the commit index.  RaftSystem.v shows that hosts that
    exchange datagrams do only such steps. *)

From stdpp Require Import prelude gmap sets list numbers fin_sets.
From Stdlib Require Import ZArith Lia.
From S2P Require Import Prelude.
From S2P Require Import Types.
From S2P Require Import Marshalling.
From S2P Require Import GenericHost.
From S2P Require Import RaftTypes.
From S2P Require Import RaftMembership.
From S2P Require Import RaftProtocol.
From S2P Require Import RaftImpl.
From S2P Require Import RaftHost.

#[local] Open Scope Z_scope.

(** ** Heartbeats *)

(** The message that [leader_heartbeat] makes for the [i]th peer. *)
Definition heartbeat_message (config : RaftConfig) (i : Z) (s : CState) : CRaftMessage :=
  let ni := default 0 (next_index s !! i) in
  let has := bool_decide (ni < seq_len (log s)) in
  AppendEntries (current_term s) (my_id (constants config)) (if decide (ni > 0) then ni else 0)
    (if decide (ni > 0 /\ ni - 1 < seq_len (log s)) then term (seq_index (log s) (ni - 1)) else 0)
    (if has then value (seq_index (log s) ni) else 0)
    (if has then payload (seq_index (log s) ni) else Data 0) has (commit_index s).

Lemma heartbeat_to_eq config i s :
  heartbeat_to config i s
  = (s, if decide (i = my_index config \/ i ∉ servers (constants config)) then []
        else [MkGenericPacket (seq_index (peers config) i) (seq_index (peers config) (my_index config))
                (to_wire (heartbeat_message config i s))]).
Proof.
  unfold heartbeat_to, heartbeat_message. case_decide; [done|].
  unfold CSendAppendEntries. autorewrite with raft_clone.
  destruct s as [ct r hv vf l ci vg ph mi ni]. cbn [log next_index current_term commit_index].
  case_bool_decide; autorewrite with raft_clone; done.
Qed.

(** ** What a message does to a server

    The cases of [CHandleMessage]. *)

Definition message_term (m : CRaftMessage) : Z :=
  match m with
  | RequestVote t _ _ _ | VoteResponse t _ _ _ _ | AppendEntries t _ _ _ _ _ _ _
  | AppendResponse t _ _ _ => t
  end.

(** The part of [s] that a step-down changes. *)
Definition stepped_down (s : CState) (t : Z) : CState := Cstep_down_if_needed s t.

Inductive handled (c : CConstants) (s : CState) : CRaftMessage -> CState -> list CRaftMessage -> Prop :=
  | handled_stay m sent :
      (sent = [] \/ exists t, sent = [AppendResponse t false 0 (my_id c)]) ->
      handled c s m (stepped_down s (message_term m)) sent
  | handled_grant t cid lli llt s' vi vt :
      let mid := stepped_down s t in
      t >= current_term mid ->
      has_voted mid = false \/ voted_for mid = cid ->
      current_term s' = t -> role s' = Follower -> has_voted s' = true -> voted_for s' = cid ->
      log s' = log mid -> commit_index s' = commit_index mid -> match_index s' = match_index mid ->
      handled c s (RequestVote t cid lli llt) s' [VoteResponse t true (my_id c) vi vt]
  | handled_append t l pi pt v p (he : bool) lc s' :
      let mid := stepped_down s t in
      t >= current_term mid ->
      (pi > 0 -> pi <= seq_len (log mid) /\ term (seq_index (log mid) (pi - 1)) = pt) ->
      (he = true -> pi = seq_len (log mid)) ->
      current_term s' = t -> role s' = Follower ->
      has_voted s' = has_voted mid -> voted_for s' = voted_for mid ->
      log s' = (if he then log mid ++ [MkLLogEntry t v p] else log mid) ->
      commit_index s' = (CFollowerAppendEntries mid c t l pi pt v p he lc).1.(commit_index) ->
      match_index s' = match_index mid ->
      handled c s (AppendEntries t l pi pt v p he lc) s'
        [AppendResponse t true (if he then u64_add (seq_len (log mid)) 1 else pi) (my_id c)]
  | handled_vote t v vi vt s' :
      let mid := stepped_down s t in
      role mid = Candidate -> t >= current_term mid -> v ∈ servers c ->
      current_term s' = current_term mid -> role s' = Candidate \/ role s' = Leader ->
      has_voted s' = has_voted mid -> voted_for s' = voted_for mid -> log s' = log mid ->
      commit_index s' = commit_index mid -> votes_granted s' = {[v]} ∪ votes_granted mid ->
      match_index s' = match_index mid \/ match_index s' = ∅ ->
      (role s' = Leader -> Chas_active_election_quorum_after_vote mid c v = true) ->
      handled c s (VoteResponse t true v vi vt) s' []
  | handled_follower t (ok : bool) mi f s' :
      let mid := stepped_down s t in
      role mid = Leader -> f ∈ servers c ->
      current_term s' = current_term mid -> role s' = Leader ->
      has_voted s' = has_voted mid -> voted_for s' = voted_for mid -> log s' = log mid ->
      commit_index s' = commit_index mid -> votes_granted s' = votes_granted mid ->
      match_index s' = (if ok then <[f := mi]> (match_index mid) else match_index mid) ->
      handled c s (AppendResponse t ok mi f) s' [].

Lemma Cstep_down_idem s t :
  Cstep_down_if_needed (Cstep_down_if_needed s t) t = Cstep_down_if_needed s t.
Proof.
  unfold Cstep_down_if_needed at 1. rewrite clone_state_id. rewrite decide_False; [done|].
  unfold Cstep_down_if_needed. rewrite clone_state_id. case_decide; cbn; lia.
Qed.

Lemma CHandleMessage_handled c s m :
  handled c s m (CHandleMessage s c m).1 (CHandleMessage s c m).2.
Proof.
  assert (forall m : CRaftMessage, handled c s m (stepped_down s (message_term m)) []) as Hstay
    by (intros; apply handled_stay; by left).
  assert (forall (m : CRaftMessage) t, handled c s m (stepped_down s (message_term m)) [AppendResponse t false 0 (my_id c)])
    as Hrej by (intros; apply handled_stay; right; eauto).
  destruct m as [t cid lli llt|t g v vi vt|t l pi pt v p he lc|t ok mi f]; cbn [CHandleMessage].
  - unfold CHandleRequestVoteMsg. case_decide; [apply Hstay|].
    destruct (has_voted _ && _) eqn:Hv; [apply Hstay|].
    destruct (negb _); [apply Hstay|].
    eapply handled_grant; try done.
    apply andb_false_iff in Hv as [?|Hv]; [by left|right].
    apply bool_decide_eq_false in Hv. by apply dec_stable.
  - unfold CHandleVoteResponseMsg. case_decide as Hr; [apply Hstay|]. case_decide; [apply Hstay|].
    destruct g; [|apply Hstay]. cbn [negb]. case_decide as Hin; [apply Hstay|].
    destruct (Chas_active_election_quorum_after_vote _ _ _) eqn:Hq.
    + apply handled_vote; try done; [by right|by right].
    + apply handled_vote; try done; [by left|by left|]. cbn. by rewrite Hr.
  - unfold CHandleAppendEntriesMsg. case_decide; [apply Hrej|].
    case_decide as Hp; [apply Hrej|].
    destruct (he && _) eqn:Hhe; [apply Hrej|].
    unfold index_log in Hp. rewrite clone_log_entry_id in Hp.
    apply handled_append; try done.
    + intros Hpi. destruct (decide (pi <= seq_len (log (Cstep_down_if_needed s t)))); [|lia].
      split; [done|]. destruct (decide (term (seq_index (log (Cstep_down_if_needed s t)) (pi - 1)) = pt)); tauto.
    + intros ->. cbn in Hhe. apply bool_decide_eq_false in Hhe. by apply dec_stable.
    + cbn. by rewrite Cstep_down_idem.
    + cbn. by rewrite Cstep_down_idem.
    + cbn. by rewrite clone_payload_id.
  - unfold CHandleAppendResponseMsg. case_decide as Hr; [apply Hstay|]. case_decide as Hin; [apply Hstay|].
    destruct ok; [case_decide; [apply Hstay|]|]; by apply handled_follower.
Qed.

(** ** The commit index search *)

Lemma commit_limit_loop_range l index steps :
  0 <= index -> index + Z.of_nat steps = seq_len l ->
  index <= commit_limit_loop l index steps <= seq_len l
  /\ (forall j, index <= j < commit_limit_loop l index steps - 1 ->
        is_Configuration (payload (seq_index l j)) = false).
Proof.
  revert index. induction steps as [|steps IH]; intros index Hi Hs; cbn [commit_limit_loop];
    [split; [lia|intros; lia]|].
  destruct (is_Configuration _) eqn:Hc; [split; [lia|intros; lia]|].
  destruct (IH (index + 1)) as [Hr Hd]; [lia|lia|]. split; [lia|].
  intros j Hj. destruct (decide (j = index)) as [->|]; [done|]. apply Hd. lia.
Qed.

Lemma commit_scan_spec s c steps n :
  commit_scan s c steps = Some n ->
  commit_index s < n <= commit_index s + Z.of_nat steps
  /\ term (seq_index (log s) (n - 1)) = current_term s
  /\ Chas_active_commit_quorum s c n = true.
Proof.
  induction steps as [|steps IH]; cbn [commit_scan]; [done|].
  case_decide as Ht;
    [destruct (Chas_active_commit_quorum s c (commit_index s + Z.of_nat (S steps))) eqn:Hq|].
  - intros [= <-]. split_and!; [lia|lia|done|done].
  - intros H%IH. destruct H as (? & ? & ?). split_and!; [lia|lia|done|done].
  - intros H%IH. destruct H as (? & ? & ?). split_and!; [lia|lia|done|done].
Qed.

Lemma commit_scan_none s c steps n :
  commit_scan s c steps = None -> commit_index s < n <= commit_index s + Z.of_nat steps ->
  ~ (term (seq_index (log s) (n - 1)) = current_term s /\ Chas_active_commit_quorum s c n = true).
Proof.
  induction steps as [|steps IH]; cbn [commit_scan]; [lia|]. intros Hscan Hn [Ht Hq].
  destruct (decide (n = commit_index s + Z.of_nat (S steps))) as [He|Hne].
  - rewrite <- He in Hscan. rewrite decide_True, Hq in Hscan by done. done.
  - apply IH; [|lia|done]. case_decide; [|done].
    by destruct (Chas_active_commit_quorum s c (commit_index s + Z.of_nat (S steps))).
Qed.

Lemma commit_scan_highest s c steps n n' :
  commit_scan s c steps = Some n -> n < n' <= commit_index s + Z.of_nat steps ->
  ~ (term (seq_index (log s) (n' - 1)) = current_term s /\ Chas_active_commit_quorum s c n' = true).
Proof.
  induction steps as [|steps IH]; cbn [commit_scan]; [done|]. intros Hscan Hn [Ht Hq].
  destruct (decide (n' = commit_index s + Z.of_nat (S steps))) as [He|Hne].
  - rewrite <- He in Hscan. rewrite decide_True, Hq in Hscan by done. injection Hscan as <-. lia.
  - apply IH; [|lia|done]. case_decide; [|done].
    destruct (Chas_active_commit_quorum s c (commit_index s + Z.of_nat (S steps))); [|done].
    injection Hscan as <-. lia.
Qed.

Lemma find_commit_index_spec config s n :
  0 <= commit_index s <= seq_len (log s) ->
  find_commit_index config s = Some n ->
  commit_index s < n <= seq_len (log s)
  /\ term (seq_index (log s) (n - 1)) = current_term s
  /\ Chas_active_commit_quorum s (constants config) n = true
  /\ commit_interval_stops_at_first_configuration (log s) (commit_index s) n.
Proof.
  intros Hci H. unfold find_commit_index in H.
  destruct (commit_limit_loop_range (log s) (commit_index s)
    (Z.to_nat (seq_len (log s) - commit_index s))) as [Hl Hd]; [lia|lia|].
  apply commit_scan_spec in H as ([? ?] & ? & ?).
  split_and!; try done; try lia. split_and!; try lia. intros index Hi. apply Hd. lia.
Qed.

(** The interval up to a commit index is legal exactly when the index is within
    the first loop's limit. *)
Lemma commit_limit_loop_boundary l index steps :
  0 <= index -> index + Z.of_nat steps = seq_len l ->
  commit_limit_loop l index steps = seq_len l
  \/ index < commit_limit_loop l index steps
     /\ is_Configuration (payload (seq_index l (commit_limit_loop l index steps - 1))) = true.
Proof.
  revert index. induction steps as [|steps IH]; intros index Hi Hs; cbn [commit_limit_loop]; [by left|].
  destruct (is_Configuration _) eqn:Hc; [right|destruct (IH (index + 1)) as [?|[? ?]]; try lia; auto with lia].
  replace (index + 1 - 1) with index by lia. split; [lia|done].
Qed.

(** What the leader may commit: an entry of its own term that a quorum holds,
    with no configuration before it in the interval. *)
Definition committable (s : CState) (c : CConstants) (n : Z) : Prop :=
  commit_index s < n <= seq_len (log s)
  /\ term (seq_index (log s) (n - 1)) = current_term s
  /\ has_active_commit_quorum (view s) c n
  /\ commit_interval_stops_at_first_configuration (log s) (commit_index s) n.

Lemma committable_limit s c n :
  0 <= commit_index s <= seq_len (log s) -> committable s c n ->
  n <= commit_limit_loop (log s) (commit_index s) (Z.to_nat (seq_len (log s) - commit_index s)).
Proof.
  intros Hci (Hn & _ & _ & _ & _ & _ & Hb).
  destruct (commit_limit_loop_boundary (log s) (commit_index s)
    (Z.to_nat (seq_len (log s) - commit_index s))) as [->|[Hlt Hc]]; [lia|lia|lia|].
  destruct (decide (n <= commit_limit_loop (log s) (commit_index s) (Z.to_nat (seq_len (log s) - commit_index s))));
    [done|]. rewrite Hb in Hc; [done|lia].
Qed.

(** The guards of the advance pass on what the search gives. *)
Lemma advance_passes s c n :
  role s = Leader -> is_u64 (commit_index s) -> commit_index s < n <= seq_len (log s) -> is_u64 n ->
  Chas_active_commit_quorum s c n = true ->
  commit_interval_stops_at_first_configuration (log s) (commit_index s) n ->
  CTryAdvanceCommitIndex s c n = CAdvanceCommitIndex s c n.
Proof.
  intros Hr Hci Hn Hu Hq Hb. unfold CTryAdvanceCommitIndex. rewrite decide_False by (rewrite Hr; intuition lia).
  apply Ccommit_interval_spec in Hb; [|done..]. rewrite Hb, Hq. done.
Qed.

(** ** Configurations *)

Section cluster.
Context (args : Args).
Local Abbreviation endpoints := (endpoints args).
Local Abbreviation num_servers := (num_servers args).
Local Abbreviation ep := (ep args).


Definition ids : gset Z := list_to_set (seqZ 0 num_servers).

(** The configuration of a host, and the index that it takes. *)
Definition config_of (e : EndPoint) : option RaftConfig := raft_parse_config e args.
Definition id (e : EndPoint) : Z := from_option my_index 0 (config_of e).
Definition consts (e : EndPoint) : CConstants := MkLConstants ids (num_servers / 2 + 1) (id e).

Lemma elem_of_ids i : i ∈ ids <-> 0 <= i < num_servers.
Proof. unfold ids. rewrite elem_of_list_to_set, elem_of_seqZ. lia. Qed.

Lemma size_ids : set_len ids = num_servers.
Proof.
  unfold set_len, ids, num_servers. rewrite size_list_to_set by apply NoDup_seqZ.
  rewrite length_seqZ. pose proof (seq_len_nonneg args). lia.
Qed.

Lemma config_of_spec e cfg :
  config_of e = Some cfg ->
  peers cfg = endpoints /\ ep (id e) = e /\ id e ∈ ids
  /\ my_index cfg = id e /\ constants cfg = consts e.
Proof.
  intros Hc. unfold consts, id. rewrite Hc. cbn. revert Hc. unfold config_of, raft_parse_config.
  case_decide; [done|].
  destruct (parse_peers_all args e) as (Hp & Hk & _). destruct (parse_peers e 0 args ([], None)) as [ps k].
  cbn in *. destruct k as [k|]; [|done]. cbn. intros [= <-]. cbn.
  destruct (Hk k eq_refl) as [Hrange Hep]. rewrite elem_of_ids.
  subst ps. rewrite seq_len_endpoints. split_and!; try done; try lia. f_equal.
  unfold ids. apply set_eq. intros x. rewrite elem_of_list_to_set.
  assert (forall l (X : gset Z), x ∈ foldl (fun r i => {[i]} ∪ r) X l <-> x ∈ X \/ x ∈ l) as Hf.
  { induction l as [|i l IH]; intros X; cbn; [set_solver|]. rewrite IH. set_solver. }
  rewrite Hf. set_solver.
Qed.

Lemma config_of_exists e : 2 <= num_servers -> e ∈ endpoints -> is_Some (config_of e).
Proof.
  intros Hn He. unfold config_of, raft_parse_config. fold num_servers. rewrite decide_False by lia.
  destruct (parse_peers_all args e) as (_ & _ & Hin). destruct (parse_peers e 0 args ([], None)) as [ps k]. cbn in *.
  destruct k as [k|]; [|by destruct Hin]. cbn. by eexists.
Qed.

(** ** Steps *)

Record Cluster := MkCluster
  { cl_servers : gmap EndPoint CState;
    cl_messages : list (EndPoint * EndPoint * CRaftMessage) }.

(** What the server at [e] does: from [s], to a state, sending messages. *)
Inductive action (cl : Cluster) (e : EndPoint) (s : CState)
  : CState -> list (EndPoint * EndPoint * CRaftMessage) -> Prop :=
  | action_heartbeat cfg i :
      config_of e = Some cfg -> role s = Leader -> i ∈ ids ->
      action cl e s s [(e, ep i, heartbeat_message cfg i s)]
  | action_client v :
      role s = Leader -> is_u64 v ->
      action cl e s (CClientRequest s (consts e) v).1 []
  | action_message src m :
      (src, e, m) ∈ cl_messages cl ->
      action cl e s (CHandleMessage s (consts e) m).1
        ((fun m' => (e, src, m')) <$> (CHandleMessage s (consts e) m).2)
  | action_timeout dsts :
      role s <> Leader -> current_term s < U64_MODULUS - 1 ->
      (forall d, d ∈ dsts -> d ∈ endpoints) ->
      action cl e s (CTimeout s (consts e)).1
        (m ← (CTimeout s (consts e)).2; (fun d => (e, d, m)) <$> dsts)
  | action_advance cfg n :
      config_of e = Some cfg -> role s = Leader -> find_commit_index cfg s = Some n ->
      action cl e s (CTryAdvanceCommitIndex s (consts e) n).1 [].

Inductive cluster_step (cl : Cluster) : Cluster -> Prop :=
  | do_action e s s' new :
      cl_servers cl !! e = Some s ->
      action cl e s s' new ->
      log_fits s' ->
      cluster_step cl (MkCluster (<[e := s']> (cl_servers cl)) (new ++ cl_messages cl)).

Definition cluster_init : Cluster :=
  MkCluster (gset_to_gmap (CInit (consts no_endpoint)) (list_to_set endpoints)) [].

Inductive cluster_reachable : Cluster -> Prop :=
  | cluster_reachable_init : cluster_reachable cluster_init
  | cluster_reachable_step cl cl' :
      cluster_reachable cl -> cluster_step cl cl' -> cluster_reachable cl'.
End cluster.
