(* ===== verification/RaftInvariants.v ===== *)
(** * Invariants of a Raft cluster

    Well-formed states and messages ([wf]: 64-bit fields, logs of data entries,
    commit indices within the log), and votes ([votes_inv]: a server votes once
    per term, and a candidate's votes were cast for it), which every step keeps. *)

From stdpp Require Import prelude gmap sets list numbers fin_sets.
From Stdlib Require Import ZArith Lia.
From S2P Require Import Prelude.
From S2P Require Import Types.
From S2P Require Import Marshalling.
From S2P Require Import GenericHost.
From S2P Require Import FieldWire.
From S2P Require Import RaftTypes.
From S2P Require Import RaftMembership.
From S2P Require Import RaftProtocol.
From S2P Require Import RaftImpl.
From S2P Require Import RaftHost.
From S2P Require Import RaftCluster.

#[local] Open Scope Z_scope.

Definition data_only (l : list LLogEntry) : Prop :=
  Forall (fun x => is_Configuration (payload x) = false) l.

(** ** What every action does to a server *)

Section local.
Implicit Types (s : CState) (c : CConstants).

Lemma stepped_down_spec s t :
  log (stepped_down s t) = log s
  /\ commit_index (stepped_down s t) = commit_index s
  /\ match_index (stepped_down s t) = match_index s
  /\ ((t > current_term s /\ current_term (stepped_down s t) = t
       /\ role (stepped_down s t) = Follower /\ has_voted (stepped_down s t) = false)
      \/ (t <= current_term s /\ stepped_down s t = s)).
Proof.
  unfold stepped_down, Cstep_down_if_needed. rewrite clone_state_id.
  case_decide; cbn; split_and!; try done; [left|right]; split_and!; (done || lia).
Qed.

Lemma stepped_down_not_follower s t :
  role (stepped_down s t) <> Follower -> stepped_down s t = s.
Proof. destruct (stepped_down_spec s t) as (_ & _ & _ & [(_ & _ & Hr & _)|[_ H]]); [by rewrite Hr|done]. Qed.

Lemma handled_grows c s m s' sent :
  handled c s m s' sent ->
  log s `prefix_of` log s' /\ current_term s <= current_term s' /\ message_term m <= current_term s'.
Proof.
  intros H. destruct (stepped_down_spec s (message_term m)) as (Hl & _ & _ & Ht).
  assert (current_term s <= current_term (stepped_down s (message_term m))) as Hmid.
  { destruct Ht as [(? & -> & _)|(_ & ->)]; lia. }
  assert (message_term m <= current_term (stepped_down s (message_term m))) as Hmt.
  { destruct Ht as [(? & -> & _)|(? & ->)]; lia. }
  destruct H; cbn [message_term] in *; try subst mid;
    repeat match goal with
    | Hx : log s' = _ |- _ => rewrite Hx; clear Hx
    | Hx : current_term s' = _ |- _ => rewrite Hx; clear Hx
    end; rewrite ?Hl; split_and!; try done; try lia.
  destruct he; [by apply prefix_app_r|done].
Qed.
End local.

(** ** Well-formedness *)

Section invariants.
Context (args : Args) (Hmin : 2 <= num_servers args) (Hmax : num_servers args <= ISIZE_MAX).
Local Abbreviation ids := (ids args).
Local Abbreviation ep := (ep args).
Local Abbreviation id := (id args).
Local Abbreviation consts := (consts args).
Local Abbreviation endpoints := (endpoints args).
Implicit Types (cl : Cluster) (e src dst : EndPoint) (s : CState) (m : CRaftMessage).

Lemma id_in_ids e : e ∈ endpoints -> id e ∈ ids.
Proof. intros He. destruct (config_of_exists args e Hmin He) as [cfg Hc]. by destruct (config_of_spec args e cfg Hc) as (_ & ? & ? & _). Qed.

Lemma ep_id e : e ∈ endpoints -> ep (id e) = e.
Proof. intros He. destruct (config_of_exists args e Hmin He) as [cfg Hc]. by destruct (config_of_spec args e cfg Hc) as (_ & ? & ? & _). Qed.

Lemma id_inj e e' : e ∈ endpoints -> e' ∈ endpoints -> id e = id e' -> e = e'.
Proof. intros He He' Hid. by rewrite <- (ep_id e He), <- (ep_id e' He'), Hid. Qed.

Lemma ids_is_u64 i : i ∈ ids -> is_u64 i.
Proof. rewrite elem_of_ids. unfold is_u64, ISIZE_MAX, U64_MODULUS in *. lia. Qed.

Lemma consts_valid e : e ∈ endpoints -> valid (consts e).
Proof.
  intros He. split_and!; cbn.
  - apply ids_is_u64.
  - unfold is_u64, ISIZE_MAX, U64_MODULUS in *. pose proof (Z.div_le_upper_bound (num_servers args) 2 (num_servers args)).
    pose proof (Z.div_pos (num_servers args) 2). lia.
  - by apply ids_is_u64, id_in_ids.
Qed.

Record wf cl : Prop := MkWf
  { wf_dom : forall e, is_Some (cl_servers cl !! e) <-> e ∈ endpoints;
    wf_state : forall e s, cl_servers cl !! e = Some s ->
      valid s /\ log_fits s /\ data_only (log s) /\ commit_index s <= seq_len (log s);
    wf_msg : forall src dst m, (src, dst, m) ∈ cl_messages cl ->
      src ∈ endpoints /\ dst ∈ endpoints /\ valid m /\ carries_data m }.

Lemma wf_endpoint cl e s : wf cl -> cl_servers cl !! e = Some s -> e ∈ endpoints.
Proof. intros [Hd _ _] Hs. apply Hd. by eexists. Qed.

Lemma wf_commit_range cl e s :
  wf cl -> cl_servers cl !! e = Some s -> 0 <= commit_index s <= seq_len (log s).
Proof.
  intros Hwf Hs. destruct (wf_state cl Hwf e s Hs) as (Hv & _ & _ & ?).
  destruct Hv as (_ & _ & _ & [? _] & _). lia.
Qed.

Lemma data_only_index l i : data_only l -> is_Configuration (payload (seq_index l i)) = false.
Proof.
  intros Hl. unfold seq_index. destruct (seq_get l i) as [x|] eqn:Hx; [|done].
  apply seq_get_elem_of in Hx. unfold data_only in Hl. rewrite Forall_forall in Hl. by apply Hl.
Qed.

Lemma heartbeat_message_wf cfg i s e :
  config_of args e = Some cfg -> e ∈ endpoints -> valid s -> data_only (log s) ->
  valid (heartbeat_message cfg i s) /\ carries_data (heartbeat_message cfg i s).
Proof.
  intros Hcfg He Hs Hd. apply config_of_spec in Hcfg as (_ & _ & _ & _ & Hcc).
  pose proof (consts_valid e He) as (_ & _ & Hid).
  destruct Hs as (Ht & _ & Hl & Hci & _ & _ & _ & Hn).
  assert (is_u64 (default 0 (next_index s !! i))) as Hni.
  { destruct (next_index s !! i) as [n|] eqn:Hnx; cbn; [by destruct (Hn _ _ Hnx)|done]. }
  assert (forall j, 0 <= j < seq_len (log s) -> valid (seq_index (log s) j)) as Hidx.
  { intros j Hj. rewrite Forall_forall in Hl. apply Hl. by apply seq_index_elem_of. }
  unfold heartbeat_message. rewrite Hcc. destruct Hni as [Hni1 Hni2]. split.
  - unfold valid, CRaftMessage_valid. split_and!; try done.
    + by case_decide.
    + case_decide as Hpos; [|done]. apply Hidx. lia.
    + case_bool_decide; [|done]. apply Hidx. lia.
    + case_bool_decide; [|done]. apply Hidx. lia.
  - cbn. case_bool_decide; [|done]. by apply data_only_index.
Qed.

(** A rule's new state and messages are well-formed. *)
Definition wf_result e s' (new : list (EndPoint * EndPoint * CRaftMessage)) : Prop :=
  valid s' /\ data_only (log s') /\ commit_index s' <= seq_len (log s')
  /\ forall src dst m, (src, dst, m) ∈ new ->
       src = e /\ dst ∈ endpoints /\ valid m /\ carries_data m.

Lemma action_message_wf cl e s src m :
  wf cl -> cl_servers cl !! e = Some s -> (src, e, m) ∈ cl_messages cl ->
  wf_result e (CHandleMessage s (consts e) m).1
    ((fun m' => (e, src, m')) <$> (CHandleMessage s (consts e) m).2).
Proof.
  intros Hwf Hs Hm. destruct (wf_state cl Hwf e s Hs) as (Hv & Hf & Hd & Hci).
  destruct (wf_msg cl Hwf src e m Hm) as (Hsrc & He & Hvm & Hcm).
  pose proof (CHandleMessage_handled (consts e) s m) as Hh.
  destruct (CHandleMessage_refines s (consts e) m Hv (consts_valid e He) Hf Hvm) as [_ [Hv' Hsent]].
  destruct (CHandleMessage s (consts e) m) as [s' sent]. cbn [fst snd] in *.
  destruct (stepped_down_spec s (message_term m)) as (Hlm & Hcm' & _ & _).
  split_and!; [done|..].
  - destruct Hh; cbn [message_term] in *; try subst mid;
      try (match goal with Hx : log s' = _ |- _ => rewrite Hx end); rewrite ?Hlm; try done.
    destruct he; [|done]. by apply Forall_app_2, Forall_singleton.
  - destruct Hh; cbn [message_term] in *; try subst mid;
      repeat (match goal with
              | Hx : log s' = _ |- _ => rewrite Hx
              | Hx : commit_index s' = _ |- _ => rewrite Hx
              end); rewrite ?Hlm, ?Hcm'; try done.
    cbn [CFollowerAppendEntries fst commit_index]. rewrite Hcm', Hlm in *.
    pose proof (seq_len_nonneg (log s)).
    rewrite u64_add_exact by (unfold log_fits in Hf; lia).
    destruct he; [rewrite seq_len_app; change (seq_len [_]) with 1|]; repeat case_decide; try lia.
  - intros src' dst m' Hin. apply list_elem_of_fmap in Hin as (m0 & [= -> -> ->] & Hin).
    rewrite Forall_forall in Hsent. split_and!; try done; [by apply Hsent|].
    destruct Hh; try (by apply not_elem_of_nil in Hin); try (by apply list_elem_of_singleton in Hin as ->).
    destruct H as [->|[t ->]]; [by apply not_elem_of_nil in Hin|by apply list_elem_of_singleton in Hin as ->].
Qed.
Lemma action_wf cl e s s' new :
  wf cl -> cl_servers cl !! e = Some s -> action args cl e s s' new -> wf_result e s' new.
Proof.
  intros Hwf Hs Ha. destruct (wf_state cl Hwf e s Hs) as (Hv & Hf & Hd & Hci).
  pose proof (wf_endpoint cl e s Hwf Hs) as He. pose proof (consts_valid e He) as Hc.
  destruct Ha as [cfg i Hcfg Hr Hi|v Hr Hv'|src m Hm|dsts Hr Ht Hdsts|cfg n Hcfg Hr Hn].
  - split_and!; try done. intros src dst m [= -> -> ->]%list_elem_of_singleton.
    destruct (heartbeat_message_wf cfg i s e Hcfg He Hv Hd). split_and!; try done.
    by apply ep_in_endpoints, elem_of_ids.
  - destruct (CClientRequest_refines s (consts e) v Hv Hr Hv') as [_ [? _]].
    split_and!; try done; cbn.
    + by apply Forall_app_2, Forall_singleton.
    + rewrite seq_len_app. change (seq_len [_]) with 1. lia.
    + by intros ??? ?%not_elem_of_nil.
  - by apply (action_message_wf cl).
  - destruct (CTimeout_refines s (consts e) Hv Hc Hf Hr Ht) as [_ [? Hm]].
    split_and!; try done. intros src dst m Hin.
    apply list_elem_of_bind in Hin as (m' & Hin & Hm').
    apply list_elem_of_fmap in Hin as (d & [= -> -> ->] & Hin).
    rewrite Forall_forall in Hm. split_and!; [done|by apply Hdsts|by apply Hm|].
    cbn in Hm'. by apply list_elem_of_singleton in Hm' as ->.
  - pose proof (wf_commit_range cl e s Hwf Hs) as Hrange.
    destruct (find_commit_index_spec cfg s n Hrange Hn) as (Hlt & Hterm & _).
    assert (is_u64 n) as Hu by (unfold log_fits, is_u64 in *; lia).
    destruct (CTryAdvanceCommitIndex_refines s (consts e) n Hv Hc Hu) as [_ [? _]]; [intros _ _; split; [lia|done]|].
    assert (forall l, log (CTryAdvanceCommitIndex s (consts e) n).1 = l -> l = log s) as Hl.
    { intros l <-. unfold CTryAdvanceCommitIndex. rewrite clone_state_id.
      by repeat (case_match; cbn). }
    specialize (Hl _ eq_refl).
    split_and!; try done; [by rewrite Hl| |by intros ??? ?%not_elem_of_nil].
    rewrite Hl. unfold CTryAdvanceCommitIndex. rewrite clone_state_id.
    repeat (case_match; cbn); lia.
Qed.

Lemma wf_init : wf (cluster_init args).
Proof.
  split; cbn.
  - intros e. rewrite <- (elem_of_list_to_set (C := gset EndPoint)). split.
    + intros [s [? _]%lookup_gset_to_gmap_Some]. done.
    + intros He. eexists. by apply lookup_gset_to_gmap_Some.
  - intros e s [_ <-]%lookup_gset_to_gmap_Some.
    destruct (CInit_refines (consts no_endpoint)) as [? _]. split_and!; [done|done|by constructor|done].
  - by intros ??? ?%not_elem_of_nil.
Qed.

Lemma wf_step cl cl' : wf cl -> cluster_step args cl cl' -> wf cl'.
Proof.
  intros Hwf [e s s' new Hs Ha Hfit].
  destruct (action_wf cl e s s' new Hwf Hs Ha) as (Hv & Hd & Hci & Hnew).
  pose proof (wf_endpoint cl e s Hwf Hs) as He. split; cbn.
  - intros e'. rewrite lookup_insert_is_Some, <- (wf_dom cl Hwf). split.
    + intros [<-|[_ ?]]; [by eexists|done].
    + intros ?. destruct (decide (e = e')); auto.
  - intros e' s'' [[<- <-]|[_ ?]]%lookup_insert_Some; [done|by apply (wf_state cl Hwf e')].
  - intros src dst m [Hin|Hin]%elem_of_app; [|by apply (wf_msg cl Hwf)].
    by apply Hnew in Hin as (-> & ? & ? & ?).
Qed.

(** ** Growth *)

Lemma action_grows cl e s s' new :
  action args cl e s s' new -> current_term s < U64_MODULUS -> 0 <= current_term s ->
  log s `prefix_of` log s' /\ current_term s <= current_term s'.
Proof.
  intros Ha Ht Ht0. destruct Ha; try done.
  - by split; [apply prefix_app_r|].
  - pose proof (CHandleMessage_handled (consts e) s m) as Hh. by apply handled_grows in Hh as (? & ? & _).
  - cbn. rewrite u64_add_exact by lia. split; [done|lia].
  - unfold CTryAdvanceCommitIndex. rewrite clone_state_id. by repeat (case_match; cbn).
Qed.
(** ** Votes *)

(** A vote cast in a term is not changed in that term. *)
Definition votes_kept s s' : Prop :=
  current_term s <= current_term s'
  /\ (current_term s' = current_term s -> has_voted s = true ->
      has_voted s' = true /\ voted_for s' = voted_for s).

Lemma votes_kept_refl s : votes_kept s s.
Proof. by split. Qed.

Lemma votes_kept_cast s s' t x :
  votes_kept s s' ->
  t <= current_term s /\ (current_term s = t -> has_voted s = true /\ voted_for s = x) ->
  t <= current_term s' /\ (current_term s' = t -> has_voted s' = true /\ voted_for s' = x).
Proof.
  intros [Hle Hk] [Ht Hv]. split; [lia|]. intros He.
  destruct Hv as [Hv Hx]; [lia|]. destruct Hk as [? ->]; [lia|done|]. done.
Qed.

Lemma handled_votes_kept c s m s' sent : handled c s m s' sent -> votes_kept s s'.
Proof.
  intros H. split; [by apply handled_grows in H as (_ & ? & _)|]. intros Hct Hv.
  destruct (stepped_down_spec s (message_term m)) as (_ & _ & _ & Ht).
  assert (current_term s' = current_term s -> stepped_down s (message_term m) = s) as Hmid.
  { intros _. destruct Ht as [(Hgt & _)|[_ Ht]]; [|done].
    apply handled_grows in H as (_ & _ & ?). lia. }
  specialize (Hmid Hct).
  destruct H; cbn [message_term] in *; try subst mid; rewrite Hmid in *;
    repeat match goal with
    | Hx : has_voted s' = _ |- _ => rewrite Hx; clear Hx
    | Hx : voted_for s' = _ |- _ => rewrite Hx; clear Hx
    end; try done.
  match goal with Hx : has_voted s = false \/ _ |- _ => destruct Hx; [congruence|done] end.
Qed.

Lemma action_votes_kept cl e s s' new :
  action args cl e s s' new -> is_u64 (current_term s) -> votes_kept s s'.
Proof.
  intros Ha [? ?]. destruct Ha; try apply votes_kept_refl; try by split.
  - by eapply handled_votes_kept, CHandleMessage_handled.
  - unfold votes_kept. cbn. rewrite u64_add_exact by lia. split; lia.
  - unfold CTryAdvanceCommitIndex. rewrite clone_state_id. by repeat (case_match; cbn).
Qed.

(** What an election rests on, after an action. *)
Lemma action_held cl e s s' new :
  wf cl -> cl_servers cl !! e = Some s ->
  action args cl e s s' new -> role s' <> Follower ->
  (role s <> Follower /\ current_term s' = current_term s /\ has_voted s' = has_voted s
   /\ voted_for s' = voted_for s
   /\ forall v, v ∈ votes_granted s' -> v ∈ votes_granted s
        \/ exists src g vi vt, (src, e, VoteResponse (current_term s) g v vi vt) ∈ cl_messages cl)
  \/ (role s' = Candidate /\ current_term s' = current_term s + 1
      /\ has_voted s' = true /\ voted_for s' = id e /\ votes_granted s' = {[id e]}).
Proof.
  intros Hwf Hs Ha Hr. destruct (wf_state cl Hwf e s Hs) as ([Hct _] & _).
  destruct Ha as [cfg i Hcfg Hl Hi|v Hl Hv'|src m Hm|dsts Hl Ht Hdsts|cfg n Hcfg Hl Hn].
  - left. split_and!; auto.
  - left. split_and!; auto.
  - left. pose proof (CHandleMessage_handled (consts e) s m) as Hh.
    destruct (CHandleMessage s (consts e) m) as [s' sent]. cbn [fst snd] in *.
    pose proof (stepped_down_not_follower s (message_term m)) as Hmid.
    destruct Hh as [m sent _| | |t v vi vt s'|t ok mi f s']; cbn [message_term] in *; try congruence.
    + rewrite Hmid in * by done. split_and!; auto.
    + subst mid.
      assert (t <= current_term s).
      { destruct (stepped_down_spec s t) as (_ & _ & _ & [(_ & _ & ? & _)|[? _]]); [congruence|done]. }
      rewrite Hmid in * by congruence. rewrite H8.
      split_and!; try congruence. intros v' [->%elem_of_singleton|?]%elem_of_union; [right|by left].
      replace (current_term s) with t by lia. eauto.
    + subst mid. rewrite Hmid in * by congruence. split_and!; try congruence.
      intros v. by replace (votes_granted s') with (votes_granted s); left.
  - right. cbn. rewrite u64_add_exact by (unfold is_u64 in Hct; lia).
    by rewrite union_empty_r_L.
  - left. revert Hr. unfold CTryAdvanceCommitIndex. rewrite clone_state_id.
    repeat (case_match; cbn); intros; split_and!; auto.
Qed.

Record votes_inv cl : Prop := MkVotesInv
  { vi_request : forall src dst t c lli llt,
      (src, dst, RequestVote t c lli llt) ∈ cl_messages cl -> c = id src;
    vi_cast : forall src dst t g v vi vt,
      (src, dst, VoteResponse t g v vi vt) ∈ cl_messages cl ->
      v = id src /\ exists s, cl_servers cl !! src = Some s
        /\ t <= current_term s
        /\ (current_term s = t -> has_voted s = true /\ voted_for s = id dst);
    vi_once : forall src d1 d2 t g1 v1 vi1 vt1 g2 v2 vi2 vt2,
      (src, d1, VoteResponse t g1 v1 vi1 vt1) ∈ cl_messages cl ->
      (src, d2, VoteResponse t g2 v2 vi2 vt2) ∈ cl_messages cl -> d1 = d2;
    vi_held : forall e s, cl_servers cl !! e = Some s -> role s <> Follower ->
      has_voted s = true /\ voted_for s = id e
      /\ forall v, v ∈ votes_granted s -> v = id e
           \/ exists src g vi vt,
                (src, e, VoteResponse (current_term s) g v vi vt) ∈ cl_messages cl }.

(** The vote and request messages that an action sends. *)
Lemma action_new_request cl e s s' new src dst t c lli llt :
  action args cl e s s' new -> (src, dst, RequestVote t c lli llt) ∈ new -> src = e /\ c = id e.
Proof.
  intros Ha Hin. destruct Ha as [cfg i| |src' m' ?|dsts|].
  - by apply list_elem_of_singleton in Hin.
  - by apply not_elem_of_nil in Hin.
  - apply list_elem_of_fmap in Hin as (m & [= -> -> <-] & Hin).
    destruct (CHandleMessage_handled (consts e) s m') as [? ? [->|[? ->]]| | | |];
      first [by apply not_elem_of_nil in Hin | by apply list_elem_of_singleton in Hin].
  - apply list_elem_of_bind in Hin as (m & Hin & Hm).
    apply list_elem_of_fmap in Hin as (d & [= -> -> <-] & Hin).
    cbn in Hm. by apply list_elem_of_singleton in Hm as [= -> -> -> ->].
  - by apply not_elem_of_nil in Hin.
Qed.

Lemma action_new_vote cl e s s' new src dst t g v vi vt :
  action args cl e s s' new -> (src, dst, VoteResponse t g v vi vt) ∈ new ->
  src = e /\ v = id e /\ current_term s' = t /\ role s' = Follower /\ has_voted s' = true
  /\ (exists c lli llt, (dst, e, RequestVote t c lli llt) ∈ cl_messages cl /\ voted_for s' = c)
  /\ (forall d g' v' vi' vt', (e, d, VoteResponse t g' v' vi' vt') ∈ new -> d = dst).
Proof.
  intros Ha Hin. destruct Ha as [cfg i| |src' m' Hm'|dsts|].
  - by apply list_elem_of_singleton in Hin.
  - by apply not_elem_of_nil in Hin.
  - apply list_elem_of_fmap in Hin as (m & [= -> -> <-] & Hin).
    destruct (CHandleMessage_handled (consts e) s m') as [? ? [->|[? ->]]| | | |];
      try (by apply not_elem_of_nil in Hin); apply list_elem_of_singleton in Hin as [= -> -> -> -> ->].
    split_and!; try done; [by eauto 10|].
    intros d ???? Hd. apply list_elem_of_fmap in Hd as (m & Hd & _). congruence.
  - apply list_elem_of_bind in Hin as (m & Hin & Hm).
    apply list_elem_of_fmap in Hin as (d & [= -> -> <-] & Hin).
    cbn in Hm. by apply list_elem_of_singleton in Hm.
  - by apply not_elem_of_nil in Hin.
Qed.
(** A vote in a message agrees with what its voter remembers. *)
Lemma vi_cast_mono cl cl' src t x s :
  (forall e s, cl_servers cl !! e = Some s ->
     exists s', cl_servers cl' !! e = Some s' /\ votes_kept s s') ->
  cl_servers cl !! src = Some s ->
  t <= current_term s /\ (current_term s = t -> has_voted s = true /\ voted_for s = x) ->
  exists s', cl_servers cl' !! src = Some s' /\ t <= current_term s'
    /\ (current_term s' = t -> has_voted s' = true /\ voted_for s' = x).
Proof.
  intros Hk Hs Ht. destruct (Hk src s Hs) as (s' & Hs' & Hks).
  exists s'. split; [done|]. by eapply votes_kept_cast.
Qed.

Lemma step_votes_kept cl e s s' new :
  wf cl -> cl_servers cl !! e = Some s -> action args cl e s s' new ->
  forall e0 s0, cl_servers cl !! e0 = Some s0 ->
    exists s0', <[e := s']> (cl_servers cl) !! e0 = Some s0' /\ votes_kept s0 s0'.
Proof.
  intros Hwf Hs Ha e0 s0 Hs0. destruct (wf_state cl Hwf e s Hs) as ([Hct _] & _).
  destruct (decide (e = e0)) as [->|Hne].
  - exists s'. rewrite lookup_insert_eq. split; [done|]. simplify_eq.
    by eapply action_votes_kept.
  - exists s0. rewrite lookup_insert_ne by done. split; [done|apply votes_kept_refl].
Qed.

Lemma votes_inv_init : votes_inv (cluster_init args).
Proof.
  split; cbn; try by (intros; exfalso; eapply not_elem_of_nil).
  intros e s [_ <-]%lookup_gset_to_gmap_Some. done.
Qed.

Lemma votes_inv_step cl cl' :
  wf cl -> votes_inv cl -> cluster_step args cl cl' -> votes_inv cl'.
Proof.
  intros Hwf Hvi [e s s' new Hs Ha Hfit].
  pose proof (step_votes_kept cl e s s' new Hwf Hs Ha) as Hkept.
  pose proof (wf_endpoint cl e s Hwf Hs) as He.
  split; cbn.
  - intros src dst t c lli llt [Hin|Hin]%elem_of_app; [|by eapply vi_request].
    by destruct (action_new_request cl e s s' new src dst t c lli llt Ha Hin) as [-> ->].
  - intros src dst t g v vi vt [Hin|Hin]%elem_of_app.
    + destruct (action_new_vote cl e s s' new _ _ _ _ _ _ _ Ha Hin)
        as (-> & -> & Ht & _ & Hv & (c & lli & llt & Hreq & Hvf) & _).
      split; [done|]. exists s'. rewrite lookup_insert_eq. split; [done|]. split; [lia|].
      intros _. split; [done|]. rewrite Hvf. by eapply vi_request.
    + destruct (vi_cast cl Hvi _ _ _ _ _ _ _ Hin) as (-> & s0 & Hs0 & Hc). split; [done|].
      by eapply (vi_cast_mono cl (MkCluster _ (new ++ cl_messages cl))).
  - assert (forall d1 d2 t g1 v1 vi1 vt1 g2 v2 vi2 vt2,
      (e, d1, VoteResponse t g1 v1 vi1 vt1) ∈ new ->
      (e, d2, VoteResponse t g2 v2 vi2 vt2) ∈ cl_messages cl -> d1 = d2) as Hnewold.
    { intros d1 d2 t g1 v1 vi1 vt1 g2 v2 vi2 vt2 Hin Hin2.
      destruct (action_new_vote cl e s s' new _ _ _ _ _ _ _ Ha Hin)
        as (_ & _ & Ht & _ & Hv & (c & lli & llt & Hreq & Hvf) & _).
      destruct (vi_cast cl Hvi _ _ _ _ _ _ _ Hin2) as (_ & s0 & Hs0 & Hc).
      destruct (vi_cast_mono cl (MkCluster (<[e := s']> (cl_servers cl)) []) e t (id d2) s0 Hkept Hs0 Hc)
        as (s1 & Hs1 & _ & Hc1).
      cbn in Hs1. rewrite lookup_insert_eq in Hs1. injection Hs1 as <-.
      destruct (Hc1 Ht) as [_ Hc2]. rewrite Hvf in Hc2.
      rewrite (vi_request cl Hvi _ _ _ _ _ _ Hreq) in Hc2.
      apply id_inj; [by destruct (wf_msg cl Hwf _ _ _ Hreq)| |done].
      by destruct (wf_msg cl Hwf _ _ _ Hin2) as (_ & ? & _). }
    intros src d1 d2 t g1 v1 vi1 vt1 g2 v2 vi2 vt2 [Hin|Hin]%elem_of_app [Hin2|Hin2]%elem_of_app.
    + destruct (action_new_vote cl e s s' new _ _ _ _ _ _ _ Ha Hin2) as (-> & _ & _ & _ & _ & _ & Hu).
      by eapply Hu.
    + destruct (action_new_vote cl e s s' new _ _ _ _ _ _ _ Ha Hin) as (-> & _). by eapply Hnewold.
    + destruct (action_new_vote cl e s s' new _ _ _ _ _ _ _ Ha Hin2) as (-> & _). symmetry. by eapply Hnewold.
    + by eapply vi_once.
  - intros e0 s0 Hs0 Hr. apply lookup_insert_Some in Hs0 as [[<- <-]|[_ Hs0]].
    + destruct (action_held cl e s s' new Hwf Hs Ha Hr)
        as [(Hr0 & Hct & Hv & Hvf & Hvotes)|(_ & _ & Hv & Hvf & Hvotes)].
      * destruct (vi_held cl Hvi e s Hs Hr0) as (Hv0 & Hvf0 & Hheld).
        split_and!; [congruence|congruence|]. rewrite Hct. intros v [Hin|Hin]%Hvotes.
        -- apply Hheld in Hin as [?|(src & g & vi & vt & ?)]; [by left|right].
           exists src, g, vi, vt. apply elem_of_app. by right.
        -- right. destruct Hin as (src & g & vi & vt & ?). exists src, g, vi, vt. apply elem_of_app. by right.
      * split_and!; [done|done|]. rewrite Hvotes. intros v ->%elem_of_singleton. by left.
    + destruct (vi_held cl Hvi e0 s0 Hs0 Hr) as (Hv0 & Hvf0 & Hheld). split_and!; [done|done|].
      intros v [?|(src & g & vi & vt & ?)]%Hheld; [by left|right].
      exists src, g, vi, vt. apply elem_of_app. by right.
Qed.
End invariants.
