(* ===== verification/RaftSafety.v ===== *)
(** * Safety of a Raft cluster

    One leader per term, matching logs, and agreement on what is committed.  The
    invariants speak of a ghost map from terms to the leader of the term and its
    log, which exists for every reachable cluster. *)

From stdpp Require Import prelude gmap sets list numbers fin_sets.
From Stdlib Require Import ZArith Lia.
From S2P Require Import Prelude.
From S2P Require Import Types.
From S2P Require Import Marshalling.
From S2P Require Import GenericHost.
From S2P Require Import FieldWire.
From S2P Require Import RaftTypes.
From S2P Require Import RaftMembership.
From S2P Require Import RaftProtocol.
From S2P Require Import RaftImpl.
From S2P Require Import RaftHost.
From S2P Require Import RaftCluster.
From S2P Require Import RaftInvariants.

#[local] Open Scope Z_scope.

(** ** Configurations without reconfiguration *)

Lemma data_only_prefix_phase l n init : data_only l -> phase_of_prefix l n init = init.
Proof.
  intros Hl. induction n as [|n IH]; cbn [phase_of_prefix]; [done|].
  pose proof (data_only_index l (Z.of_nat n) Hl) as Hd.
  by destruct (payload (seq_index l (Z.of_nat n))).
Qed.

Lemma data_only_phase l n init :
  data_only l -> active_membership_phase_from_raft_log l n init = init.
Proof.
  intros Hl. unfold active_membership_phase_from_raft_log.
  case_decide; [done|by apply data_only_prefix_phase].
Qed.

(** ** Agreement of logs *)

(** The entries say the same, in whatever terms. *)
Definition same_content (x y : LLogEntry) : Prop := value x = value y /\ payload x = payload y.

(** The first [n] entries of two logs exist and say the same. *)
Definition agree (l1 l2 : list LLogEntry) (n : Z) : Prop :=
  forall i, 0 <= i < n ->
    exists x y, seq_get l1 i = Some x /\ seq_get l2 i = Some y /\ same_content x y.

Lemma seq_get_prefix (l l' : list LLogEntry) i x :
  l `prefix_of` l' -> seq_get l i = Some x -> seq_get l' i = Some x.
Proof. unfold seq_get. intros Hp. case_decide; [|done]. intros Hx. by eapply prefix_lookup_Some. Qed.

Lemma seq_get_last (l : list LLogEntry) x : seq_get (l ++ [x]) (seq_len l) = Some x.
Proof. unfold seq_len. rewrite seq_get_of_nat. by apply list_lookup_middle. Qed.

Lemma agree_le l1 l2 n n' : n' <= n -> agree l1 l2 n -> agree l1 l2 n'.
Proof. intros Hn H i Hi. apply H. lia. Qed.

Lemma agree_refl l n : n <= seq_len l -> agree l l n.
Proof.
  intros Hn i Hi. destruct (seq_get_range_Some l i) as [x Hx]; [lia|].
  exists x, x. by split_and!.
Qed.

Lemma agree_sym l1 l2 n : agree l1 l2 n -> agree l2 l1 n.
Proof.
  intros H i Hi. destruct (H i Hi) as (x & y & Hx & Hy & Hv & Hp).
  exists y, x. by split_and!.
Qed.

Lemma agree_trans l1 l2 l3 n : agree l1 l2 n -> agree l2 l3 n -> agree l1 l3 n.
Proof.
  intros H H' i Hi. destruct (H i Hi) as (x & y & Hx & Hy & Hv & Hp).
  destruct (H' i Hi) as (y' & z & Hy' & Hz & Hv' & Hp').
  exists x, z. rewrite Hy in Hy'. injection Hy' as <-. split_and!; try done. split; congruence.
Qed.

Lemma agree_prefix l1 l2 l1' l2' n :
  l1 `prefix_of` l1' -> l2 `prefix_of` l2' -> agree l1 l2 n -> agree l1' l2' n.
Proof.
  intros H1 H2 H i Hi. destruct (H i Hi) as (x & y & Hx & Hy & Hs).
  exists x, y. split_and!; try done; by eapply seq_get_prefix.
Qed.

Lemma agree_snoc l1 l2 x y n :
  n = seq_len l1 -> agree l1 l2 n -> seq_get l2 n = Some y -> same_content x y ->
  agree (l1 ++ [x]) l2 (n + 1).
Proof.
  intros -> H Hy Hs i Hi. destruct (decide (i = seq_len l1)) as [->|Hne].
  - exists x, y. by rewrite seq_get_last.
  - apply (agree_prefix l1 l2 _ _ (seq_len l1)); [by apply prefix_app_r|done|done|lia].
Qed.

Lemma agree_len l1 l2 n : agree l1 l2 n -> n <= seq_len l1 /\ n <= seq_len l2.
Proof.
  intros H. destruct (decide (n <= 0)).
  { pose proof (seq_len_nonneg l1). pose proof (seq_len_nonneg l2). lia. }
  destruct (H (n - 1)) as (x & y & Hx & Hy & _); [lia|].
  apply seq_get_Some_range in Hx, Hy. lia.
Qed.

Section safety.
Context (args : Args) (Hmin : 2 <= num_servers args) (Hmax : num_servers args <= ISIZE_MAX).
Local Abbreviation ids := (ids args).
Local Abbreviation ep := (ep args).
Local Abbreviation id := (id args).
Local Abbreviation consts := (consts args).
Local Abbreviation endpoints := (endpoints args).
Local Abbreviation wf := (wf args).
Local Abbreviation votes_inv := (votes_inv args).
Local Abbreviation action := (action args).
Local Abbreviation Ghost := (gmap Z (EndPoint * list LLogEntry)).
Implicit Types (cl : Cluster) (e src dst : EndPoint) (s : CState) (m : CRaftMessage) (G : Ghost).

Lemma ids_majority : is_majority_of ids ids.
Proof.
  split_and!; [rewrite size_ids; lia|done|]. rewrite size_ids.
  pose proof (Z.mul_div_le (num_servers args) 2). lia.
Qed.

(** ** Elections *)

Lemma election_quorum s e v :
  data_only (log s) ->
  Chas_active_election_quorum_after_vote s (consts e) v = true ->
  is_majority_of ({[v]} ∪ votes_granted s) ids.
Proof.
  intros Hd Hq. rewrite Chas_active_election_quorum_after_vote_spec in Hq.
  apply bool_decide_eq_true in Hq. unfold has_active_election_quorum_after_vote in Hq.
  unfold election_membership_phase_for_state in Hq. rewrite data_only_phase in Hq by done.
  cbn in Hq. by rewrite (union_comm_L {[v]}).
Qed.

Lemma action_roles cl e s s' new :
  wf cl -> cl_servers cl !! e = Some s -> action cl e s s' new ->
  (role s' = Candidate -> current_term s' = current_term s -> role s = Candidate)
  /\ (role s' = Leader -> current_term s' = current_term s
      /\ (role s = Leader
          \/ (role s = Candidate /\ log s' = log s /\ is_majority_of (votes_granted s') ids))).
Proof.
  intros Hwf Hs Ha. destruct (wf_state args cl Hwf e s Hs) as ([Hct _] & _ & Hd & _).
  destruct Ha as [cfg i Hcfg Hl Hi|v Hl Hv'|src m Hm|dsts Hl Ht Hdsts|cfg n Hcfg Hl Hn].
  - split; auto.
  - cbn. split; auto.
  - pose proof (CHandleMessage_handled (consts e) s m) as Hh.
    destruct (CHandleMessage s (consts e) m) as [s' sent]. cbn [fst snd] in *.
    pose proof (stepped_down_not_follower s (message_term m)) as Hmid.
    destruct Hh as [m sent _| | |t v vi vt s'|t ok mi f s']; cbn [message_term] in *;
      try (subst mid); split; intros Hr; try congruence.
    + by rewrite Hmid in Hr by congruence.
    + rewrite Hmid in * by congruence. auto.
    + rewrite Hmid in * by congruence. auto.
    + rewrite Hmid in * by congruence. split; [done|]. right. split_and!; [done..|].
      rewrite H8. by apply (election_quorum s e); [|apply H10].
    + rewrite Hmid in * by congruence. auto.
  - cbn. split; [|done]. rewrite u64_add_exact by (unfold is_u64 in Hct; lia). lia.
  - unfold CTryAdvanceCommitIndex. rewrite clone_state_id.
    repeat (case_match; cbn); split; auto.
Qed.

(** The votes that made [e] the leader of term [t]. *)
Definition winner cl (t : Z) e : Prop :=
  exists Q, is_majority_of Q ids
    /\ forall v, v ∈ Q -> v = id e
         \/ exists src g vi vt, (src, e, VoteResponse t g v vi vt) ∈ cl_messages cl.

Record leaders_inv cl G : Prop := MkLeadersInv
  { li_positive : forall e s, cl_servers cl !! e = Some s -> role s <> Follower -> 1 <= current_term s;
    li_leader : forall e s, cl_servers cl !! e = Some s -> role s = Leader ->
      G !! current_term s = Some (e, log s);
    li_term : forall t e l, G !! t = Some (e, l) ->
      1 <= t /\ winner cl t e
      /\ exists s, cl_servers cl !! e = Some s /\ t <= current_term s /\ l `prefix_of` log s
           /\ (current_term s = t -> role s <> Candidate /\ has_voted s = true /\ voted_for s = id e);
    li_self : forall t e l dst g v vi vt, G !! t = Some (e, l) ->
      (e, dst, VoteResponse t g v vi vt) ∈ cl_messages cl -> dst = e }.

(** A candidate that collects a majority is the first leader of its term. *)
Lemma elected_fresh cl G e s Q :
  wf cl -> votes_inv cl -> leaders_inv cl G ->
  cl_servers cl !! e = Some s -> role s = Candidate -> is_majority_of Q ids ->
  (forall v, v ∈ Q -> v = id e
     \/ exists src g vi vt, (src, e, VoteResponse (current_term s) g v vi vt) ∈ cl_messages cl) ->
  G !! current_term s = None.
Proof.
  intros Hwf Hvi Hli Hs Hr Hmaj Hvotes.
  destruct (G !! current_term s) as [[e' l]|] eqn:HG; [exfalso|done].
  destruct (li_term cl G Hli _ _ _ HG) as (_ & (Q' & Hmaj' & Hvotes') & s' & Hs' & _ & _ & Hsame).
  pose proof (wf_endpoint args cl e s Hwf Hs) as He.
  pose proof (wf_endpoint args cl e' s' Hwf Hs') as He'.
  destruct (vi_held args cl Hvi e s Hs) as (Hv & Hvf & _); [by rewrite Hr|].
  assert (e' <> e) as Hne.
  { intros ->. simplify_eq. by destruct Hsame as [? _]. }
  destruct (is_majority_of_meet ids Q Q' Hmaj Hmaj') as (v & Hq & Hq').
  apply Hvotes in Hq. apply Hvotes' in Hq'.
  destruct Hq as [->|(src & g & vi & vt & Hq)], Hq' as [Hid|(src' & g' & vi' & vt' & Hq')].
  - by apply Hne, (id_inj args Hmin).
  - destruct (vi_cast args cl Hvi _ _ _ _ _ _ _ Hq') as (Hid & s0 & Hs0 & _ & Hc).
    destruct (wf_msg args cl Hwf _ _ _ Hq') as (Hsrc & _).
    assert (e = src') as <- by (by apply (id_inj args Hmin)).
    rewrite Hs in Hs0. injection Hs0 as <-.
    destruct (Hc eq_refl) as [_ Hc']. rewrite Hvf in Hc'.
    by apply Hne, (id_inj args Hmin).
  - destruct (vi_cast args cl Hvi _ _ _ _ _ _ _ Hq) as (Hid' & _).
    destruct (wf_msg args cl Hwf _ _ _ Hq) as (Hsrc & _).
    assert (src = e') as -> by (apply (id_inj args Hmin); [done|done|congruence]).
    by apply Hne; symmetry; apply (li_self cl G Hli _ _ _ _ _ _ _ _ HG Hq).
  - destruct (vi_cast args cl Hvi _ _ _ _ _ _ _ Hq) as (Hid & _).
    destruct (vi_cast args cl Hvi _ _ _ _ _ _ _ Hq') as (Hid' & _).
    destruct (wf_msg args cl Hwf _ _ _ Hq) as (Hsrc & _).
    destruct (wf_msg args cl Hwf _ _ _ Hq') as (Hsrc' & _).
    assert (src' = src) as -> by (apply (id_inj args Hmin); [done|done|congruence]).
    by apply Hne, (vi_once args cl Hvi _ _ _ _ _ _ _ _ _ _ _ _ Hq' Hq).
Qed.
Definition ghost_after G e s' : Ghost :=
  if decide (role s' = Leader) then <[current_term s' := (e, log s')]> G else G.

(** A leader's log in the ghost map only grows. *)
Definition ghost_grows G G' : Prop :=
  forall t e l, G !! t = Some (e, l) -> exists l', G' !! t = Some (e, l') /\ l `prefix_of` l'.

Lemma ghost_after_grows cl G e s s' new :
  wf cl -> votes_inv cl -> leaders_inv cl G -> cl_servers cl !! e = Some s ->
  action cl e s s' new -> ghost_grows G (ghost_after G e s').
Proof.
  intros Hwf Hvi Hli Hs Ha t e0 l HG. unfold ghost_after. case_decide as Hr; [|by exists l].
  destruct (decide (t = current_term s')) as [->|Hne].
  2: { exists l. by rewrite lookup_insert_ne. }
  rewrite lookup_insert_eq.
  destruct (wf_state args cl Hwf e s Hs) as ([[? ?] _] & _).
  destruct (action_grows args cl e s s' new Ha) as [Hgrow _]; [done|done|].
  destruct (action_roles cl e s s' new Hwf Hs Ha) as [_ Hlead].
  destruct (Hlead Hr) as [Hct [Hr0|(Hr0 & Hlog & Hmaj)]]; rewrite Hct in HG.
  - rewrite (li_leader cl G Hli e s Hs Hr0) in HG. injection HG as <- <-. by exists (log s').
  - rewrite (elected_fresh cl G e s _ Hwf Hvi Hli Hs Hr0 Hmaj) in HG; [done|].
    destruct (action_held args cl e s s' new Hwf Hs Ha) as [(Hx & Hct' & _ & _ & Hv)|(Hx & _)];
      [by rewrite Hr| |congruence].
    intros v [Hin|?]%Hv; [|by right].
    destruct (vi_held args cl Hvi e s Hs Hx) as (_ & _ & Hheld). by apply Hheld.
Qed.

Lemma winner_mono cl cl' t e :
  (forall x, x ∈ cl_messages cl -> x ∈ cl_messages cl') -> winner cl t e -> winner cl' t e.
Proof.
  intros Hm (Q & Hq & Hv). exists Q. split; [done|].
  intros v [?|(src & g & vi & vt & ?)]%Hv; [by left|right]. exists src, g, vi, vt. by apply Hm.
Qed.

Lemma leaders_inv_init : leaders_inv (cluster_init args) ∅.
Proof. by split; cbn; [intros e s [_ <-]%lookup_gset_to_gmap_Some..| |]. Qed.

Lemma leaders_inv_step cl G e s s' new :
  let cl' := MkCluster (<[e := s']> (cl_servers cl)) (new ++ cl_messages cl) in
  wf cl -> votes_inv cl -> wf cl' -> votes_inv cl' -> leaders_inv cl G ->
  cl_servers cl !! e = Some s -> action cl e s s' new -> leaders_inv cl' (ghost_after G e s').
Proof.
  intros cl' Hwf Hvi Hwf' Hvi' Hli Hs Ha.
  destruct (wf_state args cl Hwf e s Hs) as ([Hu _] & _). pose proof Hu as [? ?].
  destruct (action_grows args cl e s s' new Ha) as [Hgrow Hmono]; [done|done|].
  destruct (action_roles cl e s s' new Hwf Hs Ha) as [Hcand Hlead].
  pose proof (action_votes_kept args cl e s s' new Ha Hu) as [_ Hkept].
  assert (cl_servers cl' !! e = Some s') as Hs' by (cbn; by rewrite lookup_insert_eq).
  assert (role s' <> Follower -> 1 <= current_term s') as Hpos.
  { intros Hr. destruct (action_held args cl e s s' new Hwf Hs Ha Hr) as [(Hr0 & -> & _)|(_ & -> & _)];
      [by apply (li_positive cl G Hli e s)|lia]. }
  assert (forall x, x ∈ cl_messages cl -> x ∈ cl_messages cl') as Hmsgs
    by (intros; cbn; apply elem_of_app; by right).
  assert (role s' = Leader -> has_voted s' = true /\ voted_for s' = id e /\ winner cl' (current_term s') e)
    as Hwin.
  { intros Hr. destruct (vi_held args cl' Hvi' e s' Hs') as (Hv & Hvf & Hheld); [by rewrite Hr|].
    split_and!; [done|done|]. destruct (Hlead Hr) as [Hct [Hr0|(_ & _ & Hmaj)]].
    - destruct (li_term cl G Hli _ _ _ (li_leader cl G Hli e s Hs Hr0)) as (_ & Hw & _).
      rewrite Hct. by apply (winner_mono cl).
    - by exists (votes_granted s'). }
  split.
  - cbn. intros e0 s0 [[<- <-]|[_ ?]]%lookup_insert_Some; [done|]. by apply (li_positive cl G Hli e0).
  - cbn. intros e0 s0 Hs0 Hr. unfold ghost_after.
    apply lookup_insert_Some in Hs0 as [[<- <-]|[Hne Hs0]].
    { rewrite decide_True by done. by rewrite lookup_insert_eq. }
    pose proof (li_leader cl G Hli e0 s0 Hs0 Hr) as HG.
    destruct (ghost_after_grows cl G e s s' new Hwf Hvi Hli Hs Ha _ _ _ HG) as (l' & HG' & _).
    unfold ghost_after in HG'. case_decide as Hr'; [|done].
    destruct (decide (current_term s0 = current_term s')) as [He|Hne'].
    + rewrite He, lookup_insert_eq in HG'. congruence.
    + by rewrite lookup_insert_ne.
  - intros t e0 l HG.
    assert (t = current_term s' /\ role s' = Leader /\ e0 = e /\ l = log s' \/ G !! t = Some (e0, l)) as HG0.
    { unfold ghost_after in HG. case_decide as Hr; [|by right].
      apply lookup_insert_Some in HG as [[<- [= <- <-]]|[_ HG]]; [by left|by right]. }
    destruct HG0 as [(-> & Hr & -> & ->)|HG0].
    { destruct (Hwin Hr) as (Hv & Hvf & Hw). split_and!; [apply Hpos; by rewrite Hr|done|].
      exists s'. split_and!; try done. intros _. by rewrite Hr. }
    destruct (li_term cl G Hli _ _ _ HG0) as (Ht & Hw & s0 & Hs0 & Hts & Hp & Hsame).
    split_and!; [done|by apply (winner_mono cl)|].
    destruct (decide (e0 = e)) as [->|Hne].
    2: { exists s0. cbn. rewrite lookup_insert_ne by done. done. }
    rewrite Hs in Hs0. injection Hs0 as <-. exists s'. split_and!; [done|lia|by etrans|].
    intros He. destruct Hsame as (Hr & Hv & Hvf); [lia|]. destruct Hkept as [? Hvf']; [lia|done|].
    split_and!; [|done|congruence]. intros Hr'. apply Hr, Hcand; [done|lia].
  - cbn. intros t e0 l dst g v vi vt HG Hin.
    assert (t = current_term s' /\ role s' = Leader /\ e0 = e \/ exists l0, G !! t = Some (e0, l0)) as HG0.
    { unfold ghost_after in HG. case_decide as Hr; [|right; eauto].
      apply lookup_insert_Some in HG as [[<- [= <- <-]]|[_ HG]]; [by left|right; eauto]. }
    destruct (wf_msg args cl' Hwf' _ _ _ Hin) as (He0 & Hdst & _).
    destruct (vi_cast args cl' Hvi' _ _ _ _ _ _ _ Hin) as (_ & s0 & Hs0 & Hts & Hc).
    destruct HG0 as [(-> & Hr & ->)|[l0 HG0]].
    { rewrite Hs' in Hs0. injection Hs0 as <-. destruct (Hc eq_refl) as [_ Hc'].
      destruct (Hwin Hr) as (_ & Hvf & _). apply (id_inj args Hmin); [done|done|congruence]. }
    apply elem_of_app in Hin as [Hin|Hin]; [|by apply (li_self cl G Hli _ _ _ _ _ _ _ _ HG0 Hin)].
    destruct (action_new_vote args cl e s s' new _ _ _ _ _ _ _ Ha Hin) as (-> & _ & Ht & _ & Hv' & _).
    rewrite Hs' in Hs0. injection Hs0 as <-. destruct (Hc Ht) as [_ Hc'].
    destruct (li_term cl G Hli _ _ _ HG0) as (_ & _ & s1 & Hs1 & Hts1 & _ & Hsame).
    rewrite Hs in Hs1. injection Hs1 as <-.
    destruct Hsame as (_ & Hv & Hvf); [lia|]. destruct Hkept as [_ Hvf']; [lia|done|].
    apply (id_inj args Hmin); [done|done|congruence].
Qed.
(** ** Log matching *)

(** The entry [x] of the log [l] at [i] is the one of the leader of its term,
    and so is the term of the entry before it. *)
Definition from_leader G (l : list LLogEntry) (i : Z) (x : LLogEntry) : Prop :=
  exists e' l' y, G !! term x = Some (e', l') /\ seq_get l' i = Some y /\ same_content x y
    /\ (0 < i -> exists x' y', seq_get l (i - 1) = Some x' /\ seq_get l' (i - 1) = Some y'
                  /\ term x' = term y').

Definition logs_matched cl G : Prop :=
  forall e s i x, cl_servers cl !! e = Some s -> seq_get (log s) i = Some x -> from_leader G (log s) i x.

Lemma from_leader_mono G G' l l' i x :
  ghost_grows G G' -> l `prefix_of` l' -> from_leader G l i x -> from_leader G' l' i x.
Proof.
  intros HG Hl (e & g & y & Hg & Hy & Hs & Hp).
  destruct (HG _ _ _ Hg) as (g' & Hg' & Hpre).
  exists e, g', y. split_and!; try done; [by eapply seq_get_prefix|].
  intros Hi. destruct (Hp Hi) as (x' & y' & Hx' & Hy' & Ht).
  exists x', y'. split_and!; try done; by eapply seq_get_prefix.
Qed.

(** Two logs with an entry of one term at one place agree up to it. *)
Lemma matching_logs cl G e1 s1 e2 s2 i x1 x2 :
  logs_matched cl G -> cl_servers cl !! e1 = Some s1 -> cl_servers cl !! e2 = Some s2 ->
  seq_get (log s1) i = Some x1 -> seq_get (log s2) i = Some x2 -> term x1 = term x2 ->
  agree (log s1) (log s2) (i + 1).
Proof.
  intros Hm Hs1 Hs2 Hx1 Hx2 Ht.
  assert (0 <= i) as Hi by by apply seq_get_Some_range in Hx1 as [? _].
  revert x1 x2 Hx1 Hx2 Ht. pattern i. apply Z_lt_induction; [|done]. clear i Hi.
  intros i IH x1 x2 Hx1 Hx2 Ht.
  destruct (Hm e1 s1 i x1 Hs1 Hx1) as (e & g & y1 & Hg & Hy1 & [Hv1 Hp1] & Hprev1).
  destruct (Hm e2 s2 i x2 Hs2 Hx2) as (e' & g' & y2 & Hg' & Hy2 & [Hv2 Hp2] & Hprev2).
  rewrite Ht, Hg' in Hg. injection Hg as -> ->. rewrite Hy1 in Hy2. injection Hy2 as <-.
  intros j Hj. destruct (decide (j = i)) as [->|Hne].
  { exists x1, x2. split_and!; [done..|]. split; congruence. }
  destruct Hprev1 as (x1' & y1' & Hx1' & Hy1' & Ht1); [lia|].
  destruct Hprev2 as (x2' & y2' & Hx2' & Hy2' & Ht2); [lia|].
  rewrite Hy1' in Hy2'. injection Hy2' as <-.
  apply (IH (i - 1)) with (x1 := x1') (x2 := x2'); [lia|done|done|congruence|lia].
Qed.

Lemma log_term_positive cl G e s i x :
  leaders_inv cl G -> logs_matched cl G -> cl_servers cl !! e = Some s ->
  seq_get (log s) i = Some x -> 1 <= term x.
Proof.
  intros Hli Hm Hs Hx. destruct (Hm e s i x Hs Hx) as (e' & l & y & HG & _).
  by destruct (li_term cl G Hli _ _ _ HG).
Qed.

(** What a leader's message says of the leader's log. *)
Definition append_sound G src (t pi pt v : Z) (p : LLogValue) (he : bool) : Prop :=
  exists l, G !! t = Some (src, l)
    /\ (pi > 0 -> pt = 0 \/ exists y, seq_get l (pi - 1) = Some y /\ term y = pt)
    /\ (he = true -> exists y, seq_get l pi = Some y /\ value y = v /\ payload y = p).

(** A follower that passes the message's checks agrees with the leader. *)
Lemma follower_agrees cl G e s src s0 t pi pt v p he :
  leaders_inv cl G -> logs_matched cl G ->
  cl_servers cl !! e = Some s -> cl_servers cl !! src = Some s0 ->
  append_sound G src t pi pt v p he ->
  0 <= pi ->
  (pi > 0 -> pi <= seq_len (log s) /\ term (seq_index (log s) (pi - 1)) = pt) ->
  agree (log s) (log s0) pi
  /\ (he = true -> exists y, seq_get (log s0) pi = Some y /\ value y = v /\ payload y = p).
Proof.
  intros Hli Hm Hs Hs0 (l & HG & Hprev & Hent) Hpi Hck.
  destruct (li_term cl G Hli _ _ _ HG) as (_ & _ & s0' & Hs0' & _ & Hpre & _).
  rewrite Hs0 in Hs0'. injection Hs0' as <-. split.
  - destruct (decide (pi = 0)) as [->|Hne]; [intros i ?; lia|].
    destruct Hck as [Hlen Hterm]; [lia|].
    destruct (seq_get_range_Some (log s) (pi - 1)) as [x Hx]; [lia|].
    rewrite (seq_index_get _ _ _ Hx) in Hterm.
    pose proof (log_term_positive cl G e s _ x Hli Hm Hs Hx).
    destruct Hprev as [?|(y & Hy & Hty)]; [lia|lia|].
    replace pi with (pi - 1 + 1) by lia.
    apply (matching_logs cl G e s src s0 (pi - 1) x y); try done; [|congruence].
    by eapply seq_get_prefix.
  - intros Hhe. destruct (Hent Hhe) as (y & Hy & ? & ?). exists y.
    split_and!; try done. by eapply seq_get_prefix.
Qed.

(** ** Commitment *)

(** A majority of the servers holds the first [n] entries of [l]. *)
Definition certified cl (l : list LLogEntry) (n : Z) : Prop :=
  exists Q, is_majority_of Q ids
    /\ forall v, v ∈ Q -> exists s, cl_servers cl !! ep v = Some s /\ agree (log s) l n.

Definition cluster_grows cl cl' : Prop :=
  forall e s, cl_servers cl !! e = Some s ->
    exists s', cl_servers cl' !! e = Some s' /\ log s `prefix_of` log s'.

Lemma certified_mono cl cl' l l' n :
  cluster_grows cl cl' -> l `prefix_of` l' -> certified cl l n -> certified cl' l' n.
Proof.
  intros Hg Hl (Q & Hq & Hv). exists Q. split; [done|]. intros v Hin.
  destruct (Hv v Hin) as (s & Hs & Ha). destruct (Hg _ _ Hs) as (s' & Hs' & Hp).
  exists s'. split; [done|]. by eapply agree_prefix.
Qed.

Lemma certified_transfer cl l l' n : certified cl l n -> agree l l' n -> certified cl l' n.
Proof.
  intros (Q & Hq & Hv) Ha. exists Q. split; [done|]. intros v Hin.
  destruct (Hv v Hin) as (s & Hs & Ha'). exists s. split; [done|]. by eapply agree_trans.
Qed.

Lemma certified_le cl l n n' : n' <= n -> certified cl l n -> certified cl l n'.
Proof.
  intros Hn (Q & Hq & Hv). exists Q. split; [done|]. intros v Hin.
  destruct (Hv v Hin) as (s & Hs & Ha'). exists s. split; [done|]. by eapply agree_le.
Qed.

(** Majorities meet: what two majorities hold is the same. *)
Lemma certified_agree cl l1 l2 n1 n2 n :
  certified cl l1 n1 -> certified cl l2 n2 -> n <= n1 -> n <= n2 -> agree l1 l2 n.
Proof.
  intros (Q1 & Hq1 & Hv1) (Q2 & Hq2 & Hv2) Hn1 Hn2.
  destruct (is_majority_of_meet ids Q1 Q2 Hq1 Hq2) as (v & Hin1 & Hin2).
  destruct (Hv1 v Hin1) as (s & Hs & Ha1). destruct (Hv2 v Hin2) as (s' & Hs' & Ha2).
  rewrite Hs in Hs'. injection Hs' as <-.
  apply (agree_trans _ (log s)); [apply agree_sym|].
  - by apply (agree_le _ _ n1).
  - by apply (agree_le _ _ n2).
Qed.
(** ** What an action does to a log, the follower indices and the commit index *)

(** The server [e] accepts a message of the leader at [src]. *)
Definition accepted cl e s s' src (t pi pt v : Z) (p : LLogValue) (he : bool) (lc : Z) : Prop :=
  (exists l, (src, e, AppendEntries t l pi pt v p he lc) ∈ cl_messages cl)
  /\ (pi > 0 -> pi <= seq_len (log s) /\ term (seq_index (log s) (pi - 1)) = pt)
  /\ (he = true -> pi = seq_len (log s))
  /\ log s' = (if he then log s ++ [MkLLogEntry t v p] else log s).

Lemma accepted_handled cl e s s' src t l pi pt v p he lc sent :
  (src, e, AppendEntries t l pi pt v p he lc) ∈ cl_messages cl ->
  handled (consts e) s (AppendEntries t l pi pt v p he lc) s' sent ->
  (exists t', sent = [AppendResponse t' false 0 (id e)]) \/ sent = []
  \/ accepted cl e s s' src t pi pt v p he lc.
Proof.
  intros Hin Hh. destruct (stepped_down_spec s t) as (Hl & _).
  inversion Hh as [m0 sent0 Hsent| |t0 l0 pi0 pt0 v0 p0 he0 lc0 s0 mid Ht Hpi Hhe Hct Hr Hv Hvf Hlog| |];
    subst.
  - destruct Hsent as [->|[t' ->]]; [by right; left|left; by exists t'].
  - right. right. subst mid. rewrite Hl in *. split_and!; try done. by exists l.
Qed.

Lemma action_log_entry cl e s s' new i x :
  action cl e s s' new -> seq_get (log s') i = Some x ->
  seq_get (log s) i = Some x
  \/ (i = seq_len (log s) /\ log s' = log s ++ [x]
      /\ ((role s' = Leader /\ term x = current_term s')
          \/ exists src t pi pt v p lc, accepted cl e s s' src t pi pt v p true lc
               /\ x = MkLLogEntry t v p)).
Proof.
  intros Ha Hx.
  assert (log s' = log s -> seq_get (log s) i = Some x) as Hsame by (by intros <-).
  assert (forall y, log s' = log s ++ [y] -> seq_get (log s) i = Some x \/ i = seq_len (log s) /\ x = y) as Hsnoc.
  { intros y Hl. rewrite Hl in Hx. pose proof (seq_get_Some_range _ _ _ Hx) as Hr.
    rewrite seq_len_app in Hr. change (seq_len [y]) with 1 in Hr.
    destruct (decide (i = seq_len (log s))) as [->|Hne].
    - rewrite seq_get_last in Hx. injection Hx as <-. by right.
    - left. destruct (seq_get_range_Some (log s) i) as [z Hz]; [lia|].
      rewrite (seq_get_prefix _ _ _ _ (prefix_app_r _ _ [y] (reflexivity _)) Hz) in Hx. congruence. }
  destruct Ha as [cfg j Hcfg Hr Hj|v Hr Hv'|src m Hm|dsts Hr Ht Hdsts|cfg n Hcfg Hr Hn].
  - by left.
  - destruct (Hsnoc _ eq_refl) as [?|[-> ->]]; [by left|right]. split_and!; [done..|].
    left. by split.
  - pose proof (CHandleMessage_handled (consts e) s m) as Hh.
    destruct (CHandleMessage s (consts e) m) as [s1 sent]. cbn [fst snd] in *.
    destruct (stepped_down_spec s (message_term m)) as (Hl & _).
    pose proof Hh as Hh'.
    destruct Hh'; cbn [message_term] in *; try subst mid;
      try (left; apply Hsame; congruence).
    destruct he; [|left; apply Hsame; congruence].
    destruct (Hsnoc (MkLLogEntry t v p)) as [?|[-> ->]]; [congruence|by left|right].
    split_and!; [done|congruence|]. right. exists src, t, pi, pt, v, p, lc. split; [|done].
    destruct (accepted_handled cl e s _ src t l pi pt v p true lc _ Hm Hh) as [[? ?]|[?|?]]; done.
  - by left.
  - left. apply Hsame. unfold CTryAdvanceCommitIndex. rewrite clone_state_id.
    by repeat (case_match; cbn).
Qed.

Lemma action_new_append cl e s s' new src dst t l pi pt v p he lc :
  action cl e s s' new -> (src, dst, AppendEntries t l pi pt v p he lc) ∈ new ->
  src = e /\ role s = Leader /\ s' = s
  /\ exists cfg i, heartbeat_message cfg i s = AppendEntries t l pi pt v p he lc.
Proof.
  intros Ha Hin. destruct Ha as [cfg i| |src' m' ?|dsts|].
  - apply list_elem_of_singleton in Hin.
    pose proof (f_equal snd Hin) as Hm. pose proof (f_equal (fun x => x.1.1) Hin) as Hsrc.
    cbn [fst snd] in Hm, Hsrc. split_and!; try done. by exists cfg, i.
  - by apply not_elem_of_nil in Hin.
  - apply list_elem_of_fmap in Hin as (m & [= -> -> <-] & Hin).
    destruct (CHandleMessage_handled (consts e) s m') as [? ? [->|[? ->]]| | | |];
      first [by apply not_elem_of_nil in Hin | by apply list_elem_of_singleton in Hin].
  - apply list_elem_of_bind in Hin as (m & Hin & Hm).
    apply list_elem_of_fmap in Hin as (d & [= -> -> <-] & Hin).
    cbn in Hm. by apply list_elem_of_singleton in Hm.
  - by apply not_elem_of_nil in Hin.
Qed.

Lemma action_new_response cl e s s' new src dst t mi f :
  action cl e s s' new -> (src, dst, AppendResponse t true mi f) ∈ new ->
  src = e /\ f = id e
  /\ exists pi pt v p he lc, accepted cl e s s' dst t pi pt v p he lc
       /\ mi = (if he then u64_add (seq_len (log s)) 1 else pi).
Proof.
  intros Ha Hin. destruct Ha as [cfg i| |src' m' Hm'|dsts|].
  - by apply list_elem_of_singleton in Hin.
  - by apply not_elem_of_nil in Hin.
  - apply list_elem_of_fmap in Hin as (m0 & [= -> -> <-] & Hin).
    pose proof (CHandleMessage_handled (consts e) s m') as Hh. pose proof Hh as Hh'.
    destruct (stepped_down_spec s (message_term m')) as (Hl & _).
    destruct Hh' as [? ? [->|[? ->]]| | | |];
      try (by apply not_elem_of_nil in Hin); apply list_elem_of_singleton in Hin; try done.
    injection Hin as -> -> ->. cbn [message_term] in Hl. subst mid. split_and!; [done..|].
    exists pi, pt, v, p, he, lc. split; [|by rewrite Hl].
    destruct (accepted_handled cl e s _ src' _ _ _ _ _ _ _ _ _ Hm' Hh) as [[? ?]|[?|?]]; done.
  - apply list_elem_of_bind in Hin as (m0 & Hin & Hm).
    apply list_elem_of_fmap in Hin as (d & [= -> -> <-] & Hin).
    cbn in Hm. by apply list_elem_of_singleton in Hm.
  - by apply not_elem_of_nil in Hin.
Qed.

Lemma action_match_index cl e s s' new f n :
  action cl e s s' new -> match_index s' !! f = Some n ->
  match_index s !! f = Some n
  \/ f ∈ ids /\ log s' = log s
     /\ exists src t, (src, e, AppendResponse t true n f) ∈ cl_messages cl.
Proof.
  intros Ha Hf. destruct Ha as [cfg j| |src msg Hm|dsts|]; try (by left).
  - pose proof (CHandleMessage_handled (consts e) s msg) as Hh.
    destruct (CHandleMessage s (consts e) msg) as [s1 sent]. cbn [fst snd] in *.
    destruct (stepped_down_spec s (message_term msg)) as (Hl & _ & Hmi & _).
    destruct Hh as [| | |t v vi vt s1 mid _ _ _ _ _ _ _ _ _ _ Hmatch _|t ok mi f0 s1 mid _ Hf0 _ _ _ _ Hlog _ _ Hmatch];
      cbn [message_term] in *; try subst mid; try (left; congruence).
    + destruct Hmatch as [?|Hmatch]; [left; congruence|]. by rewrite Hmatch in Hf.
    + destruct ok; [|left; congruence]. rewrite Hmatch in Hf.
      apply lookup_insert_Some in Hf as [[<- <-]|[_ ?]]; [|left; congruence].
      right. split_and!; [done|congruence|]. by exists src, t.
  - left. revert Hf. unfold CTryAdvanceCommitIndex. rewrite clone_state_id.
    by repeat (case_match; cbn).
Qed.

Lemma action_commit_index cl e s s' new :
  log_fits s -> action cl e s s' new ->
  commit_index s' = commit_index s
  \/ (exists src t pi pt v p he lc, accepted cl e s s' src t pi pt v p he lc
       /\ commit_index s' <= lc /\ commit_index s' <= (if he then seq_len (log s) + 1 else pi))
  \/ (exists cfg, config_of args e = Some cfg /\ log s' = log s
       /\ find_commit_index cfg s = Some (commit_index s')).
Proof.
  intros Hfit Ha. destruct Ha as [cfg j|v Hr Hv|src msg Hm|dsts|cfg n Hcfg Hr Hn]; try (by left).
  - pose proof (CHandleMessage_handled (consts e) s msg) as Hh.
    destruct (CHandleMessage s (consts e) msg) as [s1 sent]. cbn [fst snd] in *.
    destruct (stepped_down_spec s (message_term msg)) as (Hl & Hc & _).
    pose proof Hh as Hh'.
    destruct Hh'; cbn [message_term] in *; try subst mid; try (left; congruence).
    match goal with Hx : commit_index s' = commit_index (CFollowerAppendEntries _ _ _ _ _ _ _ _ _ _).1 |- _ =>
      rename Hx into Hci end.
    cbn [CFollowerAppendEntries fst commit_index] in Hci. rewrite Hl, Hc in Hci.
    pose proof (seq_len_nonneg (log s)).
    rewrite u64_add_exact in Hci by (unfold log_fits in Hfit; lia).
    destruct (accepted_handled cl e s s' src t l pi pt v p he lc _ Hm Hh) as [[? ?]|[?|Hacc]]; [done..|].
    destruct (decide (commit_index s' = commit_index s)) as [?|Hne]; [by left|right; left].
    exists src, t, pi, pt, v, p, he, lc. split; [done|]. rewrite Hci in *.
    destruct he; repeat case_decide; lia.
  - unfold CTryAdvanceCommitIndex. rewrite clone_state_id.
    repeat (case_match; cbn); try (by left). right. right. by exists cfg.
Qed.
(** ** The invariant of logs and commitments *)

Record logs_inv cl G : Prop := MkLogsInv
  { lo_matched : logs_matched cl G;
    lo_append : forall src dst t l pi pt v p he lc,
      (src, dst, AppendEntries t l pi pt v p he lc) ∈ cl_messages cl ->
      append_sound G src t pi pt v p he
      /\ exists s, cl_servers cl !! src = Some s /\ certified cl (log s) lc;
    lo_response : forall src dst t n f,
      (src, dst, AppendResponse t true n f) ∈ cl_messages cl ->
      f = id src /\ exists s s', cl_servers cl !! src = Some s /\ cl_servers cl !! dst = Some s'
        /\ agree (log s) (log s') n;
    lo_match : forall e s f n, cl_servers cl !! e = Some s -> match_index s !! f = Some n -> f ∈ ids ->
      exists s', cl_servers cl !! ep f = Some s' /\ agree (log s') (log s) n;
    lo_commit : forall e s, cl_servers cl !! e = Some s -> certified cl (log s) (commit_index s) }.

(** A server that accepts an entry or a heartbeat agrees with its leader. *)
Lemma accepted_agrees cl G e s s' src t pi pt v p he lc :
  wf cl -> leaders_inv cl G -> logs_inv cl G -> cl_servers cl !! e = Some s ->
  accepted cl e s s' src t pi pt v p he lc ->
  append_sound G src t pi pt v p he
  /\ exists s0, cl_servers cl !! src = Some s0 /\ certified cl (log s0) lc
     /\ agree (log s') (log s0) (if he then seq_len (log s) + 1 else pi).
Proof.
  intros Hwf Hli Hlo Hs ((l & Hin) & Hck & Hhe & Hlog).
  destruct (lo_append cl G Hlo _ _ _ _ _ _ _ _ _ _ Hin) as (Hsound & s0 & Hs0 & Hcert).
  destruct (wf_msg args cl Hwf _ _ _ Hin) as (_ & _ & (_ & _ & [Hpi _] & _) & _).
  split; [done|]. exists s0. split_and!; [done..|].
  destruct (follower_agrees cl G e s src s0 t pi pt v p he Hli (lo_matched cl G Hlo) Hs Hs0 Hsound Hpi Hck)
    as [Hagree Hent].
  rewrite Hlog. destruct he; [|done]. destruct (Hent eq_refl) as (y & Hy & Hv & Hp).
  rewrite <- (Hhe eq_refl). rewrite (Hhe eq_refl) in Hagree, Hy |- *.
  apply (agree_snoc _ _ _ y); [done|done|done|]. by split.
Qed.

Section step.
Context (cl : Cluster) (G : Ghost) (e : EndPoint) (s s' : CState)
  (new : list (EndPoint * EndPoint * CRaftMessage)).
Let cl' := MkCluster (<[e := s']> (cl_servers cl)) (new ++ cl_messages cl).
Let G' := ghost_after G e s'.
Context (Hwf : wf cl) (Hvi : votes_inv cl) (Hli : leaders_inv cl G) (Hlo : logs_inv cl G)
  (Hwf' : wf cl') (Hli' : leaders_inv cl' G')
  (Hs : cl_servers cl !! e = Some s) (Ha : action cl e s s' new).

Lemma step_log_grows : log s `prefix_of` log s'.
Proof.
  destruct (wf_state args cl Hwf e s Hs) as ([[? ?] _] & _).
  by destruct (action_grows args cl e s s' new Ha).
Qed.

Lemma step_cluster_grows : cluster_grows cl cl'.
Proof.
  intros e0 s0 Hs0. cbn. destruct (decide (e = e0)) as [<-|Hne].
  - rewrite Hs in Hs0. injection Hs0 as <-. exists s'. rewrite lookup_insert_eq.
    split; [done|apply step_log_grows].
  - exists s0. by rewrite lookup_insert_ne.
Qed.

Lemma step_ghost_grows : ghost_grows G G'.
Proof. exact (ghost_after_grows cl G e s s' new Hwf Hvi Hli Hs Ha). Qed.

Lemma step_server e0 s0' :
  cl_servers cl' !! e0 = Some s0' ->
  (e0 = e /\ s0' = s') \/ (e0 <> e /\ cl_servers cl !! e0 = Some s0').
Proof. cbn. intros [[<- <-]|[? ?]]%lookup_insert_Some; auto. Qed.

Lemma step_leader_ghost : role s' = Leader -> G' !! current_term s' = Some (e, log s').
Proof. intros Hr. apply (li_leader cl' G' Hli' e s'); [|done]. cbn. by rewrite lookup_insert_eq. Qed.

Lemma append_sound_mono src t pi pt v p he :
  append_sound G src t pi pt v p he -> append_sound G' src t pi pt v p he.
Proof.
  intros (l & HG & Hprev & Hent). destruct (step_ghost_grows _ _ _ HG) as (l' & HG' & Hp).
  exists l'. split_and!; [done| |].
  - intros [?|(y & Hy & ?)]%Hprev; [by left|right]. exists y. split; [by eapply seq_get_prefix|done].
  - intros (y & Hy & ? & ?)%Hent. exists y. split_and!; [by eapply seq_get_prefix|done..].
Qed.

Lemma step_logs_matched : logs_matched cl' G'.
Proof.
  intros e0 s0 i x Hs0 Hx. apply step_server in Hs0 as [[-> ->]|[_ Hs0]].
  2: { apply (from_leader_mono G G' (log s0)); [apply step_ghost_grows|done|].
       by apply (lo_matched cl G Hlo e0). }
  destruct (action_log_entry cl e s s' new i x Ha Hx) as [Hx0|(-> & Hlog & Horig)].
  { apply (from_leader_mono G G' (log s)); [apply step_ghost_grows|apply step_log_grows|].
    by apply (lo_matched cl G Hlo e). }
  pose proof (seq_len_nonneg (log s)).
  destruct Horig as [[Hr Ht]|(src & t & pi & pt & v & p & lc & Hacc & ->)].
  - exists e, (log s'), x. rewrite Ht. split_and!; [by apply step_leader_ghost|done|done|].
    intros Hi. destruct (seq_get_range_Some (log s') (seq_len (log s) - 1)) as [y Hy].
    { apply seq_get_Some_range in Hx. lia. }
    by exists y, y.
  - destruct (accepted_agrees cl G e s s' src t pi pt v p true lc Hwf Hli Hlo Hs Hacc)
      as (Hsound & _).
    destruct (append_sound_mono _ _ _ _ _ _ _ Hsound) as (l & HG & Hprev & Hent).
    destruct Hacc as (_ & Hck & Hhe & _). specialize (Hhe eq_refl).
    destruct (Hent eq_refl) as (y & Hy & Hv & Hp).
    exists src, l, y. cbn [term]. rewrite Hhe in *. split_and!; [done|done|done|].
    intros Hi. destruct Hck as [_ Hterm]; [lia|].
    destruct (seq_get_range_Some (log s) (seq_len (log s) - 1)) as [x Hx0]; [lia|].
    rewrite (seq_index_get _ _ _ Hx0) in Hterm.
    pose proof (log_term_positive cl G e s _ x Hli (lo_matched cl G Hlo) Hs Hx0).
    destruct Hprev as [?|(y' & Hy' & Hty)]; [lia|lia|].
    exists x, y'. split_and!; [|done|congruence].
    apply (seq_get_prefix (log s)); [apply step_log_grows|done].
Qed.

Lemma certified_step l l' n : l `prefix_of` l' -> certified cl l n -> certified cl' l' n.
Proof. apply certified_mono, step_cluster_grows. Qed.

Lemma step_append src dst t l pi pt v p he lc :
  (src, dst, AppendEntries t l pi pt v p he lc) ∈ cl_messages cl' ->
  append_sound G' src t pi pt v p he
  /\ exists s0, cl_servers cl' !! src = Some s0 /\ certified cl' (log s0) lc.
Proof.
  intros [Hin|Hin]%elem_of_app.
  2: { destruct (lo_append cl G Hlo _ _ _ _ _ _ _ _ _ _ Hin) as (Hsound & s0 & Hs0 & Hcert).
       split; [by apply append_sound_mono|].
       destruct (step_cluster_grows _ _ Hs0) as (s0' & Hs0' & Hp).
       exists s0'. split; [done|]. by apply (certified_step (log s0)). }
  destruct (action_new_append cl e s s' new _ _ _ _ _ _ _ _ _ _ Ha Hin) as (-> & Hr & Hss & cfg & i & Hm).
  destruct (wf_state args cl Hwf e s Hs) as ((_ & _ & _ & _ & _ & _ & _ & Hni) & _).
  assert (0 <= default 0 (next_index s !! i)) as Hpos.
  { destruct (next_index s !! i) as [n|] eqn:Hn; cbn; [|done]. by destruct (Hni _ _ Hn) as [_ [? _]]. }
  injection Hm as <- <- <- <- <- <- <- <-. split.
  - exists (log s). split_and!.
    + rewrite <- Hss at 1 2. apply step_leader_ghost. by rewrite Hss.
    + intros Hpi. rewrite (decide_True _ _ (P := _ > 0)) in * by (case_decide; lia).
      case_decide as Hlen; [right|by left].
      destruct (seq_get_range_Some (log s) (default 0 (next_index s !! i) - 1)) as [y Hy]; [lia|].
      exists y. by rewrite (seq_index_get _ _ _ Hy).
    + intros Hhe. rewrite Hhe. apply bool_decide_eq_true in Hhe.
      replace (if decide (default 0 (next_index s !! i) > 0) then default 0 (next_index s !! i) else 0)
        with (default 0 (next_index s !! i)) by (case_decide; lia).
      destruct (seq_get_range_Some (log s) (default 0 (next_index s !! i))) as [y Hy]; [lia|].
      exists y. by rewrite (seq_index_get _ _ _ Hy).
  - exists s'. cbn. rewrite lookup_insert_eq. split; [done|]. rewrite Hss.
    apply (certified_step (log s)); [done|]. by apply (lo_commit cl G Hlo e).
Qed.

Lemma step_response src dst t n f :
  (src, dst, AppendResponse t true n f) ∈ cl_messages cl' ->
  f = id src /\ exists s0 s1, cl_servers cl' !! src = Some s0 /\ cl_servers cl' !! dst = Some s1
    /\ agree (log s0) (log s1) n.
Proof.
  intros [Hin|Hin]%elem_of_app.
  2: { destruct (lo_response cl G Hlo _ _ _ _ _ Hin) as (-> & s0 & s1 & Hs0 & Hs1 & Hag).
       split; [done|]. destruct (step_cluster_grows _ _ Hs0) as (s0' & Hs0' & Hp0).
       destruct (step_cluster_grows _ _ Hs1) as (s1' & Hs1' & Hp1).
       exists s0', s1'. split_and!; [done..|]. by eapply agree_prefix. }
  destruct (action_new_response cl e s s' new _ _ _ _ _ Ha Hin)
    as (-> & -> & pi & pt & v & p & he & lc & Hacc & ->).
  destruct (accepted_agrees cl G e s s' dst t pi pt v p he lc Hwf Hli Hlo Hs Hacc)
    as (_ & s0 & Hs0 & _ & Hag).
  destruct (step_cluster_grows _ _ Hs0) as (s0' & Hs0' & Hp0).
  split; [done|]. exists s', s0'. cbn. rewrite lookup_insert_eq. split_and!; [done..|].
  destruct (wf_state args cl Hwf e s Hs) as (_ & Hfit & _). unfold log_fits in Hfit.
  pose proof (seq_len_nonneg (log s)). rewrite u64_add_exact by lia.
  by eapply agree_prefix.
Qed.

Lemma step_match e0 s0 f n :
  cl_servers cl' !! e0 = Some s0 -> match_index s0 !! f = Some n -> f ∈ ids ->
  exists s1, cl_servers cl' !! ep f = Some s1 /\ agree (log s1) (log s0) n.
Proof.
  intros Hs0 Hf Hfi.
  assert (forall e1 s1, cl_servers cl !! e1 = Some s1 -> match_index s1 !! f = Some n ->
    log s1 `prefix_of` log s0 ->
    exists s2, cl_servers cl' !! ep f = Some s2 /\ agree (log s2) (log s0) n) as Hold.
  { intros e1 s1 Hs1 Hf1 Hp. destruct (lo_match cl G Hlo e1 s1 f n Hs1 Hf1 Hfi) as (s2 & Hs2 & Hag).
    destruct (step_cluster_grows _ _ Hs2) as (s2' & Hs2' & Hp2).
    exists s2'. split; [done|]. by eapply agree_prefix. }
  apply step_server in Hs0 as [[-> ->]|[_ Hs0]]; [|by eapply Hold].
  destruct (action_match_index cl e s s' new f n Ha Hf) as [Hf0|(_ & Hlog & src & t & Hin)].
  { eapply Hold; [done|done|apply step_log_grows]. }
  destruct (lo_response cl G Hlo _ _ _ _ _ Hin) as (-> & s1 & s2 & Hs1 & Hs2 & Hag).
  rewrite Hs in Hs2. injection Hs2 as <-.
  destruct (wf_msg args cl Hwf _ _ _ Hin) as (Hsrc & _).
  rewrite (ep_id args Hmin) by done.
  destruct (step_cluster_grows _ _ Hs1) as (s1' & Hs1' & Hp1).
  exists s1'. split; [done|]. rewrite Hlog. by apply (agree_prefix (log s1) (log s)).
Qed.

(** The leader commits what a majority has acknowledged. *)
Lemma advance_certified cfg n :
  config_of args e = Some cfg -> find_commit_index cfg s = Some n -> certified cl (log s) n.
Proof.
  intros Hcfg Hn. pose proof (wf_commit_range args cl e s Hwf Hs) as Hrange.
  pose proof (wf_endpoint args cl e s Hwf Hs) as He.
  destruct (find_commit_index_spec cfg s n Hrange Hn) as (Hlt & _ & Hq & _).
  destruct (wf_state args cl Hwf e s Hs) as (_ & _ & Hd & _).
  apply config_of_spec in Hcfg as (_ & _ & _ & _ & Hc). rewrite Hc in Hq.
  rewrite Chas_active_commit_quorum_spec in Hq by (lia || by apply (consts_valid args Hmin Hmax)).
  apply bool_decide_eq_true in Hq. unfold has_active_commit_quorum, active_membership_phase_for_state in Hq.
  rewrite data_only_phase in Hq by done. cbn [is_quorum_for_phase servers RaftCluster.consts] in Hq.
  exists (replicator_set (view s) (consts e) n). split; [done|].
  intros v [Hrep Hv]%elem_of_filter. cbn [servers RaftCluster.consts] in Hv.
  unfold is_replicator in Hrep. rewrite as_u64_id in Hrep by by apply (ids_is_u64 args Hmax).
  destruct Hrep as [->|(m & Hm & Hge)].
  - exists s. cbn [my_id RaftCluster.consts]. rewrite (ep_id args Hmin) by done.
    split; [done|]. apply agree_refl. lia.
  - destruct (lo_match cl G Hlo e s v m Hs Hm Hv) as (s1 & Hs1 & Hag).
    exists s1. split; [done|]. by apply (agree_le _ _ m); [lia|].
Qed.

Lemma step_commit e0 s0 :
  cl_servers cl' !! e0 = Some s0 -> certified cl' (log s0) (commit_index s0).
Proof.
  intros Hs0. apply step_server in Hs0 as [[-> ->]|[_ Hs0]].
  2: { apply (certified_step (log s0)); [done|]. by apply (lo_commit cl G Hlo e0). }
  destruct (wf_state args cl Hwf e s Hs) as (_ & Hfit & _).
  destruct (action_commit_index cl e s s' new Hfit Ha)
    as [->|[(src & t & pi & pt & v & p & he & lc & Hacc & Hle & Hle')|(cfg & Hcfg & Hlog & Hn)]].
  - apply (certified_step (log s)); [apply step_log_grows|]. by apply (lo_commit cl G Hlo e).
  - destruct (accepted_agrees cl G e s s' src t pi pt v p he lc Hwf Hli Hlo Hs Hacc)
      as (_ & s0 & Hs0 & Hcert & Hag).
    apply (certified_transfer _ (log s0)).
    + apply (certified_le _ _ lc); [done|]. by apply (certified_step (log s0)).
    + apply agree_sym. by eapply agree_le.
  - rewrite Hlog. apply (certified_step (log s)); [done|]. by eapply advance_certified.
Qed.

Lemma logs_inv_step : logs_inv cl' G'.
Proof.
  split; [apply step_logs_matched|apply step_append|apply step_response|apply step_match|apply step_commit].
Qed.
End step.
(** ** Reachable clusters *)

Record cluster_inv cl G : Prop := MkClusterInv
  { ci_wf : wf cl; ci_votes : votes_inv cl; ci_leaders : leaders_inv cl G; ci_logs : logs_inv cl G }.

Lemma logs_inv_init : logs_inv (cluster_init args) ∅.
Proof.
  split; cbn.
  - intros e s i x [_ <-]%lookup_gset_to_gmap_Some Hx. apply seq_get_Some_range in Hx.
    unfold seq_len in Hx. cbn in Hx. lia.
  - by intros ?????????? ?%not_elem_of_nil.
  - by intros ????? ?%not_elem_of_nil.
  - by intros e s f n [_ <-]%lookup_gset_to_gmap_Some.
  - intros e s [_ <-]%lookup_gset_to_gmap_Some. exists ids. split; [apply ids_majority|].
    intros v Hv. exists (CInit (consts no_endpoint)). split.
    + apply lookup_gset_to_gmap_Some. split; [|done].
      by apply elem_of_list_to_set, ep_in_endpoints, elem_of_ids.
    + by apply agree_refl.
Qed.

Lemma cluster_inv_init : cluster_inv (cluster_init args) ∅.
Proof.
  split; [apply wf_init|apply votes_inv_init|apply leaders_inv_init|apply logs_inv_init].
Qed.

Lemma cluster_inv_step cl G cl' :
  cluster_inv cl G -> cluster_step args cl cl' -> exists G', cluster_inv cl' G' /\ ghost_grows G G'.
Proof.
  intros [Hwf Hvi Hli Hlo] Hstep.
  pose proof (wf_step args Hmin Hmax cl cl' Hwf Hstep) as Hwf'.
  pose proof (votes_inv_step args Hmin cl cl' Hwf Hvi Hstep) as Hvi'.
  destruct Hstep as [e s s' new Hs Ha Hfit].
  pose proof (leaders_inv_step cl G e s s' new Hwf Hvi Hwf' Hvi' Hli Hs Ha) as Hli'.
  exists (ghost_after G e s'). split; [|exact (ghost_after_grows cl G e s s' new Hwf Hvi Hli Hs Ha)].
  split; [done..|]. by apply (logs_inv_step cl G e s s' new).
Qed.

Lemma ghost_grows_trans G1 G2 G3 : ghost_grows G1 G2 -> ghost_grows G2 G3 -> ghost_grows G1 G3.
Proof.
  intros H12 H23 t e l H1. destruct (H12 t e l H1) as (l2 & H2 & Hp).
  destruct (H23 t e l2 H2) as (l3 & H3 & Hp'). exists l3. split; [done|by etrans].
Qed.

Lemma cluster_inv_steps cl G cl' :
  cluster_inv cl G -> rtc (cluster_step args) cl cl' ->
  exists G', cluster_inv cl' G' /\ ghost_grows G G' /\ cluster_grows cl cl'.
Proof.
  intros Hinv Hsteps. revert G Hinv. induction Hsteps as [cl|cl cl1 cl2 Hstep _ IH]; intros G Hinv.
  { exists G. split_and!; [done| |]; [intros t e l ?; by exists l|intros e s ?; by exists s]. }
  assert (cluster_grows cl cl1) as Hg1.
  { destruct Hinv as [Hwf _ _ _], Hstep as [e s s' new Hs Ha _]. by apply (step_cluster_grows cl e s s' new). }
  destruct (cluster_inv_step cl G cl1 Hinv Hstep) as (G1 & Hinv1 & HG1).
  destruct (IH G1 Hinv1) as (G2 & Hinv2 & HG2 & Hg2).
  exists G2. split_and!; [done|by eapply ghost_grows_trans|].
  intros e s Hs. destruct (Hg1 _ _ Hs) as (s1 & Hs1 & Hp1). destruct (Hg2 _ _ Hs1) as (s2 & Hs2 & Hp2).
  exists s2. split; [done|by etrans].
Qed.

Lemma cluster_reachable_steps cl : cluster_reachable args cl <-> rtc (cluster_step args) (cluster_init args) cl.
Proof.
  split.
  - induction 1; [done|by eapply rtc_r].
  - apply (rtc_ind_r (cluster_reachable args)); [constructor|]. intros. by econstructor.
Qed.

(** The leader of a term is one server, however far apart in time it leads. *)
Lemma one_leader cl cl' e s e' s' :
  rtc (cluster_step args) (cluster_init args) cl -> rtc (cluster_step args) cl cl' ->
  cl_servers cl !! e = Some s -> cl_servers cl' !! e' = Some s' ->
  role s = Leader -> role s' = Leader -> current_term s = current_term s' -> e = e'.
Proof.
  intros Hr Hsteps Hs Hs' Hl Hl' Ht.
  destruct (cluster_inv_steps _ _ _ cluster_inv_init Hr) as (G & Hinv & _).
  destruct (cluster_inv_steps _ _ _ Hinv Hsteps) as (G' & Hinv' & HG & _).
  pose proof (li_leader cl G (ci_leaders _ _ Hinv) e s Hs Hl) as H1.
  pose proof (li_leader cl' G' (ci_leaders _ _ Hinv') e' s' Hs' Hl') as H2.
  destruct (HG _ _ _ H1) as (l & H3 & _). rewrite Ht, H2 in H3. congruence.
Qed.

(** Servers agree on what they have committed, at all times. *)
Lemma committed_agree cl cl' e s e' s' n :
  rtc (cluster_step args) (cluster_init args) cl -> rtc (cluster_step args) cl cl' ->
  cl_servers cl !! e = Some s -> cl_servers cl' !! e' = Some s' ->
  n <= commit_index s -> n <= commit_index s' -> agree (log s) (log s') n.
Proof.
  intros Hr Hsteps Hs Hs' Hn Hn'.
  destruct (cluster_inv_steps _ _ _ cluster_inv_init Hr) as (G & Hinv & _).
  destruct (cluster_inv_steps _ _ _ Hinv Hsteps) as (G' & Hinv' & _ & Hg).
  apply (certified_agree cl' _ _ (commit_index s) (commit_index s')); [|apply (lo_commit cl' G' (ci_logs _ _ Hinv') e')|..];
    [|done..].
  apply (certified_mono cl _ (log s)); [done|done|]. by apply (lo_commit cl G (ci_logs _ _ Hinv) e).
Qed.

(** Two logs with an entry of one term at one place agree up to it. *)
Lemma reachable_matching cl e s e' s' i x x' :
  rtc (cluster_step args) (cluster_init args) cl ->
  cl_servers cl !! e = Some s -> cl_servers cl !! e' = Some s' ->
  seq_get (log s) i = Some x -> seq_get (log s') i = Some x' -> term x = term x' ->
  agree (log s) (log s') (i + 1).
Proof.
  intros Hr Hs Hs' Hx Hx' Ht.
  destruct (cluster_inv_steps _ _ _ cluster_inv_init Hr) as (G & Hinv & _).
  by apply (matching_logs cl G e s e' s' i x x' (lo_matched _ _ (ci_logs _ _ Hinv))).
Qed.
End safety.
