(* ===== verification/RaftSystem.v ===== *)
(** * Raft hosts that exchange datagrams

    The hosts of one list of arguments, each running the generic loop of
    GenericHost.v over the Raft host of RaftHost.v, and a network that never
    forgets a datagram.  Anyone else may send bytes that do not parse, or
    client messages: the host does not check who a protocol message comes from,
    so a stranger that sends one is outside this model.  The system refines the
    cluster of RaftCluster.v. *)

From stdpp Require Import prelude gmap sets list numbers fin_sets.
From Stdlib Require Import ZArith Lia.
From S2P Require Import Prelude.
From S2P Require Import Types.
From S2P Require Import Environment.
From S2P Require Import Marshalling.
From S2P Require Import MarshallingLaws.
From S2P Require Import GenericHost.
From S2P Require Import FieldWire.
From S2P Require Import GenericSystem.
From S2P Require Import RaftTypes.
From S2P Require Import RaftMembership.
From S2P Require Import RaftProtocol.
From S2P Require Import RaftImpl.
From S2P Require Import RaftHost.
From S2P Require Import RaftCluster.
From S2P Require Import RaftInvariants.
From S2P Require Import RaftSafety.

#[local] Open Scope Z_scope.

Abbreviation RaftProcess := (GenericHostState RaftConfig RaftHost).
Abbreviation RaftSystem := (GenericSystem RaftConfig RaftHost).

(** The server state of a process. *)
Definition server (h : RaftProcess) : CState := state (ghs_protocol h).

(** What others may send, and what fits in memory: a vector holds at most
    [isize::MAX] bytes. *)
Definition raft_external_ok (m : RaftMessage) : Prop := from_wire m = None.
Definition raft_state_ok (h : RaftHost) : Prop := seq_len (log (state h)) <= ISIZE_MAX.

Definition raft_system_init (args : Args) (st : RaftSystem) : Prop :=
  generic_system_init (M := RaftMessage) (Ambient := RaftAmbient) args st.
Definition raft_step : RaftSystem -> RaftSystem -> Prop :=
  generic_step (M := RaftMessage) (Ambient := RaftAmbient) raft_external_ok raft_state_ok.

Section system.
Context (args : Args).
Implicit Types (cl : Cluster) (e : EndPoint) (h : RaftProcess) (s : CState).

(** ** What a step asks the network to send *)

Lemma outbound_merge r hb :
  outbound_packets (sr_outbound (merge r hb))
  = ((fun p => (gp_dst p, gp_msg p)) <$> hb) ++ outbound_packets (sr_outbound r).
Proof.
  unfold merge. destruct hb as [|p hb]; [done|]. cbn [sr_outbound outbound_packets].
  rewrite fmap_app. f_equal. destruct (sr_outbound r) as [| |ps|]; cbn; try done.
  rewrite <- list_fmap_compose. done.
Qed.

Lemma leader_heartbeat_spec config s :
  (leader_heartbeat config s).1 = s
  /\ forall p, p ∈ (leader_heartbeat config s).2 ->
       exists i, i ∈ servers (constants config) /\ gp_dst p = seq_index (peers config) i
         /\ gp_msg p = to_wire (heartbeat_message config i s).
Proof.
  unfold leader_heartbeat. generalize (seqZ 0 (seq_len (peers config))) as idxs.
  assert (forall idxs pkts,
    (leader_heartbeat_loop config idxs s pkts).1 = s
    /\ forall p, p ∈ (leader_heartbeat_loop config idxs s pkts).2 ->
         p ∈ pkts \/ exists i, i ∈ servers (constants config) /\ gp_dst p = seq_index (peers config) i
           /\ gp_msg p = to_wire (heartbeat_message config i s)) as H.
  { induction idxs as [|i idxs IH]; intros pkts; cbn [leader_heartbeat_loop]; [by split; [|left]|].
    rewrite heartbeat_to_eq. case_decide as Hi.
    - rewrite app_nil_r. apply IH.
    - destruct (IH (pkts ++ [MkGenericPacket (seq_index (peers config) i)
        (seq_index (peers config) (my_index config)) (to_wire (heartbeat_message config i s))])) as [-> Hp].
      split; [done|]. intros p [[Hin|Hin]%elem_of_app|Hin]%Hp; [by left| |by right].
      apply list_elem_of_singleton in Hin as ->. right. exists i. cbn. split_and!; try done.
      apply Decidable.not_or in Hi as [_ Hi]. by apply dec_stable. }
  intros idxs. destruct (H idxs []) as [-> Hp]. split; [done|].
  intros p [Hin|Hin]%Hp; [by apply not_elem_of_nil in Hin|done].
Qed.
End system.

(** ** The simulation *)

Section simulation.
Context (args : Args) (Hmin : 2 <= num_servers args) (Hmax : num_servers args <= ISIZE_MAX).
Local Abbreviation steps := (rtc (cluster_step args)).
Local Abbreviation wf := (wf args).
Implicit Types (st : GenericSystem RaftConfig RaftHost) (cl : Cluster) (e : EndPoint) (h : RaftProcess) (w : NetPacket)
  (s : CState) (config : RaftConfig) (amb : RaftAmbient).

Lemma wf_steps cl cl' : wf cl -> steps cl cl' -> wf cl'.
Proof. intros Hwf Hs. induction Hs as [|? ? ? Hstep _ IH]; [done|]. by eapply IH, wf_step. Qed.

(** The message that a host at [e] sends is one of the cluster's, and the
    receiver reads it. *)
Definition sendable_message cl e (p : EndPoint * RaftMessage) : Prop :=
  wire_valid p.2 /\ received p.2 = p.2
  /\ forall cm, from_wire p.2 = Some cm -> (e, p.1, cm) ∈ cl_messages cl.

Lemma sendable_to_wire cl e d cm :
  wf cl -> (e, d, cm) ∈ cl_messages cl -> sendable_message cl e (d, to_wire cm).
Proof.
  intros Hwf Hin. destruct (wf_msg args cl Hwf _ _ _ Hin) as (_ & _ & Hv & Hc).
  split_and!; cbn; [by apply to_wire_valid|by apply received_to_wire|].
  intros cm'. rewrite to_wire_from_wire. by intros [= <-].
Qed.

Lemma sendable_mono cl cl' e p :
  (forall x, x ∈ cl_messages cl -> x ∈ cl_messages cl') -> sendable_message cl e p ->
  sendable_message cl' e p.
Proof. intros Hm (Hv & Hr & Hc). split_and!; [done|done|]. intros cm Hcm. by apply Hm, Hc. Qed.

(** Steps of the protocol by the server at [e]. *)
Definition protocol_steps e : LState -> LState -> Prop := rtc (fun a b => LNext a b (consts args e)).

(** Every action but a heartbeat, which keeps the state, is a protocol step. *)
Lemma action_refines cl e s s' new :
  wf cl -> cl_servers cl !! e = Some s -> action args cl e s s' new ->
  protocol_steps e (view s) (view s').
Proof.
  intros Hwf Hs Ha. destruct (wf_state args cl Hwf e s Hs) as (Hv & Hf & Hd & Hci).
  pose proof (wf_endpoint args cl e s Hwf Hs) as He.
  pose proof (consts_valid args Hmin Hmax e He) as Hc.
  destruct Ha as [cfg i Hcfg Hr Hi|v Hr Hv'|src m Hm|dsts Hr Ht Hdsts|cfg n Hcfg Hr Hn];
    [done|apply rtc_once..].
  - right. left. destruct (CClientRequest_refines s (consts args e) v Hv Hr Hv') as [? _]. by eexists _, _.
  - do 4 right. left. destruct (wf_msg args cl Hwf _ _ _ Hm) as (_ & _ & Hvm & _).
    destruct (CHandleMessage_refines s (consts args e) m Hv Hc Hf Hvm) as [? _]. by eexists _, _.
  - left. destruct (CTimeout_refines s (consts args e) Hv Hc Hf Hr Ht) as [? _]. by eexists.
  - do 5 right. pose proof (wf_commit_range args cl e s Hwf Hs) as Hrange.
    destruct (find_commit_index_spec cfg s n Hrange Hn) as (Hlt & Hterm & _).
    destruct (CTryAdvanceCommitIndex_refines s (consts args e) n Hv Hc) as [? _].
    { unfold log_fits, is_u64 in *. lia. }
    { intros _ _. split; [lia|done]. }
    by eexists _, _.
Qed.

(** A part of a host's [next] that turns the server's state into [s'] and asks
    for [ps]. *)
Definition simulated cl e s' (ps : list (EndPoint * RaftMessage)) : Prop :=
  (forall s, cl_servers cl !! e = Some s -> protocol_steps e (view s) (view s'))
  /\ exists cl', steps cl cl' /\ cl_servers cl' = <[e := s']> (cl_servers cl)
    /\ (forall x, x ∈ cl_messages cl -> x ∈ cl_messages cl')
    /\ forall p, p ∈ ps -> sendable_message cl' e p.

Lemma simulated_nothing cl e s : cl_servers cl !! e = Some s -> simulated cl e s [].
Proof.
  intros Hs. split. { intros s' Hs'. rewrite Hs in Hs'. injection Hs' as <-. apply rtc_refl. }
  exists cl. split_and!; [done|by rewrite insert_id|done|].
  by intros p ?%not_elem_of_nil.
Qed.

Lemma simulated_action cl e s s' new ps :
  wf cl -> cl_servers cl !! e = Some s -> action args cl e s s' new -> log_fits s' ->
  (forall d m, (d, m) ∈ ps -> exists cm, m = to_wire cm /\ (e, d, cm) ∈ new) ->
  simulated cl e s' ps.
Proof.
  intros Hwf Hs Ha Hfit Hps.
  assert (cluster_step args cl (MkCluster (<[e := s']> (cl_servers cl)) (new ++ cl_messages cl))) as Hstep
    by by econstructor.
  pose proof (wf_step args Hmin Hmax _ _ Hwf Hstep) as Hwf'.
  split. { intros s0 Hs0. rewrite Hs in Hs0. injection Hs0 as <-. exact (action_refines cl e s s' new Hwf Hs Ha). }
  eexists. split_and!; [by apply rtc_once|done| |].
  - intros x Hx. cbn. apply elem_of_app. by right.
  - intros [d m] Hin. destruct (Hps d m Hin) as (cm & -> & Hnew).
    apply sendable_to_wire; [done|]. cbn. apply elem_of_app. by left.
Qed.

Lemma simulated_compose cl e s' s'' ps qs :
  simulated cl e s' ps ->
  (forall cl', wf cl' -> cl_servers cl' !! e = Some s' ->
     (forall x, x ∈ cl_messages cl -> x ∈ cl_messages cl') -> simulated cl' e s'' qs) ->
  wf cl -> simulated cl e s'' (ps ++ qs).
Proof.
  intros (Href1 & cl1 & Hsteps1 & Hsrv1 & Hm1 & Hps) Hnext Hwf.
  pose proof (wf_steps cl cl1 Hwf Hsteps1) as Hwf1.
  assert (cl_servers cl1 !! e = Some s') as Hs' by by rewrite Hsrv1, lookup_insert_eq.
  destruct (Hnext cl1 Hwf1 Hs' Hm1) as (Href2 & cl2 & Hsteps2 & Hsrv2 & Hm2 & Hqs).
  split. { intros s Hs. etrans; [by apply Href1|by apply Href2]. }
  exists cl2. split_and!; [by etrans| |by auto|].
  - by rewrite Hsrv2, Hsrv1, insert_insert_eq.
  - intros p [Hin|Hin]%elem_of_app; [|by apply Hqs]. apply (sendable_mono cl1); [done|by apply Hps].
Qed.

(** Heartbeats to some peers. *)
Lemma simulated_heartbeats cl e s config (hb : list (GenericPacket RaftMessage)) :
  wf cl -> cl_servers cl !! e = Some s -> config_of args e = Some config -> role s = Leader -> log_fits s ->
  (forall p, p ∈ hb -> exists i, i ∈ servers (constants config) /\ gp_dst p = seq_index (peers config) i
     /\ gp_msg p = to_wire (heartbeat_message config i s)) ->
  simulated cl e s ((fun p => (gp_dst p, gp_msg p)) <$> hb).
Proof.
  intros Hwf Hs Hcfg Hr Hfit. revert cl Hwf Hs.
  induction hb as [|p hb IH]; intros cl Hwf Hs Hhb; cbn; [by apply simulated_nothing|].
  change (simulated cl e s ([(gp_dst p, gp_msg p)] ++ ((fun p => (gp_dst p, gp_msg p)) <$> hb))).
  apply (simulated_compose cl e s); [|intros cl' Hwf' Hs' _|done].
  2: { apply IH; [done|done|]. intros q Hq. apply Hhb. by right. }
  destruct (Hhb p) as (i & Hi & Hd & Hm); [by left|].
  destruct (config_of_spec args e config Hcfg) as (Hpeers & _ & _ & _ & Hc).
  rewrite Hc in Hi. cbn in Hi.
  apply (simulated_action cl e s s [(e, ep args i, heartbeat_message config i s)]); try done.
  - by apply action_heartbeat.
  - intros d m Hin. apply list_elem_of_singleton in Hin as [= -> ->].
    exists (heartbeat_message config i s). split; [done|]. apply list_elem_of_singleton.
    rewrite Hd, Hpeers. unfold endpoints, ep. f_equal. f_equal.
    unfold seq_index. rewrite seq_get_fmap. apply elem_of_ids in Hi.
    destruct (seq_get_range_Some args i) as [a Ha]; [done|]. by rewrite Ha.
Qed.

Lemma periodic_heartbeat_sim cl e (h : RaftHost) config amb :
  wf cl -> cl_servers cl !! e = Some (state h) -> config_of args e = Some config ->
  state (periodic_heartbeat amb h config).1 = state h
  /\ simulated cl e (state h)
       ((fun p => (gp_dst p, gp_msg p)) <$> (periodic_heartbeat amb h config).2).
Proof.
  intros Hwf Hs Hcfg. unfold periodic_heartbeat.
  case_decide as Hr; [|by split; [|apply simulated_nothing]].
  destruct Hr as [Hr _]. destruct (leader_heartbeat_spec config (state h)) as [Hst Hp].
  destruct (leader_heartbeat config (state h)) as [s hb]. cbn in *. subst s.
  split; [done|]. apply (simulated_heartbeats cl e _ config); try done.
  by destruct (wf_state args cl Hwf e _ Hs) as (_ & ? & _).
Qed.

(** A client's response is not a message of the protocol. *)
Lemma simulated_response cl e s (d : EndPoint) client_id seq_no ok :
  is_u64 client_id -> is_u64 seq_no -> simulated cl e s [] ->
  simulated cl e s [(d, RmClientResponse client_id seq_no ok)].
Proof.
  intros Hc Hq (Href & cl' & Hsteps & Hsrv & Hm & _). split; [done|]. exists cl'. split_and!; [done..|].
  intros p Hp. apply list_elem_of_singleton in Hp as ->. split_and!; [|done|done].
  unfold wire_valid. cbn. repeat (apply Forall_cons; split); auto; try done.
Qed.

Lemma on_packet_sim cl e (h : RaftHost) config amb (pkt : GenericPacket RaftMessage) :
  wf cl -> cl_servers cl !! e = Some (state h) -> config_of args e = Some config ->
  wire_valid (gp_msg pkt) ->
  (forall cm, from_wire (gp_msg pkt) = Some cm -> (gp_src pkt, e, cm) ∈ cl_messages cl) ->
  log_fits (state (on_packet amb h config pkt).1) ->
  simulated cl e (state (on_packet amb h config pkt).1)
    (outbound_packets (sr_outbound (on_packet amb h config pkt).2)).
Proof.
  intros Hwf Hs Hcfg Hv Hin. destruct (config_of_spec args e config Hcfg) as (_ & _ & _ & _ & Hc).
  assert (forall cm, from_wire (gp_msg pkt) = Some cm ->
    log_fits (CHandleMessage (state h) (constants config) cm).1 ->
    simulated cl e (CHandleMessage (state h) (constants config) cm).1
      (outbound_packets match (CHandleMessage (state h) (constants config) cm).2 with
                        | [] => OutNone | m :: _ => OutSend (gp_src pkt) (to_wire m) end)) as Hmsg.
  { intros cm Hcm Hfit. rewrite Hc in *. eapply simulated_action; [done|done|by apply action_message, Hin|done|].
    intros d m Hd. destruct (CHandleMessage _ _ _).2 as [|m0 rest]; [by apply not_elem_of_nil in Hd|].
    apply list_elem_of_singleton in Hd as [= -> ->]. exists m0. split; [done|]. cbn. by left. }
  unfold on_packet. destruct (gp_msg pkt) as [| | | |client_id seq_no v|client_id seq_no ok] eqn:Hg;
    cbn [from_wire]; try (specialize (Hmsg _ eq_refl); destruct (CHandleMessage _ _ _); done).
  - cbn [fst snd sr_outbound outbound_packets]. unfold wire_valid in Hv. cbn in Hv.
    rewrite !Forall_cons in Hv. destruct Hv as (_ & Hci & Hsn & Hval & _).
    case_bool_decide as Hr; intros Hfit; apply simulated_response; try done; [|by apply simulated_nothing].
    cbn. rewrite Hc in *. eapply simulated_action; [done|done|by apply action_client|done|].
    by intros d m ?%not_elem_of_nil.
  - intros _. by apply simulated_nothing.
Qed.
Lemma other_peers_endpoints config e d :
  config_of args e = Some config -> d ∈ other_peers config -> d ∈ endpoints args.
Proof.
  intros Hcfg Hd. destruct (config_of_spec args e config Hcfg) as (Hpeers & _).
  unfold other_peers in Hd. apply list_elem_of_fmap in Hd as (i & -> & Hi).
  apply list_elem_of_filter in Hi as [_ Hi%elem_of_seqZ].
  rewrite Hpeers in *. apply seq_index_elem_of. lia.
Qed.

Lemma on_timer_sim cl e (h : RaftHost) config amb :
  wf cl -> cl_servers cl !! e = Some (state h) -> config_of args e = Some config ->
  log_fits (state (on_timer amb h config).1) ->
  simulated cl e (state (on_timer amb h config).1)
    (outbound_packets (sr_outbound (on_timer amb h config).2)).
Proof.
  intros Hwf Hs Hcfg. destruct (config_of_spec args e config Hcfg) as (_ & _ & _ & _ & Hc).
  pose proof (simulated_nothing cl e (state h) Hs) as Hno.
  unfold on_timer.
  assert (role (state h) <> Leader ->
    current_term (state h) < U64_MODULUS - 1 ->
    log_fits (CTimeout (state h) (constants config)).1 ->
    simulated cl e (CTimeout (state h) (constants config)).1
      (outbound_packets (OutBroadcast (other_peers config)
        (to_wire (RequestVote (u64_add (current_term (state h)) 1) (my_id (constants config))
           (seq_len (log (state h))) (Clast_log_term (log (state h)))))))) as Htimeout.
  { intros Hr Ht Hfit. rewrite Hc in *. eapply simulated_action; [done|done| |done|].
    - apply (action_timeout _ _ _ _ (other_peers config)); [done|done|].
      intros d. by eapply other_peers_endpoints.
    - intros d m Hd. apply list_elem_of_fmap in Hd as (d' & [= -> ->] & Hd).
      exists (RequestVote (u64_add (current_term (state h)) 1) (my_id (consts args e))
                (seq_len (log (state h))) (Clast_log_term (log (state h)))).
      split; [done|]. apply list_elem_of_bind. eexists. split.
      + apply list_elem_of_fmap. by exists d'.
      + cbn. by left. }
  destruct (role (state h)) eqn:Hr.
  - case_decide as Ht; [|done]. intros Hfit. apply Htimeout; [done|apply Ht|done].
  - case_decide as Ht; [|done]. intros Hfit. apply Htimeout; [done|apply Ht|done].
  - destruct (find_commit_index config (state h)) as [n|] eqn:Hn; [|done].
    cbn [fst snd state set_state sr_outbound outbound_packets]. intros Hfit. rewrite Hc in *.
    eapply simulated_action; [done|done|by apply (action_advance _ _ _ _ config)|done|].
    by intros d m ?%not_elem_of_nil.
Qed.

(** One call of the host's [next]. *)
Lemma raft_next_sim cl e (h : RaftHost) config amb packet :
  wf cl -> cl_servers cl !! e = Some (state h) -> config_of args e = Some config ->
  (forall pkt, packet = Some pkt ->
     wire_valid (gp_msg pkt)
     /\ forall cm, from_wire (gp_msg pkt) = Some cm -> (gp_src pkt, e, cm) ∈ cl_messages cl) ->
  log_fits (state (raft_next amb h config packet).1) ->
  simulated cl e (state (raft_next amb h config packet).1)
    (outbound_packets (sr_outbound (raft_next amb h config packet).2)).
Proof.
  intros Hwf Hs Hcfg Hpkt. unfold raft_next.
  destruct (periodic_heartbeat_sim cl e h config amb Hwf Hs Hcfg) as [Hst Hhb].
  destruct (periodic_heartbeat amb h config) as [h1 hb]. cbn [fst snd] in *.
  destruct packet as [pkt|].
  - destruct (Hpkt pkt eq_refl) as [Hv Hin].
    pose proof (fun cl' => on_packet_sim cl' e h1 config amb pkt) as Hon.
    destruct (on_packet amb h1 config pkt) as [h2 r]. cbn [fst snd] in *. intros Hfit.
    rewrite outbound_merge. eapply simulated_compose; [exact Hhb| |done].
    intros cl' Hwf' Hs' Hm. apply Hon; try done; [by rewrite Hst|].
    intros cm Hcm. by apply Hm, Hin.
  - pose proof (fun cl' => on_timer_sim cl' e h1 config amb) as Hon.
    destruct (on_timer amb h1 config) as [h2 r]. cbn [fst snd] in *. intros Hfit.
    destruct (role (state h1)).
    1, 2: apply Hon; try done; by rewrite Hst.
    rewrite outbound_merge. eapply simulated_compose; [exact Hhb| |done].
    intros cl' Hwf' Hs' Hm. apply Hon; try done. by rewrite Hst.
Qed.

Definition raft_sim st cl : Prop :=
  (forall e h, gs_hosts st !! e = Some h ->
     ghs_local_addr h = e /\ config_of args e = Some (ghs_config h)
     /\ cl_servers cl !! e = Some (server h))
  /\ (forall src dst m cm, in_flight st src dst m -> from_wire m = Some cm ->
       (src, dst, cm) ∈ cl_messages cl).

Lemma raft_sim_init st : raft_system_init args st -> raft_sim st (cluster_init args).
Proof.
  intros [Hsent Hhosts]. split.
  - intros e h Hh. specialize (Hhosts e). rewrite Hh in Hhosts. destruct Hhosts as (He & amb & Hi).
    unfold generic_init in Hi. cbn in Hi. fold (config_of args e) in Hi.
    destruct (config_of args e) as [config|]; [|done]. cbn in Hi. injection Hi as <-.
    split_and!; [done|done|]. cbn. apply lookup_gset_to_gmap_Some.
    split; [by apply elem_of_list_to_set|done].
  - intros src dst m cm (bytes & Hin & _). rewrite Hsent in Hin. by apply elem_of_empty in Hin.
Qed.

(** The servers take protocol steps. *)
Definition servers_refine st st' : Prop :=
  forall e h h', gs_hosts st !! e = Some h -> gs_hosts st' !! e = Some h' ->
    protocol_steps e (view (server h)) (view (server h')).

Lemma servers_refine_refl st st' : gs_hosts st' = gs_hosts st -> servers_refine st st'.
Proof. intros Heq e h h' Hh Hh'. rewrite Heq, Hh in Hh'. injection Hh' as <-. apply rtc_refl. Qed.

(** A host's iteration is simulated. *)
Lemma raft_sim_next st cl st' e h amb packet :
  wf cl -> raft_sim st cl ->
  gs_hosts st !! e = Some h ->
  (forall pkt, packet = Some pkt -> in_flight st (gp_src pkt) e (gp_msg pkt)) ->
  let r := raft_next amb (ghs_protocol h) (ghs_config h) packet in
  raft_state_ok r.1 ->
  gs_hosts st' = <[e := MkGenericHostState r.1 (ghs_config h) (ghs_local_addr h)]> (gs_hosts st) ->
  (forall src d m, in_flight st' src d m ->
     in_flight st src d m
     \/ src = ghs_local_addr h
        /\ exists m0, (d, m0) ∈ outbound_packets (sr_outbound r.2) /\ (wire_ok m0 -> m = m0)) ->
  servers_refine st st' /\ exists cl', steps cl cl' /\ raft_sim st' cl'.
Proof.
  intros Hwf [Hhosts Hmsgs] Hh Hpkt r Hok Hst' Hflight.
  destruct (Hhosts e h Hh) as (Haddr & Hcfg & Hsrv).
  assert (simulated cl e (state r.1) (outbound_packets (sr_outbound r.2)))
    as (Href & cl' & Hsteps & Hs' & Hm & Hsend).
  { apply raft_next_sim; try done.
    - intros pkt Hp. specialize (Hpkt pkt Hp). destruct (in_flight_ok _ _ _ _ Hpkt) as [Hv _].
      split; [done|]. intros cm Hf. by apply (Hmsgs _ _ _ _ Hpkt).
    - unfold raft_state_ok, log_fits, ISIZE_MAX, U64_MODULUS in *. fold r. lia. }
  split.
  { intros e' h1 h1' Hh1 Hh1'. rewrite Hst', lookup_insert_Some in Hh1'.
    destruct Hh1' as [[<- <-]|[_ Hh1']].
    - rewrite Hh in Hh1. injection Hh1 as <-. by apply Href.
    - rewrite Hh1 in Hh1'. injection Hh1' as <-. apply rtc_refl. }
  exists cl'. split; [done|]. split.
  - intros e' h0. rewrite Hst'. intros [[<- <-]|[Hne Hh0]]%lookup_insert_Some.
    + split; [done|]. split; [done|]. by rewrite Hs', lookup_insert_eq.
    + destruct (Hhosts e' h0 Hh0) as (? & ? & ?). split_and!; [done|done|].
      by rewrite Hs', lookup_insert_ne.
  - intros src d m cm Hf Hcm. destruct (Hflight src d m Hf) as [Hold|(-> & m0 & Hin & Heq)].
    + by apply Hm, (Hmsgs src d m).
    + destruct (Hsend _ Hin) as (Hv & Hrec & Hc). cbn in *. rewrite (Heq (conj Hv Hrec)) in Hcm.
      rewrite Haddr. by apply Hc.
Qed.

Lemma raft_sim_step st cl st' :
  wf cl -> raft_sim st cl -> sent_bytes st -> raft_step st st' ->
  servers_refine st st' /\ exists cl', steps cl cl' /\ raft_sim st' cl'.
Proof.
  intros Hwf Hsim Hbytes Hstep. apply generic_step_cases in Hstep; [|done].
  destruct Hstep as [Heq _ Hext|e h amb packet Hh Hpkt r Hok Hst' _ Hflight].
  - split; [by apply servers_refine_refl|]. exists cl. split; [done|].
    destruct Hsim as [Hhosts Hmsgs]. split; [by rewrite Heq|].
    intros src d m cm Hf Hcm. destruct (Hext src d m Hf) as [Hold|[_ Hno]]; [by apply (Hmsgs src d m)|].
    unfold raft_external_ok in Hno. congruence.
  - by apply (raft_sim_next st cl st' e h amb packet).
Qed.

(** Every run of the hosts is a run of the cluster. *)
Lemma raft_sim_steps st cl st' :
  wf cl -> raft_sim st cl -> sent_bytes st -> rtc raft_step st st' ->
  exists cl', steps cl cl' /\ raft_sim st' cl'.
Proof.
  intros Hwf Hsim Hbytes Hsteps. revert cl Hwf Hsim Hbytes.
  induction Hsteps as [st|st st1 st2 Hstep _ IH]; intros cl Hwf Hsim Hbytes; [by exists cl|].
  destruct (raft_sim_step st cl st1 Hwf Hsim Hbytes Hstep) as (_ & cl1 & Hs1 & Hsim1).
  destruct (IH cl1 (wf_steps cl cl1 Hwf Hs1) Hsim1) as (cl2 & Hs2 & Hsim2).
  { by apply (sent_bytes_step _ _ _ _ Hbytes Hstep). }
  exists cl2. split; [by etrans|done].
Qed.
End simulation.
