(* ===== verification/RaftProperties.v ===== *)
(** * Theorems about Raft

    Agreement of the hosts on what they commit, uniqueness of the leader of a
    term, refinement of the protocol and log matching, for every run of the
    hosts of RaftSystem.v; quorums, the search for the commit index, the wire
    format and the refinement of the atomic protocol.  The witnesses are runs of
    two hosts, with which the file starts. *)

From stdpp Require Import prelude gmap sets list numbers fin_sets.
From Stdlib Require Import ZArith Lia.
From S2P Require Import Prelude.
From S2P Require Import Types.
From S2P Require Import Environment.
From S2P Require Import Marshalling.
From S2P Require Import GenericHost.
From S2P Require Import FieldWire.
From S2P Require Import GenericSystem.
From S2P Require Import RaftTypes.
From S2P Require Import RaftMembership.
From S2P Require Import RaftProtocol.
From S2P Require Import RaftImpl.
From S2P Require Import RaftHost.
From S2P Require Import RaftCluster.
From S2P Require Import RaftInvariants.
From S2P Require Import RaftSafety.
From S2P Require Import RaftSystem.

#[local] Open Scope Z_scope.

(** * A run of two Raft hosts

    The script of events (GenericSystem.v) elects the first host in term 1, has it
    append a client's request, replicates and commits the entry on both hosts. *)

(** ** The script *)

Definition two_hosts : Args := [[0]; [1]].
Definition host0 : EndPoint := MkEndPoint [0].
Definition host1 : EndPoint := MkEndPoint [1].
Definition raft_client : EndPoint := MkEndPoint [9].

(** A world [ms] milliseconds after the start. *)
Definition at_ms (ms : Z) : RaftAmbient :=
  let t := ms * 1000000 in MkRaftAmbient t t t t t 0.

(** Host 0 announces its election; host 1 votes for it. *)
Definition election_events : list (Event RaftAmbient) :=
  [HostEvent host0 (at_ms 1500) None;
   HostEvent host1 (at_ms 10) (Some (datagram host0 host1 (RmRequestVote 1 0 0 0)));
   HostEvent host0 (at_ms 1510) (Some (datagram host1 host0 (RmVoteResponse 1 true 1 0 0)))].

(** A client asks for 7; the leader appends it and, with its heartbeat,
    sends it to host 1, which appends it too. *)
Definition replication_events : list (Event RaftAmbient) :=
  [ExternalEvent (datagram raft_client host0 (RmClientRequest 5 1 7));
   HostEvent host0 (at_ms 1515) (Some (datagram raft_client host0 (RmClientRequest 5 1 7)));
   HostEvent host0 (at_ms 1700) None;
   HostEvent host1 (at_ms 20) (Some (datagram host0 host1 (RmAppendEntries 1 0 0 0 7 (Data 7) true 0)));
   HostEvent host0 (at_ms 1710) (Some (datagram host1 host0 (RmAppendResponse 1 true 1 1)))].

(** The leader commits.  Its next heartbeat names one entry too many and is
    rejected; the one after it tells host 1 to commit. *)
Definition commit_events : list (Event RaftAmbient) :=
  [HostEvent host0 (at_ms 1720) None;
   HostEvent host0 (at_ms 1900) None;
   HostEvent host1 (at_ms 30) (Some (datagram host0 host1 (RmAppendEntries 1 0 2 0 0 (Data 0) false 1)));
   HostEvent host0 (at_ms 1910) (Some (datagram host1 host0 (RmAppendResponse 1 false 0 1)));
   HostEvent host0 (at_ms 2100) None;
   HostEvent host1 (at_ms 40) (Some (datagram host0 host1 (RmAppendEntries 1 0 1 1 0 (Data 0) false 1)))].

#[export] Instance raft_external_ok_dec m : Decision (raft_external_ok m).
Proof. unfold raft_external_ok. destruct (from_wire m); [right|left]; done. Defined.
#[export] Instance raft_state_ok_dec h : Decision (raft_state_ok h).
Proof. unfold raft_state_ok. apply _. Defined.

Definition st_start : RaftSystem := start (M := RaftMessage) two_hosts (at_ms 0).
Definition after (evs : list (Event RaftAmbient)) : RaftSystem :=
  played raft_external_ok raft_state_ok st_start evs.
Definition st_elected : RaftSystem := after election_events.
Definition st_replicated : RaftSystem := after (election_events ++ replication_events).
Definition st_leader_committed : RaftSystem :=
  after (election_events ++ replication_events ++ take 1 commit_events).
Definition st_committed : RaftSystem :=
  after (election_events ++ replication_events ++ commit_events).

Lemma st_start_init : raft_system_init two_hosts st_start.
Proof. apply start_init. repeat (constructor; [vm_compute; by eexists|]). constructor. Qed.

(** Playing a list of events is a run. *)
Lemma after_run evs :
  play raft_external_ok raft_state_ok st_start evs <> None -> rtc raft_step st_start (after evs).
Proof. apply played_steps. Qed.

(** * The theorems *)

(** ** Runs *)

(** A run of the hosts from their start. *)
Definition raft_run (args : Args) (st : RaftSystem) : Prop :=
  exists st0, raft_system_init args st0 /\ rtc raft_step st0 st.

(** The number of hosts for which the theorems hold: the program starts with
    two at least. *)
Definition host_count_ok (args : Args) : Prop := 2 <= num_servers args <= ISIZE_MAX.

Lemma raft_run_sim args st :
  host_count_ok args -> raft_run args st ->
  exists cl, rtc (cluster_step args) (cluster_init args) cl /\ wf args cl /\ raft_sim args st cl.
Proof.
  intros [Hmin Hmax] (st0 & Hi & Hs).
  pose proof (wf_init args) as Hwf.
  destruct (raft_sim_steps args Hmin Hmax _ _ _ Hwf (raft_sim_init args st0 Hi)
    (init_bytes args st0 Hi) Hs) as (cl & Hcl & Hsim).
  exists cl. split_and!; [done| |done]. by apply (wf_steps args Hmin Hmax (cluster_init args)).
Qed.

Lemma raft_run_bytes args st : raft_run args st -> sent_bytes st.
Proof. apply (generic_run_bytes raft_external_ok raft_state_ok). Qed.

(** A run and its continuation. *)
Lemma raft_run_sim2 args st st' :
  host_count_ok args -> raft_run args st -> rtc raft_step st st' ->
  exists cl cl', rtc (cluster_step args) (cluster_init args) cl /\ rtc (cluster_step args) cl cl'
    /\ raft_sim args st cl /\ raft_sim args st' cl'.
Proof.
  intros Hn Hr Hs. destruct (raft_run_sim args st Hn Hr) as (cl & Hcl & Hwf & Hsim).
  destruct Hn as [Hmin Hmax].
  destruct (raft_sim_steps args Hmin Hmax _ _ _ Hwf Hsim (raft_run_bytes args st Hr) Hs) as (cl' & Hcl' & Hsim').
  by exists cl, cl'.
Qed.

Lemma two_hosts_ok : host_count_ok two_hosts.
Proof. split; vm_compute; discriminate. Qed.

Definition host_of (st : RaftSystem) (e : EndPoint) : RaftProcess :=
  default (MkGenericHostState (MkRaftHost (CInit (consts two_hosts e)) 0 0 0 0)
             (MkRaftConfig [] 0 (consts two_hosts e)) e) (gs_hosts st !! e).

(** ** Safety *)

(** C9: agreement. Take two hosts at two times of a run (or one host at both).
    Whatever both have committed is the same: at each index below both commit
    indices, both logs hold an entry with the same value and payload. *)
Theorem raft_hosts_agree (args : Args) (st st' : RaftSystem) e h e' h' n :
  host_count_ok args -> raft_run args st -> rtc raft_step st st' ->
  gs_hosts st !! e = Some h -> gs_hosts st' !! e' = Some h' ->
  n <= commit_index (server h) -> n <= commit_index (server h') ->
  agree (log (server h)) (log (server h')) n.
Proof.
  intros Hn Hr Hs Hh Hh' Hc Hc'.
  destruct (raft_run_sim2 args st st' Hn Hr Hs) as (cl & cl' & Hcl & Hcl' & [Hsim _] & [Hsim' _]).
  destruct Hn as [Hmin Hmax]. destruct (Hsim e h Hh) as (_ & _ & Hsrv).
  destruct (Hsim' e' h' Hh') as (_ & _ & Hsrv').
  exact (committed_agree args Hmin Hmax cl cl' e _ e' _ n Hcl Hcl' Hsrv Hsrv' Hc Hc').
Qed.

(** The leader when it has committed its client's entry, and host 1 later. *)
Lemma raft_hosts_agree_witness :
  commit_index (server (host_of st_leader_committed host0)) = 1
  /\ commit_index (server (host_of st_committed host1)) = 1
  /\ agree (log (server (host_of st_leader_committed host0)))
       (log (server (host_of st_committed host1))) 1.
Proof.
  split; [vm_compute; reflexivity|]. split; [vm_compute; reflexivity|].
  apply (raft_hosts_agree two_hosts st_leader_committed st_committed host0
           (host_of st_leader_committed host0) host1 (host_of st_committed host1) 1).
  - exact two_hosts_ok.
  - exists st_start. split; [exact st_start_init|]. apply after_run. vm_compute. discriminate.
  - apply (play_steps raft_external_ok raft_state_ok (drop 1 commit_events)). vm_compute. reflexivity.
  - vm_compute. reflexivity.
  - vm_compute. reflexivity.
  - vm_compute. discriminate.
  - vm_compute. discriminate.
Defined.

(** C10: one leader. Two hosts that lead in the same term, at whatever times of
    a run, are the same host. *)
Theorem raft_one_leader_per_term (args : Args) (st st' : RaftSystem) e h e' h' :
  host_count_ok args -> raft_run args st -> rtc raft_step st st' ->
  gs_hosts st !! e = Some h -> gs_hosts st' !! e' = Some h' ->
  role (server h) = Leader -> role (server h') = Leader ->
  current_term (server h) = current_term (server h') -> e = e'.
Proof.
  intros Hn Hr Hs Hh Hh' Hl Hl' Ht.
  destruct (raft_run_sim2 args st st' Hn Hr Hs) as (cl & cl' & Hcl & Hcl' & [Hsim _] & [Hsim' _]).
  destruct Hn as [Hmin Hmax]. destruct (Hsim e h Hh) as (_ & _ & Hsrv).
  destruct (Hsim' e' h' Hh') as (_ & _ & Hsrv').
  exact (one_leader args Hmin Hmax cl cl' e _ e' _ Hcl Hcl' Hsrv Hsrv' Hl Hl' Ht).
Qed.

Lemma raft_one_leader_per_term_witness :
  role (server (host_of st_elected host0)) = Leader
  /\ forall h e h', gs_hosts st_elected !! host0 = Some h -> gs_hosts st_elected !! e = Some h' ->
       role (server h) = Leader -> role (server h') = Leader ->
       current_term (server h) = current_term (server h') -> host0 = e.
Proof.
  split; [vm_compute; reflexivity|]. intros h e h' Hh Hh' Hl Hl' Ht.
  apply (raft_one_leader_per_term two_hosts st_elected st_elected host0 h e h'); [..|exact Ht].
  - exact two_hosts_ok.
  - exists st_start. split; [exact st_start_init|]. apply after_run. vm_compute. discriminate.
  - apply rtc_refl.
  - exact Hh.
  - exact Hh'.
  - exact Hl.
  - exact Hl'.
Defined.

(** C11: the running hosts refine the protocol. They start in the protocol's
    initial state, and whenever a host takes an iteration of its loop, or
    anything else happens, each host's server moves by steps of LNext (none,
    one or several; a heartbeat and the handling of a message are one
    iteration). *)
Theorem raft_hosts_refine_protocol (args : Args) (st st' : RaftSystem) :
  host_count_ok args ->
  (raft_system_init args st -> forall e h, gs_hosts st !! e = Some h ->
     LInit (view (server h)) (consts args e))
  /\ (raft_run args st -> raft_step st st' -> forall e h h',
     gs_hosts st !! e = Some h -> gs_hosts st' !! e = Some h' ->
     rtc (fun s s_ => LNext s s_ (consts args e)) (view (server h)) (view (server h'))).
Proof.
  intros Hn. split.
  - intros Hi e h Hh. destruct (raft_sim_init args st Hi) as [Hsim _].
    destruct (Hsim e h Hh) as (_ & _ & Hsrv). unfold cluster_init in Hsrv. cbn in Hsrv.
    apply lookup_gset_to_gmap_Some in Hsrv as [_ <-].
    exact (proj2 (CInit_refines (consts args e))).
  - intros Hr Hstep. destruct (raft_run_sim args st Hn Hr) as (cl & _ & Hwf & Hsim).
    destruct Hn as [Hmin Hmax].
    exact (proj1 (raft_sim_step args Hmin Hmax st cl st' Hwf Hsim (raft_run_bytes args st Hr) Hstep)).
Qed.

Lemma raft_hosts_refine_protocol_witness :
  rtc (fun s s_ => LNext s s_ (consts two_hosts host0))
    (view (server (host_of st_start host0)))
    (view (server (host_of (after (take 1 election_events)) host0))).
Proof.
  destruct (raft_hosts_refine_protocol two_hosts st_start (after (take 1 election_events)) two_hosts_ok)
    as [_ H].
  apply H.
  - exists st_start. split; [exact st_start_init|apply rtc_refl].
  - apply (play_event_step raft_external_ok raft_state_ok st_start (HostEvent host0 (at_ms 1500) None)). vm_compute. reflexivity.
  - vm_compute. reflexivity.
  - vm_compute. reflexivity.
Defined.

(** C12: log matching. In every state of a run, if two hosts' logs hold entries
    of the same term at an index, the logs say the same up to that index. *)
Theorem raft_logs_match (args : Args) (st : RaftSystem) e h e' h' i x x' :
  host_count_ok args -> raft_run args st ->
  gs_hosts st !! e = Some h -> gs_hosts st !! e' = Some h' ->
  seq_get (log (server h)) i = Some x -> seq_get (log (server h')) i = Some x' -> term x = term x' ->
  agree (log (server h)) (log (server h')) (i + 1).
Proof.
  intros Hn Hr Hh Hh' Hx Hx' Ht. destruct (raft_run_sim args st Hn Hr) as (cl & Hcl & _ & [Hsim _]).
  destruct Hn as [Hmin Hmax]. destruct (Hsim e h Hh) as (_ & _ & Hsrv).
  destruct (Hsim e' h' Hh') as (_ & _ & Hsrv').
  exact (reachable_matching args Hmin Hmax cl e _ e' _ i x x' Hcl Hsrv Hsrv' Hx Hx' Ht).
Qed.

Lemma raft_logs_match_witness :
  agree (log (server (host_of st_replicated host0))) (log (server (host_of st_replicated host1))) 1.
Proof.
  apply (raft_logs_match two_hosts st_replicated host0 (host_of st_replicated host0) host1
           (host_of st_replicated host1) 0 (MkLLogEntry 1 7 (Data 7)) (MkLLogEntry 1 7 (Data 7))).
  - exact two_hosts_ok.
  - exists st_start. split; [exact st_start_init|]. apply after_run. vm_compute. discriminate.
  - vm_compute. reflexivity.
  - vm_compute. reflexivity.
  - vm_compute. reflexivity.
  - vm_compute. reflexivity.
  - reflexivity.
Defined.

(** ** Quorums *)

(** Quorums meet. Two quorums of one membership phase, or of a phase and a
    legal successor of it (a stable configuration, the joint phase that leaves
    it, the configuration the joint phase ends in), have a server in common
    that belongs to the configuration the two phases share. *)
Theorem raft_quorums_meet (phase phase_ : MembershipPhase) (Q Q_ : gset Z) :
  phase_ = phase \/ is_legal_phase_progression phase phase_ ->
  is_quorum_for_phase Q phase -> is_quorum_for_phase Q_ phase_ ->
  exists v, v ∈ Q /\ v ∈ Q_ /\ v ∈ shared_config phase.
Proof.
  intros Hp HQ%quorum_shared_config HQ_.
  assert (is_majority_of (Q_ ∩ shared_config phase) (shared_config phase)) as HQ'.
  { destruct Hp as [->|Hp]; [by apply quorum_shared_config|by apply (quorum_successor_config phase phase_)]. }
  destruct (is_majority_of_meet _ _ _ HQ HQ') as (v & Hv & Hv').
  exists v. set_solver.
Qed.

(** The joint phase from {1, 2, 3} to {3, 4, 5}, entered from {1, 2, 3}. *)
Lemma raft_quorums_meet_witness :
  exists v, v ∈ ({[1; 2]} : gset Z) /\ v ∈ ({[2; 3; 4]} : gset Z)
    /\ v ∈ shared_config (Stable {[1; 2; 3]}).
Proof.
  apply (raft_quorums_meet (Stable {[1; 2; 3]}) (Joint {[1; 2; 3]} {[3; 4; 5]}) {[1; 2]} {[2; 3; 4]}).
  - right. reflexivity.
  - apply (bool_decide_eq_true_1 (is_quorum_for_phase {[1; 2]} (Stable {[1; 2; 3]}))).
    vm_compute. reflexivity.
  - apply (bool_decide_eq_true_1 (is_quorum_for_phase {[2; 3; 4]} (Joint {[1; 2; 3]} {[3; 4; 5]}))).
    vm_compute. reflexivity.
Defined.

(** C36: the executable quorum tests decide the protocol's. For a server with
    64-bit constants: the votes with one more voter make a quorum of the latest
    membership phase in the log; the servers that hold a prefix of the log make
    a quorum of the phase committed; and the interval up to a new commit index
    holds no configuration before its last entry. *)
Theorem raft_quorum_tests_decide (s : CState) (c : CConstants) voter idx :
  valid s -> valid c -> is_u64 idx ->
  Chas_active_election_quorum_after_vote s c voter
    = bool_decide (has_active_election_quorum_after_vote (view s) c voter)
  /\ Chas_active_commit_quorum s c idx = bool_decide (has_active_commit_quorum (view s) c idx)
  /\ (commit_index s < idx <= seq_len (log s) ->
      Ccommit_interval_stops_at_first_configuration s idx = true
      <-> commit_interval_stops_at_first_configuration (log s) (commit_index s) idx).
Proof.
  intros (_ & _ & _ & Hci & _) Hc Hidx. destruct Hci as [? ?]. split_and!.
  - apply Chas_active_election_quorum_after_vote_spec.
  - by apply Chas_active_commit_quorum_spec.
  - intros Hi. by apply Ccommit_interval_spec.
Qed.

(** A leader with three servers whose log holds a joint configuration. *)
Definition joint_phase : LMembershipPhase :=
  LJoint (MkLMembershipConfig [1; 2; 3]) (MkLMembershipConfig [3; 4; 5]).
Definition joint_state : CState :=
  {| current_term := 2; role := Candidate; has_voted := true; voted_for := 1;
     log := [MkLLogEntry 1 0 (Configuration joint_phase)]; commit_index := 0;
     votes_granted := {[1; 3]}; election_membership_phase := None; match_index := ∅; next_index := ∅ |}.
Definition three_servers : CConstants := MkLConstants {[1; 2; 3]} 2 1.

Lemma joint_state_valid : valid joint_state.
Proof.
  split_and!; cbn; try done.
  - constructor; [|done]. split_and!; try done. split; repeat (apply Forall_cons; split); try done; apply Forall_nil_2.
  - intros v Hv. assert (v = 1 \/ v = 3) as [->| ->] by set_solver; by split.
Qed.

Lemma three_servers_valid : valid three_servers.
Proof.
  split_and!; cbn; try done.
  intros v Hv. assert (v = 1 \/ v = 2 \/ v = 3) as [->|[->| ->]] by set_solver; by split.
Qed.

Lemma raft_quorum_tests_decide_witness :
  Chas_active_election_quorum_after_vote joint_state three_servers 2 = false
  /\ ~ has_active_election_quorum_after_vote (view joint_state) three_servers 2
  /\ has_active_election_quorum_after_vote (view joint_state) three_servers 4.
Proof.
  destruct (raft_quorum_tests_decide joint_state three_servers 2 1) as [H2 _]; [exact joint_state_valid|exact three_servers_valid|by split|].
  destruct (raft_quorum_tests_decide joint_state three_servers 4 1) as [H4 _]; [exact joint_state_valid|exact three_servers_valid|by split|].
  split_and!.
  - vm_compute. reflexivity.
  - apply (bool_decide_eq_false_1 _). rewrite <- H2. vm_compute. reflexivity.
  - apply (bool_decide_eq_true_1 _). rewrite <- H4. vm_compute. reflexivity.
Defined.

(** The search for the commit index. On a leader's timer, the two loops
    over the log find the highest index that may be committed (an entry of the
    current term, held by a quorum of the committed membership phase, with no
    configuration before it in the interval), and none exactly when there is
    none; the server then commits to it, all its guards passing. *)
Theorem raft_commit_search (config : RaftConfig) (s : CState) :
  valid s -> valid (constants config) -> role s = Leader ->
  commit_index s <= seq_len (log s) -> seq_len (log s) < U64_MODULUS ->
  match find_commit_index config s with
  | Some n =>
      committable s (constants config) n
      /\ (forall n', committable s (constants config) n' -> n' <= n)
      /\ commit_index (CTryAdvanceCommitIndex s (constants config) n).1 = n
      /\ log (CTryAdvanceCommitIndex s (constants config) n).1 = log s
  | None => forall n', ~ committable s (constants config) n'
  end.
Proof.
  intros (_ & _ & _ & [Hci Hcu] & _) Hc Hr Hle Hlen.
  pose proof (committable_limit s (constants config)) as Hlim.
  assert (forall n, Chas_active_commit_quorum s (constants config) n = true
                    <-> has_active_commit_quorum (view s) (constants config) n) as Hquorum.
  { intros n. rewrite Chas_active_commit_quorum_spec by done. apply bool_decide_eq_true. }
  destruct (find_commit_index config s) as [n|] eqn:Hf.
  - destruct (find_commit_index_spec config s n) as (Hn & Ht & Hq & Hb); [lia|done|].
    split_and!.
    + split; [lia|]. split; [done|]. split; [by apply Hquorum|done].
    + intros n' Hn'. destruct (decide (n' <= n)) as [|Hgt]; [done|].
      specialize (Hlim n' ltac:(lia) Hn'). destruct Hn' as (Hrange & Ht' & Hq' & _).
      destruct (commit_scan_highest s (constants config) _ n n' Hf); [lia|].
      split; [done|by apply Hquorum].
    + by rewrite (advance_passes s _ n) by (done || (unfold is_u64; lia)).
    + by rewrite (advance_passes s _ n) by (done || (unfold is_u64; lia)).
  - intros n' Hn'. specialize (Hlim n' ltac:(lia) Hn'). destruct Hn' as (Hrange & Ht' & Hq' & _).
    destruct (commit_scan_none s (constants config) _ n' Hf); [lia|].
    split; [done|by apply Hquorum].
Qed.

(** A leader of three in term 2: two entries of its term, the first held by
    server 2. *)
Definition committing_leader : CState :=
  {| current_term := 2; role := Leader; has_voted := true; voted_for := 1;
     log := [MkLLogEntry 2 5 (Data 5); MkLLogEntry 2 6 (Data 6)]; commit_index := 0;
     votes_granted := ∅; election_membership_phase := None; match_index := {[2 := 1]};
     next_index := ∅ |}.
Definition leader_config : RaftConfig := MkRaftConfig [] 0 three_servers.

Lemma committing_leader_valid : valid committing_leader.
Proof.
  split_and!; cbn; try done.
  - repeat (constructor; [by split_and!|]). constructor.
  - intros k v [<- <-]%lookup_singleton_Some. by split.
Qed.

Lemma raft_commit_search_witness :
  find_commit_index leader_config committing_leader = Some 1
  /\ committable committing_leader three_servers 1 /\ ~ committable committing_leader three_servers 2.
Proof.
  assert (find_commit_index leader_config committing_leader = Some 1) as Hf by (vm_compute; reflexivity).
  pose proof (raft_commit_search leader_config committing_leader committing_leader_valid three_servers_valid
    eq_refl ltac:(vm_compute; discriminate) ltac:(vm_compute; reflexivity)) as H.
  rewrite Hf in H. destruct H as (H1 & Hmax & _). split; [exact Hf|]. split; [exact H1|].
  intros H2. specialize (Hmax 2 H2). lia.
Defined.

(** ** The wire *)

(** Messages survive the wire. A valid protocol message whose payload is
    data, serialized and read by the receiver, whatever bytes follow in the
    datagram, is the same message; a datagram cut short anywhere is rejected;
    and a message read from any datagram has 64-bit fields. *)
Theorem raft_message_survives (cm : CRaftMessage) (rest : list Z) :
  valid cm -> carries_data cm ->
  (m ← raft_deserialize_from_bytes (raft_serialize_to_bytes (to_wire cm) [] ++ rest); from_wire m) = Some cm
  /\ (forall k, (k < length (raft_serialize_to_bytes (to_wire cm) []))%nat ->
        raft_deserialize_from_bytes (take k (raft_serialize_to_bytes (to_wire cm) [])) = None)
  /\ (forall m, Forall is_u8 rest -> raft_deserialize_from_bytes rest = Some m ->
        forall cm', from_wire m = Some cm' -> valid cm' /\ carries_data cm').
Proof.
  intros Hv Hc. split_and!.
  - rewrite raft_roundtrip by by apply to_wire_valid. rewrite received_to_wire by done. cbn.
    apply to_wire_from_wire.
  - intros k. apply raft_truncated. by apply to_wire_valid.
  - intros m Hu Hm cm' Hcm'. destruct (raft_deserialize_valid rest m Hu Hm) as [Hw Hr].
    by apply (from_wire_valid m).
Qed.

Lemma raft_message_survives_witness :
  let cm := AppendEntries 3 1 4 2 77 (Data 77) true 4 in
  (m ← raft_deserialize_from_bytes (raft_serialize_to_bytes (to_wire cm) [] ++ [1; 2; 3]); from_wire m)
    = Some cm
  /\ raft_deserialize_from_bytes (take 71 (raft_serialize_to_bytes (to_wire cm) [])) = None.
Proof.
  intros cm. destruct (raft_message_survives cm [1; 2; 3]) as (H & Hk & _).
  - unfold cm. cbn. split_and!; done.
  - reflexivity.
  - split; [exact H|]. apply Hk. vm_compute. apply le_n.
Defined.

(** ** The atomic protocol *)

(** The composite protocol refines the atomic one. Every step of LNext,
    whose handlers step down and then act, is a stutter, one step or two steps
    of LNextAtomic, whose actions each do one thing. *)
Theorem raft_composite_refines_atomic (s s_ : LState) (c : LConstants) :
  LNext s s_ c -> refines_atomic s s_ c.
Proof. apply LNext_refines_atomic. Qed.

(** A follower of term 1 that steps down to term 2 and votes. *)
Definition voter_state : CState := (CInit three_servers).

Lemma raft_composite_refines_atomic_witness :
  refines_atomic (view voter_state)
    (view (CHandleMessage voter_state three_servers (RequestVote 2 3 0 0)).1) three_servers.
Proof.
  apply raft_composite_refines_atomic. do 4 right. left.
  exists (RequestVote 2 3 0 0), (CHandleMessage voter_state three_servers (RequestVote 2 3 0 0)).2.
  apply CHandleMessage_refines.
  - apply (CInit_refines three_servers).
  - exact three_servers_valid.
  - vm_compute. reflexivity.
  - cbn. split_and!; done.
Defined.

(** ** What the model shows of the code *)

(** After a follower acknowledges its whole log, the leader's next heartbeat
    names a previous entry beyond that log, and CSendAppendEntries's
    precondition fails; the follower rejects the heartbeat. *)
Example next_heartbeat_outruns_log :
  let leader := server (host_of st_leader_committed host0) in
  let heartbeat := heartbeat_message (ghs_config (host_of st_leader_committed host0)) 1 leader in
  seq_len (log leader) = 1
  /\ heartbeat = AppendEntries 1 0 2 0 0 (Data 0) false 1
  /\ (CHandleMessage (server (host_of st_leader_committed host1)) (consts two_hosts host1) heartbeat).2
     = [AppendResponse 1 false 0 1].
Proof. vm_compute. split_and!; reflexivity. Qed.

(** A leader answers a client before any other host has the entry. *)
Example client_answered_before_replication :
  let st := after (election_events ++ take 2 replication_events) in
  datagram host0 raft_client (RmClientResponse 5 1 true) ∈ gs_sent st
  /\ commit_index (server (host_of st host0)) = 0
  /\ log (server (host_of st host1)) = [].
Proof.
  split; [|vm_compute; split; reflexivity].
  apply (bool_decide_eq_true_1 (datagram host0 raft_client (RmClientResponse 5 1 true)
    ∈ gs_sent (after (election_events ++ take 2 replication_events)))).
  vm_compute. reflexivity.
Qed.

(** A leader of term 3 whose log holds two entries of term 2, and a follower
    with an empty log: the follower stores the first entry with term 3, and
    rejects whatever heartbeat the leader sends it afterwards. *)
Definition old_entries_leader (next : Z) : CState :=
  {| current_term := 3; role := Leader; has_voted := true; voted_for := 1;
     log := [MkLLogEntry 2 5 (Data 5); MkLLogEntry 2 6 (Data 6)]; commit_index := 0;
     votes_granted := ∅; election_membership_phase := None; match_index := ∅;
     next_index := {[2 := next]} |}.

Example older_entry_blocks_follower :
  let follower := MkLConstants {[1; 2; 3]} 2 2 in
  let s := (CHandleMessage (CInit follower) follower
              (heartbeat_message leader_config 2 (old_entries_leader 0))).1 in
  log s = [MkLLogEntry 3 5 (Data 5)]
  /\ forall next, next ∈ [0; 1; 2; 3] ->
       (CHandleMessage s follower (heartbeat_message leader_config 2 (old_entries_leader next))).2
       = [AppendResponse 3 false 0 2].
Proof.
  split; [vm_compute; reflexivity|]. intros next Hn.
  repeat (apply elem_of_cons in Hn as [->|Hn]; [vm_compute; reflexivity|]). by apply not_elem_of_nil in Hn.
Qed.
