(* ===== verification/TwoPhase.v ===== *)
(** * Two-phase commit: the protocol and its executable functions

    protocol/TwoPhase/{types,twophase}.rs: one transaction manager (TM) and a set
    of resource managers (RMs), with the global state of all of them; and
    generated/TwoPhase/{types_gen,twophase_gen}.rs: an executable function per
    action, a method on [&mut self] that gives the messages to send.

    The executable types are the protocol's at machine width; [Valid] bounds the
    servers' numbers.  [clone_hashset_u64] is the identity. *)

From stdpp Require Import prelude gmap sets list numbers fin_sets.
From Stdlib Require Import ZArith Lia.
From S2P Require Import Prelude.
From S2P Require Import Types.

#[local] Open Scope Z_scope.

(** ** Data *)

Inductive LTPCMessage :=
  | Prepare
  | PreparedVote (rm : Z)
  | Commit
  | Abort.

Inductive LTMState := TMInit | TMCommitted | TMAborted.

Inductive LRMState := RMWorking | RMPrepared | RMCommitted | RMAborted.

Record LState := MkLState
  { tm_state : LTMState;
    tm_prepared : gset Z;
    rm_prepared : gset Z;
    rm_committed : gset Z;
    rm_aborted : gset Z }.

Record LConstants := MkLConstants { rm : gset Z }.

#[export] Instance LTPCMessage_eq_dec : EqDecision LTPCMessage.
Proof. solve_decision. Defined.
#[export] Instance LTMState_eq_dec : EqDecision LTMState.
Proof. solve_decision. Defined.
#[export] Instance LState_eq_dec : EqDecision LState.
Proof. solve_decision. Defined.

(** ** The protocol *)

Section actions.
Implicit Types (s : LState) (c : LConstants) (sent_packets : list LTPCMessage).

Definition LInit s c : Prop :=
  s = {| tm_state := TMInit; tm_prepared := ∅; rm_prepared := ∅; rm_committed := ∅; rm_aborted := ∅ |}.

Definition LTMSendPrepare s (s_ : LState) c sent_packets : Prop :=
  tm_state s = TMInit /\ s_ = s /\ sent_packets = [Prepare].

Definition LRMReceivePrepare s (s_ : LState) c (r : Z) sent_packets : Prop :=
  r ∈ rm c /\ r ∉ rm_prepared s /\ r ∉ rm_aborted s
  /\ s_ = {| tm_state := tm_state s; tm_prepared := tm_prepared s;
             rm_prepared := {[r]} ∪ rm_prepared s;
             rm_committed := rm_committed s; rm_aborted := rm_aborted s |}
  /\ sent_packets = [PreparedVote r].

Definition LRMAbort s (s_ : LState) c (r : Z) sent_packets : Prop :=
  r ∈ rm c /\ r ∉ rm_prepared s /\ r ∉ rm_aborted s /\ r ∉ rm_committed s
  /\ s_ = {| tm_state := tm_state s; tm_prepared := tm_prepared s;
             rm_prepared := rm_prepared s; rm_committed := rm_committed s;
             rm_aborted := {[r]} ∪ rm_aborted s |}
  /\ sent_packets = [].

Definition LTMRcvPrepared s (s_ : LState) c (r : Z) sent_packets : Prop :=
  tm_state s = TMInit /\ r ∈ rm_prepared s
  /\ s_ = {| tm_state := TMInit; tm_prepared := {[r]} ∪ tm_prepared s;
             rm_prepared := rm_prepared s; rm_committed := rm_committed s;
             rm_aborted := rm_aborted s |}
  /\ sent_packets = [].

Definition LTMSendCommit s (s_ : LState) c sent_packets : Prop :=
  tm_state s = TMInit /\ tm_prepared s = rm c
  /\ s_ = {| tm_state := TMCommitted; tm_prepared := tm_prepared s;
             rm_prepared := rm_prepared s; rm_committed := rm_committed s;
             rm_aborted := rm_aborted s |}
  /\ sent_packets = [Commit].

Definition LTMSendAbort s (s_ : LState) c sent_packets : Prop :=
  tm_state s = TMInit
  /\ s_ = {| tm_state := TMAborted; tm_prepared := tm_prepared s;
             rm_prepared := rm_prepared s; rm_committed := rm_committed s;
             rm_aborted := rm_aborted s |}
  /\ sent_packets = [Abort].

Definition LRMReceiveCommit s (s_ : LState) c (r : Z) sent_packets : Prop :=
  r ∈ rm c /\ r ∈ rm_prepared s /\ r ∉ rm_committed s
  /\ s_ = {| tm_state := tm_state s; tm_prepared := tm_prepared s;
             rm_prepared := rm_prepared s; rm_committed := {[r]} ∪ rm_committed s;
             rm_aborted := rm_aborted s |}
  /\ sent_packets = [].

Definition LRMReceiveAbort s (s_ : LState) c (r : Z) sent_packets : Prop :=
  r ∈ rm c /\ r ∉ rm_committed s /\ r ∉ rm_aborted s
  /\ s_ = {| tm_state := tm_state s; tm_prepared := tm_prepared s;
             rm_prepared := rm_prepared s; rm_committed := rm_committed s;
             rm_aborted := {[r]} ∪ rm_aborted s |}
  /\ sent_packets = [].

Definition LNext s (s_ : LState) c : Prop :=
  (exists sent_packets, LTMSendPrepare s s_ c sent_packets)
  \/ (exists r sent_packets, LRMReceivePrepare s s_ c r sent_packets)
  \/ (exists r sent_packets, LRMAbort s s_ c r sent_packets)
  \/ (exists r sent_packets, LTMRcvPrepared s s_ c r sent_packets)
  \/ (exists sent_packets, LTMSendCommit s s_ c sent_packets)
  \/ (exists sent_packets, LTMSendAbort s s_ c sent_packets)
  \/ (exists r sent_packets, LRMReceiveCommit s s_ c r sent_packets)
  \/ (exists r sent_packets, LRMReceiveAbort s s_ c r sent_packets).

Definition LSafetyNoCommitAbortOverlap s c : Prop :=
  forall r, r ∈ rm_committed s -> r ∉ rm_aborted s.

Definition LSafetyCommittedSubsetPrepared s c : Prop :=
  forall r, r ∈ rm_committed s -> r ∈ rm_prepared s.

Definition LSafetyTmCommittedRequiresAllPrepared s c : Prop :=
  tm_state s = TMCommitted -> tm_prepared s = rm c.
End actions.

(** ** The executable types and functions *)

Abbreviation CTPCMessage := LTPCMessage (only parsing).
Abbreviation CTMState := LTMState (only parsing).
Abbreviation CState := LState (only parsing).
Abbreviation CConstants := LConstants (only parsing).

#[export] Instance CTPCMessage_valid : Valid CTPCMessage := fun m =>
  match m with PreparedVote r => is_u64 r | _ => True end.

Definition u64_set (X : gset Z) : Prop := forall x, x ∈ X -> is_u64 x.

#[export] Instance CState_valid : Valid CState := fun s =>
  u64_set (tm_prepared s) /\ u64_set (rm_prepared s) /\ u64_set (rm_committed s)
  /\ u64_set (rm_aborted s).

#[export] Instance CConstants_valid : Valid CConstants := fun c => u64_set (rm c).

Section functions.
Implicit Types (s : CState) (c : CConstants).

Definition CInit c : CState :=
  {| tm_state := TMInit; tm_prepared := ∅; rm_prepared := ∅; rm_committed := ∅; rm_aborted := ∅ |}.

Definition CTMSendPrepare s c : CState * list CTPCMessage :=
  ({| tm_state := tm_state s; tm_prepared := tm_prepared s; rm_prepared := rm_prepared s;
      rm_committed := rm_committed s; rm_aborted := rm_aborted s |}, [Prepare]).

Definition CRMReceivePrepare s c (r : Z) : CState * list CTPCMessage :=
  let rm_prepared_ := {[r]} ∪ rm_prepared s in
  ({| tm_state := tm_state s; tm_prepared := tm_prepared s; rm_prepared := rm_prepared_;
      rm_committed := rm_committed s; rm_aborted := rm_aborted s |}, [PreparedVote r]).

Definition CRMAbort s c (r : Z) : CState * list CTPCMessage :=
  let rm_aborted_ := {[r]} ∪ rm_aborted s in
  ({| tm_state := tm_state s; tm_prepared := tm_prepared s; rm_prepared := rm_prepared s;
      rm_committed := rm_committed s; rm_aborted := rm_aborted_ |}, []).

Definition CTMRcvPrepared s c (r : Z) : CState * list CTPCMessage :=
  let tm_prepared_ := {[r]} ∪ tm_prepared s in
  ({| tm_state := TMInit; tm_prepared := tm_prepared_; rm_prepared := rm_prepared s;
      rm_committed := rm_committed s; rm_aborted := rm_aborted s |}, []).

Definition CTMSendCommit s c : CState * list CTPCMessage :=
  ({| tm_state := TMCommitted; tm_prepared := tm_prepared s; rm_prepared := rm_prepared s;
      rm_committed := rm_committed s; rm_aborted := rm_aborted s |}, [Commit]).

Definition CTMSendAbort s c : CState * list CTPCMessage :=
  ({| tm_state := TMAborted; tm_prepared := tm_prepared s; rm_prepared := rm_prepared s;
      rm_committed := rm_committed s; rm_aborted := rm_aborted s |}, [Abort]).

Definition CRMReceiveCommit s c (r : Z) : CState * list CTPCMessage :=
  let rm_committed_ := {[r]} ∪ rm_committed s in
  ({| tm_state := tm_state s; tm_prepared := tm_prepared s; rm_prepared := rm_prepared s;
      rm_committed := rm_committed_; rm_aborted := rm_aborted s |}, []).

Definition CRMReceiveAbort s c (r : Z) : CState * list CTPCMessage :=
  let rm_aborted_ := {[r]} ∪ rm_aborted s in
  ({| tm_state := tm_state s; tm_prepared := tm_prepared s; rm_prepared := rm_prepared s;
      rm_committed := rm_committed s; rm_aborted := rm_aborted_ |}, []).
End functions.

(** ** Invariants of the protocol *)

Definition LReachable (c : LConstants) (s : LState) : Prop :=
  exists s0, LInit s0 c /\ rtc (fun a b => LNext a b c) s0 s.

(** What is prepared is an RM, what the TM counts is prepared, and what is
    committed was prepared. *)
Record prepared_inv (c : LConstants) (s : LState) : Prop := MkPreparedInv
  { pi_rm : rm_prepared s ⊆ rm c;
    pi_tm : tm_prepared s ⊆ rm_prepared s;
    pi_committed : rm_committed s ⊆ rm_prepared s;
    pi_all : tm_state s = TMCommitted -> tm_prepared s = rm c }.

Lemma prepared_inv_step c s s_ : prepared_inv c s -> LNext s s_ c -> prepared_inv c s_.
Proof.
  intros [H1 H2 H3 H4] H.
  destruct H as [(? & _ & -> & _)|[(r & ? & ? & _ & _ & -> & _)|[(r & ? & _ & _ & _ & _ & -> & _)|
    [(r & ? & Ht & ? & -> & _)|[(? & ? & ? & -> & _)|[(? & ? & -> & _)|
    [(r & ? & ? & ? & _ & -> & _)|(r & ? & ? & _ & _ & -> & _)]]]]]]]; split; cbn; try done; set_solver.
Qed.

Lemma reachable_prepared c s : LReachable c s -> prepared_inv c s.
Proof.
  intros (s0 & -> & Hs).
  assert (prepared_inv c {| tm_state := TMInit; tm_prepared := ∅; rm_prepared := ∅; rm_committed := ∅;
    rm_aborted := ∅ |}) as H by (split; cbn; try done; set_solver).
  induction Hs as [|? ? ? Hstep _ IH]; [done|]. by eapply IH, prepared_inv_step.
Qed.
