(* ===== verification/TwoPhaseHost.v ===== *)
(** * The two-phase commit host

    implementation/TwoPhase/{message,host}.rs: the messages on the wire and the
    host of the generic loop.  The host with index 0 is the TM, the others are
    RMs; each keeps a whole protocol state, of which it uses its own part and,
    at the TM, a record of the RMs that have voted. *)

From stdpp Require Import prelude gmap sets list numbers fin_sets.
From Stdlib Require Import ZArith Lia.
From S2P Require Import Prelude.
From S2P Require Import Types.
From S2P Require Import Marshalling.
From S2P Require Import MarshallingLaws.
From S2P Require Import GenericHost.
From S2P Require Import FieldWire.
From S2P Require Import GenericSystem.
From S2P Require Import TwoPhase.

#[local] Open Scope Z_scope.

(** ** message.rs *)

Inductive TwoPhaseMessage :=
  | TpPrepare
  | TpPreparedVote (rm_id : Z)
  | TpCommit
  | TpAbort.

#[export] Instance TwoPhaseMessage_eq_dec : EqDecision TwoPhaseMessage.
Proof. solve_decision. Defined.

Definition TAG_PREPARE : Z := 1.
Definition TAG_PREPARED_VOTE : Z := 2.
Definition TAG_COMMIT : Z := 3.
Definition TAG_ABORT : Z := 4.

Definition twophase_fields (m : TwoPhaseMessage) : list Z :=
  match m with
  | TpPrepare => [TAG_PREPARE]
  | TpPreparedVote rm_id => [TAG_PREPARED_VOTE; rm_id]
  | TpCommit => [TAG_COMMIT]
  | TpAbort => [TAG_ABORT]
  end.

Definition twophase_serialize (m : TwoPhaseMessage) (buf : list Z) : list Z :=
  write_fields (twophase_fields m) buf.

Definition twophase_deserialize (data : list Z) : option TwoPhaseMessage :=
  if decide (seq_len data < 8) then None
  else
    let tag := read_u64 data 0 in
    if decide (tag = TAG_PREPARE) then Some TpPrepare
    else if decide (tag = TAG_PREPARED_VOTE) then
      if decide (seq_len data < 16) then None
      else Some (TpPreparedVote (read_u64 data 8))
    else if decide (tag = TAG_COMMIT) then Some TpCommit
    else if decide (tag = TAG_ABORT) then Some TpAbort
    else None.

#[export] Instance twophase_message : ProtocolMessage TwoPhaseMessage :=
  {| serialize_to_bytes := twophase_serialize;
     deserialize_from_bytes := twophase_deserialize |}.

(** ** host.rs: configuration *)

Record TwoPhaseConfig := MkTwoPhaseConfig
  { tp_peers : list EndPoint; tp_my_index : Z; tp_constants : CConstants }.

Definition twophase_parse_config (me : EndPoint) (args : Args) : option TwoPhaseConfig :=
  if decide (seq_len args < 2) then None
  else
    let '(peers, my_index) := parse_peers me 0 args ([], None) in
    my_index ← my_index;
    let rm_set := foldl (fun rm_set i => {[i]} ∪ rm_set) ∅ (seqZ 1 (seq_len peers - 1)) in
    Some (MkTwoPhaseConfig peers my_index (MkLConstants rm_set)).

(** ** host.rs: the host *)

Record TwoPhaseHost := MkTwoPhaseHost { tp_state : CState; action_index : Z }.

Local Abbreviation result := (StepResult TwoPhaseMessage).

Definition with_state (h : TwoPhaseHost) (s : CState) : TwoPhaseHost :=
  MkTwoPhaseHost s (action_index h).

Definition quiet : result := MkStepResult true OutNone.

Definition is_tm (config : TwoPhaseConfig) : bool := bool_decide (tp_my_index config = 0).

(** [config.peers[1..]]. *)
Definition rm_endpoints (config : TwoPhaseConfig) : list EndPoint :=
  drop 1 (tp_peers config).

Definition tm_try_send_prepare (h : TwoPhaseHost) (config : TwoPhaseConfig) : TwoPhaseHost * result :=
  if negb (bool_decide (tm_state (tp_state h) = TMInit)) then (h, quiet)
  else
    (with_state h (CTMSendPrepare (tp_state h) (tp_constants config)).1,
     MkStepResult true (OutBroadcast (rm_endpoints config) TpPrepare)).

(** The RM's vote is recorded first in [rm_prepared], then in [tm_prepared]. *)
Definition tm_receive_prepared (h : TwoPhaseHost) (config : TwoPhaseConfig) (rm_id : Z)
  : TwoPhaseHost * result :=
  let c := tp_constants config in
  if negb (bool_decide (tm_state (tp_state h) = TMInit)) then (h, quiet)
  else
    let s := tp_state h in
    let s :=
      if negb (bool_decide (rm_id ∈ rm_prepared s)) then
        if bool_decide (rm_id ∈ rm c) && negb (bool_decide (rm_id ∈ rm_aborted s))
        then (CRMReceivePrepare s c rm_id).1 else s
      else s in
    let s :=
      if bool_decide (rm_id ∈ rm_prepared s) && negb (bool_decide (rm_id ∈ tm_prepared s))
      then (CTMRcvPrepared s c rm_id).1 else s in
    (with_state h s, quiet).

(** The loop of [tm_try_send_commit] over the RMs. *)
Fixpoint all_in_tm_prepared (rms : list Z) (tm_prepared : gset Z) : bool :=
  match rms with
  | [] => true
  | r :: rms => if negb (bool_decide (r ∈ tm_prepared)) then false else all_in_tm_prepared rms tm_prepared
  end.

Definition tm_try_send_commit (h : TwoPhaseHost) (config : TwoPhaseConfig) : TwoPhaseHost * result :=
  let s := tp_state h in let c := tp_constants config in
  if negb (bool_decide (tm_state s = TMInit)) then (h, quiet)
  else if negb (size (tm_prepared s) =? size (rm c))%nat then (h, quiet)
  else if negb (all_in_tm_prepared (elements (rm c)) (tm_prepared s)) then (h, quiet)
  else
    (with_state h (CTMSendCommit s c).1,
     MkStepResult true (OutBroadcast (rm_endpoints config) TpCommit)).

Definition tm_try_send_abort (h : TwoPhaseHost) (config : TwoPhaseConfig) : TwoPhaseHost * result :=
  (h, quiet).

Definition tm_step (h : TwoPhaseHost) (config : TwoPhaseConfig)
    (packet : option (GenericPacket TwoPhaseMessage)) : TwoPhaseHost * result :=
  match packet with
  | Some pkt =>
      match gp_msg pkt with
      | TpPreparedVote rm_id => tm_receive_prepared h config rm_id
      | _ => (h, quiet)
      end
  | None =>
      let '(h', r) :=
        if decide (action_index h mod 3 = 0) then tm_try_send_prepare h config
        else if decide (action_index h mod 3 = 1) then tm_try_send_commit h config
        else tm_try_send_abort h config in
      (MkTwoPhaseHost (tp_state h') (u64_add (action_index h') 1), r)
  end.

Definition rm_receive_prepare (h : TwoPhaseHost) (config : TwoPhaseConfig) (rm_id : Z)
  : TwoPhaseHost * result :=
  let s := tp_state h in let c := tp_constants config in
  if negb (bool_decide (rm_id ∈ rm c)) || bool_decide (rm_id ∈ rm_prepared s)
     || bool_decide (rm_id ∈ rm_aborted s) then (h, quiet)
  else
    (with_state h (CRMReceivePrepare s c rm_id).1,
     MkStepResult true (OutSend (seq_index (tp_peers config) 0) (TpPreparedVote rm_id))).

Definition rm_receive_commit (h : TwoPhaseHost) (config : TwoPhaseConfig) (rm_id : Z)
  : TwoPhaseHost * result :=
  let s := tp_state h in let c := tp_constants config in
  if negb (bool_decide (rm_id ∈ rm c)) || negb (bool_decide (rm_id ∈ rm_prepared s))
     || bool_decide (rm_id ∈ rm_committed s) then (h, quiet)
  else (with_state h (CRMReceiveCommit s c rm_id).1, quiet).

Definition rm_receive_abort (h : TwoPhaseHost) (config : TwoPhaseConfig) (rm_id : Z)
  : TwoPhaseHost * result :=
  let s := tp_state h in let c := tp_constants config in
  if negb (bool_decide (rm_id ∈ rm c)) || bool_decide (rm_id ∈ rm_committed s)
     || bool_decide (rm_id ∈ rm_aborted s) then (h, quiet)
  else (with_state h (CRMReceiveAbort s c rm_id).1, quiet).

Definition rm_step (h : TwoPhaseHost) (config : TwoPhaseConfig)
    (packet : option (GenericPacket TwoPhaseMessage)) : TwoPhaseHost * result :=
  let my_rm_id := tp_my_index config in
  match packet with
  | Some pkt =>
      match gp_msg pkt with
      | TpPrepare => rm_receive_prepare h config my_rm_id
      | TpCommit => rm_receive_commit h config my_rm_id
      | TpAbort => rm_receive_abort h config my_rm_id
      | TpPreparedVote _ => (h, quiet)
      end
  | None => (h, quiet)
  end.

Definition twophase_init (config : TwoPhaseConfig) : option TwoPhaseHost :=
  Some (MkTwoPhaseHost (CInit (tp_constants config)) 0).

Definition twophase_next (h : TwoPhaseHost) (config : TwoPhaseConfig)
    (packet : option (GenericPacket TwoPhaseMessage)) : TwoPhaseHost * result :=
  if is_tm config then tm_step h config packet else rm_step h config packet.

#[export] Instance twophase_protocol_host : ProtocolHost unit TwoPhaseMessage TwoPhaseConfig TwoPhaseHost :=
  {| parse_config := twophase_parse_config;
     get_peers := tp_peers;
     protocol_init := fun _ => twophase_init;
     protocol_next := fun _ => twophase_next |}.

(** ** The wire *)

#[export] Program Instance twophase_wire_laws : WireLaws TwoPhaseMessage :=
  {| wire_ok := fun m => Forall is_u64 (twophase_fields m) |}.
Next Obligation. intros m. cbn. unfold twophase_serialize. rewrite write_fields_eq. apply field_bytes_u8. Qed.
Next Obligation.
  intros m Hm. cbn. unfold twophase_serialize, twophase_deserialize. rewrite write_fields_eq.
  rewrite app_nil_l, <- (app_nil_r (field_bytes _)).
  pose proof (field_bytes_reads (twophase_fields m) [] Hm) as H.
  destruct m; cbn [twophase_fields] in *; read_back H.
Qed.
Next Obligation.
  intros d m Hd. cbn. unfold twophase_deserialize.
  repeat (case_decide; try done); intros [= <-]; repeat (apply Forall_cons; split); try done.
  apply read_u64_is_u64; [done|lia..].
Qed.

(** ** The configuration *)

Section config.
Context (args : Args).

(** The RMs, and the constants every host has. *)
Definition rm_ids : gset Z := list_to_set (seqZ 1 (num_servers args - 1)).
Definition twophase_constants : CConstants := MkLConstants rm_ids.

Lemma elem_of_rm_ids i : i ∈ rm_ids <-> 1 <= i < num_servers args.
Proof. unfold rm_ids. rewrite elem_of_list_to_set, elem_of_seqZ. lia. Qed.

Lemma twophase_config_spec e cfg :
  twophase_parse_config e args = Some cfg ->
  2 <= num_servers args /\ tp_peers cfg = endpoints args /\ tp_constants cfg = twophase_constants
  /\ 0 <= tp_my_index cfg < num_servers args /\ ep args (tp_my_index cfg) = e.
Proof.
  unfold twophase_parse_config. case_decide as Hn; [done|].
  destruct (parse_peers_all args e) as (Hp & Hk & _).
  destruct (parse_peers e 0 args ([], None)) as [ps k]. cbn in *.
  destruct k as [k|]; [|done]. cbn. intros [= <-]. cbn. destruct (Hk k eq_refl) as [Hr He]. subst ps.
  rewrite seq_len_endpoints, insert_all_spec. unfold twophase_constants, rm_ids.
  split_and!; try done; try (unfold num_servers in *; lia). f_equal. apply (right_id_L ∅ (∪)).
Qed.
End config.

Lemma all_in_tm_prepared_spec rms X : all_in_tm_prepared rms X = true <-> forall r, r ∈ rms -> r ∈ X.
Proof.
  induction rms as [|r rms IH]; cbn; [set_solver|].
  case_bool_decide; cbn; [rewrite IH; set_solver|]. split; [done|set_solver].
Qed.
