(* ===== verification/TwoPhaseSystem.v ===== *)
(** * Two-phase commit among hosts

    The hosts of TwoPhaseHost.v over the network of GenericSystem.v, and the
    protocol's global state: the TM's decision and count are those of the host
    with index 0, an RM is prepared, committed or aborted when its own host says
    so.  Every step of the hosts is a step of LNext on the global state, or none.
    Others may send [TpPrepare] or bytes that do not parse: the hosts do not check
    who a message comes from, so a stranger's vote or decision is outside this
    model. *)

From stdpp Require Import prelude gmap sets list numbers fin_sets.
From Stdlib Require Import ZArith Lia.
From S2P Require Import Prelude.
From S2P Require Import Types.
From S2P Require Import Environment.
From S2P Require Import Marshalling.
From S2P Require Import GenericHost.
From S2P Require Import FieldWire.
From S2P Require Import GenericSystem.
From S2P Require Import TwoPhase.
From S2P Require Import TwoPhaseHost.

#[local] Open Scope Z_scope.

Abbreviation TwoPhaseProcess := (GenericHostState TwoPhaseConfig TwoPhaseHost).
Abbreviation TwoPhaseSystem := (GenericSystem TwoPhaseConfig TwoPhaseHost).

(** The protocol state that a process keeps, and its index. *)
Definition local_state (h : TwoPhaseProcess) : CState := tp_state (ghs_protocol h).
Definition index (h : TwoPhaseProcess) : Z := tp_my_index (ghs_config h).

Definition twophase_external_ok (m : TwoPhaseMessage) : Prop := m = TpPrepare.
Definition twophase_state_ok (h : TwoPhaseHost) : Prop := True.

Definition twophase_step : TwoPhaseSystem -> TwoPhaseSystem -> Prop :=
  generic_step (M := TwoPhaseMessage) (Ambient := unit) twophase_external_ok twophase_state_ok.
Definition twophase_run : Args -> TwoPhaseSystem -> Prop :=
  generic_run (M := TwoPhaseMessage) (Ambient := unit) twophase_external_ok twophase_state_ok.

(** ** What a call of [next] does

    The new protocol state and the messages to send. *)

Definition got (packet : option (GenericPacket TwoPhaseMessage)) (m : TwoPhaseMessage) : Prop :=
  exists pkt, packet = Some pkt /\ gp_msg pkt = m.

Inductive tp_effect (cfg : TwoPhaseConfig) (s : CState) (packet : option (GenericPacket TwoPhaseMessage))
  : CState -> list (EndPoint * TwoPhaseMessage) -> Prop :=
  | effect_none : tp_effect cfg s packet s []
  | effect_send_prepare dsts :
      tp_my_index cfg = 0 -> tm_state s = TMInit ->
      tp_effect cfg s packet s ((fun d => (d, TpPrepare)) <$> dsts)
  | effect_vote r s' :
      tp_my_index cfg = 0 -> got packet (TpPreparedVote r) ->
      tm_state s = TMInit -> tm_state s' = TMInit ->
      tm_prepared s' = tm_prepared s \/ tm_prepared s' = {[r]} ∪ tm_prepared s ->
      rm_prepared s' ⊆ {[r]} ∪ rm_prepared s ->
      tp_effect cfg s packet s' []
  | effect_send_commit dsts :
      tp_my_index cfg = 0 -> tm_state s = TMInit -> tm_prepared s = rm (tp_constants cfg) ->
      tp_effect cfg s packet (CTMSendCommit s (tp_constants cfg)).1 ((fun d => (d, TpCommit)) <$> dsts)
  | effect_prepare :
      let i := tp_my_index cfg in
      i <> 0 -> i ∈ rm (tp_constants cfg) -> i ∉ rm_prepared s -> i ∉ rm_aborted s ->
      tp_effect cfg s packet (CRMReceivePrepare s (tp_constants cfg) i).1
        [(seq_index (tp_peers cfg) 0, TpPreparedVote i)]
  | effect_commit :
      let i := tp_my_index cfg in
      i <> 0 -> got packet TpCommit -> i ∈ rm (tp_constants cfg) -> i ∈ rm_prepared s ->
      i ∉ rm_committed s ->
      tp_effect cfg s packet (CRMReceiveCommit s (tp_constants cfg) i).1 []
  | effect_abort :
      let i := tp_my_index cfg in
      i <> 0 -> got packet TpAbort -> i ∈ rm (tp_constants cfg) ->
      i ∉ rm_committed s -> i ∉ rm_aborted s ->
      tp_effect cfg s packet (CRMReceiveAbort s (tp_constants cfg) i).1 [].

(** The guards, as propositions. *)
Ltac decide_guards :=
  repeat match goal with
  | |- context [bool_decide ?P] =>
      destruct (bool_decide_reflect P); cbn [negb andb orb]
  end.

Lemma tm_receive_prepared_effect h cfg pkt r :
  tp_my_index cfg = 0 -> gp_msg pkt = TpPreparedVote r ->
  tp_effect cfg (tp_state h) (Some pkt) (tp_state (tm_receive_prepared h cfg r).1)
    (outbound_packets (sr_outbound (tm_receive_prepared h cfg r).2)).
Proof.
  intros Htm Hm. unfold tm_receive_prepared. case_bool_decide as Hi; cbn [negb]; [|apply effect_none].
  apply (effect_vote cfg _ _ r); [done|by exists pkt|done|..]; decide_guards; cbn; auto; set_solver.
Qed.

Lemma tm_try_send_commit_effect h cfg :
  tp_my_index cfg = 0 ->
  tp_effect cfg (tp_state h) None (tp_state (tm_try_send_commit h cfg).1)
    (outbound_packets (sr_outbound (tm_try_send_commit h cfg).2)).
Proof.
  intros Htm. unfold tm_try_send_commit. case_bool_decide as Hi; cbn [negb]; [|apply effect_none].
  destruct (_ =? _)%nat eqn:Hs; cbn [negb]; [apply Nat.eqb_eq in Hs|apply effect_none].
  destruct (all_in_tm_prepared _ _) eqn:Ha; cbn [negb]; [|apply effect_none].
  apply effect_send_commit; [done|done|].
  assert (rm (tp_constants cfg) ⊆ tm_prepared (tp_state h)) as Hsub.
  { intros r Hr. apply (proj1 (all_in_tm_prepared_spec _ _) Ha). by apply elem_of_elements. }
  symmetry. apply set_subseteq_size_eq; [done|lia].
Qed.

Lemma twophase_next_effect h cfg packet :
  tp_effect cfg (tp_state h) packet (tp_state (twophase_next h cfg packet).1)
    (outbound_packets (sr_outbound (twophase_next h cfg packet).2)).
Proof.
  unfold twophase_next, is_tm. case_bool_decide as Htm.
  - unfold tm_step. destruct packet as [pkt|].
    + destruct (gp_msg pkt) eqn:Hm; try apply effect_none. by apply tm_receive_prepared_effect.
    + case_decide; [|case_decide].
      * unfold tm_try_send_prepare. case_bool_decide as Hi; cbn [negb]; [|apply effect_none].
        assert ((CTMSendPrepare (tp_state h) (tp_constants cfg)).1 = tp_state h) as Heq
          by by destruct (tp_state h).
        cbn -[CTMSendPrepare]. rewrite Heq. by apply effect_send_prepare.
      * pose proof (tm_try_send_commit_effect h cfg Htm) as H'.
        by destruct (tm_try_send_commit h cfg).
      * apply effect_none.
  - unfold rm_step. destruct packet as [pkt|]; [|apply effect_none].
    destruct (gp_msg pkt) eqn:Hm; [|apply effect_none|..].
    + unfold rm_receive_prepare. decide_guards; try apply effect_none. by apply effect_prepare.
    + unfold rm_receive_commit. decide_guards; try apply effect_none.
      apply effect_commit; try done. by exists pkt.
    + unfold rm_receive_abort. decide_guards; try apply effect_none.
      apply effect_abort; try done. by exists pkt.
Qed.

Lemma effect_messages cfg s packet s' out d m :
  tp_effect cfg s packet s' out -> (d, m) ∈ out ->
  m = TpPrepare \/ m = TpCommit \/ m = TpPreparedVote (tp_my_index cfg).
Proof.
  intros [|dsts _ _|r s0 _ _ _ _ _ _|dsts _ _ _|i _ _ _ _|i _ _ _ _ _|i _ _ _ _ _] Hin;
    try by apply not_elem_of_nil in Hin.
  - apply list_elem_of_fmap in Hin as (d' & [= -> ->] & _). by left.
  - apply list_elem_of_fmap in Hin as (d' & [= -> ->] & _). by right; left.
  - apply list_elem_of_singleton in Hin as [= -> ->]. by right; right.
Qed.

(** ** The global state *)

Section simulation.
Context (args : Args) (Hmax : num_servers args <= ISIZE_MAX).
Local Abbreviation c := (twophase_constants args).
Implicit Types (st : GenericSystem TwoPhaseConfig TwoPhaseHost) (g : LState) (h : TwoPhaseProcess)
  (e : EndPoint) (out : list (EndPoint * TwoPhaseMessage)).

(** [g] is the global state of the hosts: the TM is the host with index 0. *)
Record abstracts st g : Prop := MkAbstracts
  { ab_host : forall e h, gs_hosts st !! e = Some h ->
      ghs_local_addr h = e /\ twophase_parse_config e args = Some (ghs_config h);
    ab_tm : forall e h, gs_hosts st !! e = Some h -> index h = 0 ->
      tm_state (local_state h) = tm_state g /\ tm_prepared (local_state h) = tm_prepared g;
    ab_rm : forall e h, gs_hosts st !! e = Some h -> index h <> 0 ->
      (index h ∈ rm_prepared (local_state h) <-> index h ∈ rm_prepared g)
      /\ (index h ∈ rm_committed (local_state h) <-> index h ∈ rm_committed g)
      /\ (index h ∈ rm_aborted (local_state h) <-> index h ∈ rm_aborted g) }.

(** What the messages in flight say is so, and the TM counts only votes. *)
Record messages_inv st g : Prop := MkMessagesInv
  { mi_vote : forall s d r, in_flight st s d (TpPreparedVote r) -> r ∈ rm_prepared g;
    mi_commit : forall s d, in_flight st s d TpCommit -> tm_state g = TMCommitted;
    mi_abort : forall s d, ~ in_flight st s d TpAbort;
    mi_committed : forall r, r ∈ rm_committed g -> tm_state g = TMCommitted;
    mi_aborted : rm_aborted g = ∅;
    mi_count : forall e h, gs_hosts st !! e = Some h -> index h = 0 ->
      rm_prepared (local_state h) ⊆ rm_prepared g }.

Definition tp_sim st g : Prop := abstracts st g /\ messages_inv st g.

Lemma host_index st g e h :
  abstracts st g -> gs_hosts st !! e = Some h ->
  0 <= index h < num_servers args /\ ep args (index h) = e /\ tp_constants (ghs_config h) = c
  /\ tp_peers (ghs_config h) = endpoints args.
Proof.
  intros Ha Hh. destruct (ab_host _ _ Ha e h Hh) as [_ Hc].
  by destruct (twophase_config_spec args e _ Hc) as (_ & ? & ? & ? & ?).
Qed.

(** No two hosts have one index. *)
Lemma index_inj st g e h e' h' :
  abstracts st g -> gs_hosts st !! e = Some h -> gs_hosts st !! e' = Some h' -> index h = index h' -> e = e'.
Proof.
  intros Ha Hh Hh' Hi. destruct (host_index st g e h Ha Hh) as (_ & <- & _).
  destruct (host_index st g e' h' Ha Hh') as (_ & <- & _). by rewrite Hi.
Qed.

Definition global_init : LState :=
  {| tm_state := TMInit; tm_prepared := ∅; rm_prepared := ∅; rm_committed := ∅; rm_aborted := ∅ |}.

Lemma tp_sim_init st :
  generic_system_init (M := TwoPhaseMessage) (Ambient := unit) args st -> tp_sim st global_init.
Proof.
  intros [Hsent Hhosts].
  assert (forall e h, gs_hosts st !! e = Some h ->
    ghs_local_addr h = e /\ twophase_parse_config e args = Some (ghs_config h)
    /\ local_state h = global_init) as Hh.
  { intros e h Hh. specialize (Hhosts e). rewrite Hh in Hhosts. destruct Hhosts as (_ & amb & Hi).
    unfold generic_init in Hi. cbn in Hi. destruct (twophase_parse_config e args) as [cfg|]; [|done].
    cbn in Hi. injection Hi as <-. done. }
  assert (forall s d m, ~ in_flight st s d m) as Hno.
  { intros s d m (bytes & Hin & _). rewrite Hsent in Hin. by apply elem_of_empty in Hin. }
  split; split.
  - intros e h He. by destruct (Hh e h He) as (? & ? & _).
  - intros e h He _. by destruct (Hh e h He) as (_ & _ & ->).
  - intros e h He _. by destruct (Hh e h He) as (_ & _ & ->).
  - intros s d r Hf. by destruct (Hno _ _ _ Hf).
  - intros s d Hf. by destruct (Hno _ _ _ Hf).
  - intros s d Hf. by destruct (Hno _ _ _ Hf).
  - cbn. set_solver.
  - done.
  - intros e h He _. destruct (Hh e h He) as (_ & _ & ->). cbn. set_solver.
Qed.

(** The host at [e] takes its new state, and the global state follows. *)
Lemma abstracts_update st st' g g' e h p :
  abstracts st g -> gs_hosts st !! e = Some h ->
  let h' := MkGenericHostState p (ghs_config h) (ghs_local_addr h) in
  gs_hosts st' = <[e := h']> (gs_hosts st) ->
  (index h = 0 -> tm_state (tp_state p) = tm_state g' /\ tm_prepared (tp_state p) = tm_prepared g') ->
  (index h <> 0 -> tm_state g' = tm_state g /\ tm_prepared g' = tm_prepared g) ->
  (index h <> 0 ->
     (index h ∈ rm_prepared (tp_state p) <-> index h ∈ rm_prepared g')
     /\ (index h ∈ rm_committed (tp_state p) <-> index h ∈ rm_committed g')
     /\ (index h ∈ rm_aborted (tp_state p) <-> index h ∈ rm_aborted g')) ->
  (forall i, i <> index h -> (i ∈ rm_prepared g' <-> i ∈ rm_prepared g)
     /\ (i ∈ rm_committed g' <-> i ∈ rm_committed g) /\ (i ∈ rm_aborted g' <-> i ∈ rm_aborted g)) ->
  abstracts st' g'.
Proof.
  intros Ha Hh h' Hst' Htm Htm' Hrm Hother. split; intros e' h0 Hh0; rewrite Hst' in Hh0;
    apply lookup_insert_Some in Hh0 as [[<- <-]|[Hne Hh0]].
  - exact (ab_host st g Ha e h Hh).
  - exact (ab_host st g Ha e' h0 Hh0).
  - intros Hi. by apply Htm.
  - intros Hi. destruct (ab_tm _ _ Ha e' h0 Hh0 Hi) as [-> ->].
    assert (index h <> 0) as Hn.
    { intros Hn. apply Hne. apply (index_inj st g e h e' h0); congruence. }
    by destruct (Htm' Hn) as [-> ->].
  - intros Hi. by apply Hrm.
  - intros Hi. assert (index h0 <> index h) as Hn.
    { intros Hn. apply Hne. exact (index_inj st g e h e' h0 Ha Hh Hh0 (eq_sym Hn)). }
    destruct (Hother _ Hn) as (-> & -> & ->). exact (ab_rm st g Ha e' h0 Hh0 Hi).
Qed.

(** The messages in flight after an iteration that sends [out]. *)
Lemma messages_update st st' g g' e h p out :
  messages_inv st g -> gs_hosts st !! e = Some h ->
  gs_hosts st' = <[e := MkGenericHostState p (ghs_config h) (ghs_local_addr h)]> (gs_hosts st) ->
  (forall s d m, in_flight st' s d m -> in_flight st s d m \/ (d, m) ∈ out) ->
  rm_prepared g ⊆ rm_prepared g' ->
  (tm_state g = TMCommitted -> tm_state g' = TMCommitted) ->
  (forall d r, (d, TpPreparedVote r) ∈ out -> r ∈ rm_prepared g') ->
  (forall d, (d, TpCommit) ∈ out -> tm_state g' = TMCommitted) ->
  (forall d, (d, TpAbort) ∉ out) ->
  (forall r, r ∈ rm_committed g' -> r ∈ rm_committed g \/ tm_state g' = TMCommitted) ->
  rm_aborted g' = ∅ ->
  (index h = 0 -> rm_prepared (tp_state p) ⊆ rm_prepared g') ->
  messages_inv st' g'.
Proof.
  intros Hm Hh Hst' Hflight Hprep Htm Hvote Hcommit Habort Hcommitted Haborted Hcount. split.
  - intros s d r [Hf|Hf]%Hflight; [by apply Hprep, (mi_vote _ _ Hm s d)|by apply (Hvote d)].
  - intros s d [Hf|Hf]%Hflight; [by apply Htm, (mi_commit _ _ Hm s d)|by apply (Hcommit d)].
  - intros s d [Hf|Hf]%Hflight; [by apply (mi_abort _ _ Hm s d)|by apply (Habort d)].
  - intros r [Hr|Hr]%Hcommitted; [by apply Htm, (mi_committed _ _ Hm r)|done].
  - done.
  - intros e' h0. rewrite Hst'. intros [[<- <-]|[_ Hh0]]%lookup_insert_Some Hi; [by apply Hcount|].
    etrans; [by apply (mi_count _ _ Hm e' h0)|done].
Qed.

Lemma no_message (d : EndPoint) (m : TwoPhaseMessage) (P : Prop) :
  (d, m) ∈ ([] : list (EndPoint * TwoPhaseMessage)) -> P.
Proof. by intros ?%not_elem_of_nil. Qed.

Lemma broadcast_message (d : EndPoint) (m m' : TwoPhaseMessage) dsts :
  (d, m) ∈ ((fun d' => (d', m')) <$> dsts : list (EndPoint * TwoPhaseMessage)) -> m = m'.
Proof. intros (d' & [= -> ->] & _)%list_elem_of_fmap. done. Qed.

(** ** One call of a host's [next] *)

Section iteration.
Context (st st' : GenericSystem TwoPhaseConfig TwoPhaseHost) (g : LState) (e : EndPoint)
  (h : TwoPhaseProcess) (p : TwoPhaseHost) (out : list (EndPoint * TwoPhaseMessage)).
Context (Hsim : tp_sim st g) (Hh : gs_hosts st !! e = Some h)
  (Hst' : gs_hosts st' = <[e := MkGenericHostState p (ghs_config h) (ghs_local_addr h)]> (gs_hosts st))
  (Hflight : forall s d m, in_flight st' s d m -> in_flight st s d m \/ (d, m) ∈ out).
Local Abbreviation cfg := (ghs_config h).
Local Abbreviation s := (local_state h).

(** The global state follows with a step of LNext, or stays. *)
Definition followed : Prop := exists g', (g' = g \/ LNext g g' c) /\ tp_sim st' g'.

Let Ha : abstracts st g := proj1 Hsim.
Let Hm : messages_inv st g := proj2 Hsim.

Lemma followed_same :
  (forall d m, (d, m) ∈ out -> m = TpPrepare) ->
  tm_state (tp_state p) = tm_state s -> tm_prepared (tp_state p) = tm_prepared s ->
  (index h <> 0 -> tp_state p = s) ->
  (index h = 0 -> rm_prepared (tp_state p) ⊆ rm_prepared g) ->
  followed.
Proof.
  intros Hout Ht Hp Hsame Hcount. exists g. split; [by left|]. split.
  - apply (abstracts_update st st' g g e h p Ha Hh Hst'); [|done| |done].
    + intros Hi. rewrite Ht, Hp. exact (ab_tm _ _ Ha e h Hh Hi).
    + intros Hi. rewrite Hsame by done. exact (ab_rm _ _ Ha e h Hh Hi).
  - apply (messages_update st st' g g e h p out Hm Hh Hst' Hflight); try done.
    + intros d r Hd. by specialize (Hout _ _ Hd).
    + intros d Hd. by specialize (Hout _ _ Hd).
    + intros d Hd. by specialize (Hout _ _ Hd).
    + by left.
    + exact (mi_aborted _ _ Hm).
Qed.

Lemma followed_unchanged : tp_state p = s -> (forall d m, (d, m) ∈ out -> m = TpPrepare) -> followed.
Proof.
  intros Hs Hout. apply followed_same; rewrite ?Hs; try done. exact (mi_count _ _ Hm e h Hh).
Qed.

Lemma followed_vote r :
  out = [] -> index h = 0 -> r ∈ rm_prepared g -> tm_state s = TMInit -> tm_state (tp_state p) = TMInit ->
  tm_prepared (tp_state p) = tm_prepared s \/ tm_prepared (tp_state p) = {[r]} ∪ tm_prepared s ->
  rm_prepared (tp_state p) ⊆ {[r]} ∪ rm_prepared s ->
  followed.
Proof.
  intros Hout Hi Hr Ht Ht' Hcnt Hsub. destruct (ab_tm _ _ Ha e h Hh Hi) as [Htg Hpg].
  pose proof (mi_count _ _ Hm e h Hh Hi) as Hcount.
  assert (rm_prepared (tp_state p) ⊆ rm_prepared g) as Hsub' by set_solver.
  destruct Hcnt as [Hcnt|Hcnt].
  { apply followed_same; try done; [|congruence]. rewrite Hout. intros d m. by intros ?%not_elem_of_nil. }
  exists {| tm_state := TMInit; tm_prepared := {[r]} ∪ tm_prepared g; rm_prepared := rm_prepared g;
            rm_committed := rm_committed g; rm_aborted := rm_aborted g |}. split.
  { right. do 3 right. left. exists r, []. split_and!; [congruence|done|done|done]. }
  split.
  - apply (abstracts_update st st' g _ e h p Ha Hh Hst'); cbn; try done.
    intros _. by rewrite Ht', Hcnt, Hpg.
  - apply (messages_update st st' g _ e h p out Hm Hh Hst' Hflight); cbn; try done; rewrite ?Hout;
      try by (intros; eapply no_message).
    + congruence.
    + intros d Hd. by apply not_elem_of_nil in Hd.
    + by left.
    + exact (mi_aborted _ _ Hm).
Qed.

Lemma followed_send_commit dsts :
  out = ((fun d => (d, TpCommit)) <$> dsts) -> index h = 0 -> tm_state s = TMInit ->
  tm_prepared s = rm (tp_constants cfg) -> tp_state p = (CTMSendCommit s (tp_constants cfg)).1 ->
  followed.
Proof.
  intros Hout Hi Ht Hall Hs. destruct (ab_tm _ _ Ha e h Hh Hi) as [Htg Hpg].
  destruct (host_index st g e h Ha Hh) as (_ & _ & Hc & _).
  exists {| tm_state := TMCommitted; tm_prepared := tm_prepared g; rm_prepared := rm_prepared g;
            rm_committed := rm_committed g; rm_aborted := rm_aborted g |}. split.
  { right. do 4 right. left. exists [Commit]. split_and!; [congruence| |done|done].
    rewrite <- Hpg, Hall, Hc. done. }
  split.
  - apply (abstracts_update st st' g _ e h p Ha Hh Hst'); cbn; try done.
    intros _. by rewrite Hs.
  - apply (messages_update st st' g _ e h p out Hm Hh Hst' Hflight); cbn; try done; rewrite ?Hout, ?Hs.
    + intros d r Hd. by apply broadcast_message in Hd.
    + intros d Hd. by apply broadcast_message in Hd.
    + by left.
    + exact (mi_aborted _ _ Hm).
    + exact (mi_count _ _ Hm e h Hh).
Qed.

Lemma followed_prepare d0 :
  out = [(d0, TpPreparedVote (index h))] -> index h <> 0 -> index h ∈ rm (tp_constants cfg) ->
  index h ∉ rm_prepared s -> index h ∉ rm_aborted s ->
  tp_state p = (CRMReceivePrepare s (tp_constants cfg) (index h)).1 ->
  followed.
Proof.
  intros Hout Hi Hin Hnp Hna Hs. destruct (ab_rm _ _ Ha e h Hh Hi) as (Hp1 & Hp2 & Hp3).
  destruct (host_index st g e h Ha Hh) as (_ & _ & Hc & _).
  exists {| tm_state := tm_state g; tm_prepared := tm_prepared g;
            rm_prepared := {[index h]} ∪ rm_prepared g;
            rm_committed := rm_committed g; rm_aborted := rm_aborted g |}. split.
  { right. right. left. exists (index h), [PreparedVote (index h)].
    split_and!; [by rewrite <- Hc|by rewrite <- Hp1|by rewrite <- Hp3|done|done]. }
  split.
  - apply (abstracts_update st st' g _ e h p Ha Hh Hst'); cbn; try done; rewrite ?Hs; cbn.
    + intros _. split; [set_solver|done].
    + intros i Hne. split; [set_solver|done].
  - apply (messages_update st st' g _ e h p out Hm Hh Hst' Hflight); cbn; try done; rewrite ?Hout.
    + set_solver.
    + intros d r Hd. apply list_elem_of_singleton in Hd as [= _ ->]. set_solver.
    + intros d Hd. by apply list_elem_of_singleton in Hd.
    + intros d Hd. by apply list_elem_of_singleton in Hd.
    + by left.
    + exact (mi_aborted _ _ Hm).
Qed.

Lemma followed_commit src :
  out = [] -> index h <> 0 -> in_flight st src e TpCommit -> index h ∈ rm (tp_constants cfg) ->
  index h ∈ rm_prepared s -> index h ∉ rm_committed s ->
  tp_state p = (CRMReceiveCommit s (tp_constants cfg) (index h)).1 ->
  followed.
Proof.
  intros Hout Hi Hf%(mi_commit _ _ Hm) Hin Hp Hnc Hs.
  destruct (ab_rm _ _ Ha e h Hh Hi) as (Hp1 & Hp2 & Hp3).
  destruct (host_index st g e h Ha Hh) as (_ & _ & Hc & _).
  exists {| tm_state := tm_state g; tm_prepared := tm_prepared g; rm_prepared := rm_prepared g;
            rm_committed := {[index h]} ∪ rm_committed g; rm_aborted := rm_aborted g |}. split.
  { right. do 6 right. left. exists (index h), [].
    split_and!; [by rewrite <- Hc|by apply Hp1|by rewrite <- Hp2|done|done]. }
  split.
  - apply (abstracts_update st st' g _ e h p Ha Hh Hst'); cbn; try done; rewrite ?Hs; cbn.
    + intros _. split; [done|]. split; [set_solver|done].
    + intros i Hne. split; [done|]. split; [set_solver|done].
  - apply (messages_update st st' g _ e h p out Hm Hh Hst' Hflight); cbn; try done; rewrite ?Hout;
      try by (intros; eapply no_message).
    + intros d Hd. by apply not_elem_of_nil in Hd.
    + intros r _. by right.
    + exact (mi_aborted _ _ Hm).
Qed.

Lemma followed_effect packet :
  (forall pkt, packet = Some pkt -> in_flight st (gp_src pkt) e (gp_msg pkt)) ->
  tp_effect cfg s packet (tp_state p) out -> followed.
Proof.
  intros Hpkt He.
  assert (forall m, got packet m -> exists src, in_flight st src e m) as Hgot.
  { intros m (pkt & Hp & <-). eexists. by apply Hpkt. }
  inversion He as [Hs Ho|dsts Hi Ht Hs Ho|r s' Hi Hg Ht Ht' Hcnt Hsub Hs Ho|
    dsts Hi Ht Hall Hs Ho|i Hi Hin Hnp Hna Hs Ho|i Hi Hg Hin Hp Hnc Hs Ho|i Hi Hg _ _ _ Hs Ho];
    try subst i; fold (index h) in *.
  - apply followed_unchanged; [done|]. rewrite <- Ho. by intros d m ?%not_elem_of_nil.
  - apply followed_unchanged; [done|]. rewrite <- Ho. intros d m. apply broadcast_message.
  - destruct (Hgot _ Hg) as [src Hf%(mi_vote _ _ Hm)]. by apply (followed_vote r).
  - by apply (followed_send_commit dsts).
  - by eapply followed_prepare.
  - destruct (Hgot _ Hg) as [src Hf]. by apply (followed_commit src).
  - destruct (Hgot _ Hg) as [src Hf]. by destruct (mi_abort _ _ Hm src e).
Qed.
End iteration.

(** ** Runs *)

Lemma tp_sim_step st st' g :
  tp_sim st g -> step_case (M := TwoPhaseMessage) twophase_external_ok twophase_state_ok st st' ->
  exists g', (g' = g \/ LNext g g' c) /\ tp_sim st' g'.
Proof.
  intros Hsim [Heq _ Hext|e h amb packet Hh Hpkt r _ Hst' _ Hflight].
  - exists g. split; [by left|]. destruct Hsim as [Ha Hm].
    assert (forall s d m, in_flight st' s d m -> m <> TpPrepare -> in_flight st s d m) as Hf.
    { intros s d m Hf Hne. destruct (Hext s d m Hf) as [?|[_ ?]]; [done|by destruct Hne]. }
    split; split; rewrite ?Heq; try apply Ha; try apply Hm.
    + intros s d r Hr. apply (mi_vote _ _ Hm s d). by apply Hf.
    + intros s d Hr. apply (mi_commit _ _ Hm s d). by apply Hf.
    + intros s d Hr. apply (mi_abort _ _ Hm s d). by apply Hf.
  - apply (followed_effect st st' g e h r.1 (outbound_packets (sr_outbound r.2)) Hsim Hh Hst') with packet;
      [|done|by apply (twophase_next_effect (ghs_protocol h))].
    intros s d m Hf. destruct (Hflight s d m Hf) as [?|(_ & m0 & Hin & Hm0)]; [by left|right].
    rewrite Hm0; [done|]. destruct Hsim as [Ha _]. destruct (host_index st g e h Ha Hh) as (Hr & _).
    destruct (effect_messages _ _ _ _ _ d m0 (twophase_next_effect _ _ _) Hin) as [->|[->| ->]];
      repeat (apply Forall_cons; split); try done; try by apply Forall_nil_2.
    unfold index, is_u64, ISIZE_MAX, U64_MODULUS in *. lia.
Qed.
End simulation.
