(* ===== verification/TwoPhaseProperties.v ===== *)
(** * Theorems about two-phase commit

    Atomic commitment and refinement of the protocol by the running hosts, and
    the protocol's own safety predicates.  The witnesses are runs of a
    transaction manager and two resource managers. *)

From stdpp Require Import prelude gmap sets list numbers fin_sets.
From Stdlib Require Import ZArith Lia.
From S2P Require Import Prelude.
From S2P Require Import Types.
From S2P Require Import Environment.
From S2P Require Import Marshalling.
From S2P Require Import GenericHost.
From S2P Require Import FieldWire.
From S2P Require Import GenericSystem.
From S2P Require Import TwoPhase.
From S2P Require Import TwoPhaseHost.
From S2P Require Import TwoPhaseSystem.

#[local] Open Scope Z_scope.

(** ** A run *)

Definition three_hosts : Args := [[0]; [1]; [2]].
Definition tm_host : EndPoint := MkEndPoint [0].
Definition rm_host (i : Z) : EndPoint := MkEndPoint [i].

#[export] Instance twophase_external_ok_dec m : Decision (twophase_external_ok m).
Proof. unfold twophase_external_ok. apply _. Defined.
#[export] Instance twophase_state_ok_dec h : Decision (twophase_state_ok h).
Proof. left. exact I. Defined.

(** The TM asks, both RMs vote, the TM commits, and the first RM hears of it. *)
Definition commit_script : list (Event unit) :=
  [HostEvent tm_host tt None;
   HostEvent (rm_host 1) tt (Some (datagram tm_host (rm_host 1) TpPrepare));
   HostEvent (rm_host 2) tt (Some (datagram tm_host (rm_host 2) TpPrepare));
   HostEvent tm_host tt (Some (datagram (rm_host 1) tm_host (TpPreparedVote 1)));
   HostEvent tm_host tt (Some (datagram (rm_host 2) tm_host (TpPreparedVote 2)));
   HostEvent tm_host tt None;
   HostEvent (rm_host 1) tt (Some (datagram tm_host (rm_host 1) TpCommit))].

Definition tp_start : TwoPhaseSystem := start (M := TwoPhaseMessage) three_hosts tt.
Definition tp_after (evs : list (Event unit)) : TwoPhaseSystem :=
  played twophase_external_ok twophase_state_ok tp_start evs.
Definition tp_committed : TwoPhaseSystem := tp_after commit_script.

Lemma tp_start_init : generic_system_init (M := TwoPhaseMessage) (Ambient := unit) three_hosts tp_start.
Proof. apply start_init. repeat (constructor; [vm_compute; by eexists|]). constructor. Qed.

Lemma tp_after_run evs :
  play twophase_external_ok twophase_state_ok tp_start evs <> None -> twophase_run three_hosts (tp_after evs).
Proof. intros Hp. exists tp_start. split; [apply tp_start_init|]. by apply played_steps. Qed.

Definition tp_host_of (st : TwoPhaseSystem) (e : EndPoint) : TwoPhaseProcess :=
  default (MkGenericHostState (MkTwoPhaseHost (CInit (twophase_constants three_hosts)) 0)
             (MkTwoPhaseConfig [] 0 (twophase_constants three_hosts)) e) (gs_hosts st !! e).

(** ** The simulation of runs *)

Lemma twophase_run_sim args st :
  num_servers args <= ISIZE_MAX -> twophase_run args st ->
  exists g, LReachable (twophase_constants args) g /\ tp_sim args st g.
Proof.
  intros Hmax. revert st. apply (generic_run_ind twophase_external_ok twophase_state_ok args
    (fun st => exists g, LReachable (twophase_constants args) g /\ tp_sim args st g)).
  - intros st0 Hi. exists global_init. split; [by exists global_init|]. by apply tp_sim_init.
  - intros st0 st1 (g & Hr & Hsim) Hcase.
    destruct (tp_sim_step args Hmax st0 st1 g Hsim Hcase) as (g' & [->|Hn] & Hsim'); [by exists g|].
    exists g'. split; [|done]. destruct Hr as (g0 & Hi & Hs). exists g0. split; [done|]. by eapply rtc_r.
Qed.

(** ** Theorems *)

(** C15: atomic commitment. In every state of the running hosts, if one resource
    manager has committed, then the transaction manager has decided to commit
    with every vote counted, every resource manager has prepared, and none has
    aborted. *)
Theorem twophase_atomic_commit (args : Args) (st : TwoPhaseSystem) e h e' h' :
  num_servers args <= ISIZE_MAX -> twophase_run args st ->
  gs_hosts st !! e = Some h -> gs_hosts st !! e' = Some h' ->
  index h <> 0 -> index h ∈ rm_committed (local_state h) ->
  if decide (index h' = 0)
  then tm_state (local_state h') = TMCommitted
       /\ tm_prepared (local_state h') = rm (twophase_constants args)
  else index h' ∈ rm_prepared (local_state h') /\ index h' ∉ rm_aborted (local_state h').
Proof.
  intros Hmax Hr Hh Hh' Hi Hc. destruct (twophase_run_sim args st Hmax Hr) as (g & Hg & Ha & Hm).
  destruct (ab_rm _ _ _ Ha e h Hh Hi) as (_ & Hcg & _). apply Hcg in Hc.
  pose proof (mi_committed _ _ Hm _ Hc) as Ht.
  pose proof (reachable_prepared _ _ Hg) as Hp. pose proof (pi_all _ _ Hp Ht) as Hall.
  case_decide as Hi'.
  - destruct (ab_tm _ _ _ Ha e' h' Hh' Hi') as [-> ->]. done.
  - destruct (ab_rm _ _ _ Ha e' h' Hh' Hi') as (-> & _ & ->). rewrite (mi_aborted _ _ Hm). split; [|set_solver].
    apply (pi_tm _ _ Hp). rewrite Hall. apply elem_of_rm_ids.
    destruct (host_index args st g e' h' Ha Hh') as ([? ?] & _). lia.
Qed.

Lemma twophase_atomic_commit_witness :
  index (tp_host_of tp_committed (rm_host 1)) ∈ rm_committed (local_state (tp_host_of tp_committed (rm_host 1)))
  /\ index (tp_host_of tp_committed (rm_host 2)) ∈ rm_prepared (local_state (tp_host_of tp_committed (rm_host 2)))
  /\ index (tp_host_of tp_committed (rm_host 2)) ∉ rm_aborted (local_state (tp_host_of tp_committed (rm_host 2))).
Proof.
  assert (index (tp_host_of tp_committed (rm_host 1))
    ∈ rm_committed (local_state (tp_host_of tp_committed (rm_host 1)))) as Hc.
  { apply (bool_decide_eq_true_1 _). vm_compute. reflexivity. }
  split; [exact Hc|].
  refine (twophase_atomic_commit three_hosts tp_committed (rm_host 1) (tp_host_of tp_committed (rm_host 1))
    (rm_host 2) (tp_host_of tp_committed (rm_host 2)) _ _ _ _ _ Hc).
  - vm_compute. discriminate.
  - apply tp_after_run. vm_compute. discriminate.
  - vm_compute. reflexivity.
  - vm_compute. reflexivity.
  - vm_compute. discriminate.
Defined.

(** C16: the running hosts refine the protocol. A state of the hosts, each of which
    keeps its own copy of the protocol's state, stands for one global state: the
    TM's part is the copy of the host with index 0, an RM's part is its own
    host's. That global state is reachable by LNext, and as the hosts go on, it
    moves by steps of LNext. *)
Theorem twophase_hosts_refine_protocol (args : Args) (st st' : TwoPhaseSystem) :
  num_servers args <= ISIZE_MAX -> twophase_run args st -> rtc twophase_step st st' ->
  exists g g', LReachable (twophase_constants args) g /\ abstracts args st g
    /\ rtc (fun a b => LNext a b (twophase_constants args)) g g' /\ abstracts args st' g'.
Proof.
  intros Hmax Hr Hs. destruct (twophase_run_sim args st Hmax Hr) as (g & Hg & Hsim).
  pose proof (generic_run_bytes _ _ args st Hr) as Hb.
  assert (exists g', rtc (fun a b => LNext a b (twophase_constants args)) g g' /\ tp_sim args st' g')
    as (g' & Hsteps & Hsim').
  { clear Hr Hg. revert g Hsim Hb. induction Hs as [st|st st1 st2 Hstep _ IH]; intros g Hsim Hb; [by exists g|].
    destruct (tp_sim_step args Hmax st st1 g Hsim (generic_step_cases _ _ _ _ Hb Hstep)) as (g1 & Hg1 & Hsim1).
    destruct (IH g1 Hsim1 (sent_bytes_step _ _ _ _ Hb Hstep)) as (g2 & Hg2 & Hsim2).
    exists g2. split; [|done]. destruct Hg1 as [->|Hg1]; [done|]. by eapply rtc_l. }
  exists g, g'. by destruct Hsim, Hsim'.
Qed.

Lemma twophase_hosts_refine_protocol_witness :
  exists g g', LReachable (twophase_constants three_hosts) g /\ abstracts three_hosts (tp_after (take 5 commit_script)) g
    /\ rtc (fun a b => LNext a b (twophase_constants three_hosts)) g g' /\ abstracts three_hosts tp_committed g'.
Proof.
  apply (twophase_hosts_refine_protocol three_hosts (tp_after (take 5 commit_script)) tp_committed).
  - vm_compute. discriminate.
  - apply tp_after_run. vm_compute. discriminate.
  - apply (play_steps twophase_external_ok twophase_state_ok (drop 5 commit_script)). vm_compute. reflexivity.
Defined.

(** The protocol's safety predicates. In every reachable state what is committed
    was prepared, and the TM has committed only with every RM's vote. The third
    predicate, that no RM is both committed and aborted, fails: an RM that
    prepared may abort, by LRMReceiveAbort, which asks for no decision of the TM,
    and then commit, by LRMReceiveCommit, which does not look at it. *)
Theorem twophase_safety_predicates (c : LConstants) :
  (forall s, LReachable c s ->
     LSafetyCommittedSubsetPrepared s c /\ LSafetyTmCommittedRequiresAllPrepared s c)
  /\ (rm c <> ∅ -> exists s, LReachable c s /\ ~ LSafetyNoCommitAbortOverlap s c).
Proof.
  split.
  - intros s Hs%reachable_prepared. split; [exact (pi_committed _ _ Hs)|exact (pi_all _ _ Hs)].
  - intros [r Hr]%set_choose_L. pose (X := {[r]} ∪ ∅ : gset Z).
    exists (MkLState TMInit ∅ X X X). split; [|intros H; apply (H r); cbn; set_solver].
    exists global_init. split; [done|]. unfold global_init.
    apply (rtc_l _ _ (MkLState TMInit ∅ X ∅ ∅)).
    { right. left. exists r, [PreparedVote r]. split_and!; cbn; try done; set_solver. }
    apply (rtc_l _ _ (MkLState TMInit ∅ X ∅ X)).
    { do 7 right. exists r, []. split_and!; cbn; try done; set_solver. }
    apply rtc_once. do 6 right. left. exists r, []. split_and!; cbn; try done; set_solver.
Qed.

Lemma twophase_safety_predicates_witness :
  exists s, LReachable (MkLConstants {[1]}) s /\ ~ LSafetyNoCommitAbortOverlap s (MkLConstants {[1]}).
Proof.
  apply (proj2 (twophase_safety_predicates (MkLConstants {[1]}))).
  intros H. assert ((1 : Z) ∈ (∅ : gset Z)) as H1 by (cbn in H; rewrite <- H; by apply elem_of_singleton_2).
  by apply elem_of_empty in H1.
Defined.
