(* ===== verification/Paxos.v ===== *)
(** * Single-decree Paxos: the protocol of one node and its functions

    protocol/Paxos/{types,paxos}.rs: a node that is acceptor, proposer and learner
    at once, and its actions; and generated/Paxos/{types_gen,paxos_gen}.rs: an
    executable function per action.  The executable types are the protocol's at
    machine width, which [Valid] bounds; [Arc] and [clone] are transparent. *)

From stdpp Require Import prelude gmap sets list numbers fin_sets.
From Stdlib Require Import ZArith Lia.
From S2P Require Import Prelude.
From S2P Require Import Types.

#[local] Open Scope Z_scope.

(** ** Data *)

Inductive LPhase := Idle | Phase1 | Phase2 | Decided.

Record LState := MkLState
  { promised_bal : Z;
    accepted_bal : Z;
    accepted_val : Z;
    proposer_bal : Z;
    phase : LPhase;
    promises_rcvd : gset Z;
    highest_accepted_bal : Z;
    highest_accepted_val : Z;
    proposed_val : Z;
    accepts_rcvd : gset Z;
    decided_val : Z }.

Record LConstants := MkLConstants { acceptors : gset Z; quorum_size : Z; node_id : Z }.

#[export] Instance LPhase_eq_dec : EqDecision LPhase.
Proof. solve_decision. Defined.
#[export] Instance LState_eq_dec : EqDecision LState.
Proof. solve_decision. Defined.

(** [Set::len]. *)
Definition set_len (X : gset Z) : Z := Z.of_nat (size X).

(** ** The protocol *)

Section actions.
Implicit Types (s : LState) (c : LConstants).

Definition LInit s c : Prop :=
  s = {| promised_bal := 0; accepted_bal := 0; accepted_val := 0; proposer_bal := 0; phase := Idle;
         promises_rcvd := ∅; highest_accepted_bal := 0; highest_accepted_val := 0; proposed_val := 0;
         accepts_rcvd := ∅; decided_val := 0 |}.

Definition LSend1a s (s_ : LState) c (b : Z) : Prop :=
  phase s = Idle /\ b > proposer_bal s
  /\ s_ = {| promised_bal := promised_bal s; accepted_bal := accepted_bal s;
             accepted_val := accepted_val s; proposer_bal := b; phase := Phase1;
             promises_rcvd := ∅; highest_accepted_bal := 0; highest_accepted_val := 0;
             proposed_val := proposed_val s; accepts_rcvd := accepts_rcvd s;
             decided_val := decided_val s |}.

Definition LSend1b s (s_ : LState) c (b : Z) : Prop :=
  b >= promised_bal s
  /\ s_ = {| promised_bal := b; accepted_bal := accepted_bal s; accepted_val := accepted_val s;
             proposer_bal := proposer_bal s; phase := phase s; promises_rcvd := promises_rcvd s;
             highest_accepted_bal := highest_accepted_bal s;
             highest_accepted_val := highest_accepted_val s; proposed_val := proposed_val s;
             accepts_rcvd := accepts_rcvd s; decided_val := decided_val s |}.

Definition LRecvPromise s (s_ : LState) c (a a_accepted_bal a_accepted_val : Z) : Prop :=
  phase s = Phase1 /\ a ∈ acceptors c /\ a ∉ promises_rcvd s
  /\ s_ = {| promised_bal := promised_bal s; accepted_bal := accepted_bal s;
             accepted_val := accepted_val s; proposer_bal := proposer_bal s; phase := Phase1;
             promises_rcvd := {[a]} ∪ promises_rcvd s;
             highest_accepted_bal :=
               if decide (a_accepted_bal > highest_accepted_bal s) then a_accepted_bal
               else highest_accepted_bal s;
             highest_accepted_val :=
               if decide (a_accepted_bal > highest_accepted_bal s) then a_accepted_val
               else highest_accepted_val s;
             proposed_val := proposed_val s; accepts_rcvd := accepts_rcvd s;
             decided_val := decided_val s |}.

Definition LSend2a s (s_ : LState) c (v : Z) : Prop :=
  phase s = Phase1 /\ set_len (promises_rcvd s) >= quorum_size c
  /\ s_ = {| promised_bal := promised_bal s; accepted_bal := accepted_bal s;
             accepted_val := accepted_val s; proposer_bal := proposer_bal s; phase := Phase2;
             promises_rcvd := promises_rcvd s; highest_accepted_bal := highest_accepted_bal s;
             highest_accepted_val := highest_accepted_val s;
             proposed_val := if decide (highest_accepted_bal s > 0) then highest_accepted_val s else v;
             accepts_rcvd := ∅; decided_val := decided_val s |}.

Definition LSend2b s (s_ : LState) c (b v : Z) : Prop :=
  b >= promised_bal s
  /\ s_ = {| promised_bal := b; accepted_bal := b; accepted_val := v;
             proposer_bal := proposer_bal s; phase := phase s; promises_rcvd := promises_rcvd s;
             highest_accepted_bal := highest_accepted_bal s;
             highest_accepted_val := highest_accepted_val s; proposed_val := proposed_val s;
             accepts_rcvd := accepts_rcvd s; decided_val := decided_val s |}.

Definition LRecvAccepted s (s_ : LState) c (a : Z) : Prop :=
  phase s = Phase2 /\ a ∈ acceptors c /\ a ∉ accepts_rcvd s
  /\ s_ = {| promised_bal := promised_bal s; accepted_bal := accepted_bal s;
             accepted_val := accepted_val s; proposer_bal := proposer_bal s; phase := Phase2;
             promises_rcvd := promises_rcvd s; highest_accepted_bal := highest_accepted_bal s;
             highest_accepted_val := highest_accepted_val s; proposed_val := proposed_val s;
             accepts_rcvd := {[a]} ∪ accepts_rcvd s; decided_val := decided_val s |}.

Definition LLearn s (s_ : LState) c : Prop :=
  phase s = Phase2 /\ set_len (accepts_rcvd s) >= quorum_size c
  /\ s_ = {| promised_bal := promised_bal s; accepted_bal := accepted_bal s;
             accepted_val := accepted_val s; proposer_bal := proposer_bal s; phase := Decided;
             promises_rcvd := promises_rcvd s; highest_accepted_bal := highest_accepted_bal s;
             highest_accepted_val := highest_accepted_val s; proposed_val := proposed_val s;
             accepts_rcvd := accepts_rcvd s; decided_val := proposed_val s |}.

Definition LSafetyAcceptedBallotBoundedByPromise s c : Prop := accepted_bal s <= promised_bal s.

Definition LSafetyDecidedRequiresQuorum s c : Prop :=
  phase s = Decided -> set_len (accepts_rcvd s) >= quorum_size c.

Definition LSafetyDecidedMatchesProposedValue s c : Prop :=
  phase s = Decided -> decided_val s = proposed_val s.

Definition LNext s (s_ : LState) c : Prop :=
  (exists b, LSend1a s s_ c b)
  \/ (exists b, LSend1b s s_ c b)
  \/ (exists a ab av, LRecvPromise s s_ c a ab av)
  \/ (exists v, LSend2a s s_ c v)
  \/ (exists b v, LSend2b s s_ c b v)
  \/ (exists a, LRecvAccepted s s_ c a)
  \/ LLearn s s_ c.
End actions.

(** ** The executable functions *)

Abbreviation CPhase := LPhase (only parsing).
Abbreviation CState := LState (only parsing).
Abbreviation CConstants := LConstants (only parsing).

Section functions.
Implicit Types (s : CState) (c : CConstants).

Definition CInit c : CState :=
  {| promised_bal := 0; accepted_bal := 0; accepted_val := 0; proposer_bal := 0; phase := Idle;
     promises_rcvd := ∅; highest_accepted_bal := 0; highest_accepted_val := 0; proposed_val := 0;
     accepts_rcvd := ∅; decided_val := 0 |}.

Definition CSend1a s c (b : Z) : CState :=
  {| promised_bal := promised_bal s; accepted_bal := accepted_bal s;
     accepted_val := accepted_val s; proposer_bal := b; phase := Phase1;
     promises_rcvd := ∅; highest_accepted_bal := 0; highest_accepted_val := 0;
     proposed_val := proposed_val s; accepts_rcvd := accepts_rcvd s; decided_val := decided_val s |}.

Definition CSend1b s c (b : Z) : CState :=
  {| promised_bal := b; accepted_bal := accepted_bal s; accepted_val := accepted_val s;
     proposer_bal := proposer_bal s; phase := phase s; promises_rcvd := promises_rcvd s;
     highest_accepted_bal := highest_accepted_bal s;
     highest_accepted_val := highest_accepted_val s; proposed_val := proposed_val s;
     accepts_rcvd := accepts_rcvd s; decided_val := decided_val s |}.

Definition CRecvPromise s c (a a_accepted_bal a_accepted_val : Z) : CState :=
  let promises_rcvd_ := {[a]} ∪ promises_rcvd s in
  {| promised_bal := promised_bal s; accepted_bal := accepted_bal s;
     accepted_val := accepted_val s; proposer_bal := proposer_bal s; phase := Phase1;
     promises_rcvd := promises_rcvd_;
     highest_accepted_bal :=
       if decide (a_accepted_bal > highest_accepted_bal s) then a_accepted_bal
       else highest_accepted_bal s;
     highest_accepted_val :=
       if decide (a_accepted_bal > highest_accepted_bal s) then a_accepted_val
       else highest_accepted_val s;
     proposed_val := proposed_val s; accepts_rcvd := accepts_rcvd s; decided_val := decided_val s |}.

Definition CSend2a s c (v : Z) : CState :=
  {| promised_bal := promised_bal s; accepted_bal := accepted_bal s;
     accepted_val := accepted_val s; proposer_bal := proposer_bal s; phase := Phase2;
     promises_rcvd := promises_rcvd s; highest_accepted_bal := highest_accepted_bal s;
     highest_accepted_val := highest_accepted_val s;
     proposed_val := if decide (highest_accepted_bal s > 0) then highest_accepted_val s else v;
     accepts_rcvd := ∅; decided_val := decided_val s |}.

Definition CSend2b s c (b v : Z) : CState :=
  {| promised_bal := b; accepted_bal := b; accepted_val := v;
     proposer_bal := proposer_bal s; phase := phase s; promises_rcvd := promises_rcvd s;
     highest_accepted_bal := highest_accepted_bal s;
     highest_accepted_val := highest_accepted_val s; proposed_val := proposed_val s;
     accepts_rcvd := accepts_rcvd s; decided_val := decided_val s |}.

Definition CRecvAccepted s c (a : Z) : CState :=
  let accepts_rcvd_ := {[a]} ∪ accepts_rcvd s in
  {| promised_bal := promised_bal s; accepted_bal := accepted_bal s;
     accepted_val := accepted_val s; proposer_bal := proposer_bal s; phase := Phase2;
     promises_rcvd := promises_rcvd s; highest_accepted_bal := highest_accepted_bal s;
     highest_accepted_val := highest_accepted_val s; proposed_val := proposed_val s;
     accepts_rcvd := accepts_rcvd_; decided_val := decided_val s |}.

Definition CLearn s c : CState :=
  {| promised_bal := promised_bal s; accepted_bal := accepted_bal s;
     accepted_val := accepted_val s; proposer_bal := proposer_bal s; phase := Decided;
     promises_rcvd := promises_rcvd s; highest_accepted_bal := highest_accepted_bal s;
     highest_accepted_val := highest_accepted_val s; proposed_val := proposed_val s;
     accepts_rcvd := accepts_rcvd s; decided_val := proposed_val s |}.
End functions.

(** ** The protocol's own safety predicates *)

Definition paxos_node_inv (c : LConstants) (s : LState) : Prop :=
  LSafetyAcceptedBallotBoundedByPromise s c /\ LSafetyDecidedRequiresQuorum s c
  /\ LSafetyDecidedMatchesProposedValue s c.

Lemma paxos_node_inv_step c s s_ : paxos_node_inv c s -> LNext s s_ c -> paxos_node_inv c s_.
Proof.
  unfold paxos_node_inv, LSafetyAcceptedBallotBoundedByPromise, LSafetyDecidedRequiresQuorum,
    LSafetyDecidedMatchesProposedValue.
  intros (H1 & H2 & H3) H.
  destruct H as [(b & _ & _ & ->)|[(b & ? & ->)|[(a & ab & av & _ & _ & _ & ->)|[(v & _ & _ & ->)|
    [(b & v & ? & ->)|[(a & _ & _ & _ & ->)|(_ & ? & ->)]]]]]]; cbn; split_and!; try done; lia.
Qed.
