(* ===== verification/PaxosHost.v ===== *)
(** * The single-decree Paxos host

    implementation/Paxos/{message,host}.rs: the messages on the wire and the host
    of the generic loop.  Every host is acceptor, proposer and learner; a message
    from someone who is no peer is ignored.  The host draws one ballot, which is
    its own for all times, and never leaves the phases behind. *)

From stdpp Require Import prelude gmap sets list numbers fin_sets.
From Stdlib Require Import ZArith Lia.
From S2P Require Import Prelude.
From S2P Require Import Types.
From S2P Require Import Marshalling.
From S2P Require Import MarshallingLaws.
From S2P Require Import GenericHost.
From S2P Require Import FieldWire.
From S2P Require Import GenericSystem.
From S2P Require Import Paxos.

#[local] Open Scope Z_scope.

(** ** message.rs *)

Inductive PaxosMessage :=
  | PxPrepare (ballot : Z)
  | PxPromise (ballot accepted_bal accepted_val : Z)
  | PxAccept (ballot value : Z)
  | PxAccepted (ballot value : Z).

#[export] Instance PaxosMessage_eq_dec : EqDecision PaxosMessage.
Proof. solve_decision. Defined.

Definition PAXOS_TAG_PREPARE : Z := 1.
Definition TAG_PROMISE : Z := 2.
Definition TAG_ACCEPT : Z := 3.
Definition TAG_ACCEPTED : Z := 4.

Definition paxos_fields (m : PaxosMessage) : list Z :=
  match m with
  | PxPrepare ballot => [PAXOS_TAG_PREPARE; ballot]
  | PxPromise ballot accepted_bal accepted_val => [TAG_PROMISE; ballot; accepted_bal; accepted_val]
  | PxAccept ballot value => [TAG_ACCEPT; ballot; value]
  | PxAccepted ballot value => [TAG_ACCEPTED; ballot; value]
  end.

Definition paxos_serialize (m : PaxosMessage) (buf : list Z) : list Z :=
  write_fields (paxos_fields m) buf.

Definition paxos_deserialize (data : list Z) : option PaxosMessage :=
  if decide (seq_len data < 8) then None
  else
    let tag := read_u64 data 0 in
    if decide (tag = PAXOS_TAG_PREPARE) then
      if decide (seq_len data < 16) then None
      else Some (PxPrepare (read_u64 data 8))
    else if decide (tag = TAG_PROMISE) then
      if decide (seq_len data < 32) then None
      else Some (PxPromise (read_u64 data 8) (read_u64 data 16) (read_u64 data 24))
    else if decide (tag = TAG_ACCEPT) then
      if decide (seq_len data < 24) then None
      else Some (PxAccept (read_u64 data 8) (read_u64 data 16))
    else if decide (tag = TAG_ACCEPTED) then
      if decide (seq_len data < 24) then None
      else Some (PxAccepted (read_u64 data 8) (read_u64 data 16))
    else None.

#[export] Instance paxos_message : ProtocolMessage PaxosMessage :=
  {| serialize_to_bytes := paxos_serialize;
     deserialize_from_bytes := paxos_deserialize |}.

(** ** host.rs: configuration *)

Record PaxosConfig := MkPaxosConfig
  { px_peers : list EndPoint; px_my_index : Z; px_constants : CConstants }.

Definition paxos_parse_config (me : EndPoint) (args : Args) : option PaxosConfig :=
  if decide (seq_len args < 2) then None
  else
    let '(peers, my_index) := parse_peers me 0 args ([], None) in
    my_index ← my_index;
    let num_nodes := seq_len peers in
    let quorum_size := num_nodes / 2 + 1 in
    let acceptors := foldl (fun acceptors i => {[i]} ∪ acceptors) ∅ (seqZ 0 num_nodes) in
    Some (MkPaxosConfig peers my_index (MkLConstants acceptors quorum_size my_index)).

(** ** host.rs: the host *)

Record PaxosHost := MkPaxosHost { px_state : CState; px_action_index : Z; ballot_counter : Z }.

Local Abbreviation result := (StepResult PaxosMessage).
Implicit Types (h : PaxosHost) (config : PaxosConfig).

Definition px_with_state h (s : CState) : PaxosHost :=
  MkPaxosHost s (px_action_index h) (ballot_counter h).

Definition px_quiet : result := MkStepResult true OutNone.

Definition px_u64_mul (x y : Z) : Z := (x * y) mod U64_MODULUS.

Definition next_ballot h config : PaxosHost * Z :=
  let counter := u64_add (ballot_counter h) 1 in
  (MkPaxosHost (px_state h) (px_action_index h) counter,
   u64_add (px_u64_mul counter (seq_len (px_peers config))) (px_my_index config)).

Definition other_peers config : list EndPoint :=
  foldl (fun others i =>
      if decide (i <> px_my_index config) then others ++ [seq_index (px_peers config) i] else others)
    [] (seqZ 0 (seq_len (px_peers config))).

Definition peer_endpoint config (node_id : Z) : option EndPoint :=
  if decide (node_id < seq_len (px_peers config)) then Some (seq_index (px_peers config) node_id) else None.

(** *** Messages *)

Definition handle_prepare h config (src : EndPoint) (ballot : Z) : PaxosHost * result :=
  if decide (ballot < promised_bal (px_state h)) then (h, px_quiet)
  else
    let s := CSend1b (px_state h) (px_constants config) ballot in
    (px_with_state h s,
     MkStepResult true (OutSend src (PxPromise ballot (accepted_bal s) (accepted_val s)))).

Definition handle_promise h config (acceptor_id _ballot accepted_bal accepted_val : Z) : PaxosHost * result :=
  let s := px_state h in let c := px_constants config in
  if negb (bool_decide (phase s = Phase1)) then (h, px_quiet)
  else if negb (bool_decide (acceptor_id ∈ acceptors c)) then (h, px_quiet)
  else if bool_decide (acceptor_id ∈ promises_rcvd s) then (h, px_quiet)
  else (px_with_state h (CRecvPromise s c acceptor_id accepted_bal accepted_val), px_quiet).

Definition handle_accept h config (src : EndPoint) (ballot value : Z) : PaxosHost * result :=
  if decide (ballot < promised_bal (px_state h)) then (h, px_quiet)
  else
    (px_with_state h (CSend2b (px_state h) (px_constants config) ballot value),
     MkStepResult true (OutSend src (PxAccepted ballot value))).

Definition handle_accepted h config (acceptor_id _ballot _value : Z) : PaxosHost * result :=
  let s := px_state h in let c := px_constants config in
  if negb (bool_decide (phase s = Phase2)) then (h, px_quiet)
  else if negb (bool_decide (acceptor_id ∈ acceptors c)) then (h, px_quiet)
  else if bool_decide (acceptor_id ∈ accepts_rcvd s) then (h, px_quiet)
  else (px_with_state h (CRecvAccepted s c acceptor_id), px_quiet).

(** *** Timers *)

Definition try_send1a h config : PaxosHost * result :=
  if negb (bool_decide (phase (px_state h) = Idle)) then (h, px_quiet)
  else
    let '(h, new_ballot) := next_ballot h config in
    if decide (new_ballot <= proposer_bal (px_state h)) then (h, px_quiet)
    else
      (px_with_state h (CSend1a (px_state h) (px_constants config) new_ballot),
       MkStepResult true (OutBroadcast (other_peers config) (PxPrepare new_ballot))).

Definition try_send2a h config : PaxosHost * result :=
  let s := px_state h in let c := px_constants config in
  if negb (bool_decide (phase s = Phase1)) then (h, px_quiet)
  else if decide (set_len (promises_rcvd s) < quorum_size c) then (h, px_quiet)
  else
    let s := CSend2a s c (proposed_val s) in
    (px_with_state h s,
     MkStepResult true (OutBroadcast (other_peers config) (PxAccept (proposer_bal s) (proposed_val s)))).

Definition try_learn h config : PaxosHost * result :=
  let s := px_state h in let c := px_constants config in
  if negb (bool_decide (phase s = Phase2)) then (h, px_quiet)
  else if decide (set_len (accepts_rcvd s) < quorum_size c) then (h, px_quiet)
  else (px_with_state h (CLearn s c), px_quiet).

(** The index of the first peer with the address of [src]. *)
Fixpoint resolve_sender_from (i : Z) (peers : list EndPoint) (src : EndPoint) : option Z :=
  match peers with
  | [] => None
  | peer :: peers =>
      if decide (ep_id peer = ep_id src) then Some i else resolve_sender_from (i + 1) peers src
  end.

Definition resolve_sender_index config (src : EndPoint) : option Z :=
  resolve_sender_from 0 (px_peers config) src.

(** *** [init] and [next] *)

Definition paxos_init config : option PaxosHost :=
  Some (MkPaxosHost (CInit (px_constants config)) 0 0).

Definition paxos_next h config (packet : option (GenericPacket PaxosMessage)) : PaxosHost * result :=
  match packet with
  | Some pkt =>
      match resolve_sender_index config (gp_src pkt) with
      | None => (h, px_quiet)
      | Some sender_id =>
          match gp_msg pkt with
          | PxPrepare ballot => handle_prepare h config (gp_src pkt) ballot
          | PxPromise ballot accepted_bal accepted_val =>
              handle_promise h config sender_id ballot accepted_bal accepted_val
          | PxAccept ballot value => handle_accept h config (gp_src pkt) ballot value
          | PxAccepted ballot value => handle_accepted h config sender_id ballot value
          end
      end
  | None =>
      let '(h', r) :=
        if decide (px_action_index h mod 3 = 0) then try_send1a h config
        else if decide (px_action_index h mod 3 = 1) then try_send2a h config
        else try_learn h config in
      (MkPaxosHost (px_state h') (u64_add (px_action_index h') 1) (ballot_counter h'), r)
  end.

#[export] Instance paxos_protocol_host : ProtocolHost unit PaxosMessage PaxosConfig PaxosHost :=
  {| parse_config := paxos_parse_config;
     get_peers := px_peers;
     protocol_init := fun _ => paxos_init;
     protocol_next := fun _ => paxos_next |}.

(** ** The wire *)

#[export] Program Instance paxos_wire_laws : WireLaws PaxosMessage :=
  {| wire_ok := fun m => Forall is_u64 (paxos_fields m) |}.
Next Obligation. intros m. cbn. unfold paxos_serialize. rewrite write_fields_eq. apply field_bytes_u8. Qed.
Next Obligation.
  intros m Hm. cbn. unfold paxos_serialize, paxos_deserialize. rewrite write_fields_eq.
  rewrite app_nil_l, <- (app_nil_r (field_bytes _)).
  pose proof (field_bytes_reads (paxos_fields m) [] Hm) as H.
  destruct m; cbn [paxos_fields] in *; read_back H.
Qed.
Next Obligation.
  intros d m Hd. cbn. unfold paxos_deserialize.
  repeat (case_decide; try done); intros [= <-]; repeat (apply Forall_cons; split); try done;
    (apply read_u64_is_u64; [done|lia..]).
Qed.

(** ** The configuration *)

Lemma resolve_sender_from_spec i pre peers src k :
  i = seq_len pre -> resolve_sender_from i peers src = Some k ->
  i <= k < seq_len (pre ++ peers) /\ seq_index (pre ++ peers) k = src
  /\ forall j, i <= j < k -> seq_index (pre ++ peers) j <> src.
Proof.
  revert i pre. induction peers as [|p peers IH]; intros i pre Hi; cbn; [done|]. case_decide as He.
  - intros [= <-]. subst i. rewrite seq_len_app. pose proof (seq_len_nonneg pre).
    change (seq_len (p :: peers)) with (Z.of_nat (S (length peers))). split_and!; [lia..| |lia].
    replace (seq_len pre) with (seq_len pre + 0) by lia.
    unfold seq_index. unfold seq_get, seq_len. rewrite decide_True by lia.
    rewrite lookup_app_r by lia. replace (Z.to_nat _ - length pre)%nat with 0%nat by lia. cbn.
    destruct p, src; cbn in He; congruence.
  - intros Hr. destruct (IH (i + 1) (pre ++ [p])) as (Hk & Hs & Hj).
    { subst i. rewrite seq_len_app. done. }
    { done. }
    rewrite <- app_assoc in Hk, Hs, Hj. cbn in Hk, Hs, Hj. split_and!; [lia..|done|].
    intros j Hj'. destruct (decide (j = i)) as [->|]; [|apply Hj; lia].
    subst i. unfold seq_index, seq_get, seq_len. rewrite decide_True by lia.
    rewrite lookup_app_r by lia. replace (Z.to_nat _ - length pre)%nat with 0%nat by lia. cbn.
    congruence.
Qed.

Lemma resolve_sender_index_spec config src k :
  resolve_sender_index config src = Some k ->
  0 <= k < seq_len (px_peers config) /\ seq_index (px_peers config) k = src
  /\ forall j, 0 <= j < k -> seq_index (px_peers config) j <> src.
Proof. intros H. by apply (resolve_sender_from_spec 0 [] (px_peers config)). Qed.

Lemma other_peers_elem config d :
  d ∈ other_peers config ->
  exists i, 0 <= i < seq_len (px_peers config) /\ i <> px_my_index config /\ seq_index (px_peers config) i = d.
Proof.
  unfold other_peers.
  assert (forall (l : list Z) acc,
    d ∈ foldl (fun others i => if decide (i <> px_my_index config)
                 then others ++ [seq_index (px_peers config) i] else others) acc l ->
    d ∈ acc \/ exists i, i ∈ l /\ i <> px_my_index config /\ seq_index (px_peers config) i = d) as H.
  { induction l as [|i l IH]; intros acc; cbn; [by left|]. intros [Hd|(j & ? & ?)]%IH.
    - case_decide; [|by left]. apply elem_of_app in Hd as [?|Hd]; [by left|].
      apply list_elem_of_singleton in Hd as ->. right. exists i. split; [by left|done].
    - right. exists j. split; [by right|done]. }
  intros [Hd|(i & Hi & ? & ?)]%H; [by apply not_elem_of_nil in Hd|].
  exists i. split; [|done]. apply elem_of_seqZ in Hi. lia.
Qed.

Section config.
Context (args : Args).

Definition node_ids : gset Z := list_to_set (seqZ 0 (num_servers args)).

Lemma elem_of_node_ids i : i ∈ node_ids <-> 0 <= i < num_servers args.
Proof. unfold node_ids. rewrite elem_of_list_to_set, elem_of_seqZ. lia. Qed.

(** The constants of the host with an index. *)
Definition paxos_constants (i : Z) : CConstants := MkLConstants node_ids (num_servers args / 2 + 1) i.

Lemma paxos_config_spec e cfg :
  paxos_parse_config e args = Some cfg ->
  2 <= num_servers args /\ px_peers cfg = endpoints args
  /\ px_constants cfg = paxos_constants (px_my_index cfg)
  /\ 0 <= px_my_index cfg < num_servers args /\ ep args (px_my_index cfg) = e.
Proof.
  unfold paxos_parse_config. case_decide as Hn; [done|].
  destruct (parse_peers_all args e) as (Hp & Hk & _).
  destruct (parse_peers e 0 args ([], None)) as [ps k]. cbn in *.
  destruct k as [k|]; [|done]. cbn. intros [= <-]. cbn. destruct (Hk k eq_refl) as [Hr He]. subst ps.
  rewrite seq_len_endpoints, insert_all_spec. unfold paxos_constants, node_ids.
  split_and!; try done; try (unfold num_servers in *; lia). f_equal. apply (right_id_L ∅ (∪)).
Qed.
End config.
