(* ===== verification/PaxosSystem.v ===== *)
(** * Single-decree Paxos among hosts

    The hosts of PaxosHost.v over the network of GenericSystem.v, with anyone
    else free to send anything.  The code's hosts all propose 0; the invariant is
    of hosts that each start with a value of their own.  It relates the hosts'
    states to the messages in flight: who has started a ballot or proposed a
    value, what acceptors have promised and voted, and what a proposer has heard. *)

From stdpp Require Import prelude gmap sets list numbers fin_sets.
From Stdlib Require Import ZArith Lia.
From S2P Require Import Prelude.
From S2P Require Import Types.
From S2P Require Import Environment.
From S2P Require Import Marshalling.
From S2P Require Import GenericHost.
From S2P Require Import FieldWire.
From S2P Require Import GenericSystem.
From S2P Require Import Paxos.
From S2P Require Import PaxosHost.

#[local] Open Scope Z_scope.

Abbreviation PaxosProcess := (GenericHostState PaxosConfig PaxosHost).
Abbreviation PaxosSystem := (GenericSystem PaxosConfig PaxosHost).

(** The protocol state of a process, its index, and the ballot of an index. *)
Definition px_local (h : PaxosProcess) : CState := px_state (ghs_protocol h).
Definition px_index (h : PaxosProcess) : Z := px_my_index (ghs_config h).
Definition own_ballot (args : Args) (i : Z) : Z := num_servers args + i.

Definition paxos_external_ok (m : PaxosMessage) : Prop := True.
Definition paxos_state_ok (h : PaxosHost) : Prop := True.

Definition paxos_step : PaxosSystem -> PaxosSystem -> Prop :=
  generic_step (M := PaxosMessage) (Ambient := unit) paxos_external_ok paxos_state_ok.
Definition paxos_run : Args -> PaxosSystem -> Prop :=
  generic_run (M := PaxosMessage) (Ambient := unit) paxos_external_ok paxos_state_ok.

(** A host as [init] makes it but for the value that it proposes. *)
Definition with_value (v : Z) (s : CState) : CState :=
  {| promised_bal := promised_bal s; accepted_bal := accepted_bal s; accepted_val := accepted_val s;
     proposer_bal := proposer_bal s; phase := phase s; promises_rcvd := promises_rcvd s;
     highest_accepted_bal := highest_accepted_bal s; highest_accepted_val := highest_accepted_val s;
     proposed_val := v; accepts_rcvd := accepts_rcvd s; decided_val := decided_val s |}.

(** The hosts of [args] as they start, each with its value to propose. *)
Definition paxos_start (args : Args) (values : EndPoint -> Z) (st : PaxosSystem) : Prop :=
  gs_sent st = ∅
  /\ forall e, match gs_hosts st !! e with
       | Some h =>
           e ∈ endpoints args
           /\ exists cfg, paxos_parse_config e args = Some cfg
                /\ h = MkGenericHostState
                         (MkPaxosHost (with_value (values e) (CInit (px_constants cfg))) 0 0) cfg e
       | None => e ∉ endpoints args
       end.

(** ** What a call of [next] does *)

Definition got_from (cfg : PaxosConfig) (packet : option (GenericPacket PaxosMessage)) (i : Z)
    (src : EndPoint) (m : PaxosMessage) : Prop :=
  resolve_sender_index cfg src = Some i
  /\ exists pkt, packet = Some pkt /\ gp_msg pkt = m /\ gp_src pkt = src.

Inductive px_effect (cfg : PaxosConfig) (s : CState) (packet : option (GenericPacket PaxosMessage))
  : CState -> list (EndPoint * PaxosMessage) -> Prop :=
  | px_none : px_effect cfg s packet s []
  | px_send1a :
      let b := seq_len (px_peers cfg) + px_my_index cfg in
      phase s = Idle -> proposer_bal s < b ->
      px_effect cfg s packet (CSend1a s (px_constants cfg) b)
        ((fun d => (d, PxPrepare b)) <$> other_peers cfg)
  | px_send1b i src b :
      got_from cfg packet i src (PxPrepare b) -> promised_bal s <= b ->
      px_effect cfg s packet (CSend1b s (px_constants cfg) b)
        [(src, PxPromise b (accepted_bal s) (accepted_val s))]
  | px_recv_promise i src b ab av :
      got_from cfg packet i src (PxPromise b ab av) ->
      phase s = Phase1 -> i ∈ acceptors (px_constants cfg) -> i ∉ promises_rcvd s ->
      px_effect cfg s packet (CRecvPromise s (px_constants cfg) i ab av) []
  | px_send2a :
      let s' := CSend2a s (px_constants cfg) (proposed_val s) in
      phase s = Phase1 -> set_len (promises_rcvd s) >= quorum_size (px_constants cfg) ->
      px_effect cfg s packet s'
        ((fun d => (d, PxAccept (proposer_bal s') (proposed_val s'))) <$> other_peers cfg)
  | px_send2b i src b v :
      got_from cfg packet i src (PxAccept b v) -> promised_bal s <= b ->
      px_effect cfg s packet (CSend2b s (px_constants cfg) b v) [(src, PxAccepted b v)]
  | px_recv_accepted i src b v :
      got_from cfg packet i src (PxAccepted b v) ->
      phase s = Phase2 -> i ∈ acceptors (px_constants cfg) -> i ∉ accepts_rcvd s ->
      px_effect cfg s packet (CRecvAccepted s (px_constants cfg) i) []
  | px_learn :
      phase s = Phase2 -> set_len (accepts_rcvd s) >= quorum_size (px_constants cfg) ->
      px_effect cfg s packet (CLearn s (px_constants cfg)) [].

(** A host that has not started has drawn no ballot. *)
Definition fresh (h : PaxosHost) : Prop :=
  phase (px_state h) = Idle -> ballot_counter h = 0 /\ proposer_bal (px_state h) = 0.

(** The first ballot is [1 * num_nodes + my_index], within 64 bits. *)
Lemma next_ballot_first h cfg :
  ballot_counter h = 0 -> 2 <= seq_len (px_peers cfg) <= ISIZE_MAX ->
  0 <= px_my_index cfg < seq_len (px_peers cfg) ->
  (next_ballot h cfg).2 = seq_len (px_peers cfg) + px_my_index cfg.
Proof.
  intros Hc Hn Hi. unfold next_ballot, px_u64_mul. cbn [snd]. rewrite Hc.
  change (u64_add 0 1) with 1. rewrite Z.mul_1_l.
  unfold ISIZE_MAX in Hn. rewrite (Z.mod_small (seq_len _)) by (unfold U64_MODULUS; lia).
  apply u64_add_exact. unfold U64_MODULUS. lia.
Qed.

Section next.
Context (h : PaxosHost) (cfg : PaxosConfig) (packet : option (GenericPacket PaxosMessage)).
Context (Hfresh : fresh h) (Hn : 2 <= seq_len (px_peers cfg) <= ISIZE_MAX)
  (Hi : 0 <= px_my_index cfg < seq_len (px_peers cfg)).

Lemma try_send1a_effect :
  px_effect cfg (px_state h) packet (px_state (try_send1a h cfg).1)
    (outbound_packets (sr_outbound (try_send1a h cfg).2)).
Proof.
  unfold try_send1a. case_bool_decide as Hp; cbn [negb]; [|apply px_none].
  destruct (Hfresh Hp) as [Hc Hb]. pose proof (next_ballot_first h cfg Hc Hn Hi) as Hnb.
  destruct (next_ballot h cfg) as [h1 b] eqn:He. cbn in Hnb. subst b.
  assert (px_state h1 = px_state h) as Hs by (unfold next_ballot in He; by injection He as <- _).
  rewrite Hs, decide_False by lia. cbn. rewrite ?Hs. apply px_send1a; [done|lia].
Qed.

Lemma paxos_next_effect :
  px_effect cfg (px_state h) packet (px_state (paxos_next h cfg packet).1)
    (outbound_packets (sr_outbound (paxos_next h cfg packet).2)).
Proof.
  unfold paxos_next. destruct packet as [pkt|] eqn:Hpk.
  - destruct (resolve_sender_index cfg (gp_src pkt)) as [i|] eqn:Hr; [|apply px_none].
    assert (forall m, gp_msg pkt = m -> got_from cfg (Some pkt) i (gp_src pkt) m) as Hg
      by (intros m Hm; split; [done|by exists pkt]).
    destruct (gp_msg pkt) eqn:Hm; specialize (Hg _ eq_refl).
    + unfold handle_prepare. case_decide; [apply px_none|]. refine (px_send1b cfg (px_state h) _ i (gp_src pkt) ballot Hg _); lia.
    + unfold handle_promise. repeat (case_bool_decide; cbn [negb]; try apply px_none).
      by apply (px_recv_promise _ _ _ i (gp_src pkt) ballot).
    + unfold handle_accept. case_decide; [apply px_none|]. refine (px_send2b cfg (px_state h) _ i (gp_src pkt) ballot value Hg _); lia.
    + unfold handle_accepted. repeat (case_bool_decide; cbn [negb]; try apply px_none).
      by apply (px_recv_accepted _ _ _ i (gp_src pkt) ballot value).
  - pose proof try_send1a_effect as H1. rewrite Hpk in H1.
    case_decide; [by destruct (try_send1a h cfg)|case_decide].
    + unfold try_send2a. case_bool_decide; cbn [negb]; [|apply px_none].
      case_decide; [apply px_none|]. apply px_send2a; [done|lia].
    + unfold try_learn. case_bool_decide; cbn [negb]; [|apply px_none].
      case_decide; [apply px_none|]. apply px_learn; [done|lia].
Qed.

Lemma paxos_next_fresh : fresh (paxos_next h cfg packet).1.
Proof.
  assert (forall h' s, px_with_state h s = h' -> phase s <> Idle -> fresh h') as Hne
    by (intros h' s <- Hp Hp'; done).
  assert (forall s, phase s = phase (px_state h) -> proposer_bal s = proposer_bal (px_state h) ->
    fresh (px_with_state h s)) as Hsame
    by (intros s H1 H2; unfold fresh; cbn; rewrite H1, H2; exact Hfresh).
  unfold paxos_next. destruct packet as [pkt|].
  - destruct (resolve_sender_index cfg (gp_src pkt)) as [i|]; [|done]. destruct (gp_msg pkt).
    + unfold handle_prepare. case_decide; [done|]. by apply Hsame.
    + unfold handle_promise. repeat (case_bool_decide; cbn [negb]; try done).
    + unfold handle_accept. case_decide; [done|]. by apply Hsame.
    + unfold handle_accepted. repeat (case_bool_decide; cbn [negb]; try done).
  - assert (fresh (try_send1a h cfg).1) as H1.
    { unfold try_send1a. case_bool_decide as Hp; cbn [negb]; [|done].
      destruct (Hfresh Hp) as [Hc Hb]. pose proof (next_ballot_first h cfg Hc Hn Hi) as Hnb.
      destruct (next_ballot h cfg) as [h1 b] eqn:He. cbn in Hnb. subst b.
      assert (px_state h1 = px_state h) as Hs by (unfold next_ballot in He; by injection He as <- _).
      rewrite Hs, decide_False by lia. done. }
    case_decide; [by destruct (try_send1a h cfg)|case_decide].
    + unfold try_send2a. case_bool_decide; cbn [negb]; [|done]. case_decide; done.
    + unfold try_learn. case_bool_decide; cbn [negb]; [|done]. case_decide; done.
Qed.
End next.

(** Every effect is a step of the protocol, or none. *)
Lemma px_effect_LNext cfg s packet s' out :
  px_effect cfg s packet s' out -> s' = s \/ LNext s s' (px_constants cfg).
Proof.
  intros [|b Hp Hb|i src b Hg Hb|i src b ab av Hg Hp Ha Hn|s1 Hp Hq|i src b v Hg Hb|i src b v Hg Hp Ha Hn|Hp Hq];
    [by left|right..].
  - left. exists b. split_and!; [done|lia|done].
  - right. left. exists b. split; [lia|done].
  - do 2 right. left. exists i, ab, av. by split_and!.
  - do 3 right. left. exists (proposed_val s). by split_and!.
  - do 4 right. left. exists b, v. split; [lia|done].
  - do 5 right. left. exists i. by split_and!.
  - do 6 right. by split_and!.
Qed.
