(* ===== verification/PaxosInvariants.v ===== *)
(** * What the Paxos hosts and the messages in flight agree on

    [extends]: as a system goes on, messages stay in flight and each host's
    promises, votes, ballot and proposal stay.  [paxos_inv] is the invariant, in
    terms of these lasting facts. *)

From stdpp Require Import prelude gmap sets list numbers fin_sets.
From Stdlib Require Import ZArith Lia.
From S2P Require Import Prelude.
From S2P Require Import Types.
From S2P Require Import Environment.
From S2P Require Import Marshalling.
From S2P Require Import GenericHost.
From S2P Require Import FieldWire.
From S2P Require Import GenericSystem.
From S2P Require Import Paxos.
From S2P Require Import PaxosHost.
From S2P Require Import PaxosSystem.

#[local] Open Scope Z_scope.

Implicit Types (st : GenericSystem PaxosConfig PaxosHost) (e a d : EndPoint)
  (h : GenericHostState PaxosConfig PaxosHost) (s : CState).

(** ** Lasting facts *)

Definition proposing (p : CPhase) : Prop := p = Phase2 \/ p = Decided.

Record state_extends s s' : Prop := MkStateExtends
  { sx_promised : promised_bal s <= promised_bal s';
    sx_accepted : accepted_bal s <= accepted_bal s';
    sx_started : phase s <> Idle -> phase s' <> Idle /\ proposer_bal s' = proposer_bal s;
    sx_proposing : proposing (phase s) -> proposing (phase s') /\ proposed_val s' = proposed_val s }.

Definition extends st st' : Prop :=
  (forall x d m, in_flight st x d m -> in_flight st' x d m)
  /\ forall e h, gs_hosts st !! e = Some h ->
       exists h', gs_hosts st' !! e = Some h' /\ ghs_config h' = ghs_config h
         /\ state_extends (px_local h) (px_local h').

(** The host at [e] is in a state of this kind. *)
Definition host_has st e (P : CState -> Prop) : Prop :=
  exists h, gs_hosts st !! e = Some h /\ P (px_local h).

Definition started st e (b : Z) : Prop := host_has st e (fun s => phase s <> Idle /\ proposer_bal s = b).
Definition proposed st e (b v : Z) : Prop :=
  host_has st e (fun s => proposing (phase s) /\ proposer_bal s = b /\ proposed_val s = v).
Definition promised_at st e (b : Z) : Prop := host_has st e (fun s => b <= promised_bal s).
Definition accepted_at st e (b : Z) : Prop := host_has st e (fun s => b <= accepted_bal s).
Definition vote st e (b v : Z) : Prop := exists d, in_flight st e d (PxAccepted b v).

(** What an acceptor has voted for, if it has voted, was proposed. *)
Definition reported st (b v : Z) : Prop := b = 0 \/ exists e, proposed st e b v.

Lemma proposing_not_idle p : proposing p -> p <> Idle.
Proof. by intros [-> | ->]. Qed.

Lemma state_extends_refl s : state_extends s s.
Proof. by split. Qed.

Lemma host_has_mono st st' e (P : CState -> Prop) :
  (forall s s', state_extends s s' -> P s -> P s') -> extends st st' -> host_has st e P -> host_has st' e P.
Proof.
  intros HP [_ Hx] (h & Hh & Hp). destruct (Hx e h Hh) as (h' & Hh' & _ & Hs).
  exists h'. split; [done|]. by apply (HP (px_local h)).
Qed.

Section mono.
Context st st' (Hx : extends st st').

Lemma started_mono e b : started st e b -> started st' e b.
Proof.
  apply host_has_mono; [|done]. intros s s' H [Hp Hb]. destruct (sx_started _ _ H Hp). by split; [|congruence].
Qed.

Lemma px_proposed_mono e b v : proposed st e b v -> proposed st' e b v.
Proof.
  apply host_has_mono; [|done]. intros s s' H (Hp & Hb & Hv). destruct (sx_proposing _ _ H Hp).
  destruct (sx_started _ _ H (proposing_not_idle _ Hp)). split_and!; [done|congruence..].
Qed.

Lemma promised_at_mono e b : promised_at st e b -> promised_at st' e b.
Proof. apply host_has_mono; [|done]. intros s s' H Hp. pose proof (sx_promised _ _ H). lia. Qed.

Lemma accepted_at_mono e b : accepted_at st e b -> accepted_at st' e b.
Proof. apply host_has_mono; [|done]. intros s s' H Hp. pose proof (sx_accepted _ _ H). lia. Qed.

Lemma reported_mono b v : reported st b v -> reported st' b v.
Proof. intros [?|[e He]]; [by left|right]. exists e. by apply px_proposed_mono. Qed.
End mono.

(** ** The invariant *)

Definition state_u64 s : Prop :=
  is_u64 (promised_bal s) /\ is_u64 (accepted_bal s) /\ is_u64 (accepted_val s) /\ is_u64 (proposed_val s)
  /\ is_u64 (proposer_bal s)  /\ is_u64 (highest_accepted_bal s) /\ is_u64 (highest_accepted_val s).

Section inv.
Context (args : Args) (values : EndPoint -> Z).
Local Abbreviation n := (num_servers args).
Local Abbreviation quorum := (num_servers args / 2 + 1).

(** A promise for the ballot of [e] that was in time and is in the proposer's
    maximum [hab]. *)
Definition heard_promise st e (b hab i : Z) : Prop :=
  0 <= i < n /\ exists ab av, in_flight st (ep args i) e (PxPromise b ab av) /\ ab <= hab /\ ab < b.

Definition heard_accepted st e (i : Z) : Prop :=
  0 <= i < n /\ exists b v, in_flight st (ep args i) e (PxAccepted b v).

(** What a proposer knows: in Phase 1 of the promises, later also of the votes. *)
Record proposer_inv st e (i : Z) s : Prop := MkProposerInv
  { pr_initial : phase s = Idle \/ phase s = Phase1 -> proposed_val s = values e;
    pr_ballot : phase s <> Idle -> proposer_bal s = own_ballot args i;
    pr_promises : phase s <> Idle -> forall k, k ∈ promises_rcvd s ->
      heard_promise st e (own_ballot args i) (highest_accepted_bal s) k;
    pr_highest : phase s <> Idle ->
      0 <= highest_accepted_bal s < own_ballot args i
      /\ reported st (highest_accepted_bal s) (highest_accepted_val s);
    pr_quorum : proposing (phase s) ->
      set_len (promises_rcvd s) >= quorum
      /\ proposed_val s
         = if decide (highest_accepted_bal s > 0) then highest_accepted_val s else values e;
    pr_accepts : proposing (phase s) -> forall k, k ∈ accepts_rcvd s -> heard_accepted st e k;
    pr_decided : phase s = Decided ->
      set_len (accepts_rcvd s) >= quorum /\ decided_val s = proposed_val s }.

Record host_inv st e h : Prop := MkHostInv
  { hi_addr : ghs_local_addr h = e /\ paxos_parse_config e args = Some (ghs_config h);
    hi_fresh : fresh (ghs_protocol h);
    hi_u64 : state_u64 (px_local h);
    hi_bounded : accepted_bal (px_local h) <= promised_bal (px_local h);
    hi_vote : reported st (accepted_bal (px_local h)) (accepted_val (px_local h));
    hi_proposer : proposer_inv st e (px_index h) (px_local h) }.

(** What the messages from a host say. *)
Definition message_inv st (s d : EndPoint) (m : PaxosMessage) : Prop :=
  match m with
  | PxPrepare b => started st s b
  | PxAccept b v => proposed st s b v
  | PxPromise b ab av =>
      started st d b /\ promised_at st s b /\ reported st ab av /\ ab <= b
      /\ forall b' v', vote st s b' v' -> b' < b -> b' <= ab
  | PxAccepted b v => proposed st d b v /\ accepted_at st s b
  end.

Record paxos_inv st : Prop := MkPaxosInv
  { pi_domain : forall e, is_Some (gs_hosts st !! e) <-> e ∈ endpoints args;
    pi_host : forall e h, gs_hosts st !! e = Some h -> host_inv st e h;
    pi_message : forall x d m, x ∈ endpoints args -> in_flight st x d m -> message_inv st x d m }.

(** *** The start *)

Lemma paxos_inv_start st :
  (forall e, is_u64 (values e)) -> paxos_start args values st -> paxos_inv st.
Proof.
  intros Hv [Hsent Hhosts]. split.
  - intros e. specialize (Hhosts e). destruct (gs_hosts st !! e) as [h|].
    + destruct Hhosts as [He _]. by split.
    + split; [by intros [? ?]|done].
  - intros e h Hh. specialize (Hhosts e). rewrite Hh in Hhosts.
    destruct Hhosts as (_ & cfg & Hc & ->).
    split; cbn; [done|by intros _| |done|by left|].
    + unfold state_u64. cbn. split_and!; try done; apply Hv.
    + split; cbn; try done; by intros [?|?].
  - intros s d m _ (bytes & Hin & _). rewrite Hsent in Hin. by apply elem_of_empty in Hin.
Qed.

(** *** What extending keeps *)

Section keep.
Context st st' (Hx : extends st st').

Lemma heard_promise_mono e b hab i : heard_promise st e b hab i -> heard_promise st' e b hab i.
Proof. intros [Hi (ab & av & Hf & H)]. split; [done|]. exists ab, av. split; [by apply Hx|done]. Qed.

Lemma heard_accepted_mono e i : heard_accepted st e i -> heard_accepted st' e i.
Proof. intros [Hi (b & v & Hf)]. split; [done|]. exists b, v. by apply Hx. Qed.

Lemma proposer_inv_mono e i s : proposer_inv st e i s -> proposer_inv st' e i s.
Proof.
  intros [H1 H2 H3 H4 H5 H6 H7]. split; try done.
  - intros Hp k Hk. by apply heard_promise_mono, H3.
  - intros Hp. destruct (H4 Hp). split; [done|]. by apply (reported_mono st).
  - intros Hp k Hk. by apply heard_accepted_mono, H6.
Qed.

Lemma host_inv_mono e h : host_inv st e h -> host_inv st' e h.
Proof.
  intros [H1 H2 H3 H4 H5 H6]. split; try done; [by apply (reported_mono st)|by apply proposer_inv_mono].
Qed.
End keep.

(** *** Who is who *)

Lemma host_config st e h :
  paxos_inv st -> gs_hosts st !! e = Some h ->
  2 <= n /\ px_peers (ghs_config h) = endpoints args
  /\ px_constants (ghs_config h) = paxos_constants args (px_index h)
  /\ 0 <= px_index h < n /\ ep args (px_index h) = e.
Proof.
  intros Hinv Hh. destruct (hi_addr _ _ _ (pi_host _ Hinv e h Hh)) as [_ Hc].
  by apply paxos_config_spec.
Qed.

(** A ballot belongs to one host. *)
Lemma started_owner st e b h :
  paxos_inv st -> started st e b -> gs_hosts st !! e = Some h -> b = own_ballot args (px_index h).
Proof.
  intros Hinv (h0 & Hh0 & Hp & <-) Hh. rewrite Hh0 in Hh. injection Hh as ->.
  apply (pr_ballot _ _ _ _ (hi_proposer _ _ _ (pi_host _ Hinv e h Hh0)) Hp).
Qed.

Lemma proposed_started st e b v : proposed st e b v -> started st e b.
Proof. intros (h & Hh & Hp & Hb & _). exists h. split; [done|]. split; [by apply proposing_not_idle|done]. Qed.

Lemma started_inj st e e' b : paxos_inv st -> started st e b -> started st e' b -> e = e'.
Proof.
  intros Hinv H H'. pose proof H as (h & Hh & _). pose proof H' as (h' & Hh' & _).
  pose proof (started_owner st e b h Hinv H Hh) as Hb. pose proof (started_owner st e' b h' Hinv H' Hh') as Hb'.
  destruct (host_config st e h Hinv Hh) as (_ & _ & _ & _ & <-).
  destruct (host_config st e' h' Hinv Hh') as (_ & _ & _ & _ & <-).
  f_equal. unfold own_ballot in *. lia.
Qed.

Lemma proposed_value st e e' b v v' : paxos_inv st -> proposed st e b v -> proposed st e' b v' -> v = v'.
Proof.
  intros Hinv H H'. pose proof (started_inj st e e' b Hinv (proposed_started _ _ _ _ H) (proposed_started _ _ _ _ H')).
  subst e'. destruct H as (h & Hh & _ & _ & <-), H' as (h' & Hh' & _ & _ & <-). congruence.
Qed.

Lemma proposed_positive st e b v : paxos_inv st -> proposed st e b v -> 0 < b.
Proof.
  intros Hinv H%proposed_started. pose proof H as (h & Hh & _).
  rewrite (started_owner st e b h Hinv H Hh). destruct (host_config st e h Hinv Hh) as (? & _ & _ & ? & _).
  unfold own_ballot. lia.
Qed.
End inv.
