(* ===== verification/PaxosSteps.v ===== *)
(** * Every step of the Paxos hosts keeps the invariant

    One call of a host's [next], by the cases of [px_effect]: the host goes on
    from its state, what it sends says the truth, and what was said stays true. *)

From stdpp Require Import prelude gmap sets list numbers fin_sets.
From Stdlib Require Import ZArith Lia.
From S2P Require Import Prelude.
From S2P Require Import Types.
From S2P Require Import Environment.
From S2P Require Import Marshalling.
From S2P Require Import GenericHost.
From S2P Require Import FieldWire.
From S2P Require Import GenericSystem.
From S2P Require Import Paxos.
From S2P Require Import PaxosHost.
From S2P Require Import PaxosSystem.
From S2P Require Import PaxosInvariants.

#[local] Open Scope Z_scope.

(** ** Effects on one state *)

Section effects.
Context (cfg : PaxosConfig) (s s' : CState) (packet : option (GenericPacket PaxosMessage))
  (out : list (EndPoint * PaxosMessage)).
Context (Heff : px_effect cfg s packet s' out).

Lemma px_effect_extends : accepted_bal s <= promised_bal s -> state_extends s s'.
Proof.
  intros Hb. destruct Heff; split; cbn; try done; try lia;
    try (intros [?|?]; congruence); intros _; (split; [by (left + right)|done]) || done.
Qed.

Lemma px_effect_accepted d b v : (d, PxAccepted b v) ∈ out -> promised_bal s <= b.
Proof.
  destruct Heff; intros Hin; try by apply not_elem_of_nil in Hin.
  - by apply list_elem_of_fmap in Hin as (? & [=] & _).
  - by apply list_elem_of_singleton in Hin.
  - by apply list_elem_of_fmap in Hin as (? & [=] & _).
  - apply list_elem_of_singleton in Hin as [= _ -> _]. done.
Qed.

Lemma px_effect_u64 :
  state_u64 s -> is_u64 (seq_len (px_peers cfg) + px_my_index cfg) ->
  (forall i src m, got_from cfg packet i src m -> wire_ok m) ->
  state_u64 s' /\ forall d m, (d, m) ∈ out -> wire_ok m.
Proof.
  intros (H1 & H2 & H3 & H4 & H5 & H6 & H7) Hown Hgot.
  destruct Heff as [|b _ _|i src b Hg _|i src b ab av Hg _ _ _|s1 _ _|i src b v Hg _|i src b v Hg _ _ _|_ _];
    try specialize (Hgot _ _ _ Hg); cbn in Hgot; try rewrite !Forall_cons in Hgot; try destruct_and! Hgot;
    (split; [unfold state_u64; cbn; repeat case_decide; by split_and!|]); intros d m Hin;
    try by apply not_elem_of_nil in Hin.
  - apply list_elem_of_fmap in Hin as (? & [= _ ->] & _). cbn. rewrite !Forall_cons. done.
  - apply list_elem_of_singleton in Hin as [= _ ->]. cbn. rewrite !Forall_cons. by split_and!.
  - apply list_elem_of_fmap in Hin as (? & [= _ ->] & _). cbn. rewrite !Forall_cons.
    split_and!; try done. case_decide; done.
  - apply list_elem_of_singleton in Hin as [= _ ->]. cbn. rewrite !Forall_cons. by split_and!.
Qed.
End effects.

(** ** One call of a host's [next] *)

Section iteration.
Context (args : Args) (values : EndPoint -> Z).
Context (st st' : GenericSystem PaxosConfig PaxosHost) (e : EndPoint) (h : PaxosProcess) (p : PaxosHost)
  (packet : option (GenericPacket PaxosMessage)) (out : list (EndPoint * PaxosMessage)).
Local Abbreviation s := (px_local h).
Local Abbreviation s' := (px_state p).
Local Abbreviation h' := (MkGenericHostState p (ghs_config h) (ghs_local_addr h)).
Context (Hinv : paxos_inv args values st) (Hh : gs_hosts st !! e = Some h)
  (Hst' : gs_hosts st' = <[e := h']> (gs_hosts st))
  (Heff : px_effect (ghs_config h) s packet s' out) (Hfresh : fresh p)
  (Hpkt : forall pkt, packet = Some pkt -> in_flight st (gp_src pkt) e (gp_msg pkt))
  (Hmono : forall x d m, in_flight st x d m -> in_flight st' x d m)
  (Hflight : forall x d m, in_flight st' x d m -> in_flight st x d m \/ x = e /\ (d, m) ∈ out).

Let Hhost : host_inv args values st e h := pi_host _ _ _ Hinv e h Hh.
Let Hcfg := host_config args values st e h Hinv Hh.

Lemma iteration_extends : extends st st'.
Proof.
  split; [exact Hmono|]. intros e0 h0 Hh0. rewrite Hst'. destruct (decide (e0 = e)) as [->|Hne].
  - rewrite Hh in Hh0. injection Hh0 as <-. exists h'. rewrite lookup_insert_eq. split_and!; [done..|].
    exact (px_effect_extends _ _ _ _ _ Heff (hi_bounded _ _ _ _ _ Hhost)).
  - exists h0. rewrite lookup_insert_ne by done. split_and!; [done..|]. apply state_extends_refl.
Qed.

(** The sender of a message that is handled is a host, and what it says is so. *)
Lemma got_message i src m :
  got_from (ghs_config h) packet i src m ->
  0 <= i < num_servers args /\ ep args i = src /\ in_flight st src e m /\ message_inv st src e m.
Proof.
  intros [Hr (pkt & -> & <- & <-)]. destruct Hcfg as (_ & Hp & _).
  apply resolve_sender_index_spec in Hr as (Hi & He & _).
  rewrite Hp, seq_len_endpoints in Hi. rewrite Hp, seq_index_endpoints in He by done.
  specialize (Hpkt _ eq_refl). split_and!; [lia..|done|done|].
  apply (pi_message _ _ _ Hinv); [|done]. rewrite <- He. by apply ep_in_endpoints.
Qed.

Lemma host_has_new (P : CState -> Prop) : P s' -> host_has st' e P.
Proof. intros HP. exists h'. split; [|done]. by rewrite Hst', lookup_insert_eq. Qed.

(** *** The host's own state *)

Lemma recv_promise_proposer i b ab av src :
  got_from (ghs_config h) packet i src (PxPromise b ab av) -> phase s = Phase1 ->
  proposer_inv args values st' e (px_index h) (CRecvPromise s (px_constants (ghs_config h)) i ab av).
Proof.
  intros Hg Hp. destruct (got_message i src _ Hg) as (Hi & Hsrc & Hf & Hst & _ & Hrep & Hab & _).
  pose proof (proposer_inv_mono args values st st' iteration_extends _ _ _ (hi_proposer _ _ _ _ _ Hhost)) as Hpr.
  assert (phase s <> Idle) as Hni by congruence.
  destruct (pr_highest _ _ _ _ _ _ Hpr Hni) as [Hhab Hhrep].
  pose proof (started_owner args values st e b h Hinv Hst Hh) as Hb.
  assert (ab < b) as Hlt.
  { assert (ab <> b); [|lia]. intros ->. destruct Hrep as [->|(x & Hx)].
    - destruct Hcfg as (? & _ & _ & ? & _). unfold own_ballot in Hb. lia.
    - assert (x = e) as -> by exact (started_inj args values st x e b Hinv (proposed_started _ _ _ _ Hx) Hst).
      destruct Hx as (h0 & Hh0 & Hx & _). rewrite Hh in Hh0. injection Hh0 as <-.
      rewrite Hp in Hx. by destruct Hx. }
  assert (heard_promise args st' e (own_ballot args (px_index h)) ab i) as Hheard.
  { split; [done|]. exists ab, av. rewrite <- Hb, Hsrc. split_and!; [by apply Hmono|lia|done]. }
  split; cbn; try (intros [?|?]; congruence); try done.
  - intros _. apply (pr_initial _ _ _ _ _ _ Hpr). by right.
  - intros _. by apply (pr_ballot _ _ _ _ _ _ Hpr).
  - assert (forall k hab hab', hab <= hab' -> heard_promise args st' e (own_ballot args (px_index h)) hab k ->
      heard_promise args st' e (own_ballot args (px_index h)) hab' k) as Hle.
    { intros k hab hab' ? [? (ab0 & av0 & ? & ? & ?)]. split; [done|]. exists ab0, av0. split_and!; [done|lia..]. }
    intros _ k [->%elem_of_singleton|Hk]%elem_of_union.
    + apply (Hle _ ab); [case_decide; lia|done].
    + apply (Hle _ (highest_accepted_bal s)); [case_decide; lia|]. by apply (pr_promises _ _ _ _ _ _ Hpr).
  - intros _. case_decide; [|done]. split; [rewrite <- Hb; lia|].
    apply (reported_mono st); [exact iteration_extends|done].
Qed.

Lemma iteration_proposer : proposer_inv args values st' e (px_index h) s'.
Proof.
  pose proof (proposer_inv_mono args values st st' iteration_extends _ _ _ (hi_proposer _ _ _ _ _ Hhost)) as Hpr.
  pose proof recv_promise_proposer as Hrecv. pose proof got_message as Hgm. destruct Hcfg as (Hn & Hpeers & Hc & Hidx & _).
  destruct Heff as [|b Hp Hb|i src b Hg _|i src b ab av Hg Hp _ _|s1 Hp Hq|i src b v Hg _|i src b v Hg Hp _ _|Hp Hq].
  - done.
  - split; cbn; try done; try (intros [?|?]; congruence).
    + intros _. apply (pr_initial _ _ _ _ _ _ Hpr). by left.
    + intros _. unfold b, own_ballot. by rewrite Hpeers, seq_len_endpoints.
    + intros _. split; [unfold own_ballot; lia|by left].
  - by destruct Hpr.
  - by apply (Hrecv i b ab av src).
  - assert (phase s <> Idle) as Hni by congruence.
    split; cbn; try done; try (intros [?|?]; congruence).
    + intros _. by apply (pr_ballot _ _ _ _ _ _ Hpr).
    + intros _. by apply (pr_promises _ _ _ _ _ _ Hpr).
    + intros _. by apply (pr_highest _ _ _ _ _ _ Hpr).
    + intros _. rewrite Hc in Hq. split; [exact Hq|].
      rewrite (pr_initial _ _ _ _ _ _ Hpr) by (by right). done.
  - by destruct Hpr.
  - destruct (Hgm i src _ Hg) as (Hi & Hsrc & Hf & _).
    assert (proposing (phase s)) as Hpp by (by left).
    split; cbn; try done; try (intros [?|?]; congruence).
    + intros _. apply (pr_ballot _ _ _ _ _ _ Hpr). congruence.
    + intros _. apply (pr_promises _ _ _ _ _ _ Hpr). congruence.
    + intros _. apply (pr_highest _ _ _ _ _ _ Hpr). congruence.
    + intros _. by apply (pr_quorum _ _ _ _ _ _ Hpr).
    + intros _ k [->%elem_of_singleton|Hk]%elem_of_union; [|by apply (pr_accepts _ _ _ _ _ _ Hpr)].
      split; [done|]. exists b, v. rewrite Hsrc. by apply Hmono.
  - assert (proposing (phase s)) as Hpp by (by left).
    split; cbn; try done; try (intros [?|?]; congruence).
    + intros _. apply (pr_ballot _ _ _ _ _ _ Hpr). congruence.
    + intros _. apply (pr_promises _ _ _ _ _ _ Hpr). congruence.
    + intros _. apply (pr_highest _ _ _ _ _ _ Hpr). congruence.
    + intros _. by apply (pr_quorum _ _ _ _ _ _ Hpr).
    + intros _. by apply (pr_accepts _ _ _ _ _ _ Hpr).
    + intros _. rewrite Hc in Hq. done.
Qed.

Lemma iteration_host : state_u64 s' -> host_inv args values st' e h'.
Proof.
  intros Hu64. pose proof iteration_proposer as Hpr.
  pose proof (host_inv_mono args values st st' iteration_extends e h Hhost) as [Ha _ _ Hb Hv _].
  pose proof got_message as Hgm. pose proof iteration_extends as Hx.
  split; try done; change (px_local h') with s'.
  - destruct Heff as [|? ? ?|? ? ? ? ?|? ? ? ? ? ? ? ? ?|? ? ?|? ? ? ? ? ?|? ? ? ? ? ? ? ?|? ?]; cbn; done || lia.
  - destruct Heff as [|? ? ?|? ? ? ? ?|? ? ? ? ? ? ? ? ?|? ? ?|i src b v Hg ?|? ? ? ? ? ? ? ?|? ?]; try done.
    cbn. destruct (Hgm i src _ Hg) as (_ & _ & _ & Hm). right. exists src.
    by apply (px_proposed_mono st).
Qed.

(** *** What is in flight *)

Lemma new_vote b v : vote st' e b v -> vote st e b v \/ promised_bal s <= b.
Proof.
  intros (d & [Hf|[_ Hin]]%Hflight); [left; by exists d|right].
  exact (px_effect_accepted _ _ _ _ _ Heff d b v Hin).
Qed.

Lemma old_vote b v : vote st e b v -> b <= accepted_bal s.
Proof.
  intros (d & Hf). apply (pi_message _ _ _ Hinv) in Hf as [_ Hf].
  - destruct Hf as (h0 & Hh0 & Hb). rewrite Hh in Hh0. by injection Hh0 as <-.
  - apply (pi_domain _ _ _ Hinv). by exists h.
Qed.

Lemma old_message x d m : x ∈ endpoints args -> in_flight st x d m -> message_inv st' x d m.
Proof.
  intros Hx Hf. pose proof (pi_message _ _ _ Hinv x d m Hx Hf) as Hm. pose proof iteration_extends as Hext.
  destruct m as [b|b ab av|b v|b v]; cbn in Hm |- *.
  - by apply (started_mono st).
  - destruct Hm as (H1 & H2 & H3 & H4 & H5). split_and!; [by apply (started_mono st)|by apply (promised_at_mono st)|
      by apply (reported_mono st)|done|].
    intros b' v' Hv Hlt. destruct (decide (x = e)) as [->|Hne].
    + destruct (new_vote b' v' Hv) as [Hv'|Hp]; [by apply (H5 b' v')|].
      destruct H2 as (h0 & Hh0 & Hb). rewrite Hh in Hh0. injection Hh0 as <-. lia.
    + apply (H5 b' v'); [|done]. destruct Hv as (d' & [Hv|[? _]]%Hflight); [by exists d'|done].
  - by apply (px_proposed_mono st).
  - destruct Hm. split; [by apply (px_proposed_mono st)|by apply (accepted_at_mono st)].
Qed.

Lemma new_message d m : (d, m) ∈ out -> message_inv st' e d m.
Proof.
  intros Hin. pose proof got_message as Hgm. pose proof iteration_extends as Hx.
  pose proof host_has_new as Hnew. pose proof new_vote as Hnv. pose proof old_vote as Hov.
  pose proof px_effect_accepted as Hacc. specialize (Hacc _ _ _ _ _ Heff).
  destruct Heff as [|b Hp Hb|i src b Hg Hb|i src b ab av Hg Hp _ _|s1 Hp Hq|i src b v Hg Hb|i src b v Hg Hp _ _|Hp Hq];
    try by apply not_elem_of_nil in Hin.
  - apply list_elem_of_fmap in Hin as (? & [= -> ->] & _). by apply Hnew.
  - apply list_elem_of_singleton in Hin as [= -> ->]. destruct (Hgm i src _ Hg) as (_ & _ & _ & Hm).
    pose proof (hi_bounded _ _ _ _ _ Hhost). pose proof (hi_vote _ _ _ _ _ Hhost) as Hr. cbn. split_and!.
    + by apply (started_mono st).
    + apply Hnew. cbn. lia.
    + by apply (reported_mono st).
    + lia.
    + intros b' v' Hv Hlt. assert (vote st e b' v') as Hv'; [|by apply (Hov b' v')].
      destruct Hv as (d' & [Hf|[_ Hin]]%Hflight); [by exists d'|].
      by apply list_elem_of_singleton in Hin.
  - apply list_elem_of_fmap in Hin as (? & [= -> ->] & _). apply Hnew. cbn. by split_and!; [left|..].
  - apply list_elem_of_singleton in Hin as [= -> ->]. destruct (Hgm i src _ Hg) as (_ & _ & _ & Hm).
    split; [by apply (px_proposed_mono st)|]. by apply Hnew.
Qed.

Lemma iteration_inv : state_u64 s' -> paxos_inv args values st'.
Proof.
  intros Hu64. split.
  - intros x. rewrite <- (pi_domain _ _ _ Hinv), Hst'. destruct (decide (x = e)) as [->|Hne].
    + rewrite lookup_insert_eq, Hh. by split.
    + by rewrite lookup_insert_ne.
  - intros x h0. rewrite Hst'. intros [[<- <-]|[Hne Hh0]]%lookup_insert_Some; [by apply iteration_host|].
    apply (host_inv_mono args values st st' iteration_extends). by apply (pi_host _ _ _ Hinv).
  - intros x d m Hx [Hf|[-> Hin]]%Hflight; [by apply old_message|by apply new_message].
Qed.
End iteration.

(** ** Steps *)

Section steps.
Context (args : Args) (values : EndPoint -> Z) (Hmax : num_servers args <= ISIZE_MAX).
Implicit Types (st : GenericSystem PaxosConfig PaxosHost).

(** A step says nothing new in the hosts' names, or is one effect at one host. *)
Inductive px_step_case st st' : Prop :=
  | px_case_outside :
      gs_hosts st' = gs_hosts st ->
      (forall x d m, in_flight st x d m -> in_flight st' x d m) ->
      (forall x d m, x ∈ endpoints args -> in_flight st' x d m -> in_flight st x d m) ->
      px_step_case st st'
  | px_case_next e h p packet out :
      gs_hosts st !! e = Some h ->
      gs_hosts st' = <[e := MkGenericHostState p (ghs_config h) (ghs_local_addr h)]> (gs_hosts st) ->
      px_effect (ghs_config h) (px_local h) packet (px_state p) out ->
      fresh p -> state_u64 (px_state p) ->
      (forall pkt, packet = Some pkt -> in_flight st (gp_src pkt) e (gp_msg pkt)) ->
      (forall x d m, in_flight st x d m -> in_flight st' x d m) ->
      (forall x d m, in_flight st' x d m -> in_flight st x d m \/ x = e /\ (d, m) ∈ out) ->
      px_step_case st st'.

Lemma own_ballot_u64 st e h :
  paxos_inv args values st -> gs_hosts st !! e = Some h ->
  is_u64 (seq_len (px_peers (ghs_config h)) + px_my_index (ghs_config h)).
Proof.
  intros Hinv Hh. destruct (host_config args values st e h Hinv Hh) as (_ & Hp & _ & Hi & _).
  rewrite Hp, seq_len_endpoints. unfold px_index in Hi. unfold is_u64, U64_MODULUS, ISIZE_MAX in *. lia.
Qed.

Lemma paxos_step_cases st st' :
  paxos_inv args values st -> step_case (M := PaxosMessage) paxos_external_ok paxos_state_ok st st' ->
  px_step_case st st'.
Proof.
  intros Hinv [Heq Hmono Hext|e h amb packet Hh Hpkt r _ Hst' Hmono Hflight].
  - apply px_case_outside; [done..|]. intros x d m Hx Hf. destruct (Hext x d m Hf) as [?|[Hno _]]; [done|].
    apply (pi_domain _ _ _ Hinv) in Hx as [? Hx]. by rewrite Hno in Hx.
  - pose proof (pi_host _ _ _ Hinv e h Hh) as Hhost.
    destruct (hi_addr _ _ _ _ _ Hhost) as [Haddr _].
    destruct (host_config args values st e h Hinv Hh) as (Hn & Hp & Hc & Hi & _).
    assert (2 <= seq_len (px_peers (ghs_config h)) <= ISIZE_MAX) as Hn' by (rewrite Hp, seq_len_endpoints; lia).
    assert (0 <= px_my_index (ghs_config h) < seq_len (px_peers (ghs_config h))) as Hi'
      by (rewrite Hp, seq_len_endpoints; exact Hi).
    pose proof (paxos_next_effect (ghs_protocol h) (ghs_config h) packet (hi_fresh _ _ _ _ _ Hhost) Hn' Hi') as Heff.
    destruct (px_effect_u64 _ _ _ _ _ Heff (hi_u64 _ _ _ _ _ Hhost) (own_ballot_u64 st e h Hinv Hh))
      as [Hu64 Hwire].
    { intros i src m [_ (pkt & -> & <- & <-)]. exact (in_flight_ok st _ _ _ (Hpkt _ eq_refl)). }
    refine (px_case_next st st' e h _ packet _ Hh Hst' Heff _ Hu64 Hpkt Hmono _).
    + exact (paxos_next_fresh (ghs_protocol h) (ghs_config h) packet (hi_fresh _ _ _ _ _ Hhost) Hn' Hi').
    + intros x d m Hf. destruct (Hflight x d m Hf) as [?|(-> & m0 & Hin & Hm)]; [by left|right].
      split; [done|]. rewrite Hm; [done|]. by apply (Hwire d).
Qed.

(** A process's protocol state takes a step of LNext, or none. *)
Definition hosts_step st st' : Prop :=
  forall e h, gs_hosts st !! e = Some h ->
    exists h', gs_hosts st' !! e = Some h' /\ px_index h' = px_index h
      /\ (px_local h' = px_local h
          \/ LNext (px_local h) (px_local h') (paxos_constants args (px_index h))).

Lemma outside_extends st st' :
  gs_hosts st' = gs_hosts st -> (forall x d m, in_flight st x d m -> in_flight st' x d m) -> extends st st'.
Proof.
  intros Heq Hmono. split; [done|]. intros e h Hh. exists h. rewrite Heq. split_and!; [done..|].
  apply state_extends_refl.
Qed.

Lemma outside_inv st st' :
  paxos_inv args values st -> extends st st' -> gs_hosts st' = gs_hosts st ->
  (forall x d m, x ∈ endpoints args -> in_flight st' x d m -> in_flight st x d m) ->
  paxos_inv args values st'.
Proof.
  intros Hinv Hx Heq Hold. split.
  - intros x. rewrite Heq. apply (pi_domain _ _ _ Hinv).
  - intros x h. rewrite Heq. intros Hh. by apply (host_inv_mono args values st st' Hx), (pi_host _ _ _ Hinv).
  - intros x d m Hd Hf. pose proof (pi_message _ _ _ Hinv x d m Hd (Hold x d m Hd Hf)) as Hm.
    destruct m as [b|b ab av|b v|b v]; cbn in Hm |- *.
    + by apply (started_mono st).
    + destruct Hm as (H1 & H2 & H3 & H4 & H5). split_and!; [by apply (started_mono st)|
        by apply (promised_at_mono st)|by apply (reported_mono st)|done|].
      intros b' v' (d' & Hv) Hlt. apply (H5 b' v'); [|done]. exists d'. by apply Hold.
    + by apply (px_proposed_mono st).
    + destruct Hm. split; [by apply (px_proposed_mono st)|by apply (accepted_at_mono st)].
Qed.

Lemma paxos_inv_step st st' :
  paxos_inv args values st -> px_step_case st st' -> paxos_inv args values st' /\ hosts_step st st'.
Proof.
  intros Hinv [Heq Hmono Hold|e h p packet out Hh Hst' Heff Hfr Hu64 Hpkt Hmono Hflight].
  - split; [by apply (outside_inv st); [|by apply outside_extends|..]|].
    intros e h Hh. exists h. rewrite Heq. split_and!; [done..|]. by left.
  - split; [by apply (iteration_inv args values st st' e h p packet out)|].
    intros x h0 Hh0. rewrite Hst'. destruct (decide (x = e)) as [->|Hne].
    + rewrite Hh in Hh0. injection Hh0 as <-. eexists. rewrite lookup_insert_eq. split_and!; [done|done|].
      destruct (host_config args values st e h Hinv Hh) as (_ & _ & Hc & _).
      rewrite <- Hc. exact (px_effect_LNext _ _ _ _ _ Heff).
    + exists h0. rewrite lookup_insert_ne by done. split_and!; [done..|]. by left.
Qed.
End steps.
