(* ===== verification/PaxosSafety.v ===== *)
(** * Agreement of the Paxos hosts, and whom they hear from

    From the invariant: a proposal above a ballot at which a quorum has voted for
    a value proposes that value, by induction on the ballots.  And separately:
    a host asks its other peers only and counts answers of theirs only. *)

From stdpp Require Import prelude gmap sets list numbers fin_sets.
From Stdlib Require Import ZArith Lia.
From S2P Require Import Prelude.
From S2P Require Import Types.
From S2P Require Import Environment.
From S2P Require Import Marshalling.
From S2P Require Import GenericHost.
From S2P Require Import FieldWire.
From S2P Require Import GenericSystem.
From S2P Require Import Paxos.
From S2P Require Import PaxosHost.
From S2P Require Import PaxosSystem.
From S2P Require Import PaxosInvariants.
From S2P Require Import PaxosSteps.

#[local] Open Scope Z_scope.

Implicit Types (st : GenericSystem PaxosConfig PaxosHost) (e a d : EndPoint)
  (h : GenericHostState PaxosConfig PaxosHost) (s : CState).

(** ** Agreement *)

(** A quorum has voted for a value at a ballot. *)
Definition chosen (args : Args) st (b v : Z) : Prop :=
  exists Q : gset Z, set_len Q >= num_servers args / 2 + 1
    /\ forall k, k ∈ Q -> 0 <= k < num_servers args /\ vote st (ep args k) b v.

Section agreement.
Context (args : Args) (values : EndPoint -> Z) st (Hinv : paxos_inv args values st).
Local Abbreviation n := (num_servers args).

Lemma majorities_meet (Q1 Q2 : gset Z) :
  set_len Q1 >= n / 2 + 1 -> set_len Q2 >= n / 2 + 1 ->
  (forall k, k ∈ Q1 -> 0 <= k < n) -> (forall k, k ∈ Q2 -> 0 <= k < n) -> exists k, k ∈ Q1 /\ k ∈ Q2.
Proof.
  intros H1 H2 Hr1 Hr2. apply (quorum_intersection (seqZ 0 n)).
  - intros k Hk. apply elem_of_seqZ. specialize (Hr1 k Hk). lia.
  - intros k Hk. apply elem_of_seqZ. specialize (Hr2 k Hk). lia.
  - unfold set_len, seq_len in *. rewrite length_seqZ. pose proof (seq_len_nonneg args) as Hn. fold n in Hn.
    rewrite Z2Nat.id by done. pose proof (Z.div_mod n 2). pose proof (Z.mod_pos_bound n 2). lia.
Qed.

Lemma vote_proposed a b v : a ∈ endpoints args -> vote st a b v -> exists e, proposed st e b v.
Proof. intros Ha (d & [Hp _]%(pi_message _ _ _ Hinv)); [by exists d|done]. Qed.

Lemma px_chosen_proposed b v : chosen args st b v -> exists e, proposed st e b v.
Proof.
  intros (Q & Hq & HQ). destruct (decide (Q = ∅)) as [->|[k Hk]%set_choose_L].
  - unfold set_len in Hq. rewrite size_empty in Hq. pose proof (seq_len_nonneg args).
    pose proof (Z.div_pos n 2). unfold num_servers in *. lia.
  - destruct (HQ k Hk) as [Hr Hv]. by apply (vote_proposed (ep args k)), Hv; apply ep_in_endpoints.
Qed.

(** What a proposer has heard of an acceptor's votes below its ballot. *)
Lemma heard_promise_vote e b hab k b' v' :
  heard_promise args st e b hab k -> vote st (ep args k) b' v' -> b' < b -> b' <= hab.
Proof.
  intros [Hk (ab & av & Hf & Hab & _)] Hv Hlt.
  apply (pi_message _ _ _ Hinv) in Hf as (_ & _ & _ & _ & Hvotes); [|by apply ep_in_endpoints].
  specialize (Hvotes b' v' Hv Hlt). lia.
Qed.

Lemma proposed_after_chosen b v : chosen args st b v ->
  forall b' e v', b < b' -> proposed st e b' v' -> v' = v.
Proof.
  intros Hc. pose proof (px_chosen_proposed b v Hc) as (e0 & He0).
  pose proof (proposed_positive args values st e0 b v Hinv He0) as Hpos.
  intros b'. assert (0 <= b' \/ b' < 0) as [Hb'|Hb'] by lia; [|lia].
  revert b' Hb'. refine (Z_lt_induction _ _). intros b' IH e v' Hlt He.
  pose proof He as (h & Hh & Hp & Hbal & Hval).
  pose proof (hi_proposer _ _ _ _ _ (pi_host _ _ _ Hinv e h Hh)) as Hpr.
  pose proof (proposing_not_idle _ Hp) as Hni.
  pose proof (pr_ballot _ _ _ _ _ _ Hpr Hni) as Hown. rewrite Hbal in Hown.
  destruct (pr_quorum _ _ _ _ _ _ Hpr Hp) as [Hq Hpv].
  destruct (pr_highest _ _ _ _ _ _ Hpr Hni) as [Hhab Hrep]. rewrite <- Hown in Hhab.
  destruct Hc as (Q & HQ & Hvotes).
  destruct (majorities_meet Q (promises_rcvd (px_local h)) HQ Hq) as (k & HkQ & Hkp).
  - intros k Hk. by apply Hvotes.
  - intros k Hk. by destruct (pr_promises _ _ _ _ _ _ Hpr Hni k Hk) as [? _].
  - pose proof (pr_promises _ _ _ _ _ _ Hpr Hni k Hkp) as Hheard. rewrite <- Hown in Hheard.
    pose proof (heard_promise_vote e b' _ k b v Hheard (proj2 (Hvotes k HkQ)) Hlt) as Hle.
    rewrite decide_True in Hpv by lia. rewrite <- Hval, Hpv.
    destruct Hrep as [Hz|(e1 & He1)]; [lia|].
    destruct (decide (highest_accepted_bal (px_local h) = b)) as [Heq|Hne].
    + rewrite Heq in He1. exact (proposed_value args values st e1 e0 b _ v Hinv He1 He0).
    + apply (IH (highest_accepted_bal (px_local h))) with (e := e1); [lia..|done].
Qed.

Lemma px_chosen_unique b v b' v' : chosen args st b v -> chosen args st b' v' -> v = v'.
Proof.
  intros Hc Hc'. destruct (px_chosen_proposed _ _ Hc) as (e & He), (px_chosen_proposed _ _ Hc') as (e' & He').
  assert (b < b' \/ b = b' \/ b' < b) as [Hlt|[Heq|Hlt]] by lia.
  - symmetry. exact (proposed_after_chosen b v Hc b' e' v' Hlt He').
  - subst b'. exact (proposed_value args values st e e' b v v' Hinv He He').
  - exact (proposed_after_chosen b' v' Hc' b e v Hlt He).
Qed.

(** A decided host's value is chosen. *)
Lemma decided_chosen e h :
  gs_hosts st !! e = Some h -> phase (px_local h) = Decided ->
  chosen args st (proposer_bal (px_local h)) (decided_val (px_local h)).
Proof.
  intros Hh Hd. pose proof (hi_proposer _ _ _ _ _ (pi_host _ _ _ Hinv e h Hh)) as Hpr.
  destruct (pr_decided _ _ _ _ _ _ Hpr Hd) as [Hq ->]. exists (accepts_rcvd (px_local h)). split; [done|].
  intros k Hk. assert (proposing (phase (px_local h))) as Hp by (by right).
  destruct (pr_accepts _ _ _ _ _ _ Hpr Hp k Hk) as [Hr (b & v & Hf)]. split; [done|].
  pose proof Hf as Hf'. apply (pi_message _ _ _ Hinv) in Hf' as [Hprop _]; [|by apply ep_in_endpoints].
  destruct Hprop as (h0 & Hh0 & _ & Hb & Hv). rewrite Hh in Hh0. injection Hh0 as <-.
  exists e. by rewrite Hb, Hv.
Qed.

(** Every proposal is some host's own value. *)
Lemma proposed_valid e b v : proposed st e b v -> exists x, x ∈ endpoints args /\ v = values x.
Proof.
  assert (0 <= b \/ b < 0) as [Hb|Hb] by lia;
    [|intros Hp; pose proof (proposed_positive args values st e b v Hinv Hp); lia].
  revert b Hb e v. refine (Z_lt_induction _ _). intros b IH e v (h & Hh & Hp & Hbal & <-).
  pose proof (hi_proposer _ _ _ _ _ (pi_host _ _ _ Hinv e h Hh)) as Hpr.
  pose proof (proposing_not_idle _ Hp) as Hni.
  pose proof (pr_ballot _ _ _ _ _ _ Hpr Hni) as Hown.
  destruct (pr_quorum _ _ _ _ _ _ Hpr Hp) as [_ ->].
  destruct (pr_highest _ _ _ _ _ _ Hpr Hni) as [Hhab Hrep]. case_decide as Hpos.
  - destruct Hrep as [?|(e1 & He1)]; [lia|].
    apply (IH (highest_accepted_bal (px_local h))) with (e := e1); [lia..|done].
  - exists e. split; [|done]. apply (pi_domain _ _ _ Hinv). by exists h.
Qed.
End agreement.

(** ** Whom a host hears from *)

Definition is_request (m : PaxosMessage) : bool :=
  match m with PxPrepare _ | PxAccept _ _ => true | _ => false end.

(** The acceptors that a host has counted. *)
Definition counted s : gset Z := promises_rcvd s ∪ accepts_rcvd s.

Section peers.
Context (args : Args) (values : EndPoint -> Z).

(** Questions go to other peers, so answers come from them, and each is counted
    under the first index of its sender. *)
Record peer_inv st : Prop := MkPeerInv
  { pe_request : forall e h d m, gs_hosts st !! e = Some h -> in_flight st e d m -> is_request m = true ->
      d ∈ other_peers (ghs_config h);
    pe_answer : forall a e h m, a ∈ endpoints args -> gs_hosts st !! e = Some h -> in_flight st a e m ->
      is_request m = false -> a ∈ other_peers (ghs_config h);
    pe_counted : forall e h k, gs_hosts st !! e = Some h -> k ∈ counted (px_local h) ->
      resolve_sender_index (ghs_config h) (ep args k) = Some k /\ ep args k ∈ other_peers (ghs_config h) }.

Lemma peer_inv_start st : paxos_start args values st -> peer_inv st.
Proof.
  intros [Hsent Hhosts].
  assert (forall x d m, ~ in_flight st x d m) as Hno.
  { intros x d m (bytes & Hin & _). rewrite Hsent in Hin. by apply elem_of_empty in Hin. }
  split.
  - intros e h d m _ Hf. by destruct (Hno _ _ _ Hf).
  - intros a e h m _ _ Hf. by destruct (Hno _ _ _ Hf).
  - intros e h k Hh. specialize (Hhosts e). rewrite Hh in Hhosts. destruct Hhosts as (_ & cfg & _ & ->).
    unfold counted. cbn. set_solver.
Qed.

(** What an effect asks, answers and counts. *)
Lemma px_effect_sends cfg s packet s' out d m :
  px_effect cfg s packet s' out -> (d, m) ∈ out ->
  if is_request m then d ∈ other_peers cfg
  else exists i m0, got_from cfg packet i d m0 /\ is_request m0 = true.
Proof.
  intros [|b _ _|i src b Hg _|i src b ab av Hg _ _ _|s1 _ _|i src b v Hg _|i src b v Hg _ _ _|_ _] Hin;
    try by apply not_elem_of_nil in Hin.
  - by apply list_elem_of_fmap in Hin as (? & [= -> ->] & ?).
  - apply list_elem_of_singleton in Hin as [= -> ->]. by exists i, (PxPrepare b).
  - by apply list_elem_of_fmap in Hin as (? & [= -> ->] & ?).
  - apply list_elem_of_singleton in Hin as [= -> ->]. by exists i, (PxAccept b v).
Qed.

Lemma px_effect_counts cfg s packet s' out k :
  px_effect cfg s packet s' out -> k ∈ counted s' ->
  k ∈ counted s \/ exists src m, got_from cfg packet k src m /\ is_request m = false.
Proof.
  unfold counted.
  intros [|b _ _|i src b Hg _|i src b ab av Hg _ _ _|s1 _ _|i src b v Hg _|i src b v Hg _ _ _|_ _] Hin;
    cbn in Hin; try (left; set_solver).
  - rewrite !elem_of_union, elem_of_singleton in Hin. rewrite elem_of_union.
    destruct Hin as [[->|?]|?]; [right|tauto..]. by exists src, (PxPromise b ab av).
  - rewrite !elem_of_union, elem_of_singleton in Hin. rewrite elem_of_union.
    destruct Hin as [?|[->|?]]; [tauto|right|tauto]. by exists src, (PxAccepted b v).
Qed.

(** A message that is handled comes from the host with the index it resolves to. *)
Lemma got_sender st e h packet i src m :
  paxos_inv args values st -> gs_hosts st !! e = Some h ->
  (forall pkt, packet = Some pkt -> in_flight st (gp_src pkt) e (gp_msg pkt)) ->
  got_from (ghs_config h) packet i src m -> ep args i = src /\ src ∈ endpoints args /\ in_flight st src e m.
Proof.
  intros Hinv Hh Hpkt [Hr (pkt & -> & <- & <-)].
  destruct (host_config args values st e h Hinv Hh) as (_ & Hp & _).
  apply resolve_sender_index_spec in Hr as (Hi & He & _). rewrite Hp, seq_len_endpoints in Hi.
  rewrite Hp, seq_index_endpoints in He by done. split_and!; [done| |by apply Hpkt].
  rewrite <- He. by apply ep_in_endpoints.
Qed.

Lemma peer_inv_step st st' :
  paxos_inv args values st -> peer_inv st -> px_step_case args st st' -> peer_inv st'.
Proof.
  intros Hinv [H1 H2 H3] [Heq _ Hold|e h p packet out Hh Hst' Heff _ _ Hpkt _ Hflight].
  - split; rewrite Heq; [|by eauto..]. intros e h d m Hh Hf. apply (H1 e h d m Hh), Hold; [|done].
    apply (pi_domain _ _ _ Hinv). by exists h.
  - assert (forall x h', gs_hosts st' !! x = Some h' ->
      exists h0, gs_hosts st !! x = Some h0 /\ ghs_config h' = ghs_config h0) as Hconf.
    { intros x h'. rewrite Hst'. intros [[<- <-]|[_ ?]]%lookup_insert_Some; [by exists h|by exists h']. }
    split.
    + intros x h' d m (h0 & Hh0 & ->)%Hconf Hf Hm.
      destruct (Hflight x d m Hf) as [?|[-> Hin]]; [by apply (H1 x h0 d m)|].
      rewrite Hh in Hh0. injection Hh0 as <-.
      pose proof (px_effect_sends _ _ _ _ _ _ _ Heff Hin) as Hs. by rewrite Hm in Hs.
    + intros a x h' m Ha (h0 & Hh0 & ->)%Hconf Hf Hm.
      destruct (Hflight a x m Hf) as [?|[-> Hin]]; [by apply (H2 a x h0 m)|].
      pose proof (px_effect_sends _ _ _ _ _ _ _ Heff Hin) as Hs. rewrite Hm in Hs.
      destruct Hs as (i & m0 & Hg & Hm0).
      destruct (got_sender st e h packet i x m0 Hinv Hh Hpkt Hg) as (_ & _ & Hf0).
      by apply (H1 x h0 e m0).
    + intros x h' k Hh' Hk. rewrite Hst' in Hh'.
      apply lookup_insert_Some in Hh' as [[<- <-]|[_ ?]]; [|by apply (H3 x h' k)].
      destruct (px_effect_counts _ _ _ _ _ k Heff Hk) as [?|(src & m & Hg & Hm)]; [by apply (H3 e h k)|].
      destruct (got_sender st e h packet k src m Hinv Hh Hpkt Hg) as (-> & Hsrc & Hf). cbn [ghs_config].
      destruct Hg as [Hr _]. split; [done|]. by apply (H2 src e h m).
Qed.

(** A host does not count its own answers: the index of its own address is the
    last one, and only another peer's first index is counted. *)
Lemma not_counted_itself st e h :
  paxos_inv args values st -> peer_inv st -> gs_hosts st !! e = Some h -> px_index h ∉ counted (px_local h).
Proof.
  intros Hinv Hpeer Hh Hk. destruct (pe_counted _ Hpeer e h _ Hh Hk) as [Hr Ho].
  destruct (host_config args values st e h Hinv Hh) as (_ & Hp & _ & Hi & He).
  rewrite He in Hr, Ho.
  apply resolve_sender_index_spec in Hr as (_ & _ & Hfirst).
  apply other_peers_elem in Ho as (j & Hj & Hne & Hje).
  destruct (decide (j < px_index h)) as [Hlt|Hge]; [destruct (Hfirst j); [lia|done]|].
  rewrite Hp, seq_len_endpoints in Hj. rewrite Hp, seq_index_endpoints in Hje by done.
  destruct (hi_addr _ _ _ _ _ (pi_host _ _ _ Hinv e h Hh)) as [_ Hc].
  unfold paxos_parse_config in Hc. case_decide; [done|].
  pose proof (parse_peers_last e 0 args ([], None)) as Hlast.
  destruct (parse_peers e 0 args ([], None)) as [ps k]. cbn in Hc, Hlast.
  destruct k as [k|]; [|done]. cbn in Hc. destruct (Hlast k eq_refl) as [_ Hl].
  assert (px_index h = k) as Hik by (unfold px_index; by injection Hc as <-).
  unfold px_index in *. apply (Hl j); [done|lia|]. rewrite <- Hje. done.
Qed.
End peers.
