(* ===== verification/PaxosProperties.v ===== *)
(** * Theorems about single-decree Paxos

    Agreement and validity, the abstract specification of consensus and its
    refinement, the refinement of the protocol by each running host, and what
    the hosts cannot do: decide anything but 0, or decide when they are two.  The
    witnesses are a run of three hosts in which two decide. *)

From stdpp Require Import prelude gmap sets list numbers fin_sets.
From Stdlib Require Import ZArith Lia.
From S2P Require Import Prelude.
From S2P Require Import Types.
From S2P Require Import Environment.
From S2P Require Import Marshalling.
From S2P Require Import GenericHost.
From S2P Require Import FieldWire.
From S2P Require Import GenericSystem.
From S2P Require Import Paxos.
From S2P Require Import PaxosHost.
From S2P Require Import PaxosSystem.
From S2P Require Import PaxosInvariants.
From S2P Require Import PaxosSteps.
From S2P Require Import PaxosSafety.

#[local] Open Scope Z_scope.

(** ** Consensus

    What single-decree Paxos is for: at most one decision, on a proposed value. *)

Definition consensus_next (proposals : gset Z) (o o' : option Z) : Prop :=
  exists v, o = None /\ o' = Some v /\ v ∈ proposals.

(** The decision that the hosts show: that of a decided host. *)
Definition decided_hosts (st : PaxosSystem) : gmap EndPoint PaxosProcess :=
  filter (fun p => phase (px_local p.2) = Decided) (gs_hosts st).
Definition decision (st : PaxosSystem) : option Z :=
  match map_to_list (decided_hosts st) with
  | [] => None
  | (_, h) :: _ => Some (decided_val (px_local h))
  end.

Definition proposals (args : Args) (values : EndPoint -> Z) : gset Z :=
  list_to_set (values <$> endpoints args).

Lemma decision_None st e h : decision st = None -> gs_hosts st !! e = Some h -> phase (px_local h) <> Decided.
Proof.
  unfold decision. destruct (map_to_list (decided_hosts st)) as [|[e0 h0] l] eqn:Hl; [|done].
  intros _ Hh Hd. apply map_to_list_empty_iff in Hl.
  assert (decided_hosts st !! e = Some h) as Hf by (by apply map_lookup_filter_Some).
  rewrite Hl in Hf. by rewrite lookup_empty in Hf.
Qed.

Lemma decision_Some st v :
  decision st = Some v ->
  exists e h, gs_hosts st !! e = Some h /\ phase (px_local h) = Decided /\ decided_val (px_local h) = v.
Proof.
  unfold decision. destruct (map_to_list (decided_hosts st)) as [|[e0 h0] l] eqn:Hl; [done|].
  intros [= <-]. assert ((e0, h0) ∈ map_to_list (decided_hosts st)) as Hin by (rewrite Hl; by left).
  apply elem_of_map_to_list, map_lookup_filter_Some in Hin as [Hh Hd]. by exists e0, h0.
Qed.

(** ** Runs *)

Lemma run_start args st0 :
  generic_system_init (M := PaxosMessage) (Ambient := unit) args st0 -> paxos_start args (fun _ => 0) st0.
Proof.
  intros [Hs Hh]. split; [done|]. intros e. specialize (Hh e). destruct (gs_hosts st0 !! e) as [h|]; [|done].
  destruct Hh as (He & amb & Hi). split; [done|]. unfold generic_init in Hi. cbn in Hi.
  destruct (paxos_parse_config e args) as [cfg|]; [|done]. cbn in Hi. injection Hi as <-. by exists cfg.
Qed.

Section runs.
Context (args : Args) (values : EndPoint -> Z) (Hmax : num_servers args <= ISIZE_MAX)
  (Hvalues : forall e, is_u64 (values e)).
Implicit Types (st : GenericSystem PaxosConfig PaxosHost).

Lemma start_bytes st0 : paxos_start args values st0 -> sent_bytes st0.
Proof. intros [Hs _] w. rewrite Hs. by intros ?%elem_of_empty. Qed.

Lemma paxos_run_inv st0 st :
  paxos_start args values st0 -> rtc paxos_step st0 st -> paxos_inv args values st /\ peer_inv args st.
Proof.
  intros Hi Hs. revert st Hs.
  apply (generic_steps_ind paxos_external_ok paxos_state_ok
    (fun st => paxos_inv args values st /\ peer_inv args st)).
  - by apply start_bytes.
  - split; [by apply paxos_inv_start|by apply (peer_inv_start args values)].
  - intros st st' [H1 H2] Hcase. pose proof (paxos_step_cases args values Hmax st st' H1 Hcase) as Hc.
    split; [by apply (paxos_inv_step args values st)|by apply (peer_inv_step args values st)].
Qed.

Lemma paxos_steps_hosts st st' e h :
  paxos_inv args values st -> sent_bytes st -> rtc paxos_step st st' -> gs_hosts st !! e = Some h ->
  exists h', gs_hosts st' !! e = Some h' /\ px_index h' = px_index h
    /\ rtc (fun s s' => LNext s s' (paxos_constants args (px_index h))) (px_local h) (px_local h').
Proof.
  intros Hinv Hb Hs. revert h Hinv Hb. induction Hs as [st|st st1 st2 Hst _ IH]; intros h Hinv Hb Hh; [by exists h|].
  pose proof (paxos_step_cases args values Hmax st st1 Hinv (generic_step_cases _ _ _ _ Hb Hst)) as Hc.
  destruct (paxos_inv_step args values st st1 Hinv Hc) as [Hinv1 Hstep].
  destruct (Hstep e h Hh) as (h1 & Hh1 & Hi1 & Hn).
  destruct (IH h1 Hinv1 (sent_bytes_step _ _ _ _ Hb Hst) Hh1) as (h2 & Hh2 & Hi2 & Hsteps).
  exists h2. rewrite Hi1 in Hi2, Hsteps. split_and!; [done..|].
  destruct Hn as [<-|Hn]; [done|]. by eapply rtc_l.
Qed.

(** Decided hosts agree, on a value of one of the hosts. *)
Lemma decided_agree st e h e' h' :
  paxos_inv args values st -> gs_hosts st !! e = Some h -> gs_hosts st !! e' = Some h' ->
  phase (px_local h) = Decided -> phase (px_local h') = Decided ->
  decided_val (px_local h) = decided_val (px_local h').
Proof.
  intros Hinv Hh Hh' Hd Hd'.
  exact (px_chosen_unique args values st Hinv _ _ _ _ (decided_chosen args values st Hinv e h Hh Hd)
    (decided_chosen args values st Hinv e' h' Hh' Hd')).
Qed.

Lemma decided_valid st e h :
  paxos_inv args values st -> gs_hosts st !! e = Some h -> phase (px_local h) = Decided ->
  exists x, x ∈ endpoints args /\ decided_val (px_local h) = values x.
Proof.
  intros Hinv Hh Hd.
  destruct (px_chosen_proposed args values st Hinv _ _ (decided_chosen args values st Hinv e h Hh Hd)) as (e0 & He0).
  exact (proposed_valid args values st Hinv e0 _ _ He0).
Qed.

(** A host that has decided stays so, with its value. *)
Lemma decided_stays s s' c :
  rtc (fun s s' => LNext s s' c) s s' -> phase s = Decided -> phase s' = Decided /\ decided_val s' = decided_val s.
Proof.
  intros Hs. induction Hs as [s|s s1 s2 Hn _ IH]; intros Hd; [done|].
  assert (phase s1 = Decided /\ decided_val s1 = decided_val s) as [H1 H2].
  { destruct Hn as [(b & ? & _ & ->)|[(b & _ & ->)|[(a & ab & av & ? & _)|[(v & ? & _)|
      [(b & v & _ & ->)|[(a & ? & _)|(? & _)]]]]]]; done || congruence. }
  rewrite <- H2. by apply IH.
Qed.

Lemma decision_step st st' :
  paxos_inv args values st -> sent_bytes st -> paxos_step st st' ->
  decision st' = decision st \/ consensus_next (proposals args values) (decision st) (decision st').
Proof.
  intros Hinv Hb Hst.
  pose proof (paxos_step_cases args values Hmax st st' Hinv (generic_step_cases _ _ _ _ Hb Hst)) as Hc.
  destruct (paxos_inv_step args values st st' Hinv Hc) as [Hinv' _].
  destruct (decision st) as [v|] eqn:Ho, (decision st') as [v'|] eqn:Ho'; [| |right|by left].
  1,2: apply decision_Some in Ho as (e & h & Hh & Hd & <-);
    destruct (paxos_steps_hosts st st' e h Hinv Hb (rtc_once _ _ Hst) Hh) as (h' & Hh' & _ & Hs);
    destruct (decided_stays _ _ _ Hs Hd) as [Hd' <-].
  - left. apply decision_Some in Ho' as (e2 & h2 & Hh2 & Hd2 & <-). f_equal.
    by apply (decided_agree st' e2 h2 e h').
  - by destruct (decision_None st' e h' Ho' Hh').
  - exists v'. split_and!; [done..|]. apply decision_Some in Ho' as (e & h & Hh & Hd & <-).
    destruct (decided_valid st' e h Hinv' Hh Hd) as (x & Hx & ->).
    apply elem_of_list_to_set, list_elem_of_fmap. by exists x.
Qed.
End runs.

(** ** A run of three hosts *)

Definition paxos_args : Args := [[0]; [1]; [2]].
Definition node (i : Z) : EndPoint := MkEndPoint [i].

#[export] Instance paxos_external_ok_dec m : Decision (paxos_external_ok m).
Proof. left. exact I. Defined.
#[export] Instance paxos_state_ok_dec h : Decision (paxos_state_ok h).
Proof. left. exact I. Defined.

(** Host 0 has its ballot 3 promised and its value accepted by hosts 1 and 2, and
    decides; host 1 then has its ballot 4 promised, hears of the value, and
    decides it too. *)
Definition paxos_round (i b v a1 a2 b1 v1 b2 v2 : Z) : list (Event unit) :=
  [HostEvent (node i) tt None;
   HostEvent (node a1) tt (Some (datagram (node i) (node a1) (PxPrepare b)));
   HostEvent (node a2) tt (Some (datagram (node i) (node a2) (PxPrepare b)));
   HostEvent (node i) tt (Some (datagram (node a1) (node i) (PxPromise b b1 v1)));
   HostEvent (node i) tt (Some (datagram (node a2) (node i) (PxPromise b b2 v2)));
   HostEvent (node i) tt None;
   HostEvent (node a1) tt (Some (datagram (node i) (node a1) (PxAccept b v)));
   HostEvent (node a2) tt (Some (datagram (node i) (node a2) (PxAccept b v)));
   HostEvent (node i) tt (Some (datagram (node a1) (node i) (PxAccepted b v)));
   HostEvent (node i) tt (Some (datagram (node a2) (node i) (PxAccepted b v)));
   HostEvent (node i) tt None].

Definition own_values (e : EndPoint) : Z :=
  if decide (e = node 0) then 5 else if decide (e = node 1) then 6 else 7.
Definition paxos_script : list (Event unit) :=
  paxos_round 0 3 5 1 2 0 0 0 0 ++ paxos_round 1 4 5 0 2 0 0 3 5.

Definition with_own_value (values : EndPoint -> Z) (e : EndPoint) (h : PaxosProcess) : PaxosProcess :=
  MkGenericHostState (MkPaxosHost (with_value (values e) (px_local h)) 0 0) (ghs_config h) (ghs_local_addr h).
Definition paxos_begin (values : EndPoint -> Z) : PaxosSystem :=
  MkGenericSystem (map_imap (fun e h => Some (with_own_value values e h))
    (gs_hosts (start (M := PaxosMessage) paxos_args tt))) ∅.
Definition paxos_after (values : EndPoint -> Z) (evs : list (Event unit)) : PaxosSystem :=
  played paxos_external_ok paxos_state_ok (paxos_begin values) evs.

Lemma paxos_start_init :
  generic_system_init (M := PaxosMessage) (Ambient := unit) paxos_args (start (M := PaxosMessage) paxos_args tt).
Proof. apply start_init. repeat (constructor; [vm_compute; by eexists|]). constructor. Qed.

Lemma paxos_begin_start values : paxos_start paxos_args values (paxos_begin values).
Proof.
  destruct (run_start _ _ paxos_start_init) as [_ Hh]. split; [done|]. intros e. specialize (Hh e).
  unfold paxos_begin. cbn [gs_hosts]. rewrite map_lookup_imap.
  destruct (gs_hosts _ !! e) as [h|]; [|done]. cbn. destruct Hh as (He & cfg & Hc & ->).
  split; [done|]. by exists cfg.
Qed.

(** A script plays to its end from a state. *)
Definition plays (st : PaxosSystem) (evs : list (Event unit)) : bool :=
  match play paxos_external_ok paxos_state_ok st evs with Some _ => true | None => false end.

Lemma paxos_after_run values evs :
  plays (paxos_begin values) evs = true -> rtc paxos_step (paxos_begin values) (paxos_after values evs).
Proof. unfold plays. intros Hp. apply played_steps. by destruct (play _ _ _ _). Qed.

(** The same without a value of one's own, as the code starts. *)
Definition paxos_played (evs : list (Event unit)) : PaxosSystem :=
  played paxos_external_ok paxos_state_ok (start (M := PaxosMessage) paxos_args tt) evs.
Definition zero_script : list (Event unit) := paxos_round 0 3 0 1 2 0 0 0 0.

Lemma paxos_played_run evs :
  plays (start (M := PaxosMessage) paxos_args tt) evs = true -> paxos_run paxos_args (paxos_played evs).
Proof.
  unfold plays. intros Hp. eexists. split; [apply paxos_start_init|]. apply played_steps.
  by destruct (play _ _ _ _).
Qed.

Definition px_host_of (st : PaxosSystem) (e : EndPoint) : PaxosProcess :=
  default (MkGenericHostState (MkPaxosHost (CInit (paxos_constants paxos_args 0)) 0 0)
             (MkPaxosConfig [] 0 (paxos_constants paxos_args 0)) e) (gs_hosts st !! e).

Lemma own_values_u64 e : is_u64 (own_values e).
Proof. unfold own_values. repeat case_decide; done. Qed.

(** ** Theorems *)

(** C13: agreement and validity. Let each host start with a value of its own, and
    the network lose, repeat and reorder datagrams, sends fail, and strangers send
    anything. Any two hosts that have decided have decided the same value, and it
    is one of the hosts' own. *)
Theorem paxos_agreement (args : Args) (values : EndPoint -> Z) (st0 st : PaxosSystem) e h e' h' :
  num_servers args <= ISIZE_MAX -> (forall x, is_u64 (values x)) ->
  paxos_start args values st0 -> rtc paxos_step st0 st ->
  gs_hosts st !! e = Some h -> gs_hosts st !! e' = Some h' ->
  phase (px_local h) = Decided -> phase (px_local h') = Decided ->
  decided_val (px_local h) = decided_val (px_local h')
  /\ exists x, x ∈ endpoints args /\ decided_val (px_local h) = values x.
Proof.
  intros Hmax Hv Hi Hs Hh Hh' Hd Hd'. destruct (paxos_run_inv args values Hmax Hv st0 st Hi Hs) as [Hinv _].
  split; [by apply (decided_agree args values st e h e' h')|by apply (decided_valid args values st e h)].
Qed.

Lemma paxos_agreement_witness :
  phase (px_local (px_host_of (paxos_after own_values paxos_script) (node 1))) = Decided
  /\ decided_val (px_local (px_host_of (paxos_after own_values paxos_script) (node 0)))
     = decided_val (px_local (px_host_of (paxos_after own_values paxos_script) (node 1))).
Proof.
  split; [vm_compute; reflexivity|].
  refine (proj1 (paxos_agreement paxos_args own_values (paxos_begin own_values)
    (paxos_after own_values paxos_script)
    (node 0) (px_host_of (paxos_after own_values paxos_script) (node 0))
    (node 1) (px_host_of (paxos_after own_values paxos_script) (node 1)) _ own_values_u64
    (paxos_begin_start own_values) _ _ _ _ _)).
  - vm_compute. discriminate.
  - apply paxos_after_run. vm_compute. reflexivity.
  - vm_compute. reflexivity.
  - vm_compute. reflexivity.
  - vm_compute. reflexivity.
  - vm_compute. reflexivity.
Defined.

(** C14: the hosts implement consensus. The decision that the hosts show, none at
    first, changes only by steps of the abstract specification: from none to one
    of the values proposed, once. *)
Theorem paxos_refines_consensus (args : Args) (values : EndPoint -> Z) (st0 st : PaxosSystem) :
  num_servers args <= ISIZE_MAX -> (forall x, is_u64 (values x)) ->
  paxos_start args values st0 -> rtc paxos_step st0 st ->
  decision st0 = None /\ rtc (consensus_next (proposals args values)) None (decision st)
  /\ forall st', paxos_step st st' ->
       decision st' = decision st \/ consensus_next (proposals args values) (decision st) (decision st').
Proof.
  intros Hmax Hv Hi Hs. assert (decision st0 = None) as H0.
  { destruct (decision st0) as [v|] eqn:Ho; [|done]. apply decision_Some in Ho as (e & h & Hh & Hd & _).
    destruct Hi as [_ Hi]. specialize (Hi e). rewrite Hh in Hi. by destruct Hi as (_ & cfg & _ & ->). }
  split; [done|]. rewrite <- H0.
  destruct (paxos_run_inv args values Hmax Hv st0 st0 Hi (rtc_refl _ _)) as [Hinv _].
  pose proof (start_bytes args values st0 Hi) as Hb. clear H0 Hi.
  induction Hs as [st|st st1 st2 Hst _ IH].
  - split; [done|]. intros st' Hst'. by apply decision_step.
  - pose proof (paxos_step_cases args values Hmax st st1 Hinv (generic_step_cases _ _ _ _ Hb Hst)) as Hc.
    destruct (paxos_inv_step args values st st1 Hinv Hc) as [Hinv1 _].
    destruct (IH Hinv1 (sent_bytes_step _ _ _ _ Hb Hst)) as [Hr Hn]. split; [|done].
    destruct (decision_step args values Hmax st st1 Hinv Hb Hst) as [Heq|Hd]; [by rewrite <- Heq|].
    by eapply rtc_l.
Qed.

Lemma paxos_refines_consensus_witness :
  decision (paxos_after own_values paxos_script) = Some 5
  /\ rtc (consensus_next (proposals paxos_args own_values)) None (decision (paxos_after own_values paxos_script)).
Proof.
  split; [vm_compute; reflexivity|].
  refine (proj1 (proj2 (paxos_refines_consensus paxos_args own_values (paxos_begin own_values)
    (paxos_after own_values paxos_script) _ own_values_u64 (paxos_begin_start own_values) _))).
  - vm_compute. discriminate.
  - apply paxos_after_run. vm_compute. reflexivity.
Defined.

(** Every running host refines the protocol. Its state is reached from LInit by
    steps of LNext, so that the protocol's safety predicates hold of it, and as the
    hosts go on it moves by steps of LNext. *)
Theorem paxos_hosts_refine_protocol (args : Args) (st st' : PaxosSystem) e h :
  num_servers args <= ISIZE_MAX -> paxos_run args st -> rtc paxos_step st st' ->
  gs_hosts st !! e = Some h ->
  let c := paxos_constants args (px_index h) in
  paxos_node_inv c (px_local h)
  /\ (exists s0, LInit s0 c /\ rtc (fun s s' => LNext s s' c) s0 (px_local h))
  /\ exists h', gs_hosts st' !! e = Some h' /\ rtc (fun s s' => LNext s s' c) (px_local h) (px_local h').
Proof.
  intros Hmax (st0 & Hi & Hs) Hs' Hh c. pose proof (run_start args st0 Hi) as Hstart.
  assert (forall x : EndPoint, is_u64 0) as Hv by done.
  destruct (paxos_run_inv args _ Hmax Hv st0 st0 Hstart (rtc_refl _ _)) as [Hinv0 _].
  destruct (paxos_run_inv args _ Hmax Hv st0 st Hstart Hs) as [Hinv _].
  assert (exists h0, gs_hosts st0 !! e = Some h0) as (h0 & Hh0).
  { apply (pi_domain _ _ _ Hinv0), (pi_domain _ _ _ Hinv). by exists h. }
  destruct (paxos_steps_hosts args _ Hmax st0 st e h0 Hinv0 (init_bytes args st0 Hi) Hs Hh0)
    as (h1 & Hh1 & Hi1 & Hr). rewrite Hh in Hh1. injection Hh1 as <-.
  destruct (paxos_steps_hosts args _ Hmax st st' e h Hinv
    (generic_run_bytes _ _ args st (ex_intro _ st0 (conj Hi Hs))) Hs' Hh) as (h2 & Hh2 & _ & Hr2).
  assert (LInit (px_local h0) c) as Hl0.
  { destruct Hstart as [_ Hstart]. specialize (Hstart e). rewrite Hh0 in Hstart.
    by destruct Hstart as (_ & cfg & _ & ->). }
  rewrite <- Hi1 in Hr. split_and!; [|by exists (px_local h0)|by exists h2].
  assert (paxos_node_inv c (px_local h0)) as Hni by (rewrite Hl0; by split_and!).
  clear - Hr Hni. fold c in Hr. induction Hr as [|? ? ? Hn _ IH]; [done|]. by apply IH, (paxos_node_inv_step c _ _ Hni).
Qed.

Lemma paxos_hosts_refine_protocol_witness :
  exists s0, LInit s0 (paxos_constants paxos_args 0)
    /\ rtc (fun s s' => LNext s s' (paxos_constants paxos_args 0)) s0
         (px_local (px_host_of (paxos_played zero_script) (node 0))).
Proof.
  refine (proj1 (proj2 (paxos_hosts_refine_protocol paxos_args (paxos_played zero_script)
    (paxos_played zero_script) (node 0) (px_host_of (paxos_played zero_script) (node 0)) _ _ (rtc_refl _ _) _))).
  - vm_compute. discriminate.
  - apply paxos_played_run. vm_compute. reflexivity.
  - vm_compute. reflexivity.
Defined.

(** C37: what a cluster cannot decide. No host counts its own acceptor, which it
    does not ask; so of two servers neither ever leaves Phase 1, though a
    configuration of two is accepted. And since nothing sets the value to
    propose, a host that decides decides 0. *)
Theorem paxos_cannot_decide (args : Args) (st : PaxosSystem) e h :
  num_servers args <= ISIZE_MAX -> paxos_run args st -> gs_hosts st !! e = Some h ->
  px_index h ∉ promises_rcvd (px_local h) ∪ accepts_rcvd (px_local h)
  /\ (num_servers args = 2 -> phase (px_local h) = Idle \/ phase (px_local h) = Phase1)
  /\ (phase (px_local h) = Decided -> decided_val (px_local h) = 0).
Proof.
  intros Hmax (st0 & Hi & Hs) Hh. pose proof (run_start args st0 Hi) as Hstart.
  assert (forall x : EndPoint, is_u64 0) as Hv by done.
  destruct (paxos_run_inv args _ Hmax Hv st0 st Hstart Hs) as [Hinv Hpeer].
  pose proof (not_counted_itself args _ st e h Hinv Hpeer Hh) as Hself.
  split_and!; [exact Hself| |].
  - intros Htwo. destruct (phase (px_local h)) eqn:Hp; [by left|by right|exfalso..].
    all: pose proof (hi_proposer _ _ _ _ _ (pi_host _ _ _ Hinv e h Hh)) as Hpr;
      assert (proposing (phase (px_local h))) as Hpp by (rewrite Hp; by (left + right));
      destruct (pr_quorum _ _ _ _ _ _ Hpr Hpp) as [Hq _];
      destruct (host_config args _ st e h Hinv Hh) as (_ & _ & _ & Hidx & _).
    all: assert (promises_rcvd (px_local h) ⊆ {[1 - px_index h]}) as Hsub;
      [intros k Hk; apply elem_of_singleton;
       destruct (pr_promises _ _ _ _ _ _ Hpr (proposing_not_idle _ Hpp) k Hk) as [Hr _];
       assert (k <> px_index h) by (intros ->; apply Hself; by apply elem_of_union_l); lia|].
    all: apply subseteq_size in Hsub; rewrite size_singleton in Hsub; unfold set_len in Hq;
      rewrite Htwo in Hq; change (2 / 2) with 1 in Hq; lia.
  - intros Hd. by destruct (decided_valid args _ st e h Hinv Hh Hd) as (x & _ & ->).
Qed.

Lemma paxos_cannot_decide_witness :
  decided_val (px_local (px_host_of (paxos_played zero_script) (node 0))) = 0.
Proof.
  refine (proj2 (proj2 (paxos_cannot_decide paxos_args (paxos_played zero_script) (node 0)
    (px_host_of (paxos_played zero_script) (node 0)) _ _ _)) _).
  - vm_compute. discriminate.
  - apply paxos_played_run. vm_compute. reflexivity.
  - vm_compute. reflexivity.
  - vm_compute. reflexivity.
Defined.
