(* ===== verification/Lock.v ===== *)
(** * The lock service: protocol and abstract service

    protocol/lock/{types,node,distributed_system_procotol_i}.rs: one lock is passed
    around a ring of nodes, a Transfer message at a time, under a growing epoch;
    services/lock/abstractservice_s.rs: the history of lock holders that this
    implements.  The system with the history attached is a state machine of its
    own, [gls_next]; [lock_inv] is its invariant. *)

From stdpp Require Import prelude gmap sets list numbers fin_sets.
From Stdlib Require Import ZArith Lia.
From S2P Require Import Prelude.
From S2P Require Import Types.
From S2P Require Import Environment.

#[local] Open Scope Z_scope.

(** ** Messages (types.rs) *)

Inductive LockMessage :=
  | Transfer (transfer_epoch : Z)
  | Locked (locked_epoch : Z)
  | Invalid.

#[export] Instance LockMessage_eq_dec : EqDecision LockMessage.
Proof. solve_decision. Defined.
#[export] Instance LockMessage_countable : Countable LockMessage.
Proof.
  apply (inj_countable'
    (fun m => match m with Transfer e => inl (inl e) | Locked e => inl (inr e) | Invalid => inr tt end)
    (fun x => match x with inl (inl e) => Transfer e | inl (inr e) => Locked e | inr tt => Invalid end)).
  by intros [].
Defined.

Abbreviation LockEnvironment := (LEnvironment AbstractEndPoint LockMessage).
Abbreviation LockPacket := (LPacket AbstractEndPoint LockMessage).
Abbreviation LockIo := (LIoOp AbstractEndPoint LockMessage).

(** ** Nodes (node.rs) *)

Abbreviation AbstractConfig := (list AbstractEndPoint) (only parsing).

Record AbstractNode := MkNode
  { held : bool; epoch : Z; my_index : Z; node_config : list AbstractEndPoint }.

#[export] Instance AbstractNode_eq_dec : EqDecision AbstractNode.
Proof. solve_decision. Defined.

(** [0xFFFF_FFFF_FFFF_FFFF]. *)
Definition EPOCH_MAX : Z := U64_MODULUS - 1.

Section node.
Implicit Types (s : AbstractNode) (ios : list LockIo) (cfg : list AbstractEndPoint).

Definition NodeInit s (index : Z) cfg : Prop :=
  epoch s = (if decide (index = 0) then 1 else 0)
  /\ 0 <= index < seq_len cfg
  /\ my_index s = index
  /\ held s = bool_decide (index = 0)
  /\ node_config s = cfg.

(** The next node of the ring. *)
Definition next_node s : AbstractEndPoint :=
  seq_index (node_config s) ((my_index s + 1) mod seq_len (node_config s)).

Definition NodeGrant s s_ ios : Prop :=
  my_index s = my_index s_
  /\ if decide (held s = true /\ epoch s < EPOCH_MAX) then
       held s_ = false
       /\ seq_len (node_config s) > 0
       /\ node_config s_ = node_config s
       /\ epoch s_ = epoch s
       /\ exists p, ios = [Send p] /\ msg p = Transfer (epoch s + 1) /\ dst p = next_node s
     else s = s_ /\ ios = [].

(** The accepting case of [NodeAccept], for a Transfer of epoch [e]; [rest] is
    what follows the receive. *)
Definition node_accepts s s_ (e : Z) (rest : list LockIo) : Prop :=
  held s_ = true
  /\ epoch s_ = e
  /\ node_config s_ = node_config s
  /\ exists p, rest = [Send p] /\ msg p = Locked e.

Definition NodeAccept s s_ ios : Prop :=
  my_index s = my_index s_
  /\ match ios with
     | TimeoutReceive :: rest => s = s_ /\ rest = []
     | Receive r :: rest =>
         match msg r with
         | Transfer e =>
             if decide (held s = false /\ src r ∈ node_config s /\ e > epoch s)
             then node_accepts s s_ e rest
             else s = s_ /\ rest = []
         | _ => s = s_ /\ rest = []
         end
         \/ s = s_ /\ rest = []
     | ReadClock _ :: rest => s = s_ /\ rest = []
     | _ => False
     end.

Definition NodeNext s s_ ios : Prop := NodeGrant s s_ ios \/ NodeAccept s s_ ios.
End node.

(** ** The system (distributed_system_procotol_i.rs) *)

Definition seq_is_unique (l : list AbstractEndPoint) : Prop :=
  forall i j x, seq_get l i = Some x -> seq_get l j = Some x -> i = j.

Record AbstractLSState := MkLSState
  { ls_environment : LockEnvironment; ls_servers : gmap AbstractEndPoint AbstractNode }.

Section ls.
Implicit Types (s : AbstractLSState) (id : AbstractEndPoint) (cfg : list AbstractEndPoint).

Definition ls_init s cfg : Prop :=
  LEnvironment_Init (ls_environment s)
  /\ seq_len cfg > 0
  /\ seq_is_unique cfg
  /\ (forall e, e ∈ cfg <-> is_Some (ls_servers s !! e))
  /\ forall i e, seq_get cfg i = Some e -> exists n, ls_servers s !! e = Some n /\ NodeInit n i cfg.

Definition ls_next_one_server s s_ id (ios : list LockIo) : Prop :=
  exists n n_, ls_servers s !! id = Some n
    /\ ls_servers s_ !! id = Some n_
    /\ NodeNext n n_ ios
    /\ ls_servers s_ = <[id := n_]> (ls_servers s)
    /\ node_config n_ = node_config n.

Definition node_acquires_lock (e : AbstractEndPoint) s s_ : Prop :=
  exists n n_, ls_servers s !! e = Some n /\ ls_servers s_ !! e = Some n_
    /\ held n = false /\ held n_ = true.

Definition ls_next s s_ : Prop :=
  LEnvironment_Next (ls_environment s) (ls_environment s_)
  /\ match nextStep (ls_environment s) with
     | LEnvStepHostIos actor ios =>
         if decide (is_Some (ls_servers s !! actor)) then ls_next_one_server s s_ actor ios
         else ls_servers s_ = ls_servers s
     | _ => ls_servers s_ = ls_servers s
     end.
End ls.

Record AbstractGLSState := MkGLSState
  { gls_ls : AbstractLSState; gls_history : list AbstractEndPoint }.

Definition gls_init (s : AbstractGLSState) (cfg : list AbstractEndPoint) : Prop :=
  ls_init (gls_ls s) cfg /\ gls_history s = [seq_index cfg 0].

(** The step is a grant of the lock by a server, in state [n]. *)
Definition grants (s s_ : AbstractGLSState) (n : AbstractNode) : Prop :=
  exists actor ios n_, nextStep (ls_environment (gls_ls s)) = LEnvStepHostIos actor ios
    /\ ls_servers (gls_ls s) !! actor = Some n
    /\ ls_servers (gls_ls s_) !! actor = Some n_
    /\ NodeGrant n n_ ios
    /\ held n = true /\ epoch n < EPOCH_MAX.

Definition gls_next (s s_ : AbstractGLSState) : Prop :=
  ls_next (gls_ls s) (gls_ls s_)
  /\ ((exists n, grants s s_ n /\ gls_history s_ = gls_history s ++ [next_node n])
      \/ (~ exists n, grants s s_ n) /\ gls_history s_ = gls_history s).

(** ** The abstract service (abstractservice_s.rs) *)

Record AbstractLockServiceState := MkLockServiceState
  { hosts : gset AbstractEndPoint; history : list AbstractEndPoint }.

Definition service_init (s : AbstractLockServiceState) (server_addresses : gset AbstractEndPoint) : Prop :=
  hosts s = server_addresses /\ exists e, e ∈ server_addresses /\ history s = [e].

Definition service_next (s s_ : AbstractLockServiceState) : Prop :=
  hosts s_ = hosts s
  /\ exists new_lock_holder, new_lock_holder ∈ hosts s /\ history s_ = history s ++ [new_lock_holder].

(** refinement_proof_i.rs *)
Definition abstractify_gls_state (gls : AbstractGLSState) : AbstractLockServiceState :=
  {| hosts := dom (ls_servers (gls_ls gls)); history := gls_history gls |}.

(** ** The invariant *)

Section invariant.
Context (cfg : list AbstractEndPoint).
Implicit Types (s : AbstractGLSState) (e : AbstractEndPoint) (n : AbstractNode) (p : LockPacket).

(** Who held the lock at each epoch is what the history says: the granted and the
    announced epochs are in it, and only its last entry may hold the lock now. *)
Record lock_inv s : Prop := MkLockInv
  { li_unique : seq_is_unique cfg;
    li_domain : forall e, e ∈ cfg <-> is_Some (ls_servers (gls_ls s) !! e);
    li_node : forall e n, ls_servers (gls_ls s) !! e = Some n ->
      node_config n = cfg /\ seq_get cfg (my_index n) = Some e;
    li_transfer : forall p k, p ∈ sentPackets (ls_environment (gls_ls s)) -> src p ∈ cfg ->
      msg p = Transfer k -> 2 <= k /\ seq_get (gls_history s) (k - 1) = Some (dst p);
    li_locked : forall p k, p ∈ sentPackets (ls_environment (gls_ls s)) -> src p ∈ cfg ->
      msg p = Locked k -> 1 <= k /\ seq_get (gls_history s) (k - 1) = Some (src p);
    li_past : forall e n j, ls_servers (gls_ls s) !! e = Some n ->
      seq_get (gls_history s) j = Some e -> j < seq_len (gls_history s) - 1 -> j + 1 <= epoch n;
    li_held : forall e n, ls_servers (gls_ls s) !! e = Some n -> held n = true ->
      last (gls_history s) = Some e /\ epoch n = seq_len (gls_history s);
    li_member : forall e, e ∈ gls_history s -> e ∈ cfg }.

(** *** What a step does *)

Inductive lock_case s s' : Prop :=
  | lock_quiet :
      ls_servers (gls_ls s') = ls_servers (gls_ls s) -> gls_history s' = gls_history s ->
      (forall p, p ∈ sentPackets (ls_environment (gls_ls s')) -> src p ∈ cfg ->
         p ∈ sentPackets (ls_environment (gls_ls s))) ->
      lock_case s s'
  | lock_grant e n n' p0 :
      ls_servers (gls_ls s) !! e = Some n -> held n = true ->
      ls_servers (gls_ls s') = <[e := n']> (ls_servers (gls_ls s)) ->
      held n' = false -> epoch n' = epoch n -> my_index n' = my_index n -> node_config n' = node_config n ->
      gls_history s' = gls_history s ++ [next_node n] ->
      src p0 = e -> msg p0 = Transfer (epoch n + 1) -> dst p0 = next_node n ->
      (forall p, p ∈ sentPackets (ls_environment (gls_ls s')) ->
         p ∈ sentPackets (ls_environment (gls_ls s)) \/ p = p0) ->
      lock_case s s'
  | lock_accept e n n' r p0 k :
      ls_servers (gls_ls s) !! e = Some n ->
      ls_servers (gls_ls s') = <[e := n']> (ls_servers (gls_ls s)) ->
      held n' = true -> epoch n' = k -> k > epoch n -> my_index n' = my_index n ->
      node_config n' = node_config n ->
      gls_history s' = gls_history s ->
      r ∈ sentPackets (ls_environment (gls_ls s)) -> src r ∈ cfg -> dst r = e -> msg r = Transfer k ->
      src p0 = e -> msg p0 = Locked k ->
      (forall p, p ∈ sentPackets (ls_environment (gls_ls s')) ->
         p ∈ sentPackets (ls_environment (gls_ls s)) \/ p = p0) ->
      lock_case s s'.

Lemma NodeGrant_held n n_ ios :
  NodeGrant n n_ ios -> held n = true -> epoch n < EPOCH_MAX -> exists p, ios = [Send p].
Proof.
  intros [_ H] Hh He. rewrite decide_True in H by done. destruct H as (_ & _ & _ & _ & p & -> & _).
  by exists p.
Qed.

(** Granting and accepting exclude each other. *)
Lemma NodeAccept_no_grant n n_ ios :
  NodeAccept n n_ ios -> NodeGrant n n_ ios -> held n = true -> epoch n < EPOCH_MAX -> False.
Proof. intros [_ Ha] Hg Hh He. by destruct (NodeGrant_held _ _ _ Hg Hh He) as (p & ->). Qed.

(** The packets after a host's operations. *)
Lemma perform_sent (e e_ : LockEnvironment) actor ios p :
  LEnvironment_PerformIos e e_ actor ios -> p ∈ sentPackets e_ -> p ∈ sentPackets e \/ Send p ∈ ios.
Proof. intros Hp. by rewrite (LEnvironment_PerformIos_sent _ _ _ _ _ Hp). Qed.

Lemma gls_next_case s s' : lock_inv s -> gls_next s s' -> lock_case s s'.
Proof.
  intros Hinv [[Henv Hsrv] Hhist].
  pose proof Henv as [Hvalid Hio]. destruct (nextStep (ls_environment (gls_ls s))) as [actor ios|p| |] eqn:Hns.
  2-4: (apply lock_quiet; [done| |]).
  all: try (destruct Hhist as [(n & (? & ? & ? & Hns' & _) & _)|[_ ?]]; [congruence|done]).
  all: try (destruct Hio as [_ Hio]; rewrite Hio; done).
  destruct Hvalid as [Hvalid _].
  assert (forall n, grants s s' n -> exists n', ls_servers (gls_ls s) !! actor = Some n
    /\ ls_servers (gls_ls s') !! actor = Some n' /\ NodeGrant n n' ios /\ held n = true /\ epoch n < EPOCH_MAX)
    as Hgr.
  { intros n (a' & ios' & n' & Hns' & Hn & Hn' & Hg & Hh & He).
    rewrite Hns in Hns'. injection Hns' as <- <-. by exists n'. }
  case_decide as Ha.
  2: { apply lock_quiet; [done| |].
    - destruct Hhist as [(n & Hg & _)|[_ ?]]; [|done]. destruct (Hgr n Hg) as (? & Hn & _). destruct Ha. by exists n.
    - intros p Hp Hsrc. destruct (perform_sent _ _ _ _ _ Hio Hp) as [?|Hs]; [done|].
      specialize (Hvalid _ Hs). cbn in Hvalid. subst actor. destruct Ha. by apply (li_domain _ Hinv). }
  destruct Hsrv as (n & n' & Hn & Hn' & Hnext & Hupd & Hc).
  assert (n = n' -> omap io_sent ios = [] -> gls_history s' = gls_history s -> lock_case s s') as Hstay.
  { intros <- Hnone Hh. apply lock_quiet; [by rewrite Hupd, insert_id|done|].
    intros p Hp _. destruct (perform_sent _ _ _ _ _ Hio Hp) as [?|Hs]; [done|].
    apply io_sent_elem in Hs. rewrite Hnone in Hs. by apply not_elem_of_nil in Hs. }
  destruct Hhist as [(n0 & Hg & Hh)|[Hno Hh]].
  - destruct (Hgr n0 Hg) as (n1 & Hn0 & Hn1 & [Hi Hg'] & Hheld & He).
    rewrite Hn in Hn0. injection Hn0 as <-. rewrite Hn' in Hn1. injection Hn1 as <-.
    rewrite decide_True in Hg' by done. destruct Hg' as (Hh' & _ & _ & He' & p & -> & Hm & Hd).
    apply (lock_grant s s' actor n n' p); try done.
    + apply (Hvalid (Send p)). by left.
    + intros q Hq. destruct (perform_sent _ _ _ _ _ Hio Hq) as [?|Hs]; [by left|right].
      apply list_elem_of_singleton in Hs. congruence.
  - destruct Hnext as [[Hi Hg]|[Hi Hacc]].
    { case_decide as Hd; [|destruct Hg as [? ->]; by apply Hstay].
      destruct Hno. exists n, actor, ios, n'. destruct Hd. split_and!; try done. split; [done|]. by rewrite decide_True. }
    destruct ios as [|[p|r| |t] rest]; try done; [|by destruct Hacc as [? ->]; apply Hstay..].
    assert (n = n' /\ rest = [] -> lock_case s s') as Hstay' by (intros [? ->]; by apply Hstay).
    destruct Hacc as [Hacc|Hacc]; [|by apply Hstay']. destruct (msg r) as [k|k|] eqn:Hm; try by apply Hstay'.
    case_decide as Hd; [|by apply Hstay']. destruct Hd as (Hheld & Hsrc & Hk).
    destruct Hacc as (Hh' & He' & Hc' & p & -> & Hp).
    destruct (li_node _ Hinv actor n Hn) as [Hcfg _]. rewrite Hcfg in Hsrc.
    apply (lock_accept s s' actor n n' r p k); try done.
    + destruct Hio as (_ & Hr & _). apply (Hr (Receive r)). by left.
    + apply (Hvalid (Receive r)). by left.
    + apply (Hvalid (Send p)). right. by left.
    + intros q Hq. destruct (perform_sent _ _ _ _ _ Hio Hq) as [?|Hs]; [by left|right].
      apply elem_of_cons in Hs as [?|Hs]; [done|]. apply list_elem_of_singleton in Hs. congruence.
Qed.

(** *** It is an invariant *)

Lemma lock_inv_init s : gls_init s cfg -> lock_inv s.
Proof.
  intros [([Hsize _] & Hlen & Hu & Hdom & Hinit) Hhist].
  assert (sentPackets (ls_environment (gls_ls s)) = ∅) as Hs
    by (apply leibniz_equiv; by apply size_empty_iff).
  assert (seq_get cfg 0 = Some (seq_index cfg 0)) as H0 by (apply seq_get_index; lia).
  assert (forall e n, ls_servers (gls_ls s) !! e = Some n -> exists i, seq_get cfg i = Some e /\ NodeInit n i cfg) as Hn.
  { intros e n Hen. assert (e ∈ cfg) as Hin by (apply Hdom; by exists n).
    apply elem_of_seq_get in Hin as (i & Hi). destruct (Hinit i e Hi) as (n0 & Hn0 & Hi0).
    exists i. split; [done|]. congruence. }
  split; rewrite ?Hs, ?Hhist.
  - done.
  - done.
  - intros e n (i & Hi & (_ & _ & Hm & _ & Hc))%Hn. by rewrite Hm.
  - by intros p k ?%elem_of_empty.
  - by intros p k ?%elem_of_empty.
  - intros e n j _ Hj Hlt. apply seq_get_Some_range in Hj. change (seq_len [_]) with 1 in *. lia.
  - intros e n (i & Hi & (He & _ & _ & Hh & _))%Hn Hheld. rewrite Hheld in Hh.
    symmetry in Hh. apply bool_decide_eq_true in Hh. subst i. rewrite H0 in Hi. injection Hi as <-.
    rewrite decide_True in He by done. by split.
  - intros e ->%list_elem_of_singleton. by apply (seq_get_elem_of _ 0).
Qed.

Lemma seq_get_last_elem (l : list AbstractEndPoint) e : last l = Some e -> seq_get l (seq_len l - 1) = Some e.
Proof.
  rewrite last_lookup. intros H. rewrite <- H. unfold seq_get, seq_len. destruct l as [|x l]; [done|].
  rewrite decide_True by (cbn; lia). f_equal. cbn. lia.
Qed.

Lemma seq_get_snoc (l : list AbstractEndPoint) x i e :
  seq_get (l ++ [x]) i = Some e <-> seq_get l i = Some e \/ i = seq_len l /\ x = e.
Proof.
  unfold seq_get, seq_len. case_decide as Hi; [|split; [done|intros [?|[? _]]; [done|lia]]].
  rewrite lookup_app_Some. split.
  - intros [?|[Hl Hx]]; [by left|right]. apply list_lookup_singleton_Some in Hx as [? ?]. split; [lia|done].
  - intros [?|[-> ->]]; [by left|right]. split; [lia|]. apply list_lookup_singleton_Some. split; [lia|done].
Qed.

Lemma next_node_member s e n : lock_inv s -> ls_servers (gls_ls s) !! e = Some n -> next_node n ∈ cfg.
Proof.
  intros Hinv Hn. destruct (li_node _ Hinv e n Hn) as [Hc Hi]. unfold next_node. rewrite Hc.
  apply seq_get_Some_range in Hi. apply seq_index_elem_of. apply Z.mod_pos_bound. lia.
Qed.

Lemma lock_inv_grant s s' e n n' p0 :
  lock_inv s -> ls_servers (gls_ls s) !! e = Some n -> held n = true ->
  ls_servers (gls_ls s') = <[e := n']> (ls_servers (gls_ls s)) ->
  held n' = false -> epoch n' = epoch n -> my_index n' = my_index n -> node_config n' = node_config n ->
  gls_history s' = gls_history s ++ [next_node n] ->
  src p0 = e -> msg p0 = Transfer (epoch n + 1) -> dst p0 = next_node n ->
  (forall p, p ∈ sentPackets (ls_environment (gls_ls s')) ->
     p ∈ sentPackets (ls_environment (gls_ls s)) \/ p = p0) ->
  lock_inv s'.
Proof.
  intros Hinv Hn Hh Hs' Hh' He' Hi' Hc' Hist Hsrc Hm Hd Hsent.
  destruct (li_held _ Hinv e n Hn Hh) as [Hlast Hep]. pose proof (seq_get_last_elem _ _ Hlast) as Hgl.
  pose proof (seq_get_Some_range _ _ _ Hgl) as Hrange.
  assert (forall x m, ls_servers (gls_ls s') !! x = Some m -> exists m0, ls_servers (gls_ls s) !! x = Some m0
    /\ node_config m = node_config m0 /\ my_index m = my_index m0 /\ epoch m = epoch m0
    /\ (held m = true -> x <> e /\ m = m0)) as Hback.
  { intros x m. rewrite Hs'. intros [[<- <-]|[Hne Hm']]%lookup_insert_Some; [exists n|exists m];
      (split_and!; [done || congruence..|intros ?; split; congruence]). }
  split; rewrite ?Hist.
  - exact (li_unique _ Hinv).
  - intros x. rewrite (li_domain _ Hinv x), Hs'. destruct (decide (x = e)) as [->|Hne].
    + rewrite lookup_insert_eq, Hn. by split.
    + by rewrite lookup_insert_ne.
  - intros x m (m0 & Hm0 & -> & -> & _)%Hback. by apply (li_node _ Hinv).
  - intros p k [Hp| ->]%Hsent Hpsrc Hk; [destruct (li_transfer _ Hinv p k Hp Hpsrc Hk)|].
    + split; [done|]. apply seq_get_snoc. by left.
    + rewrite Hm in Hk. injection Hk as <-. split; [lia|]. apply seq_get_snoc. right. split; [lia|done].
  - intros p k [Hp| ->]%Hsent Hpsrc Hk; [|by rewrite Hm in Hk].
    destruct (li_locked _ Hinv p k Hp Hpsrc Hk). split; [done|]. apply seq_get_snoc. by left.
  - intros x m j (m0 & Hm0 & _ & _ & -> & _)%Hback Hj Hlt. rewrite seq_len_app in Hlt.
    change (seq_len [_]) with 1 in Hlt. apply seq_get_snoc in Hj as [Hj|[? _]]; [|lia].
    destruct (decide (j = seq_len (gls_history s) - 1)) as [->|Hne].
    + rewrite Hgl in Hj. injection Hj as <-. rewrite Hn in Hm0. injection Hm0 as <-. lia.
    + apply (li_past _ Hinv x m0 j Hm0 Hj). lia.
  - intros x m (m0 & Hm0 & _ & _ & _ & Hheld)%Hback Hm'. destruct (Hheld Hm') as [Hne ->].
    destruct (li_held _ Hinv x m0 Hm0 Hm') as [Hl _]. congruence.
  - intros x [Hx|Hx]%elem_of_app; [by apply (li_member _ Hinv)|].
    apply list_elem_of_singleton in Hx as ->. exact (next_node_member s e n Hinv Hn).
Qed.

Lemma lock_inv_accept s s' e n n' r p0 k :
  lock_inv s -> ls_servers (gls_ls s) !! e = Some n ->
  ls_servers (gls_ls s') = <[e := n']> (ls_servers (gls_ls s)) ->
  held n' = true -> epoch n' = k -> k > epoch n -> my_index n' = my_index n ->
  node_config n' = node_config n -> gls_history s' = gls_history s ->
  r ∈ sentPackets (ls_environment (gls_ls s)) -> src r ∈ cfg -> dst r = e -> msg r = Transfer k ->
  src p0 = e -> msg p0 = Locked k ->
  (forall p, p ∈ sentPackets (ls_environment (gls_ls s')) ->
     p ∈ sentPackets (ls_environment (gls_ls s)) \/ p = p0) ->
  lock_inv s'.
Proof.
  intros Hinv Hn Hs' Hh' He' Hk Hi' Hc' Hist Hr Hrsrc Hrdst Hrm Hsrc Hm Hsent.
  destruct (li_transfer _ Hinv r k Hr Hrsrc Hrm) as [Hk2 Hgr]. rewrite Hrdst in Hgr.
  pose proof (seq_get_Some_range _ _ _ Hgr) as Hrange.
  assert (k = seq_len (gls_history s)) as Hkl.
  { assert (~ k - 1 < seq_len (gls_history s) - 1) as Hnl; [|lia].
    intros Hlt. pose proof (li_past _ Hinv e n (k - 1) Hn Hgr Hlt). lia. }
  assert (last (gls_history s) = Some e) as Hlast.
  { rewrite last_lookup. rewrite Hkl in Hgr. unfold seq_get, seq_len in Hgr, Hrange.
    rewrite decide_True in Hgr by lia. rewrite <- Hgr. f_equal. lia. }
  split; rewrite ?Hist.
  - exact (li_unique _ Hinv).
  - intros x. rewrite (li_domain _ Hinv x), Hs'. destruct (decide (x = e)) as [->|Hne].
    + rewrite lookup_insert_eq, Hn. by split.
    + by rewrite lookup_insert_ne.
  - intros x m. rewrite Hs'. intros [[<- <-]|[_ Hm']]%lookup_insert_Some; [|by apply (li_node _ Hinv)].
    rewrite Hi', Hc'. exact (li_node _ Hinv e n Hn).
  - intros p k' [Hp| ->]%Hsent Hpsrc Hpk; [by apply (li_transfer _ Hinv)|by rewrite Hm in Hpk].
  - intros p k' [Hp| ->]%Hsent Hpsrc Hpk; [by apply (li_locked _ Hinv)|].
    rewrite Hm in Hpk. injection Hpk as <-. rewrite Hsrc. split; [lia|done].
  - intros x m j. rewrite Hs'. intros [[<- <-]|[_ Hm']]%lookup_insert_Some Hj Hlt; [|by apply (li_past _ Hinv x)].
    pose proof (li_past _ Hinv e n j Hn Hj Hlt). lia.
  - intros x m. rewrite Hs'. intros [[<- <-]|[Hne Hm']]%lookup_insert_Some Hheld; [by rewrite He'|].
    destruct (li_held _ Hinv x m Hm' Hheld). congruence.
  - exact (li_member _ Hinv).
Qed.

Lemma lock_inv_step s s' : lock_inv s -> gls_next s s' -> lock_inv s'.
Proof.
  intros Hinv Hnext. destruct (gls_next_case s s' Hinv Hnext) as [Hs Hh Hp|e n n' p0|e n n' r p0 k].
  - destruct Hinv as [H1 H2 H3 H4 H5 H6 H7 H8]. split; rewrite ?Hs, ?Hh; try done.
    + intros p k Hin Hsrc. by apply H4; [apply Hp|].
    + intros p k Hin Hsrc. by apply H5; [apply Hp|].
  - by apply (lock_inv_grant s s' e n n' p0).
  - by apply (lock_inv_accept s s' e n n' r p0 k).
Qed.

(** A step of the system is a step of the service, or none. *)
Lemma gls_next_service s s' :
  lock_inv s -> gls_next s s' ->
  abstractify_gls_state s' = abstractify_gls_state s
  \/ service_next (abstractify_gls_state s) (abstractify_gls_state s').
Proof.
  intros Hinv Hnext. unfold abstractify_gls_state, service_next.
  destruct (gls_next_case s s' Hinv Hnext) as [Hs Hh _|e n n' p0 Hn Hh Hs' _ _ _ _ Hist _ _ _ _|
    e n n' r p0 k Hn Hs' _ _ _ _ _ Hist _ _ _ _ _ _ _].
  - left. by rewrite Hs, Hh.
  - right. cbn. rewrite Hs', dom_insert_lookup_L by (by exists n). split; [done|].
    exists (next_node n). split; [|done]. apply elem_of_dom, (li_domain _ Hinv). by apply (next_node_member s e).
  - left. rewrite Hs', Hist, dom_insert_lookup_L by (by exists n). done.
Qed.

(** Every system state is one with a history: grants are decided by the step. *)
Lemma ls_next_gls s ls' :
  ls_next (gls_ls s) ls' -> exists h', gls_next s (MkGLSState ls' h').
Proof.
  intros Hnext. pose proof Hnext as [_ Hsrv].
  destruct (nextStep (ls_environment (gls_ls s))) as [actor ios|p| |] eqn:Hns.
  2-4: (exists (gls_history s); split; [done|right]; split; [|done];
        intros (n & (? & ? & ? & Hns' & _)); congruence).
  destruct (ls_servers (gls_ls s) !! actor) as [n|] eqn:Hn.
  2: { exists (gls_history s). split; [done|right]. split; [|done].
       intros (n & (? & ? & ? & Hns' & Hn' & _)). rewrite Hns in Hns'. injection Hns' as <- <-. congruence. }
  rewrite decide_True in Hsrv by done. destruct Hsrv as (n0 & n' & Hn0 & Hn' & Hstep & _).
  rewrite Hn in Hn0. injection Hn0 as <-.
  assert (forall n1, grants s (MkGLSState ls' (gls_history s)) n1 -> n1 = n /\ NodeGrant n n' ios
    /\ held n = true /\ epoch n < EPOCH_MAX) as Hgr.
  { intros n1 (a & i & n2 & Hns' & Hn1 & Hn2 & Hg & Hh & He). cbn in Hn2. rewrite Hns in Hns'.
    injection Hns' as <- <-. rewrite Hn in Hn1. injection Hn1 as <-. rewrite Hn' in Hn2. by injection Hn2 as <-. }
  destruct Hstep as [Hg|Ha].
  - destruct (decide (held n = true /\ epoch n < EPOCH_MAX)) as [[Hh He]|Hno].
    + exists (gls_history s ++ [next_node n]). split; [done|left]. exists n. split; [|done].
      by exists actor, ios, n'.
    + exists (gls_history s). split; [done|right]. split; [|done].
      intros (n1 & Hg1). destruct (Hgr n1 Hg1) as (_ & _ & ? & ?). by destruct Hno.
  - exists (gls_history s). split; [done|right]. split; [|done].
    intros (n1 & Hg1). destruct (Hgr n1 Hg1) as (_ & Hg & ? & ?). by apply (NodeAccept_no_grant n n' ios).
Qed.
End invariant.
