(* ===== verification/LockImpl.v ===== *)
(** * The lock service: the running node

    implementation/lock/{message_i,netlock_i,node_i,nodeimpl_i,host_i,
    cmd_line_parser_i}.rs and common/collections/seq_is_unique_v.rs: messages and
    their bytes, receiving and sending, the node's two actions, one iteration of
    the event loop, and the command line.  The executable message and node types
    are the protocol's at machine width.  [lock_demarshal_data], which the source
    defines by a choice among the messages with the given bytes, is the parser's
    message, and [Invalid] where there is none. *)

From stdpp Require Import prelude gmap sets list numbers fin_sets.
From Stdlib Require Import ZArith Lia.
From S2P Require Import Prelude.
From S2P Require Import Types.
From S2P Require Import Environment.
From S2P Require Import Marshalling.
From S2P Require Import MarshallingLaws.
From S2P Require Import GenericHost.
From S2P Require Import Lock.

#[local] Open Scope Z_scope.

(** ** message_i.rs *)

Abbreviation CMessage := LockMessage (only parsing).
Abbreviation CLockPacket := LockPacket (only parsing).
Abbreviation Node := AbstractNode (only parsing).

Definition CTransfer_arm : Arm LockMessage :=
  MkArm (Z * unit) 0 (FCons u64_m FNil) (fun '(transfer_epoch, tt) => Transfer transfer_epoch).
Definition CLocked_arm : Arm LockMessage :=
  MkArm (Z * unit) 1 (FCons u64_m FNil) (fun '(locked_epoch, tt) => Locked locked_epoch).
Definition CInvalid_arm : Arm LockMessage := MkArm unit 2 FNil (fun _ => Invalid).

Definition lock_arms : list (Arm LockMessage) := [CTransfer_arm; CLocked_arm; CInvalid_arm].

Definition lock_variant (m : LockMessage) : Variant LockMessage :=
  match m with
  | Transfer transfer_epoch => MkVariant CTransfer_arm (transfer_epoch, tt)
  | Locked locked_epoch => MkVariant CLocked_arm (locked_epoch, tt)
  | Invalid => MkVariant CInvalid_arm tt
  end.

Definition lock_m : Marshalable LockMessage := derive_marshalable_for_enum lock_arms lock_variant.

Lemma lock_enum : EnumOk lock_arms lock_variant.
Proof. enum_law. Qed.
#[export] Instance lock_ok : MarshalOk lock_m.
Proof. apply derive_enum_ok, lock_enum. Qed.
#[export] Instance lock_exact : MarshalExact lock_m.
Proof.
  apply derive_enum_exact; [apply lock_enum|]. intros a.
  simpl In. repeat (intros [<-|H]; [fields_law|revert H]). intros [].
Qed.

(** [CMessage::marshallable]. *)
Definition is_marshallable (m : LockMessage) : bool :=
  match m with Transfer _ | Locked _ => true | Invalid => false end.

(** ** netlock_i.rs *)

Definition lock_demarshall_data_method (buffer : list Z) : Outcome LockMessage :=
  match deserialize lock_m buffer 0 with
  | Failed => Done Invalid
  | Done (cmessage, count) => if decide (count <> seq_len buffer) then Done Invalid else Done cmessage
  | Panicked => Panicked
  | OutOfFuel => OutOfFuel
  end.

Definition lock_demarshal_data (data : list Z) : LockMessage :=
  match lock_demarshall_data_method data with Done m => m | _ => Invalid end.

Inductive LockReceiveResult :=
  | LockReceiveFail
  | LockReceiveTimeout
  | LockReceivePacket (cpacket : LockPacket).

Definition lock_receive (netr : NetcReceiveResult) (local_addr : EndPoint) : Outcome LockReceiveResult :=
  match netr with
  | NetcError => Done LockReceiveFail
  | NetcTimedOut => Done LockReceiveTimeout
  | NetcReceived sender message =>
      '(cmessage) <-? lock_demarshall_data_method message;
      Done (LockReceivePacket (MkLPacket local_addr sender cmessage))
  end.

(** A datagram sent or received, or a clock reading. *)
Abbreviation NetEvent := (LIoOp AbstractEndPoint (list Z)).

(** The result, and what was sent; [sent] says whether the network takes it. *)
Definition lock_send (sent : bool) (opt_packet : option LockPacket) (local_addr : EndPoint)
  : bool * list NetEvent :=
  match opt_packet with
  | None => (true, [])
  | Some packet =>
      if sent then (true, [Send (MkLPacket (dst packet) local_addr (serialize lock_m (msg packet) []))])
      else (false, [])
  end.

Definition abstractify_net_packet_to_lock_packet (net : NetPacket) : LockPacket :=
  MkLPacket (dst net) (src net) (lock_demarshal_data (msg net)).

Definition abstractify_net_event_to_lock_io (evt : NetEvent) : LockIo :=
  match evt with
  | Send s => Send (abstractify_net_packet_to_lock_packet s)
  | Receive r => Receive (abstractify_net_packet_to_lock_packet r)
  | TimeoutReceive => TimeoutReceive
  | ReadClock t => ReadClock t
  end.

Definition abstractify_raw_log_to_ios (rawlog : list NetEvent) : list LockIo :=
  abstractify_net_event_to_lock_io <$> rawlog.

Definition is_marshalable_data (event : NetEvent) : Prop :=
  match event with
  | Send s => seq_len (msg s) <= USIZE_MAX /\ is_marshalable lock_m (lock_demarshal_data (msg s))
  | _ => True
  end.

Definition only_sent_marshalable_data (rawlog : list NetEvent) : Prop :=
  forall event, event ∈ rawlog -> is_marshalable_data event.

(** ** seq_is_unique_v.rs *)

(** The loop of [do_vec_u8s_match]. *)
Fixpoint u8s_match (e1 e2 : list Z) : bool :=
  match e1, e2 with
  | b1 :: e1, b2 :: e2 => if decide (b1 <> b2) then false else u8s_match e1 e2
  | _, _ => true
  end.

Definition do_vec_u8s_match (e1 e2 : list Z) : bool :=
  if decide (seq_len e1 <> seq_len e2) then false else u8s_match e1 e2.

Definition do_end_points_match (e1 e2 : EndPoint) : bool := do_vec_u8s_match (ep_id e1) (ep_id e2).

Fixpoint endpoints_contain (endpoints : list EndPoint) (endpoint : EndPoint) : bool :=
  match endpoints with
  | [] => false
  | e :: endpoints => if do_end_points_match endpoint e then true else endpoints_contain endpoints endpoint
  end.

(** The loop of [get_host_index] from index [j] on. *)
Fixpoint host_index_from (j : Z) (endpoints : list EndPoint) (endpoint : EndPoint) : bool * Z :=
  match endpoints with
  | [] => (false, 0)
  | e :: endpoints =>
      if do_end_points_match endpoint e then (true, j) else host_index_from (j + 1) endpoints endpoint
  end.

Definition get_host_index (endpoints : list EndPoint) (endpoint : EndPoint) : bool * Z :=
  host_index_from 0 endpoints endpoint.

(** The inner loop of [test_unique]: no [j] of the rest, from index [j] on, with
    [i <> j] matches. *)
Fixpoint matches_no_other (i j : Z) (e : EndPoint) (rest : list EndPoint) : bool :=
  match rest with
  | [] => true
  | e' :: rest =>
      if bool_decide (i <> j) && do_end_points_match e e' then false
      else matches_no_other i (j + 1) e rest
  end.

(** The outer loop, from index [i] on. *)
Fixpoint test_unique_from (i : Z) (endpoints rest : list EndPoint) : bool :=
  match rest with
  | [] => true
  | e :: rest => matches_no_other i 0 e endpoints && test_unique_from (i + 1) endpoints rest
  end.

Definition test_unique (endpoints : list EndPoint) : bool := test_unique_from 0 endpoints endpoints.

(** ** cmd_line_parser_i.rs *)

Definition valid_physical_address (e : EndPoint) : bool := bool_decide (seq_len (ep_id e) < 1048576).

(** The loop of [parse_end_points]. *)
Fixpoint parse_end_points_loop (args : Args) (end_points : list EndPoint) : option (list EndPoint) :=
  match args with
  | [] => Some end_points
  | arg :: args =>
      let end_point := MkEndPoint arg in
      if negb (valid_physical_address end_point) then None
      else parse_end_points_loop args (end_points ++ [end_point])
  end.

Definition parse_end_points (args : Args) : option (list EndPoint) := parse_end_points_loop args [].

Definition parse_cmd_line (me : EndPoint) (args : Args) : option (list EndPoint * Z) :=
  end_points ← parse_end_points args;
  if decide (seq_len end_points = 0) then None
  else if negb (test_unique end_points) then None
  else
    let '(present, my_index) := get_host_index end_points me in
    if negb present then None else Some (end_points, my_index).

(** ** node_i.rs *)

Definition lock_node_init (my_index : Z) (config : list EndPoint) : Node :=
  {| held := bool_decide (my_index = 0); epoch := if decide (my_index = 0) then 1 else 0;
     my_index := my_index; node_config := config |}.

Definition grant (s : Node) : Node * option CLockPacket :=
  if held s && bool_decide (epoch s < EPOCH_MAX) then
    let s' := {| held := false; epoch := epoch s; my_index := my_index s; node_config := node_config s |} in
    let dst_index := u64_add (my_index s) 1 mod seq_len (node_config s) in
    (s', Some (MkLPacket (seq_index (node_config s) dst_index) (seq_index (node_config s) (my_index s))
                 (Transfer (u64_add (epoch s) 1))))
  else (s, None).

Definition accept (s : Node) (transfer_packet : CLockPacket) : Node * option CLockPacket :=
  if negb (held s) && endpoints_contain (node_config s) (src transfer_packet) then
    match msg transfer_packet with
    | Transfer transfer_epoch =>
        if decide (transfer_epoch > epoch s) then
          ({| held := true; epoch := transfer_epoch; my_index := my_index s; node_config := node_config s |},
           Some (MkLPacket (src transfer_packet) (seq_index (node_config s) (my_index s))
                   (Locked transfer_epoch)))
        else (s, None)
    | _ => (s, None)
    end
  else (s, None).

(** ** nodeimpl_i.rs, host_i.rs *)

Record NodeImpl := MkNodeImpl { node : Node; me : EndPoint }.

Definition node_impl_init (config : list EndPoint) (my_index : Z) (me : EndPoint) : NodeImpl :=
  let node := lock_node_init my_index config in
  MkNodeImpl node (seq_index (node_config node) my_index).

(** [HostState::real_init_impl]. *)
Definition lock_host_init (me : EndPoint) (args : Args) : option NodeImpl :=
  parsed ← parse_cmd_line me args;
  Some (node_impl_init parsed.1 parsed.2 me).

(** The network's answers in an iteration: to a receive, and to a send. *)
Record LockNet := MkLockNet { ln_receive : NetcReceiveResult; ln_sent : bool }.

(** The new state, whether the loop goes on, and the events. *)
Definition next_grant (h : NodeImpl) (net : LockNet) : NodeImpl * bool * list NetEvent :=
  let '(node', transfer_packet) := grant (node h) in
  let h' := MkNodeImpl node' (me h) in
  let '(ok, send_events) := lock_send (ln_sent net) transfer_packet (me h) in
  if negb ok then (h', false, []) else (h', true, send_events).

Definition next_accept (h : NodeImpl) (net : LockNet) : Outcome (NodeImpl * bool * list NetEvent) :=
  '(rr) <-? lock_receive (ln_receive net) (me h);
  Done match rr with
  | LockReceiveFail => (h, false, [])
  | LockReceiveTimeout => (h, true, [TimeoutReceive])
  | LockReceivePacket cpacket =>
      let receive_event :=
        match ln_receive net with
        | NetcReceived sender message => [Receive (MkLPacket (me h) sender message)]
        | _ => []
        end in
      match msg cpacket with
      | Invalid => (h, true, receive_event)
      | _ =>
          let '(node', opt_locked_packet) := accept (node h) cpacket in
          let h' := MkNodeImpl node' (me h) in
          match opt_locked_packet with
          | Some locked_packet =>
              let '(ok, send_event_log) := lock_send (ln_sent net) (Some locked_packet) (me h) in
              if negb ok then (h', false, []) else (h', true, receive_event ++ send_event_log)
          | None => (h', true, receive_event)
          end
      end
  end.

Definition host_next_main (h : NodeImpl) (net : LockNet) : Outcome (NodeImpl * bool * list NetEvent) :=
  if held (node h) then Done (next_grant h net) else next_accept h net.

(** [lock_main]'s loop over the network's answers, until it stops. *)
Fixpoint lock_loop (nets : list LockNet) (h : NodeImpl) : Outcome (NodeImpl * bool * list NetEvent) :=
  match nets with
  | [] => Done (h, true, [])
  | net :: nets =>
      '(h', ok, events) <-? host_next_main h net;
      if ok then
        '(h'', ok', events') <-? lock_loop nets h';
        Done (h'', ok', events ++ events')
      else Done (h', false, events)
  end.

Definition lock_main (me : EndPoint) (args : Args) (nets : list LockNet)
  : option (Outcome (NodeImpl * bool * list NetEvent)) :=
  lock_loop nets <$> lock_host_init me args.

(** ** The command line *)

Lemma do_vec_u8s_match_spec e1 e2 : do_vec_u8s_match e1 e2 = true <-> e1 = e2.
Proof.
  unfold do_vec_u8s_match. case_decide as Hl; [split; [done|by intros ->]|].
  assert (length e1 = length e2) as Hlen by (unfold seq_len in Hl; lia). clear Hl.
  revert e2 Hlen. induction e1 as [|b1 e1 IH]; intros [|b2 e2] Hlen; cbn; try done.
  case_decide as Hb; [split; [done|intros [=]; done]|]. subst b2.
  rewrite IH by by injection Hlen. split; [by intros ->|by intros [= ->]].
Qed.

Lemma do_end_points_match_spec e1 e2 : do_end_points_match e1 e2 = true <-> e1 = e2.
Proof.
  unfold do_end_points_match. rewrite do_vec_u8s_match_spec. destruct e1, e2. cbn. split; congruence.
Qed.

Lemma endpoints_contain_spec l e : endpoints_contain l e = true <-> e ∈ l.
Proof.
  induction l as [|x l IH]; cbn; [split; [done|by intros ?%not_elem_of_nil]|].
  rewrite elem_of_cons, <- IH. destruct (do_end_points_match e x) eqn:Hm.
  - apply do_end_points_match_spec in Hm. tauto.
  - split; [by right|]. intros [->|?]; [|done]. assert (do_end_points_match x x = true) as Hx
      by (by apply do_end_points_match_spec). congruence.
Qed.

Lemma host_index_from_spec j l e :
  match host_index_from j l e with
  | (true, k) => j <= k /\ seq_get l (k - j) = Some e
  | (false, _) => e ∉ l
  end.
Proof.
  revert j. induction l as [|x l IH]; intros j; cbn; [apply not_elem_of_nil|].
  destruct (do_end_points_match e x) eqn:Hm.
  - apply do_end_points_match_spec in Hm as ->. split; [lia|]. by rewrite Z.sub_diag.
  - specialize (IH (j + 1)). destruct (host_index_from (j + 1) l e) as [[] k].
    + destruct IH as [Hk Hg]. split; [lia|]. unfold seq_get in *. rewrite decide_True in Hg by lia.
      rewrite decide_True by lia. by replace (Z.to_nat (k - j)) with (S (Z.to_nat (k - (j + 1)))) by lia.
    + intros [->|?]%elem_of_cons; [|done].
      assert (do_end_points_match x x = true) as Hx by (by apply do_end_points_match_spec). congruence.
Qed.

Lemma matches_no_other_spec i j e rest :
  matches_no_other i j e rest = true
  <-> forall k x, seq_get rest k = Some x -> i <> j + k -> x <> e.
Proof.
  revert j. induction rest as [|y rest IH]; intros j; cbn.
  { split; [|done]. intros _ k x Hk. by apply seq_get_Some_range in Hk as [? ?%Z.lt_nge]. }
  assert (forall k x, seq_get (y :: rest) k = Some x <-> k = 0 /\ x = y \/ 0 < k /\ seq_get rest (k - 1) = Some x) as Hc.
  { intros k x. unfold seq_get. destruct (decide (k = 0)) as [->|Hk]; [cbn; split; [intros [= ->]; by left|]|].
    - intros [[_ ->]|[? _]]; [done|lia].
    - repeat case_decide; try lia.
      + replace (Z.to_nat k) with (S (Z.to_nat (k - 1))) by lia. cbn. split; [intros ?; right; split; [lia|done]|].
        intros [[? _]|[_ ?]]; [lia|done].
      + split; [done|]. intros [[? _]|[? _]]; lia. }
  case_bool_decide as Hi; cbn [andb].
  - destruct (do_end_points_match e y) eqn:Hm.
    + apply do_end_points_match_spec in Hm as <-. split; [done|]. intros H. destruct (H 0 e); [by apply Hc; left|lia|done].
    + assert (y <> e) as Hne by (intros ->; rewrite (proj2 (do_end_points_match_spec e e) eq_refl) in Hm; done).
      rewrite IH. split.
      * intros H k x [[-> ->]|[Hk Hx]]%Hc Hik; [done|]. apply (H (k - 1) x Hx). lia.
      * intros H k x Hk Hik. pose proof (seq_get_Some_range _ _ _ Hk). apply (H (k + 1)); [|lia]. apply Hc. right.
        split; [lia|]. by replace (k + 1 - 1) with k by lia.
  - assert (i = j) as -> by (by destruct (decide (i = j))). rewrite IH. split.
    + intros H k x [[-> ->]|[Hk Hx]]%Hc Hik; [lia|]. apply (H (k - 1) x Hx). lia.
    + intros H k x Hk Hik. pose proof (seq_get_Some_range _ _ _ Hk). apply (H (k + 1)); [|lia]. apply Hc. right.
      split; [lia|]. by replace (k + 1 - 1) with k by lia.
Qed.

Lemma test_unique_from_spec l pre rest :
  l = pre ++ rest ->
  test_unique_from (seq_len pre) l rest = true
  <-> forall i j x, seq_len pre <= i -> seq_get l i = Some x -> seq_get l j = Some x -> i = j.
Proof.
  revert pre. induction rest as [|e rest IH]; intros pre Hl; cbn.
  { split; [|done]. intros _ i j x Hi Hg _. apply seq_get_Some_range in Hg. subst l. rewrite app_nil_r in Hg. lia. }
  rewrite andb_true_iff, matches_no_other_spec.
  replace (seq_len pre + 1) with (seq_len (pre ++ [e])) by (by rewrite seq_len_app).
  rewrite (IH (pre ++ [e])) by (by rewrite <- app_assoc). rewrite seq_len_app. change (seq_len [e]) with 1.
  assert (seq_get l (seq_len pre) = Some e) as He.
  { unfold seq_len. rewrite seq_get_of_nat, Hl. by apply list_lookup_middle. }
  split.
  - intros [Hm Hr] i j x Hi Hgi Hgj. destruct (decide (i = seq_len pre)) as [->|Hne]; [|by apply (Hr i j x); [lia|..]].
    rewrite He in Hgi. injection Hgi as <-. destruct (decide (seq_len pre = j)); [done|]. by destruct (Hm j e Hgj).
  - intros H. split.
    + intros k x Hk Hne ->. apply Hne. by apply (H _ k e).
    + intros i j x Hi. apply H. lia.
Qed.

Lemma test_unique_spec l : test_unique l = true <-> seq_is_unique l.
Proof.
  unfold test_unique. rewrite (test_unique_from_spec l [] l) by done. unfold seq_is_unique.
  split; intros H i j x.
  - intros Hi Hj. apply (H i j x); [|done..]. apply seq_get_Some_range in Hi. by destruct Hi.
  - intros _. apply H.
Qed.

Lemma parse_end_points_spec args l :
  parse_end_points args = Some l
  <-> l = endpoints args /\ forall e, e ∈ endpoints args -> valid_physical_address e = true.
Proof.
  unfold parse_end_points.
  assert (forall acc, parse_end_points_loop args acc = Some l
    <-> l = acc ++ endpoints args /\ forall e, e ∈ endpoints args -> valid_physical_address e = true) as H;
    [|by rewrite H].
  unfold endpoints. induction args as [|a args IH]; intros acc; cbn.
  - rewrite app_nil_r. split; [intros [= ->]; split; [done|]; by intros e ?%not_elem_of_nil|by intros [-> _]].
  - destruct (valid_physical_address (MkEndPoint a)) eqn:Hv; cbn.
    + rewrite IH, <- app_assoc. cbn. split; intros [-> Hall]; split; try done.
      * intros e [->|?]%elem_of_cons; [done|by apply Hall].
      * intros e ?. apply Hall. by right.
    + split; [done|]. intros [_ Hall]. rewrite Hall in Hv; [done|by left].
Qed.

(** When a node starts, and with which configuration and index. *)
Lemma parse_cmd_line_spec e args cfg i :
  parse_cmd_line e args = Some (cfg, i)
  <-> cfg = endpoints args /\ (forall x, x ∈ cfg -> valid_physical_address x = true)
      /\ seq_is_unique cfg /\ seq_get cfg i = Some e.
Proof.
  unfold parse_cmd_line. destruct (parse_end_points args) as [l|] eqn:Hp; cbn.
  2: { split; [done|]. intros (-> & Hv & _).
       assert (parse_end_points args = Some (endpoints args)) as H by (by apply parse_end_points_spec). congruence. }
  apply parse_end_points_spec in Hp as [-> Hv]. case_decide as Hz.
  { split; [done|]. intros (-> & _ & _ & Hg). apply seq_get_Some_range in Hg. lia. }
  destruct (test_unique (endpoints args)) eqn:Hu; cbn [negb].
  2: { split; [done|]. intros (-> & _ & Hu' & _). apply test_unique_spec in Hu'. congruence. }
  apply test_unique_spec in Hu. pose proof (host_index_from_spec 0 (endpoints args) e) as Hi.
  unfold get_host_index. destruct (host_index_from 0 (endpoints args) e) as [[] k]; cbn [negb].
  - destruct Hi as [_ Hk]. rewrite Z.sub_0_r in Hk. split.
    + intros [= <- <-]. done.
    + intros (-> & _ & _ & Hg). by rewrite (Hu i k e Hg Hk).
  - split; [done|]. intros (-> & _ & _ & Hg). by apply seq_get_elem_of in Hg.
Qed.

(** ** Messages *)

Lemma lock_demarshall_done d : exists m, lock_demarshall_data_method d = Done m.
Proof.
  assert (forall (o : Outcome (LockMessage * Z)), o <> Panicked -> o <> OutOfFuel ->
    exists m, match o with
              | Failed => Done Invalid
              | Done (cmessage, count) => if decide (count <> seq_len d) then Done Invalid else Done cmessage
              | Panicked => Panicked
              | OutOfFuel => OutOfFuel
              end = Done m) as H.
  { intros [[m c]| | |] ? ?; try done; [case_decide; by eexists|by exists Invalid]. }
  apply H; unfold lock_m; cbn; unfold enum_deserialize; (case_decide; [done|]); cbn;
    repeat (case_decide; cbn; try done); unfold struct_deserialize; cbn; unfold u64_deserialize;
    repeat (case_decide; cbn; try done).
Qed.

Lemma lock_rep_u64 m : rep lock_m m <-> match m with Transfer e | Locked e => is_u64 e | Invalid => True end.
Proof. destruct m; cbn; tauto. Qed.

Lemma lock_wire_len m : rep lock_m m -> seq_len (serialize lock_m m []) <= 9.
Proof. destruct m; intros _; vm_compute; done. Qed.

Lemma lock_demarshall_marshalled m :
  rep lock_m m -> lock_demarshall_data_method (serialize lock_m m []) = Done m.
Proof.
  intros Hm. unfold lock_demarshall_data_method.
  pose proof (roundtrip (c := lock_m) m [] [] Hm) as Hr. rewrite app_nil_r in Hr.
  change (seq_len (@nil Z)) with 0 in Hr. cbn [app] in Hr. unfold wire in Hr. rewrite Hr.
  - by rewrite decide_False by lia.
  - pose proof (lock_wire_len m Hm). unfold ISIZE_MAX. lia.
Qed.

Lemma lock_demarshall_rep d m : is_data d -> lock_demarshall_data_method d = Done m -> rep lock_m m.
Proof.
  intros Hd. unfold lock_demarshall_data_method.
  destruct (deserialize lock_m d 0) as [[m' count]| | |] eqn:He; try done.
  - case_decide; intros [= <-]; [done|]. by destruct (parsed (c := lock_m) d 0 m' count Hd ltac:(lia) He).
  - by intros [= <-].
Qed.

(** The bytes of a message are those of no other: the source's choice of a
    message with given bytes is [lock_demarshal_data]. *)
Lemma lock_demarshal_data_chosen d m : rep lock_m m -> ghost_serialize lock_m m = d -> lock_demarshal_data d = m.
Proof.
  intros Hm <-. rewrite <- (exact_wire (c := lock_m) m). unfold lock_demarshal_data, wire.
  by rewrite lock_demarshall_marshalled.
Qed.

(** ** One iteration refines a step of the protocol's node *)

Definition node_ok (h : NodeImpl) : Prop :=
  is_u64 (epoch (node h)) /\ seq_len (node_config (node h)) <= ISIZE_MAX
  /\ seq_get (node_config (node h)) (my_index (node h)) = Some (me h).

(** [HostState::next]. *)
Definition host_next (pre post : AbstractNode) (ios : list NetEvent) : Prop :=
  NodeNext pre post (abstractify_raw_log_to_ios ios) /\ only_sent_marshalable_data ios.

(** The bytes received are such. *)
Definition net_data_ok (net : LockNet) : Prop :=
  match ln_receive net with NetcReceived _ message => is_data message | _ => True end.

Lemma node_index_range h : node_ok h -> 0 <= my_index (node h) < seq_len (node_config (node h)).
Proof. intros (_ & _ & H). by apply seq_get_Some_range in H. Qed.

Lemma grant_effect h :
  node_ok h ->
  (held (node h) = true /\ epoch (node h) < EPOCH_MAX
   /\ grant (node h) = (MkNode false (epoch (node h)) (my_index (node h)) (node_config (node h)),
        Some (MkLPacket (next_node (node h)) (me h) (Transfer (epoch (node h) + 1)))))
  \/ (~ (held (node h) = true /\ epoch (node h) < EPOCH_MAX) /\ grant (node h) = (node h, None)).
Proof.
  intros Hok. pose proof (node_index_range h Hok) as Hi. destruct Hok as (He & Hl & Hm).
  unfold grant. destruct (held (node h)); cbn [andb]; [|right; split; [by intros [? _]|done]].
  case_bool_decide as Hlt; [left|right; split; [tauto|done]]. split_and!; [done|done|].
  unfold is_u64, EPOCH_MAX, U64_MODULUS, ISIZE_MAX in *.
  rewrite !u64_add_exact by (unfold U64_MODULUS; lia). rewrite (seq_index_get _ _ _ Hm). done.
Qed.

Lemma marshalled_io p0 addr :
  rep lock_m (msg p0) ->
  abstractify_raw_log_to_ios [Send (MkLPacket (dst p0) addr (serialize lock_m (msg p0) []))]
    = [Send (MkLPacket (dst p0) addr (msg p0))]
  /\ only_sent_marshalable_data [Send (MkLPacket (dst p0) addr (serialize lock_m (msg p0) []))].
Proof.
  intros Hr. assert (lock_demarshal_data (serialize lock_m (msg p0) []) = msg p0) as Hd
    by (unfold lock_demarshal_data; by rewrite lock_demarshall_marshalled). split.
  - cbn -[lock_m]. unfold abstractify_net_packet_to_lock_packet. cbn -[lock_m]. by rewrite Hd.
  - intros ev ->%list_elem_of_singleton. cbn -[lock_m]. rewrite Hd.
    pose proof (lock_wire_len _ Hr). unfold USIZE_MAX, U64_MODULUS. split; [lia|].
    destruct (msg p0); cbn; unfold USIZE_MAX, U64_MODULUS; split_and!; done.
Qed.

#[local] Opaque lock_m.

Lemma next_grant_refines h net h' ios :
  node_ok h -> held (node h) = true -> next_grant h net = (h', true, ios) ->
  node_ok h' /\ me h' = me h /\ host_next (node h) (node h') ios
  /\ forall io, io ∈ ios -> exists p, io = Send p /\ src p = me h.
Proof.
  intros Hok Hheld. unfold next_grant.
  destruct (grant_effect h Hok) as [(_ & He & ->)|[Hno ->]]; cbn.
  - destruct (ln_sent net); [|done]. cbn. intros [= <- <-]. destruct Hok as (Hu & Hl & Hm).
    destruct (marshalled_io (MkLPacket (next_node (node h)) (me h) (Transfer (epoch (node h) + 1))) (me h))
      as [Hio Hmar].
    { apply lock_rep_u64. cbn. unfold is_u64, EPOCH_MAX, U64_MODULUS in *. lia. }
    split_and!; [done|done| |].
    + split; [|exact Hmar]. left. split; [done|]. cbn [msg dst] in Hio. rewrite Hio.
      rewrite decide_True by done. split_and!; [done| |done|done|].
      * apply seq_get_Some_range in Hm. lia.
      * by exists (MkLPacket (next_node (node h)) (me h) (Transfer (epoch (node h) + 1))).
    + intros io ->%list_elem_of_singleton. eexists. by split.
  - intros [= <- <-]. split_and!; [by destruct h|done| |by intros io ?%not_elem_of_nil].
    split; [|by intros io ?%not_elem_of_nil]. left. split; [done|]. by rewrite decide_False.
Qed.

Lemma accept_effect h p :
  node_ok h ->
  (exists e, held (node h) = false /\ src p ∈ node_config (node h) /\ msg p = Transfer e /\ e > epoch (node h)
   /\ accept (node h) p = (MkNode true e (my_index (node h)) (node_config (node h)),
        Some (MkLPacket (src p) (me h) (Locked e))))
  \/ accept (node h) p = (node h, None).
Proof.
  intros (He & Hl & Hm). unfold accept. destruct (held (node h)); cbn [negb andb]; [by right|].
  destruct (endpoints_contain (node_config (node h)) (src p)) eqn:Hc; [|by right].
  apply endpoints_contain_spec in Hc. destruct (msg p) as [e|e|] eqn:Hmsg; [|by right..].
  case_decide; [|by right]. left. exists e. rewrite (seq_index_get _ _ _ Hm). by split_and!.
Qed.

(** A received datagram, in the protocol's terms. *)
Lemma received_io h sender message m :
  lock_demarshall_data_method message = Done m ->
  abstractify_raw_log_to_ios [Receive (MkLPacket (me h) sender message)]
  = [Receive (MkLPacket (me h) sender m)].
Proof.
  intros Hd. cbn. unfold abstractify_net_packet_to_lock_packet, lock_demarshal_data. cbn. by rewrite Hd.
Qed.

Lemma next_accept_refines h net h' ios :
  node_ok h -> net_data_ok net -> held (node h) = false -> next_accept h net = Done (h', true, ios) ->
  node_ok h' /\ me h' = me h /\ host_next (node h) (node h') ios
  /\ forall io, io ∈ ios -> match io with
       | Send p => src p = me h
       | Receive r => dst r = me h /\ ln_receive net = NetcReceived (src r) (msg r)
       | _ => True
       end.
Proof.
  intros Hok Hdata Hheld. unfold next_accept, net_data_ok in *.
  destruct (ln_receive net) as [sender message| |]; [|cbn; intros [= <- <-]|done].
  2: { split_and!; [done|done| |by intros io ->%list_elem_of_singleton].
       split; [right; by split_and!|by intros io ->%list_elem_of_singleton]. }
  unfold lock_receive. destruct (lock_demarshall_done message) as [m Hm]. rewrite Hm. cbn [obind msg].
  assert (forall node' rest, node_ok (MkNodeImpl node' (me h)) ->
    (node' = node h /\ rest = [] \/ exists e, m = Transfer e /\ sender ∈ node_config (node h) /\ e > epoch (node h)
       /\ node' = MkNode true e (my_index (node h)) (node_config (node h))
       /\ rest = [Send (MkLPacket sender (me h) (serialize lock_m (Locked e) []))]) ->
    node_ok (MkNodeImpl node' (me h)) /\ me (MkNodeImpl node' (me h)) = me h
    /\ host_next (node h) node' ([Receive (MkLPacket (me h) sender message)] ++ rest)
    /\ forall io, io ∈ [Receive (MkLPacket (me h) sender message)] ++ rest -> match io with
         | Send p => src p = me h
         | Receive r => dst r = me h /\ NetcReceived sender message = NetcReceived (src r) (msg r)
         | _ => True
         end) as Hcase.
  { intros node' rest Hok' Hr. split_and!; [done|done|split|].
    - right. unfold abstractify_raw_log_to_ios. rewrite fmap_app. change (abstractify_net_event_to_lock_io <$> ?l)
        with (abstractify_raw_log_to_ios l). rewrite (received_io h sender message m Hm).
      destruct Hr as [[-> ->]|(e & -> & Hs & He & -> & ->)]; (split; [done|]); cbn [app]; [by right|left].
      cbn [msg src]. rewrite decide_True by done. split_and!; [done..|].
      destruct (marshalled_io (MkLPacket sender (me h) (Locked e)) (me h)) as [Hio _].
      { apply lock_rep_u64. by destruct Hok'. }
      cbn [msg dst] in Hio. rewrite Hio. by exists (MkLPacket sender (me h) (Locked e)).
    - intros ev [->%list_elem_of_singleton|Hev]%elem_of_app; [done|].
      destruct Hr as [[_ ->]|(e & _ & _ & _ & -> & ->)]; [by apply not_elem_of_nil in Hev|].
      destruct (marshalled_io (MkLPacket sender (me h) (Locked e)) (me h)) as [_ Hmar];
        [|by apply Hmar]. apply lock_rep_u64. by destruct Hok'.
    - intros io [->%list_elem_of_singleton|Hio]%elem_of_app; [done|].
      destruct Hr as [[_ ->]|(e & _ & _ & _ & _ & ->)]; [by apply not_elem_of_nil in Hio|].
      by apply list_elem_of_singleton in Hio as ->. }
  assert (node_ok (MkNodeImpl (node h) (me h))) as Hok0 by (by destruct h).
  destruct (accept_effect h (MkLPacket (me h) sender m) Hok) as [(e & _ & Hsrc & Hme & He & Hacc)|Hacc].
  - cbn in Hme. subst m. rewrite Hacc. cbn. destruct (ln_sent net); [|done]. cbn.
    intros [= <- <-]. apply Hcase; [|right; by exists e].
    pose proof (lock_demarshall_rep _ _ Hdata Hm) as Hr. apply lock_rep_u64 in Hr. destruct Hok as (_ & ? & ?).
    by split_and!.
  - rewrite Hacc. destruct m; cbn; intros [= <- <-]; (split_and!; [done|done|..]);
      destruct (Hcase (node h) [] Hok0 ltac:(by left)) as (_ & _ & H1 & H2); done.
Qed.

(** One iteration, when the loop goes on. *)
Lemma host_next_main_refines h net h' ios :
  node_ok h -> net_data_ok net -> host_next_main h net = Done (h', true, ios) ->
  node_ok h' /\ me h' = me h /\ host_next (node h) (node h') ios.
Proof.
  intros Hok Hdata. unfold host_next_main. destruct (held (node h)) eqn:Hheld.
  - intros [= Hn]. by destruct (next_grant_refines h net h' ios Hok Hheld Hn) as (? & ? & ? & _).
  - intros Hn. by destruct (next_accept_refines h net h' ios Hok Hdata Hheld Hn) as (? & ? & ? & _).
Qed.

(** An iteration neither panics nor runs out of fuel. *)
Lemma host_next_main_total h net : exists r, host_next_main h net = Done r.
Proof.
  unfold host_next_main. destruct (held (node h)); [by eexists|]. unfold next_accept, lock_receive.
  destruct (ln_receive net) as [sender message| |]; [|by eexists..].
  destruct (lock_demarshall_done message) as [m ->]. cbn. by eexists.
Qed.

Lemma lock_loop_total nets h : exists r, lock_loop nets h = Done r.
Proof.
  revert h. induction nets as [|net nets IH]; intros h; cbn; [by eexists|].
  destruct (host_next_main_total h net) as [[[h' ok] events] ->]. cbn. destruct ok; [|by eexists].
  destruct (IH h') as [[[h'' ok'] events'] ->]. by eexists.
Qed.

(** What a started node is. *)
Lemma lock_host_init_spec e args h :
  lock_host_init e args = Some h ->
  seq_is_unique (endpoints args) /\ (forall x, x ∈ endpoints args -> valid_physical_address x = true)
  /\ me h = e /\ seq_get (endpoints args) (my_index (node h)) = Some e
  /\ NodeInit (node h) (my_index (node h)) (endpoints args).
Proof.
  unfold lock_host_init. destruct (parse_cmd_line e args) as [[cfg i]|] eqn:Hp; cbn; [|done].
  intros [= <-]. apply parse_cmd_line_spec in Hp as (-> & Hv & Hu & Hi). cbn.
  rewrite (seq_index_get _ _ _ Hi). split_and!; try done. by apply seq_get_Some_range in Hi.
Qed.
