(* ===== verification/LockSystem.v ===== *)
(** * The lock service: nodes, network and service

    services/lock/{distributed_system_s,main_s,abstractservice_s}.rs: the system
    of nodes and datagrams, its view as a state of the protocol, and what the
    abstract service says of the datagrams sent.  [lock_system_next] is the system
    of nodes that run the event loop of LockImpl.v; [next_requires] is the source's
    specification of its steps. *)

From stdpp Require Import prelude gmap sets list numbers fin_sets.
From Stdlib Require Import ZArith Lia.
From S2P Require Import Prelude.
From S2P Require Import Types.
From S2P Require Import Environment.
From S2P Require Import Marshalling.
From S2P Require Import MarshallingLaws.
From S2P Require Import GenericHost.
From S2P Require Import Lock.
From S2P Require Import LockImpl.

#[local] Open Scope Z_scope.

(** ** The abstract service's view of datagrams (abstractservice_s.rs) *)

Definition marshall_lock_message (epoch : Z) : list Z :=
  if decide (0 <= epoch < U64_MODULUS) then [1] ++ ghost_serialize u64_m epoch else [1].

Definition service_correspondence (concrete_pkts : gset NetPacket) (service_state : AbstractLockServiceState)
  : Prop :=
  forall p epoch, p ∈ concrete_pkts -> src p ∈ hosts service_state -> dst p ∈ hosts service_state ->
    0 <= epoch < U64_MODULUS -> msg p = marshall_lock_message epoch ->
    1 <= epoch <= seq_len (history service_state)
    /\ src p = seq_index (history service_state) (epoch - 1).

(** ** The distributed system (distributed_system_s.rs) *)

Abbreviation ConcreteEnvironment := (LEnvironment AbstractEndPoint (list Z)).
Abbreviation ConcreteEnvStep := (LEnvStep AbstractEndPoint (list Z)).

Definition abstractify_concrete_env_step (step : ConcreteEnvStep) : LEnvStep AbstractEndPoint LockMessage :=
  match step with
  | LEnvStepHostIos actor ios => LEnvStepHostIos actor (abstractify_raw_log_to_ios ios)
  | LEnvStepDeliverPacket p => LEnvStepDeliverPacket (abstractify_net_packet_to_lock_packet p)
  | LEnvStepAdvanceTime => LEnvStepAdvanceTime
  | LEnvStepStutter => LEnvStepStutter
  end.

Definition abstractify_concrete_env_sent_packets (sent : gset NetPacket) : gset LockPacket :=
  set_map abstractify_net_packet_to_lock_packet sent.

Definition abstractify_concrete_environment (environment : ConcreteEnvironment) : LockEnvironment :=
  MkLEnvironment (time environment) (abstractify_concrete_env_sent_packets (sentPackets environment)) ∅
    (abstractify_concrete_env_step (nextStep environment)).

Record DSStateLock := MkDSStateLock
  { ds_config : list EndPoint;
    ds_environment : ConcreteEnvironment;
    ds_servers : gmap AbstractEndPoint NodeImpl }.

(** [ValidPhysicalPacket]; datagrams consist of bytes. *)
Definition valid_physical_packet (p : NetPacket) : Prop :=
  valid_physical_address (src p) = true /\ valid_physical_address (dst p) = true
  /\ seq_len (msg p) <= U64_MODULUS - 1 /\ Forall is_u8 (msg p).

Definition valid_physical_io (io : NetEvent) : Prop :=
  match io with Send p | Receive p => valid_physical_packet p | _ => True end.

Definition valid_physical_environment (step : ConcreteEnvStep) : Prop :=
  match step with
  | LEnvStepHostIos actor ios => forall io, io ∈ ios -> valid_physical_io io
  | _ => True
  end.

(** [DSStateLock::view]. *)
Definition ds_view (s : DSStateLock) : AbstractLSState :=
  MkLSState (abstractify_concrete_environment (ds_environment s)) (node <$> ds_servers s).

Definition valid_config (c : list EndPoint) : Prop :=
  seq_len c > 0 /\ (forall e, e ∈ c -> valid_physical_address e = true) /\ seq_is_unique c.

(** [HostState::host_init]. *)
Definition host_init (h : NodeImpl) (config : list EndPoint) (id : EndPoint) : Prop :=
  NodeInit (node h) (my_index (node h)) config
  /\ node_config (node h) = config
  /\ seq_index (node_config (node h)) (my_index (node h)) = id
  /\ id ∈ config.

Definition init_requires (config : list EndPoint) (s : DSStateLock) : Prop :=
  ds_config s = config
  /\ dom (ds_servers s) = list_to_set (ds_config s)
  /\ valid_config (ds_config s)
  /\ LEnvironment_Init (ds_environment s)
  /\ forall id h, ds_servers s !! id = Some h -> host_init h (ds_config s) id.

Definition next_one_server_requires (s next_s : DSStateLock) (id : EndPoint) (ios : list NetEvent) : Prop :=
  exists h h', ds_servers s !! id = Some h
    /\ ds_servers next_s !! id = Some h'
    /\ host_next (node h) (node h') ios
    /\ ds_servers next_s = <[id := h']> (ds_servers s).

Definition next_requires (s next_s : DSStateLock) : Prop :=
  ds_config s = ds_config next_s
  /\ LEnvironment_Next (ds_environment s) (ds_environment next_s)
  /\ valid_physical_environment (nextStep (ds_environment s))
  /\ match nextStep (ds_environment s) with
     | LEnvStepHostIos actor ios =>
         if decide (is_Some (ds_servers s !! actor)) then next_one_server_requires s next_s actor ios
         else ds_servers s = ds_servers next_s
     | _ => ds_servers s = ds_servers next_s
     end.

(** ** The nodes that run the event loop *)

(** Nodes started with the same arguments ([EndPoint]s in a [Vec]). *)
Definition lock_system_init (args : Args) (s : DSStateLock) : Prop :=
  ds_config s = endpoints args
  /\ 0 < num_servers args <= ISIZE_MAX
  /\ LEnvironment_Init (ds_environment s)
  /\ dom (ds_servers s) = list_to_set (endpoints args)
  /\ forall e h, ds_servers s !! e = Some h -> lock_host_init e args = Some h.

(** A step of the environment in which a node that acts runs one iteration of its
    loop, and the loop goes on; anyone else sends and receives at will. *)
Definition lock_system_next (s s_ : DSStateLock) : Prop :=
  ds_config s = ds_config s_
  /\ LEnvironment_Next (ds_environment s) (ds_environment s_)
  /\ valid_physical_environment (nextStep (ds_environment s))
  /\ match nextStep (ds_environment s) with
     | LEnvStepHostIos actor ios =>
         match ds_servers s !! actor with
         | Some h => exists net h', net_data_ok net /\ host_next_main h net = Done (h', true, ios)
                       /\ ds_servers s_ = <[actor := h']> (ds_servers s)
         | None => ds_servers s_ = ds_servers s
         end
     | _ => ds_servers s_ = ds_servers s
     end.

(** ** The nodes implement the system's specification *)

Section implementation.
Context (args : Args).
Implicit Types (s : DSStateLock) (e : EndPoint) (h : NodeImpl).

Definition nodes_ok s : Prop :=
  forall e h, ds_servers s !! e = Some h -> node_ok h.

Lemma nodes_ok_init s : lock_system_init args s -> nodes_ok s.
Proof.
  intros (_ & Hlen & _ & _ & Hh) e h He. apply Hh in He.
  apply lock_host_init_spec in He as (_ & _ & Hme & Hi & (Hep & _ & _ & _ & Hc)).
  unfold node_ok. rewrite Hc, Hme, (seq_len_endpoints args). split_and!; [|lia|done].
  rewrite Hep. unfold is_u64, U64_MODULUS. case_decide; lia.
Qed.

Lemma nodes_ok_step s s' : nodes_ok s -> lock_system_next s s' -> nodes_ok s'.
Proof.
  intros Hok (_ & _ & _ & Hn) e h. destruct (nextStep _) as [actor ios|p| |].
  2-4: (rewrite Hn; apply Hok).
  destruct (ds_servers s !! actor) as [h0|] eqn:Ha; [|rewrite Hn; apply Hok].
  destruct Hn as (net & h' & Hnet & Hnext & ->).
  intros [[-> <-]|[_ ?]]%lookup_insert_Some; [|by apply (Hok e)].
  by destruct (host_next_main_refines h0 net h' ios (Hok _ _ Ha) Hnet Hnext).
Qed.

Lemma lock_system_init_requires s : lock_system_init args s -> init_requires (endpoints args) s.
Proof.
  intros (Hc & Hlen & Henv & Hdom & Hh).
  assert (exists e h, ds_servers s !! e = Some h) as (e0 & h0 & H0).
  { destruct (endpoints args) as [|e l] eqn:He; [|exists e; apply elem_of_dom; rewrite Hdom; set_solver].
    pose proof (seq_len_endpoints args) as Hl. rewrite He in Hl. change (seq_len []) with 0 in Hl. lia. }
  apply Hh, lock_host_init_spec in H0 as (Hu & Hv & _). unfold init_requires, valid_config.
  rewrite Hc. split_and!; try done.
  - rewrite (seq_len_endpoints args). lia.
  - intros e h He. apply Hh in He.
    apply lock_host_init_spec in He as (_ & _ & _ & Hi & Hinit). pose proof Hinit as (_ & _ & _ & _ & Hcfg).
    split_and!; [done|done| |by apply seq_get_elem_of in Hi]. rewrite Hcfg. by apply seq_index_get.
Qed.

Lemma lock_system_next_requires s s' : nodes_ok s -> lock_system_next s s' -> next_requires s s'.
Proof.
  intros Hok (Hc & Henv & Hv & Hn). split_and!; try done.
  destruct (nextStep (ds_environment s)) as [actor ios|p| |]; [|done..].
  destruct (ds_servers s !! actor) as [h|] eqn:Ha.
  2: { rewrite decide_False; [done|]. by intros []. }
  rewrite decide_True by done. destruct Hn as (net & h' & Hnet & Hnext & Hs).
  destruct (host_next_main_refines h net h' ios (Hok _ _ Ha) Hnet Hnext) as (_ & _ & Hr).
  exists h, h'. split_and!; try done. by rewrite Hs, lookup_insert_eq.
Qed.

Lemma lock_system_valid_behavior b :
  behavior (lock_system_init args) lock_system_next b ->
  behavior (init_requires (endpoints args)) next_requires b.
Proof.
  intros Hb. pose proof (behavior_invariant _ _ nodes_ok b nodes_ok_init nodes_ok_step Hb) as Hok.
  destruct Hb as [(s & Hs & Hi) Hn]. split.
  - exists s. split; [done|by apply lock_system_init_requires].
  - intros i s1 s2 H1 H2. apply lock_system_next_requires; [by apply (Hok i)|by apply (Hn i)].
Qed.
End implementation.

(** ** The system's view is a run of the protocol *)

Section refinement.
Context (cfg : list EndPoint).
Implicit Types (s : DSStateLock) (ios : list NetEvent).

Lemma sent_abstract (sent : gset NetPacket) p :
  p ∈ sent -> abstractify_net_packet_to_lock_packet p ∈ abstractify_concrete_env_sent_packets sent.
Proof. intros Hp. unfold abstractify_concrete_env_sent_packets. by apply elem_of_map_2. Qed.

Lemma abstract_io_sent ios :
  omap io_sent (abstractify_raw_log_to_ios ios)
  = abstractify_net_packet_to_lock_packet <$> omap io_sent ios.
Proof.
  unfold abstractify_raw_log_to_ios. induction ios as [|[p|r| |t] ios IH]; cbn; [done| |exact IH..].
  f_equal. exact IH.
Qed.

Lemma elem_abstract_io ios io :
  io ∈ abstractify_raw_log_to_ios ios <-> exists x, x ∈ ios /\ io = abstractify_net_event_to_lock_io x.
Proof. unfold abstractify_raw_log_to_ios. rewrite list_elem_of_fmap. naive_solver. Qed.

Lemma abstract_environment_next (env env' : ConcreteEnvironment) :
  LEnvironment_Next env env' ->
  LEnvironment_Next (abstractify_concrete_environment env) (abstractify_concrete_environment env').
Proof.
  intros [Hv Hn]. unfold LEnvironment_Next, LEnvironment_Stutter, LEnvironment_AdvanceTime in *. cbn.
  destruct (nextStep env) as [actor ios|p| |]; cbn.
  - destruct Hv as [Hv Ho]. destruct Hn as (Hs & Hr & Ht). split; [split|split_and!]; cbn; try done.
    + intros io (x & Hx & ->)%elem_abstract_io. specialize (Hv x Hx). by destruct x.
    + intros i io1 io2 H1 H2. unfold abstractify_raw_log_to_ios in *.
      rewrite list_lookup_fmap in H1, H2.
      apply fmap_Some in H1 as (x1 & H1 & ->). apply fmap_Some in H2 as (x2 & H2 & ->).
      specialize (Ho i x1 x2 H1 H2). unfold LIoOpOrderingOKForAction in *. by destruct x1, x2.
    + unfold abstractify_concrete_env_sent_packets. rewrite Hs, set_map_union_L, abstract_io_sent.
      f_equal. symmetry. exact (list_to_set_fmap_L (C := gset NetPacket) _ _).
    + intros io (x & Hx & ->)%elem_abstract_io. specialize (Hr x Hx). destruct x; cbn in *; try done.
      by apply sent_abstract.
  - destruct Hn as [Ht Hs]. split_and!; [by apply sent_abstract|done|by rewrite Hs].
  - destruct Hn as [Ht Hs]. split_and!; [done|done|by rewrite Hs].
  - destruct Hn as [Ht Hs]. split_and!; [done|done|by rewrite Hs].
Qed.

Lemma next_requires_ls_next s s' : next_requires s s' -> ls_next (ds_view s) (ds_view s').
Proof.
  intros (_ & Henv & _ & Hn). split; [by apply abstract_environment_next|]. cbn.
  destruct (nextStep (ds_environment s)) as [actor ios|p| |]; cbn; [|by rewrite Hn..].
  rewrite lookup_fmap. destruct (ds_servers s !! actor) as [h|] eqn:Ha; cbn.
  2: { rewrite decide_False in Hn by by intros []. rewrite decide_False by by intros []. by rewrite Hn. }
  rewrite decide_True in Hn by done. rewrite decide_True by done.
  destruct Hn as (h0 & h' & Hh0 & Hh' & [Hnext _] & Hs). rewrite Ha in Hh0. injection Hh0 as <-.
  exists (node h), (node h'). cbn. rewrite !lookup_fmap, Ha, Hh'. split_and!; try done.
  - by rewrite Hs, fmap_insert.
  - destruct Hnext as [[_ Hg]|[_ Hg]].
    + case_decide; [by destruct Hg as (_ & _ & ? & _)|by destruct Hg as [-> _]].
    + destruct (abstractify_raw_log_to_ios ios) as [|[p|r| |t] rest]; try done; try by destruct Hg as [-> _].
      destruct Hg as [Hg|[-> _]]; [|done]. destruct (msg r); try by destruct Hg as [-> _].
      case_decide; [|by destruct Hg as [-> _]]. by destruct Hg as (_ & _ & ? & _).
Qed.

Lemma init_requires_ls_init s : init_requires cfg s -> ls_init (ds_view s) cfg.
Proof.
  intros (Hc & Hdom & (Hlen & _ & Hu) & [Hsent Htime] & Hh). rewrite Hc in *.
  assert (sentPackets (ds_environment s) = ∅) as Hs by (apply leibniz_equiv; by apply size_empty_iff).
  split_and!; cbn; try done.
  - unfold LEnvironment_Init. cbn. split; [|done]. rewrite Hs. unfold abstractify_concrete_env_sent_packets.
    rewrite set_map_empty. done.
  - intros e. rewrite lookup_fmap, fmap_is_Some, <- elem_of_dom, Hdom. by rewrite elem_of_list_to_set.
  - intros i e Hi. assert (is_Some (ds_servers s !! e)) as [h Hhe]
      by (rewrite <- elem_of_dom, Hdom, elem_of_list_to_set; by apply seq_get_elem_of in Hi).
    exists (node h). rewrite lookup_fmap, Hhe. split; [done|].
    destruct (Hh e h Hhe) as (Hinit & Hcfg & Hid & _). pose proof Hinit as (_ & Hr & _).
    rewrite Hcfg in Hid. assert (seq_get cfg (my_index (node h)) = Some e) as Hg
      by (rewrite <- Hid; by apply seq_get_index).
    by rewrite (Hu _ _ _ Hi Hg).
Qed.
End refinement.

(** ** The service behind the nodes *)

Section service.
Context (cfg : list EndPoint).
Implicit Types (s : DSStateLock) (g : AbstractGLSState) (ss : AbstractLockServiceState).

(** [g] is the protocol's state of [s], with the history of holders. *)
Definition with_history s g : Prop := gls_ls g = ds_view s /\ lock_inv cfg g.

Lemma with_history_init s : init_requires cfg s -> exists g, gls_init g cfg /\ with_history s g.
Proof.
  intros Hi%init_requires_ls_init. exists (MkGLSState (ds_view s) [seq_index cfg 0]).
  assert (gls_init (MkGLSState (ds_view s) [seq_index cfg 0]) cfg) as Hg by done.
  split; [done|]. split; [done|by apply lock_inv_init].
Qed.

Lemma with_history_step s s' g :
  with_history s g -> next_requires s s' -> exists g', gls_next g g' /\ with_history s' g'.
Proof.
  intros [Hg Hinv] Hn%next_requires_ls_next. rewrite <- Hg in Hn.
  destruct (ls_next_gls g _ Hn) as (h' & Hnext). exists (MkGLSState (ds_view s') h').
  split; [done|split; [done|]]. by apply (lock_inv_step cfg g).
Qed.

Lemma behavior_with_history b :
  behavior (init_requires cfg) next_requires b ->
  exists gb, behavior (fun g => gls_init g cfg) gls_next gb /\ Forall2 with_history b gb.
Proof. apply behavior_simulation; [apply with_history_init|apply with_history_step]. Qed.

(** The lock's holder according to the service. *)
Definition holder_is_last s ss : Prop :=
  forall e h, ds_servers s !! e = Some h -> held (node h) = true ->
    last (history ss) = Some e /\ epoch (node h) = seq_len (history ss).

Lemma marshall_lock_message_locked k :
  0 <= k < U64_MODULUS -> lock_demarshal_data (marshall_lock_message k) = Locked k.
Proof.
  intros Hk. unfold marshall_lock_message. rewrite decide_True by done.
  apply lock_demarshal_data_chosen; [by apply lock_rep_u64|]. cbn. by rewrite app_nil_r.
Qed.

Lemma with_history_server s g e :
  with_history s g -> e ∈ hosts (abstractify_gls_state g) <-> e ∈ cfg.
Proof. intros [Hg Hinv]. cbn. by rewrite elem_of_dom, (li_domain _ _ Hinv). Qed.

Lemma with_history_correspondence s g :
  with_history s g ->
  service_correspondence (sentPackets (ds_environment s)) (abstractify_gls_state g)
  /\ holder_is_last s (abstractify_gls_state g).
Proof.
  intros Hw. pose proof Hw as [Hg Hinv]. split.
  - intros p k Hp Hsrc%(with_history_server s g _ Hw) _ Hk Hm.
    destruct (li_locked _ _ Hinv (abstractify_net_packet_to_lock_packet p) k) as [H1 H2]; [|done| |].
    + rewrite Hg. by apply sent_abstract.
    + cbn. rewrite Hm. by apply marshall_lock_message_locked.
    + cbn in H2 |- *. pose proof (seq_get_Some_range _ _ _ H2). split; [lia|].
      symmetry. by apply seq_index_get.
  - intros e h He Hh. apply (li_held _ _ Hinv e (node h)); [|done].
    rewrite Hg. cbn. by rewrite lookup_fmap, He.
Qed.

Lemma gls_init_service g :
  gls_init g cfg -> service_init (abstractify_gls_state g) (list_to_set cfg).
Proof.
  intros Hi. pose proof (lock_inv_init cfg g Hi) as Hinv. destruct Hi as [(_ & Hlen & _ & Hdom & _) Hh]. split.
  - apply set_eq. intros e. cbn. by rewrite elem_of_dom, elem_of_list_to_set, Hdom.
  - exists (seq_index cfg 0). split; [|done]. apply elem_of_list_to_set, seq_index_elem_of. lia.
Qed.

(** The service's behaviour that explains a behaviour of the system. *)
Lemma service_behavior b :
  behavior (init_requires cfg) next_requires b ->
  exists sb,
    behavior (fun ss => service_init ss (list_to_set cfg)) (fun ss ss' => ss' = ss \/ service_next ss ss') sb
    /\ Forall2 (fun s ss => service_correspondence (sentPackets (ds_environment s)) ss /\ holder_is_last s ss) b sb.
Proof.
  intros Hb. destruct (behavior_with_history b Hb) as (gb & Hgb & HR).
  destruct (behavior_simulation (fun g => gls_init g cfg) gls_next (fun ss => service_init ss (list_to_set cfg))
    (fun ss ss' => ss' = ss \/ service_next ss ss')
    (fun g ss => ss = abstractify_gls_state g /\ lock_inv cfg g) gb) as (sb & Hsb & HR').
  - intros g Hg. exists (abstractify_gls_state g). split_and!; [by apply gls_init_service|done|by apply lock_inv_init].
  - intros g g' ss [-> Hinv] Hn. exists (abstractify_gls_state g').
    split_and!; [by apply (gls_next_service cfg)|done|by apply (lock_inv_step cfg g)].
  - done.
  - exists sb. split; [done|]. apply Forall2_same_length_lookup_2.
    { by rewrite (Forall2_length _ _ _ HR), (Forall2_length _ _ _ HR'). }
    intros i s ss Hs Hss. destruct (Forall2_lookup_l _ _ _ _ _ HR Hs) as (g & Hg & Hw).
    destruct (Forall2_lookup_lr _ _ _ _ _ _ HR' Hg Hss) as [-> _]. by apply with_history_correspondence.
Qed.
End service.
