(* ===== verification/LockProperties.v ===== *)
(** * Theorems about the lock service

    Refinement of the abstract service by the running nodes, mutual exclusion,
    the hand-over of the lock, and what the command line must be.  The witnesses
    are runs of two nodes. *)

From stdpp Require Import prelude gmap sets list numbers fin_sets.
From Stdlib Require Import ZArith Lia.
From S2P Require Import Prelude.
From S2P Require Import Types.
From S2P Require Import Environment.
From S2P Require Import Marshalling.
From S2P Require Import MarshallingLaws.
From S2P Require Import GenericHost.
From S2P Require Import Lock.
From S2P Require Import LockImpl.
From S2P Require Import LockSystem.

#[local] Open Scope Z_scope.

(** ** A run: the first node grants the lock to the second, which announces it *)

Definition two_nodes : Args := [[0]; [1]].
Definition node_a : EndPoint := MkEndPoint [0].
Definition node_b : EndPoint := MkEndPoint [1].

Definition lock_node (h : option NodeImpl) : NodeImpl :=
  default (MkNodeImpl (MkNode false 0 0 []) node_a) h.
Definition lock_result (o : Outcome (NodeImpl * bool * list NetEvent)) : NodeImpl * bool * list NetEvent :=
  match o with Done r => r | _ => (lock_node None, false, []) end.

Definition a_started : NodeImpl := lock_node (lock_host_init node_a two_nodes).
Definition b_started : NodeImpl := lock_node (lock_host_init node_b two_nodes).

Definition granting_net : LockNet := MkLockNet NetcTimedOut true.
Definition a_granted := lock_result (host_next_main a_started granting_net).
Definition transfer_packet : NetPacket :=
  MkLPacket node_b node_a (serialize lock_m (Transfer 2) []).
Definition accepting_net : LockNet := MkLockNet (NetcReceived node_a (msg transfer_packet)) true.
Definition b_accepted := lock_result (host_next_main b_started accepting_net).
Definition locked_packet : NetPacket :=
  MkLPacket node_a node_b (marshall_lock_message 2).

Definition lock_state (sent : gset NetPacket) (step : ConcreteEnvStep) (a b : NodeImpl) : DSStateLock :=
  MkDSStateLock (endpoints two_nodes) (MkLEnvironment 0 sent ∅ step)
    (<[node_a := a]> {[node_b := b]}).

Definition lock_s0 := lock_state ∅ (LEnvStepHostIos node_a a_granted.2) a_started b_started.
Definition lock_s1 :=
  lock_state {[transfer_packet]} (LEnvStepHostIos node_b b_accepted.2) a_granted.1.1 b_started.
Definition lock_s2 :=
  lock_state {[transfer_packet; locked_packet]} LEnvStepStutter a_granted.1.1 b_accepted.1.1.

Definition lock_behavior : list DSStateLock := [lock_s0; lock_s1; lock_s2].

Lemma a_granted_eq :
  host_next_main a_started granting_net = Done (a_granted.1.1, true, [Send transfer_packet]).
Proof. vm_compute. reflexivity. Qed.

Lemma b_accepted_eq :
  host_next_main b_started accepting_net
  = Done (b_accepted.1.1, true, [Receive transfer_packet; Send locked_packet]).
Proof. vm_compute. reflexivity. Qed.

Lemma lock_s0_init : lock_system_init two_nodes lock_s0.
Proof.
  split_and!; try (vm_compute; done).
  intros e h. cbn. intros [[<- <-]|[_ [<- <-]%lookup_singleton_Some]]%lookup_insert_Some; vm_compute; done.
Qed.

Lemma lock_s0_s1 : lock_system_next lock_s0 lock_s1.
Proof.
  split_and!; [done| | |].
  - split; cbn; [split|split_and!].
    + intros io ->%list_elem_of_singleton. done.
    + by intros [|i].
    + apply (bool_decide_eq_true_1 _). vm_compute. reflexivity.
    + by intros io ->%list_elem_of_singleton.
    + done.
  - intros io ->%list_elem_of_singleton. split_and!; try (vm_compute; done).
    apply (bool_decide_eq_true_1 _). vm_compute. reflexivity.
  - exists granting_net, a_granted.1.1. split_and!; [done|apply a_granted_eq|vm_compute; reflexivity].
Qed.

Lemma lock_s1_s2 : lock_system_next lock_s1 lock_s2.
Proof.
  assert (forall io, io ∈ b_accepted.2 -> io = Receive transfer_packet \/ io = Send locked_packet) as Hio.
  { change b_accepted.2 with [Receive transfer_packet; Send locked_packet : NetEvent].
    intros io [->| ->%list_elem_of_singleton]%elem_of_cons; [by left|by right]. }
  split_and!; [done| | |].
  - split; cbn; [split|split_and!].
    + by intros io [->| ->]%Hio.
    + intros [|[|i]] io1 io2 [= <-]; [|done..]. by intros _; left.
    + apply (bool_decide_eq_true_1 _). vm_compute. reflexivity.
    + intros io [->| ->]%Hio; [|done]. cbn. by apply elem_of_singleton.
    + done.
  - intros io [->| ->]%Hio; (split_and!; try (vm_compute; done));
      apply (bool_decide_eq_true_1 _); vm_compute; reflexivity.
  - exists accepting_net, b_accepted.1.1. split_and!; [|apply b_accepted_eq|vm_compute; reflexivity].
    split; [apply (bool_decide_eq_true_1 _); vm_compute; reflexivity|vm_compute; done].
Qed.

Lemma lock_behavior_valid : behavior (lock_system_init two_nodes) lock_system_next lock_behavior.
Proof.
  split; [exists lock_s0; split; [done|apply lock_s0_init]|].
  intros [|[|i]] s s' Hs Hs'; [| |done].
  - apply Some_inj in Hs as <-. apply Some_inj in Hs' as <-. apply lock_s0_s1.
  - apply Some_inj in Hs as <-. apply Some_inj in Hs' as <-. apply lock_s1_s2.
Qed.

(** ** Theorems *)

(** C17: the running nodes refine the abstract lock service. For every behaviour
    of the nodes there is a behaviour of the service of the same length, from one
    initial holder among the nodes, that at each step stays or appends a node to
    the history of holders; at each state, every datagram between nodes with the
    bytes of a Locked message names an epoch of the history whose holder is its
    sender, and a node that holds the lock is the history's last holder, under
    the epoch that is the history's length. *)
Theorem lock_refines_service (args : Args) (b : list DSStateLock) :
  behavior (lock_system_init args) lock_system_next b ->
  exists sb,
    behavior (fun ss => service_init ss (list_to_set (endpoints args)))
      (fun ss ss' => ss' = ss \/ service_next ss ss') sb
    /\ Forall2 (fun s ss =>
         service_correspondence (sentPackets (ds_environment s)) ss /\ holder_is_last s ss) b sb.
Proof. intros Hb. by apply service_behavior, lock_system_valid_behavior. Qed.

Lemma lock_refines_service_witness :
  exists ss, service_correspondence {[transfer_packet; locked_packet]} ss
    /\ holder_is_last lock_s2 ss
    /\ held (node b_accepted.1.1) = true.
Proof.
  destruct (lock_refines_service two_nodes lock_behavior lock_behavior_valid) as (sb & _ & HR).
  destruct (Forall2_lookup_l _ _ _ 2%nat lock_s2 HR eq_refl) as (ss & _ & Hc & Hl).
  exists ss. split; [exact Hc|split; [exact Hl|]]. vm_compute. reflexivity.
Defined.

(** C18: mutual exclusion. At every state of the running nodes at most one node
    holds the lock; and no two nodes ever announce the same epoch: Locked messages
    of the same epoch that nodes sent to nodes have the same sender. *)
Theorem lock_mutual_exclusion (args : Args) (b : list DSStateLock) (s : DSStateLock) :
  behavior (lock_system_init args) lock_system_next b -> s ∈ b ->
  (forall e h e' h', ds_servers s !! e = Some h -> ds_servers s !! e' = Some h' ->
     held (node h) = true -> held (node h') = true -> e = e')
  /\ (forall p p' k, p ∈ sentPackets (ds_environment s) -> p' ∈ sentPackets (ds_environment s) ->
        {[src p; dst p; src p'; dst p']} ⊆ (list_to_set (endpoints args) : gset EndPoint) ->
        0 <= k < U64_MODULUS -> msg p = marshall_lock_message k -> msg p' = marshall_lock_message k ->
        src p = src p').
Proof.
  intros Hb [i Hs]%list_elem_of_lookup.
  destruct (service_behavior _ b (lock_system_valid_behavior args b Hb)) as (sb & Hsb & HR).
  destruct (Forall2_lookup_l _ _ _ _ _ HR Hs) as (ss & Hss & Hc & Hl).
  assert (hosts ss = list_to_set (endpoints args)) as Hh.
  { refine (behavior_invariant _ _ (fun ss => hosts ss = list_to_set (endpoints args)) sb _ _ Hsb i ss Hss).
    - by intros ? [].
    - intros ? ? ? [->|[-> _]]; done. }
  split.
  - intros e h e' h' He He' Hheld Hheld'. destruct (Hl e h He Hheld) as [H1 _].
    destruct (Hl e' h' He' Hheld') as [H2 _]. congruence.
  - intros p p' k Hp Hp' Hin Hk Hm Hm'. rewrite <- Hh in Hin.
    destruct (Hc p k) as [_ ->]; [done|set_solver..|done|done|].
    destruct (Hc p' k) as [_ ->]; [done|set_solver..|done|done|done].
Qed.

Lemma lock_mutual_exclusion_witness :
  held (node b_accepted.1.1) = true /\ held (node a_granted.1.1) <> true.
Proof.
  assert (held (node b_accepted.1.1) = true) as Hb by (vm_compute; reflexivity).
  split; [exact Hb|]. intros Ha.
  destruct (lock_mutual_exclusion two_nodes lock_behavior lock_s2 lock_behavior_valid) as [H _].
  - right. right. left.
  - specialize (H node_a a_granted.1.1 node_b b_accepted.1.1 eq_refl eq_refl Ha Hb). discriminate H.
Defined.

(** The running nodes refine the protocol. A behaviour of nodes that run the
    event loop is one of the system's specification, whose steps are NodeNext on
    the acting node's view and send only messages that can be marshalled, and its
    view is a behaviour of the protocol. *)
Theorem lock_hosts_refine_protocol (args : Args) (b : list DSStateLock) :
  behavior (lock_system_init args) lock_system_next b ->
  behavior (init_requires (endpoints args)) next_requires b
  /\ behavior (fun s => ls_init s (endpoints args)) ls_next (ds_view <$> b).
Proof.
  intros Hb%lock_system_valid_behavior. split; [done|].
  destruct (behavior_simulation (init_requires (endpoints args)) next_requires (fun s => ls_init s (endpoints args)) ls_next (fun s l => l = ds_view s)
    b) with (3 := Hb) as (lb & Hlb & HR).
  - intros s Hi. exists (ds_view s). split; [by apply init_requires_ls_init|done].
  - intros s s' l -> Hn. exists (ds_view s'). split; [by apply next_requires_ls_next|done].
  - replace (ds_view <$> b) with lb; [done|]. clear Hlb Hb.
    induction HR as [|s l ? ? -> _ IH]; [done|]. by rewrite IH.
Qed.

Lemma lock_hosts_refine_protocol_witness :
  ls_next (ds_view lock_s0) (ds_view lock_s1)
  /\ ls_servers (ds_view lock_s1) !! node_a = Some (MkNode false 1 0 (endpoints two_nodes)).
Proof.
  destruct (lock_hosts_refine_protocol two_nodes lock_behavior lock_behavior_valid) as [_ [_ Hn]].
  split; [exact (Hn 0%nat _ _ eq_refl eq_refl)|vm_compute; reflexivity].
Defined.

(** The lock moves on. If a node holds the lock, below the last epoch, and
    the network takes its datagram, then one iteration of its loop releases the
    lock and sends one datagram to the next node of the ring; an iteration of that
    node that receives it, the node not having seen a later epoch, takes the lock
    under the next epoch and announces it. *)
Theorem lock_hand_over (h next : NodeImpl) (receiving : NetcReceiveResult) :
  node_ok h -> node_ok next -> node_config (node next) = node_config (node h) -> me next = next_node (node h) ->
  held (node h) = true -> epoch (node h) < EPOCH_MAX ->
  held (node next) = false -> epoch (node next) <= epoch (node h) ->
  exists h' next' transfer locked,
    host_next_main h (MkLockNet receiving true) = Done (h', true, [Send transfer])
    /\ src transfer = me h /\ dst transfer = me next /\ held (node h') = false
    /\ host_next_main next (MkLockNet (NetcReceived (me h) (msg transfer)) true)
       = Done (next', true, [Receive transfer; Send locked])
    /\ held (node next') = true /\ epoch (node next') = epoch (node h) + 1
    /\ src locked = me next /\ lock_demarshal_data (msg locked) = Locked (epoch (node h) + 1).
Proof.
  intros Hok Hok' Hcfg Hme Hheld He Hheld' He'.
  assert (0 <= epoch (node h) + 1 < U64_MODULUS) as Hu
    by (destruct Hok as [[? ?] _]; unfold EPOCH_MAX in He; lia).
  assert (rep lock_m (Transfer (epoch (node h) + 1))) as Hr by (by apply lock_rep_u64).
  assert (rep lock_m (Locked (epoch (node h) + 1))) as Hr' by (by apply lock_rep_u64).
  destruct (grant_effect h Hok) as [(_ & _ & Hg)|[[] _]]; [|done].
  assert (accept (node next) (MkLPacket (me next) (me h) (Transfer (epoch (node h) + 1)))
    = (MkNode true (epoch (node h) + 1) (my_index (node next)) (node_config (node next)),
       Some (MkLPacket (me h) (me next) (Locked (epoch (node h) + 1))))) as Ha.
  { unfold accept. cbn. rewrite Hheld'. cbn. destruct Hok as (_ & _ & Hi). destruct Hok' as (_ & _ & Hi').
    rewrite (proj2 (endpoints_contain_spec _ _)) by (rewrite Hcfg; by apply seq_get_elem_of in Hi).
    rewrite decide_True by lia. by rewrite (seq_index_get _ _ _ Hi'). }
  unfold host_next_main, next_grant. rewrite Hheld, Hheld', Hg. cbn -[lock_m serialize].
  unfold next_accept, lock_receive. cbn -[lock_m serialize lock_demarshall_data_method].
  do 4 eexists. rewrite <- Hme. split; [reflexivity|]. cbn -[lock_m serialize lock_demarshall_data_method].
  split; [done|split; [done|split; [done|]]].
  rewrite lock_demarshall_marshalled by done. cbn -[lock_m serialize accept]. rewrite Ha. cbn -[lock_m serialize].
  split; [reflexivity|]. cbn -[lock_m serialize]. split; [done|split; [done|split; [done|]]].
  unfold lock_demarshal_data. by rewrite lock_demarshall_marshalled.
Qed.

Lemma lock_hand_over_witness :
  exists h' next' transfer locked,
    host_next_main a_started granting_net = Done (h', true, [Send transfer])
    /\ host_next_main b_started (MkLockNet (NetcReceived node_a (msg transfer)) true)
       = Done (next', true, [Receive transfer; Send locked])
    /\ epoch (node next') = 2.
Proof.
  destruct (lock_hand_over a_started b_started NetcTimedOut)
    as (h' & next' & t & l & H1 & _ & _ & _ & H2 & _ & H3 & _).
  - split_and!; vm_compute; done.
  - split_and!; vm_compute; done.
  - vm_compute. reflexivity.
  - vm_compute. reflexivity.
  - vm_compute. reflexivity.
  - vm_compute. reflexivity.
  - vm_compute. reflexivity.
  - vm_compute. discriminate.
  - exists h', next', t, l. split; [exact H1|split; [exact H2|exact H3]].
Defined.
