(* ===== verification/Ordering.v ===== *)
(** * Comparison functions, and sorted sets over them

    Rust's [Ord]: [cmp] as a function to [comparison], with the laws of a total
    order ([CompareLaws]); [then_with], the lexicographic comparison of sequences,
    and [BTreeSet]s and [BTreeMap]s as lists sorted by the comparison of their
    keys. *)

From stdpp Require Import prelude list.
From Stdlib Require Import ZArith Lia Sorted.

(** ** Total orders *)

Class CompareLaws {A} (cmp : A -> A -> comparison) : Prop :=
  { compare_eq : forall x y, cmp x y = Eq <-> x = y;
    compare_opp : forall x y, cmp y x = CompOpp (cmp x y);
    compare_trans : forall x y z, cmp x y = Lt -> cmp y z = Lt -> cmp x z = Lt }.

(** [Ordering::then_with]. *)
Definition then_with (c : comparison) (d : comparison) : comparison :=
  match c with Eq => d | _ => c end.

(** [Iterator::cmp]. *)
Section lex.
Context {A : Type} (cmp : A -> A -> comparison).

Fixpoint lex_compare (l k : list A) : comparison :=
  match l, k with
  | [], [] => Eq
  | [], _ => Lt
  | _, [] => Gt
  | x :: l, y :: k => then_with (cmp x y) (lex_compare l k)
  end.
End lex.

Section laws.
Context {A : Type} (cmp : A -> A -> comparison) `{!CompareLaws cmp}.
Implicit Types (x y z : A) (l k : list A).

Lemma compare_refl x : cmp x x = Eq.
Proof. by apply compare_eq. Qed.

Lemma compare_gt x y : cmp x y = Gt <-> cmp y x = Lt.
Proof. rewrite (compare_opp (cmp := cmp) x y). by destruct (cmp x y). Qed.

Lemma compare_lt_ne x y : cmp x y = Lt -> x <> y.
Proof. intros H ->. by rewrite compare_refl in H. Qed.
End laws.

#[export] Instance Z_compare_laws : CompareLaws Z.compare.
Proof.
  split.
  - apply Z.compare_eq_iff.
  - intros x y. apply Z.compare_antisym.
  - intros x y z. rewrite !Z.compare_lt_iff. apply Z.lt_trans.
Qed.

(** A comparison that looks at [f] and then at [d]. *)
Lemma then_with_eq c d : then_with c d = Eq <-> c = Eq /\ d = Eq.
Proof. by destruct c; cbn; naive_solver. Qed.
Lemma then_with_opp c d : then_with (CompOpp c) (CompOpp d) = CompOpp (then_with c d).
Proof. by destruct c. Qed.
Lemma then_with_lt c d : then_with c d = Lt <-> c = Lt \/ c = Eq /\ d = Lt.
Proof. by destruct c; cbn; naive_solver. Qed.

(** An injection carries an order back. *)
Lemma compare_inj {A B} (cmp : B -> B -> comparison) `{!CompareLaws cmp} (f : A -> B) :
  Inj (=) (=) f -> CompareLaws (fun x y => cmp (f x) (f y)).
Proof.
  intros Hf. split.
  - intros x y. rewrite compare_eq. split; [apply Hf|by intros ->].
  - intros x y. apply compare_opp.
  - intros x y z. apply compare_trans.
Qed.

(** The laws of a lexicographic comparison, from those of its elements. *)
Section lex_laws.
Context {A : Type} (cmp : A -> A -> comparison).
Implicit Types (l k m : list A).

Lemma lex_compare_eq l k :
  Forall (fun x => forall y, cmp x y = Eq <-> x = y) l -> lex_compare cmp l k = Eq <-> l = k.
Proof.
  intros Hl. revert k. induction Hl as [|x l Hx _ IH]; intros [|y k]; cbn; try done.
  rewrite then_with_eq, IH, Hx. naive_solver.
Qed.

Lemma lex_compare_opp l k :
  Forall (fun x => forall y, cmp y x = CompOpp (cmp x y)) l -> lex_compare cmp k l = CompOpp (lex_compare cmp l k).
Proof.
  intros Hl. revert k. induction Hl as [|x l Hx _ IH]; intros [|y k]; cbn; try done.
  by rewrite IH, Hx, then_with_opp.
Qed.

Lemma lex_compare_trans l k m :
  (forall x y, cmp x y = Eq <-> x = y) ->
  Forall (fun x => forall y z, cmp x y = Lt -> cmp y z = Lt -> cmp x z = Lt) l ->
  lex_compare cmp l k = Lt -> lex_compare cmp k m = Lt -> lex_compare cmp l m = Lt.
Proof.
  intros Heq Hl. revert k m. induction Hl as [|x l Hx _ IH]; intros [|y k] [|z m]; cbn; try done.
  rewrite !then_with_lt, !Heq. intros [H|[-> H2]] [H'|[-> H2']]; [|by left..|].
  - left. by apply (Hx y).
  - right. split; [done|by apply (IH k)].
Qed.

(** Comparing images. *)
Lemma lex_compare_fmap {B} (cmp' : B -> B -> comparison) (f : A -> B) l k :
  (forall x y, x ∈ l -> y ∈ k -> cmp x y = cmp' (f x) (f y)) ->
  lex_compare cmp l k = lex_compare cmp' (f <$> l) (f <$> k).
Proof.
  revert k. induction l as [|x l IH]; intros [|y k] H; cbn; try done.
  rewrite (H x y) by by left. f_equal. apply IH. intros; apply H; by right.
Qed.
End lex_laws.

#[export] Instance lex_compare_laws {A} (cmp : A -> A -> comparison) `{!CompareLaws cmp} :
  CompareLaws (lex_compare cmp).
Proof.
  split.
  - intros l k. apply lex_compare_eq, Forall_true. intros x y. apply compare_eq.
  - intros l k. apply lex_compare_opp, Forall_true. intros x y. apply compare_opp.
  - intros l k m. apply lex_compare_trans; [apply compare_eq|]. apply Forall_true. apply compare_trans.
Qed.

(** Pairs, compared by the first component and then the second. *)
Definition pair_compare {A B} (ca : A -> A -> comparison) (cb : B -> B -> comparison) (p q : A * B) : comparison :=
  then_with (ca p.1 q.1) (cb p.2 q.2).

#[export] Instance pair_compare_laws {A B} (ca : A -> A -> comparison) (cb : B -> B -> comparison)
  `{!CompareLaws ca} `{!CompareLaws cb} : CompareLaws (pair_compare ca cb).
Proof.
  unfold pair_compare. split.
  - intros [x u] [y v]. cbn. rewrite then_with_eq, !compare_eq. naive_solver.
  - intros [x u] [y v]. cbn. by rewrite (compare_opp (cmp := ca) x y), (compare_opp (cmp := cb) u v), then_with_opp.
  - intros [x u] [y v] [z w]. cbn. rewrite !then_with_lt. intros [H|[H1 H2]] [H'|[H1' H2']].
    + left. by apply (compare_trans x y z).
    + apply compare_eq in H1' as ->. by left.
    + apply compare_eq in H1 as ->. by left.
    + apply compare_eq in H1 as ->. right. split; [done|by apply (compare_trans u v w)].
Qed.

(** Sequences, compared by length and then lexicographically. *)
Definition shortlex_compare {A} (cmp : A -> A -> comparison) (l k : list A) : comparison :=
  then_with (Nat.compare (length l) (length k)) (lex_compare cmp l k).

#[export] Instance nat_compare_laws : CompareLaws Nat.compare.
Proof.
  split.
  - apply Nat.compare_eq_iff.
  - intros x y. apply Nat.compare_antisym.
  - intros x y z. rewrite !Nat.compare_lt_iff. apply Nat.lt_trans.
Qed.

#[export] Instance shortlex_compare_laws {A} (cmp : A -> A -> comparison) `{!CompareLaws cmp} :
  CompareLaws (shortlex_compare cmp).
Proof.
  exact (compare_inj (pair_compare Nat.compare (lex_compare cmp)) (fun l => (length l, l))
    ltac:(intros l k H; by injection H)).
Qed.

(** ** Sorted sets *)

Section sorted.
Context {A : Type} (cmp : A -> A -> comparison) `{!CompareLaws cmp}.
Implicit Types (x y z : A) (l k : list A).

(** [BTreeSet]: its elements in ascending order. *)
Definition sorted l : Prop := StronglySorted (fun x y => cmp x y = Lt) l.

(** [BTreeSet::insert]; an element that is there stays. *)
Fixpoint btree_insert (x : A) l : list A :=
  match l with
  | [] => [x]
  | y :: l' =>
      match cmp x y with
      | Lt => x :: l
      | Eq => l
      | Gt => y :: btree_insert x l'
      end
  end.

(** [BTreeSet::contains], [BTreeSet::remove]. *)
Fixpoint btree_contains (x : A) l : bool :=
  match l with
  | [] => false
  | y :: l => match cmp x y with Lt => false | Eq => true | Gt => btree_contains x l end
  end.

Fixpoint btree_remove (x : A) l : list A :=
  match l with
  | [] => []
  | y :: l' =>
      match cmp x y with
      | Lt => l
      | Eq => l'
      | Gt => y :: btree_remove x l'
      end
  end.

(** Collecting an iterator. *)
Definition btree_from l : list A := foldl (fun s x => btree_insert x s) [] l.

Lemma sorted_cons x l : sorted (x :: l) <-> (forall y, y ∈ l -> cmp x y = Lt) /\ sorted l.
Proof.
  unfold sorted. split.
  - intros [Hs Hf]%StronglySorted_inv. rewrite Forall_forall in Hf. done.
  - intros [Hf Hs]. constructor; [done|]. by apply Forall_forall.
Qed.

Lemma sorted_head_min x l y : sorted (x :: l) -> y ∈ x :: l -> cmp y x <> Lt.
Proof.
  intros [Hf _]%sorted_cons [->|Hy]%elem_of_cons; [by rewrite (compare_refl cmp)|].
  rewrite (compare_opp (cmp := cmp) x y). by rewrite (Hf y Hy).
Qed.

(** A sorted list is determined by its elements. *)
Lemma sorted_ext l k : sorted l -> sorted k -> (forall x, x ∈ l <-> x ∈ k) -> l = k.
Proof.
  revert k. induction l as [|x l IH]; intros [|y k] Hl Hk Hiff; [done| | |].
  - specialize (Hiff y). rewrite elem_of_nil in Hiff. destruct (proj2 Hiff). by left.
  - specialize (Hiff x). rewrite elem_of_nil in Hiff. destruct (proj1 Hiff). by left.
  - assert (x = y) as ->.
    { pose proof (sorted_head_min y k x Hk (proj1 (Hiff x) ltac:(by left))) as H1.
      pose proof (sorted_head_min x l y Hl (proj2 (Hiff y) ltac:(by left))) as H2.
      rewrite (compare_opp (cmp := cmp) x y) in H2. apply (compare_eq (cmp := cmp)). by destruct (cmp x y). }
    f_equal. apply sorted_cons in Hl as [Hfl Hl]. apply sorted_cons in Hk as [Hfk Hk].
    apply IH; [done..|]. intros z. split; intros Hz.
    + destruct (proj1 (elem_of_cons _ _ _) (proj1 (Hiff z) ltac:(by right))) as [->|?]; [|done].
      by destruct (compare_lt_ne cmp y y (Hfl y Hz)).
    + destruct (proj1 (elem_of_cons _ _ _) (proj2 (Hiff z) ltac:(by right))) as [->|?]; [|done].
      by destruct (compare_lt_ne cmp y y (Hfk y Hz)).
Qed.

Lemma btree_insert_elem x y l : y ∈ btree_insert x l <-> y = x \/ y ∈ l.
Proof.
  induction l as [|z l IH]; cbn; [rewrite elem_of_cons, elem_of_nil; tauto|].
  destruct (cmp x z) eqn:Hc; rewrite ?elem_of_cons, ?IH; [|tauto..].
  apply (compare_eq (cmp := cmp)) in Hc as ->. tauto.
Qed.

Lemma btree_insert_sorted x l : sorted l -> sorted (btree_insert x l).
Proof.
  induction l as [|z l IH]; intros Hs; cbn.
  - apply sorted_cons. split; [by intros ? ?%not_elem_of_nil|constructor].
  - destruct (cmp x z) eqn:Hc; [done| |].
    + pose proof Hs as [Hf _]%sorted_cons. apply sorted_cons. split; [|done].
      intros y [->|Hy]%elem_of_cons; [done|]. apply (compare_trans (cmp := cmp) x z y); [done|by apply Hf].
    + apply sorted_cons in Hs as [Hf Hs]. apply sorted_cons. split; [|by apply IH].
      intros y [->|Hy]%btree_insert_elem; [by apply compare_gt in Hc|by apply Hf].
Qed.

Lemma btree_contains_elem x l : sorted l -> btree_contains x l = true <-> x ∈ l.
Proof.
  induction l as [|z l IH]; intros Hs; cbn; [split; [done|by intros ?%not_elem_of_nil]|].
  destruct (cmp x z) eqn:Hc.
  - apply (compare_eq (cmp := cmp)) in Hc as ->. split; [by left|done].
  - split; [done|]. intros Hx. by destruct (sorted_head_min z l x Hs Hx).
  - apply sorted_cons in Hs as [Hf Hs]. rewrite IH by done. rewrite elem_of_cons. split; [by right|].
    intros [->|?]; [|done]. by rewrite (compare_refl cmp) in Hc.
Qed.

Lemma btree_remove_spec x l :
  sorted l -> sorted (btree_remove x l) /\ forall y, y ∈ btree_remove x l <-> y ∈ l /\ y <> x.
Proof.
  induction l as [|z l IH]; intros Hs; cbn; [split; [done|]; intros y; rewrite elem_of_nil; tauto|].
  pose proof Hs as [Hf Hs']%sorted_cons. destruct (cmp x z) eqn:Hc.
  - apply (compare_eq (cmp := cmp)) in Hc as ->. split; [done|]. intros y. rewrite elem_of_cons. split.
    + intros Hy. split; [by right|]. intros ->. by destruct (compare_lt_ne cmp z z (Hf z Hy)).
    + intros [[->|?] ?]; done.
  - split; [done|]. intros y. split; [|by intros [? _]]. intros Hy. split; [done|].
    intros ->. by destruct (sorted_head_min z l x Hs Hy).
  - destruct (IH Hs') as [Hs1 Hel]. split.
    + apply sorted_cons. split; [|done]. intros y [Hy _]%Hel. by apply Hf.
    + intros y. rewrite !elem_of_cons, Hel. split; [|tauto].
      intros [->|[? ?]]; [|tauto]. split; [by left|]. intros ->. by rewrite (compare_refl cmp) in Hc.
Qed.

Lemma btree_from_spec l : sorted (btree_from l) /\ forall x, x ∈ btree_from l <-> x ∈ l.
Proof.
  unfold btree_from.
  assert (forall s, sorted s -> sorted (foldl (fun s x => btree_insert x s) s l)
    /\ forall x, x ∈ foldl (fun s x => btree_insert x s) s l <-> x ∈ s \/ x ∈ l) as H.
  { induction l as [|y l IH]; intros s Hs; cbn; [split; [done|]; intros x; rewrite elem_of_nil; tauto|].
    destruct (IH (btree_insert y s)) as [H1 H2]; [by apply btree_insert_sorted|]. split; [done|].
    intros x. rewrite H2, btree_insert_elem, elem_of_cons. tauto. }
  destruct (H []) as [H1 H2]; [constructor|]. split; [done|]. intros x. rewrite H2, elem_of_nil. tauto.
Qed.

Lemma sorted_filter (P : A -> Prop) `{!forall x, Decision (P x)} l : sorted l -> sorted (filter P l).
Proof.
  induction l as [|x l IH]; intros Hs; [done|]. apply sorted_cons in Hs as [Hf Hs].
  rewrite filter_cons. case_decide; [|by apply IH]. apply sorted_cons. split; [|by apply IH].
  intros y [_ Hy]%list_elem_of_filter. by apply Hf.
Qed.

Lemma btree_from_sorted l : sorted l -> btree_from l = l.
Proof. intros Hs. destruct (btree_from_spec l) as [H1 H2]. by apply sorted_ext. Qed.
End sorted.

(** ** Sorted sets up to the order *)

Lemma btree_insert_subseteq {A} (cmp : A -> A -> comparison) (x : A) (l : list A) y : y ∈ btree_insert cmp x l -> y = x \/ y ∈ l.
Proof.
  induction l as [|z l IH]; cbn; [rewrite elem_of_cons, elem_of_nil; tauto|].
  destruct (cmp x z); rewrite ?elem_of_cons; tauto.
Qed.

(** Where [cmp] compares by the images under [f], the operations on lists are those
    on images. *)
Section image.
Context {A B : Type} (cmp : A -> A -> comparison) (cmp' : B -> B -> comparison) (f : A -> B).
Implicit Types (x y : A) (l : list A).

Lemma btree_insert_image x l :
  (forall y, y ∈ l -> cmp x y = cmp' (f x) (f y)) ->
  f <$> btree_insert cmp x l = btree_insert cmp' (f x) (f <$> l).
Proof.
  induction l as [|y l IH]; intros H; [done|]. cbn. rewrite (H y) by by left.
  destruct (cmp' (f x) (f y)); [done..|]. rewrite fmap_cons. f_equal. apply IH. intros; apply H; by right.
Qed.

Lemma btree_contains_image x l :
  (forall y, y ∈ l -> cmp x y = cmp' (f x) (f y)) ->
  btree_contains cmp x l = btree_contains cmp' (f x) (f <$> l).
Proof.
  induction l as [|y l IH]; intros H; [done|]. cbn. rewrite (H y) by by left.
  destruct (cmp' (f x) (f y)); [done..|]. apply IH. intros; apply H; by right.
Qed.

Lemma btree_remove_image x l :
  (forall y, y ∈ l -> cmp x y = cmp' (f x) (f y)) ->
  f <$> btree_remove cmp x l = btree_remove cmp' (f x) (f <$> l).
Proof.
  induction l as [|y l IH]; intros H; [done|]. cbn. rewrite (H y) by by left.
  destruct (cmp' (f x) (f y)); [done..|]. rewrite fmap_cons. f_equal. apply IH. intros; apply H; by right.
Qed.

Lemma btree_from_image l :
  (forall x y, x ∈ l -> y ∈ l -> cmp x y = cmp' (f x) (f y)) ->
  f <$> btree_from cmp l = btree_from cmp' (f <$> l) /\ (forall y, y ∈ btree_from cmp l -> y ∈ l).
Proof.
  unfold btree_from.
  assert (forall s (k : list A), (forall y, y ∈ s -> y ∈ k) -> (forall y, y ∈ l -> y ∈ k) ->
    (forall x y, x ∈ k -> y ∈ k -> cmp x y = cmp' (f x) (f y)) ->
    f <$> foldl (fun s x => btree_insert cmp x s) s l = foldl (fun s z => btree_insert cmp' z s) (f <$> s) (f <$> l)
    /\ (forall y, y ∈ foldl (fun s x => btree_insert cmp x s) s l -> y ∈ k)) as H.
  { induction l as [|x l IH]; intros s k Hs Hl H; [done|]. cbn.
    destruct (IH (btree_insert cmp x s) k) as [H1 H2]; [| |done|].
    - intros y [->|Hy]%btree_insert_subseteq; [apply Hl; by left|by apply Hs].
    - intros y Hy. apply Hl. by right.
    - split; [|done]. rewrite H1. f_equal. apply btree_insert_image. intros y Hy.
      apply H; [apply Hl; by left|by apply Hs]. }
  intros Hc. apply (H [] l); [by intros y ?%not_elem_of_nil|done|done].
Qed.
End image.
