(* ===== verification/SmallIntSet.v ===== *)
(** * Bitmap sets of integers

    transpiler/runtime/src/small_int_set.rs: a set of integers within 64 of each
    other, as a 64-bit bitmap over an offset.  Integers are [i128]s, whose
    arithmetic wraps.  [members] is the set a bitmap stands for; the theorems are
    about integers of [int_ok], which leave the offset's arithmetic room: with
    integers at both ends of [i128], [try_from_iter] overflows. *)

From stdpp Require Import prelude gmap sets list numbers fin_sets.
From Stdlib Require Import ZArith Lia.
From S2P Require Import Prelude.
From S2P Require Import Ordering.

#[local] Open Scope Z_scope.

(** ** 128-bit integers *)

Definition I128_HALF : Z := 2 ^ 127.
Definition is_i128 (n : Z) : Prop := - I128_HALF <= n < I128_HALF.
Definition i128_wrap (n : Z) : Z := (n + I128_HALF) mod (2 * I128_HALF) - I128_HALF.
Definition i128_sub (a b : Z) : Z := i128_wrap (a - b).
Definition i128_add (a b : Z) : Z := i128_wrap (a + b).

Lemma i128_wrap_exact n : is_i128 n -> i128_wrap n = n.
Proof. unfold is_i128, i128_wrap, I128_HALF. intros H. rewrite Z.mod_small by lia. lia. Qed.

(** ** The bits of a [u64] *)

(** Whether a bit is set, by position. *)
Definition bit_positions (bits : Z) : list Z := filter (fun i => Z.testbit bits i = true) (seqZ 0 64).

(** [u64::count_ones], [u64::trailing_zeros]. *)
Definition count_ones (bits : Z) : Z := seq_len (bit_positions bits).
Definition trailing_zeros (bits : Z) : Z := default 64 (head (bit_positions bits)).

(** [1u64 << rel as u32]: the shift's amount is taken modulo the width. *)
Definition u64_bit (rel : Z) : Z := Z.shiftl 1 (rel mod 2 ^ 32 mod 64).

(** [!mask]. *)
Definition u64_not (bits : Z) : Z := Z.lxor bits (U64_MODULUS - 1).

(** ** The set *)

Record SmallIntSet := MkSmallIntSet { bits : Z; offset : Z }.

#[export] Instance SmallIntSet_eq_dec : EqDecision SmallIntSet.
Proof. solve_decision. Defined.

Definition CAPACITY : Z := 64.

Module SmallInt.

Definition new (offset : Z) : SmallIntSet := MkSmallIntSet 0 offset.
Definition empty : SmallIntSet := new 0.

Definition insert_unchecked (s : SmallIntSet) (n : Z) : SmallIntSet :=
  MkSmallIntSet (Z.lor (bits s) (u64_bit (i128_sub n (offset s)))) (offset s).

Definition list_min (n : Z) (l : list Z) : Z := foldl Z.min n l.
Definition list_max (n : Z) (l : list Z) : Z := foldl Z.max n l.

Definition try_from_iter (values : list Z) : option SmallIntSet :=
  match values with
  | [] => Some empty
  | v :: rest =>
      let min := list_min v rest in
      let max := list_max v rest in
      if decide (i128_sub max min >= CAPACITY) then None
      else Some (foldl insert_unchecked (new min) values)
  end.

Definition len (s : SmallIntSet) : Z := count_ones (bits s).
Definition is_empty (s : SmallIntSet) : bool := bool_decide (bits s = 0).

Definition can_represent (s : SmallIntSet) (n : Z) : bool :=
  bool_decide (0 <= i128_sub n (offset s) < CAPACITY).

Definition contains (s : SmallIntSet) (n : Z) : bool :=
  let rel := i128_sub n (offset s) in
  if decide (rel < 0 \/ rel >= CAPACITY) then false
  else negb (bool_decide (Z.land (bits s) (u64_bit rel) = 0)).

(** The new set, and whether [n] was absent; [None] for the error. *)
Definition insert (s : SmallIntSet) (n : Z) : SmallIntSet * option bool :=
  let rel := i128_sub n (offset s) in
  if decide (rel < 0 \/ rel >= CAPACITY) then (s, None)
  else
    let mask := u64_bit rel in
    let was_absent := bool_decide (Z.land (bits s) mask = 0) in
    (MkSmallIntSet (Z.lor (bits s) mask) (offset s), Some was_absent).

Definition remove (s : SmallIntSet) (n : Z) : SmallIntSet * bool :=
  let rel := i128_sub n (offset s) in
  if decide (rel < 0 \/ rel >= CAPACITY) then (s, false)
  else
    let mask := u64_bit rel in
    let was_present := negb (bool_decide (Z.land (bits s) mask = 0)) in
    (MkSmallIntSet (Z.land (bits s) (u64_not mask)) (offset s), was_present).

(** [None] is the panic on different offsets. *)
Definition union (s other : SmallIntSet) : option SmallIntSet :=
  if decide (offset s = offset other) then Some (MkSmallIntSet (Z.lor (bits s) (bits other)) (offset s))
  else None.

Definition intersection (s other : SmallIntSet) : SmallIntSet :=
  if decide (offset s <> offset other) then empty
  else MkSmallIntSet (Z.land (bits s) (bits other)) (offset s).

Definition difference (s other : SmallIntSet) : SmallIntSet :=
  if decide (offset s <> offset other) then s
  else MkSmallIntSet (Z.land (bits s) (u64_not (bits other))) (offset s).

Definition is_subset (s other : SmallIntSet) : bool :=
  if decide (offset s <> offset other) then is_empty s
  else bool_decide (Z.land (bits s) (u64_not (bits other)) = 0).

(** [SmallIntSetIter], and what collecting it gives; [fuel] bounds the calls. *)
Definition iter_next (remaining offset : Z) : option (Z * Z) :=
  if decide (remaining = 0) then None
  else Some (i128_add offset (trailing_zeros remaining), Z.land remaining (remaining - 1)).

Fixpoint iter_collect (fuel : nat) (remaining offset : Z) : list Z :=
  match fuel with
  | O => []
  | S fuel =>
      match iter_next remaining offset with
      | None => []
      | Some (n, remaining) => n :: iter_collect fuel remaining offset
      end
  end.

Definition iter (s : SmallIntSet) : list Z := iter_collect 65 (bits s) (offset s).
Definition to_sorted_vec (s : SmallIntSet) : list Z := iter s.

(** [eq]. *)
Definition eqb (s other : SmallIntSet) : bool :=
  if decide (bits s = 0 /\ bits other = 0) then true
  else if decide (offset s = offset other) then bool_decide (bits s = bits other)
  else
    let diff := i128_sub (offset other) (offset s) in
    if decide (diff > 0 /\ diff < 64) then
      bool_decide (Z.shiftr (bits s) diff = bits other)
      && bool_decide (Z.land (bits s) (u64_bit diff - 1) = 0)
    else if decide (diff < 0 /\ diff > -64) then
      let d := i128_sub 0 diff in
      bool_decide (Z.shiftr (bits other) d = bits s)
      && bool_decide (Z.land (bits other) (u64_bit d - 1) = 0)
    else false.

(** [Ord::cmp]. *)
Definition compare (s other : SmallIntSet) : comparison :=
  then_with (Z.compare (len s) (len other)) (lex_compare Z.compare (iter s) (iter other)).

(** What [hash] feeds to the hasher. *)
Definition hash_input (s : SmallIntSet) : list Z := iter s.

End SmallInt.

(** ** The set that a bitmap stands for *)

Definition int_ok (n : Z) : Prop := - 2 ^ 126 <= n < 2 ^ 126.

Definition members (s : SmallIntSet) : list Z := (fun i => offset s + i) <$> bit_positions (bits s).

Definition set_ok (s : SmallIntSet) : Prop :=
  0 <= bits s < U64_MODULUS /\ int_ok (offset s) /\ Forall int_ok (members s).

Section bits.
Implicit Types (r i j k n : Z).

Lemma int_sub_exact n k : int_ok n -> int_ok k -> i128_sub n k = n - k.
Proof. unfold int_ok. intros Hn Hk. apply i128_wrap_exact. unfold is_i128, I128_HALF. lia. Qed.

Lemma elem_bit_positions r i : i ∈ bit_positions r <-> 0 <= i < 64 /\ Z.testbit r i = true.
Proof. unfold bit_positions. rewrite list_elem_of_filter, elem_of_seqZ. naive_solver lia. Qed.

Lemma u64_bit_shift k : 0 <= k < 64 -> u64_bit k = Z.shiftl 1 k.
Proof.
  intros Hk. unfold u64_bit. rewrite (Z.mod_small k (2 ^ 32)) by (split; [lia|]; change (2 ^ 32) with 4294967296; lia).
  by rewrite Z.mod_small by lia.
Qed.

Lemma testbit_bit k i : 0 <= k -> 0 <= i -> Z.testbit (Z.shiftl 1 k) i = bool_decide (i = k).
Proof.
  intros Hk Hi. rewrite Z.shiftl_1_l. case_bool_decide as H.
  - subst i. by apply Z.pow2_bits_true.
  - apply Z.pow2_bits_false. lia.
Qed.

Lemma land_bit_zero r k : 0 <= k -> Z.land r (Z.shiftl 1 k) = 0 <-> Z.testbit r k = false.
Proof.
  intros Hk. split.
  - intros H. assert (Z.testbit (Z.land r (Z.shiftl 1 k)) k = false) as Hb by (by rewrite H, Z.bits_0).
    rewrite Z.land_spec, testbit_bit, bool_decide_true in Hb by done. by rewrite andb_true_r in Hb.
  - intros H. apply Z.bits_inj'. intros i Hi. rewrite Z.land_spec, testbit_bit, Z.bits_0 by done.
    case_bool_decide as Hik; [by subst; rewrite H|apply andb_false_r].
Qed.

(** A [u64] has its bits below 64. *)
Lemma u64_testbit_high r i : 0 <= r < U64_MODULUS -> 64 <= i -> Z.testbit r i = false.
Proof.
  intros Hr Hi. apply Z.bits_above_log2; [lia|]. destruct (decide (r = 0)) as [->|]; [cbn; lia|].
  apply (Z.lt_le_trans _ 64); [|done]. apply Z.log2_lt_pow2; [lia|]. apply Hr.
Qed.

Lemma u64_of_bits r : 0 <= r -> (forall i, 64 <= i -> Z.testbit r i = false) -> 0 <= r < U64_MODULUS.
Proof.
  intros H0 H. split; [done|]. destruct (decide (r = 0)) as [->|]; [done|].
  change U64_MODULUS with (2 ^ 64). apply Z.log2_lt_pow2; [lia|].
  destruct (decide (Z.log2 r < 64)); [done|]. specialize (H (Z.log2 r) ltac:(lia)).
  rewrite Z.bit_log2 in H by lia. done.
Qed.

Lemma u64_bits_inj r k : 0 <= r < U64_MODULUS -> 0 <= k < U64_MODULUS ->
  (forall i, 0 <= i < 64 -> Z.testbit r i = Z.testbit k i) -> r = k.
Proof.
  intros Hr Hk H. apply Z.bits_inj'. intros i Hi. destruct (decide (i < 64)); [by apply H|].
  by rewrite !u64_testbit_high by lia.
Qed.

Lemma bit_positions_inj r k : 0 <= r < U64_MODULUS -> 0 <= k < U64_MODULUS ->
  bit_positions r = bit_positions k -> r = k.
Proof.
  intros Hr Hk H. apply u64_bits_inj; [done..|]. intros i Hi.
  assert (Z.testbit r i = true <-> Z.testbit k i = true) as Hiff.
  { transitivity (i ∈ bit_positions r); [rewrite elem_bit_positions; naive_solver|].
    rewrite H, elem_bit_positions. naive_solver. }
  destruct (Z.testbit r i), (Z.testbit k i); naive_solver.
Qed.

Lemma testbit_u64_not r i : 0 <= i < 64 -> Z.testbit (u64_not r) i = negb (Z.testbit r i).
Proof.
  intros Hi. unfold u64_not. rewrite Z.lxor_spec. change (U64_MODULUS - 1) with (Z.ones 64).
  rewrite Z.ones_spec_low by lia. by rewrite xorb_true_r.
Qed.

(** *** Iterating *)

(** Clearing the lowest set bit. *)
Lemma testbit_pred_above r t j :
  0 <= t < j -> Z.testbit r t = true -> Z.testbit (r - 1) j = Z.testbit r j.
Proof.
  intros Htj Ht. rewrite !Z.testbit_odd, !Z.shiftr_div_pow2 by lia. f_equal.
  assert (r mod 2 ^ j <> 0) as Hm.
  { intros H. assert (Z.testbit (r mod 2 ^ j) t = true) as Hb by (by rewrite Z.mod_pow2_bits_low by lia).
    by rewrite H, Z.bits_0 in Hb. }
  assert (0 < 2 ^ j) as Hj by (apply Z.pow_pos_nonneg; lia).
  pose proof (Z.mod_pos_bound r (2 ^ j) Hj). symmetry.
  apply (Z.div_unique_pos _ _ _ (r mod 2 ^ j - 1)); [lia|]. pose proof (Z.div_mod r (2 ^ j)). lia.
Qed.

Lemma testbit_pred_at r t :
  0 <= t -> Z.testbit r t = true -> (forall i, 0 <= i < t -> Z.testbit r i = false) -> Z.testbit (r - 1) t = false.
Proof.
  intros H0 Ht Hlow. assert (r mod 2 ^ t = 0) as Hm.
  { apply Z.bits_inj'. intros i Hi. rewrite Z.bits_0. destruct (decide (i < t)).
    - rewrite Z.mod_pow2_bits_low by lia. by apply Hlow.
    - by rewrite Z.mod_pow2_bits_high by lia. }
  assert (0 < 2 ^ t) as Hp by (apply Z.pow_pos_nonneg; lia).
  rewrite Z.testbit_odd, Z.shiftr_div_pow2 in * by lia.
  assert ((r - 1) / 2 ^ t = r / 2 ^ t - 1) as ->.
  { symmetry. apply (Z.div_unique_pos _ _ _ (2 ^ t - 1)); [lia|]. pose proof (Z.div_mod r (2 ^ t)). lia. }
  rewrite Z.odd_sub, Ht. done.
Qed.

Lemma clear_lowest r t j :
  0 <= t -> Z.testbit r t = true -> (forall i, 0 <= i < t -> Z.testbit r i = false) -> 0 <= j ->
  Z.testbit (Z.land r (r - 1)) j = (Z.testbit r j && negb (bool_decide (j = t))).
Proof.
  intros H0 Ht Hlow Hj. rewrite Z.land_spec. case_bool_decide as Hjt.
  - subst j. rewrite (testbit_pred_at r t) by done. by rewrite !andb_false_r.
  - cbn. destruct (decide (j < t)); [by rewrite Hlow by lia|].
    rewrite (testbit_pred_above r t j) by (lia || done). by rewrite andb_diag, andb_true_r.
Qed.
End bits.

Section iteration.
Implicit Types (r o p n : Z).

(** The positions from [p] on. *)
Definition bits_from (p r : Z) : list Z := filter (fun i => Z.testbit r i = true) (seqZ p (64 - p)).

Lemma bits_from_cons p r :
  0 <= p < 64 ->
  bits_from p r = (if Z.testbit r p then [p] else []) ++ bits_from (p + 1) r.
Proof.
  intros Hp. unfold bits_from. rewrite (seqZ_cons p) by lia. rewrite filter_cons.
  replace (Z.pred (64 - p)) with (64 - (p + 1)) by lia. rewrite <- Z.add_1_r.
  destruct (Z.testbit r p); [by rewrite decide_True|by rewrite decide_False].
Qed.

Lemma filter_ext_elem {A} (P Q : A -> Prop) `{!forall x, Decision (P x), !forall x, Decision (Q x)} (l : list A) :
  (forall x, x ∈ l -> P x <-> Q x) -> filter P l = filter Q l.
Proof.
  induction l as [|x l IH]; intros Hiff; [done|]. rewrite !filter_cons, IH by (intros; apply Hiff; by right).
  specialize (Hiff x ltac:(by left)). repeat case_decide; tauto.
Qed.

(** The lowest set bit is the first position. *)
Lemma bit_positions_from p r :
  0 <= p <= 64 -> (forall i, 0 <= i < p -> Z.testbit r i = false) -> bit_positions r = bits_from p r.
Proof.
  intros [H0 Hp]. revert Hp. refine (natlike_ind (fun p => p <= 64 -> (forall i, 0 <= i < p -> _) -> _) _ _ p H0);
    [by unfold bit_positions, bits_from|].
  clear p H0. intros p H0 IH Hp Hlow. rewrite IH by (try lia; intros; apply Hlow; lia).
  rewrite <- Z.add_1_r in *. rewrite bits_from_cons by lia. by rewrite Hlow by lia.
Qed.

Lemma iter_collect_from fuel o r p :
  0 <= p <= 64 -> 64 - p < Z.of_nat fuel -> 0 <= r < U64_MODULUS ->
  (forall i, 0 <= i < p -> Z.testbit r i = false) ->
  (forall i, i ∈ bits_from p r -> is_i128 (o + i)) ->
  SmallInt.iter_collect fuel r o = (fun i => o + i) <$> bits_from p r.
Proof.
  remember (Z.to_nat (64 - p)) as k eqn:Hk. revert fuel p r Hk.
  induction k as [|k IH]; intros fuel p r Hk Hp Hf Hr Hlow Hok.
  - assert (p = 64) as -> by lia. assert (r = 0) as ->.
    { apply (u64_bits_inj r 0); [done|done|]. intros i Hi. rewrite Z.bits_0. by apply Hlow. }
    destruct fuel; [lia|]. done.
  - assert (bits_from p r = (if Z.testbit r p then [p] else []) ++ bits_from (p + 1) r) as Hc
      by (apply bits_from_cons; lia).
    destruct (Z.testbit r p) eqn:Hb; cbn [app] in Hc; rewrite Hc in *.
    + destruct fuel as [|fuel]; [lia|]. cbn [SmallInt.iter_collect]. unfold SmallInt.iter_next.
      rewrite decide_False by (intros ->; by rewrite Z.bits_0 in Hb).
      unfold trailing_zeros. rewrite (bit_positions_from p r), Hc by done. cbn [head default].
      unfold i128_add. rewrite i128_wrap_exact by (apply Hok; by left). rewrite fmap_cons. f_equal.
      assert (bits_from (p + 1) (Z.land r (r - 1)) = bits_from (p + 1) r) as Hsame.
      { unfold bits_from. apply filter_ext_elem. intros i Hi%elem_of_seqZ.
        rewrite (clear_lowest r p i) by (done || lia). rewrite bool_decide_false by lia. by rewrite andb_true_r. }
      rewrite (IH fuel (p + 1)); rewrite ?Hsame; try done; try lia.
      * apply u64_of_bits; [apply Z.land_nonneg; lia|]. intros i Hi.
        rewrite (clear_lowest r p i) by (done || lia). by rewrite u64_testbit_high by lia.
      * intros i Hi. rewrite (clear_lowest r p i) by (done || lia).
        destruct (decide (i = p)) as [->|]; [by rewrite bool_decide_true, andb_false_r|]. by rewrite Hlow by lia.
      * intros i Hi. apply Hok. by right.
    + apply (IH fuel (p + 1)); try lia; try done. intros i Hi.
      destruct (decide (i = p)) as [->|]; [done|apply Hlow; lia].
Qed.
End iteration.

(** ** The operations on members *)

Section specs.
Implicit Types (s : SmallIntSet) (n i : Z) (l : list Z).

Lemma elem_members s n :
  n ∈ members s <-> 0 <= n - offset s < 64 /\ Z.testbit (bits s) (n - offset s) = true.
Proof.
  unfold members. rewrite list_elem_of_fmap. split.
  - intros (i & -> & [? ?]%elem_bit_positions). by replace (offset s + i - offset s) with i by lia.
  - intros H. exists (n - offset s). split; [lia|by apply elem_bit_positions].
Qed.

Lemma int_i128 n : int_ok n -> is_i128 n.
Proof. unfold int_ok, is_i128, I128_HALF. lia. Qed.

Lemma iter_members s : set_ok s -> SmallInt.iter s = members s.
Proof.
  intros (Hb & Ho & Hm). unfold SmallInt.iter, members. rewrite (bit_positions_from 0) by (lia || (intros; lia)).
  apply (iter_collect_from 65 _ _ 0); [lia|lia|done|intros; lia|].
  intros i Hi. apply int_i128. rewrite Forall_forall in Hm. apply Hm. unfold members.
  apply list_elem_of_fmap. exists i. split; [done|]. by rewrite (bit_positions_from 0) by (lia || (intros; lia)).
Qed.

Lemma len_members s : SmallInt.len s = seq_len (members s).
Proof. unfold SmallInt.len, count_ones, members, seq_len. by rewrite length_fmap. Qed.

Lemma is_empty_members s : set_ok s -> SmallInt.is_empty s = true <-> members s = [].
Proof.
  intros (Hb & _). unfold SmallInt.is_empty. rewrite bool_decide_eq_true. unfold members.
  split; [by intros ->|]. intros H%fmap_nil_inv. by apply (bit_positions_inj (bits s) 0).
Qed.

(** What an element's position is. *)
Lemma rel_exact s n : set_ok s -> int_ok n -> i128_sub n (offset s) = n - offset s.
Proof. intros (_ & Ho & _) Hn. by apply int_sub_exact. Qed.

Lemma contains_spec s n : set_ok s -> int_ok n -> SmallInt.contains s n = true <-> n ∈ members s.
Proof.
  intros Hs Hn. unfold SmallInt.contains. rewrite (rel_exact s n Hs Hn), elem_members. unfold CAPACITY.
  case_decide as H; [split; [done|lia]|]. rewrite u64_bit_shift by lia.
  rewrite negb_true_iff, bool_decide_eq_false, land_bit_zero by lia. split.
  - intros Hb. split; [lia|]. by destruct (Z.testbit _ _).
  - intros [_ ->]. done.
Qed.

(** The members of a bitmap with one bit set or cleared. *)
Lemma members_set s b n :
  set_ok s -> 0 <= b < 64 -> int_ok (offset s + b) ->
  let s' := MkSmallIntSet (Z.lor (bits s) (Z.shiftl 1 b)) (offset s) in
  set_ok s' /\ (n ∈ members s' <-> n ∈ members s \/ n = offset s + b).
Proof.
  intros (Hb & Ho & Hm) H0 Hn s'.
  assert (forall i, 0 <= i -> Z.testbit (bits s') i = Z.testbit (bits s) i || bool_decide (i = b)) as Ht
    by (intros i Hi; cbn; by rewrite Z.lor_spec, testbit_bit by lia).
  assert (forall n, n ∈ members s' <-> n ∈ members s \/ n = offset s + b) as Hel.
  { intros k. rewrite !elem_members. cbn [offset s']. split.
    - intros [Hk Hb']. rewrite Ht, orb_true_iff, bool_decide_eq_true in Hb' by lia. destruct Hb' as [?|?]; [by left|right; lia].
    - intros [[Hk Hb']| ->]; rewrite Ht by lia; [by rewrite Hb'|].
      replace (offset s + b - offset s) with b by lia. split; [done|]. by rewrite bool_decide_true, orb_true_r. }
  split; [|apply Hel]. split; [|split; [done|]].
  - apply u64_of_bits; [cbn; apply Z.lor_nonneg; split; [lia|rewrite Z.shiftl_1_l; by apply Z.pow_nonneg]|].
    intros i Hi. rewrite Ht by lia. rewrite u64_testbit_high by lia. by rewrite bool_decide_false by lia.
  - apply Forall_forall. intros k [Hk| ->]%Hel; [|done]. rewrite Forall_forall in Hm. by apply Hm.
Qed.

Lemma insert_spec s n s' r :
  set_ok s -> int_ok n -> SmallInt.insert s n = (s', r) ->
  set_ok s' /\ match r with
    | None => s' = s /\ (forall m, m ∈ members s -> ~ 0 <= n - m <= 63 - (m - offset s)) /\ ~ 0 <= n - offset s < 64
    | Some new => (new = true <-> n ∉ members s) /\ forall m, m ∈ members s' <-> m ∈ members s \/ m = n
    end.
Proof.
  intros Hs Hn. unfold SmallInt.insert. rewrite (rel_exact s n Hs Hn). unfold CAPACITY.
  case_decide as H; intros [= <- <-].
  - split; [done|]. split_and!; [done| |lia]. intros m [Hm _]%elem_members. lia.
  - rewrite u64_bit_shift by lia.
    destruct (members_set s (n - offset s) 0 Hs ltac:(lia)) as [Hok _].
    { by replace (offset s + (n - offset s)) with n by lia. }
    split; [done|]. split.
    + rewrite bool_decide_eq_true, land_bit_zero, elem_members by lia. destruct (Z.testbit _ _) eqn:E; naive_solver lia.
    + intros m. destruct (members_set s (n - offset s) m Hs ltac:(lia)) as [_ ->].
      { by replace (offset s + (n - offset s)) with n by lia. }
      by replace (offset s + (n - offset s)) with n by lia.
Qed.

Lemma remove_spec s n s' r :
  set_ok s -> int_ok n -> SmallInt.remove s n = (s', r) ->
  set_ok s' /\ (r = true <-> n ∈ members s) /\ forall m, m ∈ members s' <-> m ∈ members s /\ m <> n.
Proof.
  intros Hs Hn. unfold SmallInt.remove. rewrite (rel_exact s n Hs Hn). unfold CAPACITY. pose proof Hs as (Hb & Ho & Hm).
  case_decide as H; intros [= <- <-].
  - assert (n ∉ members s) as Hni by (rewrite elem_members; lia). naive_solver.
  - rewrite u64_bit_shift by lia.
    assert (forall m, m ∈ members (MkSmallIntSet (Z.land (bits s) (u64_not (Z.shiftl 1 (n - offset s)))) (offset s))
      <-> m ∈ members s /\ m <> n) as Hel.
    { intros m. rewrite !elem_members. cbn. split.
      - intros [Hr Hb']. rewrite Z.land_spec, testbit_u64_not, testbit_bit in Hb' by lia.
        apply andb_true_iff in Hb' as [? Hne]. rewrite negb_true_iff, bool_decide_eq_false in Hne.
        split; [done|]. intros ->. done.
      - intros [[Hr Hb'] Hne]. split; [done|]. rewrite Z.land_spec, testbit_u64_not, testbit_bit by lia.
        rewrite Hb'. by rewrite bool_decide_false by lia. }
    split; [split; [|split; [done|]]|split; [|done]].
    + apply u64_of_bits; [apply Z.land_nonneg; lia|]. intros i Hi. cbn. by rewrite Z.land_spec, u64_testbit_high by lia.
    + apply Forall_forall. intros m [Hm' _]%Hel. rewrite Forall_forall in Hm. by apply Hm.
    + rewrite negb_true_iff, bool_decide_eq_false, land_bit_zero, elem_members by lia.
      destruct (Z.testbit _ _) eqn:E; naive_solver lia.
Qed.

(** *** Building a set *)

Lemma list_min_spec n l : SmallInt.list_min n l ∈ n :: l /\ forall x, x ∈ n :: l -> SmallInt.list_min n l <= x.
Proof.
  unfold SmallInt.list_min. revert n. induction l as [|y l IH]; intros n; cbn.
  - split; [by left|]. by intros x ->%list_elem_of_singleton.
  - destruct (IH (Z.min n y)) as [Hin Hle]. split.
    + apply elem_of_cons in Hin as [->|?]; [|right; by right]. destruct (Z.min_spec n y) as [[_ ->]|[_ ->]]; [by left|right; by left].
    + intros x [->|[->|Hx]%elem_of_cons]%elem_of_cons.
      * specialize (Hle (Z.min n y) ltac:(by left)). lia.
      * specialize (Hle (Z.min n y) ltac:(by left)). lia.
      * apply Hle. by right.
Qed.

Lemma list_max_spec n l : SmallInt.list_max n l ∈ n :: l /\ forall x, x ∈ n :: l -> x <= SmallInt.list_max n l.
Proof.
  unfold SmallInt.list_max. revert n. induction l as [|y l IH]; intros n; cbn.
  - split; [by left|]. by intros x ->%list_elem_of_singleton.
  - destruct (IH (Z.max n y)) as [Hin Hle]. split.
    + apply elem_of_cons in Hin as [->|?]; [|right; by right]. destruct (Z.max_spec n y) as [[_ ->]|[_ ->]]; [right; by left|by left].
    + intros x [->|[->|Hx]%elem_of_cons]%elem_of_cons.
      * specialize (Hle (Z.max n y) ltac:(by left)). lia.
      * specialize (Hle (Z.max n y) ltac:(by left)). lia.
      * apply Hle. by right.
Qed.

Lemma new_ok o : int_ok o -> set_ok (SmallInt.new o) /\ members (SmallInt.new o) = [].
Proof.
  intros Ho. assert (members (SmallInt.new o) = []) as Hm by done. split; [|done].
  split; [done|split; [done|]]. by rewrite Hm.
Qed.

Lemma insert_all_members s l :
  set_ok s -> Forall int_ok l -> (forall x, x ∈ l -> 0 <= x - offset s < 64) ->
  let s' := foldl SmallInt.insert_unchecked s l in
  set_ok s' /\ forall n, n ∈ members s' <-> n ∈ members s \/ n ∈ l.
Proof.
  revert s. induction l as [|x l IH]; intros s Hs Hl Hr.
  { split; [done|]. intros n. rewrite elem_of_nil. tauto. }
  apply Forall_cons in Hl as [Hx Hl]. pose proof (Hr x ltac:(by left)) as Hxr. cbn.
  unfold SmallInt.insert_unchecked at 2 4. rewrite (rel_exact s x Hs Hx), u64_bit_shift by lia.
  destruct (members_set s (x - offset s) 0 Hs Hxr) as [Hok _].
  { by replace (offset s + (x - offset s)) with x by lia. }
  destruct (IH _ Hok Hl) as [Hok' Hel]; [intros y Hy; apply Hr; by right|]. split; [done|].
  intros n. rewrite Hel, elem_of_cons. destruct (members_set s (x - offset s) n Hs Hxr) as [_ ->].
  { by replace (offset s + (x - offset s)) with x by lia. }
  replace (offset s + (x - offset s)) with x by lia. tauto.
Qed.

(** A set is built exactly when the integers are within 64 of each other. *)
Lemma try_from_iter_spec l :
  Forall int_ok l ->
  match SmallInt.try_from_iter l with
  | Some s => set_ok s /\ forall n, n ∈ members s <-> n ∈ l
  | None => exists x y, x ∈ l /\ y ∈ l /\ y - x >= 64
  end.
Proof.
  intros Hl. destruct l as [|v l].
  { destruct (new_ok 0) as [H Hm]; [unfold int_ok; lia|]. split; [done|]. intros n. by rewrite <- Hm. }
  unfold SmallInt.try_from_iter. rewrite Forall_forall in Hl.
  destruct (list_min_spec v l) as [Hmin Hmin']. destruct (list_max_spec v l) as [Hmax Hmax'].
  rewrite int_sub_exact by by apply Hl. unfold CAPACITY. case_decide as H; [by exists (SmallInt.list_min v l), (SmallInt.list_max v l)|].
  destruct (new_ok (SmallInt.list_min v l)) as [Hn Hm0]; [by apply Hl|].
  destruct (insert_all_members (SmallInt.new (SmallInt.list_min v l)) (v :: l) Hn) as [Hok Hel].
  - by apply Forall_forall.
  - intros x Hx. cbn. specialize (Hmin' x Hx). specialize (Hmax' x Hx). lia.
  - split; [done|]. intros n. rewrite Hel, Hm0, elem_of_nil. tauto.
Qed.
End specs.

(** ** Equality and order *)

Section order.
Implicit Types (s t : SmallIntSet) (n i : Z).

Lemma bit_positions_sorted r : sorted Z.compare (bit_positions r).
Proof.
  apply (sorted_filter Z.compare). change (seqZ 0 64) with (seqZ 0 (Z.of_nat 64)). generalize 0. generalize 64%nat.
  induction n as [|n IH]; intros z; [constructor|]. rewrite seqZ_cons by lia.
  replace (Z.pred (Z.of_nat (S n))) with (Z.of_nat n) by lia. apply (sorted_cons Z.compare). split; [|apply IH].
  intros y Hy%elem_of_seqZ. apply Z.compare_lt_iff. lia.
Qed.

Lemma members_sorted s : sorted Z.compare (members s).
Proof.
  unfold members. pose proof (bit_positions_sorted (bits s)) as Hs. induction Hs as [|x l _ IH Hf]; [constructor|].
  cbn. apply (sorted_cons Z.compare). split; [|done]. intros y (i & -> & Hi)%list_elem_of_fmap.
  rewrite Forall_forall in Hf. specialize (Hf i Hi). rewrite Z.compare_lt_iff in *. lia.
Qed.

Lemma members_ext s t : (forall n, n ∈ members s <-> n ∈ members t) -> members s = members t.
Proof. apply (sorted_ext Z.compare); apply members_sorted. Qed.

(** Two bitmaps at a distance [d] agree when one is the other shifted. *)
Lemma shifted_members s t d :
  set_ok s -> set_ok t -> offset t - offset s = d -> 0 < d < 64 ->
  Z.shiftr (bits s) d = bits t /\ Z.land (bits s) (Z.shiftl 1 d - 1) = 0 <-> members s = members t.
Proof.
  intros Hs Ht Hd Hr. pose proof Hs as (Hbs & _). pose proof Ht as (Hbt & _).
  rewrite Z.shiftl_1_l.
  assert (2 ^ d - 1 = Z.ones d) as -> by (rewrite Z.ones_equiv; lia).
  split.
  - intros [Hsh Hlow]. apply members_ext. intros n. rewrite !elem_members, <- Hsh.
    assert (forall i, 0 <= i < d -> Z.testbit (bits s) i = false) as Hl.
    { intros i Hi. assert (Z.testbit (Z.land (bits s) (Z.ones d)) i = false) as H by (by rewrite Hlow, Z.bits_0).
      rewrite Z.land_spec, Z.ones_spec_low in H by lia. by rewrite andb_true_r in H. }
    split.
    + intros [Hn Hb]. destruct (decide (n - offset s < d)); [rewrite Hl in Hb by lia; done|].
      rewrite Z.shiftr_spec by lia. replace (n - offset t + d) with (n - offset s) by lia. split; [lia|done].
    + intros [Hn Hb]. rewrite Z.shiftr_spec in Hb by lia. replace (n - offset t + d) with (n - offset s) in Hb by lia.
      split; [|done]. split; [lia|]. destruct (decide (n - offset s < 64)); [done|].
      by rewrite u64_testbit_high in Hb by lia.
  - intros Heq. assert (forall n, n ∈ members s <-> n ∈ members t) as Hel by (by rewrite Heq). split.
    + apply (u64_bits_inj); [|done|].
      { apply u64_of_bits; [apply Z.shiftr_nonneg; lia|]. intros i Hi. rewrite Z.shiftr_spec by lia.
        by rewrite u64_testbit_high by lia. }
      intros i Hi. rewrite Z.shiftr_spec by lia. specialize (Hel (offset t + i)). rewrite !elem_members in Hel.
      replace (offset t + i - offset t) with i in Hel by lia.
      replace (offset t + i - offset s) with (i + d) in Hel by lia.
      destruct (decide (i + d < 64)).
      * destruct (Z.testbit (bits s) (i + d)), (Z.testbit (bits t) i); naive_solver lia.
      * rewrite (u64_testbit_high (bits s)) by lia. destruct (Z.testbit (bits t) i); naive_solver lia.
    + apply Z.bits_inj'. intros i Hi. rewrite Z.land_spec, Z.bits_0. destruct (decide (i < d)).
      * specialize (Hel (offset s + i)). rewrite !elem_members in Hel.
        replace (offset s + i - offset s) with i in Hel by lia.
        destruct (Z.testbit (bits s) i); [|done]. naive_solver lia.
      * rewrite Z.ones_spec_high by lia. apply andb_false_r.
Qed.

(** Equality is that of the sets, whatever the offsets. *)
Lemma eqb_members s t : set_ok s -> set_ok t -> SmallInt.eqb s t = true <-> members s = members t.
Proof.
  intros Hs Ht. pose proof Hs as (Hbs & Hos & _). pose proof Ht as (Hbt & Hot & _).
  assert (forall u, set_ok u -> bits u = 0 <-> members u = []) as Hz.
  { intros u Hu. rewrite <- is_empty_members by done. unfold SmallInt.is_empty. by rewrite bool_decide_eq_true. }
  unfold SmallInt.eqb. case_decide as H0.
  { destruct H0 as [->%Hz ->%Hz]; done. }
  case_decide as Ho.
  { rewrite bool_decide_eq_true. unfold members. rewrite Ho. split; [by intros ->|].
    intros Heq. apply bit_positions_inj; [done..|].
    revert Heq. apply list_fmap_eq_inj. intros ???. lia. }
  rewrite (int_sub_exact (offset t) (offset s)) by done. case_decide as Hd.
  { rewrite andb_true_iff, !bool_decide_eq_true, u64_bit_shift by lia. apply shifted_members; lia || done. }
  case_decide as Hd'.
  { assert (i128_sub 0 (offset t - offset s) = offset s - offset t) as ->.
    { unfold i128_sub. rewrite i128_wrap_exact; [lia|]. unfold is_i128, I128_HALF. lia. }
    rewrite andb_true_iff, !bool_decide_eq_true, u64_bit_shift by lia.
    rewrite (shifted_members t s) by (lia || done). split; intros ?; by symmetry. }
  split; [done|]. intros Heq. exfalso.
  assert (forall n, n ∈ members s -> False) as Hno.
  { intros n Hn. pose proof Hn as Hn'. rewrite Heq in Hn'. apply elem_members in Hn, Hn'. lia. }
  assert (members s = []) as He by (destruct (members s) as [|n l]; [done|destruct (Hno n); by left]).
  destruct H0. split; apply Hz; [done..|]. by rewrite <- Heq.
Qed.

Lemma compare_members s t :
  set_ok s -> set_ok t -> SmallInt.compare s t = shortlex_compare Z.compare (members s) (members t).
Proof.
  intros Hs Ht. unfold SmallInt.compare, shortlex_compare. rewrite !len_members, !iter_members by done.
  unfold seq_len. by rewrite Nat2Z.inj_compare.
Qed.
End order.

(** ** The operations on whole bitmaps, at one offset *)

Section whole.
Implicit Types (s t : SmallIntSet) (n i : Z).


Lemma same_offset_ok s t b :
  set_ok s -> set_ok t -> offset s = offset t -> 0 <= b ->
  (forall i, 0 <= i -> Z.testbit b i = true -> Z.testbit (bits s) i = true \/ Z.testbit (bits t) i = true) ->
  set_ok (MkSmallIntSet b (offset s)).
Proof.
  intros Hs Ht Ho Hb0 Hb. pose proof Hs as (Hbs & Hos & Hms). pose proof Ht as (Hbt & _ & Hmt).
  split; [|split; [done|]].
  - apply u64_of_bits; [done|]. intros i Hi. destruct (Z.testbit b i) eqn:E; [|done].
    destruct (Hb i ltac:(lia) E) as [H|H]; by rewrite u64_testbit_high in H by lia.
  - apply Forall_forall. intros n [Hn Hbn]%elem_members. cbn in *. rewrite Forall_forall in Hms, Hmt.
    destruct (Hb (n - offset s) ltac:(lia) Hbn).
    + apply Hms, elem_members. done.
    + apply Hmt, elem_members. by rewrite <- Ho.
Qed.

Lemma whole_ops_spec s t :
  set_ok s -> set_ok t -> offset s = offset t ->
  (exists u, SmallInt.union s t = Some u /\ set_ok u /\ forall n, n ∈ members u <-> n ∈ members s \/ n ∈ members t)
  /\ set_ok (SmallInt.intersection s t)
  /\ (forall n, n ∈ members (SmallInt.intersection s t) <-> n ∈ members s /\ n ∈ members t)
  /\ set_ok (SmallInt.difference s t)
  /\ (forall n, n ∈ members (SmallInt.difference s t) <-> n ∈ members s /\ n ∉ members t)
  /\ (SmallInt.is_subset s t = true <-> forall n, n ∈ members s -> n ∈ members t).
Proof.
  intros Hs Ht Ho. pose proof Hs as (Hbs & _). pose proof Ht as (Hbt & _).
  unfold SmallInt.union, SmallInt.intersection, SmallInt.difference, SmallInt.is_subset.
  rewrite decide_True by done. rewrite !decide_False by by intros [].
  assert (forall i, 0 <= i -> Z.testbit (Z.land (bits s) (u64_not (bits t))) i
    = Z.testbit (bits s) i && negb (Z.testbit (bits t) i)) as Hd.
  { intros i Hi. rewrite Z.land_spec. destruct (decide (i < 64)); [by rewrite testbit_u64_not by lia|].
    by rewrite (u64_testbit_high (bits s)) by lia. }
  split; [|split; [|split; [|split; [|split]]]].
  - eexists. split; [done|split].
    + apply (same_offset_ok s t); [done..|apply Z.lor_nonneg; lia|]. intros i _. rewrite Z.lor_spec. by destruct (Z.testbit (bits s) i); [left|right].
    + intros n. rewrite !elem_members. cbn. rewrite Z.lor_spec, orb_true_iff, <- Ho. naive_solver.
  - apply (same_offset_ok s t); [done..|apply Z.land_nonneg; lia|]. intros i _. rewrite Z.land_spec, andb_true_iff. by intros [? _]; left.
  - intros n. rewrite !elem_members. cbn. rewrite Z.land_spec, andb_true_iff, <- Ho. naive_solver.
  - apply (same_offset_ok s t); [done..|apply Z.land_nonneg; lia|]. intros i Hi. rewrite Hd, andb_true_iff by done. by intros [? _]; left.
  - intros n. rewrite !elem_members, <- Ho. cbn. split.
    + intros [Hn Hb]. rewrite Hd, andb_true_iff, negb_true_iff in Hb by lia. destruct Hb as [? Hb].
      split; [done|]. intros [_ Hb']. congruence.
    + intros [[Hn Hb] Hno]. split; [done|]. rewrite Hd, Hb by lia. destruct (Z.testbit (bits t) (n - offset s)); [|done].
      by destruct Hno.
  - rewrite bool_decide_eq_true. split.
    + intros Hz n [Hn Hb]%elem_members. apply elem_members. rewrite <- Ho. split; [done|].
      assert (Z.testbit (Z.land (bits s) (u64_not (bits t))) (n - offset s) = false) as H by (by rewrite Hz, Z.bits_0).
      rewrite Hd, Hb in H by lia. by destruct (Z.testbit (bits t) _).
    + intros Hsub. apply Z.bits_inj'. intros i Hi. rewrite Hd, Z.bits_0 by done.
      destruct (Z.testbit (bits s) i) eqn:Hb; [|done].
      assert (i < 64) as Hi' by (destruct (decide (i < 64)); [done|by rewrite u64_testbit_high in Hb by lia]).
      assert (offset s + i ∈ members s) as Hin
        by (apply elem_members; replace (offset s + i - offset s) with i by lia; split; [lia|done]).
      apply Hsub, elem_members in Hin as [_ Hin]. rewrite <- Ho in Hin.
      replace (offset s + i - offset s) with i in Hin by lia. by rewrite Hin.
Qed.
End whole.
