(* ===== verification/RuntimeValue.v ===== *)
(** * The model checker's values

    transpiler/runtime/src/{value,symbol}.rs: the values that states consist of,
    with sets in two representations, a sorted set or a bitmap, whose operations,
    equality, order, hash and keys agree.  A string is the sequence of its bytes.
    [tree] is what a value denotes: values that are equal have the same tree. *)

From stdpp Require Import prelude gmap sets list numbers fin_sets pretty strings.
From Stdlib Require Import ZArith Lia.
From S2P Require Import Prelude.
From S2P Require Import Ordering.
From S2P Require Import SmallIntSet.

#[local] Open Scope Z_scope.

(** ** Strings *)

Abbreviation Str := (list Z).

(** The bytes of a literal. *)
Definition str (s : string) : Str :=
  (fun a => Z.of_N (Ascii.N_of_ascii a)) <$> String.list_ascii_of_string s.

Definition str_compare : Str -> Str -> comparison := lex_compare Z.compare.

(** [format!("{n}")]. *)
Definition show_int (n : Z) : Str := str (pretty n).

(** [items.join(",")]. *)
Fixpoint join (sep : Str) (items : list Str) : Str :=
  match items with
  | [] => []
  | [item] => item
  | item :: items => item ++ sep ++ join sep items
  end.

(** [format!("{v:?}")]: quoted, with the quote, the backslash and control characters
    escaped.  This is the rendering of ASCII; of the other characters, which are
    left as they are here, Rust escapes those that are not printable. *)
Definition hex_digit (d : Z) : Z := if decide (d < 10) then 48 + d else 87 + d.
Definition show_hex (c : Z) : Str :=
  if decide (c < 16) then [hex_digit c] else [hex_digit (c / 16); hex_digit (c mod 16)].

Definition escape_char (c : Z) : Str :=
  if decide (c = 34) then [92; 34]
  else if decide (c = 92) then [92; 92]
  else if decide (c = 10) then str "\n"
  else if decide (c = 13) then str "\r"
  else if decide (c = 9) then str "\t"
  else if decide (c = 0) then str "\0"
  else if decide (c < 32 \/ c = 127) then str "\u{" ++ show_hex c ++ str "}"
  else [c].

Definition debug_str (s : Str) : Str := [34] ++ concat (escape_char <$> s) ++ [34].

(** ** Field names (symbol.rs) *)

Abbreviation Symbol := Z (only parsing).

(** The interner: handles in the order of their strings. *)
Record Interner := MkInterner { str_to_id : gmap Str Z; strings : list Str }.

Definition interner_new : Interner := MkInterner ∅ [].

Definition intern (s : Str) (i : Interner) : Interner * Symbol :=
  match str_to_id i !! s with
  | Some id => (i, id)
  | None =>
      let id := seq_len (strings i) mod 2 ^ 32 in
      (MkInterner (<[s := id]> (str_to_id i)) (strings i ++ [s]), id)
  end.

(** [resolve]; [None] where indexing panics. *)
Definition resolve (i : Interner) (sym : Symbol) : option Str := seq_get (strings i) sym.

(** ** Values (value.rs) *)

Inductive SetRepr (V : Type) :=
  | General (elements : list V)
  | SmallIntRepr (s : SmallIntSet).
Arguments General {V} _.
Arguments SmallIntRepr {V} _.

(** [NamedFields], [BTreeMap] and [BTreeSet] are sorted lists; the memoized
    fingerprint, which comparisons ignore, is left out. *)
Inductive RuntimeValue :=
  | VUnit
  | VBool (b : bool)
  | VInt (n : Z)
  | VNat (n : Z)
  | VString (s : Str)
  | VEnum (ty variant : Str) (fields : list (Symbol * RuntimeValue))
  | VTuple (items : list RuntimeValue)
  | VStruct (ty : Str) (fields : list (Symbol * RuntimeValue))
  | VSeq (items : list RuntimeValue)
  | VSet (repr : SetRepr RuntimeValue)
  | VMap (entries : list (RuntimeValue * RuntimeValue)).

(** The order of the variants. *)
Definition discriminant (v : RuntimeValue) : Z :=
  match v with
  | VUnit => 0 | VBool _ => 1 | VInt _ => 2 | VNat _ => 3 | VString _ => 4 | VEnum _ _ _ => 5
  | VTuple _ => 6 | VStruct _ _ => 7 | VSeq _ => 8 | VSet _ => 9 | VMap _ => 10
  end.

Definition bool_compare (a b : bool) : comparison :=
  match a, b with false, true => Lt | true, false => Gt | _, _ => Eq end.

(** [SetRepr::iter], [SetRepr::len]. *)
Definition set_iter (r : SetRepr RuntimeValue) : list RuntimeValue :=
  match r with General l => l | SmallIntRepr s => VInt <$> SmallInt.iter s end.
Definition set_len (r : SetRepr RuntimeValue) : Z :=
  match r with General l => seq_len l | SmallIntRepr s => SmallInt.len s end.

(** Comparing an [Int] with a value. *)
Definition int_compare (n : Z) (v : RuntimeValue) : comparison :=
  match v with VInt m => Z.compare n m | _ => Z.compare 2 (discriminant v) end.

(** The elements of a bitmap, and those of another set, as by [Iterator::cmp]. *)
Fixpoint int_list_compare (ns : list Z) (vs : list RuntimeValue) : comparison :=
  match ns, vs with
  | [], [] => Eq
  | [], _ => Lt
  | _, [] => Gt
  | n :: ns, v :: vs => then_with (int_compare n v) (int_list_compare ns vs)
  end.

(** [Ord::cmp], derived but for sets. *)
Fixpoint value_compare (a b : RuntimeValue) {struct a} : comparison :=
  match a, b with
  | VBool x, VBool y => bool_compare x y
  | VInt x, VInt y => Z.compare x y
  | VNat x, VNat y => Z.compare x y
  | VString x, VString y => str_compare x y
  | VEnum ty variant fields, VEnum ty' variant' fields' =>
      then_with (str_compare ty ty')
        (then_with (str_compare variant variant')
          (lex_compare (fun p q => then_with (Z.compare p.1 q.1) (value_compare p.2 q.2)) fields fields'))
  | VTuple l, VTuple k => lex_compare value_compare l k
  | VStruct ty fields, VStruct ty' fields' =>
      then_with (str_compare ty ty')
        (lex_compare (fun p q => then_with (Z.compare p.1 q.1) (value_compare p.2 q.2)) fields fields')
  | VSeq l, VSeq k => lex_compare value_compare l k
  | VSet r, VSet r' =>
      match r, r' with
      | SmallIntRepr s, SmallIntRepr s' => SmallInt.compare s s'
      | General l, _ => then_with (Z.compare (seq_len l) (set_len r')) (lex_compare value_compare l (set_iter r'))
      | SmallIntRepr s, General l =>
          then_with (Z.compare (SmallInt.len s) (seq_len l)) (int_list_compare (SmallInt.iter s) l)
      end
  | VMap m, VMap m' =>
      lex_compare (fun p q => then_with (value_compare p.1 q.1) (value_compare p.2 q.2)) m m'
  | _, _ => Z.compare (discriminant a) (discriminant b)
  end.

(** [Iterator::eq]. *)
Section list_eqb.
Context {A B : Type} (eqb : A -> B -> bool).

Fixpoint list_eqb (l : list A) (k : list B) : bool :=
  match l, k with
  | [], [] => true
  | x :: l, y :: k => eqb x y && list_eqb l k
  | _, _ => false
  end.
End list_eqb.

Definition int_eqb (n : Z) (v : RuntimeValue) : bool :=
  match v with VInt m => bool_decide (n = m) | _ => false end.

(** [PartialEq::eq], derived but for sets. *)
Fixpoint value_eqb (a b : RuntimeValue) {struct a} : bool :=
  match a, b with
  | VUnit, VUnit => true
  | VBool x, VBool y => bool_decide (x = y)
  | VInt x, VInt y => bool_decide (x = y)
  | VNat x, VNat y => bool_decide (x = y)
  | VString x, VString y => bool_decide (x = y)
  | VEnum ty variant fields, VEnum ty' variant' fields' =>
      bool_decide (ty = ty') && bool_decide (variant = variant')
      && list_eqb (fun p q => bool_decide (p.1 = q.1) && value_eqb p.2 q.2) fields fields'
  | VTuple l, VTuple k => list_eqb value_eqb l k
  | VStruct ty fields, VStruct ty' fields' =>
      bool_decide (ty = ty')
      && list_eqb (fun p q => bool_decide (p.1 = q.1) && value_eqb p.2 q.2) fields fields'
  | VSeq l, VSeq k => list_eqb value_eqb l k
  | VSet r, VSet r' =>
      match r, r' with
      | SmallIntRepr s, SmallIntRepr s' => SmallInt.eqb s s'
      | General l, _ => bool_decide (seq_len l = set_len r') && list_eqb value_eqb l (set_iter r')
      | SmallIntRepr s, General l =>
          bool_decide (SmallInt.len s = seq_len l) && list_eqb int_eqb (SmallInt.iter s) l
      end
  | VMap m, VMap m' => list_eqb (fun p q => value_eqb p.1 q.1 && value_eqb p.2 q.2) m m'
  | _, _ => false
  end.

(** *** Named fields *)

Abbreviation NamedFields := (list (Symbol * RuntimeValue)).

(** The entries before the first whose key is not below [key], and the rest
    ([partition_point]). *)
Fixpoint fields_split (key : Symbol) (fields : NamedFields) : NamedFields * NamedFields :=
  match fields with
  | [] => ([], [])
  | p :: fields' =>
      if decide (p.1 < key) then let '(l, r) := fields_split key fields' in (p :: l, r) else ([], fields)
  end.

Definition fields_get (fields : NamedFields) (key : Symbol) : option RuntimeValue :=
  match (fields_split key fields).2 with
  | p :: _ => if decide (p.1 = key) then Some p.2 else None
  | [] => None
  end.

(** The new fields, and the value replaced. *)
Definition fields_insert (fields : NamedFields) (key : Symbol) (value : RuntimeValue)
  : NamedFields * option RuntimeValue :=
  let '(l, r) := fields_split key fields in
  match r with
  | p :: r' => if decide (p.1 = key) then (l ++ (key, value) :: r', Some p.2) else (l ++ (key, value) :: r, None)
  | [] => (l ++ [(key, value)], None)
  end.

(** [collect_named_fields]; [None] for the error on a duplicate field. *)
Fixpoint collect_named_fields (i : Interner) (out : NamedFields) (fields : list (Str * RuntimeValue))
  : Interner * option NamedFields :=
  match fields with
  | [] => (i, Some out)
  | (name, value) :: fields =>
      let '(i, sym) := intern name i in
      match fields_insert out sym value with
      | (_, Some _) => (i, None)
      | (out, None) => collect_named_fields i out fields
      end
  end.

(** [field_sym], [element_at]. *)
Definition field_sym (v : RuntimeValue) (sym : Symbol) : option RuntimeValue :=
  match v with VStruct _ fields | VEnum _ _ fields => fields_get fields sym | _ => None end.
Definition element_at (v : RuntimeValue) (index : Z) : option RuntimeValue :=
  match v with VTuple items | VSeq items => seq_get items index | _ => None end.

(** *** Sets *)

Definition set_new : SetRepr RuntimeValue := General [].

(** Whether all values are [Int]s, and which. *)
Fixpoint all_ints (values : list RuntimeValue) : option (list Z) :=
  match values with
  | [] => Some []
  | VInt n :: values => ns ← all_ints values; Some (n :: ns)
  | _ => None
  end.

Definition set_from_values (values : list RuntimeValue) : SetRepr RuntimeValue :=
  match (ints ← all_ints values; SmallInt.try_from_iter ints) with
  | Some small => SmallIntRepr small
  | None => General (btree_from value_compare values)
  end.

Definition set_contains (r : SetRepr RuntimeValue) (value : RuntimeValue) : bool :=
  match r, value with
  | SmallIntRepr s, VInt n => SmallInt.contains s n
  | SmallIntRepr _, _ => false
  | General l, _ => btree_contains value_compare value l
  end.

(** [BTreeSet::insert] says whether the element is new. *)
Definition general_insert (l : list RuntimeValue) (value : RuntimeValue) : SetRepr RuntimeValue * bool :=
  (General (btree_insert value_compare value l), negb (btree_contains value_compare value l)).

Definition set_insert (r : SetRepr RuntimeValue) (value : RuntimeValue) : SetRepr RuntimeValue * bool :=
  match r with
  | SmallIntRepr s =>
      let general := btree_from value_compare (VInt <$> SmallInt.iter s) in
      match value with
      | VInt n =>
          match SmallInt.insert s n with
          | (s, Some was_new) => (SmallIntRepr s, was_new)
          | (_, None) => general_insert general value
          end
      | _ => general_insert general value
      end
  | General l => general_insert l value
  end.

Definition set_remove (r : SetRepr RuntimeValue) (value : RuntimeValue) : SetRepr RuntimeValue * bool :=
  match r, value with
  | SmallIntRepr s, VInt n => let '(s, was) := SmallInt.remove s n in (SmallIntRepr s, was)
  | SmallIntRepr _, _ => (r, false)
  | General l, _ => (General (btree_remove value_compare value l), btree_contains value_compare value l)
  end.

Definition set_union (r other : SetRepr RuntimeValue) : SetRepr RuntimeValue :=
  let combined := General (btree_from value_compare (set_iter r ++ set_iter other)) in
  match r, other with
  | SmallIntRepr a, SmallIntRepr b =>
      match SmallInt.try_from_iter (SmallInt.iter a ++ SmallInt.iter b) with
      | Some merged => SmallIntRepr merged
      | None => combined
      end
  | _, _ => combined
  end.

Definition set_difference (r other : SetRepr RuntimeValue) : SetRepr RuntimeValue :=
  match r, other with
  | SmallIntRepr a, SmallIntRepr b =>
      let result_ints := filter (fun n => SmallInt.contains b n = false) (SmallInt.iter a) in
      SmallIntRepr (default SmallInt.empty (SmallInt.try_from_iter result_ints))
  | _, _ => General (btree_from value_compare (filter (fun v => set_contains other v = false) (set_iter r)))
  end.

Definition set_intersection (r other : SetRepr RuntimeValue) : SetRepr RuntimeValue :=
  match r, other with
  | SmallIntRepr a, SmallIntRepr b =>
      let result_ints := filter (fun n => SmallInt.contains b n = true) (SmallInt.iter a) in
      SmallIntRepr (default SmallInt.empty (SmallInt.try_from_iter result_ints))
  | _, _ => General (btree_from value_compare (filter (fun v => set_contains other v = true) (set_iter r)))
  end.

(** *** Bounded collections *)

Record RuntimeCollectionBounds := MkBounds { max_seq_len : Z; max_set_len : Z; max_map_len : Z }.

Definition seq_bounded (values : list RuntimeValue) (bounds : RuntimeCollectionBounds) : option RuntimeValue :=
  if decide (seq_len values > max_seq_len bounds) then None else Some (VSeq values).

Definition set_bounded (values : list RuntimeValue) (bounds : RuntimeCollectionBounds) : option RuntimeValue :=
  let repr := set_from_values values in
  if decide (set_len repr > max_set_len bounds) then None else Some (VSet repr).

(** [BTreeMap::insert] of a key that is not there. *)
Fixpoint map_insert (key value : RuntimeValue) (m : list (RuntimeValue * RuntimeValue))
  : option (list (RuntimeValue * RuntimeValue)) :=
  match m with
  | [] => Some [(key, value)]
  | p :: m' =>
      match value_compare key p.1 with
      | Lt => Some ((key, value) :: m)
      | Eq => None
      | Gt => m'' ← map_insert key value m'; Some (p :: m'')
      end
  end.

Fixpoint map_bounded_loop (m entries : list (RuntimeValue * RuntimeValue)) (bounds : RuntimeCollectionBounds)
  : option RuntimeValue :=
  match entries with
  | [] => Some (VMap m)
  | (key, value) :: entries =>
      m ← map_insert key value m;
      if decide (seq_len m > max_map_len bounds) then None else map_bounded_loop m entries bounds
  end.

Definition map_bounded (entries : list (RuntimeValue * RuntimeValue)) (bounds : RuntimeCollectionBounds)
  : option RuntimeValue := map_bounded_loop [] entries bounds.

(** *** Keys *)

Section keys.
(** The names that the interner gives the fields. *)
Context (name : Symbol -> Str).

(** [cmp_by_name], for sorting. *)
Fixpoint insert_by_name {A} (p : Symbol * A) (fields : list (Symbol * A)) : list (Symbol * A) :=
  match fields with
  | [] => [p]
  | q :: fields' =>
      match str_compare (name p.1) (name q.1) with
      | Gt => q :: insert_by_name p fields'
      | _ => p :: fields
      end
  end.
Definition sort_by_name {A} (fields : list (Symbol * A)) : list (Symbol * A) :=
  foldr insert_by_name [] fields.

Definition bool_str (b : bool) : Str := if b then str "true" else str "false".

(** [format!("{}:{}", k, v)], sorted by field name and joined. *)
Definition render_fields (fields : list (Symbol * Str)) : Str :=
  join (str ",") ((fun p => name p.1 ++ str ":" ++ p.2) <$> sort_by_name fields).

Fixpoint canonical_key (v : RuntimeValue) : Str :=
  match v with
  | VUnit => str "unit"
  | VBool b => str "bool:" ++ bool_str b
  | VInt n => str "int:" ++ show_int n
  | VNat n => str "nat:" ++ show_int n
  | VString s => str "str:" ++ debug_str s
  | VEnum ty variant fields =>
      str "enum:" ++ ty ++ str "::" ++ variant ++ str "{"
        ++ render_fields ((fun p => (p.1, canonical_key p.2)) <$> fields) ++ str "}"
  | VTuple items => str "tuple:(" ++ join (str ",") (canonical_key <$> items) ++ str ")"
  | VStruct ty fields =>
      str "struct:" ++ ty ++ str "{" ++ render_fields ((fun p => (p.1, canonical_key p.2)) <$> fields) ++ str "}"
  | VSeq items => str "seq:[" ++ join (str ",") (canonical_key <$> items) ++ str "]"
  | VSet (General l) => str "set:{" ++ join (str ",") (canonical_key <$> l) ++ str "}"
  | VSet (SmallIntRepr s) =>
      str "set:{" ++ join (str ",") ((fun n => str "int:" ++ show_int n) <$> SmallInt.iter s) ++ str "}"
  | VMap m =>
      str "map:{" ++ join (str ",") ((fun p => canonical_key p.1 ++ str "=>" ++ canonical_key p.2) <$> m) ++ str "}"
  end.
End keys.

(** What [hash_into] feeds to the hasher. *)
Fixpoint hash_into (v : RuntimeValue) : list Z :=
  discriminant v ::
  match v with
  | VUnit => []
  | VBool b => [if b then 1 else 0]
  | VInt n | VNat n => [n]
  | VString s => s ++ [255]
  | VEnum ty variant fields => ty ++ [255] ++ variant ++ [255] ++ concat ((fun p => p.1 :: hash_into p.2) <$> fields)
  | VTuple items | VSeq items => seq_len items :: concat (hash_into <$> items)
  | VStruct ty fields => ty ++ [255] ++ concat ((fun p => p.1 :: hash_into p.2) <$> fields)
  | VSet (General l) => seq_len l :: concat (hash_into <$> l)
  | VSet (SmallIntRepr s) => SmallInt.len s :: concat ((fun n => [2; n]) <$> SmallInt.iter s)
  | VMap m => seq_len m :: concat ((fun p => hash_into p.1 ++ hash_into p.2) <$> m)
  end.

(** ** Induction *)

Section induction.
Context (P : RuntimeValue -> Prop).
Context (Hunit : P VUnit) (Hbool : forall b, P (VBool b)) (Hint : forall n, P (VInt n))
  (Hnat : forall n, P (VNat n)) (Hstring : forall s, P (VString s))
  (Henum : forall ty variant fields, Forall (fun p => P p.2) fields -> P (VEnum ty variant fields))
  (Htuple : forall items, Forall P items -> P (VTuple items))
  (Hstruct : forall ty fields, Forall (fun p => P p.2) fields -> P (VStruct ty fields))
  (Hseq : forall items, Forall P items -> P (VSeq items))
  (Hgeneral : forall l, Forall P l -> P (VSet (General l)))
  (Hsmall : forall s, P (VSet (SmallIntRepr s)))
  (Hmap : forall m, Forall (fun p => P p.1 /\ P p.2) m -> P (VMap m)).

Fixpoint value_ind (v : RuntimeValue) : P v :=
  let values := fix values l : Forall P l :=
    match l with [] => Forall_nil_2 P | v :: l => Forall_cons_2 P v l (value_ind v) (values l) end in
  let fields := fix fields (l : list (Z * RuntimeValue)) : Forall (fun p => P p.2) l :=
    match l with
    | [] => Forall_nil_2 _
    | p :: l => Forall_cons_2 (fun p => P p.2) p l (value_ind p.2) (fields l)
    end in
  let entries := fix entries (l : list (RuntimeValue * RuntimeValue)) : Forall (fun p => P p.1 /\ P p.2) l :=
    match l with
    | [] => Forall_nil_2 _
    | p :: l => Forall_cons_2 (fun p => P p.1 /\ P p.2) p l (conj (value_ind p.1) (value_ind p.2)) (entries l)
    end in
  match v with
  | VUnit => Hunit
  | VBool b => Hbool b
  | VInt n => Hint n
  | VNat n => Hnat n
  | VString s => Hstring s
  | VEnum ty variant fs => Henum ty variant fs (fields fs)
  | VTuple l => Htuple l (values l)
  | VStruct ty fs => Hstruct ty fs (fields fs)
  | VSeq l => Hseq l (values l)
  | VSet (General l) => Hgeneral l (values l)
  | VSet (SmallIntRepr s) => Hsmall s
  | VMap m => Hmap m (entries m)
  end.
End induction.

(** ** What a value denotes *)

Inductive Tree := Node (tag : list Z) (children : list Tree).

Fixpoint tree_compare (t u : Tree) {struct t} : comparison :=
  match t, u with
  | Node tag l, Node tag' k => then_with (lex_compare Z.compare tag tag') (lex_compare tree_compare l k)
  end.

Fixpoint tree_induction (P : Tree -> Prop) (H : forall tag l, Forall P l -> P (Node tag l)) (t : Tree) : P t :=
  match t with
  | Node tag l => H tag l ((fix go l : Forall P l :=
      match l with [] => Forall_nil_2 P | t :: l => Forall_cons_2 P t l (tree_induction P H t) (go l) end) l)
  end.

#[export] Instance tree_compare_laws : CompareLaws tree_compare.
Proof.
  assert (forall t u, tree_compare t u = Eq <-> t = u) as Heq.
  { refine (tree_induction _ _). intros tag l IH [tag' k]. cbn.
    rewrite then_with_eq, compare_eq, (lex_compare_eq tree_compare l k IH). naive_solver. }
  split; [exact Heq| |].
  - refine (tree_induction _ _). intros tag l IH [tag' k]. cbn.
    rewrite (compare_opp (cmp := lex_compare Z.compare) tag tag').
    by rewrite (lex_compare_opp tree_compare l k), then_with_opp.
  - refine (tree_induction _ _). intros tag l IH [tag' k] [tag'' m]. cbn.
    rewrite !then_with_lt, !compare_eq. intros [H|[-> H2]] [H'|[-> H2']]; [|by left..|].
    + left. by apply (compare_trans tag tag' tag'').
    + right. split; [done|]. by apply (lex_compare_trans tree_compare l k m).
Qed.

Definition int_tree (n : Z) : Tree := Node [2; n] [].

Fixpoint tree (v : RuntimeValue) : Tree :=
  match v with
  | VUnit => Node [0] []
  | VBool b => Node [1; if b then 1 else 0] []
  | VInt n => int_tree n
  | VNat n => Node [3; n] []
  | VString s => Node (4 :: s) []
  | VEnum ty variant fields =>
      Node [5] (Node ty [] :: Node variant [] :: ((fun p => Node [p.1] [tree p.2]) <$> fields))
  | VTuple l => Node [6] (tree <$> l)
  | VStruct ty fields => Node [7] (Node ty [] :: ((fun p => Node [p.1] [tree p.2]) <$> fields))
  | VSeq l => Node [8] (tree <$> l)
  | VSet (General l) => Node [9; seq_len l] (tree <$> l)
  | VSet (SmallIntRepr s) => Node [9; seq_len (members s)] (int_tree <$> members s)
  | VMap m => Node [10] ((fun p => Node [] [tree p.1; tree p.2]) <$> m)
  end.

(** The elements of a set, in order. *)
Definition set_trees (r : SetRepr RuntimeValue) : list Tree :=
  match r with General l => tree <$> l | SmallIntRepr s => int_tree <$> members s end.

(** A well-formed value: integers that leave arithmetic room, sets and maps sorted,
    fields sorted by their symbols. *)
Fixpoint value_ok (v : RuntimeValue) : Prop :=
  match v with
  | VInt n => int_ok n
  | VNat n => 0 <= n < U64_MODULUS
  | VUnit | VBool _ | VString _ => True
  | VEnum _ _ fields | VStruct _ fields =>
      sorted Z.compare fields.*1 /\ foldr (fun p => and (value_ok p.2)) True fields
  | VTuple l | VSeq l => foldr (fun v => and (value_ok v)) True l
  | VSet (General l) => sorted tree_compare (tree <$> l) /\ foldr (fun v => and (value_ok v)) True l
  | VSet (SmallIntRepr s) => set_ok s
  | VMap m => sorted tree_compare ((fun p => tree p.1) <$> m)
      /\ foldr (fun p => and (value_ok p.1 /\ value_ok p.2)) True m
  end.

Definition repr_ok (r : SetRepr RuntimeValue) : Prop := value_ok (VSet r).

Lemma foldr_and {A} (P : A -> Prop) l : foldr (fun x => and (P x)) True l <-> Forall P l.
Proof. induction l as [|x l IH]; cbn; [by split|]. by rewrite IH, Forall_cons. Qed.

(** ** The order is that of the trees *)

Lemma lex_compare_ext {A} (c d : A -> A -> comparison) l k :
  Forall (fun x => forall y, y ∈ k -> c x y = d x y) l -> lex_compare c l k = lex_compare d l k.
Proof.
  intros Hl. revert k Hl. induction l as [|x l IH]; intros [|y k] Hl; cbn; try done.
  apply Forall_cons in Hl as [Hx Hl]. rewrite Hx by by left. f_equal. apply IH.
  eapply Forall_impl; [exact Hl|]. intros z Hz w Hw. apply Hz. by right.
Qed.

Lemma then_with_Eq_r c : then_with c Eq = c.
Proof. by destruct c. Qed.

Lemma int_compare_spec n v : int_compare n v = value_compare (VInt n) v.
Proof. by destruct v. Qed.

Lemma int_list_compare_spec ns vs : int_list_compare ns vs = lex_compare value_compare (VInt <$> ns) vs.
Proof.
  revert vs. induction ns as [|n ns IH]; intros [|v vs]; try done. cbn -[value_compare].
  by rewrite IH, int_compare_spec.
Qed.

Lemma value_compare_set r r' :
  value_compare (VSet r) (VSet r')
  = then_with (Z.compare (set_len r) (set_len r')) (lex_compare value_compare (set_iter r) (set_iter r')).
Proof.
  destruct r as [l|s], r' as [k|s']; try done.
  - change (value_compare (VSet (SmallIntRepr s)) (VSet (General k)))
      with (then_with (Z.compare (SmallInt.len s) (seq_len k)) (int_list_compare (SmallInt.iter s) k)).
    by rewrite int_list_compare_spec.
  - change (SmallInt.compare s s' = then_with (Z.compare (SmallInt.len s) (SmallInt.len s'))
      (lex_compare value_compare (VInt <$> SmallInt.iter s) (VInt <$> SmallInt.iter s'))).
    unfold SmallInt.compare. f_equal. by apply lex_compare_fmap.
Qed.

Lemma tree_set r : tree (VSet r) = Node [9; seq_len (set_trees r)] (set_trees r).
Proof. destruct r as [l|s]; cbn; f_equal; unfold seq_len; by rewrite length_fmap. Qed.

Lemma set_iter_trees r : repr_ok r -> tree <$> set_iter r = set_trees r.
Proof.
  destruct r as [l|s]; intros Hok; [done|]. unfold set_iter. rewrite iter_members by done.
  by rewrite <- list_fmap_compose.
Qed.

Lemma set_len_trees r : set_len r = seq_len (set_trees r).
Proof.
  destruct r as [l|s]; cbn; unfold seq_len; rewrite length_fmap; [done|]. apply len_members.
Qed.

Lemma set_iter_ok r : repr_ok r -> Forall value_ok (set_iter r).
Proof.
  destruct r as [l|s]; intros Hok; [by apply (foldr_and value_ok), Hok|]. unfold set_iter.
  rewrite iter_members by done. destruct Hok as (_ & _ & Hm). apply Forall_fmap. exact Hm.
Qed.

(** Comparing lists of values through their trees. *)
Definition compares (a : RuntimeValue) : Prop :=
  value_ok a -> forall b, value_ok b -> value_compare a b = tree_compare (tree a) (tree b).

Lemma compare_lists l k :
  Forall compares l -> Forall value_ok l -> Forall value_ok k ->
  lex_compare value_compare l k = lex_compare tree_compare (tree <$> l) (tree <$> k).
Proof.
  rewrite !Forall_forall. intros Hc Hl Hk. apply lex_compare_fmap. intros x y Hx Hy.
  apply Hc; [done|by apply Hl|by apply Hk].
Qed.

Lemma compare_fields (l k : NamedFields) :
  Forall (fun p => compares p.2) l -> Forall (fun p => value_ok p.2) l -> Forall (fun p => value_ok p.2) k ->
  lex_compare (fun p q => then_with (Z.compare p.1 q.1) (value_compare p.2 q.2)) l k
  = lex_compare tree_compare ((fun p => Node [p.1] [tree p.2]) <$> l) ((fun p => Node [p.1] [tree p.2]) <$> k).
Proof.
  rewrite !Forall_forall. intros Hc Hl Hk. apply lex_compare_fmap. intros x y Hx Hy. cbn.
  rewrite !then_with_Eq_r. by rewrite (Hc x Hx (Hl x Hx) _ (Hk y Hy)).
Qed.

Lemma compares_int n : compares (VInt n).
Proof.
  intros _ b _. destruct b as [| | | | | | | | |[]|]; try done. cbn. by rewrite !then_with_Eq_r.
Qed.

Lemma set_iter_compares r : (forall l, r = General l -> Forall compares l) -> Forall compares (set_iter r).
Proof.
  destruct r as [l|s]; intros H; [by apply H|]. cbn. apply Forall_fmap, Forall_true. apply compares_int.
Qed.

Lemma compares_set r : Forall compares (set_iter r) -> compares (VSet r).
Proof.
  intros Hc Hok b Hb. destruct b as [| | | | | | | | |r'|]; try by (rewrite tree_set; destruct r).
  rewrite value_compare_set, !tree_set. cbn. rewrite !then_with_Eq_r.
  rewrite <- !set_len_trees. f_equal. rewrite <- !set_iter_trees by done.
  apply compare_lists; [done|by apply set_iter_ok..].
Qed.

Lemma value_compare_tree a : compares a.
Proof.
  induction a as [| | | | |ty variant fields IH|items IH|ty fields IH|items IH|l IH|s|m IH] using value_ind.
  - intros _ [| | | | | | | | |[]|] _; done.
  - intros _ [|b'| | | | | | | |[]|] _; try done. by destruct b, b'.
  - apply compares_int.
  - intros _ [| | | | | | | | |[]|] _; try done. cbn. by rewrite !then_with_Eq_r.
  - intros _ [| | | | | | | | |[]|] _; try done. cbn. by rewrite !then_with_Eq_r.
  - intros [_ Hok%(foldr_and (fun p => value_ok p.2))] [| | | | |ty' variant' fields'| | | |[]|] Hb; try done.
    destruct Hb as [_ Hb%(foldr_and (fun p => value_ok p.2))]. cbn. rewrite !then_with_Eq_r.
    by rewrite (compare_fields fields fields').
  - intros Hok%(foldr_and value_ok) [| | | | | |items'| | |[]|] Hb; try done.
    apply (foldr_and value_ok) in Hb. cbn. by rewrite (compare_lists items items').
  - intros [_ Hok%(foldr_and (fun p => value_ok p.2))] [| | | | | | |ty' fields'| |[]|] Hb; try done.
    destruct Hb as [_ Hb%(foldr_and (fun p => value_ok p.2))]. cbn. rewrite !then_with_Eq_r.
    by rewrite (compare_fields fields fields').
  - intros Hok%(foldr_and value_ok) [| | | | | | | |items'|[]|] Hb; try done.
    apply (foldr_and value_ok) in Hb. cbn. by rewrite (compare_lists items items').
  - by apply compares_set.
  - apply compares_set, set_iter_compares. done.
  - intros [_ Hok%(foldr_and (fun p => value_ok p.1 /\ value_ok p.2))] [| | | | | | | | |[]|m'] Hb; try done.
    destruct Hb as [_ Hb%(foldr_and (fun p => value_ok p.1 /\ value_ok p.2))]. cbn.
    rewrite Forall_forall in Hok, Hb, IH. apply lex_compare_fmap. intros x y Hx Hy. cbn.
    rewrite !then_with_Eq_r. destruct (IH x Hx) as [H1 H2], (Hok x Hx), (Hb y Hy). by rewrite H1, H2.
Qed.

(** ** Equality is that of the trees *)

Section list_eqb_spec.
Context {A B C : Type} (eqb : A -> B -> bool) (f : A -> C) (g : B -> C).

Lemma list_eqb_fmap l k :
  Forall (fun x => forall y, y ∈ k -> eqb x y = true <-> f x = g y) l ->
  list_eqb eqb l k = true <-> f <$> l = g <$> k.
Proof.
  revert k. induction l as [|x l IH]; intros [|y k] Hl; cbn; try done.
  apply Forall_cons in Hl as [Hx Hl]. rewrite andb_true_iff, Hx by by left. rewrite IH.
  - split; [by intros [-> ->]|by intros [= -> ->]].
  - eapply Forall_impl; [exact Hl|]. intros z Hz w Hw. apply Hz. by right.
Qed.
End list_eqb_spec.

Definition equates (a : RuntimeValue) : Prop :=
  value_ok a -> forall b, value_ok b -> value_eqb a b = true <-> tree a = tree b.

Lemma equates_lists l k :
  Forall equates l -> Forall value_ok l -> Forall value_ok k ->
  list_eqb value_eqb l k = true <-> tree <$> l = tree <$> k.
Proof.
  rewrite !Forall_forall. intros Hc Hl Hk. apply list_eqb_fmap, Forall_forall. intros x Hx y Hy.
  apply Hc; [done|by apply Hl|by apply Hk].
Qed.

Lemma equates_fields (l k : NamedFields) :
  Forall (fun p => equates p.2) l -> Forall (fun p => value_ok p.2) l -> Forall (fun p => value_ok p.2) k ->
  list_eqb (fun p q => bool_decide (p.1 = q.1) && value_eqb p.2 q.2) l k = true
  <-> (fun p => Node [p.1] [tree p.2]) <$> l = (fun p => Node [p.1] [tree p.2]) <$> k.
Proof.
  rewrite !Forall_forall. intros Hc Hl Hk. apply list_eqb_fmap, Forall_forall. intros x Hx y Hy.
  rewrite andb_true_iff, bool_decide_eq_true, (Hc x Hx (Hl x Hx) _ (Hk y Hy)). split; [by intros [-> ->]|].
  by intros [= -> ->].
Qed.

Lemma int_eqb_spec n v : int_eqb n v = value_eqb (VInt n) v.
Proof. by destruct v. Qed.

Lemma equates_int n : equates (VInt n).
Proof.
  intros _ b _. destruct b as [| | | | | | | | |[]|]; try done. cbn. rewrite bool_decide_eq_true.
  split; [by intros ->|by intros [= ->]].
Qed.

Lemma int_list_eqb_spec ns vs : list_eqb int_eqb ns vs = list_eqb value_eqb (VInt <$> ns) vs.
Proof.
  revert vs. induction ns as [|n ns IH]; intros [|v vs]; try done. cbn -[value_eqb].
  by rewrite IH, int_eqb_spec.
Qed.

Lemma equates_set r : Forall equates (set_iter r) -> equates (VSet r).
Proof.
  intros Hc Hok b Hb. destruct b as [| | | | | | | | |r'|]; try by (rewrite tree_set; destruct r).
  rewrite !tree_set.
  assert (Node [9; seq_len (set_trees r)] (set_trees r) = Node [9; seq_len (set_trees r')] (set_trees r')
    <-> set_trees r = set_trees r') as ->.
  { split; [by intros [= _ ?]|by intros ->]. }
  assert (forall l l', set_len r = seq_len l -> set_len r' = seq_len l' -> tree <$> l = set_trees r ->
    tree <$> l' = set_trees r' -> Forall equates l -> Forall value_ok l -> Forall value_ok l' ->
    bool_decide (seq_len l = seq_len l') && list_eqb value_eqb l l' = true <-> set_trees r = set_trees r') as Hgen.
  { intros l l' _ _ <- <- Hl Ho Ho'. rewrite andb_true_iff, bool_decide_eq_true, (equates_lists l l') by done.
    split; [by intros [_ ?]|]. intros Heq. split; [|done]. apply (f_equal length) in Heq.
    rewrite !length_fmap in Heq. unfold seq_len. by rewrite Heq. }
  assert (forall u : SmallIntSet, repr_ok (SmallIntRepr u) ->
    SmallInt.len u = seq_len ((VInt <$> SmallInt.iter u) : list RuntimeValue)) as Hlen.
  { intros u Hu. unfold seq_len. by rewrite length_fmap, iter_members, len_members by done. }
  pose proof (set_iter_ok r Hok) as Ho. pose proof (set_iter_ok r' Hb) as Ho'.
  pose proof (set_iter_trees r Hok) as Ht. pose proof (set_iter_trees r' Hb) as Ht'.
  destruct r as [l|s], r' as [l'|s'].
  - by apply (Hgen l l').
  - change (value_eqb (VSet (General l)) (VSet (SmallIntRepr s')))
      with (bool_decide (seq_len l = SmallInt.len s') && list_eqb value_eqb l (VInt <$> SmallInt.iter s')).
    rewrite (Hlen s' Hb). apply (Hgen l); try done. by apply Hlen.
  - change (value_eqb (VSet (SmallIntRepr s)) (VSet (General l')))
      with (bool_decide (SmallInt.len s = seq_len l') && list_eqb int_eqb (SmallInt.iter s) l').
    rewrite (Hlen s Hok), int_list_eqb_spec. apply (Hgen (VInt <$> SmallInt.iter s)); try done. by apply Hlen.
  - change (SmallInt.eqb s s' = true <-> int_tree <$> members s = int_tree <$> members s').
    rewrite eqb_members by done. split; [by intros ->|]. apply list_fmap_eq_inj. by intros ?? [= ->].
Qed.

Lemma value_eqb_tree a : equates a.
Proof.
  induction a as [| | | | |ty variant fields IH|items IH|ty fields IH|items IH|l IH|s|m IH] using value_ind.
  - intros _ [| | | | | | | | |[]|] _; done.
  - intros _ [|b'| | | | | | | |[]|] _; try done. by destruct b, b'.
  - apply equates_int.
  - intros _ [| | | | | | | | |[]|] _; try done. cbn. rewrite bool_decide_eq_true. split; [by intros ->|by intros [= ->]].
  - intros _ [| | | | | | | | |[]|] _; try done. cbn. rewrite bool_decide_eq_true. split; [by intros ->|by intros [= ->]].
  - intros [_ Hok%(foldr_and (fun p => value_ok p.2))] [| | | | |ty' variant' fields'| | | |[]|] Hb; try done.
    destruct Hb as [_ Hb%(foldr_and (fun p => value_ok p.2))]. cbn.
    rewrite !andb_true_iff, !bool_decide_eq_true, (equates_fields fields fields') by done.
    split; [by intros [[-> ->] ->]|by intros [= -> -> ->]].
  - intros Hok%(foldr_and value_ok) [| | | | | |items'| | |[]|] Hb; try done.
    apply (foldr_and value_ok) in Hb. cbn. rewrite (equates_lists items items') by done.
    split; [by intros ->|by intros [= ->]].
  - intros [_ Hok%(foldr_and (fun p => value_ok p.2))] [| | | | | | |ty' fields'| |[]|] Hb; try done.
    destruct Hb as [_ Hb%(foldr_and (fun p => value_ok p.2))]. cbn.
    rewrite !andb_true_iff, !bool_decide_eq_true, (equates_fields fields fields') by done.
    split; [by intros [-> ->]|by intros [= -> ->]].
  - intros Hok%(foldr_and value_ok) [| | | | | | | |items'|[]|] Hb; try done.
    apply (foldr_and value_ok) in Hb. cbn. rewrite (equates_lists items items') by done.
    split; [by intros ->|by intros [= ->]].
  - by apply equates_set.
  - apply equates_set. cbn. apply Forall_fmap, Forall_true, equates_int.
  - intros [_ Hok%(foldr_and (fun p => value_ok p.1 /\ value_ok p.2))] [| | | | | | | | |[]|m'] Hb; try done.
    destruct Hb as [_ Hb%(foldr_and (fun p => value_ok p.1 /\ value_ok p.2))]. cbn.
    rewrite Forall_forall in Hok, Hb, IH.
    rewrite (list_eqb_fmap _ (fun p => Node [] [tree p.1; tree p.2]) (fun p => Node [] [tree p.1; tree p.2])).
    + split; [by intros ->|by intros [= ->]].
    + apply Forall_forall. intros x Hx y Hy. rewrite andb_true_iff.
      destruct (IH x Hx) as [H1 H2], (Hok x Hx) as [Hx1 Hx2], (Hb y Hy) as [Hy1 Hy2].
      rewrite (H1 Hx1 _ Hy1), (H2 Hx2 _ Hy2). split; [by intros [-> ->]|by intros [= -> ->]].
Qed.

(** ** Sets *)

Section sets.
Implicit Types (r : SetRepr RuntimeValue) (v w : RuntimeValue) (l : list RuntimeValue) (t : Tree).

Lemma tree_int v n : tree v = int_tree n -> v = VInt n.
Proof. destruct v as [| | | | | | | | |[]|]; try done. by intros [= ->]. Qed.

Lemma int_tree_compare n m : tree_compare (int_tree n) (int_tree m) = Z.compare n m.
Proof. cbn. by rewrite !then_with_Eq_r. Qed.

Lemma set_trees_sorted r : repr_ok r -> sorted tree_compare (set_trees r).
Proof.
  destruct r as [l|s]; [by intros [? _]|intros _]. cbn. pose proof (members_sorted s) as Hs.
  induction Hs as [|n ns _ IH Hf]; [constructor|]. cbn -[tree_compare]. apply (sorted_cons tree_compare). split; [|done].
  intros t (m & -> & Hm)%list_elem_of_fmap. rewrite int_tree_compare. rewrite Forall_forall in Hf. by apply Hf.
Qed.

(** Two sets with the same elements are one set. *)
Lemma set_trees_ext r r' :
  repr_ok r -> repr_ok r' -> (forall t, t ∈ set_trees r <-> t ∈ set_trees r') -> set_trees r = set_trees r'.
Proof. intros Hr Hr'. apply (sorted_ext tree_compare); by apply set_trees_sorted. Qed.

Lemma small_set_trees s v : tree v ∈ set_trees (SmallIntRepr s) <-> exists n, v = VInt n /\ n ∈ members s.
Proof.
  cbn. rewrite list_elem_of_fmap. split.
  - intros (n & Hv%tree_int & Hn). by exists n.
  - intros (n & -> & Hn). by exists n.
Qed.

Lemma elem_set_iter r t : repr_ok r -> t ∈ set_trees r <-> exists v, v ∈ set_iter r /\ t = tree v.
Proof. intros Hr. rewrite <- set_iter_trees by done. rewrite list_elem_of_fmap. naive_solver. Qed.

Lemma set_contains_spec r v :
  repr_ok r -> value_ok v -> set_contains r v = true <-> tree v ∈ set_trees r.
Proof.
  destruct r as [l|s]; intros Hr Hv.
  - destruct Hr as [Hs Hl%(foldr_and value_ok)]. rewrite Forall_forall in Hl.
    change (set_contains (General l) v) with (btree_contains value_compare v l).
    rewrite (btree_contains_image _ tree_compare tree) by (intros w Hw; apply value_compare_tree; [done|by apply Hl]).
    by apply (btree_contains_elem tree_compare).
  - rewrite small_set_trees. destruct v; try by (split; [done|intros (? & ? & _)]).
    change (SmallInt.contains s n = true <-> exists n', VInt n = VInt n' /\ n' ∈ members s).
    rewrite contains_spec by done. split; [by exists n|]. by intros (n' & [= ->] & ?).
Qed.

Lemma general_from_spec l :
  Forall value_ok l ->
  repr_ok (General (btree_from value_compare l))
  /\ forall t, t ∈ set_trees (General (btree_from value_compare l)) <-> t ∈ tree <$> l.
Proof.
  rewrite Forall_forall. intros Hl.
  destruct (btree_from_image value_compare tree_compare tree l) as [Ht Hel].
  { intros x y Hx Hy. apply value_compare_tree; by apply Hl. }
  destruct (btree_from_spec tree_compare (tree <$> l)) as [Hs Hin]. split; [split|].
  - by rewrite Ht.
  - apply (foldr_and value_ok), Forall_forall. intros v Hv. apply Hl, Hel, Hv.
  - intros t. cbn. by rewrite Ht.
Qed.

Lemma all_ints_spec l :
  match all_ints l with
  | Some ns => l = VInt <$> ns
  | None => exists v, v ∈ l /\ forall n, v <> VInt n
  end.
Proof.
  induction l as [|v l IH]; [done|]. destruct v; cbn; try (eexists; split; [by left|done]).
  destruct (all_ints l) as [ns|]; cbn; [by rewrite IH|]. destruct IH as (v & Hv & Hn). exists v. split; [by right|done].
Qed.

Lemma set_from_values_spec l :
  Forall value_ok l ->
  repr_ok (set_from_values l) /\ forall t, t ∈ set_trees (set_from_values l) <-> t ∈ tree <$> l.
Proof.
  intros Hl. unfold set_from_values. pose proof (all_ints_spec l) as Ha.
  destruct (all_ints l) as [ns|]; cbn; [|by apply general_from_spec]. subst l.
  assert (Forall int_ok ns) as Hns by (by apply (Forall_fmap VInt value_ok)).
  pose proof (try_from_iter_spec ns Hns) as Ht.
  destruct (SmallInt.try_from_iter ns) as [s|]; [|by apply general_from_spec].
  destruct Ht as [Hs Hel]. split; [done|]. intros t. rewrite <- list_fmap_compose. cbn.
  rewrite !list_elem_of_fmap. by setoid_rewrite Hel.
Qed.

(** Filtering and collecting anew. *)
Lemma filter_trees r (P : RuntimeValue -> Prop) `{!forall v, Decision (P v)} (Q : Tree -> Prop) :
  repr_ok r -> (forall v, value_ok v -> P v <-> Q (tree v)) ->
  repr_ok (General (btree_from value_compare (filter P (set_iter r))))
  /\ forall t, t ∈ set_trees (General (btree_from value_compare (filter P (set_iter r)))) <-> t ∈ set_trees r /\ Q t.
Proof.
  intros Hr HPQ. pose proof (set_iter_ok r Hr) as Hok. rewrite Forall_forall in Hok.
  destruct (general_from_spec (filter P (set_iter r))) as [H1 H2].
  { apply Forall_forall. intros v [_ Hv]%list_elem_of_filter. by apply Hok. }
  split; [done|]. intros t. rewrite H2, list_elem_of_fmap, elem_set_iter by done. split.
  - intros (v & -> & [HP Hv]%list_elem_of_filter). split; [by exists v|]. apply HPQ; [by apply Hok|done].
  - intros [(v & Hv & ->) HQ]. exists v. split; [done|]. apply list_elem_of_filter. split; [|done].
    apply HPQ; [by apply Hok|done].
Qed.

(** Some of the integers of a bitmap make a bitmap. *)
Lemma filter_ints s (P : Z -> Prop) `{!forall n, Decision (P n)} (Q : Tree -> Prop) :
  set_ok s -> (forall n, int_ok n -> P n <-> Q (int_tree n)) ->
  let s' := default SmallInt.empty (SmallInt.try_from_iter (filter P (SmallInt.iter s))) in
  repr_ok (SmallIntRepr s')
  /\ forall t, t ∈ set_trees (SmallIntRepr s') <-> t ∈ set_trees (SmallIntRepr s) /\ Q t.
Proof.
  intros Hs HPQ. rewrite iter_members by done. pose proof Hs as (_ & _ & Hm). rewrite Forall_forall in Hm.
  pose proof (try_from_iter_spec (filter P (members s))) as Ht.
  destruct (SmallInt.try_from_iter (filter P (members s))) as [s'|]; cbn [default].
  - destruct Ht as [Hs' Hel]; [apply Forall_forall; intros n [_ Hn]%list_elem_of_filter; by apply Hm|].
    split; [done|]. intros t. cbn [set_trees]. rewrite !list_elem_of_fmap. split.
    + intros (n & -> & Hn). apply Hel, list_elem_of_filter in Hn as [HP Hn].
      split; [by exists n|]. apply HPQ; [by apply Hm|done].
    + intros [(n & -> & Hn) HQ]. exists n. split; [done|]. apply Hel, list_elem_of_filter. split; [|done].
      apply HPQ; [by apply Hm|done].
  - destruct Ht as (x & y & [_ Hx]%list_elem_of_filter & [_ Hy]%list_elem_of_filter & Hd).
    { apply Forall_forall. intros n [_ Hn]%list_elem_of_filter. by apply Hm. }
    apply elem_members in Hx, Hy. lia.
Qed.

Lemma set_difference_spec r r' :
  repr_ok r -> repr_ok r' ->
  repr_ok (set_difference r r')
  /\ forall t, t ∈ set_trees (set_difference r r') <-> t ∈ set_trees r /\ t ∉ set_trees r'.
Proof.
  intros Hr Hr'.
  assert (forall v, value_ok v -> set_contains r' v = false <-> tree v ∉ set_trees r') as Hc.
  { intros v Hv. rewrite <- set_contains_spec by done. by destruct (set_contains r' v). }
  destruct r as [l|s], r' as [l'|s']; [by apply (filter_trees _ _ (fun t => t ∉ set_trees _))..|].
  apply filter_ints; [done|]. intros n Hn. by apply (Hc (VInt n)).
Qed.

Lemma set_intersection_spec r r' :
  repr_ok r -> repr_ok r' ->
  repr_ok (set_intersection r r')
  /\ forall t, t ∈ set_trees (set_intersection r r') <-> t ∈ set_trees r /\ t ∈ set_trees r'.
Proof.
  intros Hr Hr'.
  assert (forall v, value_ok v -> set_contains r' v = true <-> tree v ∈ set_trees r') as Hc
    by (intros v Hv; by apply set_contains_spec).
  destruct r as [l|s], r' as [l'|s']; [by apply (filter_trees _ _ (fun t => t ∈ set_trees _))..|].
  apply filter_ints; [done|]. intros n Hn. by apply (Hc (VInt n)).
Qed.

Lemma set_union_spec r r' :
  repr_ok r -> repr_ok r' ->
  repr_ok (set_union r r')
  /\ forall t, t ∈ set_trees (set_union r r') <-> t ∈ set_trees r \/ t ∈ set_trees r'.
Proof.
  intros Hr Hr'. set (combined := General (btree_from value_compare (set_iter r ++ set_iter r'))).
  assert (repr_ok combined /\ forall t, t ∈ set_trees combined <-> t ∈ set_trees r \/ t ∈ set_trees r') as Hcomb.
  { destruct (general_from_spec (set_iter r ++ set_iter r')) as [H1 H2].
    { apply Forall_app. split; by apply set_iter_ok. }
    split; [done|]. intros t. unfold combined. rewrite H2, fmap_app, elem_of_app. by rewrite !set_iter_trees. }
  destruct r as [l|s], r' as [l'|s']; [done..|]. cbn in Hr, Hr'. unfold set_union.
  rewrite !iter_members by done. pose proof (try_from_iter_spec (members s ++ members s')) as Ht.
  destruct (SmallInt.try_from_iter (members s ++ members s')) as [u|].
  - destruct Ht as [Hu Hel]; [apply Forall_app; split; [apply Hr|apply Hr']|]. split; [done|].
    intros t. cbn. rewrite !list_elem_of_fmap. split.
    + intros (n & -> & [Hn|Hn]%Hel%elem_of_app); [left|right]; by exists n.
    + intros [(n & -> & Hn)|(n & -> & Hn)]; exists n; (split; [done|]); apply Hel, elem_of_app; [by left|by right].
  - exact Hcomb.
Qed.

Lemma general_insert_spec l v :
  repr_ok (General l) -> value_ok v ->
  let '(r', new) := general_insert l v in
  repr_ok r' /\ (new = true <-> tree v ∉ set_trees (General l))
  /\ forall t, t ∈ set_trees r' <-> t ∈ set_trees (General l) \/ t = tree v.
Proof.
  intros Hr Hv. cbn. pose proof Hr as [Hs Hl%(foldr_and value_ok)]. rewrite Forall_forall in Hl.
  assert (tree <$> btree_insert value_compare v l = btree_insert tree_compare (tree v) (tree <$> l)) as Hi
    by (apply btree_insert_image; intros w Hw; apply value_compare_tree; [done|by apply Hl]).
  split; [split|split].
  - rewrite Hi. by apply (btree_insert_sorted tree_compare).
  - apply (foldr_and value_ok), Forall_forall. intros w [->|Hw]%btree_insert_subseteq; [done|by apply Hl].
  - pose proof (set_contains_spec (General l) v Hr Hv) as Hc. cbn in Hc. rewrite <- Hc.
    by destruct (btree_contains value_compare v l).
  - intros t. rewrite Hi, (btree_insert_elem tree_compare). tauto.
Qed.

Lemma set_insert_spec r v :
  repr_ok r -> value_ok v ->
  let '(r', new) := set_insert r v in
  repr_ok r' /\ (new = true <-> tree v ∉ set_trees r) /\ forall t, t ∈ set_trees r' <-> t ∈ set_trees r \/ t = tree v.
Proof.
  destruct r as [l|s]; intros Hr Hv; [by apply general_insert_spec|].
  set (general := btree_from value_compare (VInt <$> SmallInt.iter s)).
  assert (repr_ok (General general) /\ set_trees (General general) = set_trees (SmallIntRepr s)) as [Hg Heq].
  { pose proof (set_iter_ok _ Hr) as Hok. destruct (general_from_spec _ Hok) as [H1 H2]. split; [done|].
    apply set_trees_ext; [done..|]. intros t. unfold general. change (VInt <$> SmallInt.iter s) with (set_iter (SmallIntRepr s)). by rewrite H2, set_iter_trees. }
  assert (let '(r', new) := general_insert general v in
    repr_ok r' /\ (new = true <-> tree v ∉ set_trees (SmallIntRepr s))
    /\ forall t, t ∈ set_trees r' <-> t ∈ set_trees (SmallIntRepr s) \/ t = tree v) as Hgen
    by (rewrite <- Heq; by apply general_insert_spec).
  destruct v as [| |n| | | | | | | |]; try exact Hgen. unfold set_insert. fold general. cbn in Hr.
  destruct (SmallInt.insert s n) as [s' [new|]] eqn:He; [|exact Hgen].
  destruct (insert_spec s n s' (Some new) Hr Hv He) as [Hs' [Hnew Hel]]. split; [done|]. split.
  - rewrite Hnew. split; intros Hn; contradict Hn.
    + apply small_set_trees in Hn as (m & [= ->] & Hm). done.
    + apply small_set_trees. by exists n.
  - intros t. cbn. rewrite !list_elem_of_fmap. split.
    + intros (m & -> & [Hm| ->]%Hel); [left; by exists m|by right].
    + intros [(m & -> & Hm)| ->]; [exists m|exists n]; (split; [done|]); apply Hel; [by left|by right].
Qed.

Lemma set_remove_spec r v :
  repr_ok r -> value_ok v ->
  let '(r', was) := set_remove r v in
  repr_ok r' /\ (was = true <-> tree v ∈ set_trees r) /\ forall t, t ∈ set_trees r' <-> t ∈ set_trees r /\ t <> tree v.
Proof.
  destruct r as [l|s]; intros Hr Hv.
  - pose proof Hr as [Hs Hl%(foldr_and value_ok)]. rewrite Forall_forall in Hl. cbn -[repr_ok].
    assert (tree <$> btree_remove value_compare v l = btree_remove tree_compare (tree v) (tree <$> l)) as Hi
      by (apply btree_remove_image; intros w Hw; apply value_compare_tree; [done|by apply Hl]).
    destruct (btree_remove_spec tree_compare (tree v) (tree <$> l) Hs) as [Hs' Hel].
    split; [split|split].
    + by rewrite Hi.
    + apply (foldr_and value_ok), Forall_forall. intros w Hw. apply Hl. revert Hw. clear. induction l as [|x l IH]; [done|].
      cbn. destruct (value_compare v x); rewrite ?elem_of_cons; tauto.
    + by apply (set_contains_spec (General l)).
    + intros t. by rewrite Hi.
  - destruct v as [| |n| | | | | | | |]; try (split; [done|split]; [split; [done|by intros (? & ? & _)%small_set_trees]|];
      intros t; split; [|by intros [? _]]; intros Ht; split; [done|]; intros ->; by apply small_set_trees in Ht as (? & ? & _)).
    cbn in Hr. unfold set_remove. destruct (SmallInt.remove s n) as [s' was] eqn:He.
    destruct (remove_spec s n s' was Hr Hv He) as (Hs' & Hwas & Hel). split; [done|]. split.
    + rewrite Hwas, small_set_trees. split; [by exists n|]. by intros (m & [= ->] & ?).
    + intros t. cbn. rewrite !list_elem_of_fmap. setoid_rewrite Hel. split.
      * intros (m & -> & Hm & Hne). split; [by exists m|]. by intros [= ->].
      * intros [(m & -> & Hm) Hne]. exists m. split_and!; [done..|]. by intros ->.
Qed.
End sets.

(** ** Hashes and keys depend on the tree alone *)

Section respects.
Context {X : Type} (f : RuntimeValue -> X).
Implicit Types (l k : list RuntimeValue).

Definition respects (a : RuntimeValue) : Prop :=
  value_ok a -> forall b, value_ok b -> tree a = tree b -> f a = f b.

Lemma respects_lists l k :
  Forall respects l -> Forall value_ok l -> Forall value_ok k -> tree <$> l = tree <$> k -> f <$> l = f <$> k.
Proof.
  intros Hr. revert k. induction Hr as [|x l Hx _ IH]; intros [|y k] Hl Hk; try done.
  apply Forall_cons in Hl as [? ?]. apply Forall_cons in Hk as [? ?]. cbn. intros [= Ht1 Ht2].
  f_equal; [by apply Hx|by apply IH].
Qed.

Lemma respects_fields (l k : NamedFields) :
  Forall (fun p => respects p.2) l -> Forall (fun p => value_ok p.2) l -> Forall (fun p => value_ok p.2) k ->
  (fun p => Node [p.1] [tree p.2]) <$> l = (fun p => Node [p.1] [tree p.2]) <$> k ->
  (fun p => (p.1, f p.2)) <$> l = (fun p => (p.1, f p.2)) <$> k.
Proof.
  intros Hr. revert k. induction Hr as [|[x v] l Hx _ IH]; intros [|[y w] k] Hl Hk; try done.
  apply Forall_cons in Hl as [? ?]. apply Forall_cons in Hk as [? ?]. cbn. intros [= -> Ht1 Ht2].
  f_equal; [f_equal; by apply Hx|by apply IH].
Qed.

Lemma respects_entries (l k : list (RuntimeValue * RuntimeValue)) :
  Forall (fun p => respects p.1 /\ respects p.2) l -> Forall (fun p => value_ok p.1 /\ value_ok p.2) l ->
  Forall (fun p => value_ok p.1 /\ value_ok p.2) k ->
  (fun p => Node [] [tree p.1; tree p.2]) <$> l = (fun p => Node [] [tree p.1; tree p.2]) <$> k ->
  (fun p => (f p.1, f p.2)) <$> l = (fun p => (f p.1, f p.2)) <$> k.
Proof.
  intros Hr. revert k. induction Hr as [|[x v] l [Hx Hx'] _ IH]; intros [|[y w] k] Hl Hk; try done.
  apply Forall_cons in Hl as [[? ?] ?]. apply Forall_cons in Hk as [[? ?] ?]. cbn in *. intros [= Ht1 Ht2 Ht3].
  f_equal; [f_equal; [by apply Hx|by apply Hx']|by apply IH].
Qed.

(** A function that treats the variants alike respects the trees; on sets it goes
    by their elements. *)
Context (set_f : list X -> X).
Context (Hset : forall r, repr_ok r -> f (VSet r) = set_f (f <$> set_iter r)).
Context (Hint : forall n, respects (VInt n)).

Lemma respects_set r : Forall respects (set_iter r) -> respects (VSet r).
Proof using Hset.
  intros Hr Hok b Hb. destruct b as [| | | | | | | | |r'|]; try by (rewrite tree_set; destruct r).
  rewrite !tree_set. intros [= _ Ht]. rewrite !Hset by done. f_equal.
  apply respects_lists; [done|by apply set_iter_ok..|]. by rewrite !set_iter_trees.
Qed.
End respects.

(** The two sides of a case: the variants are the same. *)
Ltac same_variant b Hb :=
  let y := fresh "y" in destruct b as [|y| | | | | | | |[]|]; try done;
  cbn [value_ok] in Hb; rewrite ?(foldr_and value_ok), ?(foldr_and (fun p => value_ok p.2)),
    ?(foldr_and (fun p => value_ok p.1 /\ value_ok p.2)) in Hb.

Lemma hash_set r :
  repr_ok r -> hash_into (VSet r) = 9 :: seq_len (hash_into <$> set_iter r) :: concat (hash_into <$> set_iter r).
Proof.
  destruct r as [l|s]; cbn; intros Hok; unfold seq_len; rewrite !length_fmap; [done|].
  rewrite len_members, <- iter_members by done. unfold seq_len. by rewrite <- list_fmap_compose.
Qed.

Lemma hash_respects a : respects hash_into a.
Proof.
  induction a as [|x| | | |ty variant fields IH|items IH|ty fields IH|items IH|l IH|s|m IH] using value_ind;
    intros Hok b Hb Ht.
  - by same_variant b Hb.
  - same_variant b Hb. injection Ht. by destruct x, y.
  - same_variant b Hb. by injection Ht as ->.
  - same_variant b Hb. by injection Ht as ->.
  - same_variant b Hb. by injection Ht as ->.
  - same_variant b Hb. destruct Hok as [_ Hok%(foldr_and (fun p => value_ok p.2))], Hb as [_ Hb].
    injection Ht as -> -> Ht. pose proof (respects_fields hash_into _ _ IH Hok Hb Ht) as Hf.
    apply (f_equal (fmap (fun p => p.1 :: p.2))) in Hf. rewrite <- !list_fmap_compose in Hf.
    unfold compose in Hf. cbn [fst snd] in Hf. cbn [hash_into discriminant]. by rewrite Hf.
  - apply (foldr_and value_ok) in Hok. same_variant b Hb. injection Ht as Ht.
    pose proof (respects_lists hash_into _ _ IH Hok Hb Ht) as Hf. cbn [hash_into discriminant].
    rewrite Hf. apply (f_equal length) in Hf. rewrite !length_fmap in Hf. unfold seq_len. by rewrite Hf.
  - same_variant b Hb. destruct Hok as [_ Hok%(foldr_and (fun p => value_ok p.2))], Hb as [_ Hb].
    injection Ht as -> Ht. pose proof (respects_fields hash_into _ _ IH Hok Hb Ht) as Hf.
    apply (f_equal (fmap (fun p => p.1 :: p.2))) in Hf. rewrite <- !list_fmap_compose in Hf.
    unfold compose in Hf. cbn [fst snd] in Hf. cbn [hash_into discriminant]. by rewrite Hf.
  - apply (foldr_and value_ok) in Hok. same_variant b Hb. injection Ht as Ht.
    pose proof (respects_lists hash_into _ _ IH Hok Hb Ht) as Hf. cbn [hash_into discriminant].
    rewrite Hf. apply (f_equal length) in Hf. rewrite !length_fmap in Hf. unfold seq_len. by rewrite Hf.
  - by apply (respects_set hash_into (fun hs => 9 :: seq_len hs :: concat hs) hash_set (General l)).
  - apply (respects_set hash_into (fun hs => 9 :: seq_len hs :: concat hs) hash_set (SmallIntRepr s)); [|done..].
    cbn. apply Forall_fmap, Forall_true. intros n _ [| | | | | | | | |[]|] _; try done. by intros [= ->].
  - destruct Hok as [_ Hok%(foldr_and (fun p => value_ok p.1 /\ value_ok p.2))].
    same_variant b Hb. destruct Hb as [_ Hb]. injection Ht as Ht.
    pose proof (respects_entries hash_into _ _ IH Hok Hb Ht) as Hf.
    assert (seq_len m = seq_len entries) as Hl
      by (apply (f_equal length) in Hf; rewrite !length_fmap in Hf; unfold seq_len; by rewrite Hf).
    apply (f_equal (fmap (fun p => p.1 ++ p.2))) in Hf. rewrite <- !list_fmap_compose in Hf.
    unfold compose in Hf. cbn [fst snd] in Hf. cbn [hash_into discriminant]. by rewrite Hf, Hl.
Qed.

(** *** Keys *)

Section key_respects.
Context (name : Z -> Str).

Lemma key_set r :
  canonical_key name (VSet r) = str "set:{" ++ join (str ",") (canonical_key name <$> set_iter r) ++ str "}".
Proof. destruct r as [l|s]; [done|]. cbn. by rewrite <- list_fmap_compose. Qed.

Lemma key_respects a : respects (canonical_key name) a.
Proof.
  induction a as [|x| | | |ty variant fields IH|items IH|ty fields IH|items IH|l IH|s|m IH] using value_ind;
    intros Hok b Hb Ht.
  - by same_variant b Hb.
  - same_variant b Hb. injection Ht. by destruct x, y.
  - same_variant b Hb. by injection Ht as ->.
  - same_variant b Hb. by injection Ht as ->.
  - same_variant b Hb. by injection Ht as ->.
  - same_variant b Hb. destruct Hok as [_ Hok%(foldr_and (fun p => value_ok p.2))], Hb as [_ Hb].
    injection Ht as -> -> Ht. pose proof (respects_fields (canonical_key name) _ _ IH Hok Hb Ht) as Hf.
    cbn [canonical_key]. by rewrite Hf.
  - apply (foldr_and value_ok) in Hok. same_variant b Hb. injection Ht as Ht.
    pose proof (respects_lists (canonical_key name) _ _ IH Hok Hb Ht) as Hf. cbn [canonical_key]. by rewrite Hf.
  - same_variant b Hb. destruct Hok as [_ Hok%(foldr_and (fun p => value_ok p.2))], Hb as [_ Hb].
    injection Ht as -> Ht. pose proof (respects_fields (canonical_key name) _ _ IH Hok Hb Ht) as Hf.
    cbn [canonical_key]. by rewrite Hf.
  - apply (foldr_and value_ok) in Hok. same_variant b Hb. injection Ht as Ht.
    pose proof (respects_lists (canonical_key name) _ _ IH Hok Hb Ht) as Hf. cbn [canonical_key]. by rewrite Hf.
  - by apply (respects_set (canonical_key name) (fun ks => str "set:{" ++ join (str ",") ks ++ str "}")
      (fun r _ => key_set r) (General l)).
  - apply (respects_set (canonical_key name) (fun ks => str "set:{" ++ join (str ",") ks ++ str "}")
      (fun r _ => key_set r) (SmallIntRepr s)); [|done..].
    cbn. apply Forall_fmap, Forall_true. intros n _ [| | | | | | | | |[]|] _; try done. by intros [= ->].
  - destruct Hok as [_ Hok%(foldr_and (fun p => value_ok p.1 /\ value_ok p.2))].
    same_variant b Hb. destruct Hb as [_ Hb]. injection Ht as Ht.
    pose proof (respects_entries (canonical_key name) _ _ IH Hok Hb Ht) as Hf. cbn [canonical_key].
    apply (f_equal (fmap (fun p => p.1 ++ str "=>" ++ p.2))) in Hf. rewrite <- !list_fmap_compose in Hf.
    unfold compose in Hf. cbn [fst snd] in Hf. by rewrite Hf.
Qed.
End key_respects.
