(* ===== verification/ValueKeys.v ===== *)
(** * Canonical keys identify states

    The strings by which the model checker tells states apart
    ([RuntimeValue::canonical_key]), and the interner of field names: two values
    have the same key exactly when they are equal, provided that the names of
    types, variants and fields are identifiers and strings are ASCII. *)

From stdpp Require Import prelude gmap sets list numbers fin_sets pretty strings.
From Stdlib Require Import ZArith Lia.
From S2P Require Import Prelude.
From S2P Require Import Ordering.
From S2P Require Import SmallIntSet.
From S2P Require Import RuntimeValue.

#[local] Open Scope Z_scope.

(** ** The interner *)

Definition interner_ok (i : Interner) : Prop :=
  (forall s id, str_to_id i !! s = Some id <-> seq_get (strings i) id = Some s) /\ seq_len (strings i) < 2 ^ 32.

Definition known (i : Interner) (sym : Z) : Prop := 0 <= sym < seq_len (strings i).
Definition interned_name (i : Interner) (sym : Z) : Str := default [] (resolve i sym).

Lemma interner_new_ok : interner_ok interner_new.
Proof.
  split; [|done]. intros s id. cbn. rewrite lookup_empty. split; [done|].
  intros [H1 H2]%seq_get_Some_range. change (id < 0) in H2. lia.
Qed.

(** Interning gives a handle that resolves to the string, the same each time, and
    leaves the other handles as they are; there are 2^32 handles. *)
Lemma intern_spec i s i' sym :
  interner_ok i -> seq_len (strings i) + 1 < 2 ^ 32 -> intern s i = (i', sym) ->
  interner_ok i' /\ known i' sym /\ resolve i' sym = Some s /\ intern s i' = (i', sym)
  /\ (forall a, known i a -> resolve i' a = resolve i a).
Proof.
  intros [Hok Hlen] Hroom. unfold intern. destruct (str_to_id i !! s) as [id|] eqn:Hs; intros [= <- <-].
  { pose proof Hs as Hg%Hok. pose proof (seq_get_Some_range _ _ _ Hg). split_and!; try done; try lia. by rewrite Hs. }
  assert (forall k, seq_get (strings i) k = Some s -> False) as Hno by (intros k Hk%Hok; congruence).
  pose proof (seq_len_nonneg (strings i)) as H0. rewrite Z.mod_small by lia.
  assert (forall k x, seq_get (strings i ++ [s]) k = Some x <->
    seq_get (strings i) k = Some x \/ k = seq_len (strings i) /\ x = s) as Happ.
  { intros k x. unfold seq_get, seq_len in *. case_decide as Hk; [|split; [done|intros [?|[? _]]; [done|lia]]].
    rewrite lookup_app_Some. split.
    - intros [?|[Hl Hx]]; [by left|right]. apply list_lookup_singleton_Some in Hx as [? ?]. split; [lia|done].
    - intros [?|[-> ->]]; [by left|right]. split; [lia|]. apply list_lookup_singleton_Some. split; [lia|done]. }
  assert (known (MkInterner (<[s := seq_len (strings i)]> (str_to_id i)) (strings i ++ [s])) (seq_len (strings i))) as Hkn.
  { unfold known. cbn. rewrite seq_len_app. change (seq_len [s]) with 1. lia. }
  split; [split|split; [exact Hkn|split; [|split]]].
  - intros x id. cbn. rewrite Happ, <- Hok. destruct (decide (x = s)) as [->|Hne].
    + rewrite lookup_insert_eq, Hs. naive_solver.
    + rewrite lookup_insert_ne by done. naive_solver.
  - cbn. rewrite seq_len_app. change (seq_len [s]) with 1. lia.
  - unfold resolve. apply Happ. by right.
  - cbn. by rewrite lookup_insert_eq.
  - intros a Ha. unfold resolve. cbn. destruct (seq_get (strings i) a) as [x|] eqn:Hx.
    + apply Happ. by left.
    + unfold known, seq_get, seq_len in *. rewrite decide_True in Hx by lia.
      apply lookup_ge_None in Hx. lia.
Qed.

Lemma interned_name_inj i a b :
  interner_ok i -> known i a -> known i b -> interned_name i a = interned_name i b -> a = b.
Proof.
  intros [Hok _] Ha Hb. unfold interned_name, resolve.
  assert (forall k, known i k -> exists x, seq_get (strings i) k = Some x) as Hk.
  { intros k [? ?]. unfold seq_get, seq_len in *. rewrite decide_True by lia.
    apply lookup_lt_is_Some_2. lia. }
  destruct (Hk a Ha) as [x Hx], (Hk b Hb) as [y Hy]. rewrite Hx, Hy. cbn. intros ->.
  apply Hok in Hx, Hy. congruence.
Qed.

(** ** Words that end where a delimiter starts *)

(** The characters that may follow a key. *)
Definition stops : list Z := [44; 41; 93; 125; 61].

Definition starts_in (P : Z -> Prop) (r : Str) : Prop := match r with [] => True | c :: _ => P c end.
Definition stop (r : Str) : Prop := starts_in (.∈ stops) r.

Lemma span_inj (P : Z -> Prop) x y r r' :
  Forall P x -> Forall P y -> starts_in (fun c => ~ P c) r -> starts_in (fun c => ~ P c) r' ->
  x ++ r = y ++ r' -> x = y /\ r = r'.
Proof.
  intros Hx. revert y. induction Hx as [|c x Hc Hx IH]; intros y Hy Hr Hr'.
  - destruct Hy as [|d y Hd Hy]; [done|]. cbn. intros ->. by destruct Hr.
  - destruct Hy as [|d y Hd Hy]; cbn.
    + intros <-. by destruct Hr'.
    + intros [= -> Heq]. destruct (IH y Hy Hr Hr' Heq) as [-> ->]. done.
Qed.

(** *** Numbers *)

Definition digit (c : Z) : Prop := 48 <= c <= 57 \/ c = 45.

Lemma str_app a b : str (a +:+ b) = str a ++ str b.
Proof. unfold str. induction a as [|c a IH]; [done|].
  change (String c a +:+ b) with (String c (a +:+ b)). cbn. by f_equal. Qed.

Lemma str_inj a b : str a = str b -> a = b.
Proof.
  unfold str. intros H. apply list_fmap_eq_inj in H.
  - rewrite <- (String.string_of_list_ascii_of_string a), H. apply String.string_of_list_ascii_of_string.
  - intros x y Hxy%N2Z.inj. rewrite <- (Ascii.ascii_N_embedding x), Hxy. apply Ascii.ascii_N_embedding.
Qed.

Lemma pretty_N_char_digit x : digit (Z.of_N (Ascii.N_of_ascii (pretty_N_char x))).
Proof.
  unfold digit, pretty_N_char. destruct x as [|p]; [cbn; lia|].
  do 4 (try destruct p as [p|p|]); cbn; lia.
Qed.

Lemma pretty_N_go_digits x s : Forall digit (str s) -> Forall digit (str (pretty_N_go x s)).
Proof.
  revert s. induction x as [x IH] using (well_founded_induction N.lt_wf_0); intros s Hs.
  destruct (decide (x = 0)%N) as [->|Hx]; [by rewrite pretty_N_go_0|].
  rewrite pretty_N_go_step by lia. apply IH; [apply N.div_lt; lia|].
  unfold str in *. cbn. constructor; [apply pretty_N_char_digit|done].
Qed.

Lemma show_int_digits n : Forall digit (show_int n).
Proof.
  assert (forall p, Forall digit (str (pretty (N.pos p)))) as Hp.
  { intros p. unfold pretty, pretty_N. rewrite decide_False by done. by apply pretty_N_go_digits. }
  unfold show_int. destruct n as [|p|p].
  - repeat constructor; unfold digit; cbn; lia.
  - apply Hp.
  - change (Forall digit (str ("-" +:+ pretty (N.pos p)))). rewrite str_app. apply Forall_app. split; [|apply Hp].
    constructor; [by right|constructor].
Qed.

Lemma stop_not (P : Z -> Prop) r : (forall c, c ∈ stops -> ~ P c) -> stop r -> starts_in (fun c => ~ P c) r.
Proof. destruct r; cbn; [done|]. intros H ?. by apply H. Qed.

Lemma show_int_inj n m r r' : stop r -> stop r' -> show_int n ++ r = show_int m ++ r' -> n = m /\ r = r'.
Proof.
  intros Hr Hr' H. assert (forall c, c ∈ stops -> ~ digit c) as Hs.
  { intros c Hc. unfold stops in Hc. rewrite !elem_of_cons, elem_of_nil in Hc. unfold digit. lia. }
  destruct (span_inj digit (show_int n) (show_int m) r r') as [Heq ->]; try done; try by apply stop_not.
  1, 2: apply show_int_digits.
  split; [|done]. apply (inj pretty). by apply str_inj.
Qed.

(** *** Quoted strings *)

(** Reading one escaped character. *)
Definition from_hex (d : Z) : Z := if decide (d < 58) then d - 48 else d - 87.
Definition unescape (s : Str) : option (Z * Str) :=
  match s with
  | 92 :: 117 :: 123 :: h :: 125 :: s => Some (from_hex h, s)
  | 92 :: 117 :: 123 :: h :: l :: 125 :: s => Some (16 * from_hex h + from_hex l, s)
  | 92 :: 34 :: s => Some (34, s)
  | 92 :: 92 :: s => Some (92, s)
  | 92 :: 110 :: s => Some (10, s)
  | 92 :: 114 :: s => Some (13, s)
  | 92 :: 116 :: s => Some (9, s)
  | 92 :: 48 :: s => Some (0, s)
  | c :: s => if decide (c = 34) then None else Some (c, s)
  | [] => None
  end.

Lemma unescape_escape c s : 0 <= c -> unescape (escape_char c ++ s) = Some (c, s).
Proof.
  intros H0. destruct (decide (c < 128)) as [Hc|Hc].
  - assert (c ∈ seqZ 0 128) as Hin by (apply elem_of_seqZ; lia). clear H0 Hc.
    assert (Forall (fun c => unescape (escape_char c ++ s) = Some (c, s)) (seqZ 0 128)) as Hall.
    { let l := eval vm_compute in (seqZ 0 128) in change (seqZ 0 128) with l. repeat (constructor; [reflexivity|]). constructor. }
    rewrite Forall_forall in Hall. by apply Hall.
  - unfold escape_char. rewrite !decide_False by lia. cbn [app unescape].
    destruct c as [|p|p]; try lia. repeat (destruct p as [p|p|]; try (exfalso; lia); try done).
Qed.

(** Quoting is undone by reading one character after the other up to the quote. *)
Lemma quoted_inj x y r r' :
  Forall (fun c => 0 <= c) x -> Forall (fun c => 0 <= c) y ->
  concat (escape_char <$> x) ++ 34 :: r = concat (escape_char <$> y) ++ 34 :: r' -> x = y /\ r = r'.
Proof.
  intros Hx. revert y. induction Hx as [|c x Hc _ IH]; intros y Hy Heq.
  - destruct Hy as [|d y Hd _]; [by injection Heq as ->|]. cbn in Heq. rewrite <- app_assoc in Heq.
    apply (f_equal unescape) in Heq. by rewrite unescape_escape in Heq.
  - cbn in Heq. rewrite <- app_assoc in Heq. destruct Hy as [|d y Hd Hy].
    + apply (f_equal unescape) in Heq. by rewrite unescape_escape in Heq.
    + cbn in Heq. rewrite <- app_assoc in Heq. apply (f_equal unescape) in Heq.
      rewrite !unescape_escape in Heq by done. injection Heq as -> Heq.
      by destruct (IH y Hy Heq) as [-> ->].
Qed.

(** *** Lists between delimiters *)

Lemma list_fmap_eq_Forall2 {A B C} (f : A -> C) (g : B -> C) l k : f <$> l = g <$> k <-> Forall2 (fun x y => f x = g y) l k.
Proof. by rewrite list_eq_Forall2, Forall2_fmap. Qed.


(** What is rendered may be read back, whatever follows it. *)
Definition decodes {A B} (f : A -> Str) (g : B -> Str) (R : A -> B -> Prop) (x : A) (y : B) : Prop :=
  forall r r', stop r -> stop r' -> f x ++ r = g y ++ r' -> R x y /\ r = r'.

Section join.
Context {A B : Type} (f : A -> Str) (g : B -> Str) (R : A -> B -> Prop) (c : Z) (Hc : c ∈ stops) (Hc' : c <> 44).

(** An item is not mistaken for the end of the list. *)
Definition opens {X} (h : X -> Str) (x : X) : Prop := forall r, starts_in (fun d => d <> c) (h x ++ r) /\ h x ++ r <> [].

Lemma join_cons {X} (h : X -> Str) x l r :
  join (str ",") (h <$> x :: l) ++ c :: r
  = h x ++ (if decide (l = []) then c :: r else 44 :: join (str ",") (h <$> l) ++ c :: r).
Proof.
  destruct l as [|z l]; [done|]. rewrite decide_False by done. cbn -[str].
  by rewrite <- !app_assoc.
Qed.

Lemma join_inj l k r r' :
  Forall (fun x => Forall (decodes f g R x) k) l -> Forall (opens f) l -> Forall (opens g) k ->
  join (str ",") (f <$> l) ++ c :: r = join (str ",") (g <$> k) ++ c :: r' -> Forall2 R l k /\ r = r'.
Proof.
  intros Hd Hl. revert k Hd. induction Hl as [|x l Hx Hl IH]; intros k Hd Hk Heq.
  - destruct Hk as [|y k Hy Hk]; [by injection Heq as ->|]. rewrite join_cons in Heq.
    destruct (Hy (if decide (k = []) then c :: r' else 44 :: join (str ",") (g <$> k) ++ c :: r')) as [H _].
    rewrite <- Heq in H. by destruct H.
  - destruct Hk as [|y k Hy Hk].
    + rewrite join_cons in Heq. edestruct Hx as [H _]. rewrite Heq in H. by destruct H.
    + rewrite !join_cons in Heq. apply Forall_cons in Hd as [Hxd Hd]. apply Forall_cons in Hxd as [Hxy _].
      apply Hxy in Heq as [HR Heq]; [|repeat case_decide; first [exact Hc|left]..].
      assert (Forall (fun x => Forall (decodes f g R x) k) l) as Hd'.
      { eapply Forall_impl; [exact Hd|]. by intros z [_ ?]%Forall_cons. }
      repeat case_decide; subst; cbn in Heq; try congruence.
      * injection Heq as ->. by repeat constructor.
      * injection Heq as Heq. destruct (IH k Hd' Hk Heq) as [? ->]. by repeat constructor.
Qed.
End join.

(** ** Keys *)

(** The text of an identifier. *)
Definition plain (s : Str) : Prop := Forall (fun c => c ∉ [58; 123; 125]) s.

(** The values whose names are identifiers and whose strings are ASCII. *)
Fixpoint printable (i : Interner) (v : RuntimeValue) : Prop :=
  match v with
  | VUnit | VBool _ | VInt _ | VNat _ | VSet (SmallIntRepr _) => True
  | VString s => Forall (fun c => 0 <= c < 128) s
  | VEnum ty variant fields =>
      plain ty /\ plain variant
      /\ foldr (fun p => and (known i p.1 /\ plain (interned_name i p.1) /\ printable i p.2)) True fields
  | VStruct ty fields =>
      plain ty /\ foldr (fun p => and (known i p.1 /\ plain (interned_name i p.1) /\ printable i p.2)) True fields
  | VTuple l | VSeq l | VSet (General l) => foldr (fun v => and (printable i v)) True l
  | VMap m => foldr (fun p => and (printable i p.1 /\ printable i p.2)) True m
  end.

Section keys_inj.
Context (i : Interner) (Hi : interner_ok i).
Notation name := (interned_name i).
Notation key := (canonical_key name).

(** The first four characters tell the variant. *)
Definition kind (d : Z) : Str :=
  default [] ((str <$> ["unit"; "bool"; "int:"; "nat:"; "str:"; "enum"; "tupl"; "stru"; "seq:"; "set:"; "map:"]%string)
    !! Z.to_nat d).

Lemma key_kind v r : take 4 (key v ++ r) = kind (discriminant v).
Proof. destruct v as [| | | | | | | | |[]|]; reflexivity. Qed.

Lemma key_discriminant a b r r' : key a ++ r = key b ++ r' -> discriminant a = discriminant b.
Proof.
  intros Heq. pose proof (key_kind a r) as Ha. rewrite Heq, key_kind in Ha.
  by destruct a, b.
Qed.

Definition reads (a : RuntimeValue) : Prop :=
  value_ok a -> printable i a -> forall b, value_ok b -> printable i b -> decodes key key (fun a b => tree a = tree b) a b.

Lemma key_opens c v : c ∈ stops -> opens c key v.
Proof.
  intros Hc r. unfold stops in Hc. rewrite !elem_of_cons, elem_of_nil in Hc.
  destruct v as [| | | | | | | | |[]|]; split; try done; cbn; lia.
Qed.

(** *** Sorting by name *)

Lemma sort_by_name_fmap {A B} (h : A -> B) (l : list (Symbol * A)) :
  sort_by_name name ((fun p => (p.1, h p.2)) <$> l) = (fun p => (p.1, h p.2)) <$> sort_by_name name l.
Proof.
  unfold sort_by_name. induction l as [|p l IH]; [done|]. cbn. rewrite IH. generalize (foldr (insert_by_name name) [] l). clear.
  induction l as [|q l IH]; [done|]. cbn. destruct (str_compare _ _); cbn; by rewrite ?IH.
Qed.

Lemma sort_by_name_perm {A} (l : list (Symbol * A)) : sort_by_name name l ≡ₚ l.
Proof.
  unfold sort_by_name. induction l as [|p l IH]; [done|]. cbn. rewrite <- IH at 2. generalize (foldr (insert_by_name name) [] l). clear.
  induction l as [|q l IH]; [done|]. cbn. destruct (str_compare _ _); [done..|]. rewrite IH. constructor.
Qed.

Definition field_tree (p : Symbol * RuntimeValue) : Symbol * Tree := (p.1, tree p.2).

(** Fields that are the same up to their order are the same, being sorted. *)
Lemma fields_ext (l k : NamedFields) :
  sorted Z.compare l.*1 -> sorted Z.compare k.*1 -> field_tree <$> l ≡ₚ field_tree <$> k ->
  field_tree <$> l = field_tree <$> k.
Proof.
  assert (forall l : NamedFields, sorted Z.compare l.*1 -> sorted (pair_compare Z.compare tree_compare) (field_tree <$> l)) as Hs.
  { clear. induction l as [|p l IH]; [constructor|]. rewrite !fmap_cons, !sorted_cons by apply _.
    intros [Hp Hl]. split; [|by apply IH]. intros q (q' & -> & Hq)%list_elem_of_fmap.
    unfold pair_compare. cbn. rewrite (Hp q'.1); [done|]. by apply list_elem_of_fmap_2. }
  intros Hl%Hs Hk%Hs Hp. apply (sorted_ext (pair_compare Z.compare tree_compare)); [done..|].
  intros x. by rewrite Hp.
Qed.

Lemma reads_lists c l k r r' :
  c ∈ stops -> c <> 44 -> Forall reads l -> Forall value_ok l -> Forall (printable i) l ->
  Forall value_ok k -> Forall (printable i) k ->
  join (str ",") (key <$> l) ++ c :: r = join (str ",") (key <$> k) ++ c :: r' ->
  tree <$> l = tree <$> k /\ r = r'.
Proof.
  intros Hc Hc' Hr Hl Hpl Hk Hpk Heq. rewrite !Forall_forall in *.
  apply (join_inj key key (fun a b => tree a = tree b) c Hc) in Heq as [H2 ->]; try done.
  - split; [|done]. by apply list_fmap_eq_Forall2.
  - apply Forall_forall. intros a Ha. apply Forall_forall. intros b Hb. by apply Hr; auto.
  - apply Forall_forall. intros a _. by apply key_opens.
  - apply Forall_forall. intros a _. by apply key_opens.
Qed.

Lemma plain_inj c x y r r' : c ∈ [58; 123; 125] -> plain x -> plain y -> x ++ c :: r = y ++ c :: r' -> x = y /\ r = r'.
Proof.
  intros Hc Hx Hy Heq. destruct (span_inj _ x y (c :: r) (c :: r') Hx Hy) as [-> H]; [cbn; naive_solver..|done|].
  by injection H.
Qed.

Definition field_ok (p : Symbol * RuntimeValue) : Prop := known i p.1 /\ plain (name p.1) /\ printable i p.2.
Definition render_field (p : Symbol * RuntimeValue) : Str := name p.1 ++ str ":" ++ key p.2.

Lemma field_opens p : field_ok p -> opens 125 render_field p.
Proof.
  intros (_ & Hp & _) r. unfold render_field. destruct (name p.1) as [|d x]; [split; done|].
  apply Forall_cons in Hp as [Hd _]. split; [|done]. cbn. intros ->. apply Hd. by right; right; left.
Qed.

Lemma reads_fields l k r r' :
  Forall (fun p => reads p.2) l -> Forall (fun p => value_ok p.2) l -> Forall field_ok l ->
  Forall (fun p => value_ok p.2) k -> Forall field_ok k ->
  sorted Z.compare l.*1 -> sorted Z.compare k.*1 ->
  render_fields name ((fun p => (p.1, key p.2)) <$> l) ++ 125 :: r
  = render_fields name ((fun p => (p.1, key p.2)) <$> k) ++ 125 :: r' ->
  (fun p => Node [p.1] [tree p.2]) <$> l = (fun p => Node [p.1] [tree p.2]) <$> k /\ r = r'.
Proof.
  intros Hr Hl Hpl Hk Hpk Hsl Hsk Heq. unfold render_fields in Heq.
  rewrite !sort_by_name_fmap, <- !list_fmap_compose in Heq.
  rewrite <- (sort_by_name_perm l) in Hr, Hl, Hpl. rewrite <- (sort_by_name_perm k) in Hk, Hpk.
  pose proof (sort_by_name_perm l) as Hel. pose proof (sort_by_name_perm k) as Hek.
  revert Hr Hl Hpl Heq Hel. generalize (sort_by_name name l). intros l' Hr Hl Hpl.
  revert Hk Hpk Hek. generalize (sort_by_name name k). intros k' Hk Hpk Hek Heq Hel. rewrite !Forall_forall in *.
  apply (join_inj render_field render_field (fun p q => field_tree p = field_tree q) 125) in Heq as [H2 ->].
  - split; [|done]. apply list_fmap_eq_Forall2 in H2.
    assert (field_tree <$> l = field_tree <$> k) as H.
    { apply fields_ext; [done..|]. by rewrite <- Hel, <- Hek, H2. }
    apply (f_equal (fmap (fun p => Node [p.1] [p.2]))) in H. by rewrite <- !list_fmap_compose in H.
  - by right; right; right; left.
  - done.
  - apply Forall_forall. intros p Hp. apply Forall_forall. intros q Hq s s' Hs Hs' H.
    destruct (Hpl p Hp) as (Hkp & Hnp & Hpp), (Hpk q Hq) as (Hkq & Hnq & Hpq). unfold render_field in H.
    rewrite <- !app_assoc in H. apply plain_inj in H as [Hn H]; [|by left|done..].
    apply Hr in H as [Ht ->]; auto. split; [|done]. unfold field_tree. f_equal; [|done].
    by apply (interned_name_inj i).
  - apply Forall_forall. intros p Hp. by apply field_opens, Hpl.
  - apply Forall_forall. intros p Hp. by apply field_opens, Hpk.
Qed.

(** *** Keys are read back *)

Lemma reads_int n : reads (VInt n).
Proof.
  intros _ _ b _ _ r r' Hr Hr' Heq. pose proof (key_discriminant _ _ _ _ Heq) as Hd.
  destruct b as [| |m| | | | | | | |]; try discriminate Hd. cbn [canonical_key] in Heq.
  rewrite <- !app_assoc in Heq. apply app_inv_head in Heq.
  by apply show_int_inj in Heq as [-> ->].
Qed.

Lemma set_iter_printable r : printable i (VSet r) -> Forall (printable i) (set_iter r).
Proof.
  destruct r as [l|s]; [apply (foldr_and (printable i))|]. intros _. by apply Forall_fmap, Forall_true.
Qed.

Lemma reads_set r0 : Forall reads (set_iter r0) -> reads (VSet r0).
Proof.
  intros Hall Hok Hp b Hb Hpb r r' Hr Hr' Heq. pose proof (key_discriminant _ _ _ _ Heq) as Hd.
  destruct b as [| | | | | | | | |r1|]; try (by destruct r0). rewrite !key_set in Heq.
  rewrite <- !app_assoc in Heq. apply app_inv_head in Heq.
  apply (reads_lists 125) in Heq as [Ht ->]; try done; try by apply set_iter_ok.
  - split; [|done]. rewrite !set_iter_trees in Ht by done. by rewrite !tree_set, Ht.
  - by right; right; right; left.
  - by apply set_iter_printable.
  - by apply set_iter_printable.
Qed.

(** Both sides are of one variant, and so is what follows it. *)
Local Ltac same_kind b Heq :=
  let y := fresh "y" in let Hd := fresh in
  pose proof (key_discriminant _ _ _ _ Heq) as Hd;
  destruct b as [|y|y|y|y| | | | |[]|]; try discriminate Hd; clear Hd;
  cbn [canonical_key] in Heq; rewrite <- ?app_assoc in Heq; apply app_inv_head in Heq.

Lemma entry_opens p : opens 125 (fun p => key p.1 ++ str "=>" ++ key p.2) p.
Proof.
  intros r. destruct (key_opens 125 p.1 ltac:(by right; right; right; left) (str "=>" ++ key p.2 ++ r)) as [H1 H2].
  by rewrite <- !app_assoc.
Qed.

Lemma key_reads a : reads a.
Proof.
  induction a as [|x| | |s|ty variant fields IH|items IH|ty fields IH|items IH|l IH|s|m IH] using value_ind;
    intros Hok Hp b Hb Hpb r r' Hr Hr' Heq.
  - by same_kind b Heq.
  - same_kind b Heq. by destruct x, y; try discriminate Heq; injection Heq as ->.
  - by apply (reads_int n Hok Hp b).
  - same_kind b Heq. by apply show_int_inj in Heq as [-> ->].
  - same_kind b Heq. unfold debug_str in Heq. rewrite <- !app_assoc in Heq. apply app_inv_head in Heq.
    apply quoted_inj in Heq as [-> ->]; [done|eapply Forall_impl; [eassumption|cbn; lia]..].
  - same_kind b Heq. destruct Hp as (Hp1 & Hp2 & Hp%(foldr_and field_ok)), Hpb as (Hp1' & Hp2' & Hp'%(foldr_and field_ok)).
    destruct Hok as [Hs Hok%(foldr_and (fun p => value_ok p.2))], Hb as [Hs' Hb%(foldr_and (fun p => value_ok p.2))].
    apply plain_inj in Heq as [-> Heq]; [|by left|done..]. injection Heq as Heq.
    apply plain_inj in Heq as [-> Heq]; [|by right; left|done..].
    apply reads_fields in Heq as [Ht ->]; [|done..]. split; [|done]. cbn [tree]. by rewrite Ht.
  - same_kind b Heq. apply (foldr_and value_ok) in Hok, Hb. apply (foldr_and (printable i)) in Hp, Hpb.
    apply (reads_lists 41) in Heq as [Ht ->]; [|by right; left|done..]. split; [|done]. cbn [tree]. by rewrite Ht.
  - same_kind b Heq. destruct Hp as (Hp1 & Hp%(foldr_and field_ok)), Hpb as (Hp1' & Hp'%(foldr_and field_ok)).
    destruct Hok as [Hs Hok%(foldr_and (fun p => value_ok p.2))], Hb as [Hs' Hb%(foldr_and (fun p => value_ok p.2))].
    apply plain_inj in Heq as [-> Heq]; [|by right; left|done..].
    apply reads_fields in Heq as [Ht ->]; [|done..]. split; [|done]. cbn [tree]. by rewrite Ht.
  - same_kind b Heq. apply (foldr_and value_ok) in Hok, Hb. apply (foldr_and (printable i)) in Hp, Hpb.
    apply (reads_lists 93) in Heq as [Ht ->]; [|by right; right; left|done..]. split; [|done]. cbn [tree]. by rewrite Ht.
  - by apply (reads_set (General l) IH Hok Hp b).
  - apply (reads_set (SmallIntRepr s)) in Heq; [done| |done..]. apply Forall_fmap, Forall_true. apply reads_int.
  - same_kind b Heq. destruct Hok as [_ Hok%(foldr_and (fun p => value_ok p.1 /\ value_ok p.2))],
      Hb as [_ Hb%(foldr_and (fun p => value_ok p.1 /\ value_ok p.2))].
    apply (foldr_and (fun p => printable i p.1 /\ printable i p.2)) in Hp, Hpb. rewrite Forall_forall in *.
    apply (join_inj _ _ (fun p q => (tree p.1, tree p.2) = (tree q.1, tree q.2)) 125) in Heq as [H2 ->].
    + split; [|done]. apply list_fmap_eq_Forall2 in H2. cbn [tree]. f_equal.
      apply (f_equal (fmap (fun p => Node [] [p.1; p.2]))) in H2. by rewrite <- !list_fmap_compose in H2.
    + by right; right; right; left.
    + done.
    + apply Forall_forall. intros p Hpm. apply Forall_forall. intros q Hqm t t' Ht Ht' H.
      destruct (IH p Hpm) as [IH1 IH2], (Hok p Hpm), (Hb q Hqm), (Hp p Hpm), (Hpb q Hqm).
      rewrite <- !app_assoc in H. apply IH1 in H as [Hk1 H]; [|done..|by do 4 right; left|by do 4 right; left].
      apply app_inv_head in H. apply IH2 in H as [Hk2 ->]; [|done..]. by rewrite Hk1, Hk2.
    + apply Forall_forall. intros p _. apply entry_opens.
    + apply Forall_forall. intros p _. apply entry_opens.
Qed.
End keys_inj.

(** Two values have the same key exactly when they are equal. *)
Lemma canonical_key_inj i a b :
  interner_ok i -> value_ok a -> printable i a -> value_ok b -> printable i b ->
  canonical_key (interned_name i) a = canonical_key (interned_name i) b <-> tree a = tree b.
Proof.
  intros Hi Ha Hpa Hb Hpb. split.
  - intros Heq. destruct (key_reads i Hi a Ha Hpa b Hb Hpb [] [] I I) as [Ht _]; [|done]. by rewrite !app_nil_r.
  - by apply key_respects.
Qed.
