(* ===== verification/DedupKeys.v ===== *)
(** * The keys by which the search recognises states

    transpiler/src/modelcheck/explorer.rs: the canonical key of a state, relabelled
    in the fields that are declared symmetric, and its 64-bit hash; and the
    summary of how a state differs from the one before.  The hash function of the
    standard library is a parameter. *)

From stdpp Require Import prelude gmap sets list numbers fin_sets pretty strings.
From Stdlib Require Import ZArith Lia.
From S2P Require Import Prelude.
From S2P Require Import Ordering.
From S2P Require Import SmallIntSet.
From S2P Require Import RuntimeValue.

#[local] Open Scope Z_scope.

(** ** Keys *)

(** [StateDedupMode] (config.rs). *)
Inductive StateDedupMode := Canonical | HashCompaction64.

#[export] Instance state_dedup_mode_eq_dec : EqDecision StateDedupMode.
Proof. solve_decision. Defined.

(** The last [n] hexadecimal digits. *)
Fixpoint hex_digits (n : nat) (x : Z) : Str :=
  match n with
  | O => []
  | S n => hex_digits n (x / 16) ++ [hex_digit (x mod 16)]
  end.

(** [format!("h{fp:016x}")]. *)
Definition fingerprint_key (fp : Z) : Str := str "h" ++ hex_digits 16 fp.

(** [sort_by], which is stable. *)
Fixpoint insert_by {A} (cmp : A -> A -> comparison) (x : A) (l : list A) : list A :=
  match l with
  | [] => [x]
  | y :: l' => match cmp x y with Gt => y :: insert_by cmp x l' | _ => x :: l end
  end.
Definition sort_by {A} (cmp : A -> A -> comparison) (l : list A) : list A := foldr (insert_by cmp) [] l.
Definition sort_strs (parts : list Str) : list Str := sort_by str_compare parts.

(** [collect_ints_into]: the integers of a value, in the order they are met. *)
Fixpoint collect_ints_into (value : RuntimeValue) (out : list Z) : list Z :=
  match value with
  | VInt n => btree_insert Z.compare n out
  | VSet (General l) | VSeq l | VTuple l => foldl (fun out v => collect_ints_into v out) out l
  | VSet (SmallIntRepr s) => foldl (fun out n => btree_insert Z.compare n out) out (SmallInt.iter s)
  | VMap m => foldl (fun out p => collect_ints_into p.2 (collect_ints_into p.1 out)) out m
  | VStruct _ fields | VEnum _ _ fields => foldl (fun out p => collect_ints_into p.2 out) out fields
  | VUnit | VBool _ | VNat _ | VString _ => out
  end.

Fixpoint value_contains_int (value : RuntimeValue) (target : Z) : bool :=
  match value with
  | VInt n => bool_decide (n = target)
  | VSet (General l) | VSeq l | VTuple l => existsb (fun v => value_contains_int v target) l
  | VSet (SmallIntRepr s) => existsb (fun n => bool_decide (n = target)) (SmallInt.iter s)
  | VMap m => existsb (fun p => value_contains_int p.1 target || value_contains_int p.2 target) m
  | VStruct _ fields | VEnum _ _ fields => existsb (fun p => value_contains_int p.2 target) fields
  | VUnit | VBool _ | VNat _ | VString _ => false
  end.

Section keys.
Context (name : Symbol -> Str) (hash_str : Str -> Z) (hash_value : list Z -> Z).

(** The key of a value whose integers are relabelled by [rank_map]. *)
Fixpoint relabeled_canonical_key (value : RuntimeValue) (rank_map : list (Z * Z)) : Str :=
  let key_int n := str "int:" ++ show_int
    (match list_find (fun p : Z * Z => p.1 = n) rank_map with Some (_, p) => p.2 | None => n end) in
  match value with
  | VInt n => key_int n
  | VSet (General l) =>
      str "set:{" ++ join (str ",") (sort_strs ((fun v => relabeled_canonical_key v rank_map) <$> l)) ++ str "}"
  | VSet (SmallIntRepr s) => str "set:{" ++ join (str ",") (sort_strs (key_int <$> SmallInt.iter s)) ++ str "}"
  | VSeq l => str "seq:[" ++ join (str ",") ((fun v => relabeled_canonical_key v rank_map) <$> l) ++ str "]"
  | VTuple l => str "tuple:(" ++ join (str ",") ((fun v => relabeled_canonical_key v rank_map) <$> l) ++ str ")"
  | VMap m =>
      str "map:{" ++ join (str ",") (sort_strs ((fun p =>
        relabeled_canonical_key p.1 rank_map ++ str "=>" ++ relabeled_canonical_key p.2 rank_map) <$> m)) ++ str "}"
  | VStruct ty fields =>
      str "struct:" ++ ty ++ str "{"
        ++ join (str ",") ((fun p => name p.1 ++ str ":" ++ relabeled_canonical_key p.2 rank_map) <$> fields) ++ str "}"
  | VEnum ty variant fields =>
      str "enum:" ++ ty ++ str "::" ++ variant ++ str "{"
        ++ join (str ",") ((fun p => name p.1 ++ str ":" ++ relabeled_canonical_key p.2 rank_map) <$> fields) ++ str "}"
  | VUnit | VBool _ | VNat _ | VString _ => canonical_key name value
  end.

(** The integers of the symmetric fields, with the fields each occurs in, ranked. *)
Definition int_signatures (symmetric_fields : list RuntimeValue) : list (Z * list bool) :=
  (fun x => (x, (fun v => value_contains_int v x) <$> symmetric_fields))
    <$> foldl (fun out v => collect_ints_into v out) [] symmetric_fields.
Definition rank_map (symmetric_fields : list RuntimeValue) : list (Z * Z) :=
  imap (fun idx p => (p.1, Z.of_nat idx + 1))
    (sort_by (fun p q => then_with (lex_compare bool_compare p.2 q.2) (Z.compare p.1 q.1))
      (int_signatures symmetric_fields)).

Definition canonical_dedup_key (state : RuntimeValue) (symmetry_fields : list Str) : Str :=
  if decide (symmetry_fields = []) then canonical_key name state
  else match state with
  | VStruct ty fields =>
      let symmetric p := bool_decide (name p.1 ∈ symmetry_fields) in
      let ranks := rank_map (snd <$> filter (fun p : Symbol * RuntimeValue => name p.1 ∈ symmetry_fields) fields) in
      let entries := (fun p => (name p.1,
        if symmetric p then relabeled_canonical_key p.2 ranks else canonical_key name p.2)) <$> fields in
      str "struct:" ++ ty ++ str "{"
        ++ join (str ",") ((fun e => e.1 ++ str ":" ++ e.2)
             <$> sort_by (fun e f => str_compare e.1 f.1) entries) ++ str "}"
  | _ => canonical_key name state
  end.

Definition fingerprint (v : RuntimeValue) : Z := hash_value (hash_into v) mod U64_MODULUS.

Definition dedup_key_from_canonical (canonical : Str) (mode : StateDedupMode) : Str :=
  match mode with
  | Canonical => canonical
  | HashCompaction64 => fingerprint_key (hash_str canonical mod U64_MODULUS)
  end.

(** ** Differences between states *)

Record StateDiffSummary := MkDiff { path : Str; before : Str; after : Str }.

Definition missing : Str := str "<missing>".

(** [collect_indexed_diffs], given how the elements before are compared. *)
Fixpoint collect_indexed_diffs (path : Str) (idx : Z) (b_values : list (RuntimeValue * (Str -> RuntimeValue -> list StateDiffSummary)))
    (a_values : list RuntimeValue) {struct b_values} : list StateDiffSummary :=
  let sub_path idx := path ++ str "[" ++ show_int idx ++ str "]" in
  match b_values, a_values with
  | [], _ => imap (fun i a => MkDiff (sub_path (idx + Z.of_nat i)) missing (canonical_key name a)) a_values
  | (b, _) :: b_values, [] =>
      MkDiff (sub_path idx) (canonical_key name b) missing :: collect_indexed_diffs path (idx + 1) b_values []
  | (_, diff) :: b_values, a :: a_values =>
      diff (sub_path idx) a ++ collect_indexed_diffs path (idx + 1) b_values a_values
  end.

(** [collect_named_field_diffs], likewise. *)
Definition collect_named_field_diffs (path : Str)
    (b_fields : list (Symbol * (RuntimeValue * (Str -> RuntimeValue -> list StateDiffSummary)))) (a_fields : NamedFields)
  : list StateDiffSummary :=
  let keys := btree_from Z.compare (b_fields.*1 ++ a_fields.*1) in
  concat ((fun key =>
    let sub_path := path ++ str "." ++ name key in
    match list_find (fun p => p.1 = key) b_fields, fields_get a_fields key with
    | Some (_, (_, (_, diff))), Some a => diff sub_path a
    | Some (_, (_, (b, _))), None => [MkDiff sub_path (canonical_key name b) missing]
    | None, Some a => [MkDiff sub_path missing (canonical_key name a)]
    | None, None => []
    end) <$> keys).

Fixpoint collect_state_diffs (before : RuntimeValue) (path : Str) (after : RuntimeValue) : list StateDiffSummary :=
  let changed := [MkDiff path (canonical_key name before) (canonical_key name after)] in
  if value_eqb before after then []
  else match before with
  | VStruct b_ty b_fields =>
      let b_fields' := (fun p => (p.1, (p.2, collect_state_diffs p.2))) <$> b_fields in
      match after with
      | VStruct a_ty a_fields =>
          if decide (b_ty = a_ty) then collect_named_field_diffs path b_fields' a_fields else changed
      | _ => changed
      end
  | VEnum b_ty b_variant b_fields =>
      let b_fields' := (fun p => (p.1, (p.2, collect_state_diffs p.2))) <$> b_fields in
      match after with
      | VEnum a_ty a_variant a_fields =>
          if decide (b_ty = a_ty /\ b_variant = a_variant) then collect_named_field_diffs path b_fields' a_fields
          else changed
      | _ => changed
      end
  | VTuple b_values =>
      let b_values' := (fun b => (b, collect_state_diffs b)) <$> b_values in
      match after with VTuple a_values => collect_indexed_diffs path 0 b_values' a_values | _ => changed end
  | VSeq b_values =>
      let b_values' := (fun b => (b, collect_state_diffs b)) <$> b_values in
      match after with VSeq a_values => collect_indexed_diffs path 0 b_values' a_values | _ => changed end
  | _ => changed
  end.

Definition summarize_state_diff (before after : RuntimeValue) : list StateDiffSummary :=
  collect_state_diffs before (str "s") after.
End keys.

(** ** Hexadecimal keys tell fingerprints apart *)

Lemma hex_digit_inj d e : 0 <= d < 16 -> 0 <= e < 16 -> hex_digit d = hex_digit e -> d = e.
Proof. unfold hex_digit. intros. repeat case_decide; lia. Qed.

Lemma hex_digits_inj n x y : 0 <= x < 16 ^ Z.of_nat n -> 0 <= y < 16 ^ Z.of_nat n -> hex_digits n x = hex_digits n y -> x = y.
Proof.
  revert x y. induction n as [|n IH]; intros x y Hx Hy Heq; cbn in Heq; [change (16 ^ Z.of_nat 0) with 1 in *; lia|].
  rewrite Nat2Z.inj_succ, Z.pow_succ_r in Hx, Hy by lia. apply app_inj_tail in Heq as [Hn Hd].
  apply hex_digit_inj in Hd; [|apply Z.mod_pos_bound; lia..].
  apply IH in Hn; [|split; [apply Z.div_pos; lia|apply Z.div_lt_upper_bound; lia]..].
  rewrite (Z.div_mod x 16), (Z.div_mod y 16) by lia. by rewrite Hn, Hd.
Qed.

Lemma fingerprint_key_inj x y : 0 <= x < U64_MODULUS -> 0 <= y < U64_MODULUS -> fingerprint_key x = fingerprint_key y -> x = y.
Proof.
  intros Hx Hy Heq. apply app_inv_head in Heq. by apply (hex_digits_inj 16).
Qed.
