(* ===== verification/Explorer.v ===== *)
(** * Exploring the state space

    transpiler/src/modelcheck/explorer.rs: the bounded search, breadth first or depth
    first, that visits each state once, checks an invariant and deadlocks, and
    reports a counterexample.  The successor function and the invariant checker are
    arguments, as in the code; what the clock answers when it is asked for the
    n-th time is an argument too.  The debug exporter only writes a file. *)

From stdpp Require Import prelude gmap sets list numbers fin_sets strings.
From Stdlib Require Import ZArith Lia.
From S2P Require Import Prelude.
From S2P Require Import RuntimeValue.
From S2P Require Import DedupKeys.

#[local] Open Scope Z_scope.

(** ** Data *)

(** [TranspileError] (error.rs), without the places in the source and the advice. *)
Inductive TranspileError :=
  | Parse (message : Str) | Annotation (message : Str) | Mode (message : Str) | Saturation (message : Str)
  | Harmony (message : Str) | Obligation (message : Str) | CodeGen (message : Str) | Config (message : Str)
  | Io (message : Str) | UnsupportedPattern (message : Str) | Multiple (errors : list TranspileError).

Abbreviation TranspileResult A := (TranspileError + A)%type.
Definition ok {A} (x : A) : TranspileResult A := inr x.

Inductive SearchMode := Bfs | Dfs.

Record ExplorationLimits := MkLimits { max_depth : Z; max_states : Z; timeout_ms : Z }.

Record ExploredState := MkExplored { explored_state : RuntimeValue; explored_depth : Z }.

Inductive ExplorationStopReason :=
  FrontierExhausted | MaxStatesReached | TimeoutReached | InvariantViolated | DeadlockDetected.

Record InvariantViolation := MkViolation { invariant : Str; violation_state : RuntimeValue; violation_depth : Z }.
Record DeadlockDetection := MkDeadlock { deadlock_state : RuntimeValue; deadlock_depth : Z }.

Record CounterexampleStep :=
  MkStep { step_branch : Str; step_state : RuntimeValue; step_diffs : list StateDiffSummary }.
Record CounterexampleTrace := MkTrace { trace_initial : RuntimeValue; trace_steps : list CounterexampleStep }.

Record TracedSuccessor := MkSuccessor { action_branch : Str; successor_state : RuntimeValue }.

Record ExplorationStats := MkStats {
  initial_states : Z; explored_states : Z; visited_states : Z; max_frontier_size : Z; frontier_size_at_stop : Z;
  successors_considered : Z; successors_enqueued : Z; duplicate_successors : Z;
  hash_compaction_collisions : Z; symmetry_collapses : Z }.
Definition stats_default : ExplorationStats := MkStats 0 0 0 0 0 0 0 0 0 0.

Record ExplorationResult := MkResult {
  explored : list ExploredState; stop_reason : ExplorationStopReason; stats : ExplorationStats;
  invariant_violation : option InvariantViolation; deadlock : option DeadlockDetection;
  counterexample : option CounterexampleTrace }.

Record FrontierItem := MkItem { item_key : Str; item_state : RuntimeValue; item_depth : Z }.
Record TraceParent := MkParent { parent_key : Str; parent_branch : Str }.

(** The counters that the search advances. *)
Definition seed_stats (n collapses : Z) : ExplorationStats := MkStats n 0 0 n 0 0 0 0 0 collapses.
Definition count_considered (s : ExplorationStats) : ExplorationStats :=
  MkStats (initial_states s) (explored_states s) (visited_states s) (max_frontier_size s) (frontier_size_at_stop s)
    (successors_considered s + 1) (successors_enqueued s) (duplicate_successors s)
    (hash_compaction_collisions s) (symmetry_collapses s).
Definition count_enqueued (s : ExplorationStats) : ExplorationStats :=
  MkStats (initial_states s) (explored_states s) (visited_states s) (max_frontier_size s) (frontier_size_at_stop s)
    (successors_considered s) (successors_enqueued s + 1) (duplicate_successors s)
    (hash_compaction_collisions s) (symmetry_collapses s).
Definition count_duplicate (collision : bool) (s : ExplorationStats) : ExplorationStats :=
  MkStats (initial_states s) (explored_states s) (visited_states s) (max_frontier_size s) (frontier_size_at_stop s)
    (successors_considered s) (successors_enqueued s) (duplicate_successors s + 1)
    (hash_compaction_collisions s + if collision then 1 else 0) (symmetry_collapses s).
Definition count_collapse (collapse : bool) (s : ExplorationStats) : ExplorationStats :=
  MkStats (initial_states s) (explored_states s) (visited_states s) (max_frontier_size s) (frontier_size_at_stop s)
    (successors_considered s) (successors_enqueued s) (duplicate_successors s)
    (hash_compaction_collisions s) (symmetry_collapses s + if collapse then 1 else 0).
Definition note_frontier (n : Z) (s : ExplorationStats) : ExplorationStats :=
  MkStats (initial_states s) (explored_states s) (visited_states s) (Z.max (max_frontier_size s) n)
    (frontier_size_at_stop s) (successors_considered s) (successors_enqueued s) (duplicate_successors s)
    (hash_compaction_collisions s) (symmetry_collapses s).

(** ** Pieces of the search *)

Definition validate_limits (limits : ExplorationLimits) : TranspileResult () :=
  if decide (max_states limits = 0) then
    inl (Config (str "Invalid model-check exploration limits: `max_states` must be > 0."))
  else if decide (timeout_ms limits = 0) then
    inl (Config (str "Invalid model-check exploration limits: `timeout_ms` must be > 0."))
  else inr ().

Definition pop_frontier (frontier : list FrontierItem) (mode : SearchMode)
  : option (FrontierItem * list FrontierItem) :=
  match mode with
  | Bfs => match frontier with item :: frontier => Some (item, frontier) | [] => None end
  | Dfs => match last frontier with Some item => Some (item, removelast frontier) | None => None end
  end.

Definition push_successors (frontier : list FrontierItem) (mode : SearchMode) (successors : list FrontierItem)
  : list FrontierItem :=
  match mode with Bfs => frontier ++ successors | Dfs => frontier ++ reverse successors end.

Definition is_hash_collision (representatives : gmap Str Str) (key canonical : Str) : bool :=
  match representatives !! key with Some existing => bool_decide (existing <> canonical) | None => false end.

(** The representatives with [raw_key], and whether it is another one. *)
Definition record_symmetry_collapse (representatives : gmap Str (gset Str)) (symmetry_key raw_key : Str)
  : gmap Str (gset Str) * bool :=
  let raw_keys := default ∅ (representatives !! symmetry_key) in
  let raw_keys' := {[raw_key]} ∪ raw_keys in
  (<[symmetry_key := raw_keys']> representatives,
   bool_decide (raw_key ∉ raw_keys) && bool_decide (1 < size raw_keys')%nat).

Definition finalize_result (explored : list ExploredState) (reason : ExplorationStopReason)
    (visited_len frontier_len : Z) (stats : ExplorationStats) (violation : option InvariantViolation)
    (deadlock : option DeadlockDetection) (counterexample : option CounterexampleTrace) : ExplorationResult :=
  MkResult explored reason
    (MkStats (initial_states stats) (seq_len explored) visited_len (max_frontier_size stats) frontier_len
       (successors_considered stats) (successors_enqueued stats) (duplicate_successors stats)
       (hash_compaction_collisions stats) (symmetry_collapses stats))
    violation deadlock counterexample.

(** ** The search with traces *)

(** What [explore_state_space_with_traces_dedup_and_debug] keeps; [ticks] counts how
    often it has asked the clock. *)
Record Search := MkSearch {
  visited : gset Str; seen_fingerprints : gset Z;
  hash_representatives : gmap Str Str; symmetry_representatives : gmap Str (gset Str);
  frontier : list FrontierItem; states_by_key : gmap Str RuntimeValue; parents : gmap Str TraceParent;
  explored_so_far : list ExploredState; search_stats : ExplorationStats; ticks : nat }.

Definition set_frontier (f : list FrontierItem) (s : Search) : Search :=
  MkSearch (visited s) (seen_fingerprints s) (hash_representatives s) (symmetry_representatives s) f
    (states_by_key s) (parents s) (explored_so_far s) (search_stats s) (ticks s).
Definition update_stats (f : ExplorationStats -> ExplorationStats) (s : Search) : Search :=
  MkSearch (visited s) (seen_fingerprints s) (hash_representatives s) (symmetry_representatives s) (frontier s)
    (states_by_key s) (parents s) (explored_so_far s) (f (search_stats s)) (ticks s).
Definition push_explored (e : ExploredState) (s : Search) : Search :=
  MkSearch (visited s) (seen_fingerprints s) (hash_representatives s) (symmetry_representatives s) (frontier s)
    (states_by_key s) (parents s) (explored_so_far s ++ [e]) (search_stats s) (ticks s).
Definition tick (s : Search) : Search :=
  MkSearch (visited s) (seen_fingerprints s) (hash_representatives s) (symmetry_representatives s) (frontier s)
    (states_by_key s) (parents s) (explored_so_far s) (search_stats s) (S (ticks s)).

(** The keys from an initial state to the failing one: [while let Some(parent)]. *)
Fixpoint parent_path (fuel : nat) (parents : gmap Str TraceParent) (cursor : Str) (path : list Str)
  : option (list Str) :=
  match fuel with
  | O => None
  | S fuel =>
      match parents !! cursor with
      | Some p => parent_path fuel parents (parent_key p) (parent_key p :: path)
      | None => Some path
      end
  end.

Section search.
Context (name : Symbol -> Str) (hash_str : Str -> Z) (hash_value : list Z -> Z).

(** The steps between successive keys ([path.windows(2)]). *)
Fixpoint trace_steps_along (states_by_key : gmap Str RuntimeValue) (parents : gmap Str TraceParent)
    (from_key : Str) (path : list Str) : option (list CounterexampleStep) :=
  match path with
  | [] => Some []
  | to_key :: path =>
      match parents !! to_key, states_by_key !! from_key, states_by_key !! to_key with
      | Some edge, Some from_state, Some to_state =>
          steps ← trace_steps_along states_by_key parents to_key path;
          Some (MkStep (parent_branch edge) to_state (summarize_state_diff name from_state to_state) :: steps)
      | _, _, _ => None
      end
  end.

Definition build_counterexample_trace (failure_key : Str) (states_by_key : gmap Str RuntimeValue)
    (parents : gmap Str TraceParent) : option CounterexampleTrace :=
  match parent_path (S (size parents)) parents failure_key [failure_key] with
  | Some (initial_key :: path) =>
      initial_state ← states_by_key !! initial_key;
      steps ← trace_steps_along states_by_key parents initial_key path;
      Some (MkTrace initial_state steps)
  | _ => None
  end.

Context (initial : list RuntimeValue) (mode : SearchMode) (limits : ExplorationLimits)
  (state_dedup : StateDedupMode) (symmetry_fields : list Str) (check_deadlock : bool)
  (successor_fn : RuntimeValue -> TranspileResult (list TracedSuccessor))
  (invariant_checker : RuntimeValue -> Z -> TranspileResult (option Str))
  (timeout_reached : nat -> bool).

Definition use_fingerprint_fast_path : bool :=
  bool_decide (symmetry_fields = []) && bool_decide (state_dedup = HashCompaction64).

Definition visited_count (s : Search) : Z :=
  if use_fingerprint_fast_path then Z.of_nat (size (seen_fingerprints s)) else Z.of_nat (size (visited s)).

(** The key of a state. *)
Definition dedup_key (state : RuntimeValue) : Str :=
  if use_fingerprint_fast_path then fingerprint_key (fingerprint hash_value state)
  else dedup_key_from_canonical hash_str (canonical_dedup_key name state symmetry_fields) state_dedup.

(** Counting the symmetric images of a state. *)
Definition note_symmetry (state : RuntimeValue) (s : Search) : Search :=
  if use_fingerprint_fast_path || bool_decide (symmetry_fields = []) then s
  else
    let '(representatives, collapse) := record_symmetry_collapse (symmetry_representatives s)
      (canonical_dedup_key name state symmetry_fields) (canonical_key name state) in
    MkSearch (visited s) (seen_fingerprints s) (hash_representatives s) representatives (frontier s)
      (states_by_key s) (parents s) (explored_so_far s) (count_collapse collapse (search_stats s)) (ticks s).

(** [visited.insert(key)], [seen_fingerprints.insert(fp)]: whether the state is new. *)
Definition is_new (state : RuntimeValue) (s : Search) : bool :=
  if use_fingerprint_fast_path then bool_decide (fingerprint hash_value state ∉ seen_fingerprints s)
  else bool_decide (dedup_key state ∉ visited s).

(** Recording a new state. *)
Definition record_state (state : RuntimeValue) (parent : option TraceParent) (s : Search) : Search :=
  let key := dedup_key state in
  let fast := use_fingerprint_fast_path in
  MkSearch
    (if fast then visited s else {[key]} ∪ visited s)
    (if fast then {[fingerprint hash_value state]} ∪ seen_fingerprints s else seen_fingerprints s)
    (if negb fast && bool_decide (state_dedup = HashCompaction64)
     then <[key := canonical_dedup_key name state symmetry_fields]> (hash_representatives s)
     else hash_representatives s)
    (symmetry_representatives s) (frontier s)
    (<[key := state]> (states_by_key s))
    (match parent with Some p => <[key := p]> (parents s) | None => parents s end)
    (explored_so_far s) (search_stats s) (ticks s).

(** The initial states. *)
Definition seed_state (s : Search) (state : RuntimeValue) : Search :=
  let s := note_symmetry state s in
  if is_new state s then
    let s := record_state state None s in
    set_frontier (frontier s ++ [MkItem (dedup_key state) state 0]) s
  else s.

Definition search_new : Search := MkSearch ∅ ∅ ∅ ∅ [] ∅ ∅ [] stats_default 0.

Definition seed : Search :=
  let s := foldl seed_state search_new initial in
  update_stats (fun st => seed_stats (seq_len (frontier s)) (symmetry_collapses st)) s.

Definition stop (s : Search) (reason : ExplorationStopReason) (violation : option InvariantViolation)
    (deadlock : option DeadlockDetection) (counterexample : option CounterexampleTrace) : ExplorationResult :=
  finalize_result (explored_so_far s) reason (visited_count s) (seq_len (frontier s)) (search_stats s)
    violation deadlock counterexample.

(** What a part of an iteration gives: the function's answer, or a state to go on from. *)
Inductive Outcome (A : Type) :=
  | Answer (result : TranspileResult ExplorationResult)
  | Next (x : A).
Arguments Answer {A} result.
Arguments Next {A} x.

(** The answer of the clock. *)
Definition check_clock {A} (s : Search) (k : Search -> Outcome A) : Outcome A :=
  if timeout_reached (ticks s) then Answer (inr (stop (tick s) TimeoutReached None None None)) else k (tick s).

(** One successor of [item]: the items to enqueue, in order. *)
Definition consider (item : FrontierItem) (successor : TracedSuccessor) (s : Search) (to_enqueue : list FrontierItem)
  : Search * list FrontierItem :=
  let state := successor_state successor in
  let s := note_symmetry state s in
  if is_new state s then
    (update_stats count_enqueued
       (record_state state (Some (MkParent (item_key item) (action_branch successor))) s),
     to_enqueue ++ [MkItem (dedup_key state) state (item_depth item + 1)])
  else
    let collision := negb use_fingerprint_fast_path &&
      is_hash_collision (hash_representatives s) (dedup_key state) (canonical_dedup_key name state symmetry_fields) in
    (update_stats (count_duplicate collision) s, to_enqueue).

Fixpoint consider_successors (item : FrontierItem) (successors : list TracedSuccessor) (s : Search)
    (to_enqueue : list FrontierItem) : Outcome (Search * list FrontierItem) :=
  match successors with
  | [] => Next (s, to_enqueue)
  | successor :: successors =>
      check_clock s (fun s =>
        let s := update_stats count_considered s in
        if decide (max_states limits <= visited_count s) then Answer (inr (stop s MaxStatesReached None None None))
        else
          let '(s, to_enqueue) := consider item successor s to_enqueue in
          consider_successors item successors s to_enqueue)
  end.

Definition expand (item : FrontierItem) (s : Search) : Outcome Search :=
  if decide (max_depth limits <= item_depth item) then Next s
  else match successor_fn (item_state item) with
  | inl e => Answer (inl e)
  | inr successors =>
      check_clock s (fun s =>
        if check_deadlock && bool_decide (successors = []) then
          Answer (inr (stop s DeadlockDetected None (Some (MkDeadlock (item_state item) (item_depth item)))
            (build_counterexample_trace (item_key item) (states_by_key s) (parents s))))
        else
          match consider_successors item successors s [] with
          | Answer r => Answer r
          | Next (s, to_enqueue) =>
              let s := set_frontier (push_successors (frontier s) mode to_enqueue) s in
              Next (update_stats (note_frontier (seq_len (frontier s))) s)
          end)
  end.

Definition visit (item : FrontierItem) (s : Search) : Outcome Search :=
  let s := push_explored (MkExplored (item_state item) (item_depth item)) s in
  match invariant_checker (item_state item) (item_depth item) with
  | inl e => Answer (inl e)
  | inr (Some invariant_name) =>
      Answer (inr (stop s InvariantViolated
        (Some (MkViolation invariant_name (item_state item) (item_depth item))) None
        (build_counterexample_trace (item_key item) (states_by_key s) (parents s))))
  | inr None => check_clock s (expand item)
  end.

(** An iteration of the loop. *)
Definition iteration (s : Search) : Outcome Search :=
  check_clock s (fun s =>
    match pop_frontier (frontier s) mode with
    | None => Answer (inr (stop s FrontierExhausted None None None))
    | Some (item, rest) => visit item (set_frontier rest s)
    end).

(** The loop, on fuel; [None] when the fuel is exhausted. *)
Fixpoint search_loop (fuel : nat) (s : Search) : option (TranspileResult ExplorationResult) :=
  match fuel with
  | O => None
  | S fuel => match iteration s with Answer r => Some r | Next s => search_loop fuel s end
  end.

(** Every iteration takes a state from the frontier, where each is put once. *)
Definition search_fuel : nat := S (length initial + Z.to_nat (max_states limits)).

Definition explore_with_traces : option (TranspileResult ExplorationResult) :=
  match validate_limits limits with
  | inl e => Some (inl e)
  | inr _ => search_loop search_fuel seed
  end.
End search.
Arguments Answer {A} result.
Arguments Next {A} x.

(** ** The search without traces *)

Record PlainSearch := MkPlain {
  plain_visited : gset Str; plain_frontier : list FrontierItem; plain_explored : list ExploredState;
  plain_stats : ExplorationStats; plain_ticks : nat }.

Section internal.
Context (name : Symbol -> Str).
Context (initial : list RuntimeValue) (mode : SearchMode) (limits : ExplorationLimits)
  (successor_fn : RuntimeValue -> TranspileResult (list RuntimeValue))
  (invariant_checker : RuntimeValue -> Z -> TranspileResult (option Str)) (check_deadlock : bool)
  (timeout_reached : nat -> bool).

Definition plain_stop (s : PlainSearch) (reason : ExplorationStopReason) (violation : option InvariantViolation)
    (deadlock : option DeadlockDetection) : ExplorationResult :=
  finalize_result (plain_explored s) reason (Z.of_nat (size (plain_visited s))) (seq_len (plain_frontier s)) (plain_stats s)
    violation deadlock None.

Definition plain_clock {A} (s : PlainSearch) (k : PlainSearch -> Outcome A) : Outcome A :=
  let s' := MkPlain (plain_visited s) (plain_frontier s) (plain_explored s) (plain_stats s) (S (plain_ticks s)) in
  if timeout_reached (plain_ticks s) then Answer (inr (plain_stop s' TimeoutReached None None)) else k s'.

Definition plain_seed_state (s : PlainSearch) (state : RuntimeValue) : PlainSearch :=
  let key := canonical_key name state in
  if decide (key ∈ plain_visited s) then s
  else MkPlain ({[key]} ∪ plain_visited s) (plain_frontier s ++ [MkItem key state 0]) (plain_explored s)
    (plain_stats s) (plain_ticks s).

Definition plain_seed : PlainSearch :=
  let s := foldl plain_seed_state (MkPlain ∅ [] [] stats_default 0) initial in
  MkPlain (plain_visited s) (plain_frontier s) (plain_explored s)
    (seed_stats (seq_len (plain_frontier s)) 0) (plain_ticks s).

Fixpoint plain_successors (item : FrontierItem) (successors : list RuntimeValue) (s : PlainSearch)
    (to_enqueue : list FrontierItem) : Outcome (PlainSearch * list FrontierItem) :=
  match successors with
  | [] => Next (s, to_enqueue)
  | successor :: successors =>
      plain_clock s (fun s =>
        let st := count_considered (plain_stats s) in
        let s := MkPlain (plain_visited s) (plain_frontier s) (plain_explored s) st (plain_ticks s) in
        if decide (max_states limits <= Z.of_nat (size (plain_visited s))) then
          Answer (inr (plain_stop s MaxStatesReached None None))
        else
          let key := canonical_key name successor in
          if decide (key ∈ plain_visited s) then
            plain_successors item successors
              (MkPlain (plain_visited s) (plain_frontier s) (plain_explored s) (count_duplicate false st) (plain_ticks s))
              to_enqueue
          else
            plain_successors item successors
              (MkPlain ({[key]} ∪ plain_visited s) (plain_frontier s) (plain_explored s) (count_enqueued st) (plain_ticks s))
              (to_enqueue ++ [MkItem key successor (item_depth item + 1)]))
  end.

Definition plain_iteration (s : PlainSearch) : Outcome PlainSearch :=
  plain_clock s (fun s =>
    match pop_frontier (plain_frontier s) mode with
    | None => Answer (inr (plain_stop s FrontierExhausted None None))
    | Some (item, rest) =>
        let s := MkPlain (plain_visited s) rest
          (plain_explored s ++ [MkExplored (item_state item) (item_depth item)]) (plain_stats s) (plain_ticks s) in
        match invariant_checker (item_state item) (item_depth item) with
        | inl e => Answer (inl e)
        | inr (Some invariant_name) =>
            Answer (inr (plain_stop s InvariantViolated
              (Some (MkViolation invariant_name (item_state item) (item_depth item))) None))
        | inr None =>
            plain_clock s (fun s =>
              if decide (max_depth limits <= item_depth item) then Next s
              else match successor_fn (item_state item) with
              | inl e => Answer (inl e)
              | inr successors =>
                  plain_clock s (fun s =>
                    if check_deadlock && bool_decide (successors = []) then
                      Answer (inr (plain_stop s DeadlockDetected None
                        (Some (MkDeadlock (item_state item) (item_depth item)))))
                    else
                      match plain_successors item successors s [] with
                      | Answer r => Answer r
                      | Next (s, to_enqueue) =>
                          let f := push_successors (plain_frontier s) mode to_enqueue in
                          Next (MkPlain (plain_visited s) f (plain_explored s)
                            (note_frontier (seq_len f) (plain_stats s)) (plain_ticks s))
                      end)
              end)
        end
    end).

Fixpoint plain_loop (fuel : nat) (s : PlainSearch) : option (TranspileResult ExplorationResult) :=
  match fuel with
  | O => None
  | S fuel => match plain_iteration s with Answer r => Some r | Next s => plain_loop fuel s end
  end.

Definition explore_state_space_internal : option (TranspileResult ExplorationResult) :=
  match validate_limits limits with
  | inl e => Some (inl e)
  | inr _ => plain_loop (search_fuel initial limits) plain_seed
  end.
End internal.

(** [explore_state_space], [.._with_invariants], [.._with_checks]. *)
Definition explore_state_space name initial mode limits successor_fn :=
  explore_state_space_internal name initial mode limits successor_fn (fun _ _ => inr None) false.
Definition explore_state_space_with_invariants name initial mode limits successor_fn invariant_checker :=
  explore_state_space_internal name initial mode limits successor_fn invariant_checker false.
Definition explore_state_space_with_checks name initial mode limits (check_deadlock : bool) successor_fn invariant_checker :=
  explore_state_space_internal name initial mode limits successor_fn invariant_checker check_deadlock.

(** * The search without traces is the search with traces

    [explore_state_space_internal] answers what
    [explore_state_space_with_traces_dedup_and_debug] does with exact keys, but for
    the counterexample. *)

Definition erase_trace (r : TranspileResult ExplorationResult) : TranspileResult ExplorationResult :=
  match r with
  | inl e => inl e
  | inr res => inr (MkResult (explored res) (stop_reason res) (stats res) (invariant_violation res) (deadlock res) None)
  end.

(** Successors without a branch. *)
Definition unlabelled (f : RuntimeValue -> TranspileResult (list RuntimeValue)) (s : RuntimeValue)
  : TranspileResult (list TracedSuccessor) :=
  match f s with inl e => inl e | inr l => inr (MkSuccessor [] <$> l) end.

Section plain.
Context (name : Symbol -> Str) (hash_str : Str -> Z) (hash_value : list Z -> Z).
Context (initial : list RuntimeValue) (mode : SearchMode) (limits : ExplorationLimits)
  (successor_fn : RuntimeValue -> TranspileResult (list RuntimeValue))
  (invariant_checker : RuntimeValue -> Z -> TranspileResult (option Str)) (check_deadlock : bool)
  (timeout_reached : nat -> bool).

Record Same (s : Search) (p : PlainSearch) : Prop := {
  same_visited : visited s = plain_visited p;
  same_frontier : frontier s = plain_frontier p;
  same_explored : explored_so_far s = plain_explored p;
  same_stats : search_stats s = plain_stats p;
  same_ticks : ticks s = plain_ticks p;
  same_hashes : hash_representatives s = ∅ }.

Definition same_outcome {A B} (R : A -> B -> Prop) (o : Outcome A) (o' : Outcome B) : Prop :=
  match o, o' with
  | Answer r, Answer r' => erase_trace r = r'
  | Next x, Next y => R x y
  | _, _ => False
  end.

Lemma same_stop s p reason v d c :
  Same s p -> erase_trace (inr (stop Canonical [] s reason v d c)) = inr (plain_stop p reason v d).
Proof.
  intros [Hv Hf He Hst Ht Hh]. unfold stop, plain_stop, finalize_result, visited_count.
  change (use_fingerprint_fast_path Canonical []) with false. cbn. by rewrite Hv, Hf, He, Hst.
Qed.

Lemma same_clock {A B} (R : A -> B -> Prop) s p k k' :
  Same s p -> (forall s p, Same s p -> same_outcome R (k s) (k' p)) ->
  same_outcome R (check_clock Canonical [] timeout_reached s k) (plain_clock timeout_reached p k').
Proof.
  intros HS Hk. unfold check_clock, plain_clock. pose proof HS as [Hv Hf He Hst Ht Hh]. rewrite Ht.
  assert (Same (tick s) (MkPlain (plain_visited p) (plain_frontier p) (plain_explored p) (plain_stats p) (S (plain_ticks p)))) as HS'
    by (split; cbn; congruence).
  destruct (timeout_reached (plain_ticks p)); [by apply same_stop|by apply Hk].
Qed.

Lemma key_plain st : dedup_key name hash_str hash_value Canonical [] st = canonical_key name st.
Proof. done. Qed.

(** The fields of a search that records with exact keys. *)
Local Ltac record_fields :=
  cbn; rewrite ?(bool_decide_false (Canonical = HashCompaction64)) by done; rewrite ?key_plain; cbn; congruence.

Lemma same_successors item l s p enq :
  Same s p ->
  same_outcome (fun x y => Same x.1 y.1 /\ x.2 = y.2)
    (consider_successors name hash_str hash_value limits Canonical [] timeout_reached item (MkSuccessor [] <$> l) s enq)
    (plain_successors name limits timeout_reached item l p enq).
Proof.
  revert s p enq. induction l as [|x l IH]; intros s p enq HS; [done|].
  cbn [fmap list_fmap consider_successors plain_successors]. apply same_clock; [done|].
  clear s p HS. intros s p HS. pose proof HS as [Hv Hf He Hst Ht Hh].
  set (s1 := update_stats count_considered s).
  set (p1 := MkPlain (plain_visited p) (plain_frontier p) (plain_explored p) (count_considered (plain_stats p)) (plain_ticks p)).
  assert (Same s1 p1) as HS1 by (split; cbn; congruence).
  assert (visited_count Canonical [] s1 = Z.of_nat (size (plain_visited p1))) as ->.
  { unfold visited_count. change (use_fingerprint_fast_path Canonical []) with false. cbn. by rewrite Hv. }
  case_decide; [by apply same_stop|]. unfold consider, is_new. cbn [successor_state].
  change (note_symmetry name Canonical [] x s1) with s1.
  change (use_fingerprint_fast_path Canonical []) with false. cbn [negb andb].
  rewrite key_plain. change (visited s1) with (visited s). rewrite Hv.
  change (plain_visited p1) with (plain_visited p). destruct (decide (canonical_key name x ∈ plain_visited p)) as [Hin|Hnin].
  - rewrite bool_decide_false by (intros ?; contradiction). apply IH. split; cbn; try congruence.
    unfold is_hash_collision. change (hash_representatives s1) with (hash_representatives s). rewrite Hh, lookup_empty. congruence.
  - rewrite bool_decide_true by done. apply IH. split; record_fields.
Qed.

Lemma same_iteration s p :
  Same s p ->
  same_outcome Same
    (iteration name hash_str hash_value mode limits Canonical [] check_deadlock (unlabelled successor_fn)
      invariant_checker timeout_reached s)
    (plain_iteration name mode limits successor_fn invariant_checker check_deadlock timeout_reached p).
Proof.
  intros HS. unfold iteration, plain_iteration. apply same_clock; [done|]. clear s p HS. intros s p HS.
  pose proof HS as [Hv Hf He Hst Ht Hh]. rewrite Hf. destruct (pop_frontier (plain_frontier p) mode) as [[item rest]|]; [|by apply same_stop].
  unfold visit. set (s1 := push_explored _ _). set (p1 := MkPlain _ _ _ _ _).
  assert (Same s1 p1) as HS1 by (split; cbn; congruence).
  destruct (invariant_checker (item_state item) (item_depth item)) as [e|[v|]]; [done|by apply same_stop|].
  apply same_clock; [done|]. clear s p HS Hv Hf He Hst Ht Hh s1 p1 HS1. intros s p HS. unfold expand, unlabelled.
  case_decide; [done|]. destruct (successor_fn (item_state item)) as [e|l]; [done|].
  apply same_clock; [done|]. clear s p HS. intros s p HS.
  assert (bool_decide (MkSuccessor [] <$> l = []) = bool_decide (l = [])) as -> by by destruct l.
  destruct (check_deadlock && _); [by apply same_stop|].
  pose proof (same_successors item l s p [] HS) as Hs.
  destruct (consider_successors _ _ _ _ _ _ _ _ _ _ _) as [r|[s1 enq]], (plain_successors _ _ _ _ _ _ _) as [r'|[p1 enq']];
    try done. destruct Hs as [[Hv Hf He Hst Ht Hh] [= ->]]. cbn [fst snd] in *. split; cbn; congruence.
Qed.

Lemma same_loop fuel s p :
  Same s p ->
  erase_trace <$> search_loop name hash_str hash_value mode limits Canonical [] check_deadlock (unlabelled successor_fn)
    invariant_checker timeout_reached fuel s
  = plain_loop name mode limits successor_fn invariant_checker check_deadlock timeout_reached fuel p.
Proof.
  revert s p. induction fuel as [|fuel IH]; intros s p HS; [done|]. cbn.
  pose proof (same_iteration s p HS) as Hi. destruct (iteration _ _ _ _ _ _ _ _ _ _ _ _), (plain_iteration _ _ _ _ _ _ _ _); try done.
  - cbn in Hi |- *. by rewrite Hi.
  - by apply IH.
Qed.

Lemma same_seed : Same (seed name hash_str hash_value initial Canonical []) (plain_seed name initial).
Proof.
  assert (forall l s p, Same s p -> symmetry_collapses (search_stats s) = 0 ->
    Same (foldl (seed_state name hash_str hash_value Canonical []) s l) (foldl (plain_seed_state name) p l)
    /\ symmetry_collapses (search_stats (foldl (seed_state name hash_str hash_value Canonical []) s l)) = 0) as H.
  { induction l as [|x l IH]; intros s p HS Hc; [done|]. cbn. apply IH.
    - pose proof HS as [Hv Hf He Hst Ht Hh]. unfold seed_state, plain_seed_state, is_new.
      change (note_symmetry name Canonical [] x s) with s.
      change (use_fingerprint_fast_path Canonical []) with false. rewrite key_plain, Hv.
      case_decide as Hin; [by rewrite bool_decide_false by (intros ?; contradiction)|].
      rewrite bool_decide_true by done. split; record_fields.
    - unfold seed_state. change (note_symmetry name Canonical [] x s) with s. by destruct (is_new _ _ _ _ _ _ _). }
  destruct (H initial search_new (MkPlain ∅ [] [] stats_default 0)) as [HS Hc]; [done|done|].
  unfold seed, plain_seed. set (s := foldl _ search_new initial) in *. set (p := foldl _ (MkPlain _ _ _ _ _) initial) in *.
  destruct HS as [Hv Hf He Hst Ht Hh]. split; cbn; congruence.
Qed.

Lemma internal_with_traces :
  explore_state_space_internal name initial mode limits successor_fn invariant_checker check_deadlock timeout_reached
  = erase_trace <$> explore_with_traces name hash_str hash_value initial mode limits Canonical [] check_deadlock
      (unlabelled successor_fn) invariant_checker timeout_reached.
Proof.
  unfold explore_state_space_internal, explore_with_traces. destruct (validate_limits limits); [done|].
  symmetry. apply same_loop, same_seed.
Qed.
End plain.
