(* ===== verification/ExplorerInvariants.v ===== *)
(** * Invariants of the search

    Every recorded state has a path from an initial state, which the parents spell
    out; what has been explored has its successors recorded, in a breadth-first
    search no deeper than one step below; and every iteration uses up a state. *)

From stdpp Require Import prelude gmap sets list numbers fin_sets strings.
From Stdlib Require Import ZArith Lia Sorted.
From S2P Require Import Prelude.
From S2P Require Import RuntimeValue.
From S2P Require Import DedupKeys.
From S2P Require Import Explorer.

#[local] Open Scope Z_scope.

(** ** Traces *)

Section traces.
Context (name : Symbol -> Str) (initial : list RuntimeValue)
  (successor_fn : RuntimeValue -> TranspileResult (list TracedSuccessor)).

(** A step of the program, labelled with its branch. *)
Definition takes (a : Str) (s t : RuntimeValue) : Prop :=
  exists l, successor_fn s = inr l /\ MkSuccessor a t ∈ l.

(** The steps lead from [s] to [t], and each tells what it changed. *)
Fixpoint steps_lead (s : RuntimeValue) (steps : list CounterexampleStep) (t : RuntimeValue) : Prop :=
  match steps with
  | [] => s = t
  | step :: steps =>
      takes (step_branch step) s (step_state step) /\ step_diffs step = summarize_state_diff name s (step_state step)
      /\ steps_lead (step_state step) steps t
  end.

Definition trace_to (t : RuntimeValue) (d : Z) (tr : CounterexampleTrace) : Prop :=
  trace_initial tr ∈ initial /\ steps_lead (trace_initial tr) (trace_steps tr) t /\ seq_len (trace_steps tr) = d.

Lemma steps_lead_app s l t k u : steps_lead s l t -> steps_lead t k u -> steps_lead s (l ++ k) u.
Proof. revert s. induction l as [|x l IH]; cbn; [by intros s ->|]. naive_solver. Qed.

Section maps.
Context (M : gmap Str RuntimeValue) (P : gmap Str TraceParent).

(** The parents lead from the key to an initial state in [d] steps. *)
Inductive traced : Str -> Z -> Prop :=
  | traced_initial k s : M !! k = Some s -> s ∈ initial -> P !! k = None -> traced k 0
  | traced_step k s pk ps a d :
      traced pk d -> P !! k = Some (MkParent pk a) -> M !! k = Some s -> M !! pk = Some ps -> takes a ps s ->
      traced k (d + 1).

Lemma traced_nonneg k d : traced k d -> 0 <= d.
Proof. induction 1; lia. Qed.

Lemma traced_state k d : traced k d -> exists s, M !! k = Some s.
Proof. destruct 1; eauto. Qed.

Lemma traced_chain k d : traced k d -> chain parent_key P k (Z.to_nat d).
Proof.
  induction 1 as [k s H1 H2 H3|k s pk ps a d H IH H1 H2 H3 H4]; [by apply chain_root|].
  pose proof (traced_nonneg _ _ H). rewrite Z2Nat.inj_add by lia. rewrite Nat.add_comm. by eapply chain_step.
Qed.

Lemma traced_depth k d : traced k d -> d <= Z.of_nat (size P).
Proof. intros Ht. pose proof (traced_nonneg _ _ Ht). apply traced_chain, chain_depth in Ht. lia. Qed.

(** The trace is found, and is one of the program. *)
Lemma parent_path_traced k d s :
  traced k d -> M !! k = Some s -> forall fuel acc steps_acc,
  d < Z.of_nat fuel -> trace_steps_along name M P k acc = Some steps_acc ->
  exists k0 path s0 steps, parent_path fuel P k (k :: acc) = Some (k0 :: path)
    /\ trace_steps_along name M P k0 path = Some (steps ++ steps_acc)
    /\ M !! k0 = Some s0 /\ s0 ∈ initial /\ steps_lead s0 steps s /\ seq_len steps = d.
Proof.
  intros H. revert s. induction H as [k s0 H1 H2 H3|k s0 pk ps a d H IH H1 H2 H3 H4]; intros s Hs fuel acc steps_acc Hfuel Hacc.
  - destruct fuel as [|fuel]; [lia|]. cbn. rewrite H3. exists k, acc, s, []. by simplify_eq.
  - pose proof (traced_nonneg _ _ H). destruct fuel as [|fuel]; [lia|]. cbn. rewrite H1. cbn. rewrite Hs in H2. injection H2 as <-.
    destruct (IH ps H3 fuel (k :: acc) (MkStep a s (summarize_state_diff name ps s) :: steps_acc)) as
      (k0 & path & s1 & steps & Hp & Hsteps & Hs1 & Hin & Hlead & Hlen); [lia|cbn; by rewrite H1, H3, Hs, Hacc|].
    exists k0, path, s1, (steps ++ [MkStep a s (summarize_state_diff name ps s)]).
    split_and!; try done.
    + by rewrite <- app_assoc.
    + by eapply steps_lead_app.
    + rewrite seq_len_app. change (seq_len [_]) with 1. lia.
Qed.

Lemma build_trace_traced k d s :
  traced k d -> M !! k = Some s -> exists tr, build_counterexample_trace name k M P = Some tr /\ trace_to s d tr.
Proof.
  intros Ht Hs. pose proof (traced_depth _ _ Ht).
  destruct (parent_path_traced k d s Ht Hs (S (size P)) [] []) as (k0 & path & s0 & steps & Hp & Hsteps & H0 & Hin & Hlead & Hlen); [lia|done|].
  exists (MkTrace s0 steps). split; [|done]. unfold build_counterexample_trace. rewrite Hp, H0. cbn [mbind option_bind].
  by rewrite Hsteps, app_nil_r.
Qed.
End maps.

(** Recording a new state leaves the traces as they are. *)
Lemma traced_mono M M' P P' k d :
  M ⊆ M' -> (forall x, x ∈ dom M -> P' !! x = P !! x) -> traced M P k d -> traced M' P' k d.
Proof.
  intros HM HP. induction 1 as [k s H1 H2 H3|k s pk ps a d H IH H1 H2 H3 H4].
  - apply (traced_initial _ _ k s); [by eapply lookup_weaken|done|]. rewrite HP; [done|by eapply elem_of_dom_2].
  - apply (traced_step _ _ k s pk ps a); [done| |by eapply lookup_weaken..|done].
    rewrite HP; [done|by eapply elem_of_dom_2].
Qed.
End traces.

(** ** The recorded states *)

Lemma bool_decide_notin `{Countable A} (x : A) (X : gset A) : bool_decide (x ∉ X) = false <-> x ∈ X.
Proof. rewrite bool_decide_eq_false. split; [apply dec_stable|auto]. Qed.

Section search.
Context (name : Symbol -> Str) (hash_str : Str -> Z) (hash_value : list Z -> Z).
Context (initial : list RuntimeValue) (mode : SearchMode) (limits : ExplorationLimits)
  (state_dedup : StateDedupMode) (symmetry_fields : list Str) (check_deadlock : bool)
  (successor_fn : RuntimeValue -> TranspileResult (list TracedSuccessor))
  (invariant_checker : RuntimeValue -> Z -> TranspileResult (option Str))
  (timeout_reached : nat -> bool).

Notation key := (dedup_key name hash_str hash_value state_dedup symmetry_fields).
Notation is_new := (is_new name hash_str hash_value state_dedup symmetry_fields).
Notation record_state := (record_state name hash_str hash_value state_dedup symmetry_fields).
Notation visited_count := (visited_count state_dedup symmetry_fields).
Notation note_symmetry := (note_symmetry name state_dedup symmetry_fields).
Notation fast := (use_fingerprint_fast_path state_dedup symmetry_fields).
Notation traced s := (traced initial successor_fn (states_by_key s) (parents s)).

(** The states that are recorded are those of [pool], each with its depth. *)
Record Core (s : Search) (pool : list (RuntimeValue * Z)) : Prop := {
  core_known : forall st, is_new st s = false <-> key st ∈ dom (states_by_key s);
  core_count : visited_count s = Z.of_nat (size (states_by_key s));
  core_parents : dom (parents s) ⊆ dom (states_by_key s);
  core_pool : forall st d, (st, d) ∈ pool -> states_by_key s !! key st = Some st /\ traced s (key st) d;
  core_cover : forall k st, states_by_key s !! k = Some st -> k = key st /\ exists d, (st, d) ∈ pool }.

(** What else the search keeps does not matter. *)
Definition same_maps (s s' : Search) : Prop :=
  visited s = visited s' /\ seen_fingerprints s = seen_fingerprints s' /\ states_by_key s = states_by_key s'
  /\ parents s = parents s'.

Lemma is_new_maps st s s' : same_maps s s' -> is_new st s = is_new st s'.
Proof. intros (H1 & H2 & _). unfold Explorer.is_new. by rewrite H1, H2. Qed.

Lemma visited_count_maps s s' : same_maps s s' -> visited_count s = visited_count s'.
Proof. intros (H1 & H2 & _). unfold Explorer.visited_count. by rewrite H1, H2. Qed.

Lemma core_maps s s' pool pool' :
  same_maps s s' -> (forall p, p ∈ pool <-> p ∈ pool') -> Core s pool -> Core s' pool'.
Proof.
  intros Hs Hp [H1 H2 H3 H4 H5]. pose proof Hs as (_ & _ & Hm & Hpar). split.
  - intros st. by rewrite <- (is_new_maps st s s'), <- Hm.
  - by rewrite <- (visited_count_maps s s'), <- Hm.
  - by rewrite <- Hm, <- Hpar.
  - intros st d Hin%Hp. rewrite <- Hm, <- Hpar. by apply H4.
  - intros k st. rewrite <- Hm. intros [-> [d Hd]]%H5. split; [done|]. exists d. by apply Hp.
Qed.

Lemma same_maps_refl s : same_maps s s.
Proof. done. Qed.

Lemma same_maps_trans s t u : same_maps s t -> same_maps t u -> same_maps s u.
Proof. unfold same_maps. intuition congruence. Qed.

Lemma note_symmetry_maps st s : same_maps s (note_symmetry st s).
Proof. unfold Explorer.note_symmetry. destruct (_ || _); [done|]. by destruct (record_symmetry_collapse _ _ _). Qed.

Lemma fingerprint_range v : 0 <= fingerprint hash_value v < U64_MODULUS.
Proof. apply Z.mod_pos_bound. done. Qed.

Lemma key_fast st st' : fast = true -> key st = key st' <-> fingerprint hash_value st = fingerprint hash_value st'.
Proof.
  intros Hf. unfold dedup_key. rewrite Hf. split; [|by intros ->].
  apply fingerprint_key_inj; apply fingerprint_range.
Qed.

(** Whether a state is new depends on its key. *)
Lemma is_new_record st st' parent s :
  is_new st' (record_state st parent s) = false <-> is_new st' s = false \/ key st' = key st.
Proof.
  unfold Explorer.is_new, Explorer.record_state. destruct fast eqn:Hf; cbn; rewrite !bool_decide_notin.
  - rewrite key_fast by done. set_solver.
  - set_solver.
Qed.

Lemma visited_count_record st parent s :
  is_new st s = true -> visited_count (record_state st parent s) = visited_count s + 1.
Proof.
  unfold Explorer.is_new, Explorer.record_state, Explorer.visited_count.
  destruct fast eqn:Hf; cbn; rewrite bool_decide_eq_true; intros Hn;
    rewrite size_union, size_singleton by set_solver; lia.
Qed.

(** A parent that leads to a new state. *)
Definition parent_ok (s : Search) (parent : option TraceParent) (st : RuntimeValue) (d : Z) : Prop :=
  match parent with
  | None => st ∈ initial /\ d = 0
  | Some p => exists ps d', d = d' + 1 /\ states_by_key s !! parent_key p = Some ps /\ traced s (parent_key p) d'
      /\ takes successor_fn (parent_branch p) ps st
  end.

Lemma core_record s pool st parent d :
  Core s pool -> is_new st s = true -> parent_ok s parent st d -> Core (record_state st parent s) (pool ++ [(st, d)]).
Proof.
  intros HC Hnew Hpar. pose proof HC as [H1 H2 H3 H4 H5].
  assert (key st ∉ dom (states_by_key s)) as Hnot by (intros Hin%H1; congruence).
  assert (parents s !! key st = None) as HnoP by (apply not_elem_of_dom; set_solver).
  assert (states_by_key s ⊆ <[key st := st]> (states_by_key s)) as Hsub by by apply insert_subseteq, not_elem_of_dom.
  assert (forall k d, traced s k d -> traced (record_state st parent s) k d) as Hmono.
  { intros k d0. apply traced_mono; [done|]. intros x Hx. cbn. destruct parent as [p|]; [|done].
    apply lookup_insert_ne. intros <-. by apply Hnot. }
  split.
  - intros st'. rewrite is_new_record, H1. cbn. rewrite dom_insert_L. set_solver.
  - rewrite visited_count_record by done. cbn. rewrite map_size_insert_None by by apply not_elem_of_dom.
    rewrite H2. lia.
  - cbn. destruct parent as [p|]; rewrite ?dom_insert_L; set_solver.
  - intros st' d' [Hin|[= -> ->]%list_elem_of_singleton]%elem_of_app.
    + destruct (H4 _ _ Hin) as [Hl Ht]. split; [by eapply lookup_weaken|by apply Hmono].
    + split; [by apply lookup_insert_eq|]. destruct parent as [p|].
      * destruct Hpar as (ps & d' & -> & Hps & Ht & Htakes).
        apply (traced_step _ _ _ _ _ st (parent_key p) ps (parent_branch p)); cbn.
        -- by apply Hmono.
        -- rewrite lookup_insert_eq. by destruct p.
        -- apply lookup_insert_eq.
        -- by eapply lookup_weaken.
        -- done.
      * destruct Hpar as [Hin ->]. apply (traced_initial _ _ _ _ _ st); [apply lookup_insert_eq|done|done].
  - intros k st'. cbn. rewrite lookup_insert_Some. intros [[<- <-]|[_ Hl]].
    + split; [done|]. exists d. apply elem_of_app. right. by left.
    + destruct (H5 _ _ Hl) as [-> [d' Hd']]. split; [done|]. exists d'. apply elem_of_app. by left.
Qed.

(** ** The invariant of the loop *)

Definition keyed (it : FrontierItem) : Prop := item_key it = key (item_state it).

Definition pool_of (s : Search) (to_enqueue : list FrontierItem) : list (RuntimeValue * Z) :=
  ((fun e => (explored_state e, explored_depth e)) <$> explored_so_far s)
  ++ ((fun it => (item_state it, item_depth it)) <$> frontier s ++ to_enqueue).

(** The state, or one with its key, is recorded; breadth first, at most a step below. *)
Definition reached (pool : list (RuntimeValue * Z)) (st : RuntimeValue) (d : Z) : Prop :=
  exists st' d', (st', d') ∈ pool /\ key st' = key st /\ (mode = Bfs -> d' <= d + 1).

Definition expanded (pool : list (RuntimeValue * Z)) (e : ExploredState) : Prop :=
  exists l, successor_fn (explored_state e) = inr l /\ (check_deadlock = true -> l <> [])
    /\ forall t, t ∈ l -> reached pool (successor_state t) (explored_depth e).

(** The frontier of a breadth-first search holds two levels, in order. *)
Definition levels (s : Search) : Prop :=
  StronglySorted (fun x y => item_depth x <= item_depth y <= item_depth x + 1) (frontier s)
  /\ forall e it, e ∈ explored_so_far s -> it ∈ frontier s -> explored_depth e <= item_depth it.

Record Loop (s : Search) : Prop := {
  loop_core : Core s (pool_of s []);
  loop_keyed : forall it, it ∈ frontier s -> keyed it /\ item_depth it <= Z.max 0 (max_depth limits);
  loop_initial : forall st, st ∈ initial -> exists st', (st', 0) ∈ pool_of s [] /\ key st' = key st;
  loop_checked : forall e, e ∈ explored_so_far s -> invariant_checker (explored_state e) (explored_depth e) = inr None;
  loop_expanded : forall e, e ∈ explored_so_far s -> explored_depth e < max_depth limits -> expanded (pool_of s []) e;
  loop_levels : mode = Bfs -> levels s }.

(** What an answer promises. *)
Definition result_ok (r : TranspileResult ExplorationResult) : Prop :=
  match r with
  | inl e => exists st, successor_fn st = inl e \/ exists d, invariant_checker st d = inl e
  | inr res =>
      match stop_reason res with
      | FrontierExhausted =>
          (invariant_violation res, deadlock res, counterexample res) = (None, None, None)
          /\ exists s, Loop s /\ frontier s = [] /\ explored res = explored_so_far s
      | InvariantViolated => exists v tr, invariant_violation res = Some v /\ counterexample res = Some tr
          /\ trace_to name initial successor_fn (violation_state v) (violation_depth v) tr
          /\ invariant_checker (violation_state v) (violation_depth v) = inr (Some (invariant v))
          /\ exists s item rest, Loop s /\ pop_frontier (frontier s) mode = Some (item, rest)
               /\ item_depth item = violation_depth v
      | DeadlockDetected => exists v tr, deadlock res = Some v /\ counterexample res = Some tr
          /\ trace_to name initial successor_fn (deadlock_state v) (deadlock_depth v) tr
          /\ check_deadlock = true /\ successor_fn (deadlock_state v) = inr []
      | TimeoutReached => exists n, timeout_reached n = true
      | MaxStatesReached => max_states limits <= visited_states (stats res)
      end
  end.

Definition holds {A} (Q : A -> Prop) (o : Outcome A) : Prop :=
  match o with Answer r => result_ok r | Next x => Q x end.

Notation check_clock := (check_clock state_dedup symmetry_fields timeout_reached).

Lemma check_clock_holds {A} (Q : A -> Prop) s (k : Search -> Outcome A) :
  holds Q (k (tick s)) -> holds Q (check_clock s k).
Proof. intros H. unfold Explorer.check_clock. destruct (timeout_reached (ticks s)) eqn:Ht; [by exists (ticks s)|done]. Qed.

(** *** The successors of one state *)

Notation consider := (consider name hash_str hash_value state_dedup symmetry_fields).
Notation consider_successors :=
  (consider_successors name hash_str hash_value limits state_dedup symmetry_fields timeout_reached).

Definition found (pool : list (RuntimeValue * Z)) (st : RuntimeValue) : Prop :=
  exists st' d', (st', d') ∈ pool /\ key st' = key st.

(** From [s] to [s'], the items [new] were found; [pool] grew. *)
Record Progress (item : FrontierItem) (s s' : Search) (new : list FrontierItem) : Prop := {
  progress_frontier : frontier s' = frontier s;
  progress_explored : explored_so_far s' = explored_so_far s;
  progress_new : forall it, it ∈ new -> keyed it /\ item_depth it = item_depth item + 1;
  progress_count : visited_count s' = visited_count s + seq_len new;
  progress_max : new <> [] -> visited_count s' <= max_states limits;
  progress_traced : forall k st d, states_by_key s !! k = Some st -> traced s k d ->
    states_by_key s' !! k = Some st /\ traced s' k d }.

Lemma pool_mono s s' enq new p :
  frontier s' = frontier s -> explored_so_far s' = explored_so_far s ->
  p ∈ pool_of s enq -> p ∈ pool_of s' (enq ++ new).
Proof. intros Hf He. unfold pool_of. rewrite Hf, He, app_assoc, !fmap_app. rewrite !elem_of_app. tauto. Qed.

Lemma progress_refl item s : Progress item s s [].
Proof. split; try done; [by intros it ?%not_elem_of_nil|]. change (seq_len []) with 0. lia. Qed.

Lemma progress_trans item s t u new new' :
  Progress item s t new -> Progress item t u new' -> Progress item s u (new ++ new').
Proof.
  intros [F1 E1 N1 C1 M1 T1] [F2 E2 N2 C2 M2 T2]. split; [congruence|congruence| | | |].
  - intros it [?|?]%elem_of_app; auto.
  - rewrite seq_len_app. lia.
  - intros Hne. destruct new' as [|x new']; [|by apply M2]. change (seq_len []) with 0 in C2.
    destruct new as [|y new]; [done|]. rewrite C2. pose proof (M1 ltac:(done)). lia.
  - intros k st d H1 H2. destruct (T1 k st d H1 H2). by apply T2.
Qed.

Lemma progress_maps item s s' :
  same_maps s s' -> frontier s' = frontier s -> explored_so_far s' = explored_so_far s -> Progress item s s' [].
Proof.
  intros Hm Hf He. split; try done; [by intros it ?%not_elem_of_nil| |].
  - rewrite (visited_count_maps s s') by done. change (seq_len []) with 0. lia.
  - destruct Hm as (_ & _ & <- & <-). done.
Qed.

Lemma note_symmetry_frontier st s :
  frontier (note_symmetry st s) = frontier s /\ explored_so_far (note_symmetry st s) = explored_so_far s.
Proof. unfold Explorer.note_symmetry. destruct (_ || _); [done|]. by destruct (record_symmetry_collapse _ _ _). Qed.

(** An item that can be expanded. *)
Definition expandable (s : Search) (item : FrontierItem) : Prop :=
  states_by_key s !! item_key item = Some (item_state item) /\ traced s (item_key item) (item_depth item).

Lemma progress_expandable item s s' new : Progress item s s' new -> expandable s item -> expandable s' item.
Proof. intros HP [H1 H2]. by apply HP. Qed.

Lemma core_found s pool st : Core s pool -> is_new st s = false -> found pool st.
Proof.
  intros HC Hn%(core_known _ _ HC). apply elem_of_dom in Hn as [st' Hst'].
  destruct (core_cover _ _ HC _ _ Hst') as [Hk [d Hd]]. by exists st', d.
Qed.

Lemma consider_spec item t s enq s' enq' :
  Core s (pool_of s enq) -> expandable s item -> takes successor_fn (action_branch t) (item_state item) (successor_state t) ->
  visited_count s < max_states limits -> consider item t s enq = (s', enq') ->
  exists new, enq' = enq ++ new /\ Progress item s s' new /\ Core s' (pool_of s' enq')
    /\ found (pool_of s' enq') (successor_state t).
Proof.
  intros HC [Hst Htr] Htakes Hroom. unfold Explorer.consider.
  set (s1 := note_symmetry (successor_state t) s).
  destruct (note_symmetry_frontier (successor_state t) s) as [Hf He].
  pose proof (note_symmetry_maps (successor_state t) s) as Hm. fold s1 in Hf, He, Hm.
  assert (Core s1 (pool_of s enq)) as HC1 by by apply (core_maps s s1 (pool_of s enq)).
  pose proof (visited_count_maps _ _ Hm) as Hcount. pose proof Hm as (_ & _ & Hsm & Hpm).
  destruct (is_new (successor_state t) s1) eqn:Hnew; intros [= <- <-].
  - exists [MkItem (key (successor_state t)) (successor_state t) (item_depth item + 1)]. split; [done|].
    assert (Core (record_state (successor_state t) (Some (MkParent (item_key item) (action_branch t))) s1)
      (pool_of s enq ++ [(successor_state t, item_depth item + 1)])) as HC2.
    { apply core_record; [done|done|]. exists (item_state item), (item_depth item). cbn. by rewrite <- Hsm, <- Hpm. }
    match goal with |- context [update_stats count_enqueued ?s2] => set (s3 := update_stats count_enqueued s2) end.
    assert (Core s3 (pool_of s3 (enq ++ [MkItem (key (successor_state t)) (successor_state t) (item_depth item + 1)]))) as HC3.
    { eapply core_maps; [| |exact HC2]; [done|]. intros p. unfold pool_of. cbn. rewrite Hf, He.
      rewrite !fmap_app, !elem_of_app. cbn. tauto. }
    split_and!; [|done|].
    + split; cbn.
      * done.
      * done.
      * intros it ->%list_elem_of_singleton. done.
      * change (visited_count s3) with (visited_count (record_state (successor_state t) (Some (MkParent (item_key item) (action_branch t))) s1)).
        rewrite visited_count_record, <- Hcount by done. done.
      * intros _. change (visited_count s3) with (visited_count (record_state (successor_state t) (Some (MkParent (item_key item) (action_branch t))) s1)).
        rewrite visited_count_record, <- Hcount by done. lia.
      * intros k st d Hk Hd. rewrite Hsm in Hk. rewrite Hsm, Hpm in Hd.
        assert (key (successor_state t) ∉ dom (states_by_key s1)) as Hnot.
        { intros Hin%(core_known _ _ HC1). congruence. }
        split.
        -- rewrite lookup_insert_ne; [done|]. intros <-. apply Hnot. by eapply elem_of_dom_2.
        -- eapply traced_mono; [..|exact Hd]; [by apply insert_subseteq, not_elem_of_dom|].
           intros x Hx. apply lookup_insert_ne. by intros <-.
    + exists (successor_state t), (item_depth item + 1). split; [|done]. unfold pool_of.
      rewrite !fmap_app, !elem_of_app. right; right; right. by left.
  - exists []. rewrite app_nil_r. split; [done|].
    match goal with |- context [Core (update_stats ?f s1)] => set (s3 := update_stats f s1) end.
    assert (same_maps s s3) as Hm3 by done.
    assert (Core s3 (pool_of s3 enq)) as HC3.
    { eapply core_maps; [exact Hm3| |exact HC]. intros p. unfold pool_of. cbn. by rewrite Hf, He. }
    split_and!; [by apply progress_maps|done|].
    by apply (core_found s3 (pool_of s3 enq)).
Qed.

Lemma found_mono pool pool' st : (forall p, p ∈ pool -> p ∈ pool') -> found pool st -> found pool' st.
Proof. intros H (st' & d' & Hin & Hk). exists st', d'. auto. Qed.

Lemma consider_successors_spec item succs s enq :
  Core s (pool_of s enq) -> expandable s item ->
  (forall t, t ∈ succs -> takes successor_fn (action_branch t) (item_state item) (successor_state t)) ->
  holds (fun p => exists new, p.2 = enq ++ new /\ Progress item s p.1 new /\ Core p.1 (pool_of p.1 p.2)
    /\ forall t, t ∈ succs -> found (pool_of p.1 p.2) (successor_state t))
    (consider_successors item succs s enq).
Proof.
  revert s enq. induction succs as [|t succs IH]; intros s enq HC Hexp Htakes; cbn [Explorer.consider_successors].
  { exists []. cbn. rewrite app_nil_r. split_and!; [done|apply progress_refl|done|by intros t ?%not_elem_of_nil]. }
  apply check_clock_holds. set (s1 := update_stats count_considered (tick s)).
  assert (same_maps s s1) as Hm by done.
  assert (Core s1 (pool_of s1 enq)) as HC1 by by apply (core_maps s s1 (pool_of s enq)).
  pose proof (progress_maps item s s1 Hm eq_refl eq_refl) as HP1.
  case_decide as Hmax; [done|].
  destruct (consider item t s1 enq) as [s2 enq2] eqn:Hc.
  apply consider_spec in Hc as (new & -> & HP2 & HC2 & Hfound); [|done|by apply (progress_expandable item s s1 [])|apply Htakes; by left|lia].
  pose proof (progress_trans _ _ _ _ _ _ HP1 HP2) as HP. cbn [app] in HP.
  specialize (IH s2 (enq ++ new) HC2 (progress_expandable _ _ _ _ HP Hexp)).
  destruct (consider_successors item succs s2 (enq ++ new)) as [r|[s3 enq3]].
  { apply IH. intros u Hu. apply Htakes. by right. }
  destruct IH as (new' & Heq & HP3 & HC3 & Hall); [intros u Hu; apply Htakes; by right|]. cbn in Heq. subst enq3.
  exists (new ++ new'). cbn [fst snd]. rewrite app_assoc. split; [done|]. split; [by eapply progress_trans|]. split; [done|].
  intros u [->|Hu]%elem_of_cons; [|by apply Hall]. eapply found_mono; [|exact Hfound].
  intros p. apply pool_mono; [exact (progress_frontier _ _ _ _ HP3)|exact (progress_explored _ _ _ _ HP3)].
Qed.

(** *** One state of the frontier *)

Notation expand :=
  (expand name hash_str hash_value mode limits state_dedup symmetry_fields check_deadlock successor_fn timeout_reached).

Definition measure (s : Search) : Z := seq_len (frontier s) + Z.max 0 (max_states limits - visited_count s).

(** The state of the loop in which [item] has just been explored. *)
Record Visiting (es : list ExploredState) (item : FrontierItem) (s : Search) : Prop := {
  visiting_core : Core s (pool_of s []);
  visiting_item : expandable s item;
  visiting_explored : explored_so_far s = es ++ [MkExplored (item_state item) (item_depth item)];
  visiting_keyed : forall it, it ∈ frontier s -> keyed it /\ item_depth it <= Z.max 0 (max_depth limits);
  visiting_initial : forall st, st ∈ initial -> exists st', (st', 0) ∈ pool_of s [] /\ key st' = key st;
  visiting_checked : forall e, e ∈ explored_so_far s -> invariant_checker (explored_state e) (explored_depth e) = inr None;
  visiting_expanded : forall e, e ∈ es -> explored_depth e < max_depth limits -> expanded (pool_of s []) e;
  visiting_levels : mode = Bfs ->
    StronglySorted (fun x y => item_depth x <= item_depth y <= item_depth x + 1) (item :: frontier s)
    /\ forall e it, e ∈ es -> it ∈ item :: frontier s -> explored_depth e <= item_depth it }.

Lemma visiting_bound es item s e : Visiting es item s -> mode = Bfs -> e ∈ explored_so_far s -> explored_depth e <= item_depth item.
Proof.
  intros HV HB. destruct (visiting_levels _ _ _ HV HB) as [_ Hl]. rewrite (visiting_explored _ _ _ HV).
  intros [He| ->%list_elem_of_singleton]%elem_of_app; [by apply Hl; [|left]|done].
Qed.

Lemma visiting_skip es item s : Visiting es item s -> max_depth limits <= item_depth item -> Loop s.
Proof.
  intros HV Hd. pose proof HV as [HC Hi He Hk Hin Hch Hex Hlv]. split; [done..| |].
  - intros e. rewrite He. intros [?| ->%list_elem_of_singleton]%elem_of_app; [by apply Hex|cbn; lia].
  - intros HB. destruct (Hlv HB) as [[Hs Hf]%StronglySorted_inv Hl]. split; [done|].
    intros e it Hine Hit. pose proof (visiting_bound _ _ _ _ HV HB Hine). rewrite Forall_forall in Hf.
    pose proof (Hf it Hit). lia.
Qed.

Lemma push_successors_perm f l : push_successors f mode l ≡ₚ f ++ l.
Proof. destruct mode; cbn; [done|]. by rewrite reverse_Permutation. Qed.

Lemma pop_frontier_perm f it rest :
  pop_frontier f mode = Some (it, rest) -> f ≡ₚ it :: rest /\ (mode = Bfs -> f = it :: rest).
Proof.
  destruct mode; cbn.
  - destruct f as [|x f]; [done|]. by intros [= -> ->].
  - destruct (last f) as [x|] eqn:Hl; [|done]. intros [= -> <-]. split; [|done].
    apply last_Some in Hl as [l ->]. rewrite removelast_last. by rewrite Permutation_app_comm.
Qed.

(** The levels stay, when the items found are appended. *)
Lemma levels_app (x : FrontierItem) l new :
  StronglySorted (fun x y => item_depth x <= item_depth y <= item_depth x + 1) (x :: l) ->
  (forall it, it ∈ new -> item_depth it = item_depth x + 1) ->
  StronglySorted (fun x y => item_depth x <= item_depth y <= item_depth x + 1) (l ++ new).
Proof.
  intros [Hs Hf]%StronglySorted_inv Hnew. induction Hs as [|y l Hs IH Hy]; cbn.
  - induction new as [|z new IH]; constructor.
    + apply IH. intros it ?. apply Hnew. by right.
    + apply Forall_forall. intros w Hw. rewrite (Hnew z), (Hnew w); [lia|by right|by left].
  - apply Forall_cons in Hf as [Hxy Hf]. constructor; [by apply IH|]. rewrite Forall_app. split; [done|].
    apply Forall_forall. intros w Hw. rewrite (Hnew w) by done. lia.
Qed.

Lemma pool_of_perm s s' enq :
  frontier s' ≡ₚ frontier s ++ enq -> explored_so_far s' = explored_so_far s -> forall p, p ∈ pool_of s' [] <-> p ∈ pool_of s enq.
Proof.
  intros Hf He p. unfold pool_of. rewrite He, app_nil_r, !elem_of_app.
  assert ((fun it => (item_state it, item_depth it)) <$> frontier s' ≡ₚ (fun it => (item_state it, item_depth it)) <$> frontier s ++ enq) as Hp by by rewrite Hf.
  by rewrite Hp.
Qed.

(** The items found under [item] join the frontier. *)
Lemma visiting_push es item s s2 new l s3 :
  Visiting es item s -> item_depth item < max_depth limits -> successor_fn (item_state item) = inr l ->
  (check_deadlock = true -> l <> []) ->
  Progress item s s2 new -> Core s2 (pool_of s2 new) -> (forall t, t ∈ l -> found (pool_of s2 new) (successor_state t)) ->
  same_maps s2 s3 -> explored_so_far s3 = explored_so_far s2 -> frontier s3 = push_successors (frontier s2) mode new ->
  Loop s3.
Proof.
  intros HV Hd Hl Hdl HP HC2 Hall Hm He3 Hf3. pose proof HV as [HC Hi He Hk Hin Hch Hex Hlv].
  pose proof HP as [Pf Pe Pn _ _ _]. rewrite Pe in He3. rewrite Pf in Hf3.
  assert (forall p, p ∈ pool_of s3 [] <-> p ∈ pool_of s2 new) as Hpool.
  { apply pool_of_perm; [|congruence]. rewrite Hf3, Pf. apply push_successors_perm. }
  assert (forall p, p ∈ pool_of s [] -> p ∈ pool_of s3 []) as Hmono.
  { intros p Hp. apply Hpool. by apply (pool_mono s s2 [] new). }
  assert (forall it, it ∈ frontier s3 <-> it ∈ frontier s \/ it ∈ new) as Hfr.
  { intros it. rewrite Hf3, push_successors_perm. apply elem_of_app. }
  split.
  - eapply core_maps; [exact Hm| |exact HC2]. intros p. by rewrite Hpool.
  - intros it [?|Hnew]%Hfr; [by apply Hk|]. destruct (Pn it Hnew). split; [done|lia].
  - intros st (st' & ? & ?)%Hin. exists st'. auto.
  - by rewrite He3.
  - intros e. rewrite He3, He. intros [Hee| ->%list_elem_of_singleton]%elem_of_app Hlt.
    + destruct (Hex e Hee Hlt) as (l' & Hl' & Hdl' & Hr). exists l'. split_and!; [done..|]. intros t Ht.
      destruct (Hr t Ht) as (st' & d' & ? & ?). exists st', d'. auto.
    + exists l. cbn. split_and!; [done..|]. intros t (st' & d' & Hp & Hkey)%Hall. exists st', d'.
      split; [by apply Hpool|]. split; [done|]. intros HB. destruct (Hlv HB) as [[_ Hf]%StronglySorted_inv Hle].
      rewrite Forall_forall in Hf. unfold pool_of in Hp. rewrite Pe, Pf, !elem_of_app, !list_elem_of_fmap in Hp.
      destruct Hp as [(e & [= -> ->] & Hee)|(it & [= -> ->] & [Hit|Hit]%elem_of_app)].
      * pose proof (visiting_bound _ _ _ _ HV HB Hee). lia.
      * pose proof (Hf it Hit). lia.
      * pose proof (Pn it Hit). lia.
  - intros HB. destruct (Hlv HB) as [Hs Hle]. pose proof Hs as [_ Hf]%StronglySorted_inv. rewrite Forall_forall in Hf. split.
    + rewrite Hf3. unfold push_successors. rewrite HB. eapply levels_app; [done|]. intros it Hit. by apply Pn.
    + intros e it. rewrite He3. intros Hee [Hit|Hit]%Hfr; pose proof (visiting_bound _ _ _ _ HV HB Hee).
      * pose proof (Hf it Hit). lia.
      * pose proof (Pn it Hit). lia.
Qed.

Lemma visiting_maps es item s s' :
  same_maps s s' -> frontier s' = frontier s -> explored_so_far s' = explored_so_far s -> Visiting es item s -> Visiting es item s'.
Proof.
  intros Hm Hf He [HC Hi Hee Hk Hin Hch Hex Hlv]. assert (pool_of s' [] = pool_of s []) as Hp by (unfold pool_of; by rewrite Hf, He).
  pose proof Hm as (_ & _ & Hsm & Hpm). split; rewrite ?Hf, ?He, ?Hp; try done.
  - by apply (core_maps s s' (pool_of s [])).
  - unfold expandable. by rewrite <- Hsm, <- Hpm.
Qed.

(** What is known of the measure when the search goes on. *)
Lemma expand_spec es item s :
  Visiting es item s -> holds (fun s' => Loop s' /\ measure s' <= measure s) (expand item s).
Proof.
  intros HV. unfold Explorer.expand. case_decide as Hd; [split; [by eapply visiting_skip|done]|].
  destruct (successor_fn (item_state item)) as [e|l] eqn:Hl; [by exists (item_state item); left|].
  apply check_clock_holds. set (s1 := tick s).
  assert (Visiting es item s1) as HV1 by by apply (visiting_maps es item s).
  assert (measure s1 = measure s) as Hm1 by done.
  destruct (visiting_item _ _ _ HV1) as [Hi1 Hi2].
  destruct (check_deadlock && bool_decide (l = [])) eqn:Hdl.
  - apply andb_true_iff in Hdl as [Hdl ->%bool_decide_eq_true].
    destruct (build_trace_traced name _ _ _ _ _ _ _ Hi2 Hi1) as (tr & Htr & Hto).
    exists (MkDeadlock (item_state item) (item_depth item)), tr. by split_and!.
  - pose proof (consider_successors_spec item l s1 [] (visiting_core _ _ _ HV1) (visiting_item _ _ _ HV1)) as Hcs.
    destruct (consider_successors item l s1 []) as [r|[s2 enq]].
    { apply Hcs. intros [a t] Ht. by exists l. }
    destruct Hcs as (new & Heq & HP & HC2 & Hall); [intros [a t] Ht; by exists l|]. cbn in Heq, HP, HC2, Hall. subst enq.
    split.
    + eapply (visiting_push es item s1 s2 new l); [done|lia|done| |done..].
      intros Hcd ->. rewrite Hcd in Hdl. done.
    + unfold measure. cbn. rewrite (visited_count_maps _ s2) by done.
      assert (seq_len (push_successors (frontier s2) mode new) = seq_len (frontier s2) + seq_len new) as ->.
      { unfold seq_len. rewrite push_successors_perm, length_app. lia. }
      destruct HP as [-> _ _ Hc Hmax _]. change (frontier s1) with (frontier s) in *.
      change (visited_count s1) with (visited_count s) in *. pose proof (seq_len_nonneg new).
      destruct (decide (new = [])) as [->|Hne]; [change (seq_len []) with 0 in *; lia|].
      pose proof (Hmax Hne). lia.
Qed.

Notation iteration := (iteration name hash_str hash_value mode limits state_dedup symmetry_fields check_deadlock
  successor_fn invariant_checker timeout_reached).

Lemma loop_visiting s item rest :
  Loop s -> pop_frontier (frontier s) mode = Some (item, rest) ->
  invariant_checker (item_state item) (item_depth item) = inr None ->
  Visiting (explored_so_far s) item (push_explored (MkExplored (item_state item) (item_depth item)) (set_frontier rest s)).
Proof.
  intros [HC Hk Hin Hch Hex Hlv] [Hp HB]%pop_frontier_perm Hinv.
  set (s1 := push_explored _ _). assert (same_maps s s1) as Hm by done.
  assert (forall p, p ∈ pool_of s [] <-> p ∈ pool_of s1 []) as Hpool.
  { intros p. unfold pool_of. cbn. rewrite !app_nil_r, fmap_app, !elem_of_app.
    assert ((fun it => (item_state it, item_depth it)) <$> frontier s ≡ₚ (fun it => (item_state it, item_depth it)) <$> item :: rest) as -> by by rewrite Hp.
    cbn. rewrite elem_of_cons, list_elem_of_singleton. tauto. }
  assert (item ∈ frontier s) as Hitem by (rewrite Hp; by left). split.
  - by apply (core_maps s s1 (pool_of s [])).
  - unfold expandable. change (states_by_key s1) with (states_by_key s). change (parents s1) with (parents s).
    rewrite (proj1 (Hk item Hitem)). apply (core_pool _ _ HC). unfold pool_of. rewrite app_nil_r, elem_of_app. right.
    by apply (list_elem_of_fmap_2 (fun it => (item_state it, item_depth it))).
  - done.
  - intros it Hit. apply Hk. rewrite Hp. by right.
  - intros st (st' & ?%Hpool & ?)%Hin. by exists st'.
  - intros e [He| ->%list_elem_of_singleton]%elem_of_app; [by apply Hch|done].
  - intros e He Hlt. destruct (Hex e He Hlt) as (l & ? & ? & Hr). exists l. split_and!; [done..|].
    intros t (st' & d' & ?%Hpool & ?)%Hr. by exists st', d'.
  - intros HBfs. destruct (Hlv HBfs) as [Hs Hle]. rewrite (HB HBfs) in Hs, Hle. done.
Qed.

Lemma iteration_spec s : Loop s -> holds (fun s' => Loop s' /\ measure s' < measure s) (iteration s).
Proof.
  intros HL. unfold Explorer.iteration. apply check_clock_holds. set (s0 := tick s).
  assert (Loop s0) as HL0.
  { destruct HL as [HC Hk Hin Hch Hex Hlv]. split; try done. by apply (core_maps s s0 (pool_of s [])). }
  destruct (pop_frontier (frontier s0) mode) as [[item rest]|] eqn:Hpop.
  - unfold visit. destruct (invariant_checker (item_state item) (item_depth item)) as [e|[v|]] eqn:Hinv.
    + exists (item_state item). eauto.
    + pose proof (pop_frontier_perm _ _ _ Hpop) as [Hp _]. pose proof HL0 as [HC Hk _ _ _ _].
      assert (item ∈ frontier s0) as Hitem by (rewrite Hp; by left).
      destruct (core_pool _ _ HC (item_state item) (item_depth item)) as [H1 H2].
      { unfold pool_of. rewrite app_nil_r, elem_of_app. right.
        by apply (list_elem_of_fmap_2 (fun it => (item_state it, item_depth it))). }
      rewrite <- (proj1 (Hk item Hitem)) in H1, H2.
      destruct (build_trace_traced name _ _ _ _ _ _ _ H2 H1) as (tr & Htr & Hto).
      exists (MkViolation v (item_state item) (item_depth item)), tr. split_and!; [done..|]. by exists s0, item, rest.
    + apply check_clock_holds. pose proof (loop_visiting s0 item rest HL0 Hpop Hinv) as HV.
      set (s1 := push_explored _ _) in *.
      assert (Visiting (explored_so_far s0) item (tick s1)) as HV1 by by apply (visiting_maps _ _ s1).
      pose proof (expand_spec _ _ _ HV1) as He. destruct (expand item (tick s1)) as [r|s2]; [done|].
      destruct He as [HL2 Hm]. split; [done|]. apply pop_frontier_perm in Hpop as [Hp _].
      assert (measure (tick s1) = measure s - 1); [|lia]. unfold measure. cbn.
      rewrite (visited_count_maps _ s) by done. change (frontier s0) with (frontier s) in Hp.
      unfold seq_len. rewrite Hp. cbn. lia.
  - assert (frontier s0 = []) as Hnil.
    { unfold pop_frontier in Hpop. destruct mode; [by destruct (frontier s0)|].
      destruct (last (frontier s0)) eqn:Hl; [done|]. by apply last_None. }
    cbn. split; [done|]. by exists s0.
Qed.

(** ** The whole search *)

Notation seed_state := (seed_state name hash_str hash_value state_dedup symmetry_fields).
Notation seed := (seed name hash_str hash_value initial state_dedup symmetry_fields).
Notation search_loop := (search_loop name hash_str hash_value mode limits state_dedup symmetry_fields check_deadlock
  successor_fn invariant_checker timeout_reached).
Notation explore := (explore_with_traces name hash_str hash_value initial mode limits state_dedup symmetry_fields
  check_deadlock successor_fn invariant_checker timeout_reached).

(** Seeding with the states of [done]. *)
Record Seeding (dn : list RuntimeValue) (s : Search) : Prop := {
  seeding_core : Core s (pool_of s []);
  seeding_explored : explored_so_far s = [];
  seeding_items : forall it, it ∈ frontier s -> keyed it /\ item_depth it = 0;
  seeding_length : seq_len (frontier s) <= seq_len dn;
  seeding_found : forall st, st ∈ dn -> found (pool_of s []) st }.

Lemma seeding_step dn s st : st ∈ initial -> Seeding dn s -> Seeding (dn ++ [st]) (seed_state s st).
Proof.
  intros Hst [HC He Hit Hlen Hf]. unfold Explorer.seed_state.
  destruct (note_symmetry_frontier st s) as [Hf1 He1]. pose proof (note_symmetry_maps st s) as Hm.
  set (s1 := note_symmetry st s) in *.
  assert (pool_of s1 [] = pool_of s []) as Hp1 by (unfold pool_of; by rewrite Hf1, He1).
  assert (Core s1 (pool_of s [])) as HC1 by by apply (core_maps s s1 (pool_of s [])).
  destruct (is_new st s1) eqn:Hnew.
  - match goal with |- Seeding _ ?s2 => set (s3 := s2) end.
    assert (forall p, p ∈ pool_of s [] ++ [(st, 0)] <-> p ∈ pool_of s3 []) as Hpool.
    { intros p. unfold pool_of. cbn. rewrite Hf1, He1, !app_nil_r, fmap_app, !elem_of_app. cbn. tauto. }
    split.
    + apply (core_maps (record_state st None s1) s3 (pool_of s [] ++ [(st, 0)])); [done|exact Hpool|by apply core_record].
    + cbn. by rewrite He1.
    + intros it. cbn. rewrite Hf1. intros [?| ->%list_elem_of_singleton]%elem_of_app; [by apply Hit|done].
    + cbn. rewrite Hf1. unfold seq_len in *. rewrite !length_app. cbn. lia.
    + intros st' [Hin| ->%list_elem_of_singleton]%elem_of_app.
      * eapply found_mono; [|by apply Hf]. intros p Hp. apply Hpool. apply elem_of_app. by left.
      * exists st, 0. split; [|done]. apply Hpool. apply elem_of_app. right. by left.
  - split; [by rewrite Hp1|by rewrite He1|by rewrite Hf1|rewrite Hf1; unfold seq_len in *; rewrite length_app; lia|].
    rewrite Hp1. intros st' [Hin| ->%list_elem_of_singleton]%elem_of_app; [by apply Hf|]. by apply (core_found s1).
Qed.

Lemma seeding_all l dn s : (forall st, st ∈ l -> st ∈ initial) -> Seeding dn s -> Seeding (dn ++ l) (foldl seed_state s l).
Proof.
  revert dn s. induction l as [|st l IH]; intros dn s Hl HS; cbn; [by rewrite app_nil_r|].
  replace (dn ++ st :: l) with ((dn ++ [st]) ++ l) by by rewrite <- app_assoc.
  apply IH; [intros; apply Hl; by right|]. apply seeding_step; [apply Hl; by left|done].
Qed.

Lemma core_new : Core search_new [].
Proof.
  split.
  - intros st. unfold Explorer.is_new. cbn. rewrite dom_empty_L. destruct fast; rewrite bool_decide_notin; set_solver.
  - unfold Explorer.visited_count. cbn. rewrite map_size_empty. destruct fast; by rewrite size_empty.
  - cbn. set_solver.
  - by intros st d ?%not_elem_of_nil.
  - intros k st. cbn. by rewrite lookup_empty.
Qed.

Lemma seed_loop : Loop seed /\ measure seed <= seq_len initial + Z.max 0 (max_states limits).
Proof.
  assert (Seeding initial (foldl seed_state search_new initial)) as HS.
  { apply (seeding_all initial []); [done|]. split; try done; [apply core_new|by intros it ?%not_elem_of_nil..]. }
  unfold Explorer.seed. set (s0 := foldl seed_state search_new initial) in *.
  match goal with |- Loop ?s1 /\ _ => set (s2 := s1) end. destruct HS as [HC He Hit Hlen Hf].
  assert (Core s2 (pool_of s2 [])) as HC2 by by apply (core_maps s0 s2 (pool_of s0 [])). split.
  - split; [done| | | | |].
    + intros it Hin. destruct (Hit it Hin) as [? ->]. split; [done|lia].
    + intros st (st' & d & Hin & Hk)%Hf. exists st'. split; [|done]. unfold pool_of in Hin |- *. cbn. rewrite He in Hin |- *.
      cbn in Hin |- *. rewrite app_nil_r in *. pose proof Hin as (it & [= -> ->] & Hin')%list_elem_of_fmap.
      by rewrite (proj2 (Hit it Hin')) in Hin.
    + intros e. change (explored_so_far s2) with (explored_so_far s0). rewrite He. by intros ?%not_elem_of_nil.
    + intros e. change (explored_so_far s2) with (explored_so_far s0). rewrite He. by intros ?%not_elem_of_nil.
    + intros _. split; [|intros e it; change (explored_so_far s2) with (explored_so_far s0); rewrite He; by intros ?%not_elem_of_nil].
      change (frontier s2) with (frontier s0). clear -Hit. induction (frontier s0) as [|x l IH]; constructor.
      * apply IH. intros it ?. apply Hit. by right.
      * apply Forall_forall. intros y Hy. rewrite (proj2 (Hit x ltac:(by left))), (proj2 (Hit y ltac:(by right))). lia.
  - unfold measure. rewrite (core_count _ _ HC2). change (frontier s2) with (frontier s0). lia.
Qed.

Lemma search_loop_spec fuel s :
  Loop s -> measure s < Z.of_nat fuel -> exists r, search_loop fuel s = Some r /\ result_ok r.
Proof.
  revert s. induction fuel as [|fuel IH]; intros s HL Hm.
  - exfalso. unfold measure in Hm. pose proof (seq_len_nonneg (frontier s)). lia.
  - cbn. pose proof (iteration_spec s HL) as Hi. destruct (iteration s) as [r|s']; [by exists r|].
    destruct Hi as [HL' Hm']. apply IH; [done|lia].
Qed.

(** The search ends, whatever the limits, and its answer keeps its promise. *)
Lemma explore_spec :
  match validate_limits limits with
  | inl e => explore = Some (inl e)
  | inr _ => exists r, explore = Some r /\ result_ok r
  end.
Proof.
  unfold explore_with_traces. destruct (validate_limits limits); [done|].
  destruct seed_loop as [HL Hm]. apply search_loop_spec; [done|]. unfold search_fuel, seq_len in *. lia.
Qed.

(** ** What an exhausted search has seen *)

(** The states that the program reaches in [n] steps. *)
Inductive reachable_in : nat -> RuntimeValue -> Prop :=
  | reachable_initial s : s ∈ initial -> reachable_in 0 s
  | reachable_step n a s t : reachable_in n s -> takes successor_fn a s t -> reachable_in (S n) t.

(** States with the same key have successors with the same keys. *)
Definition keys_congruent : Prop :=
  forall n n' st st' a t l', reachable_in n st -> reachable_in n' st' -> key st' = key st ->
  takes successor_fn a st t -> successor_fn st' = inr l' -> exists u, u ∈ l' /\ key (successor_state u) = key t.

(** What is explored is reached, in as many steps as its depth says. *)
Lemma explored_reachable s e :
  Loop s -> e ∈ explored_so_far s -> exists n, Z.of_nat n = explored_depth e /\ reachable_in n (explored_state e).
Proof.
  intros HL He. destruct (core_pool _ _ (loop_core _ HL) (explored_state e) (explored_depth e)) as [Hl Ht].
  { unfold pool_of. apply elem_of_app. left.
    by apply (list_elem_of_fmap_2 (fun e => (explored_state e, explored_depth e))). }
  revert Hl Ht. generalize (key (explored_state e)). intros k. revert He.
  generalize (explored_state e), (explored_depth e). intros st d _ Hl Ht. revert st Hl.
  induction Ht as [k st H1 H2 H3|k st pk ps a d Ht IH H1 H2 H3 H4]; intros st' Hst'.
  - exists 0%nat. split; [done|]. apply reachable_initial. by simplify_eq.
  - destruct (IH ps H3) as (n & <- & Hr). exists (S n). split; [lia|]. rewrite Hst' in H2. injection H2 as ->.
    by eapply reachable_step.
Qed.
Lemma loop_step s e n st a t :
  Loop s -> keys_congruent -> reachable_in n st -> e ∈ explored_so_far s -> explored_depth e < max_depth limits ->
  key (explored_state e) = key st -> takes successor_fn a st t ->
  exists st' d', (st', d') ∈ pool_of s [] /\ key st' = key t /\ (mode = Bfs -> d' <= explored_depth e + 1).
Proof.
  intros HL Hcong Hre He Hd Hk Ht. destruct (loop_expanded _ HL e He Hd) as (l & Hl & _ & Hall).
  destruct (explored_reachable s e HL He) as (n' & _ & Hre').
  destruct (Hcong n n' st (explored_state e) a t l Hre Hre' Hk Ht Hl) as (u & Hu & Hku).
  destruct (Hall u Hu) as (st' & d' & Hin & Hk' & Hb). exists st', d'. by rewrite Hk', Hku.
Qed.

Lemma pool_exhausted s st d : frontier s = [] -> (st, d) ∈ pool_of s [] -> MkExplored st d ∈ explored_so_far s.
Proof.
  intros Hf. unfold pool_of. rewrite Hf, app_nil_r. intros ([st' d'] & [= -> ->] & Hin)%list_elem_of_fmap. done.
Qed.

Lemma exhausted_bfs s n st :
  Loop s -> frontier s = [] -> keys_congruent -> mode = Bfs -> reachable_in n st -> Z.of_nat n <= max_depth limits ->
  exists e, e ∈ explored_so_far s /\ key (explored_state e) = key st /\ explored_depth e <= Z.of_nat n.
Proof.
  intros HL Hf Hcong HB Hr. induction Hr as [st Hst|n a st t Hr IH Ht]; intros Hn.
  - destruct (loop_initial _ HL st Hst) as (st' & Hin%pool_exhausted & Hk); [|done]. by exists (MkExplored st' 0).
  - destruct IH as (e & He & Hk & Hd); [lia|].
    destruct (loop_step s e n st a t) as (st' & d' & Hin%pool_exhausted & Hk' & Hb); try done; [lia|].
    exists (MkExplored st' d'). cbn. specialize (Hb HB). split_and!; [done..|lia].
Qed.

Lemma exhausted_unbounded s n st :
  Loop s -> frontier s = [] -> keys_congruent -> (forall e, e ∈ explored_so_far s -> explored_depth e < max_depth limits) ->
  reachable_in n st -> exists e, e ∈ explored_so_far s /\ key (explored_state e) = key st.
Proof.
  intros HL Hf Hcong Hd Hr. induction Hr as [st Hst|n a st t Hr IH Ht].
  - destruct (loop_initial _ HL st Hst) as (st' & Hin%pool_exhausted & Hk); [|done]. by exists (MkExplored st' 0).
  - destruct IH as (e & He & Hk).
    destruct (loop_step s e n st a t) as (st' & d' & Hin%pool_exhausted & Hk' & _); try done; [by apply Hd|].
    by exists (MkExplored st' d').
Qed.

(** Breadth first, what is reached in fewer steps than the next state has been explored. *)
Lemma explored_below s item rest n st :
  Loop s -> keys_congruent -> mode = Bfs -> pop_frontier (frontier s) mode = Some (item, rest) ->
  reachable_in n st -> Z.of_nat n < item_depth item ->
  exists e, e ∈ explored_so_far s /\ key (explored_state e) = key st /\ explored_depth e <= Z.of_nat n.
Proof.
  intros HL Hcong HB [_ Hp]%pop_frontier_perm Hr. specialize (Hp HB).
  assert (item_depth item <= Z.max 0 (max_depth limits)) as Hmax by (apply (loop_keyed _ HL); rewrite Hp; by left).
  destruct (loop_levels _ HL HB) as [Hs _]. rewrite Hp in Hs. apply StronglySorted_inv in Hs as [_ Hs].
  rewrite Forall_forall in Hs.
  assert (forall st' d', (st', d') ∈ pool_of s [] -> d' < item_depth item -> MkExplored st' d' ∈ explored_so_far s) as Hlow.
  { intros st' d'. unfold pool_of. rewrite app_nil_r, elem_of_app, !list_elem_of_fmap, Hp.
    intros [([? ?] & [= -> ->] & He)|(it & [= -> ->] & [->|Hit]%elem_of_cons)] Hlt; [done|cbn in Hlt; lia|].
    pose proof (Hs it Hit). lia. }
  induction Hr as [st Hst|n a st t Hr IH Ht]; intros Hn.
  - destruct (loop_initial _ HL st Hst) as (st' & Hin & Hk). exists (MkExplored st' 0). split; [|done]. apply Hlow; [done|lia].
  - destruct IH as (e & He & Hk & Hd); [lia|].
    destruct (loop_step s e n st a t) as (st' & d' & Hin & Hk' & Hb); try done; [lia|].
    specialize (Hb HB). exists (MkExplored st' d'). cbn. split_and!; [apply Hlow; [done|lia]|done|lia].
Qed.

End search.
