(* ===== verification/StateGraph.v ===== *)
(** * The graph of explored states and its components

    transpiler/src/modelcheck/graph.rs: the index of the transitions among the
    explored states, Tarjan's decomposition into strongly connected components, and
    the edge that witnesses a cycle.  A [BTreeMap] is a [gmap] whose keys are
    visited in order ([sorted_keys]), a [BTreeSet] likewise. *)

From stdpp Require Import prelude gmap sets list numbers fin_sets strings.
From Stdlib Require Import ZArith Lia.
From S2P Require Import Prelude.
From S2P Require Import RuntimeValue.
From S2P Require Import DedupKeys.
From S2P Require Import Explorer.

#[local] Open Scope Z_scope.

(** ** Data *)

Record GraphNodeMetadata := MkNodeMetadata { node_state : RuntimeValue; node_depth : Z }.
Record GraphEdgeKey := MkEdge { from_key : Str; to_key : Str }.
Record GraphIndexStats :=
  MkIndexStats { edges_considered : Z; edges_within_explored : Z; edges_to_unexplored : Z }.

#[export] Instance GraphEdgeKey_eq_dec : EqDecision GraphEdgeKey.
Proof. solve_decision. Defined.
#[export] Instance GraphEdgeKey_countable : Countable GraphEdgeKey.
Proof.
  apply (inj_countable' (fun e => (from_key e, to_key e)) (fun p => MkEdge p.1 p.2)). by intros [].
Defined.

Record ExploredGraphIndex := MkGraph {
  nodes : gmap Str GraphNodeMetadata;
  successors : gmap Str (gset Str);
  predecessors : gmap Str (gset Str);
  edge_branches : gmap GraphEdgeKey (gset Str);
  graph_stats : GraphIndexStats }.

Record SccComponent := MkComponent { members : gset Str; representative : option GraphEdgeKey }.

Definition is_cyclic (c : SccComponent) : bool := bool_decide (is_Some (representative c)).

(** The order of a [BTreeSet] and of a [BTreeMap]'s keys. *)
Definition sorted_elements (s : gset Str) : list Str := sort_strs (elements s).
Definition sorted_keys {A} (m : gmap Str A) : list Str := sorted_elements (dom m).

Definition node_count (g : ExploredGraphIndex) : Z := Z.of_nat (size (nodes g)).
Definition edge_count (g : ExploredGraphIndex) : Z := Z.of_nat (size (edge_branches g)).

(** The successors of a key. *)
Definition out (g : ExploredGraphIndex) (key : Str) : gset Str := default ∅ (successors g !! key).

(** ** Building the index *)

Section build.
Context (name : Symbol -> Str) (successor_fn : RuntimeValue -> TranspileResult (list TracedSuccessor)).

(** The shallowest depth is kept for a key that comes again. *)
Definition add_node (nodes : gmap Str GraphNodeMetadata) (e : ExploredState) : gmap Str GraphNodeMetadata :=
  let key := canonical_key name (explored_state e) in
  match nodes !! key with
  | Some existing =>
      if decide (explored_depth e < node_depth existing)
      then <[key := MkNodeMetadata (explored_state e) (explored_depth e)]> nodes else nodes
  | None => <[key := MkNodeMetadata (explored_state e) (explored_depth e)]> nodes
  end.

Definition add_edge (from : Str) (g : ExploredGraphIndex) (successor : TracedSuccessor) : ExploredGraphIndex :=
  let st := graph_stats g in
  let to := canonical_key name (successor_state successor) in
  match nodes g !! to with
  | None =>
      MkGraph (nodes g) (successors g) (predecessors g) (edge_branches g)
        (MkIndexStats (edges_considered st + 1) (edges_within_explored st) (edges_to_unexplored st + 1))
  | Some _ =>
      MkGraph (nodes g)
        (alter (fun s => {[to]} ∪ s) from (successors g))
        (alter (fun s => {[from]} ∪ s) to (predecessors g))
        (partial_alter (fun s => Some ({[action_branch successor]} ∪ default ∅ s)) (MkEdge from to) (edge_branches g))
        (MkIndexStats (edges_considered st + 1) (edges_within_explored st + 1) (edges_to_unexplored st))
  end.

(** The edges of the nodes, in the order of their keys. *)
Fixpoint add_edges (keys : list Str) (g : ExploredGraphIndex) : TranspileResult ExploredGraphIndex :=
  match keys with
  | [] => inr g
  | key :: keys =>
      match nodes g !! key with
      | None => add_edges keys g
      | Some meta =>
          match successor_fn (node_state meta) with
          | inl e => inl e
          | inr l => add_edges keys (foldl (add_edge key) g l)
          end
      end
  end.

Definition build_explored_graph_index (explored : list ExploredState) : TranspileResult ExploredGraphIndex :=
  let nodes := foldl add_node ∅ explored in
  let none := (fun _ => ∅) <$> nodes in
  add_edges (sorted_keys nodes) (MkGraph nodes none none ∅ (MkIndexStats 0 0 0)).
End build.

(** ** Tarjan's algorithm *)

(** [stack] has its top first. *)
Record TarjanSearch := MkTarjan {
  next_index : Z; indices : gmap Str Z; lowlinks : gmap Str Z; tarjan_stack : list Str; on_stack : gset Str;
  components : list (gset Str) }.

Definition tarjan_new : TarjanSearch := MkTarjan 0 ∅ ∅ [] ∅ [].

(** [self.lowlinks[&key]]. *)
Definition lowlink (t : TarjanSearch) (key : Str) : Z := default 0 (lowlinks t !! key).
Definition index_of (t : TarjanSearch) (key : Str) : Z := default 0 (indices t !! key).

Definition set_lowlink (key : Str) (n : Z) (t : TarjanSearch) : TarjanSearch :=
  MkTarjan (next_index t) (indices t) (<[key := n]> (lowlinks t)) (tarjan_stack t) (on_stack t) (components t).

Definition open_node (key : Str) (t : TarjanSearch) : TarjanSearch :=
  MkTarjan (next_index t + 1) (<[key := next_index t]> (indices t)) (<[key := next_index t]> (lowlinks t))
    (key :: tarjan_stack t) ({[key]} ∪ on_stack t) (components t).

(** [while let Some(candidate) = self.stack.pop()]: what is left of the stack, of the
    set, and the component. *)
Fixpoint pop_component (key : Str) (stack : list Str) (on : gset Str) (component : gset Str)
  : list Str * gset Str * gset Str :=
  match stack with
  | [] => ([], on, component)
  | candidate :: stack =>
      let on := on ∖ {[candidate]} in
      let component := {[candidate]} ∪ component in
      if decide (candidate = key) then (stack, on, component) else pop_component key stack on component
  end.

Definition close_node (key : Str) (t : TarjanSearch) : TarjanSearch :=
  if decide (lowlink t key = index_of t key) then
    let '(stack, on, component) := pop_component key (tarjan_stack t) (on_stack t) ∅ in
    MkTarjan (next_index t) (indices t) (lowlinks t) stack on (components t ++ [component])
  else t.

Section tarjan.
Context (g : ExploredGraphIndex).

(** [for successor in successors], given the recursive call. *)
Fixpoint visit_successors (call : Str -> TarjanSearch -> option TarjanSearch) (key : Str) (l : list Str)
    (t : TarjanSearch) : option TarjanSearch :=
  match l with
  | [] => Some t
  | successor :: l =>
      t ← (if decide (indices t !! successor = None) then
             t ← call successor t;
             Some (set_lowlink key (Z.min (lowlink t key) (lowlink t successor)) t)
           else if decide (successor ∈ on_stack t) then
             Some (set_lowlink key (Z.min (lowlink t key) (index_of t successor)) t)
           else Some t);
      visit_successors call key l t
  end.

(** The calls nest at most as deep as there are nodes; [None] when the fuel is
    exhausted. *)
Fixpoint strong_connect (fuel : nat) (key : Str) (t : TarjanSearch) : option TarjanSearch :=
  match fuel with
  | O => None
  | S fuel =>
      t ← visit_successors (strong_connect fuel) key (sorted_elements (out g key)) (open_node key t);
      Some (close_node key t)
  end.

Fixpoint connect_all (keys : list Str) (t : TarjanSearch) : option TarjanSearch :=
  match keys with
  | [] => Some t
  | key :: keys =>
      t ← (if decide (indices t !! key = None) then strong_connect (S (size (nodes g))) key t else Some t);
      connect_all keys t
  end.

(** The first edge, in the order of the keys, from a member that [preferred] accepts
    to a member. *)
Definition first_internal_edge (members : gset Str) (preferred : Str -> bool) : option GraphEdgeKey :=
  head (from ← filter (fun k => preferred k = true) (sorted_elements members);
        to ← filter (fun k => k ∈ members) (sorted_elements (out g from));
        [MkEdge from to]).

Definition representative_cycle_edge (members : gset Str) : option GraphEdgeKey :=
  match sorted_elements members with
  | [] => None
  | [key] => if decide (key ∈ out g key) then Some (MkEdge key key) else None
  | _ => first_internal_edge members (fun _ => true)
  end.

Definition component_sort_key (c : SccComponent) : Str := default [] (head (sorted_elements (members c))).

Definition detect_sccs_with_witness : option (list SccComponent) :=
  t ← connect_all (sorted_keys (nodes g)) tarjan_new;
  Some (sort_by (fun c d => str_compare (component_sort_key c) (component_sort_key d))
          ((fun m => MkComponent m (representative_cycle_edge m)) <$> components t)).

Definition detect_cyclic_sccs_with_witness : option (list SccComponent) :=
  l ← detect_sccs_with_witness; Some (filter (fun c => is_cyclic c = true) l).
End tarjan.
