(* ===== verification/Tarjan.v ===== *)
(** * The components are the strongly connected ones

    Correctness of the decomposition of StateGraph.v: the components partition the
    nodes, and two nodes are in one component exactly when each reaches the other. *)

From stdpp Require Import prelude gmap sets list numbers fin_sets strings relations.
From Stdlib Require Import ZArith Lia Sorted.
From S2P Require Import Prelude.
From S2P Require Import RuntimeValue.
From S2P Require Import DedupKeys.
From S2P Require Import Explorer.
From S2P Require Import StateGraph.

#[local] Open Scope Z_scope.

(** ** Sorted iteration *)

Lemma insert_by_perm {A} (cmp : A -> A -> comparison) x l : insert_by cmp x l ≡ₚ x :: l.
Proof.
  induction l as [|y l IH]; cbn; [done|]. destruct (cmp x y); [done..|]. rewrite IH. constructor.
Qed.

Lemma sort_by_perm {A} (cmp : A -> A -> comparison) l : sort_by cmp l ≡ₚ l.
Proof.
  unfold sort_by. induction l as [|x l IH]; cbn; [done|]. by rewrite insert_by_perm, IH.
Qed.

Lemma elem_sorted_elements x s : x ∈ sorted_elements s <-> x ∈ s.
Proof. unfold sorted_elements, sort_strs. rewrite sort_by_perm. apply elem_of_elements. Qed.

(** ** Invariants *)

Section tarjan.
Context (g : ExploredGraphIndex).

Definition edge (x y : Str) : Prop := y ∈ out g x.
Definition reach : Str -> Str -> Prop := rtc edge.

Definition seen (t : TarjanSearch) (x : Str) : Prop := x ∈ dom (indices t).
Definition popped (t : TarjanSearch) (x : Str) : Prop := exists c, c ∈ components t /\ x ∈ c.

(** A set of nodes whose edges stay inside is left by no path. *)
Lemma reach_closed (P : Str -> Prop) x y : (forall a b, P a -> edge a b -> P b) -> reach x y -> P x -> P y.
Proof. intros HP. induction 1; eauto. Qed.

(** A strongly connected component. *)
Definition strongly_connected (c : gset Str) : Prop :=
  (exists x, x ∈ c) /\ forall x, x ∈ c -> forall y, y ∈ c <-> reach x y /\ reach y x.

(** [G] are the nodes whose call has not returned. *)
Record TInv (G : gset Str) (t : TarjanSearch) : Prop := {
  ti_index : forall x, seen t x -> index_of t x < next_index t;
  ti_nodup : NoDup (tarjan_stack t);
  ti_on : forall x, x ∈ on_stack t <-> x ∈ tarjan_stack t;
  ti_seen : forall x, seen t x <-> x ∈ tarjan_stack t \/ popped t x;
  ti_apart : forall x, x ∈ tarjan_stack t -> ~ popped t x;
  ti_gray : forall x, x ∈ G -> x ∈ tarjan_stack t;
  ti_order : StronglySorted (fun x y => index_of t y < index_of t x) (tarjan_stack t);
  ti_up : forall x, x ∈ tarjan_stack t -> exists z, z ∈ G /\ reach x z;
  ti_down : forall z x, z ∈ G -> x ∈ tarjan_stack t -> index_of t z <= index_of t x -> reach z x;
  ti_black : forall x y, seen t x -> x ∉ G -> edge x y -> seen t y;
  ti_closed : forall x y, popped t x -> edge x y -> popped t y;
  ti_comp : forall c, c ∈ components t -> strongly_connected c }.

(** What calls leave as it is. *)
Record Keeps (t t' : TarjanSearch) : Prop := {
  keeps_index : forall x, seen t x -> indices t' !! x = indices t !! x;
  keeps_low : forall x, seen t x -> lowlinks t' !! x = lowlinks t !! x;
  keeps_next : next_index t <= next_index t' }.

Lemma keeps_seen t t' x : Keeps t t' -> seen t x -> seen t' x.
Proof. intros HK Hx. unfold seen in *. rewrite elem_of_dom in *. by rewrite (keeps_index _ _ HK) by by apply elem_of_dom. Qed.

Lemma keeps_index_of t t' x : Keeps t t' -> seen t x -> index_of t' x = index_of t x.
Proof. intros HK Hx. unfold index_of. by rewrite (keeps_index _ _ HK). Qed.

Lemma keeps_trans t t' t'' : Keeps t t' -> Keeps t' t'' -> Keeps t t''.
Proof.
  intros H1 H2. split.
  - intros x Hx. rewrite (keeps_index _ _ H2) by by eapply keeps_seen. by apply H1.
  - intros x Hx. rewrite (keeps_low _ _ H2) by by eapply keeps_seen. by apply H1.
  - pose proof (keeps_next _ _ H1). pose proof (keeps_next _ _ H2). lia.
Qed.

(** Lowlinks do not matter to the invariant. *)
Lemma tinv_set_lowlink G t key n : TInv G t -> TInv G (set_lowlink key n t).
Proof. intros []. by split. Qed.

Lemma lowlink_set key n t : lowlink (set_lowlink key n t) key = n.
Proof. unfold lowlink. cbn. by rewrite lookup_insert_eq. Qed.

Lemma tinv_stack_seen G t x : TInv G t -> x ∈ tarjan_stack t -> seen t x.
Proof. intros HT Hx. apply (ti_seen _ _ HT). by left. Qed.

(** The nodes not met yet. *)
Definition white_count (t : TarjanSearch) : nat := size (dom (nodes g) ∖ dom (indices t)).

Lemma white_count_keeps t t' : Keeps t t' -> (white_count t' <= white_count t)%nat.
Proof.
  intros HK. unfold white_count. apply subseteq_size. intros x. rewrite !elem_of_difference. intros [? Hx]. split; [done|].
  intros Hs. apply Hx. by eapply keeps_seen.
Qed.

(** ** Opening a node *)

Lemma open_index_eq v t : index_of (open_node v t) v = next_index t.
Proof. unfold index_of. cbn. by rewrite lookup_insert_eq. Qed.

Lemma open_index_ne v t x : x <> v -> index_of (open_node v t) x = index_of t x.
Proof. intros Hne. unfold index_of. cbn. by rewrite lookup_insert_ne. Qed.

Lemma open_seen v t x : seen (open_node v t) x <-> x = v \/ seen t x.
Proof. unfold seen. cbn. rewrite dom_insert_L. set_solver. Qed.

Lemma open_keeps v t : ~ seen t v -> Keeps t (open_node v t).
Proof.
  intros Hv. assert (forall x, seen t x -> v <> x) as Hne by (intros x Hx ->; done).
  split; cbn; [intros x Hx; apply lookup_insert_ne; by apply Hne..|lia].
Qed.

Lemma open_white v t : ~ seen t v -> v ∈ dom (nodes g) -> (white_count (open_node v t) < white_count t)%nat.
Proof.
  intros Hv Hn. unfold white_count. apply subset_size. cbn. rewrite dom_insert_L. unfold seen in Hv. set_solver.
Qed.

Lemma open_tinv G v t :
  TInv G t -> ~ seen t v -> (forall z, z ∈ G -> reach z v) -> TInv ({[v]} ∪ G) (open_node v t).
Proof.
  intros HT Hv HG. pose proof HT as [Hidx Hnd Hon Hseen Hap Hgr Hord Hup Hdn Hbl Hcl Hco].
  assert (forall x, x ∈ tarjan_stack t -> x <> v) as Hne.
  { intros x Hx ->. apply Hv. by eapply tinv_stack_seen. }
  assert (forall x, x ∈ tarjan_stack t -> index_of (open_node v t) x = index_of t x) as Hix.
  { intros x Hx. by apply open_index_ne, Hne. }
  split.
  - intros x [->|Hx]%open_seen; [rewrite open_index_eq; cbn; lia|]. rewrite open_index_ne by (intros ->; done).
    pose proof (Hidx x Hx). cbn. lia.
  - cbn. constructor; [|done]. intros Hin. by apply (Hne v Hin).
  - intros x. cbn. rewrite elem_of_union, elem_of_singleton, elem_of_cons, Hon. done.
  - intros x. rewrite open_seen, Hseen. cbn. rewrite elem_of_cons. change (popped (open_node v t) x) with (popped t x). tauto.
  - intros x. cbn. rewrite elem_of_cons. intros [->|Hx]; [|by apply Hap]. intros Hp. apply Hv, Hseen. by right.
  - intros x. cbn. rewrite elem_of_union, elem_of_singleton, elem_of_cons. intros [->|?]; [by left|right; by apply Hgr].
  - cbn. constructor.
    + clear -Hord Hix. induction Hord as [|x l Hs IH Hf]; constructor.
      * apply IH. intros y Hy. apply Hix. by right.
      * rewrite Forall_forall in Hf |- *. intros y Hy. rewrite !Hix; [by apply Hf|by left|by right].
    + apply Forall_forall. intros x Hx. rewrite open_index_eq, Hix by done. apply Hidx. by eapply tinv_stack_seen.
  - intros x. cbn. rewrite elem_of_cons. intros [->|Hx].
    + exists v. split; [set_solver|apply rtc_refl].
    + destruct (Hup x Hx) as (z & ? & ?). exists z. split; [set_solver|done].
  - intros z x. rewrite elem_of_union, elem_of_singleton. cbn. rewrite elem_of_cons.
    intros [->|Hz] [->|Hx].
    + intros _. apply rtc_refl.
    + rewrite open_index_eq, Hix by done. pose proof (Hidx x (tinv_stack_seen _ _ _ HT Hx)). lia.
    + intros _. by apply HG.
    + rewrite !Hix by auto. by apply Hdn.
  - intros x y. rewrite !open_seen, not_elem_of_union, not_elem_of_singleton. intros [->|Hx] [Hxv Hxg] He; [done|].
    right. by eapply Hbl.
  - done.
  - done.
Qed.

(** ** Closing a node *)

Lemma pop_component_spec v new rest on component :
  v ∉ new -> exists on' component', pop_component v (new ++ v :: rest) on component = (rest, on', component')
    /\ (forall x, x ∈ on' <-> x ∈ on /\ x <> v /\ x ∉ new)
    /\ (forall x, x ∈ component' <-> x ∈ component \/ x = v \/ x ∈ new).
Proof.
  revert on component. induction new as [|x new IH]; intros on component Hv; cbn.
  - rewrite decide_True by done. eexists _, _. split; [done|]. split; set_solver.
  - apply not_elem_of_cons in Hv as [Hvx Hv]. rewrite decide_False by done.
    destruct (IH (on ∖ {[x]}) ({[x]} ∪ component) Hv) as (on' & c' & -> & Hon & Hc).
    exists on', c'. split; [done|]. split; intros y; rewrite ?Hon, ?Hc, elem_of_cons; set_solver.
Qed.

(** The state in which all successors of [v] have been visited; [t0] is the one
    before [v] was opened, [new] what was pushed above [v]. *)
Record Visited (G : gset Str) (v : Str) (t0 t : TarjanSearch) (new : list Str) : Prop := {
  vis_before : TInv G t0;
  vis_inv : TInv ({[v]} ∪ G) t;
  vis_stack : tarjan_stack t = new ++ v :: tarjan_stack t0;
  vis_keeps : Keeps t0 t;
  vis_index : index_of t v = next_index t0;
  vis_components : forall c, c ∈ components t0 -> c ∈ components t;
  vis_low_from : lowlink t v = index_of t v \/ exists y, y ∈ tarjan_stack t0 /\ reach v y /\ lowlink t v = index_of t0 y;
  vis_low_new : forall x y, x ∈ new -> y ∈ tarjan_stack t0 -> edge x y -> lowlink t v <= index_of t0 y }.

(** The successors in [l] have been met, and the low link accounts for them. *)
Definition accounted (v : Str) (t0 t : TarjanSearch) (l : list Str) : Prop :=
  forall y, y ∈ l -> seen t y /\ (y ∈ tarjan_stack t0 -> lowlink t v <= index_of t0 y).

Lemma visited_facts G v t0 t new :
  Visited G v t0 t new -> v ∉ new /\ v ∉ tarjan_stack t0 /\ v ∉ G /\ (forall x, x ∈ new -> x ∉ tarjan_stack t0 /\ x ∉ G).
Proof.
  intros [HB HI Hst _ _ _ _ _]. pose proof (ti_nodup _ _ HI) as Hnd. rewrite Hst in Hnd.
  apply NoDup_app in Hnd as (_ & Hapart & [Hv _]%NoDup_cons). pose proof (ti_gray _ _ HB) as Hg.
  split; [|split; [done|split; [by intros ?%Hg|]]].
  - intros Hin. apply (Hapart v Hin). by left.
  - intros x Hx. assert (x ∉ tarjan_stack t0) as Hn by (intros Hin; apply (Hapart x Hx); by right).
    split; [done|]. by intros ?%Hg.
Qed.

(** No edge leads from what is above and including [v] to what is below. *)
Lemma visited_isolated G v t0 t new :
  Visited G v t0 t new -> (forall y, edge v y -> seen t y /\ (y ∈ tarjan_stack t0 -> lowlink t v <= index_of t0 y)) ->
  lowlink t v = index_of t v -> forall x y, (x = v \/ x ∈ new) -> edge x y -> (y = v \/ y ∈ new) \/ popped t y.
Proof.
  intros HV Hacc Hlow x y Hx He. pose proof HV as [HB HI Hst HK Hidx Hco Hlf Hln].
  destruct (visited_facts _ _ _ _ _ HV) as (Hvn & Hvs & HvG & Hnew).
  assert (seen t y) as Hy.
  { destruct Hx as [->|Hx]; [by apply Hacc|]. apply (ti_black _ _ HI x); [|destruct (Hnew x Hx); set_solver|done].
    apply (tinv_stack_seen _ _ _ HI). rewrite Hst. set_solver. }
  apply (ti_seen _ _ HI) in Hy as [Hy|Hy]; [|by right]. rewrite Hst, elem_of_app, elem_of_cons in Hy.
  destruct Hy as [Hy|[->|Hy]]; [by left; right|by left; left|]. exfalso.
  assert (lowlink t v <= index_of t0 y) as Hle by (destruct Hx as [->|Hx]; [by apply Hacc|by eapply Hln]).
  pose proof (ti_index _ _ HB y (tinv_stack_seen _ _ _ HB Hy)). lia.
Qed.

Lemma close_component G v t0 t new :
  Visited G v t0 t new -> (forall y, edge v y -> seen t y /\ (y ∈ tarjan_stack t0 -> lowlink t v <= index_of t0 y)) ->
  lowlink t v = index_of t v -> forall c, (forall x, x ∈ c <-> x = v \/ x ∈ new) -> strongly_connected c.
Proof.
  intros HV Hacc Hlow c Hc. pose proof HV as [HB HI Hst HK Hidx Hco Hlf Hln].
  destruct (visited_facts _ _ _ _ _ HV) as (Hvn & Hvs & HvG & Hnew).
  pose proof (visited_isolated _ _ _ _ _ HV Hacc Hlow) as Hiso.
  assert (forall x, (x = v \/ x ∈ new) -> x ∈ tarjan_stack t) as Hon by (intros x [->|?]; rewrite Hst; set_solver).
  assert (forall x y, (x = v \/ x ∈ new) -> reach x y -> (y = v \/ y ∈ new) \/ popped t y) as Hstay.
  { intros x y Hx Hr. apply (reach_closed (fun y => (y = v \/ y ∈ new) \/ popped t y) x y); [|done|by left].
    intros a b [Ha|Ha] He; [by eapply Hiso|right; by eapply ti_closed]. }
  assert (forall x, (x = v \/ x ∈ new) -> reach v x) as Hvx.
  { intros x Hx. apply (ti_down _ _ HI); [set_solver|by apply Hon|]. destruct Hx as [->|Hx]; [done|].
    pose proof (ti_order _ _ HI) as Ho. rewrite Hst in Ho. apply list_elem_of_split in Hx as (l1 & l2 & ->).
    rewrite <- app_assoc in Ho. clear -Ho. induction l1 as [|z l1 IH]; cbn in Ho; apply StronglySorted_inv in Ho as [Ho Hf]; [|by apply IH].
    rewrite Forall_forall in Hf. apply Z.lt_le_incl, Hf. apply elem_of_app. right. by left. }
  assert (forall x, (x = v \/ x ∈ new) -> reach x v) as Hxv.
  { intros x Hx. destruct (ti_up _ _ HI x (Hon x Hx)) as (z & [->%elem_of_singleton|Hz]%elem_of_union & Hr); [done|]. exfalso.
    destruct (Hstay x z Hx Hr) as [[->|Hzn]|Hp]; [done|by apply (Hnew z Hzn)|].
    apply (ti_apart _ _ HI z); [|done]. apply (ti_gray _ _ HI). set_solver. }
  split; [exists v; apply Hc; by left|]. intros x Hx%Hc y. rewrite Hc. split.
  - intros Hy. split; (etrans; [by apply Hxv|by apply Hvx]).
  - intros [Hxy Hyx]. destruct (Hstay x y Hx Hxy) as [?|Hp]; [done|]. exfalso.
    apply (ti_apart _ _ HI x (Hon x Hx)). apply (reach_closed (popped t) y x); [by apply (ti_closed _ _ HI)|done|done].
Qed.

(** What a call of [strong_connect] leaves. *)
Record Connected (G : gset Str) (v : Str) (t0 t : TarjanSearch) (new : list Str) : Prop := {
  con_inv : TInv G t;
  con_keeps : Keeps t0 t;
  con_stack : tarjan_stack t = new ++ tarjan_stack t0;
  con_components : forall c, c ∈ components t0 -> c ∈ components t;
  con_seen : seen t v;
  con_index : next_index t0 <= index_of t v;
  con_low : lowlink t v = index_of t v \/ exists y, y ∈ tarjan_stack t0 /\ reach v y /\ lowlink t v = index_of t0 y;
  con_new : forall x y, x ∈ new -> y ∈ tarjan_stack t0 -> edge x y -> lowlink t v <= index_of t0 y }.

Lemma close_connected G v t0 t new :
  Visited G v t0 t new -> (forall y, edge v y -> seen t y /\ (y ∈ tarjan_stack t0 -> lowlink t v <= index_of t0 y)) ->
  exists new', Connected G v t0 (close_node v t) new'.
Proof.
  intros HV Hacc. pose proof HV as [HB HI Hst HK Hidx Hco Hlf Hln].
  destruct (visited_facts _ _ _ _ _ HV) as (Hvn & Hvs & HvG & Hnew). unfold close_node.
  case_decide as Hlow.
  - pose proof (close_component _ _ _ _ _ HV Hacc Hlow) as Hscc.
    pose proof (visited_isolated _ _ _ _ _ HV Hacc Hlow) as Hiso. rewrite Hst.
    destruct (pop_component_spec v new (tarjan_stack t0) (on_stack t) ∅ Hvn) as (on' & c & -> & Hon & Hc).
    assert (forall x, x ∈ c <-> x = v \/ x ∈ new) as Hc' by (intros x; rewrite Hc; set_solver). clear Hc.
    set (t' := MkTarjan _ _ _ _ _ _). assert (forall x, popped t' x <-> popped t x \/ x = v \/ x ∈ new) as Hpop.
    { intros x. unfold popped, t'. cbn. setoid_rewrite elem_of_app. setoid_rewrite list_elem_of_singleton.
      rewrite <- Hc'. split; [intros (c0 & [?| ->] & ?); eauto|intros [(c0 & ? & ?)|?]; eauto]. }
    exists []. assert (forall x, seen t x <-> x ∈ tarjan_stack t0 \/ popped t' x) as Hseen.
    { intros x. rewrite (ti_seen _ _ HI), Hst, Hpop. set_solver. }
    split; [split| | | | | | |]; try done.
    + intros x. apply (ti_index _ _ HI).
    + cbn. apply (ti_nodup _ _ HB).
    + intros x. cbn. rewrite Hon, (ti_on _ _ HI), Hst. split; [set_solver|]. intros Hx. split; [set_solver|].
      split; [by intros ->|]. intros Hxn. by destruct (Hnew x Hxn).
    + cbn. intros x Hx. rewrite Hpop. intros [Hp|[->|Hxn]]; [|done|by destruct (Hnew x Hxn)].
      apply (ti_apart _ _ HI x); [rewrite Hst; set_solver|done].
    + cbn. apply (ti_gray _ _ HB).
    + cbn. pose proof (ti_order _ _ HI) as Ho. rewrite Hst in Ho. clear -Ho.
      induction new as [|x new IH]; cbn in Ho; apply StronglySorted_inv in Ho as [Ho _]; [done|by apply IH].
    + cbn. apply (ti_up _ _ HB).
    + cbn. intros z x Hz Hx. change (index_of t' z) with (index_of t z). change (index_of t' x) with (index_of t x).
      apply (ti_down _ _ HI); [set_solver|rewrite Hst; set_solver].
    + intros x y Hx HxG He. destruct (decide (x = v)) as [->|Hne]; [by apply Hacc|].
      apply (ti_black _ _ HI x y); [done|set_solver|done].
    + intros x y. rewrite !Hpop. intros [Hp|Hx] He; [left; by eapply ti_closed|]. destruct (Hiso x y Hx He); tauto.
    + cbn. intros c0 [Hc0| ->%list_elem_of_singleton]%elem_of_app; [by apply (ti_comp _ _ HI)|by apply Hscc].
    + split; apply HK.
    + cbn. intros c0 Hc0. apply elem_of_app. left. by apply Hco.
    + apply Hseen. right. apply Hpop. tauto.
    + change (index_of t' v) with (index_of t v). lia.
    + by intros x y ?%not_elem_of_nil.
  - destruct Hlf as [?|(y0 & Hy0 & Hr0 & Hl0)]; [done|].
    exists (new ++ [v]). split; try done.
    + pose proof HI as [Hti Hnd Hon Hse Hap Hgr Hord Hup Hdn Hbl Hcl Hcm]. split; try done.
      * intros x Hx. apply Hgr. set_solver.
      * intros x Hx. destruct (Hup x Hx) as (z & [->%elem_of_singleton|Hz]%elem_of_union & Hr); [|by exists z].
        destruct (ti_up _ _ HB y0 Hy0) as (z & Hz & Hr'). exists z. split; [done|].
        etrans; [exact Hr|]. by etrans.
      * intros z x Hz. apply Hdn. set_solver.
      * intros x y Hx HxG He. destruct (decide (x = v)) as [->|Hne]; [by apply Hacc|]. apply (Hbl x y); [done|set_solver|done].
    + by rewrite <- app_assoc.
    + apply (tinv_stack_seen _ _ _ HI). rewrite Hst. set_solver.
    + lia.
    + right. by exists y0.
    + intros x y [Hx| ->%list_elem_of_singleton]%elem_of_app Hy He; [by eapply Hln|by apply Hacc].
Qed.

(** ** Visiting the successors *)

Lemma visited_low G v t0 t new : Visited G v t0 t new -> lowlink t v <= index_of t v.
Proof.
  intros [HB HI Hst HK Hidx Hco [->|(y & Hy & _ & ->)] Hln]; [done|].
  rewrite Hidx. apply Z.lt_le_incl, (ti_index _ _ HB). by eapply tinv_stack_seen.
Qed.

(** What is on the stack was there before, or is above [v]. *)
Lemma visited_stack G v t0 t new y :
  Visited G v t0 t new -> y ∈ tarjan_stack t ->
  (y ∈ tarjan_stack t0 /\ index_of t y = index_of t0 y) \/ index_of t v <= index_of t y.
Proof.
  intros [HB HI Hst HK Hidx Hco Hlf Hln]. pose proof (ti_order _ _ HI) as Ho. rewrite Hst in Ho |- *.
  rewrite elem_of_app, elem_of_cons. intros [Hy|[->|Hy]]; [right|by right|left].
  - clear -Ho Hy. induction new as [|z new IH]; [by apply not_elem_of_nil in Hy|].
    cbn in Ho. apply StronglySorted_inv in Ho as [Ho Hf]. rewrite Forall_forall in Hf.
    apply elem_of_cons in Hy as [->|Hy]; [|by apply IH]. apply Z.lt_le_incl, Hf. set_solver.
  - split; [done|]. apply keeps_index_of; [done|]. by eapply tinv_stack_seen.
Qed.

(** The low link of [v] is lowered to [m]. *)
Lemma visited_update G v t0 t t1 new newc m :
  Visited G v t0 t new -> TInv ({[v]} ∪ G) t1 -> Keeps t t1 -> tarjan_stack t1 = newc ++ tarjan_stack t ->
  (forall c, c ∈ components t -> c ∈ components t1) ->
  (m = lowlink t v \/ exists y, y ∈ tarjan_stack t0 /\ reach v y /\ m = index_of t0 y) -> m <= lowlink t v ->
  (forall x y, x ∈ newc -> y ∈ tarjan_stack t0 -> edge x y -> m <= index_of t0 y) -> ~ seen t0 v ->
  Visited G v t0 (set_lowlink v m t1) (newc ++ new).
Proof.
  intros HV HI1 HK1 Hst1 Hco1 Hm Hle Hnc Hv0. pose proof HV as [HB HI Hst HK Hidx Hco Hlf Hln].
  assert (seen t v) as Hv by (apply (tinv_stack_seen _ _ _ HI); rewrite Hst; set_solver).
  split.
  - done.
  - by apply tinv_set_lowlink.
  - cbn. by rewrite Hst1, Hst, app_assoc.
  - pose proof (keeps_trans _ _ _ HK HK1) as [K1 K2 K3]. split; [done| |done]. intros x Hx. cbn.
    rewrite lookup_insert_ne by (intros ->; done). by apply K2.
  - change (index_of (set_lowlink v m t1) v) with (index_of t1 v). by rewrite (keeps_index_of t t1).
  - intros c Hc. by apply Hco1, Hco.
  - rewrite lowlink_set. change (index_of (set_lowlink v m t1) v) with (index_of t1 v).
    rewrite (keeps_index_of t t1) by done. destruct Hm as [->|?]; [done|by right].
  - rewrite lowlink_set. intros x y [Hx|Hx]%elem_of_app Hy He; [by eapply Hnc|]. etrans; [exact Hle|by eapply Hln].
Qed.

Definition call_ok (fuel : nat) (call : Str -> TarjanSearch -> option TarjanSearch) : Prop :=
  forall G v t, TInv G t -> ~ seen t v -> (forall z, z ∈ G -> reach z v) -> v ∈ dom (nodes g) ->
  (white_count t < fuel)%nat -> exists t' new, call v t = Some t' /\ Connected G v t t' new.

Lemma visit_successors_spec fuel call G v t0 l t new :
  (forall x, out g x ⊆ dom (nodes g)) -> call_ok fuel call -> (forall z, z ∈ G -> reach z v) -> ~ seen t0 v ->
  (forall y, y ∈ l -> edge v y) -> (white_count t < fuel)%nat -> Visited G v t0 t new ->
  exists t' new', visit_successors call v l t = Some t' /\ Visited G v t0 t' new' /\ accounted v t0 t' l
    /\ lowlink t' v <= lowlink t v /\ (forall x, seen t x -> seen t' x).
Proof.
  intros Hg Hcall HG Hv0. revert t new. induction l as [|s l IH]; intros t new Hl Hfuel HV.
  { exists t, new. cbn. split_and!; [done..|by intros y ?%not_elem_of_nil|done|done]. }
  assert (edge v s) as Hs by (apply Hl; by left). pose proof HV as [HB HI Hst HK Hidx Hco Hlf Hln].
  assert (exists t1 new1, (if decide (indices t !! s = None) then
             t ← call s t; Some (set_lowlink v (Z.min (lowlink t v) (lowlink t s)) t)
           else if decide (s ∈ on_stack t) then Some (set_lowlink v (Z.min (lowlink t v) (index_of t s)) t)
           else Some t) = Some t1 /\ Visited G v t0 t1 new1 /\ accounted v t0 t1 [s]
    /\ lowlink t1 v <= lowlink t v /\ (forall x, seen t x -> seen t1 x) /\ (white_count t1 <= white_count t)%nat)
    as (t1 & new1 & Heq & HV1 & Hacc1 & Hlow1 & Hseen1 & Hwhite1); [|].
  - clear IH. case_decide as Hnone; [|case_decide as Hon].
    + destruct (Hcall ({[v]} ∪ G) s t HI) as (t1 & newc & Hc & HC); [by apply not_elem_of_dom| |by eapply Hg|done|].
      { intros z [->%elem_of_singleton|Hz]%elem_of_union; [by apply rtc_once|]. etrans; [by apply HG|by apply rtc_once]. }
      rewrite Hc. cbn. destruct HC as [CI CK Cst Cco Cse Cidx Clow Cnew].
      assert (seen t v) as Hv by (apply (tinv_stack_seen _ _ _ HI); rewrite Hst; set_solver).
      assert (lowlink t1 v = lowlink t v) as Hlv by (unfold lowlink; by rewrite (keeps_low _ _ CK)).
      pose proof (visited_low _ _ _ _ _ HV) as Hvl. pose proof (ti_index _ _ HI v Hv) as Hvi.
      eexists _, (newc ++ new). split; [done|]. split; [|split; [|split; [|split]]].
      * apply (visited_update G v t0 t); try done.
        -- rewrite Hlv. destruct (Z.min_spec (lowlink t v) (lowlink t1 s)) as [[_ ->]|[Hle ->]]; [by left|].
           destruct Clow as [Cl|(y & Hy & Hr & Hl1)]; [left; lia|].
           destruct (visited_stack _ _ _ _ _ y HV Hy) as [[Hy0 Hi]|Hi]; [|left; lia].
           right. exists y. split; [done|]. split; [by eapply rtc_l|congruence].
        -- rewrite Hlv. lia.
        -- intros x y Hx Hy He. assert (y ∈ tarjan_stack t) as Hyt by (rewrite Hst; set_solver).
           pose proof (Cnew x y Hx Hyt He). rewrite (keeps_index_of t0 t) in H by (done || by eapply tinv_stack_seen). lia.
      * intros y ->%list_elem_of_singleton. split; [done|]. intros Hy. exfalso.
        apply (tinv_stack_seen _ _ _ HB) in Hy. apply (keeps_seen _ _ _ HK), elem_of_dom in Hy. rewrite Hnone in Hy. by destruct Hy.
      * rewrite lowlink_set, Hlv. lia.
      * intros x Hx. by apply (keeps_seen _ _ _ CK).
      * apply (white_count_keeps _ _ CK).
    + apply (ti_on _ _ HI) in Hon. pose proof (visited_low _ _ _ _ _ HV) as Hvl.
      eexists _, new. split; [done|]. split; [|split; [|split; [|split]]].
      * apply (visited_update G v t0 t t new []); try done.
        -- destruct (Z.min_spec (lowlink t v) (index_of t s)) as [[_ ->]|[Hle ->]]; [by left|].
           destruct (visited_stack _ _ _ _ _ s HV Hon) as [[Hy0 Hi]|Hi]; [|left; lia].
           right. exists s. split; [done|]. split; [by apply rtc_once|done].
        -- lia.
        -- by intros x y ?%not_elem_of_nil.
      * intros y ->%list_elem_of_singleton. split; [by apply (tinv_stack_seen _ _ _ HI)|]. intros Hy.
        rewrite lowlink_set, <- (keeps_index_of t0 t) by (done || by eapply tinv_stack_seen). lia.
      * rewrite lowlink_set. lia.
      * done.
      * done.
    + exists t, new. split; [done|]. split; [done|]. split; [|split; done].
      intros y ->%list_elem_of_singleton. split; [by apply elem_of_dom, not_eq_None_Some|]. intros Hy. exfalso.
      apply Hon, (ti_on _ _ HI). rewrite Hst. set_solver.
  - cbn [visit_successors]. rewrite Heq. cbn [mbind option_bind].
    destruct (IH t1 new1) as (t' & new' & -> & HV' & Hacc' & Hlow' & Hseen'); [intros y Hy; apply Hl; by right|lia|done|].
    exists t', new'. split; [done|]. split; [done|]. split; [|split; [lia|auto]].
    intros y [->|Hy]%elem_of_cons; [|by apply Hacc']. destruct (Hacc1 s) as [H1 H2]; [by left|].
    split; [by apply Hseen'|]. intros Hy. pose proof (H2 Hy). lia.
Qed.

Lemma open_visited G v t :
  TInv G t -> ~ seen t v -> (forall z, z ∈ G -> reach z v) -> Visited G v t (open_node v t) [].
Proof.
  intros HT Hv HG. split; try done.
  - by apply open_tinv.
  - by apply open_keeps.
  - apply open_index_eq.
  - left. rewrite open_index_eq. unfold lowlink. cbn. by rewrite lookup_insert_eq.
  - by intros x y ?%not_elem_of_nil.
Qed.

Lemma strong_connect_spec fuel : (forall x, out g x ⊆ dom (nodes g)) -> call_ok fuel (strong_connect g fuel).
Proof.
  intros Hg. induction fuel as [|fuel IH]; intros G v t HT Hv HG Hn Hfuel; [lia|]. cbn [strong_connect].
  pose proof (open_white v t Hv Hn) as Hw.
  destruct (visit_successors_spec fuel (strong_connect g fuel) G v t (sorted_elements (out g v)) (open_node v t) [])
    as (t' & new & -> & HV & Hacc & _); [done|done|done|done|by intros y ?%elem_sorted_elements|lia|by apply open_visited|].
  cbn. destruct (close_connected G v t t' new HV) as (new' & HC); [|by eexists _, new'].
  intros y Hy. apply Hacc. by apply elem_sorted_elements.
Qed.

(** ** All components *)

Lemma connect_all_spec keys t :
  (forall x, out g x ⊆ dom (nodes g)) -> (forall k, k ∈ keys -> k ∈ dom (nodes g)) -> TInv ∅ t ->
  exists t', connect_all g keys t = Some t' /\ TInv ∅ t' /\ (forall x, seen t x \/ x ∈ keys -> seen t' x).
Proof.
  intros Hg. revert t. induction keys as [|k keys IH]; intros t Hk HT.
  { exists t. cbn. split_and!; [done..|]. by intros x [?|?%not_elem_of_nil]. }
  cbn [connect_all]. case_decide as Hnone.
  - destruct (strong_connect_spec (S (size (nodes g))) Hg ∅ k t HT) as (t1 & new & -> & HC);
      [by apply not_elem_of_dom|set_solver|apply Hk; by left| |].
    { unfold white_count. rewrite <- size_dom. apply Nat.lt_succ_r, subseteq_size. set_solver. }
    cbn. destruct HC as [CI CK _ _ Cse _ _ _].
    destruct (IH t1) as (t' & -> & HT' & Hs); [intros x ?; apply Hk; by right|done|].
    exists t'. split_and!; [done..|]. intros x [Hx|[->|Hx]%elem_of_cons]; apply Hs; [|by left|by right].
    left. by apply (keeps_seen _ _ _ CK).
  - cbn. destruct (IH t) as (t' & -> & HT' & Hs); [intros x ?; apply Hk; by right|done|].
    exists t'. split_and!; [done..|]. intros x [Hx|[->|Hx]%elem_of_cons]; apply Hs; [by left| |by right].
    left. by apply elem_of_dom, not_eq_None_Some.
Qed.

Lemma tarjan_new_inv : TInv ∅ tarjan_new.
Proof.
  assert (forall x, ~ seen tarjan_new x) as Hno.
  { intros x. unfold seen. cbn. rewrite dom_empty_L. set_solver. }
  split; cbn; try constructor; try (intros; set_solver).
Qed.

(** The components cover the nodes, and are the strongly connected ones. *)
Lemma detect_sccs_spec :
  (forall x, out g x ⊆ dom (nodes g)) ->
  exists l, detect_sccs_with_witness g = Some l
    /\ (forall x, x ∈ dom (nodes g) -> exists c, c ∈ l /\ x ∈ members c)
    /\ (forall c, c ∈ l -> strongly_connected (members c) /\ representative c = representative_cycle_edge g (members c)).
Proof.
  intros Hg. unfold detect_sccs_with_witness.
  destruct (connect_all_spec (sorted_keys (nodes g)) tarjan_new Hg) as (t & -> & HT & Hs);
    [by intros k ?%elem_sorted_elements|apply tarjan_new_inv|]. cbn.
  assert (forall c, c ∈ sort_by (fun c d => str_compare (component_sort_key c) (component_sort_key d))
      ((fun m => MkComponent m (representative_cycle_edge g m)) <$> components t)
    <-> exists m, c = MkComponent m (representative_cycle_edge g m) /\ m ∈ components t) as Hel.
  { intros c. by rewrite sort_by_perm, list_elem_of_fmap. }
  eexists. split; [done|]. split.
  - intros x Hx. assert (seen t x) as Hseen by (apply Hs; right; by apply elem_sorted_elements).
    apply (ti_seen _ _ HT) in Hseen as [Hst|(m & Hm & Hxm)].
    + destruct (ti_up _ _ HT x Hst) as (z & Hz & _). set_solver.
    + eexists. split; [apply Hel; by exists m|done].
  - intros c (m & -> & Hm)%Hel. split; [|done]. by apply (ti_comp _ _ HT).
Qed.
End tarjan.
