(* ===== verification/Liveness.v ===== *)
(** * Leads-to obligations on the explored graph

    transpiler/src/modelcheck/liveness.rs: a cycle that visits a [from] state and no
    [to] state, among fair components, with a path to it.  A predicate of the
    specification is a function from states to its value or an error, as its
    evaluator gives it. *)

From stdpp Require Import prelude gmap sets list numbers fin_sets strings.
From Stdlib Require Import ZArith Lia.
From S2P Require Import Prelude.
From S2P Require Import RuntimeValue.
From S2P Require Import DedupKeys.
From S2P Require Import Explorer.
From S2P Require Import StateGraph.

#[local] Open Scope Z_scope.

(** ** Data *)

Record FairnessConfig := MkFairness { weak : list Str; strong : list Str }.

Record ResolvedLeadsToObligation := MkObligation {
  obligation_name : Str; from_name : Str; to_name : Str;
  from_fn : RuntimeValue -> TranspileResult bool; to_fn : RuntimeValue -> TranspileResult bool }.

Record LeadsToViolation := MkLeadsToViolation {
  violated_obligation : Str; violated_from : Str; violated_to : Str;
  violating_component : gset Str; violating_edge : GraphEdgeKey; leads_to_counterexample : CounterexampleTrace }.

(** ** Fairness *)

Section graph.
Context (name : Symbol -> Str) (graph : ExploredGraphIndex).

(** The branches of an edge. *)
Definition labels (from to : Str) : gset Str := default ∅ (edge_branches graph !! MkEdge from to).

(** The branches enabled in a state, as far as they lead to explored states, and
    those taken inside a component. *)
Definition enabled_labels (from : Str) : gset Str :=
  ⋃ ((fun to => labels from to) <$> elements (out graph from)).
Definition internal_edge_labels (members : gset Str) : gset Str :=
  ⋃ ((fun from => ⋃ ((fun to => labels from to) <$> elements (out graph from ∩ members))) <$> elements members).

Definition component_satisfies_fairness (members : gset Str) (fairness : FairnessConfig) : bool :=
  if decide (weak fairness = [] /\ strong fairness = []) then true
  else
    forallb (fun label =>
      negb (forallb (fun k => bool_decide (label ∈ enabled_labels k)) (elements members)
            && bool_decide (label ∉ internal_edge_labels members))) (weak fairness)
    && forallb (fun label =>
      negb (existsb (fun k => bool_decide (label ∈ enabled_labels k)) (elements members)
            && bool_decide (label ∉ internal_edge_labels members))) (strong fairness).

(** [choose_component_cycle_edge]. *)
Definition choose_component_cycle_edge (members preferred_from_nodes : gset Str) : option GraphEdgeKey :=
  first_internal_edge graph members (fun k => bool_decide (k ∈ preferred_from_nodes)).

(** ** The path to the cycle *)

(** One node of the breadth-first search for the prefix. *)
Fixpoint enqueue_successors (from : Str) (l : list Str) (visited : gset Str) (queue : list Str)
    (parents : gmap Str GraphEdgeKey) : gset Str * list Str * gmap Str GraphEdgeKey :=
  match l with
  | [] => (visited, queue, parents)
  | to :: l =>
      if decide (to ∈ visited) then enqueue_successors from l visited queue parents
      else enqueue_successors from l ({[to]} ∪ visited) (queue ++ [to]) (<[to := MkEdge from to]> parents)
  end.

Fixpoint prefix_search (fuel : nat) (target : Str) (visited : gset Str) (queue : list Str)
    (parents : gmap Str GraphEdgeKey) : option (gmap Str GraphEdgeKey) :=
  match fuel with
  | O => None
  | S fuel =>
      match queue with
      | [] => Some parents
      | from :: queue =>
          if decide (from = target) then Some parents
          else
            let '(visited, queue, parents) :=
              enqueue_successors from (sorted_elements (out graph from)) visited queue parents in
            prefix_search fuel target visited queue parents
      end
  end.

(** [while let Some(edge) = parents.get(&cursor)]. *)
Fixpoint prefix_path (fuel : nat) (parents : gmap Str GraphEdgeKey) (cursor : Str) (path : list GraphEdgeKey)
  : option (list GraphEdgeKey) :=
  match fuel with
  | O => None
  | S fuel =>
      match parents !! cursor with
      | Some edge => prefix_path fuel parents (from_key edge) (edge :: path)
      | None => Some path
      end
  end.

Definition initial_keys : list Str :=
  filter (fun k => node_depth <$> nodes graph !! k = Some 0) (sorted_keys (nodes graph)).

(** Each node is put in the queue once. *)
Definition shortest_prefix_edges (target : Str) : option (list GraphEdgeKey) :=
  if decide (node_depth <$> nodes graph !! target = Some 0) then Some []
  else
    parents ← prefix_search (S (size (nodes graph))) target (list_to_set initial_keys) initial_keys ∅;
    prefix_path (S (size parents)) parents target [].

(** ** The counterexample *)

Definition summarize_state_diff_coarse (before after : RuntimeValue) : list StateDiffSummary :=
  if value_eqb before after then []
  else [MkDiff (str "s") (canonical_key name before) (canonical_key name after)].

Definition missing_node (what : string) (key : Str) (why : string) : TranspileError :=
  Config (str "Internal model-check error: missing " ++ str what ++ str " `" ++ key ++ str "` " ++ str why).

Definition edge_to_trace_step (edge : GraphEdgeKey) : TranspileResult CounterexampleStep :=
  match nodes graph !! from_key edge, nodes graph !! to_key edge with
  | None, _ => inl (missing_node "from-state" (from_key edge) "for trace edge.")
  | _, None => inl (missing_node "to-state" (to_key edge) "for trace edge.")
  | Some from, Some to =>
      let branch := default (str "<unknown>") (head (sorted_elements (labels (from_key edge) (to_key edge)))) in
      inr (MkStep branch (node_state to) (summarize_state_diff_coarse (node_state from) (node_state to)))
  end.

Fixpoint edges_to_trace_steps (edges : list GraphEdgeKey) : TranspileResult (list CounterexampleStep) :=
  match edges with
  | [] => inr []
  | edge :: edges =>
      match edge_to_trace_step edge with
      | inl e => inl e
      | inr step => match edges_to_trace_steps edges with inl e => inl e | inr steps => inr (step :: steps) end
      end
  end.

(** [None] when the fuel of the path's search is exhausted. *)
Definition build_leads_to_counterexample (target : Str) (cycle_edge : GraphEdgeKey)
  : option (TranspileResult CounterexampleTrace) :=
  prefix ← shortest_prefix_edges target;
  let initial_key := match prefix with edge :: _ => from_key edge | [] => target end in
  match nodes graph !! initial_key with
  | None => Some (inl (missing_node "initial trace node" initial_key "while building leads-to counterexample."))
  | Some meta =>
      match edges_to_trace_steps (prefix ++ [cycle_edge]) with
      | inl e => Some (inl e)
      | inr steps => Some (inr (MkTrace (node_state meta) steps))
      end
  end.

(** ** The check *)

(** The states in which the predicates hold. *)
Fixpoint eval_predicates (ob : ResolvedLeadsToObligation) (keys : list Str) (from_states to_states : gset Str)
  : TranspileResult (gset Str * gset Str) :=
  match keys with
  | [] => inr (from_states, to_states)
  | key :: keys =>
      match nodes graph !! key with
      | None => eval_predicates ob keys from_states to_states
      | Some node =>
          match from_fn ob (node_state node), to_fn ob (node_state node) with
          | inl e, _ => inl e
          | _, inl e => inl e
          | inr f, inr t =>
              eval_predicates ob keys
                (if f then {[key]} ∪ from_states else from_states) (if t then {[key]} ∪ to_states else to_states)
          end
      end
  end.

Definition no_cycle_witness (ob : ResolvedLeadsToObligation) : TranspileError :=
  Config (str "Internal model-check error: cyclic SCC for `" ++ obligation_name ob ++ str "` had no cycle witness edge.").

(** Whether a component is to be reported. *)
Definition violates (fairness : FairnessConfig) (from_states to_states : gset Str) (c : SccComponent) : bool :=
  component_satisfies_fairness (members c) fairness
  && bool_decide (members c ∩ from_states <> ∅) && bool_decide (members c ∩ to_states = ∅).

Definition report (ob : ResolvedLeadsToObligation) (from_states : gset Str) (c : SccComponent)
  : option (TranspileResult (option LeadsToViolation)) :=
  match (match choose_component_cycle_edge (members c) from_states with Some e => Some e | None => representative c end) with
  | None => Some (inl (no_cycle_witness ob))
  | Some cycle_edge =>
      r ← build_leads_to_counterexample (from_key cycle_edge) cycle_edge;
      match r with
      | inl e => Some (inl e)
      | inr trace => Some (inr (Some
          (MkLeadsToViolation (obligation_name ob) (from_name ob) (to_name ob) (members c) cycle_edge trace)))
      end
  end.

Fixpoint check_obligations (cyclic : list SccComponent) (fairness : FairnessConfig)
    (obligations : list ResolvedLeadsToObligation) : option (TranspileResult (option LeadsToViolation)) :=
  match obligations with
  | [] => Some (inr None)
  | ob :: obligations =>
      match eval_predicates ob (sorted_keys (nodes graph)) ∅ ∅ with
      | inl e => Some (inl e)
      | inr (from_states, to_states) =>
          match filter (fun c => violates fairness from_states to_states c = true) cyclic with
          | [] => check_obligations cyclic fairness obligations
          | c :: _ => report ob from_states c
          end
      end
  end.

Definition check_leads_to_violations (obligations : list ResolvedLeadsToObligation) (fairness : FairnessConfig)
  : option (TranspileResult (option LeadsToViolation)) :=
  cyclic ← detect_cyclic_sccs_with_witness graph;
  check_obligations cyclic fairness obligations.
End graph.
