(* ===== verification/LivenessLaws.v ===== *)
(** * What a leads-to violation shows

    The index of the graph holds the transitions among the explored states and
    counts those that leave them; a
    strongly connected component has a closed walk over all of its edges; and the
    search for the prefix of the counterexample finds a path. *)

From stdpp Require Import prelude gmap sets list numbers fin_sets strings relations.
From Stdlib Require Import ZArith Lia.
From S2P Require Import Prelude.
From S2P Require Import RuntimeValue.
From S2P Require Import DedupKeys.
From S2P Require Import Explorer.
From S2P Require Import StateGraph.
From S2P Require Import Tarjan.
From S2P Require Import Liveness.

#[local] Open Scope Z_scope.

(** ** Walks in a component *)

Section walks.
Context (g : ExploredGraphIndex).

(** From [x], through the nodes of [l], all in [c], to [y]. *)
Fixpoint walk (c : gset Str) (x : Str) (l : list Str) (y : Str) : Prop :=
  match l with
  | [] => x = y
  | z :: l => edge g x z /\ z ∈ c /\ walk c z l y
  end.

(** [x] and [z] follow each other. *)
Definition adjacent {A} (l : list A) (x z : A) : Prop := exists l1 l2, l = l1 ++ x :: z :: l2.

Lemma walk_app c x l y k z : walk c x l y -> walk c y k z -> walk c x (l ++ k) z.
Proof. revert x. induction l as [|w l IH]; cbn; [by intros x ->|]. naive_solver. Qed.

Lemma walk_end c x l y : walk c x l y -> last (x :: l) = Some y.
Proof. revert x. induction l as [|w l IH]; intros x; cbn; [by intros ->|]. intros (_ & _ & Hw). by apply (IH w). Qed.

Lemma adjacent_app_l {A} (l k : list A) x z : adjacent l x z -> adjacent (l ++ k) x z.
Proof. intros (l1 & l2 & ->). exists l1, (l2 ++ k). by rewrite <- app_assoc. Qed.

Lemma adjacent_app_r {A} (l k : list A) x z : adjacent k x z -> adjacent (l ++ k) x z.
Proof. intros (l1 & l2 & ->). exists (l ++ l1), l2. by rewrite <- app_assoc. Qed.

(** Two walks in a row have the adjacent pairs of both. *)
Lemma adjacent_walks c x l y k a b :
  walk c x l y -> adjacent (x :: l) a b \/ adjacent (y :: k) a b -> adjacent (x :: l ++ k) a b.
Proof.
  intros Hw%walk_end [Ha|Ha]; [exact (adjacent_app_l (x :: l) k a b Ha)|].
  apply last_Some in Hw as [l' Hl']. change (x :: l ++ k) with ((x :: l) ++ k). rewrite Hl', <- app_assoc.
  by apply adjacent_app_r.
Qed.

Lemma path_in_component c x y : strongly_connected g c -> x ∈ c -> y ∈ c -> exists l, walk c x l y.
Proof.
  intros [_ Hc] Hx Hy. pose proof (proj1 (Hc x Hx y) Hy) as [Hr Hback].
  induction Hr as [x|x z y Hxz Hzy IH]; [by exists []|].
  assert (z ∈ c) as Hz by (apply (Hc x Hx); split; [by apply rtc_once|by etrans]).
  destruct IH as [l Hl]; [done|done|by etrans; [|apply rtc_once]|]. by exists (z :: l).
Qed.

(** A closed walk that takes every edge of a list. *)
Lemma covering_walk c u (es : list (Str * Str)) :
  strongly_connected g c -> u ∈ c -> (forall p, p ∈ es -> edge g p.1 p.2 /\ p.1 ∈ c /\ p.2 ∈ c) ->
  exists l, walk c u l u /\ forall p, p ∈ es -> adjacent (u :: l) p.1 p.2.
Proof.
  intros Hc Hu. induction es as [|[x z] es IH]; intros Hes.
  { exists []. split; [done|]. by intros p ?%not_elem_of_nil. }
  destruct IH as (l & Hl & Hall); [intros p Hp; apply Hes; by right|].
  destruct (Hes (x, z)) as (He & Hx & Hz); [by left|]. cbn in He, Hx, Hz.
  destruct (path_in_component c u x Hc Hu Hx) as [l1 Hl1], (path_in_component c z u Hc Hz Hu) as [l2 Hl2].
  assert (walk c x (z :: l2) u) as Hxz by done.
  exists (l ++ (l1 ++ z :: l2)). split; [by eapply walk_app, walk_app|].
  intros p [->|Hp]%elem_of_cons; apply (adjacent_walks c u l u); [done| |done|left; by apply Hall].
  right. apply (adjacent_walks c u l1 x); [done|]. right. by exists [], l2.
Qed.

(** All internal edges, all nodes. *)
Definition internal_edges (c : gset Str) : list (Str * Str) :=
  x ← elements c; z ← elements (out g x ∩ c); [(x, z)].

Lemma elem_internal_edges c p : p ∈ internal_edges c <-> edge g p.1 p.2 /\ p.1 ∈ c /\ p.2 ∈ c.
Proof.
  unfold internal_edges, edge. destruct p as [x z]. rewrite list_elem_of_bind. split.
  - intros (y & Hp & Hy). apply list_elem_of_bind in Hp as (w & Hp & Hw). apply list_elem_of_singleton in Hp as [= -> ->].
    rewrite elem_of_elements in Hy, Hw. set_solver.
  - intros (He & Hx & Hz). exists x. rewrite elem_of_elements. split; [|done]. apply list_elem_of_bind.
    exists z. rewrite elem_of_elements. split; [by left|]. set_solver.
Qed.

Lemma lasso_walk c u w :
  strongly_connected g c -> u ∈ c -> w ∈ c -> edge g u w ->
  exists l, walk c u (w :: l) u /\ (forall x, x ∈ c -> x ∈ u :: w :: l)
    /\ (forall x z, edge g x z -> x ∈ c -> z ∈ c -> adjacent (u :: w :: l) x z).
Proof.
  intros Hc Hu Hw He. destruct (path_in_component c w u Hc Hw Hu) as [l1 Hl1].
  destruct (covering_walk c u (internal_edges c) Hc Hu) as (l2 & Hl2 & Hall); [by intros p ?%elem_internal_edges|].
  assert (walk c u (w :: l1) u) as Hl by done.
  assert (forall x z, edge g x z -> x ∈ c -> z ∈ c -> adjacent (u :: (w :: l1) ++ l2) x z) as Hadj.
  { intros x z Hxz Hx Hz. apply (adjacent_walks c u (w :: l1) u); [done|]. right.
    apply (Hall (x, z)). by apply elem_internal_edges. }
  exists (l1 ++ l2). split; [by apply (walk_app c u (w :: l1) u)|]. split; [|done].
  intros x Hx. destruct (decide (x = u)) as [->|Hne]; [by left|].
  destruct (path_in_component c x u Hc Hx Hu) as [[|y l] Hxy]; [by cbn in Hxy|].
  destruct Hxy as (Hxy & Hy & _). destruct (Hadj x y Hxy Hx Hy) as (k1 & k2 & Heq).
  change (x ∈ u :: (w :: l1) ++ l2). rewrite Heq. apply elem_of_app. right. by left.
Qed.

Lemma walk_inside c x l y : x ∈ c -> walk c x l y -> forall z, z ∈ x :: l -> z ∈ c.
Proof.
  revert x. induction l as [|w l IH]; intros x Hx; cbn; [by intros _ z ->%list_elem_of_singleton|].
  intros (_ & Hw & Hwalk) z [->|Hz]%elem_of_cons; [done|]. by eapply IH.
Qed.

(** ** Fairness *)

(** The walk, repeated for ever, is fair: a weakly fair branch that is enabled all
    along is taken, and so is a strongly fair one that is enabled somewhere. *)
Definition fair_cycle (fairness : FairnessConfig) (l : list Str) : Prop :=
  (forall a, a ∈ weak fairness -> (forall k, k ∈ l -> a ∈ enabled_labels g k) ->
     exists x z, adjacent l x z /\ a ∈ labels g x z)
  /\ (forall a, a ∈ strong fairness -> (exists k, k ∈ l /\ a ∈ enabled_labels g k) ->
     exists x z, adjacent l x z /\ a ∈ labels g x z).

Lemma elem_internal_labels c a :
  a ∈ internal_edge_labels g c <-> exists x z, edge g x z /\ x ∈ c /\ z ∈ c /\ a ∈ labels g x z.
Proof.
  unfold internal_edge_labels, edge. rewrite elem_of_union_list. setoid_rewrite list_elem_of_fmap. split.
  - intros (X & (x & -> & Hx) & Ha). rewrite elem_of_elements in Hx. apply elem_of_union_list in Ha as (Y & HY & Ha).
    apply list_elem_of_fmap in HY as (z & -> & Hz). rewrite elem_of_elements in Hz. exists x, z. set_solver.
  - intros (x & z & He & Hx & Hz & Ha). eexists. split; [exists x; split; [done|by apply elem_of_elements]|].
    apply elem_of_union_list. exists (labels g x z). split; [|done]. apply list_elem_of_fmap. exists z. split; [done|].
    apply elem_of_elements. set_solver.
Qed.

Lemma fair_component c fairness u l :
  component_satisfies_fairness g c fairness = true ->
  (forall x, x ∈ c <-> x ∈ u :: l) -> (forall x z, edge g x z -> x ∈ c -> z ∈ c -> adjacent (u :: l) x z) ->
  fair_cycle fairness (u :: l).
Proof.
  intros Hfair Hin Hadj. assert (forall a, a ∈ internal_edge_labels g c -> exists x z, adjacent (u :: l) x z /\ a ∈ labels g x z) as Htaken.
  { intros a (x & z & He & Hx & Hz & Ha)%elem_internal_labels. exists x, z. auto. }
  unfold component_satisfies_fairness in Hfair. case_decide as Hnone.
  { destruct Hnone as [Hw Hs]. split; rewrite ?Hw, ?Hs; by intros a ?%not_elem_of_nil. }
  apply andb_true_iff in Hfair as [Hw Hs]. rewrite forallb_forall in Hw, Hs. split.
  - intros a Ha Hen. apply Htaken. apply list_elem_of_In, Hw in Ha. apply negb_true_iff, andb_false_iff in Ha as [Ha|Ha].
    + exfalso. apply not_true_iff_false in Ha. apply Ha. apply forallb_forall. intros k Hk%list_elem_of_In.
      rewrite elem_of_elements in Hk. apply bool_decide_eq_true. by apply Hen, Hin.
    + apply bool_decide_eq_false in Ha. by apply dec_stable.
  - intros a Ha (k & Hk & Hen). apply Htaken. apply list_elem_of_In, Hs in Ha.
    apply negb_true_iff, andb_false_iff in Ha as [Ha|Ha].
    + exfalso. apply not_true_iff_false in Ha. apply Ha. apply existsb_exists. exists k.
      split; [|by apply bool_decide_eq_true]. apply list_elem_of_In, elem_of_elements. by apply Hin.
    + apply bool_decide_eq_false in Ha. by apply dec_stable.
Qed.
Lemma elem_enabled_labels k a : a ∈ enabled_labels g k <-> exists z, edge g k z /\ a ∈ labels g k z.
Proof.
  unfold enabled_labels, edge. rewrite elem_of_union_list. split.
  - intros (X & (z & -> & Hz%elem_of_elements)%list_elem_of_fmap & Ha). by exists z.
  - intros (z & Hz & Ha). exists (labels g k z). split; [|done]. apply list_elem_of_fmap. exists z.
    by rewrite elem_of_elements.
Qed.

(** *** Round trips *)

(** A closed walk that visits all of a component. *)
Record round_trip (c : gset Str) (u : Str) (l : list Str) : Prop := {
  trip_component : strongly_connected g c;
  trip_moves : l <> [];
  trip_walk : walk c u l u;
  trip_all : forall x, x ∈ c -> x ∈ u :: l }.

Lemma walk_last_inside c x l y : l <> [] -> walk c x l y -> y ∈ c.
Proof.
  revert x. induction l as [|z l IH]; intros x Hne; [done|]. intros (_ & Hz & Hw).
  destruct l as [|z' l]; [by cbn in Hw; subst|by apply (IH z)].
Qed.

Lemma trip_inside c u l x : round_trip c u l -> x ∈ c <-> x ∈ u :: l.
Proof.
  intros [Hc Hne Hw Hall]. split; [apply Hall|].
  apply (walk_inside c u l u); [by eapply walk_last_inside|done].
Qed.

Lemma walk_adjacent c x l y a b : walk c x l y -> adjacent (x :: l) a b -> edge g a b.
Proof.
  revert x. induction l as [|z l IH]; intros x Hw (l1 & l2 & Heq).
  - destruct l1 as [|? [|? ?]]; done.
  - destruct Hw as (He & _ & Hw). destruct l1 as [|w l1]; [by injection Heq as -> -> _|].
    injection Heq as _ Heq. apply (IH z Hw). by exists l1, l2.
Qed.

Lemma adjacent_elem {A} (l : list A) a b : adjacent l a b -> a ∈ l /\ b ∈ l.
Proof. intros (l1 & l2 & ->). rewrite !elem_of_app, !elem_of_cons. tauto. Qed.

(** A component with a fair round trip passes the check. *)
Lemma fair_trip c u l fairness :
  round_trip c u l -> fair_cycle fairness (u :: l) -> component_satisfies_fairness g c fairness = true.
Proof.
  intros Ht [Hweak Hstrong].
  assert (forall a, (exists x z, adjacent (u :: l) x z /\ a ∈ labels g x z) -> bool_decide (a ∉ internal_edge_labels g c) = false) as Hint.
  { intros a (x & z & Hadj & Ha). apply bool_decide_eq_false. intros Hni. apply Hni, elem_internal_labels.
    pose proof (adjacent_elem _ _ _ Hadj) as [Hx Hz]. exists x, z. rewrite !(trip_inside c u l) by done.
    split; [|done]. eapply walk_adjacent; [apply Ht|done]. }
  unfold component_satisfies_fairness. case_decide; [done|]. apply andb_true_iff.
  split; apply forallb_forall; intros a Ha%list_elem_of_In; apply negb_true_iff, andb_false_iff.
  - destruct (forallb _ _) eqn:E; [right|by left]. apply Hint, Hweak; [done|]. intros k Hk.
    rewrite forallb_forall in E. apply (bool_decide_eq_true _), E, list_elem_of_In, elem_of_elements. by rewrite (trip_inside c u l).
  - destruct (existsb _ _) eqn:E; [right|by left]. apply Hint, Hstrong; [done|].
    apply existsb_exists in E as (k & Hk%list_elem_of_In & Hen%bool_decide_eq_true). exists k. split; [|done].
    rewrite elem_of_elements in Hk. by rewrite <- (trip_inside c u l).
Qed.
End walks.

(** ** The path to the cycle *)

(** The edges lead from [x] to [y]. *)
Fixpoint edges_lead (g : ExploredGraphIndex) (x : Str) (es : list GraphEdgeKey) (y : Str) : Prop :=
  match es with
  | [] => x = y
  | e :: es => from_key e = x /\ edge g x (to_key e) /\ edges_lead g (to_key e) es y
  end.

Definition initial_node (g : ExploredGraphIndex) (k : Str) : Prop := node_depth <$> nodes g !! k = Some 0.

Section prefix.
Context (g : ExploredGraphIndex) (Hg : forall x, out g x ⊆ dom (nodes g)).

Lemma elem_initial_keys k : k ∈ initial_keys g <-> initial_node g k.
Proof.
  unfold initial_keys, initial_node, sorted_keys. rewrite list_elem_of_filter, elem_sorted_elements. split; [by intros [? _]|].
  intros Hk. split; [done|]. apply elem_of_dom. destruct (nodes g !! k); [done|by cbn in Hk].
Qed.

(** What the search has recorded: each node visited is initial or has a parent that
    was visited before. *)
Record PrefixInv (visited : gset Str) (parents : gmap Str GraphEdgeKey) : Prop := {
  prefix_nodes : visited ⊆ dom (nodes g);
  prefix_initial : forall k, initial_node g k -> k ∈ visited;
  prefix_root : forall k, k ∈ visited -> parents !! k = None -> initial_node g k;
  prefix_parent : forall k e, parents !! k = Some e ->
    k ∈ visited /\ to_key e = k /\ from_key e ∈ visited /\ edge g (from_key e) k;
  prefix_chain : forall k, k ∈ visited -> exists d, chain from_key parents k d }.

Lemma prefix_step visited parents from to :
  PrefixInv visited parents -> from ∈ visited -> edge g from to -> to ∉ visited ->
  PrefixInv ({[to]} ∪ visited) (<[to := MkEdge from to]> parents).
Proof.
  intros [HN HI HR HP HC] Hf He Hto.
  assert (forall k, k ∈ visited -> exists d, chain from_key (<[to := MkEdge from to]> parents) k d) as HC'.
  { intros k Hk. destruct (HC k Hk) as [d Hd]. exists d. apply (chain_mono _ parents _ visited); [| |done|done].
    - intros x Hx. apply lookup_insert_ne. by intros <-.
    - intros x a _ Ha. by apply (HP x a). }
  split.
  - intros x [->%elem_of_singleton|Hx]%elem_of_union; [by apply (Hg from)|by apply HN].
  - intros k Hk. apply elem_of_union. right. by apply HI.
  - intros k. rewrite elem_of_union, elem_of_singleton, lookup_insert_None. intros [->|Hk] [Hn Hne]; [done|by apply HR].
  - intros k e. rewrite lookup_insert_Some. intros [[<- <-]|[Hne Hl]]; [cbn; set_solver|].
    destruct (HP k e Hl) as (? & ? & ? & ?). set_solver.
  - intros k [->%elem_of_singleton|Hk]%elem_of_union; [|by apply HC'].
    destruct (HC' from Hf) as [d Hd]. exists (S d). eapply chain_step; [apply lookup_insert_eq|done].
Qed.

Lemma enqueue_successors_spec from l visited queue parents :
  PrefixInv visited parents -> from ∈ visited -> (forall y, y ∈ l -> edge g from y) ->
  exists visited' new parents', enqueue_successors from l visited queue parents = (visited', queue ++ new, parents')
    /\ PrefixInv visited' parents' /\ visited ⊆ visited' /\ (forall y, y ∈ l -> y ∈ visited')
    /\ (forall y, y ∈ visited' -> y ∈ visited \/ y ∈ new) /\ (forall y, y ∈ new -> y ∈ visited')
    /\ size visited' = (size visited + length new)%nat.
Proof.
  revert visited queue parents. induction l as [|to l IH]; intros visited queue parents HI Hf Hl; cbn [enqueue_successors].
  - exists visited, [], parents. rewrite app_nil_r. split_and!; try done; try (by intros y ?%not_elem_of_nil); intros; try (by left).
  - case_decide as Hto.
    + destruct (IH visited queue parents) as (v' & new & p' & -> & H1 & H2 & H3 & H4 & H5 & H6); [done|done|intros y ?; apply Hl; by right|].
      exists v', new, p'. split_and!; try done. intros y [->|Hy]%elem_of_cons; [by apply H2|by apply H3].
    + destruct (IH ({[to]} ∪ visited) (queue ++ [to]) (<[to := MkEdge from to]> parents)) as (v' & new & p' & -> & H1 & H2 & H3 & H4 & H5 & H6).
      * apply prefix_step; [done|done|apply Hl; by left|done].
      * set_solver.
      * intros y Hy. apply Hl. by right.
      * exists v', (to :: new), p'. rewrite <- app_assoc. split_and!; try done.
        -- set_solver.
        -- intros y [->|Hy]%elem_of_cons; [apply H2; set_solver|by apply H3].
        -- intros y Hy. destruct (H4 y Hy); set_solver.
        -- intros y [->|Hy]%elem_of_cons; [apply H2; set_solver|by apply H5].
        -- rewrite H6, size_union, size_singleton by set_solver. cbn. lia.
Qed.

(** The search ends, and has visited the target if it can be reached. *)
Lemma prefix_search_spec fuel target visited queue parents :
  PrefixInv visited parents -> (forall y, y ∈ queue -> y ∈ visited) ->
  (forall x y, x ∈ visited -> x ∉ queue -> edge g x y -> y ∈ visited) ->
  (length queue + (size (nodes g) - size visited) < fuel)%nat ->
  exists parents' visited', prefix_search g fuel target visited queue parents = Some parents'
    /\ PrefixInv visited' parents' /\ ((exists k, initial_node g k /\ reach g k target) -> target ∈ visited').
Proof.
  revert visited queue parents. induction fuel as [|fuel IH]; intros visited queue parents HI Hq Hex Hfuel; [lia|].
  cbn. destruct queue as [|from queue].
  - exists parents, visited. split; [done|]. split; [done|]. intros (k & Hk & Hr).
    apply (reach_closed g (fun y => y ∈ visited) k target); [|done|by apply (prefix_initial _ _ HI)].
    intros a b Ha He. apply (Hex a b Ha); [by apply not_elem_of_nil|done].
  - case_decide as Heq.
    { exists parents, visited. split; [done|]. split; [done|]. intros _. subst. apply Hq. by left. }
    assert (from ∈ visited) as Hf by (apply Hq; by left).
    destruct (enqueue_successors_spec from (sorted_elements (out g from)) visited queue parents HI Hf) as
      (v' & new & p' & -> & H1 & H2 & H3 & H4 & H5 & H6); [by intros y ?%elem_sorted_elements|].
    apply IH; [done| | |].
    + intros y [Hy|Hy]%elem_of_app; [apply H2, Hq; by right|by apply H5].
    + intros x y Hx Hxq He. rewrite elem_of_app in Hxq. destruct (decide (x = from)) as [->|Hne].
      * apply H3. by apply elem_sorted_elements.
      * apply H2, (Hex x y); [|set_solver|done]. destruct (H4 x Hx); [done|]. exfalso. apply Hxq. by right.
    + assert (size v' <= size (nodes g))%nat as Hle.
      { rewrite <- (size_dom (nodes g)). apply subseteq_size, H1. }
      rewrite length_app. cbn in Hfuel. lia.
Qed.

Lemma edges_lead_app x es y es' z : edges_lead g x es y -> edges_lead g y es' z -> edges_lead g x (es ++ es') z.
Proof. revert x. induction es as [|e es IH]; cbn; [by intros x ->|]. naive_solver. Qed.

Lemma prefix_path_spec visited parents target d :
  PrefixInv visited parents -> target ∈ visited -> chain from_key parents target d -> forall fuel acc, (d < fuel)%nat ->
  exists k es, prefix_path fuel parents target acc = Some (es ++ acc) /\ initial_node g k /\ edges_lead g k es target.
Proof.
  intros HI Ht Hc. induction Hc as [k Hk|k e d Hk Hc IH]; intros fuel acc Hd; (destruct fuel as [|fuel]; [lia|]); cbn; rewrite Hk.
  - exists k, []. split; [done|]. split; [|done]. by apply (prefix_root _ _ HI).
  - destruct (prefix_parent _ _ HI k e Hk) as (_ & Hto & Hf & He).
    destruct (IH Hf fuel (e :: acc)) as (k0 & es & -> & Hk0 & Hl); [lia|].
    exists k0, (es ++ [e]). rewrite <- app_assoc. split; [done|]. split; [done|].
    eapply edges_lead_app; [done|]. cbn. by rewrite Hto.
Qed.

Lemma shortest_prefix_spec target :
  exists es, shortest_prefix_edges g target = Some es
    /\ ((exists k, initial_node g k /\ reach g k target) -> exists k, initial_node g k /\ edges_lead g k es target).
Proof.
  unfold shortest_prefix_edges. case_decide as Hi; [exists []; split; [done|]; intros _; by exists target|].
  assert (PrefixInv (list_to_set (initial_keys g)) ∅) as HI.
  { split.
    - intros k Hk. rewrite elem_of_list_to_set, elem_initial_keys in Hk. apply elem_of_dom. unfold initial_node in Hk. by destruct (nodes g !! k).
    - intros k Hk. by rewrite elem_of_list_to_set, elem_initial_keys.
    - intros k Hk _. by rewrite elem_of_list_to_set, elem_initial_keys in Hk.
    - intros k e. by rewrite lookup_empty.
    - intros k _. exists O. by apply chain_root. }
  destruct (prefix_search_spec (S (size (nodes g))) target (list_to_set (initial_keys g)) (initial_keys g) ∅ HI)
    as (parents & visited & -> & HI' & Hvis).
  - intros y. by rewrite elem_of_list_to_set.
  - intros x y Hx Hnx. exfalso. apply Hnx. by rewrite elem_of_list_to_set in Hx.
  - assert (NoDup (initial_keys g)) as Hnd.
    { apply NoDup_filter. unfold sorted_keys, sorted_elements, sort_strs. rewrite sort_by_perm. apply NoDup_elements. }
    rewrite size_list_to_set by done.
    assert (length (initial_keys g) <= size (nodes g))%nat; [|lia].
    rewrite <- (size_list_to_set (C := gset Str) (initial_keys g)), <- (size_dom (nodes g)) by done.
    apply subseteq_size, HI.
  - cbn. destruct (decide (target ∈ visited)) as [Ht|Hnt].
    + destruct (prefix_chain _ _ HI' target Ht) as [d Hd]. pose proof (chain_depth _ _ _ _ Hd).
      destruct (prefix_path_spec visited parents target d HI' Ht Hd (S (size parents)) []) as (k & es & Heq & Hk & Hl); [lia|].
      rewrite app_nil_r in Heq. exists es. split; [done|]. intros _. by exists k.
    + cbn. destruct (parents !! target) as [e|] eqn:Hp; [by destruct (prefix_parent _ _ HI' target e Hp)|].
      exists []. split; [done|]. intros Hr. exfalso. by apply Hnt, Hvis.
Qed.
End prefix.

(** ** The index *)

Section index.
Context (name : Symbol -> Str) (successor_fn : RuntimeValue -> TranspileResult (list TracedSuccessor)).
Notation key := (canonical_key name).

(** An edge that a successor of [f]'s state gives. *)
Definition gives (N : gmap Str GraphNodeMetadata) (l : list TracedSuccessor) (t a : Str) : Prop :=
  exists s, s ∈ l /\ key (successor_state s) = t /\ action_branch s = a /\ t ∈ dom N.

(** The edges of the nodes in [D] are there, and no others. *)
Record Indexing (N : gmap Str GraphNodeMetadata) (D : list Str) (g : ExploredGraphIndex) : Prop := {
  indexing_nodes : nodes g = N;
  indexing_dom : dom (successors g) = dom N;
  indexing_out : forall f t, t ∈ out g f <-> exists a, a ∈ labels g f t;
  indexing_only : forall f t a, a ∈ labels g f t -> f ∈ D;
  indexing_edges : forall f m, f ∈ D -> N !! f = Some m ->
    exists l, successor_fn (node_state m) = inr l /\ forall t a, a ∈ labels g f t <-> gives N l t a }.

Lemma add_edge_labels from g s f t a :
  from ∈ dom (successors g) -> (forall f t, t ∈ out g f <-> exists a, a ∈ labels g f t) ->
  let g' := add_edge name from g s in
  nodes g' = nodes g /\ dom (successors g') = dom (successors g)
  /\ (t ∈ out g' f <-> exists a, a ∈ labels g' f t)
  /\ (a ∈ labels g' f t <-> a ∈ labels g f t \/ f = from /\ gives (nodes g) [s] t a).
Proof.
  intros Hfrom Hout. unfold add_edge. set (to := key (successor_state s)).
  assert (gives (nodes g) [s] t a <-> t = to /\ a = action_branch s /\ t ∈ dom (nodes g)) as Hgives.
  { unfold gives. split; [intros (s' & ->%list_elem_of_singleton & <- & <- & ?); done|].
    intros (-> & -> & ?). exists s. split; [by left|done]. }
  destruct (nodes g !! to) as [m|] eqn:Hto; cbn.
  - assert (to ∈ dom (nodes g)) as Hin by by apply elem_of_dom_2 in Hto.
    set (g' := MkGraph _ _ _ _ _).
    assert (forall f t, labels g' f t
      = if decide (f = from /\ t = to) then {[action_branch s]} ∪ labels g f t else labels g f t) as Hlab.
    { intros f' t'. unfold labels, g'. cbn. case_decide as Heq.
      - destruct Heq as [-> ->]. by rewrite lookup_partial_alter_eq.
      - rewrite lookup_partial_alter_ne; [done|]. intros [= -> ->]. by apply Heq. }
    assert (forall f, out g' f = if decide (f = from) then {[to]} ∪ out g f else out g f) as Hout'.
    { intros f'. unfold out, g'. cbn. case_decide as Heq.
      - subst. rewrite lookup_alter_eq. apply elem_of_dom in Hfrom as [x Hx]. by rewrite Hx.
      - by rewrite lookup_alter_ne. }
    split; [done|]. split; [by rewrite dom_alter_L|]. split.
    + rewrite Hout'. setoid_rewrite Hlab. destruct (decide (f = from)) as [->|Hne].
      * destruct (decide (t = to)) as [->|Hnt].
        -- rewrite decide_True by done. split; [intros _; exists (action_branch s); set_solver|set_solver].
        -- rewrite decide_False by naive_solver. rewrite elem_of_union, elem_of_singleton, Hout. tauto.
      * rewrite decide_False by naive_solver. apply Hout.
    + rewrite Hlab, Hgives. case_decide as Heq; [|tauto]. destruct Heq as [-> ->]. rewrite elem_of_union, elem_of_singleton. tauto.
  - split; [done|]. split; [done|]. split; [apply Hout|]. rewrite Hgives.
    apply not_elem_of_dom in Hto. split; [by left|]. intros [?|(_ & -> & _ & ?)]; done.
Qed.

Lemma gives_cons N s l t a : gives N (s :: l) t a <-> gives N [s] t a \/ gives N l t a.
Proof.
  unfold gives. setoid_rewrite elem_of_cons. setoid_rewrite elem_of_nil. naive_solver.
Qed.

Lemma add_edge_fold from l g :
  from ∈ dom (successors g) -> (forall f t, t ∈ out g f <-> exists a, a ∈ labels g f t) ->
  let g' := foldl (add_edge name from) g l in
  nodes g' = nodes g /\ dom (successors g') = dom (successors g)
  /\ (forall f t, t ∈ out g' f <-> exists a, a ∈ labels g' f t)
  /\ (forall f t a, a ∈ labels g' f t <-> a ∈ labels g f t \/ f = from /\ gives (nodes g) l t a).
Proof.
  revert g. induction l as [|s l IH]; intros g Hfrom Hout; cbn [foldl].
  - split_and!; try done; [apply Hout..|]. intros f t a. unfold gives. setoid_rewrite elem_of_nil. naive_solver.
  - pose proof (fun f t a => add_edge_labels from g s f t a Hfrom Hout) as Hs. cbn zeta in Hs.
    destruct (Hs [] [] []) as (Hn & Hd & _). rewrite <- Hd in Hfrom.
    destruct (IH (add_edge name from g s) Hfrom) as (Hn' & Hd' & Ho' & Hl'); [intros f t; apply (Hs f t [])|].
    split; [congruence|]. split; [congruence|]. split; [done|]. intros f t a.
    rewrite Hl', Hn, gives_cons. destruct (Hs f t a) as (_ & _ & _ & ->). tauto.
Qed.

Lemma add_edges_spec N keys D g g' :
  NoDup (D ++ keys) -> (forall k, k ∈ keys -> k ∈ dom N) -> Indexing N D g ->
  add_edges name successor_fn keys g = inr g' -> Indexing N (D ++ keys) g'.
Proof.
  revert D g. induction keys as [|k keys IH]; intros D g Hnd Hk HI; cbn; [intros [= <-]; by rewrite app_nil_r|].
  pose proof HI as [Hn Hd Ho Hon He]. rewrite Hn. assert (k ∈ dom N) as Hkn by (apply Hk; by left).
  pose proof Hkn as [m Hm]%elem_of_dom. rewrite Hm. destruct (successor_fn (node_state m)) as [e|l] eqn:Hl; [done|].
  replace (D ++ k :: keys) with ((D ++ [k]) ++ keys) in Hnd |- * by by rewrite <- app_assoc.
  apply IH; [done|intros x Hx; apply Hk; by right|].
  destruct (add_edge_fold k l g) as (Hn' & Hd' & Ho' & Hl'); [by rewrite Hd|done|]. rewrite Hn in Hn', Hl'.
  assert (k ∉ D) as HkD.
  { apply NoDup_app in Hnd as ([_ [H _]]%NoDup_app & _). intros Hin. apply (H k Hin). by left. }
  split.
  - done.
  - congruence.
  - done.
  - intros f t a [Hf%Hon|[-> _]]%Hl'; apply elem_of_app; [by left|right; by left].
  - intros f m' [Hf| ->%list_elem_of_singleton]%elem_of_app Hm'.
    + destruct (He f m' Hf Hm') as (l' & Hl'' & Hiff). exists l'. split; [done|]. intros t a. rewrite Hl', Hiff.
      split; [intros [?|[-> _]]; done|by left].
    + simplify_eq. exists l. split; [done|]. intros t a. rewrite Hl'. split; [|by right].
      intros [Hf%Hon|[_ ?]]; done.
Qed.

(** The statistic counts the transitions that leave the explored states. *)
Lemma add_edge_unexplored from g s :
  nodes (add_edge name from g s) = nodes g
  /\ edges_to_unexplored (graph_stats (add_edge name from g s))
     = edges_to_unexplored (graph_stats g) + (if decide (key (successor_state s) ∈ dom (nodes g)) then 0 else 1).
Proof.
  unfold add_edge. destruct (nodes g !! key (successor_state s)) as [m|] eqn:Hm; cbn; (split; [done|]).
  - rewrite decide_True by (by apply elem_of_dom_2 in Hm). lia.
  - rewrite decide_False by (by apply not_elem_of_dom). done.
Qed.

Lemma add_edge_fold_unexplored from l g :
  let g' := foldl (add_edge name from) g l in
  nodes g' = nodes g /\ edges_to_unexplored (graph_stats g) <= edges_to_unexplored (graph_stats g')
  /\ (edges_to_unexplored (graph_stats g') = edges_to_unexplored (graph_stats g)
      <-> forall s, s ∈ l -> key (successor_state s) ∈ dom (nodes g)).
Proof.
  revert g. induction l as [|s l IH]; intros g; cbn [foldl].
  { cbn. split_and!; [done|lia|]. split; [|done]. by intros _ s ?%not_elem_of_nil. }
  destruct (add_edge_unexplored from g s) as [Hn Hu], (IH (add_edge name from g s)) as (Hn' & Hle & Hiff).
  cbn zeta in *. rewrite Hn in Hn', Hiff. split; [done|]. setoid_rewrite elem_of_cons. case_decide as Hs.
  - rewrite Z.add_0_r in Hu. rewrite Hu in Hle, Hiff. split; [done|]. rewrite Hiff. naive_solver.
  - split; [lia|]. split; [lia|]. intros Hall. destruct Hs. apply Hall. by left.
Qed.

Lemma add_edges_unexplored keys g g' :
  add_edges name successor_fn keys g = inr g' ->
  edges_to_unexplored (graph_stats g) <= edges_to_unexplored (graph_stats g')
  /\ (edges_to_unexplored (graph_stats g') = edges_to_unexplored (graph_stats g)
      <-> forall k m l s, k ∈ keys -> nodes g !! k = Some m -> successor_fn (node_state m) = inr l -> s ∈ l ->
          key (successor_state s) ∈ dom (nodes g)).
Proof.
  revert g. induction keys as [|k keys IH]; intros g; cbn [add_edges].
  { intros [= <-]. split; [done|]. split; [|done]. by intros _ k m l s ?%not_elem_of_nil. }
  setoid_rewrite elem_of_cons. destruct (nodes g !! k) as [m|] eqn:Hm.
  - destruct (successor_fn (node_state m)) as [e|l] eqn:Hl; [done|]. intros H%IH. clear IH.
    destruct (add_edge_fold_unexplored k l g) as (Hn & Hle & Hiff). cbn zeta in *. rewrite Hn in H.
    destruct H as [Hle' Hiff']. split; [lia|]. split.
    + intros Heq. assert (forall s, s ∈ l -> key (successor_state s) ∈ dom (nodes g)) as H1 by (apply Hiff; lia).
      assert (edges_to_unexplored (graph_stats g') = edges_to_unexplored (graph_stats (foldl (add_edge name k) g l))) as H2 by lia.
      rewrite Hiff' in H2. intros k' m' l' s [->|Hk'] Hm' Hl' Hs; [apply H1; congruence|by eapply H2].
    + intros Hall. etrans; [apply Hiff'|apply Hiff]; [|by intros s ?; eapply Hall; first [by left|done]].
      intros k' m' l' s Hk'. apply Hall. by right.
  - intros [Hle Hiff]%IH. split; [done|]. rewrite Hiff. split; [|naive_solver].
    intros Hall k' m' l' s [->|Hk'] Hm'; [congruence|by eapply Hall].
Qed.

Lemma add_node_spec explored N k m :
  foldl (add_node name) ∅ explored = N -> N !! k = Some m ->
  (exists e, e ∈ explored /\ k = key (explored_state e) /\ m = MkNodeMetadata (explored_state e) (explored_depth e))
  /\ forall e, e ∈ explored -> key (explored_state e) = k -> node_depth m <= explored_depth e.
Proof.
  intros <-. revert m. induction explored as [|e l IH] using rev_ind; [by intros m; cbn; rewrite lookup_empty|].
  rewrite foldl_snoc. intros m. unfold add_node at 1. set (N := foldl (add_node name) ∅ l) in *.
  assert (forall e', e' ∈ l -> key (explored_state e') = k -> exists m', N !! k = Some m') as Hex.
  { clear. unfold N. clear N. induction l as [|e l IH] using rev_ind; [by intros e' ?%not_elem_of_nil|].
    intros e' He' Hk. rewrite foldl_snoc. unfold add_node at 1.
    apply elem_of_app in He' as [He'| ->%list_elem_of_singleton].
    - destruct (IH e' He' Hk) as [m' Hm']. destruct (decide (key (explored_state e) = k)) as [<-|Hne].
      + rewrite Hm'. case_decide; [rewrite lookup_insert_eq; eauto|eauto].
      + destruct (foldl (add_node name) ∅ l !! key (explored_state e)); [case_decide|]; rewrite ?lookup_insert_ne by done; eauto.
    - rewrite Hk. destruct (foldl (add_node name) ∅ l !! k) eqn:Hl; [case_decide|]; rewrite ?lookup_insert_eq; eauto. }
  destruct (decide (key (explored_state e) = k)) as [Hk|Hne].
  - rewrite Hk. destruct (N !! k) as [m0|] eqn:Hm0.
    + destruct (IH m0 eq_refl) as [(e0 & He0 & Hk0 & Hm) Hmin]. case_decide as Hlt.
      * rewrite lookup_insert_eq. intros [= <-]. split; [exists e; split; [apply elem_of_app; right; by left|done]|].
        intros e' [He'| ->%list_elem_of_singleton]%elem_of_app Hk'; [|done]. cbn. pose proof (Hmin e' He' Hk'). lia.
      * rewrite Hm0. intros [= <-]. split; [exists e0; split; [apply elem_of_app; by left|done]|].
        intros e' [He'| ->%list_elem_of_singleton]%elem_of_app Hk'; [by apply Hmin|lia].
    + rewrite lookup_insert_eq. intros [= <-]. split; [exists e; split; [apply elem_of_app; right; by left|done]|].
      intros e' [He'| ->%list_elem_of_singleton]%elem_of_app Hk'; [|done].
      destruct (Hex e' He' Hk') as [m' Hm']. congruence.
  - assert ((match N !! key (explored_state e) with
      | Some existing => if decide (explored_depth e < node_depth existing)
          then <[key (explored_state e) := MkNodeMetadata (explored_state e) (explored_depth e)]> N else N
      | None => <[key (explored_state e) := MkNodeMetadata (explored_state e) (explored_depth e)]> N end) !! k = N !! k) as ->.
    { destruct (N !! key (explored_state e)); [case_decide|]; rewrite ?lookup_insert_ne by done; done. }
    intros Hm. destruct (IH m Hm) as [(e0 & He0 & Hk0 & Hm0) Hmin]. split; [exists e0; split; [apply elem_of_app; by left|done]|].
    intros e' [He'| ->%list_elem_of_singleton]%elem_of_app Hk'; [by apply Hmin|done].
Qed.

Lemma add_node_dom explored k :
  k ∈ dom (foldl (add_node name) ∅ explored) <-> exists e, e ∈ explored /\ key (explored_state e) = k.
Proof.
  split.
  - intros [m Hm]%elem_of_dom. destruct (add_node_spec explored _ k m eq_refl Hm) as [(e & He & -> & _) _]. by exists e.
  - intros (e & He & Hk). induction explored as [|e' l IH] using rev_ind; [by apply not_elem_of_nil in He|].
    rewrite foldl_snoc. unfold add_node at 1. apply elem_of_app in He as [He|He].
    + specialize (IH He). destruct (foldl (add_node name) ∅ l !! _); [case_decide|]; rewrite ?dom_insert_L; set_solver.
    + apply list_elem_of_singleton in He as ->. rewrite Hk.
      destruct (foldl (add_node name) ∅ l !! k) eqn:Hl; [case_decide|]; rewrite ?dom_insert_L; [set_solver| |set_solver].
      by apply elem_of_dom_2 in Hl.
Qed.

(** The index has a node for each explored state, the shallowest of those with its
    key, and exactly the transitions between nodes. *)
Lemma build_index_spec explored g :
  build_explored_graph_index name successor_fn explored = inr g ->
  (forall k, k ∈ dom (nodes g) <-> exists e, e ∈ explored /\ key (explored_state e) = k)
  /\ (forall k m, nodes g !! k = Some m ->
       (exists e, e ∈ explored /\ k = key (explored_state e) /\ m = MkNodeMetadata (explored_state e) (explored_depth e))
       /\ (forall e, e ∈ explored -> key (explored_state e) = k -> node_depth m <= explored_depth e)
       /\ exists l, successor_fn (node_state m) = inr l /\ forall t a, a ∈ labels g k t <-> gives (nodes g) l t a)
  /\ (forall f t, t ∈ out g f <-> exists a, a ∈ labels g f t) /\ (forall f t a, a ∈ labels g f t -> f ∈ dom (nodes g)).
Proof.
  unfold build_explored_graph_index. set (N := foldl (add_node name) ∅ explored).
  set (g0 := MkGraph _ _ _ _ _). intros Hb.
  assert (forall f t, labels g0 f t = ∅) as Hlab by (intros f t; unfold labels; cbn; by rewrite lookup_empty).
  assert (Indexing N [] g0) as HI0.
  { split; [done|by cbn; rewrite dom_fmap_L| | |].
    - intros f t. setoid_rewrite Hlab. unfold out. cbn. rewrite lookup_fmap. destruct (N !! f); set_solver.
    - intros f t a. rewrite Hlab. set_solver.
    - by intros f m ?%not_elem_of_nil. }
  apply (add_edges_spec N _ []) in Hb as [Hn Hd Ho Hon He]; [| |by intros k ?%elem_sorted_elements|done].
  - cbn in Hon, He. rewrite Hn. split; [apply add_node_dom|]. split; [|split; [done|]].
    + intros k m Hm. destruct (add_node_spec explored N k m eq_refl Hm) as [H1 H2]. split; [done|]. split; [done|].
      apply He; [|done]. apply elem_sorted_elements. by apply elem_of_dom_2 in Hm.
    + intros f t a Ha. by apply Hon, elem_sorted_elements in Ha.
  - cbn. unfold sorted_keys, sorted_elements, sort_strs. rewrite sort_by_perm. apply NoDup_elements.
Qed.
Lemma build_index_nodes explored g :
  build_explored_graph_index name successor_fn explored = inr g -> nodes g = foldl (add_node name) ∅ explored.
Proof.
  unfold build_explored_graph_index. set (g0 := MkGraph _ _ _ _ _). intros Hb.
  change (foldl (add_node name) ∅ explored) with (nodes g0). clearbody g0. revert g0 Hb.
  generalize (sorted_keys (foldl (add_node name) ∅ explored)) as keys. induction keys as [|k keys IH]; intros g0; cbn [add_edges].
  { by intros [= ->]. }
  destruct (nodes g0 !! k) as [m|]; [|apply IH]. destruct (successor_fn (node_state m)) as [e|l]; [done|].
  intros Hg%IH. by rewrite Hg, (proj1 (add_edge_fold_unexplored k l g0)).
Qed.

(** No transition leaves the explored states exactly when the statistic is zero. *)
Lemma build_index_unexplored explored g :
  build_explored_graph_index name successor_fn explored = inr g ->
  edges_to_unexplored (graph_stats g) = 0
  <-> forall k m l s, nodes g !! k = Some m -> successor_fn (node_state m) = inr l -> s ∈ l ->
      key (successor_state s) ∈ dom (nodes g).
Proof.
  intros Hb. pose proof Hb as Hd. apply build_index_nodes in Hd. unfold build_explored_graph_index in Hb.
  apply add_edges_unexplored in Hb as [_ Hiff]. cbn in Hiff. rewrite Hiff, Hd. split.
  - intros Hall k m l s Hm. apply (Hall k m l s); [|done]. apply elem_sorted_elements. by apply elem_of_dom_2 in Hm.
  - intros Hall k m l s _. apply Hall.
Qed.
End index.

(** ** What is reported *)

Record graph_ok (g : ExploredGraphIndex) : Prop := {
  graph_closed : forall x, out g x ⊆ dom (nodes g);
  graph_labels : forall x z, z ∈ out g x <-> exists a, a ∈ labels g x z }.

(** The steps are edges of the graph, from node to node. *)
Fixpoint graph_trace (g : ExploredGraphIndex) (x : Str) (steps : list CounterexampleStep) (y : Str) : Prop :=
  match steps with
  | [] => x = y
  | step :: steps => exists z m, edge g x z /\ nodes g !! z = Some m /\ step_state step = node_state m
      /\ step_branch step ∈ labels g x z /\ graph_trace g z steps y
  end.

Section check.
Context (name : Symbol -> Str) (g : ExploredGraphIndex) (Hg : graph_ok g).

(** A predicate's value at a node. *)
Definition node_satisfies (f : RuntimeValue -> TranspileResult bool) (b : bool) (k : Str) : Prop :=
  exists m, nodes g !! k = Some m /\ f (node_state m) = inr b.

Lemma edges_to_steps x es y :
  x ∈ dom (nodes g) -> edges_lead g x es y ->
  exists steps, edges_to_trace_steps name g es = inr steps /\ graph_trace g x steps y.
Proof.
  revert x. induction es as [|[f t] es IH]; intros x Hx; cbn; [by intros ->; exists []|].
  intros (-> & He & Hl). unfold edge_to_trace_step. cbn. apply elem_of_dom in Hx as [mx Hmx]. rewrite Hmx.
  assert (t ∈ dom (nodes g)) as Ht by by apply (graph_closed _ Hg x).
  pose proof Ht as [mt Hmt]%elem_of_dom. rewrite Hmt. destruct (IH t Ht Hl) as (steps & -> & Htr).
  eexists. split; [done|]. exists t, mt. split_and!; [done|done|done| |done]. cbn.
  apply (graph_labels _ Hg) in He as [a Ha]. destruct (sorted_elements (labels g x t)) as [|b l] eqn:Hs.
  - apply elem_sorted_elements in Ha. rewrite Hs in Ha. by apply not_elem_of_nil in Ha.
  - cbn. apply elem_sorted_elements. rewrite Hs. by left.
Qed.

Lemma eval_predicates_spec ob keys F0 T0 F T :
  eval_predicates g ob keys F0 T0 = inr (F, T) ->
  (forall k, k ∈ F <-> k ∈ F0 \/ k ∈ keys /\ node_satisfies (from_fn ob) true k)
  /\ (forall k, k ∈ T <-> k ∈ T0 \/ k ∈ keys /\ node_satisfies (to_fn ob) true k)
  /\ (forall k, k ∈ keys -> k ∈ dom (nodes g) -> exists b, node_satisfies (to_fn ob) b k).
Proof.
  revert F0 T0. induction keys as [|k keys IH]; intros F0 T0; cbn.
  - intros [= <- <-]. setoid_rewrite elem_of_nil. naive_solver.
  - destruct (nodes g !! k) as [m|] eqn:Hm.
    + destruct (from_fn ob (node_state m)) as [e|f] eqn:Hf; [done|].
      destruct (to_fn ob (node_state m)) as [e|t] eqn:Ht; [done|].
      intros (H1 & H2 & H3)%IH.
      assert (forall fn b b', fn (node_state m) = inr b -> node_satisfies fn b' k <-> b = b') as Hsat.
      { intros fn b b' Hfn. unfold node_satisfies. rewrite Hm. split; [intros (? & ? & ?); congruence|intros <-; eauto]. }
      split; [|split].
      * intros x. rewrite H1, elem_of_cons. pose proof (Hsat _ _ true Hf) as Hs.
        destruct f; rewrite ?elem_of_union, ?elem_of_singleton; destruct (decide (x = k)) as [->|Hne]; rewrite ?Hs; naive_solver.
      * intros x. rewrite H2, elem_of_cons. pose proof (Hsat _ _ true Ht) as Hs.
        destruct t; rewrite ?elem_of_union, ?elem_of_singleton; destruct (decide (x = k)) as [->|Hne]; rewrite ?Hs; naive_solver.
      * intros x [->|Hx]%elem_of_cons Hd; [|by apply H3]. exists t. by eapply Hsat.
    + intros (H1 & H2 & H3)%IH. assert (forall fn b, ~ node_satisfies fn b k) as Hno.
      { intros fn b (m & ? & _). congruence. }
      split; [|split].
      * intros x. rewrite H1, elem_of_cons. split; [naive_solver|]. intros [?|[[->|?] Hs]]; [by left|by destruct (Hno _ _ Hs)|by right].
      * intros x. rewrite H2, elem_of_cons. split; [naive_solver|]. intros [?|[[->|?] Hs]]; [by left|by destruct (Hno _ _ Hs)|by right].
      * intros x [->|Hx]%elem_of_cons Hd; [|by apply H3]. apply elem_of_dom in Hd as [? ?]. congruence.
Qed.

Lemma first_internal_edge_spec c pref :
  match first_internal_edge g c pref with
  | Some e => from_key e ∈ c /\ pref (from_key e) = true /\ to_key e ∈ c /\ edge g (from_key e) (to_key e)
  | None => forall x z, x ∈ c -> pref x = true -> z ∈ c -> ~ edge g x z
  end.
Proof.
  unfold first_internal_edge.
  set (l := (from ← filter (fun k => pref k = true) (sorted_elements c);
        to ← filter (fun k => k ∈ c) (sorted_elements (out g from)); [MkEdge from to])).
  assert (forall x z, MkEdge x z ∈ l <-> x ∈ c /\ pref x = true /\ z ∈ c /\ edge g x z) as Hl.
  { intros x z. unfold l, edge. rewrite list_elem_of_bind. split.
    - intros (y & Hp & Hy). apply list_elem_of_bind in Hp as (w & Hp & Hw). apply list_elem_of_singleton in Hp as [= -> ->].
      rewrite !list_elem_of_filter, !elem_sorted_elements in Hy, Hw. tauto.
    - intros (Hx & Hp & Hz & He). exists x. rewrite list_elem_of_filter, elem_sorted_elements. split; [|done].
      apply list_elem_of_bind. exists z. rewrite list_elem_of_filter, elem_sorted_elements. split; [by left|done]. }
  destruct l as [|[x z] l']; cbn.
  - intros x z Hx Hp Hz He. apply (not_elem_of_nil (MkEdge x z)). by apply Hl.
  - destruct (proj1 (Hl x z)) as (? & ? & ? & ?); [by left|done].
Qed.

Lemma representative_internal c e :
  representative_cycle_edge g c = Some e -> from_key e ∈ c /\ to_key e ∈ c /\ edge g (from_key e) (to_key e).
Proof.
  unfold representative_cycle_edge. pose proof (elem_sorted_elements) as Hel.
  destruct (sorted_elements c) as [|x [|y l]] eqn:Hs; [done| |].
  - case_decide as Hx; [|done]. intros [= <-]. assert (x ∈ c) as Hxc by (apply elem_sorted_elements; rewrite Hs; by left). done.
  - intros He. pose proof (first_internal_edge_spec c (fun _ => true)) as H. rewrite He in H. tauto.
Qed.

(** Every node of a cyclic component has an edge inside. *)
Lemma cyclic_edge c e x :
  strongly_connected g c -> representative_cycle_edge g c = Some e -> x ∈ c -> exists z, z ∈ c /\ edge g x z.
Proof.
  intros Hc (Hf & Ht & He)%representative_internal Hx.
  destruct (path_in_component g c x (from_key e) Hc Hx Hf) as [[|z l] Hw].
  - cbn in Hw. subst. by exists (to_key e).
  - destruct Hw as (? & ? & _). by exists z.
Qed.

(** A violation that is reported, as the explored graph shows it. *)
Definition genuine (obligations : list ResolvedLeadsToObligation) (fairness : FairnessConfig) (v : LeadsToViolation) : Prop :=
  exists ob k0 m0 l, ob ∈ obligations /\ violated_obligation v = obligation_name ob
    /\ (let u := from_key (violating_edge v) in let w := to_key (violating_edge v) in
        (nodes g !! k0 = Some m0 /\ node_depth m0 = 0 /\ trace_initial (leads_to_counterexample v) = node_state m0
           /\ graph_trace g k0 (trace_steps (leads_to_counterexample v)) w)
        /\ walk g (violating_component v) u (w :: l) u /\ node_satisfies (from_fn ob) true u
        /\ (forall k, k ∈ u :: w :: l -> node_satisfies (to_fn ob) false k)
        /\ fair_cycle g fairness (u :: w :: l)).

Context (Hreach : forall k, k ∈ dom (nodes g) -> exists k0, initial_node g k0 /\ reach g k0 k).

Lemma report_spec obligations fairness ob F T c e :
  ob ∈ obligations -> eval_predicates g ob (sorted_keys (nodes g)) ∅ ∅ = inr (F, T) ->
  strongly_connected g (members c) -> representative c = representative_cycle_edge g (members c) ->
  representative c = Some e -> (forall x, x ∈ members c -> x ∈ dom (nodes g)) -> violates g fairness F T c = true ->
  exists v, report name g ob F c = Some (inr (Some v)) /\ genuine obligations fairness v.
Proof.
  intros Hob Hev Hc Hrep He Hmem Hviol. rewrite Hrep in He.
  apply eval_predicates_spec in Hev as (HF & HT & Hto).
  unfold violates in Hviol. rewrite !andb_true_iff, !bool_decide_eq_true in Hviol. destruct Hviol as [[Hfair HcF] HcT].
  apply set_choose_L in HcF as [x [Hx HxF]%elem_of_intersection].
  unfold report. pose proof (first_internal_edge_spec (members c) (fun k => bool_decide (k ∈ F))) as Hch.
  change (first_internal_edge g (members c) (fun k => bool_decide (k ∈ F)))
    with (choose_component_cycle_edge g (members c) F) in Hch.
  destruct (choose_component_cycle_edge g (members c) F) as [[u w]|].
  2: { destruct (cyclic_edge (members c) e x Hc He Hx) as (z & Hz & Hxz). destruct (Hch x z Hx); [by apply bool_decide_eq_true|done|done]. }
  cbn in Hch. destruct Hch as (Hu & HuF%bool_decide_eq_true & Hw & Huw). cbn [from_key].
  destruct (shortest_prefix_spec g (graph_closed _ Hg) u) as (es & Hes & Hpre).
  destruct Hpre as (k0 & Hk0 & Hlead); [by apply Hreach, Hmem|].
  pose proof Hk0 as Hk0'. unfold initial_node in Hk0'. destruct (nodes g !! k0) as [m0|] eqn:Hm0; [|done]. injection Hk0' as Hd0.
  unfold build_leads_to_counterexample. rewrite Hes. cbn [mbind option_bind].
  assert (match es with e0 :: _ => from_key e0 | [] => u end = k0) as ->.
  { destruct es as [|e0 es]; [by cbn in Hlead|]. by destruct Hlead. }
  rewrite Hm0. destruct (edges_to_steps k0 (es ++ [MkEdge u w]) w) as (steps & -> & Htr).
  { by apply elem_of_dom_2 in Hm0. }
  { eapply edges_lead_app; [done|]. by split. }
  eexists. split; [done|]. destruct (lasso_walk g (members c) u w Hc Hu Hw Huw) as (l & Hl & Hall & Hadj).
  pose proof (walk_inside g (members c) u (w :: l) u Hu Hl) as Hin.
  assert (forall k, k ∈ members c -> k ∈ sorted_keys (nodes g)) as Hkeys.
  { intros k Hk. apply elem_sorted_elements. by apply Hmem. }
  exists ob, k0, m0, l. split; [done|]. split; [done|]. cbn. split; [done|]. split; [done|]. split; [|split].
  - apply HF in HuF. set_solver.
  - intros k Hk%Hin. destruct (Hto k (Hkeys k Hk) (Hmem k Hk)) as [[|] Hb]; [|done]. exfalso.
    assert (k ∈ T) as HkT by (apply HT; right; auto). set_solver.
  - apply (fair_component g (members c)); [done| |done]. intros k. split; [apply Hall|apply Hin].
Qed.

(** The check ends, and what it reports is so in the explored graph. *)
Lemma check_spec obligations fairness :
  exists r, check_leads_to_violations name g obligations fairness = Some r
    /\ forall v, r = inr (Some v) -> genuine obligations fairness v.
Proof.
  unfold check_leads_to_violations, detect_cyclic_sccs_with_witness.
  destruct (detect_sccs_spec g (graph_closed _ Hg)) as (cs & -> & Hcover & Hcs). cbn [mbind option_bind].
  assert (forall c x, c ∈ cs -> x ∈ members c -> is_cyclic c = true -> x ∈ dom (nodes g)) as Hmem.
  { intros c x Hc Hx Hcy. destruct (Hcs c Hc) as [Hscc Hrep]. unfold is_cyclic in Hcy.
    apply bool_decide_eq_true in Hcy as [e He]. rewrite Hrep in He. pose proof (representative_internal _ _ He) as (Hf & Ht & Hed).
    destruct (path_in_component g (members c) (to_key e) x Hscc Ht Hx) as [l Hl].
    pose proof (walk_end _ _ _ _ _ Hl) as Hend.
    destruct l as [|z l]; cbn in Hl; [subst; by apply (graph_closed _ Hg (from_key e))|].
    destruct Hscc as [_ Hscc]. destruct (proj1 (Hscc (to_key e) Ht x) Hx) as [Hr _].
    apply (reach_closed g (fun k => k ∈ dom (nodes g)) (to_key e) x); [|done|by apply (graph_closed _ Hg (from_key e))].
    intros a b _ Hab. by apply (graph_closed _ Hg a). }
  set (cyclic := filter (fun c => is_cyclic c = true) cs).
  assert (forall obs, (forall ob, ob ∈ obs -> ob ∈ obligations) ->
    exists r, check_obligations name g cyclic fairness obs = Some r
    /\ forall v, r = inr (Some v) -> genuine obligations fairness v) as H; [|by apply H].
  induction obs as [|ob obs IH]; intros Hobs; cbn [check_obligations].
  { exists (inr None). split; [done|]. by intros v [=]. }
  destruct (eval_predicates g ob (sorted_keys (nodes g)) ∅ ∅) as [e|[F T]] eqn:Hev.
  { exists (inl e). split; [done|]. by intros v [=]. }
  destruct (filter (fun c => violates g fairness F T c = true) cyclic) as [|c l] eqn:Hfil.
  { apply IH. intros ob' ?. apply Hobs. by right. }
  assert (c ∈ filter (fun c => violates g fairness F T c = true) cyclic) as Hin by (rewrite Hfil; by left).
  apply list_elem_of_filter in Hin as [Hviol Hin]. apply list_elem_of_filter in Hin as [Hcy Hin].
  destruct (Hcs c Hin) as [Hscc Hrep]. pose proof Hcy as Hcy'. unfold is_cyclic in Hcy'. apply bool_decide_eq_true in Hcy' as [e He].
  destruct (report_spec obligations fairness ob F T c e) as (v & -> & Hv); [apply Hobs; by left|done|done|done|done| |done|].
  { intros x Hx. by eapply Hmem. }
  eexists. split; [done|]. by intros v' [= <-].
Qed.

(** *** What the check decides *)

Lemma eval_predicates_total ob keys F T :
  (forall k m, nodes g !! k = Some m ->
     exists f t, from_fn ob (node_state m) = inr f /\ to_fn ob (node_state m) = inr t) ->
  exists r, eval_predicates g ob keys F T = inr r.
Proof.
  intros Hob. revert F T. induction keys as [|k keys IH]; intros F T; cbn; [by eexists|].
  destruct (nodes g !! k) as [m|] eqn:Hm; [|apply IH]. destruct (Hob k m Hm) as (f & t & -> & ->). apply IH.
Qed.

Lemma representative_exists c x z : x ∈ c -> z ∈ c -> edge g x z -> is_Some (representative_cycle_edge g c).
Proof.
  intros Hx Hz He. unfold representative_cycle_edge.
  destruct (sorted_elements c) as [|y [|y' l]] eqn:Hs.
  - apply elem_sorted_elements in Hx. rewrite Hs in Hx. by apply not_elem_of_nil in Hx.
  - apply elem_sorted_elements in Hx, Hz. rewrite Hs in Hx, Hz. apply list_elem_of_singleton in Hx as ->, Hz as ->.
    rewrite decide_True by done. by eexists.
  - pose proof (first_internal_edge_spec c (fun _ => true)) as H. destruct (first_internal_edge g c _); [by eexists|].
    by destruct (H x z Hx eq_refl Hz).
Qed.

Lemma check_obligations_none cyclic fairness obs :
  (forall ob k m, ob ∈ obs -> nodes g !! k = Some m ->
     exists f t, from_fn ob (node_state m) = inr f /\ to_fn ob (node_state m) = inr t) ->
  (forall c, c ∈ cyclic -> strongly_connected g (members c) /\ representative c = representative_cycle_edge g (members c)
     /\ is_Some (representative c) /\ forall x, x ∈ members c -> x ∈ dom (nodes g)) ->
  check_obligations name g cyclic fairness obs = Some (inr None)
  <-> forall ob F T c, ob ∈ obs -> eval_predicates g ob (sorted_keys (nodes g)) ∅ ∅ = inr (F, T) -> c ∈ cyclic ->
      violates g fairness F T c = false.
Proof.
  intros Htot Hcyc. induction obs as [|ob obs IH]; cbn [check_obligations].
  { split; [|done]. by intros _ ob F T c ?%not_elem_of_nil. }
  destruct (eval_predicates_total ob (sorted_keys (nodes g)) ∅ ∅) as [[F T] Hev]; [intros k m; apply Htot; by left|].
  rewrite Hev. destruct (filter (fun c => violates g fairness F T c = true) cyclic) as [|c l] eqn:Hfil.
  - rewrite IH by (intros ob' k m ?; apply Htot; by right). split.
    + intros Hall ob' F' T' c [->|Hob]%elem_of_cons Hev' Hc; [|by eapply Hall].
      rewrite Hev in Hev'. injection Hev' as <- <-.
      apply not_true_iff_false. intros Hv. apply (not_elem_of_nil c). rewrite <- Hfil. apply list_elem_of_filter. split; [exact Hv|exact Hc].
    + intros Hall ob' F' T' c Hob. apply Hall. by right.
  - assert (c ∈ filter (fun c => violates g fairness F T c = true) cyclic) as [Hv Hc]%list_elem_of_filter by (rewrite Hfil; by left).
    destruct (Hcyc c Hc) as (Hs & Hrep & [e He] & Hm).
    destruct (report_spec [ob] fairness ob F T c e) as (v & -> & _); [by left|done..|]. split; [done|].
    intros Hall. by rewrite (Hall ob F T c ltac:(by left) Hev Hc) in Hv.
Qed.

(** A component with an edge inside holds nodes. *)
Lemma component_nodes c x a b :
  strongly_connected g c -> a ∈ c -> b ∈ c -> edge g a b -> x ∈ c -> x ∈ dom (nodes g).
Proof.
  intros [_ Hs] Ha Hb Hab Hx. destruct (proj1 (Hs b Hb x) Hx) as [Hr _].
  apply (reach_closed g (fun k => k ∈ dom (nodes g)) b x); [|done|by apply (graph_closed _ Hg a)].
  intros y z _ Hyz. by apply (graph_closed _ Hg y).
Qed.

Lemma eval_predicates_sets ob F T :
  eval_predicates g ob (sorted_keys (nodes g)) ∅ ∅ = inr (F, T) ->
  (forall k, k ∈ F <-> node_satisfies (from_fn ob) true k) /\ (forall k, k ∈ T <-> node_satisfies (to_fn ob) true k).
Proof.
  intros (HF & HT & _)%eval_predicates_spec.
  assert (forall fn k, node_satisfies fn true k -> k ∈ sorted_keys (nodes g)) as Hk.
  { intros fn k (m & Hm & _). apply elem_sorted_elements. by apply elem_of_dom_2 in Hm. }
  split; intros k; [rewrite HF|rewrite HT]; (split; [by intros [[]%not_elem_of_empty|[_ ?]]|intros; right; eauto]).
Qed.

(** Nothing is reported exactly when every fair round trip through a component that
    visits a [from] state visits a [to] state. *)
Lemma check_decides obligations fairness :
  (forall ob k m, ob ∈ obligations -> nodes g !! k = Some m ->
     exists f t, from_fn ob (node_state m) = inr f /\ to_fn ob (node_state m) = inr t) ->
  check_leads_to_violations name g obligations fairness = Some (inr None)
  <-> forall ob c u l, ob ∈ obligations -> round_trip g c u l -> fair_cycle g fairness (u :: l) ->
      (exists k, k ∈ u :: l /\ node_satisfies (from_fn ob) true k) ->
      exists k, k ∈ u :: l /\ node_satisfies (to_fn ob) true k.
Proof.
  intros Htot. unfold check_leads_to_violations, detect_cyclic_sccs_with_witness.
  destruct (detect_sccs_spec g (graph_closed _ Hg)) as (cs & -> & Hcover & Hcs). cbn [mbind option_bind].
  rewrite check_obligations_none; [|done|].
  2: { intros c [Hcy Hc]%list_elem_of_filter. destruct (Hcs c Hc) as [Hs Hrep]. apply bool_decide_eq_true in Hcy.
    split; [done|]. split; [done|]. split; [done|]. intros x.
    destruct Hcy as [e He]. rewrite Hrep in He. pose proof (representative_internal _ _ He) as (? & ? & ?).
    by apply (component_nodes (members c) x (from_key e) (to_key e)). }
  split.
  - intros Hall ob c u l Hob Ht Hfair (k & Hk & Hkf). pose proof (trip_component _ _ _ _ Ht) as Hs.
    destruct l as [|w l]; [by destruct (trip_moves _ _ _ _ Ht)|].
    pose proof (trip_walk _ _ _ _ Ht) as (Huw & Hw & _).
    assert (u ∈ c) as Hu by (apply (trip_inside g c u (w :: l)); [done|by left]).
    destruct (Hcover u) as (c' & Hc' & Hu'); [by apply (component_nodes c u u w)|].
    destruct (Hcs c' Hc') as [Hs' Hrep]. assert (members c' = c) as Hm.
    { apply set_eq. intros x. by rewrite (proj2 Hs u Hu x), (proj2 Hs' u Hu' x). }
    destruct (eval_predicates_total ob (sorted_keys (nodes g)) ∅ ∅) as [[F T] Hev]; [by intros; eapply Htot|].
    destruct (eval_predicates_sets _ _ _ Hev) as [HF HT].
    assert (violates g fairness F T c' = false) as Hv.
    { apply (Hall ob F T c' Hob Hev). apply list_elem_of_filter. split; [|done]. apply bool_decide_eq_true.
      rewrite Hrep, Hm. by apply (representative_exists c u w). }
    unfold violates in Hv. rewrite Hm, (fair_trip g c u (w :: l) fairness Ht Hfair) in Hv. cbn in Hv.
    assert (c ∩ F <> ∅) as HcF by (apply HF in Hkf; apply (trip_inside g c u (w :: l) k Ht) in Hk; set_solver).
    rewrite (bool_decide_eq_true_2 _ HcF) in Hv. cbn in Hv. apply bool_decide_eq_false, set_choose_L in Hv as [x Hx].
    apply elem_of_intersection in Hx as [Hx HxT]. exists x. split; [by apply (trip_inside g c u (w :: l))|by apply HT].
  - intros Hall ob F T c Hob Hev [Hcy Hc]%list_elem_of_filter. apply not_true_iff_false. intros Hv.
    destruct (Hcs c Hc) as [Hs Hrep], (eval_predicates_sets _ _ _ Hev) as [HF HT]. apply bool_decide_eq_true in Hcy as [e He].
    rewrite Hrep in He. pose proof (representative_internal _ _ He) as (Hf & Ht & Hed).
    unfold violates in Hv. rewrite !andb_true_iff, !bool_decide_eq_true in Hv. destruct Hv as [[Hfair HcF] HcT].
    apply set_choose_L in HcF as [x [Hx HxF]%elem_of_intersection].
    destruct (lasso_walk g (members c) _ _ Hs Hf Ht Hed) as (l & Hl & Hcov & Hadj).
    assert (round_trip g (members c) (from_key e) (to_key e :: l)) as Htrip by (by split).
    destruct (Hall ob (members c) (from_key e) (to_key e :: l) Hob Htrip) as (k & Hk & HkT).
    + apply (fair_component g (members c)); [done| |done]. intros y. by eapply trip_inside.
    + exists x. split; [by apply Hcov|by apply HF].
    + apply (trip_inside _ _ _ _ _ Htrip) in Hk. apply HT in HkT. set_solver.
Qed.
End check.
