(* ===== verification/ModelCheckProperties.v ===== *)
(** * Theorems about the model checker

    Values: one order, equality, hash and key, whatever the representation of sets.
    The search: it ends; its counterexamples are runs of the program; breadth first
    it misses nothing within its bounds, and its counterexamples are shortest.
    Leads-to obligations: a violation reported is a run of the program, and what
    the check decides.  The witnesses are small sets, a counter and two states that
    lead to each other, which the search explores. *)

From stdpp Require Import prelude gmap sets list numbers fin_sets strings.
From Stdlib Require Import ZArith Lia.
From S2P Require Import Prelude.
From S2P Require Import Ordering.
From S2P Require Import SmallIntSet.
From S2P Require Import RuntimeValue.
From S2P Require Import ValueKeys.
From S2P Require Import DedupKeys.
From S2P Require Import Explorer.
From S2P Require Import ExplorerInvariants.
From S2P Require Import StateGraph.
From S2P Require Import Tarjan.
From S2P Require Import Liveness.
From S2P Require Import LivenessLaws.

#[local] Open Scope Z_scope.

(** ** Values *)

Lemma value_compare_eq a b : value_ok a -> value_ok b -> value_compare a b = Eq <-> value_eqb a b = true.
Proof.
  intros Ha Hb. rewrite (value_compare_tree a Ha b Hb), (value_eqb_tree a Ha b Hb).
  apply (compare_eq (cmp := tree_compare)).
Qed.

(** C26: The order of values is total, whatever the representation of the sets in
    them: it says equal exactly when [==] does, is antisymmetric and transitive; and
    equal values feed the same to a hasher. *)
Theorem value_order_is_total a b c :
  value_ok a -> value_ok b -> value_ok c ->
  (value_compare a b = Eq <-> value_eqb a b = true)
  /\ value_compare b a = CompOpp (value_compare a b)
  /\ (value_compare a b = Lt -> value_compare b c = Lt -> value_compare a c = Lt)
  /\ (value_eqb a b = true -> hash_into a = hash_into b).
Proof.
  intros Ha Hb Hc. split; [by apply value_compare_eq|].
  rewrite !(value_compare_tree _ Ha), !(value_compare_tree _ Hb) by done. split_and!.
  - apply (compare_opp (cmp := tree_compare)).
  - apply (compare_trans (cmp := tree_compare)).
  - rewrite (value_eqb_tree a Ha b Hb). by apply hash_respects.
Qed.

(** The elements of a set are values. *)
Lemma set_tree_value r t : repr_ok r -> t ∈ set_trees r -> exists v, value_ok v /\ t = tree v.
Proof.
  intros Hr (v & Hv & ->)%elem_set_iter; [|done]. exists v. split; [|done].
  pose proof (set_iter_ok r Hr) as Hok. rewrite Forall_forall in Hok. by apply Hok.
Qed.

Lemma eq_bool b c : b = true <-> c = true -> b = c.
Proof. destruct b, c; intuition congruence. Qed.

(** C25: The operations on sets are those of finite sets, whichever of the two
    representations their arguments and results have: membership in the union, the
    intersection, the difference, after an insertion or a removal is as it should be,
    insertion and removal tell whether they changed the set, and sets with the same
    members are equal. *)
Theorem set_operations_are_sets r r' v x :
  repr_ok r -> repr_ok r' -> value_ok v -> value_ok x ->
  set_contains (set_union r r') x = set_contains r x || set_contains r' x
  /\ set_contains (set_intersection r r') x = set_contains r x && set_contains r' x
  /\ set_contains (set_difference r r') x = set_contains r x && negb (set_contains r' x)
  /\ set_contains (set_insert r v).1 x = set_contains r x || value_eqb x v
  /\ (set_insert r v).2 = negb (set_contains r v)
  /\ set_contains (set_remove r v).1 x = set_contains r x && negb (value_eqb x v)
  /\ (set_remove r v).2 = set_contains r v
  /\ ((forall y, value_ok y -> set_contains r y = set_contains r' y) <-> value_eqb (VSet r) (VSet r') = true).
Proof.
  intros Hr Hr' Hv Hx.
  destruct (set_union_spec r r' Hr Hr') as [Hu1 Hu2], (set_intersection_spec r r' Hr Hr') as [Hi1 Hi2],
    (set_difference_spec r r' Hr Hr') as [Hd1 Hd2].
  pose proof (set_insert_spec r v Hr Hv) as Hins. destruct (set_insert r v) as [ri new]. destruct Hins as (Hins1 & Hnew & Hins2).
  pose proof (set_remove_spec r v Hr Hv) as Hrem. destruct (set_remove r v) as [rr was]. destruct Hrem as (Hrem1 & Hwas & Hrem2).
  pose proof (set_contains_spec r x Hr Hx) as Hcx. pose proof (set_contains_spec r' x Hr' Hx) as Hcx'.
  pose proof (set_contains_spec r v Hr Hv) as Hcv. pose proof (value_eqb_tree x Hx v Hv) as Hxv.
  split_and!; try (apply eq_bool; rewrite ?orb_true_iff, ?andb_true_iff, ?negb_true_iff, <- ?not_true_iff_false,
    ?set_contains_spec, ?Hu2, ?Hi2, ?Hd2, ?Hins2, ?Hrem2, ?Hxv, ?Hnew, ?Hwas by done; tauto).
  rewrite (value_eqb_tree (VSet r) Hr (VSet r') Hr'), !tree_set. split.
  - intros Hy. assert (set_trees r = set_trees r') as ->; [|done]. apply set_trees_ext; [done..|]. intros t. split.
    + intros Ht. destruct (set_tree_value r t Hr Ht) as (y & Hok & ->).
      apply (set_contains_spec r y) in Ht; [|done..]. rewrite Hy in Ht by done. by apply (set_contains_spec r' y).
    + intros Ht. destruct (set_tree_value r' t Hr' Ht) as (y & Hok & ->).
      apply (set_contains_spec r' y) in Ht; [|done..]. rewrite <- Hy in Ht by done. by apply (set_contains_spec r y).
  - intros [= _ Heq] y Hy. apply eq_bool. by rewrite !set_contains_spec, Heq.
Qed.

(** C23: Two values have the same canonical key exactly when they are equal, provided
    that names of types, variants and fields are identifiers and strings are ASCII:
    deduplication by canonical keys merges nothing but equal states. *)
Theorem canonical_keys_identify i a b :
  interner_ok i -> value_ok a -> printable i a -> value_ok b -> printable i b ->
  canonical_key (interned_name i) a = canonical_key (interned_name i) b <-> value_eqb a b = true.
Proof. intros Hi Ha Hpa Hb Hpb. rewrite (value_eqb_tree a Ha b Hb). by apply canonical_key_inj. Qed.

(** ** The search *)

(** What the result of a search promises. *)
Lemma explore_result name hash_str hash_value initial mode limits state_dedup symmetry_fields check_deadlock
    successor_fn invariant_checker timeout_reached r :
  explore_with_traces name hash_str hash_value initial mode limits state_dedup symmetry_fields check_deadlock
      successor_fn invariant_checker timeout_reached = Some (inr r) ->
  result_ok name hash_str hash_value initial mode limits state_dedup symmetry_fields check_deadlock
    successor_fn invariant_checker timeout_reached (inr r).
Proof.
  intros Hr. pose proof (explore_spec name hash_str hash_value initial mode limits state_dedup symmetry_fields check_deadlock
      successor_fn invariant_checker timeout_reached) as H.
  destruct (validate_limits limits); [congruence|]. destruct H as (r' & Hr' & Hok). by simplify_eq.
Qed.

(** C19: The search ends, whatever program, limits, clock and mode it is given, with
    a result or an error; limits of zero are refused.  A counterexample it gives is a
    run of the program, with every kind of keys, even when hashes collide: it starts
    in an initial state, each step is one that the successor function gives, with its
    branch and what it changed, it has as many steps as the depth reported, and it
    ends in the state that violates the invariant or has no successor.  The other
    reasons to stop hold when they are given. *)
Theorem counterexample_is_genuine name hash_str hash_value initial mode limits state_dedup symmetry_fields check_deadlock
    successor_fn invariant_checker timeout_reached :
  exists res, explore_with_traces name hash_str hash_value initial mode limits state_dedup symmetry_fields check_deadlock
      successor_fn invariant_checker timeout_reached = Some res
    /\ ((max_states limits = 0 \/ timeout_ms limits = 0) -> exists message, res = inl (Config message))
    /\ forall r, res = inr r ->
       match stop_reason r with
       | InvariantViolated => exists v tr, invariant_violation r = Some v /\ counterexample r = Some tr
           /\ trace_to name initial successor_fn (violation_state v) (violation_depth v) tr
           /\ invariant_checker (violation_state v) (violation_depth v) = inr (Some (invariant v))
       | DeadlockDetected => exists v tr, deadlock r = Some v /\ counterexample r = Some tr
           /\ trace_to name initial successor_fn (deadlock_state v) (deadlock_depth v) tr
           /\ check_deadlock = true /\ successor_fn (deadlock_state v) = inr []
       | TimeoutReached => exists n, timeout_reached n = true
       | MaxStatesReached => max_states limits <= visited_states (stats r)
       | FrontierExhausted => invariant_violation r = None /\ deadlock r = None /\ counterexample r = None
       end.
Proof.
  pose proof (explore_spec name hash_str hash_value initial mode limits state_dedup symmetry_fields check_deadlock
      successor_fn invariant_checker timeout_reached) as H. unfold validate_limits in H.
  case_decide; [eexists; split; [exact H|]; split; [eauto|by intros r [=]]|].
  case_decide; [eexists; split; [exact H|]; split; [eauto|by intros r [=]]|].
  destruct H as (res & Hres & Hok). exists res. split; [done|]. split; [tauto|].
  intros r ->. cbn in Hok. destruct (stop_reason r); [|done|done| |done].
  - destruct Hok as [[= ? ? ?] _]. done.
  - destruct Hok as (v & tr & ? & ? & ? & ? & _). by exists v, tr.
Qed.

(** *** Exact keys *)

(** The program's states are well-formed values, and equal states have equal
    successors. *)
Record program_ok (i : Interner) (initial : list RuntimeValue)
    (successor_fn : RuntimeValue -> TranspileResult (list TracedSuccessor)) : Prop := {
  program_names : interner_ok i;
  program_states : forall n st, reachable_in initial successor_fn n st -> value_ok st /\ printable i st;
  program_respects : forall n st st' a t l', reachable_in initial successor_fn n st -> value_eqb st' st = true ->
    takes successor_fn a st t -> successor_fn st' = inr l' ->
    exists u, u ∈ l' /\ value_eqb (successor_state u) t = true }.

Section exact.
Context (i : Interner) (hash_str : Str -> Z) (hash_value : list Z -> Z) (initial : list RuntimeValue)
  (successor_fn : RuntimeValue -> TranspileResult (list TracedSuccessor)).
Context (Hok : program_ok i initial successor_fn).
Notation reachable := (reachable_in initial successor_fn).
Notation key := (dedup_key (interned_name i) hash_str hash_value Canonical []).

Lemma exact_key n n' st st' : reachable n st -> reachable n' st' -> key st = key st' <-> value_eqb st st' = true.
Proof.
  intros Hst Hst'. destruct (program_states _ _ _ Hok _ _ Hst), (program_states _ _ _ Hok _ _ Hst').
  apply canonical_keys_identify; [apply Hok|done..].
Qed.

Lemma exact_congruent : keys_congruent (interned_name i) hash_str hash_value initial Canonical [] successor_fn.
Proof.
  intros n n' st st' a t l' Hst Hst' Hk Ht Hl'.
  destruct (program_respects _ _ _ Hok n st st' a t l' Hst) as (u & Hu & Heq); [by eapply exact_key|done..|].
  exists u. split; [done|]. eapply (exact_key (S n') (S n)); [|by eapply reachable_step|done].
  apply (reachable_step initial successor_fn n' (action_branch u) st'); [done|]. exists l'. by destruct u.
Qed.
End exact.

(** C20: With exact keys a search that exhausts the frontier has seen everything
    within its bounds.  What it explored is reached, in as many steps as the depth
    recorded, and passed the invariant.  Breadth first, each state that the program
    reaches in at most [max_depth] steps is equal to one explored, at no greater
    depth; and in either mode, when no state was at the depth bound, every
    reachable state is equal to one explored. *)
Theorem exhausted_search_is_complete i hash_str hash_value initial mode limits check_deadlock successor_fn
    invariant_checker timeout_reached r :
  program_ok i initial successor_fn ->
  explore_with_traces (interned_name i) hash_str hash_value initial mode limits Canonical [] check_deadlock
      successor_fn invariant_checker timeout_reached = Some (inr r) ->
  stop_reason r = FrontierExhausted ->
  (forall e, e ∈ explored r -> invariant_checker (explored_state e) (explored_depth e) = inr None
     /\ exists n, Z.of_nat n = explored_depth e /\ reachable_in initial successor_fn n (explored_state e))
  /\ (mode = Bfs -> forall n st, reachable_in initial successor_fn n st -> Z.of_nat n <= max_depth limits ->
       exists e, e ∈ explored r /\ value_eqb (explored_state e) st = true /\ explored_depth e <= Z.of_nat n)
  /\ ((forall e, e ∈ explored r -> explored_depth e < max_depth limits) ->
       forall n st, reachable_in initial successor_fn n st ->
       exists e, e ∈ explored r /\ value_eqb (explored_state e) st = true).
Proof.
  intros Hok Hr%explore_result Hstop. cbn in Hr. rewrite Hstop in Hr. destruct Hr as (_ & s & HL & Hf & ->).
  pose proof (exact_congruent i hash_str hash_value initial successor_fn Hok) as Hcong.
  assert (forall e, e ∈ explored_so_far s -> exists n, Z.of_nat n = explored_depth e
    /\ reachable_in initial successor_fn n (explored_state e)) as Hreach by (intros e; by eapply explored_reachable).
  split_and!.
  - intros e He. split; [|by apply Hreach]. by eapply loop_checked.
  - intros HB n st Hst Hn. edestruct exhausted_bfs as (e & He & Hk & Hd); [done..|].
    exists e. split_and!; [done| |done]. destruct (Hreach e He) as (m & _ & Hm). by eapply exact_key.
  - intros Hd n st Hst. edestruct exhausted_unbounded as (e & He & Hk); [done..|].
    exists e. split; [done|]. destruct (Hreach e He) as (m & _ & Hm). by eapply exact_key.
Qed.

(** C24: Breadth first and with exact keys, a counterexample to an invariant is
    shortest: every state that the program reaches in fewer steps satisfies it. *)
Theorem bfs_counterexample_is_shortest i hash_str hash_value initial limits check_deadlock successor_fn
    invariant_checker timeout_reached r v n st k :
  program_ok i initial successor_fn ->
  (forall a b d d', value_ok a -> value_ok b -> value_eqb a b = true -> invariant_checker a d = invariant_checker b d') ->
  explore_with_traces (interned_name i) hash_str hash_value initial Bfs limits Canonical [] check_deadlock
      successor_fn invariant_checker timeout_reached = Some (inr r) ->
  stop_reason r = InvariantViolated -> invariant_violation r = Some v ->
  reachable_in initial successor_fn n st -> Z.of_nat n < violation_depth v ->
  invariant_checker st k = inr None.
Proof.
  intros Hok Hinv Hr%explore_result Hstop Hv Hst Hn. cbn in Hr. rewrite Hstop in Hr.
  destruct Hr as (v' & tr & Hv' & _ & _ & _ & s & item & rest & HL & Hpop & Hd). simplify_eq.
  pose proof (exact_congruent i hash_str hash_value initial successor_fn Hok) as Hcong.
  edestruct explored_below as (e & He & Hk & _); [done..|by rewrite Hd|].
  destruct (explored_reachable _ _ _ _ _ _ _ _ _ _ _ _ _ HL He) as (m & _ & Hm).
  rewrite <- (Hinv (explored_state e) st (explored_depth e) k); [by eapply loop_checked|..].
  - by eapply program_states.
  - by eapply program_states.
  - by eapply exact_key.
Qed.

(** The entry points without traces ([explore_state_space_internal]) answer what
    the search with traces and exact keys answers, but for the counterexample. *)
Theorem internal_is_traced name hash_str hash_value initial mode limits successor_fn invariant_checker check_deadlock
    timeout_reached :
  explore_state_space_internal name initial mode limits successor_fn invariant_checker check_deadlock timeout_reached
  = erase_trace <$> explore_with_traces name hash_str hash_value initial mode limits Canonical [] check_deadlock
      (unlabelled successor_fn) invariant_checker timeout_reached.
Proof. apply internal_with_traces. Qed.

(** ** Cycles and leads-to obligations *)

(** C21: The components of the explored graph are the strongly connected ones: the
    decomposition ends, every node is in one component, and a component holds
    exactly the nodes that each of its nodes reaches and is reached from. *)
Theorem components_are_strongly_connected g :
  (forall x, out g x ⊆ dom (nodes g)) ->
  exists l, detect_sccs_with_witness g = Some l
    /\ (forall x, x ∈ dom (nodes g) -> exists c, c ∈ l /\ x ∈ members c)
    /\ (forall c x y, c ∈ l -> x ∈ members c -> y ∈ members c <-> reach g x y /\ reach g y x)
    /\ (forall c, c ∈ l -> is_cyclic c = true -> forall x, x ∈ members c -> exists z, z ∈ members c /\ z ∈ out g x).
Proof.
  intros Hg. destruct (detect_sccs_spec g Hg) as (l & Hl & Hcover & Hscc). exists l. split_and!; [done|done| |].
  - intros c x y Hc Hx. destruct (Hscc c Hc) as [[_ H] _]. by apply H.
  - intros c Hc Hcy x Hx. destruct (Hscc c Hc) as [Hs Hrep]. unfold is_cyclic in Hcy.
    apply bool_decide_eq_true in Hcy as [e He]. rewrite Hrep in He. by apply (cyclic_edge g (members c) e x).
Qed.

Lemma build_graph_ok name successor_fn explored g :
  build_explored_graph_index name successor_fn explored = inr g -> graph_ok g.
Proof.
  intros (Hdom & Hnode & Hout & Hsrc)%build_index_spec. split; [|done]. intros x z [a Ha]%Hout.
  pose proof (Hsrc _ _ _ Ha) as [m Hm]%elem_of_dom. destruct (Hnode x m Hm) as (_ & _ & l & _ & Hl).
  by apply Hl in Ha as (_ & _ & _ & _ & ?).
Qed.

(** The graph of an exhausted search is well formed, and its nodes are reached from
    initial ones. *)
Lemma search_graph name hash_str hash_value initial mode limits check_deadlock successor_fn invariant_checker
    timeout_reached r g :
  explore_with_traces name hash_str hash_value initial mode limits Canonical [] check_deadlock
      successor_fn invariant_checker timeout_reached = Some (inr r) ->
  stop_reason r = FrontierExhausted -> build_explored_graph_index name successor_fn (explored r) = inr g ->
  graph_ok g /\ forall k, k ∈ dom (nodes g) -> exists k0, initial_node g k0 /\ reach g k0 k.
Proof.
  intros Hr%explore_result Hstop Hb. cbn in Hr. rewrite Hstop in Hr. destruct Hr as (_ & s & HL & Hf & He).
  split; [by eapply build_graph_ok|].
  apply build_index_spec in Hb as (Hdom & Hnode & Hout & Hsrc). rewrite He in Hdom, Hnode.
  pose proof (loop_core _ _ _ _ _ _ _ _ _ _ _ _ HL) as HC.
  assert (forall k st, states_by_key s !! k = Some st -> k = canonical_key name st /\ exists d, MkExplored st d ∈ explored_so_far s) as Hrec.
  { intros k st [-> [d Hd]]%(core_cover _ _ _ _ _ _ _ _ _ HC). split; [done|]. exists d.
    by eapply pool_exhausted in Hd. }
  assert (forall e, e ∈ explored_so_far s -> states_by_key s !! canonical_key name (explored_state e) = Some (explored_state e)
    /\ traced initial successor_fn (states_by_key s) (parents s) (canonical_key name (explored_state e)) (explored_depth e)) as Hpool.
  { intros e Hee. apply (core_pool _ _ _ _ _ _ _ _ _ HC). unfold pool_of. apply elem_of_app. left.
    by apply (list_elem_of_fmap_2 (fun e => (explored_state e, explored_depth e))). }
  assert (forall k d, traced initial successor_fn (states_by_key s) (parents s) k d -> exists k0, initial_node g k0 /\ reach g k0 k) as Htr.
  { induction 1 as [k st H1 H2 H3|k st pk ps a d H IH H1 H2 H3 (l & Hl & Hin)].
    - exists k. split; [|apply rtc_refl]. destruct (Hrec k st H1) as [Hk (d & Hd)].
      assert (k ∈ dom (nodes g)) as [m Hm]%elem_of_dom by (apply Hdom; by exists (MkExplored st d)).
      unfold initial_node. rewrite Hm. cbn. f_equal. destruct (Hnode k m Hm) as ((e & He' & Hke & ->) & Hmin & _). cbn in Hmin |- *.
      pose proof (loop_initial _ _ _ _ _ _ _ _ _ _ _ _ HL st H2) as (st0 & Hin0 & Hk0). apply pool_exhausted in Hin0; [|done].
      pose proof (Hmin (MkExplored st0 0) Hin0) as Hle. cbn in Hle. destruct (Hpool e He') as [_ Ht]. apply traced_nonneg in Ht.
      assert (explored_depth e <= 0) by (apply Hle; rewrite Hk; exact Hk0). lia.
    - destruct IH as (k0 & Hk0 & Hr0). exists k0. split; [done|]. eapply rtc_r; [done|].
      destruct (Hrec k st H2) as [Hk (dk & Hdk)], (Hrec pk ps H3) as [Hpk (dp & Hdp)].
      assert (pk ∈ dom (nodes g)) as [m Hm]%elem_of_dom by (apply Hdom; by exists (MkExplored ps dp)).
      destruct (Hnode pk m Hm) as ((e & He' & Hke & ->) & _ & l' & Hl' & Hlab). cbn in Hl'.
      destruct (Hpool e He') as [Hst _]. rewrite <- Hke, H3 in Hst. injection Hst as Hst. rewrite <- Hst, Hl in Hl'.
      injection Hl' as <-. apply Hout. exists a. apply Hlab. exists (MkSuccessor a st). split_and!; [done|done|done|].
      apply Hdom. by exists (MkExplored st dk). }
  intros k (e & Hee & <-)%Hdom. by eapply Htr, Hpool.
Qed.

(** *** Runs of the program *)

Section runs.
Context (initial : list RuntimeValue) (successor_fn : RuntimeValue -> TranspileResult (list TracedSuccessor)).

(** A step of the program from one state to a state equal to the other. *)
Definition moves (a : Str) (s t : RuntimeValue) : Prop :=
  exists t', takes successor_fn a s t' /\ value_eqb t' t = true.

(** The branch can be taken in the state, wherever it leads. *)
Definition enabled (a : Str) (s : RuntimeValue) : Prop := exists t, takes successor_fn a s t.

(** The steps of a counterexample, from a state to the last one. *)
Fixpoint trace_runs (s : RuntimeValue) (steps : list CounterexampleStep) (t : RuntimeValue) : Prop :=
  match steps with
  | [] => s = t
  | step :: steps => moves (step_branch step) s (step_state step) /\ trace_runs (step_state step) steps t
  end.

Fixpoint state_walk (s : RuntimeValue) (l : list RuntimeValue) (t : RuntimeValue) : Prop :=
  match l with
  | [] => s = t
  | z :: l => (exists a, moves a s z) /\ state_walk z l t
  end.

(** The cycle, repeated for ever, is fair: a weakly fair branch that is enabled in
    all of its states is taken, and so is a strongly fair one that is enabled in one. *)
Definition fair_states (fairness : FairnessConfig) (l : list RuntimeValue) : Prop :=
  (forall a, a ∈ weak fairness -> (forall s, s ∈ l -> enabled a s) -> exists s t, adjacent l s t /\ moves a s t)
  /\ (forall a, a ∈ strong fairness -> (exists s, s ∈ l /\ enabled a s) -> exists s t, adjacent l s t /\ moves a s t).

(** The counterexample runs from an initial state to [t], the second state of a
    cycle of program steps that starts in a [from] state [s] and has no [to] state. *)
Record violating_run (ob : ResolvedLeadsToObligation) (trace : CounterexampleTrace) (s t : RuntimeValue)
    (l : list RuntimeValue) : Prop := {
  run_starts : trace_initial trace ∈ initial;
  run_leads : trace_runs (trace_initial trace) (trace_steps trace) t;
  run_cycle : state_walk s (t :: l) s;
  run_from : from_fn ob s = inr true;
  run_never : forall x, x ∈ s :: t :: l -> to_fn ob x = inr false }.
End runs.

(** *** From the graph to the program *)

Section program.
Context (i : Interner) (hash_str : Str -> Z) (hash_value : list Z -> Z) (initial : list RuntimeValue)
  (mode : SearchMode) (limits : ExplorationLimits) (check_deadlock : bool)
  (successor_fn : RuntimeValue -> TranspileResult (list TracedSuccessor))
  (invariant_checker : RuntimeValue -> Z -> TranspileResult (option Str)) (timeout_reached : nat -> bool)
  (r : ExplorationResult) (g : ExploredGraphIndex).
Context (Hok : program_ok i initial successor_fn)
  (Hr : explore_with_traces (interned_name i) hash_str hash_value initial mode limits Canonical [] check_deadlock
      successor_fn invariant_checker timeout_reached = Some (inr r))
  (Hstop : stop_reason r = FrontierExhausted)
  (Hb : build_explored_graph_index (interned_name i) successor_fn (explored r) = inr g).
Notation key := (canonical_key (interned_name i)).

(** The state of a node. *)
Definition state_at (k : Str) : RuntimeValue := default VUnit (node_state <$> nodes g !! k).

Lemma state_at_node k m : nodes g !! k = Some m -> state_at k = node_state m.
Proof. unfold state_at. by intros ->. Qed.

Lemma search_loop_end : exists s, Loop (interned_name i) hash_str hash_value initial mode limits Canonical [] check_deadlock successor_fn
    invariant_checker s /\ frontier s = [] /\ explored r = explored_so_far s.
Proof.
  pose proof (explore_result _ _ _ _ _ _ _ _ _ _ _ _ _ Hr) as H. cbn in H. rewrite Hstop in H.
  destruct H as (_ & s & HL & Hf & He). by exists s.
Qed.

Lemma node_reached k m :
  nodes g !! k = Some m ->
  k = key (node_state m) /\ exists n, Z.of_nat n = node_depth m /\ reachable_in initial successor_fn n (node_state m).
Proof.
  intros Hm. destruct (build_index_spec _ _ _ _ Hb) as (_ & Hnode & _).
  destruct (Hnode k m Hm) as ((e & He & -> & ->) & _). split; [done|]. cbn.
  destruct search_loop_end as (s & HL & _ & Hs). rewrite Hs in He. by eapply explored_reachable.
Qed.

(** An edge is a step to a state equal to its target's. *)
Lemma label_moves x z a : a ∈ labels g x z -> moves successor_fn a (state_at x) (state_at z).
Proof.
  intros Ha. destruct (build_index_spec _ _ _ _ Hb) as (_ & Hnode & _ & Hsrc).
  pose proof (Hsrc _ _ _ Ha) as [m Hm]%elem_of_dom. destruct (Hnode x m Hm) as (_ & _ & l & Hl & Hlab).
  apply Hlab in Ha as ([a' s] & Hs & Hk & <- & [mz Hz]%elem_of_dom). cbn in *.
  rewrite (state_at_node x m Hm), (state_at_node z mz Hz). exists s. split; [by exists l|].
  destruct (node_reached x m Hm) as (_ & n & _ & Hn), (node_reached z mz Hz) as (Hkz & n' & _ & Hn').
  eapply (exact_key i hash_str hash_value initial successor_fn Hok (S n) n'); [|exact Hn'|].
  - eapply reachable_step; [exact Hn|by exists l].
  - change (key s = key (node_state mz)). congruence.
Qed.

Lemma edge_moves x z : edge g x z -> exists a, moves successor_fn a (state_at x) (state_at z).
Proof.
  intros He. pose proof (build_graph_ok _ _ _ _ Hb) as Hg. apply (graph_labels _ Hg) in He as [a Ha].
  exists a. by apply label_moves.
Qed.

Lemma walk_moves c x l y : walk g c x l y -> state_walk successor_fn (state_at x) (state_at <$> l) (state_at y).
Proof.
  revert x. induction l as [|z l IH]; intros x; cbn; [by intros ->|]. intros (He & _ & Hw).
  split; [by apply edge_moves|by apply IH].
Qed.

Lemma trace_moves x steps y : graph_trace g x steps y -> trace_runs successor_fn (state_at x) steps (state_at y).
Proof.
  revert x. induction steps as [|step steps IH]; intros x; cbn; [by intros ->|].
  intros (z & m & _ & Hm & Hst & Ha & Htr). rewrite Hst, <- (state_at_node z m Hm).
  split; [by apply label_moves|by apply IH].
Qed.

Lemma adjacent_fmap {A B} (f : A -> B) l x z : adjacent l x z -> adjacent (f <$> l) (f x) (f z).
Proof. intros (l1 & l2 & ->). exists (f <$> l1), (f <$> l2). by rewrite fmap_app. Qed.

(** When no transition leaves the explored states, the graph shows what is enabled. *)
Lemma enabled_label k a :
  edges_to_unexplored (graph_stats g) = 0 -> k ∈ dom (nodes g) -> enabled successor_fn a (state_at k) ->
  a ∈ enabled_labels g k.
Proof.
  intros Hz [m Hm]%elem_of_dom (t & l & Hl & Ht). rewrite (state_at_node k m Hm) in Hl.
  pose proof (proj1 (build_index_unexplored _ _ _ _ Hb) Hz k m l _ Hm Hl Ht) as Hin. cbn in Hin.
  destruct (build_index_spec _ _ _ _ Hb) as (_ & Hnode & Hout & _). destruct (Hnode k m Hm) as (_ & _ & l' & Hl' & Hlab).
  rewrite Hl in Hl'. injection Hl' as <-. assert (a ∈ labels g k (key t)) as Ha.
  { apply Hlab. by exists (MkSuccessor a t). }
  apply elem_enabled_labels. exists (key t). split; [|done]. apply Hout. by exists a.
Qed.

Lemma fair_cycle_states fairness l :
  edges_to_unexplored (graph_stats g) = 0 -> (forall k, k ∈ l -> k ∈ dom (nodes g)) ->
  fair_cycle g fairness l -> fair_states successor_fn fairness (state_at <$> l).
Proof.
  intros Hz Hdom [Hw Hs].
  assert (forall a, (exists x z, adjacent l x z /\ a ∈ labels g x z) ->
    exists s t, adjacent (state_at <$> l) s t /\ moves successor_fn a s t) as Hgo.
  { intros a (x & z & Hadj & Ha). exists (state_at x), (state_at z). split; [by apply adjacent_fmap|by apply label_moves]. }
  split; intros a Ha.
  - intros Hen. apply Hgo, Hw; [done|]. intros k Hk. apply enabled_label; [done|by apply Hdom|].
    apply Hen, list_elem_of_fmap. by exists k.
  - intros (s & (k & -> & Hk)%list_elem_of_fmap & Hen). apply Hgo, Hs; [done|]. exists k. split; [done|].
    apply enabled_label; [done|by apply Hdom|done].
Qed.

(** What the graph calls genuine is a run of the program. *)
Lemma genuine_run obligations fairness v :
  genuine g obligations fairness v ->
  exists ob s t l, ob ∈ obligations /\ violated_obligation v = obligation_name ob
    /\ violating_run initial successor_fn ob (leads_to_counterexample v) s t l
    /\ (edges_to_unexplored (graph_stats g) = 0 -> fair_states successor_fn fairness (s :: t :: l)).
Proof.
  intros (ob & k0 & m0 & l & Hob & Hname & (Hm0 & Hd0 & Hi0 & Htr) & Hw & (mu & Hmu & Hfrom) & Hto & Hfair).
  set (u := from_key (violating_edge v)) in *. set (w := to_key (violating_edge v)) in *.
  exists ob, (state_at u), (state_at w), (state_at <$> l). split; [done|]. split; [done|]. split.
  - split.
    + rewrite Hi0. destruct (node_reached k0 m0 Hm0) as (_ & n & Hn & Hre). rewrite Hd0 in Hn.
      assert (n = 0%nat) as -> by lia. by inversion Hre.
    + rewrite Hi0, <- (state_at_node k0 m0 Hm0). by apply trace_moves.
    + by apply (walk_moves (violating_component v) u (w :: l) u).
    + by rewrite (state_at_node u mu Hmu).
    + change (forall x, x ∈ state_at <$> (u :: w :: l) -> to_fn ob x = inr false).
      intros x (k & -> & Hk)%list_elem_of_fmap. destruct (Hto k Hk) as (m & Hm & Hf). by rewrite (state_at_node k m Hm).
  - intros Hz. apply (fair_cycle_states fairness (u :: w :: l)); [done| |done].
    intros k (m & Hm & _)%Hto. by apply elem_of_dom_2 in Hm.
Qed.

(** A search that stayed below its bound on the depth leaves no transition out. *)
Lemma unbounded_search_is_closed :
  (forall e, e ∈ explored r -> explored_depth e < max_depth limits) -> edges_to_unexplored (graph_stats g) = 0.
Proof.
  intros Hd. apply (build_index_unexplored _ _ _ _ Hb). intros k m l s Hm Hl Hs.
  destruct (node_reached k m Hm) as (_ & n & _ & Hn). destruct search_loop_end as (st & HL & Hf & He). rewrite He in Hd.
  pose proof (exact_congruent i hash_str hash_value initial successor_fn Hok) as Hcong.
  destruct (exhausted_unbounded (interned_name i) hash_str hash_value initial mode limits Canonical [] check_deadlock
    successor_fn invariant_checker st (S n) (successor_state s) HL Hf Hcong Hd) as (e & Hin & Hk).
  { apply (reachable_step _ _ n (action_branch s) (node_state m)); [done|]. exists l. by destruct s. }
  destruct (build_index_spec _ _ _ _ Hb) as (Hdom & _). apply Hdom. exists e. by rewrite He.
Qed.
End program.

(** C22: With exact keys (canonical keys that tell states apart, no symmetry
    reduction) the leads-to check of an exhausted search ends, and a violation it
    reports is a run of the program: the counterexample leads by program steps from
    an initial state to a cycle of program steps that starts in a [from] state and
    visits no [to] state.  If moreover no transition leaves the explored states (the
    index's statistic [edges_to_unexplored] is zero, as it is when no state was at
    the bound on the depth), the cycle repeated for ever is fair for the program: it
    takes each weakly fair branch that the program enables in all of its states, and
    each strongly fair one that it enables in some. *)
Theorem leads_to_violation_is_genuine i hash_str hash_value initial mode limits check_deadlock successor_fn
    invariant_checker timeout_reached r g obligations fairness :
  program_ok i initial successor_fn ->
  explore_with_traces (interned_name i) hash_str hash_value initial mode limits Canonical [] check_deadlock
      successor_fn invariant_checker timeout_reached = Some (inr r) ->
  stop_reason r = FrontierExhausted -> build_explored_graph_index (interned_name i) successor_fn (explored r) = inr g ->
  (exists res, check_leads_to_violations (interned_name i) g obligations fairness = Some res
     /\ forall v, res = inr (Some v) ->
        exists ob s t l, ob ∈ obligations /\ violated_obligation v = obligation_name ob
          /\ violating_run initial successor_fn ob (leads_to_counterexample v) s t l
          /\ (edges_to_unexplored (graph_stats g) = 0 -> fair_states successor_fn fairness (s :: t :: l)))
  /\ ((forall e, e ∈ explored r -> explored_depth e < max_depth limits) -> edges_to_unexplored (graph_stats g) = 0).
Proof.
  intros Hok Hr Hstop Hb. split; [|by eapply unbounded_search_is_closed].
  destruct (search_graph _ _ _ _ _ _ _ _ _ _ _ _ Hr Hstop Hb) as [Hg Hreach].
  destruct (check_spec (interned_name i) g Hg Hreach obligations fairness) as (res & Hres & Hgen).
  exists res. split; [done|]. intros v Hv. by eapply genuine_run, Hgen.
Qed.


(** A fair run that violates an obligation and is not reported: a [from] state is
    initial, a state that has an edge to itself is reached from it, and neither is a
    [to] state; nothing is required by fairness. *)
Definition missed (successor_fn : RuntimeValue -> TranspileResult (list TracedSuccessor)) (explored : list ExploredState)
    (ob : ResolvedLeadsToObligation) : Prop :=
  exists g k0 k1, build_explored_graph_index (fun _ => []) successor_fn explored = inr g
    /\ check_leads_to_violations (fun _ => []) g [ob] (MkFairness [] []) = Some (inr None)
    /\ initial_node g k0 /\ reach g k0 k1 /\ edge g k1 k1
    /\ node_satisfies g (from_fn ob) true k0 /\ node_satisfies g (to_fn ob) false k0 /\ node_satisfies g (to_fn ob) false k1.

(** Two states; the first leads to the second, which repeats. *)
Definition leave_step (s : RuntimeValue) : TranspileResult (list TracedSuccessor) :=
  inr [MkSuccessor (str "go") (VInt 1)].
Definition from_zero : ResolvedLeadsToObligation :=
  MkObligation (str "p~>q") (str "p") (str "q") (fun s => inr (value_eqb s (VInt 0))) (fun _ => inr false).

(** Two states; each leads to the other, and the first may repeat. *)
Definition toggle_step (s : RuntimeValue) : TranspileResult (list TracedSuccessor) :=
  inr (if value_eqb s (VInt 0) then [MkSuccessor (str "stay") (VInt 0); MkSuccessor (str "go") (VInt 1)]
       else [MkSuccessor (str "back") (VInt 0)]).
Definition zero_to_one : ResolvedLeadsToObligation :=
  MkObligation (str "p~>q") (str "p") (str "q") (fun s => inr (value_eqb s (VInt 0))) (fun s => inr (value_eqb s (VInt 1))).

Definition two_states : list ExploredState := [MkExplored (VInt 0) 0; MkExplored (VInt 1) 1].

Definition graph_of (successor_fn : RuntimeValue -> TranspileResult (list TracedSuccessor)) : ExploredGraphIndex :=
  match build_explored_graph_index (fun _ => []) successor_fn two_states with
  | inr g => g
  | inl _ => MkGraph ∅ ∅ ∅ ∅ (MkIndexStats 0 0 0)
  end.

Lemma edge_by_computation g x z : bool_decide (z ∈ out g x) = true -> edge g x z.
Proof. apply bool_decide_eq_true. Qed.

(** The leads-to check misses violations.  A run that leaves its [from] state for
    a cycle without [from] states is not reported, nor is one that stays in a cycle
    without [to] states inside a component that has one. *)
Theorem leads_to_check_misses_violations :
  missed leave_step two_states from_zero /\ missed toggle_step two_states zero_to_one.
Proof.
  split.
  - exists (graph_of leave_step), (str "int:0"), (str "int:1"). split; [vm_compute; reflexivity|].
    split; [vm_compute; reflexivity|]. split; [vm_compute; reflexivity|]. split; [|split].
    + apply rtc_once, edge_by_computation. vm_compute. reflexivity.
    + apply edge_by_computation. vm_compute. reflexivity.
    + split; [|split].
      * exists (MkNodeMetadata (VInt 0) 0). split; vm_compute; reflexivity.
      * exists (MkNodeMetadata (VInt 0) 0). split; vm_compute; reflexivity.
      * exists (MkNodeMetadata (VInt 1) 1). split; vm_compute; reflexivity.
  - exists (graph_of toggle_step), (str "int:0"), (str "int:0"). split; [vm_compute; reflexivity|].
    split; [vm_compute; reflexivity|]. split; [vm_compute; reflexivity|]. split; [|split].
    + apply rtc_refl.
    + apply edge_by_computation. vm_compute. reflexivity.
    + split; [|split]; exists (MkNodeMetadata (VInt 0) 0); split; vm_compute; reflexivity.
Qed.

(** ** Witnesses *)

Lemma value_order_is_total_witness :
  value_ok (VSet (General [VInt 1])) /\ value_compare (VSet (General [VInt 1])) (VInt 3) = Gt.
Proof.
  assert (value_ok (VSet (General [VInt 1])) /\ value_ok (VInt 3)) as [H1 H2].
  { split; [|done]. split; [repeat constructor|done]. }
  split; [exact H1|]. destruct (value_order_is_total (VInt 3) (VSet (General [VInt 1])) (VInt 3) H2 H1 H2) as (_ & -> & _).
  reflexivity.
Defined.

Lemma set_operations_are_sets_witness :
  set_contains (set_union (set_from_values [VInt 1; VInt 3]) (set_from_values [VInt 1; VBool true])) (VBool true) = true.
Proof.
  assert (Forall value_ok [VInt 1; VInt 3] /\ Forall value_ok [VInt 1; VBool true]) as [H1 H2] by (repeat constructor; done).
  destruct (set_operations_are_sets (set_from_values [VInt 1; VInt 3]) (set_from_values [VInt 1; VBool true])
    VUnit (VBool true) (proj1 (set_from_values_spec _ H1)) (proj1 (set_from_values_spec _ H2)) I I) as [-> _].
  vm_compute. reflexivity.
Defined.

(** A counter that stops at 3, with one field. *)
Definition counter_names : Interner := (intern (str "n") interner_new).1.
Definition counter (n : Z) : RuntimeValue := VStruct (str "C") [(0, VInt n)].
Definition counter_step (s : RuntimeValue) : TranspileResult (list TracedSuccessor) :=
  match s with
  | VStruct ty [(f, VInt n)] =>
      inr (if decide (n < 3) then [MkSuccessor (str "inc") (VStruct ty [(f, VInt (n + 1))])] else [])
  | _ => inr []
  end.
Definition below_three (s : RuntimeValue) (depth : Z) : TranspileResult (option Str) :=
  if value_eqb s (counter 3) then inr (Some (str "below")) else inr None.
Definition counter_limits (depth : Z) : ExplorationLimits := MkLimits depth 100 1000.
Definition counter_search (depth : Z) : option (TranspileResult ExplorationResult) :=
  explore_with_traces (interned_name counter_names) (fun _ => 0) (fun _ => 0) [counter 0] Bfs (counter_limits depth)
    Canonical [] true counter_step below_three (fun _ => false).
Definition counter_result (depth : Z) : ExplorationResult :=
  match counter_search depth with
  | Some (inr r) => r
  | _ => MkResult [] TimeoutReached stats_default None None None
  end.

Lemma counter_names_ok : interner_ok counter_names /\ known counter_names 0.
Proof.
  destruct (intern_spec interner_new (str "n") counter_names 0) as (H1 & H2 & _);
    [apply interner_new_ok|done|vm_compute; reflexivity|]. done.
Qed.

Lemma counter_ok n : 0 <= n <= 3 -> value_ok (counter n) /\ printable counter_names (counter n).
Proof.
  intros Hn. split.
  - split; [repeat constructor|]. split; [|done]. unfold value_ok, int_ok. split; [by trans 0; [|lia]|by apply Z.le_lt_trans with 3; [lia|]].
  - assert (forall c, c ∈ [67; 110] -> c ∉ [58; 123; 125]) as Hc by (intros c; rewrite !elem_of_cons, !elem_of_nil; lia).
    split; [|split; [split; [apply counter_names_ok|split; [|done]]|done]].
    + apply Forall_cons. split; [apply Hc; by left|constructor].
    + apply Forall_cons. split; [apply Hc; by right; left|constructor].
Qed.

Lemma counter_reach n s : reachable_in [counter 0] counter_step n s -> s = counter (Z.of_nat n) /\ Z.of_nat n <= 3.
Proof.
  induction 1 as [s ->%list_elem_of_singleton|n a s t _ [-> Hn] (l & [= <-] & Ht)]; [done|].
  case_decide; [|by apply not_elem_of_nil in Ht]. apply list_elem_of_singleton in Ht as [= -> ->].
  split; [|lia]. unfold counter. repeat f_equal. lia.
Qed.

Lemma counter_equal s n : 0 <= n <= 3 -> value_eqb s (counter n) = true -> s = counter n.
Proof.
  intros Hn. unfold counter. destruct s as [| | | | | | |ty fields| | |]; try done.
  cbn -[str]. rewrite andb_true_iff, bool_decide_eq_true. intros [-> H].
  destruct fields as [|[f [| |m| | | | | | | |]] [|q fields]]; cbn in H; rewrite ?andb_false_r in H; try done.
  rewrite !andb_true_iff in H. destruct H as [[Hf Hm] _]. apply bool_decide_eq_true in Hf, Hm. by subst.
Qed.

Lemma counter_program : program_ok counter_names [counter 0] counter_step.
Proof.
  split.
  - apply counter_names_ok.
  - intros n s [-> Hn]%counter_reach. apply counter_ok. lia.
  - intros n s s' a t l' [-> Hn]%counter_reach Heq. apply counter_equal in Heq as ->; [|lia]. intros (l & Hl & Ht) Hl'.
    rewrite Hl in Hl'. injection Hl' as <-.
    exists (MkSuccessor a t). split; [done|]. cbn [successor_state].
    assert (reachable_in [counter 0] counter_step (S n) t) as [-> ?]%counter_reach.
    { eapply (reachable_step _ _ n a (counter (Z.of_nat n))); [|by exists l].
      clear -Hn. induction n as [|n IH]; [apply reachable_initial; by left|].
      apply (reachable_step _ _ n (str "inc") (counter (Z.of_nat n))); [apply IH; lia|].
      eexists. split; [reflexivity|]. rewrite decide_True by lia. apply list_elem_of_singleton.
      unfold counter. repeat f_equal. lia. }
    destruct (counter_ok (Z.of_nat (S n)) ltac:(lia)) as [Hok _].
    by apply (value_eqb_tree _ Hok _ Hok).
Qed.

Lemma counter_2 : counter_search 2 = Some (inr (counter_result 2)) /\ stop_reason (counter_result 2) = FrontierExhausted
  /\ explored_depth <$> explored (counter_result 2) = [0; 1; 2].
Proof. split_and!; vm_compute; reflexivity. Qed.

Lemma counter_9 : counter_search 9 = Some (inr (counter_result 9)) /\ stop_reason (counter_result 9) = InvariantViolated
  /\ invariant_violation (counter_result 9) = Some (MkViolation (str "below") (counter 3) 3).
Proof. split_and!; vm_compute; reflexivity. Qed.

Lemma counterexample_is_genuine_witness :
  exists tr, trace_to (interned_name counter_names) [counter 0] counter_step (counter 3) 3 tr.
Proof.
  destruct (counterexample_is_genuine (interned_name counter_names) (fun _ => 0) (fun _ => 0) [counter 0] Bfs
    (counter_limits 9) Canonical [] true counter_step below_three (fun _ => false)) as (res & Hres & _ & H).
  destruct counter_9 as (Hr & Hs & Hv). assert (res = inr (counter_result 9)) as Heq.
  { change (counter_search 9 = Some res) in Hres. rewrite Hr in Hres. by injection Hres. }
  specialize (H _ Heq). rewrite Hs in H. destruct H as (v & tr & Hv' & _ & Ht & _).
  rewrite Hv in Hv'. injection Hv' as <-. exists tr. exact Ht.
Defined.

Lemma canonical_keys_identify_witness :
  canonical_key (interned_name counter_names) (counter 1) <> canonical_key (interned_name counter_names) (counter 2).
Proof.
  destruct (counter_ok 1 ltac:(lia)) as [H1 P1], (counter_ok 2 ltac:(lia)) as [H2 P2].
  rewrite (canonical_keys_identify counter_names (counter 1) (counter 2) (proj1 counter_names_ok) H1 P1 H2 P2).
  vm_compute. discriminate.
Defined.

Lemma exhausted_search_is_complete_witness :
  exists e, e ∈ explored (counter_result 2) /\ value_eqb (explored_state e) (counter 1) = true /\ explored_depth e <= 1.
Proof.
  destruct (exhausted_search_is_complete counter_names (fun _ => 0) (fun _ => 0) [counter 0] Bfs
    (counter_limits 2) true counter_step below_three (fun _ => false) (counter_result 2) counter_program (proj1 counter_2)
    (proj1 (proj2 counter_2))) as (_ & H & _).
  apply (H eq_refl 1%nat (counter 1)); [|done].
  apply (reachable_step _ _ 0 (str "inc") (counter 0)); [apply reachable_initial; by left|].
  exists [MkSuccessor (str "inc") (counter 1)]. split; [reflexivity|by left].
Defined.

Lemma bfs_counterexample_is_shortest_witness : below_three (counter 1) 7 = inr None.
Proof.
  apply (bfs_counterexample_is_shortest counter_names (fun _ => 0) (fun _ => 0) [counter 0]
    (counter_limits 9) true counter_step below_three (fun _ => false) (counter_result 9)
    (MkViolation (str "below") (counter 3) 3) 1 (counter 1) 7 counter_program).
  - intros a b d d' Ha Hb Hab. unfold below_three. destruct (counter_ok 3 ltac:(lia)) as [H3 _].
    assert (value_eqb a (counter 3) = value_eqb b (counter 3)) as ->; [|reflexivity]. apply eq_bool.
    rewrite (value_eqb_tree a Ha _ H3), (value_eqb_tree b Hb _ H3). apply (value_eqb_tree a Ha b Hb) in Hab. by rewrite Hab.
  - exact (proj1 counter_9).
  - exact (proj1 (proj2 counter_9)).
  - exact (proj2 (proj2 counter_9)).
  - apply (reachable_step _ _ 0 (str "inc") (counter 0)); [apply reachable_initial; by left|].
    exists [MkSuccessor (str "inc") (counter 1)]. split; [reflexivity|by left].
  - done.
Defined.

Lemma components_are_strongly_connected_witness :
  exists l, detect_sccs_with_witness (graph_of toggle_step) = Some l /\ length l = 1%nat.
Proof.
  assert (graph_ok (graph_of toggle_step)) as Hg.
  { apply (build_graph_ok (fun _ => []) toggle_step two_states). vm_compute. reflexivity. }
  destruct (components_are_strongly_connected (graph_of toggle_step) (graph_closed _ Hg)) as (l & Hl & _).
  exists l. split; [exact Hl|]. enough ((length <$> detect_sccs_with_witness (graph_of toggle_step)) = Some 1%nat) as H.
  - rewrite Hl in H. by injection H.
  - vm_compute. reflexivity.
Defined.

(** The search of the two states that lead to each other, and an obligation that
    fails. *)
Definition toggle_search : option (TranspileResult ExplorationResult) :=
  explore_with_traces (interned_name interner_new) (fun _ => 0) (fun _ => 0) [VInt 0] Bfs (counter_limits 5)
    Canonical [] true toggle_step (fun _ _ => inr None) (fun _ => false).
Definition toggle_result : ExplorationResult :=
  match toggle_search with Some (inr r) => r | _ => MkResult [] TimeoutReached stats_default None None None end.
Definition fair_go : FairnessConfig := MkFairness [] [str "go"].

Lemma toggle_searched : toggle_search = Some (inr toggle_result) /\ stop_reason toggle_result = FrontierExhausted
  /\ build_explored_graph_index (interned_name interner_new) toggle_step (explored toggle_result) = inr (graph_of toggle_step).
Proof. split; [|split]; vm_compute; reflexivity. Qed.

Lemma toggle_reach n s : reachable_in [VInt 0] toggle_step n s -> s = VInt 0 \/ s = VInt 1.
Proof.
  induction 1 as [s ->%list_elem_of_singleton|n a s t _ IH (l & [= <-] & Ht)]; [by left|].
  case_match; [apply elem_of_cons in Ht as [[= _ ->]|Ht]; [by left|]|]; apply list_elem_of_singleton in Ht as [= _ ->];
    [by right|by left].
Qed.

Lemma toggle_ok s : s = VInt 0 \/ s = VInt 1 -> value_ok s /\ printable interner_new s.
Proof. by intros [-> | ->]. Qed.

Lemma toggle_program : program_ok interner_new [VInt 0] toggle_step.
Proof.
  split; [apply interner_new_ok|by intros n s ?%toggle_reach; apply toggle_ok|].
  intros n s s' a t l' Hs%toggle_reach Heq (l & Hl & Ht) Hl'.
  assert (s' = s) as -> by (destruct Hs as [-> | ->], s' as [| |m| | | | | | | |]; cbn in Heq; try done;
    apply bool_decide_eq_true in Heq; by subst).
  rewrite Hl in Hl'. injection Hl' as <-. exists (MkSuccessor a t). split; [done|]. cbn.
  assert (t = VInt 0 \/ t = VInt 1) as [Hok _]%toggle_ok.
  { destruct Hs as [-> | ->]; injection Hl as <-; cbn in Ht; rewrite !elem_of_cons, elem_of_nil in Ht; naive_solver. }
  by apply (value_eqb_tree _ Hok _ Hok).
Qed.

Lemma leads_to_violation_is_genuine_witness :
  exists trace s t l, violating_run [VInt 0] toggle_step from_zero trace s t l
    /\ fair_states toggle_step fair_go (s :: t :: l).
Proof.
  destruct (leads_to_violation_is_genuine interner_new (fun _ => 0) (fun _ => 0) [VInt 0] Bfs (counter_limits 5) true
    toggle_step (fun _ _ => inr None) (fun _ => false) toggle_result (graph_of toggle_step) [from_zero] fair_go
    toggle_program (proj1 toggle_searched) (proj1 (proj2 toggle_searched)) (proj2 (proj2 toggle_searched))) as [(res & Hres & H) _].
  assert (match check_leads_to_violations (interned_name interner_new) (graph_of toggle_step) [from_zero] fair_go with
    | Some (inr (Some _)) => true | _ => false end = true) as Hv by (vm_compute; reflexivity).
  rewrite Hres in Hv. destruct res as [e|[v|]]; [discriminate| |discriminate].
  destruct (H v eq_refl) as (ob & s & t & l & Hob & _ & Hrun & Hfair).
  apply list_elem_of_singleton in Hob as ->. exists (leads_to_counterexample v), s, t, l.
  split; [exact Hrun|apply Hfair; vm_compute; reflexivity].
Defined.


(** ** Transitions out of the explored states *)

(** [leads_to_violation_is_genuine] needs its condition on the transitions that leave
    the explored states: with a bound of 0 on the depth the toggle's second state is
    not explored, the index drops the branch that leads there, and the check reports
    a cycle that is not fair, since the program enables the branch in its state. *)
Lemma depth_bound_hides_fair_branches :
  exists r g v, explore_with_traces (interned_name interner_new) (fun _ => 0) (fun _ => 0) [VInt 0] Bfs (counter_limits 0)
       Canonical [] true toggle_step (fun _ _ => inr None) (fun _ => false) = Some (inr r)
    /\ stop_reason r = FrontierExhausted
    /\ build_explored_graph_index (interned_name interner_new) toggle_step (explored r) = inr g
    /\ edges_to_unexplored (graph_stats g) = 1
    /\ check_leads_to_violations (interned_name interner_new) g [zero_to_one] fair_go = Some (inr (Some v))
    /\ violating_edge v = MkEdge (str "int:0") (str "int:0")
    /\ enabled toggle_step (str "go") (VInt 0) /\ ~ moves toggle_step (str "go") (VInt 0) (VInt 0).
Proof.
  eexists _, _, _. split; [vm_compute; reflexivity|]. split; [reflexivity|]. split; [vm_compute; reflexivity|].
  split; [reflexivity|]. split; [vm_compute; reflexivity|]. split; [reflexivity|]. split.
  - exists (VInt 1). eexists. split; [reflexivity|]. by right; left.
  - intros (t & (l & [= <-] & Ht) & Heq). apply elem_of_cons in Ht as [[=]|Ht].
    apply list_elem_of_singleton in Ht as [= ->]. discriminate.
Qed.

(** ** Depth first, a bound loses states *)

(** Five leaves a path of three steps, whose middle the search meets first at the
    bound. *)
Definition ladder_step (s : RuntimeValue) : TranspileResult (list TracedSuccessor) :=
  let go n := MkSuccessor (str "go") (VInt n) in
  match s with
  | VInt 0 => inr [go 1; go 3]
  | VInt 1 => inr [go 2]
  | VInt 2 => inr [go 4]
  | VInt 3 => inr [go 4]
  | VInt 4 => inr [go 5]
  | _ => inr []
  end.

(** [exhausted_search_is_complete] needs its condition on the depth: a depth-first
    search with a bound can exhaust its frontier and miss a state within the bound. *)
Lemma depth_first_misses_states :
  reachable_in [VInt 0] ladder_step 3 (VInt 5)
  /\ exists r, explore_with_traces (fun _ => []) (fun _ => 0) (fun _ => 0) [VInt 0] Dfs (counter_limits 3)
       Canonical [] false ladder_step (fun _ _ => inr None) (fun _ => false) = Some (inr r)
     /\ stop_reason r = FrontierExhausted /\ explored_state <$> explored r = [VInt 0; VInt 1; VInt 2; VInt 4; VInt 3].
Proof.
  split.
  - apply (reachable_step _ _ 2 (str "go") (VInt 4)); [|eexists; split; [reflexivity|by left]].
    apply (reachable_step _ _ 1 (str "go") (VInt 3)); [|eexists; split; [reflexivity|by left]].
    apply (reachable_step _ _ 0 (str "go") (VInt 0)); [apply reachable_initial; by left|].
    eexists. split; [reflexivity|by right; left].
  - eexists. split; [vm_compute; reflexivity|]. split; reflexivity.
Qed.
