(* ===== verification/SpecAst.v ===== *)
(** * The expressions of specifications

    transpiler/src/ast/mod.rs: paths, types, patterns and expressions, with an
    induction principle that goes through the lists in them.  Triggers of
    quantifiers, which nothing reads, are kept as data. *)

From stdpp Require Import prelude list numbers strings.
From Stdlib Require Import ZArith Lia.
From S2P Require Import Prelude.
From S2P Require Import RuntimeValue.

#[local] Open Scope Z_scope.

Record Path := MkPath { segments : list Str }.

Inductive Ty :=
  | TNamed (name : Path)
  | TGeneric (name : Path) (args : list Ty)
  | TTuple (items : list Ty)
  | TSeq (item : Ty)
  | TSet (item : Ty)
  | TMap (key value : Ty)
  | TReference (ty : Ty) (mutable : bool)
  | TBool | TInt | TNat | TUnit.

Inductive VariableMode := Exec | Ghost | Tracked.

Inductive Literal := LBool (b : bool) | LInt (n : Z) | LString (s : Str).

Inductive Pattern :=
  | PWildcard
  | PIdent (name : Str)
  | PTuple (items : list Pattern)
  | PStruct (name : Path) (fields : list (Str * Pattern))
  | PVariant (name : Path) (fields : list Pattern)
  | PLiteral (lit : Literal).

Record Binding := MkBinding { pattern : Pattern; binding_ty : option Ty; variable_mode : VariableMode }.

(** [Binding::name]. *)
Definition binding_name (b : Binding) : option Str :=
  match pattern b with PIdent name => Some name | _ => None end.

Inductive BinOp := Add | Sub | Mul | Div | Mod | And | Or | BitAnd | BitOr | BitXor | Shl | Shr.
Inductive UnaryOp := UNot | UNeg | UDeref.

#[export] Instance BinOp_eq_dec : EqDecision BinOp.
Proof. solve_decision. Defined.

(** A match arm is its pattern, its guard and its body. *)
Inductive Expr :=
  | EConjunction (items : list Expr)
  | EDisjunction (items : list Expr)
  | EImplies (lhs rhs : Expr)
  | EIff (lhs rhs : Expr)
  | ENot (inner : Expr)
  | EForall (vars : list Binding) (triggers : list (list Expr)) (body : Expr)
  | EExists (vars : list Binding) (body : Expr)
  | EClosure (params : list Binding) (body : Expr)
  | EChoose (vars : list Binding) (body : Expr)
  | EIf (cond then_branch : Expr) (else_branch : option Expr)
  | EMatch (scrutinee : Expr) (arms : list (Pattern * option Expr * Expr))
  | ELet (binding : Binding) (value body : Expr)
  | EEq (lhs rhs : Expr) | ENe (lhs rhs : Expr)
  | ELt (lhs rhs : Expr) | ELe (lhs rhs : Expr) | EGt (lhs rhs : Expr) | EGe (lhs rhs : Expr)
  | EIs (base : Expr) (variant : Str)
  | EField (base : Expr) (field : Str)
  | EIndex (base idx : Expr)
  | EArrow (base : Expr) (field : Str)
  | EStruct (name : Path) (fields : list (Str * Expr))
  | EStructUpdate (name : option Path) (base : Expr) (fields : list (Str * Expr))
  | ESeqLit (items : list Expr) | ESetLit (items : list Expr) | EMapLit (entries : list (Expr * Expr))
  | ESeqEmpty | ESetEmpty | EMapEmpty
  | ECall (func : Path) (args : list Expr)
  | EMethodCall (receiver : Expr) (method : Str) (args : list Expr)
  | EView (inner : Expr)
  | ECast (inner : Expr) (ty : Ty)
  | EIdent (name : Str)
  | ELiteral (lit : Literal)
  | EBinary (lhs : Expr) (op : BinOp) (rhs : Expr)
  | EUnary (op : UnaryOp) (inner : Expr)
  | EConstantValue (v : RuntimeValue).

(** ** Induction *)

Definition option_all {A} (P : A -> Prop) (o : option A) : Prop := match o with Some x => P x | None => True end.

Section induction.
Context (P : Expr -> Prop).
Context
  (Hconj : forall items, Forall P items -> P (EConjunction items))
  (Hdisj : forall items, Forall P items -> P (EDisjunction items))
  (Himplies : forall a b, P a -> P b -> P (EImplies a b))
  (Hiff : forall a b, P a -> P b -> P (EIff a b))
  (Hnot : forall a, P a -> P (ENot a))
  (Hforall : forall vars triggers body, P body -> P (EForall vars triggers body))
  (Hexists : forall vars body, P body -> P (EExists vars body))
  (Hclosure : forall params body, P body -> P (EClosure params body))
  (Hchoose : forall vars body, P body -> P (EChoose vars body))
  (Hif : forall c t e, P c -> P t -> option_all P e -> P (EIf c t e))
  (Hmatch : forall s arms, P s -> Forall (fun arm => option_all P arm.1.2 /\ P arm.2) arms -> P (EMatch s arms))
  (Hlet : forall b v e, P v -> P e -> P (ELet b v e))
  (Heq : forall a b, P a -> P b -> P (EEq a b)) (Hne : forall a b, P a -> P b -> P (ENe a b))
  (Hlt : forall a b, P a -> P b -> P (ELt a b)) (Hle : forall a b, P a -> P b -> P (ELe a b))
  (Hgt : forall a b, P a -> P b -> P (EGt a b)) (Hge : forall a b, P a -> P b -> P (EGe a b))
  (His : forall a v, P a -> P (EIs a v))
  (Hfield : forall a f, P a -> P (EField a f))
  (Hindex : forall a b, P a -> P b -> P (EIndex a b))
  (Harrow : forall a f, P a -> P (EArrow a f))
  (Hstruct : forall name fields, Forall (fun p => P p.2) fields -> P (EStruct name fields))
  (Hupdate : forall name base fields, P base -> Forall (fun p => P p.2) fields -> P (EStructUpdate name base fields))
  (Hseq : forall items, Forall P items -> P (ESeqLit items))
  (Hset : forall items, Forall P items -> P (ESetLit items))
  (Hmap : forall entries, Forall (fun p => P p.1 /\ P p.2) entries -> P (EMapLit entries))
  (Hseq0 : P ESeqEmpty) (Hset0 : P ESetEmpty) (Hmap0 : P EMapEmpty)
  (Hcall : forall func args, Forall P args -> P (ECall func args))
  (Hmethod : forall r m args, P r -> Forall P args -> P (EMethodCall r m args))
  (Hview : forall a, P a -> P (EView a))
  (Hcast : forall a ty, P a -> P (ECast a ty))
  (Hident : forall name, P (EIdent name))
  (Hliteral : forall lit, P (ELiteral lit))
  (Hbinary : forall a op b, P a -> P b -> P (EBinary a op b))
  (Hunary : forall op a, P a -> P (EUnary op a))
  (Hconst : forall v, P (EConstantValue v)).

Fixpoint expr_ind (e : Expr) : P e :=
  let exprs := fix exprs l : Forall P l :=
    match l with [] => Forall_nil_2 P | e :: l => Forall_cons_2 P e l (expr_ind e) (exprs l) end in
  let fields := fix fields (l : list (Str * Expr)) : Forall (fun p => P p.2) l :=
    match l with
    | [] => Forall_nil_2 _
    | p :: l => Forall_cons_2 (fun p => P p.2) p l (expr_ind p.2) (fields l)
    end in
  let entries := fix entries (l : list (Expr * Expr)) : Forall (fun p => P p.1 /\ P p.2) l :=
    match l with
    | [] => Forall_nil_2 _
    | p :: l => Forall_cons_2 (fun p => P p.1 /\ P p.2) p l (conj (expr_ind p.1) (expr_ind p.2)) (entries l)
    end in
  let opt := fun o : option Expr =>
    match o return option_all P o with Some e => expr_ind e | None => I end in
  let arms := fix arms (l : list (Pattern * option Expr * Expr)) : Forall (fun arm => option_all P arm.1.2 /\ P arm.2) l :=
    match l with
    | [] => Forall_nil_2 _
    | a :: l => Forall_cons_2 (fun arm => option_all P arm.1.2 /\ P arm.2) a l (conj (opt a.1.2) (expr_ind a.2)) (arms l)
    end in
  match e with
  | EConjunction l => Hconj l (exprs l)
  | EDisjunction l => Hdisj l (exprs l)
  | EImplies a b => Himplies a b (expr_ind a) (expr_ind b)
  | EIff a b => Hiff a b (expr_ind a) (expr_ind b)
  | ENot a => Hnot a (expr_ind a)
  | EForall vars ts body => Hforall vars ts body (expr_ind body)
  | EExists vars body => Hexists vars body (expr_ind body)
  | EClosure ps body => Hclosure ps body (expr_ind body)
  | EChoose vars body => Hchoose vars body (expr_ind body)
  | EIf c t f => Hif c t f (expr_ind c) (expr_ind t) (opt f)
  | EMatch s l => Hmatch s l (expr_ind s) (arms l)
  | ELet b v body => Hlet b v body (expr_ind v) (expr_ind body)
  | EEq a b => Heq a b (expr_ind a) (expr_ind b)
  | ENe a b => Hne a b (expr_ind a) (expr_ind b)
  | ELt a b => Hlt a b (expr_ind a) (expr_ind b)
  | ELe a b => Hle a b (expr_ind a) (expr_ind b)
  | EGt a b => Hgt a b (expr_ind a) (expr_ind b)
  | EGe a b => Hge a b (expr_ind a) (expr_ind b)
  | EIs a v => His a v (expr_ind a)
  | EField a f => Hfield a f (expr_ind a)
  | EIndex a b => Hindex a b (expr_ind a) (expr_ind b)
  | EArrow a f => Harrow a f (expr_ind a)
  | EStruct name fs => Hstruct name fs (fields fs)
  | EStructUpdate name base fs => Hupdate name base fs (expr_ind base) (fields fs)
  | ESeqLit l => Hseq l (exprs l)
  | ESetLit l => Hset l (exprs l)
  | EMapLit l => Hmap l (entries l)
  | ESeqEmpty => Hseq0 | ESetEmpty => Hset0 | EMapEmpty => Hmap0
  | ECall f l => Hcall f l (exprs l)
  | EMethodCall r m l => Hmethod r m l (expr_ind r) (exprs l)
  | EView a => Hview a (expr_ind a)
  | ECast a ty => Hcast a ty (expr_ind a)
  | EIdent name => Hident name
  | ELiteral lit => Hliteral lit
  | EBinary a op b => Hbinary a op b (expr_ind a) (expr_ind b)
  | EUnary op a => Hunary op a (expr_ind a)
  | EConstantValue v => Hconst v
  end.
End induction.

Fixpoint pattern_ind' (P : Pattern -> Prop) (Hwild : P PWildcard) (Hident : forall name, P (PIdent name))
    (Htuple : forall items, Forall P items -> P (PTuple items))
    (Hstruct : forall name fields, Forall (fun p => P p.2) fields -> P (PStruct name fields))
    (Hvariant : forall name fields, Forall P fields -> P (PVariant name fields))
    (Hlit : forall lit, P (PLiteral lit)) (p : Pattern) : P p :=
  let rec := pattern_ind' P Hwild Hident Htuple Hstruct Hvariant Hlit in
  let list := fix go l : Forall P l :=
    match l with [] => Forall_nil_2 P | p :: l => Forall_cons_2 P p l (rec p) (go l) end in
  match p with
  | PWildcard => Hwild
  | PIdent name => Hident name
  | PTuple items => Htuple items (list items)
  | PStruct name fields => Hstruct name fields
      ((fix go (l : Datatypes.list (Str * Pattern)) : Forall (fun p => P p.2) l :=
        match l with [] => Forall_nil_2 _ | p :: l => Forall_cons_2 (fun p => P p.2) p l (rec p.2) (go l) end) fields)
  | PVariant name fields => Hvariant name fields (list fields)
  | PLiteral lit => Hlit lit
  end.
