(* ===== verification/EvalOps.v ===== *)
(** * Operations of the evaluator on values

    transpiler/src/modelcheck/evaluator.rs: what the evaluator and the bytecode
    machine share.  Arithmetic, checks of types, methods and calls that are built in,
    paths as text.  An error is its kind ([TranspileError] without the message); a
    panic is a result of its own.  Arithmetic of 128 bits wraps around, as it does in
    a release build, but for the division that overflows, which panics. *)

From stdpp Require Import prelude gmap sets list numbers fin_sets strings.
From Stdlib Require Import ZArith Lia.
From S2P Require Import Prelude.
From S2P Require Import Ordering.
From S2P Require Import SmallIntSet.
From S2P Require Import RuntimeValue.
From S2P Require Import SpecAst.

#[local] Open Scope Z_scope.

(** ** Results *)

Inductive ErrorKind := Config | UnsupportedPattern.

Inductive Res (A : Type) := Ok (x : A) | Err (e : ErrorKind) | Panic.
Arguments Ok {A} _.
Arguments Err {A} _.
Arguments Panic {A}.

#[export] Instance res_bind : MBind Res := fun A B f r =>
  match r with Ok x => f x | Err e => Err e | Panic => Panic end.
#[export] Instance res_ret : MRet Res := fun A x => Ok x.

(** [type_error], [unsupported_construct]. *)
Definition type_error {A} : Res A := Err Config.
Definition unsupported_construct {A} : Res A := Err UnsupportedPattern.

(** [ok_or], and [?] on a [RuntimeResult]. *)
Definition ok_or {A} (e : ErrorKind) (o : option A) : Res A := match o with Some x => Ok x | None => Err e end.

(** Where [unwrap] or indexing panics. *)
Definition or_panic {A} (o : option A) : Res A := match o with Some x => Ok x | None => Panic end.

(** ** Text *)

(** Whether [s] starts with [p]. *)
Fixpoint starts_with (p s : Str) : bool :=
  match p, s with
  | [], _ => true
  | c :: p, d :: s => bool_decide (c = d) && starts_with p s
  | _, [] => false
  end.

(** [str::find]: where the pattern first occurs. *)
Fixpoint str_find (p s : Str) : option nat :=
  if starts_with p s then Some 0%nat
  else match s with [] => None | _ :: s => S <$> str_find p s end.

Definition str_contains (p s : Str) : bool := if str_find p s then true else false.

(** [str::rfind] of a character. *)
Fixpoint char_rfind (c : Z) (s : Str) : option nat :=
  match s with
  | [] => None
  | d :: s =>
      match char_rfind c s with Some n => Some (S n) | None => if decide (d = c) then Some 0%nat else None end
  end.

(** [split("::")]; [acc] is the current part, reversed. *)
Fixpoint split_colons (s acc : Str) : list Str :=
  match s with
  | [] => [reverse acc]
  | c :: s' =>
      match s' with
      | d :: s'' => if decide (c = 58 /\ d = 58) then reverse acc :: split_colons s'' [] else split_colons s' (c :: acc)
      | [] => split_colons s' (c :: acc)
      end
  end.
Definition split_path (s : Str) : list Str := split_colons s [].

(** [str::trim], of white space in ASCII. *)
Definition is_space (c : Z) : bool := bool_decide (c = 32 \/ 9 <= c <= 13).
Fixpoint trim_start (s : Str) : Str :=
  match s with c :: s' => if is_space c then trim_start s' else s | [] => [] end.
Definition trim (s : Str) : Str := reverse (trim_start (reverse (trim_start s))).

(** The text before the type arguments. *)
Definition cut_generics (s : Str) : Str :=
  match str_find (str "::<") s with Some n => take n s | None => s end.

Definition path_name (p : Path) : Str := join (str "::") (segments p).

Definition normalized_path_segments (p : Path) : list Str :=
  concat ((fun s => split_path (cut_generics s)) <$> segments p).

Definition normalized_runtime_path_segments (path : Str) : list Str :=
  filter (fun s => s <> []) (cut_generics <$> split_path path).

Definition split_variant_path (path : Str) : option (Str * Str) :=
  let collected := split_path path in
  if decide (length collected < 2)%nat then None
  else
    variant ← last collected;
    let ty := join (str "::") (removelast collected) in
    if decide (ty = [] \/ variant = []) then None else Some (ty, variant).

Definition path_matches_runtime_type (p : Path) (runtime_ty : Str) : bool :=
  bool_decide (normalized_path_segments p = normalized_runtime_path_segments runtime_ty).

Definition path_matches_enum_variant (p : Path) (runtime_ty runtime_variant : Str) : bool :=
  match normalized_path_segments p with
  | [] => false
  | [s] => bool_decide (s = runtime_variant)
  | ss =>
      bool_decide (last ss = Some runtime_variant)
      && bool_decide (removelast ss = normalized_runtime_path_segments runtime_ty)
  end.

(** ** Checks *)

Definition expect_bool (v : RuntimeValue) : Res bool := match v with VBool b => Ok b | _ => type_error end.

Definition expect_number (v : RuntimeValue) : Res Z := match v with VInt n | VNat n => Ok n | _ => type_error end.

(** [usize] has 64 bits. *)
Definition expect_index (v : RuntimeValue) : Res Z :=
  idx ← expect_number v;
  if decide (idx < 0) then type_error else if decide (idx < U64_MODULUS) then Ok idx else type_error.

(** ** Arithmetic *)

(** [/] and [%] of [i128] panic on the overflow of MIN / -1. *)
Definition i128_div (l r : Z) : Res Z := if decide (l = - I128_HALF /\ r = -1) then Panic else Ok (Z.quot l r).
Definition i128_rem (l r : Z) : Res Z := if decide (l = - I128_HALF /\ r = -1) then Panic else Ok (Z.rem l r).

Definition eval_binary (lhs : RuntimeValue) (op : BinOp) (rhs : RuntimeValue) : Res RuntimeValue :=
  match op with
  | Add => l ← expect_number lhs; r ← expect_number rhs; Ok (VInt (i128_wrap (l + r)))
  | Sub => l ← expect_number lhs; r ← expect_number rhs; Ok (VInt (i128_wrap (l - r)))
  | Mul => l ← expect_number lhs; r ← expect_number rhs; Ok (VInt (i128_wrap (l * r)))
  | Div =>
      r ← expect_number rhs;
      if decide (r = 0) then type_error else l ← expect_number lhs; q ← i128_div l r; Ok (VInt q)
  | Mod =>
      r ← expect_number rhs;
      if decide (r = 0) then type_error else l ← expect_number lhs; q ← i128_rem l r; Ok (VInt q)
  | And => l ← expect_bool lhs; if (l : bool) then r ← expect_bool rhs; Ok (VBool r) else Ok (VBool false)
  | Or => l ← expect_bool lhs; if (l : bool) then Ok (VBool true) else r ← expect_bool rhs; Ok (VBool r)
  | BitAnd | BitOr | BitXor | Shl | Shr => unsupported_construct
  end.

Definition neg_number (v : RuntimeValue) : Res RuntimeValue := n ← expect_number v; Ok (VInt (i128_wrap (- n))).
Definition not_bool (v : RuntimeValue) : Res RuntimeValue := b ← expect_bool v; Ok (VBool (negb b)).

Definition eval_unary (op : UnaryOp) (v : RuntimeValue) : Res RuntimeValue :=
  match op with UNot => not_bool v | UNeg => neg_number v | UDeref => Ok v end.

Definition cast_value (v : RuntimeValue) (ty : Ty) : Res RuntimeValue :=
  match ty with
  | TInt => n ← expect_number v; Ok (VInt n)
  | TNat => n ← expect_number v; if decide (n < 0) then type_error else Ok (VNat (n mod U64_MODULUS))
  | TBool => b ← expect_bool v; Ok (VBool b)
  | _ => unsupported_construct
  end.

(** ** Maps and indexing *)

(** [BTreeMap::get]. *)
Fixpoint map_get (key : RuntimeValue) (m : list (RuntimeValue * RuntimeValue)) : option RuntimeValue :=
  match m with
  | [] => None
  | p :: m => match value_compare key p.1 with Lt => None | Eq => Some p.2 | Gt => map_get key m end
  end.

(** [BTreeMap::insert], which keeps the key of an entry it replaces. *)
Fixpoint map_set (key value : RuntimeValue) (m : list (RuntimeValue * RuntimeValue))
  : list (RuntimeValue * RuntimeValue) :=
  match m with
  | [] => [(key, value)]
  | p :: m' =>
      match value_compare key p.1 with
      | Lt => (key, value) :: m
      | Eq => (p.1, value) :: m'
      | Gt => p :: map_set key value m'
      end
  end.

(** [Expr::Index]; [missing] is what happens when there is no such element. *)
Definition index_value (missing : Res RuntimeValue) (base idx : RuntimeValue) : Res RuntimeValue :=
  match base with
  | VSeq items | VTuple items =>
      position ← expect_index idx;
      match seq_get items position with Some v => Ok v | None => missing end
  | VMap entries => match map_get idx entries with Some v => Ok v | None => missing end
  | _ => type_error
  end.

(** ** Built-in methods and calls *)

Definition len_of (receiver : RuntimeValue) : Res Z :=
  match receiver with
  | VSeq items | VTuple items => Ok (seq_len items)
  | VSet r => Ok (set_len r)
  | VMap entries => Ok (seq_len entries)
  | VString s => Ok (seq_len s)
  | _ => type_error
  end.

(** [RuntimeError] becomes [TranspileError::Config]. *)
Definition bounded (o : option RuntimeValue) : Res RuntimeValue := ok_or Config o.

Definition set_method (f : SetRepr RuntimeValue -> SetRepr RuntimeValue -> SetRepr RuntimeValue)
    (receiver : RuntimeValue) (args : list RuntimeValue) : Res (option RuntimeValue) :=
  match args, receiver with
  | [VSet b], VSet a => Ok (Some (VSet (f a b)))
  | _, _ => type_error
  end.

Definition eval_builtin_method (receiver : RuntimeValue) (method : Str) (args : list RuntimeValue)
    (bounds : RuntimeCollectionBounds) : Res (option RuntimeValue) :=
  if decide (method = str "len") then
    if decide (args = []) then n ← len_of receiver; Ok (Some (VNat (n mod U64_MODULUS))) else type_error
  else if decide (method = str "contains") then
    match args, receiver with
    | [needle], VSet r => Ok (Some (VBool (set_contains r needle)))
    | [needle], VSeq items => Ok (Some (VBool (existsb (fun item => value_eqb item needle) items)))
    | _, _ => type_error
    end
  else if decide (method = str "contains_key") then
    match args, receiver with
    | [needle], VMap entries => Ok (Some (VBool (bool_decide (is_Some (map_get needle entries)))))
    | _, _ => type_error
    end
  else if decide (method = str "dom") then
    match args, receiver with
    | [], VMap entries => Ok (Some (VSet (set_from_values entries.*1)))
    | _, _ => type_error
    end
  else if decide (method = str "insert") then
    match receiver, args with
    | VSet r, [x] => Ok (Some (VSet (set_insert r x).1))
    | VMap entries, [key; value] => Ok (Some (VMap (map_set key value entries)))
    | _, _ => type_error
    end
  else if decide (method = str "remove") then
    match args, receiver with
    | [x], VSet r => Ok (Some (VSet (set_remove r x).1))
    | _, _ => type_error
    end
  else if decide (method = str "union") then set_method set_union receiver args
  else if decide (method = str "difference") then set_method set_difference receiver args
  else if decide (method = str "intersect" \/ method = str "intersection") then set_method set_intersection receiver args
  else if decide (method = str "push") then
    match args, receiver with
    | [x], VSeq items => v ← bounded (seq_bounded (items ++ [x]) bounds); Ok (Some v)
    | _, _ => type_error
    end
  else Ok None.

(** The type argument of [arbitrary::<...>], as it is written. *)
Definition arbitrary_hint (raw_path : Str) : option Str :=
  idx ← str_find (str "arbitrary::<") raw_path;
  let rest := drop (idx + 12) raw_path in
  end_ ← char_rfind 62 rest;
  Some (trim (take end_ rest)).

Definition hint_is (ty : Str) (s : string) : bool := bool_decide (ty = str s).

Definition eval_arbitrary_call (raw_path : Str) (bounds : RuntimeCollectionBounds) : Res (option RuntimeValue) :=
  if str_contains (str "arbitrary::<") raw_path
     || (match last (split_path raw_path) with Some s => hint_is (trim s) "arbitrary" | None => false end) then
    value ← (match arbitrary_hint raw_path with
      | Some ty =>
          if hint_is ty "bool" then Ok (VBool false)
          else if hint_is ty "nat" || hint_is ty "u64" || hint_is ty "u32" || hint_is ty "u16" || hint_is ty "u8"
                  || hint_is ty "usize" then Ok (VNat 0)
          else if hint_is ty "Seq<char>" || hint_is ty "vstd::seq::Seq<char>" then Ok (VString [])
          else if starts_with (str "Seq<") ty || str_contains (str "::Seq<") ty then bounded (seq_bounded [] bounds)
          else if starts_with (str "Set<") ty || str_contains (str "::Set<") ty then bounded (set_bounded [] bounds)
          else if starts_with (str "Map<") ty || str_contains (str "::Map<") ty then bounded (map_bounded [] bounds)
          else Ok (VInt 0)
      | None => Ok (VInt 0)
      end);
    Ok (Some value)
  else Ok None.

Definition eval_builtin_static_call (func : Path) (args : list RuntimeValue) (bounds : RuntimeCollectionBounds)
  : Res (option RuntimeValue) :=
  arbitrary ← (match args with [] => eval_arbitrary_call (path_name func) bounds | _ => Ok None end);
  match arbitrary with
  | Some v => Ok (Some v)
  | None =>
      match normalized_path_segments func, args with
      | [a; b], [] =>
          if decide (b = str "empty") then
            if decide (a = str "Seq") then v ← bounded (seq_bounded [] bounds); Ok (Some v)
            else if decide (a = str "Set") then v ← bounded (set_bounded [] bounds); Ok (Some v)
            else if decide (a = str "Map") then v ← bounded (map_bounded [] bounds); Ok (Some v)
            else Ok None
          else Ok None
      | _, _ => Ok None
      end
  end.

(** ** Structs

    The handles that the interner gives to names, which never change once given, are
    taken as they are in the end. *)

Class Handles := { handle_name : Symbol -> Str; handle : Str -> Symbol }.

(** Names are read back from their handles (symbol.rs, [intern] and [resolve]). *)
Class HandlesOk `{Handles} : Prop := name_handle : forall s, handle_name (handle s) = s.

Section structs.
Context `{Handles}.

(** [collect_named_fields] with handles; an error on a name that occurs twice. *)
Fixpoint named_fields (out : NamedFields) (fields : list (Str * RuntimeValue)) : option NamedFields :=
  match fields with
  | [] => Some out
  | (name, value) :: fields =>
      match fields_insert out (handle name) value with
      | (_, Some _) => None
      | (out, None) => named_fields out fields
      end
  end.

Definition struct_value (ty : Str) (fields : list (Str * RuntimeValue)) : Res RuntimeValue :=
  fs ← ok_or Config (named_fields [] fields); Ok (VStruct ty fs).
Definition enum_value (ty variant : Str) (fields : list (Str * RuntimeValue)) : Res RuntimeValue :=
  fs ← ok_or Config (named_fields [] fields); Ok (VEnum ty variant fs).

(** [NamedFields::from_iter], a stable sort. *)
Fixpoint insert_by_symbol (p : Symbol * RuntimeValue) (fields : NamedFields) : NamedFields :=
  match fields with
  | [] => [p]
  | q :: fields' => if decide (p.1 <= q.1) then p :: fields else q :: insert_by_symbol p fields'
  end.
Definition fields_from_iter (l : list (Symbol * RuntimeValue)) : NamedFields := foldr insert_by_symbol [] l.

Definition struct_value_sym (ty : Str) (fields : NamedFields) : RuntimeValue := VStruct ty (fields_from_iter fields).
Definition enum_value_sym (ty variant : Str) (fields : NamedFields) : RuntimeValue :=
  VEnum ty variant (fields_from_iter fields).

Definition contains_key (fields : NamedFields) (key : Symbol) : bool :=
  if fields_get fields key then true else false.

Definition value_field (v : RuntimeValue) (name : Str) : option RuntimeValue := field_sym v (handle name).

(** A struct literal, or the variant of an enum when the path names one. *)
Definition new_struct (ty_or_variant : Str) (fields : list (Str * RuntimeValue)) : Res RuntimeValue :=
  match split_variant_path ty_or_variant with
  | Some (ty, variant) => enum_value ty variant fields
  | None => struct_value ty_or_variant fields
  end.

Definition validate_struct_update_target (expected_name : option Path) (runtime_ty : Str)
    (runtime_variant : option Str) : Res unit :=
  match expected_name with
  | None => Ok tt
  | Some p =>
      if decide (segments p = []) then Ok tt
      else
        let matches :=
          match runtime_variant with
          | Some v => path_matches_runtime_type p runtime_ty || path_matches_enum_variant p runtime_ty v
          | None => path_matches_runtime_type p runtime_ty
          end in
        if (matches : bool) then Ok tt else type_error
  end.

(** The updates of existing fields; an error on a field that does not exist. *)
Fixpoint update_fields (fields : NamedFields) (updates : list (Str * RuntimeValue)) : Res NamedFields :=
  match updates with
  | [] => Ok fields
  | (field, value) :: updates =>
      if contains_key fields (handle field) then update_fields (fields_insert fields (handle field) value).1 updates
      else type_error
  end.

Definition apply_struct_update (expected_name : option Path) (base : RuntimeValue)
    (updates : list (Str * RuntimeValue)) : Res RuntimeValue :=
  match base with
  | VStruct ty fields =>
      _ ← validate_struct_update_target expected_name ty None;
      fields ← update_fields fields updates; Ok (struct_value_sym ty fields)
  | VEnum ty variant fields =>
      _ ← validate_struct_update_target expected_name ty (Some variant);
      fields ← update_fields fields updates; Ok (enum_value_sym ty variant fields)
  | _ => type_error
  end.
End structs.
