(* ===== verification/Evaluator.v ===== *)
(** * The evaluator of specification expressions

    transpiler/src/modelcheck/evaluator.rs: [eval_expr] and what it calls.  The stack
    of bindings is an argument, the newest binding first; a scope is what a call is
    given, and is left when the call returns.  Profiling is left out. *)

From stdpp Require Import prelude gmap sets list numbers fin_sets strings.
From Stdlib Require Import ZArith Lia.
From S2P Require Import Prelude.
From S2P Require Import RuntimeValue.
From S2P Require Import SpecAst.
From S2P Require Import EvalOps.

#[local] Open Scope Z_scope.

Abbreviation Bindings := (list (Str * RuntimeValue)).

(** [EvalContext] without its bindings. *)
Record EvalContext := MkEvalContext {
  bounds : RuntimeCollectionBounds;
  call_evaluator : option (Path -> list RuntimeValue -> Res RuntimeValue);
  method_evaluator : option (RuntimeValue -> Str -> list RuntimeValue -> Res RuntimeValue);
  quantifier_domain_evaluator : option (Binding -> Res (list RuntimeValue)) }.

Fixpoint get_binding (name : Str) (bindings : Bindings) : option RuntimeValue :=
  match bindings with
  | [] => None
  | (k, v) :: bindings => if decide (k = name) then Some v else get_binding name bindings
  end.

Inductive QuantifierKind := Forall_ | Exists_.

Definition literal_value (lit : Literal) : RuntimeValue :=
  match lit with LBool b => VBool b | LInt n => VInt n | LString s => VString s end.

(** ** Patterns *)

Definition match_literal_pattern (lit : Literal) (v : RuntimeValue) : bool :=
  match lit, v with
  | LBool expected, VBool actual => bool_decide (actual = expected)
  | LInt expected, VInt actual => bool_decide (actual = expected)
  | LInt expected, VNat actual => bool_decide (0 <= expected) && bool_decide (actual = expected)
  | LString expected, VString actual => bool_decide (actual = expected)
  | _, _ => false
  end.

Section patterns.
Context `{Handles}.

Section loops.
Context (match_pattern : Pattern -> RuntimeValue -> Bindings -> option Bindings).

Fixpoint match_tuple (patterns : list Pattern) (items : list RuntimeValue) (bs : Bindings) : option Bindings :=
  match patterns, items with
  | p :: patterns, v :: items => bs ← match_pattern p v bs; match_tuple patterns items bs
  | _, _ => Some bs
  end.

Fixpoint match_named_pattern_fields (fields : list (Str * Pattern)) (runtime_fields : NamedFields) (bs : Bindings)
  : option Bindings :=
  match fields with
  | [] => Some bs
  | (name, p) :: fields =>
      v ← fields_get runtime_fields (handle name);
      bs ← match_pattern p v bs;
      match_named_pattern_fields fields runtime_fields bs
  end.

(** The field at a position is [_i], or else [i]. *)
Fixpoint match_positions (idx : Z) (fields : list Pattern) (runtime_fields : NamedFields) (bs : Bindings)
  : option Bindings :=
  match fields with
  | [] => Some bs
  | p :: fields =>
      v ← (match fields_get runtime_fields (handle (str "_" ++ show_int idx)) with
           | Some v => Some v
           | None => fields_get runtime_fields (handle (show_int idx))
           end);
      bs ← match_pattern p v bs;
      match_positions (idx + 1) fields runtime_fields bs
  end.

Definition match_variant_pattern_fields (fields : list Pattern) (runtime_fields : NamedFields) (bs : Bindings)
  : option Bindings :=
  if decide (length fields <> length runtime_fields) then None else match_positions 0 fields runtime_fields bs.
End loops.

(** The bindings, in the order in which they are found, that the pattern adds;
    [None] when it does not match.  A name that occurs again asks for an equal
    value. *)
Fixpoint match_pattern (p : Pattern) (v : RuntimeValue) (bs : Bindings) {struct p} : option Bindings :=
  match p with
  | PWildcard => Some bs
  | PIdent name =>
      match get_binding name bs with
      | Some existing => if value_eqb existing v then Some bs else None
      | None => Some (bs ++ [(name, v)])
      end
  | PLiteral lit => if match_literal_pattern lit v then Some bs else None
  | PTuple patterns =>
      match v with
      | VTuple items =>
          if decide (length patterns <> length items) then None else match_tuple match_pattern patterns items bs
      | _ => None
      end
  | PStruct name fields =>
      match v with
      | VStruct ty runtime_fields =>
          if path_matches_runtime_type name ty then match_named_pattern_fields match_pattern fields runtime_fields bs
          else None
      | VEnum ty variant runtime_fields =>
          if path_matches_enum_variant name ty variant
          then match_named_pattern_fields match_pattern fields runtime_fields bs else None
      | _ => None
      end
  | PVariant name fields =>
      match v with
      | VEnum ty variant runtime_fields =>
          if path_matches_enum_variant name ty variant
          then match_variant_pattern_fields match_pattern fields runtime_fields bs else None
      | _ => None
      end
  end.
End patterns.

(** ** Lists of expressions *)

Section loops.
Context (eval : Expr -> Res RuntimeValue).

Fixpoint eval_all (items : list Expr) : Res (list RuntimeValue) :=
  match items with
  | [] => Ok []
  | e :: items => v ← eval e; vs ← eval_all items; Ok (v :: vs)
  end.

Fixpoint eval_entries (entries : list (Expr * Expr)) : Res (list (RuntimeValue * RuntimeValue)) :=
  match entries with
  | [] => Ok []
  | (k, v) :: entries => k ← eval k; v ← eval v; vs ← eval_entries entries; Ok ((k, v) :: vs)
  end.

Fixpoint eval_conjunction (items : list Expr) : Res RuntimeValue :=
  match items with
  | [] => Ok (VBool true)
  | e :: items => v ← eval e; b ← expect_bool v; if (b : bool) then eval_conjunction items else Ok (VBool false)
  end.

Fixpoint eval_disjunction (items : list Expr) : Res RuntimeValue :=
  match items with
  | [] => Ok (VBool false)
  | e :: items => v ← eval e; b ← expect_bool v; if (b : bool) then Ok (VBool true) else eval_disjunction items
  end.

(** The fields of a struct literal, and its base. *)
Fixpoint eval_struct_fields (fields : list (Str * Expr)) (base : option Expr)
  : Res (list (Str * RuntimeValue) * option Expr) :=
  match fields with
  | [] => Ok ([], base)
  | (field, e) :: fields =>
      if decide (field = str "..") then
        match base with
        | Some _ => type_error
        | None => eval_struct_fields fields (Some e)
        end
      else
        v ← eval e;
        r ← eval_struct_fields fields base;
        Ok ((field, v) :: r.1, r.2)
  end.

Fixpoint eval_update_fields (fields : list (Str * Expr)) : Res (list (Str * RuntimeValue)) :=
  match fields with
  | [] => Ok []
  | (field, e) :: fields =>
      if decide (field = str "..") then type_error
      else v ← eval e; vs ← eval_update_fields fields; Ok ((field, v) :: vs)
  end.

(** The base that [eval_struct_fields] finds. *)
Fixpoint eval_base (fields : list (Str * Expr)) : Res RuntimeValue :=
  match fields with
  | [] => type_error
  | (field, e) :: fields => if decide (field = str "..") then eval e else eval_base fields
  end.

Definition eval_to_int (e : Expr) : Res (option Z) :=
  match eval e with Ok (VInt n) | Ok (VNat n) => Ok (Some n) | Panic => Panic | _ => Ok None end.

Definition is_ident (e : Expr) (name : Str) : bool :=
  match e with EIdent n => bool_decide (n = name) | _ => false end.

Definition extract_lower_bound (param : Str) (e : Expr) : Res (option Z) :=
  match e with ELe lo rhs => if is_ident rhs param then eval_to_int lo else Ok None | _ => Ok None end.
Definition extract_upper_bound (param : Str) (e : Expr) : Res (option Z) :=
  match e with ELe lhs hi => if is_ident lhs param then eval_to_int hi else Ok None | _ => Ok None end.

Definition extract_range_bounds_from_closure (param : Str) (body : Expr) : Res (option (Z * Z)) :=
  match body with
  | EBinary e1 And e2 =>
      lo ← extract_lower_bound param e1;
      hi ← extract_upper_bound param e2;
      match lo, hi with
      | Some lo, Some hi => Ok (Some (lo, hi))
      | _, _ =>
          lo ← extract_lower_bound param e2;
          hi ← extract_upper_bound param e1;
          match lo, hi with Some lo, Some hi => Ok (Some (lo, hi)) | _, _ => Ok None end
      end
  | _ => Ok None
  end.
End loops.

(** ** Domains *)

(** [lo..=hi]. *)
Definition int_range (lo hi : Z) : list Z := seqZ lo (hi - lo + 1).

Section domains.
Context {V : Type} (body : V -> Res RuntimeValue).

(** The values for which the closure of [Set::new] gives true; those for which it
    fails are skipped. *)
Fixpoint filter_ok (values : list V) : Res (list V) :=
  match values with
  | [] => Ok []
  | v :: values =>
      match body v with
      | Ok (VBool true) => vs ← filter_ok values; Ok (v :: vs)
      | Ok (VBool false) | Err _ => filter_ok values
      | Ok _ => type_error
      | Panic => Panic
      end
  end.

Fixpoint map_all (values : list V) : Res (list RuntimeValue) :=
  match values with
  | [] => Ok []
  | v :: values => r ← body v; rs ← map_all values; Ok (r :: rs)
  end.
End domains.

Section quantifiers.
Context (kind : QuantifierKind).

Fixpoint quantify_values (body : RuntimeValue -> Res bool) (domain : list RuntimeValue) : Res bool :=
  match domain with
  | [] => Ok (match kind with Forall_ => true | Exists_ => false end)
  | v :: domain =>
      b ← body v;
      match kind, b with
      | Forall_, false => Ok false
      | Exists_, true => Ok true
      | _, _ => quantify_values body domain
      end
  end.

Context (domain_evaluator : Binding -> Res (list RuntimeValue)) (body : Bindings -> Res RuntimeValue).

Fixpoint eval_quantifier_bindings (vars : list Binding) (bs : Bindings) : Res bool :=
  match vars with
  | [] => v ← body bs; expect_bool v
  | binding :: vars =>
      match pattern binding with
      | PIdent name =>
          domain ← domain_evaluator binding;
          quantify_values (fun v => eval_quantifier_bindings vars ((name, v) :: bs)) domain
      | _ => unsupported_construct
      end
  end.
End quantifiers.

Section choose.
Context (first : Binding) (domain_evaluator : Binding -> Res (list RuntimeValue)) (body : Bindings -> Res RuntimeValue).

(** The first value for which the rest succeeds. *)
Fixpoint choose_values (rest : RuntimeValue -> Res RuntimeValue) (domain : list RuntimeValue) : Res RuntimeValue :=
  match domain with
  | [] => type_error
  | v :: domain => match rest v with Ok r => Ok r | Err _ => choose_values rest domain | Panic => Panic end
  end.

Fixpoint eval_choose_bindings (vars : list Binding) (bs : Bindings) : Res RuntimeValue :=
  match vars with
  | [] =>
      v ← body bs;
      satisfied ← expect_bool v;
      if (satisfied : bool) then
        match pattern first with
        | PIdent name => ok_or Config (get_binding name bs)
        | _ => unsupported_construct
        end
      else type_error
  | binding :: vars =>
      match pattern binding with
      | PIdent name =>
          domain ← domain_evaluator binding;
          choose_values (fun v => eval_choose_bindings vars ((name, v) :: bs)) domain
      | _ => unsupported_construct
      end
  end.
End choose.

(** Bindings without a type are integers. *)
Definition int_by_default (b : Binding) : Binding :=
  match binding_ty b with Some _ => b | None => MkBinding (pattern b) (Some TInt) (variable_mode b) end.

(** ** Expressions *)

Section eval.
Context `{Handles} (ctx : EvalContext).

Definition eval_quantifier (kind : QuantifierKind) (vars : list Binding) (body : Bindings -> Res RuntimeValue)
    (bs : Bindings) : Res RuntimeValue :=
  match vars with
  | [] => v ← body bs; b ← expect_bool v; Ok (VBool b)
  | _ =>
      domain_evaluator ← ok_or UnsupportedPattern (quantifier_domain_evaluator ctx);
      b ← eval_quantifier_bindings kind domain_evaluator body vars bs;
      Ok (VBool b)
  end.

Definition eval_choose (vars : list Binding) (body : Bindings -> Res RuntimeValue) (bs : Bindings)
  : Res RuntimeValue :=
  match int_by_default <$> vars with
  | [] => unsupported_construct
  | (first :: _) as vars =>
      domain_evaluator ← ok_or UnsupportedPattern (quantifier_domain_evaluator ctx);
      eval_choose_bindings first domain_evaluator body vars bs
  end.

(** The parameter of a closure. *)
Definition closure_param (params : list Binding) : Res Str :=
  match params with [] => type_error | b :: _ => ok_or Config (binding_name b) end.

Definition set_elements (v : RuntimeValue) : Res (list RuntimeValue) :=
  match v with VSet r => Ok (set_iter r) | _ => type_error end.

(** [range] is what the closure's body says about the range of its parameter. *)
Definition eval_set_new_with_closure (params : list Binding) (range : Str -> Res (option (Z * Z)))
    (body : Bindings -> Res RuntimeValue) (bs : Bindings) : Res RuntimeValue :=
  param ← closure_param params;
  range ← range param;
  let int_values := match range with Some (lo, hi) => int_range lo hi | None => int_range (-10) 100 end in
  elements ← filter_ok (fun v => body ((param, v) :: bs)) (VInt <$> int_values);
  bounded (set_bounded elements (bounds ctx)).

Definition eval_set_map_with_closure (receiver : RuntimeValue) (params : list Binding)
    (body : Bindings -> Res RuntimeValue) (bs : Bindings) : Res RuntimeValue :=
  elements ← set_elements receiver;
  param ← closure_param params;
  vs ← map_all (fun v => body ((param, v) :: bs)) elements;
  Ok (VSet (set_from_values vs)).

Definition eval_map_new_with_closure (domain : RuntimeValue) (params : list Binding)
    (body : Bindings -> Res RuntimeValue) (bs : Bindings) : Res RuntimeValue :=
  keys ← set_elements domain;
  param ← closure_param params;
  vs ← map_all (fun v => body ((param, v) :: bs)) keys;
  bounded (map_bounded (zip keys vs) (bounds ctx)).

Section match_expr.
Context (eval : Expr -> Bindings -> Res RuntimeValue).

(** The arms in order, each with the bindings of its pattern. *)
Fixpoint eval_arms (scrutinee : RuntimeValue) (arms : list (Pattern * option Expr * Expr)) (bs : Bindings)
  : Res RuntimeValue :=
  match arms with
  | [] => type_error
  | (p, guard, body) :: arms =>
      match match_pattern p scrutinee [] with
      | None => eval_arms scrutinee arms bs
      | Some new =>
          let bs' := reverse new ++ bs in
          match guard with
          | Some g =>
              v ← eval g bs'; b ← expect_bool v;
              if (b : bool) then eval body bs' else eval_arms scrutinee arms bs
          | None => eval body bs'
          end
      end
  end.
End match_expr.

Definition call_builtin_or_hook (func : Path) (args : list RuntimeValue) : Res RuntimeValue :=
  builtin ← eval_builtin_static_call func args (bounds ctx);
  match builtin, call_evaluator ctx with
  | Some v, _ => Ok v
  | None, Some evaluator => evaluator func args
  | None, None => unsupported_construct
  end.

Definition method_builtin_or_hook (receiver : RuntimeValue) (method : Str) (args : list RuntimeValue)
  : Res RuntimeValue :=
  builtin ← eval_builtin_method receiver method args (bounds ctx);
  match builtin, method_evaluator ctx with
  | Some v, _ => Ok v
  | None, Some evaluator => evaluator receiver method args
  | None, None => unsupported_construct
  end.

Definition compare_numbers (cmp : Z -> Z -> bool) (lhs rhs : Res RuntimeValue) : Res RuntimeValue :=
  v ← lhs; l ← expect_number v; w ← rhs; r ← expect_number w; Ok (VBool (cmp l r)).

Definition eval_ident (name : Str) (bs : Bindings) : Res RuntimeValue :=
  match get_binding name bs with
  | Some v => Ok v
  | None =>
      match split_variant_path name with
      | Some (ty, variant) => enum_value ty variant []
      | None => type_error
      end
  end.

(** A field, or the value itself for [tag]. *)
Definition eval_field (base : RuntimeValue) (field : Str) : Res RuntimeValue :=
  match value_field base field with
  | Some v => Ok v
  | None => if decide (field = str "tag") then Ok base else type_error
  end.

Definition gt_bool (a b : Z) : bool := b <? a.
Definition ge_bool (a b : Z) : bool := b <=? a.

Fixpoint eval_expr (e : Expr) (bs : Bindings) {struct e} : Res RuntimeValue :=
  let eval := fun e => eval_expr e bs in
  match e with
  | EConstantValue v => Ok v
  | EConjunction items => eval_conjunction eval items
  | EDisjunction items => eval_disjunction eval items
  | EImplies lhs rhs =>
      v ← eval lhs; l ← expect_bool v;
      if (l : bool) then w ← eval rhs; r ← expect_bool w; Ok (VBool r) else Ok (VBool true)
  | EIff lhs rhs =>
      v ← eval lhs; l ← expect_bool v; w ← eval rhs; r ← expect_bool w; Ok (VBool (Bool.eqb l r))
  | ENot inner => v ← eval inner; not_bool v
  | EIf cond then_branch else_branch =>
      v ← eval cond; c ← expect_bool v;
      if (c : bool) then eval then_branch
      else match else_branch with Some e => eval e | None => Ok VUnit end
  | ELet binding value body =>
      v ← eval value;
      match pattern binding with
      | PIdent name => eval_expr body ((name, v) :: bs)
      | _ => unsupported_construct
      end
  | EEq lhs rhs => l ← eval lhs; r ← eval rhs; Ok (VBool (value_eqb l r))
  | ENe lhs rhs => l ← eval lhs; r ← eval rhs; Ok (VBool (negb (value_eqb l r)))
  | ELt lhs rhs => compare_numbers Z.ltb (eval lhs) (eval rhs)
  | ELe lhs rhs => compare_numbers Z.leb (eval lhs) (eval rhs)
  | EGt lhs rhs => compare_numbers gt_bool (eval lhs) (eval rhs)
  | EGe lhs rhs => compare_numbers ge_bool (eval lhs) (eval rhs)
  | EIs base variant =>
      v ← eval base;
      match v with VEnum _ active _ => Ok (VBool (bool_decide (active = variant))) | _ => type_error end
  | EField base field | EArrow base field => v ← eval base; eval_field v field
  | EIndex base idx => b ← eval base; i ← eval idx; index_value type_error b i
  | EStruct name fields =>
      r ← eval_struct_fields eval fields None;
      match r.2 with
      | Some _ =>
          base ← eval_base eval fields;
          apply_struct_update (if decide (segments name = []) then None else Some name) base r.1
      | None => new_struct (path_name name) r.1
      end
  | EStructUpdate name base fields =>
      b ← eval base; vs ← eval_update_fields eval fields; apply_struct_update name b vs
  | ESeqLit items => vs ← eval_all eval items; bounded (seq_bounded vs (bounds ctx))
  | ESetLit items => vs ← eval_all eval items; bounded (set_bounded vs (bounds ctx))
  | EMapLit entries => vs ← eval_entries eval entries; bounded (map_bounded vs (bounds ctx))
  | ESeqEmpty => bounded (seq_bounded [] (bounds ctx))
  | ESetEmpty => bounded (set_bounded [] (bounds ctx))
  | EMapEmpty => bounded (map_bounded [] (bounds ctx))
  | ECall func args =>
      match args with
      | [EClosure params body] =>
          if decide (path_name func = str "Set::new") then
            eval_set_new_with_closure params (fun param => extract_range_bounds_from_closure eval param body)
              (eval_expr body) bs
          else vs ← eval_all eval args; call_builtin_or_hook func vs
      | [domain; EClosure params body] =>
          if decide (path_name func = str "Map::new") then
            d ← eval domain; eval_map_new_with_closure d params (eval_expr body) bs
          else vs ← eval_all eval args; call_builtin_or_hook func vs
      | _ => vs ← eval_all eval args; call_builtin_or_hook func vs
      end
  | EMethodCall receiver method args =>
      match args with
      | [EClosure params body] =>
          if decide (method = str "map") then
            r ← eval receiver; eval_set_map_with_closure r params (eval_expr body) bs
          else r ← eval receiver; vs ← eval_all eval args; method_builtin_or_hook r method vs
      | _ => r ← eval receiver; vs ← eval_all eval args; method_builtin_or_hook r method vs
      end
  | EView inner => eval inner
  | ECast inner ty => v ← eval inner; cast_value v ty
  | EIdent name => eval_ident name bs
  | ELiteral lit => Ok (literal_value lit)
  | EBinary lhs op rhs =>
      match op with
      | And =>
          l ← eval lhs;
          if value_eqb l (VBool false) then Ok (VBool false) else r ← eval rhs; eval_binary l And r
      | Or =>
          l ← eval lhs;
          if value_eqb l (VBool true) then Ok (VBool true) else r ← eval rhs; eval_binary l Or r
      | _ => l ← eval lhs; r ← eval rhs; eval_binary l op r
      end
  | EUnary op inner => v ← eval inner; eval_unary op v
  | EForall vars _ body => eval_quantifier Forall_ vars (eval_expr body) bs
  | EExists vars body => eval_quantifier Exists_ vars (eval_expr body) bs
  | EChoose vars body => eval_choose vars (eval_expr body) bs
  | EMatch scrutinee arms => v ← eval scrutinee; eval_arms eval_expr v arms bs
  | EClosure _ _ => type_error
  end.
End eval.
