(* ===== verification/Bytecode.v ===== *)
(** * Bytecode and its compiler

    transpiler/src/modelcheck/bytecode.rs: the instructions, chunks and the compiler.
    Indices have 16 bits, counts of arguments 8 bits, to which lengths are cut.  A
    chunk is passed along; the table of locals is an argument, its newest entry
    first, and [restore] is to go on with the older table. *)

From stdpp Require Import prelude gmap sets list numbers fin_sets strings.
From Stdlib Require Import ZArith Lia.
From S2P Require Import Prelude.
From S2P Require Import RuntimeValue.
From S2P Require Import SpecAst.
From S2P Require Import EvalOps.
From S2P Require Import Evaluator.

#[local] Open Scope Z_scope.

Definition as_u16 (n : Z) : Z := n mod 2 ^ 16.
Definition as_u8 (n : Z) : Z := n mod 2 ^ 8.

Inductive Opcode :=
  | LoadConst (ci : Z) | LoadLocal (slot : Z) | StoreLocal (slot : Z) | Pop | Dup
  | LoadField (sym : Symbol) | LoadArrow (sym : Symbol) | GetIndex
  | OpEq | OpNe | OpLt | OpLe | OpGt | OpGe
  | BinaryOp (op : BinOp) | UnaryNot | UnaryNeg
  | Is (variant : Symbol)
  | SetLit (n : Z) | MapLit (n : Z) | SeqLit (n : Z)
  | StructNew (meta : Z) | StructUpdate (meta : Z)
  | JumpIfFalse (offset : Z) | JumpIfTrue (offset : Z) | Jump (offset : Z)
  | Call (target argc : Z) | MethodCall (method : Symbol) (argc : Z)
  | OpForall (var body_len : Z) | OpExists (var body_len : Z) | OpChoose (var body_len : Z)
  | SetNewClosure (var body_len : Z) | MapNewClosure (var body_len : Z) | SetMapClosure (var body_len : Z)
  | Return.

Record StructNewMeta := MkStructNewMeta { type_name : Str; field_names : list Symbol }.
Record StructUpdateMeta := MkStructUpdateMeta { update_type_name : option Str; update_field_names : list Symbol }.

Record Chunk := MkChunk {
  ops : list Opcode;
  constants : list RuntimeValue;
  struct_metas : list StructNewMeta;
  struct_update_metas : list StructUpdateMeta;
  call_targets : list Path;
  num_locals : Z }.

Definition chunk_new : Chunk := MkChunk [] [] [] [] [] 0.

Definition set_ops (l : list Opcode) (c : Chunk) : Chunk :=
  MkChunk l (constants c) (struct_metas c) (struct_update_metas c) (call_targets c) (num_locals c).

(** The chunk, and the index of the instruction. *)
Definition emit (op : Opcode) (c : Chunk) : Chunk := set_ops (ops c ++ [op]) c.

(** Additions to the pools give the chunk and the index, cut to 16 bits. *)
Definition add_const (v : RuntimeValue) (c : Chunk) : Chunk * Z :=
  (MkChunk (ops c) (constants c ++ [v]) (struct_metas c) (struct_update_metas c) (call_targets c) (num_locals c),
   as_u16 (seq_len (constants c))).
Definition add_struct_meta (m : StructNewMeta) (c : Chunk) : Chunk * Z :=
  (MkChunk (ops c) (constants c) (struct_metas c ++ [m]) (struct_update_metas c) (call_targets c) (num_locals c),
   as_u16 (seq_len (struct_metas c))).
Definition add_struct_update_meta (m : StructUpdateMeta) (c : Chunk) : Chunk * Z :=
  (MkChunk (ops c) (constants c) (struct_metas c) (struct_update_metas c ++ [m]) (call_targets c) (num_locals c),
   as_u16 (seq_len (struct_update_metas c))).
Definition add_call_target (p : Path) (c : Chunk) : Chunk * Z :=
  (MkChunk (ops c) (constants c) (struct_metas c) (struct_update_metas c) (call_targets c ++ [p]) (num_locals c),
   as_u16 (seq_len (call_targets c))).

(** The counter of locals has 16 bits and wraps around in a release build. *)
Definition alloc_local (c : Chunk) : Chunk * Z :=
  (MkChunk (ops c) (constants c) (struct_metas c) (struct_update_metas c) (call_targets c) (as_u16 (num_locals c + 1)),
   num_locals c).

(** How far the end is from after the instruction at an index. *)
Definition offset_from (op_idx : nat) (c : Chunk) : Z := as_u16 (seq_len (ops c) - Z.of_nat op_idx - 1).

Definition set_jump (offset : Z) (op : Opcode) : option Opcode :=
  match op with
  | JumpIfFalse _ => Some (JumpIfFalse offset)
  | JumpIfTrue _ => Some (JumpIfTrue offset)
  | Jump _ => Some (Jump offset)
  | _ => None
  end.

(** Setting the offset of the jump at an index; anything else there is a panic. *)
Definition set_jump_at (op_idx : nat) (offset : Z) (c : Chunk) : Res Chunk :=
  op ← or_panic (ops c !! op_idx);
  op ← or_panic (set_jump offset op);
  Ok (set_ops (<[op_idx := op]> (ops c)) c).

Definition patch_jump (op_idx : nat) (c : Chunk) : Res Chunk := set_jump_at op_idx (offset_from op_idx c) c.

(** The offsets of jumps to a target. *)
Fixpoint set_jumps (jumps : list nat) (target : nat) (c : Chunk) : Res Chunk :=
  match jumps with
  | [] => Ok c
  | jmp :: jumps => c ← set_jump_at jmp (as_u16 (Z.of_nat target - Z.of_nat jmp - 1)) c; set_jumps jumps target c
  end.

Fixpoint patch_jumps (jumps : list nat) (c : Chunk) : Res Chunk :=
  match jumps with [] => Ok c | jmp :: jumps => c ← patch_jump jmp c; patch_jumps jumps c end.

Definition set_body_len (bl : Z) (op : Opcode) : option Opcode :=
  match op with
  | OpForall var _ => Some (OpForall var bl)
  | OpExists var _ => Some (OpExists var bl)
  | OpChoose var _ => Some (OpChoose var bl)
  | SetNewClosure var _ => Some (SetNewClosure var bl)
  | MapNewClosure var _ => Some (MapNewClosure var bl)
  | SetMapClosure var _ => Some (SetMapClosure var bl)
  | _ => None
  end.

Definition patch_body (op_idx : nat) (c : Chunk) : Res Chunk :=
  op ← or_panic (ops c !! op_idx);
  op ← or_panic (set_body_len (offset_from op_idx c) op);
  Ok (set_ops (<[op_idx := op]> (ops c)) c).

(** ** The compiler *)

Abbreviation LocalTable := (list (Str * Z)).

Fixpoint local_get (name : Str) (locals : LocalTable) : option Z :=
  match locals with
  | [] => None
  | (n, slot) :: locals => if decide (n = name) then Some slot else local_get name locals
  end.

Definition emit_const (v : RuntimeValue) (c : Chunk) : Chunk :=
  let '(c, ci) := add_const v c in emit (LoadConst ci) c.

Inductive ClosureOp := SetNew | MapNew | SetMap.
Inductive QuantifierOp := QForall | QExists | QChoose.

Definition quantifier_opcode (op : QuantifierOp) (slot : Z) : Opcode :=
  match op with QForall => OpForall slot 0 | QExists => OpExists slot 0 | QChoose => OpChoose slot 0 end.
Definition closure_opcode (op : ClosureOp) (slot : Z) : Opcode :=
  match op with SetNew => SetNewClosure slot 0 | MapNew => MapNewClosure slot 0 | SetMap => SetMapClosure slot 0 end.

(** The [..base] of a struct literal, the last one when there are several. *)
Fixpoint struct_base (fields : list (Str * Expr)) : bool :=
  match fields with
  | [] => false
  | (field, _) :: fields => if decide (field = str "..") then true else struct_base fields
  end.
Definition regular_names (fields : list (Str * Expr)) : list Str := filter (fun f => f <> str "..") fields.*1.

Section compile.
Context `{Handles}.

(** *** Patterns *)

Definition compile_pattern_check (p : Pattern) (scrut_slot : Z) (c : Chunk) : Chunk :=
  match p with
  | PWildcard | PIdent _ | PTuple _ => emit_const (VBool true) c
  | PLiteral lit => emit OpEq (emit_const (literal_value lit) (emit (LoadLocal scrut_slot) c))
  | PStruct name _ | PVariant name _ =>
      emit (Is (handle (default [] (last (segments name))))) (emit (LoadLocal scrut_slot) c)
  end.

(** A local for what is on the stack. *)
Definition store_new (c : Chunk) : Chunk * Z :=
  let '(c, slot) := alloc_local c in (emit (StoreLocal slot) c, slot).

Section loops.
Context (bind_pattern : Pattern -> Z -> Chunk -> LocalTable -> Chunk * LocalTable).

Fixpoint bind_fields (fields : list (Str * Pattern)) (scrut_slot : Z) (c : Chunk) (locals : LocalTable)
  : Chunk * LocalTable :=
  match fields with
  | [] => (c, locals)
  | (name, p) :: fields =>
      let c := emit (LoadArrow (handle name)) (emit (LoadLocal scrut_slot) c) in
      let '(c, slot) := store_new c in
      let '(c, locals) := bind_pattern p slot c locals in
      bind_fields fields scrut_slot c locals
  end.

Fixpoint bind_positions (i : Z) (fields : list Pattern) (scrut_slot : Z) (c : Chunk) (locals : LocalTable)
  : Chunk * LocalTable :=
  match fields with
  | [] => (c, locals)
  | p :: fields =>
      let c := emit (LoadArrow (handle (str "_" ++ show_int i))) (emit (LoadLocal scrut_slot) c) in
      let '(c, slot) := store_new c in
      let '(c, locals) := bind_pattern p slot c locals in
      bind_positions (i + 1) fields scrut_slot c locals
  end.

Fixpoint bind_items (i : Z) (patterns : list Pattern) (scrut_slot : Z) (c : Chunk) (locals : LocalTable)
  : Chunk * LocalTable :=
  match patterns with
  | [] => (c, locals)
  | p :: patterns =>
      let c := emit GetIndex (emit_const (VInt i) (emit (LoadLocal scrut_slot) c)) in
      let '(c, slot) := store_new c in
      let '(c, locals) := bind_pattern p slot c locals in
      bind_items (i + 1) patterns scrut_slot c locals
  end.
End loops.

Fixpoint compile_pattern_bind (p : Pattern) (scrut_slot : Z) (c : Chunk) (locals : LocalTable) {struct p}
  : Chunk * LocalTable :=
  match p with
  | PWildcard | PLiteral _ => (c, locals)
  | PIdent name =>
      let '(c, slot) := store_new (emit (LoadLocal scrut_slot) c) in (c, (name, slot) :: locals)
  | PStruct _ fields => bind_fields compile_pattern_bind fields scrut_slot c locals
  | PVariant _ fields => bind_positions compile_pattern_bind 0 fields scrut_slot c locals
  | PTuple patterns => bind_items compile_pattern_bind 0 patterns scrut_slot c locals
  end.

(** *** Lists of expressions *)

Section loops.
Context (compile : Expr -> Chunk -> Res Chunk).

Fixpoint compile_all (items : list Expr) (c : Chunk) : Res Chunk :=
  match items with [] => Ok c | e :: items => c ← compile e c; compile_all items c end.

Fixpoint compile_entries (entries : list (Expr * Expr)) (c : Chunk) : Res Chunk :=
  match entries with
  | [] => Ok c
  | (k, v) :: entries => c ← compile k c; c ← compile v c; compile_entries entries c
  end.

(** The fields but for the base. *)
Fixpoint compile_regular (fields : list (Str * Expr)) (c : Chunk) : Res Chunk :=
  match fields with
  | [] => Ok c
  | (field, e) :: fields =>
      if decide (field = str "..") then compile_regular fields c else c ← compile e c; compile_regular fields c
  end.

Fixpoint compile_fields (fields : list (Str * Expr)) (c : Chunk) : Res Chunk :=
  match fields with [] => Ok c | (_, e) :: fields => c ← compile e c; compile_fields fields c end.

(** The base, of which the last one counts. *)
Fixpoint compile_base (fields : list (Str * Expr)) (c : Chunk) : Res Chunk :=
  match fields with
  | [] => Ok c
  | (field, e) :: fields =>
      if decide (field = str "..") then if struct_base fields then compile_base fields c else compile e c
      else compile_base fields c
  end.

(** The items of a conjunction or disjunction, each followed by a jump; the
    chunk and where the jumps are. *)
Fixpoint compile_junction (jump : Opcode) (items : list Expr) (c : Chunk) : Res (Chunk * list nat) :=
  match items with
  | [] => Ok (c, [])
  | e :: items =>
      c ← compile e c;
      let jmp := length (ops c) in
      r ← compile_junction jump items (emit jump c);
      Ok (r.1, jmp :: r.2)
  end.

Definition compile_short_circuit (jump : Opcode) (if_all if_any : bool) (items : list Expr) (c : Chunk) : Res Chunk :=
  match items with
  | [] => Ok (emit_const (VBool if_all) c)
  | _ =>
      r ← compile_junction jump items c;
      let c := emit_const (VBool if_all) r.1 in
      let done_jmp := length (ops c) in
      let c := emit (Jump 0) c in
      let target := length (ops c) in
      let c := emit_const (VBool if_any) c in
      c ← set_jumps r.2 target c;
      patch_jump done_jmp c
  end.

(** [lhs], a jump, [rhs] and a jump over the constant to which the first leads. *)
Definition compile_binary_circuit (jump : Opcode) (otherwise : bool) (lhs rhs : Chunk -> Res Chunk) (c : Chunk)
  : Res Chunk :=
  c ← lhs c;
  let jmp := length (ops c) in
  c ← rhs (emit jump c);
  let done_jmp := length (ops c) in
  c ← patch_jump jmp (emit (Jump 0) c);
  patch_jump done_jmp (emit_const (VBool otherwise) c).
End loops.

(** *** Variables *)

Section quantifier.
Context (op : QuantifierOp) (body : LocalTable -> Chunk -> Res Chunk).

Fixpoint compile_quantifier (vars : list Binding) (locals : LocalTable) (c : Chunk) : Res Chunk :=
  match vars with
  | [] => body locals c
  | var :: vars =>
      match pattern var with
      | PIdent name =>
          let '(c, slot) := alloc_local c in
          let q_idx := length (ops c) in
          c ← compile_quantifier vars ((name, slot) :: locals) (emit (quantifier_opcode op slot) c);
          patch_body q_idx c
      | _ => Err UnsupportedPattern
      end
  end.
End quantifier.

Definition compile_closure_opcode (op : ClosureOp) (params : list Binding) (body : LocalTable -> Chunk -> Res Chunk)
    (locals : LocalTable) (c : Chunk) : Res Chunk :=
  match params with
  | [] => Err UnsupportedPattern
  | param :: _ =>
      match pattern param with
      | PIdent name =>
          let '(c, slot) := alloc_local c in
          let op_idx := length (ops c) in
          c ← body ((name, slot) :: locals) (emit (closure_opcode op slot) c);
          patch_body op_idx c
      | _ => Err UnsupportedPattern
      end
  end.

Section match_arms.
Context (compile : Expr -> LocalTable -> Chunk -> Res Chunk).

(** The arms; where the jumps to the end are. *)
Fixpoint compile_arms (scrut_slot : Z) (arms : list (Pattern * option Expr * Expr)) (locals : LocalTable) (c : Chunk)
  : Res (Chunk * list nat) :=
  match arms with
  | [] => Ok (c, [])
  | (p, guard, body) :: arms =>
      let c := compile_pattern_check p scrut_slot c in
      let skip_jmp := length (ops c) in
      let '(c, locals') := compile_pattern_bind p scrut_slot (emit (JumpIfFalse 0) c) locals in
      match guard with
      | Some g =>
          c ← compile g locals' c;
          let guard_fail := length (ops c) in
          c ← compile body locals' (emit (JumpIfFalse 0) c);
          let end_jmp := length (ops c) in
          c ← patch_jump guard_fail (emit (Jump 0) c);
          let skip2 := length (ops c) in
          c ← patch_jump skip_jmp (emit (Jump 0) c);
          c ← patch_jump skip2 c;
          r ← compile_arms scrut_slot arms locals c;
          Ok (r.1, end_jmp :: r.2)
      | None =>
          c ← compile body locals' c;
          let end_jmp := length (ops c) in
          c ← patch_jump skip_jmp (emit (Jump 0) c);
          r ← compile_arms scrut_slot arms locals c;
          Ok (r.1, end_jmp :: r.2)
      end
  end.

Definition compile_match (scrutinee : Expr) (arms : list (Pattern * option Expr * Expr)) (locals : LocalTable) (c : Chunk)
  : Res Chunk :=
  c ← compile scrutinee locals c;
  let '(c, scrut_slot) := store_new c in
  r ← compile_arms scrut_slot arms locals c;
  patch_jumps r.2 (emit_const VUnit r.1).
End match_arms.

Definition compile_ident (name : Str) (locals : LocalTable) (c : Chunk) : Res Chunk :=
  match local_get name locals with
  | Some slot => Ok (emit (LoadLocal slot) c)
  | None =>
      match split_variant_path name with
      | Some (ty, variant) => v ← enum_value ty variant []; Ok (emit_const v c)
      | None => Ok (emit_const (VString name) c)
      end
  end.

Definition compile_call (func : Path) (argc : Z) (c : Chunk) : Chunk :=
  let '(c, ci) := add_call_target func c in emit (Call ci (as_u8 argc)) c.

(** *** Expressions *)

Fixpoint compile_expr (e : Expr) (locals : LocalTable) (c : Chunk) {struct e} : Res Chunk :=
  let compile := fun e => compile_expr e locals in
  let binary := fun lhs rhs op => c ← compile lhs c; c ← compile rhs c; Ok (emit op c) in
  match e with
  | EConstantValue v => Ok (emit_const v c)
  | ELiteral lit => Ok (emit_const (literal_value lit) c)
  | EIdent name => compile_ident name locals c
  | EField base field => c ← compile base c; Ok (emit (LoadField (handle field)) c)
  | EArrow base field => c ← compile base c; Ok (emit (LoadArrow (handle field)) c)
  | EIndex base idx => binary base idx GetIndex
  | EEq lhs rhs => binary lhs rhs OpEq
  | ENe lhs rhs => binary lhs rhs OpNe
  | ELt lhs rhs => binary lhs rhs OpLt
  | ELe lhs rhs => binary lhs rhs OpLe
  | EGt lhs rhs => binary lhs rhs OpGt
  | EGe lhs rhs => binary lhs rhs OpGe
  | ENot inner => c ← compile inner c; Ok (emit UnaryNot c)
  | EConjunction items => compile_short_circuit compile (JumpIfFalse 0) true false items c
  | EDisjunction items => compile_short_circuit compile (JumpIfTrue 0) false true items c
  | EImplies lhs rhs => compile_binary_circuit (JumpIfFalse 0) true (compile lhs) (compile rhs) c
  | EIff lhs rhs => binary lhs rhs OpEq
  | EBinary lhs op rhs =>
      match op with
      | And => compile_binary_circuit (JumpIfFalse 0) false (compile lhs) (compile rhs) c
      | Or => compile_binary_circuit (JumpIfTrue 0) true (compile lhs) (compile rhs) c
      | _ => binary lhs rhs (BinaryOp op)
      end
  | EUnary op inner =>
      c ← compile inner c;
      Ok (match op with UNot => emit UnaryNot c | UNeg => emit UnaryNeg c | UDeref => c end)
  | EIs base variant => c ← compile base c; Ok (emit (Is (handle variant)) c)
  | ESetLit items => c ← compile_all compile items c; Ok (emit (SetLit (as_u8 (seq_len items))) c)
  | ESeqLit items => c ← compile_all compile items c; Ok (emit (SeqLit (as_u8 (seq_len items))) c)
  | EMapLit entries => c ← compile_entries compile entries c; Ok (emit (MapLit (as_u8 (seq_len entries))) c)
  | ESetEmpty => Ok (emit (SetLit 0) c)
  | ESeqEmpty => Ok (emit (SeqLit 0) c)
  | EMapEmpty => Ok (emit (MapLit 0) c)
  | EStruct name fields =>
      if struct_base fields then
        c ← compile_base compile fields c;
        c ← compile_regular compile fields c;
        let '(c, meta) := add_struct_update_meta (MkStructUpdateMeta
          (if decide (segments name = []) then None else Some (path_name name)) (handle <$> regular_names fields)) c in
        Ok (emit (StructUpdate meta) c)
      else
        c ← compile_regular compile fields c;
        let '(c, meta) := add_struct_meta (MkStructNewMeta (path_name name) (handle <$> regular_names fields)) c in
        Ok (emit (StructNew meta) c)
  | EStructUpdate name base fields =>
      c ← compile base c;
      c ← compile_fields compile fields c;
      let '(c, meta) := add_struct_update_meta (MkStructUpdateMeta (path_name <$> name) (handle <$> fields.*1)) c in
      Ok (emit (StructUpdate meta) c)
  | EIf cond then_branch else_branch =>
      c ← compile cond c;
      let false_jmp := length (ops c) in
      c ← compile then_branch (emit (JumpIfFalse 0) c);
      let done_jmp := length (ops c) in
      c ← patch_jump false_jmp (emit (Jump 0) c);
      c ← (match else_branch with Some e => compile e c | None => Ok (emit_const VUnit c) end);
      patch_jump done_jmp c
  | ELet binding value body =>
      match pattern binding with
      | PIdent name =>
          c ← compile value c;
          let '(c, slot) := store_new c in
          compile_expr body ((name, slot) :: locals) c
      | _ => Err UnsupportedPattern
      end
  | ECall func args =>
      let other := c ← compile_all compile args c; Ok (compile_call func (seq_len args) c) in
      match args with
      | [EClosure params body] =>
          if decide (path_name func = str "Set::new")
          then compile_closure_opcode SetNew params (compile_expr body) locals c else other
      | [domain; EClosure params body] =>
          if decide (path_name func = str "Map::new")
          then c ← compile domain c; compile_closure_opcode MapNew params (compile_expr body) locals c else other
      | _ => other
      end
  | EMethodCall receiver method args =>
      let other :=
        c ← compile receiver c; c ← compile_all compile args c;
        Ok (emit (MethodCall (handle method) (as_u8 (seq_len args))) c) in
      match args with
      | [EClosure params body] =>
          if decide (method = str "map")
          then c ← compile receiver c; compile_closure_opcode SetMap params (compile_expr body) locals c else other
      | _ => other
      end
  | EView inner | ECast inner _ => compile inner c
  | EForall vars _ body => compile_quantifier QForall (compile_expr body) vars locals c
  | EExists vars body => compile_quantifier QExists (compile_expr body) vars locals c
  | EChoose vars body => compile_quantifier QChoose (compile_expr body) vars locals c
  | EMatch scrutinee arms => compile_match compile_expr scrutinee arms locals c
  | EClosure _ _ => Err UnsupportedPattern
  end.

(** [compile]. *)
Definition compile_closed (e : Expr) : Res Chunk := c ← compile_expr e [] chunk_new; Ok (emit Return c).

(** A compiled expression: the chunk, and the slots of the environment's names. *)
Record CompiledExpr := MkCompiled { chunk : Chunk; env_slots : list (Str * Z) }.

Fixpoint alloc_env (env_names : list Str) (c : Chunk) (slots : list (Str * Z)) : Chunk * list (Str * Z) :=
  match env_names with
  | [] => (c, slots)
  | name :: env_names => let '(c, slot) := alloc_local c in alloc_env env_names c (slots ++ [(name, slot)])
  end.

Definition compile_with_env (e : Expr) (env_names : list Str) : Res CompiledExpr :=
  let '(c, slots) := alloc_env env_names chunk_new [] in
  c ← compile_expr e (reverse slots) c;
  Ok (MkCompiled (emit Return c) slots).
End compile.
