(* ===== verification/BytecodeVm.v ===== *)
(** * The bytecode machine

    transpiler/src/modelcheck/bytecode.rs: the interpreter.  The code has its loop
    three times, for a chunk of its own ([vm_eval]), for the body of a quantifier or
    closure ([vm_eval_body_slice]) and for given locals ([vm_eval_with_locals]); a
    parameter tells them apart where they differ.  The stack has its top first.
    Popping an empty stack or an index out of range is a panic; the locals, which
    bodies share, are passed along.  Each iteration, and each call for a body, takes a
    unit of fuel; [None] is for fuel that runs out. *)

From stdpp Require Import prelude gmap sets list numbers fin_sets strings.
From Stdlib Require Import ZArith Lia.
From S2P Require Import Prelude.
From S2P Require Import Ordering.
From S2P Require Import RuntimeValue.
From S2P Require Import SpecAst.
From S2P Require Import EvalOps.
From S2P Require Import Evaluator.
From S2P Require Import Bytecode.

#[local] Open Scope Z_scope.

Inductive VmLoop := ChunkLoop | BodyLoop | LocalsLoop.

Abbreviation Stack := (list RuntimeValue).

(** ** Instructions on the stack *)

Definition pop1 (st : Stack) (f : RuntimeValue -> Stack -> Res Stack) : Res Stack :=
  match st with v :: st => f v st | [] => Panic end.

(** [drain(len - n..)]: the last [n] values in the order in which they were pushed. *)
Definition drain (n : Z) (st : Stack) (f : list RuntimeValue -> Stack -> Res Stack) : Res Stack :=
  if decide (seq_len st < n) then Panic
  else f (reverse (take (Z.to_nat n) st)) (drop (Z.to_nat n) st).

Definition push (st : Stack) (r : Res RuntimeValue) : Res Stack := v ← r; Ok (v :: st).

Definition pop2 (st : Stack) (f : RuntimeValue -> RuntimeValue -> Res RuntimeValue) : Res Stack :=
  pop1 st (fun rhs st => pop1 st (fun lhs st => push st (f lhs rhs))).

Definition compare_op (cmp : Z -> Z -> bool) (lhs rhs : RuntimeValue) : Res RuntimeValue :=
  l ← expect_number lhs; r ← expect_number rhs; Ok (VBool (cmp l r)).

(** [chunks(2)]. *)
Fixpoint pairs {A} (l : list A) : list (A * A) :=
  match l with a :: b :: l => (a, b) :: pairs l | _ => [] end.

(** [vm_eval_with_locals] puts the entries into a map first, in which the last of
    those with one key remains. *)
Definition map_entries (loop : VmLoop) (entries : list (RuntimeValue * RuntimeValue)) : list (RuntimeValue * RuntimeValue) :=
  match loop with
  | LocalsLoop => foldl (fun m p => map_set p.1 p.2 m) [] entries
  | _ => entries
  end.

(** What happens at an index out of range. *)
Definition missing_element (loop : VmLoop) : Res RuntimeValue :=
  match loop with BodyLoop => Panic | _ => type_error end.

Section instructions.
Context `{Handles} (ctx : EvalContext).

Definition load_field (base : RuntimeValue) (sym : Symbol) : Res RuntimeValue :=
  match field_sym base sym with
  | Some v => Ok v
  | None => if decide (handle_name sym = str "tag") then Ok base else type_error
  end.

Definition load_arrow (base : RuntimeValue) (sym : Symbol) : Res RuntimeValue := ok_or Config (field_sym base sym).

Definition is_variant (v : RuntimeValue) (sym : Symbol) : bool :=
  match v with VEnum _ variant _ => bool_decide (variant = handle_name sym) | _ => false end.

Definition struct_new (meta : StructNewMeta) (values : list RuntimeValue) : Res RuntimeValue :=
  new_struct (type_name meta) (zip (handle_name <$> field_names meta) values).

(** Fields are set whether or not they exist. *)
Definition set_fields (fields : NamedFields) (updates : list (Symbol * RuntimeValue)) : NamedFields :=
  foldl (fun fs p => (fields_insert fs p.1 p.2).1) fields updates.

Definition struct_update (meta : StructUpdateMeta) (base : RuntimeValue) (values : list RuntimeValue) : Res RuntimeValue :=
  match base with
  | VStruct ty fields => Ok (struct_value_sym ty (set_fields fields (zip (update_field_names meta) values)))
  | VEnum ty variant fields => Ok (enum_value_sym ty variant (set_fields fields (zip (update_field_names meta) values)))
  | _ => type_error
  end.

(** The instructions that change the stack only; [None] for the others. *)
Definition stack_op (loop : VmLoop) (k : Chunk) (op : Opcode) (st : Stack) : option (Res Stack) :=
  match op with
  | LoadConst ci => Some (v ← or_panic (seq_get (constants k) ci); Ok (v :: st))
  | Pop => Some (Ok (tail st))
  | Dup => Some (pop1 st (fun v st => Ok (v :: v :: st)))
  | LoadField sym => Some (pop1 st (fun base st => push st (load_field base sym)))
  | LoadArrow sym => Some (pop1 st (fun base st => push st (load_arrow base sym)))
  | GetIndex => Some (pop2 st (index_value (missing_element loop)))
  | OpEq => Some (pop2 st (fun l r => Ok (VBool (value_eqb l r))))
  | OpNe => Some (pop2 st (fun l r => Ok (VBool (negb (value_eqb l r)))))
  | OpLt => Some (pop2 st (compare_op Z.ltb))
  | OpLe => Some (pop2 st (compare_op Z.leb))
  | OpGt => Some (pop2 st (compare_op gt_bool))
  | OpGe => Some (pop2 st (compare_op ge_bool))
  | BinaryOp op => Some (pop2 st (fun l r => eval_binary l op r))
  | UnaryNot => Some (pop1 st (fun v st => push st (not_bool v)))
  | UnaryNeg => Some (pop1 st (fun v st => push st (neg_number v)))
  | Is sym => Some (pop1 st (fun v st => Ok (VBool (is_variant v sym) :: st)))
  | SetLit n => Some (drain n st (fun items st => push st (bounded (set_bounded items (bounds ctx)))))
  | SeqLit n => Some (drain n st (fun items st => push st (bounded (seq_bounded items (bounds ctx)))))
  | MapLit n =>
      Some (drain (2 * n) st (fun items st =>
        push st (bounded (map_bounded (map_entries loop (pairs items)) (bounds ctx)))))
  | StructNew mi =>
      Some (meta ← or_panic (seq_get (struct_metas k) mi);
            drain (seq_len (field_names meta)) st (fun values st => push st (struct_new meta values)))
  | StructUpdate mi =>
      Some (meta ← or_panic (seq_get (struct_update_metas k) mi);
            drain (seq_len (update_field_names meta)) st (fun values st =>
              pop1 st (fun base st => push st (struct_update meta base values))))
  | Call target argc =>
      Some (drain argc st (fun args st =>
        func ← or_panic (seq_get (call_targets k) target);
        push st (builtin ← eval_builtin_static_call func args (bounds ctx);
                 match builtin, call_evaluator ctx with
                 | Some v, _ => Ok v
                 | None, Some evaluator => evaluator func args
                 | None, None => type_error
                 end)))
  | MethodCall sym argc =>
      Some (drain argc st (fun args st =>
        pop1 st (fun receiver st =>
          push st (builtin ← eval_builtin_method receiver (handle_name sym) args (bounds ctx);
                   match builtin, method_evaluator ctx with
                   | Some v, _ => Ok v
                   | None, Some evaluator => evaluator receiver (handle_name sym) args
                   | None, None => type_error
                   end))))
  | _ => None
  end.
End instructions.

(** ** Quantifiers and closures *)

Abbreviation Locals := (list RuntimeValue).

(** What a body gives: its value and the locals; [None] without fuel. *)
Abbreviation BodyResult A := (option (Res A * Locals)).

(** Writing a local; out of range is a panic. *)
Definition store_local (slot : Z) (v : RuntimeValue) (lv : Locals) : option Locals :=
  if decide (0 <= slot < seq_len lv) then Some (seq_update lv slot v) else None.

(** The locals with the variable set, on which the body runs. *)
Definition run_body {A} (body : Locals -> BodyResult RuntimeValue) (slot : Z) (v : RuntimeValue) (lv : Locals)
    (next : RuntimeValue -> Locals -> BodyResult A) : BodyResult A :=
  match store_local slot v lv with
  | None => Some (Panic, lv)
  | Some lv =>
      r ← body lv;
      match r.1 with Ok w => next w r.2 | Err e => Some (Err e, r.2) | Panic => Some (Panic, r.2) end
  end.

Definition check_bool {A} (w : RuntimeValue) (lv : Locals) (next : bool -> BodyResult A) : BodyResult A :=
  match expect_bool w with Ok b => next b | Err e => Some (Err e, lv) | Panic => Some (Panic, lv) end.

Section bodies.
Context (body : Locals -> BodyResult RuntimeValue) (slot : Z).

Fixpoint forall_loop (domain : list RuntimeValue) (lv : Locals) : BodyResult RuntimeValue :=
  match domain with
  | [] => Some (Ok (VBool true), lv)
  | v :: domain =>
      run_body body slot v lv (fun w lv =>
        check_bool w lv (fun b => if b then forall_loop domain lv else Some (Ok (VBool false), lv)))
  end.

Fixpoint exists_loop (domain : list RuntimeValue) (lv : Locals) : BodyResult RuntimeValue :=
  match domain with
  | [] => Some (Ok (VBool false), lv)
  | v :: domain =>
      run_body body slot v lv (fun w lv =>
        check_bool w lv (fun b => if b then Some (Ok (VBool true), lv) else exists_loop domain lv))
  end.

Fixpoint choose_loop (domain : list RuntimeValue) (lv : Locals) : BodyResult RuntimeValue :=
  match domain with
  | [] => Some (type_error, lv)
  | v :: domain =>
      run_body body slot v lv (fun w lv =>
        check_bool w lv (fun b => if b then Some (Ok v, lv) else choose_loop domain lv))
  end.

(** [vm_eval_set_new_closure]: the values for which the body gives true. *)
Fixpoint filter_loop (values : list RuntimeValue) (lv : Locals) : BodyResult (list RuntimeValue) :=
  match values with
  | [] => Some (Ok [], lv)
  | v :: values =>
      match store_local slot v lv with
      | None => Some (Panic, lv)
      | Some lv =>
          r ← body lv;
          match r.1 with
          | Ok (VBool true) =>
              rest ← filter_loop values r.2; Some (vs ← rest.1; Ok (v :: vs), rest.2)
          | Ok (VBool false) | Err _ => filter_loop values r.2
          | Ok _ => Some (type_error, r.2)
          | Panic => Some (Panic, r.2)
          end
      end
  end.

(** What the body gives for each value. *)
Fixpoint map_loop (values : list RuntimeValue) (lv : Locals) : BodyResult (list RuntimeValue) :=
  match values with
  | [] => Some (Ok [], lv)
  | v :: values =>
      run_body body slot v lv (fun w lv =>
        rest ← map_loop values lv; Some (ws ← rest.1; Ok (w :: ws), rest.2))
  end.
End bodies.

(** The binding for whose domain the machine asks. *)
Definition dummy_binding (slot : Z) : Binding :=
  MkBinding (PIdent (str "__vm_var_" ++ show_int slot)) (Some TInt) Exec.

Section machine.
Context `{Handles} (ctx : EvalContext).

Definition vm_eval_quantifier (op : QuantifierOp) (body : Locals -> BodyResult RuntimeValue) (slot : Z) (lv : Locals)
  : BodyResult RuntimeValue :=
  match quantifier_domain_evaluator ctx with
  | None => Some (type_error, lv)
  | Some domain_eval =>
      match domain_eval (dummy_binding slot) with
      | Err e => Some (Err e, lv)
      | Panic => Some (Panic, lv)
      | Ok domain =>
          match op with
          | QForall => forall_loop body slot domain lv
          | QExists => exists_loop body slot domain lv
          | QChoose => choose_loop body slot domain lv
          end
      end
  end.

Definition vm_eval_set_new_closure (body : Locals -> BodyResult RuntimeValue) (slot : Z) (lv : Locals)
  : BodyResult RuntimeValue :=
  r ← filter_loop body slot (VInt <$> int_range (-10) 100) lv;
  Some (elements ← r.1; bounded (set_bounded elements (bounds ctx)), r.2).

Definition vm_eval_map_new_closure (body : Locals -> BodyResult RuntimeValue) (slot : Z) (domain : RuntimeValue)
    (lv : Locals) : BodyResult RuntimeValue :=
  match set_elements domain with
  | Ok keys =>
      r ← map_loop body slot keys lv;
      Some (vs ← r.1; bounded (map_bounded (zip keys vs) (bounds ctx)), r.2)
  | Err e => Some (Err e, lv)
  | Panic => Some (Panic, lv)
  end.

Definition vm_eval_set_map_closure (body : Locals -> BodyResult RuntimeValue) (slot : Z) (receiver : RuntimeValue)
    (lv : Locals) : BodyResult RuntimeValue :=
  match set_elements receiver with
  | Ok elements =>
      r ← map_loop body slot elements lv;
      Some (vs ← r.1; bounded (set_bounded vs (bounds ctx)), r.2)
  | Err e => Some (Err e, lv)
  | Panic => Some (Panic, lv)
  end.

(** The instructions of a body, and a return after them; slicing out of range is a
    panic. *)
Definition body_ops (l : list Opcode) (start : nat) (len : Z) : option (list Opcode) :=
  if decide (Z.of_nat start + len <= seq_len l) then Some (take (Z.to_nat len) (drop start l) ++ [Return]) else None.

Definition pop_result (st : Stack) : Res RuntimeValue := match st with v :: _ => Ok v | [] => type_error end.

(** An instruction with a body: what it needs of the stack, the variable, the length
    of the body, and what it does with the body. *)
Definition body_op (op : Opcode) (st : Stack)
  : option (Z * Z * Res (((Locals -> BodyResult RuntimeValue) -> Locals -> BodyResult RuntimeValue) * Stack)) :=
  match op with
  | OpForall var bl => Some (var, bl, Ok (fun body => vm_eval_quantifier QForall body var, st))
  | OpExists var bl => Some (var, bl, Ok (fun body => vm_eval_quantifier QExists body var, st))
  | OpChoose var bl => Some (var, bl, Ok (fun body => vm_eval_quantifier QChoose body var, st))
  | SetNewClosure var bl => Some (var, bl, Ok (fun body => vm_eval_set_new_closure body var, st))
  | MapNewClosure var bl =>
      Some (var, bl, match st with
        | domain :: st => Ok (fun body => vm_eval_map_new_closure body var domain, st) | [] => type_error end)
  | SetMapClosure var bl =>
      Some (var, bl, match st with
        | receiver :: st => Ok (fun body => vm_eval_set_map_closure body var receiver, st) | [] => type_error end)
  | _ => None
  end.

(** Where a jump goes from [pc]: the condition it takes off the stack. *)
Definition jump_op (op : Opcode) (st : Stack) : option (Res (Z * Stack)) :=
  let conditional when offset :=
    Some (match st with
      | v :: st => b ← expect_bool v; Ok (if Bool.eqb b when then offset else 0, st)
      | [] => Panic
      end) in
  match op with
  | JumpIfFalse offset => conditional false offset
  | JumpIfTrue offset => conditional true offset
  | Jump offset => Some (Ok (offset, st))
  | _ => None
  end.

(** ** The loop *)

Fixpoint vm_run (fuel : nat) (loop : VmLoop) (k : Chunk) (l : list Opcode) (pc : nat) (st : Stack) (lv : Locals)
  : BodyResult RuntimeValue :=
  match fuel with
  | O => None
  | S fuel =>
      let stop {A} (r : Res A) (go : A -> BodyResult RuntimeValue) : BodyResult RuntimeValue :=
        match r with Ok x => go x | Err e => Some (Err e, lv) | Panic => Some (Panic, lv) end in
      match l !! pc with
      | None => Some (pop_result st, lv)
      | Some op =>
          match op with
          | Return => Some (pop_result st, lv)
          | LoadLocal slot =>
              stop (or_panic (seq_get lv slot)) (fun v => vm_run fuel loop k l (S pc) (v :: st) lv)
          | StoreLocal slot =>
              match st with
              | [] => Some (Panic, lv)
              | v :: st =>
                  match store_local slot v lv with
                  | None => Some (Panic, lv)
                  | Some lv => vm_run fuel loop k l (S pc) st lv
                  end
              end
          | _ =>
              match jump_op op st with
              | Some r => stop r (fun '(offset, st) => vm_run fuel loop k l (S pc + Z.to_nat offset) st lv)
              | None =>
                  match body_op op st with
                  | Some (var, bl, r) =>
                      stop r (fun '(with_body, st) =>
                        let body := fun lv =>
                          match body_ops l (S pc) bl with
                          | None => Some (Panic, lv)
                          | Some l' => vm_run fuel BodyLoop k l' 0 [] lv
                          end in
                        r ← with_body body lv;
                        match r with
                        | (Ok v, lv) => vm_run fuel loop k l (S pc + Z.to_nat bl) (v :: st) lv
                        | (Err e, lv) => Some (Err e, lv)
                        | (Panic, lv) => Some (Panic, lv)
                        end)
                  | None =>
                      match stack_op ctx loop k op st with
                      | Some r => stop r (fun st => vm_run fuel loop k l (S pc) st lv)
                      | None => Some (Panic, lv)
                      end
                  end
              end
          end
      end
  end.

(** Jumps go forward, so that the loop takes no more iterations than there are
    instructions, and one more to leave. *)
Definition vm_fuel (k : Chunk) : nat := S (length (ops k)).

Definition vm_eval (k : Chunk) : option (Res RuntimeValue) :=
  r ← vm_run (vm_fuel k) ChunkLoop k (ops k) 0 [] (replicate (Z.to_nat (num_locals k)) VUnit);
  Some r.1.

Definition vm_eval_with_locals (k : Chunk) (lv : Locals) : option (Res RuntimeValue) :=
  r ← vm_run (vm_fuel k) LocalsLoop k (ops k) 0 [] lv;
  Some r.1.

(** The environment in the slots; [None] for an index out of range, a panic. *)
Fixpoint fill_slots (slots : list (Str * Z)) (env : Bindings) (lv : Locals) : option Locals :=
  match slots with
  | [] => Some lv
  | (name, slot) :: slots =>
      match get_binding name env with
      | Some v => lv ← store_local slot v lv; fill_slots slots env lv
      | None => fill_slots slots env lv
      end
  end.

Definition vm_eval_with_env (compiled : CompiledExpr) (env : Bindings) : option (Res RuntimeValue) :=
  match fill_slots (env_slots compiled) env (replicate (Z.to_nat (num_locals (chunk compiled))) VUnit) with
  | None => Some Panic
  | Some lv => vm_eval_with_locals (chunk compiled) lv
  end.
End machine.

(** ** The cache

    Keyed by the address of the expression and the names of the environment. *)

Definition BytecodeCache : Type := gmap (Z * list Str) CompiledExpr.

Definition get_or_compile `{Handles} (cache : BytecodeCache) (address : Z) (e : Expr) (env_names : list Str)
  : BytecodeCache * Res CompiledExpr :=
  match cache !! (address, env_names) with
  | Some compiled => (cache, Ok compiled)
  | None =>
      match compile_with_env e env_names with
      | Ok compiled => (<[(address, env_names) := compiled]> cache, Ok compiled)
      | Err e => (cache, Err e)
      | Panic => (cache, Panic)
      end
  end.

(** ** Evaluation by the solver (solver.rs)

    Natively if there is a function for the expression, else by bytecode if it
    compiles, else by the evaluator.  [env] is the sorted environment. *)

Definition eval_with_environment `{Handles} (native : option (Expr -> list Str -> option (list RuntimeValue -> Res RuntimeValue)))
    (bytecode : option BytecodeCache) (ctx : EvalContext) (address : Z) (e : Expr) (env : Bindings)
  : option BytecodeCache * option (Res RuntimeValue) :=
  let native_fn := f ← native; f e env.*1 in
  match native_fn with
  | Some f => (bytecode, Some (f env.*2))
  | None =>
      let tree := Some (eval_expr ctx e (reverse env)) in
      match bytecode with
      | None => (None, tree)
      | Some cache =>
          let '(cache, compiled) := get_or_compile cache address e env.*1 in
          match compiled with
          | Ok compiled => (Some cache, vm_eval_with_env ctx compiled env)
          | Err _ => (Some cache, tree)
          | Panic => (Some cache, Some Panic)
          end
      end
  end.
