(* ===== verification/VmLaws.v ===== *)
(** * Laws of the bytecode machine

    More fuel changes nothing; code that is at a position of larger code; runs of the
    machine from a position to a later one, which need at most as much fuel as there
    are instructions between them. *)

From stdpp Require Import prelude gmap sets list numbers fin_sets strings.
From Stdlib Require Import ZArith Lia.
From S2P Require Import Prelude.
From S2P Require Import RuntimeValue.
From S2P Require Import SpecAst.
From S2P Require Import EvalOps.
From S2P Require Import Evaluator.
From S2P Require Import Bytecode.
From S2P Require Import BytecodeVm.

#[local] Open Scope Z_scope.

(** ** Results *)

Lemma bind_Ok {A B} (r : Res A) (f : A -> Res B) y : r ≫= f = Ok y -> exists x, r = Ok x /\ f x = Ok y.
Proof. destruct r as [x| |]; [|done..]. intros Hx. by exists x. Qed.

(** Taking apart the binds of a hypothesis. *)
Ltac inv_bind H :=
  let x := fresh "x" in let Hx := fresh "Hx" in
  apply bind_Ok in H as (x & Hx & H).

Lemma ok_or_Ok {A} e (o : option A) x : ok_or e o = Ok x -> o = Some x.
Proof. by destruct o; intros [= ->]. Qed.
Lemma or_panic_Ok {A} (o : option A) x : or_panic o = Ok x -> o = Some x.
Proof. by destruct o; intros [= ->]. Qed.
Lemma expect_bool_Ok v b : expect_bool v = Ok b -> v = VBool b.
Proof. by destruct v; intros [= ->]. Qed.
Lemma push_Ok st r st' : push st r = Ok st' -> exists v, r = Ok v /\ st' = v :: st.
Proof. destruct r as [v| |]; [|done..]. intros [= <-]. by exists v. Qed.

(** ** Locals *)

(** The same length, and the same values below [n]. *)
Definition agree (n : Z) (lv lv' : Locals) : Prop :=
  seq_len lv' = seq_len lv /\ forall s, s < n -> seq_get lv' s = seq_get lv s.

Lemma locals_agree_refl n lv : agree n lv lv.
Proof. by split. Qed.
Lemma locals_agree_trans n m lv1 lv2 lv3 : n <= m -> agree n lv1 lv2 -> agree m lv2 lv3 -> agree n lv1 lv3.
Proof. intros Hnm [Hl1 H1] [Hl2 H2]. split; [congruence|]. intros s Hs. rewrite H2 by lia. by apply H1. Qed.
Lemma agree_weaken n m lv lv' : n <= m -> agree m lv lv' -> agree n lv lv'.
Proof. intros Hnm [Hl H]. split; [done|]. intros s Hs. apply H. lia. Qed.

Lemma store_local_spec slot v lv :
  0 <= slot < seq_len lv ->
  exists lv', store_local slot v lv = Some lv' /\ seq_get lv' slot = Some v /\ agree slot lv lv'.
Proof.
  intros Hs. unfold store_local. rewrite decide_True by done. eexists. split; [done|].
  unfold seq_update, seq_get, agree, seq_len in *. rewrite !decide_True by lia. split_and!.
  - rewrite list_lookup_insert_eq; [done|lia].
  - by rewrite length_insert.
  - intros s Hlt. unfold seq_get. case_decide; [|done]. rewrite list_lookup_insert_ne; [done|lia].
Qed.

(** ** Code at a position *)

Definition code_at (l : list Opcode) (pc : nat) (code : list Opcode) : Prop :=
  forall i op, code !! i = Some op -> l !! (pc + i)%nat = Some op.

Lemma code_at_app l pc a b : code_at l pc (a ++ b) <-> code_at l pc a /\ code_at l (pc + length a) b.
Proof.
  split.
  - intros H. split; intros i op Hi; [apply H, lookup_app_l_Some, Hi|].
    rewrite <- Nat.add_assoc. apply H. rewrite lookup_app_r by lia. by replace (length a + i - length a)%nat with i by lia.
  - intros [Ha Hb] i op [Hi|[Hle Hi]]%lookup_app_Some; [by apply Ha|].
    replace (pc + i)%nat with (pc + length a + (i - length a))%nat by lia. by apply Hb.
Qed.

Lemma code_at_cons l pc op code : code_at l pc (op :: code) <-> l !! pc = Some op /\ code_at l (S pc) code.
Proof.
  change (op :: code) with ([op] ++ code). rewrite code_at_app. cbn.
  replace (pc + 1)%nat with (S pc) by lia. split; intros [H1 H2]; (split; [|done]).
  - rewrite <- (Nat.add_0_r pc). by apply H1.
  - intros [|i] op' Hi; [|done]. injection Hi as <-. by rewrite Nat.add_0_r.
Qed.

Lemma code_at_app_at l pc pc' code : code_at l pc code -> pc' = pc -> code_at l pc' code.
Proof. by intros ? ->. Qed.

Lemma code_at_whole l : code_at l 0 l.
Proof. by intros i op Hi. Qed.

Lemma code_at_body l pc op code :
  l !! pc = Some op -> code_at l (S pc) code ->
  body_ops l (S pc) (seq_len code) = Some (code ++ [Return]).
Proof.
  intros Hop Hc. pose proof (lookup_lt_Some _ _ _ Hop) as Hlt.
  assert (S pc + length code <= length l)%nat as Hle.
  { destruct (decide (length code = 0)%nat) as [->|Hne]; [lia|].
    destruct (lookup_lt_is_Some_2 code (length code - 1)) as [o Ho]; [lia|].
    apply Hc, lookup_lt_Some in Ho. lia. }
  unfold body_ops, seq_len. rewrite decide_True by lia. rewrite Nat2Z.id. do 2 f_equal.
  apply list_eq. intros i. destruct (decide (i < length code)%nat) as [Hi|Hi].
  - rewrite lookup_take_lt, lookup_drop by lia. destruct (lookup_lt_is_Some_2 code i Hi) as [o Ho].
    rewrite Ho. by apply Hc.
  - rewrite lookup_take_ge by lia. symmetry. apply lookup_ge_None. lia.
Qed.

(** ** Fuel *)

Section machine.
Context `{Handles} (ctx : EvalContext).

Section mono.
Context (body body' : Locals -> BodyResult RuntimeValue).
Context (Hbody : forall lv r, body lv = Some r -> body' lv = Some r).

Lemma run_body_mono {A} slot v lv (next next' : RuntimeValue -> Locals -> BodyResult A) r :
  (forall w lv r, next w lv = Some r -> next' w lv = Some r) ->
  run_body body slot v lv next = Some r -> run_body body' slot v lv next' = Some r.
Proof.
  intros Hn. unfold run_body. destruct (store_local slot v lv) as [lv1|]; [|done].
  destruct (body lv1) as [[w lv2]|] eqn:Hb; [|done]. rewrite (Hbody _ _ Hb). destruct w; cbn; auto.
Qed.

Lemma loops_mono slot domain : forall lv r,
  (forall_loop body slot domain lv = Some r -> forall_loop body' slot domain lv = Some r)
  /\ (exists_loop body slot domain lv = Some r -> exists_loop body' slot domain lv = Some r)
  /\ (choose_loop body slot domain lv = Some r -> choose_loop body' slot domain lv = Some r).
Proof.
  induction domain as [|v domain IH]; intros lv r; [by cbn|]. cbn.
  split_and!; apply run_body_mono; intros w lv1 r1; unfold check_bool; destruct (expect_bool w) as [[]| |]; auto; apply IH.
Qed.

Lemma map_loop_mono slot values : forall lv r, map_loop body slot values lv = Some r -> map_loop body' slot values lv = Some r.
Proof.
  induction values as [|v values IH]; intros lv r; [done|]. cbn. apply run_body_mono. intros w lv1 r1.
  destruct (map_loop body slot values lv1) as [[ws lv2]|] eqn:Hm; [|done]. by rewrite (IH _ _ Hm).
Qed.

Lemma filter_loop_mono slot values : forall lv r,
  filter_loop body slot values lv = Some r -> filter_loop body' slot values lv = Some r.
Proof.
  induction values as [|v values IH]; intros lv r; [done|]. cbn. destruct (store_local slot v lv) as [lv1|]; [|done].
  destruct (body lv1) as [[w lv2]|] eqn:Hb; [|done]. rewrite (Hbody _ _ Hb). cbn.
  destruct w as [[]| |]; auto. destruct b; auto.
  destruct (filter_loop body slot values lv2) as [[ws lv3]|] eqn:Hm; [|done]. by rewrite (IH _ _ Hm).
Qed.

Lemma body_op_mono op st var bl wb st' lv r :
  body_op ctx op st = Some (var, bl, Ok (wb, st')) -> wb body lv = Some r -> wb body' lv = Some r.
Proof.
  assert (forall q var lv r, vm_eval_quantifier ctx q body var lv = Some r -> vm_eval_quantifier ctx q body' var lv = Some r) as Hq.
  { intros q x lv' r'. unfold vm_eval_quantifier. destruct (quantifier_domain_evaluator ctx) as [de|]; [|done].
    destruct (de (dummy_binding x)) as [d| |]; [|done..]. destruct q; apply loops_mono. }
  assert (forall x v lv r, vm_eval_map_new_closure ctx body x v lv = Some r -> vm_eval_map_new_closure ctx body' x v lv = Some r) as Hm.
  { intros x v lv' r'. unfold vm_eval_map_new_closure. destruct (set_elements v) as [keys| |]; [|done..].
    destruct (map_loop body x keys lv') as [p|] eqn:Hl; [|done]. by rewrite (map_loop_mono _ _ _ _ Hl). }
  assert (forall x v lv r, vm_eval_set_map_closure ctx body x v lv = Some r -> vm_eval_set_map_closure ctx body' x v lv = Some r) as Hs.
  { intros x v lv' r'. unfold vm_eval_set_map_closure. destruct (set_elements v) as [keys| |]; [|done..].
    destruct (map_loop body x keys lv') as [p|] eqn:Hl; [|done]. by rewrite (map_loop_mono _ _ _ _ Hl). }
  destruct op; try done; cbn; try (intros Heq; injection Heq as <- <- <- <-; apply Hq).
  - intros Heq. injection Heq as <- <- <- <-. unfold vm_eval_set_new_closure.
    destruct (filter_loop body var0 _ lv) as [p|] eqn:Hl; [|done]. by rewrite (filter_loop_mono _ _ _ _ Hl).
  - destruct st as [|v st]; [done|]. intros Heq. injection Heq as <- <- <- <-. apply Hm.
  - destruct st as [|v st]; [done|]. intros Heq. injection Heq as <- <- <- <-. apply Hs.
Qed.
End mono.

Lemma vm_run_mono f : forall f' loop k l pc st lv r,
  (f <= f')%nat -> vm_run ctx f loop k l pc st lv = Some r -> vm_run ctx f' loop k l pc st lv = Some r.
Proof.
  induction f as [|f IH]; intros [|f'] loop k l pc st lv r Hle; [done..|lia|].
  assert (forall loop k l pc st lv r, vm_run ctx f loop k l pc st lv = Some r -> vm_run ctx f' loop k l pc st lv = Some r) as IH'.
  { intros. apply IH; [lia|done]. }
  clear IH. cbn. destruct (l !! pc) as [op|]; [|done].
  assert (forall op, match body_op ctx op st with
    | Some (_, bl, Ok (with_body, st)) =>
        (r ← with_body (fun lv => match body_ops l (S pc) bl with
                                   | None => Some (Panic, lv)
                                   | Some l' => vm_run ctx f BodyLoop k l' 0 [] lv end) lv;
         match r with
         | (Ok v, lv) => vm_run ctx f loop k l (S pc + Z.to_nat bl) (v :: st) lv
         | (Err e, lv) => Some (Err e, lv)
         | (Panic, lv) => Some (Panic, lv)
         end) = Some r ->
        (r ← with_body (fun lv => match body_ops l (S pc) bl with
                                   | None => Some (Panic, lv)
                                   | Some l' => vm_run ctx f' BodyLoop k l' 0 [] lv end) lv;
         match r with
         | (Ok v, lv) => vm_run ctx f' loop k l (S pc + Z.to_nat bl) (v :: st) lv
         | (Err e, lv) => Some (Err e, lv)
         | (Panic, lv) => Some (Panic, lv)
         end) = Some r
    | _ => True end) as Hb.
  { intros o. destruct (body_op ctx o st) as [[[var bl] [[wb st']| |]]|] eqn:Ho; [|done..].
    destruct (wb _ lv) as [[w lv']|] eqn:Hw; [|done].
    erewrite body_op_mono; [|clear Hw|exact Ho|exact Hw].
    - cbn. destruct w; auto.
    - cbn. intros lv1 r1. destruct (body_ops l (S pc) bl); auto. }
  specialize (Hb op). destruct op; cbn in Hb |- *; auto.
  all: try (destruct (or_panic _) eqn:?; cbn; auto; fail).
  all: try (destruct st as [|v st]; [done|]; auto).
  all: try (destruct (store_local _ _ _); auto).
  all: try match goal with |- match ?x with _ => _ end = _ -> _ => destruct x as [[]| |]; cbn; auto end.
  all: try match goal with |- match ?x with _ => _ end = _ -> _ => destruct x; cbn; auto end.
Qed.

(** ** Runs *)

Section runs.
Context (loop : VmLoop) (k : Chunk) (l : list Opcode).

(** From one configuration the machine comes to the other, further on, with as much
    fuel as there are instructions in between. *)
Definition runs (pc : nat) (st : Stack) (lv : Locals) (pc' : nat) (st' : Stack) (lv' : Locals) : Prop :=
  (pc <= pc')%nat /\ forall f r, vm_run ctx f loop k l pc' st' lv' = Some r ->
    forall f', (f + (pc' - pc) <= f')%nat -> vm_run ctx f' loop k l pc st lv = Some r.

Lemma runs_refl pc st lv : runs pc st lv pc st lv.
Proof. split; [lia|]. intros f r Hr f' Hf. eapply vm_run_mono; [|exact Hr]. lia. Qed.

Lemma runs_trans pc1 st1 lv1 pc2 st2 lv2 pc3 st3 lv3 :
  runs pc1 st1 lv1 pc2 st2 lv2 -> runs pc2 st2 lv2 pc3 st3 lv3 -> runs pc1 st1 lv1 pc3 st3 lv3.
Proof.
  intros [Hle1 H1] [Hle2 H2]. split; [lia|]. intros f r Hr f' Hf.
  eapply (H1 (f + (pc3 - pc2))%nat); [|lia]. by apply (H2 f).
Qed.

(** A step of the loop to somewhere after the instruction. *)
Lemma runs_step pc st lv pc' st' lv' :
  (pc < pc')%nat ->
  (forall f, vm_run ctx (S f) loop k l pc st lv = vm_run ctx f loop k l pc' st' lv') ->
  runs pc st lv pc' st' lv'.
Proof.
  intros Hlt Hstep. split; [lia|]. intros f r Hr [|f'] Hf; [lia|]. rewrite Hstep.
  eapply vm_run_mono; [|exact Hr]. lia.
Qed.

Lemma runs_stack_op pc op st st' lv :
  l !! pc = Some op -> stack_op ctx loop k op st = Some (Ok st') -> runs pc st lv (S pc) st' lv.
Proof.
  intros Hop Hs. apply runs_step; [lia|]. intros f. cbn [vm_run]. rewrite Hop.
  assert (jump_op op st = None /\ body_op ctx op st = None) as [Hj Hb] by (by destruct op).
  destruct op; try done; by rewrite ?Hj, ?Hb, Hs.
Qed.

Lemma runs_load pc slot v st lv :
  l !! pc = Some (LoadLocal slot) -> seq_get lv slot = Some v -> runs pc st lv (S pc) (v :: st) lv.
Proof. intros Hop Hs. apply runs_step; [lia|]. intros f. cbn [vm_run]. by rewrite Hop, Hs. Qed.

Lemma runs_store pc slot v st lv lv' :
  l !! pc = Some (StoreLocal slot) -> store_local slot v lv = Some lv' -> runs pc (v :: st) lv (S pc) st lv'.
Proof. intros Hop Hs. apply runs_step; [lia|]. intros f. cbn [vm_run]. by rewrite Hop, Hs. Qed.

Lemma runs_jump pc op offset st st' lv :
  l !! pc = Some op -> jump_op op st = Some (Ok (offset, st')) ->
  runs pc st lv (S pc + Z.to_nat offset)%nat st' lv.
Proof.
  intros Hop Hj. apply runs_step; [lia|]. intros f. cbn [vm_run]. rewrite Hop.
  destruct op; try done; by rewrite Hj.
Qed.

Lemma runs_body pc op var bl wb st st' lv l' v lv' :
  l !! pc = Some op -> body_op ctx op st = Some (var, bl, Ok (wb, st')) -> 0 <= bl ->
  body_ops l (S pc) bl = Some l' ->
  (forall f, (Z.to_nat bl < f)%nat -> wb (fun lv => vm_run ctx f BodyLoop k l' 0 [] lv) lv = Some (Ok v, lv')) ->
  runs pc st lv (S pc + Z.to_nat bl)%nat (v :: st') lv'.
Proof.
  intros Hop Hb Hbl Hl' Hw. split; [lia|]. intros f r Hr [|f'] Hf; [lia|]. cbn [vm_run]. rewrite Hop.
  assert (0 < f)%nat by (destruct f; [done|lia]).
  specialize (Hw f' ltac:(lia)).
  assert (jump_op op st = None) as Hj by (by destruct op).
  destruct op; try done; rewrite Hj, Hb, Hl', Hw; (eapply vm_run_mono; [|exact Hr]; lia).
Qed.

End runs.

(** A body that runs to its end gives the value on its stack. *)
Lemma body_value k code lv v lv' f :
  runs BodyLoop k (code ++ [Return]) 0 [] lv (length code) [v] lv' -> (length code < f)%nat ->
  vm_run ctx f BodyLoop k (code ++ [Return]) 0 [] lv = Some (Ok v, lv').
Proof.
  intros [_ Hr] Hf. apply (Hr 1%nat); [|lia]. cbn [vm_run]. by rewrite lookup_app_r, Nat.sub_diag by lia.
Qed.
End machine.
