(* ===== verification/CompilerLaws.v ===== *)
(** * Laws of the bytecode compiler

    What a piece of the compiler emits: code that is appended to the chunk, additions
    to the pools, and what the machine does on the code.  [emits] says so of one
    piece; the lemmas compose pieces in sequence, around jumps, under variables and
    inside bodies. *)

From stdpp Require Import prelude gmap sets list numbers fin_sets strings.
From Stdlib Require Import ZArith Lia.
From S2P Require Import Prelude.
From S2P Require Import RuntimeValue.
From S2P Require Import SpecAst.
From S2P Require Import EvalOps.
From S2P Require Import Evaluator.
From S2P Require Import Bytecode.
From S2P Require Import BytecodeVm.
From S2P Require Import VmLaws.

#[local] Open Scope Z_scope.

(** ** Chunks *)

(** The pools of one chunk are the beginning of those of another. *)
Definition pools_in (c k : Chunk) : Prop :=
  constants c `prefix_of` constants k /\ struct_metas c `prefix_of` struct_metas k
  /\ struct_update_metas c `prefix_of` struct_update_metas k /\ call_targets c `prefix_of` call_targets k.

Lemma pools_refl c : pools_in c c.
Proof. by split_and!. Qed.
Lemma pools_emit op c : pools_in c (emit op c).
Proof. by split_and!. Qed.
Lemma pools_trans a b c : pools_in a b -> pools_in b c -> pools_in a c.
Proof. intros (?&?&?&?) (?&?&?&?). split_and!; by etrans. Qed.

Lemma prefix_get {A} (l k : list A) n x : l `prefix_of` k -> seq_get l n = Some x -> seq_get k n = Some x.
Proof. unfold seq_get. intros Hp. case_decide; [|done]. intros Hx. by eapply prefix_lookup_Some. Qed.

Lemma pool_get_last {A} (l : list A) x : seq_get (l ++ [x]) (seq_len l) = Some x.
Proof. unfold seq_len. by rewrite seq_get_of_nat, list_lookup_middle. Qed.

Lemma as_u16_small n : 0 <= n < 2 ^ 16 -> as_u16 n = n.
Proof. apply Z.mod_small. Qed.

Lemma seq_len_cons {A} (x : A) l : seq_len (x :: l) = seq_len l + 1.
Proof. unfold seq_len. cbn. lia. Qed.
Lemma seq_len_snoc {A} (l : list A) x : seq_len (l ++ [x]) = seq_len l + 1.
Proof. by rewrite seq_len_app. Qed.

(** The counts of pools and locals are below that of instructions, [base] locals
    aside, which the environment has. *)
Section counts.
Context (base : Z).

Record well (c : Chunk) : Prop := {
  well_locals : 0 <= num_locals c <= base + seq_len (ops c);
  well_constants : seq_len (constants c) <= seq_len (ops c);
  well_metas : seq_len (struct_metas c) <= seq_len (ops c);
  well_updates : seq_len (struct_update_metas c) <= seq_len (ops c);
  well_targets : seq_len (call_targets c) <= seq_len (ops c) }.

Definition fits (c : Chunk) : Prop := base + seq_len (ops c) < 2 ^ 16.
End counts.

(** ** What a piece of the compiler emits *)

(** What code does to the stack, given the bindings. *)
Abbreviation Effect := (Bindings -> Stack -> Stack -> Prop).

(** The code pushes a value. *)
Definition gives (f : Bindings -> Res RuntimeValue) : Effect := fun bs st st' => exists v, f bs = Ok v /\ st' = v :: st.

Definition env_ok (bs : Bindings) (locals : LocalTable) (lv : Locals) : Prop :=
  Forall2 (fun b s => b.1 = s.1 /\ seq_get lv s.2 = Some b.2) bs locals.
Definition locals_below (locals : LocalTable) (n : Z) : Prop := Forall (fun s => 0 <= s.2 < n) locals.

Lemma env_agree bs locals n lv lv' : locals_below locals n -> agree n lv lv' -> env_ok bs locals lv -> env_ok bs locals lv'.
Proof.
  intros Hb [_ Ha] He. induction He as [|[x v] [y s] bs locals [Hx Hs] He IH]; [constructor|].
  apply Forall_cons in Hb as [Hlt Hb]. constructor; [|by apply IH]. split; [done|]. cbn in *. rewrite Ha by lia. done.
Qed.

Lemma locals_below_weaken locals n m : n <= m -> locals_below locals n -> locals_below locals m.
Proof. intros Hnm Hl. eapply Forall_impl; [exact Hl|]. cbn. intros s Hs. lia. Qed.

Lemma env_get bs locals lv name slot :
  env_ok bs locals lv -> local_get name locals = Some slot -> exists v, get_binding name bs = Some v /\ seq_get lv slot = Some v.
Proof.
  induction 1 as [|[x v] [y s] bs locals [Hx Hs] He IH]; [done|]. cbn in *. subst y.
  case_decide; [|done]. intros [= ->]. eauto.
Qed.

Lemma env_get_none bs locals lv name : env_ok bs locals lv -> local_get name locals = None -> get_binding name bs = None.
Proof.
  induction 1 as [|[x v] [y s] bs locals [Hx Hs] He IH]; [done|]. cbn in *. subst y. by case_decide.
Qed.

Section emits.
Context `{Handles} (ctx : EvalContext) (base : Z) (Hbase : 0 <= base).

(** The machine runs the code to its end with the effect on the stack, and leaves
    the locals that were allocated before as they are. *)
Definition has_effect (locals : LocalTable) (eff : Effect) (c c' : Chunk) (code : list Opcode) : Prop :=
  locals_below locals (num_locals c) ->
  forall loop k l pc bs st st' lv,
    pools_in c' k -> code_at l pc code -> num_locals c' <= seq_len lv -> env_ok bs locals lv -> eff bs st st' ->
    exists lv', runs ctx loop k l pc st lv (pc + length code) st' lv' /\ agree (num_locals c) lv lv'.

Definition emits (gen : Chunk -> Res Chunk) (locals : LocalTable) (eff : Effect) : Prop :=
  forall c c', gen c = Ok c' ->
  exists code, ops c' = ops c ++ code /\ pools_in c c'
    /\ (well base c -> fits base c' ->
        well base c' /\ num_locals c <= num_locals c' /\ has_effect locals eff c c' code).

Lemma emits_conseq gen locals (eff eff' : Effect) :
  (forall bs st st', eff' bs st st' -> eff bs st st') -> emits gen locals eff -> emits gen locals eff'.
Proof.
  intros Himp Hg c c' Hc. destruct (Hg c c' Hc) as (code & Hops & Hp & Hrest). exists code.
  split_and!; [done..|]. intros Hw Hf. destruct (Hrest Hw Hf) as (Hw' & Hn & Heff). split_and!; [done..|].
  intros Hb loop k l pc bs st st' lv Hk Hat Hlen He Hst. by eapply Heff; eauto.
Qed.

Lemma emits_ext (gen gen' : Chunk -> Res Chunk) locals eff :
  (forall c, gen' c = gen c) -> emits gen locals eff -> emits gen' locals eff.
Proof. intros Heq Hg c c' Hc. rewrite Heq in Hc. by apply Hg. Qed.

(** Emitting nothing. *)
Lemma emits_nil locals : emits (fun c => Ok c) locals (fun _ st st' => st' = st).
Proof.
  intros c _ [= <-]. exists []. split_and!; [by rewrite app_nil_r|apply pools_refl|]. intros Hw Hf.
  split_and!; [done|done|]. intros _ loop k l pc bs st st' lv _ _ _ _ ->.
  exists lv. cbn. rewrite Nat.add_0_r. split; [apply runs_refl|apply locals_agree_refl].
Qed.

Lemma fits_mono c c' code : ops c' = ops c ++ code -> fits base c' -> fits base c.
Proof. unfold fits. intros ->. rewrite seq_len_app. pose proof (seq_len_nonneg code). lia. Qed.

Lemma emits_seq g1 g2 locals (e1 e2 : Effect) :
  emits g1 locals e1 -> emits g2 locals e2 ->
  emits (fun c => c ← g1 c; g2 c) locals (fun bs st st'' => exists st', e1 bs st st' /\ e2 bs st' st'').
Proof.
  intros H1 H2 c c2 Hc. inv_bind Hc. rename x into c1.
  destruct (H1 _ _ Hx) as (code1 & Hops1 & Hp1 & Hrest1), (H2 _ _ Hc) as (code2 & Hops2 & Hp2 & Hrest2).
  exists (code1 ++ code2). split_and!; [by rewrite Hops2, Hops1, app_assoc|by eapply pools_trans|].
  intros Hw Hf. destruct (Hrest1 Hw (fits_mono _ _ _ Hops2 Hf)) as (Hw1 & Hn1 & He1).
  destruct (Hrest2 Hw1 Hf) as (Hw2 & Hn2 & He2). split_and!; [done|lia|].
  intros Hb loop k l pc bs st st'' lv Hk [Ha1 Ha2]%code_at_app Hlen He (st' & Hs1 & Hs2).
  destruct (He1 Hb loop k l pc bs st st' lv) as (lv1 & Hr1 & Hag1); [by eapply pools_trans|done|lia|done|done|].
  destruct (He2 (locals_below_weaken _ _ _ Hn1 Hb) loop k l (pc + length code1)%nat bs st' st'' lv1) as (lv2 & Hr2 & Hag2);
    [done|done|by rewrite (proj1 Hag1)|by eapply env_agree|done|].
  exists lv2. rewrite length_app, Nat.add_assoc. split; [by eapply runs_trans|]. by eapply locals_agree_trans.
Qed.

(** *** Single instructions *)

Lemma well_emit op c : well base c -> well base (emit op c).
Proof. intros [[] ? ? ? ?]. split; cbn; rewrite seq_len_snoc; lia. Qed.

(** An instruction on the stack. *)
Lemma emits_op op locals (eff : Effect) :
  (forall loop k bs st st', eff bs st st' -> stack_op ctx loop k op st = Some (Ok st')) ->
  emits (fun c => Ok (emit op c)) locals eff.
Proof.
  intros Hop c _ [= <-]. exists [op]. split_and!; [done|apply pools_emit|]. intros Hw Hf.
  split_and!; [by apply well_emit|done|]. intros _ loop k l pc bs st st' lv _ [Hat _]%code_at_cons _ _ Hst.
  exists lv. split; [|apply locals_agree_refl]. cbn. rewrite Nat.add_1_r. eapply runs_stack_op; [done|by eapply Hop].
Qed.

Lemma emits_const v locals : emits (fun c => Ok (emit_const v c)) locals (gives (fun _ => Ok v)).
Proof.
  intros c _ [= <-]. exists [LoadConst (as_u16 (seq_len (constants c)))].
  split_and!; [done|by split_and!; try done; cbn; apply prefix_app_r|].
  intros [[] ? ? ? ?] Hf. unfold fits in Hf. cbn in Hf. rewrite seq_len_snoc in Hf.
  pose proof (seq_len_nonneg (constants c)).
  split_and!; [split; cbn; rewrite ?seq_len_snoc; lia|done|].
  intros _ loop k l pc bs st st' lv (Hk & _) [Hat _]%code_at_cons _ _ (w & [= <-] & ->).
  exists lv. split; [|apply locals_agree_refl]. cbn. rewrite Nat.add_1_r. eapply runs_stack_op; [done|]. cbn.
  rewrite as_u16_small by lia. cbn in Hk. erewrite prefix_get; [done|done|]. apply pool_get_last.
Qed.

(** An instruction that refers to an entry of a pool. *)
Lemma emits_meta (add : Chunk -> Chunk * Z) (op : Z -> Opcode) locals (eff : Effect) (entry : Chunk -> Z -> Prop) :
  (forall c, ops (add c).1 = ops c /\ pools_in c (add c).1 /\ num_locals (add c).1 = num_locals c
     /\ (well base c -> fits base (emit (op 0) c) -> well base (emit (op (add c).2) (add c).1))
     /\ (well base c -> fits base (emit (op 0) c) -> forall k, pools_in (add c).1 k -> entry k (add c).2)) ->
  (forall loop k n bs st st', entry k n -> eff bs st st' -> stack_op ctx loop k (op n) st = Some (Ok st')) ->
  emits (fun c => Ok (let '(c, n) := add c in emit (op n) c)) locals eff.
Proof.
  intros Hadd Hop c _ [= <-]. specialize (Hadd c) as (Ho & Hp & Hn & Hw & He). destruct (add c) as [c1 n]. cbn in *.
  exists [op n]. split_and!; [by rewrite Ho|done|]. intros Hwc Hf.
  assert (fits base (emit (op 0) c)) as Hf' by (unfold fits in *; cbn in *; by rewrite Ho, seq_len_app in Hf; rewrite seq_len_app).
  split_and!; [by apply Hw|lia|]. intros _ loop k l pc bs st st' lv Hk [Hat _]%code_at_cons _ _ Hst.
  exists lv. split; [|apply locals_agree_refl]. cbn. rewrite Nat.add_1_r. eapply runs_stack_op; [done|].
  eapply Hop; [|done]. apply He; done.
Qed.

(** *** Locals *)

Lemma emits_load name slot locals :
  local_get name locals = Some slot ->
  emits (fun c => Ok (emit (LoadLocal slot) c)) locals (gives (fun bs => or_panic (get_binding name bs))).
Proof.
  intros Hs c _ [= <-]. exists [LoadLocal slot]. split_and!; [done|apply pools_emit|]. intros Hw Hf.
  split_and!; [by apply well_emit|done|].
  intros _ loop k l pc bs st st' lv _ [Hat _]%code_at_cons _ He (v & Hv%or_panic_Ok & ->).
  destruct (env_get _ _ _ _ _ He Hs) as (w & Hw1 & Hw2). simplify_eq.
  exists lv. split; [|apply locals_agree_refl]. cbn. rewrite Nat.add_1_r. by eapply runs_load.
Qed.

(** A new local for the value on the stack, and code under its name. *)
Lemma emits_store name gen locals (eff : Effect) :
  (forall slot, emits (gen slot) ((name, slot) :: locals) eff) ->
  emits (fun c => let '(c, slot) := store_new c in gen slot c) locals
    (fun bs st st' => exists v st1, st = v :: st1 /\ eff ((name, v) :: bs) st1 st').
Proof.
  intros Hg c c' Hc. unfold store_new, alloc_local in Hc.
  set (c1 := MkChunk _ _ _ _ _ _) in Hc. set (slot := num_locals c) in Hc. cbv beta iota in Hc.
  assert (slot = num_locals c) as Hsl by done. clearbody slot.
  destruct (Hg slot _ _ Hc) as (code & Hops & Hp & Hrest). exists (StoreLocal slot :: code).
  split_and!; [by rewrite Hops; cbn; rewrite <- app_assoc|by eapply pools_trans|].
  intros Hw Hf. pose proof (fits_mono _ _ _ Hops Hf) as Hf1.
  pose proof Hw as [[Hn1 Hn2] ? ? ? ?]. unfold fits in Hf1. cbn in Hf1. rewrite seq_len_snoc in Hf1.
  assert (num_locals c1 = slot + 1) as Hslot by (rewrite Hsl; cbn; apply as_u16_small; lia).
  assert (well base (emit (StoreLocal slot) c1)) as Hw1.
  { split; [change (0 <= num_locals c1 <= base + seq_len (ops c ++ [StoreLocal slot])); rewrite Hslot|..];
      cbn [emit set_ops ops constants struct_metas struct_update_metas call_targets c1]; rewrite seq_len_snoc; lia. }
  destruct (Hrest Hw1 Hf) as (Hw' & Hn & He). change (num_locals (emit (StoreLocal slot) c1)) with (num_locals c1) in Hn, He.
  split_and!; [done|lia|]. intros Hb loop k l pc bs st st' lv Hk [Hat1 Hat2]%code_at_cons Hlen Henv (v & st1 & -> & Heff).
  destruct (store_local_spec slot v lv) as (lv1 & Hst & Hget & Hag); [lia|].
  destruct (He) with loop k l (S pc) ((name, v) :: bs) st1 st' lv1 as (lv2 & Hr & Hag2); [|done|done| | |done|].
  - change (locals_below ((name, slot) :: locals) (num_locals c1)). rewrite Hslot.
    constructor; [cbn; lia|]. eapply locals_below_weaken; [|exact Hb]. lia.
  - rewrite (proj1 Hag). lia.
  - constructor; [done|]. eapply env_agree; [|exact Hag|exact Henv]. by rewrite Hsl.
  - exists lv2. cbn. rewrite Nat.add_succ_r. split; [eapply runs_trans; [by eapply runs_store|exact Hr]|].
    change (agree (num_locals c1) lv1 lv2) in Hag2. rewrite Hslot in Hag2.
    eapply locals_agree_trans; [|eapply agree_weaken; [|exact Hag]|exact Hag2]; lia.
Qed.

(** *** Jumps *)

Lemma set_jump_at_spec j o c c' : set_jump_at j o c = Ok c' ->
  exists op op', ops c !! j = Some op /\ set_jump o op = Some op' /\ c' = set_ops (<[j := op']> (ops c)) c.
Proof.
  intros Hc. unfold set_jump_at in Hc. inv_bind Hc. apply or_panic_Ok in Hx. inv_bind Hc. apply or_panic_Ok in Hx0.
  injection Hc as <-. eauto.
Qed.

Lemma patch_jump_spec pre op post c c' :
  patch_jump (length pre) c = Ok c' -> ops c = pre ++ op :: post ->
  exists op', set_jump (as_u16 (seq_len post)) op = Some op' /\ c' = set_ops (pre ++ op' :: post) c.
Proof.
  intros (o & op' & Ho & Hs & ->)%set_jump_at_spec Hops. rewrite Hops, list_lookup_middle in Ho by done. simplify_eq.
  exists op'. split.
  - rewrite <- Hs. unfold offset_from. rewrite Hops. unfold seq_len. rewrite length_app. cbn. do 2 f_equal. lia.
  - rewrite Hops, insert_app_r_alt, Nat.sub_diag by lia. done.
Qed.

Lemma patch_body_spec pre op post c c' :
  patch_body (length pre) c = Ok c' -> ops c = pre ++ op :: post ->
  exists op', set_body_len (as_u16 (seq_len post)) op = Some op' /\ c' = set_ops (pre ++ op' :: post) c.
Proof.
  intros Hc Hops. unfold patch_body in Hc. inv_bind Hc. apply or_panic_Ok in Hx. inv_bind Hc. apply or_panic_Ok in Hx0.
  injection Hc as <-. rewrite Hops, list_lookup_middle in Hx by done. simplify_eq. exists x0. split.
  - rewrite <- Hx0. unfold offset_from. rewrite Hops. unfold seq_len. rewrite length_app. cbn. do 2 f_equal. lia.
  - rewrite Hops, insert_app_r_alt, Nat.sub_diag by lia. done.
Qed.

Lemma well_set_ops l c : length l = length (ops c) -> well base c -> well base (set_ops l c).
Proof. intros Hl [[] ? ? ? ?]. assert (seq_len l = seq_len (ops c)) by (unfold seq_len; lia). split; cbn; lia. Qed.

Lemma fits_set_ops l c : length l = length (ops c) -> fits base (set_ops l c) <-> fits base c.
Proof. intros Hl. unfold fits, seq_len. cbn. by rewrite Hl. Qed.

(** Code for a condition, and for both its outcomes, between which jumps choose. *)
Definition compile_branch (jump : Z -> Opcode) (cond then_ else_ : Chunk -> Res Chunk) (c : Chunk) : Res Chunk :=
  c ← cond c;
  let jmp := length (ops c) in
  c ← then_ (emit (jump 0) c);
  let done_jmp := length (ops c) in
  c ← patch_jump jmp (emit (Jump 0) c);
  c ← else_ c;
  patch_jump done_jmp c.

(** A jump taken when the condition is [when]. *)
Record jump_when (jump : Z -> Opcode) (when : bool) : Prop := {
  jump_set : forall o, set_jump o (jump 0) = Some (jump o);
  jump_does : forall o b st, jump_op (jump o) (VBool b :: st) = Some (Ok (if Bool.eqb b when then o else 0, st)) }.

Lemma jump_if_false : jump_when JumpIfFalse false.
Proof. by split. Qed.
Lemma jump_if_true : jump_when JumpIfTrue true.
Proof. by split. Qed.

Lemma runs_jump_when jump when loop k l pc o b st lv :
  jump_when jump when -> l !! pc = Some (jump o) ->
  runs ctx loop k l pc (VBool b :: st) lv (if Bool.eqb b when then S pc + Z.to_nat o else S pc)%nat st lv.
Proof.
  intros [_ Hj] Hl. pose proof (runs_jump ctx loop k l pc (jump o) _ _ _ lv Hl (Hj o b st)) as Hr.
  destruct (Bool.eqb b when); [exact Hr|]. by rewrite Nat.add_0_r in Hr.
Qed.

Lemma emits_branch jump when cond then_ else_ locals (ec et ee : Effect) :
  jump_when jump when -> emits cond locals ec -> emits then_ locals et -> emits else_ locals ee ->
  emits (compile_branch jump cond then_ else_) locals (fun bs st st' =>
    exists b st1, ec bs st (VBool b :: st1) /\ if Bool.eqb b when then ee bs st1 st' else et bs st1 st').
Proof.
  intros Hj H1 H2 H3 c c' Hc. unfold compile_branch in Hc. inv_bind Hc. rename x into c1.
  inv_bind Hc. rename x into c2. inv_bind Hc. rename x into c3. inv_bind Hc. rename x into c4.
  destruct (H1 _ _ Hx) as (code1 & Ho1 & Hp1 & R1), (H2 _ _ Hx0) as (code2 & Ho2 & Hp2 & R2).
  cbn in Ho2. rewrite <- app_assoc in Ho2. cbn in Ho2.
  destruct (patch_jump_spec (ops c1) (jump 0) (code2 ++ [Jump 0]) _ _ Hx1) as (op1 & Hs1 & ->);
    [by cbn; rewrite Ho2, <- app_assoc|]. rewrite (jump_set _ _ Hj) in Hs1. injection Hs1 as <-.
  set (o1 := as_u16 _) in *. destruct (H3 _ _ Hx2) as (code3 & Ho3 & Hp3 & R3). cbn in Ho3.
  assert (length (ops c2) = length (ops c1 ++ jump o1 :: code2)) as Hl2 by (by rewrite Ho2, !length_app).
  rewrite Hl2 in Hc. destruct (patch_jump_spec (ops c1 ++ jump o1 :: code2) (Jump 0) code3 _ _ Hc) as (op2 & Hs2 & ->).
  { rewrite Ho3. by rewrite <- !app_assoc; cbn; rewrite <- !app_assoc. }
  injection Hs2 as <-. set (o2 := as_u16 (seq_len code3)) in *.
  exists (code1 ++ jump o1 :: code2 ++ Jump o2 :: code3). split_and!.
  - cbn. rewrite Ho1. by rewrite <- !app_assoc; cbn; rewrite <- ?app_assoc.
  - eapply pools_trans; [exact Hp1|]. eapply (pools_trans _ c2); [exact Hp2|]. exact Hp3.
  - intros Hw Hf. rewrite fits_set_ops in Hf by (by rewrite Ho3, !length_app; cbn; rewrite !length_app; cbn; lia).
    pose proof (fits_mono (set_ops _ (emit (Jump 0) c2)) _ _ Ho3 Hf) as Hf3. unfold fits in Hf3. cbn in Hf3.
    rewrite seq_len_app in Hf3. cbn in Hf3. rewrite seq_len_cons, seq_len_app in Hf3. change (seq_len [Jump 0]) with 1 in Hf3.
    pose proof (seq_len_nonneg (ops c1)); pose proof (seq_len_nonneg code2); pose proof (seq_len_nonneg code3).
    destruct (R1 Hw) as (Hw1 & Hn1 & E1); [unfold fits; lia|].
    destruct (R2 (well_emit _ _ Hw1)) as (Hw2 & Hn2 & E2); [unfold fits; rewrite Ho2, seq_len_app, seq_len_cons; lia|].
    destruct R3 as (Hw3 & Hn3 & E3); [|exact Hf|].
    { apply well_set_ops; [cbn; rewrite Ho2; rewrite ?length_app; cbn; rewrite ?length_app; cbn; lia|]. by apply well_emit. }
    cbn in Hn2, Hn3. assert (seq_len (ops c1) + 1 + seq_len code2 + 1 + seq_len code3 + base < 2 ^ 16) as Hall.
    { unfold fits in Hf. rewrite Ho3, !seq_len_app in Hf. cbn in Hf. rewrite seq_len_cons, !seq_len_app in Hf.
      change (seq_len [Jump 0]) with 1 in Hf. lia. }
    assert (o1 = seq_len code2 + 1) as Hoff1 by (subst o1; rewrite seq_len_snoc; apply as_u16_small; lia).
    assert (o2 = seq_len code3) as Hoff2 by (apply as_u16_small; lia).
    split_and!; [by apply well_set_ops; [rewrite Ho3, !length_app; cbn; rewrite !length_app; cbn; lia|]|cbn; lia|].
    intros Hb loop k l pc bs st st' lv Hk Hat Hlen He (b & st1 & Hc1 & Hbr). cbn in Hlen.
    apply code_at_app in Hat as [Ha1 [Hj1 [Ha2 [Hj2 Ha3]%code_at_cons]%code_at_app]%code_at_cons].
    assert (pools_in c4 k) as Hk4 by exact Hk.
    assert (pools_in c2 k) as Hk2 by (eapply pools_trans; [|exact Hk4]; exact Hp3).
    destruct (E1 Hb loop k l pc bs st (VBool b :: st1) lv) as (lv1 & Hr1 & Hag1); [eapply pools_trans; [exact Hp2|exact Hk2]|done|lia|done|exact Hc1|].
    assert (env_ok bs locals lv1) as He1 by (by eapply env_agree).
    pose proof (runs_jump_when _ _ loop k l _ o1 b st1 lv1 Hj Hj1) as Hrj. pose proof (proj1 Hag1) as Hlv1.
    destruct (Bool.eqb b when).
    + destruct (E3) with loop k l (pc + length code1 + S (length code2 + 1))%nat bs st1 st' lv1 as (lv2 & Hr2 & Hag2);
        [by eapply locals_below_weaken; [|exact Hb]; cbn; lia|done| |lia|done|done|].
      { eapply code_at_app_at; [exact Ha3|lia]. }
      exists lv2. split; [|eapply locals_agree_trans; [|exact Hag1|eapply agree_weaken; [|exact Hag2]]; [|cbn]; [reflexivity|lia]].
      eapply runs_trans; [exact Hr1|]. eapply runs_trans; [exact Hrj|].
      replace (S (pc + length code1) + Z.to_nat o1)%nat with (pc + length code1 + S (length code2 + 1))%nat
        by (unfold seq_len in *; lia).
      replace (pc + length (code1 ++ jump o1 :: code2 ++ Jump o2 :: code3))%nat
        with (pc + length code1 + S (length code2 + 1) + length code3)%nat; [exact Hr2|].
      rewrite !length_app. cbn. rewrite length_app. cbn. lia.
    + destruct (E2) with loop k l (S (pc + length code1))%nat bs st1 st' lv1 as (lv2 & Hr2 & Hag2);
        [by eapply locals_below_weaken; [|exact Hb]; cbn; lia|exact Hk2|done|lia|done|done|].
      exists lv2. split; [|eapply locals_agree_trans; [|exact Hag1|eapply agree_weaken; [|exact Hag2]]; [|cbn]; [reflexivity|lia]].
      eapply runs_trans; [exact Hr1|]. eapply runs_trans; [exact Hrj|]. eapply runs_trans; [exact Hr2|].
      pose proof (runs_jump ctx loop k l _ _ o2 st' st' lv2 Hj2 eq_refl) as Hrd.
      replace (pc + length (code1 ++ jump o1 :: code2 ++ Jump o2 :: code3))%nat
        with (S (S (pc + length code1) + length code2) + Z.to_nat o2)%nat; [exact Hrd|].
      rewrite !length_app. cbn. rewrite length_app. cbn. unfold seq_len in *. lia.
Qed.

(** *** Conjunctions and disjunctions *)

Lemma set_jump_twice o o' op op' : set_jump o op = Some op' -> set_jump o' op' = set_jump o' op.
Proof. by destruct op; intros [= <-]. Qed.

Lemma set_jumps_spec jumps target : forall c c', set_jumps jumps target c = Ok c' ->
  exists l, c' = set_ops l c /\ length l = length (ops c)
    /\ (forall i, i ∉ jumps -> l !! i = ops c !! i)
    /\ (forall i op, i ∈ jumps -> ops c !! i = Some op ->
         exists op', set_jump (as_u16 (Z.of_nat target - Z.of_nat i - 1)) op = Some op' /\ l !! i = Some op').
Proof.
  induction jumps as [|j jumps IH]; intros c c' Hc.
  - injection Hc as <-. exists (ops c). split_and!; [by destruct c|done|done|]. intros i op []%elem_of_nil.
  - cbn in Hc. inv_bind Hc. apply set_jump_at_spec in Hx as (op0 & op0' & Ho & Hs & ->).
    destruct (IH _ _ Hc) as (l & -> & Hl & Hout & Hin). cbn in Hl, Hout, Hin. rewrite length_insert in Hl.
    exists l. split_and!; [done|done| |].
    + intros i [Hne Hi]%not_elem_of_cons. rewrite Hout by done. by rewrite list_lookup_insert_ne.
    + intros i op Hi Hop. destruct (decide (i ∈ jumps)) as [Hj|Hj].
      * destruct (decide (i = j)) as [->|Hne].
        -- destruct (Hin j op0' Hj) as (op' & Hs' & Hl'); [apply list_lookup_insert_eq; by eapply lookup_lt_Some|].
           exists op'. split; [|done]. simplify_eq. by rewrite <- (set_jump_twice _ _ _ _ Hs).
        -- apply Hin; [done|]. by rewrite list_lookup_insert_ne.
      * apply elem_of_cons in Hi as [->|Hi]; [|done]. simplify_eq. exists op0'. split; [done|].
        rewrite Hout by done. apply list_lookup_insert_eq. by eapply lookup_lt_Some.
Qed.

Section junction.
Context (jump : Z -> Opcode) (when : bool) (Hj : jump_when jump when).
Context (compile : Expr -> Chunk -> Res Chunk) (eval : Expr -> Bindings -> Res RuntimeValue) (locals : LocalTable).

(** Whether an item decides the junction. *)
Fixpoint decided (items : list Expr) (bs : Bindings) : Res bool :=
  match items with
  | [] => Ok false
  | e :: items => v ← eval e bs; b ← expect_bool v; if Bool.eqb b when then Ok true else decided items bs
  end.

(** The code of the items, in a list where the jumps lead to [target]. *)
Definition junction_at (l : list Opcode) (pc start target : nat) (code : list Opcode) (jumps : list nat) : Prop :=
  forall i op, code !! i = Some op ->
    l !! (pc + i)%nat = Some (if decide ((start + i)%nat ∈ jumps)
      then jump (Z.of_nat target - Z.of_nat (start + i) - 1) else op).

Lemma junction_spec items :
  Forall (fun e => emits (compile e) locals (gives (eval e))) items ->
  forall c c1 jumps, compile_junction compile (jump 0) items c = Ok (c1, jumps) ->
  exists code, ops c1 = ops c ++ code /\ pools_in c c1
    /\ (forall j, j ∈ jumps -> (length (ops c) <= j)%nat /\ ops c1 !! j = Some (jump 0))
    /\ (well base c -> fits base c1 -> well base c1 /\ num_locals c <= num_locals c1
        /\ (locals_below locals (num_locals c) -> forall loop k l pc bs st b lv target,
            pools_in c1 k -> num_locals c1 <= seq_len lv -> env_ok bs locals lv -> (length (ops c1) <= target)%nat ->
            junction_at l pc (length (ops c)) target code jumps -> decided items bs = Ok b ->
            exists lv', runs ctx loop k l pc st lv
              (if b then pc + (target - length (ops c)) else pc + length code)%nat st lv' /\ agree (num_locals c) lv lv')).
Proof.
  induction 1 as [|e items He Hitems IH]; intros c c1 jumps Hc; cbn in Hc.
  - injection Hc as <- <-. exists []. split_and!; [by rewrite app_nil_r|apply pools_refl|by intros j []%elem_of_nil|].
    intros Hw Hf. split_and!; [done|done|]. intros _ loop k l pc bs st b lv target _ _ _ _ _ [= <-].
    exists lv. cbn. rewrite Nat.add_0_r. split; [apply runs_refl|apply locals_agree_refl].
  - inv_bind Hc. rename x into ce. inv_bind Hc. destruct x as [cr jr]. injection Hc as <- <-. cbn [fst snd].
    destruct (He _ _ Hx) as (code1 & Ho1 & Hp1 & R1). destruct (IH _ _ _ Hx0) as (code2 & Ho2 & Hp2 & Hjs & R2). clear IH.
    set (jmp := length (ops ce)) in *.
    assert (length (ops (emit (jump 0) ce)) = S jmp) as Hlen_emit by (cbn; rewrite length_app; cbn; lia).
    assert (jmp = length (ops c) + length code1)%nat as Hjmp by (subst jmp; by rewrite Ho1, length_app).
    rewrite Hlen_emit in Hjs. cbn in Ho2. rewrite <- app_assoc in Ho2. cbn in Ho2.
    exists (code1 ++ jump 0 :: code2). split_and!; [by rewrite Ho2, Ho1, <- app_assoc|by eapply pools_trans; [|exact Hp2]| |].
    { intros j [->|Hin]%elem_of_cons.
      - split; [lia|]. rewrite Ho2. by apply list_lookup_middle.
      - destruct (Hjs j Hin) as [Hle Hop]. split; [lia|done]. }
    intros Hw Hf. assert (fits base (emit (jump 0) ce)) as Hfe.
    { unfold fits in *. cbn. rewrite Ho2, seq_len_app, seq_len_cons in Hf. rewrite seq_len_snoc. pose proof (seq_len_nonneg code2). lia. }
    destruct (R1 Hw) as (Hw1 & Hn1 & E1); [unfold fits in *; cbn in Hfe; rewrite seq_len_snoc in Hfe; lia|].
    destruct (R2 (well_emit _ _ Hw1) Hf) as (Hw2 & Hn2 & E2). cbn in Hn2. split_and!; [done|lia|].
    intros Hb loop k l pc bs st b lv target Hk Hlen Henv Ht Hat Hd. cbn in Hd.
    inv_bind Hd. rename x into v. inv_bind Hd. apply expect_bool_Ok in Hx2 as ->. rename x into bv.
    assert (code_at l pc code1) as Ha1.
    { intros i op Hi. rewrite (Hat i op) by (by apply lookup_app_l_Some).
      rewrite decide_False; [done|]. apply lookup_lt_Some in Hi. intros [?|[Hle _]%Hjs]%elem_of_cons; lia. }
    assert (l !! (pc + length code1)%nat = Some (jump (Z.of_nat target - Z.of_nat jmp - 1))) as Hjl.
    { rewrite (Hat _ (jump 0)) by (by apply list_lookup_middle). rewrite decide_True; [by rewrite Hjmp|]. rewrite Hjmp. by left. }
    destruct (E1 Hb loop k l pc bs st (VBool bv :: st) lv) as (lv1 & Hr1 & Hag1);
      [by eapply pools_trans; [|exact Hk]; exact Hp2|done|lia|done|by exists (VBool bv)|].
    assert (env_ok bs locals lv1) as He1 by (by eapply env_agree). pose proof (proj1 Hag1) as Hlv1.
    pose proof (runs_jump_when _ _ loop k l _ _ bv st lv1 Hj Hjl) as Hrj.
    assert (length (ops cr) = jmp + S (length code2))%nat as Hlr by (by rewrite Ho2, length_app).
    destruct (Bool.eqb bv when).
    + injection Hd as <-. exists lv1. split; [|done]. eapply runs_trans; [exact Hr1|].
      replace (pc + (target - length (ops c)))%nat
        with (S (pc + length code1) + Z.to_nat (Z.of_nat target - Z.of_nat jmp - 1))%nat by lia. exact Hrj.
    + destruct (E2) with loop k l (S (pc + length code1))%nat bs st b lv1 target as (lv2 & Hr2 & Hag2);
        [by eapply locals_below_weaken; [|exact Hb]|done|lia|done|done| |done|].
      { intros i op Hi. replace (S (pc + length code1) + i)%nat with (pc + (length code1 + S i))%nat by lia.
        rewrite (Hat _ op) by (by rewrite lookup_app_r, Nat.add_comm, Nat.add_sub by lia).
        rewrite Hlen_emit, Hjmp. replace (length (ops c) + (length code1 + S i))%nat with (S (length (ops c) + length code1) + i)%nat by lia.
        f_equal. apply decide_ext. rewrite elem_of_cons. split; [intros [?|?]; [lia|done]|by right]. }
      exists lv2. split; [|by eapply locals_agree_trans; [exact Hn1|exact Hag1|exact Hag2]].
      eapply runs_trans; [exact Hr1|]. eapply runs_trans; [exact Hrj|].
      rewrite length_app. cbn. rewrite Hlen_emit in Hr2. destruct b.
      * replace (pc + (target - length (ops c)))%nat with (S (pc + length code1) + (target - S jmp))%nat by lia. exact Hr2.
      * replace (pc + (length code1 + S (length code2)))%nat with (S (pc + length code1) + length code2)%nat by lia. exact Hr2.
Qed.
End junction.

Lemma split_prefix {A} (p L : list A) :
  (length p <= length L)%nat -> (forall i, (i < length p)%nat -> L !! i = p !! i) -> L = p ++ drop (length p) L.
Proof.
  intros Hle Hl. rewrite <- (take_drop (length p) L) at 1. f_equal. apply list_eq. intros i.
  destruct (decide (i < length p)%nat) as [Hi|Hi].
  - rewrite lookup_take_lt by done. by apply Hl.
  - rewrite lookup_take_ge, lookup_ge_None_2 by lia. done.
Qed.

(** The chunk of a short circuit: the items, with their jumps led to the last
    instruction, and both constants. *)
Lemma short_circuit_code jump when compile if_all if_any e items c c' :
  jump_when jump when ->
  compile_short_circuit compile (jump 0) if_all if_any (e :: items) c = Ok c' ->
  (forall c c1 jumps, compile_junction compile (jump 0) (e :: items) c = Ok (c1, jumps) ->
     exists code, ops c1 = ops c ++ code /\ forall j, j ∈ jumps -> (length (ops c) <= j)%nat /\ ops c1 !! j = Some (jump 0)) ->
  exists c1 jumps code, compile_junction compile (jump 0) (e :: items) c = Ok (c1, jumps)
    /\ ops c1 = ops c ++ code
    /\ let c4 := emit_const (VBool if_any) (emit (Jump 0) (emit_const (VBool if_all) c1)) in
       exists code', c' = set_ops (ops c ++ code' ++ [LoadConst (as_u16 (seq_len (constants c1))); Jump 1;
           LoadConst (as_u16 (seq_len (constants c1) + 1))]) c4
       /\ length code' = length code
       /\ forall i op, code !! i = Some op -> code' !! i =
            if decide ((length (ops c) + i)%nat ∈ jumps)
            then Some (jump (as_u16 (Z.of_nat (length (ops c1) + 2) - Z.of_nat (length (ops c) + i) - 1))) else Some op.
Proof.
  intros Hj Hc Hjun. cbn [compile_short_circuit] in Hc. inv_bind Hc. destruct x as [c1 jumps].
  cbn [fst snd] in Hc. destruct (Hjun _ _ _ Hx) as (code & Ho & Hjs). exists c1, jumps, code. split_and!; [done..|].
  inv_bind Hc. rename x into c5. set (c4 := emit_const (VBool if_any) _) in *.
  assert (ops c4 = ops c1 ++ [LoadConst (as_u16 (seq_len (constants c1))); Jump 0;
    LoadConst (as_u16 (seq_len (constants c1) + 1))]) as Ho4.
  { cbn. rewrite seq_len_snoc. by rewrite <- !app_assoc. }
  replace (length (ops (emit (Jump 0) (emit_const (VBool if_all) c1)))) with (length (ops c1) + 2)%nat in Hx0
    by (cbn; rewrite !length_app; cbn; lia).
  replace (length (ops (emit_const (VBool if_all) c1))) with (length (ops c1) + 1)%nat in Hc
    by (cbn; rewrite !length_app; cbn; lia).
  destruct (set_jumps_spec _ _ _ _ Hx0) as (L & -> & HlL & Hout & Hin). rewrite Ho4 in *.
  assert (forall j, j ∈ jumps -> (j < length (ops c1))%nat) as Hjlt.
  { intros j Hjj. destruct (Hjs j Hjj) as [_ Hl]. by eapply lookup_lt_Some. }
  set (code' := take (length code) (drop (length (ops c)) L)).
  rewrite length_app in HlL. cbn in HlL. assert (length (ops c1) = length (ops c) + length code)%nat as Hl1
    by (by rewrite Ho, length_app).
  assert (length code' = length code) as Hlc by (subst code'; rewrite length_take, length_drop; lia).
  assert (L = ops c ++ code' ++ [LoadConst (as_u16 (seq_len (constants c1))); Jump 0;
    LoadConst (as_u16 (seq_len (constants c1) + 1))]) as HL.
  { rewrite (split_prefix (ops c) L) at 1; [|lia|].
    - f_equal. rewrite <- (take_drop (length code) (drop (length (ops c)) L)) at 1. f_equal.
      rewrite drop_drop. apply list_eq. intros i. rewrite lookup_drop, Hout.
      + rewrite lookup_app_r by lia. f_equal. lia.
      + intros Hjj%Hjlt. lia.
    - intros i Hi. rewrite Hout by (intros [? _]%Hjs; lia). rewrite Ho, <- app_assoc. by rewrite lookup_app_l. }
  exists code'. rewrite HL in Hc. rewrite app_assoc in Hc. cbn in Hc.
  assert (length (ops c1) + 1 = length ((ops c ++ code') ++ [LoadConst (as_u16 (seq_len (constants c1)))]))%nat as Hpre
    by (rewrite !length_app; cbn; lia).
  rewrite Hpre in Hc. apply patch_jump_spec with (op := Jump 0) (post := [LoadConst (as_u16 (seq_len (constants c1) + 1))]) in Hc
    as (op' & [= <-] & ->); [|by cbn; rewrite <- !app_assoc].
  split_and!; [cbn; by rewrite <- !app_assoc|done|]. intros i op Hi. pose proof (lookup_lt_Some _ _ _ Hi) as Hlt.
  unfold code'. rewrite lookup_take_lt, lookup_drop by done. case_decide as Hd.
  - destruct (Hin _ (jump 0) Hd) as (op' & Hs & Hl').
    + rewrite lookup_app_l by lia. by apply Hjs.
    + rewrite (jump_set _ _ Hj) in Hs. by injection Hs as <-.
  - rewrite Hout by done. rewrite Ho, <- app_assoc, lookup_app_r by lia.
    rewrite lookup_app_l by lia. by replace (length (ops c) + i - length (ops c))%nat with i by lia.
Qed.

Lemma well_emit_const v c : well base c -> well base (emit_const v c).
Proof. intros [[] ? ? ? ?]. split; cbn; rewrite ?seq_len_snoc; lia. Qed.
Lemma pools_emit_const v c : pools_in c (emit_const v c).
Proof. split_and!; cbn; try done. by apply prefix_app_r. Qed.

(** A constant that is loaded. *)
Lemma runs_const loop k l pc n v st lv :
  l !! pc = Some (LoadConst n) -> seq_get (constants k) n = Some v -> runs ctx loop k l pc st lv (S pc) (v :: st) lv.
Proof. intros Hl Hv. eapply runs_stack_op; [done|]. cbn. by rewrite Hv. Qed.

Lemma emits_short_circuit jump when compile eval if_all if_any items locals :
  jump_when jump when -> Forall (fun e => emits (compile e) locals (gives (eval e))) items ->
  emits (compile_short_circuit compile (jump 0) if_all if_any items) locals
    (gives (fun bs => b ← decided when eval items bs; Ok (VBool (if b : bool then if_any else if_all)))).
Proof.
  intros Hj Hitems. destruct items as [|e items].
  { eapply emits_conseq; [|eapply emits_const]. by intros bs st st' (v & [= <-] & ->); exists (VBool if_all). }
  intros c c' Hc. pose proof (junction_spec jump when Hj compile eval locals _ Hitems) as Hjun.
  destruct (short_circuit_code _ _ _ _ _ _ _ _ _ Hj Hc) as (c1 & jumps & code & Hx & Ho & code' & -> & Hlc & Hcode').
  { intros d d1 js Hd. destruct (Hjun _ _ _ Hd) as (cd & ? & _ & ? & _). eauto. }
  destruct (Hjun _ _ _ Hx) as (code0 & Ho0 & Hp & Hjs & R). rewrite Ho in Ho0. apply (app_inv_head (ops c)) in Ho0 as <-.
  set (c4 := emit_const (VBool if_any) _) in *. set (n := seq_len (constants c1)) in *.
  assert (pools_in c1 c4) as Hp4.
  { eapply pools_trans; [apply pools_emit_const|]. eapply pools_trans; [apply pools_emit|apply pools_emit_const]. }
  exists (code' ++ [LoadConst (as_u16 n); Jump 1; LoadConst (as_u16 (n + 1))]). split_and!; [done|by eapply pools_trans|].
  intros Hw Hf. assert (length (ops c4) = length (ops c ++ code' ++ [LoadConst (as_u16 n); Jump 1; LoadConst (as_u16 (n + 1))])) as Hl4.
  { unfold c4. cbn. rewrite Ho, !length_app, Hlc. cbn. lia. }
  apply fits_set_ops in Hf; [|done]. assert (fits base c1 /\ base + seq_len (ops c1) + 3 < 2 ^ 16) as [Hf1 Hf3].
  { unfold fits in *. unfold c4 in Hf. cbn in Hf. rewrite !seq_len_snoc in Hf. lia. }
  destruct (R Hw Hf1) as (Hw1 & Hn & E).
  split_and!; [apply well_set_ops; [done|]; by apply well_emit_const, well_emit, well_emit_const|done|].
  intros Hb loop k l pc bs st st' lv Hk [Ha1 [Hc1 [Hj1 [Hc2 _]%code_at_cons]%code_at_cons]%code_at_cons]%code_at_app Hlen Henv
    (v & Hv & ->).
  inv_bind Hv. rename x into b. injection Hv as <-. rewrite Hlc in *.
  destruct (E Hb loop k l pc bs st b lv (length (ops c1) + 2)%nat) as (lv1 & Hr & Hag);
    [by eapply pools_trans; [|exact Hk]|done|done|lia| |done|].
  { intros i op Hi. pose proof (Hcode' _ _ Hi) as Hi'. pose proof (lookup_lt_Some _ _ _ Hi) as Hlt.
    assert (length (ops c1) = length (ops c) + length code)%nat as Hl1 by (by rewrite Ho, length_app).
    case_decide; [|by apply Ha1]. apply Ha1. rewrite Hi'. do 2 f_equal. apply as_u16_small. unfold seq_len in *. lia. }
  assert (0 <= n /\ n + 1 < 2 ^ 16) as [Hn0 Hn1].
  { pose proof (well_constants _ _ Hw1). pose proof (seq_len_nonneg (constants c1)). subst n. lia. }
  rewrite as_u16_small in Hc1, Hc2 by lia.
  assert (seq_get (constants k) n = Some (VBool if_all) /\ seq_get (constants k) (n + 1) = Some (VBool if_any)) as [Hk1 Hk2].
  { destruct Hk as [Hk _]. cbn in Hk. split; (eapply prefix_get; [exact Hk|]).
    - eapply prefix_get; [apply prefix_app_r; reflexivity|]. apply pool_get_last.
    - unfold n. rewrite <- (seq_len_snoc (constants c1) (VBool if_all)). apply pool_get_last. }
  assert (length (ops c1) = length (ops c) + length code)%nat as Hl1 by (by rewrite Ho, length_app).
  exists lv1. split; [|done]. rewrite length_app, Hlc. cbn. destruct b.
  - eapply runs_trans; [exact Hr|].
    replace (pc + (length (ops c1) + 2 - length (ops c)))%nat with (S (S (pc + length code))) by lia.
    replace (pc + (length code + 3))%nat with (S (S (S (pc + length code)))) by lia. by eapply runs_const.
  - eapply runs_trans; [exact Hr|]. eapply runs_trans; [by eapply runs_const|].
    replace (pc + (length code + 3))%nat with (S (S (pc + length code)) + Z.to_nat 1)%nat by lia. by eapply runs_jump.
Qed.
End emits.
