(* ===== verification/CompilerBodies.v ===== *)
(** * Laws of the bytecode compiler: bodies

    The code of quantifiers and closures, whose bodies the machine runs once for each
    value of a domain, and the code of [match], whose arms are tried in order. *)

From stdpp Require Import prelude gmap sets list numbers fin_sets strings.
From Stdlib Require Import ZArith Lia.
From S2P Require Import Prelude.
From S2P Require Import RuntimeValue.
From S2P Require Import SpecAst.
From S2P Require Import EvalOps.
From S2P Require Import Evaluator.
From S2P Require Import Bytecode.
From S2P Require Import BytecodeVm.
From S2P Require Import VmLaws.
From S2P Require Import CompilerLaws.

#[local] Open Scope Z_scope.

(** ** Loops over a body *)

Section loops.
Context (body : Locals -> BodyResult RuntimeValue) (slot : Z) (P : Locals -> Prop) (sem : RuntimeValue -> Res RuntimeValue).

(** With the variable set, the body gives the value; the locals stay well. *)
Definition body_law : Prop := forall x y lv, P lv -> sem x = Ok y ->
  exists lv1 lv2, store_local slot x lv = Some lv1 /\ body lv1 = Some (Ok y, lv2) /\ P lv2.

Context (Hbody : body_law).

Lemma run_body_law {A} x y lv (next : RuntimeValue -> Locals -> BodyResult A) :
  P lv -> sem x = Ok y -> exists lv', P lv' /\ run_body body slot x lv next = next y lv'.
Proof.
  intros HP Hs. destruct (Hbody x y lv HP Hs) as (lv1 & lv2 & Hst & Hb & HP2). exists lv2. split; [done|].
  unfold run_body. by rewrite Hst, Hb.
Qed.

Definition sem_bool (v : RuntimeValue) : Res bool := w ← sem v; expect_bool w.

Lemma quantifier_loop kind domain : forall b lv,
  quantify_values kind sem_bool domain = Ok b -> P lv ->
  exists lv', (match kind with Forall_ => forall_loop | Exists_ => exists_loop end) body slot domain lv = Some (Ok (VBool b), lv')
    /\ P lv'.
Proof.
  induction domain as [|x domain IH]; intros b lv Hq HP.
  - cbn in Hq. destruct kind; injection Hq as <-; by exists lv.
  - cbn in Hq. inv_bind Hq. unfold sem_bool in Hx. inv_bind Hx.
    apply expect_bool_Ok in Hx as ->.
    destruct kind, x0; cbn.
    all: match goal with |- context [run_body _ _ _ _ ?next] =>
      destruct (run_body_law _ _ lv next HP Hx0) as (lv1 & HP1 & Hrun) end; rewrite Hrun; cbn.
    all: first [injection Hq as <-; by exists lv1 | by apply IH].
Qed.

Lemma map_loop_law values : forall ws lv, map_all sem values = Ok ws -> P lv ->
  exists lv', map_loop body slot values lv = Some (Ok ws, lv') /\ P lv'.
Proof.
  induction values as [|x values IH]; intros ws lv Hm HP; cbn in Hm.
  - injection Hm as <-. by exists lv.
  - inv_bind Hm. inv_bind Hm. injection Hm as <-. cbn.
    match goal with |- context [run_body _ _ _ _ ?next] =>
      destruct (run_body_law _ _ lv next HP Hx) as (lv1 & HP1 & Hrun) end. rewrite Hrun.
    destruct (IH _ lv1 Hx0 HP1) as (lv2 & Hl & HP2). exists lv2. by rewrite Hl.
Qed.
End loops.

Section bodies.
Context `{Handles} (ctx : EvalContext) (base : Z) (Hbase : 0 <= base).

(** An instruction with a body, whose loop does what [eff] says when the body
    follows [sem]. *)
Record body_instruction (mk : Z -> Z -> Opcode) (name : Str) (sem : Bindings -> Res RuntimeValue) (eff : Effect) : Prop := {
  body_set : forall slot bl, set_body_len bl (mk slot 0) = Some (mk slot bl);
  body_does : forall bs st st', eff bs st st' -> exists v st1, st' = v :: st1 /\ forall slot bl,
    exists with_body, body_op ctx (mk slot bl) st = Some (slot, bl, Ok (with_body, st1))
      /\ forall body P lv, body_law body slot P (fun x => sem ((name, x) :: bs)) -> P lv ->
         exists lv', with_body body lv = Some (Ok v, lv') /\ P lv' }.

Definition compile_body (mk : Z -> Z -> Opcode) (gen : Z -> Chunk -> Res Chunk) (c : Chunk) : Res Chunk :=
  let '(c, slot) := alloc_local c in
  let q_idx := length (ops c) in
  c ← gen slot (emit (mk slot 0) c);
  patch_body q_idx c.

(** A body that has been compiled follows what its expression means. *)
Lemma compiled_body_law name gen locals sem slot c c' code k bs lv0 :
  emits ctx base gen ((name, slot) :: locals) (gives sem) ->
  has_effect ctx ((name, slot) :: locals) (gives sem) c c' code ->
  num_locals c = slot + 1 -> 0 <= slot -> locals_below locals slot -> pools_in c' k -> num_locals c <= num_locals c' ->
  num_locals c' <= seq_len lv0 -> env_ok bs locals lv0 ->
  body_law (fun lv => vm_run ctx (S (length code)) BodyLoop k (code ++ [Return]) 0 [] lv) slot (agree slot lv0)
    (fun x => sem ((name, x) :: bs)).
Proof.
  intros Hg He Hn Hs Hb Hk Hnn Hlen Henv x y lv Hag Hsem.
  destruct (store_local_spec slot x lv) as (lv1 & Hst & Hget & Hag1); [rewrite (proj1 Hag); lia|].
  destruct (He) with BodyLoop k (code ++ [Return]) 0%nat ((name, x) :: bs) ([] : Stack) [y] lv1 as (lv2 & Hr & Hag2).
  - rewrite Hn. constructor; [cbn; lia|]. eapply locals_below_weaken; [|exact Hb]. lia.
  - done.
  - by apply code_at_app with (b := [Return]), code_at_whole.
  - rewrite (proj1 Hag1), (proj1 Hag). lia.
  - constructor; [done|]. eapply env_agree; [exact Hb|exact Hag1|]. by eapply env_agree.
  - by exists y.
  - exists lv1, lv2. split_and!; [done|eapply body_value; [exact Hr|lia]|].
    eapply locals_agree_trans; [reflexivity|exact Hag|]. eapply locals_agree_trans; [reflexivity|exact Hag1|].
    eapply agree_weaken; [|exact Hag2]. lia.
Qed.

Lemma emits_body mk name gen locals sem (eff : Effect) :
  body_instruction mk name sem eff ->
  (forall slot, emits ctx base (gen slot) ((name, slot) :: locals) (gives sem)) ->
  emits ctx base (compile_body mk gen) locals eff.
Proof.
  intros Hi Hg c c' Hc. unfold compile_body, alloc_local in Hc. set (c1 := MkChunk _ _ _ _ _ _) in Hc.
  set (slot := num_locals c) in Hc. assert (slot = num_locals c) as Hsl by done. clearbody slot. cbv beta iota in Hc.
  inv_bind Hc. rename x into c2. destruct (Hg slot _ _ Hx) as (code & Ho & Hp & R). cbn in Ho. rewrite <- app_assoc in Ho. cbn in Ho.
  destruct (patch_body_spec (ops c) (mk slot 0) code _ _ Hc Ho) as (op' & Hop & ->). rewrite (body_set _ _ _ _ Hi) in Hop. injection Hop as <-.
  set (bl := as_u16 (seq_len code)). exists (mk slot bl :: code). split_and!; [done|exact Hp|]. intros Hw Hf.
  rewrite fits_set_ops in Hf by (by rewrite Ho, !length_app).
  pose proof Hw as [[Hn1 Hn2] ? ? ? ?]. unfold fits in Hf. rewrite Ho, seq_len_app, seq_len_cons in Hf. pose proof (seq_len_nonneg code).
  assert (num_locals c1 = slot + 1) as Hslot by (rewrite Hsl; cbn; apply as_u16_small; lia).
  assert (well base (emit (mk slot 0) c1)) as Hw1.
  { split; [change (0 <= num_locals c1 <= base + seq_len (ops c ++ [mk slot 0])); rewrite Hslot|..];
      cbn [emit set_ops ops constants struct_metas struct_update_metas call_targets c1]; rewrite seq_len_snoc; lia. }
  destruct (R Hw1) as (Hw2 & Hn & E); [unfold fits; rewrite Ho, seq_len_app, seq_len_cons; lia|].
  change (num_locals (emit (mk slot 0) c1)) with (num_locals c1) in Hn.
  assert (bl = seq_len code) as Hbl by (apply as_u16_small; pose proof (seq_len_nonneg (ops c)); lia).
  split_and!; [apply well_set_ops; [by rewrite Ho, !length_app|done]|cbn; lia|].
  intros Hb loop k l pc bs st st' lv Hk [Hat1 Hat2]%code_at_cons Hlen Henv Heff. cbn in Hlen.
  destruct (body_does _ _ _ _ Hi _ _ _ Heff) as (v & st1 & -> & Hwb). destruct (Hwb slot bl) as (wb & Hop & Hloop).
  rewrite <- Hsl in *. destruct (Hloop (fun lv => vm_run ctx (S (length code)) BodyLoop k (code ++ [Return]) 0 [] lv) (agree slot lv) lv)
    as (lv' & Hrun & Hag); [|apply locals_agree_refl|].
  { eapply compiled_body_law; [exact (Hg slot)|exact E|exact Hslot|lia|done|done|exact Hn|done|done]. }
  exists lv'. split; [|done]. cbn. replace (pc + S (length code))%nat with (S pc + Z.to_nat bl)%nat by (unfold seq_len in *; lia).
  eapply runs_body; [done|exact Hop|lia|rewrite Hbl; by eapply code_at_body|].
  intros f Hfuel. eapply body_op_mono; [|exact Hop|exact Hrun]. intros lv1 r Hr. eapply vm_run_mono; [|exact Hr]. unfold seq_len in *. lia.
Qed.

(** *** Quantifiers *)

Definition quantifier_of (kind : QuantifierKind) : QuantifierOp := match kind with Forall_ => QForall | Exists_ => QExists end.
Definition opcode_of (op : QuantifierOp) (slot bl : Z) : Opcode :=
  match op with QForall => OpForall slot bl | QExists => OpExists slot bl | QChoose => OpChoose slot bl end.

(** The machine asks for the domain of an integer of its own making. *)
Definition int_var (b : Binding) : bool := match binding_ty b with Some TInt => true | _ => false end.
Definition same_domains : Prop := forall domain b slot,
  quantifier_domain_evaluator ctx = Some domain -> int_var b = true -> domain b = domain (dummy_binding slot).

Context (Hdomains : same_domains).

Definition domain_evaluator : Res (Binding -> Res (list RuntimeValue)) :=
  ok_or UnsupportedPattern (quantifier_domain_evaluator ctx).

Lemma quantifier_instruction kind name b sem :
  int_var b = true ->
  body_instruction (opcode_of (quantifier_of kind)) name sem
    (gives (fun bs => domain ← domain_evaluator; d ← domain b;
       r ← quantify_values kind (fun v => w ← sem ((name, v) :: bs); expect_bool w) d; Ok (VBool r))).
Proof.
  intros Hint. split; [by destruct kind|]. intros bs st st' (v & Hv & ->). inv_bind Hv. apply ok_or_Ok in Hx as Hd.
  inv_bind Hv. rename x0 into values. inv_bind Hv. injection Hv as <-. rename x0 into r. exists (VBool r), st. split; [done|].
  intros slot bl. exists (fun body => vm_eval_quantifier ctx (quantifier_of kind) body slot). split; [by destruct kind|].
  intros body P lv Hbody HP. destruct (quantifier_loop body slot P _ Hbody kind values r lv Hx1 HP) as (lv' & Hl & HP').
  exists lv'. split; [|done]. unfold vm_eval_quantifier. rewrite Hd, <- (Hdomains _ b slot Hd Hint), Hx0. by destruct kind.
Qed.

Lemma quantify_values_ext kind f g d : (forall x, f x = g x) -> quantify_values kind f d = quantify_values kind g d.
Proof. intros Hfg. induction d as [|x d IH]; cbn; [done|]. by rewrite Hfg, IH. Qed.

Lemma emits_quantifier kind vars : forall locals body sem,
  forallb int_var vars = true ->
  (forall locals, emits ctx base (body locals) locals (gives sem)) ->
  emits ctx base (compile_quantifier (quantifier_of kind) body vars locals) locals
    (gives (fun bs => domain ← domain_evaluator; b ← eval_quantifier_bindings kind domain sem vars bs; Ok (VBool b))).
Proof.
  induction vars as [|b vars IH]; intros locals body sem Hint Hbody; cbn [compile_quantifier eval_quantifier_bindings].
  - eapply emits_conseq; [|apply Hbody]. intros bs st st' (v & Hv & ->). inv_bind Hv. inv_bind Hv. injection Hv as <-.
    inv_bind Hx0. apply expect_bool_Ok in Hx0 as ->. by eexists.
  - apply andb_prop in Hint as [Hb Hint]. destruct (pattern b) as [|name| | | |]; try (intros c c' [=]; fail).
    eapply emits_ext with (gen := compile_body (opcode_of (quantifier_of kind))
      (fun slot => compile_quantifier (quantifier_of kind) body vars ((name, slot) :: locals))); [by destruct kind|].
    eapply emits_conseq; [|eapply emits_body; [by apply (quantifier_instruction kind name b)|]; intros slot; by apply IH].
    intros bs st st' (v & Hv & ->). inv_bind Hv. inv_bind Hv. injection Hv as <-. inv_bind Hx0. eexists. split; [|done].
    rewrite Hx. cbn. rewrite Hx1. cbn. erewrite quantify_values_ext; [by rewrite Hx0|].
    intros y. cbn. by destruct (eval_quantifier_bindings kind x sem vars ((name, y) :: bs)).
Qed.

(** *** [Map::new] *)

Lemma map_new_instruction name sem :
  body_instruction MapNewClosure name sem (fun bs st st' => exists d v st1, st = d :: st1 /\ st' = v :: st1 /\
    (keys ← set_elements d; vs ← map_all (fun x => sem ((name, x) :: bs)) keys;
     bounded (map_bounded (zip keys vs) (bounds ctx))) = Ok v).
Proof.
  split; [done|]. intros bs st st' (d & v & st1 & -> & -> & Hv). inv_bind Hv. rename x into keys. inv_bind Hv. rename x into vs.
  exists v, st1. split; [done|]. intros slot bl. exists (fun body => vm_eval_map_new_closure ctx body slot d). split; [done|].
  intros body P lv Hbody HP. destruct (map_loop_law body slot P _ Hbody keys vs lv Hx0 HP) as (lv' & Hl & HP').
  exists lv'. split; [|done]. unfold vm_eval_map_new_closure. rewrite Hx, Hl. cbn. by rewrite Hv.
Qed.

(** *** Match

    The arms are compiled like nested conditionals, but for when the jumps to the end
    are given their offsets. *)

Lemma emits_weaken gen locals locals' (eff : Effect) f :
  (forall bs lv, env_ok bs locals' lv -> env_ok (f bs) locals lv) ->
  (forall n, locals_below locals' n -> locals_below locals n) ->
  emits ctx base gen locals eff -> emits ctx base gen locals' (fun bs => eff (f bs)).
Proof.
  intros Henv Hb Hg c c' Hc. destruct (Hg c c' Hc) as (code & Ho & Hp & R). exists code. split_and!; [done..|].
  intros Hw Hf. destruct (R Hw Hf) as (Hw' & Hn & E). split_and!; [done..|].
  intros Hb' loop k l pc bs st st' lv Hk Hat Hlen He Heff. by eapply E; eauto.
Qed.

Lemma patch_jump_case j c : (exists op op', ops c !! j = Some op /\ (forall o, set_jump o op = Some (op' o))
    /\ patch_jump j c = Ok (set_ops (<[j := op' (offset_from j c)]> (ops c)) c)) \/ patch_jump j c = Panic.
Proof.
  unfold patch_jump, set_jump_at. destruct (ops c !! j) as [op|] eqn:Ho; [|by right].
  destruct op; try (by right); left; eexists _, _; split_and!; try done.
Qed.

Lemma patch_jump_comm i j c : (c ← patch_jump i c; patch_jump j c) = (c ← patch_jump j c; patch_jump i c).
Proof.
  destruct (decide (i = j)) as [->|Hne]; [done|].
  destruct (patch_jump_case i c) as [(op & op' & Hi & Hsi & Hpi)|Hi], (patch_jump_case j c) as [(oq & oq' & Hj & Hsj & Hpj)|Hj].
  - rewrite Hpi, Hpj. cbn. unfold patch_jump, set_jump_at. cbn. rewrite !list_lookup_insert_ne, Hi, Hj by done. cbn.
    rewrite Hsi, Hsj. cbn. unfold offset_from. cbn. unfold seq_len. rewrite !length_insert. unfold set_ops. cbn. do 2 f_equal.
    by rewrite list_insert_insert_ne.
  - rewrite Hpi, Hj. cbn. unfold patch_jump, set_jump_at in *. cbn. rewrite list_lookup_insert_ne by done.
    by destruct (ops c !! j) as [[]|].
  - rewrite Hi, Hpj. cbn. unfold patch_jump, set_jump_at in *. cbn. rewrite list_lookup_insert_ne by done.
    by destruct (ops c !! i) as [[]|].
  - by rewrite Hi, Hj.
Qed.

Lemma patch_jumps_comm i jumps : forall c, (c ← patch_jump i c; patch_jumps jumps c) = (c ← patch_jumps jumps c; patch_jump i c).
Proof.
  induction jumps as [|j jumps IH]; intros c; cbn; [by destruct (patch_jump i c)|].
  transitivity (c ← (c ← patch_jump i c; patch_jump j c); patch_jumps jumps c); [by destruct (patch_jump i c)|].
  rewrite patch_jump_comm. destruct (patch_jump j c) as [c1| |]; cbn; [apply IH|done..].
Qed.

(** The patterns that the compiled code treats as the evaluator does: without parts,
    and without integers. *)
Definition simple_pattern (p : Pattern) : bool :=
  match p with PWildcard | PIdent _ | PLiteral (LBool _) | PLiteral (LString _) => true | _ => false end.
Definition simple_arm (arm : Pattern * option Expr * Expr) : bool :=
  simple_pattern arm.1.1 && match arm.1.2 with None => true | Some _ => false end.

Section arms.
Context (compile : Expr -> LocalTable -> Chunk -> Res Chunk) (eval : Expr -> Bindings -> Res RuntimeValue).

Definition compile_arm (p : Pattern) (body : Expr) (scrut_slot : Z) (locals : LocalTable) (c : Chunk) : Res Chunk :=
  let '(c, locals) := compile_pattern_bind p scrut_slot c locals in compile body locals c.

Fixpoint compile_nested (scrut_slot : Z) (arms : list (Pattern * option Expr * Expr)) (locals : LocalTable) (c : Chunk)
  : Res Chunk :=
  match arms with
  | [] => Ok (emit_const VUnit c)
  | (p, _, body) :: arms =>
      compile_branch JumpIfFalse (fun c => Ok (compile_pattern_check p scrut_slot c)) (compile_arm p body scrut_slot locals)
        (compile_nested scrut_slot arms locals) c
  end.

Lemma compile_arms_nested scrut_slot arms locals : forall c,
  forallb simple_arm arms = true ->
  (r ← compile_arms compile scrut_slot arms locals c; patch_jumps r.2 (emit_const VUnit r.1))
  = compile_nested scrut_slot arms locals c.
Proof.
  induction arms as [|[[p guard] body] arms IH]; intros c Hs; [done|].
  apply andb_prop in Hs as [Harm Hs]. apply andb_prop in Harm as [_ Hg]. cbn in Hg. destruct guard; [done|].
  cbn [compile_arms compile_nested]. unfold compile_branch, compile_arm. cbn.
  destruct (compile_pattern_bind p scrut_slot (emit (JumpIfFalse 0) (compile_pattern_check p scrut_slot c)) locals) as [c1 locals1].
  destruct (compile body locals1 c1) as [c2| |]; cbn; [|done..].
  destruct (patch_jump _ (emit (Jump 0) c2)) as [c3| |]; cbn; [|done..].
  rewrite <- (IH c3 Hs). destruct (compile_arms compile scrut_slot arms locals c3) as [[c4 js]| |]; cbn; [|done..].
  apply patch_jumps_comm.
Qed.

(** The environment with the scrutinee on top. *)
Definition on_scrutinee (eff : RuntimeValue -> Effect) : Effect :=
  fun bs st st' => exists v bs', bs = ([], v) :: bs' /\ eff v bs' st st'.

Lemma emits_pattern_check p scrut_slot locals :
  simple_pattern p = true ->
  emits ctx base (fun c => Ok (compile_pattern_check p scrut_slot c)) (([], scrut_slot) :: locals)
    (on_scrutinee (fun v _ st st' => st' = VBool (if match_pattern p v [] then true else false) :: st)).
Proof.
  intros Hp.
  assert (forall v, emits ctx base (fun c => Ok (emit OpEq (emit_const v (emit (LoadLocal scrut_slot) c)))) (([], scrut_slot) :: locals)
    (on_scrutinee (fun w _ st st' => st' = VBool (value_eqb w v) :: st))) as Heq.
  { intros v. eapply emits_ext with (gen := fun c => c ← Ok (emit (LoadLocal scrut_slot) c); c ← Ok (emit_const v c); Ok (emit OpEq c)); [done|].
    eapply emits_conseq; [|eapply emits_seq; [by apply (emits_load ctx base [])|eapply emits_seq; [by apply emits_const|]]].
    2:{ apply (emits_op ctx base OpEq) with (eff := fun _ st st' => exists a b st1, st = b :: a :: st1 /\ st' = VBool (value_eqb a b) :: st1).
        by intros loop k bs st st' (a & b & st1 & -> & ->). }
    intros bs st st' (w & bs' & -> & ->). exists (w :: st). split; [by exists w|].
    exists (v :: w :: st). split; [by exists v|]. by exists w, v, st. }
  destruct p as [|name| | | |[b|n|s]]; try done; cbn [compile_pattern_check].
  1,2: eapply emits_conseq; [|by apply emits_const]; intros bs st st' (v & bs' & -> & ->); by eexists.
  - eapply emits_conseq; [|apply Heq]. intros bs st st' (v & bs' & -> & ->). exists v, bs'. split; [done|].
    by destruct v; cbn; repeat case_bool_decide.
  - eapply emits_conseq; [|apply Heq]. intros bs st st' (v & bs' & -> & ->). exists v, bs'. split; [done|].
    by destruct v; cbn; repeat case_bool_decide.
Qed.

Lemma emits_arm p body scrut_slot locals :
  simple_pattern p = true -> (forall locals, emits ctx base (compile body locals) locals (gives (eval body))) ->
  emits ctx base (compile_arm p body scrut_slot locals) (([], scrut_slot) :: locals)
    (on_scrutinee (fun v bs st st' => exists new w, match_pattern p v [] = Some new /\ eval body (reverse new ++ bs) = Ok w /\ st' = w :: st)).
Proof.
  intros Hp Hbody.
  assert (emits ctx base (compile body locals) (([], scrut_slot) :: locals)
    (on_scrutinee (fun v bs st st' => exists w, eval body bs = Ok w /\ st' = w :: st))) as Hplain.
  { eapply emits_conseq; [|eapply (emits_weaken _ locals _ (gives (eval body)) tail); [| |apply Hbody]].
    - intros bs st st' (v & bs' & -> & w & Hw & ->). by exists w.
    - intros bs lv He. by inversion He.
    - intros n Hb. by inversion Hb. }
  destruct p as [|name| | | |lit]; try done; unfold compile_arm; cbn [compile_pattern_bind].
  - eapply emits_conseq; [|exact Hplain]. intros bs st st' (v & bs' & -> & new & w & [= <-] & Hw & ->). by exists v, bs'; eauto.
  - eapply emits_ext with (gen := fun c => c ← Ok (emit (LoadLocal scrut_slot) c);
      let '(c, slot) := store_new c in compile body ((name, slot) :: locals) c); [done|].
    eapply emits_conseq; [|eapply emits_seq; [by apply (emits_load ctx base [])|apply (emits_store ctx base name)]].
    2:{ intros slot. apply (emits_weaken _ ((name, slot) :: locals) _ (gives (eval body)) (fun bs => match bs with b :: _ :: bs => b :: bs | _ => bs end)); [| |apply Hbody].
        - intros bs lv He. inversion He as [|b s bs1 ls Hs He1]; subst. inversion He1; subst. by constructor.
        - intros n Hb. apply Forall_cons in Hb as [? Hb]. apply Forall_cons in Hb as [_ Hb]. by constructor. }
    intros bs st st' (v & bs' & -> & new & w & [= <-] & Hw & ->). exists (v :: st). split; [by exists v|].
    exists v, st. split; [done|]. by exists w.
  - eapply emits_conseq; [|exact Hplain]. intros bs st st' (v & bs' & -> & new & w & Hm & Hw & ->).
    cbn in Hm. destruct (match_literal_pattern lit v); [|done]. injection Hm as <-. by exists v, bs'; eauto.
Qed.

Lemma emits_nested scrut_slot arms locals :
  forallb simple_arm arms = true ->
  Forall (fun arm => forall locals, emits ctx base (compile arm.2 locals) locals (gives (eval arm.2))) arms ->
  emits ctx base (compile_nested scrut_slot arms locals) (([], scrut_slot) :: locals)
    (on_scrutinee (fun v bs st st' => exists w, eval_arms eval v arms bs = Ok w /\ st' = w :: st)).
Proof.
  induction arms as [|[[p guard] body] arms IH]; intros Hs Hb; cbn [compile_nested].
  - eapply emits_conseq; [|by apply emits_const]. by intros bs st st' (v & bs' & -> & w & ? & _).
  - apply andb_prop in Hs as [[Hp Hg]%andb_prop Hs]. cbn in Hp, Hg. destruct guard; [done|]. apply Forall_cons in Hb as [Hbody Hb].
    eapply emits_conseq; [|eapply emits_branch; [exact Hbase|apply jump_if_false|by apply emits_pattern_check|by apply emits_arm|by apply IH]].
    intros bs st st' (v & bs' & -> & w & Hw & ->). cbn in Hw.
    destruct (match_pattern p v []) as [new|] eqn:Hm.
    + exists true, st. split; [by exists v, bs'; rewrite Hm|]. by exists v, bs'; eauto 10.
    + exists false, st. split; [by exists v, bs'; rewrite Hm|]. by exists v, bs'; eauto.
Qed.

Lemma emits_match scrutinee arms locals :
  forallb simple_arm arms = true -> emits ctx base (compile scrutinee locals) locals (gives (eval scrutinee)) ->
  Forall (fun arm => forall locals, emits ctx base (compile arm.2 locals) locals (gives (eval arm.2))) arms ->
  emits ctx base (compile_match compile scrutinee arms locals) locals
    (gives (fun bs => v ← eval scrutinee bs; eval_arms eval v arms bs)).
Proof.
  intros Hs He Hb.
  eapply emits_ext with (gen := fun c => c ← compile scrutinee locals c;
    let '(c, slot) := store_new c in compile_nested slot arms locals c).
  { intros c. unfold compile_match. destruct (compile scrutinee locals c) as [c1| |]; cbn; [|done..]. by apply compile_arms_nested. }
  eapply emits_conseq; [|eapply emits_seq; [exact He|apply (emits_store ctx base [])]; intros slot; by apply emits_nested].
  intros bs st st' (w & Hw & ->). inv_bind Hw. exists (x :: st). split; [by exists x|]. exists x, st. split; [done|].
  exists x, bs. split; [done|]. by exists w.
Qed.
End arms.
End bodies.
