(* ===== verification/CompilerCorrect.v ===== *)
(** * Correctness of the bytecode compiler

    Which expressions the compiled code treats as the evaluator does, and that it
    does: where the evaluator gives a value, the machine comes to the same value. *)

From stdpp Require Import prelude gmap sets list numbers fin_sets strings.
From Stdlib Require Import ZArith Lia.
From S2P Require Import Prelude.
From S2P Require Import Ordering.
From S2P Require Import SmallIntSet.
From S2P Require Import RuntimeValue.
From S2P Require Import SpecAst.
From S2P Require Import EvalOps.
From S2P Require Import Evaluator.
From S2P Require Import Bytecode.
From S2P Require Import BytecodeVm.
From S2P Require Import VmLaws.
From S2P Require Import CompilerLaws.
From S2P Require Import CompilerBodies.

#[local] Open Scope Z_scope.

(** ** Values on the stack *)

Lemma drain_pushed vs st f : drain (seq_len vs) (reverse vs ++ st) f = f vs st.
Proof.
  unfold drain. rewrite decide_False by (rewrite seq_len_app; unfold seq_len; rewrite length_reverse; lia).
  unfold seq_len. rewrite Nat2Z.id. rewrite take_app_length', drop_app_length' by (by rewrite length_reverse).
  by rewrite reverse_involutive.
Qed.

Lemma as_u8_small {A} (l : list A) : seq_len l <= 255 -> as_u8 (seq_len l) = seq_len l.
Proof. intros Hl. pose proof (seq_len_nonneg l). apply Z.mod_small. lia. Qed.

Lemma zip_names `{HandlesOk} (l : list (Str * RuntimeValue)) : zip (handle_name <$> (handle <$> l.*1)) l.*2 = l.
Proof. induction l as [|[s v] l IH]; cbn; [done|]. by rewrite name_handle, IH. Qed.

(** ** Maps *)

(** What [pairs] takes apart. *)
Definition flat (entries : list (RuntimeValue * RuntimeValue)) : list RuntimeValue := concat ((fun p => [p.1; p.2]) <$> entries).

Lemma pairs_flat entries : pairs (flat entries) = entries.
Proof. induction entries as [|[k v] entries IH]; cbn; [done|]. unfold flat in IH. by rewrite IH. Qed.
Lemma flat_length entries : seq_len (flat entries) = 2 * seq_len entries.
Proof. unfold seq_len, flat. induction entries as [|p entries IH]; cbn; [done|]. lia. Qed.

Definition keys_ok (m : list (RuntimeValue * RuntimeValue)) : Prop := Forall (fun p => value_ok p.1) m.
Definition keys_sorted (m : list (RuntimeValue * RuntimeValue)) : Prop := sorted tree_compare ((fun p => tree p.1) <$> m).

(** Inserting a new key keeps the order, and setting it is the same. *)
Lemma map_insert_spec key value m m' :
  map_insert key value m = Some m' -> value_ok key -> keys_ok m -> keys_sorted m ->
  map_set key value m = m' /\ keys_ok m' /\ keys_sorted m' /\ seq_len m' = seq_len m + 1
  /\ (forall t, t ∈ (fun p => tree p.1) <$> m' -> t = tree key \/ t ∈ (fun p => tree p.1) <$> m).
Proof.
  revert m'. induction m as [|p m IH]; intros m' Hi Hk Hok Hs; cbn in *.
  - injection Hi as <-. split_and!; [done|by repeat constructor|by repeat constructor|done|].
    intros t Ht. apply list_elem_of_singleton in Ht. by left.
  - apply Forall_cons in Hok as [Hp Hok]. apply sorted_cons in Hs as [Hmin Hs].
    pose proof (value_compare_tree key Hk p.1 Hp) as Hc. destruct (value_compare key p.1).
    + done.
    + injection Hi as <-. split_and!; [done|by repeat constructor| |by rewrite seq_len_cons|].
      * apply sorted_cons. split; [|by apply sorted_cons]. intros t [->|Ht]%elem_of_cons; [done|].
        eapply compare_trans; [symmetry; exact Hc|by apply Hmin].
      * by intros t [->|Ht]%elem_of_cons; [left|right].
    + destruct (map_insert key value m) as [m1|] eqn:Hm; [|done]. injection Hi as <-.
      destruct (IH m1 eq_refl Hk Hok Hs) as (-> & Hok1 & Hs1 & Hlen & Hin).
      split_and!; [done|by apply Forall_cons| |by rewrite !seq_len_cons, Hlen|].
      * apply sorted_cons. split; [|done]. intros t [->|Ht]%Hin; [|by apply Hmin]. by apply (compare_gt tree_compare).
      * cbn. intros t [->|Ht]%elem_of_cons; [right; by left|]. apply Hin in Ht as [->|Ht]; [by left|right; by right].
Qed.

Lemma sorted_app_l (l k : list Tree) : sorted tree_compare (l ++ k) -> sorted tree_compare l.
Proof.
  induction l as [|x l IH]; [constructor|]. intros [Hmin Hs]%sorted_cons. apply sorted_cons. split; [|by apply IH].
  intros y Hy. apply Hmin, elem_of_app. by left.
Qed.

Lemma map_insert_last m p : keys_ok (m ++ [p]) -> keys_sorted (m ++ [p]) -> map_insert p.1 p.2 m = Some (m ++ [p]).
Proof.
  induction m as [|q m IH]; intros Hok Hs; [by destruct p|]. cbn [map_insert app].
  apply Forall_cons in Hok as [Hq Hok]. apply sorted_cons in Hs as [Hmin Hs].
  assert (value_ok p.1) as Hp by (apply (Forall_app (fun p => value_ok p.1)) in Hok as [_ Hp]; by inversion Hp).
  rewrite (value_compare_tree _ Hp _ Hq), (proj2 (compare_gt tree_compare _ _)).
  - by rewrite IH.
  - apply Hmin. apply list_elem_of_fmap. exists p. split; [done|]. apply elem_of_app. right. by left.
Qed.

Lemma map_bounded_sorted post bounds : forall pre,
  keys_ok (pre ++ post) -> keys_sorted (pre ++ post) -> seq_len (pre ++ post) <= max_map_len bounds ->
  map_bounded_loop pre post bounds = Some (VMap (pre ++ post)).
Proof.
  induction post as [|[k v] post IH]; intros pre Hok Hs Hlen; cbn; [by rewrite app_nil_r|].
  assert (pre ++ (k, v) :: post = (pre ++ [(k, v)]) ++ post) as Happ by (by rewrite <- app_assoc). rewrite Happ in *.
  pose proof (map_insert_last pre (k, v)) as Hins. cbn in Hins. rewrite Hins; cbn.
  - rewrite decide_False; [by apply IH|]. rewrite seq_len_app in Hlen. pose proof (seq_len_nonneg post). lia.
  - by apply (Forall_app (fun p => value_ok p.1)) in Hok as [? _].
  - unfold keys_sorted in *. rewrite fmap_app in Hs. by eapply sorted_app_l.
Qed.

Definition set_entries (m entries : list (RuntimeValue * RuntimeValue)) : list (RuntimeValue * RuntimeValue) :=
  foldl (fun m p => map_set p.1 p.2 m) m entries.

Lemma map_bounded_loop_spec entries bounds v : forall m,
  map_bounded_loop m entries bounds = Some v -> keys_ok m -> keys_sorted m -> keys_ok entries ->
  (entries = [] \/ seq_len (set_entries m entries) <= max_map_len bounds)
  /\ v = VMap (set_entries m entries) /\ keys_ok (set_entries m entries) /\ keys_sorted (set_entries m entries).
Proof.
  induction entries as [|[k w] entries IH]; intros m Hm Hok Hs He; cbn in Hm.
  - injection Hm as <-. split_and!; try done. by left.
  - apply Forall_cons in He as [Hk He]. destruct (map_insert k w m) as [m1|] eqn:Hi; [|done]. cbn in Hm. case_decide; [done|].
    destruct (map_insert_spec _ _ _ _ Hi Hk Hok Hs) as (Hset & Hok1 & Hs1 & _ & _). cbn. unfold set_entries. cbn. rewrite Hset.
    destruct (IH m1 Hm Hok1 Hs1 He) as (Hlen & -> & Hok2 & Hs2). split_and!; [|done..]. right.
    destruct Hlen as [->|Hlen]; [cbn; lia|exact Hlen].
Qed.

(** Putting the entries into a map first makes no difference when their keys differ. *)
Lemma map_entries_bounded loop entries bounds v :
  keys_ok entries -> map_bounded entries bounds = Some v -> map_bounded (map_entries loop entries) bounds = Some v.
Proof.
  intros He Hm. destruct loop; [done..|]. cbn.
  destruct (map_bounded_loop_spec entries bounds v [] Hm) as (Hlen & -> & Hok & Hs); [constructor|constructor|done|].
  destruct Hlen as [->|Hlen]; [done|]. by apply map_bounded_sorted.
Qed.

(** ** Lists of expressions *)

Section emits.
Context `{HandlesOk} (ctx : EvalContext) (base : Z) (Hbase : 0 <= base).

(** The code pushes values, the first one first. *)
Definition pushes (f : Bindings -> Res (list RuntimeValue)) : Effect :=
  fun bs st st' => exists vs, f bs = Ok vs /\ st' = reverse vs ++ st.

Section lists.
Context (compile : Expr -> Chunk -> Res Chunk) (eval : Expr -> Bindings -> Res RuntimeValue) (locals : LocalTable).

Abbreviation right e := (emits ctx base (compile e) locals (gives (eval e))).

Lemma emits_all items : Forall (fun e => right e) items ->
  emits ctx base (compile_all compile items) locals (pushes (fun bs => eval_all (fun e => eval e bs) items)).
Proof.
  induction 1 as [|e items He _ IH]; cbn [compile_all].
  - eapply emits_conseq; [|apply emits_nil]. by intros bs st st' (vs & [= <-] & ->).
  - eapply emits_conseq; [|eapply emits_seq; [exact He|exact IH]]. intros bs st st' (vs & Hvs & ->). cbn in Hvs.
    inv_bind Hvs. inv_bind Hvs. injection Hvs as <-. exists (x :: st). split; [by exists x|]. exists x0. split; [done|].
    by rewrite reverse_cons, <- app_assoc.
Qed.

Lemma emits_entries entries : Forall (fun p => right p.1 /\ right p.2) entries ->
  emits ctx base (compile_entries compile entries) locals
    (pushes (fun bs => es ← eval_entries (fun e => eval e bs) entries; Ok (flat es))).
Proof.
  induction 1 as [|[k v] entries [Hk Hv] _ IH]; cbn [compile_entries].
  - eapply emits_conseq; [|apply emits_nil]. by intros bs st st' (vs & [= <-] & ->).
  - eapply emits_conseq; [|eapply emits_seq; [exact Hk|]; eapply emits_seq; [exact Hv|exact IH]].
    intros bs st st' (vs & Hvs & ->). cbn in Hvs. inv_bind Hvs. injection Hvs as <-. inv_bind Hx. inv_bind Hx. inv_bind Hx.
    injection Hx as <-. exists (x0 :: st). split; [by exists x0|]. exists (x1 :: x0 :: st). split; [by exists x1|].
    exists (flat x2). split; [by cbn; rewrite Hx2|]. change (flat ((x0, x1) :: x2)) with (x0 :: x1 :: flat x2).
    by rewrite !reverse_cons, <- !app_assoc.
Qed.

(** The fields but for the base. *)
Definition regular_fields (fields : list (Str * Expr)) : list (Str * Expr) := filter (fun p => p.1 <> str "..") fields.

Lemma compile_regular_all fields c : compile_regular compile fields c = compile_all compile (regular_fields fields).*2 c.
Proof.
  revert c. induction fields as [|[f e] fields IH]; intros c; [done|]. unfold regular_fields.
  rewrite filter_cons. cbn [compile_regular fst]. destruct (decide (f = str "..")) as [Hf|Hf].
  - rewrite decide_False by auto. apply IH.
  - rewrite decide_True by auto. cbn. destruct (compile e c); cbn; [apply IH|done..].
Qed.

Lemma compile_fields_all fields c : compile_fields compile fields c = compile_all compile fields.*2 c.
Proof.
  revert c. induction fields as [|[f e] fields IH]; intros c; cbn; [done|]. destruct (compile e c); cbn; [apply IH|done..].
Qed.

Lemma regular_names_fields fields : regular_names fields = (regular_fields fields).*1.
Proof.
  unfold regular_names, regular_fields. induction fields as [|[f e] fields IH]; [done|].
  rewrite fmap_cons, !filter_cons. cbn [fst]. case_decide; [|done]. cbn. by f_equal.
Qed.

Lemma Forall_regular (P : Expr -> Prop) fields : Forall (fun p => P p.2) fields -> Forall P (regular_fields fields).*2.
Proof. rewrite Forall_fmap, !Forall_forall. intros Hf p [_ Hp]%list_elem_of_filter. by apply Hf. Qed.

(** What the evaluator makes of the fields: the regular ones, and one base at most. *)
Lemma eval_struct_fields_Ok (ev : Expr -> Res RuntimeValue) fields : forall b r,
  eval_struct_fields ev fields b = Ok r ->
  eval_all ev (regular_fields fields).*2 = Ok r.1.*2 /\ r.1.*1 = regular_names fields
  /\ (is_Some b -> struct_base fields = false) /\ (struct_base fields = false -> r.2 = b)
  /\ (struct_base fields = true -> is_Some r.2).
Proof.
  intros b r. rewrite regular_names_fields. revert b r.
  induction fields as [|[f e] fields IH]; intros b r Hr; cbn [eval_struct_fields] in Hr.
  - injection Hr as <-. by split_and!.
  - unfold regular_fields. rewrite filter_cons. cbn [fst struct_base]. destruct (decide (f = str "..")) as [Hd|Hd].
    + destruct b as [b|]; [done|]. destruct (IH _ _ Hr) as (Hall & Hn & Hb & Hno & Hyes).
      rewrite decide_False by (intros Hne; by destruct Hne). split_and!; [done|done|by intros [? [=]]|done|].
      intros _. rewrite Hno; [by eexists|]. apply Hb. by eexists.
    + inv_bind Hr. inv_bind Hr. injection Hr as <-. destruct (IH _ _ Hx0) as (Hall & Hn & Hb & Hno & Hyes).
      rewrite decide_True by done. unfold regular_fields in *. rewrite !fmap_cons. cbn [eval_all snd fst].
      rewrite Hx, Hall. split_and!; [done|by rewrite <- Hn|done..].
Qed.

Lemma emits_base fields : Forall (fun p => right p.2) fields -> struct_base fields = true ->
  emits ctx base (compile_base compile fields) locals
    (fun bs st st' => exists b r v, eval_struct_fields (fun e => eval e bs) fields b = Ok r
       /\ eval_base (fun e => eval e bs) fields = Ok v /\ st' = v :: st).
Proof.
  induction 1 as [|[f e] fields He _ IH]; [done|]. cbn [struct_base compile_base]. destruct (decide (f = str "..")) as [Hd|Hd]; intros Hb.
  - destruct (struct_base fields) eqn:Hs.
    + eapply emits_conseq; [|exact (IH eq_refl)]. intros bs st st' (b & r & v & Hr & _). cbn [eval_struct_fields] in Hr.
      rewrite decide_True in Hr by done. destruct b; [done|].
      destruct (eval_struct_fields_Ok _ _ _ _ Hr) as (_ & _ & Hno & _). rewrite Hs in Hno. discriminate Hno. by eexists.
    + eapply emits_conseq; [|exact He]. intros bs st st' (b & r & v & _ & Hv & ->).
      cbn [eval_base] in Hv. rewrite decide_True in Hv by done. by exists v.
  - eapply emits_conseq; [|exact (IH Hb)]. intros bs st st' (b & r & v & Hr & Hv & ->).
    cbn [eval_struct_fields eval_base] in Hr, Hv. rewrite decide_False in Hr by done. rewrite decide_False in Hv by done. inv_bind Hr. inv_bind Hr. by exists b, x0, v.
Qed.

Lemma eval_update_fields_Ok (ev : Expr -> Res RuntimeValue) fields : forall r,
  eval_update_fields ev fields = Ok r -> eval_all ev fields.*2 = Ok r.*2 /\ r.*1 = fields.*1.
Proof.
  induction fields as [|[f e] fields IH]; intros r Hr; cbn [eval_update_fields] in Hr; [by injection Hr as <-|]. case_decide; [done|].
  inv_bind Hr. inv_bind Hr. injection Hr as <-. destruct (IH _ Hx0) as [Hall Hn]. cbn. rewrite Hx. cbn. rewrite Hall. cbn.
  split; [done|by f_equal].
Qed.
End lists.

(** ** Instructions on several values *)

(** The code replaces [n] values, or those and the one below them, by one. *)
Definition takes (n : Z) (f : list RuntimeValue -> Res RuntimeValue) : Effect :=
  fun _ st st' => exists vs st1 v, st = reverse vs ++ st1 /\ seq_len vs = n /\ f vs = Ok v /\ st' = v :: st1.
Definition takes_on (n : Z) (f : RuntimeValue -> list RuntimeValue -> Res RuntimeValue) : Effect :=
  fun _ st st' => exists vs b st1 v, st = reverse vs ++ b :: st1 /\ seq_len vs = n /\ f b vs = Ok v /\ st' = v :: st1.

Lemma emits_taken g1 g2 locals fs n f :
  emits ctx base g1 locals (pushes fs) -> (forall bs vs, fs bs = Ok vs -> seq_len vs = n) ->
  emits ctx base g2 locals (takes n f) ->
  emits ctx base (fun c => c ← g1 c; g2 c) locals (gives (fun bs => vs ← fs bs; f vs)).
Proof.
  intros H1 Hn H2. eapply emits_conseq; [|eapply emits_seq; [exact H1|exact H2]].
  intros bs st st' (v & Hv & ->). inv_bind Hv. exists (reverse x ++ st). split; [by exists x|].
  exists x, st, v. split_and!; try done. by eapply Hn.
Qed.

Lemma emits_taken_on g0 g1 g2 locals fb fs n f :
  emits ctx base g0 locals (gives fb) -> emits ctx base g1 locals (pushes fs) ->
  (forall bs vs, fs bs = Ok vs -> seq_len vs = n) -> emits ctx base g2 locals (takes_on n f) ->
  emits ctx base (fun c => c ← g0 c; c ← g1 c; g2 c) locals (gives (fun bs => b ← fb bs; vs ← fs bs; f b vs)).
Proof.
  intros H0' H1 Hn H2. eapply emits_conseq; [|eapply emits_seq; [exact H0'|]; eapply emits_seq; [exact H1|exact H2]].
  intros bs st st' (v & Hv & ->). inv_bind Hv. inv_bind Hv. exists (x :: st). split; [by exists x|].
  exists (reverse x0 ++ x :: st). split; [by exists x0|]. exists x0, x, st, v. split_and!; try done. by eapply Hn.
Qed.

Lemma eval_all_length (ev : Expr -> Res RuntimeValue) items : forall vs, eval_all ev items = Ok vs -> seq_len vs = seq_len items.
Proof.
  induction items as [|e items IH]; intros vs Hvs; cbn in Hvs; [by injection Hvs as <-|].
  inv_bind Hvs. inv_bind Hvs. injection Hvs as <-. by rewrite !seq_len_cons, (IH _ Hx0).
Qed.

(** *** Literals *)

Lemma emits_set_lit n locals : emits ctx base (fun c => Ok (emit (SetLit n) c)) locals
  (takes n (fun vs => bounded (set_bounded vs (bounds ctx)))).
Proof.
  apply emits_op. intros loop k bs st st' (vs & st1 & v & -> & <- & Hv & ->). cbn. by rewrite drain_pushed, Hv.
Qed.

Lemma emits_seq_lit n locals : emits ctx base (fun c => Ok (emit (SeqLit n) c)) locals
  (takes n (fun vs => bounded (seq_bounded vs (bounds ctx)))).
Proof.
  apply emits_op. intros loop k bs st st' (vs & st1 & v & -> & <- & Hv & ->). cbn. by rewrite drain_pushed, Hv.
Qed.

Lemma emits_map_lit n locals : emits ctx base (fun c => Ok (emit (MapLit n) c)) locals
  (fun _ st st' => exists entries st1 v, st = reverse (flat entries) ++ st1 /\ seq_len entries = n /\ keys_ok entries
     /\ bounded (map_bounded entries (bounds ctx)) = Ok v /\ st' = v :: st1).
Proof.
  apply emits_op. intros loop k bs st st' (entries & st1 & v & -> & <- & Hk & Hv%ok_or_Ok & ->). cbn [stack_op].
  by rewrite <- flat_length, drain_pushed, pairs_flat, (map_entries_bounded _ _ _ _ Hk Hv).
Qed.

(** *** Calls *)

Lemma emits_call func n locals : n <= 255 -> 0 <= n ->
  emits ctx base (fun c => Ok (compile_call func n c)) locals (takes n (call_builtin_or_hook ctx func)).
Proof.
  intros Hn Hn0. unfold compile_call, as_u8. rewrite Z.mod_small by lia.
  eapply (emits_meta ctx base (add_call_target func) (fun ci => Call ci n)) with (entry := fun k ci => seq_get (call_targets k) ci = Some func).
  - intros c. split_and!; [done|split_and!; cbn; try done; by apply prefix_app_r|done| |].
    + intros [[] ? ? ? ?] _. split; cbn; rewrite ?seq_len_snoc; lia.
    + intros [[] ? ? ? ?] Hf k (_ & _ & _ & Hk). unfold fits in Hf. cbn in Hf, Hk. rewrite seq_len_snoc in Hf.
      pose proof (seq_len_nonneg (call_targets c)). cbn. rewrite as_u16_small by lia. eapply prefix_get; [exact Hk|apply pool_get_last].
  - intros loop k ci bs st st' Hk (vs & st1 & v & -> & <- & Hv & ->). cbn. rewrite drain_pushed, Hk. cbn.
    unfold call_builtin_or_hook in Hv. inv_bind Hv. rewrite Hx. cbn. destruct x; [by injection Hv as ->|].
    destruct (call_evaluator ctx); [by rewrite Hv|done].
Qed.

Lemma emits_method_call method n locals :
  emits ctx base (fun c => Ok (emit (MethodCall (handle method) n) c)) locals
    (takes_on n (fun r vs => method_builtin_or_hook ctx r method vs)).
Proof.
  apply emits_op. intros loop k bs st st' (vs & r & st1 & v & -> & <- & Hv & ->). cbn. rewrite drain_pushed. cbn.
  rewrite name_handle. unfold method_builtin_or_hook in Hv. inv_bind Hv. rewrite Hx. cbn. destruct x; [by injection Hv as ->|].
  destruct (method_evaluator ctx); [by rewrite Hv|done].
Qed.

(** *** Structs *)

Lemma handle_names (names : list Str) : handle_name <$> (handle <$> names) = names.
Proof. induction names as [|s names IH]; [done|]. rewrite !fmap_cons, name_handle. by f_equal. Qed.

Lemma emits_struct_new name names locals :
  emits ctx base (fun c => let '(c, meta) := add_struct_meta (MkStructNewMeta (path_name name) (handle <$> names)) c in
    Ok (emit (StructNew meta) c)) locals (takes (seq_len names) (fun vs => new_struct (path_name name) (zip names vs))).
Proof.
  set (m := MkStructNewMeta _ _). eapply emits_ext with (gen := fun c => Ok (let '(c, n) := add_struct_meta m c in emit (StructNew n) c)); [done|].
  eapply emits_meta with (entry := fun k n => seq_get (struct_metas k) n = Some m).
  - intros c. split_and!; [done|split_and!; cbn; try done; by apply prefix_app_r|done| |].
    + intros [[] ? ? ? ?] _. split; cbn; rewrite ?seq_len_snoc; lia.
    + intros [[] ? ? ? ?] Hf k (_ & Hk & _). unfold fits in Hf. cbn in Hf, Hk. rewrite seq_len_snoc in Hf.
      pose proof (seq_len_nonneg (struct_metas c)). cbn. rewrite as_u16_small by lia. eapply prefix_get; [exact Hk|apply pool_get_last].
  - intros loop k n bs st st' Hk (vs & st1 & v & -> & Hn & Hv & ->). cbn. rewrite Hk. cbn [mbind res_bind or_panic].
    assert (seq_len (field_names m) = seq_len vs) as -> by (rewrite Hn; unfold seq_len; cbn; by rewrite length_fmap).
    rewrite drain_pushed. unfold struct_new. cbn. by rewrite handle_names, Hv.
Qed.

Lemma update_fields_Ok names : forall vs fields fields',
  update_fields fields (zip names vs) = Ok fields' -> set_fields fields (zip (handle <$> names) vs) = fields'.
Proof.
  induction names as [|s names IH]; intros [|v vs] fields fields' Hu; try (by injection Hu). cbn in *.
  destruct (contains_key fields (handle s)); [|done]. by apply IH.
Qed.

Lemma struct_update_Ok expected ty names b vs v :
  apply_struct_update expected b (zip names vs) = Ok v -> struct_update (MkStructUpdateMeta ty (handle <$> names)) b vs = Ok v.
Proof.
  unfold apply_struct_update, struct_update. intros Hv. destruct b; try done; inv_bind Hv; inv_bind Hv; injection Hv as <-; cbn [update_field_names];
    by rewrite (update_fields_Ok _ _ _ _ Hx0).
Qed.

Lemma emits_struct_update expected ty names locals :
  emits ctx base (fun c => let '(c, meta) := add_struct_update_meta (MkStructUpdateMeta ty (handle <$> names)) c in
    Ok (emit (StructUpdate meta) c)) locals (takes_on (seq_len names) (fun b vs => apply_struct_update expected b (zip names vs))).
Proof.
  set (m := MkStructUpdateMeta _ _). eapply emits_ext with (gen := fun c => Ok (let '(c, n) := add_struct_update_meta m c in emit (StructUpdate n) c)); [done|].
  eapply emits_meta with (entry := fun k n => seq_get (struct_update_metas k) n = Some m).
  - intros c. split_and!; [done|split_and!; cbn; try done; by apply prefix_app_r|done| |].
    + intros [[] ? ? ? ?] _. split; cbn; rewrite ?seq_len_snoc; lia.
    + intros [[] ? ? ? ?] Hf k (_ & _ & Hk & _). unfold fits in Hf. cbn in Hf, Hk. rewrite seq_len_snoc in Hf.
      pose proof (seq_len_nonneg (struct_update_metas c)). cbn. rewrite as_u16_small by lia. eapply prefix_get; [exact Hk|apply pool_get_last].
  - intros loop k n bs st st' Hk (vs & b & st1 & v & -> & Hn & Hv & ->). cbn. rewrite Hk. cbn [mbind res_bind or_panic].
    assert (seq_len (update_field_names m) = seq_len vs) as -> by (rewrite Hn; unfold seq_len; cbn; by rewrite length_fmap).
    rewrite drain_pushed. cbn [pop1]. assert (struct_update m b vs = Ok v) as -> by (by eapply struct_update_Ok). done.
Qed.

Lemma zip_fst_snd {A B} (l : list (A * B)) names : l.*1 = names -> zip names l.*2 = l.
Proof. intros <-. induction l as [|[a b] l IH]; cbn; [done|]. by rewrite IH. Qed.

Section structs.
Context (compile : Expr -> Chunk -> Res Chunk) (eval : Expr -> Bindings -> Res RuntimeValue) (locals : LocalTable).
Context (fields : list (Str * Expr)) (Hfields : Forall (fun p => emits ctx base (compile p.2) locals (gives (eval p.2))) fields).

Definition eval_struct (name : Path) (bs : Bindings) : Res RuntimeValue :=
  r ← eval_struct_fields (fun e => eval e bs) fields None;
  match r.2 with
  | Some _ =>
      base ← eval_base (fun e => eval e bs) fields;
      apply_struct_update (if decide (segments name = []) then None else Some name) base r.1
  | None => new_struct (path_name name) r.1
  end.

Lemma emits_struct_literal name : struct_base fields = false ->
  emits ctx base (fun c => c ← compile_regular compile fields c;
    let '(c, meta) := add_struct_meta (MkStructNewMeta (path_name name) (handle <$> regular_names fields)) c in
    Ok (emit (StructNew meta) c)) locals (gives (eval_struct name)).
Proof.
  intros Hb. eapply emits_ext; [intros c; by rewrite compile_regular_all|].
  eapply emits_conseq; [|eapply emits_seq; [apply emits_all, Forall_regular, Hfields|apply emits_struct_new]].
  intros bs st st' (v & Hv & ->). unfold eval_struct in Hv. inv_bind Hv.
  destruct (eval_struct_fields_Ok _ _ _ _ Hx) as (Hall & Hn & _ & Hno & _). rewrite (Hno Hb) in Hv.
  exists (reverse x.1.*2 ++ st). split; [by exists x.1.*2|]. exists x.1.*2, st, v.
  split_and!; [done| |by rewrite (zip_fst_snd x.1)|done]. rewrite <- Hn. unfold seq_len. by rewrite !length_fmap.
Qed.

Lemma emits_struct_with_base name : struct_base fields = true ->
  emits ctx base (fun c => c ← compile_base compile fields c; c ← compile_regular compile fields c;
    let '(c, meta) := add_struct_update_meta (MkStructUpdateMeta
      (if decide (segments name = []) then None else Some (path_name name)) (handle <$> regular_names fields)) c in
    Ok (emit (StructUpdate meta) c)) locals (gives (eval_struct name)).
Proof.
  intros Hb. eapply emits_ext; [intros c; reflexivity|].
  eapply emits_conseq; [|eapply emits_seq; [by apply emits_base|]; eapply emits_seq;
    [eapply emits_ext; [intros c; apply compile_regular_all|apply emits_all, Forall_regular, Hfields]
    |apply (emits_struct_update (if decide (segments name = []) then None else Some name))]].
  intros bs st st' (v & Hv & ->). unfold eval_struct in Hv. inv_bind Hv.
  destruct (eval_struct_fields_Ok _ _ _ _ Hx) as (Hall & Hn & _ & _ & Hyes). destruct (Hyes Hb) as [b Hb2]. rewrite Hb2 in Hv.
  inv_bind Hv. exists (x0 :: st). split; [by exists None, x, x0|]. exists (reverse x.1.*2 ++ x0 :: st). split; [by exists x.1.*2|].
  exists x.1.*2, x0, st, v. split_and!; [done| |by rewrite (zip_fst_snd x.1)|done].
  rewrite <- Hn. unfold seq_len. by rewrite !length_fmap.
Qed.

Lemma emits_update name target :
  emits ctx base (compile target) locals (gives (eval target)) ->
  emits ctx base (fun c => c ← compile target c; c ← compile_fields compile fields c;
    let '(c, meta) := add_struct_update_meta (MkStructUpdateMeta (path_name <$> name) (handle <$> fields.*1)) c in
    Ok (emit (StructUpdate meta) c)) locals
    (gives (fun bs => b ← eval target bs; vs ← eval_update_fields (fun e => eval e bs) fields; apply_struct_update name b vs)).
Proof.
  intros Ht. eapply emits_conseq; [|eapply emits_seq; [exact Ht|]; eapply emits_seq;
    [eapply emits_ext; [intros c; apply compile_fields_all|apply emits_all; by apply Forall_fmap]|apply (emits_struct_update name)]].
  intros bs st st' (v & Hv & ->). inv_bind Hv. inv_bind Hv. destruct (eval_update_fields_Ok _ _ _ Hx0) as [Hall Hn].
  exists (x :: st). split; [by exists x|]. exists (reverse x0.*2 ++ x :: st). split; [by exists x0.*2|].
  exists x0.*2, x, st, v. split_and!; [done| |by rewrite (zip_fst_snd x0)|done]. rewrite <- Hn. unfold seq_len. by rewrite !length_fmap.
Qed.
End structs.

(** ** Operators *)

Lemma emits_unary g1 op f g locals :
  emits ctx base g1 locals (gives f) ->
  (forall loop k a v st, g a = Ok v -> stack_op ctx loop k op (a :: st) = Some (Ok (v :: st))) ->
  emits ctx base (fun c => c ← g1 c; Ok (emit op c)) locals (gives (fun bs => a ← f bs; g a)).
Proof.
  intros H1 Hop. eapply emits_conseq; [|eapply emits_seq; [exact H1|
    apply (emits_op ctx base op) with (eff := fun _ st st' => exists a st1 v, st = a :: st1 /\ g a = Ok v /\ st' = v :: st1)]].
  - intros bs st st' (v & Hv & ->). inv_bind Hv. exists (x :: st). split; [by exists x|]. by exists x, st, v.
  - intros loop k bs st st' (a & st1 & v & -> & Hv & ->). by apply Hop.
Qed.

Lemma emits_binary g1 g2 op f1 f2 g locals :
  emits ctx base g1 locals (gives f1) -> emits ctx base g2 locals (gives f2) ->
  (forall loop k a b v st, g a b = Ok v -> stack_op ctx loop k op (b :: a :: st) = Some (Ok (v :: st))) ->
  emits ctx base (fun c => c ← g1 c; c ← g2 c; Ok (emit op c)) locals (gives (fun bs => a ← f1 bs; b ← f2 bs; g a b)).
Proof.
  intros H1 H2 Hop. eapply emits_conseq; [|eapply emits_seq; [exact H1|]; eapply emits_seq; [exact H2|
    apply (emits_op ctx base op) with (eff := fun _ st st' => exists a b st1 v, st = b :: a :: st1 /\ g a b = Ok v /\ st' = v :: st1)]].
  - intros bs st st' (v & Hv & ->). inv_bind Hv. inv_bind Hv. exists (x :: st). split; [by exists x|].
    exists (x0 :: x :: st). split; [by exists x0|]. by exists x, x0, st, v.
  - intros loop k bs st st' (a & b & st1 & v & -> & Hv & ->). by apply Hop.
Qed.

Lemma index_value_missing missing base' idx v : index_value type_error base' idx = Ok v -> index_value missing base' idx = Ok v.
Proof.
  intros Hv. destruct base'; try done; cbn in *.
  1,2: inv_bind Hv; rewrite Hx; cbn in *; by destruct (seq_get _ x).
  by destruct (map_get idx entries).
Qed.

(** Comparing numbers, whose types the evaluator checks as it goes. *)
Lemma emits_compare g1 g2 op cmp f1 f2 locals :
  emits ctx base g1 locals (gives f1) -> emits ctx base g2 locals (gives f2) ->
  (forall loop k st, stack_op ctx loop k op st = Some (pop2 st (compare_op cmp))) ->
  emits ctx base (fun c => c ← g1 c; c ← g2 c; Ok (emit op c)) locals (gives (fun bs => compare_numbers cmp (f1 bs) (f2 bs))).
Proof.
  intros H1 H2 Hop. eapply emits_conseq; [|eapply (emits_binary _ _ op _ _ (compare_op cmp)); [exact H1|exact H2|]].
  - intros bs st st' (v & Hv & ->). exists v. split; [|done]. unfold compare_numbers in Hv. inv_bind Hv. inv_bind Hv. inv_bind Hv.
    rewrite Hx, Hx1. cbn. unfold compare_op. by rewrite Hx0.
  - intros loop k a b v st Hv. rewrite Hop. cbn. by rewrite Hv.
Qed.

(** A connective that may leave out its second operand. *)
Lemma emits_circuit jump when otherwise g1 g2 f1 f2 locals :
  jump_when jump when -> emits ctx base g1 locals (gives f1) -> emits ctx base g2 locals (gives f2) ->
  emits ctx base (compile_binary_circuit (jump 0) otherwise g1 g2) locals
    (gives (fun bs => v ← f1 bs; b ← expect_bool v; if Bool.eqb b when then Ok (VBool otherwise) else f2 bs)).
Proof.
  intros Hj H1 H2. eapply emits_ext with (gen := compile_branch jump g1 g2 (fun c => Ok (emit_const (VBool otherwise) c))); [done|].
  eapply emits_conseq; [|eapply emits_branch; [exact Hbase|exact Hj|exact H1|exact H2|by apply emits_const]].
  intros bs st st' (v & Hv & ->). inv_bind Hv. inv_bind Hv. apply expect_bool_Ok in Hx0 as ->. exists x0, st. split; [by exists (VBool x0)|].
  destruct (Bool.eqb x0 when); [injection Hv as <-; by exists (VBool otherwise)|by exists v].
Qed.
End emits.

(** ** The expressions that are compiled faithfully

    Left out are casts, which are not compiled, [choose], closures but for that of
    [Map::new], variables that are not integers, the field [tag] after an arrow, more
    items than 8 bits count, keys of map literals that are not literals, and patterns
    with parts, integers or guards.  *)

Definition counted {A} (l : list A) : bool := seq_len l <=? 255.

Definition plain_key (e : Expr) : bool :=
  match e with
  | ELiteral (LInt n) => (- 2 ^ 126 <=? n) && (n <? 2 ^ 126)
  | ELiteral _ => true
  | _ => false
  end.

Fixpoint portable (e : Expr) : bool :=
  match e with
  | EClosure _ _ | EChoose _ _ | ECast _ _ => false
  | EConjunction items | EDisjunction items => forallb portable items
  | EImplies a b | EIff a b | EEq a b | ENe a b | ELt a b | ELe a b | EGt a b | EGe a b | EIndex a b | EBinary a _ b =>
      portable a && portable b
  | ENot a | EIs a _ | EField a _ | EView a | EUnary _ a => portable a
  | EArrow a field => negb (bool_decide (field = str "tag")) && portable a
  | EForall vars _ body | EExists vars body => forallb int_var vars && portable body
  | EIf c t e => portable c && portable t && match e with Some e => portable e | None => true end
  | EMatch s arms => forallb simple_arm arms && portable s && forallb (fun arm => portable arm.2) arms
  | ELet _ v body => portable v && portable body
  | EStruct _ fields => forallb (fun p => portable p.2) fields
  | EStructUpdate _ b fields => portable b && forallb (fun p => portable p.2) fields
  | ESeqLit items | ESetLit items => counted items && forallb portable items
  | EMapLit entries => counted entries && forallb (fun p => plain_key p.1 && portable p.2) entries
  | ECall func args =>
      match args with
      | [domain; EClosure _ body] => bool_decide (path_name func = str "Map::new") && portable domain && portable body
      | _ => counted args && forallb portable args
      end
  | EMethodCall r _ args => portable r && counted args && forallb portable args
  | ESeqEmpty | ESetEmpty | EMapEmpty | EIdent _ | ELiteral _ | EConstantValue _ => true
  end.

Section correct.
Context `{HandlesOk} (ctx : EvalContext) (base : Z) (Hbase : 0 <= base) (Hdomains : same_domains ctx).

Abbreviation correct e :=
  (forall locals, emits ctx base (compile_expr e locals) locals (gives (eval_expr ctx e))).

Lemma correct_list {A} (f : A -> Expr) (l : list A) :
  Forall (fun x => portable (f x) = true -> correct (f x)) l -> forallb (fun x => portable (f x)) l = true ->
  Forall (fun x => correct (f x)) l.
Proof.
  induction 1 as [|x l Hx _ IH]; intros Hp; [constructor|]. cbn in Hp. apply andb_prop in Hp as [Hpx Hp].
  constructor; [by apply Hx|by apply IH].
Qed.

(** With one table of locals for all. *)
Lemma correct_in {A} (f : A -> Expr) (l : list A) locals :
  Forall (fun x => portable (f x) = true -> correct (f x)) l -> forallb (fun x => portable (f x)) l = true ->
  Forall (fun x => emits ctx base (compile_expr (f x) locals) locals (gives (eval_expr ctx (f x)))) l.
Proof. intros Hl Hp. eapply Forall_impl; [by apply correct_list|]. auto. Qed.

(** The conjunction and disjunction of the evaluator, by whether an item decides. *)
Lemma eval_junction_decided (f : bool) items bs :
  (if f then eval_conjunction else eval_disjunction) (fun e => eval_expr ctx e bs) items
  = (b ← decided (negb f) (eval_expr ctx) items bs; Ok (VBool (if b : bool then negb f else f))).
Proof.
  induction items as [|e items IH]; [by destruct f|].
  destruct f; cbn in *; destruct (eval_expr ctx e bs) as [v| |]; cbn; try done;
    destruct (expect_bool v) as [[]| |]; cbn; done.
Qed.

(** What holds of the bindings because they are in the locals. *)
Lemma emits_conseq_env gen locals (eff eff' : Effect) :
  (forall bs lv st st', env_ok bs locals lv -> eff' bs st st' -> eff bs st st') ->
  emits ctx base gen locals eff -> emits ctx base gen locals eff'.
Proof.
  intros Himp Hg c c' Hc. destruct (Hg c c' Hc) as (code & Hops & Hp & Hrest). exists code.
  split_and!; [done..|]. intros Hw Hf. destruct (Hrest Hw Hf) as (Hw' & Hn & Heff). split_and!; [done..|].
  intros Hb loop k l pc bs st st' lv Hk Hat Hlen He Hst. eapply Heff; eauto.
Qed.

Lemma correct_ident name : correct (EIdent name).
Proof.
  intros locals. cbn [compile_expr eval_expr]. unfold compile_ident, eval_ident. destruct (local_get name locals) as [slot|] eqn:Hl.
  - eapply emits_conseq_env; [|by apply (emits_load ctx base name slot)].
    intros bs lv st st' He (v & Hv & ->). exists v. split; [|done].
    destruct (env_get _ _ _ _ _ He Hl) as (w & Hw & _). rewrite Hw in *. exact Hv.
  - destruct (split_variant_path name) as [[ty variant]|].
    + destruct (enum_value ty variant []) as [w| |] eqn:Hev; [|by intros c c' [=]..].
      eapply emits_conseq_env; [|by apply (emits_const ctx base Hbase w)]. intros bs lv st st' He (v & Hv & ->).
      rewrite (env_get_none _ _ _ _ He Hl) in Hv. by exists v.
    + eapply emits_conseq_env; [|by apply (emits_const ctx base Hbase (VString name))]. intros bs lv st st' He (v & Hv & ->).
      by rewrite (env_get_none _ _ _ _ He Hl) in Hv.
Qed.

(** *** Collections and calls *)

Lemma counted_le {A} (l : list A) : counted l = true -> seq_len l <= 255.
Proof. apply Z.leb_le. Qed.

Section items.
Context (items : list Expr) (locals : LocalTable) (Hlen : counted items = true).
Context (Hitems : Forall (fun e => emits ctx base (compile_expr e locals) locals (gives (eval_expr ctx e))) items).

Lemma correct_seq_lit : emits ctx base (compile_expr (ESeqLit items) locals) locals (gives (eval_expr ctx (ESeqLit items))).
Proof.
  cbn [compile_expr eval_expr]. rewrite as_u8_small by (by apply counted_le).
  eapply emits_taken; [by apply emits_all| |apply emits_seq_lit]. intros bs vs. apply eval_all_length.
Qed.

Lemma correct_set_lit : emits ctx base (compile_expr (ESetLit items) locals) locals (gives (eval_expr ctx (ESetLit items))).
Proof.
  cbn [compile_expr eval_expr]. rewrite as_u8_small by (by apply counted_le).
  eapply emits_taken; [by apply emits_all| |apply emits_set_lit]. intros bs vs. apply eval_all_length.
Qed.

Lemma emits_call_args func :
  emits ctx base (fun c => c ← compile_all (fun e => compile_expr e locals) items c; Ok (compile_call func (seq_len items) c)) locals
    (gives (fun bs => vs ← eval_all (fun e => eval_expr ctx e bs) items; call_builtin_or_hook ctx func vs)).
Proof.
  eapply emits_taken; [by apply emits_all| |apply emits_call; [exact Hbase|by apply counted_le|apply seq_len_nonneg]].
  intros bs vs. apply eval_all_length.
Qed.

Lemma emits_method_args receiver method :
  emits ctx base (compile_expr receiver locals) locals (gives (eval_expr ctx receiver)) ->
  emits ctx base (fun c => c ← compile_expr receiver locals c; c ← compile_all (fun e => compile_expr e locals) items c;
      Ok (emit (MethodCall (handle method) (as_u8 (seq_len items))) c)) locals
    (gives (fun bs => r ← eval_expr ctx receiver bs; vs ← eval_all (fun e => eval_expr ctx e bs) items;
      method_builtin_or_hook ctx r method vs)).
Proof.
  intros Hr. rewrite as_u8_small by (by apply counted_le).
  eapply emits_taken_on with (f := fun r vs => method_builtin_or_hook ctx r method vs);
    [exact Hr|by apply emits_all| |apply emits_method_call]. intros bs vs. apply eval_all_length.
Qed.
End items.

Lemma plain_keys_ok entries : forallb (fun p => plain_key p.1 && portable p.2) entries = true -> forall bs es,
  eval_entries (fun e => eval_expr ctx e bs) entries = Ok es -> keys_ok es /\ seq_len es = seq_len entries.
Proof.
  induction entries as [|[k v] entries IH]; intros Hp bs es Hes; cbn [eval_entries] in Hes; [injection Hes as <-; by split; [constructor|]|].
  cbn in Hp. apply andb_prop in Hp as [[Hk _]%andb_prop Hp]. inv_bind Hes. inv_bind Hes. inv_bind Hes. injection Hes as <-.
  destruct (IH Hp _ _ Hx1) as [Hok Hl]. rewrite !seq_len_cons, Hl. split; [|done]. apply Forall_cons. split; [|done].
  destruct k as [| | | | | | | | | | | | | | | | | | | | | | | | | | | | | | | | | | |lit| | |]; try done.
  injection Hx as <-. destruct lit as [b|n|s]; try done. cbn in *. unfold int_ok. lia.
Qed.

Lemma correct_map_lit entries locals :
  counted entries = true -> forallb (fun p => plain_key p.1 && portable p.2) entries = true ->
  Forall (fun p => emits ctx base (compile_expr p.1 locals) locals (gives (eval_expr ctx p.1))
    /\ emits ctx base (compile_expr p.2 locals) locals (gives (eval_expr ctx p.2))) entries ->
  emits ctx base (compile_expr (EMapLit entries) locals) locals (gives (eval_expr ctx (EMapLit entries))).
Proof.
  intros Hlen Hkeys He. cbn [compile_expr eval_expr]. rewrite as_u8_small by (by apply counted_le).
  eapply emits_conseq; [|eapply emits_seq; [by apply emits_entries|apply emits_map_lit]].
  intros bs st st' (v & Hv & ->). inv_bind Hv. destruct (plain_keys_ok _ Hkeys _ _ Hx) as [Hok Hl].
  exists (reverse (flat x) ++ st). split; [by exists (flat x); rewrite Hx|]. by exists x, st, v.
Qed.

Lemma correct_entries (entries : list (Expr * Expr)) locals :
  Forall (fun p => portable p.1 = true -> correct p.1) entries -> Forall (fun p => portable p.2 = true -> correct p.2) entries ->
  forallb (fun p => plain_key p.1 && portable p.2) entries = true ->
  Forall (fun p => emits ctx base (compile_expr p.1 locals) locals (gives (eval_expr ctx p.1))
    /\ emits ctx base (compile_expr p.2 locals) locals (gives (eval_expr ctx p.2))) entries.
Proof.
  induction entries as [|[k v] entries IH]; intros Hk Hv Hp; [constructor|].
  apply Forall_cons in Hk as [Hk1 Hk]. apply Forall_cons in Hv as [Hv1 Hv]. cbn in Hp. apply andb_prop in Hp as [[Hpk Hpv]%andb_prop Hp].
  constructor; [|by apply IH]. split; [|by apply Hv1]. apply Hk1. by destruct k.
Qed.

(** [Map::new] over a set. *)
Lemma correct_map_new func domain params body locals :
  path_name func = str "Map::new" -> emits ctx base (compile_expr domain locals) locals (gives (eval_expr ctx domain)) ->
  correct body ->
  emits ctx base (compile_expr (ECall func [domain; EClosure params body]) locals) locals
    (gives (eval_expr ctx (ECall func [domain; EClosure params body]))).
Proof.
  intros Hf Hd Hb.
  eapply emits_ext with (gen := fun c => c ← compile_expr domain locals c; compile_closure_opcode MapNew params (compile_expr body) locals c).
  { intros c. destruct domain; cbn [compile_expr]; by rewrite (decide_True _ _ Hf). }
  unfold compile_closure_opcode. destruct params as [|param params]; [intros c c' Hc; inv_bind Hc; done|].
  destruct (pattern param) as [|name| | | |] eqn:Hpat; try (intros c c' Hc; inv_bind Hc; done).
  eapply emits_ext with (gen := fun c => c ← compile_expr domain locals c;
    compile_body MapNewClosure (fun slot => compile_expr body ((name, slot) :: locals)) c); [done|].
  eapply emits_conseq; [|eapply emits_seq; [exact Hd|eapply emits_body; [exact Hbase|apply map_new_instruction|]]].
  2:{ intros slot. apply Hb. }
  intros bs st st' (v & Hv & ->).
  assert (exists d, eval_expr ctx domain bs = Ok d /\ eval_map_new_with_closure ctx d (param :: params) (eval_expr ctx body) bs = Ok v)
    as (d & Hdo & Hm) by (destruct domain; cbn [eval_expr] in Hv; rewrite (decide_True _ _ Hf) in Hv; by apply bind_Ok in Hv).
  clear Hv. rename Hm into Hv. exists (d :: st). split; [by exists d|]. exists d, v, st. split_and!; [done..|].
  unfold eval_map_new_with_closure, closure_param, binding_name in Hv. rewrite Hpat in Hv. cbn in Hv. exact Hv.
Qed.

Lemma correct_call func args :
  Forall (fun e => portable e = true -> correct e) args -> portable (ECall func args) = true ->
  (forall domain params body, args = [domain; EClosure params body] -> portable body = true -> correct body) ->
  correct (ECall func args).
Proof.
  intros IH Hp Hbody locals.
  assert (counted args && forallb portable args = true -> emits ctx base (fun c => c ← compile_all (fun e => compile_expr e locals) args c; Ok (compile_call func (seq_len args) c)) locals
    (gives (fun bs => vs ← eval_all (fun e => eval_expr ctx e bs) args; call_builtin_or_hook ctx func vs))) as Hgen.
  { intros [Hl Ha]%andb_prop. apply emits_call_args; [done|by apply (correct_in id)]. }
  destruct args as [|a [|b [|d args]]].
  - by apply Hgen.
  - destruct a; try (by apply Hgen); done.
  - destruct b as [| | | | | | |params body| | | | | | | | | | | | | | | | | | | | | | | | | | | | | | |];
      try (destruct a; by apply Hgen).
    cbn in Hp. apply andb_prop in Hp as [[Hf Ha]%andb_prop Hb]. apply bool_decide_eq_true in Hf.
    apply correct_map_new; [done| |by eapply Hbody]. apply Forall_cons in IH as [IHa _]. by apply IHa.
  - destruct a, b; by apply Hgen.
Qed.

Lemma correct_method receiver method args :
  correct receiver -> Forall (fun e => portable e = true -> correct e) args ->
  counted args = true -> forallb portable args = true -> correct (EMethodCall receiver method args).
Proof.
  intros Hr IH Hl Ha locals.
  pose proof (emits_method_args args locals Hl (correct_in id _ locals IH Ha) receiver method (Hr locals)) as Hgen.
  destruct args as [|a [|b args]]; [exact Hgen| |destruct a; exact Hgen]. destruct a; try exact Hgen; done.
Qed.

Lemma correct_quantifier kind vars body bs_op :
  bs_op = quantifier_of kind -> forallb int_var vars = true -> correct body -> forall locals,
  emits ctx base (compile_quantifier bs_op (compile_expr body) vars locals) locals
    (gives (eval_quantifier ctx kind vars (eval_expr ctx body))).
Proof.
  intros -> Hint Hb locals. destruct vars as [|var vars].
  - eapply emits_conseq; [|apply Hb]. intros bs st st' (v & Hv & ->). cbn in Hv. inv_bind Hv. inv_bind Hv.
    apply expect_bool_Ok in Hx0 as ->. injection Hv as <-. by exists (VBool x0).
  - exact (emits_quantifier ctx base Hbase Hdomains kind (var :: vars) locals _ _ Hint Hb).
Qed.

(** Deref, the only operator for which no instruction is emitted. *)
Lemma correct_unary op a : correct a -> correct (EUnary op a).
Proof.
  intros Ha locals. cbn [compile_expr eval_expr]. destruct op.
  - eapply emits_unary; [apply Ha|]. intros loop k v w st Hv. cbn in *. by rewrite Hv.
  - eapply emits_unary; [apply Ha|]. intros loop k v w st Hv. cbn in *. by rewrite Hv.
  - eapply emits_ext with (gen := compile_expr a locals); [intros c; by destruct (compile_expr a locals c)|].
    eapply emits_conseq; [|apply Ha]. intros bs st st' (v & Hv & ->). inv_bind Hv. injection Hv as <-. by exists x.
Qed.

Lemma correct_binary a op b : correct a -> correct b -> correct (EBinary a op b).
Proof.
  intros Ha Hb locals. destruct op; cbn [compile_expr eval_expr];
    try (eapply emits_binary; [apply Ha|apply Hb|]; intros loop k v w r st Hv; cbn [stack_op pop2 pop1]; by rewrite Hv).
  - eapply emits_conseq; [|eapply (emits_circuit ctx base Hbase JumpIfFalse false false); [apply jump_if_false|apply Ha|apply Hb]].
    intros bs st st' (v & Hv & ->). exists v. split; [|done]. inv_bind Hv. rewrite Hx. cbn.
    destruct x as [|[]| | | | | | | | |]; cbn in *; try done; inv_bind Hv; try done. inv_bind Hv. injection Hv as <-.
    by apply expect_bool_Ok in Hx1 as ->.
  - eapply emits_conseq; [|eapply (emits_circuit ctx base Hbase JumpIfTrue true true); [apply jump_if_true|apply Ha|apply Hb]].
    intros bs st st' (v & Hv & ->). exists v. split; [|done]. inv_bind Hv. rewrite Hx. cbn.
    destruct x as [|[]| | | | | | | | |]; cbn in *; try done; inv_bind Hv; try done. inv_bind Hv. injection Hv as <-.
    by apply expect_bool_Ok in Hx1 as ->.
Qed.

Lemma correct_conditional c t e : correct c -> correct t -> option_all (fun e => correct e) e -> correct (EIf c t e).
Proof.
  intros Hc Ht He locals.
  eapply emits_ext with (gen := compile_branch JumpIfFalse (compile_expr c locals) (compile_expr t locals)
    (fun c => match e with Some e => compile_expr e locals c | None => Ok (emit_const VUnit c) end)); [done|].
  assert (emits ctx base (fun c => match e with Some e => compile_expr e locals c | None => Ok (emit_const VUnit c) end) locals
    (gives (fun bs => match e with Some e => eval_expr ctx e bs | None => Ok VUnit end))) as Helse.
  { destruct e as [e|]; [apply He|by apply emits_const]. }
  eapply emits_conseq; [|eapply emits_branch; [exact Hbase|apply jump_if_false|apply Hc|apply Ht|exact Helse]].
  intros bs st st' (v & Hv & ->). cbn [eval_expr] in Hv. inv_bind Hv. inv_bind Hv. apply expect_bool_Ok in Hx0 as ->.
  exists x0, st. split; [by exists (VBool x0)|]. destruct x0; by exists v.
Qed.

Lemma correct_let binding value body : correct value -> correct body -> correct (ELet binding value body).
Proof.
  intros Hv Hb locals. cbn [compile_expr eval_expr]. destruct (pattern binding) as [|name| | | |]; try (intros c c' [=]; fail).
  eapply emits_conseq; [|eapply emits_seq; [apply Hv|apply (emits_store ctx base name)]; intros slot; apply Hb].
  intros bs st st' (v & Hvs & ->). inv_bind Hvs. exists (x :: st). split; [by exists x|]. exists x, st. split; [done|]. by exists v.
Qed.

Lemma correct_field a field : correct a -> correct (EField a field).
Proof.
  intros Ha locals. cbn [compile_expr eval_expr]. eapply emits_unary; [apply Ha|].
  intros loop k b v st Hv. cbn. unfold load_field. rewrite name_handle. unfold eval_field, value_field in Hv.
  destruct (field_sym b (handle field)); [by rewrite Hv|]. case_decide; by rewrite ?Hv.
Qed.

Lemma correct_arrow a field : correct a -> field <> str "tag" -> correct (EArrow a field).
Proof.
  intros Ha Hne locals. cbn [compile_expr eval_expr]. eapply emits_unary; [apply Ha|].
  intros loop k b v st Hv. cbn. unfold load_arrow. unfold eval_field, value_field in Hv.
  destruct (field_sym b (handle field)); [by injection Hv as <-|]. by rewrite decide_False in Hv.
Qed.

Lemma correct_is a variant : correct a -> correct (EIs a variant).
Proof.
  intros Ha locals. cbn [compile_expr eval_expr]. eapply emits_unary; [apply Ha|].
  intros loop k b v st Hv. cbn. unfold is_variant. rewrite name_handle. destruct b; try done. by injection Hv as <-.
Qed.

Lemma correct_implies a b : correct a -> correct b -> correct (EImplies a b).
Proof.
  intros Ha Hb locals. cbn [compile_expr eval_expr].
  eapply emits_conseq; [|eapply (emits_circuit ctx base Hbase JumpIfFalse false true); [apply jump_if_false|apply Ha|apply Hb]].
  intros bs st st' (v & Hv & ->). exists v. split; [|done]. inv_bind Hv. inv_bind Hv. rewrite Hx. cbn. rewrite Hx0. cbn.
  destruct x0; [|exact Hv]. inv_bind Hv. inv_bind Hv. injection Hv as <-. by apply expect_bool_Ok in Hx2 as ->.
Qed.

Lemma correct_iff a b : correct a -> correct b -> correct (EIff a b).
Proof.
  intros Ha Hb locals. cbn [compile_expr eval_expr].
  eapply emits_conseq; [|eapply (emits_binary ctx base _ _ OpEq _ _ (fun a b => Ok (VBool (value_eqb a b)))); [apply Ha|apply Hb|]].
  - intros bs st st' (v & Hv & ->). exists v. split; [|done]. inv_bind Hv. inv_bind Hv. inv_bind Hv. inv_bind Hv.
    rewrite Hx, Hx1. apply expect_bool_Ok in Hx0 as ->. apply expect_bool_Ok in Hx2 as ->. injection Hv as <-. by destruct x0, x2.
  - intros loop k v w r st [= <-]. done.
Qed.

Lemma correct_match scrutinee arms :
  forallb simple_arm arms = true -> correct scrutinee -> Forall (fun arm => correct arm.2) arms -> correct (EMatch scrutinee arms).
Proof.
  intros Hs He Hb locals. exact (emits_match ctx base Hbase compile_expr (eval_expr ctx) scrutinee arms locals Hs (He locals) Hb).
Qed.

(** A junction, by whether its items are decided. *)
Lemma correct_junction (f : bool) items :
  Forall (fun e => portable e = true -> correct e) items -> forallb portable items = true ->
  correct (if f then EConjunction items else EDisjunction items).
Proof.
  intros IH Hp locals. pose proof (correct_in id items locals IH Hp) as Hall.
  assert (forall bs, eval_expr ctx (if f then EConjunction items else EDisjunction items) bs
    = (b ← decided (negb f) (eval_expr ctx) items bs; Ok (VBool (if b : bool then negb f else f)))) as Heq.
  { intros bs. rewrite <- eval_junction_decided. by destruct f. }
  destruct f; (eapply emits_conseq; [intros bs st st' (v & Hv & Hst); rewrite Heq in Hv; exact (ex_intro _ v (conj Hv Hst))|]).
  - exact (emits_short_circuit ctx base Hbase JumpIfFalse false _ _ true false items locals jump_if_false Hall).
  - exact (emits_short_circuit ctx base Hbase JumpIfTrue true _ _ false true items locals jump_if_true Hall).
Qed.

(** The empty literals, which take no values. *)
Lemma correct_empty e op f :
  (forall locals c, compile_expr e locals c = Ok (emit op c)) -> (forall bs, eval_expr ctx e bs = f []) ->
  (forall locals, emits ctx base (fun c => Ok (emit op c)) locals (takes 0 f)) -> correct e.
Proof.
  intros Hc He Hop locals. eapply emits_ext; [apply Hc|]. eapply emits_conseq; [|apply Hop].
  intros bs st st' (v & Hv & ->). rewrite He in Hv. by exists [], st, v.
Qed.

Lemma correct_map_empty : correct EMapEmpty.
Proof.
  intros locals. eapply emits_conseq; [|apply (emits_map_lit ctx base 0)]. intros bs st st' (v & Hv & ->).
  exists [], st, v. split_and!; try done. constructor.
Qed.

Lemma correct_struct name fields :
  Forall (fun p => portable p.2 = true -> correct p.2) fields -> forallb (fun p => portable p.2) fields = true ->
  correct (EStruct name fields).
Proof.
  intros IH Hp locals. pose proof (correct_in snd fields locals IH Hp) as Hf.
  assert (forall bs, eval_expr ctx (EStruct name fields) bs = eval_struct (eval_expr ctx) fields name bs) as Heq by done.
  eapply emits_conseq; [intros bs st st' (v & Hv & Hst); rewrite Heq in Hv; exact (ex_intro _ v (conj Hv Hst))|].
  cbn [compile_expr]. destruct (struct_base fields) eqn:Hb.
  - by apply (emits_struct_with_base ctx base Hbase (fun e => compile_expr e locals) (eval_expr ctx) locals fields Hf name).
  - by apply (emits_struct_literal ctx base Hbase (fun e => compile_expr e locals) (eval_expr ctx) locals fields Hf name).
Qed.

(** *** The compiler *)

(** What is compiled, by the compiler's rules, does what the evaluator does. *)
Lemma compile_correct e : (portable e = true -> correct e)
  /\ (forall params body, e = EClosure params body -> portable body = true -> correct body).
Proof.
  assert (forall items, Forall (fun e => (portable e = true -> correct e)
      /\ (forall params body, e = EClosure params body -> portable body = true -> correct body)) items ->
    Forall (fun e => portable e = true -> correct e) items) as Hfirst.
  { intros items Hi. eapply Forall_impl; [exact Hi|]. by intros ? []. }
  assert (forall fields : list (Str * Expr), Forall (fun p => (portable p.2 = true -> correct p.2)
      /\ (forall params body, p.2 = EClosure params body -> portable body = true -> correct body)) fields ->
    Forall (fun p => portable p.2 = true -> correct p.2) fields) as Hfirst2.
  { intros fields Hi. eapply Forall_impl; [exact Hi|]. by intros ? []. }
  induction e using expr_ind; (split; [intros Hp; cbn [portable] in Hp|intros ps bd [=]; subst]); try done.
  all: repeat match goal with
    | Hx : _ && _ = true |- _ => apply andb_prop in Hx as [? ?]
    | Hx : (_ -> correct _) /\ _ |- _ => destruct Hx as [? _]
    end.
  all: try (first [apply correct_binary | apply correct_unary | apply correct_implies | apply correct_iff | apply correct_let
    | apply correct_field | apply correct_is | apply (correct_quantifier Forall_) | apply (correct_quantifier Exists_)
    | apply correct_ident]; by auto).
  - by apply (correct_junction true); auto.
  - by apply (correct_junction false); auto.
  - intros locals. cbn [compile_expr eval_expr]. eapply emits_unary; [by auto|]. intros loop k v w st Hv. cbn. by rewrite Hv.
  - by auto.
  - apply correct_conditional; [by auto..|]. destruct e3; [|done].
    match goal with Hx : option_all _ (Some _) |- _ => destruct Hx as [Hx _] end.
    intros locals. by auto.
  - apply correct_match; [by auto..|]. apply (correct_list snd); [|done].
    match goal with Hx : Forall _ arms |- _ => eapply Forall_impl; [exact Hx|]; by intros ? [_ []] end.
  - intros locals. cbn [compile_expr eval_expr]. eapply emits_binary; [by auto..|]. by intros loop k v w r st [= <-].
  - intros locals. cbn [compile_expr eval_expr]. eapply emits_binary; [by auto..|]. by intros loop k v w r st [= <-].
  - intros locals. cbn [compile_expr eval_expr]. by eapply emits_compare; [auto..|].
  - intros locals. cbn [compile_expr eval_expr]. by eapply emits_compare; [auto..|].
  - intros locals. cbn [compile_expr eval_expr]. by eapply emits_compare; [auto..|].
  - intros locals. cbn [compile_expr eval_expr]. by eapply emits_compare; [auto..|].
  - intros locals. cbn [compile_expr eval_expr]. eapply emits_binary; [by auto..|].
    intros loop k v w r st Hv. cbn [stack_op pop2 pop1]. by rewrite (index_value_missing _ _ _ _ Hv).
  - apply correct_arrow; [by auto|]. by eapply bool_decide_eq_false, negb_true_iff.
  - by apply correct_struct; auto.
  - intros locals. cbn [compile_expr eval_expr].
    apply (emits_update ctx base Hbase (fun e => compile_expr e locals) (eval_expr ctx)); [|by auto]. by apply (correct_in snd); auto.
  - intros locals. by apply correct_seq_lit; [|apply (correct_in id); auto].
  - intros locals. by apply correct_set_lit; [|apply (correct_in id); auto].
  - intros locals. apply correct_map_lit; [done..|]. apply correct_entries; [..|done].
    all: match goal with Hx : Forall _ _ |- _ => eapply Forall_impl; [exact Hx|]; by intros ? [[] []] end.
  - apply (correct_empty ESeqEmpty (SeqLit 0) (fun vs => bounded (seq_bounded vs (bounds ctx)))); [done..|]. intros locals. apply emits_seq_lit.
  - apply (correct_empty ESetEmpty (SetLit 0) (fun vs => bounded (set_bounded vs (bounds ctx)))); [done..|]. intros locals. apply emits_set_lit.
  - apply correct_map_empty.
  - apply correct_call; [by auto|done|]. intros domain params body -> Hb.
    match goal with Hx : Forall _ [_; _] |- _ => apply Forall_cons in Hx as [_ Hx]; apply Forall_cons in Hx as [[_ Hx] _]; by eapply Hx end.
  - by apply correct_method; auto.
  - intros locals. cbn. by auto.
  - intros locals. by apply emits_const.
  - intros locals. by apply emits_const.
Qed.
End correct.
