(* ===== verification/BytecodeTotal.v ===== *)
(** * The bytecode compiler does not panic, and the machine stops

    The compiler goes back to jumps and bodies that it has emitted to set where they
    lead, and panics when it finds something else there.  It only ever appends, so
    that what it emitted is still where it was.  The machine only goes forward, in a
    chunk and in its bodies, whatever the chunk. *)

From stdpp Require Import prelude gmap sets list numbers fin_sets strings.
From Stdlib Require Import ZArith Lia.
From S2P Require Import Prelude.
From S2P Require Import RuntimeValue.
From S2P Require Import SpecAst.
From S2P Require Import EvalOps.
From S2P Require Import Evaluator.
From S2P Require Import Bytecode.
From S2P Require Import BytecodeVm.
From S2P Require Import VmLaws.
From S2P Require Import CompilerLaws.

#[local] Open Scope Z_scope.

(** ** Appending *)

Definition extends (c c' : Chunk) : Prop := ops c `prefix_of` ops c'.

(** Neither a panic, nor a change of what was there. *)
Definition appends (gen : Chunk -> Res Chunk) : Prop :=
  forall c, match gen c with Ok c' => extends c c' | Err _ => True | Panic => False end.

#[export] Instance extends_preorder : PreOrder extends.
Proof. split; [by intros c; unfold extends|]. intros a b c. unfold extends. apply transitivity. Qed.

Lemma extends_emit op c : extends c (emit op c).
Proof. by apply prefix_app_r. Qed.
Lemma extends_emit_const v c : extends c (emit_const v c).
Proof. by apply prefix_app_r. Qed.

Lemma appends_nil : appends (fun c => Ok c).
Proof. intros c. unfold extends. done. Qed.

Lemma appends_ok f : (forall c, extends c (f c)) -> appends (fun c => Ok (f c)).
Proof. by intros Hf c. Qed.

Lemma appends_emit op : appends (fun c => Ok (emit op c)).
Proof. apply appends_ok, extends_emit. Qed.

Lemma appends_err e : appends (fun _ => Err e).
Proof. by intros c. Qed.

Lemma appends_bind g1 g2 : appends g1 -> appends g2 -> appends (fun c => c ← g1 c; g2 c).
Proof.
  intros H1 H2 c. specialize (H1 c). destruct (g1 c) as [c1| |]; cbn; [|done..].
  specialize (H2 c1). destruct (g2 c1); [|done..]. by etrans.
Qed.

(** After code that only appends, what was there is still there. *)
Lemma extends_lookup c c' i op : extends c c' -> ops c !! i = Some op -> ops c' !! i = Some op.
Proof. intros He Hi. by eapply prefix_lookup_Some. Qed.

Lemma extends_length c c' : extends c c' -> (length (ops c) <= length (ops c'))%nat.
Proof. apply prefix_length. Qed.

(** ** Patches *)

Definition is_jump (op : Opcode) : Prop := forall o, exists op', set_jump o op = Some op'.
Definition is_body (op : Opcode) : Prop := forall o, exists op', set_body_len o op = Some op'.

(** Changing one instruction keeps those before it. *)
Lemma extends_insert c c' j op :
  extends c c' -> (length (ops c) <= j)%nat -> extends c (set_ops (<[j := op]> (ops c')) c').
Proof.
  intros [k Hk] Hj. unfold extends. cbn. rewrite Hk, insert_app_r_alt by done. by apply prefix_app_r.
Qed.

Lemma is_jump_set o op op' : set_jump o op = Some op' -> is_jump op'.
Proof. by destruct op; intros [= <-] o'; eexists. Qed.

(** A patch of a jump at or after the end of [c]: it works, and leaves the other
    instructions. *)
Lemma patch_jump_ok c c1 j op :
  extends c c1 -> (length (ops c) <= j)%nat -> ops c1 !! j = Some op -> is_jump op ->
  exists c2, patch_jump j c1 = Ok c2 /\ extends c c2 /\ length (ops c2) = length (ops c1)
    /\ (forall i, i <> j -> ops c2 !! i = ops c1 !! i).
Proof.
  intros He Hj Hop Hjump. unfold patch_jump, set_jump_at. rewrite Hop. cbn. destruct (Hjump (offset_from j c1)) as [op' ->]. cbn.
  eexists. split; [done|]. split; [by apply extends_insert|]. cbn. split; [apply length_insert|].
  intros i Hi. by apply list_lookup_insert_ne.
Qed.

Lemma set_jumps_ok c target jumps : forall c1, extends c c1 ->
  (forall j, j ∈ jumps -> (length (ops c) <= j)%nat /\ exists op, ops c1 !! j = Some op /\ is_jump op) ->
  exists c2, set_jumps jumps target c1 = Ok c2 /\ extends c c2 /\ length (ops c2) = length (ops c1)
    /\ (forall i, i ∉ jumps -> ops c2 !! i = ops c1 !! i).
Proof.
  induction jumps as [|j jumps IH]; intros c1 He Hj; cbn; [by exists c1|].
  destruct (Hj j) as (Hle & op & Hop & Hjump); [by left|]. unfold set_jump_at. rewrite Hop. cbn.
  set (o := as_u16 _). destruct (Hjump o) as [op' Hs]. rewrite Hs. cbn. set (c2 := set_ops _ c1).
  destruct (IH c2) as (c3 & -> & He3 & Hlen & Hout).
  - by apply extends_insert.
  - intros i Hi. destruct (Hj i) as (Hlei & opi & Hopi & Hji); [by right|]. split; [done|]. cbn.
    destruct (decide (i = j)) as [->|Hne].
    + rewrite list_lookup_insert_eq by by eapply lookup_lt_Some. exists op'. split; [done|by eapply is_jump_set].
    + rewrite list_lookup_insert_ne by done. by exists opi.
  - exists c3. split; [done|]. split; [done|]. cbn in Hlen. rewrite length_insert in Hlen. split; [done|].
    intros i Hi. rewrite Hout by (intros ?; apply Hi; by right). cbn. apply list_lookup_insert_ne. intros ->. apply Hi. by left.
Qed.

Lemma patch_jumps_ok c jumps : forall c1, extends c c1 ->
  (forall j, j ∈ jumps -> (length (ops c) <= j)%nat /\ exists op, ops c1 !! j = Some op /\ is_jump op) ->
  exists c2, patch_jumps jumps c1 = Ok c2 /\ extends c c2.
Proof.
  induction jumps as [|j jumps IH]; intros c1 He Hj; cbn; [by exists c1|].
  destruct (Hj j) as (Hle & op & Hop & Hjump); [by left|]. unfold patch_jump, set_jump_at. rewrite Hop. cbn.
  set (o := offset_from _ _). destruct (Hjump o) as [op' Hs]. rewrite Hs. cbn. apply IH; [by apply extends_insert|].
  intros i Hi. destruct (Hj i) as (Hlei & opi & Hopi & Hji); [by right|]. split; [done|]. cbn.
  destruct (decide (i = j)) as [->|Hne].
  - rewrite list_lookup_insert_eq by by eapply lookup_lt_Some. exists op'. split; [done|by eapply is_jump_set].
  - rewrite list_lookup_insert_ne by done. by exists opi.
Qed.

(** ** Pieces of the compiler *)

(** A condition and both its outcomes, which the compiler does for conditionals and
    connectives. *)
Lemma appends_branch jump cond then_ else_ :
  (forall o, is_jump (jump o)) -> appends cond -> appends then_ -> appends else_ ->
  appends (compile_branch jump cond then_ else_).
Proof.
  intros Hj H1 H2 H3 c. unfold compile_branch. specialize (H1 c). destruct (cond c) as [c1| |]; cbn [mbind res_bind]; [|done..].
  specialize (H2 (emit (jump 0) c1)). destruct (then_ (emit (jump 0) c1)) as [c2| |]; cbn [mbind res_bind]; [|done..].
  pose proof (extends_length _ _ H1) as Hl1. pose proof (extends_length _ _ H2) as Hl2. cbn in Hl2. rewrite length_app in Hl2. cbn in Hl2.
  assert (extends c c2) as Hc2 by (etrans; [exact H1|]; etrans; [apply extends_emit|exact H2]).
  destruct (patch_jump_ok c (emit (Jump 0) c2) (length (ops c1)) (jump 0)) as (c3 & -> & He3 & Hlen3 & Hout3); [|done| |done|].
  { etrans; [exact Hc2|apply extends_emit]. }
  { eapply extends_lookup; [apply extends_emit|]. eapply extends_lookup; [exact H2|]. by apply list_lookup_middle. }
  cbn [mbind res_bind]. specialize (H3 c3). destruct (else_ c3) as [c4| |]; cbn [mbind res_bind]; [|done..].
  destruct (patch_jump_ok c c4 (length (ops c2)) (Jump 0)) as (c5 & -> & He5 & _); [by etrans|lia| |by eexists|done].
  eapply extends_lookup; [exact H3|]. rewrite Hout3 by lia. by apply list_lookup_middle.
Qed.

Lemma appends_circuit (jump : Z -> Opcode) otherwise lhs rhs :
  (forall o, is_jump (jump o)) -> appends lhs -> appends rhs -> appends (compile_binary_circuit (jump 0) otherwise lhs rhs).
Proof.
  intros Hj H1 H2.
  exact (appends_branch jump lhs rhs _ Hj H1 H2 (appends_ok _ (extends_emit_const (VBool otherwise)))).
Qed.

Lemma junction_appends compile jump items :
  Forall (fun e => appends (compile e)) items -> forall c,
  match compile_junction compile jump items c with
  | Ok (c', js) => extends c c' /\ forall j, j ∈ js -> (length (ops c) <= j)%nat /\ ops c' !! j = Some jump
  | Err _ => True
  | Panic => False
  end.
Proof.
  induction 1 as [|e items He _ IH]; intros c; cbn [compile_junction]; [by split; [|intros j []%elem_of_nil]|].
  specialize (He c). destruct (compile e c) as [c1| |]; cbn [mbind res_bind]; [|done..].
  specialize (IH (emit jump c1)). destruct (compile_junction compile jump items (emit jump c1)) as [[c2 js]| |]; cbn [mbind res_bind]; [|done..].
  destruct IH as [He2 Hjs]. pose proof (extends_length _ _ He) as Hl. cbn [fst snd]. split.
  - etrans; [exact He|]. etrans; [apply extends_emit|exact He2].
  - intros j [->|Hj]%elem_of_cons.
    + split; [done|]. eapply extends_lookup; [exact He2|]. by apply list_lookup_middle.
    + destruct (Hjs j Hj) as [Hle Ho]. cbn in Hle. rewrite length_app in Hle. split; [lia|done].
Qed.

Lemma appends_short_circuit compile jump if_all if_any items :
  is_jump jump -> Forall (fun e => appends (compile e)) items -> appends (compile_short_circuit compile jump if_all if_any items).
Proof.
  intros Hj Hitems c. unfold compile_short_circuit. destruct items as [|e items]; [apply extends_emit_const|].
  pose proof (junction_appends compile jump _ Hitems c) as Hjun. destruct (compile_junction _ _ _ c) as [[c1 js]| |]; cbn [mbind res_bind fst snd]; [|done..].
  destruct Hjun as [He1 Hjs]. set (c2 := emit_const (VBool if_all) c1). set (c3 := emit (Jump 0) c2). set (c4 := emit_const (VBool if_any) c3).
  assert (extends c1 c4) as He4.
  { etrans; [apply extends_emit_const|]. etrans; [apply extends_emit|apply extends_emit_const]. }
  destruct (set_jumps_ok c (length (ops c3)) js c4) as (c5 & -> & He5 & Hlen5 & Hout5); [by etrans| |].
  { intros j Hin. destruct (Hjs j Hin) as [Hle Hop]. split; [done|]. exists jump. split; [by eapply extends_lookup|done]. }
  cbn [mbind res_bind]. pose proof (extends_length _ _ He1) as Hl1. assert (length (ops c2) = S (length (ops c1))) as Hl2.
  { cbn. rewrite length_app. cbn. lia. }
  destruct (patch_jump_ok c c5 (length (ops c2)) (Jump 0)) as (c6 & -> & He6 & _); [done|lia| |by eexists|done].
  rewrite Hout5.
  - eapply extends_lookup; [apply extends_emit_const|]. by apply list_lookup_middle.
  - intros Hin. destruct (Hjs _ Hin) as [_ Hop%lookup_lt_Some]. lia.
Qed.

(** An instruction with a body. *)
Lemma appends_body mk gen : (forall slot, is_body (mk slot)) -> (forall slot, appends (gen slot)) ->
  appends (fun c => let '(c, slot) := alloc_local c in
    let q_idx := length (ops c) in c ← gen slot (emit (mk slot) c); patch_body q_idx c).
Proof.
  intros Hmk Hg c. unfold alloc_local. set (c1 := MkChunk _ _ _ _ _ _). set (slot := num_locals c). cbv beta iota zeta.
  specialize (Hg slot (emit (mk slot) c1)). destruct (gen slot (emit (mk slot) c1)) as [c2| |]; cbn [mbind res_bind]; [|done..].
  unfold patch_body. assert (ops c2 !! length (ops c1) = Some (mk slot)) as ->.
  { eapply extends_lookup; [exact Hg|]. by apply list_lookup_middle. }
  cbn [mbind res_bind or_panic]. destruct (Hmk slot (offset_from (length (ops c1)) c2)) as [op' ->]. cbn [mbind res_bind or_panic].
  apply extends_insert; [|done]. etrans; [|exact Hg]. by apply prefix_app_r.
Qed.

Lemma appends_quantifier op body vars : (forall locals, appends (body locals)) ->
  forall locals, appends (compile_quantifier op body vars locals).
Proof.
  intros Hb. induction vars as [|var vars IH]; intros locals; cbn [compile_quantifier]; [apply Hb|].
  destruct (pattern var) as [|name| | | |]; try apply appends_err.
  apply (appends_body (quantifier_opcode op) (fun slot => compile_quantifier op body vars ((name, slot) :: locals))).
  - intros slot o. destruct op; by eexists.
  - intros slot. apply IH.
Qed.

Lemma appends_closure op params body locals : (forall locals, appends (body locals)) ->
  appends (compile_closure_opcode op params body locals).
Proof.
  intros Hb. unfold compile_closure_opcode. destruct params as [|param params]; [apply appends_err|].
  destruct (pattern param) as [|name| | | |]; try apply appends_err.
  apply (appends_body (closure_opcode op) (fun slot => body ((name, slot) :: locals))).
  - intros slot o. destruct op; by eexists.
  - intros slot. apply Hb.
Qed.

(** ** Match *)

Section patterns.
Context `{Handles}.

Lemma store_new_extends c : extends c (store_new c).1.
Proof. by apply prefix_app_r. Qed.

Lemma pattern_check_extends p slot c : extends c (compile_pattern_check p slot c).
Proof.
  assert (forall a b, extends c (emit b (emit a c))) as Htwo by (intros a b; etrans; apply extends_emit).
  destruct p as [| | | | |lit]; cbn [compile_pattern_check]; try apply extends_emit_const; try apply Htwo.
  etrans; [apply extends_emit|]. etrans; [apply (extends_emit_const (literal_value lit))|apply extends_emit].
Qed.

(** A field is put into a local of its own, under which its pattern is bound. *)
Lemma bind_part_extends (bind : Pattern -> Z -> Chunk -> LocalTable -> Chunk * LocalTable) (p : Pattern) (c c' : Chunk) locals
    (rest : Chunk -> LocalTable -> Chunk * LocalTable) :
  (forall slot c locals, extends c (bind p slot c locals).1) -> (forall c locals, extends c (rest c locals).1) -> extends c c' ->
  extends c (let '(c, slot) := store_new c' in let '(c, locals) := bind p slot c locals in rest c locals).1.
Proof.
  intros Hb Hr Hc. destruct (store_new c') as [c1 slot] eqn:Hs. pose proof (store_new_extends c') as H1. rewrite Hs in H1.
  specialize (Hb slot c1 locals). destruct (bind p slot c1 locals) as [c2 locals2]. cbn in *.
  etrans; [exact Hc|]. etrans; [exact H1|]. etrans; [exact Hb|apply Hr].
Qed.

Lemma pattern_bind_extends p : forall slot c locals, extends c (compile_pattern_bind p slot c locals).1.
Proof.
  induction p as [|name|items IH|name fields IH|name fields IH|lit] using pattern_ind'; intros slot c locals; cbn [compile_pattern_bind]; try done.
  - etrans; [apply (extends_emit (LoadLocal slot))|]. apply store_new_extends.
  - generalize 0. revert c locals. induction IH as [|p items Hp _ IHi]; intros c locals i; [done|]. cbn [bind_items].
    apply bind_part_extends; [done|intros; apply IHi|].
    etrans; [apply extends_emit|]. etrans; [apply extends_emit_const|apply extends_emit].
  - revert c locals. induction IH as [|[f p] fields Hp _ IHf]; intros c locals; [done|]. cbn [bind_fields].
    apply bind_part_extends; [done|intros; apply IHf|]. etrans; apply extends_emit.
  - generalize 0. revert c locals. induction IH as [|p fields Hp _ IHf]; intros c locals i; [done|]. cbn [bind_positions].
    apply bind_part_extends; [done|intros; apply IHf|]. etrans; apply extends_emit.
Qed.

Section arms.
Context (compile : Expr -> LocalTable -> Chunk -> Res Chunk).

(** The jumps that the arms leave to be patched. *)
Definition open_jumps (c : Chunk) (r : Chunk * list nat) : Prop :=
  extends c r.1 /\ forall j, j ∈ r.2 -> (length (ops c) <= j)%nat /\ exists op, ops r.1 !! j = Some op /\ is_jump op.

Lemma open_jumps_cons c c1 c2 j js op :
  extends c c1 -> open_jumps c1 (c2, js) -> (length (ops c) <= j)%nat -> ops c1 !! j = Some op -> is_jump op ->
  open_jumps c (c2, j :: js).
Proof.
  intros He [He2 Hjs] Hj Hop Hjump. cbn in *. split; [by etrans|]. pose proof (extends_length _ _ He). cbn. intros i [->|Hi]%elem_of_cons.
  - split; [done|]. exists op. split; [by eapply extends_lookup|done].
  - destruct (Hjs i Hi) as [Hle Ho]. split; [lia|done].
Qed.

Lemma arms_append slot arms locals :
  Forall (fun arm => option_all (fun g => forall locals, appends (compile g locals)) arm.1.2
    /\ forall locals, appends (compile arm.2 locals)) arms ->
  forall c, match compile_arms compile slot arms locals c with Ok r => open_jumps c r | Err _ => True | Panic => False end.
Proof.
  induction 1 as [|[[p guard] body] arms [Hg Hb] _ IH]; intros c; cbn [compile_arms].
  { split; [done|]. by intros j []%elem_of_nil. }
  cbn [fst snd] in Hg, Hb. set (c0 := compile_pattern_check p slot c). assert (extends c c0) as He0 by apply pattern_check_extends.
  pose proof (pattern_bind_extends p slot (emit (JumpIfFalse 0) c0) locals) as He2.
  destruct (compile_pattern_bind p slot (emit (JumpIfFalse 0) c0) locals) as [c2 locals2]. cbn [fst] in He2.
  assert (extends c c2) as Hc2 by (etrans; [exact He0|]; etrans; [apply extends_emit|exact He2]).
  assert (ops c2 !! length (ops c0) = Some (JumpIfFalse 0)) as Hskip.
  { eapply extends_lookup; [exact He2|]. by apply list_lookup_middle. }
  pose proof (extends_length _ _ He0) as Hl0.
  assert (length (ops c0) < length (ops c2))%nat as Hl2 by by eapply lookup_lt_Some.
  destruct guard as [g|].
  - specialize (Hg locals2 c2). destruct (compile g locals2 c2) as [c3| |]; cbn [mbind res_bind]; [|done..].
    specialize (Hb locals2 (emit (JumpIfFalse 0) c3)). destruct (compile body locals2 _) as [c4| |]; cbn [mbind res_bind]; [|done..].
    pose proof (extends_length _ _ Hg) as Hl3. pose proof (extends_length _ _ Hb) as Hl4. cbn in Hl4. rewrite length_app in Hl4. cbn in Hl4.
    assert (extends c3 c4) as Hc34 by (etrans; [apply extends_emit|exact Hb]).
    assert (extends c c4) as Hc4 by (etrans; [exact Hc2|]; by etrans).
    destruct (patch_jump_ok c (emit (Jump 0) c4) (length (ops c3)) (JumpIfFalse 0)) as (c5 & -> & He5 & Hlen5 & Hout5);
      [etrans; [exact Hc4|apply extends_emit]|lia| |by eexists|].
    { eapply extends_lookup; [apply extends_emit|]. eapply extends_lookup; [exact Hb|]. by apply list_lookup_middle. }
    cbn [mbind res_bind]. cbn in Hlen5. rewrite length_app in Hlen5. cbn in Hlen5.
    destruct (patch_jump_ok c (emit (Jump 0) c5) (length (ops c0)) (JumpIfFalse 0)) as (c6 & -> & He6 & Hlen6 & Hout6);
      [etrans; [exact He5|apply extends_emit]|lia| |by eexists|].
    { eapply extends_lookup; [apply extends_emit|]. rewrite Hout5 by lia. eapply extends_lookup; [apply extends_emit|].
      eapply extends_lookup; [exact Hc34|]. by eapply extends_lookup. }
    cbn [mbind res_bind].
    destruct (patch_jump_ok c c6 (length (ops c5)) (Jump 0)) as (c7 & -> & He7 & Hlen7 & Hout7); [done|lia| |by eexists|].
    { rewrite Hout6 by lia. by apply list_lookup_middle. }
    cbn [mbind res_bind]. specialize (IH c7). destruct (compile_arms compile slot arms locals c7) as [[c8 js]| |]; cbn [mbind res_bind fst snd]; [|done..].
    eapply (open_jumps_cons c c7 c8 _ js (Jump 0)); [done|exact IH|lia| |by eexists].
    rewrite Hout7, Hout6 by lia. eapply extends_lookup; [apply extends_emit|]. rewrite Hout5 by lia. by apply list_lookup_middle.
  - specialize (Hb locals2 c2). destruct (compile body locals2 c2) as [c4| |]; cbn [mbind res_bind]; [|done..].
    pose proof (extends_length _ _ Hb) as Hl4.
    destruct (patch_jump_ok c (emit (Jump 0) c4) (length (ops c0)) (JumpIfFalse 0)) as (c5 & -> & He5 & Hlen5 & Hout5);
      [etrans; [exact Hc2|]; etrans; [exact Hb|apply extends_emit]|lia| |by eexists|].
    { eapply extends_lookup; [apply extends_emit|]. by eapply extends_lookup. }
    cbn [mbind res_bind]. specialize (IH c5). destruct (compile_arms compile slot arms locals c5) as [[c6 js]| |]; cbn [mbind res_bind fst snd]; [|done..].
    eapply (open_jumps_cons c c5 c6 _ js (Jump 0)); [done|exact IH|lia| |by eexists].
    rewrite Hout5 by lia. by apply list_lookup_middle.
Qed.

Lemma appends_match scrutinee arms locals :
  appends (compile scrutinee locals) ->
  Forall (fun arm => option_all (fun g => forall locals, appends (compile g locals)) arm.1.2
    /\ forall locals, appends (compile arm.2 locals)) arms ->
  appends (compile_match compile scrutinee arms locals).
Proof.
  intros Hs Ha c. unfold compile_match. specialize (Hs c). destruct (compile scrutinee locals c) as [c1| |]; cbn [mbind res_bind]; [|done..].
  pose proof (store_new_extends c1) as H1. destruct (store_new c1) as [c2 slot]. cbn [fst] in H1.
  pose proof (arms_append slot arms locals Ha c2) as Harms.
  destruct (compile_arms compile slot arms locals c2) as [[c3 js]| |]; cbn [mbind res_bind fst snd]; [|done..].
  destruct Harms as [He3 Hjs]. cbn in He3, Hjs.
  destruct (patch_jumps_ok c2 js (emit_const VUnit c3)) as (c4 & -> & He4).
  - etrans; [exact He3|apply extends_emit_const].
  - intros j Hj. destruct (Hjs j Hj) as (Hle & op & Hop & Hjump). split; [done|]. exists op. split; [|done].
    eapply extends_lookup; [apply extends_emit_const|exact Hop].
  - etrans; [exact Hs|]. by etrans.
Qed.
End arms.

(** ** Expressions *)

Section lists.
Context (compile : Expr -> Chunk -> Res Chunk).

Lemma appends_all items : Forall (fun e => appends (compile e)) items -> appends (compile_all compile items).
Proof. induction 1 as [|e items He _ IH]; [exact appends_nil|]. exact (appends_bind _ _ He IH). Qed.

Lemma appends_entries entries :
  Forall (fun p => appends (compile p.1) /\ appends (compile p.2)) entries -> appends (compile_entries compile entries).
Proof.
  induction 1 as [|[k v] entries [Hk Hv] _ IH]; [exact appends_nil|]. exact (appends_bind _ _ Hk (appends_bind _ _ Hv IH)).
Qed.

Lemma appends_regular fields : Forall (fun p => appends (compile p.2)) fields -> appends (compile_regular compile fields).
Proof.
  induction 1 as [|[f e] fields He _ IH]; [exact appends_nil|]. cbn [compile_regular]. case_decide; [exact IH|].
  exact (appends_bind _ _ He IH).
Qed.

Lemma appends_fields fields : Forall (fun p => appends (compile p.2)) fields -> appends (compile_fields compile fields).
Proof. induction 1 as [|[f e] fields He _ IH]; [exact appends_nil|]. exact (appends_bind _ _ He IH). Qed.

Lemma appends_base fields : Forall (fun p => appends (compile p.2)) fields -> appends (compile_base compile fields).
Proof.
  induction 1 as [|[f e] fields He _ IH]; [exact appends_nil|]. cbn [compile_base]. case_decide; [|exact IH].
  destruct (struct_base fields); [exact IH|exact He].
Qed.
End lists.

(** Code and one more instruction. *)
Lemma appends_then g f : appends g -> (forall c, extends c (f c)) -> appends (fun c => c ← g c; Ok (f c)).
Proof. intros Hg Hf. apply (appends_bind _ _ Hg). by apply appends_ok. Qed.

Lemma appends_binary g1 g2 op : appends g1 -> appends g2 -> appends (fun c => c ← g1 c; c ← g2 c; Ok (emit op c)).
Proof. intros H1 H2. apply (appends_bind _ _ H1), (appends_bind _ _ H2), appends_emit. Qed.

Lemma appends_ident name locals : appends (compile_ident name locals).
Proof.
  intros c. unfold compile_ident. destruct (local_get name locals); [apply extends_emit|].
  destruct (split_variant_path name) as [[ty variant]|]; apply extends_emit_const.
Qed.

Lemma compile_call_extends func n c : extends c (compile_call func n c).
Proof. unfold extends. cbn. by apply prefix_app_r. Qed.

Abbreviation total e := (forall locals, appends (compile_expr e locals)).
(** The expression, and the body when it is a closure. *)
Abbreviation total_deep e := (total e /\ forall params body, e = EClosure params body -> total body).

Lemma total_shallow items : Forall (fun e => total_deep e) items -> forall locals, Forall (fun e => appends (compile_expr e locals)) items.
Proof. intros Hi locals. eapply Forall_impl; [exact Hi|]. intros e [He _]. apply He. Qed.

Lemma total_fields (fields : list (Str * Expr)) : Forall (fun p => total_deep p.2) fields ->
  forall locals, Forall (fun p => appends (compile_expr p.2 locals)) fields.
Proof. intros Hi locals. eapply Forall_impl; [exact Hi|]. intros p [He _]. apply He. Qed.

Lemma total_call func args : Forall (fun e => total_deep e) args -> total (ECall func args).
Proof.
  intros Ha locals.
  assert (appends (fun c => c ← compile_all (fun e => compile_expr e locals) args c; Ok (compile_call func (seq_len args) c))) as Hgen.
  { apply appends_then; [by apply appends_all, total_shallow|]. intros c. apply compile_call_extends. }
  destruct args as [|a [|b [|d args]]]; cbn [compile_expr]; try exact Hgen.
  - destruct a; try exact Hgen. case_decide; [|exact Hgen]. apply Forall_cons in Ha as [[_ Ha] _].
    apply appends_closure. by eapply Ha.
  - apply Forall_cons in Ha as [[Ha _] [[_ Hb] _]%Forall_cons].
    assert (forall params body, b = EClosure params body ->
      appends (fun c => c ← compile_expr a locals c; compile_closure_opcode MapNew params (compile_expr body) locals c)) as Hmap.
    { intros params body ->. apply (appends_bind _ _ (Ha locals)), appends_closure. by eapply Hb. }
    destruct a; destruct b; try exact Hgen; (case_decide; [by apply Hmap|exact Hgen]).
  - destruct a; destruct b; exact Hgen.
Qed.

Lemma total_method receiver method args : total receiver -> Forall (fun e => total_deep e) args -> total (EMethodCall receiver method args).
Proof.
  intros Hr Ha locals.
  assert (appends (fun c => c ← compile_expr receiver locals c; c ← compile_all (fun e => compile_expr e locals) args c;
    Ok (emit (MethodCall (handle method) (as_u8 (seq_len args))) c))) as Hgen.
  { apply (appends_bind _ _ (Hr locals)). apply appends_then; [by apply appends_all, total_shallow|]. intros c. apply extends_emit. }
  destruct args as [|a [|b args]]; cbn [compile_expr]; [exact Hgen| |destruct a; exact Hgen].
  destruct a; try exact Hgen. case_decide; [|exact Hgen]. apply Forall_cons in Ha as [[_ Ha] _].
  apply (appends_bind _ _ (Hr locals)), appends_closure. by eapply Ha.
Qed.

Lemma total_struct name fields : Forall (fun p => total_deep p.2) fields -> total (EStruct name fields).
Proof.
  intros Hf locals c. pose proof (total_fields _ Hf locals) as Hl. cbn [compile_expr]. destruct (struct_base fields).
  - refine (appends_bind _ _ (appends_base (fun e => compile_expr e locals) _ Hl)
      (appends_then _ _ (appends_regular (fun e => compile_expr e locals) _ Hl) _) c). intros c'. by apply prefix_app_r.
  - refine (appends_then _ _ (appends_regular (fun e => compile_expr e locals) _ Hl) _ c). intros c'. by apply prefix_app_r.
Qed.

(** No expression makes the compiler panic. *)
Lemma compile_total e : total_deep e.
Proof.
  induction e using expr_ind; (split; [|intros ps bd [=]; subst]).
  all: repeat match goal with Hx : total_deep _ |- _ => destruct Hx as [? _] end; try done.
  all: try (intros locals; cbn [compile_expr];
    first [apply appends_err | apply appends_binary; auto | apply appends_ok; intros c; first [apply extends_emit | apply extends_emit_const]
      | apply appends_quantifier; auto | apply appends_ident]; fail).
  - intros locals. by apply appends_short_circuit; [by eexists|apply total_shallow].
  - intros locals. by apply appends_short_circuit; [by eexists|apply total_shallow].
  - intros locals. by apply (appends_circuit JumpIfFalse); [by eexists|..].
  - intros locals. by apply appends_then; [|intros c; apply extends_emit].
  - intros locals. apply (appends_branch JumpIfFalse); [by eexists|done..|].
    destruct e3 as [e|]; [|apply appends_ok, extends_emit_const].
    match goal with Hx : option_all _ (Some _) |- _ => destruct Hx as [Hx _] end. auto.
  - intros locals. apply appends_match; [done|].
    match goal with Hx : Forall _ arms |- _ => eapply Forall_impl; [exact Hx|] end. intros [[p g] body] [Hg [Hb _]]. split; [|exact Hb].
    destruct g; [|done]. by destruct Hg.
  - intros locals. cbn [compile_expr]. destruct (pattern b); try apply appends_err.
    apply appends_bind; [done|]. intros c. pose proof (store_new_extends c) as Hs. destruct (store_new c) as [c1 slot].
    match goal with Hx : total e2 |- _ => specialize (Hx ((name, slot) :: locals) c1) end.
    destruct (compile_expr e2 _ c1); [|done..]. by etrans.
  - intros locals. by apply appends_then; [|intros c; apply extends_emit].
  - intros locals. by apply appends_then; [|intros c; apply extends_emit].
  - intros locals. by apply appends_then; [|intros c; apply extends_emit].
  - by apply total_struct.
  - intros locals. apply appends_bind; [done|].
    apply appends_then; [by apply appends_fields, total_fields|]. intros c. by apply prefix_app_r.
  - intros locals. apply appends_then; [by apply appends_all, total_shallow|]. intros c. apply extends_emit.
  - intros locals. apply appends_then; [by apply appends_all, total_shallow|]. intros c. apply extends_emit.
  - intros locals. apply appends_then; [|intros c; apply extends_emit]. apply appends_entries.
    match goal with Hx : Forall _ entries |- _ => eapply Forall_impl; [exact Hx|] end. intros p [[Hk _] [Hv _]]. by split.
  - by apply total_call.
  - by apply total_method.
  - intros locals. destruct op; cbn [compile_expr]; try (by apply appends_binary);
      [apply (appends_circuit JumpIfFalse)|apply (appends_circuit JumpIfTrue)]; first [done | by eexists].
  - intros locals. apply appends_then; [done|]. intros c. destruct op; [apply extends_emit|apply extends_emit|done].
Qed.
End patterns.

(** ** The machine *)

(** The instructions that are not returns. *)
Fixpoint work (l : list Opcode) : nat :=
  match l with [] => 0 | Return :: l => work l | _ :: l => S (work l) end.

Lemma work_app l k : work (l ++ k) = (work l + work k)%nat.
Proof. induction l as [|op l IH]; [done|]. destruct op; cbn; lia. Qed.
Lemma work_le_length l : (work l <= length l)%nat.
Proof. induction l as [|op l IH]; [done|]. destruct op; cbn; lia. Qed.
Lemma work_drop l n m : (n <= m)%nat -> (work (drop m l) <= work (drop n l))%nat.
Proof.
  intros Hnm. rewrite <- (take_drop (m - n) (drop n l)), work_app, drop_drop. replace (n + (m - n))%nat with m by lia. lia.
Qed.
Lemma work_take l n : (work (take n l) <= work l)%nat.
Proof. rewrite <- (take_drop n l) at 2. rewrite work_app. lia. Qed.

Lemma work_step l pc op : l !! pc = Some op -> op <> Return -> work (drop pc l) = S (work (drop (S pc) l)).
Proof. intros Hop Hr. rewrite (drop_S _ _ _ Hop). by destruct op. Qed.

Lemma work_body l start len l' : body_ops l start len = Some l' -> (work l' <= work (drop start l))%nat.
Proof. unfold body_ops. case_decide; intros [= <-]. rewrite work_app. cbn. pose proof (work_take (drop start l) (Z.to_nat len)). lia. Qed.

Section machine.
Context `{Handles} (ctx : EvalContext).

Section loops.
Context (body : Locals -> BodyResult RuntimeValue) (Hbody : forall lv, is_Some (body lv)).

Lemma run_body_total {A} slot v lv (next : RuntimeValue -> Locals -> BodyResult A) :
  (forall w lv, is_Some (next w lv)) -> is_Some (run_body body slot v lv next).
Proof.
  intros Hn. unfold run_body. destruct (store_local slot v lv) as [lv1|]; [|by eexists].
  destruct (Hbody lv1) as [[[w| |] lv2] ->]; cbn; [apply Hn|by eexists..].
Qed.

Lemma check_bool_total {A} w lv (next : bool -> BodyResult A) : (forall b, is_Some (next b)) -> is_Some (check_bool w lv next).
Proof. intros Hn. unfold check_bool. destruct (expect_bool w); [apply Hn|by eexists..]. Qed.

Lemma loops_total slot domain : forall lv, is_Some (forall_loop body slot domain lv)
  /\ is_Some (exists_loop body slot domain lv) /\ is_Some (choose_loop body slot domain lv).
Proof.
  induction domain as [|v domain IH]; intros lv; [by split_and!; eexists|]. cbn.
  split_and!; apply run_body_total; intros w lv1; apply check_bool_total; intros []; first [by eexists | apply IH].
Qed.

Lemma map_loop_total slot values : forall lv, is_Some (map_loop body slot values lv).
Proof.
  induction values as [|v values IH]; intros lv; [by eexists|]. cbn. apply run_body_total. intros w lv1.
  destruct (IH lv1) as [r ->]. by eexists.
Qed.

Lemma filter_loop_total slot values : forall lv, is_Some (filter_loop body slot values lv).
Proof.
  induction values as [|v values IH]; intros lv; [by eexists|]. cbn. destruct (store_local slot v lv) as [lv1|]; [|by eexists].
  destruct (Hbody lv1) as [[[w| |] lv2] ->]; cbn; [|apply IH|by eexists]. destruct w as [|[]| | | | | | | | |]; try (by eexists); [|apply IH].
  destruct (IH lv2) as [r ->]. by eexists.
Qed.

Lemma body_op_total op st var bl wb st' lv : body_op ctx op st = Some (var, bl, Ok (wb, st')) -> is_Some (wb body lv).
Proof.
  assert (forall q x lv, is_Some (vm_eval_quantifier ctx q body x lv)) as Hq.
  { intros q x lv'. unfold vm_eval_quantifier. destruct (quantifier_domain_evaluator ctx) as [de|]; [|by eexists].
    destruct (de (dummy_binding x)); [destruct q; apply loops_total|by eexists..]. }
  intros Hop. destruct op; try done; cbn in Hop; try (injection Hop as <- <- <- <-; apply Hq).
  - injection Hop as <- <- <- <-. unfold vm_eval_set_new_closure. destruct (filter_loop_total var0 (VInt <$> int_range (-10) 100) lv) as [r ->]. by eexists.
  - destruct st as [|d st]; [done|]. injection Hop as <- <- <- <-. unfold vm_eval_map_new_closure.
    destruct (set_elements d) as [keys| |]; [|by eexists..]. destruct (map_loop_total var0 keys lv) as [r ->]. by eexists.
  - destruct st as [|d st]; [done|]. injection Hop as <- <- <- <-. unfold vm_eval_set_map_closure.
    destruct (set_elements d) as [keys| |]; [|by eexists..]. destruct (map_loop_total var0 keys lv) as [r ->]. by eexists.
Qed.
End loops.

(** As much fuel as there are instructions ahead is enough, for any code. *)
Lemma vm_run_total f : forall loop k l pc st lv, (work (drop pc l) < f)%nat -> is_Some (vm_run ctx f loop k l pc st lv).
Proof.
  induction f as [|f IH]; intros loop k l pc st lv Hf; [lia|].
  assert (forall op n st lv, l !! pc = Some op -> op <> Return -> is_Some (vm_run ctx f loop k l (S pc + n) st lv)) as Hnext.
  { intros op n st' lv' Hop Hr. apply IH. rewrite (work_step _ _ _ Hop Hr) in Hf. pose proof (work_drop l (S pc) (S pc + n)). lia. }
  assert (forall op st' lv', l !! pc = Some op -> op <> Return -> is_Some (vm_run ctx f loop k l (S pc) st' lv')) as Hnext1.
  { intros op st' lv' Hop Hr. specialize (Hnext op 0%nat st' lv' Hop Hr). by rewrite Nat.add_0_r in Hnext. }
  assert (forall op var bl wb st' lv, l !! pc = Some op -> op <> Return -> body_op ctx op st = Some (var, bl, Ok (wb, st')) ->
    is_Some (wb (fun lv => match body_ops l (S pc) bl with None => Some (Panic, lv) | Some l' => vm_run ctx f BodyLoop k l' 0 [] lv end) lv)) as Hbody.
  { intros op var bl wb st' lv' Hop Hr Hb. eapply body_op_total; [|exact Hb]. intros lv1.
    destruct (body_ops l (S pc) bl) as [l'|] eqn:Hl; [|by eexists]. apply IH. rewrite drop_0.
    apply work_body in Hl. rewrite (work_step _ _ _ Hop Hr) in Hf. lia. }
  cbn [vm_run]. destruct (l !! pc) as [op|] eqn:Hop; [|by eexists].
  assert (op = Return \/ op <> Return) as [->|Hr] by (destruct op; (by left) || by right); [by eexists|].
  specialize (Hnext op). specialize (Hnext1 op). specialize (Hbody op).
  assert (is_Some (match jump_op op st with
    | Some r => match r with Ok (offset, st) => vm_run ctx f loop k l (S pc + Z.to_nat offset) st lv | Err e => Some (Err e, lv) | Panic => Some (Panic, lv) end
    | None =>
      match body_op ctx op st with
      | Some (var, bl, r) =>
          match r with
          | Ok (with_body, st) =>
              r ← with_body (fun lv => match body_ops l (S pc) bl with None => Some (Panic, lv) | Some l' => vm_run ctx f BodyLoop k l' 0 [] lv end) lv;
              match r with
              | (Ok v, lv) => vm_run ctx f loop k l (S pc + Z.to_nat bl) (v :: st) lv
              | (Err e, lv) => Some (Err e, lv)
              | (Panic, lv) => Some (Panic, lv)
              end
          | Err e => Some (Err e, lv)
          | Panic => Some (Panic, lv)
          end
      | None =>
          match stack_op ctx loop k op st with
          | Some r => match r with Ok st => vm_run ctx f loop k l (S pc) st lv | Err e => Some (Err e, lv) | Panic => Some (Panic, lv) end
          | None => Some (Panic, lv)
          end
      end
    end)) as Hgen.
  { destruct (jump_op op st) as [[[offset st']| |]|]; [by apply Hnext|by eexists..|].
    destruct (body_op ctx op st) as [[[var bl] [[wb st']| |]]|]; [|by eexists..|].
    - destruct (Hbody var bl wb st' lv eq_refl Hr eq_refl) as [[[v| |] lv'] ->]; cbn; [by apply Hnext|by eexists..].
    - destruct (stack_op ctx loop k op st) as [[st'| |]|]; [by apply Hnext1|by eexists..]. }
  destruct op; try exact Hgen; try done.
  - destruct (or_panic (seq_get lv slot)); [by apply Hnext1|by eexists..].
  - destruct st as [|v st]; [by eexists|]. destruct (store_local slot v lv); [by apply Hnext1|by eexists].
Qed.

Lemma vm_eval_total k : is_Some (vm_eval ctx k).
Proof.
  unfold vm_eval. destruct (vm_run_total (vm_fuel k) ChunkLoop k (ops k) 0 [] (replicate (Z.to_nat (num_locals k)) VUnit)) as [r ->];
    [|by eexists]. pose proof (work_le_length (ops k)). unfold vm_fuel. rewrite drop_0. lia.
Qed.

Lemma vm_eval_with_locals_total k lv : is_Some (vm_eval_with_locals ctx k lv).
Proof.
  unfold vm_eval_with_locals. destruct (vm_run_total (vm_fuel k) LocalsLoop k (ops k) 0 [] lv) as [r ->]; [|by eexists].
  pose proof (work_le_length (ops k)). unfold vm_fuel. rewrite drop_0. lia.
Qed.
End machine.
