(* ===== verification/BytecodeTypes.v ===== *)
(** * Bytecode has no types

    The compiler looks at no type: expressions that differ only in the types of casts
    and bound variables, in the modes of variables and in triggers compile to the
    same code. *)

From stdpp Require Import prelude list strings.
From Stdlib Require Import ZArith Lia.
From S2P Require Import Prelude.
From S2P Require Import RuntimeValue.
From S2P Require Import SpecAst.
From S2P Require Import EvalOps.
From S2P Require Import Evaluator.
From S2P Require Import Bytecode.

#[local] Open Scope Z_scope.

(** ** Forgetting types *)

Definition untyped_binding (b : Binding) : Binding := MkBinding (pattern b) None Exec.

Fixpoint untyped (e : Expr) : Expr :=
  match e with
  | EConjunction items => EConjunction (map untyped items)
  | EDisjunction items => EDisjunction (map untyped items)
  | EImplies lhs rhs => EImplies (untyped lhs) (untyped rhs)
  | EIff lhs rhs => EIff (untyped lhs) (untyped rhs)
  | ENot inner => ENot (untyped inner)
  | EForall vars _ body => EForall (map untyped_binding vars) [] (untyped body)
  | EExists vars body => EExists (map untyped_binding vars) (untyped body)
  | EClosure params body => EClosure (map untyped_binding params) (untyped body)
  | EChoose vars body => EChoose (map untyped_binding vars) (untyped body)
  | EIf cond then_branch else_branch => EIf (untyped cond) (untyped then_branch) (option_map untyped else_branch)
  | EMatch scrutinee arms =>
      EMatch (untyped scrutinee) (map (fun arm => (arm.1.1, option_map untyped arm.1.2, untyped arm.2)) arms)
  | ELet binding value body => ELet (untyped_binding binding) (untyped value) (untyped body)
  | EEq lhs rhs => EEq (untyped lhs) (untyped rhs)
  | ENe lhs rhs => ENe (untyped lhs) (untyped rhs)
  | ELt lhs rhs => ELt (untyped lhs) (untyped rhs)
  | ELe lhs rhs => ELe (untyped lhs) (untyped rhs)
  | EGt lhs rhs => EGt (untyped lhs) (untyped rhs)
  | EGe lhs rhs => EGe (untyped lhs) (untyped rhs)
  | EIs base variant => EIs (untyped base) variant
  | EField base field => EField (untyped base) field
  | EIndex base idx => EIndex (untyped base) (untyped idx)
  | EArrow base field => EArrow (untyped base) field
  | EStruct name fields => EStruct name (map (fun f => (f.1, untyped f.2)) fields)
  | EStructUpdate name base fields =>
      EStructUpdate name (untyped base) (map (fun f => (f.1, untyped f.2)) fields)
  | ESeqLit items => ESeqLit (map untyped items)
  | ESetLit items => ESetLit (map untyped items)
  | EMapLit entries => EMapLit (map (fun p => (untyped p.1, untyped p.2)) entries)
  | ECall func args => ECall func (map untyped args)
  | EMethodCall receiver method args => EMethodCall (untyped receiver) method (map untyped args)
  | EView inner => EView (untyped inner)
  | ECast inner _ => ECast (untyped inner) TInt
  | EBinary lhs op rhs => EBinary (untyped lhs) op (untyped rhs)
  | EUnary op inner => EUnary op (untyped inner)
  | ESeqEmpty | ESetEmpty | EMapEmpty | EIdent _ | ELiteral _ | EConstantValue _ => e
  end.

(** ** The compiler forgets them *)

Section untyped.
Context `{Handles}.

Definition same_code (e : Expr) : Prop := forall locals c, compile_expr (untyped e) locals c = compile_expr e locals c.

(** A closure is compiled by the call it is an argument of. *)
Definition same_code_deep (e : Expr) : Prop :=
  same_code e /\ forall params body, e = EClosure params body -> same_code body.

Lemma bind_ext {A B} (r r' : Res A) (k k' : A -> Res B) :
  r = r' -> (forall x, k x = k' x) -> mbind k r = mbind k' r'.
Proof. intros -> Hk. destruct r'; cbn; [apply Hk|done..]. Qed.

Lemma compile_all_untyped locals items c :
  Forall same_code items ->
  compile_all (fun e => compile_expr e locals) (map untyped items) c = compile_all (fun e => compile_expr e locals) items c.
Proof.
  intros Hi. revert c. induction Hi as [|e items He _ IH]; intros c; cbn; [done|]. by apply bind_ext.
Qed.

Lemma compile_entries_untyped locals entries c :
  Forall (fun p => same_code p.1 /\ same_code p.2) entries ->
  compile_entries (fun e => compile_expr e locals) (map (fun p => (untyped p.1, untyped p.2)) entries) c
  = compile_entries (fun e => compile_expr e locals) entries c.
Proof.
  intros Hi. revert c. induction Hi as [|[k v] entries [Hk Hv] _ IH]; intros c; cbn; [done|].
  apply bind_ext; [apply Hk|]. intros c1. by apply bind_ext.
Qed.

Notation forget := (map (fun f : Str * Expr => (f.1, untyped f.2))).

Lemma forget_names fields : (forget fields).*1 = fields.*1.
Proof. induction fields as [|[f e] fields IH]; cbn; [done|]. by f_equal. Qed.

Lemma forget_base fields : struct_base (forget fields) = struct_base fields.
Proof. induction fields as [|[f e] fields IH]; cbn; [done|]. by rewrite IH. Qed.

Lemma compile_fields_untyped locals fields c :
  Forall (fun p => same_code p.2) fields ->
  compile_fields (fun e => compile_expr e locals) (forget fields) c = compile_fields (fun e => compile_expr e locals) fields c
  /\ compile_regular (fun e => compile_expr e locals) (forget fields) c = compile_regular (fun e => compile_expr e locals) fields c
  /\ compile_base (fun e => compile_expr e locals) (forget fields) c = compile_base (fun e => compile_expr e locals) fields c.
Proof.
  intros Hi. revert c. induction Hi as [|[f e] fields He _ IH]; intros c; cbn -[str]; [done|]. rewrite forget_base.
  split; [apply bind_ext; [apply He|intros c1; apply IH]|].
  case_decide; [split; [apply IH|]; case_match; [apply IH|apply He]|].
  split; [apply bind_ext; [apply He|intros c1; apply IH]|apply IH].
Qed.

Lemma compile_junction_untyped locals jump items c :
  Forall same_code items ->
  compile_junction (fun e => compile_expr e locals) jump (map untyped items) c
  = compile_junction (fun e => compile_expr e locals) jump items c.
Proof.
  intros Hi. revert c. induction Hi as [|e items He _ IH]; intros c; cbn; [done|].
  apply bind_ext; [apply He|]. intros c1. by apply bind_ext.
Qed.

Lemma short_circuit_untyped locals jump if_all if_any items c :
  Forall same_code items ->
  compile_short_circuit (fun e => compile_expr e locals) jump if_all if_any (map untyped items) c
  = compile_short_circuit (fun e => compile_expr e locals) jump if_all if_any items c.
Proof.
  intros Hi. unfold compile_short_circuit. rewrite compile_junction_untyped by done. by destruct items.
Qed.

Lemma circuit_ext jump otherwise (lhs lhs' rhs rhs' : Chunk -> Res Chunk) c :
  (forall c, lhs c = lhs' c) -> (forall c, rhs c = rhs' c) ->
  compile_binary_circuit jump otherwise lhs rhs c = compile_binary_circuit jump otherwise lhs' rhs' c.
Proof. intros Hl Hr. unfold compile_binary_circuit. apply bind_ext; [done|]. intros c1. by apply bind_ext. Qed.

Lemma compile_quantifier_untyped op body vars locals c :
  same_code body ->
  compile_quantifier op (compile_expr (untyped body)) (map untyped_binding vars) locals c
  = compile_quantifier op (compile_expr body) vars locals c.
Proof.
  intros Hb. revert locals c. induction vars as [|v vars IH]; intros locals c; cbn; [apply Hb|].
  destruct (pattern v); [done| |done..]. destruct (alloc_local c) as [c1 slot]. by apply bind_ext.
Qed.

Lemma compile_closure_untyped op params body locals c :
  same_code body ->
  compile_closure_opcode op (map untyped_binding params) (compile_expr (untyped body)) locals c
  = compile_closure_opcode op params (compile_expr body) locals c.
Proof.
  intros Hb. destruct params as [|v params]; cbn; [done|]. destruct (pattern v); [done| |done..].
  destruct (alloc_local c) as [c1 slot]. by apply bind_ext.
Qed.

Notation forget_arms :=
  (map (fun arm : Pattern * option Expr * Expr => (arm.1.1, option_map untyped arm.1.2, untyped arm.2))).

Lemma compile_arms_untyped slot arms locals c :
  Forall (fun arm => option_all same_code arm.1.2 /\ same_code arm.2) arms ->
  compile_arms compile_expr slot (forget_arms arms) locals c = compile_arms compile_expr slot arms locals c.
Proof.
  intros Ha. revert c. induction Ha as [|[[p guard] body] arms [Hg Hb] _ IH]; intros c; cbn; [done|].
  destruct (compile_pattern_bind p slot _ locals) as [c1 locals']. destruct guard as [gd|]; cbn in *.
  - apply bind_ext; [apply Hg|]. intros c2. apply bind_ext; [apply Hb|]. intros c3.
    do 3 (apply bind_ext; [done|]; intros ?). by apply bind_ext.
  - apply bind_ext; [apply Hb|]. intros c2. apply bind_ext; [done|]. intros c3. by apply bind_ext.
Qed.

(** The arguments of a call that is compiled as any other. *)
Lemma other_args_untyped locals args (k : Chunk -> Res Chunk) c :
  Forall same_code_deep args ->
  (c ← compile_all (fun e => compile_expr e locals) (map untyped args) c; k c)
  = (c ← compile_all (fun e => compile_expr e locals) args c; k c).
Proof.
  intros Ha. apply bind_ext; [|done]. apply compile_all_untyped. eapply Forall_impl; [exact Ha|]. by intros e [? _].
Qed.

(** A case analysis with the same result in every branch. *)
Lemma same_branches {T} (a : Expr) (x : T) : match a with EClosure _ _ => x | _ => x end = x.
Proof. by destruct a. Qed.

(** A call is compiled with its arguments, but for the two constructors of
    collections from closures. *)
Lemma compile_call_shape func args locals c :
  compile_expr (ECall func args) locals c
  = let other := c ← compile_all (fun e => compile_expr e locals) args c; Ok (compile_call func (seq_len args) c) in
    match args with
    | [EClosure params body] =>
        if decide (path_name func = str "Set::new")
        then compile_closure_opcode SetNew params (compile_expr body) locals c else other
    | [domain; EClosure params body] =>
        if decide (path_name func = str "Map::new")
        then c ← compile_expr domain locals c; compile_closure_opcode MapNew params (compile_expr body) locals c else other
    | _ => other
    end.
Proof. reflexivity. Qed.

Lemma compile_call_two func a b locals c :
  compile_expr (ECall func [a; b]) locals c
  = let other := c ← compile_all (fun e => compile_expr e locals) [a; b] c; Ok (compile_call func 2 c) in
    match b with
    | EClosure params body =>
        if decide (path_name func = str "Map::new")
        then c ← compile_expr a locals c; compile_closure_opcode MapNew params (compile_expr body) locals c else other
    | _ => other
    end.
Proof. rewrite compile_call_shape. apply (same_branches a). Qed.

Lemma compile_call_many func a b d args locals c :
  compile_expr (ECall func (a :: b :: d :: args)) locals c
  = (c ← compile_all (fun e => compile_expr e locals) (a :: b :: d :: args) c;
     Ok (compile_call func (seq_len (a :: b :: d :: args)) c)).
Proof. rewrite compile_call_shape. etrans; [apply (same_branches a)|apply (same_branches b)]. Qed.

Lemma call_untyped func args : Forall same_code_deep args -> same_code (ECall func args).
Proof.
  intros Ha locals c.
  assert ((c ← compile_all (fun e => compile_expr e locals) (map untyped args) c;
      Ok (compile_call func (seq_len (map untyped args)) c))
    = (c ← compile_all (fun e => compile_expr e locals) args c; Ok (compile_call func (seq_len args) c))) as Hgen.
  { unfold seq_len. rewrite length_map. by apply (other_args_untyped locals args (fun c => Ok (compile_call func _ c))). }
  destruct args as [|a [|b [|d args]]].
  - exact Hgen.
  - apply Forall_cons in Ha as [[_ Ha] _]. destruct a; try exact Hgen. cbn [untyped map compile_expr].
    case_decide; [|exact Hgen]. apply compile_closure_untyped. by eapply Ha.
  - apply Forall_cons in Ha as [[Ha _] [[_ Hb] _]%Forall_cons]. cbn [untyped map]. rewrite !compile_call_two.
    destruct b; try exact Hgen. cbn [untyped]. cbv zeta. case_decide; [|exact Hgen].
    apply bind_ext; [apply Ha|]. intros c1. apply compile_closure_untyped. by eapply Hb.
  - cbn [untyped map]. rewrite !compile_call_many. exact Hgen.
Qed.

Lemma method_untyped receiver method args :
  same_code receiver -> Forall same_code_deep args -> same_code (EMethodCall receiver method args).
Proof.
  intros Hr Ha locals c.
  assert ((c ← compile_expr (untyped receiver) locals c;
      c ← compile_all (fun e => compile_expr e locals) (map untyped args) c;
      Ok (emit (MethodCall (handle method) (as_u8 (seq_len (map untyped args)))) c))
    = (c ← compile_expr receiver locals c; c ← compile_all (fun e => compile_expr e locals) args c;
       Ok (emit (MethodCall (handle method) (as_u8 (seq_len args))) c))) as Hgen.
  { unfold seq_len. rewrite length_map. apply bind_ext; [apply Hr|]. intros c1.
    by apply (other_args_untyped locals args (fun c => Ok (emit (MethodCall (handle method) _) c))). }
  destruct args as [|a [|b args]].
  - exact Hgen.
  - apply Forall_cons in Ha as [[_ Ha] _]. destruct a; try exact Hgen. cbn [untyped map compile_expr].
    case_decide; [|exact Hgen]. apply bind_ext; [apply Hr|]. intros c1. apply compile_closure_untyped. by eapply Ha.
  - destruct a; exact Hgen.
Qed.

Lemma struct_untyped name fields : Forall (fun p => same_code p.2) fields -> same_code (EStruct name fields).
Proof.
  intros Hf locals c. cbn [untyped compile_expr]. unfold regular_names. rewrite forget_base, forget_names.
  destruct (struct_base fields).
  - apply bind_ext; [by apply compile_fields_untyped|]. intros c1. apply bind_ext; [by apply compile_fields_untyped|done].
  - apply bind_ext; [by apply compile_fields_untyped|done].
Qed.

Lemma update_untyped name base fields :
  same_code base -> Forall (fun p => same_code p.2) fields -> same_code (EStructUpdate name base fields).
Proof.
  intros Hb Hf locals c. cbn [untyped compile_expr]. rewrite forget_names. apply bind_ext; [apply Hb|]. intros c1.
  apply bind_ext; [by apply compile_fields_untyped|done].
Qed.

Lemma match_untyped scrutinee arms :
  same_code scrutinee -> Forall (fun arm => option_all same_code arm.1.2 /\ same_code arm.2) arms ->
  same_code (EMatch scrutinee arms).
Proof.
  intros Hs Ha locals c. cbn [untyped compile_expr]. unfold compile_match. apply bind_ext; [apply Hs|]. intros c1.
  destruct (store_new c1) as [c2 slot]. by rewrite compile_arms_untyped.
Qed.

Lemma let_untyped b value body : same_code value -> same_code body -> same_code (ELet b value body).
Proof.
  intros Hv Hb locals c. cbn [untyped compile_expr untyped_binding pattern]. destruct (pattern b); [done| |done..].
  apply bind_ext; [apply Hv|]. intros c1. destruct (store_new c1) as [c2 slot]. apply Hb.
Qed.

Lemma if_untyped cond then_branch else_branch :
  same_code cond -> same_code then_branch -> option_all same_code else_branch -> same_code (EIf cond then_branch else_branch).
Proof.
  intros Hc Ht He locals c. cbn [untyped compile_expr]. apply bind_ext; [apply Hc|]. intros c1.
  apply bind_ext; [apply Ht|]. intros c2. apply bind_ext; [done|]. intros c3.
  apply bind_ext; [|done]. destruct else_branch as [e|]; [apply He|done].
Qed.

Lemma deep_shallow {A} (f : A -> Expr) (l : list A) :
  Forall (fun x => same_code_deep (f x)) l -> Forall (fun x => same_code (f x)) l.
Proof. intros Hl. eapply Forall_impl; [exact Hl|]. by intros x [? _]. Qed.

(** The unary cases, the binary ones. *)
Lemma unary_untyped {A} (r r' : Res A) (k : A -> Res Chunk) : r = r' -> mbind k r = mbind k r'.
Proof. by intros ->. Qed.

Lemma binary_untyped lhs rhs op locals c :
  same_code lhs -> same_code rhs ->
  (c ← compile_expr (untyped lhs) locals c; c ← compile_expr (untyped rhs) locals c; Ok (emit op c))
  = (c ← compile_expr lhs locals c; c ← compile_expr rhs locals c; Ok (emit op c)).
Proof. intros Hl Hr. apply bind_ext; [apply Hl|]. intros c1. by apply unary_untyped. Qed.

Lemma compile_untyped e : same_code_deep e.
Proof.
  induction e using expr_ind; (split; [|intros ps bd [=]; subst]).
  all: repeat match goal with Hx : same_code_deep _ |- _ => destruct Hx as [? _] end; try done.
  all: try (intros locals c; cbn [untyped compile_expr]; first
    [ by apply binary_untyped | by apply unary_untyped | by apply compile_quantifier_untyped
    | apply short_circuit_untyped, (deep_shallow (fun e => e)); done
    | apply unary_untyped, compile_all_untyped, (deep_shallow (fun e => e)); done ]; fail).
  - intros locals c. by apply circuit_ext.
  - apply if_untyped; [done..|]. destruct e3; [|done]. match goal with Hx : option_all _ _ |- _ => apply Hx end.
  - apply match_untyped; [done|]. match goal with Hx : Forall _ arms |- _ => eapply Forall_impl; [exact Hx|] end.
    intros [[p g] body] [Hg [Hb _]]. split; [|exact Hb]. destruct g; [|done]. by destruct Hg.
  - by apply let_untyped.
  - by apply struct_untyped, (deep_shallow snd).
  - apply update_untyped; [done|]. by apply (deep_shallow snd).
  - intros locals c. cbn [untyped compile_expr]. unfold seq_len. rewrite length_map. apply unary_untyped.
    by apply compile_all_untyped, (deep_shallow (fun e => e)).
  - intros locals c. cbn [untyped compile_expr]. unfold seq_len. rewrite length_map. apply unary_untyped.
    by apply compile_all_untyped, (deep_shallow (fun e => e)).
  - intros locals c. cbn [untyped compile_expr]. unfold seq_len. rewrite length_map. apply unary_untyped.
    apply compile_entries_untyped.
    match goal with Hx : Forall _ entries |- _ => eapply Forall_impl; [exact Hx|] end. intros p [[Hk _] [Hv _]]. by split.
  - by apply call_untyped.
  - by apply method_untyped.
  - intros locals c. destruct op; cbn [untyped compile_expr]; first [by apply binary_untyped|by apply circuit_ext].
Qed.

(** Expressions that differ in types only have the same code. *)
Lemma same_untyped e e' names : untyped e = untyped e' -> compile_with_env e names = compile_with_env e' names.
Proof.
  intros He. unfold compile_with_env. destruct (alloc_env names chunk_new []) as [c slots].
  by rewrite <- (proj1 (compile_untyped e)), He, (proj1 (compile_untyped e')).
Qed.
End untyped.
