(* ===== verification/BytecodeProperties.v ===== *)
(** * Theorems about the bytecode of the model checker

    The solver evaluates by bytecode what the evaluator would evaluate: that the two
    agree, that compiling and running come to an end, and where they do not agree. *)

From stdpp Require Import prelude countable gmap sets list numbers fin_sets strings.
From Stdlib Require Import ZArith Lia.
From S2P Require Import Prelude.
From S2P Require Import SmallIntSet.
From S2P Require Import RuntimeValue.
From S2P Require Import SpecAst.
From S2P Require Import EvalOps.
From S2P Require Import Evaluator.
From S2P Require Import Bytecode.
From S2P Require Import BytecodeVm.
From S2P Require Import VmLaws.
From S2P Require Import CompilerLaws.
From S2P Require Import CompilerBodies.
From S2P Require Import CompilerCorrect.
From S2P Require Import BytecodeTotal.
From S2P Require Import BytecodeTypes.

#[local] Open Scope Z_scope.

(** ** The environment in its slots *)

Lemma seq_get_bounds {A} (l : list A) n x : seq_get l n = Some x -> 0 <= n < seq_len l.
Proof.
  unfold seq_get, seq_len. case_decide; [|done]. intros Hl%lookup_lt_Some. lia.
Qed.

Lemma get_binding_of name v env : NoDup env.*1 -> (name, v) ∈ env -> get_binding name env = Some v.
Proof.
  induction env as [|[k w] env IH]; intros Hnd Hin; [by apply elem_of_nil in Hin|]. inversion_clear Hnd as [|? ? Hk Hnd1]. cbn.
  apply elem_of_cons in Hin as [[= <- <-]|Hin]; [by rewrite decide_True|].
  rewrite decide_False; [by apply IH|]. intros ->. apply Hk, list_elem_of_fmap. by exists (name, v).
Qed.

(** The slots of names from a slot on. *)
Fixpoint slots_from (i : Z) (names : list Str) : list (Str * Z) :=
  match names with [] => [] | name :: names => (name, i) :: slots_from (i + 1) names end.

Lemma slots_from_bounds names : forall i p, p ∈ slots_from i names -> i <= p.2 < i + seq_len names.
Proof.
  induction names as [|name names IH]; intros i p Hp; [by apply elem_of_nil in Hp|]. rewrite seq_len_cons.
  pose proof (seq_len_nonneg names). apply elem_of_cons in Hp as [->|Hp]; [cbn; lia|]. apply IH in Hp. lia.
Qed.

Lemma alloc_env_slots names : forall i slots, 0 <= i -> i + seq_len names < 2 ^ 16 ->
  alloc_env names (MkChunk [] [] [] [] [] i) slots = (MkChunk [] [] [] [] [] (i + seq_len names), slots ++ slots_from i names).
Proof.
  induction names as [|name names IH]; intros i slots Hi Hlen; cbn.
  - rewrite app_nil_r. unfold seq_len. cbn. by rewrite Z.add_0_r.
  - rewrite seq_len_cons in Hlen. pose proof (seq_len_nonneg names). unfold set_ops. cbn. rewrite as_u16_small by lia.
    rewrite IH by lia. rewrite seq_len_cons, <- app_assoc. do 2 f_equal. lia.
Qed.

(** Filling the slots puts each value into its slot, and leaves the locals below. *)
Lemma fill_slots_spec env names : (forall name, name ∈ names -> is_Some (get_binding name env)) ->
  forall i lv, 0 <= i -> i + seq_len names <= seq_len lv ->
  exists lv', fill_slots (slots_from i names) env lv = Some lv' /\ agree i lv lv'
    /\ forall p, p ∈ slots_from i names -> seq_get lv' p.2 = get_binding p.1 env.
Proof.
  induction names as [|name names IH]; intros Hn i lv Hi Hlen; cbn.
  - exists lv. split; [done|]. split; [apply locals_agree_refl|]. by intros p []%elem_of_nil.
  - rewrite seq_len_cons in Hlen. pose proof (seq_len_nonneg names). destruct (Hn name) as [v Hv]; [by left|]. rewrite Hv.
    destruct (store_local_spec i v lv) as (lv1 & Hst & Hget & Hag); [lia|]. rewrite Hst. cbn.
    destruct (IH (fun n Hin => Hn n (list_elem_of_further _ _ _ Hin)) (i + 1) lv1) as (lv2 & Hf & Hag2 & Hp); [lia|rewrite (proj1 Hag); lia|].
    exists lv2. split; [done|]. split; [eapply locals_agree_trans; [|exact Hag|exact Hag2]; lia|].
    intros p [->|Hin]%elem_of_cons; [|by apply Hp]. cbn. rewrite Hv, <- Hget. apply (proj2 Hag2). lia.
Qed.

Lemma env_ok_slots env lv : NoDup env.*1 -> forall (later : Bindings) i, later `suffix_of` env ->
  (forall p, p ∈ slots_from i later.*1 -> seq_get lv p.2 = get_binding p.1 env) -> env_ok later (slots_from i later.*1) lv.
Proof.
  intros Hnd. induction later as [|[x v] later IH]; intros i Hsuf Hp; [constructor|]. constructor.
  - split; [done|]. pose proof (Hp (x, i) ltac:(by left)) as Hx. cbn in *. rewrite Hx. apply get_binding_of; [done|].
    destruct Hsuf as [k ->]. apply elem_of_app. right. by left.
  - apply IH; [by eapply suffix_cons_l|]. intros p Hin. apply Hp. by right.
Qed.

Lemma env_ok_reverse bs locals lv : env_ok bs locals lv -> env_ok (reverse bs) (reverse locals) lv.
Proof. apply Forall2_reverse. Qed.

Lemma has_binding name (env : Bindings) : name ∈ env.*1 -> is_Some (get_binding name env).
Proof.
  induction env as [|[k v] env IH]; intros Hin; [by apply elem_of_nil in Hin|]. cbn. case_decide as Hk; [by eexists|].
  apply IH. rewrite fmap_cons in Hin. by apply elem_of_cons in Hin as [->|Hin].
Qed.

(** ** Agreement of the bytecode with the evaluator *)

Section agreement.
Context `{HandlesOk} (ctx : EvalContext) (Hdomains : same_domains ctx).

(** The room that the compiled code has: the environment's slots and the instructions
    have indices of 16 bits. *)
Definition has_room (e : Expr) (names : list Str) : Prop :=
  forall compiled, compile_with_env e names = Ok compiled -> seq_len names + seq_len (ops (chunk compiled)) <= 2 ^ 16.

Lemma compile_with_env_Ok e names compiled :
  compile_with_env e names = Ok compiled -> has_room e names ->
  exists c, compile_expr e (reverse (slots_from 0 names)) (MkChunk [] [] [] [] [] (seq_len names)) = Ok c
    /\ compiled = MkCompiled (emit Return c) (slots_from 0 names) /\ seq_len names + seq_len (ops c) < 2 ^ 16.
Proof.
  intros Hc Hroom. pose proof (Hroom _ Hc) as Hlen. clear Hroom. unfold compile_with_env in Hc.
  destruct (decide (seq_len names < 2 ^ 16)) as [Hn|Hn].
  - unfold chunk_new in Hc. rewrite alloc_env_slots in Hc by (pose proof (seq_len_nonneg names); lia). inv_bind Hc. injection Hc as <-.
    cbn in Hlen. rewrite seq_len_snoc in Hlen. exists x. cbn in *. split_and!; [done|done|lia].
  - destruct (alloc_env names chunk_new []) as [c slots]. inv_bind Hc. injection Hc as <-. cbn in Hlen. rewrite seq_len_snoc in Hlen.
    pose proof (seq_len_nonneg (ops x)). lia.
Qed.

Lemma vm_agrees e env compiled v :
  portable e = true -> NoDup env.*1 -> compile_with_env e env.*1 = Ok compiled -> has_room e env.*1 ->
  eval_expr ctx e (reverse env) = Ok v -> vm_eval_with_env ctx compiled env = Some (Ok v).
Proof.
  intros Hp Hnd Hc Hroom He. destruct (compile_with_env_Ok _ _ _ Hc Hroom) as (c & Hcomp & -> & Hfit). clear Hc Hroom.
  set (n := seq_len env.*1) in *. pose proof (seq_len_nonneg env.*1 : 0 <= n) as Hn.
  destruct (proj1 (compile_correct ctx n Hn Hdomains e) Hp _ _ _ Hcomp) as (code & Hops & _ & R). cbn in Hops.
  destruct R as (Hw & Hlocals & Heff); [|unfold fits; lia|]. { split; cbn; unfold seq_len in *; cbn; lia. }
  cbn [num_locals] in Hlocals, Heff. unfold vm_eval_with_env. cbn [env_slots chunk].
  set (lv0 := replicate _ _). assert (seq_len lv0 = num_locals c) as Hlen0.
  { unfold lv0, seq_len. rewrite length_replicate. cbn. lia. }
  destruct (fill_slots_spec env env.*1 (fun x Hx => has_binding x env Hx) 0 lv0) as (lv & -> & Hag & Hslots); [lia|fold n; lia|].
  pose proof (env_ok_reverse _ _ _ (env_ok_slots env lv Hnd env 0 ltac:(done) Hslots)) as Henv.
  unfold vm_eval_with_locals. cbn [ops emit set_ops]. rewrite Hops.
  destruct (Heff) with LocalsLoop (emit Return c) (code ++ [Return]) 0%nat (reverse env) ([] : Stack) [v] lv as (lv1 & [_ Hr] & _).
  - apply Forall_forall. intros p Hin. rewrite elem_of_reverse in Hin. apply slots_from_bounds in Hin. cbn. fold n in Hin. lia.
  - apply pools_emit.
  - by apply code_at_app with (b := [Return]), code_at_whole.
  - rewrite (proj1 Hag), Hlen0. done.
  - done.
  - by exists v.
  - rewrite (Hr 1%nat (Ok v, lv1)); [done| |].
    + cbn [vm_run]. by rewrite lookup_app_r, Nat.sub_diag by lia.
    + unfold vm_fuel. cbn. rewrite Hops, length_app. cbn. lia.
Qed.

(** The cache holds what its keys compile to, [code] being what is at an address. *)
Definition cache_ok (code : Z -> Expr) (cache : BytecodeCache) : Prop :=
  forall address names compiled, cache !! (address, names) = Some compiled -> compile_with_env (code address) names = Ok compiled.

Lemma get_or_compile_ok code cache address names cache' r :
  cache_ok code cache -> get_or_compile cache address (code address) names = (cache', r) ->
  cache_ok code cache' /\ r = compile_with_env (code address) names.
Proof.
  intros Hok. unfold get_or_compile. destruct (cache !! (address, names)) as [compiled|] eqn:Hl.
  - intros [= <- <-]. by rewrite (Hok _ _ _ Hl).
  - destruct (compile_with_env (code address) names) as [compiled| |] eqn:Hc; intros [= <- <-]; [|done..].
    split; [|done]. intros a ns k. destruct (decide ((a, ns) = (address, names))) as [[= -> ->]|Hne].
    + unfold BytecodeCache. rewrite lookup_insert_eq. by intros [= <-].
    + unfold BytecodeCache. rewrite lookup_insert_ne by congruence. apply Hok.
Qed.

(** What the solver answers when the expression compiles. *)
Lemma compiled_answer code cache address env compiled :
  cache_ok code cache -> compile_with_env (code address) env.*1 = Ok compiled ->
  (eval_with_environment None (Some cache) ctx address (code address) env).2 = vm_eval_with_env ctx compiled env.
Proof.
  intros Hcache Hc. unfold eval_with_environment. cbn [mbind option_bind].
  destruct (get_or_compile cache address (code address) env.*1) as [cache' r] eqn:Hg.
  destruct (get_or_compile_ok _ _ _ _ _ _ Hcache Hg) as [_ ->]. by rewrite Hc.
Qed.
End agreement.

(** Neither compiling nor running a chunk fails to end, whatever the expression and
    the chunk. *)
Lemma compile_with_env_no_panic `{Handles} e names : compile_with_env e names <> Panic.
Proof.
  unfold compile_with_env. destruct (alloc_env names chunk_new []) as [c slots].
  pose proof (proj1 (compile_total e) (reverse slots) c) as Hc. by destruct (compile_expr e (reverse slots) c).
Qed.

(** ** A solver to compute with *)

#[local] Instance sample_handles : Handles :=
  {| handle_name := fun sym => default [] (decode (Z.to_pos sym)); handle := fun s => Z.pos (encode s) |}.

#[local] Instance sample_handles_ok : HandlesOk.
Proof. intros s. cbn. by rewrite decode_encode. Qed.

(** The domain of a binding is that of its type. *)
Definition domain_by_type (b : Binding) : Res (list RuntimeValue) :=
  match binding_ty b with Some TBool => Ok [VBool false; VBool true] | _ => Ok (VInt <$> [0; 1; 2]) end.
Definition sample_ctx : EvalContext := MkEvalContext (MkBounds 10 300 10) None None (Some domain_by_type).

Lemma sample_domains : same_domains sample_ctx.
Proof.
  intros domain b slot [= <-] Hint. unfold int_var, domain_by_type in *. cbn. destruct (binding_ty b) as [[]|]; done.
Qed.

(** What the evaluator and the solver's bytecode give. *)
Definition by_evaluator (e : Expr) (env : Bindings) : Res RuntimeValue := eval_expr sample_ctx e (reverse env).
Definition by_bytecode (e : Expr) (env : Bindings) : option (Res RuntimeValue) :=
  (eval_with_environment None (Some ∅) sample_ctx 0 e env).2.

Definition var (s : string) : Expr := EIdent (str s).
Definition num (n : Z) : Expr := ELiteral (LInt n).
Definition bound_var (s : string) (ty : Ty) : Binding := MkBinding (PIdent (str s)) (Some ty) Exec.
Definition path (l : list string) : Path := MkPath (str <$> l).

(** [forall|i: int| exists|j: int| i == j && (x < 3 ==> P { a: x, b: i }.b + j == 2 * i)]. *)
Definition sample_expr : Expr :=
  EForall [bound_var "i" TInt] [] (EExists [bound_var "j" TInt] (EConjunction
    [EEq (var "i") (var "j");
     EImplies (ELt (var "x") (num 3))
       (EEq (EBinary (EField (EStruct (path ["P"]) [(str "a", var "x"); (str "b", var "i")]) (str "b")) Add (var "j"))
            (EBinary (num 2) Mul (var "i")))])).
Definition sample_env : Bindings := [(str "x", VInt 2); (str "y", VBool true)].

(** ** The theorems *)

(** C27: The bytecode agrees with the evaluator.  Let the machine's domains for the
    integers it makes up be those of the integers quantified over, and let the cache
    hold what its keys compile to.  For an expression of the kind that is compiled
    faithfully ([portable]) in an environment of distinct names, with room for 16-bit
    indices, if the evaluator gives a value, then the solver's evaluation, which looks
    the expression up in the cache, compiles it if it is not there, and runs the code
    on the environment in its slots or falls back to the evaluator, ends with the same
    value and leaves the cache right. *)
Theorem compiled_expressions_agree `{HandlesOk} (ctx : EvalContext) (code : Z -> Expr) (cache : BytecodeCache)
    (address : Z) (env : Bindings) (v : RuntimeValue) :
  same_domains ctx -> cache_ok code cache -> portable (code address) = true -> NoDup env.*1 -> has_room (code address) env.*1 ->
  eval_expr ctx (code address) (reverse env) = Ok v ->
  exists cache', eval_with_environment None (Some cache) ctx address (code address) env = (Some cache', Some (Ok v))
    /\ cache_ok code cache'.
Proof.
  intros Hdomains Hcache Hp Hnd Hroom He. unfold eval_with_environment. cbn [mbind option_bind].
  destruct (get_or_compile cache address (code address) env.*1) as [cache' compiled] eqn:Hg.
  destruct (get_or_compile_ok _ _ _ _ _ _ Hcache Hg) as [Hok ->]. exists cache'. split; [|done].
  destruct (compile_with_env (code address) env.*1) as [compiled|err|] eqn:Hc.
  - by rewrite (vm_agrees ctx Hdomains _ _ _ _ Hp Hnd Hc Hroom He).
  - by rewrite He.
  - by apply compile_with_env_no_panic in Hc.
Qed.

Lemma compiled_expressions_agree_witness :
  exists cache', eval_with_environment None (Some ∅) sample_ctx 7 sample_expr sample_env = (Some cache', Some (Ok (VBool true)))
    /\ cache_ok (fun _ => sample_expr) cache'.
Proof.
  apply (compiled_expressions_agree sample_ctx (fun _ => sample_expr) ∅ 7 sample_env (VBool true)).
  - exact sample_domains.
  - intros address names compiled Hl. unfold BytecodeCache in Hl. by rewrite lookup_empty in Hl.
  - reflexivity.
  - apply (bool_decide_unpack _). vm_compute. exact I.
  - intros compiled Hc. vm_compute in Hc. injection Hc as <-. vm_compute. discriminate.
  - vm_compute. reflexivity.
Defined.

(** C28: Evaluation by bytecode ends.  The compiler gives code or an error for every
    expression and never panics, since each jump and body length that it goes back to
    set is still where it was emitted; and the machine stops on every chunk, with
    every locals, within one iteration per instruction and one more. *)
Theorem bytecode_always_ends `{Handles} :
  (forall e names, compile_with_env e names <> Panic)
  /\ forall ctx k, is_Some (vm_eval ctx k) /\ forall lv, is_Some (vm_eval_with_locals ctx k lv).
Proof.
  split; [apply compile_with_env_no_panic|]. intros ctx k. split; [apply vm_eval_total|]. apply vm_eval_with_locals_total.
Qed.

(** C39: The bytecode has no types, where the evaluator has.  Let the caches hold what
    their keys compile to.  Two expressions that differ only in the types of casts and
    of bound variables, in the modes of variables and in triggers ([untyped]) get
    the same answer of the solver, whatever the environment, when one of them
    compiles: a quantifier over booleans is answered like one over integers.  And a
    cast is no operation: of an expression that is compiled faithfully and whose
    value is [v], the solver answers a cast to any type with [v] itself, where the
    evaluator converts [v] or gives an error. *)
Theorem bytecode_ignores_types `{HandlesOk} (ctx : EvalContext) (code : Z -> Expr) (cache : BytecodeCache)
    (address : Z) (env : Bindings) :
  cache_ok code cache ->
  (forall code' cache' address' compiled,
     cache_ok code' cache' -> untyped (code' address') = untyped (code address) ->
     compile_with_env (code address) env.*1 = Ok compiled ->
     (eval_with_environment None (Some cache') ctx address' (code' address') env).2
     = (eval_with_environment None (Some cache) ctx address (code address) env).2)
  /\ (forall inner ty v,
     code address = ECast inner ty -> same_domains ctx -> portable inner = true -> NoDup env.*1 -> has_room inner env.*1 ->
     eval_expr ctx inner (reverse env) = Ok v ->
     (forall compiled, compile_with_env (code address) env.*1 = Ok compiled ->
        (eval_with_environment None (Some cache) ctx address (code address) env).2 = Some (Ok v))
     /\ eval_expr ctx (code address) (reverse env) = cast_value v ty).
Proof.
  intros Hcache. split.
  - intros code' cache' address' compiled Hcache' He Hc.
    rewrite (compiled_answer ctx code' cache' address' env compiled Hcache') by (by rewrite (same_untyped _ _ _ He)).
    by rewrite (compiled_answer ctx code cache address env compiled Hcache Hc).
  - intros inner ty v Hcast Hdomains Hp Hnd Hroom Hv. split.
    + intros compiled Hc. rewrite (compiled_answer ctx code cache address env compiled Hcache Hc).
      rewrite Hcast in Hc. by rewrite (vm_agrees ctx Hdomains inner env compiled v Hp Hnd Hc Hroom Hv).
    + rewrite Hcast. cbn. by rewrite Hv.
Qed.

(** The solver takes the natural number 1 for an integer by a cast that does
    nothing, and answers a quantifier over booleans like one over integers. *)
Lemma bytecode_ignores_types_witness :
  let cast := ECast (var "x") TInt in
  let env := [(str "x", VNat 1)] in
  let excluded_middle ty := EForall [bound_var "i" ty] [] (EBinary (var "i") Or (ENot (var "i"))) in
  by_bytecode cast env = Some (Ok (VNat 1)) /\ by_evaluator cast env = Ok (VInt 1)
  /\ by_bytecode (excluded_middle TBool) env = by_bytecode (excluded_middle TInt) env.
Proof.
  intros cast env excluded_middle.
  assert (forall e, cache_ok (fun _ => e) ∅) as Hcache.
  { intros e address names compiled Hl. unfold BytecodeCache in Hl. by rewrite lookup_empty in Hl. }
  destruct (proj2 (bytecode_ignores_types sample_ctx (fun _ => cast) ∅ 0 env (Hcache _)) (var "x") TInt (VNat 1))
    as [Hb He].
  - reflexivity.
  - exact sample_domains.
  - reflexivity.
  - apply (bool_decide_unpack _). vm_compute. exact I.
  - intros compiled Hc. vm_compute in Hc. injection Hc as <-. vm_compute. discriminate.
  - vm_compute. reflexivity.
  - split; [|split; [exact He|]].
    + destruct (compile_with_env cast env.*1) as [compiled|err|] eqn:Hc; [exact (Hb compiled eq_refl)|vm_compute in Hc; discriminate..].
    + destruct (compile_with_env (excluded_middle TInt) env.*1) as [compiled|err|] eqn:Hc; [|vm_compute in Hc; discriminate..].
      exact (proj1 (bytecode_ignores_types sample_ctx (fun _ => excluded_middle TInt) ∅ 0 env (Hcache _))
        (fun _ => excluded_middle TBool) ∅ 0 compiled (Hcache _) eq_refl Hc).
Defined.

(** Where the bytecode differs.  Outside the expressions of [portable] an answer
    depends on whether the solver uses bytecode.  In the order below: a cast is not
    compiled; a quantifier over booleans ranges over integers; an index out of range
    in a body is a panic instead of an error; [Set::new] ignores the range that its
    closure gives; a [match] compares no parts of a pattern, nor a literal with a
    natural number; of 256 items none is counted; a name that is not bound is a
    string; [is] of anything else than an enum is false; a [match] without a matching
    arm is the unit; keys of a map literal may repeat; an update may add a field; and
    [choose] of two variables fails. *)
Theorem bytecode_differs :
  let x := var "x" in let i := var "i" in
  let answers (e : Expr) (env : Bindings) (tree : Res RuntimeValue) (code : Res RuntimeValue) :=
    by_evaluator e env = tree /\ by_bytecode e env = Some code in
  answers (EEq (ECast (EMethodCall x (str "len") []) TInt) (num 1)) [(str "x", VSeq [VInt 7])] (Ok (VBool true)) (Ok (VBool false))
  /\ answers (EForall [bound_var "i" TBool] [] (EBinary i Or (ENot i))) [] (Ok (VBool true)) (Err Config)
  /\ answers (EExists [bound_var "i" TInt] (EGt (EIndex x i) (num 9))) [(str "x", VSeq [VInt 7])] (Err Config) Panic
  /\ answers (EMethodCall (ECall (path ["Set"; "new"]) [EClosure [bound_var "i" TInt] (EBinary (ELe (num 99) i) And (ELe i (num 102)))])
       (str "len") []) [] (Ok (VNat 4)) (Ok (VNat 2))
  /\ answers (EMatch x [(PTuple [PLiteral (LInt 1); PWildcard], None, num 5); (PWildcard, None, num 6)])
       [(str "x", VTuple [VInt 2; VInt 2])] (Ok (VInt 6)) (Ok (VInt 5))
  /\ answers (EMatch x [(PLiteral (LInt 2), None, num 5); (PWildcard, None, num 6)]) [(str "x", VNat 2)] (Ok (VInt 5)) (Ok (VInt 6))
  /\ answers (EMethodCall (ESetLit (replicate 256 (num 1))) (str "len") []) [] (Ok (VNat 1)) (Ok (VNat 0))
  /\ answers (EEq (var "z") (ELiteral (LString (str "z")))) [] (Err Config) (Ok (VBool true))
  /\ answers (EIs (num 1) (str "Some")) [] (Err Config) (Ok (VBool false))
  /\ answers (EMatch (num 1) [(PLiteral (LInt 2), None, num 5)]) [] (Err Config) (Ok VUnit)
  /\ answers (EMethodCall (EMapLit [(num 1, num 2); (num 1, num 3)]) (str "len") []) [] (Err Config) (Ok (VNat 1))
  /\ answers (EField (EStructUpdate None (EStruct (path ["P"]) [(str "a", num 1)]) [(str "b", num 2)]) (str "b")) [] (Err Config) (Ok (VInt 2))
  /\ answers (EChoose [bound_var "i" TInt; bound_var "j" TInt] (EEq i (var "j"))) [] (Ok (VInt 0)) (Err Config).
Proof. vm_compute. repeat split. Qed.
